(* ===== verification/_CoqProject ===== *)
-Q . S2P
Prelude.v
Broadcast.v
VersionedSwap.v
Ids.v
AssetPath.v
HeadHeader.v
Common.v
Text.v
Workspace.v
JobRegistry.v
JobRegistryFacts.v
JobStreams.v
FileSystem.v
FsLogic.v
FsAtomic.v
Schema.v
ActiveHead.v
HotHead.v
ApiErrors.v
Mgr.v
ActiveApi.v
HeadRotation.v
Staging.v
StagingFacts.v
FsRun.v
AssetTree.v
Dataset.v
Recovery.v
ActiveRecovery.v
RecoveryFacts.v
RecoverySafety.v
StorageReaper.v
StorageReaperFacts.v
ActiveFacts.v
ActiveBoot.v
ActivePublish.v
WorkspaceRegistry.v
WorkspaceRegistryFacts.v
RegistryNames.v
Framing.v
StreamIo.v
StreamIoFacts.v
AudioBuffer.v
AudioBufferFacts.v
F32.v
F32Facts.v
RequestPayload.v
InferenceKernel.v
Preproc.v
Resample.v
MicTypes.v
WavIo.v
WavIoFacts.v
OpusStream.v
OpusFacts.v
MicSource.v
MicArbitrator.v
MicFacts.v
MicPeriod.v
MicRuns.v
MicProperties.v
Config.v
InferenceEngine.v
InferenceRuns.v
ConfigCell.v
ConfigFacts.v
ConfigRuns.v
ConfigWatch.v
LaunchConfig.v
DrainRegistry.v
Finetune.v
FinetuneScan.v
FinetuneTrain.v
FinetuneRuns.v
FinetunePublish.v
FinetuneExamples.v
TrainJobs.v
TrainRun.v
Converter.v
ConvertRun.v
