(* ===== verification/Prelude.v ===== *)
(** * Acoustics-lab: a verification library for the daemon

    The repository is the [acousticsd] daemon: it captures audio from one of
    several microphones into a ring buffer, runs a backbone-plus-head
    classifier over it, streams audio, spectrograms and results to clients,
    keeps per-workspace datasets, trained heads and logs on disk behind an HTTP
    API, and is configured by two files it reloads while it runs.  This library
    models it from the formats and the storage up to the tasks that run
    concurrently.

    ** The program and the files that model it

    All paths are under [src/modules/].  A file [XFacts] or [XRuns] holds the
    theory of [X]; [XRuns] and [MicProperties] hold the theorems on whole runs.

    Shared ground.
    - [Prelude]: results and options, machine integers (widths are written out
      as bounds on [Z]), bytes of a Rust [str], generic list lemmas.
    - [Common], [Text] ([common/error.rs], [common/log_truncate.rs],
      [common/hex.rs], [common/time.rs], [file_mgr/error.rs] and the string
      functions of the language), [Ids] ([common/ids.rs]), [AssetPath]
      ([common/asset_path.rs]), [HeadHeader] ([common/head_header.rs]),
      [Workspace] ([common/workspace.rs]), [Broadcast] (the [tokio] broadcast
      channel, a parameter), [VersionedSwap] ([common/version.rs]).
    - [F32], [F32Facts]: IEEE binary32 and binary64 as the
      Standard Library's [spec_float], with bounds on sums, quotients and
      products after rounding.

    Storage.
    - [FileSystem], [FsLogic], [FsRun]: the storage model (not code of the
      repository: the meaning given to [std::fs], see below), its program logic
      for runs that may be cut and its rules for undisturbed runs.
    - [FsAtomic] ([file_mgr/fs_atomic.rs], [file_mgr/validate.rs]), [Schema]
      ([file_mgr/schema.rs], [file_mgr/cache.rs]), [Mgr] ([file_mgr.rs]).
    - [JobRegistry], [JobRegistryFacts], [JobStreams]
      ([file_mgr/job_registry.rs]): admission, the recent window, leases, the
      per-job event rings and the streams behind server-sent events.
    - [HeadRotation] ([file_mgr/head_rotation.rs]), [Staging]
      ([file_mgr/staging.rs]), [AssetTree], [Dataset] ([file_mgr/dataset.rs]),
      [WorkspaceRegistry], [RegistryNames] ([file_mgr/registry.rs]),
      [Recovery], [RecoverySafety] ([file_mgr/recovery.rs]),
      [StorageReaper] ([file_mgr/storage_reaper.rs]).
    - [ActiveHead], [ActiveApi], [ActiveRecovery], [ActiveFacts],
      [ActiveBoot], [ActivePublish] ([file_mgr/active_head_writer.rs]
      and the activation route), [HotHead] ([inference/head.rs]), [ApiErrors]
      ([api/error.rs]).

    Audio, features, inference.
    - [MicTypes], [MicSource], [MicArbitrator], [MicPeriod], [MicRuns],
      [MicProperties] ([audio_io/]): the catalogue and its
      policy, the sources, and the arbitration loop with failover.
    - [AudioBuffer] ([audio_buffer.rs]): the ring, every atomic access a step.
    - [Resample] ([dsp/resample.rs]), [WavIo] ([preproc/wav_io.rs]), [Preproc]
      ([preproc.rs]): resampling, reading training files, spectrograms.
    - [InferenceKernel], [InferenceEngine], [InferenceRuns] ([inference.rs],
      [inference/]): the kernels and the engine's loop.
    - [OpusStream], [OpusFacts] ([opus_stream.rs]).
    - [Framing] ([proto/framing.rs]), [StreamIo] ([stream_io.rs], [stream_io/]): messages
      on the wire and their fan-out to connections.

    Training.
    - [Finetune], [FinetuneScan], [FinetuneTrain], [FinetuneRuns],
      [FinetunePublish], [FinetuneExamples] ([training/finetune.rs] and the
      writer of head files in [model.rs]): configuration, dataset scan, feature
      extraction, quality gates, split, epochs and publication.
    - [RequestPayload] ([file_mgr/request_payload.rs]): hyperparameters, the
      convert request and converter paths, with their validators.
    - [TrainJobs], [TrainRun] ([training.rs], [api/routes/training.rs]): the
      table of jobs, a step per access; one job from its log through the
      fine-tune to the publication of its head; the routes.  [TrainRun] opens
      with the jobs' common ground: programs over a state that contains the disk
      and the workspace manager, and the rules for a job that publishes a head.
    - [Converter], [ConvertRun] ([converter.rs], [converter/],
      [api/routes/converter.rs]): TFJS manifests and shards, the head read from
      them, its artifacts; a convert job, its staging, log and route.

    Configuration and shutdown.
    - [Config], [ConfigCell], [ConfigFacts], [ConfigRuns], [ConfigWatch],
      [LaunchConfig] ([config.rs], [config/]): sections and validators, the
      live cells with their writers and the reload, the debounce, the boot.
    - [DrainRegistry] ([daemon/drain_registry.rs]): the tiers of the shutdown.

    The manifest's map gives the file and lines of every definition.

    ** How operations and state correspond

    A pure Rust function is a Gallina function of the same name; a [Result] is
    [result E A]; a function that may panic returns an [option] (or throws a
    constructor of its own), and the theorems show that it does not.  A method
    that takes a mutex is a function from state to state, and the interleavings
    of the daemon's tasks are the runs of a step relation ([JobRegistry.step],
    the threads of [VersionedSwap], the accesses of [AudioBuffer], the tasks of
    [StreamIo] and [ConfigRuns], [TrainJobs.step]).  A task's loop is a function of what its
    environment answers, turn by turn ([MicArbitrator], [InferenceEngine],
    [OpusStream], [ConfigWatch]).  A function that does I/O is a program
    [M E A]: it is run on a [World] (the disk, plus how many system calls are
    left before the power fails and which of them return an error) and returns,
    throws, or is cut.  Handlers that hold a workspace's mutex are one
    uninterrupted program, since no other handler touches that directory.

    Third-party code is a type class of the operations the source calls
    ([Json], [UuidLib], [TempLib], [Sha256Lib], [Rubato], [Hound], [RealFft],
    [Libm], [LibOpus], [Toml], ...), and a second class of the documented laws
    a theorem relies on; each law class has a concrete instance, on which the
    witnesses run.

    ** The storage model

    [FileSystem.Disk] is the visible tree and the list of pending entry
    changes.  A write reaches stable storage when the file is fsynced; a name
    set, removed or moved stays pending until every directory it touches has
    been fsynced; a crash ([FileSystem.crash_image]) keeps any subsequence of
    the pending changes, and any content for a file not synced.  A rename of a
    file is two changes that a crash may separate (target set, source
    removed), a rename of a directory is one.  [read_dir] returns a snapshot of
    the names.  Any system call may be the last one or may fail with an I/O
    error without effect.  These are the weakest guarantees POSIX documents for
    [fsync] and [rename] that the source's comments appeal to.

    ** What the theorems show

    - Storage.  A reader after a crash finds the old bytes or all the new ones
      ([FsAtomic]); a publish, any number of crashes, restarts and recoveries
      keep [heads.json] and the heads it names intact ([HeadRotation],
      [RecoverySafety]); data never changes before the revision is bumped
      ([Dataset]); staged deletes end ([StagingFacts]); workspaces are created
      whole or not at all and their names stay distinct ([WorkspaceRegistry],
      [RegistryNames]); the active head that boots is one that verified
      ([ActiveBoot], [ActivePublish]); the reaper removes only what is stale.
    - Concurrency.  The job registry respects its caps and delivers each event
      once; the versioned cell is linearizable; a reader of the ring gets
      exactly what was written or is told it lagged; a connection sees no gap
      it is not told of; the configuration cells agree with their files.
    - Tasks.  The microphone loop, the engine and the Opus task never panic;
      what they publish is the function of the samples it should be; they give
      up, fail over and drain within stated bounds.
    - Training.  A scan reads exactly the documented layout; extraction is
      independent of how the workers cut it and of when it is cancelled; the
      split is total and stratified; the trained head is the first best one,
      complete and next to its labels in every crash image; a whole job publishes
      that head in its workspace or leaves the heads as they were ([TrainRun]),
      and at most one job runs, whose record is final once it ends ([TrainJobs]).
    - Conversion.  Reading a bundle shard by shard is reading its concatenation;
      the artifacts' mark never stands beside an incomplete conversion; a convert
      job publishes a finite, labelled head or leaves the heads as they were
      ([Converter], [ConvertRun]).
    - Formats and numbers.  Round trips of identifiers, messages and headers;
      bursts of up to 32 bits in a head file are detected; accepted paths stay
      in the workspace; samples read from files stay in [-1, 1] in binary32;
      the spectrogram and the kernels equal their reference definitions.

    ** Bounds and fuel

    - The recursive drain takes the height of the payload's tree as fuel
      ([Staging.drain_dir]); its driver takes the number of entries over the
      batch size plus one; [StagingFacts.staged_delete_converges] proves both
      enough.  [FileSystem.remove_tree] takes the height of the tree.
    - [JobRegistry.stream_recv] takes more fuel than the broadcast log has
      unread events ([JobStreams.stream_recv_terminates]).
    - The paced source's catch-up loop takes [pace_fuel] (proved enough by
      [pace_ends]); the debounce worker takes one more than the pending kicks
      ([ConfigWatch.debounce_follows_every_event]); loops that cut a list into
      chunks or frames ([Resample], [WavIo], [OpusStream]) take its length, and
      each is shown equal to a definition without fuel or to consume its input.
    - [FinetuneScan.collect_wavs_recursive] takes the height of the tree
      ([scan_exact] shows that it ends); [FinetuneTrain.pieces] the length.
    - A tensor of a bundle has at most [max_kernel_bytes] bytes; with the checked
      sums of the manifest, no offset the reader computes overflows ([Converter]).
    - Everything else is structural recursion on lists or bytes.

    ** What is not modelled

    - The HTTP routes other than activation, training and conversion, the WebSocket and gRPC transports, process
      start-up, signals, thread priorities and affinity: glue over the modelled
      services and calls into the operating system.
    - The neural networks (Burn modules and their record files) and the NPU
      runtime: tensors and foreign calls; the engine and the classifier kernels
      take what they answer as a parameter.
    - Status counters and metrics, the legacy [metadata.json] record, the
      streaming of request bodies to temporaries, paginated listings.
    - Log lines, rendered messages beyond those other code inspects, reference
      counts and allocation. *)

From Stdlib Require Export ZArith Lia.
From Stdlib Require Export Ascii String.
From stdpp Require Export base tactics list gmap strings numbers.

Set Default Goal Selector "!".

(** ** Results: Rust's [Result<A, E>] *)

Inductive result (E A : Type) : Type :=
  | Ok (a : A)
  | Err (e : E).
Arguments Ok {E A} a.
Arguments Err {E A} e.

#[export] Instance result_ret E : MRet (result E) := λ A a, Ok a.
#[export] Instance result_bind E : MBind (result E) := λ A B f m,
  match m with Ok a => f a | Err e => Err e end.

(** [ensure b e] is the early return [if !b { return Err(e) }]. *)
Definition ensure {E} (b : bool) (e : E) : result E unit :=
  if b then Ok tt else Err e.

(** [map_err f r] is [r.map_err(f)]. *)
Definition map_err {E F A} (f : E → F) (r : result E A) : result F A :=
  match r with Ok a => Ok a | Err e => Err (f e) end.

Definition is_ok {E A} (r : result E A) : bool :=
  match r with Ok _ => true | Err _ => false end.

(** ** Machine integers *)

Declare Scope acoustics_scope.
Delimit Scope acoustics_scope with acoustics.

Definition u8_max : Z := 255.
Definition u16_max : Z := 65535.
Definition u32_max : Z := 4294967295.
Definition u64_max : Z := 18446744073709551615.

(** [a.saturating_add(b)] and [a.saturating_sub(b)] on [u64]. *)
Definition sat_add64 (a b : Z) : Z := Z.min (a + b) u64_max.
Definition sat_sub (a b : Z) : Z := Z.max (a - b) 0.
(** [a.wrapping_add(b)] on [u64]. *)
Definition wrap_add64 (a b : Z) : Z := (a + b) mod (u64_max + 1).

Notation "a +sat b" := (sat_add64 a b) (at level 50, left associativity) : acoustics_scope.
Notation "a -sat b" := (sat_sub a b) (at level 50, left associativity) : acoustics_scope.

(** ** Bytes of a Rust [str] *)

(** A Rust string is its list of bytes; [string] of the Standard Library is
    a list of 8-bit characters. *)
Definition bytes_of (s : string) : list ascii := list_ascii_of_string s.
Definition byte_val (b : ascii) : Z := Z.of_N (N_of_ascii b).

Definition in_range (lo hi b : ascii) : bool :=
  (byte_val lo <=? byte_val b)%Z && (byte_val b <=? byte_val hi)%Z.

Definition is_ascii_digit (b : ascii) : bool := in_range "0" "9" b.
Definition is_ascii_lower (b : ascii) : bool := in_range "a" "z" b.
Definition is_ascii_upper (b : ascii) : bool := in_range "A" "Z" b.
Definition is_ascii_alphanumeric (b : ascii) : bool :=
  is_ascii_digit b || is_ascii_lower b || is_ascii_upper b.

(** The loop [for (i, &b) in bytes.iter().enumerate() { if !ok { return .. } }]:
    the first index, from [i], whose byte fails the test. *)
Fixpoint first_bad (ok : nat → ascii → bool) (i : nat) (bs : list ascii)
    : option (nat * ascii) :=
  match bs with
  | [] => None
  | b :: bs' => if ok i b then first_bad ok (S i) bs' else Some (i, b)
  end.

(** ** Lemmas on results *)

Lemma bind_Ok {E A B} (m : result E A) (f : A → result E B) b :
  m ≫= f = Ok b ↔ ∃ a, m = Ok a ∧ f a = Ok b.
Proof. destruct m; cbn; naive_solver. Qed.

Lemma bind_Err {E A B} (m : result E A) (f : A → result E B) e :
  m ≫= f = Err e ↔ m = Err e ∨ ∃ a, m = Ok a ∧ f a = Err e.
Proof. destruct m; cbn; naive_solver. Qed.

Lemma ensure_Ok {E} b (e : E) u : ensure b e = Ok u ↔ b = true.
Proof. destruct b, u; cbn; naive_solver. Qed.

Lemma ensure_Err {E} b (e e' : E) : ensure b e = Err e' ↔ b = false ∧ e' = e.
Proof. destruct b; cbn; naive_solver. Qed.

Lemma map_err_Ok {E F A} (f : E → F) (r : result E A) a :
  map_err f r = Ok a ↔ r = Ok a.
Proof. destruct r; cbn; naive_solver. Qed.

(** [res_inv] opens every successful bind, guard and [map_err] of the context. *)
Ltac res_inv :=
  repeat match goal with
  | H : _ ≫= _ = Ok _ |- _ => apply bind_Ok in H as (? & ? & H)
  | H : ensure _ _ = Ok _ |- _ => apply ensure_Ok in H
  | H : map_err _ _ = Ok _ |- _ => apply map_err_Ok in H
  | H : Ok _ = Ok _ |- _ => injection H as H; try subst
  | H : Err _ = Ok _ |- _ => discriminate H
  | H : Ok _ = Err _ |- _ => discriminate H
  end.

(** ** Lemmas on byte scans *)

Lemma first_bad_None ok i bs :
  first_bad ok i bs = None ↔ ∀ j b, bs !! j = Some b → ok (i + j) b = true.
Proof.
  revert i. induction bs as [|b bs IH]; intros i; cbn; [naive_solver|].
  destruct (ok i b) eqn:E.
  - rewrite IH. split.
    + intros H [|j] b' Hj; cbn in Hj; simplify_eq.
      * by rewrite Nat.add_0_r.
      * rewrite Nat.add_succ_r. by apply (H j).
    + intros H j b' Hj. specialize (H (S j) b' Hj). by rewrite Nat.add_succ_r in H.
  - split; [done|]. intros H. specialize (H 0 b eq_refl).
    rewrite Nat.add_0_r in H. congruence.
Qed.

Lemma first_bad_Some ok i bs j b :
  first_bad ok i bs = Some (j, b) →
  ∃ k, j = i + k ∧ bs !! k = Some b ∧ ok j b = false ∧
       ∀ k' b', k' < k → bs !! k' = Some b' → ok (i + k') b' = true.
Proof.
  revert i. induction bs as [|c bs IH]; intros i; cbn; [done|].
  destruct (ok i c) eqn:E.
  - intros (k & -> & Hk & Hok & Hlt)%IH. exists (S k).
    split_and!; [lia|done|done|].
    intros [|k'] b' Hlt' Hb'; cbn in *; simplify_eq.
    + by rewrite Nat.add_0_r.
    + rewrite Nat.add_succ_r. apply (Hlt k' b'); [lia|done].
  - intros [= <- <-]. exists 0. split_and!; [lia|done|done|intros; lia].
Qed.

Lemma first_bad0_None ok bs :
  first_bad ok 0 bs = None ↔ ∀ j b, bs !! j = Some b → ok j b = true.
Proof. apply first_bad_None. Qed.

Lemma first_bad0_Some ok bs j b :
  first_bad ok 0 bs = Some (j, b) →
  bs !! j = Some b ∧ ok j b = false ∧
  ∀ j' b', j' < j → bs !! j' = Some b' → ok j' b' = true.
Proof. intros (k & -> & ? & ? & ?)%first_bad_Some. done. Qed.

(** A scan with a position-independent test succeeds iff every byte passes. *)
Lemma first_bad_all p bs :
  first_bad (λ _, p) 0 bs = None ↔ ∀ b, b ∈ bs → p b = true.
Proof.
  rewrite first_bad0_None. setoid_rewrite list_elem_of_lookup. naive_solver.
Qed.

Lemma length_bytes_of s : List.length (bytes_of s) = String.length s.
Proof. induction s; cbn; [done|]. by f_equal. Qed.

Lemma bytes_of_inj s t : bytes_of s = bytes_of t → s = t.
Proof.
  intros H. rewrite <-(string_of_list_ascii_of_string s), <-(string_of_list_ascii_of_string t).
  unfold bytes_of in H. by rewrite H.
Qed.

Lemma bytes_of_string_of bs : bytes_of (string_of_list_ascii bs) = bs.
Proof. apply list_ascii_of_string_of_list_ascii. Qed.

Lemma string_of_bytes s : string_of_list_ascii (bytes_of s) = s.
Proof. apply string_of_list_ascii_of_string. Qed.

Lemma bytes_of_app s t : bytes_of (s ++ t)%string = bytes_of s ++ bytes_of t.
Proof.
  induction s as [|c s IH]; [done|].
  change (c :: bytes_of (s ++ t)%string = c :: (bytes_of s ++ bytes_of t)).
  by rewrite IH.
Qed.

(** ** Saturating arithmetic *)

Lemma sat_add64_exact a b : (a + b ≤ u64_max → sat_add64 a b = a + b)%Z.
Proof. unfold sat_add64. lia. Qed.

Lemma sat_add64_mono a b : (a ≤ u64_max → 0 ≤ b → a ≤ sat_add64 a b)%Z.
Proof. unfold sat_add64. lia. Qed.

Lemma sat_add64_bound a b : (0 ≤ a → 0 ≤ b → 0 ≤ sat_add64 a b ≤ u64_max)%Z.
Proof. unfold sat_add64, u64_max. lia. Qed.

Create HintDb acoustics discriminated.
#[export] Hint Resolve sat_add64_mono sat_add64_bound : acoustics.
Create Rewrite HintDb bytes.
#[export] Hint Rewrite length_bytes_of bytes_of_app bytes_of_string_of string_of_bytes : bytes.

(** ** Filters under a map *)

Lemma map_filter_comp {A B} (f : A → B) (p : B → bool) l :
  map f (List.filter (λ a, p (f a)) l) = List.filter p (map f l).
Proof. induction l as [|a l IH]; [done|]. cbn. destruct (p (f a)); cbn; by rewrite IH. Qed.

Lemma NoDup_map_filter {A B} (f : A → B) (p : A → bool) l :
  List.NoDup (map f l) → List.NoDup (map f (List.filter p l)).
Proof.
  induction l as [|a l IH]; [done|]. cbn. intros Hnd. inversion Hnd as [|? ? Hni Hnd']; subst.
  destruct (p a); [|by apply IH]. cbn. constructor; [|by apply IH].
  intros Hin. apply Hni. apply in_map_iff in Hin as (x & Hx & [Hin _]%filter_In).
  apply in_map_iff. eauto.
Qed.

(** ** Durations, in nanoseconds *)

Definition ns_per_sec : Z := 1000000000.
Definition from_millis (ms : Z) : Z := (ms * 1000000)%Z.
Definition from_secs (s : Z) : Z := (s * ns_per_sec)%Z.

(** ** The bits of a code, for concrete serializers *)

Fixpoint bits (p : positive) : list ascii :=
  match p with
  | xH => []
  | xO p => "0"%char :: bits p
  | xI p => "1"%char :: bits p
  end.

Fixpoint unbits (l : list ascii) : option positive :=
  match l with
  | [] => Some xH
  | c :: l => if Ascii.eqb c "0" then xO <$> unbits l
              else if Ascii.eqb c "1" then xI <$> unbits l else None
  end.

Lemma unbits_bits p : unbits (bits p) = Some p.
Proof. induction p as [p IH|p IH|]; cbn; by rewrite ?IH. Qed.
