(* ===== verification/Broadcast.v ===== *)
(** * The [tokio::sync::broadcast] channel

    Third-party code: an interface with the documented behaviour its users rely
    on, stated over the log of sent values and a receiver's position in it, and a
    bounded ring that satisfies it. *)

From S2P Require Import Prelude.

Inductive RecvOutcome (E : Type) : Type :=
  | RecvOk (e : E)
  | RecvLagged (n : nat)
  | RecvClosed.
Arguments RecvOk {E} e.
Arguments RecvLagged {E} n.
Arguments RecvClosed {E}.

(** [recv] is [None] while the receiver waits. *)
Class Broadcast (E : Type) := {
  chan : Type;
  rx : Type;
  channel : nat → chan;
  receiver_count : chan → nat;
  send : E → chan → chan * bool;
  subscribe : chan → chan * rx;
  recv : chan → rx → option (rx * RecvOutcome E);
  unsubscribe : rx → chan → chan;
}.

Class BroadcastLaws (E : Type) `{B : Broadcast E} := {
  sent : chan → list E;
  cursor : rx → nat;
  sent_channel : ∀ n, sent (channel n) = [] ∧ receiver_count (channel n) = 0;
  send_law : ∀ e c, 0 < receiver_count c →
    ∃ c', send e c = (c', true) ∧ sent c' = sent c ++ [e] ∧
          receiver_count c' = receiver_count c;
  send_none_law : ∀ e c, receiver_count c = 0 → send e c = (c, false);
  subscribe_law : ∀ c, sent (fst (subscribe c)) = sent c ∧
    receiver_count (fst (subscribe c)) = S (receiver_count c) ∧
    cursor (snd (subscribe c)) = List.length (sent c);
  unsubscribe_law : ∀ r c, sent (unsubscribe r c) = sent c;
  recv_ok_law : ∀ c r r' e, recv c r = Some (r', RecvOk e) →
    sent c !! cursor r = Some e ∧ cursor r' = S (cursor r);
  recv_lag_law : ∀ c r r' n, recv c r = Some (r', RecvLagged n) →
    0 < n ∧ cursor r' = cursor r + n;
}.

(** ** A concrete channel

    The log, the number of receivers and the capacity of the ring: a receiver
    that is further behind than the ring is long is told how much it missed. *)

Definition ring_broadcast (E : Type) : Broadcast E := {|
  chan := list E * nat * nat;
  rx := nat;
  channel := λ cap, ([], 0, cap);
  receiver_count := λ c, snd (fst c);
  send := λ e '(l, n, cap), if (n =? 0) then ((l, n, cap), false) else ((l ++ [e], n, cap), true);
  subscribe := λ '(l, n, cap), ((l, S n, cap), List.length l);
  recv := λ '(l, n, cap) r,
    if (r + cap <? List.length l) then Some (List.length l - cap, RecvLagged (List.length l - cap - r))
    else match l !! r with Some e => Some (S r, RecvOk e) | None => None end;
  unsubscribe := λ _ '(l, n, cap), (l, pred n, cap);
|}.

Lemma ring_broadcast_laws E : BroadcastLaws E (B := ring_broadcast E).
Proof.
  refine {| sent := (λ c, fst (fst c)) : @chan E (ring_broadcast E) → list E; cursor := id |}; cbn -[Nat.ltb].
  - intros _. by split.
  - intros e [[l n] cap] Hn. cbn in *. destruct (Nat.eqb_spec n 0); [lia|]. eexists. by split_and!.
  - intros e [[l n] cap]. cbn. by intros ->.
  - by intros [[l n] cap].
  - by intros ? [[l n] cap].
  - intros [[l n] cap] r r' e. destruct (r + cap <? List.length l); [intros [=]|]. cbn -[Nat.ltb]. destruct (l !! r) eqn:E'; [|intros [=]]. intros [= <- <-]. done.
  - intros [[l n] cap] r r' k. destruct (Nat.ltb_spec (r + cap) (List.length l)); [|destruct (l !! r); intros [=]].
    intros [= <- <-]. cbn. lia.
Defined.
