(* ===== verification/VersionedSwap.v ===== *)
(** * Versioned hot swap ([src/modules/common/version.rs])

    [ResourceVersion], [SwapReceipt] and [VersionedSwap]: the operations, the
    interleaving of concurrent writers and readers call by call, and the atomic
    cell that every such interleaving is an execution of. *)

From stdpp Require Import functions.
From S2P Require Import Prelude.

(** ** Versions *)

Definition ResourceVersion : Type := Z.
Definition ResourceVersion_ZERO : ResourceVersion := 0%Z.
(** [saturating_add(1)]. *)
Definition ResourceVersion_next (v : ResourceVersion) : ResourceVersion := sat_add64 v 1.

Record SwapReceipt := mkSwapReceipt { receipt_version : ResourceVersion }.

(** ** The cell *)

Section VersionedSwap.
Context {T : Type}.

Record Versioned := mkVersioned { v_version : ResourceVersion; v_value : T }.

(** [inner] and [counter]; the writer mutex is part of the interleaving. *)
Record VersionedSwap := mkVersionedSwap { vs_inner : Versioned; vs_counter : Z }.

Definition VersionedSwap_new (initial : T) : VersionedSwap :=
  mkVersionedSwap (mkVersioned ResourceVersion_ZERO initial) 0%Z.

Definition snapshot (s : VersionedSwap) : T := v_value (vs_inner s).
Definition version (s : VersionedSwap) : ResourceVersion := v_version (vs_inner s).
Definition snapshot_with_version (s : VersionedSwap) : T * ResourceVersion :=
  (v_value (vs_inner s), v_version (vs_inner s)).

(** [fetch_add] wraps, and so does the [+ 1] of a build without overflow
    checks. *)
Definition next_stamp (counter : Z) : Z := wrap_add64 counter 1.

Definition try_mutate {R E : Type} (f : T → result E (T * R)) (s : VersionedSwap)
    : VersionedSwap * result E (SwapReceipt * R) :=
  match f (v_value (vs_inner s)) with
  | Err e => (s, Err e)
  | Ok (new_value, ret) =>
      let v := next_stamp (vs_counter s) in
      (mkVersionedSwap (mkVersioned v new_value) v, Ok (mkSwapReceipt v, ret))
  end.

(** ** Interleavings *)

Context {R E : Type}.
Abbreviation mutation := (T → result E (T * R)).

(** Where a thread is: outside, or at a line of [try_mutate] under the writer
    mutex. *)
Inductive pc : Type :=
  | Outside
  | AtLoad (f : mutation)                          (** lock taken *)
  | AtApply (f : mutation) (cur : Versioned)       (** [load_full] done *)
  | AtFetchAdd (f : mutation) (new : T) (ret : R)  (** [f] returned [Ok] *)
  | AtStore (f : mutation) (v : Z) (new : T) (ret : R)
  | AtUnlock (res : result E (SwapReceipt * R)).

Record shared := mkShared { cell : VersionedSwap; writer : option nat; pcs : nat → pc }.

(** What a thread observes. *)
Inductive event : Type :=
  | Read (t : nat) (value : T) (ver : ResourceVersion)
  | Commit (t : nat) (f : mutation) (v : ResourceVersion) (ret : R)
  | Bail (t : nat) (f : mutation) (e : E)
  | Return (t : nat) (res : result E (SwapReceipt * R)).

Definition goto (t : nat) (p : pc) (s : shared) : shared := mkShared (cell s) (writer s) (<[t := p]> (pcs s)).

Inductive step : shared → list event → shared → Prop :=
  | StepLock s t f :
      pcs s t = Outside → writer s = None →
      step s [] (mkShared (cell s) (Some t) (<[t := AtLoad f]> (pcs s)))
  | StepLoad s t f :
      pcs s t = AtLoad f → step s [] (goto t (AtApply f (vs_inner (cell s))) s)
  | StepOk s t f cur new ret :
      pcs s t = AtApply f cur → f (v_value cur) = Ok (new, ret) →
      step s [] (goto t (AtFetchAdd f new ret) s)
  | StepErr s t f cur e :
      pcs s t = AtApply f cur → f (v_value cur) = Err e →
      step s [Bail t f e] (goto t (AtUnlock (Err e)) s)
  | StepFetchAdd s t f new ret :
      pcs s t = AtFetchAdd f new ret →
      let v := next_stamp (vs_counter (cell s)) in
      step s [] (mkShared (mkVersionedSwap (vs_inner (cell s)) v) (writer s) (<[t := AtStore f v new ret]> (pcs s)))
  | StepStore s t f v new ret :
      pcs s t = AtStore f v new ret →
      step s [Commit t f v ret]
        (mkShared (mkVersionedSwap (mkVersioned v new) (vs_counter (cell s))) (writer s)
           (<[t := AtUnlock (Ok (mkSwapReceipt v, ret))]> (pcs s)))
  | StepUnlock s t res :
      pcs s t = AtUnlock res →
      step s [Return t res] (mkShared (cell s) None (<[t := Outside]> (pcs s)))
  | StepRead s t :
      step s [Read t (snapshot (cell s)) (version (cell s))] s.

(** The trace of a run. *)
Inductive run : shared → list event → shared → Prop :=
  | RunNil s : run s [] s
  | RunCons s tr s' tr' s'' : step s tr s' → run s' tr' s'' → run s (tr ++ tr') s''.

Definition boot (initial : T) : shared := mkShared (VersionedSwap_new initial) None (λ _, Outside).

(** ** The atomic cell *)

(** A version, a value, and the results not yet handed to their threads. *)
Record atomic := mkAtomic { a_version : Z; a_value : T; a_owed : nat → option (result E (SwapReceipt * R)) }.

Definition cell_of (n : Z) (x : T) : VersionedSwap := mkVersionedSwap (mkVersioned n x) n.

(** Whole calls of [snapshot_with_version] and [try_mutate], one at a time. *)
Inductive atomic_step : atomic → event → atomic → Prop :=
  | AtomicRead a t :
      atomic_step a (Read t (fst (snapshot_with_version (cell_of (a_version a) (a_value a))))
                            (snd (snapshot_with_version (cell_of (a_version a) (a_value a))))) a
  | AtomicCommit a t f v new ret :
      try_mutate f (cell_of (a_version a) (a_value a)) = (cell_of v new, Ok (mkSwapReceipt v, ret)) →
      atomic_step a (Commit t f v ret) (mkAtomic v new (<[t := Some (Ok (mkSwapReceipt v, ret))]> (a_owed a)))
  | AtomicBail a t f e :
      try_mutate f (cell_of (a_version a) (a_value a)) = (cell_of (a_version a) (a_value a), Err e) →
      atomic_step a (Bail t f e) (mkAtomic (a_version a) (a_value a) (<[t := Some (Err e)]> (a_owed a)))
  | AtomicReturn a t res :
      a_owed a t = Some res →
      atomic_step a (Return t res) (mkAtomic (a_version a) (a_value a) (<[t := None]> (a_owed a))).

Inductive atomic_run : atomic → list event → atomic → Prop :=
  | AtomicNil a : atomic_run a [] a
  | AtomicCons a ev a' tr a'' : atomic_step a ev a' → atomic_run a' tr a'' → atomic_run a (ev :: tr) a''.

Definition atomic_new (initial : T) : atomic := mkAtomic 0%Z initial (λ _, None).

(** ** The simulation *)

(** What a thread at [p] knows, holding the mutex. *)
Definition holds (s : shared) (a : atomic) (p : pc) : Prop :=
  match p with
  | Outside => False
  | AtLoad _ => vs_counter (cell s) = a_version a
  | AtApply _ cur => cur = vs_inner (cell s) ∧ vs_counter (cell s) = a_version a
  | AtFetchAdd f new ret => f (a_value a) = Ok (new, ret) ∧ vs_counter (cell s) = a_version a
  | AtStore f v new ret => f (a_value a) = Ok (new, ret) ∧ v = next_stamp (a_version a) ∧ vs_counter (cell s) = v
  | AtUnlock _ => vs_counter (cell s) = a_version a
  end.

Definition owed (p : pc) : option (result E (SwapReceipt * R)) :=
  match p with AtUnlock res => Some res | _ => None end.

Record sim (s : shared) (a : atomic) : Prop := {
  sim_inner : vs_inner (cell s) = mkVersioned (a_version a) (a_value a);
  sim_owed : ∀ t, a_owed a t = owed (pcs s t);
  sim_lock : match writer s with
             | Some t => holds s a (pcs s t) ∧ ∀ t', t' ≠ t → pcs s t' = Outside
             | None => vs_counter (cell s) = a_version a ∧ ∀ t', pcs s t' = Outside
             end;
}.

Lemma sim_boot initial : sim (boot initial) (atomic_new initial).
Proof. by split. Qed.

Lemma sim_holder s a t : sim s a → pcs s t ≠ Outside → writer s = Some t.
Proof.
  intros [_ _ Hl] Ht. destruct (writer s) as [t0|].
  - destruct (decide (t = t0)) as [->|Hne]; [done|]. destruct Ht. by apply Hl.
  - destruct Ht. by apply Hl.
Qed.

Lemma owed_goto t p (ps : nat → pc) (os : nat → option (result E (SwapReceipt * R))) o :
  (∀ t', os t' = owed (ps t')) → owed p = o → ∀ t', (<[t := o]> os) t' = owed ((<[t := p]> ps) t').
Proof.
  intros H Ho t'. destruct (decide (t' = t)) as [->|Hne]; [by rewrite !fn_lookup_insert|].
  by rewrite !fn_lookup_insert_ne.
Qed.

Lemma owed_same t p (ps : nat → pc) (os : nat → option (result E (SwapReceipt * R))) :
  (∀ t', os t' = owed (ps t')) → owed p = owed (ps t) → ∀ t', os t' = owed ((<[t := p]> ps) t').
Proof.
  intros H Ho t'. destruct (decide (t' = t)) as [->|Hne]; [by rewrite fn_lookup_insert, Ho|].
  by rewrite fn_lookup_insert_ne.
Qed.

Lemma others_goto t p (ps : nat → pc) :
  (∀ t', t' ≠ t → ps t' = Outside) → ∀ t', t' ≠ t → (<[t := p]> ps) t' = Outside.
Proof. intros H t' Hne. rewrite fn_lookup_insert_ne by done. by apply H. Qed.

(** Every step of the interleaving is the atomic cell's, or none of its. *)
Lemma sim_step s tr s' a : step s tr s' → sim s a → ∃ a', atomic_run a tr a' ∧ sim s' a'.
Proof.
  intros Hs Hsim. pose proof Hsim as [Hi Ho Hl].
  assert (Hone : ∀ ev a', atomic_step a ev a' → atomic_run a [ev] a').
  { intros. eapply AtomicCons; [done|apply AtomicNil]. }
  destruct Hs as [s t f Hp Hw|s t f Hp|s t f cur new ret Hp Hf|s t f cur e Hp Hf|s t f new ret Hp v|s t f v new ret Hp|s t res Hp|s t].
  8: { exists a. split; [|done]. apply Hone. unfold snapshot, version. rewrite Hi. apply AtomicRead. }
  2-7: assert (Hw : writer s = Some t) by (by apply (sim_holder s a t Hsim); rewrite Hp);
    rewrite Hw in Hl; destruct Hl as [Hh Hout]; rewrite Hp in Hh; cbn [holds] in Hh.
  - rewrite Hw in Hl. destruct Hl as [Hc Hout]. exists a. split; [apply AtomicNil|]. split; cbn.
    + done.
    + by apply owed_same; [|rewrite Hp].
    + rewrite fn_lookup_insert. split; [done|]. by apply others_goto.
  - exists a. split; [apply AtomicNil|]. split; cbn; [done|by apply owed_same; [|rewrite Hp]|].
    rewrite Hw, fn_lookup_insert. split; [done|]. by apply others_goto.
  - destruct Hh as [-> Hc]. exists a. split; [apply AtomicNil|]. rewrite Hi in Hf.
    split; cbn; [done|by apply owed_same; [|rewrite Hp]|].
    rewrite Hw, fn_lookup_insert. split; [done|]. by apply others_goto.
  - destruct Hh as [-> Hc]. rewrite Hi in Hf. cbn in Hf. eexists. split; [apply Hone, AtomicBail; unfold try_mutate; cbn; by rewrite Hf|].
    split; cbn; [done|by apply owed_goto|]. rewrite Hw, fn_lookup_insert. split; [done|]. by apply others_goto.
  - destruct Hh as [Hf Hc]. exists a. split; [apply AtomicNil|].
    split; cbn; [done|by apply owed_same; [|rewrite Hp]|]. rewrite Hw, fn_lookup_insert. unfold v. rewrite Hc.
    split; [done|]. by apply others_goto.
  - destruct Hh as (Hf & -> & Hc). eexists. split; [apply Hone, (AtomicCommit a t f _ new ret); unfold try_mutate; cbn; by rewrite Hf|].
    split; cbn; [done|by apply owed_goto|]. rewrite Hw, fn_lookup_insert. split; [done|]. by apply others_goto.
  - eexists. split; [apply Hone; apply AtomicReturn; by rewrite Ho, Hp|].
    split; cbn; [done|by apply owed_goto|]. split; [done|]. intros t'.
    destruct (decide (t' = t)) as [->|Hne]; [by rewrite fn_lookup_insert|].
    rewrite fn_lookup_insert_ne by done. by apply Hout.
Qed.

Lemma atomic_run_app a tr a' tr' a'' :
  atomic_run a tr a' → atomic_run a' tr' a'' → atomic_run a (tr ++ tr') a''.
Proof. induction 1; intros H'; [done|]. cbn. eapply AtomicCons; eauto. Qed.

Lemma sim_run s tr s' a : run s tr s' → sim s a → ∃ a', atomic_run a tr a' ∧ sim s' a'.
Proof.
  intros H. revert a. induction H as [s|s tr s' tr' s'' Hs _ IH]; intros a Ha; [exists a; by split; [apply AtomicNil|]|].
  destruct (sim_step _ _ _ _ Hs Ha) as (a1 & H1 & Ha1). destruct (IH _ Ha1) as (a2 & H2 & Ha2).
  exists a2. split; [by eapply atomic_run_app|done].
Qed.

(** ** Versions along an atomic run *)

(** The versions the mutations of a trace were stamped with. *)
Fixpoint stamps (tr : list event) : list Z :=
  match tr with
  | [] => []
  | Commit _ _ v _ :: tr => v :: stamps tr
  | _ :: tr => stamps tr
  end.

Lemma next_stamp_exact n : (0 ≤ n < u64_max)%Z → next_stamp n = (n + 1)%Z.
Proof. intros H. unfold next_stamp, wrap_add64. apply Z.mod_small. lia. Qed.

Lemma try_mutate_cell (f : mutation) n x v new ret :
  try_mutate f (cell_of n x) = (cell_of v new, Ok (mkSwapReceipt v, ret)) → f x = Ok (new, ret) ∧ v = next_stamp n.
Proof.
  unfold try_mutate. cbn. destruct (f x) as [[y r]|e]; [|done]. intros Heq. injection Heq as E1 E2 _ _ E3. by subst.
Qed.

Lemma atomic_stamps a tr a' :
  atomic_run a tr a' → (0 ≤ a_version a)%Z → (a_version a + Z.of_nat (List.length (stamps tr)) ≤ u64_max)%Z →
  stamps tr = map (λ i, (a_version a + 1 + Z.of_nat i)%Z) (seq 0 (List.length (stamps tr))) ∧
  a_version a' = (a_version a + Z.of_nat (List.length (stamps tr)))%Z.
Proof.
  induction 1 as [a|a ev a' tr a'' Hs _ IH]; intros H0 Hb; [cbn; split; [done|lia]|].
  destruct Hs as [a t|a t f v new ret Hf|a t f e Hf|a t res Ho]; cbn [stamps List.length a_version] in *; try by apply IH.
  assert (Hv : v = (a_version a + 1)%Z).
  { apply try_mutate_cell in Hf as [_ ->]. apply next_stamp_exact. lia. }
  destruct IH as [IH1 IH2]; [lia|lia|]. split; [|lia]. cbn [seq map]. f_equal; [lia|].
  etransitivity; [exact IH1|]. rewrite <-seq_shift, map_map. apply map_ext. intros i. lia.
Qed.

Lemma atomic_run_split a tr tr' a'' :
  atomic_run a (tr ++ tr') a'' → ∃ a', atomic_run a tr a' ∧ atomic_run a' tr' a''.
Proof.
  revert a. induction tr as [|ev tr IH]; intros a H; [exists a; by split; [apply AtomicNil|]|].
  cbn in H. inversion H as [|? ? a1 ? ? Hs Hr]; subst. destruct (IH _ Hr) as (a' & H1 & H2).
  exists a'. split; [by eapply AtomicCons|done].
Qed.

Lemma stamps_app tr tr' : stamps (tr ++ tr') = stamps tr ++ stamps tr'.
Proof. induction tr as [|[] tr IH]; cbn; by rewrite ?IH. Qed.

(** A read after a commit is at that version or later. *)
Lemma atomic_read_after a tr t f v ret tr' t' x ver a' :
  atomic_run a (tr ++ [Commit t f v ret] ++ tr' ++ [Read t' x ver]) a' →
  (0 ≤ a_version a)%Z →
  (a_version a + Z.of_nat (List.length (stamps (tr ++ [Commit t f v ret] ++ tr' ++ [Read t' x ver]))) ≤ u64_max)%Z →
  (v ≤ ver)%Z.
Proof.
  intros H H0 Hb. rewrite !stamps_app, !length_app in Hb. cbn [stamps List.length] in Hb.
  apply atomic_run_split in H as (a1 & H1 & H).
  apply atomic_stamps in H1 as [_ E1]; [|done|lia].
  inversion H as [|? ? a2 ? ? Hc Hr]; subst. inversion Hc as [|? ? ? ? ? ? Hf| |]; subst.
  apply atomic_run_split in Hr as (a3 & H2 & H3). apply atomic_stamps in H2 as [_ E2]; cbn in *.
  - inversion H3 as [|? ? ? ? ? Hr _]; subst. inversion Hr; subst. cbn. lia.
  - apply try_mutate_cell in Hf as [_ ->]. rewrite next_stamp_exact by lia. lia.
  - apply try_mutate_cell in Hf as [_ ->]. rewrite next_stamp_exact by lia. lia.
Qed.
End VersionedSwap.
Arguments Versioned : clear implicits.
Arguments VersionedSwap : clear implicits.

(** ** Properties *)

(** C9: The hot swap is linearizable.  Whatever the interleaving of the writers'
    lines and of the readers, the results every thread gets are those of whole
    calls of [try_mutate] and [snapshot_with_version] made one at a time, in the
    order of their store (or of the closure's refusal) and load, and the cell
    holds what those calls leave; the mutations are stamped 1, 2, 3, ... without
    a gap or a repeat until the counter of 2^64 is exhausted, and a read that
    follows a commit sees its version or a later one. *)
Theorem versioned_swap_linearizable {T R E : Type} (initial : T) (tr : list event) (s : shared (R := R) (E := E)) :
  run (boot initial) tr s →
  ∃ a, atomic_run (atomic_new initial) tr a ∧
    vs_inner (cell s) = mkVersioned (a_version a) (a_value a) ∧
    ((Z.of_nat (List.length (stamps tr)) ≤ u64_max)%Z →
       stamps tr = map (λ i, (1 + Z.of_nat i)%Z) (seq 0 (List.length (stamps tr))) ∧
       ∀ tr1 t f v ret tr2 t' x ver, tr = tr1 ++ [Commit t f v ret] ++ tr2 ++ [Read t' x ver] → (v ≤ ver)%Z).
Proof.
  intros H. destruct (sim_run _ _ _ _ H (sim_boot initial)) as (a & Ha & Hsim). exists a.
  split_and!; [done|apply Hsim|]. intros Hb. split.
  - by apply (atomic_stamps _ _ _ Ha).
  - intros tr1 t f v ret tr2 t' x ver ->. by apply (atomic_read_after _ _ _ _ _ _ _ _ _ _ _ Ha).
Qed.

(** Two writers add one to the cell; a reader looks between the first one's stamp
    and store, and again after it. *)
Section SwapScenario.
Let add : nat → result unit (nat * unit) := λ n, Ok (S n, tt).

Definition vs_trace : list (event (T := nat) (R := unit) (E := unit)) :=
  [Read 2 5 0%Z; Commit 0 add 1%Z tt; Read 2 6 1%Z; Return 0 (Ok (mkSwapReceipt 1%Z, tt));
   Commit 1 add 2%Z tt].

Definition vs_end : shared (T := nat) (R := unit) (E := unit) :=
  let p0 := λ _ : nat, Outside in
  let p1 := <[0 := AtLoad add]> p0 in
  let p2 := <[0 := AtApply add (mkVersioned 0%Z 5)]> p1 in
  let p3 := <[0 := AtFetchAdd add 6 tt]> p2 in
  let p4 := <[0 := AtStore add 1%Z 6 tt]> p3 in
  let p5 := <[0 := AtUnlock (Ok (mkSwapReceipt 1%Z, tt))]> p4 in
  let p6 := <[0 := Outside]> p5 in
  let p7 := <[1 := AtLoad add]> p6 in
  let p8 := <[1 := AtApply add (mkVersioned 1%Z 6)]> p7 in
  let p9 := <[1 := AtFetchAdd add 7 tt]> p8 in
  let p10 := <[1 := AtStore add 2%Z 7 tt]> p9 in
  mkShared (mkVersionedSwap (mkVersioned 2%Z 7) 2%Z) (Some 1)
    (<[1 := AtUnlock (Ok (mkSwapReceipt 2%Z, tt))]> p10).

Lemma vs_run : run (boot 5) vs_trace vs_end.
Proof.
  change vs_trace with ([] ++ [] ++ [] ++ [] ++ [Read 2 5 0%Z] ++ [Commit 0 add 1%Z tt] ++ [Read 2 6 1%Z] ++
    [Return 0 (Ok (mkSwapReceipt 1%Z, tt))] ++ [] ++ [] ++ [] ++ [] ++ [Commit 1 add 2%Z tt] ++ []
    : list (event (T := nat) (R := unit) (E := unit))).
  eapply RunCons; [apply (StepLock _ 0 add); reflexivity|].
  eapply RunCons; [apply (StepLoad _ 0 add); reflexivity|].
  eapply RunCons; [eapply (StepOk _ 0 add); reflexivity|].
  eapply RunCons; [eapply (StepFetchAdd _ 0 add); reflexivity|].
  eapply RunCons; [apply StepRead|].
  eapply RunCons; [eapply (StepStore _ 0 add); reflexivity|].
  eapply RunCons; [apply StepRead|].
  eapply RunCons; [eapply (StepUnlock _ 0); reflexivity|].
  eapply RunCons; [apply (StepLock _ 1 add); reflexivity|].
  eapply RunCons; [apply (StepLoad _ 1 add); reflexivity|].
  eapply RunCons; [eapply (StepOk _ 1 add); reflexivity|].
  eapply RunCons; [eapply (StepFetchAdd _ 1 add); reflexivity|].
  eapply RunCons; [eapply (StepStore _ 1 add); reflexivity|].
  apply RunNil.
Qed.

Lemma versioned_swap_linearizable_witness :
  stamps vs_trace = [1; 2]%Z ∧
  ∃ a, atomic_run (atomic_new 5) vs_trace a ∧ mkVersioned 2%Z 7 = mkVersioned (a_version a) (a_value a).
Proof.
  split; [reflexivity|].
  destruct (versioned_swap_linearizable 5 vs_trace vs_end vs_run) as (a & Ha & Hi & _). exists a. by split.
Defined.
End SwapScenario.
