(* ===== verification/Ids.v ===== *)
(** * Validated identifiers ([src/modules/common/ids.rs])

    The UUID-backed identifiers ([WorkspaceId], [JobId], [HeadId]) and the
    string-backed ones ([AssetId], [MicId]).  The [uuid] crate is a parameter
    ([UuidLib]) with the two facts the source relies on ([UuidLaws]). *)

From S2P Require Import Prelude.

(** ** Errors *)

Inductive IdError : Type :=
  | Empty
  | BadUuidLength (got : nat)
  | BadUuidByte (index : nat) (byte : ascii)
  | BadUuidVersion (byte : ascii)
  | BadUuidVariant (byte : ascii)
  | TooLong (kind : string) (got max : nat)
  | BadChar (kind : string) (index : nat) (byte : ascii).

#[export] Instance IdError_eq_dec : EqDecision IdError.
Proof. solve_decision. Defined.

(** ** The strict UUID-v4 shape *)

Definition is_dash_pos (i : nat) : bool :=
  (i =? 8) || (i =? 13) || (i =? 18) || (i =? 23).

Definition is_lower_hex (b : ascii) : bool := is_ascii_digit b || in_range "a" "f" b.

Definition uuid_byte_ok (i : nat) (b : ascii) : bool :=
  if is_dash_pos i then Ascii.eqb b "-" else is_lower_hex b.

Definition is_variant_byte (b : ascii) : bool :=
  Ascii.eqb b "8" || Ascii.eqb b "9" || Ascii.eqb b "a" || Ascii.eqb b "b".

(** [bytes[i]] below is in range: the length was tested to be 36. *)
Definition byte_at (bs : list ascii) (i : nat) : ascii := nth i bs zero.

Definition validate_uuid_v4_str (s : string) : result IdError unit :=
  let bytes := bytes_of s in
  if (String.length s =? 0) then Err Empty else
  if negb (String.length s =? 36) then Err (BadUuidLength (String.length s)) else
  match first_bad uuid_byte_ok 0 bytes with
  | Some (i, b) => Err (BadUuidByte i b)
  | None =>
    if negb (Ascii.eqb (byte_at bytes 14) "4") then Err (BadUuidVersion (byte_at bytes 14))
    else if negb (is_variant_byte (byte_at bytes 19)) then Err (BadUuidVariant (byte_at bytes 19))
    else Ok tt
  end.

(** ** The [uuid] crate *)

(** [Uuid], [Uuid::parse_str] and the [Display] of a [Uuid]. *)
Class UuidLib := {
  Uuid : Type;
  Uuid_eq_dec :: EqDecision Uuid;
  Uuid_countable :: Countable Uuid;
  uuid_parse_str : string → option Uuid;
  uuid_to_string : Uuid → string;
}.

(** What the source relies on: the canonical lowercase hyphenated v4 form
    parses ("Shape passed -- uuid's parser cannot fail"), and [Display]
    prints that canonical form back. *)
Class UuidLaws `(U : UuidLib) := {
  uuid_parse_canonical : ∀ s, validate_uuid_v4_str s = Ok tt →
    ∃ u, uuid_parse_str s = Some u ∧ uuid_to_string u = s;
  uuid_parse_display : ∀ u, validate_uuid_v4_str (uuid_to_string u) = Ok tt →
    uuid_parse_str (uuid_to_string u) = Some u;
}.

Section UuidIds.
Context `{U : UuidLib}.

(** The three newtypes are distinct nominal types over one [Uuid]. *)
Record WorkspaceId := mkWorkspaceId { workspace_uuid : Uuid }.
Record JobId := mkJobId { job_uuid : Uuid }.
Record HeadId := mkHeadId { head_uuid : Uuid }.

(** [$name::parse]; the [expect] after the shape check is the [None] arm. *)
Inductive parsed (A : Type) : Type :=
  | Parsed (a : A)
  | ParseErr (e : IdError)
  | ParsePanic.
#[local] Arguments Parsed {A}.
#[local] Arguments ParseErr {A}.
#[local] Arguments ParsePanic {A}.

Definition uuid_id_parse {A} (mk : Uuid → A) (s : string) : parsed A :=
  match validate_uuid_v4_str s with
  | Err e => ParseErr e
  | Ok _ => match uuid_parse_str s with
            | Some u => Parsed (mk u)
            | None => ParsePanic
            end
  end.

Definition WorkspaceId_parse : string → parsed WorkspaceId := uuid_id_parse mkWorkspaceId.
Definition JobId_parse : string → parsed JobId := uuid_id_parse mkJobId.
Definition HeadId_parse : string → parsed HeadId := uuid_id_parse mkHeadId.

Definition WorkspaceId_display (w : WorkspaceId) : string := uuid_to_string (workspace_uuid w).
Definition JobId_display (j : JobId) : string := uuid_to_string (job_uuid j).
Definition HeadId_display (h : HeadId) : string := uuid_to_string (head_uuid h).

Definition DEFAULT_RUNTIME_HEAD_ID_STR : string := "00000000-0000-4000-8000-000000000000".

Definition default_runtime_head_id : parsed HeadId := HeadId_parse DEFAULT_RUNTIME_HEAD_ID_STR.
End UuidIds.

Arguments Parsed {A}.
Arguments ParseErr {A}.
Arguments ParsePanic {A}.

#[export] Instance WorkspaceId_eq_dec `{U : UuidLib} : EqDecision WorkspaceId.
Proof. solve_decision. Defined.
#[export] Instance JobId_eq_dec `{U : UuidLib} : EqDecision JobId.
Proof. solve_decision. Defined.
#[export] Instance HeadId_eq_dec `{U : UuidLib} : EqDecision HeadId.
Proof. solve_decision. Defined.

#[export] Instance WorkspaceId_countable `{U : UuidLib} : Countable WorkspaceId.
Proof. apply (inj_countable' workspace_uuid mkWorkspaceId). by intros []. Defined.
#[export] Instance JobId_countable `{U : UuidLib} : Countable JobId.
Proof. apply (inj_countable' job_uuid mkJobId). by intros []. Defined.
#[export] Instance HeadId_countable `{U : UuidLib} : Countable HeadId.
Proof. apply (inj_countable' head_uuid mkHeadId). by intros []. Defined.

(** ** [AssetId] and [MicId] *)

Definition ASSET_ID_MAX : nat := 255.
Definition MIC_ID_MAX : nat := 128.

Record AssetId := mkAssetId { asset_id_str : string }.
Record MicId := mkMicId { mic_id_str : string }.

#[export] Instance AssetId_eq_dec : EqDecision AssetId.
Proof. solve_decision. Defined.
#[export] Instance MicId_eq_dec : EqDecision MicId.
Proof. solve_decision. Defined.

(** [b.is_ascii_alphanumeric() || matches!(b, b'.' | b'-' | b'_')]. *)
Definition is_filename_byte (b : ascii) : bool :=
  is_ascii_alphanumeric b || Ascii.eqb b "." || Ascii.eqb b "-" || Ascii.eqb b "_".

Definition AssetId_parse (s : string) : result IdError AssetId :=
  if (String.length s =? 0) then Err Empty else
  if (ASSET_ID_MAX <? String.length s) then Err (TooLong "asset id" (String.length s) ASSET_ID_MAX) else
  if Ascii.eqb (byte_at (bytes_of s) 0) "." then Err (BadChar "asset id" 0 ".") else
  match first_bad (λ _, is_filename_byte) 0 (bytes_of s) with
  | Some (i, b) => Err (BadChar "asset id" i b)
  | None => Ok (mkAssetId s)
  end.

(** Printable ASCII excluding space and DEL: [b'!'..=b'~']. *)
Definition is_mic_byte (b : ascii) : bool := in_range "!" "~" b.

Definition MicId_parse (s : string) : result IdError MicId :=
  if (String.length s =? 0) then Err Empty else
  if (MIC_ID_MAX <? String.length s) then Err (TooLong "mic id" (String.length s) MIC_ID_MAX) else
  match first_bad (λ _, is_mic_byte) 0 (bytes_of s) with
  | Some (i, b) => Err (BadChar "mic id" i b)
  | None => Ok (mkMicId s)
  end.

(** ** Specifications *)

(** The canonical UUID-v4 form, as the module documentation states it. *)
Definition canonical_uuid_v4 (s : string) : Prop :=
  String.length s = 36 ∧
  (∀ i b, bytes_of s !! i = Some b →
     if decide (i ∈ [8; 13; 18; 23]) then b = "-"%char else is_lower_hex b = true) ∧
  bytes_of s !! 14 = Some "4"%char ∧
  ∃ v, bytes_of s !! 19 = Some v ∧ v ∈ ["8"; "9"; "a"; "b"]%char.

Definition safe_component (max : nat) (s : string) : Prop :=
  s ≠ ""%string ∧ String.length s ≤ max ∧
  bytes_of s !! 0 ≠ Some "."%char ∧
  ∀ b, b ∈ bytes_of s → is_filename_byte b = true.

(** ** Lemmas *)

Lemma byte_at_lookup bs i b : bs !! i = Some b → byte_at bs i = b.
Proof. intros H. unfold byte_at. by apply nth_lookup_Some. Qed.

Lemma lookup_byte_at bs i : i < List.length bs → bs !! i = Some (byte_at bs i).
Proof. intros [b H]%lookup_lt_is_Some. by rewrite (byte_at_lookup _ _ _ H). Qed.

Lemma is_dash_pos_spec i : is_dash_pos i = bool_decide (i ∈ [8; 13; 18; 23]).
Proof.
  unfold is_dash_pos. symmetry. case_bool_decide as H.
  - set_unfold in H. symmetry. rewrite !orb_true_iff, !Nat.eqb_eq. tauto.
  - set_unfold in H. symmetry. rewrite !orb_false_iff, !Nat.eqb_neq. tauto.
Qed.

Lemma is_variant_byte_spec b :
  is_variant_byte b = true ↔ b ∈ ["8"; "9"; "a"; "b"]%char.
Proof.
  unfold is_variant_byte. rewrite !orb_true_iff, !Ascii.eqb_eq. set_unfold. tauto.
Qed.

Lemma uuid_byte_ok_spec i b :
  uuid_byte_ok i b = true ↔
  if decide (i ∈ [8; 13; 18; 23]) then b = "-"%char else is_lower_hex b = true.
Proof.
  unfold uuid_byte_ok. rewrite is_dash_pos_spec.
  destruct (decide _) as [H|H].
  - rewrite bool_decide_eq_true_2 by done. apply Ascii.eqb_eq.
  - by rewrite bool_decide_eq_false_2 by done.
Qed.

Lemma length_pos_neq s : String.length s ≠ 0 ↔ s ≠ ""%string.
Proof. destruct s; cbn; naive_solver. Qed.

Lemma filename_byte_not_slash b : is_filename_byte b = true → b ≠ "/"%char.
Proof. intros H ->. vm_compute in H. done. Qed.

(** [validate_uuid_v4_str] accepts exactly the canonical form. *)
Theorem validate_uuid_v4_str_spec s :
  validate_uuid_v4_str s = Ok tt ↔ canonical_uuid_v4 s.
Proof.
  unfold validate_uuid_v4_str, canonical_uuid_v4.
  destruct (Nat.eqb_spec (String.length s) 0) as [H0|H0]; [split; [done|lia]|].
  destruct (Nat.eqb_spec (String.length s) 36) as [H36|H36]; cbn [negb]; [|split; [done|lia]].
  assert (Hlen : List.length (bytes_of s) = 36) by (autorewrite with bytes; done).
  pose proof (lookup_byte_at (bytes_of s) 14 ltac:(lia)) as H14.
  pose proof (lookup_byte_at (bytes_of s) 19 ltac:(lia)) as H19.
  setoid_rewrite <-uuid_byte_ok_spec.
  destruct (first_bad _ _ _) as [[i b]|] eqn:F.
  - split; [done|]. intros (_ & Hall & _).
    apply first_bad0_Some in F as (Hk & Hbad & _).
    rewrite (Hall i b Hk) in Hbad. done.
  - rewrite first_bad0_None in F. rewrite H14, H19.
    destruct (Ascii.eqb_spec (byte_at (bytes_of s) 14) "4") as [E|E]; cbn [negb].
    2:{ split; [done|]. intros (_ & _ & [= ?] & _). done. }
    destruct (is_variant_byte (byte_at (bytes_of s) 19)) eqn:V; cbn [negb].
    + split; [|done]. intros _. split_and!; [done|exact F|by rewrite E|].
      eexists. split; [done|]. by apply is_variant_byte_spec.
    + split; [done|]. intros (_ & _ & _ & v & [= <-] & Hv%is_variant_byte_spec). congruence.
Qed.

(** A [BadUuidByte] names the first offending position and its byte. *)
Lemma validate_uuid_bad_byte s i b :
  validate_uuid_v4_str s = Err (BadUuidByte i b) →
  bytes_of s !! i = Some b ∧ uuid_byte_ok i b = false ∧
  ∀ j c, j < i → bytes_of s !! j = Some c → uuid_byte_ok j c = true.
Proof.
  unfold validate_uuid_v4_str. intros H.
  destruct (_ =? 0); [done|]. destruct (negb (_ =? 36)); [done|].
  destruct (first_bad _ _ _) as [[i' b']|] eqn:F.
  - injection H as -> ->. by apply first_bad0_Some in F.
  - repeat case_match; done.
Qed.

(** A canonical identifier is a safe path component: no separator, no dot. *)
Lemma canonical_uuid_no_sep s b :
  canonical_uuid_v4 s → b ∈ bytes_of s → b ≠ "/"%char ∧ b ≠ "."%char.
Proof.
  intros (_ & Hall & _) [i Hi]%list_elem_of_lookup. specialize (Hall i b Hi).
  destruct (decide _) as [_|_]; [by subst|].
  split; intros ->; vm_compute in Hall; done.
Qed.

Lemma AssetId_parse_spec s a :
  AssetId_parse s = Ok a ↔ asset_id_str a = s ∧ safe_component ASSET_ID_MAX s.
Proof.
  unfold AssetId_parse, safe_component.
  destruct (Nat.eqb_spec (String.length s) 0) as [H0|H0].
  { split; [done|]. destruct s; [naive_solver|done]. }
  apply length_pos_neq in H0.
  destruct (Nat.ltb_spec ASSET_ID_MAX (String.length s)) as [Hl|Hl]; [split; [done|lia]|].
  rewrite (lookup_byte_at (bytes_of s) 0).
  2:{ rewrite length_bytes_of. destruct s; [done|cbn; lia]. }
  destruct (Ascii.eqb_spec (byte_at (bytes_of s) 0) ".") as [E|E].
  { rewrite E. naive_solver. }
  destruct (first_bad _ _ _) as [[i b]|] eqn:F.
  - apply first_bad0_Some in F as (Hk & Hbad & _). split; [done|].
    intros (_ & _ & _ & _ & Hall). rewrite Hall in Hbad; [done|].
    apply list_elem_of_lookup. eauto.
  - rewrite first_bad_all in F. destruct a as [t]; cbn. split.
    + intros [= ->]. split_and!; [done|done|lia|naive_solver|done].
    + intros [-> _]. done.
Qed.

Lemma MicId_parse_spec s m :
  MicId_parse s = Ok m ↔
  mic_id_str m = s ∧ s ≠ ""%string ∧ String.length s ≤ MIC_ID_MAX ∧
  ∀ b, b ∈ bytes_of s → (33 ≤ byte_val b ≤ 126)%Z.
Proof.
  unfold MicId_parse.
  destruct (Nat.eqb_spec (String.length s) 0) as [H0|H0].
  { split; [done|]. destruct s; [naive_solver|done]. }
  apply length_pos_neq in H0.
  destruct (Nat.ltb_spec MIC_ID_MAX (String.length s)) as [Hl|Hl]; [split; [done|lia]|].
  assert (Hr : ∀ b, is_mic_byte b = true ↔ (33 ≤ byte_val b ≤ 126)%Z).
  { intros b. unfold is_mic_byte, in_range. change (byte_val "!") with 33%Z.
    change (byte_val "~") with 126%Z. lia. }
  destruct (first_bad _ _ _) as [[i b]|] eqn:F.
  - apply first_bad0_Some in F as (Hk & Hbad & _). split; [done|].
    intros (_ & _ & _ & Hall). rewrite (proj2 (Hr b)) in Hbad; [done|].
    apply Hall, list_elem_of_lookup. eauto.
  - rewrite first_bad_all in F. destruct m as [t]; cbn. split.
    + intros [= ->]. split_and!; [done|done|lia|]. intros b Hb. by apply Hr, F.
    + intros [-> _]. done.
Qed.

Section UuidIdLemmas.
Context `{UL : UuidLaws}.

Lemma uuid_id_parse_Parsed {A} (mk : Uuid → A) s a :
  uuid_id_parse mk s = Parsed a ↔
  canonical_uuid_v4 s ∧ ∃ u, uuid_parse_str s = Some u ∧ a = mk u.
Proof.
  unfold uuid_id_parse. rewrite <-validate_uuid_v4_str_spec.
  destruct (validate_uuid_v4_str s) as [[]|e] eqn:V; [|naive_solver].
  destruct (uuid_parse_str s); naive_solver.
Qed.

(** The [expect] of [parse] is unreachable. *)
Lemma uuid_id_parse_no_panic {A} (mk : Uuid → A) s : uuid_id_parse mk s ≠ ParsePanic.
Proof.
  unfold uuid_id_parse. destruct (validate_uuid_v4_str s) as [[]|e] eqn:V; [|done].
  destruct (uuid_parse_canonical s V) as (u & -> & _). done.
Qed.

Lemma HeadId_display_canonical s h :
  HeadId_parse s = Parsed h → HeadId_display h = s.
Proof.
  intros [Hc (u & Hu & ->)]%uuid_id_parse_Parsed. cbn.
  apply validate_uuid_v4_str_spec in Hc.
  destruct (uuid_parse_canonical s Hc) as (u' & Hu' & <-). by simplify_eq.
Qed.
End UuidIdLemmas.

(** The daemon-bundled default id is a valid constant: its [expect] cannot fire. *)
Lemma default_runtime_head_id_ok `{UL : UuidLaws} :
  ∃ h, default_runtime_head_id = Parsed h ∧ HeadId_display h = DEFAULT_RUNTIME_HEAD_ID_STR.
Proof.
  destruct (uuid_parse_canonical DEFAULT_RUNTIME_HEAD_ID_STR eq_refl) as (u & Hu & Hs).
  exists (mkHeadId u). split; [|done].
  unfold default_runtime_head_id, HeadId_parse, uuid_id_parse.
  change (validate_uuid_v4_str _) with (@Ok IdError unit tt). by rewrite Hu.
Qed.

(** A canonical text names one id. *)
Lemma HeadId_display_inj `{UL : UuidLaws} (h h' : HeadId) :
  canonical_uuid_v4 (HeadId_display h) → HeadId_display h = HeadId_display h' → h = h'.
Proof.
  intros Hc%validate_uuid_v4_str_spec Heq. pose proof (uuid_parse_display (head_uuid h) Hc) as H1.
  unfold HeadId_display in *. rewrite Heq in Hc. pose proof (uuid_parse_display (head_uuid h') Hc) as H2.
  rewrite <-Heq, H1 in H2. destruct h, h'. cbn in *. congruence.
Qed.

(** Only the bundled default id displays as the default text. *)
Lemma default_runtime_head_id_unique `{UL : UuidLaws} (h d : HeadId) :
  default_runtime_head_id = Parsed d → HeadId_display h = DEFAULT_RUNTIME_HEAD_ID_STR → h = d.
Proof.
  intros Hd Hh. pose proof (uuid_parse_display (head_uuid h)) as Hp.
  unfold HeadId_display in Hh. rewrite Hh in Hp. specialize (Hp eq_refl).
  apply uuid_id_parse_Parsed in Hd as [_ (u & Hu & ->)]. rewrite Hp in Hu.
  injection Hu as <-. by destruct h.
Qed.

(** ** A concrete [uuid] library: the canonical text itself *)

Definition text_uuid_lib : UuidLib := {|
  Uuid := string;
  uuid_parse_str := λ s, if is_ok (validate_uuid_v4_str s) then Some s else None;
  uuid_to_string := λ s, s;
|}.

Lemma text_uuid_laws : UuidLaws text_uuid_lib.
Proof.
  split; cbn.
  - intros s ->. cbn. eauto.
  - intros s ->. done.
Qed.

(** ** Properties *)

(** UUID-backed identifiers round-trip.  [HeadId::parse] accepts exactly the
    canonical lowercase UUID-v4 text (36 bytes, dashes at 8/13/18/23, version
    nibble 4, RFC 4122 variant), its [expect] never fires, and the accepted
    identifier displays as the text it was parsed from. *)
Theorem HeadId_parse_roundtrip `{UL : UuidLaws} (s : string) :
  HeadId_parse s ≠ ParsePanic ∧
  ((∃ h, HeadId_parse s = Parsed h) ↔ canonical_uuid_v4 s) ∧
  (∀ h, HeadId_parse s = Parsed h →
     HeadId_display h = s ∧ HeadId_parse (HeadId_display h) = Parsed h).
Proof.
  split_and!.
  - apply uuid_id_parse_no_panic.
  - split; [intros [h [Hc _]%uuid_id_parse_Parsed]; done|].
    intros Hc. pose proof Hc as Hv. apply validate_uuid_v4_str_spec in Hv.
    destruct (uuid_parse_canonical s Hv) as (u & Hu & _).
    exists (mkHeadId u). apply uuid_id_parse_Parsed. eauto.
  - intros h Hh. pose proof (HeadId_display_canonical s h Hh) as ->. done.
Qed.

Lemma HeadId_parse_roundtrip_witness :
  ∃ h, @HeadId_parse text_uuid_lib DEFAULT_RUNTIME_HEAD_ID_STR = Parsed h ∧
       @HeadId_display text_uuid_lib h = DEFAULT_RUNTIME_HEAD_ID_STR.
Proof.
  destruct (@HeadId_parse_roundtrip text_uuid_lib text_uuid_laws DEFAULT_RUNTIME_HEAD_ID_STR)
    as (_ & _ & H).
  exists (@mkHeadId text_uuid_lib DEFAULT_RUNTIME_HEAD_ID_STR).
  assert (E : @HeadId_parse text_uuid_lib DEFAULT_RUNTIME_HEAD_ID_STR
              = Parsed (@mkHeadId text_uuid_lib DEFAULT_RUNTIME_HEAD_ID_STR))
    by (vm_compute; reflexivity).
  split; [exact E|]. exact (proj1 (H _ E)).
Defined.
