(* ===== verification/AssetPath.v ===== *)
(** * Workspace asset-tree paths ([src/modules/common/asset_path.rs])

    The validator of operator-supplied paths under a workspace's daemon-owned
    trees, [split('/')] on bytes, and the accessors. *)

From S2P Require Import Prelude Ids.

(** ** [str::split] and its inverse *)

(** [s.split(sep)]: one component per delimited slot, empties included. *)
Fixpoint split_on (sep : ascii) (bs : list ascii) : list (list ascii) :=
  match bs with
  | [] => [[]]
  | b :: bs' =>
      if Ascii.eqb b sep then [] :: split_on sep bs'
      else match split_on sep bs' with
           | c :: cs => (b :: c) :: cs
           | [] => [[b]]
           end
  end.

(** [components.join(sep)]. *)
Fixpoint join_with (sep : ascii) (cs : list (list ascii)) : list ascii :=
  match cs with
  | [] => []
  | [c] => c
  | c :: cs' => c ++ sep :: join_with sep cs'
  end.

(** ** The validator *)

Definition MAX_TOTAL_BYTES : nat := 256.
Definition MAX_COMPONENT_BYTES : nat := 255.
Definition MAX_DEPTH : nat := 8.

Inductive AssetPathError : Type :=
  | PathEmpty
  | EmptyComponent (index : nat)
  | TotalTooLong (got max : nat)
  | ComponentTooLong (index got max : nat)
  | TooDeep (got max : nat)
  | LeadingDot (index : nat)
  | BadByte (component_index byte_index : nat) (byte : ascii).

#[export] Instance AssetPathError_eq_dec : EqDecision AssetPathError.
Proof. solve_decision. Defined.

Record AssetPath := mkAssetPath { asset_path_str : string }.

#[export] Instance AssetPath_eq_dec : EqDecision AssetPath.
Proof. solve_decision. Defined.

Definition is_allowed_component_byte (b : ascii) : bool :=
  is_ascii_alphanumeric b || Ascii.eqb b "." || Ascii.eqb b "-" || Ascii.eqb b "_".

(** The body of the component loop, below the depth test. *)
Definition check_component (component_index : nat) (component : list ascii)
    : result AssetPathError unit :=
  match component with
  | [] => Err (EmptyComponent component_index)
  | c :: _ =>
      if (MAX_COMPONENT_BYTES <? List.length component)
      then Err (ComponentTooLong component_index (List.length component) MAX_COMPONENT_BYTES)
      else if Ascii.eqb c "." then Err (LeadingDot component_index)
      else match first_bad (λ _, is_allowed_component_byte) 0 component with
           | Some (byte_index, b) => Err (BadByte component_index byte_index b)
           | None => Ok tt
           end
  end.

(** [for (component_index, component) in s.split('/').enumerate()], with the
    [depth] counter of the source. *)
Fixpoint check_components (component_index depth : nat) (cs : list (list ascii))
    : result AssetPathError unit :=
  match cs with
  | [] => Ok tt
  | c :: cs' =>
      let depth := S depth in
      if (MAX_DEPTH <? depth) then Err (TooDeep depth MAX_DEPTH)
      else match check_component component_index c with
           | Err e => Err e
           | Ok _ => check_components (S component_index) depth cs'
           end
  end.

Definition AssetPath_parse (s : string) : result AssetPathError AssetPath :=
  if (String.length s =? 0) then Err PathEmpty
  else if (MAX_TOTAL_BYTES <? String.length s)
  then Err (TotalTooLong (String.length s) MAX_TOTAL_BYTES)
  else match check_components 0 0 (split_on "/" (bytes_of s)) with
       | Err e => Err e
       | Ok _ => Ok (mkAssetPath s)
       end.

Definition AssetPath_components (p : AssetPath) : list (list ascii) :=
  split_on "/" (bytes_of (asset_path_str p)).

Definition AssetPath_depth (p : AssetPath) : nat :=
  List.length (split_on "/" (bytes_of (asset_path_str p))).

(** ** Specification *)

(** A component that names an entry of its directory and nothing else. *)
Definition component_safe (c : list ascii) : Prop :=
  c ≠ [] ∧ List.length c ≤ MAX_COMPONENT_BYTES ∧ head c ≠ Some "."%char ∧
  ∀ b, b ∈ c → is_allowed_component_byte b = true.

(** Kernel path resolution over components, from a directory given as the
    components below the workspace root: [..] pops, [.] and the empty
    component stay.  [None] is an escape above the root. *)
Fixpoint resolve (dir : list (list ascii)) (cs : list (list ascii))
    : option (list (list ascii)) :=
  match cs with
  | [] => Some dir
  | c :: cs' =>
      if decide (c = ["."; "."]%char) then
        match dir with [] => None | _ => resolve (removelast dir) cs' end
      else if decide (c = [] ∨ c = ["."]%char) then resolve dir cs'
      else resolve (dir ++ [c]) cs'
  end.

(** ** Lemmas on [split_on] and [join_with] *)

Lemma split_on_ne sep bs : split_on sep bs ≠ [].
Proof. induction bs; cbn; repeat case_match; done. Qed.

Lemma join_split sep bs : join_with sep (split_on sep bs) = bs.
Proof.
  induction bs as [|b bs IH]; [done|].
  cbn [split_on]. pose proof (split_on_ne sep bs) as Hne.
  destruct (Ascii.eqb_spec b sep) as [->|Hb]; destruct (split_on sep bs) as [|c cs]; try done.
  - cbn in *. by rewrite IH.
  - destruct cs; cbn in *; by rewrite IH.
Qed.

Lemma split_on_no_sep sep bs c b : c ∈ split_on sep bs → b ∈ c → b ≠ sep.
Proof.
  revert c. induction bs as [|a bs IH]; intros c; cbn [split_on].
  - intros ->%list_elem_of_singleton. by intros ?%elem_of_nil.
  - pose proof (split_on_ne sep bs) as Hne.
    destruct (Ascii.eqb_spec a sep) as [->|Ha].
    + intros [->|Hc]%elem_of_cons; [by intros ?%elem_of_nil|by apply IH].
    + destruct (split_on sep bs) as [|d ds]; [done|].
      intros [->|Hc]%elem_of_cons.
      * intros [->|Hb]%elem_of_cons; [done|]. apply (IH d); [left|done].
      * apply IH. by right.
Qed.

Lemma split_on_app_nosep sep c bs :
  (∀ b, b ∈ c → b ≠ sep) → split_on sep (c ++ sep :: bs) = c :: split_on sep bs.
Proof.
  induction c as [|a c IH]; intros Hc; cbn [app split_on].
  - by rewrite Ascii.eqb_refl.
  - destruct (Ascii.eqb_spec a sep) as [->|_]; [destruct (Hc sep); [left|done]|].
    rewrite IH; [done|]. intros b Hb. apply Hc. by right.
Qed.

Lemma split_on_nosep sep c : (∀ b, b ∈ c → b ≠ sep) → split_on sep c = [c].
Proof.
  induction c as [|a c IH]; intros Hc; cbn [split_on]; [done|].
  destruct (Ascii.eqb_spec a sep) as [->|_]; [destruct (Hc sep); [left|done]|].
  rewrite IH; [done|]. intros b Hb. apply Hc. by right.
Qed.

Lemma split_join sep cs :
  cs ≠ [] → (∀ c b, c ∈ cs → b ∈ c → b ≠ sep) → split_on sep (join_with sep cs) = cs.
Proof.
  induction cs as [|c cs IH]; intros Hne Hsep; [done|].
  destruct cs as [|d cs]; cbn [join_with].
  - apply split_on_nosep. intros b. apply Hsep. left.
  - rewrite split_on_app_nosep.
    + f_equal. apply IH; [done|]. intros c' b ?. apply Hsep. by right.
    + intros b. apply Hsep. left.
Qed.

Lemma join_with_bytes sep cs b :
  b ∈ join_with sep cs → b = sep ∨ ∃ c, c ∈ cs ∧ b ∈ c.
Proof.
  induction cs as [|c cs IH]; cbn [join_with]; [by intros ?%elem_of_nil|].
  destruct cs as [|d cs].
  - intros Hb. right. exists c. split; [left|done].
  - intros [Hb|[->|Hb]%elem_of_cons]%elem_of_app; [right; exists c; split; [left|done]|by left|].
    destruct (IH Hb) as [->|(c' & Hc' & ?)]; [by left|right]. exists c'. split; [by right|done].
Qed.

(** ** Lemmas on the validator *)

Lemma check_component_Ok i c u : check_component i c = Ok u ↔ component_safe c.
Proof.
  destruct u. unfold check_component, component_safe.
  destruct c as [|a c]; [naive_solver|].
  destruct (Nat.ltb_spec MAX_COMPONENT_BYTES (List.length (a :: c))) as [Hl|Hl];
    [split; [done|lia]|].
  destruct (Ascii.eqb_spec a ".") as [->|Ha]; [naive_solver|].
  destruct (first_bad _ _ _) as [[j b]|] eqn:F.
  - apply first_bad0_Some in F as (Hj & Hbad & _). split; [done|].
    intros (_ & _ & _ & Hall). rewrite Hall in Hbad; [done|].
    by apply list_elem_of_lookup_2 in Hj.
  - rewrite first_bad_all in F. cbn. naive_solver.
Qed.

Lemma check_components_Ok i d cs u :
  check_components i d cs = Ok u ↔
  (cs = [] ∨ d + List.length cs ≤ MAX_DEPTH) ∧ Forall component_safe cs.
Proof.
  destruct u. revert i d. induction cs as [|c cs IH]; intros i d; cbn -[Nat.ltb MAX_DEPTH].
  { naive_solver. }
  rewrite Forall_cons_iff.
  destruct (Nat.ltb_spec MAX_DEPTH (S d)) as [Hd|Hd].
  { split; [done|]. intros [[?|?] _]; [done|lia]. }
  destruct (check_component i c) as [[]|e] eqn:E.
  - apply check_component_Ok in E. rewrite IH. split.
    + intros [[->|?] ?]; cbn; (split; [right; cbn in *; lia|done]).
    + intros [[?|?] [? ?]]; [done|]. split; [right; lia|done].
  - split; [done|]. intros [_ [Hc _]]. apply (check_component_Ok i c tt) in Hc. congruence.
Qed.

Lemma AssetPath_parse_Ok s p :
  AssetPath_parse s = Ok p ↔
  p = mkAssetPath s ∧ String.length s ≤ MAX_TOTAL_BYTES ∧
  List.length (split_on "/" (bytes_of s)) ≤ MAX_DEPTH ∧
  Forall component_safe (split_on "/" (bytes_of s)).
Proof.
  unfold AssetPath_parse.
  destruct (Nat.eqb_spec (String.length s) 0) as [H0|H0].
  { split; [done|]. destruct s; [|done]. intros (_ & _ & _ & HF). cbn in HF.
    apply Forall_inv in HF as [? _]. done. }
  destruct (Nat.ltb_spec MAX_TOTAL_BYTES (String.length s)) as [Hl|Hl]; [split; [done|lia]|].
  destruct (check_components _ _ _) as [u|e] eqn:E.
  - apply check_components_Ok in E as [[E|E] HF]; [by apply split_on_ne in E|].
    split; [intros [= <-]; done|]. by intros [-> _].
  - split; [done|]. intros (_ & _ & Hd & HF).
    assert (E' : check_components 0 0 (split_on "/" (bytes_of s)) = Ok tt).
    { apply check_components_Ok. split; [by right|done]. }
    congruence.
Qed.

Lemma component_safe_special c :
  component_safe c → c ≠ [] ∧ c ≠ ["."]%char ∧ c ≠ ["."; "."]%char.
Proof. intros (? & _ & Hh & _). split_and!; [done|intros ->; done|intros ->; done]. Qed.

Lemma resolve_safe dir cs : Forall component_safe cs → resolve dir cs = Some (dir ++ cs).
Proof.
  intros HF. revert dir. induction HF as [|c cs Hc _ IH]; intros dir; cbn.
  - by rewrite app_nil_r.
  - apply component_safe_special in Hc as (? & ? & ?).
    rewrite decide_False by done. rewrite decide_False by naive_solver.
    by rewrite IH, <-app_assoc.
Qed.

(** ** Properties *)

(** A parsed [AssetPath] cannot escape the directory it is joined to.
    Resolving its components from any directory stays below that directory and
    reaches exactly the directory extended by those components; they are
    between 1 and 8 non-empty names without [/], and joining them with [/]
    gives back the input byte for byte. *)
Theorem AssetPath_parse_confined (s : string) (p : AssetPath) (dir : list (list ascii))
    (Hp : AssetPath_parse s = Ok p) :
  asset_path_str p = s ∧
  resolve dir (AssetPath_components p) = Some (dir ++ AssetPath_components p) ∧
  1 ≤ AssetPath_depth p ≤ MAX_DEPTH ∧
  (∀ c b, c ∈ AssetPath_components p → b ∈ c → b ≠ "/"%char) ∧
  join_with "/" (AssetPath_components p) = bytes_of s.
Proof.
  apply AssetPath_parse_Ok in Hp as (-> & _ & Hd & HF).
  unfold AssetPath_components, AssetPath_depth; cbn [asset_path_str]. split_and!.
  - done.
  - by apply resolve_safe.
  - destruct (split_on _ _) eqn:E; [by apply split_on_ne in E|cbn; lia].
  - done.
  - intros c b. apply split_on_no_sep.
  - apply join_split.
Qed.

Lemma AssetPath_parse_confined_witness :
  AssetPath_parse "audio_dataset/cat/sample.wav" =
    Ok (mkAssetPath "audio_dataset/cat/sample.wav") ∧
  1 ≤ AssetPath_depth (mkAssetPath "audio_dataset/cat/sample.wav") ≤ MAX_DEPTH.
Proof.
  assert (E : AssetPath_parse "audio_dataset/cat/sample.wav" =
    Ok (mkAssetPath "audio_dataset/cat/sample.wav")) by (vm_compute; reflexivity).
  split; [exact E|].
  exact (proj1 (proj2 (proj2 (AssetPath_parse_confined _ _ [] E)))).
Defined.

(** The validator is complete.  A non-empty text is accepted iff it has at
    most 256 bytes, at most 8 components, and every component is non-empty, at
    most 255 bytes, made of [A-Za-z0-9._-] and without a leading dot. *)
Theorem AssetPath_parse_complete (s : string) :
  AssetPath_parse s = Ok (mkAssetPath s) ↔
  String.length s ≤ MAX_TOTAL_BYTES ∧
  List.length (split_on "/" (bytes_of s)) ≤ MAX_DEPTH ∧
  Forall component_safe (split_on "/" (bytes_of s)).
Proof. rewrite AssetPath_parse_Ok. naive_solver. Qed.
