(* ===== verification/HeadHeader.v ===== *)
(** * The [.mpk] head-artifact header ([src/modules/common/head_header.rs])

    The 32-byte little-endian header, its CRC-32, the parser's error order and
    the streaming writer.  Bytes and [u32] values are [Z]. *)

From S2P Require Import Prelude.

(** ** Little-endian [u32] *)

Definition is_byte (b : Z) : Prop := (0 ≤ b < 256)%Z.
Definition is_u32 (x : Z) : Prop := (0 ≤ x ≤ u32_max)%Z.

(** [x.to_le_bytes()]. *)
Definition u32_to_le_bytes (x : Z) : list Z :=
  [Z.land x 255; Z.land (Z.shiftr x 8) 255; Z.land (Z.shiftr x 16) 255;
   Z.land (Z.shiftr x 24) 255].

(** [u32::from_le_bytes] of a four-byte slice. *)
Definition u32_from_le_bytes (bs : list Z) : Z :=
  foldr (λ b acc, Z.lor b (Z.shiftl acc 8)) 0%Z bs.

(** [bytes[a..b]], in range. *)
Definition slice {A} (a b : nat) (bs : list A) : list A := take (b - a) (drop a bs).

(** [buf[a..].copy_from_slice(src)], in range. *)
Definition copy_at {A} (a : nat) (src buf : list A) : list A :=
  take a buf ++ src ++ drop (a + List.length src) buf.

(** ** CRC-32 IEEE 802.3 *)

Definition crc_table_step (c : Z) : Z :=
  if Z.testbit c 0 then Z.lxor 0xEDB88320 (Z.shiftr c 1) else Z.shiftr c 1.

Definition crc_table_entry (i : Z) : Z := Nat.iter 8 crc_table_step i.

Definition CRC32_TABLE : list Z :=
  Eval vm_compute in map crc_table_entry (map Z.of_nat (seq 0 256)).

(** [CRC32_TABLE[i as usize]], [i < 256]. *)
Definition crc_table_at (i : Z) : Z := nth (Z.to_nat i) CRC32_TABLE 0%Z.

Definition crc32_step (crc b : Z) : Z :=
  Z.lxor (crc_table_at (Z.land (Z.lxor crc b) 255)) (Z.shiftr crc 8).

Definition crc32_ieee (bytes : list Z) : Z :=
  Z.lxor (foldl crc32_step 0xFFFFFFFF%Z bytes) 0xFFFFFFFF.

(** ** The header *)

Definition HEAD_MAGIC : list Z := map byte_val (bytes_of "ACSTHEAD").
Definition HEAD_HEADER_VERSION : Z := 1.
Definition HEAD_HEADER_SIZE : nat := 32.

Record HeadHeader := mkHeadHeader {
  header_version : Z;
  feature_dim : Z;
  num_classes : Z;
  payload_len : Z;
}.

Inductive HeadHeaderError : Type :=
  | TooShort (got min : nat)
  | BadMagic (got : list Z)
  | SchemaTooNew (found supported : Z)
  | BadCrc (stored computed : Z).

Definition serialize_header (feature_dim num_classes payload_len : Z) : list Z :=
  let buf := replicate HEAD_HEADER_SIZE 0%Z in
  let buf := copy_at 0 HEAD_MAGIC buf in
  let buf := copy_at 8 (u32_to_le_bytes HEAD_HEADER_VERSION) buf in
  let buf := copy_at 12 (u32_to_le_bytes feature_dim) buf in
  let buf := copy_at 16 (u32_to_le_bytes num_classes) buf in
  let buf := copy_at 24 (u32_to_le_bytes payload_len) buf in
  let crc := crc32_ieee (slice 0 28 buf) in
  copy_at 28 (u32_to_le_bytes crc) buf.

Definition parse_header (bytes : list Z) : result HeadHeaderError HeadHeader :=
  if (List.length bytes <? HEAD_HEADER_SIZE)
  then Err (TooShort (List.length bytes) HEAD_HEADER_SIZE)
  else
  let magic := slice 0 8 bytes in
  if negb (bool_decide (magic = HEAD_MAGIC)) then Err (BadMagic magic)
  else
  let header_version := u32_from_le_bytes (slice 8 12 bytes) in
  if (HEAD_HEADER_VERSION <? header_version)%Z
  then Err (SchemaTooNew header_version HEAD_HEADER_VERSION)
  else
  let stored_crc := u32_from_le_bytes (slice 28 32 bytes) in
  let computed_crc := crc32_ieee (slice 0 28 bytes) in
  if negb (stored_crc =? computed_crc)%Z then Err (BadCrc stored_crc computed_crc)
  else
  Ok {| header_version := header_version;
        feature_dim := u32_from_le_bytes (slice 12 16 bytes);
        num_classes := u32_from_le_bytes (slice 16 20 bytes);
        payload_len := u32_from_le_bytes (slice 24 28 bytes) |}.

(** [std::io::Error] as far as the source constructs or forwards it. *)
Inductive WriteError (IoError : Type) : Type :=
  | InvalidInput
  | Forwarded (e : IoError).
Arguments InvalidInput {IoError}.
Arguments Forwarded {IoError} e.

Definition payload_len_or_err {IoError} (len : Z) : result (WriteError IoError) Z :=
  if (len <=? u32_max)%Z then Ok len else Err InvalidInput.

Section Writer.
(** The [W: Write] of the source: a write may fail after changing the sink. *)
Context {W IoError : Type}.
Variable write_all : W → list Z → W * result IoError unit.

Definition write_with_payload (w : W) (feature_dim num_classes : Z) (payload : list Z)
    : W * result (WriteError IoError) unit :=
  match payload_len_or_err (Z.of_nat (List.length payload)) with
  | Err e => (w, Err e)
  | Ok payload_len =>
      let header := serialize_header feature_dim num_classes payload_len in
      match write_all w header with
      | (w, Err e) => (w, Err (Forwarded e))
      | (w, Ok _) => let '(w, r) := write_all w payload in (w, map_err Forwarded r)
      end
  end.
End Writer.

(** ** Lemmas: bytes and words *)

Lemma land_255 x : Z.land x 255 = (x mod 256)%Z.
Proof. change 255%Z with (Z.ones 8). rewrite Z.land_ones by lia. done. Qed.

Lemma land_255_byte x : is_byte (Z.land x 255).
Proof. rewrite land_255. unfold is_byte. pose proof (Z.mod_pos_bound x 256). lia. Qed.

Lemma lxor_bound n x y :
  (0 ≤ n → 0 ≤ x < 2 ^ n → 0 ≤ y < 2 ^ n → 0 ≤ Z.lxor x y < 2 ^ n)%Z.
Proof.
  intros Hn Hx Hy. assert (H0 : (0 ≤ Z.lxor x y)%Z) by (apply Z.lxor_nonneg; lia).
  split; [done|]. destruct (decide (Z.lxor x y = 0)%Z) as [->|Hne]; [lia|].
  apply Z.log2_lt_pow2; [lia|].
  pose proof (Z.log2_lxor x y ltac:(lia) ltac:(lia)) as Hl.
  assert (Hlog : ∀ z, (0 ≤ z < 2 ^ n → z ≠ 0 → Z.log2 z < n)%Z)
    by (intros z [? ?] ?; apply Z.log2_lt_pow2; lia).
  destruct (decide (x = 0)%Z) as [->|Hx0]; [rewrite Z.lxor_0_l in *; by apply Hlog|].
  destruct (decide (y = 0)%Z) as [->|Hy0]; [rewrite Z.lxor_0_r in *; by apply Hlog|].
  pose proof (Hlog x Hx Hx0). pose proof (Hlog y Hy Hy0). lia.
Qed.

Lemma shiftr_bound n k x : (0 ≤ k ≤ n → 0 ≤ x < 2 ^ n → 0 ≤ Z.shiftr x k < 2 ^ (n - k))%Z.
Proof.
  intros [Hk Hn] [Hx Hlt]. rewrite Z.shiftr_div_pow2 by done. split.
  - apply Z.div_pos; lia.
  - apply Z.div_lt_upper_bound; [lia|]. rewrite <-Z.pow_add_r by lia.
    by replace (k + (n - k))%Z with n by lia.
Qed.

Lemma is_u32_pow x : is_u32 x ↔ (0 ≤ x < 2 ^ 32)%Z.
Proof. unfold is_u32, u32_max. lia. Qed.

Lemma is_u32_lxor x y : is_u32 x → is_u32 y → is_u32 (Z.lxor x y).
Proof. rewrite !is_u32_pow. apply lxor_bound. lia. Qed.

Lemma forallb_Forall_byte bs :
  forallb (λ b, (0 <=? b) && (b <? 256))%Z bs = true → Forall is_byte bs.
Proof.
  rewrite forallb_forall, List.Forall_forall. intros H b Hb. specialize (H b Hb).
  unfold is_byte. lia.
Qed.

(** Bitwise identities: compare the bits of both sides. *)
Ltac bits_spec n :=
  repeat rewrite ?Z.lor_spec, ?Z.lxor_spec, ?Z.land_spec, ?Z.shiftl_spec,
    ?Z.shiftr_spec by lia.

Lemma testbit_255 n : (0 ≤ n)%Z → Z.testbit 255 n = (n <? 8)%Z.
Proof.
  intros Hn. change 255%Z with (Z.ones 8).
  destruct (Z.ltb_spec n 8); [apply Z.ones_spec_low|apply Z.ones_spec_high]; lia.
Qed.

Lemma testbit_above n x m : (0 ≤ m ≤ n → 0 ≤ x < 2 ^ m → Z.testbit x n = false)%Z.
Proof.
  intros Hm Hx. destruct (decide (x = 0)%Z) as [->|Hne]; [apply Z.bits_0|].
  apply Z.bits_above_log2; [lia|].
  pose proof (proj1 (Z.log2_lt_pow2 x m ltac:(lia)) ltac:(lia)). lia.
Qed.

Lemma lor_lxor_byte b x : is_byte b → Z.lor b (Z.shiftl x 8) = Z.lxor b (Z.shiftl x 8).
Proof.
  intros Hb. apply Z.bits_inj'. intros n Hn. bits_spec n.
  destruct (Z.ltb_spec n 8).
  - rewrite (Z.testbit_neg_r x) by lia. by rewrite orb_false_r, xorb_false_r.
  - rewrite (testbit_above n b 8) by (unfold is_byte in Hb; lia). by destruct (Z.testbit x _).
Qed.

Lemma land_255_lxor x y : Z.land (Z.lxor x y) 255 = Z.lxor (Z.land x 255) (Z.land y 255).
Proof.
  apply Z.bits_inj'. intros n Hn. bits_spec n.
  by destruct (Z.testbit x n), (Z.testbit y n), (Z.testbit 255 n).
Qed.

Lemma land_255_shiftl x : Z.land (Z.shiftl x 8) 255 = 0%Z.
Proof.
  apply Z.bits_inj'. intros n Hn. bits_spec n. rewrite testbit_255, Z.bits_0 by lia.
  destruct (Z.ltb_spec n 8); [|by rewrite andb_false_r].
  by rewrite (Z.testbit_neg_r x) by lia.
Qed.

Lemma shiftr_byte b : is_byte b → Z.shiftr b 8 = 0%Z.
Proof.
  unfold is_byte. intros Hb. rewrite Z.shiftr_div_pow2 by lia. apply Z.div_small. lia.
Qed.

Lemma byte_split x : (0 ≤ x)%Z → x = Z.lor (Z.land x 255) (Z.shiftl (Z.shiftr x 8) 8).
Proof.
  intros Hx. apply Z.bits_inj'. intros n Hn. bits_spec n. rewrite testbit_255 by lia.
  destruct (Z.ltb_spec n 8).
  - rewrite (Z.testbit_neg_r _ (n - 8)) by lia. by rewrite andb_true_r, orb_false_r.
  - rewrite Z.shiftr_spec by lia. rewrite andb_false_r. cbn. f_equal. lia.
Qed.

Lemma from_le_cons b bs :
  is_byte b → u32_from_le_bytes (b :: bs) = Z.lxor b (Z.shiftl (u32_from_le_bytes bs) 8).
Proof. intros Hb. cbn. by apply lor_lxor_byte. Qed.

Lemma from_le_nonneg bs : Forall is_byte bs → (0 ≤ u32_from_le_bytes bs)%Z.
Proof.
  induction 1 as [|b bs Hb _ IH]; cbn; [done|].
  apply Z.lor_nonneg. split; [unfold is_byte in Hb; lia|by apply Z.shiftl_nonneg].
Qed.

Lemma from_le_bound bs :
  Forall is_byte bs → (u32_from_le_bytes bs < 2 ^ (8 * Z.of_nat (List.length bs)))%Z.
Proof.
  induction 1 as [|b bs Hb HF IH]; [done|]. rewrite from_le_cons by done.
  pose proof (from_le_nonneg bs HF) as H0. unfold is_byte in Hb. cbn [List.length].
  apply lxor_bound; [lia| |].
  - split; [lia|]. apply Z.lt_le_trans with (2 ^ 8)%Z; [lia|]. apply Z.pow_le_mono_r; lia.
  - rewrite Z.shiftl_mul_pow2 by lia. split; [lia|].
    replace (8 * Z.of_nat (S (List.length bs)))%Z with (8 * Z.of_nat (List.length bs) + 8)%Z by lia.
    rewrite Z.pow_add_r by lia. nia.
Qed.

Lemma from_le_inj bs bs' :
  Forall is_byte bs → Forall is_byte bs' → List.length bs = List.length bs' →
  u32_from_le_bytes bs = u32_from_le_bytes bs' → bs = bs'.
Proof.
  intros HF. revert bs'.
  induction HF as [|b bs Hb HF IH]; intros [|b' bs'] HF' Hlen Heq; try done.
  inversion HF' as [|? ? Hb' HF'' ]; subst.
  rewrite !from_le_cons in Heq by done.
  assert (Hlow : Z.land b 255 = Z.land b' 255).
  { pose proof (f_equal (λ z, Z.land z 255) Heq) as E. cbn beta in E.
    by rewrite !land_255_lxor, !land_255_shiftl, !Z.lxor_0_r in E. }
  rewrite !land_255, !Z.mod_small in Hlow by done. subst b'. f_equal.
  apply IH; [done|by injection Hlen|].
  pose proof (f_equal (λ z, Z.shiftr z 8) Heq) as E. cbn beta in E.
  rewrite !Z.shiftr_lxor, shiftr_byte, !Z.lxor_0_l, !Z.shiftr_shiftl_l in E by (done || lia).
  by rewrite !Z.shiftl_0_r in E.
Qed.

Lemma length_u32_to_le_bytes x : List.length (u32_to_le_bytes x) = 4.
Proof. done. Qed.

Lemma u32_to_le_bytes_bytes x : Forall is_byte (u32_to_le_bytes x).
Proof. repeat constructor; apply land_255_byte. Qed.

(** [from_le_bytes] inverts [to_le_bytes]. *)
Lemma from_to_le x : is_u32 x → u32_from_le_bytes (u32_to_le_bytes x) = x.
Proof.
  intros Hx. unfold is_u32, u32_max in Hx. cbn -[Z.land Z.lor Z.shiftl Z.shiftr].
  assert (H3 : Z.shiftr (Z.shiftr x 24) 8 = 0%Z).
  { rewrite Z.shiftr_shiftr, Z.shiftr_div_pow2 by lia. apply Z.div_small. lia. }
  assert (Hs : ∀ k, (0 ≤ k)%Z → (0 ≤ Z.shiftr x k)%Z) by (intros; apply Z.shiftr_nonneg; lia).
  rewrite <-H3, <-byte_split by (apply Hs; lia).
  replace (Z.shiftr x 24) with (Z.shiftr (Z.shiftr x 16) 8) by (rewrite Z.shiftr_shiftr by lia; done).
  rewrite <-byte_split by (apply Hs; lia).
  replace (Z.shiftr x 16) with (Z.shiftr (Z.shiftr x 8) 8) by (rewrite Z.shiftr_shiftr by lia; done).
  rewrite <-byte_split by (apply Hs; lia).
  rewrite <-byte_split; [done|lia].
Qed.

(** ** Lemmas: CRC-32 as a linear map *)

(** One step of the register without input. *)
Definition crc_shift (x : Z) : Z := Z.lxor (crc_table_at (Z.land x 255)) (Z.shiftr x 8).

Definition bytes_upto (n : nat) : list Z := map Z.of_nat (seq 0 n).

Lemma elem_of_bytes_upto b : is_byte b → b ∈ bytes_upto 256.
Proof.
  unfold is_byte, bytes_upto. intros Hb.
  replace b with (Z.of_nat (Z.to_nat b)) by lia. apply list_elem_of_fmap_2.
  apply elem_of_seq. lia.
Qed.

Lemma byte_check (f : Z → bool) b : forallb f (bytes_upto 256) = true → is_byte b → f b = true.
Proof.
  intros Hf Hb. rewrite forallb_forall in Hf. apply Hf.
  apply list_elem_of_In, elem_of_bytes_upto, Hb.
Qed.

Lemma crc_table_linear a b :
  is_byte a → is_byte b →
  crc_table_at (Z.lxor a b) = Z.lxor (crc_table_at a) (crc_table_at b).
Proof.
  intros Ha Hb. apply Z.eqb_eq.
  apply (byte_check (λ b, crc_table_at (Z.lxor a b) =? Z.lxor (crc_table_at a) (crc_table_at b))%Z b);
    [|done].
  apply (byte_check (λ a, forallb (λ b, crc_table_at (Z.lxor a b) =?
    Z.lxor (crc_table_at a) (crc_table_at b))%Z (bytes_upto 256)) a); [|done].
  vm_compute. reflexivity.
Qed.

Lemma crc_table_range a : is_byte a → is_u32 (crc_table_at a).
Proof.
  intros Ha. apply (byte_check (λ a, (0 <=? crc_table_at a) && (crc_table_at a <=? u32_max))%Z) in Ha.
  2:{ vm_compute. reflexivity. }
  unfold is_u32. lia.
Qed.

Lemma crc_table_top a : is_byte a → (crc_table_at a < 2 ^ 24)%Z → a = 0%Z.
Proof.
  intros Ha Hlt. apply (byte_check (λ a, (a =? 0) || (2 ^ 24 <=? crc_table_at a))%Z) in Ha.
  2:{ vm_compute. reflexivity. }
  lia.
Qed.

(** The table holds the bitwise shift register of the polynomial. *)
Lemma crc_table_correct a : is_byte a → crc_table_at a = crc_table_entry a.
Proof.
  intros Ha. apply Z.eqb_eq, (byte_check (λ a, crc_table_at a =? crc_table_entry a)%Z); [|done].
  vm_compute. reflexivity.
Qed.

Lemma crc_shift_lxor x y : crc_shift (Z.lxor x y) = Z.lxor (crc_shift x) (crc_shift y).
Proof.
  unfold crc_shift. rewrite land_255_lxor, crc_table_linear, Z.shiftr_lxor by apply land_255_byte.
  rewrite !Z.lxor_assoc. f_equal. rewrite <-!Z.lxor_assoc. f_equal. apply Z.lxor_comm.
Qed.

Lemma crc_shift_shiftl w : (0 ≤ w)%Z → crc_shift (Z.shiftl w 8) = w.
Proof.
  intros Hw. unfold crc_shift. rewrite land_255_shiftl, Z.shiftr_shiftl_l by lia.
  rewrite Z.shiftl_0_r. by rewrite (Z.lxor_0_l w : Z.lxor (crc_table_at 0) w = w).
Qed.

Lemma crc_shift_u32 x : is_u32 x → is_u32 (crc_shift x).
Proof.
  intros Hx. apply is_u32_lxor; [apply crc_table_range, land_255_byte|].
  rewrite is_u32_pow in *. pose proof (shiftr_bound 32 8 x). lia.
Qed.

Lemma crc_shift_zero x : is_u32 x → crc_shift x = 0%Z → x = 0%Z.
Proof.
  intros Hx%is_u32_pow H0. unfold crc_shift in H0. apply Z.lxor_eq in H0.
  pose proof (shiftr_bound 32 8 x ltac:(lia) Hx) as Hs.
  assert (Hl : Z.land x 255 = 0%Z) by (apply crc_table_top; [apply land_255_byte|lia]).
  rewrite Hl in H0. change (crc_table_at 0) with 0%Z in H0.
  rewrite (byte_split x) by lia. by rewrite Hl, <-H0.
Qed.

Lemma crc_shift_inj x y : is_u32 x → is_u32 y → crc_shift x = crc_shift y → x = y.
Proof.
  intros Hx Hy E. apply Z.lxor_eq, crc_shift_zero; [by apply is_u32_lxor|].
  by rewrite crc_shift_lxor, E, Z.lxor_nilpotent.
Qed.

Lemma crc_shifts_u32 n x : is_u32 x → is_u32 (Nat.iter n crc_shift x).
Proof. intros Hx. induction n; [done|]. by apply crc_shift_u32. Qed.

Lemma crc_shifts_inj n x y :
  is_u32 x → is_u32 y → Nat.iter n crc_shift x = Nat.iter n crc_shift y → x = y.
Proof.
  intros Hx Hy. induction n; [done|]. intros E%crc_shift_inj; [auto| |]; by apply crc_shifts_u32.
Qed.

Lemma crc32_step_shift s b : is_byte b → crc32_step s b = crc_shift (Z.lxor s b).
Proof.
  intros Hb. unfold crc32_step, crc_shift.
  by rewrite (Z.shiftr_lxor s b 8), (shiftr_byte b), Z.lxor_0_r.
Qed.

(** Feeding bytes is shifting the register with the bytes xored in. *)
Lemma crc_fold_shifts bs s :
  Forall is_byte bs →
  foldl crc32_step s bs = Nat.iter (List.length bs) crc_shift (Z.lxor s (u32_from_le_bytes bs)).
Proof.
  intros HF. revert s. induction HF as [|b bs Hb HF IH]; intros s.
  - cbn. by rewrite Z.lxor_0_r.
  - cbn [foldl List.length]. rewrite IH, Nat.iter_succ_r, from_le_cons, crc32_step_shift by done.
    f_equal. rewrite <-Z.lxor_assoc, (crc_shift_lxor (Z.lxor s b)). f_equal.
    symmetry. apply crc_shift_shiftl. by apply from_le_nonneg.
Qed.

Lemma crc_fold_u32 bs s : Forall is_byte bs → is_u32 s → is_u32 (foldl crc32_step s bs).
Proof.
  intros HF. revert s. induction HF as [|b bs Hb HF IH]; intros s Hs; [done|].
  cbn. apply IH. rewrite crc32_step_shift by done. apply crc_shift_u32, is_u32_lxor; [done|].
  unfold is_u32, is_byte, u32_max in *. lia.
Qed.

Lemma crc_fold_inj bs s s' :
  Forall is_byte bs → is_u32 s → is_u32 s' →
  foldl crc32_step s bs = foldl crc32_step s' bs → s = s'.
Proof.
  intros HF Hs Hs'. revert s s' Hs Hs'.
  induction HF as [|b bs Hb HF IH]; intros s s' Hs Hs' E; [done|].
  cbn in E. rewrite !crc32_step_shift in E by done.
  assert (Hb' : is_u32 b) by (unfold is_u32, is_byte, u32_max in *; lia).
  apply IH, crc_shift_inj in E; try (by apply crc_shift_u32, is_u32_lxor);
    try by apply is_u32_lxor.
  rewrite <-(Z.lxor_0_r s), <-(Z.lxor_0_r s'), <-(Z.lxor_nilpotent b), <-!Z.lxor_assoc.
  by rewrite E.
Qed.

Definition crc_init : Z := 0xFFFFFFFF.
Lemma crc_init_u32 : is_u32 crc_init.
Proof. done. Qed.

Lemma crc32_ieee_u32 bs : Forall is_byte bs → is_u32 (crc32_ieee bs).
Proof. intros. apply is_u32_lxor; [by apply crc_fold_u32|done]. Qed.

(** ** Lemmas: the header's codeword *)

(** A header whose CRC field is right leaves the register at one residue. *)
Definition crc_residue : Z := Nat.iter 4 crc_shift crc_init.

Lemma crc_codeword body crc :
  Forall is_byte body → Forall is_byte crc → List.length crc = 4 →
  u32_from_le_bytes crc = crc32_ieee body ↔
  foldl crc32_step crc_init (body ++ crc) = crc_residue.
Proof.
  intros Hb Hc Hlen. rewrite foldl_app, crc_fold_shifts, Hlen by done.
  unfold crc32_ieee, crc_residue. fold crc_init.
  set (s := foldl crc32_step crc_init body).
  assert (Hs : is_u32 s) by (by apply crc_fold_u32).
  assert (Hf : is_u32 (u32_from_le_bytes crc)).
  { apply is_u32_pow. split; [by apply from_le_nonneg|].
    pose proof (from_le_bound crc Hc) as Hlt. by rewrite Hlen in Hlt. }
  split.
  - intros ->. by rewrite <-Z.lxor_assoc, Z.lxor_nilpotent, Z.lxor_0_l.
  - intros E%crc_shifts_inj; [|by apply is_u32_lxor|done].
    rewrite <-E, <-Z.lxor_assoc, Z.lxor_nilpotent. by rewrite Z.lxor_0_l.
Qed.

(** Two codewords that differ only in a window of at most four bytes are equal. *)
Lemma crc_burst pre w w' post :
  Forall is_byte (pre ++ w ++ post) → Forall is_byte w' →
  List.length w' = List.length w → List.length w ≤ 4 →
  foldl crc32_step crc_init (pre ++ w ++ post) =
    foldl crc32_step crc_init (pre ++ w' ++ post) → w = w'.
Proof.
  rewrite !Forall_app. intros (Hp & Hw & Hq) Hw' Hlen Hle. rewrite !foldl_app. intros E.
  assert (Hs : is_u32 (foldl crc32_step crc_init pre)) by (by apply crc_fold_u32).
  revert E Hs. generalize (foldl crc32_step crc_init pre) as s. intros s E Hs.
  assert (Hu : ∀ v, Forall is_byte v → List.length v ≤ 4 → is_u32 (u32_from_le_bytes v)).
  { intros v Hv Hl. apply is_u32_pow. split; [by apply from_le_nonneg|].
    pose proof (from_le_bound v Hv). apply Z.lt_le_trans with (2 ^ (8 * Z.of_nat (List.length v)))%Z;
      [done|]. apply Z.pow_le_mono_r; lia. }
  apply crc_fold_inj in E; [|done|by apply crc_fold_u32..].
  rewrite !crc_fold_shifts, Hlen in E by done.
  apply crc_shifts_inj in E; [|by apply is_u32_lxor; auto|apply is_u32_lxor, Hu; [done..|lia]].
  apply from_le_inj; [done..|].
  rewrite <-(Z.lxor_0_l (u32_from_le_bytes w)), <-(Z.lxor_0_l (u32_from_le_bytes w')).
  by rewrite <-(Z.lxor_nilpotent s), !Z.lxor_assoc, E.
Qed.

Lemma slice_drop_app {A} (a b : nat) (xs ys : list A) :
  b ≤ List.length xs → slice a b (xs ++ ys) = slice a b xs.
Proof.
  intros Hb. unfold slice. destruct (decide (a ≤ b)).
  - rewrite drop_app_le by lia. rewrite take_app_le; [done|]. rewrite length_drop. lia.
  - replace (b - a) with 0 by lia. by rewrite !take_0.
Qed.

(** [parse_header] reads the first 32 bytes only. *)
Lemma parse_header_prefix hdr rest :
  List.length hdr = HEAD_HEADER_SIZE → parse_header (hdr ++ rest) = parse_header hdr.
Proof.
  intros Hlen. unfold parse_header. rewrite length_app, Hlen.
  rewrite !slice_drop_app by (rewrite Hlen; unfold HEAD_HEADER_SIZE; lia).
  by rewrite (proj2 (Nat.ltb_ge (HEAD_HEADER_SIZE + _) _)) by lia.
Qed.

Lemma parse_header_Ok_codeword hdr h :
  List.length hdr = HEAD_HEADER_SIZE → Forall is_byte hdr →
  parse_header hdr = Ok h → foldl crc32_step crc_init hdr = crc_residue.
Proof.
  intros Hlen HF. unfold parse_header. rewrite Hlen, Nat.ltb_irrefl.
  case_bool_decide; [|done]. cbn [negb].
  destruct (_ <? _)%Z; [done|].
  destruct (Z.eqb_spec (u32_from_le_bytes (slice 28 32 hdr)) (crc32_ieee (slice 0 28 hdr)))
    as [E|]; [|done]. intros _.
  replace hdr with (slice 0 28 hdr ++ slice 28 32 hdr).
  - apply crc_codeword; [..|exact E].
    + unfold slice. by apply Forall_take, Forall_drop.
    + unfold slice. by apply Forall_take, Forall_drop.
    + unfold slice. rewrite length_take, length_drop, Hlen. done.
  - unfold slice. cbn [drop]. rewrite <-(take_drop 28 hdr) at 3. f_equal.
    apply take_ge. rewrite length_drop, Hlen. done.
Qed.

Lemma serialize_header_layout f n p :
  let body := HEAD_MAGIC ++ u32_to_le_bytes HEAD_HEADER_VERSION ++ u32_to_le_bytes f ++
              u32_to_le_bytes n ++ [0; 0; 0; 0]%Z ++ u32_to_le_bytes p in
  serialize_header f n p = body ++ u32_to_le_bytes (crc32_ieee body).
Proof. reflexivity. Qed.

Lemma serialize_body_bytes f n p :
  Forall is_byte (HEAD_MAGIC ++ u32_to_le_bytes HEAD_HEADER_VERSION ++ u32_to_le_bytes f ++
              u32_to_le_bytes n ++ [0; 0; 0; 0]%Z ++ u32_to_le_bytes p).
Proof.
  rewrite !Forall_app.
  split_and!; try apply u32_to_le_bytes_bytes; by repeat constructor.
Qed.

Lemma serialize_header_length f n p : List.length (serialize_header f n p) = HEAD_HEADER_SIZE.
Proof. reflexivity. Qed.

Lemma parse_serialize_header f n p :
  is_u32 f → is_u32 n → is_u32 p →
  parse_header (serialize_header f n p) = Ok (mkHeadHeader HEAD_HEADER_VERSION f n p).
Proof.
  intros Hf Hn Hp. rewrite serialize_header_layout. cbv zeta.
  set (body := HEAD_MAGIC ++ _).
  set (crc := crc32_ieee body).
  assert (Hcrc : is_u32 crc) by (apply crc32_ieee_u32, serialize_body_bytes).
  unfold parse_header.
  change (slice 0 28 (body ++ u32_to_le_bytes crc)) with body.
  change (slice 28 32 (body ++ u32_to_le_bytes crc)) with (u32_to_le_bytes crc).
  change (slice 12 16 (body ++ u32_to_le_bytes crc)) with (u32_to_le_bytes f).
  change (slice 16 20 (body ++ u32_to_le_bytes crc)) with (u32_to_le_bytes n).
  change (slice 24 28 (body ++ u32_to_le_bytes crc)) with (u32_to_le_bytes p).
  change (slice 8 12 (body ++ u32_to_le_bytes crc)) with (u32_to_le_bytes HEAD_HEADER_VERSION).
  change (slice 0 8 (body ++ u32_to_le_bytes crc)) with HEAD_MAGIC.
  rewrite !from_to_le by done. rewrite bool_decide_eq_true_2 by done.
  fold crc. by rewrite Z.eqb_refl.
Qed.

(** ** Properties *)

(** The header round-trips and the writer never narrows.  A sink that
    appends receives exactly header then payload when the payload length fits
    the [u32] slot; parsing what was written gives the feature dimension, the
    class count and the payload's own length back, and the payload follows at
    offset 32.  A longer payload is refused with nothing written. *)
Theorem write_parse_roundtrip (sink : list Z) (f n : Z) (payload : list Z)
    (Hf : is_u32 f) (Hn : is_u32 n) :
  let append := λ w bs, (w ++ bs, @Ok unit unit tt) in
  let '(sink', r) := write_with_payload append sink f n payload in
  if (Z.of_nat (List.length payload) <=? u32_max)%Z then
    r = Ok tt ∧
    ∃ written, sink' = sink ++ written ∧
      parse_header written =
        Ok (mkHeadHeader HEAD_HEADER_VERSION f n (Z.of_nat (List.length payload))) ∧
      drop HEAD_HEADER_SIZE written = payload
  else sink' = sink ∧ r = Err InvalidInput.
Proof.
  cbv zeta. unfold write_with_payload, payload_len_or_err.
  destruct (Z.leb_spec (Z.of_nat (List.length payload)) u32_max) as [Hl|Hl]; [|done].
  split; [done|]. eexists (serialize_header f n _ ++ payload).
  rewrite <-app_assoc. split; [done|].
  rewrite parse_header_prefix by apply serialize_header_length.
  rewrite parse_serialize_header by (done || (unfold is_u32; lia)). split; [done|].
  by rewrite drop_app_length' by (symmetry; apply serialize_header_length).
Qed.

Lemma write_parse_roundtrip_witness :
  parse_header (fst (write_with_payload (λ w bs, (w ++ bs, @Ok unit unit tt)) [] 2000 3 [7; 8; 9]%Z))
    = Ok (mkHeadHeader 1 2000 3 3).
Proof.
  pose proof (write_parse_roundtrip [] 2000 3 [7; 8; 9]%Z) as H.
  destruct H as (_ & written & E & P & _); [done|done|].
  change (parse_header (([] ++ serialize_header 2000 3 3) ++ [7; 8; 9]%Z) = Ok (mkHeadHeader 1 2000 3 3)).
  change (([] ++ serialize_header 2000 3 3) ++ [7; 8; 9]%Z = written) in E. rewrite E. exact P.
Defined.

(** C40: A corrupted header is never accepted when the corruption stays within
    four consecutive bytes: if [parse_header] accepts a 32-byte header
    [pre ++ w ++ post], it rejects every header obtained by replacing the
    window [w] (at most four bytes, the CRC field included) by different
    bytes of the same length. *)
Theorem parse_header_detects_burst (pre w w' post rest : list Z) (h : HeadHeader)
    (Hlen : List.length (pre ++ w ++ post) = HEAD_HEADER_SIZE)
    (Hbytes : Forall is_byte (pre ++ w ++ post)) (Hbytes' : Forall is_byte w')
    (Hw : List.length w' = List.length w) (Hle : List.length w ≤ 4) (Hne : w' ≠ w)
    (Hok : parse_header ((pre ++ w ++ post) ++ rest) = Ok h) :
  ∃ e, parse_header ((pre ++ w' ++ post) ++ rest) = Err e.
Proof.
  rewrite parse_header_prefix in Hok by done.
  assert (Hlen' : List.length (pre ++ w' ++ post) = HEAD_HEADER_SIZE)
    by (rewrite !length_app in *; lia).
  rewrite parse_header_prefix by done.
  destruct (parse_header (pre ++ w' ++ post)) as [h'|e] eqn:E; [|by eexists].
  destruct Hne. symmetry. apply (crc_burst pre w w' post); [done..|].
  rewrite (parse_header_Ok_codeword _ _ Hlen Hbytes Hok).
  rewrite (parse_header_Ok_codeword _ _ Hlen' ltac:(rewrite !Forall_app in *; tauto) E). done.
Qed.

Lemma parse_header_detects_burst_witness :
  ∃ e, parse_header (take 12 (serialize_header 2000 3 5) ++ [0; 0; 0]%Z ++
                     drop 15 (serialize_header 2000 3 5)) = Err e.
Proof.
  pose proof (parse_header_detects_burst (take 12 (serialize_header 2000 3 5))
    (slice 12 15 (serialize_header 2000 3 5)) [0; 0; 0]%Z
    (drop 15 (serialize_header 2000 3 5)) [] (mkHeadHeader 1 2000 3 5)) as H.
  rewrite !app_nil_r in H. apply H.
  - vm_compute. reflexivity.
  - apply forallb_Forall_byte. vm_compute. reflexivity.
  - apply forallb_Forall_byte. vm_compute. reflexivity.
  - vm_compute. reflexivity.
  - vm_compute. lia.
  - vm_compute. discriminate.
  - vm_compute. reflexivity.
Defined.
