(* ===== verification/Common.v ===== *)
(** * Shared vocabulary of the daemon ([src/modules/common/])

    The error taxonomy ([error.rs]) and the classification of [FileError]
    ([file_mgr/error.rs]); UTF-8 and bounded truncation ([log_truncate.rs]);
    lowercase hex ([hex.rs]); the capture-time projection ([time.rs]). *)

From S2P Require Import Prelude Ids.

(** ** [ErrorKind] and [Categorized] *)

Inductive ErrorKind : Type :=
  | UserInput | NotFound | Conflict | NotImplemented | Unavailable | Internal.

#[export] Instance ErrorKind_eq_dec : EqDecision ErrorKind.
Proof. solve_decision. Defined.

Definition http_status_code (k : ErrorKind) : Z :=
  match k with
  | UserInput => 400
  | NotFound => 404
  | Conflict => 409
  | NotImplemented => 501
  | Unavailable => 503
  | Internal => 500
  end.

Definition code_str (k : ErrorKind) : string :=
  match k with
  | UserInput => "bad_request"
  | NotFound => "not_found"
  | Conflict => "conflict"
  | NotImplemented => "not_implemented"
  | Unavailable => "unavailable"
  | Internal => "internal"
  end.

(** What a [std::io::Error] is to the code that inspects it. *)
Inductive IoKind : Type := IoNotFound | IoAlreadyExists | IoOther.

#[export] Instance IoKind_eq_dec : EqDecision IoKind.
Proof. solve_decision. Defined.

(** [FileError]; rendered messages and source errors that no code inspects are
    strings. *)
Inductive FileError : Type :=
  | FE_NotFound (id : string)
  | FE_AssetNotFound (ws name : string)
  | FE_Id (e : IdError)
  | FE_InvalidName (msg : string)
  | FE_InvalidExtension (got : string)
  | FE_NameConflict (name : string)
  | FE_SchemaTooNew (path : string) (found max : Z)
  | FE_SchemaTooOld (path : string) (found min : Z)
  | FE_Io (path : string) (source : IoKind)
  | FE_MetadataParse (path : string)
  | FE_MetadataSerialize
  | FE_Persist
  | FE_PayloadTooLarge (observed max : Z)
  | FE_TooManyConcurrentUploads (active max : Z)
  | FE_MetadataTooLarge (path : string) (observed max : Z)
  | FE_JobConflict (message : string)
  | FE_AnotherTrainRunning.

#[export] Instance FileError_eq_dec : EqDecision FileError.
Proof. solve_decision. Defined.

(** [IdError::kind]: every identifier failure is operator input. *)
Definition IdError_kind (e : IdError) : ErrorKind := UserInput.

Definition FileError_kind (e : FileError) : ErrorKind :=
  match e with
  | FE_NotFound _ | FE_AssetNotFound _ _ => NotFound
  | FE_Id e => IdError_kind e
  | FE_InvalidName _ | FE_InvalidExtension _ => UserInput
  | FE_NameConflict _ => Conflict
  | FE_PayloadTooLarge _ _ => UserInput
  | FE_TooManyConcurrentUploads _ _ => Conflict
  | FE_SchemaTooNew _ _ _ | FE_SchemaTooOld _ _ _ => Conflict
  | FE_JobConflict _ => Conflict
  | FE_AnotherTrainRunning => Conflict
  | FE_Io _ _ | FE_MetadataParse _ | FE_MetadataSerialize
  | FE_MetadataTooLarge _ _ _ | FE_Persist => Internal
  end.

(** ** UTF-8 *)

(** [str::is_char_boundary]: the ends, and every byte that does not continue
    a character ([(b as i8) >= -0x40]). *)
Definition is_cont_byte (b : ascii) : bool :=
  (128 <=? byte_val b)%Z && (byte_val b <? 192)%Z.

Definition is_char_boundary (bs : list ascii) (i : nat) : bool :=
  if (i =? 0) then true
  else match bs !! i with
       | Some b => negb (is_cont_byte b)
       | None => i =? List.length bs
       end.

(** [while idx > 0 && !s.is_char_boundary(idx) { idx -= 1 }]. *)
Fixpoint snap_boundary (bs : list ascii) (idx : nat) : nat :=
  match idx with
  | 0 => 0
  | S i => if is_char_boundary bs idx then idx else snap_boundary bs i
  end.

(** One encoded character, as the UTF-8 table of the Unicode standard. *)
Definition utf8_char (c : list ascii) : bool :=
  let rng lo hi b := (lo <=? byte_val b)%Z && (byte_val b <=? hi)%Z in
  match c with
  | [a] => rng 0%Z 127%Z a
  | [a; b] => rng 194%Z 223%Z a && is_cont_byte b
  | [a; b; d] =>
      ((rng 224%Z 224%Z a && rng 160%Z 191%Z b) || (rng 225%Z 236%Z a && is_cont_byte b) ||
       (rng 237%Z 237%Z a && rng 128%Z 159%Z b) || (rng 238%Z 239%Z a && is_cont_byte b))
      && is_cont_byte d
  | [a; b; d; e] =>
      ((rng 240%Z 240%Z a && rng 144%Z 191%Z b) || (rng 241%Z 243%Z a && is_cont_byte b) ||
       (rng 244%Z 244%Z a && rng 128%Z 143%Z b))
      && is_cont_byte d && is_cont_byte e
  | _ => false
  end.

(** The invariant of Rust's [str]. *)
Definition utf8_valid (bs : list ascii) : Prop :=
  ∃ cs, bs = List.concat cs ∧ Forall (λ c, utf8_char c = true) cs.

(** ** [truncate_log_message] ([log_truncate.rs]) *)

Definition MAX_LOG_LINE_BYTES : nat := 8 * 1024.

Definition truncate_log_message (m : list ascii) : list ascii :=
  if (List.length m <=? MAX_LOG_LINE_BYTES) then m
  else take (snap_boundary m MAX_LOG_LINE_BYTES) m ++ bytes_of "...[truncated]".

(** ** [hex_lowercase] ([hex.rs]) *)

Definition HEX : list ascii := bytes_of "0123456789abcdef".

(** The loop writes the two digits of byte [i] at [2 * i] and [2 * i + 1]. *)
Definition hex_lowercase (bytes : list Z) : list ascii :=
  flat_map (λ b, [nth (Z.to_nat (Z.shiftr b 4)) HEX zero;
                  nth (Z.to_nat (Z.land b 15)) HEX zero]) bytes.

(** ** [capture_us_for] ([time.rs]) *)

Record BufferTimingAnchor := mkBufferTimingAnchor {
  head_pos : Z;
  captured_at : Z;
  sample_rate_hz : Z;
}.

Definition boot_placeholder : BufferTimingAnchor := mkBufferTimingAnchor 0 0 44100.

(** The source computes in [i128]; [as u64] wraps.  Division truncates. *)
Definition capture_us_for (anchor : BufferTimingAnchor) (read_pos : Z) : Z :=
  if (sample_rate_hz anchor =? 0)%Z then captured_at anchor
  else
    let delta_samples := (read_pos - head_pos anchor)%Z in
    let delta_us := Z.quot (delta_samples * 1000000) (sample_rate_hz anchor) in
    let projected := (captured_at anchor + delta_us)%Z in
    (Z.max projected 0 mod (u64_max + 1))%Z.

(** [CaptureTime::since]; durations in microseconds. *)
Definition CaptureTime_since (self other : Z) : option Z :=
  if (self <? other)%Z then None else Some (self - other)%Z.

(** ** Lemmas: UTF-8 *)

Lemma utf8_char_shape c :
  utf8_char c = true →
  ∃ a t, c = a :: t ∧ is_cont_byte a = false ∧ Forall (λ b, is_cont_byte b = true) t ∧
         List.length t ≤ 3.
Proof.
  unfold utf8_char, is_cont_byte. cbv zeta. intros H.
  destruct c as [|a [|b [|d [|e [|? ?]]]]]; try done; cbv beta iota in H;
    eexists _, _; (split; [done|]); (split; [lia|]); (split; [|cbn; lia]); repeat constructor; lia.
Qed.

Lemma utf8_valid_nil : utf8_valid [].
Proof. by exists []. Qed.

Lemma utf8_valid_app xs ys : utf8_valid xs → utf8_valid ys → utf8_valid (xs ++ ys).
Proof.
  intros (cs & -> & Hc) (ds & -> & Hd). exists (cs ++ ds).
  rewrite concat_app. split; [done|]. by apply Forall_app.
Qed.

(** ASCII text is valid. *)
Lemma utf8_valid_ascii bs : forallb (λ b, byte_val b <? 128)%Z bs = true → utf8_valid bs.
Proof.
  intros H. exists (map (λ b, [b]) bs). split.
  - clear H. induction bs; cbn; congruence.
  - apply List.Forall_forall. intros c (b & <- & Hb)%in_map_iff.
    rewrite forallb_forall in H. specialize (H b Hb). cbn.
    pose proof (N2Z.is_nonneg (N_of_ascii b)). unfold byte_val in *. lia.
Qed.

Lemma boundary_shift c bs i :
  i ≠ 0 → is_char_boundary (c ++ bs) (List.length c + i) = is_char_boundary bs i.
Proof.
  intros Hi. unfold is_char_boundary.
  destruct (Nat.eqb_spec (List.length c + i) 0); [lia|].
  destruct (Nat.eqb_spec i 0); [done|].
  rewrite lookup_app_r by lia. replace (List.length c + i - List.length c) with i by lia.
  destruct (bs !! i); [done|]. rewrite length_app.
  destruct (Nat.eqb_spec i (List.length bs)); [apply Nat.eqb_eq|apply Nat.eqb_neq]; lia.
Qed.

(** Inside an encoded character there is no boundary. *)
Lemma boundary_inside a t bs i :
  Forall (λ b, is_cont_byte b = true) t → 0 < i < S (List.length t) →
  is_char_boundary ((a :: t) ++ bs) i = false.
Proof.
  intros Ht Hi. unfold is_char_boundary. destruct i as [|i]; [lia|].
  rewrite lookup_app_l by (cbn; lia).
  destruct ((a :: t) !! S i) as [b|] eqn:E; [|apply lookup_ge_None in E; cbn in *; lia].
  rewrite Forall_lookup in Ht. cbn. by rewrite (Ht i b E).
Qed.

(** Cutting valid text at a boundary leaves valid text. *)
Lemma utf8_take_boundary bs i :
  utf8_valid bs → is_char_boundary bs i = true → i ≤ List.length bs → utf8_valid (take i bs).
Proof.
  intros (cs & -> & HF). revert i.
  induction HF as [|c cs Hc HF IH]; intros i Hb Hle; cbn [List.concat] in *.
  { rewrite take_nil. apply utf8_valid_nil. }
  destruct (decide (i = 0)) as [->|Hi0]; [apply utf8_valid_nil|].
  destruct (decide (i < List.length c)) as [Hlt|Hge].
  - apply utf8_char_shape in Hc as (a & t & -> & _ & Ht & _).
    rewrite boundary_inside in Hb; [done|done|cbn in *; lia].
  - replace i with (List.length c + (i - List.length c)) in * by lia.
    rewrite take_app_add. apply utf8_valid_app.
    + exists [c]. cbn. by rewrite app_nil_r, Forall_singleton.
    + destruct (decide (i - List.length c = 0)) as [->|Hne]; [apply utf8_valid_nil|].
      rewrite boundary_shift in Hb by done. apply IH; [done|].
      rewrite length_app in Hle. lia.
Qed.

(** Every position has a boundary at most three bytes before it. *)
Lemma utf8_boundary_near bs i :
  utf8_valid bs → i ≤ List.length bs →
  ∃ j, j ≤ i ≤ j + 3 ∧ is_char_boundary bs j = true.
Proof.
  intros (cs & -> & HF). revert i.
  induction HF as [|c cs Hc HF IH]; intros i Hle; cbn [List.concat] in *.
  { cbn in Hle. exists 0. split; [lia|done]. }
  destruct (decide (i < List.length c)) as [Hlt|Hge].
  - apply utf8_char_shape in Hc as (a & t & -> & _ & _ & Hl). exists 0.
    cbn in *. split; [lia|done].
  - destruct (IH (i - List.length c)) as (j & Hj & Hb); [rewrite length_app in Hle; lia|].
    destruct (decide (j = 0)) as [->|Hj0].
    + exists (List.length c). split; [lia|].
      unfold is_char_boundary. destruct (_ =? 0); [done|].
      rewrite lookup_app_r, Nat.sub_diag by lia.
      destruct (List.concat cs) as [|b bs'] eqn:E; cbn.
      * rewrite app_nil_r. by rewrite Nat.eqb_refl.
      * destruct HF as [|d cs Hd HF]; [done|].
        apply utf8_char_shape in Hd as (a & t & -> & Ha & _). cbn in E.
        injection E as -> _. by rewrite Ha.
    + exists (List.length c + j). split; [lia|]. by rewrite boundary_shift.
Qed.

Lemma snap_boundary_spec bs idx :
  snap_boundary bs idx ≤ idx ∧ is_char_boundary bs (snap_boundary bs idx) = true ∧
  ∀ j, j ≤ idx → is_char_boundary bs j = true → j ≤ snap_boundary bs idx.
Proof.
  induction idx as [|i (IH1 & IH2 & IH3)]; cbn [snap_boundary].
  { split_and!; [lia|done|]. intros j ? _. lia. }
  destruct (is_char_boundary bs (S i)) eqn:E.
  { split_and!; [lia|done|]. intros j ? _. lia. }
  split_and!; [lia|done|]. intros j Hj Hb. apply IH3; [|done].
  destruct (decide (j = S i)) as [->|]; [congruence|lia].
Qed.

(** The cut of a valid text: valid, at most three bytes short of the target. *)
Lemma snap_boundary_cut bs idx :
  utf8_valid bs → idx ≤ List.length bs →
  utf8_valid (take (snap_boundary bs idx) bs) ∧
  idx ≤ List.length (take (snap_boundary bs idx) bs) + 3 ∧
  List.length (take (snap_boundary bs idx) bs) ≤ idx.
Proof.
  intros Hv Hle. destruct (snap_boundary_spec bs idx) as (H1 & H2 & H3).
  rewrite length_take, Nat.min_l by lia. split_and!; [|..|done].
  - apply utf8_take_boundary; [done..|lia].
  - destruct (utf8_boundary_near bs idx Hv Hle) as (j & Hj & Hb).
    pose proof (H3 j ltac:(lia) Hb). lia.
Qed.

(** ** Lemmas: truncation, hex, time *)

(** A log message within the cap is unchanged; a longer one keeps a valid prefix
    between 8189 and 8192 bytes and ends in the marker, so the line written can
    exceed [MAX_LOG_LINE_BYTES] by the marker's 14 bytes. *)
Theorem truncate_log_message_spec m :
  utf8_valid m →
  utf8_valid (truncate_log_message m) ∧
  (List.length m ≤ MAX_LOG_LINE_BYTES → truncate_log_message m = m) ∧
  (MAX_LOG_LINE_BYTES < List.length m → ∃ p, p `prefix_of` m ∧
     truncate_log_message m = p ++ bytes_of "...[truncated]" ∧
     MAX_LOG_LINE_BYTES ≤ List.length p + 3 ∧ List.length p ≤ MAX_LOG_LINE_BYTES).
Proof.
  intros Hv. unfold truncate_log_message.
  destruct (Nat.leb_spec (List.length m) MAX_LOG_LINE_BYTES) as [Hle|Hlt].
  { split_and!; [done|done|lia]. }
  destruct (snap_boundary_cut m MAX_LOG_LINE_BYTES Hv ltac:(lia)) as (H1 & H2 & H3).
  split_and!; [|lia|].
  - apply utf8_valid_app; [done|]. by apply utf8_valid_ascii.
  - intros _. eexists. split_and!; [apply prefix_take|done|done|done].
Qed.

Lemma truncate_log_message_overflows :
  List.length (truncate_log_message (replicate (9 * 1024) "a"%char)) = MAX_LOG_LINE_BYTES + 14.
Proof. vm_compute. reflexivity. Qed.

(** The digit of a nibble, read back. *)
Definition hex_digit_val (c : ascii) : option Z :=
  if is_ascii_digit c then Some (byte_val c - 48)%Z
  else if in_range "a" "f" c then Some (byte_val c - 87)%Z else None.

Fixpoint hex_decode (cs : list ascii) : option (list Z) :=
  match cs with
  | [] => Some []
  | h :: l :: cs' =>
      match hex_digit_val h, hex_digit_val l, hex_decode cs' with
      | Some h, Some l, Some bs => Some ((16 * h + l)%Z :: bs)
      | _, _, _ => None
      end
  | _ => None
  end.

Lemma hex_nibble n : (0 ≤ n < 16)%Z → hex_digit_val (nth (Z.to_nat n) HEX zero) = Some n.
Proof.
  intros Hn. assert (H : Forall (λ n, hex_digit_val (nth n HEX zero) = Some (Z.of_nat n)) (seq 0 16))
    by (repeat constructor).
  rewrite List.Forall_forall in H. rewrite (H (Z.to_nat n)) by (apply in_seq; lia).
  f_equal. lia.
Qed.

(** Hex encoding is two lowercase digits per byte and decodes to its input. *)
Theorem hex_lowercase_decode bytes :
  Forall (λ b, 0 ≤ b < 256)%Z bytes →
  hex_decode (hex_lowercase bytes) = Some bytes ∧
  List.length (hex_lowercase bytes) = 2 * List.length bytes.
Proof.
  induction 1 as [|b bs Hb _ [IH1 IH2]]; [done|].
  cbn [hex_lowercase flat_map app hex_decode List.length].
  fold (hex_lowercase bs). rewrite IH1, IH2.
  change 15%Z with (Z.ones 4). rewrite Z.land_ones, Z.shiftr_div_pow2 by lia.
  change (2 ^ 4)%Z with 16%Z.
  pose proof (Z.mod_pos_bound b 16 ltac:(lia)). pose proof (Z.div_mod b 16 ltac:(lia)).
  rewrite !hex_nibble by lia. split; [|lia].
  do 2 f_equal. lia.
Qed.

Definition is_u64 (x : Z) : Prop := (0 ≤ x ≤ u64_max)%Z.

(** The projection is monotone in the read position while it fits a [u64]. *)
Theorem capture_us_for_mono anchor p q :
  is_u64 (captured_at anchor) → (0 < sample_rate_hz anchor ≤ u32_max)%Z →
  (p ≤ q)%Z → (captured_at anchor + Z.quot ((q - head_pos anchor) * 1000000) (sample_rate_hz anchor) ≤ u64_max)%Z →
  (capture_us_for anchor p ≤ capture_us_for anchor q)%Z.
Proof.
  intros Hc Hs Hpq Hfit. unfold capture_us_for, is_u64 in *.
  destruct (Z.eqb_spec (sample_rate_hz anchor) 0); [lia|].
  pose proof (Z.quot_le_mono ((p - head_pos anchor) * 1000000) ((q - head_pos anchor) * 1000000)
    (sample_rate_hz anchor) ltac:(lia) ltac:(lia)).
  rewrite !Z.mod_small by (unfold u64_max in *; lia). lia.
Qed.

(** At the anchor's head the projection is the anchor's own time. *)
Lemma capture_us_for_head anchor :
  is_u64 (captured_at anchor) → capture_us_for anchor (head_pos anchor) = captured_at anchor.
Proof.
  intros Hc. unfold capture_us_for, is_u64 in *. destruct (Z.eqb_spec (sample_rate_hz anchor) 0); [done|].
  rewrite Z.sub_diag, Z.mul_0_l, Z.quot_0_l by done. rewrite Z.mod_small; unfold u64_max in *; lia.
Qed.

(** A [u64] sample counter at 44.1 kHz lasts more than thirteen million years,
    not the 225 days the comment in [capture_us_for] gives. *)
Lemma sample_counter_lifetime :
  (13000000 * 365 * 86400 * 44100 < u64_max + 1)%Z ∧ (225 * 86400 * 44100 < 2 ^ 40)%Z.
Proof. vm_compute. done. Qed.
