(* ===== verification/Text.v ===== *)
(** * Text functions of the standard library

    [trim_end_matches], [lines], [trim] and the UTF-8 check, on the bytes of a
    string. *)

From S2P Require Import Prelude AssetPath Common.

(** [s.trim_end_matches(c)]. *)
Fixpoint trim_end_matches (c : ascii) (s : list ascii) : list ascii :=
  match s with
  | [] => []
  | b :: s => match trim_end_matches c s with
              | [] => if Ascii.eqb b c then [] else [b]
              | r => b :: r
              end
  end.

(** [s.lines()]: pieces ended by a newline, one carriage return before it
    dropped with it; no empty piece after the last newline. *)
Definition lf : ascii := "010".
Definition cr : ascii := "013".
Definition strip_cr (s : list ascii) : list ascii :=
  match rev s with b :: r => if Ascii.eqb b cr then rev r else s | [] => s end.
Definition str_lines (s : list ascii) : list (list ascii) :=
  let parts := split_on lf s in
  map strip_cr (removelast parts) ++
  match List.last parts [] with [] => [] | l => [l] end.

(** [std::str::from_utf8]. *)
Fixpoint utf8_ok (bs : list ascii) : bool :=
  match bs with
  | [] => true
  | a :: t =>
      if utf8_char [a] then utf8_ok t else
      match t with
      | [] => false
      | b :: t =>
          if utf8_char [a; b] then utf8_ok t else
          match t with
          | [] => false
          | c :: t =>
              if utf8_char [a; b; c] then utf8_ok t else
              match t with
              | [] => false
              | d :: t => if utf8_char [a; b; c; d] then utf8_ok t else false
              end
          end
      end
  end.

(** One encoded character with the [White_Space] property. *)
Definition is_whitespace (c : list ascii) : bool :=
  match map byte_val c with
  | [a] => ((9 <=? a) && (a <=? 13) || (a =? 32))%Z
  | [194; a] => ((a =? 133) || (a =? 160))%Z
  | [225; 154; 128] => true
  | [226; 128; a] => ((128 <=? a) && (a <=? 138) || (a =? 168) || (a =? 169) || (a =? 175))%Z
  | [226; 129; 159] => true
  | [227; 128; 128] => true
  | _ => false
  end%Z.

Fixpoint trim_start_loop (fuel : nat) (s : list ascii) : list ascii :=
  match fuel with
  | 0 => s
  | S fuel =>
      if is_whitespace (take 1 s) then trim_start_loop fuel (drop 1 s)
      else if is_whitespace (take 2 s) then trim_start_loop fuel (drop 2 s)
      else if is_whitespace (take 3 s) then trim_start_loop fuel (drop 3 s)
      else s
  end.

Fixpoint trim_end_loop (fuel : nat) (s : list ascii) : list ascii :=
  match fuel with
  | 0 => s
  | S fuel =>
      let n := List.length s in
      if is_whitespace (drop (n - 1) s) then trim_end_loop fuel (take (n - 1) s)
      else if is_whitespace (drop (n - 2) s) then trim_end_loop fuel (take (n - 2) s)
      else if is_whitespace (drop (n - 3) s) then trim_end_loop fuel (take (n - 3) s)
      else s
  end.

(** [s.trim()]; a character has at least one byte. *)
Definition str_trim (s : list ascii) : list ascii :=
  let s := trim_start_loop (List.length s) s in trim_end_loop (List.length s) s.

(** ** The decision agrees with the definition *)

Lemma utf8_ok_char (c t : list ascii) : utf8_char c = true → utf8_ok (c ++ t) = utf8_ok t.
Proof.
  intros H. destruct c as [|a [|b [|d [|e [|]]]]]; try done; cbn [app utf8_ok].
  - by rewrite H.
  - assert (Ha : utf8_char [a] = false).
    { cbn in H |- *. lia. }
    by rewrite Ha, H.
  - assert (utf8_char [a] = false ∧ utf8_char [a; b] = false) as [Ha Hb].
    { cbn in H |- *. split; lia. }
    by rewrite Ha, Hb, H.
  - assert (utf8_char [a] = false ∧ utf8_char [a; b] = false ∧ utf8_char [a; b; d] = false) as (Ha & Hb & Hd).
    { cbn in H |- *. split_and!; lia. }
    by rewrite Ha, Hb, Hd, H.
Qed.

Lemma utf8_valid_ok (bs : list ascii) : utf8_valid bs → utf8_ok bs = true.
Proof.
  intros (cs & -> & Hcs). induction Hcs as [|c cs Hc _ IH]; [done|]. cbn [concat]. by rewrite utf8_ok_char.
Qed.
