(* ===== verification/Workspace.v ===== *)
(** * Workspace, head and job foundation types ([src/modules/common/workspace.rs])

    The on-disk records, their structural validators, head freshness, and the
    job discriminators the registry's admission gate dispatches on. *)

From S2P Require Import Prelude Ids Common.

Definition MAX_HEADS_PER_WORKSPACE : nat := 2.

(** ** Revisions and freshness *)

Record WorkspaceRevision := mkWorkspaceRevision { rev_id : Z; rev_at : string }.

#[export] Instance WorkspaceRevision_eq_dec : EqDecision WorkspaceRevision.
Proof. solve_decision. Defined.

Inductive HeadStatus : Type := Current | Stale.

#[export] Instance HeadStatus_eq_dec : EqDecision HeadStatus.
Proof. solve_decision. Defined.

Definition HeadStatus_from_revisions (head workspace : WorkspaceRevision) : HeadStatus :=
  if (rev_id head =? rev_id workspace)%Z then Current else Stale.

(** ** Job types *)

Inductive JobType : Type :=
  | Train | Convert | DatasetDelete | ConverterDelete | TrainingLogsDelete
  | ConverterLogsDelete | WorkspaceDelete.

#[export] Instance JobType_eq_dec : EqDecision JobType.
Proof. solve_decision. Defined.

Definition is_delete_subtype (t : JobType) : bool :=
  match t with
  | DatasetDelete | ConverterDelete | TrainingLogsDelete | ConverterLogsDelete
  | WorkspaceDelete => true
  | Train | Convert => false
  end.

Inductive HeadValidationError : Type :=
  | ZeroClasses
  | ClassCountMismatch (n_classes : Z) (labels_len : nat).

#[export] Instance HeadValidationError_eq_dec : EqDecision HeadValidationError.
Proof. solve_decision. Defined.

Section Records.
Context `{U : UuidLib}.

Record WorkspaceCore := mkWorkspaceCore {
  core_id : WorkspaceId;
  core_name : string;
  core_tags : list string;
  core_created_at : string;
  core_revision : WorkspaceRevision;
  core_head_count : Z;
}.

Record HeadRecord := mkHeadRecord {
  hr_head_id : HeadId;
  hr_revision : WorkspaceRevision;
  hr_sha256 : string;
  hr_n_classes : Z;
  hr_size_bytes : Z;
  hr_created_at : string;
}.

Record HeadIndex := mkHeadIndex { heads : list HeadRecord }.

Record HeadManifest := mkHeadManifest {
  hm_head_id : HeadId;
  hm_workspace_id : WorkspaceId;
  hm_revision : WorkspaceRevision;
  hm_sha256 : string;
  hm_n_classes : Z;
  hm_size_bytes : Z;
  hm_created_at : string;
  hm_labels : list string;
}.

Definition HeadManifest_validate (m : HeadManifest) : result HeadValidationError unit :=
  if (hm_n_classes m =? 0)%Z then Err ZeroClasses
  else
    let labels_len := List.length (hm_labels m) in
    if negb (hm_n_classes m =? Z.of_nat labels_len)%Z
    then Err (ClassCountMismatch (hm_n_classes m) labels_len)
    else Ok tt.

Inductive ActiveOrigin : Type :=
  | OriginDefault
  | OriginHead (source_workspace_id : WorkspaceId) (source_head_id : HeadId)
      (workspace_revision : WorkspaceRevision).

Record ActiveHeadManifest := mkActiveHeadManifest {
  am_origin : ActiveOrigin;
  am_runtime_head_id : HeadId;
  am_sha256 : string;
  am_labels_sha256 : string;
  am_n_classes : Z;
  am_labels : list string;
  am_activated_at : string;
}.

Inductive ActiveHeadValidationError : Type :=
  | DefaultRuntimeIdMismatch (got expected : HeadId)
  | HeadRuntimeIdMismatch (got expected : HeadId).

(** [default_runtime_head_id()] panics when the constant does not parse; the
    [None] arm of the result. *)
Definition ActiveHeadManifest_validate (m : ActiveHeadManifest)
    : option (result ActiveHeadValidationError unit) :=
  match am_origin m with
  | OriginDefault =>
      match default_runtime_head_id with
      | Parsed expected =>
          if negb (bool_decide (am_runtime_head_id m = expected))
          then Some (Err (DefaultRuntimeIdMismatch (am_runtime_head_id m) expected))
          else Some (Ok tt)
      | _ => None
      end
  | OriginHead _ source_head_id _ =>
      if negb (bool_decide (am_runtime_head_id m = source_head_id))
      then Some (Err (HeadRuntimeIdMismatch (am_runtime_head_id m) source_head_id))
      else Some (Ok tt)
  end.

Inductive JobReference : Type := RefWorkspace (workspace_id : WorkspaceId).

Definition reference_workspace (r : JobReference) : WorkspaceId :=
  match r with RefWorkspace w => w end.

End Records.

#[export] Instance WorkspaceCore_eq_dec `{U : UuidLib} : EqDecision WorkspaceCore.
Proof. solve_decision. Defined.
#[export] Instance HeadRecord_eq_dec `{U : UuidLib} : EqDecision HeadRecord.
Proof. solve_decision. Defined.
#[export] Instance HeadIndex_eq_dec `{U : UuidLib} : EqDecision HeadIndex.
Proof. solve_decision. Defined.
#[export] Instance HeadManifest_eq_dec `{U : UuidLib} : EqDecision HeadManifest.
Proof. solve_decision. Defined.
#[export] Instance JobReference_eq_dec `{U : UuidLib} : EqDecision JobReference.
Proof. solve_decision. Defined.
#[export] Instance ActiveOrigin_eq_dec `{U : UuidLib} : EqDecision ActiveOrigin.
Proof. solve_decision. Defined.
#[export] Instance ActiveHeadManifest_eq_dec `{U : UuidLib} : EqDecision ActiveHeadManifest.
Proof. solve_decision. Defined.

(** ** Lemmas *)

(** An accepted manifest has as many labels as classes, and at least one. *)
Lemma HeadManifest_validate_Ok `{U : UuidLib} (m : HeadManifest) u :
  HeadManifest_validate m = Ok u ↔
  hm_n_classes m = Z.of_nat (List.length (hm_labels m)) ∧ hm_labels m ≠ [].
Proof.
  destruct u. unfold HeadManifest_validate.
  destruct (Z.eqb_spec (hm_n_classes m) 0) as [E|E].
  - split; [done|]. intros [H Hne]. destruct (hm_labels m); [done|cbn in *; lia].
  - destruct (Z.eqb_spec (hm_n_classes m) (Z.of_nat (List.length (hm_labels m)))) as [F|F]; cbn.
    + split; [|done]. intros _. split; [done|]. intros Hn. rewrite Hn in F. cbn in F. lia.
    + split; [done|]. by intros [? _].
Qed.

(** An accepted active manifest names the identity its origin promises, and
    the validator never panics. *)
Lemma ActiveHeadManifest_validate_spec `{UL : UuidLaws} (m : ActiveHeadManifest) :
  ∃ r, ActiveHeadManifest_validate m = Some r ∧
  (r = Ok tt ↔
   match am_origin m with
   | OriginDefault => HeadId_display (am_runtime_head_id m) = DEFAULT_RUNTIME_HEAD_ID_STR
   | OriginHead _ h _ => am_runtime_head_id m = h
   end).
Proof.
  destruct default_runtime_head_id_ok as (d & Hd & Hdisp).
  unfold ActiveHeadManifest_validate. destruct (am_origin m) as [|w h r].
  - rewrite Hd. case_bool_decide as E; cbn; eexists; (split; [done|]).
    + rewrite E. done.
    + split; [done|]. intros Hs. destruct E.
      apply default_runtime_head_id_unique; [done|done].
  - case_bool_decide as E; cbn; eexists; (split; [done|]); naive_solver.
Qed.

(** A freshness reading is an equality of revision ids. *)
Lemma HeadStatus_Current head ws :
  HeadStatus_from_revisions head ws = Current ↔ rev_id head = rev_id ws.
Proof. unfold HeadStatus_from_revisions. destruct (Z.eqb_spec (rev_id head) (rev_id ws)); naive_solver. Qed.
