(* ===== verification/JobRegistry.v ===== *)
(** * The in-process job registry ([src/modules/file_mgr/job_registry.rs])

    The admission gate, the recent-history window, the per-job event rings,
    the bare leases and the event streams.  Every public method runs under the
    registry's mutex, so each is one function from registry to registry.

    Parameters: the iteration order of [HashMap] ([HashIter]) and the [tokio]
    broadcast channel ([Broadcast]); the clock, the wall-clock text and the
    fresh [JobId]s are arguments of the operations that sample them. *)

From stdpp Require Import sorting fin_maps.
From Stdlib Require Import SpecFloat.
From S2P Require Import Prelude Broadcast Ids AssetPath Common Workspace.

(** ** Standard-library interfaces *)

(** [HashMap::iter]: the entries in some order. *)
Class HashIter (K A : Type) `{Countable K} := {
  hm_iter : gmap K A → list (K * A);
  hm_iter_perm : ∀ m, hm_iter m ≡ₚ map_to_list m;
}.

#[export] Instance hash_iter_map_to_list K A `{Countable K} : HashIter K A :=
  {| hm_iter := map_to_list; hm_iter_perm := λ m, reflexivity _ |}.

(** ** Configuration and public types *)

Record JobRegistryCfg := mkJobRegistryCfg {
  max_train_jobs : nat;
  max_convert_jobs : nat;
  max_delete_jobs : nat;
  max_recent_jobs : nat;
  max_job_event_ring : nat;
  max_log_line_bytes : nat;
  progress_throttle_hz : spec_float;
}.

(** [f32] is binary32: 24 bits of precision, [emax = 128]. *)
Definition f32_one : spec_float := S754_finite false 8388608 (-23).
Definition f32_four : spec_float := S754_finite false 8388608 (-21).
(** The [f32] nearest to [0.001]. *)
Definition f32_milli : spec_float := S754_finite false 8589935 (-33).

(** [f32::max]: a NaN operand gives the other one. *)
Definition f32_max (x y : spec_float) : spec_float :=
  match SFcompare x y with
  | Some Lt => y
  | Some _ => x
  | None => match x with S754_nan => y | _ => x end
  end.

(** [Duration::from_secs_f32] in nanoseconds, rounding to nearest, ties to
    even; [None] is its panic (negative, not finite or too large). *)
Definition duration_max_ns : Z := (u64_max + 1) * 1000000000.
Definition from_secs_f32 (x : spec_float) : option Z :=
  match x with
  | S754_zero _ => Some 0%Z
  | S754_finite false m e =>
      let ns := (Z.pos m * 1000000000)%Z in
      let r := match e with
               | Zneg p =>
                   let d := (2 ^ Z.pos p)%Z in
                   let q := (ns / d)%Z in
                   match (2 * (ns mod d) ?= d)%Z with
                   | Lt => q
                   | Eq => if Z.even q then q else (q + 1)%Z
                   | Gt => (q + 1)%Z
                   end
               | _ => (ns * 2 ^ e)%Z
               end in
      if (r <? duration_max_ns)%Z then Some r else None
  | _ => None
  end.

(** [Duration::from_secs_f32(1.0 / hz.max(0.001))]. *)
Definition throttle_ns (hz : spec_float) : option Z :=
  from_secs_f32 (SFdiv 24 128 f32_one (f32_max hz f32_milli)).

Definition JobRegistryCfg_default : JobRegistryCfg := {|
  max_train_jobs := 1;
  max_convert_jobs := 1;
  max_delete_jobs := 1;
  max_recent_jobs := 4;
  max_job_event_ring := 1024;
  max_log_line_bytes := 8 * 1024;
  progress_throttle_hz := f32_four;
|}.

Inductive JobState : Type := Queued | Running | Succeeded | Failed | Cancelled.

#[export] Instance JobState_eq_dec : EqDecision JobState.
Proof. solve_decision. Defined.

Definition JobState_is_active (s : JobState) : bool :=
  match s with Queued | Running => true | _ => false end.

Record JobProgress := mkJobProgress { done_items : Z; total_items : option Z }.

Record JobEvent := mkJobEvent {
  ev_seq : Z;
  ev_at : string;
  ev_state : option JobState;
  ev_progress : option JobProgress;
  ev_message : option (list ascii);
}.

Record EventGap := mkEventGap { oldest_seq : Z; latest_seq : Z }.

Record Counters := mkCounters {
  admission_conflicts_total : Z;
  events_dropped_total : Z;
  progress_throttled_total : Z;
  log_lines_truncated_total : Z;
  (** The metrics hook [emit_job_events_dropped]. *)
  job_events_dropped_hook : Z;
}.

Definition BROADCAST_CAPACITY : nat := 256.

(** [AtomicU64::fetch_add(1)] on one counter. *)
Definition bump_conflicts (c : Counters) : Counters :=
  mkCounters (wrap_add64 (admission_conflicts_total c) 1) (events_dropped_total c)
    (progress_throttled_total c) (log_lines_truncated_total c) (job_events_dropped_hook c).
Definition bump_dropped (c : Counters) : Counters :=
  mkCounters (admission_conflicts_total c) (wrap_add64 (events_dropped_total c) 1)
    (progress_throttled_total c) (log_lines_truncated_total c) (job_events_dropped_hook c).
Definition bump_throttled (c : Counters) : Counters :=
  mkCounters (admission_conflicts_total c) (events_dropped_total c)
    (wrap_add64 (progress_throttled_total c) 1) (log_lines_truncated_total c) (job_events_dropped_hook c).
Definition bump_truncated (c : Counters) : Counters :=
  mkCounters (admission_conflicts_total c) (events_dropped_total c)
    (progress_throttled_total c) (wrap_add64 (log_lines_truncated_total c) 1) (job_events_dropped_hook c).
Definition bump_hook (c : Counters) : Counters :=
  mkCounters (admission_conflicts_total c) (events_dropped_total c)
    (progress_throttled_total c) (log_lines_truncated_total c) (wrap_add64 (job_events_dropped_hook c) 1).

(** The truncation of [append_log]; [String::truncate] at a boundary. *)
Definition log_suffix : list ascii := bytes_of " ... [truncated]".

Definition cap_log_line (max : nat) (msg : list ascii) : list ascii * bool :=
  if (max <? List.length msg) then
    let target := Nat.max (max - List.length log_suffix) 1 in
    let cut := snap_boundary msg target in
    (take cut msg ++ log_suffix, true)
  else (msg, false).

(** ** Entries and state *)

Section State.
Context `{U : UuidLib}.

Inductive JobResult : Type :=
  | ResWorkspaceDelete (active_source_deleted : bool)
  | ResConvert (head_id : HeadId) (sha256 : string) (n_classes : Z)
  | ResTrain (head_id : HeadId) (sha256 : string) (n_classes : Z).

Record JobEntry := mkJobEntry {
  je_job_id : JobId;
  je_job_type : JobType;
  je_references : list JobReference;
  je_target_path : option AssetPath;
  je_state : JobState;
  je_progress : option JobProgress;
  je_result : option JobResult;
  je_last_seq : Z;
  je_updated_at : string;
  je_ring : list JobEvent;
  je_last_progress_at : option Z;
}.

Record JobSnapshot := mkJobSnapshot {
  js_job_id : JobId;
  js_job_type : JobType;
  js_workspace_id : option WorkspaceId;
  js_target_path : option AssetPath;
  js_state : JobState;
  js_progress : option JobProgress;
  js_result : option JobResult;
  js_last_seq : Z;
  js_updated_at : string;
}.

Record RegistryEvent := mkRegistryEvent { re_job_id : JobId; re_event : JobEvent }.

Inductive RegistryConflict : Type :=
  | AnotherTrainRunning
  | JobConflict (job_id : JobId) (job_type : JobType).

Record JobsState := mkJobsState {
  order : list JobId;
  entries : gmap JobId JobEntry;
  leases : gmap Z (list JobReference);
  next_lease_id : Z;
}.

Definition JobsState_new : JobsState := mkJobsState [] ∅ ∅ 1.

Context `{B : !Broadcast RegistryEvent}.

Record JobRegistry := mkJobRegistry {
  jobs : JobsState;
  broadcast : chan;
  counters : Counters;
}.
End State.

Section Operations.
Context `{U : UuidLib} `{B : !Broadcast RegistryEvent}.
Context `{HJ : !HashIter JobId JobEntry} `{HL : !HashIter Z (list JobReference)}.
Variable cfg : JobRegistryCfg.

Definition JobType_debug (t : JobType) : string :=
  match t with
  | Train => "Train" | Convert => "Convert" | DatasetDelete => "DatasetDelete"
  | ConverterDelete => "ConverterDelete" | TrainingLogsDelete => "TrainingLogsDelete"
  | ConverterLogsDelete => "ConverterLogsDelete" | WorkspaceDelete => "WorkspaceDelete"
  end.

(** [From<RegistryConflict> for FileError]. *)
Definition conflict_to_file_error (c : RegistryConflict) : FileError :=
  match c with
  | AnotherTrainRunning => FE_AnotherTrainRunning
  | JobConflict job_id job_type =>
      FE_JobConflict ("conflicts with running job " ++ JobId_display job_id ++
                      " (" ++ JobType_debug job_type ++ ")")
  end.

Definition JobEntry_snapshot (e : JobEntry) : JobSnapshot := {|
  js_job_id := je_job_id e;
  js_job_type := je_job_type e;
  js_workspace_id := reference_workspace <$> head (je_references e);
  js_target_path := je_target_path e;
  js_state := je_state e;
  js_progress := je_progress e;
  js_result := je_result e;
  js_last_seq := je_last_seq e;
  js_updated_at := je_updated_at e;
|}.

(** [JobEntry::push_event]; the flag says the drop counter was bumped. *)
Definition push_event (ring : list JobEvent) (event : JobEvent) (max_ring : nat)
    : list JobEvent * bool :=
  if (max_ring <=? List.length ring) then (tail ring ++ [event], true)
  else (ring ++ [event], false).

Definition JobRegistry_new : JobRegistry :=
  mkJobRegistry JobsState_new (channel BROADCAST_CAPACITY) (mkCounters 0 0 0 0 0).

Definition send_or_count_drop (job_id : JobId) (event : JobEvent) (s : JobRegistry) : JobRegistry :=
  if (receiver_count (broadcast s) =? 0) then s
  else match send (mkRegistryEvent job_id event) (broadcast s) with
       | (c, true) => mkJobRegistry (jobs s) c (counters s)
       | (c, false) => mkJobRegistry (jobs s) c (bump_hook (counters s))
       end.

(** *** Conflict predicates *)

Definition refs_touch (ws : WorkspaceId) (refs : list JobReference) : bool :=
  existsb (λ r, bool_decide (reference_workspace r = ws)) refs.

Definition job_conflicts_with_existing_job (new_is_workspace_delete : bool)
    (new_workspace : WorkspaceId) (existing_job_type : JobType)
    (existing_refs : list JobReference) : bool :=
  if negb (refs_touch new_workspace existing_refs) then false
  else new_is_workspace_delete || bool_decide (existing_job_type = WorkspaceDelete).

Definition job_conflicts_with_existing_lease (new_is_workspace_delete : bool)
    (new_workspace : WorkspaceId) (lease_refs : list JobReference) : bool :=
  if negb new_is_workspace_delete then false else refs_touch new_workspace lease_refs.

Definition lease_conflicts_with_existing_job (new_workspace : WorkspaceId)
    (existing_job_type : JobType) (existing_refs : list JobReference) : bool :=
  if negb (bool_decide (existing_job_type = WorkspaceDelete)) then false
  else refs_touch new_workspace existing_refs.

(** *** The admission gate *)

Definition entry_active (e : JobEntry) : bool := JobState_is_active (je_state e).

(** The per-type cap and the predicate of the jobs that share it. *)
Definition job_slot (job_type : JobType) : nat * (JobType → bool) :=
  match job_type with
  | Train => (max_train_jobs cfg, λ t, bool_decide (t = Train))
  | Convert => (max_convert_jobs cfg, λ t, bool_decide (t = Convert))
  | DatasetDelete | ConverterDelete | TrainingLogsDelete | ConverterLogsDelete
  | WorkspaceDelete => (max_delete_jobs cfg, is_delete_subtype)
  end.

Definition in_slot (p : JobType → bool) (e : JobEntry) : bool :=
  entry_active e && p (je_job_type e).

Definition values {A} `{HashIter JobId A} (m : gmap JobId A) : list A := map snd (hm_iter m).
Definition lease_values (m : gmap Z (list JobReference)) : list (list JobReference) :=
  map snd (hm_iter m).

(** The conflict of one new reference, the jobs before the leases; a lease's
    conflict carries a synthetic id. *)
Definition ref_conflict (synthetic : JobId) (new_is_workspace_delete : bool)
    (js : JobsState) (new_ref : JobReference) : option RegistryConflict :=
  let new_ws := reference_workspace new_ref in
  match List.find (λ e, entry_active e && job_conflicts_with_existing_job
                     new_is_workspace_delete new_ws (je_job_type e) (je_references e))
                  (values (entries js)) with
  | Some existing => Some (JobConflict (je_job_id existing) (je_job_type existing))
  | None =>
      if new_is_workspace_delete then
        match List.find (job_conflicts_with_existing_lease new_is_workspace_delete new_ws)
                        (lease_values (leases js)) with
        | Some _ => Some (JobConflict synthetic WorkspaceDelete)
        | None => None
        end
      else None
  end.

Fixpoint first_conflict (f : JobReference → option RegistryConflict) (refs : list JobReference)
    : option RegistryConflict :=
  match refs with
  | [] => None
  | r :: refs => match f r with Some c => Some c | None => first_conflict f refs end
  end.

(** *** The recent window *)

Fixpoint prune_loop (max_recent : nat) (i : nat) (js : JobsState) : JobsState :=
  match i with
  | 0 => js
  | S i =>
      if (max_recent <? size (entries js)) then
        match order js !! i with
        | Some id =>
            let drop_it := match entries js !! id with
                           | Some e => negb (entry_active e)
                           | None => false
                           end in
            prune_loop max_recent i
              (if drop_it
               then mkJobsState (delete i (order js)) (delete id (entries js))
                      (leases js) (next_lease_id js)
               else js)
        | None => js (* [state.order[i]]: [i < order.len()] *)
        end
      else js
  end.

Definition prune_recent (max_recent : nat) (js : JobsState) : JobsState :=
  if (size (entries js) <=? max_recent) then js
  else prune_loop max_recent (List.length (order js)) js.

Definition count_conflict (s : JobRegistry) : JobRegistry :=
  mkJobRegistry (jobs s) (broadcast s) (bump_conflicts (counters s)).

Definition new_entry (job_id : JobId) (job_type : JobType) (references : list JobReference)
    (target_path : option AssetPath) (now_str : string) : JobEntry :=
  mkJobEntry job_id job_type references target_path Running None None 0 now_str [] None.

(** [try_acquire]: [fresh] is the value of the [JobId::new()] the taken branch
    evaluates. *)
Definition try_acquire (fresh : JobId) (now_str : string) (job_type : JobType)
    (references : list JobReference) (target_path : option AssetPath) (s : JobRegistry)
    : JobRegistry * result RegistryConflict JobId :=
  let js := jobs s in
  let '(cap, slot_predicate) := job_slot job_type in
  let active_same_type := List.length (List.filter (in_slot slot_predicate) (values (entries js))) in
  if (cap <=? active_same_type) then
    let conflicting := List.find (in_slot slot_predicate) (values (entries js)) in
    (count_conflict s,
     Err match job_type, conflicting with
         | Train, _ => AnotherTrainRunning
         | _, Some e => JobConflict (je_job_id e) (je_job_type e)
         | _, None => JobConflict fresh job_type
         end)
  else
    let new_is_workspace_delete := bool_decide (job_type = WorkspaceDelete) in
    match first_conflict (ref_conflict fresh new_is_workspace_delete js) references with
    | Some c => (count_conflict s, Err c)
    | None =>
        let entry := new_entry fresh job_type references target_path now_str in
        let js := mkJobsState (fresh :: order js) (<[fresh := entry]> (entries js))
                    (leases js) (next_lease_id js) in
        (mkJobRegistry (prune_recent (max_recent_jobs cfg) js) (broadcast s) (counters s),
         Ok fresh)
    end.

(** *** Events of a running job *)

Definition set_entry (job_id : JobId) (e : JobEntry) (js : JobsState) : JobsState :=
  mkJobsState (order js) (<[job_id := e]> (entries js)) (leases js) (next_lease_id js).

Definition with_jobs (js : JobsState) (s : JobRegistry) : JobRegistry :=
  mkJobRegistry js (broadcast s) (counters s).
Definition with_counters (c : Counters) (s : JobRegistry) : JobRegistry :=
  mkJobRegistry (jobs s) (broadcast s) c.

(** The common tail of the three emitters: stamp the next sequence number and
    the time, push the event on the ring, count a drop. *)
Definition emit (e : JobEntry) (now_str : string) (state : option JobState)
    (progress : option JobProgress) (message : option (list ascii)) (c : Counters)
    : JobEntry * JobEvent * Counters :=
  let seq := sat_add64 (je_last_seq e) 1 in
  let event := mkJobEvent seq now_str state progress message in
  let '(ring, dropped) := push_event (je_ring e) event (max_job_event_ring cfg) in
  (mkJobEntry (je_job_id e) (je_job_type e) (je_references e) (je_target_path e) (je_state e)
     (je_progress e) (je_result e) seq now_str ring (je_last_progress_at e),
   event, if dropped then bump_dropped c else c).

(** [update_progress]; [None] is the panic of [Duration::from_secs_f32]. *)
Definition update_progress (now : Z) (now_str : string) (job_id : JobId) (progress : JobProgress)
    (s : JobRegistry) : option JobRegistry :=
  match throttle_ns (progress_throttle_hz cfg) with
  | None => None
  | Some throttle => Some
    match entries (jobs s) !! job_id with
    | None => s
    | Some e =>
        let e := mkJobEntry (je_job_id e) (je_job_type e) (je_references e) (je_target_path e)
                   (je_state e) (Some progress) (je_result e) (je_last_seq e) (je_updated_at e)
                   (je_ring e) (je_last_progress_at e) in
        let throttled := match je_last_progress_at e with
                         | Some prev => (sat_sub now prev <? throttle)%Z
                         | None => false
                         end in
        if throttled then
          with_counters (bump_throttled (counters s)) (with_jobs (set_entry job_id e (jobs s)) s)
        else
          let e := mkJobEntry (je_job_id e) (je_job_type e) (je_references e) (je_target_path e)
                     (je_state e) (je_progress e) (je_result e) (je_last_seq e) (je_updated_at e)
                     (je_ring e) (Some now) in
          let '(e, event, c) := emit e now_str None (Some progress) None (counters s) in
          send_or_count_drop job_id event
            (mkJobRegistry (set_entry job_id e (jobs s)) (broadcast s) c)
    end
  end.

Definition append_log (now_str : string) (job_id : JobId) (message : list ascii)
    (s : JobRegistry) : JobRegistry :=
  let '(msg, truncated) := cap_log_line (max_log_line_bytes cfg) message in
  let s := if truncated then with_counters (bump_truncated (counters s)) s else s in
  match entries (jobs s) !! job_id with
  | None => s
  | Some e =>
      let '(e, event, c) := emit e now_str None None (Some msg) (counters s) in
      send_or_count_drop job_id event
        (mkJobRegistry (set_entry job_id e (jobs s)) (broadcast s) c)
  end.

(** [terminate]; the [debug_assert!] on a terminal [state] is a precondition
    that its three callers meet. *)
Definition terminate (now_str : string) (job_id : JobId) (state : JobState)
    (res : option JobResult) (s : JobRegistry) : JobRegistry :=
  match entries (jobs s) !! job_id with
  | None => s
  | Some e =>
      if negb (entry_active e) then s
      else
        let e := mkJobEntry (je_job_id e) (je_job_type e) [] (je_target_path e) state
                   (je_progress e) (match res with Some _ => res | None => je_result e end)
                   (je_last_seq e) (je_updated_at e) (je_ring e) (je_last_progress_at e) in
        let '(e, event, c) := emit e now_str (Some state) (je_progress e) None (counters s) in
        let js := prune_recent (max_recent_jobs cfg) (set_entry job_id e (jobs s)) in
        send_or_count_drop job_id event (mkJobRegistry js (broadcast s) c)
  end.

(** *** Queries *)

Definition snapshot (job_id : JobId) (s : JobRegistry) : option JobSnapshot :=
  JobEntry_snapshot <$> (entries (jobs s) !! job_id).

Definition recent (limit : nat) (s : JobRegistry) : list JobSnapshot :=
  let cap := Nat.min limit (max_recent_jobs cfg) in
  omap (λ id, JobEntry_snapshot <$> (entries (jobs s) !! id)) (take cap (order (jobs s))).

Definition has_active_for (workspace_id : WorkspaceId) (job_type : JobType) (s : JobRegistry) : bool :=
  existsb (λ e, entry_active e && bool_decide (je_job_type e = job_type) &&
                refs_touch workspace_id (je_references e)) (values (entries (jobs s))).

Definition has_active_train_for (workspace_id : WorkspaceId) : JobRegistry → bool :=
  has_active_for workspace_id Train.
Definition has_active_convert_for (workspace_id : WorkspaceId) : JobRegistry → bool :=
  has_active_for workspace_id Convert.

(** [counters]: the running and retained gauges next to the counters. *)
Definition registry_counters (s : JobRegistry) : Counters * Z * Z :=
  (counters s,
   Z.of_nat (List.length (List.filter entry_active (values (entries (jobs s))))),
   Z.of_nat (size (entries (jobs s)))).

(** *** Leases *)

Definition lease_ref_conflict (js : JobsState) (new_ref : JobReference) : option RegistryConflict :=
  let new_ws := reference_workspace new_ref in
  match List.find (λ e, entry_active e && lease_conflicts_with_existing_job
                     new_ws (je_job_type e) (je_references e)) (values (entries js)) with
  | Some existing => Some (JobConflict (je_job_id existing) (je_job_type existing))
  | None => None
  end.

Definition try_acquire_lease (references : list JobReference) (s : JobRegistry)
    : JobRegistry * result RegistryConflict Z :=
  let js := jobs s in
  match first_conflict (lease_ref_conflict js) references with
  | Some c => (count_conflict s, Err c)
  | None =>
      let lease_id := next_lease_id js in
      (with_jobs (mkJobsState (order js) (entries js) (<[lease_id := references]> (leases js))
                    (wrap_add64 lease_id 1)) s, Ok lease_id)
  end.

Definition release_lease (lease_id : Z) (s : JobRegistry) : JobRegistry :=
  let js := jobs s in
  with_jobs (mkJobsState (order js) (entries js) (delete lease_id (leases js)) (next_lease_id js)) s.

(** *** [JobHandle] *)

Record JobHandle := mkJobHandle { jh_job_id : JobId; jh_terminated : bool }.

Definition JobHandle_drop (now_str : string) (h : JobHandle) (s : JobRegistry) : JobRegistry :=
  if jh_terminated h then s else terminate now_str (jh_job_id h) Failed None s.

(** [succeed], [fail] and [cancel] consume the handle: the drop that follows
    sees [terminated = true]. *)
Definition JobHandle_succeed (now_str : string) (h : JobHandle) (res : option JobResult)
    (s : JobRegistry) : JobRegistry :=
  let s := terminate now_str (jh_job_id h) Succeeded res s in
  JobHandle_drop now_str (mkJobHandle (jh_job_id h) true) s.

Definition JobHandle_fail (now_str : string) (h : JobHandle) (reason : list ascii)
    (s : JobRegistry) : JobRegistry :=
  let s := append_log now_str (jh_job_id h) reason s in
  let s := terminate now_str (jh_job_id h) Failed None s in
  JobHandle_drop now_str (mkJobHandle (jh_job_id h) true) s.

Definition JobHandle_cancel (now_str : string) (h : JobHandle) (s : JobRegistry) : JobRegistry :=
  let s := terminate now_str (jh_job_id h) Cancelled None s in
  JobHandle_drop now_str (mkJobHandle (jh_job_id h) true) s.

(** *** Event streams *)

Record EventStream := mkEventStream {
  es_replay : list JobEvent;
  es_live : rx;
  es_job_id : JobId;
  es_terminal_seen : bool;
}.

Definition subscribe_events (job_id : JobId) (after_seq : Z) (s : JobRegistry)
    : JobRegistry * result EventGap EventStream :=
  match entries (jobs s) !! job_id with
  | None =>
      let '(c, live) := subscribe (broadcast s) in
      (mkJobRegistry (jobs s) c (counters s), Ok (mkEventStream [] live job_id false))
  | Some e =>
      let oldest := match head (je_ring e) with Some ev => ev_seq ev | None => 0%Z end in
      let latest := je_last_seq e in
      if ((0 <? after_seq) && ((after_seq <? sat_sub oldest 1) || (latest <? after_seq)))%Z
      then (s, Err (mkEventGap oldest latest))
      else
        let replay := List.filter (λ ev, after_seq <? ev_seq ev)%Z (je_ring e) in
        let terminal_seen := negb (entry_active e) in
        let '(c, live) := subscribe (broadcast s) in
        (mkJobRegistry (jobs s) c (counters s), Ok (mkEventStream replay live job_id terminal_seen))
  end.

Definition next_replay (st : EventStream) : EventStream * option JobEvent :=
  match es_replay st with
  | [] => (st, None)
  | ev :: r => (mkEventStream r (es_live st) (es_job_id st) (es_terminal_seen st), Some ev)
  end.

Inductive StreamStep : Type :=
  | StreamEvent (ev : JobEvent)
  | StreamLagged
  | StreamClosed
  | StreamPending
  | StreamOutOfFuel.

(** [EventStream::recv]: the loop that skips other jobs' events; [StreamPending]
    is the await on an empty channel. *)
Fixpoint stream_recv (fuel : nat) (c : chan) (st : EventStream) : EventStream * StreamStep :=
  match fuel with
  | 0 => (st, StreamOutOfFuel)
  | S fuel =>
      match recv c (es_live st) with
      | None => (st, StreamPending)
      | Some (live, out) =>
          let st := mkEventStream (es_replay st) live (es_job_id st) (es_terminal_seen st) in
          match out with
          | RecvOk re =>
              if negb (bool_decide (re_job_id re = es_job_id st)) then stream_recv fuel c st
              else
                let seen := match ev_state (re_event re) with
                            | Some x => negb (JobState_is_active x)
                            | None => false
                            end in
                (mkEventStream (es_replay st) live (es_job_id st) (seen || es_terminal_seen st),
                 StreamEvent (re_event re))
          | RecvClosed => (st, StreamClosed)
          | RecvLagged _ => (st, StreamLagged)
          end
      end
  end.

(** *** The system: the registry with the handles and guards alive in workers

    [sys_used] records every id [JobId::new] has returned: a fresh v4 id is
    never one of them.  A lease id is not reused while its guard lives: the
    counter does not wrap within 2^64 grants. *)

Record System := mkSystem {
  sys_reg : JobRegistry;
  sys_handles : gset JobId;
  sys_guards : gset Z;
  sys_used : gset JobId;
}.

Inductive step : System → System → Prop :=
  | step_acquire s fresh now_str jt refs target r id :
      fresh ∉ sys_used s →
      try_acquire fresh now_str jt refs target (sys_reg s) = (r, Ok id) →
      step s (mkSystem r ({[id]} ∪ sys_handles s) (sys_guards s) ({[fresh]} ∪ sys_used s))
  | step_acquire_refused s fresh now_str jt refs target r e :
      fresh ∉ sys_used s →
      try_acquire fresh now_str jt refs target (sys_reg s) = (r, Err e) →
      step s (mkSystem r (sys_handles s) (sys_guards s) ({[fresh]} ∪ sys_used s))
  | step_progress s now now_str id p r :
      id ∈ sys_handles s →
      update_progress now now_str id p (sys_reg s) = Some r →
      step s (mkSystem r (sys_handles s) (sys_guards s) (sys_used s))
  | step_log s now_str id msg :
      id ∈ sys_handles s →
      step s (mkSystem (append_log now_str id msg (sys_reg s)) (sys_handles s) (sys_guards s) (sys_used s))
  | step_succeed s now_str id res :
      id ∈ sys_handles s →
      step s (mkSystem (JobHandle_succeed now_str (mkJobHandle id false) res (sys_reg s))
                (sys_handles s ∖ {[id]}) (sys_guards s) (sys_used s))
  | step_fail s now_str id reason :
      id ∈ sys_handles s →
      step s (mkSystem (JobHandle_fail now_str (mkJobHandle id false) reason (sys_reg s))
                (sys_handles s ∖ {[id]}) (sys_guards s) (sys_used s))
  | step_cancel s now_str id :
      id ∈ sys_handles s →
      step s (mkSystem (JobHandle_cancel now_str (mkJobHandle id false) (sys_reg s))
                (sys_handles s ∖ {[id]}) (sys_guards s) (sys_used s))
  | step_drop s now_str id :
      id ∈ sys_handles s →
      step s (mkSystem (JobHandle_drop now_str (mkJobHandle id false) (sys_reg s))
                (sys_handles s ∖ {[id]}) (sys_guards s) (sys_used s))
  | step_lease s refs r id :
      id ∉ sys_guards s →
      try_acquire_lease refs (sys_reg s) = (r, Ok id) →
      step s (mkSystem r (sys_handles s) ({[id]} ∪ sys_guards s) (sys_used s))
  | step_lease_refused s refs r e :
      try_acquire_lease refs (sys_reg s) = (r, Err e) →
      step s (mkSystem r (sys_handles s) (sys_guards s) (sys_used s))
  | step_lease_drop s id :
      id ∈ sys_guards s →
      step s (mkSystem (release_lease id (sys_reg s)) (sys_handles s) (sys_guards s ∖ {[id]}) (sys_used s))
  | step_subscribe s id after r out :
      subscribe_events id after (sys_reg s) = (r, out) →
      step s (mkSystem r (sys_handles s) (sys_guards s) (sys_used s))
  | step_unsubscribe s r :
      step s (mkSystem (mkJobRegistry (jobs (sys_reg s)) (unsubscribe r (broadcast (sys_reg s)))
                          (counters (sys_reg s)))
                (sys_handles s) (sys_guards s) (sys_used s)).

Definition System_new : System := mkSystem JobRegistry_new ∅ ∅ ∅.

Definition reachable : System → Prop := rtc step System_new.

End Operations.
