(* ===== verification/JobRegistryFacts.v ===== *)
(** * Theorems on the job registry

    The invariant of the reachable systems (admission caps, [WorkspaceDelete]
    exclusion, the recent window, the event rings, handles and leases), the
    exact outcome of admission, and the event streams. *)

From stdpp Require Import sorting fin_maps.
From S2P Require Import Prelude Ids AssetPath Common Workspace Broadcast JobRegistry.

(** ** Iteration over hash maps *)

Section Values.
Context `{Countable K} `{HI : !HashIter K A}.
Implicit Types m : gmap K A.

Lemma iter_values_perm m : map snd (hm_iter m) ≡ₚ map snd (map_to_list m).
Proof. apply (fmap_Permutation snd). apply hm_iter_perm. Qed.

Lemma elem_of_iter_values m x : x ∈ map snd (hm_iter m) ↔ ∃ k, m !! k = Some x.
Proof.
  rewrite iter_values_perm. rewrite list_elem_of_fmap. split.
  - intros ([k y] & -> & Hk%elem_of_map_to_list). eauto.
  - intros [k Hk]. exists (k, x). split; [done|]. by apply elem_of_map_to_list.
Qed.

Lemma find_values_Some m f x :
  List.find f (map snd (hm_iter m)) = Some x → f x = true ∧ ∃ k, m !! k = Some x.
Proof. intros [Hin Hf]%List.find_some. split; [done|]. apply elem_of_iter_values. by apply list_elem_of_In. Qed.

Lemma find_values_None m f :
  List.find f (map snd (hm_iter m)) = None ↔ ∀ k x, m !! k = Some x → f x = false.
Proof.
  split.
  - intros Hf k x Hk. apply (List.find_none _ _ Hf).
    apply list_elem_of_In, elem_of_iter_values. eauto.
  - intros Hall. destruct (List.find _ _) as [x|] eqn:E; [|done].
    apply find_values_Some in E as (Hf & k & Hk). rewrite (Hall k x Hk) in Hf. done.
Qed.

Definition count_values (f : A → bool) m : nat :=
  List.length (List.filter f (map snd (hm_iter m))).

Lemma filter_length_perm (f : A → bool) xs ys :
  xs ≡ₚ ys → List.length (List.filter f xs) = List.length (List.filter f ys).
Proof.
  induction 1; cbn; repeat case_match; cbn; congruence.
Qed.

Lemma count_values_empty f : count_values f ∅ = 0.
Proof.
  unfold count_values. rewrite (filter_length_perm f _ _ (iter_values_perm ∅)).
  by rewrite map_to_list_empty.
Qed.

Lemma count_values_insert f m k x :
  m !! k = None → count_values f (<[k:=x]> m) = (if f x then 1 else 0) + count_values f m.
Proof.
  intros Hk. unfold count_values. rewrite !(filter_length_perm f _ _ (iter_values_perm _)).
  rewrite (filter_length_perm f (map snd (map_to_list (<[k:=x]> m)))
    (map snd ((k, x) :: map_to_list m))).
  - cbn. by destruct (f x).
  - apply (fmap_Permutation snd). by apply map_to_list_insert.
Qed.

Lemma count_values_delete f m k x :
  m !! k = Some x → count_values f m = (if f x then 1 else 0) + count_values f (delete k m).
Proof.
  intros Hk. rewrite <-(count_values_insert f (delete k m) k x) by apply lookup_delete_eq.
  by rewrite insert_delete_id.
Qed.

Lemma count_values_update f m k x y :
  m !! k = Some x →
  count_values f (<[k:=y]> m) + (if f x then 1 else 0) = (if f y then 1 else 0) + count_values f m.
Proof.
  intros Hk. rewrite <-(insert_delete_eq m k y), count_values_insert by apply lookup_delete_eq.
  rewrite (count_values_delete f m k x Hk). lia.
Qed.

Lemma count_values_le_size f m : count_values f m ≤ size m.
Proof.
  unfold count_values. rewrite (filter_length_perm f _ _ (iter_values_perm _)).
  rewrite List.filter_length_le, List.length_map. by rewrite length_map_to_list.
Qed.

Lemma count_values_all f m :
  (∀ k x, m !! k = Some x → f x = true) → count_values f m = size m.
Proof.
  induction m as [|k x m Hk IH] using map_ind; intros Hall.
  - by rewrite count_values_empty, map_size_empty.
  - rewrite count_values_insert, map_size_insert_None by done.
    rewrite (Hall k x) by apply lookup_insert_eq. rewrite IH; [done|].
    intros k' x' Hk'. apply (Hall k' x'). rewrite lookup_insert_ne by congruence. done.
Qed.
End Values.

Section Facts.
Context `{U : UuidLib} `{B : !Broadcast RegistryEvent} `{BL : !BroadcastLaws RegistryEvent}.
Context `{HJ : !HashIter JobId JobEntry} `{HL : !HashIter Z (list JobReference)}.
Variable cfg : JobRegistryCfg.

(** ** The event ring *)

(** The sequence numbers of a ring of [n] events ending at [last]; vacuous once
    the counter has saturated. *)
Definition ring_seqs (last : Z) (ring : list JobEvent) : Prop :=
  (last < u64_max)%Z →
  map ev_seq ring = seqZ (last - Z.of_nat (List.length ring) + 1) (Z.of_nat (List.length ring)).

Record ring_ok (last : Z) (ring : list JobEvent) : Prop := {
  rk_last : (0 ≤ last ≤ u64_max)%Z;
  rk_fit : (last < u64_max → Z.of_nat (List.length ring) ≤ last)%Z;
  rk_len : List.length ring ≤ Nat.max 1 (max_job_event_ring cfg);
  rk_ne : (0 < last)%Z → ring ≠ [];
  rk_seqs : ring_seqs last ring;
}.

Lemma ring_ok_nil : ring_ok 0 [].
Proof. split; [done|done|cbn [List.length]; lia|done|done]. Qed.

Lemma seqZ_snoc m n : (0 ≤ n)%Z → seqZ m n ++ [m + n]%Z = seqZ m (n + 1).
Proof.
  intros Hn. rewrite seqZ_app by lia. by rewrite (seqZ_cons (m + n) 1) by lia.
Qed.

Lemma push_event_ok last ring ev :
  ring_ok last ring → ev_seq ev = sat_add64 last 1 →
  ring_ok (sat_add64 last 1) (fst (push_event ring ev (max_job_event_ring cfg))).
Proof.
  intros [Hlast Hfit Hlen Hne Hseqs] Hev. unfold push_event, sat_add64 in *.
  assert (Hmax : (0 < u64_max)%Z) by done.
  assert (Hbase : ∀ r : list JobEvent, List.length r ≤ List.length ring →
    (last < u64_max - 1 → map ev_seq r = seqZ (last - Z.of_nat (List.length r) + 1)
                                         (Z.of_nat (List.length r)))%Z →
    ring_seqs (Z.min (last + 1) u64_max) (r ++ [ev])).
  { intros r Hr Hsr Hlt. rewrite map_app, Hsr, length_app by lia. cbn [map List.length].
    rewrite Hev, Z.min_l by lia.
    replace (last + 1)%Z with (last - Z.of_nat (List.length r) + 1 + Z.of_nat (List.length r))%Z at 1
      by lia.
    rewrite seqZ_snoc by lia. f_equal; lia. }
  destruct (Nat.leb_spec (max_job_event_ring cfg) (List.length ring)) as [Hfull|Hroom]; cbn [fst].
  - destruct ring as [|e0 ring]; cbn [tail List.length] in *.
    + split; [lia|cbn [List.length app]; lia|cbn [List.length app]; lia|done|].
      apply (Hbase []); [cbn [List.length]; lia|intros _; reflexivity].
    + split; [lia|rewrite length_app; cbn [List.length]; lia|rewrite length_app; cbn [List.length]; lia|by destruct ring|].
      apply Hbase; [lia|]. intros Hlt. specialize (Hseqs ltac:(lia)). cbn [List.length map] in Hseqs.
      rewrite Nat2Z.inj_succ, seqZ_cons in Hseqs by lia. injection Hseqs as _ ->.
      f_equal; lia.
  - split; [lia|rewrite length_app; cbn [List.length]; lia|rewrite length_app; cbn [List.length]; lia|by destruct ring|].
    apply Hbase; [lia|]. intros. apply Hseqs. lia.
Qed.

(** The new event is the last of the ring. *)
Lemma push_event_snoc ring ev max :
  ∃ r, fst (push_event ring ev max) = r ++ [ev] ∧ ∀ x, x ∈ r → x ∈ ring.
Proof.
  unfold push_event. destruct (_ <=? _); cbn; eexists; split; try done.
  intros x Hx. destruct ring; [done|]. by right.
Qed.

(** ** Entries *)

Definition is_terminal_event (ev : JobEvent) : Prop := is_Some (ev_state ev).

(** The terminal event closes the ring of a terminal job, and only there. *)
Definition ring_states (e : JobEntry) : Prop :=
  if entry_active e then ∀ ev, ev ∈ je_ring e → ev_state ev = None
  else ∃ r ev, je_ring e = r ++ [ev] ∧ ev_state ev = Some (je_state e) ∧
               ∀ x, x ∈ r → ev_state x = None.

Record entry_ok (id : JobId) (e : JobEntry) : Prop := {
  ek_id : je_job_id e = id;
  ek_refs : entry_active e = false → je_references e = [];
  ek_ring : ring_ok (je_last_seq e) (je_ring e);
  ek_states : ring_states e;
}.

Lemma new_entry_ok id jt refs target now_str :
  entry_ok id (new_entry id jt refs target now_str).
Proof. split; cbn; [done|done|apply ring_ok_nil|]. intros ev. by intros ?%elem_of_nil. Qed.

(** What [emit] does to an entry and its event. *)
Lemma emit_spec e now_str st p msg c :
  let '(e', ev, c') := emit cfg e now_str st p msg c in
  ev_seq ev = sat_add64 (je_last_seq e) 1 ∧ ev_state ev = st ∧
  je_last_seq e' = ev_seq ev ∧ je_state e' = je_state e ∧ je_job_id e' = je_job_id e ∧
  je_job_type e' = je_job_type e ∧ je_references e' = je_references e ∧
  je_ring e' = fst (push_event (je_ring e) ev (max_job_event_ring cfg)).
Proof.
  unfold emit. destruct (push_event _ _ _) as [ring dropped] eqn:E. cbn.
  by rewrite E.
Qed.

Lemma emit_live_ok id e now_str p msg c e' ev c' :
  entry_ok id e → entry_active e = true →
  emit cfg e now_str None p msg c = (e', ev, c') → entry_ok id e' ∧ entry_active e' = true.
Proof.
  intros [Hid Hrefs Hring Hst] Ha E. pose proof (emit_spec e now_str None p msg c) as S.
  rewrite E in S. destruct S as (Hs & Hn & Hl & Hstate & Hid' & Ht & Hr & Hrg).
  assert (Ha' : entry_active e' = true) by (unfold entry_active in *; congruence).
  split; [|done]. split.
  - congruence.
  - congruence.
  - rewrite Hrg, Hl, Hs. by apply push_event_ok.
  - unfold ring_states in *. rewrite Ha', Hrg. rewrite Ha in Hst.
    destruct (push_event_snoc (je_ring e) ev (max_job_event_ring cfg)) as (r & -> & Hin).
    intros x [Hx|Hx%list_elem_of_singleton]%elem_of_app; [auto|congruence].
Qed.

(** The entry [terminate] stores. *)
Definition terminated_entry (e : JobEntry) (state : JobState) (res : option JobResult) : JobEntry :=
  mkJobEntry (je_job_id e) (je_job_type e) [] (je_target_path e) state
    (je_progress e) (match res with Some _ => res | None => je_result e end)
    (je_last_seq e) (je_updated_at e) (je_ring e) (je_last_progress_at e).

Lemma emit_terminal_ok id e now_str state res p c e' ev c' :
  entry_ok id e → entry_active e = true → JobState_is_active state = false →
  emit cfg (terminated_entry e state res) now_str (Some state) p None c = (e', ev, c') →
  entry_ok id e' ∧ entry_active e' = false ∧ je_state e' = state.
Proof.
  intros [Hid Hrefs Hring Hst] Ha Hs0 E.
  pose proof (emit_spec (terminated_entry e state res) now_str (Some state) p None c) as S.
  rewrite E in S. cbn in S. destruct S as (Hs & Hn & Hl & Hstate & Hid' & Ht & Hr & Hrg).
  assert (Ha' : entry_active e' = false) by (unfold entry_active; congruence).
  split_and!; [|done|done]. split.
  - congruence.
  - congruence.
  - rewrite Hrg, Hl, Hs. by apply push_event_ok.
  - unfold ring_states in *. rewrite Ha', Hrg. rewrite Ha in Hst.
    destruct (push_event_snoc (je_ring e) ev (max_job_event_ring cfg)) as (r & -> & Hin).
    exists r, ev. split_and!; [done|congruence|auto].
Qed.

(** ** The invariant of the job table *)

Definition order_ok (js : JobsState) : Prop :=
  NoDup (order js) ∧ ∀ id, id ∈ order js ↔ is_Some (entries js !! id).

Definition slot_count (jt : JobType) (m : gmap JobId JobEntry) : nat :=
  count_values (in_slot (snd (job_slot cfg jt))) m.

(** [WorkspaceDelete] excludes every other active job and every bare lease of
    its workspace. *)
Definition exclusive (js : JobsState) : Prop :=
  ∀ id e w, entries js !! id = Some e → entry_active e = true →
    je_job_type e = WorkspaceDelete → refs_touch w (je_references e) = true →
    (∀ id' e', id' ≠ id → entries js !! id' = Some e' → entry_active e' = true →
       refs_touch w (je_references e') = false) ∧
    (∀ l refs, leases js !! l = Some refs → refs_touch w refs = false).

Definition caps_total : nat := max_train_jobs cfg + max_convert_jobs cfg + max_delete_jobs cfg.

Record jobs_inv (js : JobsState) : Prop := {
  ji_order : order_ok js;
  ji_entries : map_Forall entry_ok (entries js);
  ji_caps : ∀ jt, slot_count jt (entries js) ≤ fst (job_slot cfg jt);
  ji_excl : exclusive js;
  ji_recent : caps_total ≤ max_recent_jobs cfg → size (entries js) ≤ max_recent_jobs cfg;
}.

(** The three slots partition the active jobs. *)
Lemma active_slots (m : gmap JobId JobEntry) :
  count_values entry_active m = slot_count Train m + slot_count Convert m + slot_count DatasetDelete m.
Proof.
  unfold slot_count, count_values. generalize (map snd (hm_iter m)) as l.
  induction l as [|e l IH]; [done|]. cbn [List.filter].
  assert (E : ∀ p, in_slot p e = entry_active e && p (je_job_type e)) by done.
  rewrite !E. destruct (entry_active e); cbn [andb]; [|exact IH].
  cbn [job_slot snd] in *. destruct (je_job_type e);
    repeat (case_bool_decide; try congruence); cbn [is_delete_subtype List.length]; lia.
Qed.

Lemma order_ok_push js id e l n :
  order_ok js → entries js !! id = None →
  order_ok (mkJobsState (id :: order js) (<[id := e]> (entries js)) l n).
Proof.
  intros [Hnd Hdom] Hnone. split; cbn.
  - apply NoDup_cons_2; [|done]. rewrite Hdom, Hnone. by intros [? ?].
  - intros i. rewrite elem_of_cons, lookup_insert_is_Some, Hdom.
    destruct (decide (id = i)); naive_solver.
Qed.

(** *** Pruning *)

(** What pruning may do: drop terminal entries and nothing else. *)
Record pruned (js js' : JobsState) : Prop := {
  pr_leases : leases js' = leases js;
  pr_next : next_lease_id js' = next_lease_id js;
  pr_sub : entries js' ⊆ entries js;
  pr_active : ∀ id e, entries js !! id = Some e → entry_active e = true → entries js' !! id = Some e;
  pr_order : order_ok js → order_ok js';
  pr_slots : ∀ jt, slot_count jt (entries js') = slot_count jt (entries js);
}.

Lemma pruned_refl js : pruned js js.
Proof. by split. Qed.

Lemma pruned_trans js1 js2 js3 : pruned js1 js2 → pruned js2 js3 → pruned js1 js3.
Proof.
  intros [L1 N1 S1 A1 O1 C1] [L2 N2 S2 A2 O2 C2]. split; [congruence..|by etrans|auto|auto|].
  intros jt. by rewrite C2, C1.
Qed.

Lemma pruned_delete js i id e :
  order js !! i = Some id → entries js !! id = Some e → entry_active e = false →
  pruned js (mkJobsState (delete i (order js)) (delete id (entries js)) (leases js) (next_lease_id js)).
Proof.
  intros Hi He Ha. split; cbn; [done|done|apply delete_subseteq|..].
  - intros id' e' He' Ha'. rewrite lookup_delete_ne; [done|]. intros ->. congruence.
  - intros [Hnd Hdom]. pose proof (delete_Permutation _ _ _ Hi) as HP.
    rewrite HP in Hnd. pose proof (NoDup_cons_1_1 _ _ Hnd) as Hnin.
    apply NoDup_cons_1_2 in Hnd. split; [done|]. cbn.
    intros id'. rewrite lookup_delete_is_Some, <-Hdom.
    assert (Hin : id' ∈ order js ↔ id' = id ∨ id' ∈ delete i (order js))
      by (rewrite <-elem_of_cons, <-HP; done).
    set_solver.
  - intros jt. unfold slot_count. rewrite (count_values_delete _ _ _ _ He).
    unfold in_slot at 2. by rewrite Ha.
Qed.

Lemma prune_loop_spec max i js :
  order_ok js → i ≤ List.length (order js) →
  (∀ j id e, i ≤ j → order js !! j = Some id → entries js !! id = Some e → entry_active e = true) →
  let js' := prune_loop max i js in
  pruned js js' ∧
  (size (entries js') ≤ max ∨ ∀ id e, entries js' !! id = Some e → entry_active e = true).
Proof.
  revert js. induction i as [|i IH]; intros js Hok Hlen Hact; cbn [prune_loop].
  { split; [apply pruned_refl|]. right. intros id e He.
    destruct Hok as [_ Hdom]. assert (Hin : id ∈ order js) by (apply Hdom; eauto).
    apply list_elem_of_lookup in Hin as [j Hj]. apply (Hact j id e); [lia|done|done]. }
  destruct (Nat.ltb_spec max (size (entries js))) as [Hsz|Hsz].
  2:{ split; [apply pruned_refl|]. left. lia. }
  destruct (lookup_lt_is_Some_2 (order js) i ltac:(lia)) as [id Hid]. rewrite Hid.
  assert (Hsome : is_Some (entries js !! id)).
  { apply Hok. by apply list_elem_of_lookup_2 in Hid. }
  destruct Hsome as [e He]. rewrite He.
  destruct (entry_active e) eqn:Ha; cbn [negb].
  - apply IH; [done|lia|]. intros j id' e' Hj Hl He'.
    destruct (decide (j = i)) as [->|Hne]; [congruence|]. apply (Hact j id' e'); [lia|done|done].
  - pose proof (pruned_delete js i id e Hid He Ha) as HP.
    destruct (IH (mkJobsState (delete i (order js)) (delete id (entries js)) (leases js) (next_lease_id js)))
      as [HP' Hres].
    + by apply HP.
    + cbn. rewrite length_delete by (by eexists). lia.
    + cbn. intros j id' e' Hj Hl He'. rewrite list_lookup_delete_ge in Hl by lia.
      apply lookup_delete_Some in He' as [_ He']. apply (Hact (S j) id' e'); [lia|done|done].
    + split; [by eapply pruned_trans|done].
Qed.

Lemma prune_recent_spec max js :
  order_ok js →
  let js' := prune_recent max js in
  pruned js js' ∧
  (size (entries js') ≤ max ∨ ∀ id e, entries js' !! id = Some e → entry_active e = true).
Proof.
  intros Hok. unfold prune_recent.
  destruct (Nat.leb_spec (size (entries js)) max) as [Hle|Hlt].
  - split; [apply pruned_refl|by left].
  - apply prune_loop_spec; [done|done|]. intros j id e Hj Hl.
    apply lookup_lt_Some in Hl. lia.
Qed.

(** Pruning re-establishes the window and keeps the rest of the invariant. *)
Lemma prune_recent_inv js :
  order_ok js → map_Forall entry_ok (entries js) →
  (∀ jt, slot_count jt (entries js) ≤ fst (job_slot cfg jt)) → exclusive js →
  jobs_inv (prune_recent (max_recent_jobs cfg) js).
Proof.
  intros Ho He Hc Hx.
  destruct (prune_recent_spec (max_recent_jobs cfg) js Ho) as [[L N S A O C] Hsz].
  split.
  - auto.
  - intros id e Hid. apply (He id e). by eapply lookup_weaken.
  - intros jt. by rewrite C.
  - intros id e w Hid Ha Ht Hr. rewrite L.
    destruct (Hx id e w) as [Hj Hl]; [by eapply lookup_weaken|done..|]. split; [|done].
    intros id' e' Hne Hid' Ha'. apply (Hj id' e'); [done|by eapply lookup_weaken|done].
  - intros Hcap. destruct Hsz as [?|Hall]; [done|].
    rewrite <-(count_values_all entry_active) by done. rewrite active_slots.
    rewrite !C. unfold caps_total in Hcap.
    pose proof (Hc Train). pose proof (Hc Convert). pose proof (Hc DatasetDelete). cbn in *. lia.
Qed.

(** *** Admission *)

(** The admission of a job touching [w] is blocked: by an active job of the
    workspace when either side is a [WorkspaceDelete], or by a bare lease when
    the new job is one. *)
Definition blocked (js : JobsState) (wd : bool) (w : WorkspaceId) : Prop :=
  (∃ id e, entries js !! id = Some e ∧ entry_active e = true ∧
     refs_touch w (je_references e) = true ∧ (wd = true ∨ je_job_type e = WorkspaceDelete)) ∨
  (wd = true ∧ ∃ l refs, leases js !! l = Some refs ∧ refs_touch w refs = true).

Lemma existing_conflict_spec wd w e :
  entry_active e && job_conflicts_with_existing_job wd w (je_job_type e) (je_references e) = true ↔
  entry_active e = true ∧ refs_touch w (je_references e) = true ∧
  (wd = true ∨ je_job_type e = WorkspaceDelete).
Proof.
  unfold job_conflicts_with_existing_job. rewrite andb_true_iff.
  destruct (refs_touch w (je_references e)); cbn [negb];
    rewrite ?orb_true_iff, ?bool_decide_eq_true; naive_solver.
Qed.

Lemma ref_conflict_None fresh wd js r :
  ref_conflict fresh wd js r = None ↔ ¬ blocked js wd (reference_workspace r).
Proof.
  unfold ref_conflict, blocked. split.
  - destruct (List.find _ (values (entries js))) eqn:E; [done|].
    unfold values in E. rewrite find_values_None in E.
    intros HL' [(id & e & Hid & H)|(-> & l & refs & Hl & Ht)].
    + specialize (E id e Hid). apply existing_conflict_spec in H. congruence.
    + destruct (List.find _ (lease_values (leases js))) eqn:F; [done|].
      unfold lease_values in F. rewrite find_values_None in F.
      specialize (F l refs Hl). cbn in F. congruence.
  - intros Hn. destruct (List.find _ (values (entries js))) eqn:E.
    + apply find_values_Some in E as (Hf & id & Hid). destruct Hn. left.
      exists id, j. split; [done|]. by apply existing_conflict_spec.
    + destruct wd; [|done]. destruct (List.find _ (lease_values (leases js))) eqn:F; [|done].
      apply find_values_Some in F as (Hf & l0 & Hl). destruct Hn. right. eauto.
Qed.

Lemma first_conflict_None f refs :
  first_conflict f refs = None ↔ ∀ r, r ∈ refs → f r = None.
Proof.
  induction refs as [|r refs IH]; cbn.
  - split; [|done]. intros _ r. by intros ?%elem_of_nil.
  - destruct (f r) eqn:E.
    + split; [done|]. intros H. rewrite (H r) in E by left. done.
    + rewrite IH. setoid_rewrite elem_of_cons. naive_solver.
Qed.

Definition admissible (js : JobsState) (jt : JobType) (refs : list JobReference) : Prop :=
  slot_count jt (entries js) < fst (job_slot cfg jt) ∧
  ∀ r, r ∈ refs → ¬ blocked js (bool_decide (jt = WorkspaceDelete)) (reference_workspace r).

(** [try_acquire] admits exactly the admissible jobs; a refusal changes nothing
    but the conflict counter. *)
Lemma try_acquire_cases fresh now_str jt refs target s :
  (admissible (jobs s) jt refs ∧
   try_acquire cfg fresh now_str jt refs target s =
     (mkJobRegistry
        (prune_recent (max_recent_jobs cfg)
           (mkJobsState (fresh :: order (jobs s))
              (<[fresh := new_entry fresh jt refs target now_str]> (entries (jobs s)))
              (leases (jobs s)) (next_lease_id (jobs s))))
        (broadcast s) (counters s), Ok fresh)) ∨
  (¬ admissible (jobs s) jt refs ∧
   ∃ c, try_acquire cfg fresh now_str jt refs target s = (count_conflict s, Err c)).
Proof.
  unfold try_acquire, admissible, slot_count, count_values.
  destruct (job_slot cfg jt) as [cap p] eqn:J. cbn [fst snd].
  fold (values (entries (jobs s))).
  destruct (Nat.leb_spec cap (List.length (List.filter (in_slot p) (values (entries (jobs s))))))
    as [Hfull|Hroom].
  { right. split; [lia|]. eauto. }
  destruct (first_conflict _ refs) as [c|] eqn:F.
  - right. split; [|eauto]. intros [_ Hall].
    assert (first_conflict (ref_conflict fresh (bool_decide (jt = WorkspaceDelete)) (jobs s)) refs = None).
    { apply first_conflict_None. intros r Hr. by apply ref_conflict_None, Hall. }
    congruence.
  - left. split; [|done]. split; [done|]. rewrite first_conflict_None in F.
    intros r Hr. by apply (ref_conflict_None fresh), F.
Qed.

Lemma refs_touch_true w refs :
  refs_touch w refs = true ↔ ∃ r, r ∈ refs ∧ reference_workspace r = w.
Proof.
  unfold refs_touch. rewrite existsb_exists. setoid_rewrite list_elem_of_In.
  by setoid_rewrite bool_decide_eq_true.
Qed.

Lemma in_slot_self jt e :
  je_job_type e = jt → entry_active e = true → in_slot (snd (job_slot cfg jt)) e = true.
Proof. unfold in_slot. intros -> ->. by destruct jt. Qed.

(** Two types share a slot iff they have the same cap and predicate. *)
Lemma slot_share jt e :
  in_slot (snd (job_slot cfg jt)) e = true → job_slot cfg jt = job_slot cfg (je_job_type e).
Proof.
  unfold in_slot. rewrite andb_true_iff. intros [_ H].
  destruct jt; cbn in H; try (apply bool_decide_eq_true in H; by rewrite H);
    by destruct (je_job_type e).
Qed.

Lemma insert_entry_inv js id jt refs target now_str :
  jobs_inv js → entries js !! id = None → admissible js jt refs →
  jobs_inv (prune_recent (max_recent_jobs cfg)
    (mkJobsState (id :: order js) (<[id := new_entry id jt refs target now_str]> (entries js))
       (leases js) (next_lease_id js))).
Proof.
  intros [Ho He Hc Hx Hr] Hid [Hslot Hfree]. set (e0 := new_entry id jt refs target now_str).
  apply prune_recent_inv; cbn [order entries leases next_lease_id].
  - by apply order_ok_push.
  - apply map_Forall_insert_2; [apply new_entry_ok|done].
  - intros jt'. unfold slot_count. rewrite count_values_insert by done.
    destruct (in_slot (snd (job_slot cfg jt')) e0) eqn:E; [|apply Hc].
    pose proof (slot_share jt' e0 E) as Hsh. cbn in Hsh. rewrite Hsh.
    unfold slot_count in Hslot. lia.
  - intros i1 e1 w H1 A1 T1 R1. cbn in *. split.
    + intros i2 e2 Hne H2 A2. apply not_true_iff_false. intros R2.
      destruct (decide (i1 = id)) as [->|N1].
      * rewrite lookup_insert_eq in H1. injection H1 as <-. rewrite lookup_insert_ne in H2 by done.
        apply refs_touch_true in R1 as (r & Hr1 & <-). cbn in T1. subst jt.
        apply (Hfree r Hr1). left. exists i2, e2.
        rewrite bool_decide_eq_true_2 by done. naive_solver.
      * rewrite lookup_insert_ne in H1 by done. destruct (decide (i2 = id)) as [->|N2].
        -- rewrite lookup_insert_eq in H2. injection H2 as <-.
           apply refs_touch_true in R2 as (r & Hr2 & <-).
           apply (Hfree r Hr2). left. exists i1, e1. naive_solver.
        -- rewrite lookup_insert_ne in H2 by done.
           destruct (Hx i1 e1 w H1 A1 T1 R1) as [Hj _]. rewrite (Hj i2 e2) in R2 by done. done.
    + intros l lrefs Hl. apply not_true_iff_false. intros RL.
      destruct (decide (i1 = id)) as [->|N1].
      * rewrite lookup_insert_eq in H1. injection H1 as <-.
        apply refs_touch_true in R1 as (r & Hr1 & <-). cbn in T1. subst jt.
        apply (Hfree r Hr1). right. rewrite bool_decide_eq_true_2 by done. eauto.
      * rewrite lookup_insert_ne in H1 by done.
        destruct (Hx i1 e1 w H1 A1 T1 R1) as [_ Hj]. rewrite (Hj l lrefs) in RL by done. done.
Qed.

(** *** Updates of one entry *)

(** An update that keeps the type, keeps or drops the references, and never
    revives a terminal job. *)
Definition entry_le (e e' : JobEntry) : Prop :=
  je_job_type e' = je_job_type e ∧
  (entry_active e' = true → entry_active e = true) ∧
  (∀ w, refs_touch w (je_references e') = true → refs_touch w (je_references e) = true).

Lemma set_entry_inv js id e e' :
  jobs_inv js → entries js !! id = Some e → entry_le e e' → entry_ok id e' →
  order_ok (set_entry id e' js) ∧ map_Forall entry_ok (entries (set_entry id e' js)) ∧
  (∀ jt, slot_count jt (entries (set_entry id e' js)) ≤ fst (job_slot cfg jt)) ∧
  exclusive (set_entry id e' js) ∧ size (entries (set_entry id e' js)) = size (entries js).
Proof.
  intros [Ho He Hc Hx Hr] Hid (Ht & Ha & Hrf) Hok. unfold set_entry. cbn. split_and!.
  - destruct Ho as [Hnd Hdom]. split; cbn; [done|]. intros i. rewrite Hdom, lookup_insert_is_Some.
    destruct (decide (id = i)) as [->|]; naive_solver.
  - by apply map_Forall_insert_2.
  - intros jt. specialize (Hc jt). unfold slot_count in *.
    pose proof (count_values_update (in_slot (snd (job_slot cfg jt))) _ _ _ e' Hid) as Hu.
    assert (in_slot (snd (job_slot cfg jt)) e' = true → in_slot (snd (job_slot cfg jt)) e = true).
    { unfold in_slot. rewrite !andb_true_iff, Ht. naive_solver. }
    destruct (in_slot _ e'), (in_slot _ e); cbn in *; try lia.
  - assert (Hback : ∀ i f, <[id:=e']> (entries js) !! i = Some f → entry_active f = true →
      ∃ g, entries js !! i = Some g ∧ entry_active g = true ∧ je_job_type f = je_job_type g ∧
           ∀ w, refs_touch w (je_references f) = true → refs_touch w (je_references g) = true).
    { intros i f Hf Af. destruct (decide (i = id)) as [->|N].
      - rewrite lookup_insert_eq in Hf. injection Hf as <-. exists e. auto.
      - rewrite lookup_insert_ne in Hf by done. eauto. }
    intros i1 e1 w H1 A1 T1 R1. cbn in *.
    destruct (Hback i1 e1 H1 A1) as (g1 & G1 & AG1 & TG1 & RG1).
    destruct (Hx i1 g1 w G1 AG1 ltac:(congruence) (RG1 w R1)) as [Hj Hl]. split; [|done].
    intros i2 e2 Hne H2 A2. apply not_true_iff_false. intros R2.
    destruct (Hback i2 e2 H2 A2) as (g2 & G2 & AG2 & _ & RG2).
    pose proof (Hj i2 g2 Hne G2 AG2). rewrite (RG2 w R2) in *. done.
  - rewrite map_size_insert_Some; [done|]. eauto.
Qed.

Lemma set_entry_jobs_inv js id e e' :
  jobs_inv js → entries js !! id = Some e → entry_le e e' → entry_ok id e' →
  jobs_inv (set_entry id e' js).
Proof.
  intros Hi Hid Hle Hok. destruct (set_entry_inv js id e e' Hi Hid Hle Hok) as (H1 & H2 & H3 & H4 & H5).
  split; [done..|]. rewrite H5. apply Hi.
Qed.

(** ** What the emitters do to the table *)

Lemma send_or_count_drop_jobs id ev s : jobs (send_or_count_drop id ev s) = jobs s.
Proof. unfold send_or_count_drop. repeat case_match; done. Qed.

Lemma entry_le_refl e : entry_le e e.
Proof. by unfold entry_le. Qed.

Lemma update_progress_jobs now now_str id p s r e :
  jobs_inv (jobs s) → entries (jobs s) !! id = Some e → entry_active e = true →
  update_progress cfg now now_str id p s = Some r →
  ∃ e', jobs r = set_entry id e' (jobs s) ∧ entry_le e e' ∧ entry_ok id e' ∧ entry_active e' = true.
Proof.
  intros Hi He Ha. pose proof (ji_entries _ Hi id e He) as [K1 K2 K3 K4].
  unfold update_progress. destruct (throttle_ns _) as [th|]; [|done]. rewrite He.
  cbn [je_last_progress_at]. intros [= <-].
  destruct (match je_last_progress_at e with Some _ => _ | None => _ end).
  - eexists. split; [done|]. split; [by unfold entry_le|]. split; [|done].
    split; [done|done|done|]. unfold ring_states in *. exact K4.
  - set (e1 := mkJobEntry _ _ _ _ _ _ _ _ _ _ (Some now)).
    assert (Hok1 : entry_ok id e1) by (split; [done|done|done|exact K4]).
    destruct (emit cfg e1 now_str None (Some p) None (counters s)) as [[e' ev] c] eqn:E.
    rewrite send_or_count_drop_jobs. exists e'. cbn.
    pose proof (emit_spec e1 now_str None (Some p) None (counters s)) as S. rewrite E in S.
    destruct S as (_ & _ & _ & Hs & _ & Ht & Hr & _).
    destruct (emit_live_ok id _ _ _ _ _ _ _ _ Hok1 Ha E) as [Hok Ha'].
    split; [done|]. split; [|done]. split_and!; [done|done|]. by rewrite Hr.
Qed.

Lemma append_log_jobs now_str id msg s e :
  jobs_inv (jobs s) → entries (jobs s) !! id = Some e → entry_active e = true →
  ∃ e', jobs (append_log cfg now_str id msg s) = set_entry id e' (jobs s) ∧
        entry_le e e' ∧ entry_ok id e' ∧ entry_active e' = true.
Proof.
  intros Hi He Ha. pose proof (ji_entries _ Hi id e He) as Hok. unfold append_log.
  destruct (cap_log_line _ msg) as [m tr].
  set (s1 := if tr then _ else s). assert (Hj : jobs s1 = jobs s) by (by destruct tr).
  rewrite Hj, He.
  destruct (emit cfg e now_str None None (Some m) (counters s1)) as [[e' ev] c] eqn:E.
  rewrite send_or_count_drop_jobs. exists e'. cbn.
  pose proof (emit_spec e now_str None None (Some m) (counters s1)) as S. rewrite E in S.
  destruct S as (_ & _ & _ & Hs & _ & Ht & Hr & _).
  destruct (emit_live_ok id _ _ _ _ _ _ _ _ Hok Ha E) as [Hok' Ha'].
  split; [done|]. split; [|done]. split_and!; [done|done|]. by rewrite Hr.
Qed.

Lemma terminate_jobs now_str id state res s e :
  jobs_inv (jobs s) → entries (jobs s) !! id = Some e → entry_active e = true →
  JobState_is_active state = false →
  ∃ e', jobs (terminate cfg now_str id state res s) =
          prune_recent (max_recent_jobs cfg) (set_entry id e' (jobs s)) ∧
        entry_le e e' ∧ entry_ok id e' ∧ entry_active e' = false ∧ je_state e' = state.
Proof.
  intros Hi He Ha Hs. pose proof (ji_entries _ Hi id e He) as Hok. unfold terminate.
  rewrite He, Ha. cbn [negb]. fold (terminated_entry e state res).
  destruct (emit cfg (terminated_entry e state res) now_str (Some state)
              (je_progress (terminated_entry e state res)) None (counters s)) as [[e' ev] c] eqn:E.
  rewrite send_or_count_drop_jobs. exists e'. cbn.
  pose proof (emit_spec (terminated_entry e state res) now_str (Some state)
    (je_progress (terminated_entry e state res)) None (counters s)) as S. rewrite E in S.
  destruct S as (_ & _ & _ & _ & _ & Ht & Hr & _).
  destruct (emit_terminal_ok id _ _ _ _ _ _ _ _ _ Hok Ha Hs E) as (Hok' & Ha' & Hs').
  split; [done|]. split; [|done]. split_and!; [done|congruence|]. by rewrite Hr.
Qed.

(** A second [terminate] is a no-op. *)
Lemma terminate_idle now_str id state res s :
  (∀ e, entries (jobs s) !! id = Some e → entry_active e = false) →
  terminate cfg now_str id state res s = s.
Proof.
  intros H. unfold terminate. destruct (entries (jobs s) !! id) as [e|]; [|done].
  by rewrite (H e).
Qed.

(** ** The invariant of the system *)

Record sys_inv (s : System) : Prop := {
  si_jobs : jobs_inv (jobs (sys_reg s));
  si_handles : ∀ id, id ∈ sys_handles s ↔
    ∃ e, entries (jobs (sys_reg s)) !! id = Some e ∧ entry_active e = true;
  si_guards : ∀ l, l ∈ sys_guards s ↔ is_Some (leases (jobs (sys_reg s)) !! l);
  si_used : ∀ id, is_Some (entries (jobs (sys_reg s)) !! id) → id ∈ sys_used s;
}.

Lemma System_new_inv : sys_inv System_new.
Proof.
  split; cbn.
  - split; cbn.
    + split; cbn; [apply NoDup_nil_2|]. intros id. rewrite lookup_empty.
      split; [by intros ?%elem_of_nil|by intros [? ?]].
    + apply map_Forall_empty.
    + intros jt. unfold slot_count. rewrite count_values_empty. lia.
    + by intros id e w ?.
    + intros. rewrite map_size_empty. lia.
  - intros id. rewrite lookup_empty. split; [by intros ?%elem_of_empty|by intros (? & ? & _)].
  - intros l. rewrite lookup_empty. split; [by intros ?%elem_of_empty|by intros [? ?]].
  - intros id. rewrite lookup_empty. by intros [? ?].
Qed.

(** An update of a live entry that stays live. *)
Lemma live_update_inv s r id e e' :
  sys_inv s → entries (jobs (sys_reg s)) !! id = Some e → entry_active e = true →
  jobs r = set_entry id e' (jobs (sys_reg s)) → entry_le e e' → entry_ok id e' →
  entry_active e' = true →
  sys_inv (mkSystem r (sys_handles s) (sys_guards s) (sys_used s)).
Proof.
  intros [Hj Hh Hg Hu] He Ha Hr Hle Hok Ha'. split; cbn; rewrite Hr.
  - by eapply set_entry_jobs_inv.
  - intros i. rewrite Hh. cbn. destruct (decide (i = id)) as [->|N].
    + rewrite lookup_insert_eq. naive_solver.
    + by rewrite lookup_insert_ne.
  - done.
  - intros i. cbn. rewrite lookup_insert_is_Some. intros [<-|[_ ?]]; apply Hu; eauto.
Qed.

(** Terminating a live job releases its handle. *)
Lemma terminate_inv s r now_str id state res :
  sys_inv (mkSystem r (sys_handles s) (sys_guards s) (sys_used s)) →
  id ∈ sys_handles s → JobState_is_active state = false →
  sys_inv (mkSystem (terminate cfg now_str id state res r)
             (sys_handles s ∖ {[id]}) (sys_guards s) (sys_used s)).
Proof.
  intros [Hj Hh Hg Hu] Hid Hs. cbn in *. pose proof Hid as (e & He & Ha)%Hh.

  destruct (terminate_jobs now_str id state res r e Hj He Ha Hs) as (e' & Hr & Hle & Hok & Ha' & _).
  destruct (set_entry_inv _ id e e' Hj He Hle Hok) as (H1 & H2 & H3 & H4 & _).
  destruct (prune_recent_spec (max_recent_jobs cfg) _ H1) as [[L N S A O C] _].
  split; cbn; rewrite Hr.
  - by apply prune_recent_inv.
  - intros i. rewrite elem_of_difference, elem_of_singleton, Hh. split.
    + intros ((f & Hf & Af) & Hne). exists f. split; [|done]. apply A; [|done].
      cbn. by rewrite lookup_insert_ne by congruence.
    + intros (f & Hf & Af). pose proof (lookup_weaken _ _ _ _ Hf S) as Hf'. cbn in Hf'.
      destruct (decide (i = id)) as [->|Hne].
      * rewrite lookup_insert_eq in Hf'. congruence.
      * rewrite lookup_insert_ne in Hf' by congruence. eauto.
  - by rewrite L.
  - intros i [f Hf]. pose proof (lookup_weaken _ _ _ _ Hf S) as Hf'. cbn in Hf'.
    apply Hu. destruct (decide (i = id)) as [->|Hne]; [eauto|].
    rewrite lookup_insert_ne in Hf' by congruence. eauto.
Qed.

Lemma sys_inv_eta s : sys_inv s → sys_inv (mkSystem (sys_reg s) (sys_handles s) (sys_guards s) (sys_used s)).
Proof. by destruct s. Qed.

(** The registry's own state decides the invariant: the channel and the counters
    do not matter, and more ids may be recorded as used. *)
Lemma sys_inv_jobs s r used :
  sys_inv s → jobs r = jobs (sys_reg s) → sys_used s ⊆ used →
  sys_inv (mkSystem r (sys_handles s) (sys_guards s) used).
Proof.
  intros [Hj Hh Hg Hu] E Hsub. split; cbn; rewrite E; [done..|].
  intros i Hi. by apply Hsub, Hu.
Qed.

Lemma acquire_inv s fresh now_str jt refs target r id :
  sys_inv s → fresh ∉ sys_used s →
  try_acquire cfg fresh now_str jt refs target (sys_reg s) = (r, Ok id) →
  sys_inv (mkSystem r ({[id]} ∪ sys_handles s) (sys_guards s) ({[fresh]} ∪ sys_used s)).
Proof.
  intros [Hj Hh Hg Hu] Hfresh E.
  destruct (try_acquire_cases fresh now_str jt refs target (sys_reg s)) as [[Hadm E']|[_ (c & E')]];
    rewrite E' in E; [|done]. injection E as <- <-.
  assert (Hnone : entries (jobs (sys_reg s)) !! fresh = None).
  { apply eq_None_not_Some. intros Hs. by apply Hfresh, Hu. }
  set (js1 := mkJobsState _ _ _ _).
  assert (Ho : order_ok js1) by (apply order_ok_push; [apply Hj|done]).
  destruct (prune_recent_spec (max_recent_jobs cfg) js1 Ho) as [[L N S A O C] _].
  split; cbn.
  - by apply insert_entry_inv.
  - intros i. rewrite elem_of_union, elem_of_singleton, Hh. split.
    + intros [->|(f & Hf & Af)]; [eexists; split; [apply A; [apply lookup_insert_eq|done]|done]|].
      exists f. split; [|done]. apply A; [|done]. cbn. by rewrite lookup_insert_ne by congruence.
    + intros (f & Hf & Af). pose proof (lookup_weaken _ _ _ _ Hf S) as Hf'. cbn in Hf'.
      destruct (decide (i = fresh)) as [->|Hne]; [by left|right].
      rewrite lookup_insert_ne in Hf' by congruence. eauto.
  - by rewrite L.
  - intros i [f Hf]. pose proof (lookup_weaken _ _ _ _ Hf S) as Hf'. cbn in Hf'.
    apply elem_of_union. destruct (decide (i = fresh)) as [->|Hne]; [by left; apply elem_of_singleton|].
    right. apply Hu. rewrite lookup_insert_ne in Hf' by congruence. eauto.
Qed.

(** A lease is granted iff no active [WorkspaceDelete] touches its workspaces. *)
Lemma lease_ref_conflict_None js r :
  lease_ref_conflict js r = None ↔
  ∀ id e, entries js !! id = Some e → entry_active e = true → je_job_type e = WorkspaceDelete →
    refs_touch (reference_workspace r) (je_references e) = false.
Proof.
  unfold lease_ref_conflict, lease_conflicts_with_existing_job.
  destruct (List.find _ (values (entries js))) eqn:E.
  - apply find_values_Some in E as (Hf & id & Hid). split; [done|]. intros H.
    apply andb_true_iff in Hf as [Ha Hf].
    case_bool_decide as T; cbn in Hf; [|done]. by rewrite (H id j Hid Ha T) in Hf.
  - unfold values in E. rewrite find_values_None in E. split; [|done]. intros _ id e Hid Ha T.
    specialize (E id e Hid). rewrite Ha in E. cbn in E. by rewrite bool_decide_eq_true_2 in E.
Qed.

Lemma lease_inv s refs r id :
  sys_inv s → id ∉ sys_guards s → try_acquire_lease refs (sys_reg s) = (r, Ok id) →
  sys_inv (mkSystem r (sys_handles s) ({[id]} ∪ sys_guards s) (sys_used s)).
Proof.
  intros [Hj Hh Hg Hu] Hnew. unfold try_acquire_lease.
  destruct (first_conflict _ refs) as [c|] eqn:F; [done|]. intros [= <- <-].
  rewrite first_conflict_None in F. split; cbn.
  - destruct Hj as [Ho He Hc Hx Hr]. split; [done|done|done| |done].
    intros i e w Hi Ha Ht Hw. destruct (Hx i e w Hi Ha Ht Hw) as [H1 H2]. split; [done|].
    cbn. intros l lrefs. rewrite lookup_insert_Some. intros [[_ <-]|[_ Hl]]; [|by eapply H2].
    apply not_true_iff_false. intros (rr & Hin & <-)%refs_touch_true.
    pose proof (proj1 (lease_ref_conflict_None _ _) (F rr Hin) i e Hi Ha Ht). congruence.
  - done.
  - intros l. rewrite elem_of_union, elem_of_singleton, lookup_insert_is_Some, Hg.
    destruct (decide (l = next_lease_id (jobs (sys_reg s)))); naive_solver.
  - done.
Qed.

Lemma lease_drop_inv s id :
  sys_inv s →
  sys_inv (mkSystem (release_lease id (sys_reg s)) (sys_handles s) (sys_guards s ∖ {[id]}) (sys_used s)).
Proof.
  intros [Hj Hh Hg Hu]. split; cbn; [|done| |done].
  - destruct Hj as [Ho He Hc Hx Hr]. split; [done|done|done| |done].
    intros i e w Hi Ha Ht Hw. destruct (Hx i e w Hi Ha Ht Hw) as [H1 H2]. split; [done|].
    intros l lrefs Hl. cbn in Hl. apply lookup_delete_Some in Hl as [_ Hl]. by eapply H2.
  - intros l. rewrite elem_of_difference, elem_of_singleton, lookup_delete_is_Some, Hg. naive_solver.
Qed.

Lemma subscribe_events_jobs id after s : jobs (fst (subscribe_events id after s)) = jobs s.
Proof. unfold subscribe_events. repeat case_match; done. Qed.

Lemma step_inv s s' : sys_inv s → step cfg s s' → sys_inv s'.
Proof.
  intros Hi Hs. inversion Hs as [? fresh ? ? ? ? ? ? Hf E|? fresh ? jt refs target ? ? Hf E
    |? ? ? id ? ? Hid E|? ? id msg Hid|? ? id ? Hid|? ? id reason Hid|? ? id Hid|? ? id Hid
    |? ? ? ? Hnew E|? ? ? ? E|? id Hid|? id ? ? ? E|? ?]; subst.
  - by eapply acquire_inv.
  - destruct (try_acquire_cases fresh now_str jt refs target (sys_reg s)) as [[_ E']|[_ (c & E')]];
      rewrite E' in E; [done|]. injection E as <- <-. apply sys_inv_jobs; [done|done|set_solver].
  - pose proof Hid as (e & He & Ha)%(si_handles _ Hi).
    destruct (update_progress_jobs _ _ _ _ _ _ e (si_jobs _ Hi) He Ha E) as (e' & ? & ? & ? & ?).
    by eapply live_update_inv.
  - pose proof Hid as (e & He & Ha)%(si_handles _ Hi).
    destruct (append_log_jobs now_str id msg _ e (si_jobs _ Hi) He Ha) as (e' & ? & ? & ? & ?).
    by eapply live_update_inv.
  - apply terminate_inv; [by apply sys_inv_eta|done|done].
  - apply terminate_inv; [|done|done].
    pose proof Hid as (e & He & Ha)%(si_handles _ Hi).
    destruct (append_log_jobs now_str id reason _ e (si_jobs _ Hi) He Ha) as (e' & ? & ? & ? & ?).
    by eapply live_update_inv.
  - apply terminate_inv; [by apply sys_inv_eta|done|done].
  - apply terminate_inv; [by apply sys_inv_eta|done|done].
  - by eapply lease_inv.
  - apply sys_inv_jobs; [done| |done]. revert E. unfold try_acquire_lease.
    destruct (first_conflict _ refs); [|done]. by intros [= <- _].
  - by apply lease_drop_inv.
  - apply sys_inv_jobs; [done| |done].
    match type of E with subscribe_events ?i ?a _ = _ =>
      pose proof (subscribe_events_jobs i a (sys_reg s)) as J end.
    by rewrite E in J.
  - by apply sys_inv_jobs.
Qed.

Lemma reachable_inv s : reachable cfg s → sys_inv s.
Proof.
  unfold reachable. intros H. pose proof System_new_inv as H0.
  induction H as [|? ? ? Hs _ IH]; [done|]. apply IH. by eapply step_inv.
Qed.

End Facts.

(** ** A concrete run

    One train job that logs, is subscribed to, logs again and succeeds. *)

Section Scenario.
#[local] Existing Instance text_uuid_lib.

Definition sc_bus : Broadcast RegistryEvent := ring_broadcast RegistryEvent.
#[local] Existing Instance sc_bus.

Definition sc_job : JobId := mkJobId "00000000-0000-4000-8000-00000000000a"%string.
Definition sc_ws : WorkspaceId := mkWorkspaceId "00000000-0000-4000-8000-00000000000b"%string.
Definition sc_cfg : JobRegistryCfg := JobRegistryCfg_default.

Definition sc_acquired : System :=
  mkSystem (fst (try_acquire sc_cfg sc_job "t0" Train [RefWorkspace sc_ws] None (sys_reg System_new)))
    ({[sc_job]} ∪ sys_handles System_new) (sys_guards System_new) ({[sc_job]} ∪ sys_used System_new).
Definition sc_logged : System :=
  mkSystem (append_log sc_cfg "t1" sc_job (bytes_of "epoch 1") (sys_reg sc_acquired))
    (sys_handles sc_acquired) (sys_guards sc_acquired) (sys_used sc_acquired).
Definition sc_subscription := subscribe_events sc_job 1 (sys_reg sc_logged).
Definition sc_subscribed : System :=
  mkSystem (fst sc_subscription) (sys_handles sc_logged) (sys_guards sc_logged) (sys_used sc_logged).
Definition sc_logged2 : System :=
  mkSystem (append_log sc_cfg "t2" sc_job (bytes_of "epoch 2") (sys_reg sc_subscribed))
    (sys_handles sc_subscribed) (sys_guards sc_subscribed) (sys_used sc_subscribed).
Definition sc_done : System :=
  mkSystem (JobHandle_succeed sc_cfg "t3" (mkJobHandle sc_job false) None (sys_reg sc_logged2))
    (sys_handles sc_logged2 ∖ {[sc_job]}) (sys_guards sc_logged2) (sys_used sc_logged2).

Lemma sc_reachable_acquired : reachable sc_cfg sc_acquired.
Proof.
  eapply rtc_l; [|apply rtc_refl].
  refine (step_acquire sc_cfg System_new sc_job "t0" Train [RefWorkspace sc_ws] None
    (fst (try_acquire sc_cfg sc_job "t0" Train [RefWorkspace sc_ws] None (sys_reg System_new))) sc_job _ _).
  - apply not_elem_of_empty.
  - apply injective_projections; [reflexivity|]. vm_compute. reflexivity.
Defined.

Lemma sc_reachable_logged : reachable sc_cfg sc_logged.
Proof.
  eapply rtc_r; [apply sc_reachable_acquired|].
  refine (step_log sc_cfg sc_acquired "t1" sc_job (bytes_of "epoch 1") _).
  apply elem_of_union_l, elem_of_singleton. reflexivity.
Defined.
End Scenario.

(** ** Properties *)

(** C7: The registry's safety in every reachable state, under every interleaving
    of admissions, job events, terminations, leases and subscriptions: each
    per-type cap bounds its active jobs; an active [WorkspaceDelete] excludes
    every other active job and every lease of its workspace; the history holds
    at most [max_recent_jobs] entries when that covers the caps; and each job's
    ring is bounded, consecutive up to [last_seq], and holds a terminal event
    exactly when the job is over, as its last event. *)
Theorem registry_safety `{U : UuidLib} `{B : !Broadcast RegistryEvent}
    `{HJ : !HashIter JobId JobEntry} `{HL : !HashIter Z (list JobReference)}
    (cfg : JobRegistryCfg) (s : System) (Hreach : reachable cfg s) :
  let js := jobs (sys_reg s) in
  (∀ jt, slot_count cfg jt (entries js) ≤ fst (job_slot cfg jt)) ∧
  exclusive js ∧
  (caps_total cfg ≤ max_recent_jobs cfg → size (entries js) ≤ max_recent_jobs cfg) ∧
  ∀ id e, entries js !! id = Some e →
    List.length (je_ring e) ≤ Nat.max 1 (max_job_event_ring cfg) ∧
    ring_seqs (je_last_seq e) (je_ring e) ∧ ring_states e ∧
    (entry_active e = false → je_references e = []).
Proof.
  destruct (reachable_inv cfg s Hreach) as [[Ho He Hc Hx Hr] _ _ _]. split_and!; [done..|].
  intros id e Hid. destruct (He id e Hid) as [_ K2 [_ _ K3 _ K4] K5]. done.
Qed.

(** No slot or lease leaks.  In every reachable state a job is active exactly
    while its [JobHandle] lives and a lease exists exactly while its guard
    lives; so once all workers are done (succeeded, failed, cancelled or merely
    dropped their handle), every job type with a positive cap is admitted, as
    [Running] with an empty ring. *)
Theorem registry_no_leak `{U : UuidLib} `{B : !Broadcast RegistryEvent}
    `{HJ : !HashIter JobId JobEntry} `{HL : !HashIter Z (list JobReference)}
    (cfg : JobRegistryCfg) (s : System) (Hreach : reachable cfg s) :
  (∀ id, id ∈ sys_handles s ↔
     ∃ e, entries (jobs (sys_reg s)) !! id = Some e ∧ entry_active e = true) ∧
  (∀ l, l ∈ sys_guards s ↔ is_Some (leases (jobs (sys_reg s)) !! l)) ∧
  (sys_handles s = ∅ → sys_guards s = ∅ →
   ∀ fresh now_str jt refs target, fresh ∉ sys_used s → 0 < fst (job_slot cfg jt) →
   ∃ r, try_acquire cfg fresh now_str jt refs target (sys_reg s) = (r, Ok fresh) ∧
        entries (jobs r) !! fresh = Some (new_entry fresh jt refs target now_str)).
Proof.
  pose proof (reachable_inv cfg s Hreach) as Hi. destruct Hi as [Hj Hh Hg Hu].
  split_and!; [done..|]. intros Eh Eg fresh now_str jt refs target Hf Hcap.
  assert (Hnoact : ∀ id e, entries (jobs (sys_reg s)) !! id = Some e → entry_active e = false).
  { intros id e He. apply not_true_iff_false. intros Ha.
    assert (id ∈ sys_handles s) as Hin by (apply Hh; eauto). rewrite Eh in Hin. set_solver. }
  assert (Hnolease : ∀ l refs, leases (jobs (sys_reg s)) !! l = Some refs → False).
  { intros l x Hl. assert (l ∈ sys_guards s) as Hin by (apply Hg; eauto). rewrite Eg in Hin. set_solver. }
  destruct (try_acquire_cases cfg fresh now_str jt refs target (sys_reg s)) as [[_ E]|[Hn _]].
  - eexists. split; [done|]. cbn. set (js1 := mkJobsState _ _ _ _).
    assert (Hnone : entries (jobs (sys_reg s)) !! fresh = None).
    { apply eq_None_not_Some. intros Hs. by apply Hf, Hu. }
    assert (Ho : order_ok js1) by (apply order_ok_push; [apply Hj|done]).
    destruct (prune_recent_spec cfg (max_recent_jobs cfg) js1 Ho) as [[L N S A O C] _].
    apply A; [apply lookup_insert_eq|done].
  - destruct Hn. split.
    + enough (slot_count cfg jt (entries (jobs (sys_reg s))) = 0) by lia.
      unfold slot_count, count_values. 
      destruct (List.filter _ _) as [|e l] eqn:F; [done|].
      assert (Hin : In e (List.filter (in_slot (snd (job_slot cfg jt))) (map snd (hm_iter (entries (jobs (sys_reg s)))))))
        by (rewrite F; by left).
      apply filter_In in Hin as [Hin Hs]. apply list_elem_of_In, elem_of_iter_values in Hin as [id Hid].
      unfold in_slot in Hs. rewrite (Hnoact id e Hid) in Hs. done.
    + intros r _ [(id & e & He & Ha & _)|(_ & l & x & Hl & _)]; [|by eapply Hnolease].
      rewrite (Hnoact id e He) in Ha. done.
Qed.

(** Admission is exact.  [try_acquire] succeeds iff the type's slot has room
    and no reference is blocked (a same-workspace active job when either side
    is a [WorkspaceDelete], or a same-workspace lease for a [WorkspaceDelete]);
    on success the job is [Running] at the front of the order with its
    references held; a refusal leaves every job, lease and event untouched. *)
Theorem try_acquire_exact `{U : UuidLib} `{B : !Broadcast RegistryEvent}
    `{HJ : !HashIter JobId JobEntry} `{HL : !HashIter Z (list JobReference)}
    (cfg : JobRegistryCfg) (fresh : JobId) (now_str : string) (jt : JobType)
    (refs : list JobReference) (target : option AssetPath) (s : JobRegistry) :
  let '(r, out) := try_acquire cfg fresh now_str jt refs target s in
  match out with
  | Ok id => admissible cfg (jobs s) jt refs ∧ id = fresh ∧ broadcast r = broadcast s ∧
      jobs r = prune_recent (max_recent_jobs cfg)
        (mkJobsState (id :: order (jobs s))
           (<[id := new_entry id jt refs target now_str]> (entries (jobs s)))
           (leases (jobs s)) (next_lease_id (jobs s)))
  | Err c => ¬ admissible cfg (jobs s) jt refs ∧ jobs r = jobs s ∧ broadcast r = broadcast s ∧
      (c = AnotherTrainRunning ↔ jt = Train ∧ fst (job_slot cfg jt) ≤ slot_count cfg jt (entries (jobs s)))
  end.
Proof.
  destruct (try_acquire_cases cfg fresh now_str jt refs target s) as [[Ha E]|[Hn (c & E)]];
    rewrite E; [done|]. split_and!; [done..|].
  revert E. unfold try_acquire, slot_count, count_values.
  destruct (job_slot cfg jt) as [cap p] eqn:J. cbn [fst snd]. fold (values (entries (jobs s))).
  destruct (Nat.leb_spec cap (List.length (List.filter (in_slot p) (values (entries (jobs s)))))) as [Hf|Hf].
  - intros [= <-]. destruct jt; repeat case_match; naive_solver.
  - destruct (first_conflict _ refs) as [c'|] eqn:F; [|done]. intros [= ->].
    split; [|intros [_ ?]; lia]. intros ->. exfalso. clear -F.
    induction refs as [|r refs IH]; cbn in F; [done|].
    destruct (ref_conflict _ _ _ r) eqn:R; [|auto]. injection F as ->.
    unfold ref_conflict in R. repeat case_match; done.
Qed.

(** The log-line cap.  A line within [max_log_line_bytes] is kept; a longer
    one becomes a prefix cut at a character boundary plus the marker, so valid
    UTF-8 stays valid and, for every cap of at least 17 bytes, the stored line
    fits the cap and keeps all but at most 19 bytes of it. *)
Theorem cap_log_line_bounded (max : nat) (msg : list ascii)
    (Hmsg : utf8_valid msg) (Hmax : 17 ≤ max) :
  let '(out, truncated) := cap_log_line max msg in
  utf8_valid out ∧ List.length out ≤ max ∧
  (truncated = false → out = msg ∧ List.length msg ≤ max) ∧
  (truncated = true → max < List.length msg ∧ max ≤ List.length out + 3 ∧
     ∃ p, p `prefix_of` msg ∧ out = p ++ log_suffix).
Proof.
  unfold cap_log_line. destruct (Nat.ltb_spec max (List.length msg)) as [Hlt|Hle]; [|by split_and!].
  change (List.length log_suffix) with 16. rewrite Nat.max_l by lia.
  destruct (snap_boundary_cut msg (max - 16) Hmsg ltac:(lia)) as (H1 & H2 & H3).
  assert (Hl : List.length (take (snap_boundary msg (max - 16)) msg ++ log_suffix) =
    List.length (take (snap_boundary msg (max - 16)) msg) + 16) by (rewrite length_app; done).
  split_and!; [|lia|done|].
  - apply utf8_valid_app; [done|]. by apply utf8_valid_ascii.
  - intros _. split_and!; [done|lia|]. eexists. split; [apply prefix_take|done].
Qed.

Lemma cap_log_line_bounded_witness :
  utf8_valid (bytes_of "a training log line that is too long") ∧
  List.length (fst (cap_log_line 20 (bytes_of "a training log line that is too long"))) ≤ 20.
Proof.
  assert (Hv : utf8_valid (bytes_of "a training log line that is too long"))
    by (apply utf8_valid_ascii; vm_compute; reflexivity).
  split; [exact Hv|].
  exact (proj1 (proj2 (cap_log_line_bounded 20 _ Hv ltac:(lia)))).
Defined.

(** Below 17 bytes the marker alone exceeds the cap. *)
Lemma cap_log_line_small_cap :
  List.length (fst (cap_log_line 4 (bytes_of "hello"))) = 17.
Proof. vm_compute. reflexivity. Qed.

(** The default throttle is a quarter of a second. *)
Lemma default_throttle : throttle_ns (progress_throttle_hz JobRegistryCfg_default) = Some 250000000%Z.
Proof. vm_compute. reflexivity. Qed.

Section Witnesses.
#[local] Existing Instance text_uuid_lib.
#[local] Existing Instance sc_bus.

Lemma registry_safety_witness :
  reachable sc_cfg sc_logged ∧ slot_count sc_cfg Train (entries (jobs (sys_reg sc_logged))) ≤ 1 ∧
  size (entries (jobs (sys_reg sc_logged))) ≤ 4.
Proof.
  destruct (registry_safety sc_cfg sc_logged sc_reachable_logged) as (Hc & _ & Hr & _).
  split; [exact sc_reachable_logged|]. split; [exact (Hc Train)|]. apply Hr. vm_compute. lia.
Defined.

Lemma registry_no_leak_witness :
  ∃ e, entries (jobs (sys_reg sc_logged)) !! sc_job = Some e ∧ entry_active e = true.
Proof.
  apply (proj1 (registry_no_leak sc_cfg sc_logged sc_reachable_logged)).
  apply elem_of_union_l, elem_of_singleton. reflexivity.
Defined.
End Witnesses.
