(* ===== verification/JobStreams.v ===== *)
(** * Event streams of the job registry

    Between a subscription and any later state, the events of the job on the
    broadcast log continue the ring's sequence numbers without gap or
    duplicate, and end at the terminal event; an [EventStream] delivers the
    replay followed by exactly those events. *)

From stdpp Require Import sorting fin_maps.
From S2P Require Import Prelude Ids AssetPath Common Workspace Broadcast JobRegistry JobRegistryFacts.

Section Streams.
Context `{U : UuidLib} `{B : !Broadcast RegistryEvent} `{BL : !BroadcastLaws RegistryEvent}.
Context `{HJ : !HashIter JobId JobEntry} `{HL : !HashIter Z (list JobReference)}.
Variable cfg : JobRegistryCfg.

(** ** The events of one job on the broadcast log *)

Definition of_job (id : JobId) (re : RegistryEvent) : bool := bool_decide (re_job_id re = id).

Definition job_log (id : JobId) (tail : list RegistryEvent) : list JobEvent :=
  map re_event (List.filter (of_job id) tail).

Lemma job_log_app id xs ys : job_log id (xs ++ ys) = job_log id xs ++ job_log id ys.
Proof. unfold job_log. by rewrite List.filter_app, map_app. Qed.

Lemma job_log_cons id re tail :
  job_log id (re :: tail) =
    (if bool_decide (re_job_id re = id) then [re_event re] else []) ++ job_log id tail.
Proof. unfold job_log, of_job. cbn. by case_bool_decide. Qed.

Lemma job_log_one id id' ev :
  job_log id [mkRegistryEvent id' ev] = if bool_decide (id' = id) then [ev] else [].
Proof. unfold job_log, of_job. cbn. by case_bool_decide. Qed.

Definition non_terminal (ev : JobEvent) : Prop := ev_state ev = None.

(** A log that ends the job: its terminal event is the last one. *)
Definition closes (log : list JobEvent) : Prop :=
  ∃ l ev, log = l ++ [ev] ∧ is_terminal_event ev ∧ Forall non_terminal l.

(** ** One emission *)

(** The shape of the three emitters on a live job while a receiver listens. *)
Definition emission (id : JobId) (r r' : JobRegistry) : Prop :=
  ∃ e e' ev, entries (jobs r) !! id = Some e ∧ entry_active e = true ∧
    sent (broadcast r') = sent (broadcast r) ++ [mkRegistryEvent id ev] ∧
    receiver_count (broadcast r') = receiver_count (broadcast r) ∧
    ev_seq ev = sat_add64 (je_last_seq e) 1 ∧ je_last_seq e' = ev_seq ev ∧
    (if entry_active e' then ev_state ev = None else is_Some (ev_state ev)) ∧
    entries (jobs r') ⊆ <[id := e']> (entries (jobs r)) ∧
    (∀ i f, <[id := e']> (entries (jobs r)) !! i = Some f → entry_active f = true →
       entries (jobs r') !! i = Some f).

(** No event, and the job [id]'s entry keeps its counter and its liveness
    (or is dropped from the window when terminal). *)
Definition quiet (id : JobId) (r r' : JobRegistry) : Prop :=
  sent (broadcast r') = sent (broadcast r) ∧
  (∀ e', entries (jobs r') !! id = Some e' →
     ∃ e, entries (jobs r) !! id = Some e ∧ je_last_seq e = je_last_seq e' ∧
          entry_active e = entry_active e') ∧
  (∀ e, entries (jobs r) !! id = Some e → entry_active e = true →
     ∃ e', entries (jobs r') !! id = Some e' ∧ entry_active e' = true).

Lemma send_log id ev s :
  0 < receiver_count (broadcast s) →
  sent (broadcast (send_or_count_drop id ev s)) = sent (broadcast s) ++ [mkRegistryEvent id ev] ∧
  receiver_count (broadcast (send_or_count_drop id ev s)) = receiver_count (broadcast s).
Proof.
  intros Hrc. unfold send_or_count_drop. destruct (Nat.eqb_spec (receiver_count (broadcast s)) 0); [lia|].
  destruct (send_law (mkRegistryEvent id ev) (broadcast s) Hrc) as (c' & -> & Hs & Hc). done.
Qed.

(** Setting a live entry, then sending. *)
Lemma emission_live id r s e e1 st p msg now_str c e' ev c' :
  entries (jobs r) !! id = Some e → entry_active e = true →
  broadcast s = broadcast r → jobs s = set_entry id e' (jobs r) →
  je_last_seq e1 = je_last_seq e → entry_active e1 = true → st = None →
  emit cfg e1 now_str st p msg c = (e', ev, c') →
  0 < receiver_count (broadcast r) →
  emission id r (send_or_count_drop id ev s).
Proof.
  intros He Ha Hb Hj Hl Ha1 -> E Hrc.
  pose proof (emit_spec cfg e1 now_str None p msg c) as S. rewrite E in S.
  destruct S as (Hs & Hn & Hl' & Hst & _).
  assert (Ha' : entry_active e' = true) by (unfold entry_active in *; congruence).
  exists e, e', ev. rewrite <-Hb in *. destruct (send_log id ev s Hrc) as [H1 H2].
  rewrite send_or_count_drop_jobs, Hj, Ha'. cbn. split_and!; try done; congruence.
Qed.

Lemma update_progress_stream now now_str id p r r' e :
  entries (jobs r) !! id = Some e → entry_active e = true → 0 < receiver_count (broadcast r) →
  update_progress cfg now now_str id p r = Some r' →
  emission id r r' ∨ (quiet id r r' ∧ receiver_count (broadcast r') = receiver_count (broadcast r)) ∧
    ∃ e', entry_active e' = true ∧ jobs r' = set_entry id e' (jobs r).
Proof.
  intros He Ha Hrc. unfold update_progress. destruct (throttle_ns _) as [th|]; [|done].
  rewrite He. cbn [je_last_progress_at]. intros [= <-].
  destruct (match je_last_progress_at e with Some _ => _ | None => _ end).
  - right. split; [|by eexists; split; [|done]].
    split; [|done]. split_and!; [done|..]; cbn.
    + intros e' Hl. rewrite lookup_insert_eq in Hl. injection Hl as <-. eauto.
    + intros e0 _ _. rewrite lookup_insert_eq. eauto.
  - left. set (e1 := mkJobEntry _ _ _ _ _ _ _ _ _ _ (Some now)).
    destruct (emit cfg e1 now_str None (Some p) None (counters r)) as [[e' ev] c] eqn:E.
    by eapply (emission_live id r _ e e1).
Qed.

Lemma append_log_stream now_str id msg r e :
  entries (jobs r) !! id = Some e → entry_active e = true → 0 < receiver_count (broadcast r) →
  emission id r (append_log cfg now_str id msg r).
Proof.
  intros He Ha Hrc. unfold append_log. destruct (cap_log_line _ msg) as [m tr].
  set (s1 := if tr then _ else r). assert (Hj : jobs s1 = jobs r) by (by destruct tr).
  assert (Hb : broadcast s1 = broadcast r) by (by destruct tr).
  rewrite Hj, He.
  destruct (emit cfg e now_str None None (Some m) (counters s1)) as [[e' ev] c] eqn:E.
  by eapply (emission_live id r _ e e).
Qed.

Lemma terminate_stream now_str id state res r e :
  jobs_inv cfg (jobs r) → entries (jobs r) !! id = Some e → entry_active e = true →
  JobState_is_active state = false → 0 < receiver_count (broadcast r) →
  emission id r (terminate cfg now_str id state res r).
Proof.
  intros Hi He Ha Hs Hrc. unfold terminate. rewrite He, Ha. cbn [negb].
  fold (terminated_entry e state res).
  destruct (emit cfg (terminated_entry e state res) now_str (Some state)
              (je_progress (terminated_entry e state res)) None (counters r)) as [[e' ev] c] eqn:E.
  pose proof (ji_entries _ _ Hi id e He) as Hok.
  destruct (emit_terminal_ok cfg id _ _ _ _ _ _ _ _ _ Hok Ha Hs E) as (Hok' & Ha' & Hs').
  pose proof (emit_spec cfg (terminated_entry e state res) now_str (Some state)
    (je_progress (terminated_entry e state res)) None (counters r)) as S. rewrite E in S.
  destruct S as (Hseq & Hn & Hl & _ & _ & Ht & Hr & _).
  assert (Hle : entry_le e e').
  { split_and!; [done|congruence|]. intros w. by rewrite Hr. }
  destruct (set_entry_inv cfg _ id e e' Hi He Hle Hok') as (H1 & _).
  destruct (prune_recent_spec cfg (max_recent_jobs cfg) _ H1) as [[L N S A O C] _].
  set (s := mkJobRegistry _ _ _). destruct (send_log id ev s Hrc) as [G1 G2].
  exists e, e', ev. rewrite send_or_count_drop_jobs, Ha', Hn.
  by split_and!.
Qed.

(** ** Following one job *)

(** [follow id e0 base r]: since the log was [base] and the entry of [id] was
    [e0], the job's events are consecutive from [e0]'s counter; the job is
    still live, or its terminal event closed the log. *)
Definition follow (id : JobId) (e0 : JobEntry) (base : list RegistryEvent) (r : JobRegistry) : Prop :=
  ∃ tail, sent (broadcast r) = base ++ tail ∧
    let log := job_log id tail in
    ((je_last_seq e0 + Z.of_nat (List.length log) ≤ u64_max)%Z →
       map ev_seq log = seqZ (je_last_seq e0 + 1) (Z.of_nat (List.length log)) ∧
       ∀ e, entries (jobs r) !! id = Some e →
         je_last_seq e = (je_last_seq e0 + Z.of_nat (List.length log))%Z) ∧
    ((entry_active e0 = true ∧
      ∃ e, entries (jobs r) !! id = Some e ∧ entry_active e = true ∧ Forall non_terminal log) ∨
     ((∀ e, entries (jobs r) !! id = Some e → entry_active e = false) ∧
      if entry_active e0 then closes log else log = [])).

Lemma follow_start id e0 r :
  entries (jobs r) !! id = Some e0 → follow id e0 (sent (broadcast r)) r.
Proof.
  intros He. exists []. rewrite app_nil_r. split; [done|]. cbn. split.
  - intros _. split; [done|]. intros e He'. assert (e = e0) as -> by congruence. lia.
  - destruct (entry_active e0) eqn:Ha; [left|right]; [split; [done|by exists e0]|]. split; [|done].
    intros e He'. congruence.
Qed.

Lemma follow_quiet id e0 base r r' : follow id e0 base r → quiet id r r' → follow id e0 base r'.
Proof.
  intros (tail & Hs & Hseq & Hph) (Qs & Qb & Qf). exists tail. rewrite Qs. split; [done|].
  cbv zeta. split.
  - intros Hle. destruct (Hseq Hle) as [Hm Hl]. split; [done|].
    intros e' He'. destruct (Qb e' He') as (e & He & <- & _). by apply Hl.
  - destruct Hph as [(Ha0 & e & He & Ha & Hn)|(Hd & Hc)].
    + left. split; [done|]. destruct (Qf e He Ha) as (e' & ? & ?). eauto.
    + right. split; [|done]. intros e' He'. destruct (Qb e' He') as (e & He & _ & <-). by apply Hd.
Qed.

(** An emission of the followed job extends the log by its next event. *)
Lemma follow_emission_self id e0 base r r' :
  (je_last_seq e0 ≤ u64_max)%Z →
  follow id e0 base r → emission id r r' → follow id e0 base r'.
Proof.
  intros Hmax (tail & Hs & Hseq & Hph) (e & e' & ev & He & Ha & Hsent & _ & Hev & Hl & Hst & Hsub & Hact).
  exists (tail ++ [mkRegistryEvent id ev]). rewrite Hsent, Hs, app_assoc. split; [done|].
  cbv zeta in *. rewrite job_log_app, job_log_one, bool_decide_eq_true_2 by done.
  set (log := job_log id tail) in *. rewrite length_app. cbn [List.length]. split.
  - intros Hle. destruct Hseq as [Hm Hlast]; [lia|]. specialize (Hlast e He).
    rewrite sat_add64_exact in Hev by lia. split.
    + rewrite map_app, Hm. cbn [map].
      replace (ev_seq ev) with (je_last_seq e0 + 1 + Z.of_nat (List.length log))%Z by lia.
      rewrite seqZ_snoc by lia. f_equal. lia.
    + intros f Hf. pose proof (lookup_weaken _ _ _ _ Hf Hsub) as Hf'.
      rewrite lookup_insert_eq in Hf'. injection Hf' as <-. lia.
  - destruct Hph as [(Ha0 & e1 & He1 & Ha1 & Hn)|(Hd & _)]; [|rewrite (Hd e He) in Ha; done].
    destruct (entry_active e') eqn:Ha'; [left|right].
    + split; [done|]. exists e'. split_and!; [|done|].
      * apply Hact; [apply lookup_insert_eq|done].
      * apply Forall_app. split; [done|]. by apply Forall_singleton.
    + split; [|rewrite Ha0; by exists log, ev].
      intros f Hf. pose proof (lookup_weaken _ _ _ _ Hf Hsub) as Hf'.
      rewrite lookup_insert_eq in Hf'. congruence.
Qed.

Lemma follow_emission_other id id' e0 base r r' :
  id' ≠ id → follow id e0 base r → emission id' r r' → follow id e0 base r'.
Proof.
  intros Hne (tail & Hs & Hseq & Hph) (e & e' & ev & He & Ha & Hsent & _ & Hev & Hl & Hst & Hsub & Hact).
  exists (tail ++ [mkRegistryEvent id' ev]). rewrite Hsent, Hs, app_assoc. split; [done|].
  cbv zeta in *. rewrite job_log_app, job_log_one, bool_decide_eq_false_2, app_nil_r by done.
  assert (Hback : ∀ f, entries (jobs r') !! id = Some f → entries (jobs r) !! id = Some f).
  { intros f Hf. pose proof (lookup_weaken _ _ _ _ Hf Hsub) as Hf'.
    by rewrite lookup_insert_ne in Hf'. }
  split.
  - intros Hle. destruct (Hseq Hle) as [Hm Hlast]. split; [done|]. intros f Hf. by apply Hlast, Hback.
  - destruct Hph as [(Ha0 & e1 & He1 & Ha1 & Hn)|(Hd & Hc)]; [left|right].
    + split; [done|]. exists e1. split; [|done]. apply Hact; [|done].
      by rewrite lookup_insert_ne.
    + split; [|done]. intros f Hf. by apply Hd, Hback.
Qed.

Lemma follow_emission id id' e0 base r r' :
  (je_last_seq e0 ≤ u64_max)%Z →
  follow id e0 base r → emission id' r r' → follow id e0 base r'.
Proof.
  intros. destruct (decide (id' = id)) as [->|]; [by eapply follow_emission_self|].
  by eapply follow_emission_other.
Qed.

Lemma quiet_jobs id r r' :
  sent (broadcast r') = sent (broadcast r) →
  entries (jobs r') !! id = entries (jobs r) !! id → quiet id r r'.
Proof.
  intros Hs Hj. split_and!; [done|..].
  - intros e'. rewrite Hj. eauto.
  - intros e. rewrite Hj. eauto.
Qed.

(** ** Steps while a receiver listens *)

Definition alive_step (s s' : System) : Prop :=
  0 < receiver_count (broadcast (sys_reg s)) ∧ step cfg s s'.

Record following (id : JobId) (e0 : JobEntry) (base : list RegistryEvent) (s : System) : Prop := {
  fo_inv : sys_inv cfg s;
  fo_used : id ∈ sys_used s;
  fo_follow : follow id e0 base (sys_reg s);
}.

Lemma acquire_quiet id fresh now_str jt refs target r :
  order_ok (jobs r) → entries (jobs r) !! fresh = None → fresh ≠ id →
  quiet id r (fst (try_acquire cfg fresh now_str jt refs target r)).
Proof.
  intros Ho Hnone Hne.
  destruct (try_acquire_cases cfg fresh now_str jt refs target r) as [[_ ->]|[_ (c & ->)]]; cbn [fst].
  2:{ by apply quiet_jobs. }
  set (js1 := mkJobsState _ _ _ _).
  assert (Ho1 : order_ok js1).
  { destruct Ho as [Hnd Hdom]. split; cbn.
    - apply NoDup_cons_2; [|done]. rewrite Hdom, Hnone. by intros [? ?].
    - intros i. rewrite elem_of_cons, lookup_insert_is_Some, Hdom.
      destruct (decide (fresh = i)); naive_solver. }
  destruct (prune_recent_spec cfg (max_recent_jobs cfg) js1 Ho1) as [[L N S A O C] _].
  split_and!; [done|..]; cbn.
  - intros e' He'. pose proof (lookup_weaken _ _ _ _ He' S) as Hf. cbn in Hf.
    rewrite lookup_insert_ne in Hf by done. eauto.
  - intros e He Ha. exists e. split; [|done]. apply A; [|done]. cbn.
    by rewrite lookup_insert_ne.
Qed.

Lemma following_step id e0 base s s' :
  (je_last_seq e0 ≤ u64_max)%Z →
  following id e0 base s → alive_step s s' → following id e0 base s'.
Proof.
  intros Hmax [Hi Hu Hf] [Hrc Hs]. pose proof (step_inv cfg _ _ Hi Hs) as Hi'.
  split; [done| |].
  { inversion Hs; subst; cbn; try done; apply elem_of_union; by right. }
  assert (Hlive : ∀ i, i ∈ sys_handles s → ∃ e, entries (jobs (sys_reg s)) !! i = Some e ∧
    entry_active e = true) by (intros i; apply (si_handles _ _ Hi)).
  assert (Hfresh : ∀ fresh, fresh ∉ sys_used s → fresh ≠ id ∧ entries (jobs (sys_reg s)) !! fresh = None).
  { intros fresh Hn. split; [congruence|]. apply eq_None_not_Some. intros Hx.
    by apply Hn, (si_used _ _ Hi). }
  pose proof (ji_order _ _ (si_jobs _ _ Hi)) as Ho.
  inversion Hs as [? fresh ns jt refs tgt ? ? Hn E|? fresh ns jt refs tgt ? ? Hn E
    |? ? ? i ? ? Hid E|? ? i msg Hid|? ns i res Hid|? ns i reason Hid|? ns i Hid|? ns i Hid
    |? ? ? ? Hnew E|? ? ? ? E|? i Hid|? i ? ? ? E|? ?]; subst; cbn [sys_reg].
  - destruct (Hfresh _ Hn). eapply follow_quiet; [done|].
    pose proof (acquire_quiet id fresh ns jt refs tgt (sys_reg s)) as Q. rewrite E in Q. auto.
  - destruct (Hfresh _ Hn). eapply follow_quiet; [done|].
    pose proof (acquire_quiet id fresh ns jt refs tgt (sys_reg s)) as Q. rewrite E in Q. auto.
  - destruct (Hlive _ Hid) as (e & He & Ha).
    destruct (update_progress_stream _ _ _ _ _ _ e He Ha Hrc E) as [Em|[[Q _] (e' & Ha' & Hj)]].
    + by eapply follow_emission.
    + destruct (decide (i = id)) as [->|]; [by eapply follow_quiet|].
      eapply follow_quiet; [done|]. destruct Q as [Q _]. apply quiet_jobs; [done|].
      rewrite Hj. cbn. by rewrite lookup_insert_ne.
  - destruct (Hlive _ Hid) as (e & He & Ha).
    eapply follow_emission; [done..|]. by eapply append_log_stream.
  - destruct (Hlive _ Hid) as (e & He & Ha).
    eapply follow_emission; [done..|]. eapply terminate_stream; [apply Hi|done..].
  - destruct (Hlive _ Hid) as (e & He & Ha).
    destruct (append_log_jobs cfg ns i reason _ e (si_jobs _ _ Hi) He Ha) as (e' & Hj & Hle & Hok & Ha').
    pose proof (append_log_stream ns i reason _ e He Ha Hrc) as Em.
    assert (Hrc' : 0 < receiver_count (broadcast (append_log cfg ns i reason (sys_reg s)))).
    { destruct Em as (? & ? & ? & _ & _ & _ & -> & _). done. }
    eapply follow_emission; [done|by eapply follow_emission|].
    eapply (terminate_stream ns i Failed None _ e').
    + rewrite Hj. by eapply set_entry_jobs_inv; [apply Hi|..].
    + rewrite Hj. cbn. apply lookup_insert_eq.
    + done.
    + done.
    + done.
  - destruct (Hlive _ Hid) as (e & He & Ha).
    eapply follow_emission; [done..|]. eapply terminate_stream; [apply Hi|done..].
  - destruct (Hlive _ Hid) as (e & He & Ha).
    eapply follow_emission; [done..|]. eapply terminate_stream; [apply Hi|done..].
  - eapply follow_quiet; [done|]. revert E. unfold try_acquire_lease.
    destruct (first_conflict _ refs); intros [= <- <-]. by apply quiet_jobs.
  - eapply follow_quiet; [done|]. revert E. unfold try_acquire_lease.
    destruct (first_conflict _ refs); intros [= <- <-]. by apply quiet_jobs.
  - eapply follow_quiet; [done|]. by apply quiet_jobs.
  - eapply follow_quiet; [done|]. revert E. unfold subscribe_events.
    destruct (entries (jobs (sys_reg s)) !! i) as [e|]; [destruct ((0 <? after)%Z && _)|].
    + intros [= <- <-]. by apply quiet_jobs.
    + destruct (subscribe (broadcast (sys_reg s))) as [c live] eqn:Es. intros [= <- <-].
      apply quiet_jobs; [|done]. cbn. pose proof (subscribe_law (broadcast (sys_reg s))) as [L _].
      by rewrite Es in L.
    + destruct (subscribe (broadcast (sys_reg s))) as [c live] eqn:Es. intros [= <- <-].
      apply quiet_jobs; [|done]. cbn. pose proof (subscribe_law (broadcast (sys_reg s))) as [L _].
      by rewrite Es in L.
  - eapply follow_quiet; [done|]. apply quiet_jobs; [|done]. apply unsubscribe_law.
Qed.

Lemma following_steps id e0 base s s' :
  (je_last_seq e0 ≤ u64_max)%Z →
  following id e0 base s → rtc alive_step s s' → following id e0 base s'.
Proof. intros Hm Hf Hr. induction Hr; [done|]. by eauto using following_step. Qed.

(** ** The replay *)

Lemma filter_seqs (ring : list JobEvent) a k :
  map ev_seq ring = seqZ a (Z.of_nat (List.length ring)) →
  (a ≤ k + 1 ≤ a + Z.of_nat (List.length ring))%Z →
  map ev_seq (List.filter (λ ev, k <? ev_seq ev)%Z ring) =
    seqZ (k + 1) (a + Z.of_nat (List.length ring) - k - 1) ∧
  Z.of_nat (List.length (List.filter (λ ev, k <? ev_seq ev)%Z ring)) =
    (a + Z.of_nat (List.length ring) - k - 1)%Z.
Proof.
  revert a. induction ring as [|ev ring IH]; intros a Hm Hk; cbn [List.length map List.filter] in *.
  { replace (a + Z.of_nat 0 - k - 1)%Z with 0%Z by lia. done. }
  rewrite Nat2Z.inj_succ, seqZ_cons in Hm by lia. injection Hm as Hev Hm.
  destruct (Z.ltb_spec k (ev_seq ev)) as [Hlt|Hge].
  - assert (k + 1 = a)%Z as Ha by lia. cbn [map List.length].
    assert (Hall : List.filter (λ ev, k <? ev_seq ev)%Z ring = ring).
    { clear IH. assert (Hgt : ∀ x, x ∈ map ev_seq ring → (k < x)%Z).
      { intros x. rewrite Hm, elem_of_seqZ. lia. }
      clear Hm Hk. induction ring as [|x ring IHr]; [done|]. cbn.
      destruct (Z.ltb_spec k (ev_seq x)) as [_|Hx].
      - f_equal. apply IHr. intros y Hy. apply Hgt. by right.
      - specialize (Hgt (ev_seq x)). cbn in Hgt. specialize (Hgt (list_elem_of_here _ _)). lia. }
    rewrite Hall, Hm, Hev. split; [|lia]. rewrite (seqZ_cons (k + 1)) by lia. f_equal; [lia|f_equal; lia].
  - destruct (IH (Z.succ a)) as [H1 H2].
    + rewrite Hm. f_equal. lia.
    + lia.
    + rewrite H1. split; [f_equal; lia|lia].
Qed.

(** A granted subscription to a known job with a cursor inside the ring
    replays the ring's events after the cursor, up to the latest. *)
Lemma subscribe_replay id after r r1 st e :
  entry_ok cfg id e → entries (jobs r) !! id = Some e →
  (je_last_seq e < u64_max)%Z → (0 ≤ after)%Z →
  (0 < after ∨ je_last_seq e = Z.of_nat (List.length (je_ring e)))%Z →
  subscribe_events id after r = (r1, Ok st) →
  map ev_seq (es_replay st) = seqZ (after + 1) (je_last_seq e - after) ∧
  Z.of_nat (List.length (es_replay st)) = (je_last_seq e - after)%Z ∧
  es_job_id st = id ∧ jobs r1 = jobs r ∧ sent (broadcast r1) = sent (broadcast r) ∧
  cursor (es_live st) = List.length (sent (broadcast r)) ∧
  es_terminal_seen st = negb (entry_active e).
Proof.
  intros [_ _ [Hlast Hfit Hlen Hne Hseqs] _] He Hsat Hafter Hcase. specialize (Hfit Hsat). specialize (Hseqs Hsat).
  unfold subscribe_events. rewrite He.
  set (oldest := match head (je_ring e) with Some ev => ev_seq ev | None => 0%Z end).
  assert (Hold : je_ring e ≠ [] → oldest = (je_last_seq e - Z.of_nat (List.length (je_ring e)) + 1)%Z).
  { intros Hn0. unfold oldest. destruct (je_ring e) as [|ev ring]; [done|]. cbn [map List.length head] in *.
    rewrite Nat2Z.inj_succ, seqZ_cons in Hseqs by lia. injection Hseqs as Hev _. rewrite Hev. lia. }
  assert (Hold0 : je_ring e = [] → oldest = 0%Z) by (by unfold oldest; intros ->).
  destruct ((0 <? after) && _)%Z eqn:G; [done|].
  destruct (subscribe (broadcast r)) as [c live] eqn:Es. intros [= <- <-]. cbn.
  pose proof (subscribe_law (broadcast r)) as (L1 & L2 & L3). rewrite Es in L1, L2, L3. cbn in *.
  unfold sat_sub in G.
  assert (Hbounds : (je_last_seq e - Z.of_nat (List.length (je_ring e)) ≤ after ≤ je_last_seq e)%Z).
  { destruct (je_ring e) as [|ev ring]; [|specialize (Hold ltac:(done)); lia].
    assert (¬ 0 < je_last_seq e)%Z by (intros ?; by apply Hne). cbn [List.length] in *. lia. }
  destruct (filter_seqs (je_ring e) (je_last_seq e - Z.of_nat (List.length (je_ring e)) + 1) after Hseqs
    ltac:(lia)) as [F1 F2].
  rewrite F1, F2. split_and!; try done; first [lia|f_equal; lia].
Qed.

(** ** The live half *)

(** [n] calls of [recv] on a stream, as long as they yield events. *)
Fixpoint stream_collect (n : nat) (c : chan) (st : EventStream) : list JobEvent :=
  match n with
  | 0 => []
  | S n =>
      match stream_recv (S (List.length (sent c))) c st with
      | (st, StreamEvent ev) => ev :: stream_collect n c st
      | _ => []
      end
  end.

Lemma stream_recv_event fuel c st st' ev :
  stream_recv fuel c st = (st', StreamEvent ev) →
  es_job_id st' = es_job_id st ∧
  job_log (es_job_id st) (drop (cursor (es_live st)) (sent c)) =
    ev :: job_log (es_job_id st) (drop (cursor (es_live st')) (sent c)).
Proof.
  revert st. induction fuel as [|fuel IH]; intros st; cbn [stream_recv]; [done|].
  destruct (recv c (es_live st)) as [[live out]|] eqn:R; [|done].
  destruct out as [re| |]; try done.
  destruct (recv_ok_law c _ _ _ R) as [Hin Hc].
  assert (Hd : drop (cursor (es_live st)) (sent c) = re :: drop (cursor live) (sent c)).
  { rewrite Hc. by apply drop_S. }
  rewrite Hd, job_log_cons. cbn [es_job_id].
  case_bool_decide as Hj; cbn [negb app].
  - intros [= <- <-]. by split.
  - intros [Hid Hl]%IH. cbn [es_job_id es_live] in *. by rewrite <-Hl.
Qed.

Lemma stream_collect_prefix n c st :
  stream_collect n c st `prefix_of` job_log (es_job_id st) (drop (cursor (es_live st)) (sent c)).
Proof.
  revert st. induction n as [|n IH]; intros st; cbn [stream_collect]; [apply prefix_nil|].
  destruct (stream_recv _ c st) as [st' step] eqn:R. destruct step; try apply prefix_nil.
  destruct (stream_recv_event _ _ _ _ _ R) as [Hid ->]. apply prefix_cons. rewrite <-Hid. apply IH.
Qed.

(** The loop of [recv] ends: within the log's length it finds an event of the
    job, drains the channel, or meets a lag or a close. *)
Lemma stream_recv_terminates fuel c st :
  List.length (sent c) - cursor (es_live st) < fuel →
  snd (stream_recv fuel c st) ≠ StreamOutOfFuel.
Proof.
  revert st. induction fuel as [|fuel IH]; intros st Hf; [lia|]. cbn [stream_recv].
  destruct (recv c (es_live st)) as [[live out]|] eqn:R; [|done].
  destruct out as [re| |]; try done. case_bool_decide; cbn [negb]; [done|].
  destruct (recv_ok_law c _ _ _ R) as [Hin Hc]. apply IH. cbn.
  apply lookup_lt_Some in Hin. lia.
Qed.

End Streams.

(** ** Properties *)

(** C8: Event streams have no gap and no duplicate.  A subscriber of a known job
    with a cursor [after > 0] (or [after = 0] while the ring has dropped
    nothing) whose receiver stays alive receives, replay first and live events
    next, exactly the sequence numbers [after + 1, after + 2, ...] in order,
    through every interleaving of admissions, progress, logs, terminations,
    leases and other subscriptions; once the job is over, the log's terminal
    event is its last. *)
Theorem sse_gap_free `{U : UuidLib} `{B : !Broadcast RegistryEvent}
    `{BL : !BroadcastLaws RegistryEvent}
    `{HJ : !HashIter JobId JobEntry} `{HL : !HashIter Z (list JobReference)}
    (cfg : JobRegistryCfg) (s s' : System) (id : JobId) (e : JobEntry) (after : Z)
    (r1 : JobRegistry) (st : EventStream) (n : nat)
    (Hreach : reachable cfg s)
    (He : entries (jobs (sys_reg s)) !! id = Some e)
    (Hafter : (0 < after ∨ after = 0 ∧ je_last_seq e = Z.of_nat (List.length (je_ring e)))%Z)
    (Hsub : subscribe_events id after (sys_reg s) = (r1, Ok st))
    (Hsteps : rtc (alive_step cfg) (mkSystem r1 (sys_handles s) (sys_guards s) (sys_used s)) s')
    (Hsat : (je_last_seq e + Z.of_nat (List.length (job_log id
               (drop (List.length (sent (broadcast r1))) (sent (broadcast (sys_reg s')))))) < u64_max)%Z) :
  let live := stream_collect n (broadcast (sys_reg s')) st in
  let delivered := es_replay st ++ live in
  map ev_seq delivered = seqZ (after + 1) (Z.of_nat (List.length delivered)) ∧
  (entry_active e = true →
   (∀ e', entries (jobs (sys_reg s')) !! id = Some e' → entry_active e' = false) →
   closes (job_log id (drop (cursor (es_live st)) (sent (broadcast (sys_reg s')))))).
Proof.
  cbv zeta. pose proof (reachable_inv cfg s Hreach) as Hi.
  pose proof (ji_entries _ _ (si_jobs _ _ Hi) id e He) as Hok.
  destruct (subscribe_replay cfg id after (sys_reg s) r1 st e Hok He ltac:(lia) ltac:(lia)
    ltac:(tauto || lia) Hsub) as (Hr & Hrl & Hid & Hj & Hs & Hc & _).
  rewrite <-Hid in *. rewrite <-Hs in Hc. rewrite <-Hc in Hsat.
  assert (Hf0 : following cfg (es_job_id st) e (sent (broadcast r1))
                  (mkSystem r1 (sys_handles s) (sys_guards s) (sys_used s))).
  { split; cbn.
    - by apply sys_inv_jobs.
    - apply (si_used _ _ Hi). eauto.
    - apply follow_start. by rewrite Hj. }
  destruct (following_steps cfg _ _ _ _ _ (proj2 (rk_last _ _ _ (ek_ring _ _ _ Hok))) Hf0 Hsteps)
    as [_ _ (tail & Ht & Hseq & Hph)].
  assert (Htail : drop (cursor (es_live st)) (sent (broadcast (sys_reg s'))) = tail).
  { rewrite Ht, Hc. apply drop_app_length. }
  rewrite Htail in *. cbv zeta in *. destruct Hseq as [Hseq _]; [lia|]. split.
  - pose proof (stream_collect_prefix n (broadcast (sys_reg s')) st) as [rest Hp].
    rewrite Htail in Hp. rewrite Hp in Hseq. rewrite map_app, length_app in Hseq.
    set (live := stream_collect n _ st) in *. rewrite map_app, length_app, Hr.
    rewrite Nat2Z.inj_add, seqZ_app in Hseq by lia.
    apply app_inj_1 in Hseq as [Hlive _]; [|rewrite length_map, length_seqZ; lia].
    rewrite Hlive, Nat2Z.inj_add, Hrl.
    rewrite (seqZ_app _ (je_last_seq e - after)) by lia. f_equal. f_equal. lia.
  - intros Ha Hdead. rewrite Ha in Hph. destruct Hph as [(_ & e' & He' & Ha' & _)|[_ Hcl]]; [|done].
    rewrite (Hdead e' He') in Ha'. done.
Qed.

(** A cursor of 0 is never refused, even when the ring has dropped the job's
    first events: the documented [EventGap] is not reported for it. *)
Lemma subscribe_zero_never_gaps `{U : UuidLib} `{B : !Broadcast RegistryEvent}
    (id : JobId) (s : JobRegistry) :
  ∃ r st, subscribe_events id 0 s = (r, Ok st).
Proof.
  unfold subscribe_events. destruct (entries (jobs s) !! id); cbn;
    destruct (subscribe (broadcast s)); eauto.
Qed.

Section Witness.
#[local] Existing Instance text_uuid_lib.
#[local] Existing Instance sc_bus.
#[local] Existing Instance ring_broadcast_laws.

Definition sc_entry : JobEntry :=
  default (new_entry sc_job Train [] None "") (entries (jobs (sys_reg sc_logged)) !! sc_job).
Definition sc_stream : EventStream :=
  match snd sc_subscription with
  | Ok st => st
  | Err _ => mkEventStream [] 0 sc_job false
  end.

Lemma sc_entry_lookup : entries (jobs (sys_reg sc_logged)) !! sc_job = Some sc_entry.
Proof.
  assert (H : bool_decide (is_Some (entries (jobs (sys_reg sc_logged)) !! sc_job)) = true)
    by (vm_compute; reflexivity).
  apply bool_decide_eq_true in H. unfold sc_entry. by destruct H as [e ->].
Qed.

Lemma sc_stream_granted : sc_subscription = (fst sc_subscription, Ok sc_stream).
Proof.
  assert (H : is_ok (snd sc_subscription) = true) by (vm_compute; reflexivity).
  unfold sc_stream. destruct sc_subscription as [r [st|g]]; [done|discriminate H].
Qed.

Lemma sc_no_saturation :
  (je_last_seq sc_entry + Z.of_nat (List.length (job_log sc_job
     (drop (List.length (sent (broadcast (fst sc_subscription)))) (sent (broadcast (sys_reg sc_done)))))) < u64_max)%Z.
Proof. vm_compute. reflexivity. Qed.

Lemma sc_alive_steps : rtc (alive_step sc_cfg) sc_subscribed sc_done.
Proof.
  eapply rtc_l; [|eapply rtc_l; [|apply rtc_refl]].
  - split; [|refine (step_log sc_cfg sc_subscribed "t2" sc_job (bytes_of "epoch 2") _)].
    + vm_compute. lia.
    + apply elem_of_union_l, elem_of_singleton. reflexivity.
  - split; [|refine (step_succeed sc_cfg sc_logged2 "t3" sc_job None _)].
    + vm_compute. lia.
    + apply elem_of_union_l, elem_of_singleton. reflexivity.
Defined.

Lemma sse_gap_free_witness :
  map ev_seq (es_replay sc_stream ++ stream_collect 5 (broadcast (sys_reg sc_done)) sc_stream)
    = [2; 3]%Z.
Proof.
  pose proof (sse_gap_free sc_cfg sc_logged sc_done sc_job sc_entry 1 (fst sc_subscription)
    sc_stream 5 sc_reachable_logged) as H.
  destruct H as [H _].
  - exact sc_entry_lookup.
  - left. lia.
  - exact sc_stream_granted.
  - exact sc_alive_steps.
  - exact sc_no_saturation.
  - etransitivity; [exact H|]. vm_compute. reflexivity.
Defined.
End Witness.
