(* ===== verification/FileSystem.v ===== *)
(** * A filesystem with crashes and faults

    The storage the workspace manager runs on: a tree of files, directories and
    symlinks, the system calls the source issues, and what a power loss may
    leave behind.  A directory entry change (a name set or removed, a directory
    moved) is pending until every directory it touches has been fsynced; a
    crash keeps an arbitrary subsequence of the pending changes, and the
    contents of a file that was not synced may be anything.

    A program is a function of a [World] that may return, throw an I/O error,
    or be cut by the crash: every system call may be the last one ([budget])
    or fail without effect ([faults]). *)

From S2P Require Import Prelude Ids Common.

(** ** Paths and nodes *)

(** A path is the list of its components below the daemon's root. *)
Abbreviation path := (list string).

Definition parent (p : path) : path := removelast p.

Inductive node : Type :=
  | File (data : list ascii) (synced : bool)
  | Dir
  | Symlink (target : string).

#[export] Instance node_eq_dec : EqDecision node.
Proof. solve_decision. Defined.

Abbreviation fs := (gmap (list string) node).

(** [p] is [q] or lies below it. *)
Definition below (q p : path) : bool := bool_decide (q `prefix_of` p).

(** The subtree of [src] renamed to [dst], replacing what was there. *)
Definition move_tree (src dst : path) (m : fs) : fs :=
  list_to_map (map (λ '(p, n), (dst ++ drop (List.length src) p, n))
                 (map_to_list (filter (λ '(p, _), below src p = true) m)))
  ∪ filter (λ '(p, _), below src p = false ∧ below dst p = false) m.

(** ** Pending changes *)

Inductive op : Type :=
  | OpSet (p : path) (n : node)
  | OpDel (p : path)
  | OpMove (src dst : path) (unsynced : list path).

Definition apply_op (o : op) (m : fs) : fs :=
  match o with
  | OpSet p n => <[p := n]> m
  | OpDel p => delete p m
  | OpMove src dst _ => move_tree src dst m
  end.

Definition apply_ops (os : list op) (m : fs) : fs := foldl (λ m o, apply_op o m) m os.

Definition touches (o : op) (p : path) : bool :=
  match o with
  | OpSet q _ | OpDel q => bool_decide (q = p)
  | OpMove src dst _ => below src p || below dst p
  end.

Record Disk := mkDisk { durable : fs; pending : list op }.

(** What running code sees. *)
Definition visible (d : Disk) : fs := apply_ops (pending d) (durable d).

(** [fsync] of directory [dir]: the changes of its own entries become durable, a
    move once both its directories are synced. *)
Definition fsync_op (dir : path) (o : op) : op * bool :=
  match o with
  | OpSet p _ | OpDel p => (o, bool_decide (parent p = dir))
  | OpMove src dst un =>
      let un := List.filter (λ q, negb (bool_decide (q = dir))) un in
      (OpMove src dst un, match un with [] => true | _ => false end)
  end.

Definition fsync_disk (dir : path) (d : Disk) : Disk :=
  let marked := map (fsync_op dir) (pending d) in
  mkDisk (apply_ops (map fst (List.filter snd marked)) (durable d))
         (map fst (List.filter (λ x, negb (snd x)) marked)).

Definition add_op (o : op) (d : Disk) : Disk := mkDisk (durable d) (pending d ++ [o]).

(** [File::sync_all] on the file named [p]: its data [c] reaches storage, so
    whichever change of that name survives a crash, the file holds [c]. *)
Definition sync_node (c : list ascii) (n : node) : node :=
  match n with File _ _ => File c true | _ => n end.
Definition sync_op (p : path) (c : list ascii) (o : op) : op :=
  match o with
  | OpSet q n => if bool_decide (q = p) then OpSet q (sync_node c n) else o
  | _ => o
  end.
Definition sync_file_disk (p : path) (c : list ascii) (d : Disk) : Disk :=
  mkDisk (alter (sync_node c) p (durable d)) (map (sync_op p c) (pending d)).

(** ** Crashes *)

(** Unsynced file contents are arbitrary after a crash. *)
Definition scrambled (n n' : node) : Prop :=
  match n with
  | File _ false => ∃ c b, n' = File c b
  | _ => n' = n
  end.

Definition scrambled_fs (m m' : fs) : Prop :=
  ∀ p, match m !! p, m' !! p with
       | Some n, Some n' => scrambled n n'
       | None, None => True
       | _, _ => False
       end.

Definition crash_image (d : Disk) (img : fs) : Prop :=
  ∃ kept, kept `sublist_of` pending d ∧ scrambled_fs (apply_ops kept (durable d)) img.

(** ** Programs *)

Record World := mkWorld {
  disk : Disk;
  budget : option nat;   (** system calls left before the power loss *)
  faults : list bool;    (** which of the next system calls fail *)
}.

Inductive outcome (E A : Type) : Type :=
  | Ret (a : A)
  | Throw (e : E)
  | Crash.
Arguments Ret {E A} a.
Arguments Throw {E A} e.
Arguments Crash {E A}.

Definition M (E A : Type) : Type := World → World * outcome E A.

#[export] Instance M_ret E : MRet (M E) := λ A a w, (w, Ret a).
#[export] Instance M_bind E : MBind (M E) := λ A B f m w,
  match m w with
  | (w, Ret a) => f a w
  | (w, Throw e) => (w, Throw e)
  | (w, Crash) => (w, Crash)
  end.

Definition throw {E A} (e : E) : M E A := λ w, (w, Throw e).
Definition lift {E A} (r : result E A) : M E A :=
  match r with Ok a => mret a | Err e => throw e end.

(** [m.map_err(f)]. *)
Definition map_throw {E F A} (f : E → F) (m : M E A) : M F A := λ w,
  match m w with
  | (w, Ret a) => (w, Ret a)
  | (w, Throw e) => (w, Throw (f e))
  | (w, Crash) => (w, Crash)
  end.

(** [match m { Ok(a) => .., Err(e) => .. }]. *)
Definition attempt {E F A} (m : M E A) : M F (result E A) := λ w,
  match m w with
  | (w, Ret a) => (w, Ret (Ok a))
  | (w, Throw e) => (w, Ret (Err e))
  | (w, Crash) => (w, Crash)
  end.

(** [if let Err(e) = m { tracing::warn!(..) }]. *)
Definition best_effort {E F} (m : M E unit) : M F unit := _ ← attempt m; mret tt.

(** One system call: the crash, then the fault, then its effect. *)
Definition syscall {A} (f : Disk → Disk * result IoKind A) : M IoKind A := λ w,
  match budget w with
  | Some 0 => (w, Crash)
  | b =>
      let b := pred <$> b in
      match faults w with
      | true :: fl => (mkWorld (disk w) b fl, Throw IoOther)
      | fl =>
          let '(d, r) := f (disk w) in
          let w := mkWorld d b (tail fl) in
          match r with Ok a => (w, Ret a) | Err e => (w, Throw e) end
      end
  end.

(** *** The system calls *)

Definition stat (p : path) (d : Disk) : option node := visible d !! p.

(** [Path::exists], [Path::is_file], [Path::is_dir] on a tree without symlinks
    in directory position. *)
Definition path_exists {E} (p : path) : M E bool := λ w,
  (w, Ret (bool_decide (is_Some (stat p (disk w))))).
Definition path_is_file {E} (p : path) : M E bool := λ w,
  (w, Ret (match stat p (disk w) with Some (File _ _) => true | _ => false end)).

Definition symlink_metadata (p : path) : M IoKind node :=
  syscall (λ d, (d, match stat p d with Some n => Ok n | None => Err IoNotFound end)).

Definition fs_read (p : path) : M IoKind (list ascii) :=
  syscall (λ d, (d, match stat p d with
                    | Some (File c _) => Ok c
                    | None => Err IoNotFound
                    | _ => Err IoOther
                    end)).

(** The names of a directory's entries. *)
Definition children (p : path) (m : fs) : list string :=
  omap (λ '(q, _), if below p q then match drop (List.length p) q with
                                     | [name] => Some name
                                     | _ => None
                                     end
                   else None) (map_to_list m).

Definition fs_read_dir (p : path) : M IoKind (list string) :=
  syscall (λ d, (d, match stat p d with
                    | Some Dir => Ok (children p (visible d))
                    | None => Err IoNotFound
                    | _ => Err IoOther
                    end)).

Definition parent_ok (p : path) (d : Disk) : bool :=
  match stat (parent p) d with Some Dir => true | _ => false end.

Definition mkdir_one (p : path) : M IoKind unit :=
  syscall (λ d, match stat p d with
                | Some Dir => (d, Ok tt)
                | Some _ => (d, Err IoAlreadyExists)
                | None => if parent_ok p d then (add_op (OpSet p Dir) d, Ok tt)
                          else (d, Err IoNotFound)
                end).

(** [create_dir_all]: every missing prefix of [p], outermost first; the root
    exists. *)
Fixpoint mkdir_prefixes (done rest : path) : M IoKind unit :=
  match rest with
  | [] => mret tt
  | c :: rest => _ ← mkdir_one (done ++ [c]); mkdir_prefixes (done ++ [c]) rest
  end.
Definition create_dir_all (p : path) : M IoKind unit := mkdir_prefixes [] p.

Definition fs_rename (src dst : path) : M IoKind unit :=
  syscall (λ d, match stat src d with
                | None => (d, Err IoNotFound)
                | Some Dir =>
                    if negb (parent_ok dst d) then (d, Err IoNotFound)
                    else if bool_decide (is_Some (stat dst d)) then (d, Err IoOther)
                    else (add_op (OpMove src dst [parent src; parent dst]) d, Ok tt)
                | Some n =>
                    if negb (parent_ok dst d) then (d, Err IoNotFound)
                    else match stat dst d with
                         | Some Dir => (d, Err IoOther)
                         | _ => (add_op (OpDel src) (add_op (OpSet dst n) d), Ok tt)
                         end
                end).

Definition fs_remove_file (p : path) : M IoKind unit :=
  syscall (λ d, match stat p d with
                | None => (d, Err IoNotFound)
                | Some Dir => (d, Err IoOther)
                | Some _ => (add_op (OpDel p) d, Ok tt)
                end).

Definition fs_remove_dir (p : path) : M IoKind unit :=
  syscall (λ d, match stat p d with
                | None => (d, Err IoNotFound)
                | Some Dir => match children p (visible d) with
                              | [] => (add_op (OpDel p) d, Ok tt)
                              | _ => (d, Err IoOther)
                              end
                | Some _ => (d, Err IoOther)
                end).

(** [fsync_dir] ([file_mgr/validate.rs]): open the directory and [sync_all] it. *)
Definition fsync_dir (p : path) : M IoKind unit :=
  syscall (λ d, match stat p d with
                | Some Dir => (fsync_disk p d, Ok tt)
                | None => (d, Err IoNotFound)
                | _ => (d, Err IoOther)
                end).

Definition create_file (p : path) : M IoKind unit :=
  syscall (λ d, match stat p d with
                | Some _ => (d, Err IoAlreadyExists)
                | None => if parent_ok p d then (add_op (OpSet p (File [] false)) d, Ok tt)
                          else (d, Err IoNotFound)
                end).
Definition write_file (p : path) (c : list ascii) : M IoKind unit :=
  syscall (λ d, match stat p d with
                | Some (File c0 _) => (add_op (OpSet p (File (c0 ++ c) false)) d, Ok tt)
                | _ => (d, Err IoOther)
                end).
Definition sync_file (p : path) : M IoKind unit :=
  syscall (λ d, match stat p d with
                | Some (File c _) => (sync_file_disk p c d, Ok tt)
                | _ => (d, Err IoOther)
                end).

(** *** [std::fs::remove_dir_all] *)

(** One more than the longest path of the tree. *)
Definition height (m : fs) : nat := foldr (λ x acc, S (List.length (fst x)) `max` acc) 0 (map_to_list m).

Fixpoint remove_each (recurse : path → M IoKind unit) (dir : path) (entries : list string) : M IoKind unit :=
  match entries with
  | [] => mret tt
  | name :: entries =>
      n ← symlink_metadata (dir ++ [name]);
      _ ← match n with
          | Dir => recurse (dir ++ [name])
          | _ => fs_remove_file (dir ++ [name])
          end;
      remove_each recurse dir entries
  end.

(** [fuel] bounds the recursion by the height of the tree. *)
Fixpoint remove_tree (fuel : nat) (dir : path) : M IoKind unit :=
  match fuel with
  | 0 => throw IoOther
  | S fuel =>
      entries ← fs_read_dir dir;
      _ ← remove_each (remove_tree fuel) dir entries;
      fs_remove_dir dir
  end.

(** A symlink is removed itself, not followed. *)
Definition fs_remove_dir_all (p : path) : M IoKind unit := λ w,
  (n ← symlink_metadata p;
   match n with
   | Symlink _ => fs_remove_file p
   | _ => remove_tree (height (visible (disk w))) p
   end) w.

Definition path_is_dir {E} (p : path) : M E bool := λ w,
  (w, Ret (match stat p (disk w) with Some Dir => true | _ => false end)).
