(* ===== verification/FsLogic.v ===== *)
(** * Reasoning about crashes

    What a path may hold after a crash ([among], [definite]), how each change
    of the disk acts on those facts, and triples with a crash condition. *)

From S2P Require Import Prelude Ids Common FileSystem.

(** ** What one operation does at one path *)

Lemma below_true q p : below q p = true ↔ q `prefix_of` p.
Proof. apply bool_decide_eq_true. Qed.

Lemma move_tree_untouched src dst m p :
  below src p = false → below dst p = false → move_tree src dst m !! p = m !! p.
Proof.
  intros Hs Hd. unfold move_tree. rewrite lookup_union_r.
  - rewrite map_lookup_filter. destruct (m !! p) as [n|]; cbn; [|done].
    rewrite option_guard_True by done. done.
  - apply not_elem_of_list_to_map_1. rewrite list_elem_of_fmap.
    intros ((q & n) & Hq & Hin). cbn in Hq. apply list_elem_of_fmap in Hin as ((r & k) & Hr & _).
    injection Hr as -> ->. cbn in Hq. subst p.
    assert (below dst (dst ++ drop (List.length src) r) = true) by (apply below_true; by eexists).
    congruence.
Qed.

(** The value of path [p] after [o], from its value before. *)
Definition op_at (o : op) (p : path) (v : option node) : option node :=
  match o with
  | OpSet q n => if bool_decide (q = p) then Some n else v
  | OpDel q => if bool_decide (q = p) then None else v
  | OpMove _ _ _ => v
  end.

Definition is_move (o : op) : bool := match o with OpMove _ _ _ => true | _ => false end.

Lemma apply_op_at o m p :
  is_move o = false ∨ touches o p = false → apply_op o m !! p = op_at o p (m !! p).
Proof.
  intros H. destruct o as [q n|q|src dst un]; cbn.
  - case_bool_decide as E; [subst; apply lookup_insert_eq|by apply lookup_insert_ne].
  - case_bool_decide as E; [subst; apply lookup_delete_eq|by apply lookup_delete_ne].
  - destruct H as [H|H]; [done|]. cbn in H. apply orb_false_iff in H as [H1 H2].
    by apply move_tree_untouched.
Qed.

Definition ops_at (os : list op) (p : path) (v : option node) : option node :=
  foldl (λ v o, op_at o p v) v os.

Lemma apply_ops_at os m p :
  Forall (λ o, is_move o = false ∨ touches o p = false) os →
  apply_ops os m !! p = ops_at os p (m !! p).
Proof.
  intros HF. revert m. induction HF as [|o os Ho _ IH]; intros m; [done|].
  unfold apply_ops, ops_at in *. cbn. by rewrite IH, apply_op_at.
Qed.

Lemma op_at_untouched o p v : touches o p = false → op_at o p v = v.
Proof. destruct o; cbn; [..|done]; by case_bool_decide. Qed.

(** ** What a path may hold *)

(** A value that a crash cannot scramble. *)
Definition settled (v : option node) : bool :=
  match v with Some (File _ false) => false | _ => true end.

(** The operation leaves [p] alone or gives it one of the values [vs]. *)
Definition op_among (p : path) (vs : list (option node)) (o : op) : Prop :=
  touches o p = false ∨ (is_move o = false ∧ ∀ v, op_at o p v ∈ vs).

Record among (d : Disk) (p : path) (vs : list (option node)) : Prop := {
  am_durable : durable d !! p ∈ vs;
  am_pending : Forall (op_among p vs) (pending d);
}.

Definition definite (d : Disk) (p : path) (v : option node) : Prop := among d p [v].

Lemma ops_among os m p vs :
  Forall (op_among p vs) os → m !! p ∈ vs → apply_ops os m !! p ∈ vs.
Proof.
  intros HF. revert m. induction HF as [|o os Ho _ IH]; intros m Hm; [done|].
  unfold apply_ops in *. cbn. apply IH. destruct Ho as [Ho|[Hm' Ho]].
  - rewrite apply_op_at by (by right). by rewrite op_at_untouched.
  - rewrite apply_op_at by (by left). apply Ho.
Qed.

(** Every crash image agrees with the settled values a path may hold. *)
Lemma among_crash d p vs img :
  among d p vs → forallb settled vs = true → crash_image d img → img !! p ∈ vs.
Proof.
  intros [Hd Hp] Hset (kept & Hsub & Hscr).
  assert (Hk : apply_ops kept (durable d) !! p ∈ vs).
  { apply ops_among; [|done]. apply List.Forall_forall. intros o Ho.
    rewrite List.Forall_forall in Hp. apply Hp. apply list_elem_of_In.
    eapply elem_of_submseteq; [by apply list_elem_of_In|by apply sublist_submseteq]. }
  specialize (Hscr p). rewrite forallb_forall in Hset.
  pose proof (Hset _ (proj1 (list_elem_of_In _ _) Hk)) as Hs.
  destruct (apply_ops kept (durable d) !! p) as [n|], (img !! p) as [n'|]; try done.
  destruct n as [c []| |]; cbn in *; by subst.
Qed.

Lemma definite_crash d p v img :
  definite d p v → settled v = true → crash_image d img → img !! p = v.
Proof.
  intros H Hs Hi. apply (among_crash d p [v] img) in H; [|cbn; by rewrite Hs|done].
  by apply list_elem_of_singleton in H.
Qed.

Lemma among_visible d p vs : among d p vs → visible d !! p ∈ vs.
Proof. intros [Hd Hp]. by apply ops_among. Qed.

Lemma definite_visible d p v : definite d p v → visible d !! p = v.
Proof. intros H. apply among_visible in H. by apply list_elem_of_singleton in H. Qed.

Lemma among_weaken d p vs vs' : among d p vs → vs ⊆ vs' → among d p vs'.
Proof.
  intros [Hd Hp] Hsub. split; [by apply Hsub|].
  eapply List.Forall_impl; [|exact Hp]. intros o [?|[? H]]; [by left|right].
  split; [done|]. intros v. by apply Hsub.
Qed.

(** ** Acting on the facts *)

Lemma among_add d p vs o : among d p vs → op_among p vs o → among (add_op o d) p vs.
Proof.
  intros [Hd Hp] Ho. split; [done|]. cbn. apply Forall_app. split; [done|].
  by apply Forall_singleton.
Qed.

Lemma among_add_other d p vs o : among d p vs → touches o p = false → among (add_op o d) p vs.
Proof. intros H Ho. apply among_add; [done|by left]. Qed.

Lemma fsync_op_among dir p vs o : op_among p vs o → op_among p vs (fst (fsync_op dir o)).
Proof. by destruct o. Qed.

Lemma among_fsync d p vs dir : among d p vs → among (fsync_disk dir d) p vs.
Proof.
  intros [Hd Hp].
  assert (Hm : Forall (λ x, op_among p vs (fst x)) (map (fsync_op dir) (pending d))).
  { apply Forall_map. eapply List.Forall_impl; [|exact Hp]. intros o. apply fsync_op_among. }
  assert (Hf : ∀ f, Forall (op_among p vs) (map fst (List.filter f (map (fsync_op dir) (pending d))))).
  { intros f. apply Forall_map. apply List.Forall_forall. intros x [Hx _]%filter_In.
    rewrite List.Forall_forall in Hm. by apply Hm. }
  split; cbn; [|apply Hf]. by apply ops_among.
Qed.

Lemma op_at_sync q c p o v : p ≠ q → op_at (sync_op q c o) p v = op_at o p v.
Proof. intros Hne. destruct o; cbn; [|done..]. repeat (case_bool_decide; cbn); congruence. Qed.

Lemma sync_op_touches q c o p : touches (sync_op q c o) p = touches o p.
Proof. destruct o; cbn; [|done..]. by case_bool_decide. Qed.

Lemma sync_op_is_move q c o : is_move (sync_op q c o) = is_move o.
Proof. destruct o; cbn; [|done..]. by case_bool_decide. Qed.

Lemma among_sync d p vs q c : among d p vs → p ≠ q → among (sync_file_disk q c d) p vs.
Proof.
  intros [Hd Hp] Hne. split; cbn.
  - by rewrite lookup_alter_ne.
  - apply Forall_map. eapply List.Forall_impl; [|exact Hp]. intros o [H|[H1 H2]].
    + left. by rewrite sync_op_touches.
    + right. split; [by rewrite sync_op_is_move|]. intros v. by rewrite op_at_sync.
Qed.

(** ** The visible tree *)

Definition no_moves (d : Disk) : Prop := Forall (λ o, is_move o = false) (pending d).

Lemma no_moves_elem d o : no_moves d → o ∈ pending d → is_move o = false.
Proof. unfold no_moves. rewrite List.Forall_forall. intros H Ho. apply H. by apply list_elem_of_In. Qed.

Lemma no_moves_add d o : no_moves d → is_move o = false → no_moves (add_op o d).
Proof. intros H Ho. apply Forall_app. split; [done|]. by apply Forall_singleton. Qed.

Lemma no_moves_fsync d dir : no_moves d → no_moves (fsync_disk dir d).
Proof.
  unfold no_moves, fsync_disk. cbn. intros H. apply Forall_map. apply List.Forall_forall.
  intros x [Hx _]%filter_In. apply in_map_iff in Hx as (o & <- & Ho).
  rewrite List.Forall_forall in H. specialize (H o Ho). by destruct o.
Qed.

Lemma no_moves_sync d q c : no_moves d → no_moves (sync_file_disk q c d).
Proof.
  unfold no_moves. cbn. intros H. apply Forall_map. eapply List.Forall_impl; [|exact H].
  intros o. by rewrite sync_op_is_move.
Qed.

Lemma visible_add d o : visible (add_op o d) = apply_op o (visible d).
Proof. unfold visible, apply_ops. cbn. by rewrite foldl_snoc. Qed.

(** No pending move concerns the path. *)
Definition still (d : Disk) (p : path) : Prop := Forall (λ o, is_move o = false ∨ touches o p = false) (pending d).

Lemma no_moves_still d p : no_moves d → still d p.
Proof. intros H. eapply List.Forall_impl; [|exact H]. intros o Ho. by left. Qed.

Lemma still_elem d p o : still d p → o ∈ pending d → touches o p = true → is_move o = false.
Proof.
  unfold still. rewrite List.Forall_forall. intros H Ho Ht. apply list_elem_of_In in Ho.
  destruct (H o Ho) as [?|E]; [done|congruence].
Qed.

Lemma still_add d o p : still d p → is_move o = false ∨ touches o p = false → still (add_op o d) p.
Proof. intros H Ho. apply Forall_app. split; [done|]. by apply Forall_singleton. Qed.

Lemma fsync_op_still dir o p : is_move o = false ∨ touches o p = false →
  is_move (fst (fsync_op dir o)) = false ∨ touches (fst (fsync_op dir o)) p = false.
Proof. by destruct o. Qed.

Lemma still_marked dir os p (f : op * bool → bool) :
  Forall (λ o, is_move o = false ∨ touches o p = false) os →
  Forall (λ o, is_move o = false ∨ touches o p = false) (map fst (List.filter f (map (fsync_op dir) os))).
Proof.
  rewrite !List.Forall_forall. intros H o (x & <- & [Hx _]%filter_In)%in_map_iff.
  apply in_map_iff in Hx as (o & <- & Ho). by apply fsync_op_still, H.
Qed.

Lemma still_fsync d dir p : still d p → still (fsync_disk dir d) p.
Proof. apply still_marked. Qed.

Lemma still_sync d q c p : still d p → still (sync_file_disk q c d) p.
Proof.
  intros H. apply Forall_map. eapply List.Forall_impl; [|exact H].
  intros o. by rewrite sync_op_is_move, sync_op_touches.
Qed.

Lemma visible_at_still d p : still d p → visible d !! p = ops_at (pending d) p (durable d !! p).
Proof. apply apply_ops_at. Qed.

Lemma visible_at d p : no_moves d → visible d !! p = ops_at (pending d) p (durable d !! p).
Proof. intros H. by apply visible_at_still, no_moves_still. Qed.

(** The filtered operations that touch [p] are all of them or none. *)
Lemma ops_at_filter f os p v :
  (∀ o, o ∈ os → touches o p = true → f o = true) →
  ops_at (List.filter f os) p v = ops_at os p v.
Proof.
  revert v. induction os as [|o os IH]; intros v H; [done|]. cbn [List.filter].
  assert (Hos : ∀ o, o ∈ os → touches o p = true → f o = true) by (intros; apply H; [by right|done]).
  destruct (f o) eqn:Ef.
  - apply (IH (op_at o p v) Hos).
  - assert (touches o p = false).
    { apply not_true_iff_false. intros Ht. rewrite (H o) in Ef; [done|left|done]. }
    unfold ops_at in *. cbn. rewrite op_at_untouched by done. by apply IH.
Qed.

Lemma ops_at_filter_none f os p v :
  (∀ o, o ∈ os → touches o p = true → f o = false) → ops_at (List.filter f os) p v = v.
Proof.
  revert v. induction os as [|o os IH]; intros v H; [done|]. cbn [List.filter].
  assert (Hos : ∀ o, o ∈ os → touches o p = true → f o = false) by (intros; apply H; [by right|done]).
  destruct (f o) eqn:Ef; [|by apply IH].
  assert (touches o p = false).
  { apply not_true_iff_false. intros Ht. rewrite (H o) in Ef; [done|left|done]. }
  unfold ops_at in *. cbn. rewrite op_at_untouched by done. by apply IH.
Qed.

Definition in_dir (dir : path) (o : op) : bool := snd (fsync_op dir o).

Lemma ops_at_marked dir os p v (g : bool → bool) :
  ops_at (map fst (List.filter (λ x, g (snd x)) (map (fsync_op dir) os))) p v =
  ops_at (List.filter (λ o, g (in_dir dir o)) os) p v.
Proof.
  revert v. induction os as [|o os IH]; intros v; [done|]. cbn [map List.filter]. unfold in_dir at 1.
  destruct (g (snd (fsync_op dir o))); [|apply IH]. unfold ops_at in *. cbn. rewrite IH. by destruct o.
Qed.

Lemma touches_in_dir dir p o :
  is_move o = false → touches o p = true → in_dir dir o = bool_decide (parent p = dir).
Proof. destruct o; cbn; try done; intros _ ->%bool_decide_eq_true; done. Qed.

Lemma fsync_durable_at_still d dir p :
  still d p →
  durable (fsync_disk dir d) !! p =
    if bool_decide (parent p = dir) then visible d !! p else durable d !! p.
Proof.
  intros Hs. rewrite visible_at_still by done. cbn.
  rewrite apply_ops_at by (by apply still_marked).
  rewrite (ops_at_marked dir (pending d) p (durable d !! p) (λ b, b)).
  assert (Ht : ∀ o, o ∈ pending d → touches o p = true → in_dir dir o = bool_decide (parent p = dir)).
  { intros o Ho Hto. apply touches_in_dir; [|done]. by eapply still_elem. }
  destruct (bool_decide (parent p = dir)).
  - by apply ops_at_filter.
  - by apply ops_at_filter_none.
Qed.

Lemma visible_fsync_still d dir p : still d p → visible (fsync_disk dir d) !! p = visible d !! p.
Proof.
  intros Hs. rewrite (visible_at_still (fsync_disk dir d)) by (by apply still_fsync).
  rewrite fsync_durable_at_still by done. cbn [fsync_disk pending].
  rewrite (ops_at_marked dir (pending d) p _ negb).
  assert (Ht : ∀ o, o ∈ pending d → touches o p = true → in_dir dir o = bool_decide (parent p = dir)).
  { intros o Ho Hto. apply touches_in_dir; [|done]. by eapply still_elem. }
  destruct (bool_decide (parent p = dir)) eqn:E.
  - apply ops_at_filter_none. intros o Ho Hto. by rewrite (Ht o Ho Hto).
  - rewrite visible_at_still by done. apply ops_at_filter. intros o Ho Hto. by rewrite (Ht o Ho Hto).
Qed.

Lemma visible_fsync d dir p : no_moves d → visible (fsync_disk dir d) !! p = visible d !! p.
Proof. intros H. by apply visible_fsync_still, no_moves_still. Qed.

(** Syncing its directory makes the visible value of a path definite. *)
Lemma definite_of_fsync_still d dir p v :
  still d p → visible d !! p = v → parent p = dir → definite (fsync_disk dir d) p v.
Proof.
  intros Hs Hv Hp. split.
  - rewrite fsync_durable_at_still by done. rewrite bool_decide_eq_true_2 by done.
    rewrite Hv. left.
  - cbn. apply List.Forall_forall. intros o (x & <- & [Hx Hf]%filter_In)%in_map_iff.
    apply in_map_iff in Hx as (o & <- & Ho). left. apply not_true_iff_false. intros Ht.
    assert (Hto : touches o p = true) by (by destruct o).
    assert (Hm : is_move o = false) by (eapply still_elem; [done|by apply list_elem_of_In|done]).
    rewrite (touches_in_dir dir p o : _ → _ → snd (fsync_op dir o) = _) in Hf by done.
    by rewrite bool_decide_eq_true_2 in Hf.
Qed.

Lemma definite_of_fsync d dir p v :
  no_moves d → visible d !! p = v → parent p = dir → definite (fsync_disk dir d) p v.
Proof. intros H. by apply definite_of_fsync_still, no_moves_still. Qed.

Lemma visible_sync_still d q c p :
  still d p →
  visible (sync_file_disk q c d) !! p =
    if bool_decide (p = q) then sync_node c <$> (visible d !! p) else visible d !! p.
Proof.
  intros Hs. rewrite !visible_at_still by (done || by apply still_sync). cbn.
  assert (Hops : ∀ os v,
    ops_at (map (sync_op q c) os) p (if bool_decide (p = q) then sync_node c <$> v else v) =
    if bool_decide (p = q) then sync_node c <$> ops_at os p v else ops_at os p v).
  { induction os as [|o os IH]; intros v; [done|]. unfold ops_at in *. cbn.
    rewrite <-IH. f_equal. destruct o as [r n|r|]; cbn; repeat (case_bool_decide; cbn); try done; congruence. }
  rewrite <-Hops. f_equal. case_bool_decide as E; [subst; by rewrite lookup_alter_eq|].
  by rewrite lookup_alter_ne.
Qed.

Lemma visible_sync d q c p :
  no_moves d →
  visible (sync_file_disk q c d) !! p =
    if bool_decide (p = q) then sync_node c <$> (visible d !! p) else visible d !! p.
Proof. intros H. by apply visible_sync_still, no_moves_still. Qed.

(** ** Triples *)

(** [P] before; [Q] on return, [X] on a thrown error, [C] at the crash. *)
Definition triple {E A} (P : Disk → Prop) (m : M E A) (Q : A → Disk → Prop)
    (X C : Disk → Prop) : Prop :=
  ∀ w, P (disk w) →
    match m w with
    | (w', Ret a) => Q a (disk w')
    | (w', Throw _) => X (disk w')
    | (w', Crash) => C (disk w')
    end.

Lemma triple_ret {E A} P (a : A) (Q : A → Disk → Prop) X C :
  (∀ d, P d → Q a d) → triple P (mret a : M E A) Q X C.
Proof. intros H w Hw. by apply H. Qed.

Lemma triple_throw {E A} P (e : E) (Q : A → Disk → Prop) X C :
  (∀ d, P d → X d) → triple P (throw e : M E A) Q X C.
Proof. intros H w Hw. by apply H. Qed.

Lemma triple_bind {E A B} P (m : M E A) (f : A → M E B) R Q X C :
  triple P m R X C → (∀ a, triple (R a) (f a) Q X C) → triple P (m ≫= f) Q X C.
Proof.
  intros Hm Hf w Hw. specialize (Hm w Hw). unfold mbind, M_bind.
  destruct (m w) as [w' [a|e|]]; [|done..]. by apply Hf.
Qed.

Lemma triple_seq {E A B D} P (m : M E A) (f : A → M E B) (g : B → M E D) Q X C :
  triple P ((m ≫= f) ≫= g) Q X C → triple P (m ≫= λ a, f a ≫= g) Q X C.
Proof.
  intros H w Hw. specialize (H w Hw). unfold mbind, M_bind in *. by destruct (m w) as [w' [a|e|]].
Qed.

Lemma triple_seq_inv {E A B D} P (m : M E A) (f : A → M E B) (g : B → M E D) Q X C :
  triple P (m ≫= λ a, f a ≫= g) Q X C → triple P ((m ≫= f) ≫= g) Q X C.
Proof.
  intros H w Hw. specialize (H w Hw). unfold mbind, M_bind in *. by destruct (m w) as [w' [a|e|]].
Qed.

Lemma triple_conseq {E A} P P' (m : M E A) (Q Q' : A → Disk → Prop) (X X' C C' : Disk → Prop) :
  triple P' m Q' X' C' → (∀ d, P d → P' d) → (∀ a d, Q' a d → Q a d) →
  (∀ d, X' d → X d) → (∀ d, C' d → C d) → triple P m Q X C.
Proof.
  intros H HP HQ HX HC w Hw. specialize (H w (HP _ Hw)). destruct (m w) as [w' [a|e|]]; auto.
Qed.

Lemma triple_pure {E A} (φ : Prop) P (m : M E A) Q X C :
  (φ → triple P m Q X C) → triple (λ d, φ ∧ P d) m Q X C.
Proof. intros H w [Hφ Hw]. by apply H. Qed.

Lemma triple_extract {E A} (φ : Prop) (P P' : Disk → Prop) (m : M E A) Q X C :
  (∀ d, P d → φ ∧ P' d) → (φ → triple P' m Q X C) → triple P m Q X C.
Proof. intros HP H w Hw. destruct (HP _ Hw) as [Hφ Hw']. by apply H. Qed.

Lemma triple_ex {E A B} (P : B → Disk → Prop) (m : M E A) Q X C :
  (∀ x, triple (P x) m Q X C) → triple (λ d, ∃ x, P x d) m Q X C.
Proof. intros H w [x Hw]. by apply (H x). Qed.

Lemma triple_map_throw {E F A} P (f : E → F) (m : M E A) Q X C :
  triple P m Q X C → triple P (map_throw f m) Q X C.
Proof.
  intros H w Hw. specialize (H w Hw). unfold map_throw. by destruct (m w) as [w' [a|e|]].
Qed.

Lemma triple_attempt {E F A} P (m : M E A) (Q : result E A → Disk → Prop) X C :
  triple P m (λ a, Q (Ok a)) (λ d, ∀ e, Q (Err e) d) C → triple P (attempt m : M F _) Q X C.
Proof.
  intros H w Hw. specialize (H w Hw). unfold attempt. by destruct (m w) as [w' [a|e|]].
Qed.

Lemma triple_best_effort {E F} P (m : M E unit) (Q : Disk → Prop) X C :
  triple P m (λ _, Q) Q C → triple P (best_effort m : M F unit) (λ _, Q) X C.
Proof.
  intros H. unfold best_effort. eapply triple_bind.
  - apply triple_attempt with (Q := λ _, Q). eapply triple_conseq; [exact H|..]; auto.
  - intros r. by apply triple_ret.
Qed.

Lemma triple_syscall {A} P (f : Disk → Disk * result IoKind A) (Q : A → Disk → Prop) (X C : Disk → Prop) :
  (∀ d, P d → C d) → (∀ d, P d → X d) →
  (∀ d, P d → match f d with (d', Ok a) => Q a d' | (d', Err _) => X d' end) →
  triple P (syscall f) Q X C.
Proof.
  intros HC HX HQ w Hw. unfold syscall. specialize (HQ _ Hw).
  destruct (budget w) as [[|n]|]; [by apply HC|..];
    destruct (faults w) as [|[] fl]; try (by apply HX);
    destruct (f (disk w)) as [d' [a|e]]; done.
Qed.

(** A read leaves the disk alone. *)
Lemma triple_read {A} P (f : Disk → result IoKind A) (X C : Disk → Prop) :
  (∀ d, P d → C d) → (∀ d, P d → X d) →
  triple P (syscall (λ d, (d, f d))) (λ a d, P d ∧ f d = Ok a) X C.
Proof.
  intros HC HX. apply triple_syscall; [done|done|]. intros d Hd. destruct (f d) eqn:E; auto.
Qed.

(** [finally]-style cleanup of a guard dropped on the error path. *)
Definition on_throw {E A} (cleanup : M E unit) (m : M E A) : M E A := λ w,
  match m w with
  | (w, Throw e) => match cleanup w with
                    | (w, Crash) => (w, Crash)
                    | (w, _) => (w, Throw e)
                    end
  | r => r
  end.

Lemma triple_on_throw {E A} P (c : M E unit) (m : M E A) Q X X' C :
  triple P m Q X' C → triple X' c (λ _, X) X C → triple P (on_throw c m) Q X C.
Proof.
  intros Hm Hc w Hw. specialize (Hm w Hw). unfold on_throw. destruct (m w) as [w' [a|e|]]; [done| |done].
  specialize (Hc w' Hm). by destruct (c w') as [w'' [a'|e'|]].
Qed.

(** ** Frames *)

(** [F] survives every change confined to the paths of [S], and any fsync. *)
Record stable (S : path → Prop) (F : Disk → Prop) : Prop := {
  st_add : ∀ d o, F d → is_move o = false → (∀ p, touches o p = true → S p) → F (add_op o d);
  st_fsync : ∀ d dir, F d → F (fsync_disk dir d);
  st_sync : ∀ d q c, F d → S q → F (sync_file_disk q c d);
}.

Definition facts (L : list (path * list (option node))) (d : Disk) : Prop :=
  Forall (λ x, among d (fst x) (snd x)) L.

Lemma facts_spec L d : facts L d ↔ ∀ x, In x L → among d (fst x) (snd x).
Proof. apply List.Forall_forall. Qed.

Lemma facts_stable (S : path → Prop) L :
  Forall (λ x, ¬ S (fst x)) L → stable S (facts L).
Proof.
  intros HL. rewrite List.Forall_forall in HL. split; setoid_rewrite facts_spec.
  - intros d o HF Hm Ho x Hx. apply among_add_other; [by apply HF|].
    apply not_true_iff_false. intros Ht. by apply (HL x Hx), Ho.
  - intros d dir HF x Hx. by apply among_fsync, HF.
  - intros d q c HF Hq x Hx. apply among_sync; [by apply HF|]. intros <-. by apply (HL x Hx).
Qed.

Lemma no_moves_stable S : stable S no_moves.
Proof.
  split; intros; [by apply no_moves_add|by apply no_moves_fsync|by apply no_moves_sync].
Qed.

Lemma stable_and S F G : stable S F → stable S G → stable S (λ d, F d ∧ G d).
Proof. intros [] []. split; intros; naive_solver. Qed.

Lemma stable_weaken (S S' : path → Prop) F : stable S F → (∀ p, S' p → S p) → stable S' F.
Proof. intros [] H. split; intros; naive_solver. Qed.

Lemma facts_one p vs d : facts [(p, vs)] d ↔ among d p vs.
Proof. rewrite facts_spec. cbn. split; [intros H; apply (H (p, vs)); by left|]. by intros H x [<-|[]]. Qed.

Lemma facts_app L1 L2 d : facts (L1 ++ L2) d ↔ facts L1 d ∧ facts L2 d.
Proof. apply Forall_app. Qed.

Lemma facts_elem L d p vs : facts L d → (p, vs) ∈ L → among d p vs.
Proof.
  rewrite facts_spec. intros H Hin. apply (H (p, vs)). by apply list_elem_of_In.
Qed.

Lemma definite_stable (S : path → Prop) p v : ¬ S p → stable S (λ d, definite d p v).
Proof.
  intros Hp. split.
  - intros d o H Hm Ho. apply among_add_other; [done|]. apply not_true_iff_false.
    intros Ht. by apply Hp, Ho.
  - intros d dir H. by apply among_fsync.
  - intros d q c H Hq. apply among_sync; [done|]. by intros <-.
Qed.

(** The images of a crash agree with settled facts. *)
Lemma facts_crash L d img p v :
  facts L d → (p, [v]) ∈ L → settled v = true → crash_image d img → img !! p = v.
Proof. intros HL Hin Hs Hi. eapply definite_crash; [by eapply facts_elem|done..]. Qed.

(** A tree with nothing pending is exactly its durable entries. *)
Lemma definite_quiet m p v : m !! p = v → definite (mkDisk m []) p v.
Proof. intros <-. split; [left|constructor]. Qed.

Lemma facts_quiet m L :
  forallb (λ x, match snd x with [v] => bool_decide (m !! fst x = v) | _ => false end) L = true →
  facts L (mkDisk m []).
Proof.
  rewrite forallb_forall. intros H. apply facts_spec. intros [p vs] Hx%H. cbn in Hx |- *.
  destruct vs as [|v []]; try done. apply bool_decide_eq_true in Hx. by apply definite_quiet.
Qed.

(** ** What every crash leaves *)

Lemma sublist_map_inv {A B : Type} (f : A → B) (l : list A) (k : list B) :
  k `sublist_of` map f l → ∃ k0, k0 `sublist_of` l ∧ k = map f k0.
Proof.
  revert k. induction l as [|x l IH]; intros k; cbn [map].
  - intros ->%sublist_nil_r. by exists [].
  - intros [H|(k' & -> & H)]%sublist_cons_r.
    + destruct (IH k H) as (k0 & H0 & ->). exists k0. split; [by apply sublist_cons|done].
    + destruct (IH k' H) as (k0 & H0 & ->). exists (x :: k0). split; [by apply sublist_skip|done].
Qed.

(** A choice among the rest, with all the marked ones. *)
Lemma sublist_filter_merge {A : Type} (f : A → bool) (l k : list A) :
  k `sublist_of` List.filter (λ x, negb (f x)) l →
  ∃ k0, k0 `sublist_of` l ∧ List.filter f k0 = List.filter f l ∧ List.filter (λ x, negb (f x)) k0 = k.
Proof.
  revert k. induction l as [|x l IH]; intros k; cbn [List.filter].
  - intros ->%sublist_nil_r. by exists [].
  - destruct (f x) eqn:Hf; cbn [negb].
    + intros H. destruct (IH k H) as (k0 & H0 & H1 & H2). exists (x :: k0). cbn [List.filter]. rewrite Hf. cbn [negb].
      split_and!; [by apply sublist_skip|by f_equal|done].
    + intros [H|(k' & -> & H)]%sublist_cons_r.
      * destruct (IH k H) as (k0 & H0 & H1 & H2). exists k0. split_and!; [by apply sublist_cons|done|done].
      * destruct (IH k' H) as (k0 & H0 & H1 & H2). exists (x :: k0). cbn [List.filter]. rewrite Hf. cbn [negb].
        split_and!; [by apply sublist_skip|done|by f_equal].
Qed.

Definition moveless (os : list op) : Prop := Forall (λ o, is_move o = false) os.

Lemma moveless_at os m p : moveless os → apply_ops os m !! p = ops_at os p (m !! p).
Proof. intros H. apply apply_ops_at. eapply List.Forall_impl; [|exact H]. intros o Ho. by left. Qed.

Lemma moveless_sublist os os' : os' `sublist_of` os → moveless os → moveless os'.
Proof.
  intros Hs H. apply List.Forall_forall. intros o Ho. unfold moveless in H. rewrite List.Forall_forall in H. apply H.
  apply list_elem_of_In. eapply elem_of_submseteq; [by apply list_elem_of_In|by apply sublist_submseteq].
Qed.

(** Operations of one directory commute with those of the others. *)
Lemma apply_ops_split (f : op → bool) (dir : path) os m :
  moveless os → (∀ o p, touches o p = true → is_move o = false → f o = bool_decide (parent p = dir)) →
  apply_ops os m = apply_ops (List.filter (λ o, negb (f o)) os) (apply_ops (List.filter f os) m).
Proof.
  intros Hm Hf. apply map_eq. intros p.
  assert (Hsub : ∀ g, moveless (List.filter g os)).
  { intros g. apply List.Forall_forall. intros o [Ho _]%filter_In. unfold moveless in Hm. rewrite List.Forall_forall in Hm. by apply Hm. }
  rewrite !moveless_at by (exact Hm || apply Hsub). clear Hsub. generalize (m !! p). intros v.
  assert (Ho : ∀ o, o ∈ os → touches o p = true → f o = bool_decide (parent p = dir)).
  { intros o Ho Ht. apply (Hf o p Ht). unfold moveless in Hm. rewrite List.Forall_forall in Hm. by apply Hm, list_elem_of_In. }
  clear Hm Hf. destruct (bool_decide (parent p = dir)) eqn:Hp.
  - transitivity (ops_at (List.filter f os) p v).
    + revert v. induction os as [|o os IH]; intros v; [done|]. cbn [List.filter]. change (ops_at (o :: os) p v) with (ops_at os p (op_at o p v)).
      destruct (f o) eqn:Hfo.
      * change (ops_at (o :: List.filter f os) p v) with (ops_at (List.filter f os) p (op_at o p v)). apply IH. intros o' Ho'. apply Ho. by right.
      * rewrite op_at_untouched; [apply IH; intros o' Ho'; apply Ho; by right|]. apply not_true_iff_false. intros Ht.
        rewrite (Ho o) in Hfo; [done|by left|done].
    + generalize (ops_at (List.filter f os) p v). clear v. induction os as [|o os IH]; intros v; [done|]. cbn [List.filter].
      destruct (f o) eqn:Hfo; cbn [negb]; [apply IH; intros o' Ho'; apply Ho; by right|].
      change (v = ops_at (List.filter (λ o, negb (f o)) os) p (op_at o p v)). rewrite op_at_untouched; [apply IH; intros o' Ho'; apply Ho; by right|].
      apply not_true_iff_false. intros Ht. rewrite (Ho o) in Hfo; [done|by left|done].
  - transitivity (ops_at (List.filter (λ o, negb (f o)) os) p v).
    + revert v. induction os as [|o os IH]; intros v; [done|]. cbn [List.filter]. change (ops_at (o :: os) p v) with (ops_at os p (op_at o p v)).
      destruct (f o) eqn:Hfo; cbn [negb].
      * rewrite op_at_untouched; [apply IH; intros o' Ho'; apply Ho; by right|]. apply not_true_iff_false. intros Ht.
        rewrite (Ho o) in Hfo; [done|by left|done].
      * change (ops_at os p (op_at o p v) = ops_at (List.filter (λ o, negb (f o)) os) p (op_at o p v)). apply IH. intros o' Ho'. apply Ho. by right.
    + f_equal. symmetry. clear -Ho. revert v. induction os as [|o os IH]; intros v; [done|]. cbn [List.filter].
      destruct (f o) eqn:Hfo; [|apply IH; intros o' Ho'; apply Ho; by right].
      change (ops_at (List.filter f os) p (op_at o p v) = v). rewrite op_at_untouched; [apply IH; intros o' Ho'; apply Ho; by right|].
      apply not_true_iff_false. intros Ht. rewrite (Ho o) in Hfo; [done|by left|done].
Qed.

Lemma fsync_moveless dir os : moveless os →
  map fst (List.filter snd (map (fsync_op dir) os)) = List.filter (λ o, snd (fsync_op dir o)) os ∧
  map fst (List.filter (λ x, negb (snd x)) (map (fsync_op dir) os)) = List.filter (λ o, negb (snd (fsync_op dir o))) os.
Proof.
  induction 1 as [|o os Ho _ [IH1 IH2]]; [done|]. cbn [map List.filter].
  assert (E : fst (fsync_op dir o) = o) by (by destruct o).
  destruct (snd (fsync_op dir o)); cbn [negb map]; rewrite ?E; by rewrite ?IH1, ?IH2.
Qed.

(** Syncing a directory adds no crash image. *)
Lemma crash_fsync d dir img : no_moves d → crash_image (fsync_disk dir d) img → crash_image d img.
Proof.
  intros Hm (kept & Hk & Hs). unfold fsync_disk in *. cbn [durable pending] in *.
  destruct (fsync_moveless dir (pending d) Hm) as [E1 E2]. rewrite E2 in Hk. rewrite E1 in Hs.
  apply sublist_filter_merge in Hk as (k0 & H0 & H1 & H2). exists k0. split; [done|].
  rewrite (apply_ops_split (λ o, snd (fsync_op dir o)) dir); [by rewrite H1, H2|by eapply moveless_sublist|].
  intros [q n|q|] p; cbn; [intros ->%bool_decide_eq_true _; done|intros ->%bool_decide_eq_true _; done|done].
Qed.

(** An image with what [m0] has at [q]. *)
Lemma scrambled_patch (m m0 img : fs) q :
  (∀ p, p ≠ q → m !! p = m0 !! p) → scrambled_fs m img →
  scrambled_fs m0 (partial_alter (λ _, m0 !! q) q img).
Proof.
  intros Hm Hs p. destruct (decide (q = p)) as [<-|Hne].
  - rewrite lookup_partial_alter_eq. destruct (m0 !! q) as [[c []| |]|]; cbn; eauto.
  - rewrite lookup_partial_alter_ne by done. specialize (Hs p). rewrite Hm in Hs by done. exact Hs.
Qed.

(** A claim about every crash image that only looks outside [S] survives the
    changes inside. *)
Lemma crash_stable (S : path → Prop) (φ : fs → Prop) :
  (∀ m m' : fs, (∀ p, ¬ S p → m !! p = m' !! p) → φ m → φ m') →
  stable S (λ d, no_moves d ∧ ∀ img, crash_image d img → φ img).
Proof.
  intros Hφ.
  assert (Hpatch : ∀ d q (m : fs) img, S q → (∃ k0, k0 `sublist_of` pending d ∧ ∀ p, p ≠ q → m !! p = apply_ops k0 (durable d) !! p) →
    (∀ img, crash_image d img → φ img) → scrambled_fs m img → φ img).
  { intros d q m img Hq (k0 & Hk & Hm) Hall Hs.
    apply (Hφ (partial_alter (λ _, apply_ops k0 (durable d) !! q) q img)).
    - intros p Hp. rewrite lookup_partial_alter_ne; [done|]. by intros ->.
    - apply Hall. exists k0. split; [done|]. by eapply scrambled_patch. }
  split.
  - intros d o [Hm Hall] Ho HS. split; [by apply no_moves_add|]. intros img (kept & Hk & Hs). cbn [pending durable add_op] in *.
    assert (Hq : ∃ q, touches o q = true ∧ ∀ p, p ≠ q → touches o p = false).
    { destruct o as [q n|q|]; [exists q|exists q|done]; cbn; (split; [by apply bool_decide_eq_true|]);
        intros p Hne; by apply bool_decide_eq_false. }
    destruct Hq as (q & Hq & Hoth). apply sublist_app_r in Hk as (k1 & k2 & -> & Hk1 & Hk2).
    eapply (Hpatch d q _ img); [by apply HS| |done|exact Hs]. exists k1. split; [done|]. intros p Hp.
    assert (Hm1 : moveless k1) by by eapply moveless_sublist.
    assert (Hk2' : k2 = [] ∨ k2 = [o]).
    { apply sublist_cons_r in Hk2 as [->%sublist_nil_r|(k & -> & ->%sublist_nil_r)]; auto. }
    destruct Hk2' as [->| ->]; [by rewrite app_nil_r|]. rewrite !moveless_at by (apply Forall_app; split; [done|by constructor]) || done.
    unfold ops_at. rewrite foldl_snoc. by apply op_at_untouched, Hoth.
  - intros d dir [Hm Hall]. split; [by apply no_moves_fsync|]. intros img Hi. by apply Hall, (crash_fsync d dir).
  - intros d q c [Hm Hall] Hq. split; [by apply no_moves_sync|]. intros img (kept & Hk & Hs). cbn [pending durable sync_file_disk] in *.
    apply sublist_map_inv in Hk as (k0 & Hk0 & ->). eapply (Hpatch d q _ img); [done| |done|exact Hs]. exists k0. split; [done|].
    intros p Hp. assert (Hm0 : moveless k0) by by eapply moveless_sublist.
    assert (Hms : moveless (map (sync_op q c) k0)).
    { apply Forall_map. eapply List.Forall_impl; [|exact Hm0]. intros o. by rewrite sync_op_is_move. }
    rewrite !moveless_at by done. rewrite lookup_alter_ne by done. clear -Hp. generalize (durable d !! p).
    induction k0 as [|o k0 IH]; intros v; [done|]. cbn [map]. unfold ops_at in *. cbn [foldl]. rewrite op_at_sync by done. apply IH.
Qed.
