(* ===== verification/FsAtomic.v ===== *)
(** * Atomic file replacement ([src/modules/file_mgr/fs_atomic.rs])

    [put_atomic] over the crash model: whatever call the power loss or an I/O
    error cuts, the final name holds its old value or all of the new bytes, and
    once it returns the new bytes are durable. *)

From S2P Require Import Prelude Ids Common FileSystem FsLogic.

(** ** The [tempfile] crate: unused names with its default prefix *)

Definition temp_prefix : string := ".tmp".

Class TempLib := { temp_name : fs → path → string }.
Class TempLaws `(T : TempLib) := {
  temp_fresh : ∀ m dir, m !! (dir ++ [temp_name m dir]) = None;
  temp_prefixed : ∀ m dir, String.prefix temp_prefix (temp_name m dir) = true;
}.

(** A path that no temporary file of its directory can have. *)
Definition not_temp (p : path) : Prop :=
  ∀ dir name, p = dir ++ [name] → String.prefix temp_prefix name = false.

Definition display (p : path) : string := String.concat "/" p.

(** [io_err(path.display(), source)]. *)
Definition io_err (p : path) (k : IoKind) : FileError := FE_Io (display p) k.

Section PutAtomic.
Context `{T : TempLib}.

(** [NamedTempFile::new_in]. *)
Definition new_temp_in (dir : path) : M IoKind path := λ w,
  let tmp := dir ++ [temp_name (visible (disk w)) dir] in
  (_ ← create_file tmp; mret tmp) w.

(** [tmp.write_all(bytes)], [tmp.sync_all()] and [tmp.persist(final_path)];
    [flush] on a [File] does nothing. *)
Definition fill_and_persist (tmp final_path : path) (bytes : list ascii) : M FileError unit :=
  _ ← map_throw (io_err final_path) (write_file tmp bytes);
  _ ← map_throw (io_err final_path) (sync_file tmp);
  map_throw (λ _, FE_Persist) (fs_rename tmp final_path).

(** The temporary file is removed when it is dropped unpersisted. *)
Definition put_atomic (final_path : path) (bytes : list ascii) : M FileError unit :=
  if decide (final_path = []) then throw (io_err final_path IoOther)
  else
    let parent := parent final_path in
    tmp ← map_throw (io_err parent) (new_temp_in parent);
    _ ← on_throw (best_effort (fs_remove_file tmp)) (fill_and_persist tmp final_path bytes);
    map_throw (io_err parent) (fsync_dir parent).
End PutAtomic.

(** ** Specification *)

(** The paths a call may touch: the final name and temporaries beside it. *)
Definition put_scope (final_path : path) (p : path) : Prop :=
  p = final_path ∨ ∃ name, p = parent final_path ++ [name] ∧ String.prefix temp_prefix name = true.

(** What may be at the final name: nothing is known when [old] is [None]. *)
Definition held (old : option (list (option node))) (new : list (option node)) (p : path)
    : list (path * list (option node)) :=
  match old with Some vs => [(p, new ++ vs)] | None => [] end.

Lemma parent_app p (name : string) : parent (p ++ [name]) = p.
Proof. unfold parent. apply removelast_last. Qed.

Lemma path_snoc (p : path) : p ≠ [] → ∃ name, p = parent p ++ [name].
Proof.
  intros Hp. destruct (exists_last Hp) as (q & name & ->). exists name. by rewrite parent_app.
Qed.

Lemma held_stable (S : path → Prop) old new p : ¬ S p → stable S (facts (held old new p)).
Proof.
  intros Hp. apply facts_stable. destruct old; cbn; [|constructor]. by repeat constructor.
Qed.

Lemma held_weaken old new new' p d :
  new ⊆ new' → facts (held old new p) d → facts (held old new' p) d.
Proof.
  intros Hsub. destruct old as [vs|]; [|done]. cbn. rewrite !facts_one. intros H.
  eapply among_weaken; [exact H|]. intros v. rewrite !elem_of_app. intros [?|?]; [left; by apply Hsub|by right].
Qed.

Lemma held_add old new p n d :
  facts (held old new p) d → Some n ∈ new → facts (held old new p) (add_op (OpSet p n) d).
Proof.
  intros H Hin. destruct old as [vs|]; [|apply facts_spec; by intros ? []]. cbn [held] in *. rewrite facts_one in H |- *.
  apply among_add; [done|]. right. split; [done|]. intros v. cbn.
  rewrite bool_decide_eq_true_2 by done. apply elem_of_app. by left.
Qed.

(** [triple]s of the calls on a temporary file, over a frame that ignores it. *)
Section TempCalls.
Variable F : Disk → Prop.
Variable tmp : path.
Hypothesis HF : stable (λ p, p = tmp) F.

Lemma touches_set (p q : path) n : touches (OpSet p n) q = true → q = p.
Proof. cbn. by intros ->%bool_decide_eq_true. Qed.
Lemma touches_del (p q : path) : touches (OpDel p) q = true → q = p.
Proof. cbn. by intros ->%bool_decide_eq_true. Qed.

Lemma frame_set n d : F d → F (add_op (OpSet tmp n) d).
Proof. intros Hd. apply (st_add _ _ HF); [done|done|]. intros p. apply touches_set. Qed.

Lemma create_file_triple :
  triple F (create_file tmp) (λ _ d, F d ∧ visible d !! tmp = Some (File [] false)) F F.
Proof.
  apply triple_syscall; [done|done|]. intros d Hd. destruct (stat tmp d); [done|].
  destruct (parent_ok tmp d); [|done]. split; [by apply frame_set|].
  rewrite visible_add. apply lookup_insert_eq.
Qed.

Lemma write_file_triple c b c' :
  triple (λ d, F d ∧ visible d !! tmp = Some (File c b)) (write_file tmp c')
    (λ _ d, F d ∧ visible d !! tmp = Some (File (c ++ c') false)) F F.
Proof.
  apply triple_syscall; [naive_solver..|]. intros d [Hd Hv]. unfold stat. rewrite Hv.
  split; [by apply frame_set|]. rewrite visible_add. apply lookup_insert_eq.
Qed.

Lemma sync_file_triple c b :
  (∀ d, F d → still d tmp) →
  triple (λ d, F d ∧ visible d !! tmp = Some (File c b)) (sync_file tmp)
    (λ _ d, F d ∧ visible d !! tmp = Some (File c true)) F F.
Proof.
  intros Hnm. apply triple_syscall; [naive_solver..|]. intros d [Hd Hv]. unfold stat. rewrite Hv.
  split; [by apply (st_sync _ _ HF)|]. rewrite visible_sync_still by auto.
  rewrite bool_decide_eq_true_2 by done. by rewrite Hv.
Qed.

Lemma remove_file_triple : triple F (fs_remove_file tmp) (λ _, F) F F.
Proof.
  apply triple_syscall; [done|done|]. intros d Hd. destruct (stat tmp d) as [[| |]|]; try done;
    (apply (st_add _ _ HF); [done|done|intros p; apply touches_del]).
Qed.
End TempCalls.

(** Renaming a regular file onto another name. *)
Lemma rename_file_triple (F G : Disk → Prop) src dst c :
  src ≠ dst →
  (∀ d, F d → G (add_op (OpDel src) (add_op (OpSet dst (File c true)) d))) →
  triple (λ d, F d ∧ visible d !! src = Some (File c true)) (fs_rename src dst)
    (λ _ d, G d ∧ visible d !! dst = Some (File c true)) F F.
Proof.
  intros Hne HG. apply triple_syscall; [naive_solver..|]. intros d [Hd Hv].
  unfold stat. rewrite Hv. destruct (parent_ok dst d); cbn [negb]; [|done].
  assert (Hpost : G (add_op (OpDel src) (add_op (OpSet dst (File c true)) d)) ∧
    visible (add_op (OpDel src) (add_op (OpSet dst (File c true)) d)) !! dst = Some (File c true)).
  { split; [by apply HG|]. rewrite !visible_add. cbn.
    rewrite lookup_delete_ne by done. apply lookup_insert_eq. }
  by destruct (visible d !! dst) as [[| |]|].
Qed.

Lemma fsync_dir_triple (F G : Disk → Prop) dir :
  (∀ d, F d → G (fsync_disk dir d)) → triple F (fsync_dir dir) (λ _, G) F F.
Proof.
  intros HG. apply triple_syscall; [done|done|]. intros d Hd.
  destruct (stat dir d) as [[| |]|]; try done. by apply HG.
Qed.

(** ** [create_dir_all] *)

(** Where each prefix is a directory or free to be made. *)
Lemma mkdir_triple (F : Disk → Prop) (S : path → Prop) dn rest :
  stable S F →
  (∀ d q, F d → q ≠ [] → q `prefix_of` dn ++ rest → S q ∨ visible d !! q = Some Dir) →
  triple F (mkdir_prefixes dn rest) (λ _, F) F F.
Proof.
  intros HS. revert dn. induction rest as [|c rest IH]; intros dn HF; cbn [mkdir_prefixes].
  { by apply triple_ret. }
  eapply triple_bind with (R := λ _, F).
  - apply triple_syscall; [done|done|]. intros d Hd. unfold stat.
    destruct (HF d (dn ++ [c]) Hd) as [Hq|Hq]; [by destruct dn| |..].
    + exists rest. by rewrite <-app_assoc.
    + destruct (visible d !! (dn ++ [c])) as [[| |]|]; try done.
      destruct (parent_ok _ d); [|done]. apply (st_add _ _ HS); [done|done|].
      by intros p ->%touches_set.
    + by rewrite Hq.
  - intros ?. apply IH. rewrite <-app_assoc. exact HF.
Qed.

(** When it returns, the directory is there. *)
Lemma mkdir_there_triple (F : Disk → Prop) (S : path → Prop) dn rest :
  stable S F → (∀ q, q ≠ [] → q `prefix_of` dn ++ rest → S q) → rest ≠ [] →
  triple F (mkdir_prefixes dn rest) (λ _ d, F d ∧ visible d !! (dn ++ rest) = Some Dir) F F.
Proof.
  intros HS. revert dn. induction rest as [|c rest IH]; intros dn Hq Hne; [done|]. cbn [mkdir_prefixes].
  eapply triple_bind with (R := λ _ d, F d ∧ visible d !! (dn ++ [c]) = Some Dir).
  - apply triple_syscall; [done|done|]. intros d Hd. unfold stat.
    destruct (visible d !! (dn ++ [c])) as [[| |]|] eqn:E; try done.
    destruct (parent_ok _ d); [|done]. split; [|rewrite visible_add; apply lookup_insert_eq].
    apply (st_add _ _ HS); [done|done|]. intros p ->%touches_set. apply Hq; [by destruct dn|].
    exists rest. by rewrite <-app_assoc.
  - intros ?. destruct rest as [|c' rest]; [by apply triple_ret|].
    replace (dn ++ c :: c' :: rest) with ((dn ++ [c]) ++ c' :: rest) in * by (by rewrite <-app_assoc).
    eapply triple_conseq; [apply IH|..]; try done. by intros d [].
Qed.

(** ** [put_atomic] *)

Section Spec.
Context `{TL : TempLaws}.

Lemma new_temp_in_triple (F : Disk → Prop) dir :
  (∀ tmp name, tmp = dir ++ [name] → String.prefix temp_prefix name = true →
     stable (λ p, p = tmp) F) →
  triple F (new_temp_in dir)
    (λ tmp d, (F d ∧ visible d !! tmp = Some (File [] false)) ∧
              ∃ name, tmp = dir ++ [name] ∧ String.prefix temp_prefix name = true) F F.
Proof.
  intros HF w Hw. unfold new_temp_in. set (name := temp_name (visible (disk w)) dir).
  assert (Hn : String.prefix temp_prefix name = true) by apply temp_prefixed.
  pose proof (create_file_triple F (dir ++ [name]) (HF _ name eq_refl Hn) w Hw) as H.
  unfold mbind, M_bind. destruct (create_file _ w) as [w' [[]|e|]]; [|done..].
  split; [done|]. eauto.
Qed.

(** The specification of [put_atomic] over any frame [F] that ignores the final
    name and its temporaries; [N] keeps the pending moves away from them, and the
    directory's sync turns [F] into [G]. *)
Lemma put_atomic_fsync_triple (F N G : Disk → Prop) old final bytes :
  final ≠ [] → not_temp final → stable (put_scope final) F → stable (put_scope final) N →
  (∀ d p, N d → put_scope final p → still d p) →
  (∀ d, F d → N d → G (fsync_disk (parent final) d)) →
  let new := Some (File bytes true) in
  triple (λ d, F d ∧ N d ∧ facts (held old [] final) d)
    (put_atomic final bytes)
    (λ _ d, G d ∧ N d ∧ definite d final new)
    (λ d, F d ∧ N d ∧ facts (held old [new] final) d)
    (λ d, F d ∧ N d ∧ facts (held old [new] final) d).
Proof.
  intros Hne Hnt HF HN Hstill HG new.
  destruct (path_snoc final Hne) as [fname Hfin].
  unfold put_atomic. rewrite decide_False by done.
  set (Base := λ vs d, F d ∧ N d ∧ facts (held old vs final) d).
  assert (Hweak : ∀ d, Base [] d → Base [new] d).
  { intros d (H1 & H2 & H3). split_and!; [done|done|]. eapply held_weaken; [|exact H3]. set_solver. }
  assert (Hst : ∀ tmp name vs, tmp = parent final ++ [name] → String.prefix temp_prefix name = true →
    tmp ≠ final ∧ stable (λ p, p = tmp) (Base vs)).
  { intros tmp name vs -> Hn. assert (parent final ++ [name] ≠ final) as Hd.
    { intros E. rewrite (Hnt (parent final) name) in Hn; [done|congruence]. }
    split; [done|]. apply stable_and; [|apply stable_and].
    - eapply stable_weaken; [exact HF|]. intros p ->. right. eauto.
    - eapply stable_weaken; [exact HN|]. intros p ->. right. eauto.
    - apply held_stable. congruence. }
  eapply triple_bind.
  { apply triple_map_throw. eapply triple_conseq; [apply (new_temp_in_triple (Base []) (parent final))|..].
    - intros tmp name Ht Hn. by apply (Hst tmp name).
    - done.
    - intros tmp d H. exact H.
    - exact Hweak.
    - exact Hweak. }
  intros tmp. cbv beta.
  eapply triple_conseq with (P' := λ d, (∃ name, tmp = parent final ++ [name] ∧
      String.prefix temp_prefix name = true) ∧ (Base [] d ∧ visible d !! tmp = Some (File [] false)));
    [|naive_solver|intros ? d H; exact H|intros d H; exact H|intros d H; exact H].
  apply triple_pure. intros (name & Htmp & Hn).
  destruct (Hst tmp name [] Htmp Hn) as [Hdiff Hst0]. destruct (Hst tmp name [new] Htmp Hn) as [_ Hst1].
  set (Mid := λ d, Base [new] d ∧ visible d !! final = new).
  eapply triple_bind with (R := λ _, Mid).
  - eapply triple_on_throw with (X' := Base [new]).
    + unfold fill_and_persist. eapply triple_bind.
      { apply triple_map_throw. eapply triple_conseq; [apply (write_file_triple (Base []) tmp Hst0 [] false bytes)|..];
          [done|intros ? d H; exact H|exact Hweak|exact Hweak]. }
      intros ?. cbv beta. eapply triple_bind.
      { apply triple_map_throw. eapply triple_conseq;
          [apply (sync_file_triple (Base []) tmp Hst0 bytes false); intros d Hd; apply Hstill; [apply Hd|right; eauto]|..];
          [done|intros ? d H; exact H|exact Hweak|exact Hweak]. }
      intros ?. cbv beta. apply triple_map_throw.
      eapply triple_conseq; [apply (rename_file_triple (Base []) (Base [new]) tmp final bytes)|..].
      * done.
      * intros d Hd%Hweak. apply (st_add _ _ Hst1); [|done|intros p; apply touches_del].
        destruct Hd as (H1 & H2 & H3). split_and!.
        -- apply (st_add _ _ HF); [done|done|]. intros p Hp%touches_set. by left.
        -- apply (st_add _ _ HN); [done|done|]. intros p Hp%touches_set. by left.
        -- apply held_add; [done|]. apply list_elem_of_singleton. done.
      * done.
      * intros ? d H. exact H.
      * exact Hweak.
      * exact Hweak.
    + apply triple_best_effort. by apply remove_file_triple.
  - intros ?. cbv beta. apply triple_map_throw.
    eapply triple_conseq; [apply (fsync_dir_triple Mid (λ d, G d ∧ N d ∧ definite d final new))|..].
    + intros d [(H1 & H2 & H3) Hv]. split_and!.
      * by apply HG.
      * by apply (st_fsync _ _ HN).
      * apply definite_of_fsync_still; [|done|done]. apply Hstill; [done|by left].
    + done.
    + intros ? d H. exact H.
    + intros d [H _]. exact H.
    + intros d [H _]. exact H.
Qed.

Lemma put_atomic_triple (F : Disk → Prop) old final bytes :
  final ≠ [] → not_temp final → stable (put_scope final) F →
  let new := Some (File bytes true) in
  triple (λ d, F d ∧ no_moves d ∧ facts (held old [] final) d)
    (put_atomic final bytes)
    (λ _ d, F d ∧ no_moves d ∧ definite d final new)
    (λ d, F d ∧ no_moves d ∧ facts (held old [new] final) d)
    (λ d, F d ∧ no_moves d ∧ facts (held old [new] final) d).
Proof.
  intros Hne Hnt HF. apply put_atomic_fsync_triple; [done|done|done|apply no_moves_stable|..].
  - intros d p H _. by apply no_moves_still.
  - intros d Hd _. by apply (st_fsync _ _ HF).
Qed.
End Spec.

Lemma not_temp_snoc (p : path) name : String.prefix temp_prefix name = false → not_temp (p ++ [name]).
Proof. intros H dir n E. apply app_inj_tail in E as [_ <-]. done. Qed.

(** ** A concrete naming of temporaries: longer than every name in the tree *)

Definition names_total (m : fs) : nat :=
  foldr (λ x acc, S (list_sum (map String.length (fst x))) + acc) 0 (map_to_list m).

Definition long_temp_lib : TempLib := {|
  temp_name m dir := (temp_prefix ++ string_of_list_ascii (repeat "x"%char (names_total m)))%string;
|}.

Lemma names_total_le m p n : m !! p = Some n → S (list_sum (map String.length p)) ≤ names_total m.
Proof.
  intros Hp%elem_of_map_to_list. unfold names_total.
  induction (map_to_list m) as [|[q k] l IH]; [by apply elem_of_nil in Hp|]. cbn [foldr fst].
  apply elem_of_cons in Hp as [[= -> ->]|Hp]; [lia|]. specialize (IH Hp). lia.
Qed.

Lemma string_length_app s t : String.length (s ++ t) = String.length s + String.length t.
Proof. by rewrite <-!length_bytes_of, bytes_of_app, length_app. Qed.

Lemma prefix_app s t : String.prefix s (s ++ t) = true.
Proof.
  induction s as [|c s IH]; [by destruct t|].
  change ((if ascii_dec c c then String.prefix s (s ++ t) else false) = true).
  by destruct (ascii_dec c c).
Qed.

Lemma long_temp_laws : TempLaws long_temp_lib.
Proof.
  split.
  - intros m dir. apply eq_None_not_Some. intros [n Hn%names_total_le].
    rewrite map_app, list_sum_app in Hn. cbn [map list_sum foldr] in Hn.
    unfold temp_name, long_temp_lib in Hn. rewrite string_length_app in Hn.
    rewrite <-(length_bytes_of (string_of_list_ascii _)), bytes_of_string_of, repeat_length in Hn. lia.
  - intros m dir. apply prefix_app.
Qed.

(** ** Properties *)

(** C3: Replacing a file is atomic and durable.  Wherever the power loss or an
    I/O error cuts [put_atomic], after a crash the final name holds its old
    value or exactly the new bytes, never a torn mix; once the call has
    returned it holds the new bytes; and no other file whose contents were
    durable is disturbed (temporaries of the same directory apart). *)
Theorem put_atomic_crash_safe `{TL : TempLaws} (final : path) (bytes : list ascii)
    (old : option node) (others : list (path * list (option node))) (w : World)
    (Hne : final ≠ []) (Hnt : not_temp final) (Hnm : no_moves (disk w))
    (Hold : definite (disk w) final old) (Hset : settled old = true)
    (Hothers : facts others (disk w))
    (Hdisj : Forall (λ x, ¬ put_scope final (fst x)) others) :
  let '(w', r) := put_atomic final bytes w in
  facts others (disk w') ∧
  (∀ img, crash_image (disk w') img →
     (img !! final = old ∨ img !! final = Some (File bytes true)) ∧
     (r = Ret tt → img !! final = Some (File bytes true))).
Proof.
  pose proof (put_atomic_triple (facts others) (Some [old]) final bytes Hne Hnt
    (facts_stable _ _ Hdisj) w) as H.
  cbv beta zeta in H. specialize (H ltac:(split_and!; [done|done|cbn; by apply facts_one])).
  destruct (put_atomic final bytes w) as [w' r].
  assert (Hcase : ∀ d, facts (held (Some [old]) [Some (File bytes true)] final) d →
    ∀ img, crash_image d img → img !! final = old ∨ img !! final = Some (File bytes true)).
  { intros d Hd img Hi. cbn in Hd. apply facts_one in Hd.
    apply (among_crash _ _ _ img) in Hd; [|cbn; by rewrite Hset|done].
    apply elem_of_cons in Hd as [?|Hd%list_elem_of_singleton]; auto. }
  destruct r as [[]|e|]; destruct H as (H1 & H2 & H3); (split; [done|]); intros img Hi;
    (split; [|done || intros _]); try (by eapply Hcase); [|by eapply definite_crash].
  right. by eapply definite_crash.
Qed.

(** A root directory with one old file. *)
Definition pa_world (faults : list bool) : World :=
  mkWorld (mkDisk {[ [] := Dir; ["f"%string] := File (bytes_of "old") true ]} []) None faults.

Lemma pa_not_temp : not_temp ["f"%string].
Proof.
  intros dir name E. destruct dir as [|x dir]; cbn in E; [|destruct dir; discriminate E].
  injection E as <-. reflexivity.
Qed.

Lemma put_atomic_crash_safe_witness :
  let '(w', r) := put_atomic (T := long_temp_lib) ["f"%string] (bytes_of "new") (pa_world []) in
  r = Ret tt ∧ ∀ img, crash_image (disk w') img → img !! ["f"%string] = Some (File (bytes_of "new") true).
Proof.
  pose proof (put_atomic_crash_safe (TL := long_temp_laws) ["f"%string] (bytes_of "new")
    (Some (File (bytes_of "old") true)) [] (pa_world [])) as H.
  assert (Hr : snd (put_atomic (T := long_temp_lib) ["f"%string] (bytes_of "new") (pa_world [])) = Ret tt)
    by (vm_compute; reflexivity).
  destruct (put_atomic _ _ _) as [w' r]. cbn in Hr. subst r. split; [done|].
  intros img Hi. apply (H ltac:(done) pa_not_temp).
  - by constructor.
  - split; [vm_compute; left|constructor].
  - reflexivity.
  - constructor.
  - constructor.
  - exact Hi.
  - reflexivity.
Defined.

(** When only the final directory sync fails the call reports an error although
    the new bytes are already published under the final name. *)
Lemma put_atomic_error_after_rename :
  let '(w', r) := put_atomic (T := long_temp_lib) ["f"%string] (bytes_of "new")
                    (pa_world [false; false; false; false; true]) in
  r = Throw (FE_Io "" IoOther) ∧ visible (disk w') !! ["f"%string] = Some (File (bytes_of "new") true).
Proof. vm_compute. split; reflexivity. Qed.
