(* ===== verification/Schema.v ===== *)
(** * On-disk schema ([src/modules/file_mgr/schema.rs], [cache.rs])

    Path layout, the size and entry caps, the JSON readers and writers of
    [workspace.json], [heads.json], the head manifests and the active pointer,
    and the per-workspace cache cell.  [serde_json] is a parameter ([Json]) with
    the round trip the source relies on ([JsonLaws]). *)

From S2P Require Import Prelude Ids Common Workspace FileSystem FsLogic FsAtomic.

(** ** [serde_json] *)

Class Json (A : Type) := {
  to_vec : A → option (list ascii);
  from_slice : list ascii → option A;
}.
Class JsonLaws (A : Type) `{Json A} := {
  from_to : ∀ a b, to_vec a = Some b → from_slice b = Some a;
}.

(** ** Path layout *)

Definition WORKSPACE_CORE_FILENAME : string := "workspace.json".
Definition HEAD_INDEX_FILENAME : string := "heads.json".
Definition HEADS_DIR_NAME : string := "heads".
Definition HEAD_ARTIFACT_EXTENSION : string := "mpk".
Definition HEAD_MANIFEST_EXTENSION : string := "json".
Definition MAX_WORKSPACE_CORE_BYTES : Z := 64 * 1024.
Definition WORKSPACES_DIR_NAME : string := "workspaces".
Definition ROOT_TMP_DIR_NAME : string := ".tmp".
Definition ACTIVE_DIR_NAME : string := "active".
Definition ACTIVE_GENERATIONS_DIR_NAME : string := "generations".
Definition ACTIVE_TMP_DIR_NAME : string := ".tmp".
Definition ACTIVE_CURRENT_FILENAME : string := "current.json".
Definition ACTIVE_MANIFEST_FILENAME : string := "manifest.json".
Definition ACTIVE_HEAD_FILENAME : string := "head.mpk".
Definition ACTIVE_LABELS_FILENAME : string := "labels.txt".

Definition workspace_core_path (workspace_dir : path) : path := workspace_dir ++ [WORKSPACE_CORE_FILENAME].
Definition head_index_path (workspace_dir : path) : path := workspace_dir ++ [HEAD_INDEX_FILENAME].
Definition heads_dir (workspace_dir : path) : path := workspace_dir ++ [HEADS_DIR_NAME].

Definition workspaces_dir (root : path) : path := root ++ [WORKSPACES_DIR_NAME].
Definition root_tmp_dir (root : path) : path := root ++ [ROOT_TMP_DIR_NAME].
Definition active_dir (root : path) : path := root ++ [ACTIVE_DIR_NAME].
Definition active_current_path (root : path) : path := active_dir root ++ [ACTIVE_CURRENT_FILENAME].
Definition active_generations_dir (root : path) : path := active_dir root ++ [ACTIVE_GENERATIONS_DIR_NAME].
Definition active_generation_dir (root : path) (activation_id : string) : path :=
  active_generations_dir root ++ [activation_id].
Definition active_staging_dir (root : path) : path := active_dir root ++ [ACTIVE_TMP_DIR_NAME].

(** ** Activation ids *)

Inductive ActivationIdError : Type :=
  | ActEmpty
  | ActTooLong (len : nat)
  | ActLeadingDot
  | ActBadByte (index : nat) (byte : ascii).

#[export] Instance ActivationIdError_eq_dec : EqDecision ActivationIdError.
Proof. solve_decision. Defined.

Definition validate_activation_id (s : string) : result ActivationIdError unit :=
  if (String.length s =? 0) then Err ActEmpty
  else if (64 <? String.length s) then Err (ActTooLong (String.length s))
  else if Ascii.eqb (byte_at (bytes_of s) 0) "." then Err ActLeadingDot
  else match first_bad (λ _, is_filename_byte) 0 (bytes_of s) with
       | Some (i, b) => Err (ActBadByte i b)
       | None => Ok tt
       end.

Record ActiveCurrentPointer := mkActiveCurrentPointer { activation_id : string }.

Section Schema.
Context `{U : UuidLib} `{T : TempLib}.
Context `{JC : !Json WorkspaceCore} `{JH : !Json HeadIndex} `{JM : !Json HeadManifest}.
Context `{JP : !Json ActiveCurrentPointer} `{JA : !Json ActiveHeadManifest}.

Definition head_manifest_path (workspace_dir : path) (head_id : HeadId) : path :=
  heads_dir workspace_dir ++ [(HeadId_display head_id ++ "." ++ HEAD_MANIFEST_EXTENSION)%string].
Definition head_artifact_path (workspace_dir : path) (head_id : HeadId) : path :=
  heads_dir workspace_dir ++ [(HeadId_display head_id ++ "." ++ HEAD_ARTIFACT_EXTENSION)%string].
Definition workspace_dir_for (root : path) (id : WorkspaceId) : path :=
  workspaces_dir root ++ [WorkspaceId_display id].

(** [serde_json::to_vec(v)?]. *)
Definition serialize {A} `{Json A} (a : A) : M FileError (list ascii) :=
  match to_vec a with Some b => mret b | None => throw FE_MetadataSerialize end.

(** [serde_json::from_slice(..).map_err(metadata_parse_err)]. *)
Definition parse {A} `{Json A} (p : path) (bytes : list ascii) : M FileError A :=
  match from_slice bytes with Some a => mret a | None => throw (FE_MetadataParse (display p)) end.

(** [std::fs::read(path).map_err(io_err)]. *)
Definition read_file (p : path) : M FileError (list ascii) := map_throw (io_err p) (fs_read p).

(** The open and its [metadata], the length check, and the bounded read. *)
Definition read_capped (p : path) (cap : Z) : M FileError (list ascii) :=
  node ← map_throw (io_err p) (symlink_metadata p);
  let len := match node with File c _ => Z.of_nat (List.length c) | _ => 0%Z end in
  if (cap <? len)%Z then throw (FE_MetadataTooLarge (display p) len cap)
  else content ← read_file p; mret (take (Z.to_nat cap) content).

Definition read_workspace_core (workspace_dir : path) : M FileError WorkspaceCore :=
  let p := workspace_core_path workspace_dir in
  bytes ← read_capped p MAX_WORKSPACE_CORE_BYTES;
  parse p bytes.

Definition write_workspace_core (workspace_dir : path) (core : WorkspaceCore) : M FileError unit :=
  let p := workspace_core_path workspace_dir in
  bytes ← serialize core;
  if (MAX_WORKSPACE_CORE_BYTES <? Z.of_nat (List.length bytes))%Z
  then throw (FE_MetadataTooLarge (display p) (Z.of_nat (List.length bytes)) MAX_WORKSPACE_CORE_BYTES)
  else put_atomic p bytes.

Definition read_head_index (workspace_dir : path) : M FileError HeadIndex :=
  let p := head_index_path workspace_dir in
  bytes ← read_file p;
  index ← parse p bytes;
  if (MAX_HEADS_PER_WORKSPACE <? List.length (heads index))
  then throw (FE_MetadataParse (display p))
  else mret index.

Definition write_head_index (workspace_dir : path) (index : HeadIndex) : M FileError unit :=
  let p := head_index_path workspace_dir in
  if (MAX_HEADS_PER_WORKSPACE <? List.length (heads index))
  then throw (FE_MetadataParse (display p))
  else bytes ← serialize index; put_atomic p bytes.

Definition read_head_manifest (workspace_dir : path) (head_id : HeadId) : M FileError HeadManifest :=
  let p := head_manifest_path workspace_dir head_id in
  bytes ← read_file p;
  manifest ← parse p bytes;
  match HeadManifest_validate manifest with
  | Ok _ => mret manifest
  | Err _ => throw (FE_MetadataParse (display p))
  end.

Definition write_head_manifest (workspace_dir : path) (manifest : HeadManifest) : M FileError unit :=
  let p := head_manifest_path workspace_dir (hm_head_id manifest) in
  bytes ← serialize manifest;
  put_atomic p bytes.

Definition read_active_current (root : path) : M FileError ActiveCurrentPointer :=
  let p := active_current_path root in
  bytes ← read_file p;
  pointer ← parse p bytes;
  match validate_activation_id (activation_id pointer) with
  | Ok _ => mret pointer
  | Err _ => throw (FE_MetadataParse (display p)) (* [deserialize_activation_id] *)
  end.

Definition write_active_current (root : path) (pointer : ActiveCurrentPointer) : M FileError unit :=
  bytes ← serialize pointer;
  put_atomic (active_current_path root) bytes.

Definition check_activation_id (s : string) : M FileError unit :=
  match validate_activation_id s with
  | Ok _ => mret tt
  | Err _ => throw (FE_InvalidName s)
  end.

Definition active_manifest_path (root : path) (id : string) : path :=
  active_generation_dir root id ++ [ACTIVE_MANIFEST_FILENAME].

Definition read_active_manifest (root : path) (id : string) : M FileError ActiveHeadManifest :=
  _ ← check_activation_id id;
  bytes ← read_file (active_manifest_path root id);
  parse (active_manifest_path root id) bytes.

Definition write_active_manifest (root : path) (id : string) (manifest : ActiveHeadManifest)
    : M FileError unit :=
  _ ← check_activation_id id;
  bytes ← serialize manifest;
  put_atomic (active_manifest_path root id) bytes.

(** ** The cache cell ([cache.rs]) *)

Record WorkspaceCacheCell := mkCell { cell_core : WorkspaceCore; cell_heads : HeadIndex }.

Definition load_from_disk (workspace_dir : path) : M FileError WorkspaceCacheCell :=
  core ← read_workspace_core workspace_dir;
  hs ← read_head_index workspace_dir;
  mret (mkCell core hs).

Definition publish_core (core : WorkspaceCore) (c : WorkspaceCacheCell) : WorkspaceCacheCell :=
  mkCell core (cell_heads c).
Definition publish_heads (hs : HeadIndex) (c : WorkspaceCacheCell) : WorkspaceCacheCell :=
  mkCell (cell_core c) hs.

End Schema.

(** ** Lemmas *)

(** An accepted activation id is a single safe path component. *)
Lemma validate_activation_id_safe s u :
  validate_activation_id s = Ok u ↔ safe_component 64 s.
Proof.
  destruct u. unfold validate_activation_id, safe_component.
  destruct (Nat.eqb_spec (String.length s) 0) as [H0|H0].
  { split; [done|]. destruct s; [naive_solver|done]. }
  apply length_pos_neq in H0.
  destruct (Nat.ltb_spec 64 (String.length s)) as [Hl|Hl]; [split; [done|lia]|].
  rewrite (lookup_byte_at (bytes_of s) 0).
  2:{ rewrite length_bytes_of. destruct s; [done|cbn; lia]. }
  destruct (Ascii.eqb_spec (byte_at (bytes_of s) 0) ".") as [E|E]; [rewrite E; naive_solver|].
  destruct (first_bad _ _ _) as [[i b]|] eqn:F.
  - apply first_bad0_Some in F as (Hk & Hbad & _). split; [done|].
    intros (_ & _ & _ & Hall). rewrite Hall in Hbad; [done|]. apply list_elem_of_lookup. eauto.
  - rewrite first_bad_all in F. naive_solver.
Qed.

(** ** A concrete serializer: the bits of a value's code *)

Definition bits_json (A : Type) `{Countable A} : Json A := {|
  to_vec a := Some (bits (encode a));
  from_slice b := p ← unbits b; decode p;
|}.

Lemma bits_json_laws A `{Countable A} : @JsonLaws A (bits_json A).
Proof. split. intros a b [= <-]. cbn. rewrite unbits_bits. cbn. apply decode_encode. Qed.

Section Countables.
Context `{U : UuidLib}.

#[export] Instance WorkspaceRevision_countable : Countable WorkspaceRevision.
Proof. apply (inj_countable' (λ r, (rev_id r, rev_at r)) (λ x, mkWorkspaceRevision x.1 x.2)). by intros []. Defined.

#[export] Instance WorkspaceCore_countable : Countable WorkspaceCore.
Proof.
  apply (inj_countable' (λ c, (core_id c, (core_name c, (core_tags c, (core_created_at c,
    (core_revision c, core_head_count c))))))
    (λ '(a, (b, (c, (d, (e, f))))), mkWorkspaceCore a b c d e f)).
  by intros [].
Defined.

#[export] Instance HeadRecord_countable : Countable HeadRecord.
Proof.
  apply (inj_countable' (λ r, (hr_head_id r, (hr_revision r, (hr_sha256 r, (hr_n_classes r,
    (hr_size_bytes r, hr_created_at r))))))
    (λ '(a, (b, (c, (d, (e, f))))), mkHeadRecord a b c d e f)).
  by intros [].
Defined.

#[export] Instance HeadIndex_countable : Countable HeadIndex.
Proof. apply (inj_countable' heads mkHeadIndex). by intros []. Defined.

#[export] Instance HeadManifest_countable : Countable HeadManifest.
Proof.
  apply (inj_countable' (λ m, (hm_head_id m, (hm_workspace_id m, (hm_revision m, (hm_sha256 m,
    (hm_n_classes m, (hm_size_bytes m, (hm_created_at m, hm_labels m))))))))
    (λ '(a, (b, (c, (d, (e, (f, (g, h))))))), mkHeadManifest a b c d e f g h)).
  by intros [].
Defined.
End Countables.
