(* ===== verification/ActiveHead.v ===== *)
(** * Head activation ([src/modules/file_mgr/active_head_writer.rs])

    Staging a candidate generation with its hashes and manifest, publishing it
    (directory rename, then the pointer), pruning old generations.

    Parameters: the [sha2] crate ([Sha256Lib]), the runtime loader of a head
    (the opaque [HeadInnerLoader] closure), the fresh v4 text of the generation
    id and the wall clock. *)

From S2P Require Import Prelude Ids AssetPath Common Text Workspace FileSystem FsLogic FsAtomic Schema.

(** ** The [sha2] crate *)

(** [Sha256::new], [update] and [finalize]; hashing is incremental. *)
Class Sha256Lib := {
  sha_state : Type;
  sha_new : sha_state;
  sha_update : sha_state → list ascii → sha_state;
  sha_finalize : sha_state → list Z;
}.
Class Sha256Laws `(H : Sha256Lib) := {
  sha_update_nil : ∀ s, sha_update s [] = s;
  sha_update_app : ∀ s a b, sha_update (sha_update s a) b = sha_update s (a ++ b);
}.

(** ** Labels as text *)

(** [labels.join("\n")]. *)
Definition labels_to_text (labels : list string) : list ascii := join_with lf (map bytes_of labels).

(** [HeadValidationError::kind]. *)
Definition HeadValidationError_kind (e : HeadValidationError) : ErrorKind := Internal.

Section Active.
Context `{U : UuidLib} `{T : TempLib} `{H : Sha256Lib}.
Context `{JM : !Json HeadManifest} `{JP : !Json ActiveCurrentPointer} `{JA : !Json ActiveHeadManifest}.
(** What the runtime loader builds. *)
Context {Candidate : Type}.

Definition sha256_hex_of (bytes : list ascii) : string :=
  string_of_list_ascii (hex_lowercase (sha_finalize (sha_update sha_new bytes))).

Record DefaultHeadSource := mkDefaultHeadSource { dhs_path : path; dhs_labels_path : path }.

Inductive ActivationOriginInput : Type :=
  | OriginInputHead (workspace_dir : path) (workspace_id : WorkspaceId) (head_id : HeadId)
  | OriginInputDefault (source : DefaultHeadSource).

Record PendingActivation := mkPendingActivation {
  pa_root : path;
  pa_origin_input : ActivationOriginInput;
  pa_now_rfc3339 : string;
}.

Record ActivationResult := mkActivationResult {
  ar_manifest : ActiveHeadManifest;
  ar_activation_id : string;
  ar_candidate : Candidate;
}.

Inductive ActivationError : Type :=
  | AE_NotFound (what : string)
  | AE_HashMismatch (what expected observed : string)
  | AE_Validation (e : ActiveHeadValidationError)
  | AE_SourceManifestInvalid (e : HeadValidationError)
  | AE_File (e : FileError)
  | AE_Preload (message : string).

Definition ActivationError_kind (e : ActivationError) : ErrorKind :=
  match e with
  | AE_NotFound _ => NotFound
  | AE_HashMismatch _ _ _ | AE_Preload _ => UserInput
  | AE_Validation _ => Internal
  | AE_SourceManifestInvalid e => HeadValidationError_kind e
  | AE_File e => FileError_kind e
  end.

(** The loader reads the two staged files. *)
Definition HeadInnerLoader : Type := fs → path → path → HeadId → result string Candidate.

(** A panic ends the call there. *)
Definition panic {E A} : M E A := λ w, (w, Crash).

(** [std::fs::File::open]. *)
Definition fs_open (p : path) : M IoKind unit :=
  syscall (λ d, (d, match stat p d with None => Err IoNotFound | _ => Ok tt end)).

(** [std::fs::File::create]: created, or truncated. *)
Definition fs_create (p : path) : M IoKind unit :=
  syscall (λ d, match stat p d with
                | Some Dir => (d, Err IoOther)
                | _ => if parent_ok p d then (add_op (OpSet p (File [] false)) d, Ok tt)
                       else (d, Err IoNotFound)
                end).

(** One [read] of at most [len] bytes at the handle's offset. *)
Definition fs_read_at (p : path) (off len : nat) : M IoKind (list ascii) :=
  syscall (λ d, (d, match stat p d with
                    | Some (File c _) => Ok (take len (drop off c))
                    | _ => Err IoOther
                    end)).

(** A program that looks at the tree before it runs. *)
Definition with_tree {E A : Type} (f : fs → M E A) : M E A := λ w, f (visible (disk w)) w.

Definition COPY_CHUNK : nat := 64 * 1024.

(** The loop of [copy_and_hash]; one round per chunk and one that reads the
    end. *)
Fixpoint copy_loop (fuel : nat) (src dst : path) (off : nat) (s : sha_state) : M FileError sha_state :=
  match fuel with
  | 0 => throw (io_err src IoOther)
  | S fuel =>
      buf ← map_throw (io_err src) (fs_read_at src off COPY_CHUNK);
      if (List.length buf =? 0) then mret s
      else
      let s := sha_update s buf in
      _ ← map_throw (io_err dst) (write_file dst buf);
      copy_loop fuel src dst (off + List.length buf) s
  end.

Definition file_len (p : path) (m : fs) : nat :=
  match m !! p with Some (File c _) => List.length c | _ => 0 end.

Definition copy_and_hash (src dst : path) : M FileError string :=
  _ ← map_throw (io_err src) (fs_open src);
  _ ← map_throw (io_err dst) (fs_create dst);
  s ← with_tree (λ m, copy_loop (2 + file_len src m / COPY_CHUNK) src dst 0 sha_new);
  _ ← map_throw (io_err dst) (sync_file dst);
  mret (string_of_list_ascii (hex_lowercase (sha_finalize s))).

Record StagedSource := mkStagedSource {
  ss_origin : ActiveOrigin;
  ss_head_sha256 : string;
  ss_labels_sha256 : string;
  ss_n_classes : Z;
  ss_labels : list string;
}.

(** [FileError::Io] with [NotFound] becomes [ActivationError::NotFound]. *)
Definition or_not_found (what : string) (e : FileError) : ActivationError :=
  match e with FE_Io _ IoNotFound => AE_NotFound what | e => AE_File e end.

(** [u32::try_from(n)]. *)
Definition u32_try_from (n : nat) : option Z :=
  if (Z.of_nat n <=? u32_max)%Z then Some (Z.of_nat n) else None.

Definition head_what (head_id : HeadId) (infix : string) (ws : WorkspaceId) : string :=
  ("head " ++ HeadId_display head_id ++ infix ++ WorkspaceId_display ws)%string.

Definition stage_head_origin (workspace_dir : path) (workspace_id : WorkspaceId) (head_id : HeadId)
    (staging_dir : path) : M ActivationError StagedSource :=
  manifest ← map_throw (or_not_found (head_what head_id " in workspace " workspace_id))
    (read_head_manifest workspace_dir head_id);
  match HeadManifest_validate manifest with
  | Err e => throw (AE_SourceManifestInvalid e)
  | Ok _ =>
  let mpk_path := head_artifact_path workspace_dir head_id in
  is_file ← path_is_file mpk_path;
  if negb is_file then throw (AE_NotFound (head_what head_id " mpk in workspace " workspace_id))
  else
  head_sha ← map_throw (or_not_found (head_what head_id " mpk in workspace " workspace_id))
    (copy_and_hash mpk_path (staging_dir ++ [ACTIVE_HEAD_FILENAME]));
  if negb (String.eqb head_sha (hm_sha256 manifest))
  then throw (AE_HashMismatch ("head " ++ HeadId_display head_id ++ " mpk")%string (hm_sha256 manifest) head_sha)
  else
  let labels_bytes := labels_to_text (hm_labels manifest) in
  let labels_sha := sha256_hex_of labels_bytes in
  _ ← map_throw AE_File (put_atomic (staging_dir ++ [ACTIVE_LABELS_FILENAME]) labels_bytes);
  match u32_try_from (List.length (hm_labels manifest)) with
  | None => throw (AE_File (FE_MetadataParse (display staging_dir)))
  | Some n_classes =>
      mret (mkStagedSource
        (OriginHead workspace_id head_id
           (mkWorkspaceRevision (rev_id (hm_revision manifest)) (rev_at (hm_revision manifest))))
        head_sha labels_sha n_classes (hm_labels manifest))
  end
  end.

(** The labels of a bundled [labels.txt]. *)
Definition bundled_labels (text : list ascii) : list string :=
  map string_of_list_ascii
    (List.filter (λ l, match l with [] => false | _ => true end)
       (map (trim_end_matches cr) (str_lines text))).

Definition default_not_found (what : string) (p : path) (e : IoKind) : ActivationError :=
  match e with
  | IoNotFound => AE_NotFound (what ++ display p)%string
  | e => AE_File (io_err p e)
  end.

Definition stage_default_origin (source : DefaultHeadSource) (staging_dir : path)
    : M ActivationError StagedSource :=
  let src_mpk := dhs_path source in
  let src_labels := dhs_labels_path source in
  mpk_bytes ← map_throw (default_not_found "default head at " src_mpk) (fs_read src_mpk);
  labels_bytes ← map_throw (default_not_found "default head labels at " src_labels) (fs_read src_labels);
  if negb (utf8_ok labels_bytes) then throw (AE_File (io_err src_labels IoOther))
  else
  let labels := bundled_labels labels_bytes in
  match labels with
  | [] => throw (AE_File (io_err src_labels IoOther))
  | _ =>
  match u32_try_from (List.length labels) with
  | None => throw (AE_File (io_err src_labels IoOther))
  | Some n_classes =>
      let head_sha := sha256_hex_of mpk_bytes in
      let labels_sha := sha256_hex_of labels_bytes in
      _ ← map_throw AE_File (put_atomic (staging_dir ++ [ACTIVE_HEAD_FILENAME]) mpk_bytes);
      _ ← map_throw AE_File (put_atomic (staging_dir ++ [ACTIVE_LABELS_FILENAME]) labels_bytes);
      mret (mkStagedSource OriginDefault head_sha labels_sha n_classes labels)
  end
  end.

Definition staging_path_for (root : path) (activation_id : string) : path :=
  active_staging_dir root ++ [activation_id].

(** The identity the runtime serves the head under. *)
Definition runtime_head_id_for {E} (o : ActivationOriginInput) : M E HeadId :=
  match o with
  | OriginInputHead _ _ head_id => mret head_id
  | OriginInputDefault _ => match default_runtime_head_id with Parsed id => mret id | _ => panic end
  end.

(** [activation_id] is the fresh v4 text. *)
Definition stage_and_validate_activation (activation_id : string) (pending : PendingActivation)
    (head_inner_loader : HeadInnerLoader) : M ActivationError ActivationResult :=
  let staging_root := active_staging_dir (pa_root pending) in
  _ ← map_throw (λ e, AE_File (io_err staging_root e)) (create_dir_all staging_root);
  let staging_dir := staging_root ++ [activation_id] in
  there ← path_exists staging_dir;
  if there : bool then throw (AE_File (io_err staging_dir IoAlreadyExists))
  else
  _ ← map_throw (λ e, AE_File (io_err staging_dir e)) (create_dir_all staging_dir);
  staged ← match pa_origin_input pending with
           | OriginInputHead ws_dir ws head_id => stage_head_origin ws_dir ws head_id staging_dir
           | OriginInputDefault source => stage_default_origin source staging_dir
           end;
  runtime_head_id ← runtime_head_id_for (pa_origin_input pending);
  let manifest := mkActiveHeadManifest (ss_origin staged) runtime_head_id (ss_head_sha256 staged)
    (ss_labels_sha256 staged) (ss_n_classes staged) (ss_labels staged) (pa_now_rfc3339 pending) in
  match ActiveHeadManifest_validate manifest with
  | None => panic
  | Some (Err e) => throw (AE_Validation e)
  | Some (Ok _) =>
  candidate ← with_tree (λ m, lift (map_err AE_Preload (head_inner_loader m
    (staging_dir ++ [ACTIVE_HEAD_FILENAME]) (staging_dir ++ [ACTIVE_LABELS_FILENAME]) runtime_head_id)));
  manifest_bytes ← map_throw AE_File (serialize manifest);
  _ ← map_throw AE_File (put_atomic (staging_dir ++ [ACTIVE_MANIFEST_FILENAME]) manifest_bytes);
  mret (mkActivationResult manifest activation_id candidate)
  end.

Definition publish_active_generation (root staging : path) (activation_id : string) : M ActivationError unit :=
  let generations_root := active_generations_dir root in
  _ ← map_throw (λ e, AE_File (io_err generations_root e)) (create_dir_all generations_root);
  let final_dir := active_generation_dir root activation_id in
  _ ← map_throw (λ e, AE_File (io_err final_dir e)) (fs_rename staging final_dir);
  _ ← map_throw (λ e, AE_File (io_err generations_root e)) (fsync_dir generations_root);
  _ ← map_throw AE_File (write_active_current root (mkActiveCurrentPointer activation_id));
  map_throw (λ e, AE_File (io_err (active_dir root) e)) (fsync_dir (active_dir root)).

(** The loop of [prune_old_generations] over the names of [generations/]. *)
Fixpoint prune_entries (generations_root : path) (keep entries : list string) (removed : nat)
    : M ActivationError nat :=
  match entries with
  | [] => mret removed
  | name :: entries =>
      if bool_decide (name ∈ keep) then prune_entries generations_root keep entries removed
      else
      let path := generations_root ++ [name] in
      metadata ← map_throw (λ e, AE_File (io_err path e)) (symlink_metadata path);
      match metadata with
      | Dir =>
          _ ← map_throw (λ e, AE_File (io_err path e)) (fs_remove_dir_all path);
          prune_entries generations_root keep entries (S removed)
      | _ => prune_entries generations_root keep entries removed
      end
  end.

Definition prune_old_generations (root : path) (keep : list string) : M ActivationError nat :=
  let generations_root := active_generations_dir root in
  there ← path_exists generations_root;
  if negb there then mret 0
  else
  entries ← map_throw (λ e, AE_File (io_err generations_root e)) (fs_read_dir generations_root);
  removed ← prune_entries generations_root keep entries 0;
  _ ← (if 0 <? removed then best_effort (fsync_dir generations_root) else mret tt);
  mret removed.

(** ** Stage and publish ([api/routes/active.rs]) *)

Definition stage_and_publish_activation (activation_id now_rfc3339 : string) (root : path)
    (origin_input : ActivationOriginInput) (loader : HeadInnerLoader) : M ActivationError ActivationResult :=
  staged ← stage_and_validate_activation activation_id (mkPendingActivation root origin_input now_rfc3339) loader;
  _ ← publish_active_generation root (staging_path_for root (ar_activation_id staged)) (ar_activation_id staged);
  mret staged.

End Active.
