(* ===== verification/HotHead.v ===== *)
(** * The hot-swappable classifier head ([src/modules/inference/head.rs])

    [HeadInner] with its validator, loading a head from its two files, and
    [HotHead], the swap cell the engine reads.

    Parameters: Burn's record loader ([BurnLib]).  An [f32] is its 32 bits. *)

From S2P Require Import Prelude VersionedSwap Ids AssetPath HeadHeader Common Text Workspace FileSystem FsAtomic Schema ActiveHead.

(** ** Floats *)

(** [f32::is_finite]: the exponent is not all ones. *)
Definition f32_is_finite (bits : Z) : bool := negb (Z.land (Z.shiftr bits 23) 255 =? 255)%Z.

(** ** Dimensions ([common/dims.rs]) *)

Definition BACKBONE_FEATURE_DIM : nat := 2000.
Definition MAX_N_CLASSES : Z := 100000.

(** ** Burn *)

(** A decoded linear layer: the dimensions of the weight, and the data of the
    weight and of the optional bias, each of which may fail to convert. *)
Record BurnLinear := mkBurnLinear {
  bl_dims : nat * nat;
  bl_weight : option (list Z);
  bl_bias : option (option (list Z));
}.

Class BurnLib := { load_mpk_bytes : list ascii → result string BurnLinear }.

Section Head.
Context `{U : UuidLib} `{B : BurnLib}.

Record HeadInner := mkHeadInner {
  hi_weight : list Z;
  hi_bias : list Z;
  hi_labels : list string;
  hi_head_id : HeadId;
  hi_n_classes : nat;
}.

(** The message of [HeaderCorrupt] is not modelled. *)
Inductive HeadError : Type :=
  | LoadMpk (path message : string)
  | WeightShape (got expected : nat)
  | BiasShape (got expected : nat)
  | InputDim (got : nat)
  | BadClassCount (got : nat) (max : Z)
  | ReadLabels (path : string) (source : IoKind)
  | ReadHeadMpk (path : string) (source : IoKind)
  | LabelCountMismatch (path : string) (got n_classes : nat)
  | LabelShape (got n_classes : nat)
  | NonFiniteWeight (idx : nat) (value : Z)
  | NonFiniteBias (idx : nat) (value : Z)
  | TensorIntoVec
  | SchemaTooOld (path : string)
  | HeaderCorrupt (path : string)
  | HeaderFeatureDimMismatch (path : string) (got expected : Z).

Definition HeadError_kind (e : HeadError) : ErrorKind :=
  match e with
  | LoadMpk _ _ | WeightShape _ _ | BiasShape _ _ | InputDim _ | BadClassCount _ _
  | LabelCountMismatch _ _ _ | LabelShape _ _ | NonFiniteWeight _ _ | NonFiniteBias _ _
  | SchemaTooOld _ | HeaderCorrupt _ | HeaderFeatureDimMismatch _ _ _ => UserInput
  | ReadLabels _ _ | ReadHeadMpk _ _ => Internal
  | TensorIntoVec => Internal
  end.

(** ** Validation *)

(** The first value that is not finite. *)
Fixpoint first_non_finite (i : nat) (vs : list Z) : option (nat * Z) :=
  match vs with
  | [] => None
  | v :: vs => if negb (f32_is_finite v) then Some (i, v) else first_non_finite (S i) vs
  end.

Definition HeadInner_validate_finite (h : HeadInner) : result HeadError unit :=
  match first_non_finite 0 (hi_weight h) with
  | Some (idx, v) => Err (NonFiniteWeight idx v)
  | None =>
      match first_non_finite 0 (hi_bias h) with
      | Some (idx, v) => Err (NonFiniteBias idx v)
      | None => Ok tt
      end
  end.

Definition HeadInner_validate (h : HeadInner) : result HeadError unit :=
  if (hi_n_classes h =? 0) || (MAX_N_CLASSES <? Z.of_nat (hi_n_classes h))%Z
  then Err (BadClassCount (hi_n_classes h) MAX_N_CLASSES)
  else
  let expected_weight := hi_n_classes h * BACKBONE_FEATURE_DIM in
  if negb (List.length (hi_weight h) =? expected_weight)
  then Err (WeightShape (List.length (hi_weight h)) expected_weight)
  else if negb (List.length (hi_bias h) =? hi_n_classes h)
  then Err (BiasShape (List.length (hi_bias h)) (hi_n_classes h))
  else if negb (List.length (hi_labels h) =? hi_n_classes h)
  then Err (LabelShape (List.length (hi_labels h)) (hi_n_classes h))
  else HeadInner_validate_finite h.

(** ** Loading *)

(** The labels the runtime reads. *)
Definition runtime_labels (text : list ascii) : list string :=
  map string_of_list_ascii
    (List.filter (λ l, match l with [] => false | _ => true end) (map str_trim (str_lines text))).

Definition read_at (m : fs) (p : path) : result IoKind (list ascii) :=
  match m !! p with
  | Some (File c _) => Ok c
  | None => Err IoNotFound
  | _ => Err IoOther
  end.

(** The checks on the bytes of [head.mpk]. *)
Definition check_head_bytes (p : path) (bytes : list ascii) : result HeadError HeadHeader :=
  if (List.length bytes <? HEAD_HEADER_SIZE) then Err (SchemaTooOld (display p))
  else
  match parse_header (map byte_val (take HEAD_HEADER_SIZE bytes)) with
  | Err (BadMagic _) => Err (SchemaTooOld (display p))
  | Err _ => Err (HeaderCorrupt (display p))
  | Ok header =>
      if negb (feature_dim header =? Z.of_nat BACKBONE_FEATURE_DIM)%Z
      then Err (HeaderFeatureDimMismatch (display p) (feature_dim header) (Z.of_nat BACKBONE_FEATURE_DIM))
      else if negb (Z.of_nat (List.length bytes - HEAD_HEADER_SIZE) =? payload_len header)%Z
      then Err (HeaderCorrupt (display p))
      else Ok header
  end.

(** The checks on the decoded layer: its weight, its bias, its class count. *)
Definition check_layer (head : BurnLinear) : result HeadError (list Z * list Z * nat) :=
  let weight_dims := bl_dims head in
  if negb (fst weight_dims =? BACKBONE_FEATURE_DIM) then Err (InputDim (fst weight_dims))
  else
  let n_classes := snd weight_dims in
  if (n_classes =? 0) || (MAX_N_CLASSES <? Z.of_nat n_classes)%Z then Err (BadClassCount n_classes MAX_N_CLASSES)
  else
  match bl_weight head with
  | None => Err TensorIntoVec
  | Some weight =>
  if negb (List.length weight =? BACKBONE_FEATURE_DIM * n_classes)
  then Err (WeightShape (List.length weight) (BACKBONE_FEATURE_DIM * n_classes))
  else
  match match bl_bias head with Some b => b | None => Some (replicate n_classes 0%Z) end with
  | None => Err TensorIntoVec
  | Some bias =>
      if negb (List.length bias =? n_classes) then Err (BiasShape (List.length bias) n_classes)
      else Ok (weight, bias, n_classes)
  end
  end.

Definition load_inner (m : fs) (head_mpk labels_path : path) (head_id : HeadId) : result HeadError HeadInner :=
  match read_at m head_mpk with
  | Err e => Err (ReadHeadMpk (display head_mpk) e)
  | Ok bytes =>
  match check_head_bytes head_mpk bytes with
  | Err e => Err e
  | Ok _ =>
  match load_mpk_bytes (drop HEAD_HEADER_SIZE bytes) with
  | Err message => Err (LoadMpk (display head_mpk) message)
  | Ok head =>
  match check_layer head with
  | Err e => Err e
  | Ok (weight, bias, n_classes) =>
  match (match read_at m labels_path with
         | Err e => Err (ReadLabels (display labels_path) e)
         | Ok text => if utf8_ok text then Ok text else Err (ReadLabels (display labels_path) IoOther)
         end) with
  | Err e => Err e
  | Ok labels_text =>
      let labels := runtime_labels labels_text in
      if negb (List.length labels =? n_classes)
      then Err (LabelCountMismatch (display labels_path) (List.length labels) n_classes)
      else
      let inner := mkHeadInner weight bias labels head_id n_classes in
      match HeadInner_validate_finite inner with
      | Err e => Err e
      | Ok _ => Ok inner
      end
  end
  end
  end
  end
  end.

(** ** The cell *)

Definition HotHead : Type := VersionedSwap HeadInner.

Definition HotHead_try_from_inner (inner : HeadInner) : result HeadError HotHead :=
  match HeadInner_validate inner with
  | Err e => Err e
  | Ok _ => Ok (VersionedSwap_new inner)
  end.

Definition HotHead_load (m : fs) (head_mpk labels : path) (head_id : HeadId) : result HeadError HotHead :=
  match load_inner m head_mpk labels head_id with
  | Err e => Err e
  | Ok inner => HotHead_try_from_inner inner
  end.

Definition HotHead_snapshot (h : HotHead) : HeadInner := snapshot h.

(** The mutator of [swap] and [store_inner] never fails. *)
Definition HotHead_install (new : HeadInner) (h : HotHead) : HotHead * SwapReceipt :=
  match try_mutate (E := unit) (λ _, Ok (new, tt)) h with
  | (h, Ok (receipt, _)) => (h, receipt)
  | (h, Err _) => (h, mkSwapReceipt (version h))
  end.

Definition HotHead_swap (m : fs) (head_mpk labels : path) (head_id : HeadId) (h : HotHead)
    : HotHead * result HeadError SwapReceipt :=
  match load_inner m head_mpk labels head_id with
  | Err e => (h, Err e)
  | Ok new => let '(h, receipt) := HotHead_install new h in (h, Ok receipt)
  end.

Definition HotHead_store_inner (inner : HeadInner) (h : HotHead) : HotHead * result HeadError SwapReceipt :=
  match HeadInner_validate inner with
  | Err e => (h, Err e)
  | Ok _ => let '(h, receipt) := HotHead_install inner h in (h, Ok receipt)
  end.

(** ** The [HeadStore] surface ([common/traits/head_store.rs]) *)

Record HeadView := mkHeadView { hv_head_id : HeadId; hv_feature_dim : Z; hv_num_classes : Z }.

Inductive HeadStoreError : Type :=
  | HS_NotFound (path : string)
  | HS_InvalidContent (source : HeadError)
  | HS_LoadFailed (source : HeadError)
  | HS_Internal (source : HeadError)
  | HS_Unsupported.

Definition HeadStoreError_kind (e : HeadStoreError) : ErrorKind :=
  match e with
  | HS_NotFound _ => NotFound
  | HS_InvalidContent _ | HS_LoadFailed _ => UserInput
  | HS_Internal _ | HS_Unsupported => Internal
  end.

Definition classify_head_error (err : HeadError) : HeadStoreError :=
  match err with
  | ReadHeadMpk path IoNotFound | ReadLabels path IoNotFound => HS_NotFound path
  | ReadHeadMpk _ _ | ReadLabels _ _ => HS_LoadFailed err
  | TensorIntoVec => HS_Internal err
  | _ => HS_InvalidContent err
  end.

(** [n_classes as u32]. *)
Definition HotHead_view (h : HotHead) : HeadView * ResourceVersion :=
  let '(inner, v) := snapshot_with_version h in
  (mkHeadView (hi_head_id inner) (Z.of_nat BACKBONE_FEATURE_DIM) (Z.of_nat (hi_n_classes inner) mod (u32_max + 1)), v).

Definition HotHead_try_swap (m : fs) (head_mpk labels : path) (head_id : HeadId) (h : HotHead)
    : HotHead * result HeadStoreError SwapReceipt :=
  let '(h, r) := HotHead_swap m head_mpk labels head_id h in (h, map_err classify_head_error r).

(** The candidate, or a value of another type. *)
Definition HotHead_install_prevalidated (candidate : option HeadInner) (h : HotHead)
    : HotHead * result HeadStoreError SwapReceipt :=
  match candidate with
  | None => (h, Err HS_Unsupported)
  | Some inner => let '(h, r) := HotHead_store_inner inner h in (h, map_err classify_head_error r)
  end.
End Head.

(** ** Lemmas *)

Lemma first_non_finite_None i vs : first_non_finite i vs = None ↔ Forall (λ v, f32_is_finite v = true) vs.
Proof.
  revert i. induction vs as [|v vs IH]; intros i; cbn; [by split|].
  destruct (f32_is_finite v) eqn:E; cbn.
  - rewrite IH. split; [by constructor|by inversion 1].
  - split; [done|]. inversion 1. congruence.
Qed.

(** The first offender, with everything before it finite. *)
Lemma first_non_finite_Some i vs idx v :
  first_non_finite i vs = Some (idx, v) ↔
  ∃ k, idx = i + k ∧ vs !! k = Some v ∧ f32_is_finite v = false ∧ Forall (λ v, f32_is_finite v = true) (take k vs).
Proof.
  revert i. induction vs as [|x vs IH]; intros i; cbn; [split; [done|by intros (k & _ & H & _)]|].
  destruct (f32_is_finite x) eqn:E; cbn.
  - rewrite IH. split; intros (k & -> & Hk & Hv & Ha).
    + exists (S k). split_and!; [lia|done|done|by constructor].
    + destruct k as [|k]; [cbn in Hk; congruence|]. exists k. split_and!; [lia|done|done|by inversion Ha].
  - split.
    + intros [= <- <-]. exists 0. split_and!; [lia|done|done|constructor].
    + intros (k & -> & Hk & Hv & Ha). destruct k as [|k]; [cbn in Hk; by injection Hk as ->; rewrite Nat.add_0_r|].
      inversion Ha. congruence.
Qed.

Section HeadFacts.
Context `{U : UuidLib} `{B : BurnLib}.

(** What the hot path relies on. *)
Record well_shaped (h : HeadInner) : Prop := {
  ws_classes : (1 ≤ Z.of_nat (hi_n_classes h) ≤ MAX_N_CLASSES)%Z;
  ws_weight : List.length (hi_weight h) = hi_n_classes h * BACKBONE_FEATURE_DIM;
  ws_bias : List.length (hi_bias h) = hi_n_classes h;
  ws_labels : List.length (hi_labels h) = hi_n_classes h;
  ws_weight_finite : Forall (λ v, f32_is_finite v = true) (hi_weight h);
  ws_bias_finite : Forall (λ v, f32_is_finite v = true) (hi_bias h);
}.

Lemma validate_finite_spec h :
  HeadInner_validate_finite h = Ok tt ↔
  Forall (λ v, f32_is_finite v = true) (hi_weight h) ∧ Forall (λ v, f32_is_finite v = true) (hi_bias h).
Proof.
  unfold HeadInner_validate_finite. rewrite <-(first_non_finite_None 0 (hi_weight h)), <-(first_non_finite_None 0 (hi_bias h)).
  destruct (first_non_finite 0 (hi_weight h)) as [[i v]|]; [naive_solver|].
  destruct (first_non_finite 0 (hi_bias h)) as [[i v]|]; naive_solver.
Qed.

Lemma validate_spec h : HeadInner_validate h = Ok tt ↔ well_shaped h.
Proof.
  unfold HeadInner_validate.
  destruct (Nat.eqb_spec (hi_n_classes h) 0) as [E0|E0]; cbn [orb].
  { split; [done|]. intros []. lia. }
  destruct (Z.ltb_spec MAX_N_CLASSES (Z.of_nat (hi_n_classes h))) as [E1|E1].
  { split; [done|]. intros []. lia. }
  destruct (Nat.eqb_spec (List.length (hi_weight h)) (hi_n_classes h * BACKBONE_FEATURE_DIM)) as [E2|E2]; cbn [negb].
  2:{ split; [done|]. by intros []. }
  destruct (Nat.eqb_spec (List.length (hi_bias h)) (hi_n_classes h)) as [E3|E3]; cbn [negb].
  2:{ split; [done|]. by intros []. }
  destruct (Nat.eqb_spec (List.length (hi_labels h)) (hi_n_classes h)) as [E4|E4]; cbn [negb].
  2:{ split; [done|]. by intros []. }
  rewrite validate_finite_spec. split; [intros []; split; try done; lia|by intros []].
Qed.

Lemma check_layer_Ok head weight bias n :
  check_layer head = Ok (weight, bias, n) →
  (1 ≤ Z.of_nat n ≤ MAX_N_CLASSES)%Z ∧ List.length weight = BACKBONE_FEATURE_DIM * n ∧ List.length bias = n.
Proof.
  unfold check_layer. destruct (negb (fst (bl_dims head) =? BACKBONE_FEATURE_DIM)); [done|].
  destruct (Nat.eqb_spec (snd (bl_dims head)) 0) as [E0|E0]; [done|]. cbn [orb].
  destruct (Z.ltb_spec MAX_N_CLASSES (Z.of_nat (snd (bl_dims head)))) as [E1|E1]; [done|].
  destruct (bl_weight head) as [w|]; [|done].
  destruct (Nat.eqb_spec (List.length w) (BACKBONE_FEATURE_DIM * snd (bl_dims head))) as [E2|E2]; [|done]. cbn [negb].
  destruct (match bl_bias head with Some b => b | None => _ end) as [b|]; [|done].
  destruct (Nat.eqb_spec (List.length b) (snd (bl_dims head))) as [E3|E3]; [|done]. cbn [negb].
  intros [= <- <- <-]. split_and!; [lia|done..].
Qed.

(** A loaded head passes the validator, with the identity it was asked for. *)
Lemma load_inner_valid m head_mpk labels id inner :
  load_inner m head_mpk labels id = Ok inner → HeadInner_validate inner = Ok tt ∧ hi_head_id inner = id.
Proof.
  unfold load_inner. destruct (read_at m head_mpk) as [bytes|]; [|done].
  destruct (check_head_bytes head_mpk bytes); [|done].
  destruct (load_mpk_bytes _) as [head|]; [|done].
  destruct (check_layer head) as [[[w b] n]|] eqn:El; [|done]. apply check_layer_Ok in El as (H1 & H2 & H3).
  destruct (match read_at m labels with Ok text => _ | Err _ => _ end) as [text|]; [|done].
  destruct (Nat.eqb_spec (List.length (runtime_labels text)) n) as [E|E]; [|done]. cbn [negb].
  destruct (HeadInner_validate_finite _) as [[]|] eqn:Ef; [|done]. intros [= <-]. split; [|done].
  apply validate_finite_spec in Ef as [Hw Hb]. apply validate_spec. split; cbn in *; try done.
  by rewrite H2, Nat.mul_comm.
Qed.

(** ** The cell over its life *)

Inductive HotHeadOp : Type :=
  | OpSwap (m : fs) (head_mpk labels : path) (head_id : HeadId)
  | OpStoreInner (inner : HeadInner)
  | OpInstallPrevalidated (candidate : option HeadInner).

Definition run_op (op : HotHeadOp) (h : HotHead) : HotHead * result HeadStoreError SwapReceipt :=
  match op with
  | OpSwap m mpk labels id => HotHead_try_swap m mpk labels id h
  | OpStoreInner inner => let '(h, r) := HotHead_store_inner inner h in (h, map_err classify_head_error r)
  | OpInstallPrevalidated c => HotHead_install_prevalidated c h
  end.

Fixpoint run_ops (ops : list HotHeadOp) (h : HotHead) : HotHead :=
  match ops with [] => h | op :: ops => run_ops ops (fst (run_op op h)) end.

Definition serves_valid (h : HotHead) : Prop := well_shaped (snapshot h).

(** A refused head changes nothing; an accepted one is whole and is stamped. *)
Lemma run_op_spec op h :
  match run_op op h with
  | (h', Err _) => h' = h
  | (h', Ok receipt) => well_shaped (snapshot h') ∧ version h' = receipt_version receipt ∧
      receipt_version receipt = next_stamp (vs_counter h) ∧ vs_counter h' = next_stamp (vs_counter h)
  end.
Proof.
  destruct op as [m mpk labels id|inner|[inner|]]; cbn; [..|done].
  - unfold HotHead_try_swap, HotHead_swap. destruct (load_inner m mpk labels id) as [new|e] eqn:E; [|done].
    apply load_inner_valid in E as [E%validate_spec _]. done.
  - unfold HotHead_store_inner. destruct (HeadInner_validate inner) as [[]|e] eqn:E; [|done].
    by apply validate_spec in E.
  - unfold HotHead_install_prevalidated, HotHead_store_inner.
    destruct (HeadInner_validate inner) as [[]|e] eqn:E; [|done]. by apply validate_spec in E.
Qed.

Lemma run_ops_valid ops h : serves_valid h → serves_valid (run_ops ops h).
Proof.
  revert h. induction ops as [|op ops IH]; intros h Hh; [done|]. cbn. apply IH.
  pose proof (run_op_spec op h) as H. destruct (run_op op h) as [h' [r|e]]; cbn; [by destruct H|by subst].
Qed.
End HeadFacts.

(** ** Properties *)

(** C31: The engine only ever sees a well-shaped head.  A [HotHead] that exists
    ([load] or [try_from_inner]) and then goes through any sequence of swaps,
    stores and installs, from any files and any candidates, serves at every point
    a head with 1 to [MAX_N_CLASSES] classes, a weight of exactly [n_classes]
    times the feature dimension, a bias and labels of exactly [n_classes], and
    only finite values; the class count of its view is not truncated; and an
    operation that fails leaves the cell untouched. *)
Theorem hot_head_always_valid `{U : UuidLib} `{B : BurnLib} (h : HotHead) (ops : list HotHeadOp) (op : HotHeadOp) :
  ((∃ m mpk labels id, HotHead_load m mpk labels id = Ok h) ∨ (∃ inner, HotHead_try_from_inner inner = Ok h)) →
  let h' := run_ops ops h in
  well_shaped (snapshot h') ∧
  hv_num_classes (fst (HotHead_view h')) = Z.of_nat (hi_n_classes (snapshot h')) ∧
  match run_op op h' with (h'', Err _) => h'' = h' | (h'', Ok _) => well_shaped (snapshot h'') end.
Proof.
  intros Hnew h'.
  assert (Htry : ∀ inner, HotHead_try_from_inner inner = Ok h → serves_valid h).
  { intros inner. unfold HotHead_try_from_inner. destruct (HeadInner_validate inner) as [[]|] eqn:E; [|done].
    intros [= <-]. by apply validate_spec. }
  assert (Hv : serves_valid h').
  { apply run_ops_valid. destruct Hnew as [(m & mpk & labels & id & E)|[inner E]]; [|by eapply Htry].
    unfold HotHead_load in E. destruct (load_inner m mpk labels id); [|done]. by eapply Htry. }
  split; [exact Hv|]. split.
  - unfold HotHead_view, snapshot_with_version. cbn. apply Z.mod_small. destruct Hv as [Hc].
    unfold MAX_N_CLASSES, u32_max, snapshot in *. lia.
  - pose proof (run_op_spec op h') as H. destruct (run_op op h') as [h'' [r|e]]; [by destruct H|done].
Qed.

(** [HeadInner::validate] accepts exactly the well-shaped heads, and names the
    first non-finite value: an accepted weight is finite throughout, and a
    [NonFiniteWeight] or [NonFiniteBias] carries the index and the bits of a
    value that is not, with every value before it finite. *)
Theorem HeadInner_validate_exact `{U : UuidLib} (h : HeadInner) :
  (HeadInner_validate h = Ok tt ↔ well_shaped h) ∧
  (∀ idx v, HeadInner_validate h = Err (NonFiniteWeight idx v) →
     hi_weight h !! idx = Some v ∧ f32_is_finite v = false ∧
     Forall (λ v, f32_is_finite v = true) (take idx (hi_weight h))) ∧
  (∀ idx v, HeadInner_validate h = Err (NonFiniteBias idx v) →
     Forall (λ v, f32_is_finite v = true) (hi_weight h) ∧ hi_bias h !! idx = Some v ∧ f32_is_finite v = false ∧
     Forall (λ v, f32_is_finite v = true) (take idx (hi_bias h))).
Proof.
  split; [apply validate_spec|].
  assert (Hf : ∀ e, HeadInner_validate h = Err e →
    HeadInner_validate_finite h = Err e ∨ match e with NonFiniteWeight _ _ | NonFiniteBias _ _ => False | _ => True end).
  { intros e. unfold HeadInner_validate. destruct (_ || _); [intros [= <-]; by right|].
    do 3 (destruct (negb _); [intros [= <-]; by right|]). by left. }
  unfold HeadInner_validate_finite in Hf.
  split; intros idx v [H|[]]%Hf.
  - destruct (first_non_finite 0 (hi_weight h)) as [[i x]|] eqn:E.
    + injection H as -> ->. apply first_non_finite_Some in E as (k & -> & H1 & H2 & H3). done.
    + by destruct (first_non_finite 0 (hi_bias h)) as [[i x]|].
  - destruct (first_non_finite 0 (hi_weight h)) as [[i x]|] eqn:Ew; [done|]. apply first_non_finite_None in Ew.
    destruct (first_non_finite 0 (hi_bias h)) as [[i x]|] eqn:E; [|done].
    injection H as -> ->. apply first_non_finite_Some in E as (k & -> & H1 & H2 & H3). done.
Qed.

(** A bundled line of blanks is a label to the activation writer and none to the
    runtime. *)
Lemma blank_label_views_differ :
  let text := bytes_of "dog" ++ [lf] ++ bytes_of "  " in
  bundled_labels text = ["dog"; "  "]%string ∧ runtime_labels text = ["dog"]%string.
Proof. split; vm_compute; reflexivity. Qed.

Section HeadScenario.
#[local] Instance hs_uuid : UuidLib := text_uuid_lib.
#[local] Instance hs_burn : BurnLib := {| load_mpk_bytes := λ _, Err "none"%string |}.

Definition hs_inner (bias : Z) : HeadInner :=
  mkHeadInner (replicate BACKBONE_FEATURE_DIM 0x3F800000%Z) [bias] ["dog"%string] (mkHeadId ("h" : Uuid)) 1.

(** A NaN bias is refused; then a sound head is installed. *)
Lemma hot_head_always_valid_witness :
  let h := VersionedSwap_new (hs_inner 0) in
  let h' := run_ops [OpStoreInner (hs_inner 0x7FC00000); OpInstallPrevalidated (Some (hs_inner 0x3F800000))] h in
  version h' = 1%Z ∧ well_shaped (snapshot h').
Proof.
  intros h h'. split; [vm_compute; reflexivity|].
  apply (hot_head_always_valid h [OpStoreInner (hs_inner 0x7FC00000); OpInstallPrevalidated (Some (hs_inner 0x3F800000))]
    (OpInstallPrevalidated None)).
  right. exists (hs_inner 0). vm_compute. reflexivity.
Defined.

Lemma HeadInner_validate_exact_witness :
  HeadInner_validate (hs_inner 0x7FC00000) = Err (NonFiniteBias 0 0x7FC00000) ∧
  f32_is_finite 0x7FC00000 = false.
Proof.
  assert (E : HeadInner_validate (hs_inner 0x7FC00000) = Err (NonFiniteBias 0 0x7FC00000)) by (vm_compute; reflexivity).
  split; [exact E|]. apply (proj2 (proj2 (HeadInner_validate_exact (hs_inner 0x7FC00000))) _ _ E).
Defined.
End HeadScenario.
