(* ===== verification/ApiErrors.v ===== *)
(** * Errors on the wire ([src/modules/api/error.rs])

    [ApiError] over the domain errors it wraps, their classification, and the
    status and code of the HTTP answer.  A rendered message or a source error that
    no code inspects is a string or is dropped. *)

From Stdlib Require Import SpecFloat.
From S2P Require Import Prelude VersionedSwap Ids AssetPath HeadHeader Common Text Workspace FileSystem FsAtomic Schema ActiveHead HotHead.

(** ** Domain errors *)

Inductive ConfigError : Type :=
  | CFG_Read (path : string) | CFG_Write (path : string) | CFG_Parse (path : string)
  | CFG_Serialize | CFG_Watcher | CFG_Persist
  | CFG_Invalid (path msg : string) | CFG_ReentrantMutate | CFG_ThreadSpawn (path : string).

Definition ConfigError_kind (e : ConfigError) : ErrorKind :=
  match e with
  | CFG_ReentrantMutate => Internal
  | CFG_Parse _ | CFG_Invalid _ _ => UserInput
  | CFG_Read _ | CFG_Write _ | CFG_Serialize | CFG_Watcher | CFG_Persist | CFG_ThreadSpawn _ => Internal
  end.

Inductive MicError : Type := MIC_Rejected (msg : string) | MIC_Persist (e : ConfigError).

Definition MicError_kind (e : MicError) : ErrorKind :=
  match e with MIC_Rejected _ => UserInput | MIC_Persist e => ConfigError_kind e end.

Inductive ConvertError : Type :=
  | CV_Read (path : string) | CV_Write (path : string) | CV_Record (msg : string) | CV_Tensor (msg : string)
  | CV_MetadataSerialize
  | CV_Labels (msg : string) | CV_TfjsParse (what msg : string) | CV_TfjsLocator (msg : string)
  | CV_TfjsShortRead (have need : Z) | CV_TfjsDtype (name dtype : string) | CV_TfjsUnsafePath (path : string)
  | CV_TfjsShapeOverflow (name : string) (shape : list Z) | CV_TfjsBlobLength (have declared : Z)
  | CV_LimitExceeded (what : string) (value max : Z) | CV_TfjsZeroDimension (name : string) (shape : list Z)
  | CV_NonFiniteWeight (tensor : string) (index : nat) (value : Z) | CV_BadClassCount (got max : Z)
  | CV_NotImplemented (what : string) | CV_Busy.

Definition ConvertError_kind (e : ConvertError) : ErrorKind :=
  match e with
  | CV_Labels _ | CV_TfjsParse _ _ | CV_TfjsLocator _ | CV_TfjsShortRead _ _ | CV_TfjsDtype _ _
  | CV_TfjsUnsafePath _ | CV_TfjsShapeOverflow _ _ | CV_TfjsBlobLength _ _ | CV_LimitExceeded _ _ _
  | CV_TfjsZeroDimension _ _ | CV_NonFiniteWeight _ _ _ | CV_BadClassCount _ _ => UserInput
  | CV_NotImplemented _ => NotImplemented
  | CV_Busy => Conflict
  | CV_Read _ | CV_Write _ | CV_Record _ | CV_Tensor _ | CV_MetadataSerialize => Internal
  end.

(** What a boxed error was before it was boxed. *)
Inductive FsInner : Type := InnerFile (e : FileError) | InnerOther (message : string).
Record FsError := mkFsError { fs_inner : FsInner; fs_kind : ErrorKind }.

(** [FsError::new] on a [FileError]. *)
Definition FsError_from_file (e : FileError) : FsError := mkFsError (InnerFile e) (FileError_kind e).
Definition FsError_kind (e : FsError) : ErrorKind := fs_kind e.

(** The source of [Io] and the constant [max_ratio] are not kept. *)
Inductive FinetuneError : Type :=
  | FT_InvalidConfig (msg : string) | FT_Cancelled | FT_Io (path : string) | FT_Model (msg : string)
  | FT_Panic (msg : string) | FT_BadDataset (path reason : string) | FT_DatasetRead (path reason : string)
  | FT_EmptyClassAfterScan (class : string) (per_class_kept : list (string * nat))
  | FT_EmptyClassAfterExtract (class : string) (per_class_kept per_class_dropped : list (string * nat))
  | FT_DropRatioExceeded (dropped total : nat) (ratio : spec_float) (per_class_kept per_class_dropped : list (string * nat))
  | FT_StratifiedSplitImpossible (class : string) (per_class_kept : list (string * nat)) (val_split : spec_float).

Definition FinetuneError_kind (e : FinetuneError) : ErrorKind :=
  match e with
  | FT_InvalidConfig _ => UserInput
  | FT_Cancelled => Conflict
  | FT_BadDataset _ _ | FT_EmptyClassAfterScan _ _ | FT_EmptyClassAfterExtract _ _ _
  | FT_DropRatioExceeded _ _ _ _ _ | FT_StratifiedSplitImpossible _ _ _ => UserInput
  | FT_DatasetRead _ _ => Internal
  | FT_Io _ | FT_Model _ | FT_Panic _ => Internal
  end.

Inductive TrainingError : Type :=
  | TR_InvalidConfig (msg : string) | TR_JobNotFound (job : string) | TR_WrongWorkspace (job workspace : string)
  | TR_Cancelled | TR_File (e : FileError) | TR_Fs (e : FsError) | TR_Finetune (e : FinetuneError)
  | TR_BadDataset (path reason : string) | TR_Io (path : string) | TR_Join
  | TR_DatasetRead (path reason : string).

Definition TrainingError_kind (e : TrainingError) : ErrorKind :=
  match e with
  | TR_InvalidConfig _ => UserInput
  | TR_Cancelled => Conflict
  | TR_JobNotFound _ | TR_WrongWorkspace _ _ => NotFound
  | TR_File e => FileError_kind e
  | TR_Fs e => FsError_kind e
  | TR_BadDataset _ _ => UserInput
  | TR_Finetune e => FinetuneError_kind e
  | TR_Io _ | TR_Join | TR_DatasetRead _ _ => Internal
  end.

(** [From<FinetuneError>]. *)
Definition TrainingError_from_finetune (value : FinetuneError) : TrainingError :=
  match value with
  | FT_BadDataset path reason => TR_BadDataset path reason
  | FT_DatasetRead path reason => TR_DatasetRead path reason
  | other => TR_Finetune other
  end.

Section Api.
Context `{U : UuidLib}.

(** ** [ApiError] *)

Inductive ApiError : Type :=
  | API_Bad (msg : string)
  | API_NotFound (msg : string)
  | API_Config (e : ConfigError)
  | API_Mic (e : MicError)
  | API_Head (e : HeadError)
  | API_HeadStore (e : HeadStoreError)
  | API_File (e : FileError)
  | API_Fs (e : FsError)
  | API_Id (e : IdError)
  | API_Convert (e : ConvertError)
  | API_Training (e : TrainingError)
  | API_Activation (e : ActivationError)
  | API_Join
  | API_NotImplemented (phase : string)
  | API_TooEarly (requested current : Z)
  | API_MethodNotAllowed (method path : string).

Definition ApiError_kind (e : ApiError) : ErrorKind :=
  match e with
  | API_Bad _ => UserInput
  | API_NotFound _ => NotFound
  | API_NotImplemented _ => NotImplemented
  | API_Id e => IdError_kind e
  | API_Config e => ConfigError_kind e
  | API_Mic e => MicError_kind e
  | API_Head e => HeadError_kind e
  | API_HeadStore e => HeadStoreError_kind e
  | API_File e => FileError_kind e
  | API_Fs e => FsError_kind e
  | API_Convert e => ConvertError_kind e
  | API_Training e => TrainingError_kind e
  | API_Activation e => ActivationError_kind e
  | API_Join => Internal
  | API_TooEarly _ _ => Conflict
  | API_MethodNotAllowed _ _ => UserInput
  end.

(** [StatusCode::from_u16]: 100 to 999. *)
Definition status_from_u16 (n : Z) : option Z := if ((100 <=? n) && (n <=? 999))%Z then Some n else None.

(** [None] is the panic of the [expect]. *)
Definition http_status (e : ApiError) : option Z :=
  match e with
  | API_TooEarly _ _ => Some 425%Z
  | API_MethodNotAllowed _ _ => Some 405%Z
  | _ => status_from_u16 (http_status_code (ApiError_kind e))
  end.

Definition is_another_train (e : FsInner) : bool :=
  match e with InnerFile FE_AnotherTrainRunning => true | _ => false end.

Definition code (e : ApiError) : string :=
  match e with
  | API_TooEarly _ _ => "too_early"
  | API_MethodNotAllowed _ _ => "method_not_allowed"
  | API_File FE_AnotherTrainRunning => "another_train_running"
  | API_Training (TR_File FE_AnotherTrainRunning) => "another_train_running"
  | API_Fs fe => if is_another_train (fs_inner fe) then "another_train_running" else code_str (ApiError_kind e)
  | _ => code_str (ApiError_kind e)
  end.

(** [classify_workspace_existence_error] ([api/routes/workspace.rs]): a missing
    workspace or file is a 404, any other failure keeps its class. *)
Definition classify_workspace_existence_error (id : WorkspaceId) (err : FsError) : ApiError :=
  match FsError_kind err with
  | NotFound => API_NotFound ("workspace " ++ WorkspaceId_display id)
  | Internal =>
      match fs_inner err with
      | InnerFile (FE_Io _ IoNotFound) => API_NotFound ("workspace " ++ WorkspaceId_display id)
      | _ => API_Fs err
      end
  | _ => API_Fs err
  end.
End Api.

(** ** Properties *)

(** An [FsError] is built by [FsError::new], which captures the kind. *)
Definition fs_built (e : FsError) : Prop :=
  match fs_inner e with InnerFile f => fs_kind e = FileError_kind f | InnerOther _ => True end.

Definition api_built `{U : UuidLib} (e : ApiError) : Prop :=
  match e with API_Fs fe | API_Training (TR_Fs fe) => fs_built fe | _ => True end.

Local Ltac in_list := apply list_elem_of_In; cbn; tauto.
Local Ltac no_carrier := intros [H|[H|(x & H & H')]]; try discriminate H; injection H as <-; discriminate H'.

(** Every failure has one coherent answer.  For every [ApiError] the status
    exists (the [expect] never fires) and is one of 400, 404, 405, 409, 425, 500,
    501, 503; the [code] determines it: 425 and 405 are exactly [too_early] and
    [method_not_allowed], [another_train_running] is a 409 that comes from exactly
    the three carriers that hold [FileError::AnotherTrainRunning], and every other
    code is the name of the kind whose status is answered. *)
Theorem api_error_coherent `{U : UuidLib} (e : ApiError) :
  api_built e →
  ∃ s, http_status e = Some s ∧ s ∈ [400; 404; 405; 409; 425; 500; 501; 503]%Z ∧
    (code e = "too_early"%string ↔ s = 425%Z) ∧ (code e = "method_not_allowed"%string ↔ s = 405%Z) ∧
    (code e = "another_train_running"%string ↔
       e = API_File FE_AnotherTrainRunning ∨ e = API_Training (TR_File FE_AnotherTrainRunning) ∨
       ∃ fe, e = API_Fs fe ∧ fs_inner fe = InnerFile FE_AnotherTrainRunning) ∧
    (code e = "another_train_running"%string → s = 409%Z) ∧
    (code e ∉ ["too_early"; "method_not_allowed"; "another_train_running"]%string →
       ∃ k, code e = code_str k ∧ s = http_status_code k ∧ k = ApiError_kind e).
Proof.
  intros Hb.
  assert (Hk : ∀ k, status_from_u16 (http_status_code k) = Some (http_status_code k) ∧
    http_status_code k ∈ [400; 404; 405; 409; 425; 500; 501; 503]%Z ∧
    http_status_code k ≠ 425%Z ∧ http_status_code k ≠ 405%Z ∧
    code_str k ≠ "too_early"%string ∧ code_str k ≠ "method_not_allowed"%string ∧
    code_str k ≠ "another_train_running"%string).
  { intros []; cbn; split_and!; try done; in_list. }
  assert (Hplain : http_status e = status_from_u16 (http_status_code (ApiError_kind e)) →
    code e = code_str (ApiError_kind e) →
    (¬ (e = API_File FE_AnotherTrainRunning ∨ e = API_Training (TR_File FE_AnotherTrainRunning) ∨
       ∃ fe, e = API_Fs fe ∧ fs_inner fe = InnerFile FE_AnotherTrainRunning)) →
    ∃ s, http_status e = Some s ∧ s ∈ [400; 404; 405; 409; 425; 500; 501; 503]%Z ∧
    (code e = "too_early"%string ↔ s = 425%Z) ∧ (code e = "method_not_allowed"%string ↔ s = 405%Z) ∧
    (code e = "another_train_running"%string ↔
       e = API_File FE_AnotherTrainRunning ∨ e = API_Training (TR_File FE_AnotherTrainRunning) ∨
       ∃ fe, e = API_Fs fe ∧ fs_inner fe = InnerFile FE_AnotherTrainRunning) ∧
    (code e = "another_train_running"%string → s = 409%Z) ∧
    (code e ∉ ["too_early"; "method_not_allowed"; "another_train_running"]%string →
       ∃ k, code e = code_str k ∧ s = http_status_code k ∧ k = ApiError_kind e)).
  { intros Hs Hc Hn. destruct (Hk (ApiError_kind e)) as (H1 & H2 & H3 & H4 & H5 & H6 & H7).
    exists (http_status_code (ApiError_kind e)). rewrite Hs, Hc. split_and!; try done; try naive_solver. }
  destruct e as [| | | | | |fe|fe| | |te| | | |rq cu|mt pa]; try (apply Hplain; [reflexivity|reflexivity|no_carrier]).
  - destruct fe; try (apply Hplain; [reflexivity|reflexivity|no_carrier]). exists 409%Z. cbn. split_and!; try done; first [in_list|by intros []; in_list|naive_solver].
  - cbn in Hb. unfold fs_built in Hb. destruct fe as [[[]|msg] k]; try (apply Hplain; [reflexivity|reflexivity|no_carrier]).
    cbn in Hb. subst k. exists 409%Z. cbn. split_and!; try done; first [in_list|by intros []; in_list|naive_solver].
  - destruct te as [| | | |fe| | | | | |]; try (apply Hplain; [reflexivity|reflexivity|no_carrier]).
    destruct fe; try (apply Hplain; [reflexivity|reflexivity|no_carrier]). exists 409%Z. cbn. split_and!; try done; first [in_list|by intros []; in_list|naive_solver].
  - exists 425%Z. cbn. split_and!; try done; first [in_list|by intros []; in_list|naive_solver].
  - exists 405%Z. cbn. split_and!; try done; first [in_list|by intros []; in_list|naive_solver].
Qed.

Lemma api_error_coherent_witness :
  let e := API_Fs (U := text_uuid_lib) (FsError_from_file FE_AnotherTrainRunning) in
  http_status e = Some 409%Z ∧ code e = "another_train_running"%string.
Proof.
  intros e. destruct (api_error_coherent (U := text_uuid_lib) e eq_refl) as (s & Hs & _ & _ & _ & _ & Ht & _).
  rewrite Ht in Hs by reflexivity. split; [exact Hs|reflexivity].
Defined.

(** Lifting an error into its carrier keeps its class. *)
Lemma from_finetune_kind e : TrainingError_kind (TrainingError_from_finetune e) = FinetuneError_kind e.
Proof. by destruct e. Qed.
