(* ===== verification/Mgr.v ===== *)
(** * The workspace manager's shared state ([src/modules/file_mgr.rs])

    The registry and the cache map that the mutation handlers thread, and the
    resolution of a workspace's cache cell.  The per-workspace mutex makes the
    locked part of each handler one uninterrupted program. *)

From S2P Require Import Prelude Ids Common Workspace Broadcast JobRegistry FileSystem FsLogic FsAtomic Schema.

Section Mgr.
Context `{U : UuidLib} `{B : !Broadcast RegistryEvent}.
Context `{JC : !Json WorkspaceCore} `{JH : !Json HeadIndex}.
(** The daemon's workspace root. *)
Variable root : path.

Record WorkspaceMgr := mkWorkspaceMgr {
  mgr_jobs : JobRegistry;
  mgr_caches : gmap WorkspaceId WorkspaceCacheCell;
}.

Definition with_mgr_jobs (j : JobRegistry) (mgr : WorkspaceMgr) : WorkspaceMgr :=
  mkWorkspaceMgr j (mgr_caches mgr).

Definition workspace_dir (ws : WorkspaceId) : path := workspace_dir_for root ws.

(** [cache_cell_for_dataset] and [cache_cell_for_head_delete]: the cached cell,
    or the one loaded from disk. *)
Definition cache_cell (caches : gmap WorkspaceId WorkspaceCacheCell) (ws : WorkspaceId)
    : M FileError WorkspaceCacheCell :=
  match caches !! ws with
  | Some cell => mret cell
  | None => load_from_disk (workspace_dir ws)
  end.

Definition caches_result (A : Type) : Type := gmap WorkspaceId WorkspaceCacheCell * result FileError A.

(** Resolve the cell, run [f] on it; the map keeps the resolved cell even when
    [f] fails. *)
Definition with_cell {E A} (caches : gmap WorkspaceId WorkspaceCacheCell) (ws : WorkspaceId)
    (f : WorkspaceCacheCell → M FileError (A * WorkspaceCacheCell)) : M E (caches_result A) :=
  c ← attempt (cache_cell caches ws);
  match c with
  | Err e => mret (caches, Err e)
  | Ok cell =>
      r ← attempt (f cell);
      match r with
      | Ok (a, cell) => mret (<[ws := cell]> caches, Ok a)
      | Err e => mret (<[ws := cell]> caches, Err e)
      end
  end.

(** With a cached cell the whole call is [f] on that cell. *)
Lemma with_cell_cached {E A} (caches : gmap WorkspaceId WorkspaceCacheCell) ws cell
    (f : WorkspaceCacheCell → M FileError (A * WorkspaceCacheCell)) w :
  caches !! ws = Some cell →
  (with_cell caches ws f : M E _) w =
    match f cell w with
    | (w', Ret (a, cell')) => (w', Ret (<[ws := cell']> caches, Ok a))
    | (w', Throw e) => (w', Ret (<[ws := cell]> caches, Err e))
    | (w', Crash) => (w', Crash)
    end.
Proof.
  intros Hc. unfold with_cell, cache_cell. rewrite Hc. unfold attempt, mbind, M_bind, mret, M_ret.
  by destruct (f cell w) as [w' [[a c']|e|]].
Qed.
End Mgr.
