(* ===== verification/ActiveApi.v ===== *)
(** * The active-head handlers ([src/modules/api/routes/active.rs])

    [POST /active] and [GET /active] over the activation pipeline, the workspace
    cache and the runtime head.  The section under the active mutex is one
    uninterrupted program.

    Parameters: the rendered text of a [HeadError], the fresh v4 text of a
    generation and the wall clock. *)

From S2P Require Import Prelude VersionedSwap Ids AssetPath Common Text Workspace Broadcast JobRegistry FileSystem FsLogic FsAtomic Schema ActiveHead HotHead ApiErrors Mgr.

Inductive OriginTag : Type := TagDefault | TagHead.

Section ActiveApi.
Context `{U : UuidLib} `{T : TempLib} `{H : Sha256Lib} `{BL : BurnLib}.
Context `{JC : !Json WorkspaceCore} `{JI : !Json HeadIndex}.
Context `{JM : !Json HeadManifest} `{JP : !Json ActiveCurrentPointer} `{JA : !Json ActiveHeadManifest}.
Variable head_error_text : HeadError → string.
Variable root : path.

(** ** Requests and responses *)

Inductive ActivateRequest : Type :=
  | ActivateHead (workspace_id : WorkspaceId) (head_id : HeadId)
  | ActivateDefault (default : bool).

Record ActiveResp := mkActiveResp {
  resp_sha256 : string;
  resp_labels_sha256 : string;
  resp_n_classes : Z;
  resp_labels : list string;
  resp_runtime_head_id : string;
  resp_activated_at : string;
  resp_origin : OriginTag;
  resp_source_workspace_id : option string;
  resp_source_head_id : option string;
  resp_workspace_revision : option WorkspaceRevision;
  resp_activation_id : string;
  resp_source_workspace_alive : option bool;
}.

Definition ActiveResp_from_manifest (manifest : ActiveHeadManifest) (activation_id : string)
    (source_workspace_alive : option bool) : ActiveResp :=
  let '(origin, src_ws, src_head, src_rev) :=
    match am_origin manifest with
    | OriginDefault => (TagDefault, None, None, None)
    | OriginHead ws head rev => (TagHead, Some (WorkspaceId_display ws), Some (HeadId_display head), Some rev)
    end in
  mkActiveResp (am_sha256 manifest) (am_labels_sha256 manifest) (am_n_classes manifest) (am_labels manifest)
    (HeadId_display (am_runtime_head_id manifest)) (am_activated_at manifest) origin src_ws src_head src_rev
    activation_id source_workspace_alive.

(** ** [POST /active] *)

(** [HotHead::load], then a copy of its snapshot. *)
Definition runtime_head_loader : HeadInnerLoader (Candidate := HeadInner) := λ m head_mpk labels head_id,
  match HotHead_load m head_mpk labels head_id with
  | Ok head => Ok (HotHead_snapshot head)
  | Err e => Err (head_error_text e)
  end.

(** The checks before the mutex: [default: false], and the head's row in the
    cached (or loaded) index. *)
Definition pre_check (caches : gmap WorkspaceId WorkspaceCacheCell) (req : ActivateRequest) : M ApiError unit :=
  match req with
  | ActivateDefault false =>
      throw (API_Bad "`default` must be true; use `{workspace_id, head_id}` to activate a workspace head")
  | ActivateDefault true => mret tt
  | ActivateHead workspace_id head_id =>
      cell ← map_throw (λ e, classify_workspace_existence_error workspace_id (FsError_from_file e))
        (cache_cell root caches workspace_id);
      if existsb (λ r, bool_decide (hr_head_id r = head_id)) (heads (cell_heads cell)) then mret tt
      else throw (API_NotFound ("head " ++ HeadId_display head_id ++ " not in workspace " ++
                                WorkspaceId_display workspace_id ++ " (heads.json index)"))
  end.

(** Under the active mutex: the previous pointer, stage and publish, the runtime
    install, the prune.  A throw leaves the runtime head as it was. *)
Definition activate_locked (activation_id now_rfc3339 : string) (default_head : option DefaultHeadSource)
    (req : ActivateRequest) (head : HotHead) : M ApiError (string * ActiveHeadManifest * HotHead) :=
  prev ← attempt (read_active_current root);
  previous_activation_id ← match prev with
    | Ok p => mret (Some (Schema.activation_id p))
    | Err (FE_Io _ IoNotFound) => mret None
    | Err e => throw (API_File e)
    end;
  result ← match req with
    | ActivateHead workspace_id head_id =>
        map_throw API_Activation (stage_and_publish_activation activation_id now_rfc3339 root
          (OriginInputHead (workspace_dir_for root workspace_id) workspace_id head_id) runtime_head_loader)
    | ActivateDefault _ =>
        match default_head with
        | None => throw (API_Bad "head.default not configured")
        | Some source =>
            map_throw API_Activation (stage_and_publish_activation activation_id now_rfc3339 root
              (OriginInputDefault source) runtime_head_loader)
        end
    end;
  let '(head, receipt) := HotHead_install_prevalidated (Some (ar_candidate result)) head in
  _ ← lift (map_err API_HeadStore receipt);
  let keep := ar_activation_id result :: match previous_activation_id with Some p => [p] | None => [] end in
  _ ← attempt (prune_old_generations root keep);
  mret (ar_activation_id result, ar_manifest result, head).

Definition post_active (activation_id now_rfc3339 : string) (default_head : option DefaultHeadSource)
    (caches : gmap WorkspaceId WorkspaceCacheCell) (req : ActivateRequest) (head : HotHead)
    : M ApiError (ActiveResp * HotHead) :=
  _ ← pre_check caches req;
  r ← activate_locked activation_id now_rfc3339 default_head req head;
  let '(activation_id, manifest, head) := r in
  mret (ActiveResp_from_manifest manifest activation_id None, head).

(** ** [GET /active] *)

Definition get_active : M ApiError ActiveResp :=
  pointer ← map_throw (λ e, match e with
                            | FE_Io _ IoNotFound => API_NotFound "no active head: current.json absent"
                            | other => API_File other
                            end) (read_active_current root);
  manifest ← map_throw API_File (read_active_manifest root (Schema.activation_id pointer));
  match ActiveHeadManifest_validate manifest with
  | None => panic
  | Some (Err _) => throw (API_Bad "active manifest validation")
  | Some (Ok _) =>
      alive ← match am_origin manifest with
              | OriginDefault => mret None
              | OriginHead source_workspace_id _ _ =>
                  is_dir ← path_is_dir (workspace_dir_for root source_workspace_id); mret (Some is_dir)
              end;
      mret (ActiveResp_from_manifest manifest (Schema.activation_id pointer) alive)
  end.
End ActiveApi.
