(* ===== verification/HeadRotation.v ===== *)
(** * Two-slot head rotation ([src/modules/file_mgr/head_rotation.rs])

    Publishing a trained head and deleting one, as programs over the crash
    model: [heads.json] is the publish point and never references a head file
    that a crash could have lost. *)

From S2P Require Import Prelude Ids Common Workspace Broadcast JobRegistry JobRegistryFacts FileSystem FsLogic FsAtomic Schema Mgr.

Section Rotation.
Context `{U : UuidLib} `{T : TempLib}.
Context `{JC : !Json WorkspaceCore} `{JH : !Json HeadIndex} `{JM : !Json HeadManifest}.

Record PendingHead := mkPendingHead {
  ph_head_id : HeadId;
  ph_mpk_tempfile : path;
  ph_manifest : HeadManifest;
}.

Record HeadRotationResult := mkHeadRotationResult { displaced_head_id : option HeadId }.

Definition new_record (m : HeadManifest) : HeadRecord :=
  mkHeadRecord (hm_head_id m) (hm_revision m) (hm_sha256 m) (hm_n_classes m)
    (hm_size_bytes m) (hm_created_at m).

(** Steps 3 and 4: prepend, then drain past the cap; the first drained entry is
    the displaced head. *)
Definition next_records (m : HeadManifest) (prev_heads : HeadIndex) : list HeadRecord * option HeadId :=
  let records := new_record m :: heads prev_heads in
  if (MAX_HEADS_PER_WORKSPACE <? List.length records)
  then (take MAX_HEADS_PER_WORKSPACE records,
        hr_head_id <$> head (drop MAX_HEADS_PER_WORKSPACE records))
  else (records, None).

Definition set_head_count (n : nat) (core : WorkspaceCore) : WorkspaceCore :=
  mkWorkspaceCore (core_id core) (core_name core) (core_tags core) (core_created_at core)
    (core_revision core) (Z.of_nat n mod 256).

(** Unlink a head's two files; a failure is only logged. *)
Definition remove_head_files (workspace_dir : path) (id : HeadId) : M FileError unit :=
  _ ← best_effort (fs_remove_file (head_artifact_path workspace_dir id));
  _ ← best_effort (fs_remove_file (head_manifest_path workspace_dir id));
  best_effort (fsync_dir (heads_dir workspace_dir)).

(** The index commit, the derived count and the cache publish shared by the
    publisher and the deleter. *)
Definition commit_index (workspace_dir : path) (cache : WorkspaceCacheCell) (next_index : HeadIndex)
    : M FileError WorkspaceCacheCell :=
  _ ← write_head_index workspace_dir next_index;
  core ← read_workspace_core workspace_dir;
  let next_core := set_head_count (List.length (heads next_index)) core in
  _ ← write_workspace_core workspace_dir next_core;
  mret (publish_core next_core (publish_heads next_index cache)).

Definition publish_trained_head (workspace_dir : path) (cache : WorkspaceCacheCell)
    (pending : PendingHead) : M FileError (HeadRotationResult * WorkspaceCacheCell) :=
  if negb (bool_decide (hm_head_id (ph_manifest pending) = ph_head_id pending))
  then throw (io_err workspace_dir IoOther)
  else
  is_file ← path_is_file (ph_mpk_tempfile pending);
  if negb is_file then throw (io_err (ph_mpk_tempfile pending) IoNotFound)
  else
  let heads := heads_dir workspace_dir in
  _ ← map_throw (io_err heads) (create_dir_all heads);
  let manifest_path := head_manifest_path workspace_dir (ph_head_id pending) in
  manifest_bytes ← serialize (ph_manifest pending);
  _ ← put_atomic manifest_path manifest_bytes;
  let mpk_path := head_artifact_path workspace_dir (ph_head_id pending) in
  _ ← map_throw (io_err mpk_path) (fs_rename (ph_mpk_tempfile pending) mpk_path);
  _ ← map_throw (io_err heads) (fsync_dir heads);
  let '(records, displaced) := next_records (ph_manifest pending) (cell_heads cache) in
  cache ← commit_index workspace_dir cache (mkHeadIndex records);
  _ ← match displaced with
      | Some old => remove_head_files workspace_dir old
      | None => mret tt
      end;
  mret (mkHeadRotationResult displaced, cache).

(** [delete_head] under the workspace lock, with its cache cell resolved. *)
Definition delete_head_locked (workspace_dir : path) (ws : string) (head_id : HeadId)
    (cell : WorkspaceCacheCell) : M FileError (unit * WorkspaceCacheCell) :=
  let prev := heads (cell_heads cell) in
  if negb (existsb (λ r, bool_decide (hr_head_id r = head_id)) prev)
  then throw (FE_AssetNotFound ws (HeadId_display head_id ++ ".mpk")%string)
  else
  let next := List.filter (λ r, negb (bool_decide (hr_head_id r = head_id))) prev in
  cell ← commit_index workspace_dir cell (mkHeadIndex next);
  _ ← remove_head_files workspace_dir head_id;
  mret (tt, cell).

Section Handlers.
Context `{B : !Broadcast RegistryEvent}.
Context `{HJ : !HashIter JobId JobEntry} `{HL : !HashIter Z (list JobReference)}.
Variable root : path.

Definition delete_head {E} (ws : WorkspaceId) (head_id : HeadId) (mgr : WorkspaceMgr)
    : M E (WorkspaceMgr * result FileError unit) :=
  let ws_dir := workspace_dir root ws in
  there ← path_exists (workspace_core_path ws_dir);
  if negb there then mret (mgr, Err (FE_NotFound (WorkspaceId_display ws)))
  else
  match try_acquire_lease [RefWorkspace ws] (mgr_jobs mgr) with
  | (reg, Err c) => mret (with_mgr_jobs reg mgr, Err (conflict_to_file_error c))
  | (reg, Ok lease) =>
      x ← with_cell root (mgr_caches mgr) ws (delete_head_locked ws_dir (WorkspaceId_display ws) head_id);
      let '(caches, r) := x in
      (* [_ref_guard] drops on return *)
      mret (mkWorkspaceMgr (release_lease lease reg) caches, r)
  end.

Definition publish_trained_head_for_workspace {E} (ws : WorkspaceId) (pending : PendingHead)
    (mgr : WorkspaceMgr) : M E (WorkspaceMgr * result FileError HeadRotationResult) :=
  let ws_dir := workspace_dir root ws in
  there ← path_exists (workspace_core_path ws_dir);
  if negb there then mret (mgr, Err (FE_NotFound (WorkspaceId_display ws)))
  else
  x ← with_cell root (mgr_caches mgr) ws (λ cell, publish_trained_head ws_dir cell pending);
  let '(caches, r) := x in
  mret (mkWorkspaceMgr (mgr_jobs mgr) caches, r).
End Handlers.

End Rotation.

(** ** Paths *)

Lemma prefix_dot c s : c ≠ "."%char → String.prefix temp_prefix (String c s) = false.
Proof.
  intros H. change ((if ascii_dec "." c then String.prefix "tmp" s else false) = false).
  destruct (ascii_dec "." c); [congruence|done].
Qed.

Lemma string_app_cons c s t : (String c s ++ t)%string = String c (s ++ t)%string.
Proof. done. Qed.

Lemma string_app_inj_r s t u : (s ++ u)%string = (t ++ u)%string → s = t.
Proof.
  intros H. apply bytes_of_inj. apply (f_equal bytes_of) in H. rewrite !bytes_of_app in H.
  by apply app_inv_tail in H.
Qed.

Lemma ext_neq s t : (s ++ ".mpk")%string ≠ (t ++ ".json")%string.
Proof.
  intros H. apply (f_equal bytes_of), (f_equal (@rev ascii)) in H.
  rewrite !bytes_of_app, !rev_app_distr in H. discriminate H.
Qed.

(** An identifier's text, as [parse] accepts it. *)
Definition canonical_id `{U : UuidLib} (h : HeadId) : Prop := canonical_uuid_v4 (HeadId_display h).

Lemma canonical_head_name `{U : UuidLib} h ext :
  canonical_id h → String.prefix temp_prefix (HeadId_display h ++ ext) = false.
Proof.
  intros Hc. destruct (HeadId_display h) as [|c s] eqn:E.
  - destruct Hc as [Hl _]. by rewrite E in Hl.
  - rewrite string_app_cons. apply prefix_dot. intros ->.
    apply (canonical_uuid_no_sep _ "."%char Hc); [|done]. rewrite E. left.
Qed.

(** ** Triples of the schema's readers and writers *)

Lemma visible_read {A} (P : Disk → Prop) (f : Disk → result IoKind A) :
  triple P (syscall (λ d, (d, f d))) (λ _, P) P P.
Proof. eapply triple_conseq; [apply (triple_read P f P P); auto|auto|naive_solver|auto|auto]. Qed.

Lemma mkdir_prefixes_noop (F : Disk → Prop) done rest :
  (∀ d q, F d → q ≠ [] → q `prefix_of` done ++ rest → visible d !! q = Some Dir) →
  triple F (mkdir_prefixes done rest) (λ _, F) F F.
Proof.
  revert done. induction rest as [|c rest IH]; intros dn HF; cbn [mkdir_prefixes].
  - by apply triple_ret.
  - eapply triple_bind.
    + apply triple_syscall with (Q := λ _, F); [done|done|]. intros d Hd. unfold stat.
      rewrite (HF d (dn ++ [c]) Hd); [done|by destruct dn|].
      exists rest. by rewrite <-app_assoc.
    + intros ?. apply IH. rewrite <-app_assoc. exact HF.
Qed.

(** A head on disk: its record, its manifest's bytes, its weights. *)
Abbreviation entry := (HeadRecord * (list ascii * list ascii))%type.

Section SchemaTriples.
Context `{UL : UuidLaws} `{TL : TempLaws}.
Context `{JC : !Json WorkspaceCore} `{JCL : !JsonLaws WorkspaceCore}.
Context `{JH : !Json HeadIndex} `{JHL : !JsonLaws HeadIndex}.
Context `{JM : !Json HeadManifest} `{JML : !JsonLaws HeadManifest}.

Lemma read_file_triple (F : Disk → Prop) p : triple F (read_file p) (λ _, F) F F.
Proof. apply triple_map_throw, visible_read. Qed.

Lemma parse_triple {A} `{Json A} (F : Disk → Prop) p b :
  triple F (parse (A := A) p b) (λ a d, F d ∧ from_slice b = Some a) F F.
Proof. unfold parse. destruct (from_slice b); [by apply triple_ret|by apply triple_throw]. Qed.

Lemma serialize_triple {A} `{Json A} (F : Disk → Prop) (a : A) :
  triple F (serialize a) (λ b d, F d ∧ to_vec a = Some b) F F.
Proof. unfold serialize. destruct (to_vec a); [by apply triple_ret|by apply triple_throw]. Qed.

(** The core reader returns the value of the file's bytes, or throws. *)
Lemma read_core_triple (F : Disk → Prop) ws cb :
  (∀ d, F d → visible d !! workspace_core_path ws = Some (File cb true)) →
  triple F (read_workspace_core ws) (λ core d, F d ∧ from_slice cb = Some core) F F.
Proof.
  intros Hv. unfold read_workspace_core, read_capped.
  eapply triple_bind with (R := λ b d, F d ∧ b = cb).
  - eapply triple_bind.
    { apply triple_map_throw, (triple_read F (λ d, match stat (workspace_core_path ws) d with
        | Some n => Ok n | None => Err IoNotFound end) F F); auto. }
    intros n. cbv beta. apply triple_extract with (φ := n = File cb true) (P' := F).
    { intros d [Hd Hn]. unfold stat in Hn. rewrite Hv in Hn by done. by injection Hn as <-. }
    intros ->.
    destruct (_ <? _)%Z eqn:Hcap; [by apply triple_throw|].
    apply Z.ltb_ge in Hcap.
    eapply triple_bind.
    { apply triple_map_throw, (triple_read F (λ d, match stat (workspace_core_path ws) d with
        | Some (File c _) => Ok c | None => Err IoNotFound | _ => Err IoOther end) F F); auto. }
    intros c. cbv beta. apply triple_ret. intros d [Hd Hc]. unfold stat in Hc.
    rewrite Hv in Hc by done. injection Hc as <-. split; [done|]. apply take_ge. lia.
  - intros b. cbv beta. apply triple_extract with (φ := b = cb) (P' := F); [naive_solver|].
    intros ->. apply (parse_triple F).
Qed.

(** What a metadata file may hold while it is rewritten with [a]. *)
Definition rewriting {A} `{Json A} (a : A) (p : path) (old : option node) (d : Disk) : Prop :=
  ∃ b, from_slice b = Some a ∧ among d p [Some (File b true); old].

Lemma put_json_triple {A} `{Json A} `{!JsonLaws A} (F : Disk → Prop) p old (a : A) b :
  p ≠ [] → not_temp p → stable (put_scope p) F → to_vec a = Some b →
  triple (λ d, F d ∧ no_moves d ∧ definite d p old) (put_atomic p b)
    (λ _ d, F d ∧ no_moves d ∧ definite d p (Some (File b true)))
    (λ d, F d ∧ no_moves d ∧ among d p [Some (File b true); old])
    (λ d, F d ∧ no_moves d ∧ among d p [Some (File b true); old]).
Proof.
  intros Hne Hnt HF Hb.
  eapply triple_conseq; [apply (put_atomic_triple F (Some [old]) p b Hne Hnt HF)|..]; cbv beta zeta; cbn [held].
  - intros d (H1 & H2 & H3). rewrite facts_one. done.
  - done.
  - intros d (H1 & H2 & H3). by rewrite facts_one in H3.
  - intros d (H1 & H2 & H3). by rewrite facts_one in H3.
Qed.

Lemma write_core_triple (F : Disk → Prop) ws old core :
  stable (put_scope (workspace_core_path ws)) F →
  triple (λ d, F d ∧ no_moves d ∧ definite d (workspace_core_path ws) old)
    (write_workspace_core ws core)
    (λ _ d, F d ∧ no_moves d ∧ ∃ b, to_vec core = Some b ∧
        definite d (workspace_core_path ws) (Some (File b true)))
    (λ d, F d ∧ no_moves d ∧ (definite d (workspace_core_path ws) old ∨
        rewriting core (workspace_core_path ws) old d))
    (λ d, F d ∧ no_moves d ∧ (definite d (workspace_core_path ws) old ∨
        rewriting core (workspace_core_path ws) old d)).
Proof.
  intros HF. unfold write_workspace_core. eapply triple_bind.
  - eapply triple_conseq; [apply serialize_triple|..];
      [intros d H; exact H|intros ? d H; exact H|cbn; tauto|cbn; tauto].
  - intros b. cbv beta.
    eapply triple_conseq with (P' := λ d, to_vec core = Some b ∧ (F d ∧ no_moves d ∧
      definite d (workspace_core_path ws) old));
      [|naive_solver|intros ? d H; exact H|intros d H; exact H|intros d H; exact H].
    apply triple_pure. intros Hb.
    destruct (_ <? _)%Z; [apply triple_throw; naive_solver|].
    eapply triple_conseq; [apply (put_json_triple F (workspace_core_path ws) old core b)|..].
    + by destruct ws.
    + by apply not_temp_snoc.
    + done.
    + done.
    + done.
    + naive_solver.
    + intros d (H1 & H2 & H3). split_and!; [done|done|]. right. exists b.
      split; [by apply from_to|done].
    + intros d (H1 & H2 & H3). split_and!; [done|done|]. right. exists b.
      split; [by apply from_to|done].
Qed.

(** [write_head_index]: refused over the cap, otherwise an atomic replacement. *)
Lemma write_index_triple (F : Disk → Prop) ws old idx :
  stable (put_scope (head_index_path ws)) F →
  let hj := head_index_path ws in
  let mid := λ d, F d ∧ no_moves d ∧
    (definite d hj old ∨ List.length (heads idx) ≤ MAX_HEADS_PER_WORKSPACE ∧
       ∃ b, from_slice b = Some idx ∧ among d hj [Some (File b true); old]) in
  triple (λ d, F d ∧ no_moves d ∧ definite d hj old) (write_head_index ws idx)
    (λ _ d, List.length (heads idx) ≤ MAX_HEADS_PER_WORKSPACE ∧ F d ∧ no_moves d ∧
       ∃ b, from_slice b = Some idx ∧ definite d hj (Some (File b true)))
    mid mid.
Proof.
  intros HF hj mid. unfold write_head_index. fold hj.
  destruct (Nat.ltb_spec MAX_HEADS_PER_WORKSPACE (List.length (heads idx))) as [Hlong|Hlen].
  { apply triple_throw. intros d (H1 & H2 & H3). split_and!; auto. }
  eapply triple_bind.
  - eapply triple_conseq; [apply serialize_triple|intros d H; exact H|intros ? d H; exact H|..];
      intros d (H1 & H2 & H3); split_and!; auto.
  - intros b. cbv beta.
    eapply triple_conseq with (P' := λ d, to_vec idx = Some b ∧ (F d ∧ no_moves d ∧ definite d hj old));
      [|naive_solver|intros ? d H; exact H|intros d H; exact H|intros d H; exact H].
    apply triple_pure. intros Hb.
    assert (Hmid : ∀ d, F d ∧ no_moves d ∧ among d hj [Some (File b true); old] → mid d).
    { intros d (H1 & H2 & H3). split_and!; [done|done|]. right. split; [done|]. exists b.
      split; [by apply from_to|done]. }
    eapply triple_conseq; [apply (put_json_triple F hj old idx b)|..]; try done.
    + by destruct ws.
    + by apply not_temp_snoc.
    + intros ? d (H1 & H2 & H3). split_and!; [done..|]. exists b. split; [by apply from_to|done].
Qed.

Lemma stable_exists_definite (S : path → Prop) p (φ : list ascii → Prop) :
  ¬ S p → stable S (λ d, ∃ b, φ b ∧ definite d p (Some (File b true))).
Proof.
  intros Hp. split.
  - intros d o (b & H1 & H2) Hm Ho. exists b. split; [done|]. apply among_add_other; [done|].
    apply not_true_iff_false. intros Ht. by apply Hp, Ho.
  - intros d dir (b & H1 & H2). exists b. split; [done|]. by apply among_fsync.
  - intros d q c (b & H1 & H2) Hq. exists b. split; [done|]. apply among_sync; [done|]. by intros <-.
Qed.

Lemma index_core_scopes ws :
  ¬ put_scope (head_index_path ws) (workspace_core_path ws) ∧
  ¬ put_scope (workspace_core_path ws) (head_index_path ws).
Proof.
  unfold put_scope, head_index_path, workspace_core_path. rewrite !parent_app.
  split; intros [E|(name & E & Hn)]; apply app_inj_tail in E as [_ E]; subst; discriminate.
Qed.

(** The index, then the core: the shared commit. *)
Lemma commit_index_triple (F : Disk → Prop) ws cell idx oldi cb :
  stable (put_scope (head_index_path ws)) F → stable (put_scope (workspace_core_path ws)) F →
  let hj := head_index_path ws in let cj := workspace_core_path ws in
  let oldc := Some (File cb true) in
  let mid := λ d, F d ∧ no_moves d ∧
    (definite d hj oldi ∨ List.length (heads idx) ≤ MAX_HEADS_PER_WORKSPACE ∧
       ∃ b, from_slice b = Some idx ∧ among d hj [Some (File b true); oldi]) ∧
    (definite d cj oldc ∨ ∃ a : WorkspaceCore, rewriting a cj oldc d) in
  triple (λ d, F d ∧ no_moves d ∧ definite d hj oldi ∧ definite d cj oldc)
    (commit_index ws cell idx)
    (λ cell' d, F d ∧ no_moves d ∧ List.length (heads idx) ≤ MAX_HEADS_PER_WORKSPACE ∧
       (∃ b, from_slice b = Some idx ∧ definite d hj (Some (File b true))) ∧
       (∃ b, from_slice b = Some (cell_core cell') ∧ definite d cj (Some (File b true))) ∧
       cell_heads cell' = idx ∧
       ∃ core, from_slice cb = Some core ∧
         cell_core cell' = set_head_count (List.length (heads idx)) core)
    mid mid.
Proof.
  intros HFi HFc hj cj oldc mid. unfold commit_index. destruct (index_core_scopes ws) as [Hij Hji].
  set (idx_new := λ d, ∃ b, from_slice b = Some idx ∧ definite d hj (Some (File b true))).
  eapply triple_bind.
  { eapply triple_conseq with (P' := λ d, (F d ∧ facts [(cj, [oldc])] d) ∧ no_moves d ∧ definite d hj oldi);
      [apply (write_index_triple (λ d, F d ∧ facts [(cj, [oldc])] d) ws oldi idx)|..].
    - apply stable_and; [done|]. apply facts_stable. by repeat constructor.
    - intros d (H1 & H2 & H3 & H4). by rewrite facts_one.
    - intros ? d H. exact H.
    - intros d ((H1 & H2) & H3 & H4). rewrite facts_one in H2. split_and!; auto.
    - intros d ((H1 & H2) & H3 & H4). rewrite facts_one in H2. split_and!; auto. }
  intros ?. cbv beta. apply triple_pure. intros Hlen.
  assert (Hmid : ∀ d, (F d ∧ idx_new d) ∧ no_moves d ∧
    (definite d cj oldc ∨ ∃ a : WorkspaceCore, rewriting a cj oldc d) → mid d).
  { intros d ((H1 & b & H2 & H3) & H4 & H5). split_and!; [done|done| |done].
    right. split; [done|]. exists b. split; [done|]. eapply among_weaken; [exact H3|set_solver]. }
  set (G := λ d, (F d ∧ idx_new d) ∧ no_moves d ∧ definite d cj oldc).
  eapply triple_bind with (R := λ core d, from_slice cb = Some core ∧ G d).
  { eapply triple_conseq; [apply (read_core_triple G ws cb)|..].
    - intros d Hd. by apply definite_visible, Hd.
    - intros d ((H1 & H2) & H3 & H4). by rewrite facts_one in H2.
    - naive_solver.
    - intros d (H1 & H2 & H3). apply Hmid. auto.
    - intros d (H1 & H2 & H3). apply Hmid. auto. }
  intros core. cbv beta. apply triple_pure. intros Hcore.
  set (next := set_head_count _ core). eapply triple_bind.
  { eapply triple_conseq; [apply (write_core_triple (λ d, F d ∧ idx_new d) ws oldc next)|
      intros d H; exact H|intros ? d H; exact H|intros d (H1 & H2 & [H3|H3]); apply Hmid; eauto..].
    apply stable_and; [done|]. by apply stable_exists_definite. }
  intros ?. cbv beta. apply triple_ret. intros d ((H1 & H2) & H4 & b & H5 & H6).
  split_and!; [done..| |done|by exists core]. exists b. split; [by apply from_to|done].
Qed.

(** ** The workspace on disk *)

Definition entry_id (e : entry) : HeadId := hr_head_id (fst e).

Definition entry_ok (e : entry) : Prop :=
  canonical_id (entry_id e) ∧
  ∃ man, from_slice (fst (snd e)) = Some man ∧ hm_head_id man = entry_id e.

Definition head_files (ws : path) (e : entry) : list (path * list (option node)) :=
  [(head_manifest_path ws (entry_id e), [Some (File (fst (snd e)) true)]);
   (head_artifact_path ws (entry_id e), [Some (File (snd (snd e)) true)])].

Definition file_facts (ws : path) (es : list entry) := flat_map (head_files ws) es.

Definition dir_facts (ws : path) : list (path * list (option node)) :=
  map (λ n, (take n (heads_dir ws), [Some Dir])) (seq 1 (List.length (heads_dir ws))).

(** The cached index and core are durably on disk, and the files of [es]. *)
Record backed (ws : path) (cell : WorkspaceCacheCell) (es : list entry) (d : Disk) : Prop := {
  ba_moves : no_moves d;
  ba_facts : facts (dir_facts ws ++ file_facts ws es) d;
  ba_index : ∃ b, from_slice b = Some (cell_heads cell) ∧
    definite d (head_index_path ws) (Some (File b true));
  ba_core : ∃ b, from_slice b = Some (cell_core cell) ∧
    definite d (workspace_core_path ws) (Some (File b true));
}.

(** Distinct, well-formed heads, at most two. *)
Record entries_ok (cell : WorkspaceCacheCell) (es : list entry) : Prop := {
  eo_ids : List.NoDup (map entry_id es);
  eo_entries : ∀ e, e ∈ es → entry_ok e;
  eo_heads : map fst es = heads (cell_heads cell);
  eo_len : List.length es ≤ MAX_HEADS_PER_WORKSPACE;
}.

(** The workspace [cell] caches is durably on disk, its heads [es] with it. *)
Definition workspace_ok (ws : path) (cell : WorkspaceCacheCell) (es : list entry) (d : Disk) : Prop :=
  entries_ok cell es ∧ backed ws cell es d.

(** A tree whose [heads.json] holds [idx], at most two entries, every one with
    its manifest and its weights, and whose [workspace.json] parses. *)
Definition heads_consistent (ws : path) (idx : HeadIndex) (img : fs) : Prop :=
  (∃ b, img !! head_index_path ws = Some (File b true) ∧ from_slice b = Some idx) ∧
  List.length (heads idx) ≤ MAX_HEADS_PER_WORKSPACE ∧ img !! heads_dir ws = Some Dir ∧
  (∀ r, r ∈ heads idx →
     (∃ mb man, img !! head_manifest_path ws (hr_head_id r) = Some (File mb true) ∧
        from_slice mb = Some man ∧ hm_head_id man = hr_head_id r) ∧
     ∃ wb, img !! head_artifact_path ws (hr_head_id r) = Some (File wb true)) ∧
  ∃ b (core : WorkspaceCore), img !! workspace_core_path ws = Some (File b true) ∧ from_slice b = Some core.

Lemma heads_dir_fact ws : (heads_dir ws, [Some Dir]) ∈ dir_facts ws.
Proof.
  apply list_elem_of_fmap. exists (List.length (heads_dir ws)). split; [by rewrite firstn_all|].
  apply elem_of_seq. unfold heads_dir. rewrite length_app. cbn. lia.
Qed.

Lemma file_facts_app ws es es' : file_facts ws (es ++ es') = file_facts ws es ++ file_facts ws es'.
Proof. apply flat_map_app. Qed.

Lemma file_facts_elem ws es x :
  x ∈ file_facts ws es ↔ ∃ e, e ∈ es ∧ x ∈ head_files ws e.
Proof.
  unfold file_facts. rewrite list_elem_of_In, in_flat_map.
  by setoid_rewrite <-list_elem_of_In.
Qed.

Lemma consistent_of_facts ws idx es d img vs vc :
  facts (dir_facts ws ++ file_facts ws es) d → (∀ e, e ∈ es → entry_ok e) →
  heads idx ⊆ map fst es → List.length (heads idx) ≤ MAX_HEADS_PER_WORKSPACE →
  crash_image d img →
  img !! head_index_path ws = Some (File vs true) → from_slice vs = Some idx →
  img !! workspace_core_path ws = Some (File vc true) →
  (∃ core : WorkspaceCore, from_slice vc = Some core) →
  heads_consistent ws idx img.
Proof.
  intros HL Hes Hin Hlen Hi Hhj Hidx Hcj [core Hcore].
  apply facts_app in HL as [HD HL]. split_and!; [by exists vs|done| | |by exists vc, core].
  - eapply facts_crash; [exact HD|apply heads_dir_fact|done|done].
  - intros r Hr. apply Hin in Hr. apply list_elem_of_fmap in Hr as (e & -> & He).
    destruct (Hes e He) as (_ & man & H1 & H2).
    assert (Hf : ∀ x, x ∈ head_files ws e → x ∈ file_facts ws es) by (intros; apply file_facts_elem; eauto).
    split.
    + exists (fst (snd e)), man. split_and!; [|done|done].
      eapply facts_crash; [exact HL|apply Hf; left|done|done].
    + exists (snd (snd e)). eapply facts_crash; [exact HL|apply Hf; right; left|done|done].
Qed.

Lemma backed_consistent ws cell es d img :
  backed ws cell es d → (∀ e, e ∈ es → entry_ok e) → heads (cell_heads cell) ⊆ map fst es →
  List.length (heads (cell_heads cell)) ≤ MAX_HEADS_PER_WORKSPACE →
  crash_image d img → heads_consistent ws (cell_heads cell) img.
Proof.
  intros [] Hes Hin Hlen Hi. destruct ba_index0 as (b & Hb1 & Hb2), ba_core0 as (c & Hc1 & Hc2).
  eapply (consistent_of_facts ws _ es d img b c); try done.
  - by eapply definite_crash.
  - by eapply definite_crash.
  - eauto.
Qed.

(** *** The paths are apart *)

Lemma prefix_snoc_cases (q p : path) a : q `prefix_of` p ++ [a] → q = p ++ [a] ∨ List.length q ≤ List.length p.
Proof.
  intros [k Hk]. destruct (decide (List.length q ≤ List.length p)) as [|Hl]; [by right|left].
  assert (k = []) as ->; [|by rewrite app_nil_r in Hk].
  apply (f_equal (@List.length _)) in Hk. rewrite !length_app in Hk. cbn in Hk.
  apply length_zero_iff_nil. lia.
Qed.

Lemma dir_facts_paths ws x : x ∈ dir_facts ws →
  fst x = heads_dir ws ∨ List.length (fst x) ≤ List.length ws.
Proof.
  intros (n & -> & _)%list_elem_of_fmap. cbn. apply prefix_snoc_cases. apply prefix_take.
Qed.

Lemma file_facts_paths ws es x : (∀ e, e ∈ es → entry_ok e) → x ∈ file_facts ws es →
  ∃ e name, e ∈ es ∧ fst x = heads_dir ws ++ [name] ∧ String.prefix temp_prefix name = false ∧
    (name = HeadId_display (entry_id e) ++ ".json" ∨ name = HeadId_display (entry_id e) ++ ".mpk")%string.
Proof.
  intros Hes (e & He & Hx)%file_facts_elem. destruct (Hes e He) as [Hc _].
  exists e. apply elem_of_cons in Hx as [->|Hx].
  - eexists. split_and!; [done|reflexivity|by apply canonical_head_name|by left].
  - apply list_elem_of_singleton in Hx as ->.
    eexists. split_and!; [done|reflexivity|by apply canonical_head_name|by right].
Qed.

Definition meta_scope (ws : path) (p : path) : Prop :=
  put_scope (head_index_path ws) p ∨ put_scope (workspace_core_path ws) p.

Lemma meta_scope_name ws p : meta_scope ws p → ∃ name, p = ws ++ [name] ∧ name ≠ HEADS_DIR_NAME.
Proof.
  unfold meta_scope, put_scope, head_index_path, workspace_core_path. rewrite !parent_app.
  intros [[->|(name & -> & Hn)]|[->|(name & -> & Hn)]]; eexists; (split; [reflexivity|]); try done;
    by intros ->.
Qed.

Lemma meta_scope_apart ws es x : (∀ e, e ∈ es → entry_ok e) →
  x ∈ dir_facts ws ++ file_facts ws es → ¬ meta_scope ws (fst x).
Proof.
  intros Hes Hx (name & Hp & Hn)%meta_scope_name. apply elem_of_app in Hx as [Hx|Hx].
  - apply dir_facts_paths in Hx as [Hx|Hx].
    + rewrite Hx in Hp. apply app_inv_head in Hp. congruence.
    + apply (f_equal (@List.length _)) in Hp. rewrite length_app in Hp. cbn in Hp. lia.
  - apply file_facts_paths in Hx as (e & nm & _ & Hx & _); [|done]. rewrite Hx in Hp.
    apply (f_equal (@List.length _)) in Hp. unfold heads_dir in Hp. rewrite !length_app in Hp.
    cbn in Hp. lia.
Qed.

Lemma meta_stable ws es : (∀ e, e ∈ es → entry_ok e) →
  stable (meta_scope ws) (facts (dir_facts ws ++ file_facts ws es)).
Proof.
  intros Hes. apply facts_stable, List.Forall_forall. intros x Hx%list_elem_of_In.
  by eapply meta_scope_apart.
Qed.

(** A caller's staged file, at any depth below the workspace's [.tmp/]. *)
Definition staged (ws p : path) : Prop := ∃ name q, p = ws ++ ROOT_TMP_DIR_NAME :: name :: q.

(** The names of a head's own files, of temporaries beside them, of staged files. *)
Definition head_scope (ws : path) (id : HeadId) (p : path) : Prop :=
  staged ws p ∨ ∃ name, p = heads_dir ws ++ [name] ∧
    (name = (HeadId_display id ++ ".json")%string ∨ name = (HeadId_display id ++ ".mpk")%string ∨
     String.prefix temp_prefix name = true).

Lemma head_scope_length ws id p : head_scope ws id p → S (S (List.length ws)) ≤ List.length p.
Proof. intros [(name & q & ->)|(name & -> & _)]; unfold heads_dir; rewrite !length_app; cbn; lia. Qed.

Lemma head_scope_apart ws id es x : (∀ e, e ∈ es → entry_ok e) → id ∉ map entry_id es →
  x ∈ dir_facts ws ++ file_facts ws es → ¬ head_scope ws id (fst x).
Proof.
  intros Hes Hid Hx Hp. apply elem_of_app in Hx as [Hx|Hx].
  - apply head_scope_length in Hp.
    apply dir_facts_paths in Hx as [Hx|Hx]; [|lia]. rewrite Hx in Hp.
    unfold heads_dir in Hp. rewrite length_app in Hp. cbn in Hp. lia.
  - apply file_facts_paths in Hx as (e & nm & He & Hx & Hpre & Hnm); [|done]. rewrite Hx in Hp.
    destruct Hp as [(name & q & Hp)|(name & Hp & Hn)].
    { unfold heads_dir in Hp. rewrite <-app_assoc in Hp. by apply app_inv_head in Hp. }
    apply app_inv_head in Hp as [=->].
    assert (Hneq : ∀ ext, (HeadId_display (entry_id e) ++ ext)%string ≠ (HeadId_display id ++ ext)%string).
    { intros ext E%string_app_inj_r%HeadId_display_inj; [|by apply Hes]. apply Hid. rewrite <-E.
      apply list_elem_of_fmap. eauto. }
    destruct Hnm as [->| ->]; destruct Hn as [Hn|[Hn|Hn]]; try congruence;
      first [by apply Hneq in Hn|by apply ext_neq in Hn|by symmetry in Hn; apply ext_neq in Hn].
Qed.

Lemma head_stable ws id es : (∀ e, e ∈ es → entry_ok e) → id ∉ map entry_id es →
  stable (head_scope ws id) (facts (dir_facts ws ++ file_facts ws es)).
Proof.
  intros Hes Hid. apply facts_stable, List.Forall_forall. intros x Hx%list_elem_of_In.
  by eapply head_scope_apart.
Qed.

(** ** The operations *)

(** Every crash leaves the old index or the new one, each with its files. *)
Definition old_or_new (ws : path) (old new : HeadIndex) (d : Disk) : Prop :=
  no_moves d ∧ ∀ img, crash_image d img → heads_consistent ws old img ∨ heads_consistent ws new img.

Lemma commit_index_ok ws cell es idx :
  (∀ e, e ∈ es → entry_ok e) →
  heads (cell_heads cell) ⊆ map fst es →
  List.length (heads (cell_heads cell)) ≤ MAX_HEADS_PER_WORKSPACE →
  heads idx ⊆ map fst es →
  let bad := old_or_new ws (cell_heads cell) idx in
  triple (backed ws cell es) (commit_index ws cell idx)
    (λ cell' d, (List.length (heads idx) ≤ MAX_HEADS_PER_WORKSPACE ∧
        cell' = mkCell (set_head_count (List.length (heads idx)) (cell_core cell)) idx) ∧
        backed ws cell' es d) bad bad.
Proof.
  intros Hes Hold Hlen Hnew bad.
  set (F := facts (dir_facts ws ++ file_facts ws es)).
  eapply triple_conseq with (P' := λ d, ∃ hb, ∃ cb, (from_slice hb = Some (cell_heads cell) ∧
      from_slice cb = Some (cell_core cell)) ∧ F d ∧ no_moves d ∧
      definite d (head_index_path ws) (Some (File hb true)) ∧
      definite d (workspace_core_path ws) (Some (File cb true)));
    [|by intros d [H1 H2 (hb & H3 & H4) (cb & H5 & H6)]; exists hb, cb
     |intros ? d H; exact H|intros d H; exact H|intros d H; exact H].
  apply triple_ex. intros hb. apply triple_ex. intros cb. apply triple_pure. intros [Hhb Hcb].
  pose proof (meta_stable ws es Hes) as Hst.
  assert (Hbad : ∀ d, F d ∧ no_moves d ∧
    (definite d (head_index_path ws) (Some (File hb true)) ∨
     List.length (heads idx) ≤ MAX_HEADS_PER_WORKSPACE ∧ ∃ b, from_slice b = Some idx ∧
       among d (head_index_path ws) [Some (File b true); Some (File hb true)]) ∧
    (definite d (workspace_core_path ws) (Some (File cb true)) ∨
     ∃ a : WorkspaceCore, rewriting a (workspace_core_path ws) (Some (File cb true)) d) → bad d).
  { intros d (HF & Hnm & Hi & Hc). split; [exact Hnm|]. intros img Himg.
    assert (Hcore : ∃ vc, img !! workspace_core_path ws = Some (File vc true) ∧
      ∃ core : WorkspaceCore, from_slice vc = Some core).
    { destruct Hc as [Hc|(core & b & Hb & Hc)].
      - exists cb. split; [by eapply definite_crash|eauto].
      - apply (among_crash _ _ _ img) in Hc; [|done|done].
        apply elem_of_cons in Hc as [Hc|Hc%list_elem_of_singleton]; eauto. }
    destruct Hcore as (vc & Hvc & Hcore).
    assert (Hidx : img !! head_index_path ws = Some (File hb true) ∨
      List.length (heads idx) ≤ MAX_HEADS_PER_WORKSPACE ∧ ∃ b, from_slice b = Some idx ∧
        img !! head_index_path ws = Some (File b true)).
    { destruct Hi as [Hi|(Hl & b & Hb & Hi)]; [left; by eapply definite_crash|].
      apply (among_crash _ _ _ img) in Hi; [|done|done].
      apply elem_of_cons in Hi as [Hi|Hi%list_elem_of_singleton]; eauto 6. }
    destruct Hidx as [Hidx|(Hl & b & Hb & Hidx)];
      [left; by eapply (consistent_of_facts ws _ es d img hb vc)|
       right; by eapply (consistent_of_facts ws _ es d img b vc)]. }
  eapply triple_conseq; [apply (commit_index_triple F ws cell idx (Some (File hb true)) cb)|..].
  - eapply stable_weaken; [exact Hst|]. by left.
  - eapply stable_weaken; [exact Hst|]. by right.
  - done.
  - intros cell' d (H1 & H2 & H3 & H4 & H5 & H6 & core & H7 & H8).
    destruct cell' as [c' h']; cbn in *. rewrite Hcb in H7. injection H7 as <-. subst h' c'.
    split; [done|]. by split.
  - exact Hbad.
  - exact Hbad.
Qed.

Lemma backed_stable ws cell es id :
  (∀ e, e ∈ es → entry_ok e) → id ∉ map entry_id es →
  stable (head_scope ws id) (backed ws cell es).
Proof.
  intros Hes Hid.
  assert (Hi : ¬ head_scope ws id (head_index_path ws)).
  { intros H%head_scope_length. unfold head_index_path in H. rewrite length_app in H. cbn in H. lia. }
  assert (Hc : ¬ head_scope ws id (workspace_core_path ws)).
  { intros H%head_scope_length. unfold workspace_core_path in H. rewrite length_app in H. cbn in H. lia. }
  pose proof (no_moves_stable (head_scope ws id)) as S1.
  pose proof (head_stable ws id es Hes Hid) as S2.
  pose proof (stable_exists_definite _ _ (λ b, from_slice b = Some (cell_heads cell)) Hi) as S3.
  pose proof (stable_exists_definite _ _ (λ b, from_slice b = Some (cell_core cell)) Hc) as S4.
  destruct S1, S2, S3, S4. split; intros; destruct H; split; eauto.
Qed.

Lemma remove_head_files_ok ws cell es id :
  (∀ e, e ∈ es → entry_ok e) → id ∉ map entry_id es →
  triple (backed ws cell es) (remove_head_files ws id) (λ _, backed ws cell es)
    (backed ws cell es) (backed ws cell es).
Proof.
  intros Hes Hid. pose proof (backed_stable ws cell es id Hes Hid) as Hst.
  assert (Hrm : ∀ p, head_scope ws id p →
    triple (backed ws cell es) (best_effort (F := FileError) (fs_remove_file p)) (λ _, backed ws cell es)
      (backed ws cell es) (backed ws cell es)).
  { intros p Hp. apply triple_best_effort, remove_file_triple.
    eapply stable_weaken; [exact Hst|]. by intros q ->. }
  unfold remove_head_files. eapply triple_bind; [apply Hrm; right; eexists; by eauto|]. intros ?.
  eapply triple_bind; [apply Hrm; right; eexists; by eauto|]. intros ?.
  apply triple_best_effort, fsync_dir_triple. intros d. apply (st_fsync _ _ Hst).
Qed.

Lemma backed_subset ws cell es es' d :
  (∀ e, e ∈ es' → e ∈ es) → backed ws cell es d → backed ws cell es' d.
Proof.
  intros Hsub []. split; [done| |done|done].
  apply facts_app in ba_facts0 as [H1 H2]. apply facts_app. split; [done|].
  apply facts_spec. intros x Hx%list_elem_of_In. rewrite facts_spec in H2. apply H2, list_elem_of_In.
  apply file_facts_elem in Hx as (e & He & Hx). apply file_facts_elem. eauto.
Qed.

(** *** Publishing *)

Lemma visible_stable S p v : ¬ S p → stable S (λ d, no_moves d ∧ visible d !! p = v).
Proof.
  intros Hp. split.
  - intros d o [Hm Hv] Ho Hs. split; [by apply no_moves_add|]. rewrite visible_add.
    rewrite apply_op_at by (by left). rewrite op_at_untouched; [done|].
    apply not_true_iff_false. intros Ht. by apply Hp, Hs.
  - intros d dir [Hm Hv]. split; [by apply no_moves_fsync|]. by rewrite visible_fsync.
  - intros d q c [Hm Hv] Hq. split; [by apply no_moves_sync|]. rewrite visible_sync by done.
    rewrite bool_decide_eq_false_2; [done|]. by intros ->.
Qed.

Lemma next_records_spec m prev :
  next_records m prev =
    (take MAX_HEADS_PER_WORKSPACE (new_record m :: heads prev),
     hr_head_id <$> head (drop MAX_HEADS_PER_WORKSPACE (new_record m :: heads prev))).
Proof.
  unfold next_records. destruct (Nat.ltb_spec MAX_HEADS_PER_WORKSPACE
    (List.length (new_record m :: heads prev))) as [H|H]; [done|].
  by rewrite take_ge, drop_ge by done.
Qed.

Lemma dirs_visible ws cell es d q :
  backed ws cell es d → q ≠ [] → q `prefix_of` heads_dir ws → visible d !! q = Some Dir.
Proof.
  intros [] Hq Hp. apply definite_visible. apply facts_app in ba_facts0 as [HD _].
  eapply facts_elem; [exact HD|]. apply list_elem_of_fmap. exists (List.length q).
  destruct Hp as [k ->]. split; [by rewrite take_app_length|]. apply elem_of_seq. rewrite length_app.
  destruct q; [done|cbn; lia].
Qed.

Section Publish.
Variables (ws : path) (cell : WorkspaceCacheCell) (es : list entry) (pending : PendingHead).
Variables (mb wb : list ascii).
Hypothesis Hok : entries_ok cell es.
Hypothesis Hid : canonical_id (ph_head_id pending).
Hypothesis Hman : hm_head_id (ph_manifest pending) = ph_head_id pending.
Hypothesis Hfresh : ph_head_id pending ∉ map entry_id es.
Hypothesis Htmp : staged ws (ph_mpk_tempfile pending).

Let id := ph_head_id pending.
Let tmp := ph_mpk_tempfile pending.
Let mpk := head_artifact_path ws id.
Let json := head_manifest_path ws id.
Let new_entry : entry := (new_record (ph_manifest pending), (mb, wb)).

Lemma publish_scopes :
  head_scope ws id tmp ∧ head_scope ws id mpk ∧ head_scope ws id json ∧
  (∀ p, put_scope json p → head_scope ws id p) ∧ ¬ put_scope json tmp ∧ tmp ≠ mpk ∧ json ≠ mpk ∧
  json ≠ tmp.
Proof.
  assert (Hneq : ∀ name, tmp ≠ heads_dir ws ++ [name]).
  { intros name E. destruct Htmp as (n & q & Hn). unfold tmp in E. rewrite Hn in E. unfold heads_dir in E.
    rewrite <-app_assoc in E. by apply app_inv_head in E. }
  assert (Hs : ∀ p, put_scope json p → ∃ name, p = heads_dir ws ++ [name] ∧
     (name = (HeadId_display id ++ ".json")%string ∨ name = (HeadId_display id ++ ".mpk")%string ∨
     String.prefix temp_prefix name = true)).
  { intros p [->|(name & -> & Hn)]; [eexists; by eauto|]. unfold json, head_manifest_path.
    rewrite parent_app. eexists; by eauto. }
  split_and!.
  - by left.
  - right. eexists. by eauto.
  - right. eexists. by eauto.
  - intros p Hp. right. by apply Hs.
  - intros (name & E & _)%Hs. by apply Hneq in E.
  - apply Hneq.
  - intros E. apply app_inv_head in E as [= E']. symmetry in E'. by apply ext_neq in E'.
  - intros E. symmetry in E. by apply Hneq in E.
Qed.

Lemma publish_files_triple :
  let P := λ d, backed ws cell es d in
  triple (λ d, P d ∧ visible d !! tmp = Some (File wb true))
    (_ ← put_atomic json mb;
     _ ← map_throw (io_err mpk) (fs_rename tmp mpk);
     map_throw (io_err (heads_dir ws)) (fsync_dir (heads_dir ws)))
    (λ _ d, P d ∧ definite d json (Some (File mb true)) ∧ definite d mpk (Some (File wb true))) P P.
Proof.
  intros P. destruct publish_scopes as (S1 & S2 & S3 & S4 & S5 & S6 & S7 & S8).
  pose proof (backed_stable ws cell es id (eo_entries _ _ Hok) Hfresh) as Hst.
  set (V := λ d, no_moves d ∧ visible d !! tmp = Some (File wb true)).
  set (J := λ d, P d ∧ definite d json (Some (File mb true))).
  eapply triple_bind with (R := λ _ d, J d ∧ visible d !! tmp = Some (File wb true)).
  { eapply triple_conseq; [apply (put_atomic_triple (λ d, P d ∧ V d) None json mb)|..].
    - by destruct ws.
    - apply not_temp_snoc. by apply canonical_head_name.
    - apply stable_and; [by eapply stable_weaken|by apply visible_stable].
    - intros d [H1 H2]. pose proof (ba_moves _ _ _ _ H1).
      split_and!; [done|by split|done|]. apply facts_spec. by intros ? [].
    - intros ? d ((H1 & H2) & H3 & H4). split; [by split|apply H2].
    - intros d ((H1 & H2) & H3 & H4). exact H1.
    - intros d ((H1 & H2) & H3 & H4). exact H1. }
  intros ?. cbv beta. eapply triple_bind.
  { apply triple_map_throw. eapply triple_conseq; [apply (rename_file_triple J J tmp mpk wb)|..].
    - done.
    - intros d [H1 H2]. split.
      + apply (st_add _ _ Hst); [|done|by intros p ->%touches_del].
        apply (st_add _ _ Hst); [done..|by intros p ->%touches_set].
      + apply among_add_other; [apply among_add_other; [done|]|];
          apply not_true_iff_false; [intros H%touches_set|intros H%touches_del]; done.
    - done.
    - intros ? d H. exact H.
    - intros d [H _]. exact H.
    - intros d [H _]. exact H. }
  intros ?. cbv beta. apply triple_map_throw. eapply triple_conseq; [apply fsync_dir_triple
    with (F := λ d, J d ∧ visible d !! mpk = Some (File wb true))
         (G := λ d, P d ∧ definite d json (Some (File mb true)) ∧ definite d mpk (Some (File wb true)))|..].
  - intros d [[H1 H2] H3]. split_and!.
    + by apply (st_fsync _ _ Hst).
    + by apply among_fsync.
    + apply definite_of_fsync; [by eapply ba_moves|done|]. apply parent_app.
  - done.
  - done.
  - intros d [[H _] _]. exact H.
  - intros d [[H _] _]. exact H.
Qed.

(** The index a successful publish leaves, and the head it displaces. *)
Definition published_index : HeadIndex :=
  mkHeadIndex (take MAX_HEADS_PER_WORKSPACE (new_record (ph_manifest pending) :: heads (cell_heads cell))).
Definition published_cell : WorkspaceCacheCell :=
  mkCell (set_head_count (List.length (heads published_index)) (cell_core cell)) published_index.
Definition displaced : option HeadId :=
  hr_head_id <$> head (drop MAX_HEADS_PER_WORKSPACE
    (new_record (ph_manifest pending) :: heads (cell_heads cell))).

Let all := new_entry :: es.
Let keep := take MAX_HEADS_PER_WORKSPACE all.

Lemma publish_entries (man : from_slice mb = Some (ph_manifest pending)) :
  List.NoDup (map entry_id all) ∧ (∀ e, e ∈ all → entry_ok e) ∧
  map fst all = new_record (ph_manifest pending) :: heads (cell_heads cell) ∧
  entries_ok published_cell keep ∧
  match displaced with Some old => old ∉ map entry_id keep | None => True end.
Proof.
  assert (Hnew : entry_id new_entry = ph_head_id pending) by exact Hman.
  assert (Hnd : List.NoDup (map entry_id all)).
  { cbn [all map]. constructor; [rewrite Hnew; by rewrite <-list_elem_of_In|apply (eo_ids _ _ Hok)]. }
  assert (Hent : ∀ e, e ∈ all → entry_ok e).
  { intros e [->|He]%elem_of_cons; [|by apply (eo_entries _ _ Hok)].
    unfold entry_ok. rewrite Hnew. split; [done|]. exists (ph_manifest pending). by split. }
  assert (Hfst : map fst all = new_record (ph_manifest pending) :: heads (cell_heads cell))
    by (cbn; by rewrite (eo_heads _ _ Hok)).
  split_and!; [done|done|done| |].
  - assert (Hsplit : map entry_id all = map entry_id keep ++ map entry_id (drop MAX_HEADS_PER_WORKSPACE all))
      by (rewrite <-map_app; unfold keep; by rewrite take_drop).
    split.
    + rewrite Hsplit in Hnd. by apply NoDup_app_remove_r in Hnd.
    + intros e He. apply Hent. eapply elem_of_take in He as (i & Hi & _). by eapply list_elem_of_lookup_2.
    + unfold keep. rewrite <-firstn_map, Hfst. done.
    + unfold keep. rewrite length_take. lia.
  - unfold displaced. rewrite <-Hfst, <-fmap_drop.
    destruct (drop MAX_HEADS_PER_WORKSPACE all) as [|e l] eqn:Hd; [done|]. cbn.
    assert (Hsplit : all = keep ++ e :: l) by (rewrite <-Hd; unfold keep; by rewrite take_drop).
    rewrite Hsplit, map_app, map_cons in Hnd. apply NoDup_remove_2 in Hnd.
    rewrite list_elem_of_In. intros Hin. apply Hnd, in_app_iff. by left.
Qed.

Lemma publish_triple :
  let bad := old_or_new ws (cell_heads cell) published_index in
  triple (λ d, backed ws cell es d ∧ visible d !! tmp = Some (File wb true) ∧
               to_vec (ph_manifest pending) = Some mb)
    (publish_trained_head ws cell pending)
    (λ r d, r = (mkHeadRotationResult displaced, published_cell) ∧
            workspace_ok ws published_cell keep d) bad bad.
Proof.
  intros bad.
  set (P := λ d, backed ws cell es d).
  assert (HPbad : ∀ d, P d → bad d).
  { intros d Hd. split; [by eapply ba_moves|]. intros img Hi. left. eapply backed_consistent; [exact Hd|apply (eo_entries _ _ Hok)|..|done].
    - by rewrite (eo_heads _ _ Hok).
    - rewrite <-(eo_heads _ _ Hok), length_map. apply (eo_len _ _ Hok). }
  set (PV := λ d, P d ∧ visible d !! tmp = Some (File wb true)).
  eapply triple_conseq with (P' := λ d, to_vec (ph_manifest pending) = Some mb ∧ PV d);
    [|by intros d (H1 & H2 & H3)|intros ? d H; exact H|intros d H; exact H|intros d H; exact H].
  apply triple_pure. intros Hmb.
  pose proof (publish_entries (from_to _ _ Hmb)) as (Hnd & Hent & Hfst & Hkeep & Hdis).
  unfold publish_trained_head. rewrite bool_decide_eq_true_2 by done. cbn [negb].
  eapply triple_bind with (R := λ _, PV); [intros w Hw; exact Hw|]. intros b.
  destruct b; cbn [negb]; [|apply triple_throw; intros d [H _]; by apply HPbad].
  eapply triple_bind with (R := λ _, PV).
  { apply triple_map_throw. eapply triple_conseq; [apply (mkdir_prefixes_noop PV [] (heads_dir ws))|..].
    - intros d q [H _] Hq Hpre. by eapply dirs_visible.
    - done.
    - done.
    - intros d [H _]. by apply HPbad.
    - intros d [H _]. by apply HPbad. }
  intros ?. unfold serialize. rewrite Hmb.
  eapply triple_bind with (R := λ b d, b = mb ∧ PV d); [by apply triple_ret|].
  intros b. apply triple_pure. intros ->.
  eapply triple_conseq with (X' := bad) (C' := bad);
    [eapply triple_seq, triple_seq, triple_bind with (R := λ _ d, P d ∧
       definite d json (Some (File mb true)) ∧ definite d mpk (Some (File wb true)))
    |intros d H; exact H|intros r d H; exact H|done|done].
  { apply triple_seq_inv. eapply triple_conseq; [apply publish_files_triple|..]; auto. }
  intros ?. rewrite next_records_spec. cbv beta iota. fold displaced. fold published_index.
  eapply triple_bind.
  { eapply triple_conseq; [apply (commit_index_ok ws cell all published_index Hent)|..].
    - rewrite Hfst. set_solver.
    - rewrite <-(eo_heads _ _ Hok), length_map. apply (eo_len _ _ Hok).
    - rewrite Hfst. intros r Hr. eapply elem_of_take in Hr as (i & Hi & _). by eapply list_elem_of_lookup_2.
    - intros d (HP & Hj & Hm). destruct HP. split; [done| |done|done].
      apply facts_app in ba_facts0 as [H1 H2]. apply facts_app. split; [done|].
      cbn [file_facts flat_map all]. apply facts_app. split; [|done].
      unfold head_files, new_entry, entry_id. cbn [fst snd new_record hr_head_id]. rewrite Hman.
      constructor; [exact Hj|]. constructor; [exact Hm|constructor].
    - intros ? d H. exact H.
    - done.
    - done. }
  intros cell'. cbv beta. apply triple_pure. intros [_ ->]. fold published_cell.
  assert (Hwk : ∀ d, backed ws published_cell keep d → bad d).
  { intros d Hd. split; [by eapply ba_moves|]. intros img Hi. right. eapply (backed_consistent ws published_cell); [exact Hd|apply Hkeep|..|done].
    - by rewrite <-(eo_heads _ _ Hkeep).
    - rewrite <-(eo_heads _ _ Hkeep), length_map. apply (eo_len _ _ Hkeep). }
  eapply triple_bind with (R := λ _, backed ws published_cell keep).
  { eapply triple_conseq with (P' := backed ws published_cell keep) (X' := backed ws published_cell keep)
      (C' := backed ws published_cell keep) (Q' := λ _, backed ws published_cell keep).
    - destruct displaced as [old|]; [|by apply triple_ret].
      apply remove_head_files_ok; [apply Hkeep|done].
    - intros d. apply backed_subset. intros e He.
      eapply elem_of_take in He as (i & Hi & _). by eapply list_elem_of_lookup_2.
    - intros ? d H. exact H.
    - exact Hwk.
    - exact Hwk. }
  intros ?. apply triple_ret. intros d Hd. split; [done|]. by split.
Qed.
End Publish.

(** *** Deleting *)

Section Delete.
Variables (ws : path) (cell : WorkspaceCacheCell) (es : list entry) (wsname : string) (id : HeadId).
Hypothesis Hok : entries_ok cell es.

Definition deleted_index : HeadIndex :=
  mkHeadIndex (List.filter (λ r, negb (bool_decide (hr_head_id r = id))) (heads (cell_heads cell))).
Definition deleted_cell : WorkspaceCacheCell :=
  mkCell (set_head_count (List.length (heads deleted_index)) (cell_core cell)) deleted_index.

Let keep := List.filter (λ e : entry, negb (bool_decide (entry_id e = id))) es.

Lemma delete_keep_fst : map fst keep = heads deleted_index.
Proof.
  unfold deleted_index, keep. cbn [heads]. rewrite <-(eo_heads _ _ Hok).
  exact (map_filter_comp fst (λ r : HeadRecord, negb (bool_decide (hr_head_id r = id))) es).
Qed.

Lemma delete_keep_in e : e ∈ keep → e ∈ es ∧ entry_id e ≠ id.
Proof.
  rewrite !list_elem_of_In. intros [He Hf]%filter_In. split; [done|].
  by apply negb_true_iff, bool_decide_eq_false in Hf.
Qed.

Lemma delete_entries : entries_ok deleted_cell keep ∧ id ∉ map entry_id keep.
Proof.
  split; [split|].
  - apply NoDup_map_filter, (eo_ids _ _ Hok).
  - intros e He%delete_keep_in. by apply (eo_entries _ _ Hok), He.
  - apply delete_keep_fst.
  - unfold keep. etransitivity; [apply filter_length_le|apply (eo_len _ _ Hok)].
  - rewrite list_elem_of_In. intros (e & He & Hin)%in_map_iff.
    apply list_elem_of_In, delete_keep_in in Hin as [_ Hin]. done.
Qed.

Lemma delete_triple :
  let bad := old_or_new ws (cell_heads cell) deleted_index in
  triple (backed ws cell es) (delete_head_locked ws wsname id cell)
    (λ r d, r = (tt, deleted_cell) ∧ workspace_ok ws deleted_cell keep d) bad bad.
Proof.
  intros bad. pose proof delete_entries as [Hkeep Hid].
  assert (Hlen : List.length (heads (cell_heads cell)) ≤ MAX_HEADS_PER_WORKSPACE)
    by (rewrite <-(eo_heads _ _ Hok), length_map; apply (eo_len _ _ Hok)).
  unfold delete_head_locked. destruct (existsb _ _) eqn:Hex; cbn [negb].
  2:{ apply triple_throw. intros d Hd. split; [by eapply ba_moves|]. intros img Hi. left. eapply backed_consistent; [exact Hd|apply Hok|..|done].
      - by rewrite (eo_heads _ _ Hok).
      - done. }
  fold deleted_index. eapply triple_bind.
  { eapply triple_conseq; [apply (commit_index_ok ws cell es deleted_index (eo_entries _ _ Hok))|..].
    - by rewrite (eo_heads _ _ Hok).
    - done.
    - rewrite <-delete_keep_fst. intros r (e & -> & He%delete_keep_in)%list_elem_of_fmap.
      apply list_elem_of_fmap. exists e. split; [done|apply He].
    - intros d H. exact H.
    - intros ? d H. exact H.
    - done.
    - done. }
  intros cell'. cbv beta. apply triple_pure. intros [_ ->]. fold deleted_cell.
  assert (Hwk : ∀ d, backed ws deleted_cell keep d → bad d).
  { intros d Hd. split; [by eapply ba_moves|]. intros img Hi. right. eapply (backed_consistent ws deleted_cell); [exact Hd|apply Hkeep|..|done].
    - by rewrite <-(eo_heads _ _ Hkeep).
    - rewrite <-(eo_heads _ _ Hkeep), length_map. apply (eo_len _ _ Hkeep). }
  eapply triple_bind with (R := λ _, backed ws deleted_cell keep).
  { eapply triple_conseq; [apply (remove_head_files_ok ws deleted_cell keep id)|..].
    - apply Hkeep.
    - done.
    - intros d. apply backed_subset. intros e He%delete_keep_in. apply He.
    - intros ? d H. exact H.
    - exact Hwk.
    - exact Hwk. }
  intros ?. apply triple_ret. intros d Hd. split; [done|]. by split.
Qed.
End Delete.
End SchemaTriples.

Section DeleteFacts.
Context `{UL : UuidLaws} `{TL : TempLaws}.
Context `{JC : !Json WorkspaceCore} `{JH : !Json HeadIndex} `{JM : !Json HeadManifest}.

Lemma delete_head_missing dir wsname cell id w :
  id ∉ map hr_head_id (heads (cell_heads cell)) →
  delete_head_locked dir wsname id cell w =
    (w, Throw (FE_AssetNotFound wsname (HeadId_display id ++ ".mpk")%string)).
Proof.
  intros Hni. unfold delete_head_locked. destruct (existsb _ _) eqn:Hex; [|done].
  apply existsb_exists in Hex as (r & Hr & Heq%bool_decide_eq_true). destruct Hni.
  apply list_elem_of_fmap. exists r. split; [done|]. by apply list_elem_of_In.
Qed.

Lemma deleted_index_without cell id : id ∉ map hr_head_id (heads (deleted_index cell id)).
Proof.
  cbn. intros (r & -> & Hin)%list_elem_of_fmap.
  apply list_elem_of_In, filter_In in Hin as [_ Hin].
  by apply negb_true_iff, bool_decide_eq_false in Hin.
Qed.

(** A durable workspace leaves consistent images. *)
Lemma backed_old dir cell es d img :
  entries_ok cell es → backed dir cell es d → crash_image d img →
  heads_consistent dir (cell_heads cell) img.
Proof.
  intros Hok Hb Hi. eapply backed_consistent; [exact Hb|apply Hok|..|done].
  - by rewrite <-(eo_heads _ _ Hok).
  - rewrite <-(eo_heads _ _ Hok), length_map. apply (eo_len _ _ Hok).
Qed.
End DeleteFacts.

(** ** Properties *)


(** Deleting a head is crash-safe.  With the workspace cached and durable,
    wherever [delete_head] is cut, a crash leaves the old index or the index
    without that head, every named head with its files; a head that is not in
    the index is refused without touching the disk; on success cache and disk
    agree on the filtered index, its derived [head_count], and the other heads'
    files, and on an error the cached cell is unchanged. *)
Theorem delete_head_crash_safe `{UL : UuidLaws} `{TL : TempLaws} `{B : !Broadcast RegistryEvent}
    `{HJ : !HashIter JobId JobEntry} `{HL : !HashIter Z (list JobReference)}
    `{JC : Json WorkspaceCore} `{!JsonLaws WorkspaceCore} `{JH : Json HeadIndex} `{!JsonLaws HeadIndex}
    `{JM : Json HeadManifest} `{!JsonLaws HeadManifest}
    (root : path) (ws : WorkspaceId) (cell : WorkspaceCacheCell) (es : list entry) (id : HeadId)
    (mgr : WorkspaceMgr) (w : World)
    (Hcell : mgr_caches mgr !! ws = Some cell)
    (Hok : workspace_ok (workspace_dir_for root ws) cell es (disk w)) :
  let dir := workspace_dir_for root ws in
  let '(w', r) := (delete_head root ws id mgr : M FileError _) w in
  (∀ img, crash_image (disk w') img →
     heads_consistent dir (cell_heads cell) img ∨ heads_consistent dir (deleted_index cell id) img) ∧
  (id ∉ map hr_head_id (heads (cell_heads cell)) → w' = w ∧ ∃ mgr' e, r = Ret (mgr', Err e)) ∧
  match r with
  | Ret (mgr', Ok _) =>
      mgr_caches mgr' !! ws = Some (deleted_cell cell id) ∧
      (id ∉ map hr_head_id (heads (deleted_index cell id))) ∧
      ∃ es', workspace_ok dir (deleted_cell cell id) es' (disk w')
  | Ret (mgr', Err _) => mgr_caches mgr' !! ws = Some cell
  | _ => True
  end.
Proof.
  intros dir. destruct Hok as [Hok Hb]. fold dir in Hb.
  pose proof (delete_triple dir cell es (WorkspaceId_display ws) id Hok w Hb) as H. cbv zeta in H.
  pose proof (delete_head_missing dir (WorkspaceId_display ws) cell id w) as Hmiss.
  assert (Hold : old_or_new dir (cell_heads cell) (deleted_index cell id) (disk w)).
  { split; [by eapply ba_moves|]. intros img Hi. left. by apply (backed_old dir cell es (disk w)). }
  unfold delete_head, path_exists. unfold mbind at 1, M_bind at 1. cbv beta iota.
  pose proof (proj2 Hold) as Hold'. destruct (negb _); [split_and!; eauto|].
  destruct (try_acquire_lease _ _) as [reg [lease|c]]; [|split_and!; eauto].
  unfold mbind, M_bind. rewrite (with_cell_cached _ _ _ _ _ _ Hcell). fold dir.
  change (workspace_dir root ws) with dir.
  destruct (delete_head_locked dir (WorkspaceId_display ws) id cell w) as [w' [[[] c']|e|]].
  - destruct H as [[= ->] Hk]. split_and!.
    + intros img Hi. right. destruct Hk as [He Hk].
      by eapply (backed_old dir (deleted_cell cell id) _ (disk w')).
    + intros Hni. by specialize (Hmiss Hni).
    + apply lookup_insert_eq.
    + by apply deleted_index_without.
    + eauto.
  - split_and!; [apply H| |apply lookup_insert_eq]. intros Hni.
    specialize (Hmiss Hni). injection Hmiss as -> ->. eauto.
  - split_and!; [apply H| |done]. intros Hni. by specialize (Hmiss Hni).
Qed.

(** A workspace with two heads, a third one staged. *)
Section Scenario.
#[local] Instance sc_uuid : UuidLib := text_uuid_lib.
#[local] Instance sc_temp : TempLib := long_temp_lib.
#[local] Instance hr_bus : Broadcast RegistryEvent := ring_broadcast RegistryEvent.
#[local] Instance sc_core_json : Json WorkspaceCore := bits_json WorkspaceCore.
#[local] Instance sc_index_json : Json HeadIndex := bits_json HeadIndex.
#[local] Instance sc_manifest_json : Json HeadManifest := bits_json HeadManifest.

Definition hr_ws : WorkspaceId := mkWorkspaceId ("w" : Uuid).
Definition sc_ws : path := workspace_dir_for [] hr_ws.
Definition sc_id (c : ascii) : HeadId :=
  mkHeadId (String c "0000000-0000-4000-8000-000000000000" : Uuid).
Definition sc_rev : WorkspaceRevision := mkWorkspaceRevision 3 "t".
Definition sc_manifest (c : ascii) : HeadManifest :=
  mkHeadManifest (sc_id c) (mkWorkspaceId ("w" : Uuid)) sc_rev "s" 1 10 "t" ["yes"%string].
Definition sc_core : WorkspaceCore :=
  mkWorkspaceCore (mkWorkspaceId ("w" : Uuid)) "n" [] "t" sc_rev 2.
Definition sc_index : HeadIndex := mkHeadIndex (map (λ c, new_record (sc_manifest c)) ["b"; "a"]%char).
Definition sc_cell : WorkspaceCacheCell := mkCell sc_core sc_index.
Definition sc_bytes {A} `{Countable A} (a : A) : list ascii := bits (encode a).
Definition sc_entry (c : ascii) : entry :=
  (new_record (sc_manifest c), (sc_bytes (sc_manifest c), bytes_of "weights")).
Definition sc_entries : list entry := map sc_entry ["b"; "a"]%char.
Definition sc_staged : path := sc_ws ++ [".tmp"; "x"]%string.

Definition sc_tree : fs := list_to_map (
  map (λ x, (fst x, match snd x with [Some n] => n | _ => Dir end))
    (dir_facts sc_ws ++ file_facts sc_ws sc_entries) ++
  [ ([], Dir); (sc_ws ++ [".tmp"%string], Dir); (sc_staged, File (bytes_of "weights") true);
    (head_index_path sc_ws, File (sc_bytes sc_index) true);
    (workspace_core_path sc_ws, File (sc_bytes sc_core) true)]).
Definition sc_world : World := mkWorld (mkDisk sc_tree []) None [].
Definition sc_pending : PendingHead := mkPendingHead (sc_id "c") sc_staged (sc_manifest "c").

Lemma sc_canonical c : c ∈ ["a"; "b"; "c"]%char → canonical_id (sc_id c).
Proof.
  intros Hc. apply validate_uuid_v4_str_spec.
  repeat (apply elem_of_cons in Hc as [->|Hc]; [vm_compute; reflexivity|]). by apply elem_of_nil in Hc.
Qed.

Lemma sc_id_inj c c' : sc_id c = sc_id c' → c = c'.
Proof. intros [= ->]. done. Qed.

Lemma sc_ids_nodup l : List.NoDup l → List.NoDup (map entry_id (map sc_entry l)).
Proof.
  intros H. rewrite map_map. apply Finite.Injective_map_NoDup; [|done].
  intros c c' E. by apply sc_id_inj.
Qed.

Lemma sc_ok : workspace_ok sc_ws sc_cell sc_entries (disk sc_world).
Proof.
  split; split.
  - exact (sc_ids_nodup ["b"; "a"]%char ltac:(repeat constructor; set_solver)).
  - intros e (c & -> & Hc)%list_elem_of_fmap. split; [apply sc_canonical; set_solver|].
    exists (sc_manifest c). split; [|done]. by apply (@from_to _ _ (bits_json_laws HeadManifest)).
  - done.
  - done.
  - constructor.
  - apply facts_quiet. vm_compute. reflexivity.
  - exists (sc_bytes sc_index). split; [by apply (@from_to _ _ (bits_json_laws HeadIndex))|].
    apply definite_quiet. vm_compute. reflexivity.
  - exists (sc_bytes sc_core). split; [by apply (@from_to _ _ (bits_json_laws WorkspaceCore))|].
    apply definite_quiet. vm_compute. reflexivity.
Qed.

Lemma sc_fresh : sc_id "c" ∉ map entry_id sc_entries.
Proof.
  intros (e & E & (c & -> & Hc)%list_elem_of_fmap)%list_elem_of_fmap.
  apply sc_id_inj in E. subst. set_solver.
Qed.

Lemma sc_canonical_c : canonical_id (ph_head_id sc_pending).
Proof. exact (sc_canonical "c"%char ltac:(set_solver)). Qed.

Lemma sc_staged_visible : visible (disk sc_world) !! ph_mpk_tempfile sc_pending = Some (File (bytes_of "weights") true).
Proof. vm_compute. reflexivity. Qed.


Definition hr_mgr : WorkspaceMgr := mkWorkspaceMgr JobRegistry_new {[ hr_ws := sc_cell ]}.

Lemma delete_head_crash_safe_witness :
  let '(w', r) := (delete_head [] hr_ws (sc_id "a") hr_mgr : M FileError _) sc_world in
  (∀ img, crash_image (disk w') img →
     heads_consistent sc_ws sc_index img ∨
     heads_consistent sc_ws (mkHeadIndex (map (λ c, new_record (sc_manifest c)) ["b"]%char)) img) ∧
  ∃ mgr', r = Ret (mgr', Ok tt).
Proof.
  pose proof (delete_head_crash_safe (UL := text_uuid_laws) (TL := long_temp_laws)
    (JsonLaws0 := bits_json_laws WorkspaceCore) (JsonLaws1 := bits_json_laws HeadIndex)
    (JsonLaws2 := bits_json_laws HeadManifest)
    [] hr_ws sc_cell sc_entries (sc_id "a") hr_mgr sc_world (lookup_singleton_eq _ _) sc_ok) as H.
  cbv zeta in H.
  assert (Hr : match snd ((delete_head [] hr_ws (sc_id "a") hr_mgr : M FileError _) sc_world) with
               | Ret (_, Ok _) => true | _ => false end = true) by (vm_compute; reflexivity).
  destruct (delete_head _ _ _ _ _) as [w' [[mgr' [[]|e]]|e|]]; try discriminate Hr.
  destruct H as [H1 _]. split; [exact H1|]. by exists mgr'.
Defined.
End Scenario.
