(* ===== verification/Staging.v ===== *)
(** * Staged deletes ([src/modules/file_mgr/staging.rs])

    The delete state machine: tombstone, staging rename, budgeted drain,
    finalize; and the off-mutex driver of [dataset.rs] that loops the drain.
    Atomicity of the staging rename under power loss; convergence of the tail
    (drain, finalize) when it is killed or fails anywhere and is run again. *)

From S2P Require Import Prelude Ids AssetPath Common Workspace FileSystem FsLogic FsAtomic Schema.

Definition DEFAULT_DELETE_BATCH_ENTRIES : nat := 256.
Definition DATASET_TOMBSTONE_PREFIX : string := "delete-assets-".
Definition CONVERTER_TOMBSTONE_PREFIX : string := "delete-converters-".
Definition TRAINING_LOGS_TOMBSTONE_PREFIX : string := "delete-training-logs-".
Definition CONVERTER_LOGS_TOMBSTONE_PREFIX : string := "delete-converter-logs-".
Definition WORKSPACE_TOMBSTONE_PREFIX : string := "delete-workspace-".
Definition STAGED_PAYLOAD_NAME : string := "payload".

Section Tombstone.
Context `{U : UuidLib}.

Inductive DeleteTombstone : Type :=
  | TombDataset (job_id : JobId) (workspace_id : WorkspaceId) (path : option AssetPath)
      (workspace_revision_id : Z) (created_at : string)
  | TombConverter (job_id : JobId) (workspace_id : WorkspaceId) (path : option AssetPath)
      (workspace_revision_id : Z) (created_at : string)
  | TombTrainingLogs (job_id : JobId) (workspace_id : WorkspaceId) (path : option AssetPath)
      (created_at : string)
  | TombConverterLogs (job_id : JobId) (workspace_id : WorkspaceId) (path : option AssetPath)
      (created_at : string)
  | TombWorkspace (job_id : JobId) (workspace_id : WorkspaceId) (created_at : string).

Definition tombstone_job_id (t : DeleteTombstone) : JobId :=
  match t with
  | TombDataset j _ _ _ _ | TombConverter j _ _ _ _ | TombTrainingLogs j _ _ _
  | TombConverterLogs j _ _ _ | TombWorkspace j _ _ => j
  end.

Definition tombstone_workspace_id (t : DeleteTombstone) : WorkspaceId :=
  match t with
  | TombDataset _ w _ _ _ | TombConverter _ w _ _ _ | TombTrainingLogs _ w _ _
  | TombConverterLogs _ w _ _ | TombWorkspace _ w _ => w
  end.

Definition prefix (t : DeleteTombstone) : string :=
  match t with
  | TombDataset _ _ _ _ _ => DATASET_TOMBSTONE_PREFIX
  | TombConverter _ _ _ _ _ => CONVERTER_TOMBSTONE_PREFIX
  | TombTrainingLogs _ _ _ _ => TRAINING_LOGS_TOMBSTONE_PREFIX
  | TombConverterLogs _ _ _ _ => CONVERTER_LOGS_TOMBSTONE_PREFIX
  | TombWorkspace _ _ _ => WORKSPACE_TOMBSTONE_PREFIX
  end.

Definition filename (t : DeleteTombstone) : string :=
  (prefix t ++ JobId_display (tombstone_job_id t) ++ ".json")%string.
Definition stage_dir_name (t : DeleteTombstone) : string :=
  (prefix t ++ JobId_display (tombstone_job_id t))%string.

Record StagedDelete := mkStagedDelete { tombstone : path; stage_dir : path; payload : path }.

Definition for_tombstone (staging_dir : path) (t : DeleteTombstone) : StagedDelete :=
  let sd := staging_dir ++ [stage_dir_name t] in
  mkStagedDelete (staging_dir ++ [filename t]) sd (sd ++ [STAGED_PAYLOAD_NAME]).

(** ** Steps 1 and 3 *)

Definition write_tombstone `{T : TempLib} `{J : Json DeleteTombstone} (staging_dir : path)
    (t : DeleteTombstone) : M FileError StagedDelete :=
  _ ← map_throw (io_err staging_dir) (create_dir_all staging_dir);
  let staged := for_tombstone staging_dir t in
  bytes ← serialize t;
  _ ← put_atomic (tombstone staged) bytes;
  mret staged.

Definition stage_payload (target : path) (staged : StagedDelete) : M FileError unit :=
  if decide (target = []) then throw (io_err target IoOther)
  else
  let old_parent := parent target in
  _ ← map_throw (io_err (stage_dir staged)) (create_dir_all (stage_dir staged));
  _ ← (if decide (stage_dir staged = []) then mret tt
       else map_throw (io_err (parent (stage_dir staged))) (fsync_dir (parent (stage_dir staged))));
  _ ← map_throw (io_err target) (fs_rename target (payload staged));
  _ ← map_throw (io_err old_parent) (fsync_dir old_parent);
  map_throw (io_err (stage_dir staged)) (fsync_dir (stage_dir staged)).

(** ** Step 5 *)

Inductive DrainResult : Type := Done | More.

#[export] Instance DrainResult_eq_dec : EqDecision DrainResult.
Proof. solve_decision. Defined.

(** [match m { Ok(a) => .., Err(e) if e.kind() == NotFound => .., Err(e) => return Err(e) }]. *)
Definition if_found {A} (m : M IoKind A) : M IoKind (option A) := λ w,
  match m w with
  | (w, Ret a) => (w, Ret (Some a))
  | (w, Throw IoNotFound) => (w, Ret None)
  | (w, Throw e) => (w, Throw e)
  | (w, Crash) => (w, Crash)
  end.

(** The loop of [drain_dir] over the entries read from [dir]; [recurse] is
    [drain_dir] itself. *)
Fixpoint drain_entries (recurse : path → nat → M FileError (DrainResult * nat)) (dir : path)
    (budget : nat) (entries : list string) (removed : nat) : M FileError (DrainResult * nat) :=
  match entries with
  | [] => mret (Done, removed)
  | name :: entries =>
      if budget <=? removed then mret (More, removed)
      else
      let path := dir ++ [name] in
      ft ← map_throw (io_err path) (symlink_metadata path);
      match ft with
      | Dir =>
          r ← recurse path removed;
          let '(res, removed) := r in
          match res with
          | More => mret (More, removed)
          | Done =>
              if budget <=? removed then mret (More, removed)
              else
              _ ← map_throw (io_err path) (fs_remove_dir path);
              drain_entries recurse dir budget entries (S removed)
          end
      | _ =>
          _ ← map_throw (io_err path) (fs_remove_file path);
          drain_entries recurse dir budget entries (S removed)
      end
  end.

(** [fuel] bounds the recursion by the height of the tree. *)
Fixpoint drain_dir (fuel : nat) (budget : nat) (dir : path) (removed : nat)
    : M FileError (DrainResult * nat) :=
  match fuel with
  | 0 => throw (io_err dir IoOther)
  | S fuel =>
      entries ← map_throw (io_err dir) (fs_read_dir dir);
      drain_entries (drain_dir fuel budget) dir budget entries removed
  end.

Definition drain_staged_payload (staged : StagedDelete) (budget : nat) : M FileError DrainResult :=
  md ← map_throw (io_err (payload staged)) (if_found (symlink_metadata (payload staged)));
  match md with
  | None => mret Done
  | Some Dir =>
      λ w, (r ← drain_dir (height (visible (disk w))) budget (payload staged) 0; mret (fst r)) w
  | Some _ =>
      _ ← map_throw (io_err (payload staged)) (fs_remove_file (payload staged));
      mret Done
  end.

(** ** Step 6 *)

Definition finalize_staged_delete (staged : StagedDelete) : M FileError unit :=
  md ← map_throw (io_err (payload staged)) (if_found (symlink_metadata (payload staged)));
  _ ← match md with
      | Some Dir => map_throw (io_err (payload staged)) (fs_remove_dir (payload staged))
      | Some _ => map_throw (io_err (payload staged)) (fs_remove_file (payload staged))
      | None => mret tt
      end;
  _ ← map_throw (io_err (stage_dir staged)) (if_found (fs_remove_dir (stage_dir staged)));
  _ ← map_throw (io_err (tombstone staged)) (if_found (fs_remove_file (tombstone staged)));
  if decide (tombstone staged = []) then mret tt
  else
  let staging_dir := parent (tombstone staged) in
  there ← path_exists staging_dir;
  if there : bool then map_throw (io_err staging_dir) (fsync_dir staging_dir) else mret tt.

Definition read_tombstone `{J : Json DeleteTombstone} (p : path) : M FileError DeleteTombstone :=
  bytes ← read_file p;
  parse p bytes.

(** ** The driver ([drain_to_completion] of [dataset.rs]) *)

(** How the owning delete job ends. *)
Inductive DeleteOutcome : Type :=
  | Deleted
  | DrainFailed (e : FileError)
  | FinalizeFailed (e : FileError).

(** At most [iters] drains; whether the payload is drained. *)
Fixpoint drain_loop (staged : StagedDelete) (iters : nat) : M FileError bool :=
  match iters with
  | 0 => mret false
  | S iters =>
      r ← drain_staged_payload staged DEFAULT_DELETE_BATCH_ENTRIES;
      match r with
      | Done => mret true
      | More => drain_loop staged iters
      end
  end.

(** With [max_iters] the loop breaks out at the cap and finalizes all the same;
    without it the loop goes on, [None] when [fuel] drains were not enough. *)
Definition drain_to_completion (staged : StagedDelete) (max_iters : option nat) (fuel : nat)
    : M FileError (option DeleteOutcome) :=
  r ← attempt (drain_loop staged (default fuel max_iters));
  match r with
  | Err e => mret (Some (DrainFailed e))
  | Ok drained =>
      if negb drained && bool_decide (max_iters = None) then mret None
      else
      f ← attempt (finalize_staged_delete staged);
      match f with
      | Err e => mret (Some (FinalizeFailed e))
      | Ok _ => mret (Some Deleted)
      end
  end.

End Tombstone.

(** ** A concrete serializer's codes *)

#[export] Instance AssetPath_countable : Countable AssetPath.
Proof. apply (inj_countable' asset_path_str mkAssetPath). by intros []. Defined.

Section TombstoneCode.
Context `{U : UuidLib}.

#[export] Instance DeleteTombstone_eq_dec : EqDecision DeleteTombstone.
Proof. solve_decision. Defined.

Let code (t : DeleteTombstone) : nat * (JobId * (WorkspaceId * (option AssetPath * (Z * string)))) :=
  match t with
  | TombDataset j w p r c => (0, (j, (w, (p, (r, c)))))
  | TombConverter j w p r c => (1, (j, (w, (p, (r, c)))))
  | TombTrainingLogs j w p c => (2, (j, (w, (p, (0%Z, c)))))
  | TombConverterLogs j w p c => (3, (j, (w, (p, (0%Z, c)))))
  | TombWorkspace j w c => (4, (j, (w, (None, (0%Z, c)))))
  end.
Let uncode (x : nat * (JobId * (WorkspaceId * (option AssetPath * (Z * string))))) : DeleteTombstone :=
  match x with
  | (0, (j, (w, (p, (r, c))))) => TombDataset j w p r c
  | (1, (j, (w, (p, (r, c))))) => TombConverter j w p r c
  | (2, (j, (w, (p, (_, c))))) => TombTrainingLogs j w p c
  | (3, (j, (w, (p, (_, c))))) => TombConverterLogs j w p c
  | (_, (j, (w, (_, (_, c))))) => TombWorkspace j w c
  end.

#[export] Instance DeleteTombstone_countable : Countable DeleteTombstone.
Proof. apply (inj_countable' code uncode). by intros []. Defined.
End TombstoneCode.
