(* ===== verification/StagingFacts.v ===== *)
(** * The staged delete converges

    Total triples for programs that an undisturbed world always completes; the
    budgeted drain against the number of entries left; retrying the tail of a
    delete after any kill or I/O error; atomicity of the staging rename. *)

From S2P Require Import Prelude Ids AssetPath Common Workspace FileSystem FsLogic FsAtomic Schema Staging.

(** ** Total triples *)

(** No power loss and no fault to come. *)
Definition quiet (w : World) : Prop := budget w = None ∧ faults w = [].

(** From [P], an undisturbed run returns in [Q]; a disturbed one returns in [Q]
    or stops in [X]. *)
Definition sure {E A} (P : Disk → Prop) (m : M E A) (Q : A → Disk → Prop) (X : Disk → Prop) : Prop :=
  ∀ w, P (disk w) →
    match m w with
    | (w', Ret a) => Q a (disk w') ∧ (quiet w → quiet w')
    | (w', _) => X (disk w') ∧ ¬ quiet w
    end.

Lemma sure_ret {E A} P (a : A) (Q : A → Disk → Prop) X :
  (∀ d, P d → Q a d) → sure P (mret a : M E A) Q X.
Proof. intros H w Hw. split; [by apply H|done]. Qed.

Lemma sure_bind {E A B} P (m : M E A) (f : A → M E B) R Q X :
  sure P m R X → (∀ a, sure (R a) (f a) Q X) → sure P (m ≫= f) Q X.
Proof.
  intros Hm Hf w Hw. specialize (Hm w Hw). unfold mbind, M_bind.
  destruct (m w) as [w' [a|e|]]; [|done..]. destruct Hm as [HR Hq]. specialize (Hf a w' HR).
  destruct (f a w') as [w'' [b|e|]]; destruct Hf; split; tauto.
Qed.

Lemma sure_conseq {E A} P P' (m : M E A) (Q Q' : A → Disk → Prop) (X X' : Disk → Prop) :
  sure P' m Q' X' → (∀ d, P d → P' d) → (∀ a d, Q' a d → Q a d) → (∀ d, X' d → X d) → sure P m Q X.
Proof.
  intros H HP HQ HX w Hw. specialize (H w (HP _ Hw)).
  destruct (m w) as [w' [a|e|]]; destruct H; split; auto.
Qed.

Lemma sure_extract {E A} (φ : Prop) (P P' : Disk → Prop) (m : M E A) Q X :
  (∀ d, P d → φ ∧ P' d) → (φ → sure P' m Q X) → sure P m Q X.
Proof. intros HP H w Hw. destruct (HP _ Hw) as [Hφ Hw']. by apply H. Qed.

Lemma sure_ex {E A B} (P' : B → Disk → Prop) (P : Disk → Prop) (m : M E A) Q X :
  (∀ d, P d → ∃ x, P' x d) → (∀ x, sure (P' x) m Q X) → sure P m Q X.
Proof. intros HP H w Hw. destruct (HP _ Hw) as [x Hx]. by apply (H x). Qed.

Lemma sure_map_throw {E F A} P (f : E → F) (m : M E A) Q X :
  sure P m Q X → sure P (map_throw f m) Q X.
Proof.
  intros H w Hw. specialize (H w Hw). unfold map_throw. by destruct (m w) as [w' [a|e|]].
Qed.

(** A caught error leaves [X]; an undisturbed run never catches one. *)
Lemma sure_attempt {E F A} P (m : M E A) (Q : A → Disk → Prop) X :
  sure P m Q X →
  ∀ w, P (disk w) →
    match (attempt m : M F _) w with
    | (w', Ret (Ok a)) => Q a (disk w') ∧ (quiet w → quiet w')
    | (w', _) => X (disk w') ∧ ¬ quiet w
    end.
Proof.
  intros H w Hw. specialize (H w Hw). unfold attempt. by destruct (m w) as [w' [a|e|]].
Qed.

Lemma sure_syscall {A} P (f : Disk → Disk * result IoKind A) (Q : A → Disk → Prop) (X : Disk → Prop) :
  (∀ d, P d → X d) →
  (∀ d, P d → match f d with (d', Ok a) => Q a d' | (_, Err _) => False end) →
  sure P (syscall f) Q X.
Proof.
  intros HX HQ w Hw. unfold syscall. specialize (HQ _ Hw).
  destruct (budget w) as [[|n]|] eqn:Hb;
    [split; [by apply HX|intros [? ?]; congruence]|..];
    (destruct (faults w) as [|[] fl] eqn:Hf;
      [|split; [by apply HX|intros [? ?]; congruence]|]);
    destruct (f (disk w)) as [d' [a|e]]; try done; (split; [done|intros [? ?]; try congruence; by split]).
Qed.

(** [if_found] turns the one error [NotFound] into [None]. *)
Lemma sure_if_found {A} P (f : Disk → Disk * result IoKind A) (Q : option A → Disk → Prop) (X : Disk → Prop) :
  (∀ d, P d → X d) →
  (∀ d, P d → match f d with
              | (d', Ok a) => Q (Some a) d'
              | (d', Err IoNotFound) => Q None d'
              | _ => False
              end) →
  sure P (if_found (syscall f)) Q X.
Proof.
  intros HX HQ w Hw. unfold if_found, syscall. specialize (HQ _ Hw).
  destruct (budget w) as [[|n]|] eqn:Hb;
    [split; [by apply HX|intros [? ?]; congruence]|..];
    (destruct (faults w) as [|[] fl] eqn:Hf;
      [|split; [by apply HX|intros [? ?]; congruence]|]);
    destruct (f (disk w)) as [d' [a|[]]]; try done; (split; [done|intros [? ?]; try congruence; by split]).
Qed.

(** ** Trees *)

Definition strictly_below (p q : path) : bool := below p q && negb (bool_decide (q = p)).

(** Every entry sits in a directory. *)
Definition wf_tree (m : fs) : Prop :=
  ∀ q, is_Some (m !! q) → q ≠ [] → m !! parent q = Some Dir.

(** The number of entries below a directory. *)
Definition entries_below (p : path) (m : fs) : nat :=
  size (filter (λ x, strictly_below p (fst x) = true) m).

(** [m'] is [m] with entries below [p] removed, still a tree. *)
Record pruned (p : path) (m m' : fs) : Prop := {
  pr_sub : m' ⊆ m;
  pr_same : ∀ q, strictly_below p q = false → m' !! q = m !! q;
  pr_wf : wf_tree m';
}.

Lemma pruned_fs_refl p m : wf_tree m → pruned p m m.
Proof. intros H. by split. Qed.

Lemma pruned_fs_trans p m m' m'' : pruned p m m' → pruned p m' m'' → pruned p m m''.
Proof.
  intros [] []. split; [by etransitivity| |done]. intros q Hq. by rewrite pr_same1, pr_same0.
Qed.

Lemma strictly_below_spec p q : strictly_below p q = true ↔ ∃ k, k ≠ [] ∧ q = p ++ k.
Proof.
  unfold strictly_below. rewrite andb_true_iff, below_true, negb_true_iff, bool_decide_eq_false. split.
  - intros [[k ->] Hne]. exists k. split; [|done]. intros ->. by rewrite app_nil_r in Hne.
  - intros (k & Hk & ->). split; [by exists k|]. intros E.
    apply Hk. apply (f_equal (@List.length _)) in E. rewrite length_app in E.
    destruct k; [done|cbn in E; lia].
Qed.

Lemma strictly_below_irrefl p : strictly_below p p = false.
Proof. unfold strictly_below. rewrite bool_decide_eq_true_2 by done. apply andb_false_r. Qed.

Lemma pruned_lift p name m m' : pruned (p ++ [name]) m m' → pruned p m m'.
Proof.
  intros []. split; [done| |done]. intros q Hq. apply pr_same0. apply not_true_iff_false.
  intros (k & Hk & ->)%strictly_below_spec. apply not_true_iff_false in Hq. apply Hq.
  apply strictly_below_spec. exists (name :: k). by rewrite <-app_assoc.
Qed.

(** Removing below [p] lowers the count by what the tree lost. *)
Lemma pruned_count p m m' : pruned p m m' → size m + entries_below p m' = size m' + entries_below p m.
Proof.
  intros []. unfold entries_below.
  assert (Hsplit : ∀ n : fs, size n = size (filter (λ x, strictly_below p (fst x) = true) n) +
     size (filter (λ x, ¬ strictly_below p (fst x) = true) n)).
  { intros n. rewrite <-map_size_disj_union by apply map_disjoint_filter_complement.
    by rewrite map_filter_union_complement. }
  rewrite (Hsplit m), (Hsplit m').
  assert (filter (λ x, ¬ strictly_below p (fst x) = true) m' =
          filter (λ x, ¬ strictly_below p (fst x) = true) m) as ->; [|lia].
  apply map_filter_strong_ext. intros q n. cbn. rewrite not_true_iff_false. split; intros [Hq Hn];
    (split; [done|]); [by rewrite <-pr_same0|by rewrite pr_same0].
Qed.

Lemma pruned_size p m m' : pruned p m m' → size m' ≤ size m.
Proof. intros []. by apply map_subseteq_size. Qed.

Lemma below_trans (m : fs) p k : wf_tree m → is_Some (m !! (p ++ k)) → k ≠ [] →
  m !! p = Some Dir ∧ ∃ name, is_Some (m !! (p ++ [name])).
Proof.
  intros Hwf. induction k as [|x k IH] using rev_ind; [done|]. intros Hs _. rewrite app_assoc in Hs.
  assert (Hp : m !! (p ++ k) = Some Dir).
  { rewrite <-(parent_app (p ++ k) x). apply Hwf; [done|]. intros E.
    apply (f_equal (@List.length _)) in E. rewrite !length_app in E. cbn in E. lia. }
  destruct k as [|y k].
  - rewrite app_nil_r in Hp, Hs. split; [done|]. by exists x.
  - apply IH; [by exists Dir|done].
Qed.

(** A directory without children has nothing below. *)
Lemma no_child_empty p m : wf_tree m → (∀ name, m !! (p ++ [name]) = None) → entries_below p m = 0.
Proof.
  intros Hwf Hno. unfold entries_below. apply map_size_empty_iff, map_empty. intros q.
  apply eq_None_not_Some. intros [n [Hn Hq]%map_lookup_filter_Some].
  cbn in Hq. apply strictly_below_spec in Hq as (k & Hk & ->).
  destruct (below_trans m p k Hwf (mk_is_Some _ _ Hn) Hk) as [_ [name [x Hx]]]. by rewrite Hno in Hx.
Qed.

Lemma entries_below_pos p name m : is_Some (m !! (p ++ [name])) → 0 < entries_below p m.
Proof.
  intros [n Hn]. unfold entries_below.
  assert (H : filter (λ x, strictly_below p (fst x) = true) m !! (p ++ [name]) = Some n).
  { apply map_lookup_filter_Some. split; [done|]. cbn. apply strictly_below_spec. by exists [name]. }
  pose proof (map_size_ne_0_lookup_2 _ _ (mk_is_Some _ _ H)). lia.
Qed.

Lemma children_spec p m name : name ∈ children p m ↔ is_Some (m !! (p ++ [name])).
Proof.
  unfold children. rewrite list_elem_of_omap. split.
  - intros ([q n] & Hq%elem_of_map_to_list & H). destruct (below p q) eqn:Hb; [|done].
    apply below_true in Hb as [k ->]. rewrite drop_app_length in H.
    destruct k as [|x []]; try done. injection H as ->. eauto.
  - intros [n Hn]. exists (p ++ [name], n). split; [by apply elem_of_map_to_list|].
    rewrite (proj2 (below_true p (p ++ [name])) (prefix_app_r _ _ _ (reflexivity _))).
    by rewrite drop_app_length.
Qed.

Lemma children_nodup p m : NoDup (children p m).
Proof.
  unfold children. pose proof (NoDup_fst_map_to_list m) as Hnd.
  induction (map_to_list m) as [|[q n] l IH]; [constructor|]. cbn [fmap list_fmap fst] in Hnd.
  apply NoDup_cons_1_1 in Hnd as Hni. apply NoDup_cons_1_2 in Hnd. cbn [omap list_omap].
  destruct (below p q) eqn:Hb; [|by apply IH].
  apply below_true in Hb as [k ->]. rewrite drop_app_length.
  destruct k as [|x [|]]; try by apply IH. apply NoDup_cons_2; [|by apply IH].
  intros ([r n'] & Hr & H)%list_elem_of_omap.
  destruct (below p r) eqn:Hb'; [|done]. apply below_true in Hb' as [k' ->].
  rewrite drop_app_length in H. destruct k' as [|y []]; try done. injection H as ->.
  apply Hni. apply list_elem_of_fmap. by exists (p ++ [x], n').
Qed.

(** Removing one entry without children keeps a tree. *)
Lemma pruned_fs_delete p name m :
  wf_tree m → (∀ y, m !! (p ++ [name] ++ [y]) = None) → pruned p m (delete (p ++ [name]) m).
Proof.
  intros Hwf Hno. split.
  - apply delete_subseteq.
  - intros q Hq. apply lookup_delete_ne. intros <-.
    assert (strictly_below p (p ++ [name]) = true) by (apply strictly_below_spec; by exists [name]).
    congruence.
  - intros q [n Hn] Hq. apply lookup_delete_Some in Hn as [Hne Hn].
    rewrite lookup_delete_ne; [apply Hwf; [by exists n|done]|].
    intros E. destruct (path_snoc q Hq) as [y Hy]. rewrite <-E, <-app_assoc in Hy. subst q.
    by rewrite Hno in Hn.
Qed.

(** ** The system calls on a tree *)

Definition on_tree (φ : fs → Prop) (d : Disk) : Prop := no_moves d ∧ φ (visible d).

Lemma on_tree_add (φ ψ : fs → Prop) o d :
  is_move o = false → (φ (visible d) → ψ (apply_op o (visible d))) → on_tree φ d → on_tree ψ (add_op o d).
Proof. intros Ho H [Hm Hv]. split; [by apply no_moves_add|]. rewrite visible_add. auto. Qed.

Lemma sure_read_dir p m :
  m !! p = Some Dir →
  sure (on_tree (eq m)) (fs_read_dir p) (λ l d, l = children p m ∧ on_tree (eq m) d) (on_tree (eq m)).
Proof.
  intros Hp. apply sure_syscall; [done|]. intros d Hd. unfold stat. rewrite <-(proj2 Hd), Hp. done.
Qed.

Lemma sure_metadata p m n :
  m !! p = Some n →
  sure (on_tree (eq m)) (symlink_metadata p) (λ a d, a = n ∧ on_tree (eq m) d) (on_tree (eq m)).
Proof.
  intros Hp. apply sure_syscall; [done|]. intros d Hd. unfold stat. rewrite <-(proj2 Hd), Hp. done.
Qed.

Lemma sure_find_metadata p m :
  sure (on_tree (eq m)) (if_found (symlink_metadata p)) (λ a d, a = m !! p ∧ on_tree (eq m) d) (on_tree (eq m)).
Proof.
  apply sure_if_found; [done|]. intros d Hd. unfold stat. rewrite <-(proj2 Hd). by destruct (m !! p).
Qed.

Lemma sure_remove_file p m n :
  m !! p = Some n → n ≠ Dir →
  sure (on_tree (eq m)) (fs_remove_file p) (λ _, on_tree (eq (delete p m))) (on_tree (eq m)).
Proof.
  intros Hp Hn. apply sure_syscall; [done|]. intros d Hd. unfold stat. rewrite <-(proj2 Hd), Hp.
  destruct n; try done; (eapply on_tree_add; [done| |exact Hd]); by intros ->.
Qed.

Lemma sure_remove_dir p m :
  m !! p = Some Dir → children p m = [] →
  sure (on_tree (eq m)) (fs_remove_dir p) (λ _, on_tree (eq (delete p m))) (on_tree (eq m)).
Proof.
  intros Hp Hc. apply sure_syscall; [done|]. intros d Hd. unfold stat. rewrite <-(proj2 Hd), Hp, Hc.
  eapply on_tree_add; [done| |exact Hd]. by intros ->.
Qed.

Lemma sure_fsync p m :
  m !! p = Some Dir →
  sure (on_tree (eq m)) (fsync_dir p) (λ _, on_tree (eq m)) (on_tree (eq m)).
Proof.
  intros Hp. apply sure_syscall; [done|]. intros d [Hm Hv]. unfold stat. rewrite <-Hv, Hp.
  split; [by apply no_moves_fsync|]. rewrite Hv. symmetry. apply map_eq. intros q. by apply visible_fsync.
Qed.

(** ** The drain *)

(** What a drain of [dir] that has already removed [r] entries ends with. *)
Definition drained (b : nat) (dir : path) (r : nat) (m : fs) (res : DrainResult * nat) (m' : fs) : Prop :=
  pruned dir m m' ∧ snd res + size m' = r + size m ∧ snd res ≤ b ∧
  match fst res with
  | Done => entries_below dir m' = 0
  | More => snd res = b ∧ 0 < entries_below dir m'
  end.

Lemma drained_step b dir r r1 m m1 res m' :
  pruned dir m m1 → r1 + size m1 = r + size m → drained b dir r1 m1 res m' → drained b dir r m res m'.
Proof.
  intros Hp Hs (H1 & H2 & H3 & H4). split_and!; [by eapply pruned_fs_trans|lia|done|done].
Qed.

(** Every path of the tree is shorter than [h]. *)
Definition low (h : nat) (m : fs) : Prop := ∀ q, is_Some (m !! q) → List.length q < h.

Lemma low_sub h m m' : m' ⊆ m → low h m → low h m'.
Proof. intros Hs Hl q [n Hn]. apply Hl. exists n. by eapply lookup_weaken. Qed.

Lemma low_height m : low (height m) m.
Proof.
  intros q [n Hn%elem_of_map_to_list]. unfold height.
  induction (map_to_list m) as [|[q' n'] l IH]; [by apply elem_of_nil in Hn|]. cbn [foldr fst].
  apply elem_of_cons in Hn as [[= -> ->]|Hn]; [lia|]. specialize (IH Hn). lia.
Qed.

Section DrainLoop.
Variables (b h : nat) (recurse : path → nat → M FileError (DrainResult * nat)) (dir : path).
Hypothesis Hrec : ∀ name r m, wf_tree m → low h m → m !! (dir ++ [name]) = Some Dir → r ≤ b →
  sure (on_tree (eq m)) (recurse (dir ++ [name]) r)
    (λ res, on_tree (drained b (dir ++ [name]) r m res)) (on_tree (pruned (dir ++ [name]) m)).

Lemma on_tree_impl (φ ψ : fs → Prop) d : (∀ m, φ m → ψ m) → on_tree φ d → on_tree ψ d.
Proof. intros H [H1 H2]. split; auto. Qed.

Lemma sure_drain_entries l r m :
  wf_tree m → low h m → NoDup l → (∀ name, name ∈ l ↔ is_Some (m !! (dir ++ [name]))) → r ≤ b →
  sure (on_tree (eq m)) (drain_entries recurse dir b l r)
    (λ res, on_tree (drained b dir r m res)) (on_tree (pruned dir m)).
Proof.
  revert r m. induction l as [|name l IH]; intros r m Hwf Hlow Hnd Hl Hr; cbn [drain_entries].
  { apply sure_ret. intros d Hd. eapply on_tree_impl; [|exact Hd]. intros m' <-.
    split_and!; [by apply pruned_fs_refl|done|done|]. apply no_child_empty; [done|].
    intros name. apply eq_None_not_Some. rewrite <-Hl. apply not_elem_of_nil. }
  destruct (Nat.leb_spec b r) as [Hb|Hb].
  { apply sure_ret. intros d Hd. eapply on_tree_impl; [|exact Hd]. intros m' <-.
    split_and!; [by apply pruned_fs_refl|done|done|]. cbn. split; [lia|].
    apply (entries_below_pos dir name), Hl. left. }
  assert (Hp : is_Some (m !! (dir ++ [name]))) by (apply Hl; left). destruct Hp as [n Hp].
  apply NoDup_cons_1_1 in Hnd as Hni. apply NoDup_cons_1_2 in Hnd.
  assert (HX : ∀ d, on_tree (eq m) d → on_tree (pruned dir m) d).
  { intros d Hd. eapply on_tree_impl; [|exact Hd]. intros m' <-. by apply pruned_fs_refl. }
  assert (Hrest : ∀ m1 r1, pruned dir m m1 → (∀ y, y ∈ l ↔ is_Some (m1 !! (dir ++ [y]))) →
    r1 + size m1 = r + size m → r1 ≤ b →
    sure (on_tree (eq m1)) (drain_entries recurse dir b l r1)
      (λ res, on_tree (drained b dir r m res)) (on_tree (pruned dir m))).
  { intros m1 r1 H1 H2 H3 H4. eapply sure_conseq; [apply (IH r1 m1); [apply H1|eapply low_sub; [apply H1|done]|done..]|..].
    - done.
    - intros res d. apply on_tree_impl. intros m'. by apply drained_step.
    - intros d. apply on_tree_impl. intros m'. by apply pruned_fs_trans. }
  assert (Hdel : ∀ m1 : fs, (∀ y, m1 !! (dir ++ [y]) = m !! (dir ++ [y])) →
    ∀ y, y ∈ l ↔ is_Some (delete (dir ++ [name]) m1 !! (dir ++ [y]))).
  { intros m1 Hsame y. destruct (decide (y = name)) as [->|Hy].
    - rewrite lookup_delete_eq. split; [done|by intros []].
    - rewrite lookup_delete_ne by (intros E; apply app_inj_tail in E as [_ E]; congruence).
      rewrite Hsame, <-Hl, elem_of_cons. naive_solver. }
  eapply sure_bind.
  { apply sure_map_throw. eapply sure_conseq; [apply (sure_metadata _ _ _ Hp)|done| |exact HX].
    intros a d H. exact H. }
  intros a. cbv beta. eapply sure_extract; [intros d H; exact H|]. intros ->.
  destruct (decide (n = Dir)) as [->|Hn].
  - eapply sure_bind.
    { eapply sure_conseq; [apply (Hrec name r m Hwf Hlow Hp Hr)|done|intros res d H; exact H|].
      intros d. apply on_tree_impl. intros m'. apply pruned_lift. }
    intros [res r1]. cbv beta.
    eapply sure_ex with (P' := λ m1 d, drained b (dir ++ [name]) r m (res, r1) m1 ∧ on_tree (eq m1) d).
    { intros d [H1 H2]. exists (visible d). split; [exact H2|by split]. }
    intros m1. eapply sure_extract; [intros d H; exact H|]. intros (H1 & H2 & H3 & H4). cbn [fst snd] in *.
    assert (Hp1 : m1 !! (dir ++ [name]) = Some Dir).
    { rewrite (pr_same _ _ _ H1); [done|]. apply strictly_below_irrefl. }
    apply pruned_lift in H1 as Hm1.
    assert (Hmore0 : r1 = b →
      sure (on_tree (eq m1)) (mret (More, r1) : M FileError _)
        (λ res, on_tree (drained b dir r m res)) (on_tree (pruned dir m))).
    { intros Hb1. apply sure_ret. intros d Hd. eapply on_tree_impl; [|exact Hd]. intros m' <-.
      split_and!; [done|done|done|]. cbn. split; [done|]. apply (entries_below_pos dir name). by exists Dir. }
    destruct res; [|apply Hmore0, H4].
    destruct (Nat.leb_spec b r1) as [Hb1|Hb1]; [apply Hmore0; lia|].
    assert (Hnone : ∀ y, m1 !! (dir ++ [name] ++ [y]) = None).
    { intros y. rewrite app_assoc. apply eq_None_not_Some. intros Hy%entries_below_pos. lia. }
    assert (Hchild : children (dir ++ [name]) m1 = []).
    { apply elem_of_nil_inv. intros y Hy%children_spec. rewrite <-app_assoc in Hy.
      rewrite Hnone in Hy. by destruct Hy. }
    eapply sure_bind.
    { apply sure_map_throw. eapply sure_conseq; [apply (sure_remove_dir _ _ Hp1 Hchild)|done| |].
      - intros ? d H. exact H.
      - intros d. apply on_tree_impl. by intros m' <-. }
    intros ?. cbv beta. apply Hrest.
    + eapply pruned_fs_trans; [exact Hm1|]. apply pruned_fs_delete; [apply H1|done].
    + apply Hdel. intros y. apply (pr_same _ _ _ H1). apply not_true_iff_false.
      intros (k & Hk & E)%strictly_below_spec. rewrite <-app_assoc in E. apply app_inv_head in E.
      destruct k; [done|discriminate E].
    + pose proof (map_size_delete_Some (dir ++ [name]) m1 (mk_is_Some _ _ Hp1)).
      pose proof (map_size_ne_0_lookup_2 m1 _ (mk_is_Some _ _ Hp1)). lia.
    + lia.
  - assert (Hnone : ∀ y, m !! (dir ++ [name] ++ [y]) = None).
    { intros y. rewrite app_assoc. apply eq_None_not_Some. intros Hy. apply Hn.
      destruct (below_trans m (dir ++ [name]) [y] Hwf Hy) as [Hd _]; [done|]. congruence. }
    assert (Hfile : sure (on_tree (eq m)) (_ ← map_throw (io_err (dir ++ [name])) (fs_remove_file (dir ++ [name]));
        drain_entries recurse dir b l (S r)) (λ res, on_tree (drained b dir r m res)) (on_tree (pruned dir m))).
    { eapply sure_bind.
      { apply sure_map_throw. eapply sure_conseq; [apply (sure_remove_file _ _ _ Hp Hn)|done| |exact HX].
        intros ? d H. exact H. }
      intros ?. cbv beta. apply Hrest.
      - by apply pruned_fs_delete.
      - apply Hdel. done.
      - pose proof (map_size_delete_Some (dir ++ [name]) m (mk_is_Some _ _ Hp)).
        pose proof (map_size_ne_0_lookup_2 m _ (mk_is_Some _ _ Hp)). lia.
      - lia. }
    by destruct n.
Qed.
End DrainLoop.

Lemma sure_drain_dir b h fuel dir r m :
  wf_tree m → low h m → h ≤ List.length dir + fuel → m !! dir = Some Dir → r ≤ b →
  sure (on_tree (eq m)) (drain_dir fuel b dir r)
    (λ res, on_tree (drained b dir r m res)) (on_tree (pruned dir m)).
Proof.
  revert dir r m. induction fuel as [|fuel IH]; intros dir r m Hwf Hlow Hfuel Hdir Hr.
  { specialize (Hlow dir (mk_is_Some _ _ Hdir)). lia. }
  cbn [drain_dir]. eapply sure_bind.
  { apply sure_map_throw. eapply sure_conseq; [apply (sure_read_dir _ _ Hdir)|done|intros l d H; exact H|].
    intros d. apply on_tree_impl. intros m' <-. by apply pruned_fs_refl. }
  intros l. eapply sure_extract; [intros d H; exact H|]. intros ->.
  apply (sure_drain_entries b h).
  - intros name r' m' Hwf' Hlow' Hp' Hr'. apply IH; try done. rewrite length_app. cbn. lia.
  - done.
  - done.
  - apply children_nodup.
  - intros name. apply children_spec.
  - done.
Qed.

(** ** The staged delete *)

(** The shape of a staged delete on disk, at any point of its drain. *)
Record staged_tree (staged : StagedDelete) (m : fs) : Prop := {
  sg_wf : wf_tree m;
  sg_names : ∃ dir a b, a ≠ b ∧ stage_dir staged = dir ++ [a] ∧ tombstone staged = dir ++ [b] ∧
    payload staged = stage_dir staged ++ [STAGED_PAYLOAD_NAME];
  sg_dir : m !! parent (tombstone staged) = Some Dir;
  sg_stage : m !! stage_dir staged = None ∨ m !! stage_dir staged = Some Dir;
  sg_tomb : m !! tombstone staged ≠ Some Dir;
  sg_only : ∀ name, is_Some (m !! (stage_dir staged ++ [name])) → name = STAGED_PAYLOAD_NAME;
}.

(** Nothing outside the stage directory and the tombstone has changed. *)
Definition outside (staged : StagedDelete) (m m' : fs) : Prop :=
  ∀ q, below (stage_dir staged) q = false → q ≠ tombstone staged → m' !! q = m !! q.

Definition tail_step (staged : StagedDelete) (m m' : fs) : Prop :=
  staged_tree staged m' ∧ outside staged m m' ∧ m' ⊆ m.

Lemma outside_trans staged m m' m'' : outside staged m m' → outside staged m' m'' → outside staged m m''.
Proof. intros H1 H2 q Hb Ht. by rewrite H2, H1. Qed.

Lemma tail_refl staged m : staged_tree staged m → tail_step staged m m.
Proof. by intros. Qed.

Lemma tail_trans staged m m' m'' : tail_step staged m m' → tail_step staged m' m'' → tail_step staged m m''.
Proof.
  intros (H1 & H2 & H3) (H4 & H5 & H6). split_and!; [done|by eapply outside_trans|by etransitivity].
Qed.

Lemma snoc_neq {A} (p : list A) x : p ++ [x] ≠ p.
Proof. intros E. apply (f_equal (@List.length _)) in E. rewrite length_app in E. cbn in E. lia. Qed.

(** A smaller tree, cut only inside the stage directory or at the tombstone. *)
Lemma tail_of_sub staged m m' :
  staged_tree staged m → m' ⊆ m → wf_tree m' → outside staged m m' → tail_step staged m m'.
Proof.
  intros [] Hs Hwf Hout. split_and!; [|done|done].
  destruct sg_names0 as (dir & a & b & Hab & Hsd & Hts & Hpl). split; [done|by exists dir, a, b|..].
  - rewrite Hout; [done|..].
    + rewrite Hts, parent_app, Hsd. apply not_true_iff_false. rewrite below_true. intros [k E].
      apply (f_equal (@List.length _)) in E. rewrite !length_app in E. cbn in E. lia.
    + rewrite Hts, parent_app. intros E. symmetry in E. by apply snoc_neq in E.
  - destruct (m' !! stage_dir staged) as [n|] eqn:E; [right|by left].
    pose proof (lookup_weaken _ _ _ _ E Hs) as E'. destruct sg_stage0; congruence.
  - intros E. pose proof (lookup_weaken _ _ _ _ E Hs). congruence.
  - intros name [n Hn]. apply sg_only0. exists n. by eapply lookup_weaken.
Qed.

Lemma pruned_outside staged m m' :
  staged_tree staged m → pruned (payload staged) m m' → tail_step staged m m'.
Proof.
  intros Hst [Hs Hsame Hwf]. apply tail_of_sub; [done..|]. intros q Hq _. apply Hsame.
  apply not_true_iff_false. intros (k & _ & ->)%strictly_below_spec.
  destruct (sg_names _ _ Hst) as (dir & a & b & _ & Hsd & _ & Hpl).
  apply not_true_iff_false in Hq. apply Hq, below_true. rewrite Hpl, <-app_assoc. by eexists.
Qed.

Lemma tail_delete staged m p :
  staged_tree staged m → p ≠ [] → (∀ y, m !! (p ++ [y]) = None) →
  below (stage_dir staged) p = true ∨ p = tombstone staged → tail_step staged m (delete p m).
Proof.
  intros Hst Hp Hno Hin. destruct (path_snoc p Hp) as [name Hname].
  pose proof (pruned_fs_delete (parent p) name m (sg_wf _ _ Hst)) as Hpr. rewrite <-Hname in Hpr.
  specialize (Hpr ltac:(intros y; rewrite app_assoc, <-Hname; apply Hno)).
  apply tail_of_sub; [done|apply delete_subseteq|apply Hpr|].
  intros q Hb Ht. apply lookup_delete_ne. intros <-. destruct Hin as [Hin| ->]; congruence.
Qed.

(** Nothing of the delete is left. *)
Definition gone (staged : StagedDelete) (m : fs) : Prop :=
  (∀ q, below (stage_dir staged) q = true → m !! q = None) ∧ m !! tombstone staged = None.

(** One removing call of the finalizer, from a tree satisfying [φ]. *)
Lemma tail_seq {A B : Type} (staged : StagedDelete) (m : fs) (φ : fs → Prop) (c : M FileError A)
    (f : A → M FileError B) (R : A → fs → Prop) (Q : B → Disk → Prop) :
  (∀ m', tail_step staged m m' → φ m' →
     sure (on_tree (eq m')) c (λ a, on_tree (λ m'', tail_step staged m' m'' ∧ R a m''))
       (on_tree (tail_step staged m'))) →
  (∀ a, sure (on_tree (λ m', tail_step staged m m' ∧ R a m')) (f a) Q (on_tree (tail_step staged m))) →
  sure (on_tree (λ m', tail_step staged m m' ∧ φ m')) (c ≫= f) Q (on_tree (tail_step staged m)).
Proof.
  intros Hc Hf.
  eapply sure_ex with (P' := λ m' d, (tail_step staged m m' ∧ φ m') ∧ on_tree (eq m') d).
  { intros d [H1 H2]. exists (visible d). split; [exact H2|by split]. }
  intros m'. eapply sure_extract; [intros d H; exact H|]. intros [Hm Hφ].
  eapply sure_bind; [|exact Hf].
  eapply sure_conseq; [apply (Hc m' Hm Hφ)|done|..].
  - intros a d. apply on_tree_impl. intros m'' [H1 H2]. split; [by eapply tail_trans|done].
  - intros d. apply on_tree_impl. intros m''. by apply tail_trans.
Qed.

Lemma no_below m p : wf_tree m → entries_below p m = 0 → ∀ y, m !! (p ++ [y]) = None.
Proof. intros Hwf H0 y. apply eq_None_not_Some. intros H%entries_below_pos. lia. Qed.

Lemma no_children m p : (∀ y, m !! (p ++ [y]) = None) → children p m = [].
Proof. intros H. apply elem_of_nil_inv. intros y [n Hy]%children_spec. by rewrite H in Hy. Qed.

Lemma file_no_below m p n : wf_tree m → m !! p = Some n → n ≠ Dir → ∀ y, m !! (p ++ [y]) = None.
Proof.
  intros Hwf Hp Hn y. apply eq_None_not_Some. intros Hy.
  destruct (below_trans m p [y] Hwf Hy) as [Hd _]; [done|]. congruence.
Qed.

Lemma staged_paths staged m : staged_tree staged m →
  payload staged ≠ [] ∧ stage_dir staged ≠ [] ∧ tombstone staged ≠ [] ∧
  below (stage_dir staged) (payload staged) = true ∧
  below (stage_dir staged) (tombstone staged) = false.
Proof.
  intros [? (dir & a & b & Hab & Hsd & Hts & Hpl)]. rewrite Hpl, Hsd, Hts. split_and!.
  - by destruct dir.
  - by destruct dir.
  - by destruct dir.
  - apply below_true. by eexists.
  - apply not_true_iff_false. rewrite below_true. intros [k E]. rewrite <-app_assoc in E.
    apply app_inv_head in E. by injection E as [= ->].
Qed.

(** Removing an entry that has nothing below, whatever it is. *)
Lemma remove_entry_sure staged m p n (c : M IoKind unit) :
  staged_tree staged m → p ≠ [] → m !! p = Some n → (∀ y, m !! (p ++ [y]) = None) →
  below (stage_dir staged) p = true ∨ p = tombstone staged →
  (n = Dir ∧ c = fs_remove_dir p ∨ n ≠ Dir ∧ c = fs_remove_file p) →
  sure (on_tree (eq m)) c
    (λ _, on_tree (λ m', tail_step staged m m' ∧ m' !! p = None)) (on_tree (tail_step staged m)).
Proof.
  intros Hst Hp Hn Hno Hin Hc.
  assert (Hgo : sure (on_tree (eq m)) c (λ _, on_tree (eq (delete p m))) (on_tree (eq m))).
  { destruct Hc as [[-> ->]|[Hne ->]].
    - apply sure_remove_dir; [done|by apply no_children].
    - by eapply sure_remove_file. }
  eapply sure_conseq; [exact Hgo|done|..].
  - intros ? d. apply on_tree_impl. intros m' <-. split; [by apply tail_delete|apply lookup_delete_eq].
  - intros d. apply on_tree_impl. by intros m' <-.
Qed.

(** The same through [if_found]: what is already gone stays gone. *)
Lemma remove_found_sure staged m p (c : M IoKind unit) :
  staged_tree staged m → p ≠ [] → (∀ y, m !! (p ++ [y]) = None) →
  below (stage_dir staged) p = true ∨ p = tombstone staged →
  (c = fs_remove_dir p ∧ (m !! p = None ∨ m !! p = Some Dir) ∨
   c = fs_remove_file p ∧ m !! p ≠ Some Dir) →
  sure (on_tree (eq m)) (if_found c)
    (λ _, on_tree (λ m', tail_step staged m m' ∧ m' !! p = None)) (on_tree (tail_step staged m)).
Proof.
  intros Hst Hp Hno Hin Hc.
  assert (HX : ∀ d, on_tree (eq m) d → on_tree (tail_step staged m) d).
  { intros d. apply on_tree_impl. by intros m' <-. }
  assert (Hgone : ∀ d, m !! p = None → on_tree (eq m) d →
    on_tree (λ m', tail_step staged m m' ∧ m' !! p = None) d).
  { intros d Hn. apply on_tree_impl. by intros m' <-. }
  assert (Hdel : ∀ d, on_tree (eq m) d →
    on_tree (λ m', tail_step staged m m' ∧ m' !! p = None) (add_op (OpDel p) d)).
  { intros d. apply on_tree_add; [done|]. intros <-. split; [by apply tail_delete|apply lookup_delete_eq]. }
  destruct Hc as [[-> Hc]|[-> Hc]]; (apply sure_if_found; [exact HX|]); intros d Hd;
    unfold stat; rewrite <-(proj2 Hd).
  - destruct Hc as [Hc|Hc]; rewrite Hc; [by apply Hgone|]. rewrite (no_children _ _ Hno). by apply Hdel.
  - destruct (m !! p) as [[| |]|] eqn:E; try done; try (by apply Hdel). by apply Hgone.
Qed.

Lemma sure_finalize staged m :
  staged_tree staged m → entries_below (payload staged) m = 0 →
  sure (on_tree (eq m)) (finalize_staged_delete staged)
    (λ _, on_tree (λ m', tail_step staged m m' ∧ gone staged m')) (on_tree (tail_step staged m)).
Proof.
  intros Hst H0. destruct (staged_paths _ _ Hst) as (Np & Ns & Nt & Bp & Bt).
  assert (HX : ∀ d, on_tree (eq m) d → on_tree (tail_step staged m) d).
  { intros d. apply on_tree_impl. by intros m' <-. }
  unfold finalize_staged_delete. eapply sure_bind.
  { apply sure_map_throw. eapply sure_conseq; [apply sure_find_metadata|done|intros a d H; exact H|exact HX]. }
  intros md. eapply sure_extract; [intros d H; exact H|]. intros ->.
  eapply sure_conseq with (P' := on_tree (λ m', tail_step staged m m' ∧ m' = m));
    [|intros d; apply on_tree_impl; by intros m' <-|intros ? d H; exact H|intros d H; exact H].
  apply tail_seq with (R := λ _ m', m' !! payload staged = None).
  { intros ? _ ->. destruct (m !! payload staged) as [n|] eqn:Hn.
    - pose proof (no_below m _ (sg_wf _ _ Hst) H0) as Hno.
      assert (Hc : ∀ c : M IoKind unit,
        (n = Dir ∧ c = fs_remove_dir (payload staged) ∨ n ≠ Dir ∧ c = fs_remove_file (payload staged)) →
        sure (on_tree (eq m)) (map_throw (io_err (payload staged)) c)
          (λ _, on_tree (λ m', tail_step staged m m' ∧ m' !! payload staged = None))
          (on_tree (tail_step staged m))).
      { intros c Hc. apply sure_map_throw. eapply remove_entry_sure; eauto. }
      destruct n; apply Hc; auto.
    - apply sure_ret. intros d. apply on_tree_impl. by intros m' <-. }
  intros ?. apply tail_seq with (R := λ _ m', m' !! stage_dir staged = None).
  { intros m' Hm' Hpn. apply sure_map_throw. destruct Hm' as (Hst' & _).
    apply remove_found_sure; [done|done| |left; apply below_true; done|].
    - intros y. apply eq_None_not_Some. intros Hy. pose proof (sg_only _ _ Hst' _ Hy) as ->.
      destruct (sg_names _ _ Hst') as (dir & x & z & _ & _ & _ & Hpl). rewrite <-Hpl, Hpn in Hy. by destruct Hy.
    - left. split; [done|]. apply Hst'. }
  intros ?. apply tail_seq with (R := λ _, gone staged).
  { intros m' Hm' Hsn. apply sure_map_throw. destruct Hm' as (Hst' & _).
    eapply sure_conseq; [apply (remove_found_sure staged m' (tombstone staged))|done|..]; try done.
    - intros y. apply eq_None_not_Some. intros Hy.
      destruct (below_trans m' _ [y] (sg_wf _ _ Hst') Hy) as [Hd _]; [done|]. by apply (sg_tomb _ _ Hst').
    - by right.
    - right. split; [done|]. apply Hst'.
    - intros ? d. apply on_tree_impl. intros m'' [H1 H2]. split; [done|]. split; [|done].
      intros q [k ->]%below_true. apply eq_None_not_Some. intros Hq.
      assert (Hsn' : m'' !! stage_dir staged = None).
      { apply eq_None_not_Some. intros [n Hn]. destruct H1 as (_ & _ & Hsub).
        by rewrite (lookup_weaken _ _ _ _ Hn Hsub) in Hsn. }
      destruct k as [|y k]; [rewrite app_nil_r, Hsn' in Hq; by destruct Hq|].
      destruct (below_trans m'' _ (y :: k) (sg_wf _ _ (proj1 H1)) Hq) as [Hd _]; [done|]. congruence. }
  intros ?. rewrite decide_False by done.
  eapply sure_bind with (R := λ b d, b = true ∧ on_tree (λ m', tail_step staged m m' ∧ gone staged m') d).
  { intros w Hw. split; [|done]. split; [|done]. apply bool_decide_eq_true.
    destruct Hw as (_ & [[] _] & _). unfold stat. by rewrite sg_dir0. }
  intros b. eapply sure_extract; [intros d H; exact H|]. intros ->. apply sure_map_throw.
  eapply sure_ex with (P' := λ m' d, (tail_step staged m m' ∧ gone staged m') ∧ on_tree (eq m') d).
  { intros d [H1 H2]. exists (visible d). split; [exact H2|by split]. }
  intros m'. eapply sure_extract; [intros d H; exact H|]. intros [H1 H2].
  eapply sure_conseq; [apply (sure_fsync _ m'), (sg_dir _ _ (proj1 H1))|done|..].
  - intros ? d. apply on_tree_impl. by intros m'' <-.
  - intros d. apply on_tree_impl. by intros m'' <-.
Qed.

(** One budgeted drain of the staged payload. *)
Lemma sure_drain_staged staged m b :
  staged_tree staged m →
  sure (on_tree (eq m)) (drain_staged_payload staged b)
    (λ res, on_tree (λ m', tail_step staged m m' ∧ match res with
       | Done => entries_below (payload staged) m' = 0
       | More => size m' + b = size m
       end)) (on_tree (tail_step staged m)).
Proof.
  intros Hst. destruct (staged_paths _ _ Hst) as (Np & Ns & Nt & Bp & Bt).
  assert (HX : ∀ d, on_tree (eq m) d → on_tree (tail_step staged m) d).
  { intros d. apply on_tree_impl. by intros m' <-. }
  assert (Hempty : (∀ y, m !! (payload staged ++ [y]) = None) → ∀ m', m' ⊆ m → wf_tree m' →
    entries_below (payload staged) m' = 0).
  { intros Hno m' Hs Hwf. apply no_child_empty; [done|]. intros y. apply eq_None_not_Some.
    intros [n Hn]. pose proof (lookup_weaken _ _ _ _ Hn Hs) as E. by rewrite Hno in E. }
  unfold drain_staged_payload. eapply sure_bind.
  { apply sure_map_throw. eapply sure_conseq; [apply sure_find_metadata|done|intros a d H; exact H|exact HX]. }
  intros md. eapply sure_extract; [intros d H; exact H|]. intros ->.
  destruct (m !! payload staged) as [n|] eqn:Hn.
  2:{ apply sure_ret. intros d. apply on_tree_impl. intros m' <-. split; [done|].
      apply Hempty; [|done|apply Hst]. intros y. apply eq_None_not_Some. intros Hy.
      destruct (below_trans m _ [y] (sg_wf _ _ Hst) Hy) as [Hd _]; [done|]. congruence. }
  destruct (decide (n = Dir)) as [->|Hne].
  - intros w Hw. assert (Hv : visible (disk w) = m) by (by rewrite <-(proj2 Hw)). rewrite Hv. revert w Hw Hv.
    assert (Hs : sure (on_tree (eq m)) (r ← drain_dir (height m) b (payload staged) 0; mret (fst r))
      (λ res, on_tree (λ m', tail_step staged m m' ∧ match res with
         | Done => entries_below (payload staged) m' = 0
         | More => size m' + b = size m
         end)) (on_tree (tail_step staged m)));
      [|intros w Hw _; by apply Hs].
    eapply sure_bind.
    { eapply sure_conseq; [apply (sure_drain_dir b (height m) (height m) (payload staged) 0 m)|..].
      - apply Hst.
      - apply low_height.
      - lia.
      - done.
      - lia.
      - done.
      - intros res d H. exact H.
      - intros d. apply on_tree_impl. intros m'. by apply pruned_outside. }
    intros [res r]. apply sure_ret. intros d. apply on_tree_impl. intros m' (H1 & H2 & H3 & H4).
    split; [by apply pruned_outside|]. cbn [fst snd] in *. destruct res; [done|]. lia.
  - assert (Hrm : sure (on_tree (eq m)) (_ ← map_throw (io_err (payload staged)) (fs_remove_file (payload staged)); mret Done)
      (λ res, on_tree (λ m', tail_step staged m m' ∧ match res with
         | Done => entries_below (payload staged) m' = 0
         | More => size m' + b = size m
         end)) (on_tree (tail_step staged m))).
    { pose proof (file_no_below m _ n (sg_wf _ _ Hst) Hn Hne) as Hno.
      eapply sure_bind.
      { apply sure_map_throw. apply (remove_entry_sure staged m (payload staged) n); auto. }
      intros ?. apply sure_ret. intros d. apply on_tree_impl. intros m' [H1 H2]. split; [done|].
      destruct H1 as (Hs & _ & Hsub). apply Hempty; [done|done|apply Hs]. }
    by destruct n.
Qed.

Lemma sure_drain_loop staged iters m :
  staged_tree staged m →
  sure (on_tree (eq m)) (drain_loop staged iters)
    (λ done, on_tree (λ m', tail_step staged m m' ∧
       (done = true → entries_below (payload staged) m' = 0) ∧
       (size m < iters * DEFAULT_DELETE_BATCH_ENTRIES → done = true)))
    (on_tree (tail_step staged m)).
Proof.
  revert m. induction iters as [|iters IH]; intros m Hst; cbn [drain_loop].
  { apply sure_ret. intros d. apply on_tree_impl. intros m' <-. split_and!; [done|done|lia]. }
  eapply sure_bind; [apply (sure_drain_staged staged m _ Hst)|].
  intros []; [apply sure_ret; intros d; apply on_tree_impl; by intros m' [H1 H2]|].
  eapply sure_ex with (P' := λ m' d, (tail_step staged m m' ∧
     size m' + DEFAULT_DELETE_BATCH_ENTRIES = size m) ∧ on_tree (eq m') d).
  { intros d [H1 H2]. exists (visible d). split; [exact H2|by split]. }
  intros m'. eapply sure_extract; [intros d H; exact H|]. intros [H1 H2].
  eapply sure_conseq; [apply (IH m'), H1|done|..].
  - intros b d. apply on_tree_impl. intros m'' (H3 & H4 & H5).
    split_and!; [by eapply tail_trans|done|]. intros Hsize. apply H5.
    rewrite Nat.mul_succ_l in Hsize. unfold DEFAULT_DELETE_BATCH_ENTRIES in *. lia.
  - intros d. apply on_tree_impl. intros m''. by apply tail_trans.
Qed.

(** The uncapped driver, in any world. *)
Lemma drain_to_completion_spec staged fuel m w :
  staged_tree staged m → on_tree (eq m) (disk w) →
  match drain_to_completion staged None fuel w with
  | (w', Ret o) => on_tree (tail_step staged m) (disk w') ∧
      (quiet w → size m < fuel * DEFAULT_DELETE_BATCH_ENTRIES →
       o = Some Deleted ∧ gone staged (visible (disk w')))
  | (w', Throw _) => False
  | (w', Crash) => on_tree (tail_step staged m) (disk w') ∧ ¬ quiet w
  end.
Proof.
  intros Hst Hw. unfold drain_to_completion.
  pose proof (sure_attempt (F := FileError) _ _ _ _ (sure_drain_loop staged fuel m Hst) w Hw) as H.
  unfold mbind, M_bind. cbn [default].
  change (from_option id fuel None) with fuel.
  destruct (attempt (drain_loop staged fuel) w) as [w1 [[d|e]|e|]] eqn:E; try (by destruct H as [H1 H2]; split; [|intros ?]).
  2:{ unfold attempt in E. by destruct (drain_loop staged fuel w) as [? []]. }
  destruct H as [[Hnm (H1 & H2 & H3)] Hq].
  destruct d; cbn [negb andb].
  2:{ rewrite bool_decide_eq_true_2 by done. cbn. split; [by split|]. intros _ Hs. by apply H3 in Hs. }
  specialize (H2 eq_refl). set (m1 := visible (disk w1)) in *.
  assert (Hw1 : on_tree (eq m1) (disk w1)) by by split.
  pose proof (sure_attempt (F := FileError) _ _ _ _ (sure_finalize staged m1 (proj1 H1) H2) w1 Hw1) as H.
  destruct (attempt (finalize_staged_delete staged) w1) as [w2 [[u|e]|e|]] eqn:E2.
  - destruct H as [[Hn2 [H4 H5]] Hq2]. split; [split; [done|by eapply tail_trans]|done].
  - destruct H as [[Hn2 H4] Hq2]. split; [split; [done|by eapply tail_trans]|]. intros Hq0. by apply Hq in Hq0.
  - unfold attempt in E2. by destruct (finalize_staged_delete staged w1) as [? []].
  - destruct H as [[Hn2 H4] Hq2]. split; [split; [done|by eapply tail_trans]|]. intros Hq0. by apply Hq in Hq0.
Qed.

(** ** The staging rename *)

Lemma move_tree_dst (src dst : path) (m : fs) (k : path) : move_tree src dst m !! (dst ++ k) = m !! (src ++ k).
Proof.
  unfold move_tree.
  set (l := map (λ '(p, n), (dst ++ drop (List.length src) p, n)) _).
  assert (Hin : ∀ q n, (dst ++ q, n) ∈ l ↔ m !! (src ++ q) = Some n).
  { intros q n. unfold l. rewrite list_elem_of_fmap. split.
    - intros ([p n'] & [= E ->] & [Hp Hm]%elem_of_map_to_list%map_lookup_filter_Some).
      apply below_true in Hm as [k' ->]. rewrite drop_app_length in E. apply app_inv_head in E. by subst.
    - intros Hq. exists (src ++ q, n). rewrite drop_app_length. split; [done|].
      apply elem_of_map_to_list, map_lookup_filter_Some. split; [done|]. apply below_true. by eexists. }
  assert (Hdst : ∀ q n, (q, n) ∈ l → ∃ k', q = dst ++ k').
  { intros q n. unfold l. rewrite list_elem_of_fmap. intros ([p n'] & [= -> ->] & _). by eexists. }
  destruct (m !! (src ++ k)) as [n|] eqn:Hm.
  - apply lookup_union_Some_l. apply elem_of_list_to_map_1'; [|by apply Hin].
    intros n' Hn'. apply Hin in Hn'. congruence.
  - rewrite lookup_union_r.
    + apply map_lookup_filter_None_2. right. intros n _ [_ H]. apply not_true_iff_false in H.
      apply H, below_true. by eexists.
    + apply not_elem_of_list_to_map_1. intros ([q n] & E & Hq)%list_elem_of_fmap. cbn in E. subst q.
      apply Hin in Hq. congruence.
Qed.

Lemma move_tree_src (src dst : path) (m : fs) (q : path) :
  below src q = true → below dst q = false → move_tree src dst m !! q = None.
Proof.
  intros Hs Hd. unfold move_tree. rewrite lookup_union_r.
  - apply map_lookup_filter_None_2. right. intros n _ [H _]. congruence.
  - apply not_elem_of_list_to_map_1. intros ([q' n] & E & Hq)%list_elem_of_fmap. cbn in E. subst q'.
    apply list_elem_of_fmap in Hq as ([p n'] & [= -> ->] & _). cbn in Hd.
    apply not_true_iff_false in Hd. apply Hd, below_true. by eexists.
Qed.

(** Nothing in the tree waits for its data to be synced. *)
Definition all_settled (m : fs) : Prop := ∀ q, settled (m !! q) = true.

Lemma settled_image m img : all_settled m → scrambled_fs m img → img = m.
Proof.
  intros Hs Hi. apply map_eq. intros q. specialize (Hs q). specialize (Hi q).
  destruct (m !! q) as [[c []| |]|], (img !! q); cbn in *; try done; by subst.
Qed.

(** A crash keeps or drops the single pending change. *)
Lemma crash_one m o img :
  all_settled m → all_settled (apply_op o m) → crash_image (mkDisk m [o]) img → img = m ∨ img = apply_op o m.
Proof.
  intros H1 H2 (kept & Hk & Hi). cbn in Hk. apply sublist_cons_r in Hk as [Hk|(k' & -> & Hk)].
  - apply sublist_nil_r in Hk as ->. left. by apply settled_image.
  - apply sublist_nil_r in Hk as ->. right. by apply settled_image.
Qed.

Lemma crash_none m img : all_settled m → crash_image (mkDisk m []) img → img = m.
Proof. intros H (kept & ->%sublist_nil_r & Hi). by apply settled_image. Qed.

(** [create_dir_all] when only the last component is missing. *)
Lemma mkdir_last (D : Disk) dn l a (Q : Disk → Prop) :
  (∀ q, q ≠ [] → q `prefix_of` dn ++ l → visible D !! q = Some Dir) →
  visible D !! (dn ++ l ++ [a]) = None → parent_ok (dn ++ l ++ [a]) D = true →
  triple (λ d, d = D) (mkdir_prefixes dn (l ++ [a]))
    (λ _ d, d = add_op (OpSet (dn ++ l ++ [a]) Dir) D) (λ d, d = D) (λ d, d = D).
Proof.
  revert dn. induction l as [|x l IH]; intros dn Hpre Hnone Hpar; cbn [app mkdir_prefixes] in *.
  - eapply triple_bind with (R := λ _ d, d = add_op (OpSet (dn ++ [a]) Dir) D);
      [|intros ?; by apply triple_ret].
    apply triple_syscall; [done|done|]. intros d ->. unfold stat. by rewrite Hnone, Hpar.
  - eapply triple_bind with (R := λ _ d, d = D).
    + apply triple_syscall; [done|done|]. intros d ->. unfold stat.
      rewrite (Hpre (dn ++ [x])); [done|by destruct dn|]. exists l. by rewrite <-app_assoc.
    + intros ?. assert (E : dn ++ x :: l ++ [a] = (dn ++ [x]) ++ l ++ [a]) by (by rewrite <-app_assoc).
      rewrite E in *. apply IH; [|done|done]. rewrite <-app_assoc. exact Hpre.
Qed.

Lemma below_app (p k : path) : below p (p ++ k) = true.
Proof. apply below_true. by eexists. Qed.

Lemma below_false_neq p q : below p q = false → q ≠ p.
Proof. intros H ->. apply not_true_iff_false in H. apply H, below_true. done. Qed.

Section Stage.
Variables (m : fs) (dir : path) (a : string) (target : path) (staged : StagedDelete).
Hypothesis Hsd : stage_dir staged = dir ++ [a].
Hypothesis Hpl : payload staged = stage_dir staged ++ [STAGED_PAYLOAD_NAME].
Hypothesis Hwf : wf_tree m.
Hypothesis Hdir : m !! dir = Some Dir.
Hypothesis Hnew : m !! stage_dir staged = None.
Hypothesis Htgt : m !! target = Some Dir.
Hypothesis Hroot : target ≠ [].
Hypothesis Hapart : below target (stage_dir staged) = false.

Let with_stage : fs := <[stage_dir staged := Dir]> m.
Let moved : fs := move_tree target (payload staged) with_stage.

Lemma none_below_stage k : m !! (stage_dir staged ++ k) = None.
Proof.
  destruct k as [|x k]; [by rewrite app_nil_r|]. apply eq_None_not_Some. intros Hs.
  destruct (below_trans m (stage_dir staged) (x :: k) Hwf Hs) as [Hd _]; [done|]. by rewrite Hnew in Hd.
Qed.

Lemma present_not_staged q n : m !! q = Some n → below (stage_dir staged) q = false.
Proof.
  intros Hq. apply not_true_iff_false. intros [k ->]%below_true. by rewrite none_below_stage in Hq.
Qed.

Lemma not_staged_not_payload q : below (stage_dir staged) q = false → below (payload staged) q = false.
Proof.
  rewrite <-!not_true_iff_false.
  intros H [k ->]%below_true. apply H. rewrite Hpl, <-app_assoc. apply below_app.
Qed.

Lemma with_stage_other q : below (stage_dir staged) q = false → with_stage !! q = m !! q.
Proof. intros Hq. apply lookup_insert_ne. intros <-. by apply below_false_neq in Hq. Qed.

Lemma target_not_payload k : below (payload staged) (target ++ k) = false.
Proof.
  apply not_true_iff_false. intros Hb%below_true.
  destruct (prefix_weak_total (payload staged) target (target ++ k) Hb) as [[k' E]|[k' E]];
    [by eexists|..].
  - pose proof (present_not_staged _ _ Htgt) as Hn. apply not_true_iff_false in Hn. apply Hn, below_true.
    rewrite E, Hpl, <-app_assoc. by eexists.
  - rewrite Hpl in E. destruct k' as [|x k' _] using rev_ind.
    + rewrite app_nil_r in E. pose proof Htgt as Ht. by rewrite <-E, none_below_stage in Ht.
    + rewrite app_assoc in E. apply app_inj_tail in E as [E _].
      pose proof Hapart as Ha. apply not_true_iff_false in Ha. apply Ha, below_true. by exists k'.
Qed.

Lemma moved_spec :
  (∀ k, moved !! (payload staged ++ k) = m !! (target ++ k)) ∧
  (∀ k, moved !! (target ++ k) = None) ∧
  moved !! stage_dir staged = Some Dir ∧
  (∀ q, below target q = false → below (stage_dir staged) q = false → moved !! q = m !! q).
Proof.
  split_and!.
  - intros k. unfold moved. rewrite move_tree_dst. apply with_stage_other. apply not_true_iff_false.
    intros [k' E]%below_true.
    destruct (m !! (target ++ k)) as [n|] eqn:Hk.
    + pose proof (present_not_staged _ _ Hk) as Hn. apply not_true_iff_false in Hn.
      apply Hn, below_true. rewrite E. by eexists.
    + destruct (prefix_weak_total target (stage_dir staged) (target ++ k)) as [Hp|[k2 E2]];
        [by eexists|by exists k'|..].
      * pose proof Hapart as Ha. apply not_true_iff_false in Ha. by apply Ha, below_true.
      * pose proof (present_not_staged _ _ Htgt) as Hn. apply not_true_iff_false in Hn.
        apply Hn, below_true. rewrite E2. by eexists.
  - intros k. apply move_tree_src; [apply below_app|apply target_not_payload].
  - unfold moved. rewrite move_tree_untouched; [apply lookup_insert_eq|done|].
    apply not_true_iff_false. intros [k E]%below_true. rewrite Hpl, <-app_assoc in E.
    apply (f_equal (@List.length _)) in E. rewrite length_app in E. cbn in E. lia.
  - intros q Ht Hs. unfold moved. rewrite move_tree_untouched by (done || by apply not_staged_not_payload).
    by apply with_stage_other.
Qed.

(** The disks [stage_payload] passes through. *)
Definition staging_disk (d : Disk) : Prop :=
  d = mkDisk m [] ∨ d = mkDisk m [OpSet (stage_dir staged) Dir] ∨ d = mkDisk with_stage [] ∨
  ∃ un, d = mkDisk with_stage [OpMove target (payload staged) un].

Lemma stage_payload_triple :
  triple (λ d, d = mkDisk m []) (stage_payload target staged) (λ _ d, d = mkDisk moved [])
    staging_disk staging_disk.
Proof.
  destruct moved_spec as (M1 & M2 & M3 & M4).
  assert (Hpar : m !! parent target = Some Dir) by (apply Hwf; [by eexists|done]).
  assert (Hps : parent target ≠ stage_dir staged) by (intros E; congruence).
  assert (Hsdn : stage_dir staged ≠ []) by (rewrite Hsd; by destruct dir).
  unfold stage_payload. rewrite decide_False by done.
  eapply triple_bind with (R := λ _ d, d = mkDisk m [OpSet (stage_dir staged) Dir]).
  { apply triple_map_throw. unfold create_dir_all. rewrite Hsd.
    eapply triple_conseq; [apply (mkdir_last (mkDisk m []) [] dir a (λ _, True))|..]; cbn [app].
    - intros q Hq [k Hk]. cbn. destruct k as [|x k]; [rewrite app_nil_r in Hk; by subst|].
      apply (below_trans m q (x :: k) Hwf); [rewrite <-Hk; by eexists|done].
    - cbn. rewrite <-Hsd. exact Hnew.
    - unfold parent_ok, stat. cbn. rewrite parent_app, Hdir. done.
    - done.
    - intros ? d ->. done.
    - intros d ->. by left.
    - intros d ->. by left. }
  intros ?. rewrite decide_False by done.
  eapply triple_bind with (R := λ _ d, d = mkDisk with_stage []).
  { apply triple_map_throw. eapply triple_conseq; [apply fsync_dir_triple with
      (F := λ d, d = mkDisk m [OpSet (stage_dir staged) Dir]) (G := λ d, d = mkDisk with_stage [])|..].
    - intros d ->. unfold fsync_disk. cbn. by rewrite bool_decide_eq_true_2 by done.
    - done.
    - done.
    - intros d ->. right. by left.
    - intros d ->. right. by left. }
  intros ?. eapply triple_bind with (R := λ _ d, d = mkDisk with_stage
    [OpMove target (payload staged) [parent target; stage_dir staged]]).
  { apply triple_map_throw. apply triple_syscall.
    - intros d ->. do 2 right. by left.
    - intros d ->. do 2 right. by left.
    - intros d ->. unfold stat, parent_ok, stat. cbn.
      rewrite with_stage_other by (by eapply present_not_staged). rewrite Htgt.
      rewrite Hpl, parent_app. unfold with_stage at 1. rewrite lookup_insert_eq. cbn [negb].
      rewrite bool_decide_eq_false_2; [by rewrite <-Hpl|].
      unfold with_stage. rewrite lookup_insert_ne by (intros E; symmetry in E; by apply snoc_neq in E).
      rewrite none_below_stage. by intros []. }
  intros ?. eapply triple_bind with (R := λ _ d, d = mkDisk with_stage
    [OpMove target (payload staged) [stage_dir staged]]).
  { apply triple_map_throw. eapply triple_conseq; [apply fsync_dir_triple with
      (F := λ d, d = mkDisk with_stage [OpMove target (payload staged) [parent target; stage_dir staged]])
      (G := λ d, d = mkDisk with_stage [OpMove target (payload staged) [stage_dir staged]])|..].
    - intros d ->. unfold fsync_disk. cbn. rewrite bool_decide_eq_true_2 by done. cbn.
      by rewrite bool_decide_eq_false_2 by done.
    - done.
    - done.
    - intros d ->. do 3 right. by eexists.
    - intros d ->. do 3 right. by eexists. }
  intros ?. apply triple_map_throw. eapply triple_conseq; [apply fsync_dir_triple with
      (F := λ d, d = mkDisk with_stage [OpMove target (payload staged) [stage_dir staged]])
      (G := λ d, d = mkDisk moved [])|..].
  - intros d ->. unfold fsync_disk. cbn. by rewrite bool_decide_eq_true_2 by done.
  - done.
  - done.
  - intros d ->. do 3 right. by eexists.
  - intros d ->. do 3 right. by eexists.
Qed.

Lemma moved_settled : all_settled m → all_settled moved.
Proof.
  intros Hset q. destruct (below (payload staged) q) eqn:Hb.
  - apply below_true in Hb as [k ->]. by rewrite (proj1 moved_spec).
  - destruct (below target q) eqn:Ht.
    + apply below_true in Ht as [k ->]. by rewrite (proj1 (proj2 moved_spec)).
    + unfold moved. rewrite move_tree_untouched by done. unfold with_stage.
      destruct (decide (q = stage_dir staged)) as [->|Hq];
        [by rewrite lookup_insert_eq|by rewrite lookup_insert_ne].
Qed.

Lemma staging_disk_images d img :
  all_settled m → staging_disk d → crash_image d img →
  (∀ q, q ≠ stage_dir staged → img !! q = m !! q) ∨ img = moved.
Proof.
  intros Hset Hd Hi.
  assert (Hs1 : all_settled with_stage).
  { intros q. unfold with_stage. destruct (decide (q = stage_dir staged)) as [->|Hq];
      [by rewrite lookup_insert_eq|by rewrite lookup_insert_ne]. }
  pose proof (moved_settled Hset) as Hs2.
  assert (Hsame : ∀ q, q ≠ stage_dir staged → with_stage !! q = m !! q).
  { intros q Hq. by apply lookup_insert_ne. }
  destruct Hd as [->|[->|[->|[un ->]]]].
  - apply crash_none in Hi as ->; [by left|done].
  - apply crash_one in Hi as [->| ->]; [by left|by left|done..].
  - apply crash_none in Hi as ->; [by left|done].
  - apply crash_one in Hi as [->| ->]; [by left|by right|done..].
Qed.
End Stage.

(** ** Properties *)

(** C39: An interrupted staged delete always converges.  Kill the drain-and-
    finalize worker before any system call, or fail any of them; run it again
    undisturbed: it terminates within one drain of 256 entries per 256 entries
    of the tree, the payload, its stage directory and its tombstone are gone,
    and every other path of the tree is untouched. *)
Theorem staged_delete_converges (staged : StagedDelete) (w : World) (fuel1 fuel2 : nat)
    (Hnm : no_moves (disk w)) (Hst : staged_tree staged (visible (disk w)))
    (Hfuel : size (visible (disk w)) < fuel2 * DEFAULT_DELETE_BATCH_ENTRIES) :
  let '(w1, _) := drain_to_completion staged None fuel1 w in
  let '(w2, r) := drain_to_completion staged None fuel2 (mkWorld (disk w1) None []) in
  r = Ret (Some Deleted) ∧
  ∀ q, visible (disk w2) !! q =
    if below (stage_dir staged) q || bool_decide (q = tombstone staged) then None
    else visible (disk w) !! q.
Proof.
  pose proof (drain_to_completion_spec staged fuel1 _ w Hst (conj Hnm eq_refl)) as H.
  destruct (drain_to_completion staged None fuel1 w) as [w1 r1].
  assert (H1 : on_tree (tail_step staged (visible (disk w))) (disk w1)) by (destruct r1; naive_solver).
  clear H. destruct H1 as [Hn1 H1].
  pose proof (drain_to_completion_spec staged fuel2 _ (mkWorld (disk w1) None []) (proj1 H1) (conj Hn1 eq_refl)) as H.
  assert (Hq : quiet (mkWorld (disk w1) None [])) by done.
  destruct (drain_to_completion staged None fuel2 _) as [w2 [o|e|]]; [|done|by destruct H].
  destruct H as [[Hn2 H2] H3]. destruct H3 as [-> [Hg Ht]]; [done| |].
  { destruct H1 as (_ & _ & Hsub). apply map_subseteq_size in Hsub. cbn [disk]. lia. }
  split; [done|]. intros q.
  destruct (below (stage_dir staged) q) eqn:Hb; cbn [orb]; [by apply Hg|].
  case_bool_decide as Hqt; [by subst|].
  destruct H1 as (_ & Ho1 & _), H2 as (_ & Ho2 & _). by rewrite Ho2, Ho1.
Qed.

Definition wf_treeb (m : fs) : bool :=
  forallb (λ x, match fst x with [] => true | q => bool_decide (m !! parent q = Some Dir) end) (map_to_list m).

Lemma wf_treeb_ok m : wf_treeb m = true → wf_tree m.
Proof.
  unfold wf_treeb. rewrite forallb_forall. intros H q [n Hn] Hq.
  specialize (H (q, n)). destruct q as [|x q]; [done|]. cbn [fst] in H.
  apply (proj1 (bool_decide_eq_true _)), H, list_elem_of_In, elem_of_map_to_list, Hn.
Qed.

(** A staged subtree of three entries, its drain failing half way. *)
Definition sd_staged : StagedDelete :=
  mkStagedDelete ["t"; "d.json"] ["t"; "d"] ["t"; "d"; "payload"].
Definition sd_tree : fs := list_to_map
  [([], Dir); (["t"], Dir); (["t"; "d.json"], File [] true); (["t"; "d"], Dir);
   (["t"; "d"; "payload"], Dir); (["t"; "d"; "payload"; "a"], File [] true);
   (["t"; "d"; "payload"; "b"], Dir); (["t"; "d"; "payload"; "b"; "c"], Symlink "x");
   (["keep"], File [] true)]%string.
Definition sd_world : World := mkWorld (mkDisk sd_tree []) (Some 9) [false; false; false; false; false; true].

Lemma sd_staged_tree : staged_tree sd_staged sd_tree.
Proof.
  split.
  - apply wf_treeb_ok. vm_compute. reflexivity.
  - exists ["t"%string], "d"%string, "d.json"%string. by split_and!.
  - vm_compute. reflexivity.
  - right. vm_compute. reflexivity.
  - intros E. vm_compute in E. discriminate.
  - intros name Hn%children_spec.
    assert (E : children (stage_dir sd_staged) sd_tree = ["payload"%string]) by (vm_compute; reflexivity).
    rewrite E in Hn. by apply list_elem_of_singleton in Hn.
Qed.

Lemma staged_delete_converges_witness :
  let '(w1, r1) := drain_to_completion sd_staged None 1 sd_world in
  r1 = Ret (Some (DrainFailed (FE_Io "t/d/payload/b/c" IoOther))) ∧
  let '(w2, r) := drain_to_completion sd_staged None 1 (mkWorld (disk w1) None []) in
  r = Ret (Some Deleted) ∧ visible (disk w2) !! ["keep"%string] = Some (File [] true).
Proof.
  pose proof (staged_delete_converges sd_staged sd_world 1 1) as H.
  assert (Hr : snd (drain_to_completion sd_staged None 1 sd_world) =
    Ret (Some (DrainFailed (FE_Io "t/d/payload/b/c" IoOther)))) by (vm_compute; reflexivity).
  destruct (drain_to_completion sd_staged None 1 sd_world) as [w1 r1]. split; [exact Hr|].
  specialize (H ltac:(constructor) sd_staged_tree ltac:(vm_compute; lia)).
  destruct (drain_to_completion sd_staged None 1 (mkWorld (disk w1) None [])) as [w2 r].
  destruct H as [-> H]. split; [done|]. rewrite H. vm_compute. reflexivity.
Defined.

(** Staging a subtree delete is atomic and durable.  Wherever the power loss
    or an error cuts [stage_payload], after a crash either the whole subtree is
    still in place and nothing else has changed but the (empty) stage directory,
    or all of it is under the payload name, none of it under its old name, the
    stage directory is there to hold it and no other path has changed; once the
    call has returned it is always the latter. *)
Theorem stage_payload_atomic (m : fs) (dir : path) (a : string) (target : path) (staged : StagedDelete)
    (w : World) (Hw : disk w = mkDisk m [])
    (Hsd : stage_dir staged = dir ++ [a])
    (Hpl : payload staged = stage_dir staged ++ [STAGED_PAYLOAD_NAME])
    (Hwf : wf_tree m) (Hset : all_settled m) (Hdir : m !! dir = Some Dir)
    (Hnew : m !! stage_dir staged = None)
    (Htgt : m !! target = Some Dir) (Hroot : target ≠ [])
    (Hapart : below target (stage_dir staged) = false) :
  let '(w', r) := stage_payload target staged w in
  ∀ img, crash_image (disk w') img →
    ((∀ q, q ≠ stage_dir staged → img !! q = m !! q) ∧ r ≠ Ret tt) ∨
    ((∀ k, img !! (payload staged ++ k) = m !! (target ++ k)) ∧
     (∀ k, img !! (target ++ k) = None) ∧
     img !! stage_dir staged = Some Dir ∧
     (∀ q, below target q = false → below (stage_dir staged) q = false → img !! q = m !! q)).
Proof.
  pose proof (stage_payload_triple m dir a target staged Hsd Hpl Hwf Hdir Hnew Htgt Hroot Hapart w Hw) as H.
  pose proof (moved_spec m target staged Hpl Hwf Hnew Htgt Hapart) as Hmoved.
  pose proof (λ d img, staging_disk_images m target staged Hpl Hwf Hnew Htgt Hapart d img Hset) as Himg.
  destruct (stage_payload target staged w) as [w' [[]|e|]]; intros img Hi.
  - right. rewrite H in Hi. apply crash_none in Hi as ->; [exact Hmoved|].
    by apply moved_settled.
  - destruct (Himg _ _ H Hi) as [Hm| ->]; [by left|by right].
  - destruct (Himg _ _ H Hi) as [Hm| ->]; [by left|by right].
Qed.

(** A dataset class staged. *)
Definition sp_tree : fs := list_to_map
  [([], Dir); (["t"], Dir); (["data"], Dir); (["data"; "cat"], Dir);
   (["data"; "cat"; "x.wav"], File [] true)]%string.

Lemma sp_settled : all_settled sp_tree.
Proof.
  intros q. destruct (sp_tree !! q) as [n|] eqn:E; [|done].
  apply elem_of_list_to_map_2 in E. repeat (apply elem_of_cons in E as [[= -> ->]|E]; [done|]). by apply elem_of_nil in E.
Qed.

Lemma stage_payload_atomic_witness :
  let '(w', r) := stage_payload ["data"; "cat"]%string sd_staged (mkWorld (mkDisk sp_tree []) None []) in
  r = Ret tt ∧ ∀ img, crash_image (disk w') img →
    img !! ["t"; "d"; "payload"; "x.wav"]%string = Some (File [] true) ∧
    img !! ["data"; "cat"; "x.wav"]%string = None.
Proof.
  pose proof (stage_payload_atomic sp_tree ["t"%string] "d" ["data"; "cat"]%string sd_staged
    (mkWorld (mkDisk sp_tree []) None []) eq_refl eq_refl eq_refl) as H.
  specialize (H ltac:(apply wf_treeb_ok; vm_compute; reflexivity) sp_settled eq_refl eq_refl eq_refl
    ltac:(done) eq_refl).
  assert (Hr : snd (stage_payload ["data"; "cat"]%string sd_staged (mkWorld (mkDisk sp_tree []) None [])) = Ret tt)
    by (vm_compute; reflexivity).
  destruct (stage_payload _ _ _) as [w' r]. cbn in Hr. subst r. split; [done|]. intros img Hi.
  destruct (H img Hi) as [[_ Hf]|(H1 & H2 & _)]; [by destruct Hf|].
  split; [exact (H1 ["x.wav"%string])|exact (H2 ["x.wav"%string])].
Defined.
