(* ===== verification/FsRun.v ===== *)
(** * Undisturbed runs

    Without power loss or I/O faults a program is a function of the tree it
    sees.  [evals m c r m']: started on the tree [m], [c] ends with [r] on the
    tree [m'].  The rules compute a run call by call; they give the exact effect
    of [remove_dir_all] and of [put_atomic]. *)

From S2P Require Import Prelude Ids Common Workspace FileSystem FsLogic FsAtomic Schema Staging StagingFacts.

Definition calm (d : Disk) : World := mkWorld d None [].

Definition to_outcome {E A : Type} (r : result E A) : outcome E A :=
  match r with Ok a => Ret a | Err e => Throw e end.

Definition evals {E A : Type} (m : fs) (c : M E A) (r : result E A) (m' : fs) : Prop :=
  ∀ d, on_tree (eq m) d → ∃ d', c (calm d) = (calm d', to_outcome r) ∧ on_tree (eq m') d'.

Lemma evals_ret {E A : Type} (m : fs) (a : A) : evals m (mret a : M E A) (Ok a) m.
Proof. intros d Hd. by exists d. Qed.

Lemma evals_throw {E A : Type} (m : fs) (e : E) : evals m (throw e : M E A) (Err e) m.
Proof. intros d Hd. by exists d. Qed.

Lemma evals_bind {E A B : Type} (m m1 m2 : fs) (c : M E A) (f : A → M E B) a r :
  evals m c (Ok a) m1 → evals m1 (f a) r m2 → evals m (c ≫= f) r m2.
Proof.
  intros Hc Hf d Hd. destruct (Hc d Hd) as (d1 & E1 & H1). destruct (Hf d1 H1) as (d2 & E2 & H2).
  exists d2. split; [|done]. unfold mbind, M_bind. by rewrite E1.
Qed.

Lemma evals_bind_err {E A B : Type} (m m1 : fs) (c : M E A) (f : A → M E B) e :
  evals m c (Err e) m1 → evals m (c ≫= f) (Err e) m1.
Proof.
  intros Hc d Hd. destruct (Hc d Hd) as (d1 & E1 & H1). exists d1. split; [|done].
  unfold mbind, M_bind. by rewrite E1.
Qed.

Lemma evals_map_throw {E F A : Type} (m m' : fs) (f : E → F) (c : M E A) r :
  evals m c r m' → evals m (map_throw f c) (map_err f r) m'.
Proof.
  intros Hc d Hd. destruct (Hc d Hd) as (d1 & E1 & H1). exists d1. split; [|done].
  unfold map_throw. rewrite E1. by destruct r.
Qed.

Lemma evals_attempt {E F A : Type} (m m' : fs) (c : M E A) r :
  evals m c r m' → evals m (attempt c : M F _) (Ok r) m'.
Proof.
  intros Hc d Hd. destruct (Hc d Hd) as (d1 & E1 & H1). exists d1. split; [|done].
  unfold attempt. rewrite E1. by destruct r.
Qed.

Lemma evals_best_effort {E F : Type} (m m' : fs) (c : M E unit) r :
  evals m c r m' → evals m (best_effort c : M F unit) (Ok tt) m'.
Proof. intros H. eapply evals_bind; [by apply evals_attempt|apply evals_ret]. Qed.

Lemma evals_on_throw {E A : Type} (m m' : fs) (cl : M E unit) (c : M E A) a :
  evals m c (Ok a) m' → evals m (on_throw cl c) (Ok a) m'.
Proof.
  intros Hc d Hd. destruct (Hc d Hd) as (d1 & E1 & H1). exists d1. split; [|done].
  unfold on_throw. by rewrite E1.
Qed.

Lemma evals_if_found {A : Type} (m m' : fs) (c : M IoKind A) r :
  evals m c r m' → (∀ e, r = Err e → e = IoNotFound) →
  evals m (if_found c) (Ok (match r with Ok a => Some a | Err _ => None end)) m'.
Proof.
  intros Hc Hr d Hd. destruct (Hc d Hd) as (d1 & E1 & H1). exists d1. split; [|done].
  unfold if_found. rewrite E1. destruct r as [a|e]; [done|]. by rewrite (Hr e eq_refl).
Qed.

(** A program that looks at the tree before it runs. *)
Lemma evals_look {E A : Type} (m m' : fs) (f : fs → M E A) r :
  evals m (f m) r m' → evals m (λ w, f (visible (disk w)) w) r m'.
Proof. intros H d Hd. destruct (H d Hd) as (d' & E1 & H1). exists d'. split; [|done]. cbn. by rewrite <-(proj2 Hd). Qed.

(** From a total triple. *)
Lemma evals_of_sure {E A : Type} (m : fs) (c : M E A) (Q : A → fs → Prop) X :
  sure (on_tree (eq m)) c (λ a, on_tree (Q a)) X →
  ∀ d, on_tree (eq m) d → ∃ a d', c (calm d) = (calm d', Ret a) ∧ on_tree (Q a) d'.
Proof.
  intros H d Hd. specialize (H (calm d) Hd). destruct (c (calm d)) as [[d' b f] [a|e|]]; [|by destruct H as [_ []]..].
  destruct H as [H1 H2]. destruct (H2 ltac:(done)) as [Hb Hf]. cbn in *. subst. by exists a, d'.
Qed.

Lemma evals_sure {E A : Type} (m m' : fs) (c : M E A) (Q : A → fs → Prop) a X :
  sure (on_tree (eq m)) c (λ a, on_tree (Q a)) X → (∀ a' m'', Q a' m'' → a' = a ∧ m'' = m') →
  evals m c (Ok a) m'.
Proof.
  intros H HQ d Hd. destruct (evals_of_sure m c Q X H d Hd) as (a' & d' & E1 & [Hn HQ']).
  destruct (HQ _ _ HQ') as [-> Hv]. by exists d'.
Qed.

(** ** The system calls *)

Lemma evals_read_call {A : Type} (m : fs) (f : Disk → result IoKind A) r :
  (∀ d, visible d = m → f d = r) → evals m (syscall (λ d, (d, f d))) r m.
Proof.
  intros H d Hd. exists d. split; [|done]. unfold syscall. cbn. rewrite (H d) by (by rewrite <-(proj2 Hd)).
  by destruct r.
Qed.

(** A call that adds [os] to the pending changes. *)
Lemma evals_call (m m' : fs) (f : Disk → Disk * result IoKind unit) (g : Disk → Disk) :
  (∀ d, visible d = m → f d = (g d, Ok tt)) →
  (∀ d, on_tree (eq m) d → on_tree (eq m') (g d)) → evals m (syscall f) (Ok tt) m'.
Proof.
  intros H Hg d Hd. exists (g d). split; [|by apply Hg]. unfold syscall. cbn.
  by rewrite (H d) by (by rewrite <-(proj2 Hd)).
Qed.

Lemma evals_metadata m p :
  evals m (symlink_metadata p) (match m !! p with Some n => Ok n | None => Err IoNotFound end) m.
Proof. apply evals_read_call. intros d Hd. unfold stat. by rewrite Hd. Qed.

Lemma evals_read m p :
  evals m (fs_read p) (match m !! p with
                       | Some (File c _) => Ok c | None => Err IoNotFound | _ => Err IoOther end) m.
Proof. apply evals_read_call. intros d Hd. unfold stat. by rewrite Hd. Qed.

Lemma evals_read_dir m p :
  evals m (fs_read_dir p) (match m !! p with
                           | Some Dir => Ok (children p m) | None => Err IoNotFound | _ => Err IoOther end) m.
Proof. apply evals_read_call. intros d Hd. unfold stat. by rewrite Hd. Qed.

Lemma evals_exists {E : Type} m p : evals m (path_exists p : M E bool) (Ok (bool_decide (is_Some (m !! p)))) m.
Proof. intros d Hd. exists d. split; [|done]. unfold path_exists, stat. cbn. by rewrite <-(proj2 Hd). Qed.

Lemma evals_is_dir {E : Type} m p :
  evals m (path_is_dir p : M E bool) (Ok (match m !! p with Some Dir => true | _ => false end)) m.
Proof. intros d Hd. exists d. split; [|done]. unfold path_is_dir, stat. cbn. by rewrite <-(proj2 Hd). Qed.

Lemma evals_remove_file m p n :
  m !! p = Some n → n ≠ Dir → evals m (fs_remove_file p) (Ok tt) (delete p m).
Proof.
  intros Hp Hn. eapply evals_call with (g := add_op (OpDel p)).
  - intros d Hd. unfold stat. rewrite Hd, Hp. by destruct n.
  - intros d. apply on_tree_add; [done|]. by intros ->.
Qed.

Lemma evals_remove_dir m p :
  m !! p = Some Dir → children p m = [] → evals m (fs_remove_dir p) (Ok tt) (delete p m).
Proof.
  intros Hp Hc. eapply evals_call with (g := add_op (OpDel p)).
  - intros d Hd. unfold stat. by rewrite Hd, Hp, Hc.
  - intros d. apply on_tree_add; [done|]. by intros ->.
Qed.

Lemma on_tree_fsync p m d : on_tree (eq m) d → on_tree (eq m) (fsync_disk p d).
Proof.
  intros [Hm Hv]. split; [by apply no_moves_fsync|]. rewrite Hv. symmetry. apply map_eq.
  intros q. by apply visible_fsync.
Qed.

Lemma evals_fsync m p :
  evals m (fsync_dir p) (match m !! p with Some Dir => Ok tt | None => Err IoNotFound | _ => Err IoOther end) m.
Proof.
  intros d Hd. unfold fsync_dir, syscall, stat. cbn. rewrite <-(proj2 Hd).
  destruct (m !! p) as [[| |]|]; eexists; (split; [reflexivity|]); try done. by apply on_tree_fsync.
Qed.

Lemma evals_mkdir_there m p : m !! p = Some Dir → evals m (mkdir_one p) (Ok tt) m.
Proof. intros Hp. eapply evals_call with (g := λ d, d); [|done]. intros d Hd. unfold stat. by rewrite Hd, Hp. Qed.

Lemma evals_mkdir_new m p :
  m !! p = None → m !! parent p = Some Dir → evals m (mkdir_one p) (Ok tt) (<[p := Dir]> m).
Proof.
  intros Hp Hpar. eapply evals_call with (g := add_op (OpSet p Dir)).
  - intros d Hd. unfold parent_ok, stat. by rewrite Hd, Hp, Hpar.
  - intros d. apply on_tree_add; [done|]. by intros ->.
Qed.

Lemma evals_create m p :
  m !! p = None → m !! parent p = Some Dir → evals m (create_file p) (Ok tt) (<[p := File [] false]> m).
Proof.
  intros Hp Hpar. eapply evals_call with (g := add_op (OpSet p (File [] false))).
  - intros d Hd. unfold parent_ok, stat. by rewrite Hd, Hp, Hpar.
  - intros d. apply on_tree_add; [done|]. by intros ->.
Qed.

Lemma evals_write m p c b c' :
  m !! p = Some (File c b) → evals m (write_file p c') (Ok tt) (<[p := File (c ++ c') false]> m).
Proof.
  intros Hp. eapply evals_call with (g := add_op (OpSet p (File (c ++ c') false))).
  - intros d Hd. unfold stat. by rewrite Hd, Hp.
  - intros d. apply on_tree_add; [done|]. by intros ->.
Qed.

Lemma evals_sync m p c b :
  m !! p = Some (File c b) → evals m (sync_file p) (Ok tt) (<[p := File c true]> m).
Proof.
  intros Hp. eapply evals_call with (g := sync_file_disk p c).
  - intros d Hd. unfold stat. by rewrite Hd, Hp.
  - intros d [Hn ->]. split; [by apply no_moves_sync|]. apply map_eq. intros q.
    rewrite visible_sync by done. case_bool_decide as E.
    + subst. by rewrite lookup_insert_eq, Hp.
    + by rewrite lookup_insert_ne.
Qed.

Lemma evals_rename_file m src dst c b :
  src ≠ dst → m !! src = Some (File c b) → m !! parent dst = Some Dir → m !! dst ≠ Some Dir →
  evals m (fs_rename src dst) (Ok tt) (delete src (<[dst := File c b]> m)).
Proof.
  intros Hne Hs Hpar Hd. eapply evals_call with (g := λ d, add_op (OpDel src) (add_op (OpSet dst (File c b)) d)).
  - intros d Hv. unfold parent_ok, stat. rewrite Hv, Hs, Hpar. cbn [negb].
    by destruct (m !! dst) as [[| |]|].
  - intros d H. eapply on_tree_add; [done| |eapply (on_tree_add (eq m) (eq (<[dst := File c b]> m))); [done| |exact H]];
      cbn; by intros <-.
Qed.

(** ** Removing subtrees *)

(** [m] without the subtrees at the paths of [S]. *)
Definition without (S : list path) (m : fs) : fs :=
  filter (λ x, existsb (λ p, below p (fst x)) S = false) m.

Lemma lookup_without S m q :
  without S m !! q = if existsb (λ p, below p q) S then None else m !! q.
Proof.
  unfold without. rewrite map_lookup_filter. destruct (m !! q) as [n|]; cbn; [|by destruct (existsb _ _)].
  by destruct (existsb _ _).
Qed.

Lemma without_app S T m : without T (without S m) = without (S ++ T) m.
Proof.
  apply map_eq. intros q. rewrite !lookup_without, existsb_app.
  by destruct (existsb _ S), (existsb _ T).
Qed.

Lemma without_nil m : without [] m = m.
Proof. apply map_eq. intros q. by rewrite lookup_without. Qed.

Lemma without_ext S T m :
  (∀ q, is_Some (m !! q) → existsb (λ p, below p q) S = existsb (λ p, below p q) T) →
  without S m = without T m.
Proof.
  intros H. apply map_eq. intros q. rewrite !lookup_without.
  destruct (m !! q) as [n|] eqn:E; [|by destruct (existsb _ _), (existsb _ _)]. by rewrite H.
Qed.

Lemma existsb_below S q : existsb (λ p, below p q) S = true ↔ ∃ p, p ∈ S ∧ below p q = true.
Proof.
  rewrite existsb_exists. split; intros (p & H1 & H2); exists p; (split; [|done]); by apply list_elem_of_In.
Qed.

Lemma below_parent p q : p ≠ q → below p q = true → below p (parent q) = true.
Proof.
  intros Hne [k ->]%below_true. destruct k as [|x k _] using rev_ind; [by rewrite app_nil_r in Hne|].
  rewrite app_assoc, parent_app. apply below_app.
Qed.

Lemma below_up p q : below p (parent q) = true → below p q = true.
Proof.
  intros [k Hk]%below_true. destruct (decide (q = [])) as [->|Hq].
  - destruct p; [|discriminate Hk]. done.
  - destruct (path_snoc q Hq) as [x Hx]. rewrite Hx, Hk, <-app_assoc. apply below_app.
Qed.

Lemma without_wf S m : wf_tree m → wf_tree (without S m).
Proof.
  intros Hwf q [n Hn] Hq. rewrite lookup_without in *.
  destruct (existsb (λ p, below p q) S) eqn:E; [done|].
  destruct (existsb (λ p, below p (parent q)) S) eqn:E'; [|by apply Hwf].
  apply existsb_below in E' as (p & Hp & Hb%below_up).
  rewrite (proj2 (existsb_below S q)) in E; [done|]. by exists p.
Qed.

Lemma without_sub S m : without S m ⊆ m.
Proof. apply map_filter_subseteq. Qed.

(** Deleting an entry with nothing below. *)
Lemma delete_without m p : (∀ k, k ≠ [] → m !! (p ++ k) = None) → delete p m = without [p] m.
Proof.
  intros H. apply map_eq. intros q. rewrite lookup_without. cbn. rewrite orb_false_r.
  destruct (below p q) eqn:E.
  - apply below_true in E as [k ->]. destruct k as [|x k]; [rewrite app_nil_r; apply lookup_delete_eq|].
    rewrite lookup_delete_ne; [by apply H|].
    intros E. apply (f_equal (@List.length _)) in E. rewrite length_app in E. cbn in E. lia.
  - apply lookup_delete_ne. intros <-. by rewrite (proj2 (below_true p p)) in E.
Qed.

Lemma nothing_below m p n : wf_tree m → m !! p = Some n → n ≠ Dir → ∀ k, k ≠ [] → m !! (p ++ k) = None.
Proof.
  intros Hwf Hp Hn k Hk. apply eq_None_not_Some. intros Hs.
  destruct (below_trans m p k Hwf Hs Hk) as [Hd _]. congruence.
Qed.

Lemma delete_file_without m p n : wf_tree m → m !! p = Some n → n ≠ Dir → delete p m = without [p] m.
Proof. intros Hwf Hp Hn. apply delete_without. by apply (nothing_below m p n). Qed.

Lemma not_below_sibling (dir : path) (x y : string) k : x ≠ y → below (dir ++ [x]) (dir ++ y :: k) = false.
Proof.
  intros Hne. apply not_true_iff_false. intros [k' E]%below_true. rewrite <-app_assoc in E.
  apply app_inv_head in E. cbn in E. congruence.
Qed.

Lemma low_without S h m : low h m → low h (without S m).
Proof. apply low_sub, without_sub. Qed.

Section RemoveEach.
Variables (h : nat) (recurse : path → M IoKind unit) (dir : path).
Hypothesis Hrec : ∀ name m, wf_tree m → low h m → m !! (dir ++ [name]) = Some Dir →
  evals m (recurse (dir ++ [name])) (Ok tt) (without [dir ++ [name]] m).

Lemma evals_remove_each l m :
  wf_tree m → low h m → NoDup l → (∀ name, name ∈ l → is_Some (m !! (dir ++ [name]))) →
  evals m (remove_each recurse dir l) (Ok tt) (without (map (λ x, dir ++ [x]) l) m).
Proof.
  revert m. induction l as [|name l IH]; intros m Hwf Hlow Hnd Hl; cbn [remove_each map].
  { rewrite without_nil. apply evals_ret. }
  destruct (Hl name) as [n Hn]; [left|].
  assert (Hgo : evals m (match n with Dir => recurse (dir ++ [name]) | _ => fs_remove_file (dir ++ [name]) end)
    (Ok tt) (without [dir ++ [name]] m)).
  { destruct (decide (n = Dir)) as [->|Hne]; [by apply Hrec|].
    rewrite <-(delete_file_without m _ n) by done.
    pose proof (evals_remove_file m _ n Hn Hne) as H. by destruct n. }
  pose proof (evals_metadata m (dir ++ [name])) as Hmd. rewrite Hn in Hmd.
  eapply evals_bind; [exact Hmd|]. eapply evals_bind; [exact Hgo|].
  change ((dir ++ [name]) :: map (λ x, dir ++ [x]) l) with ([dir ++ [name]] ++ map (λ x, dir ++ [x]) l).
  rewrite <-without_app. apply IH.
  - by apply without_wf.
  - by apply low_without.
  - by apply NoDup_cons_1_2 in Hnd.
  - intros y Hy. apply NoDup_cons_1_1 in Hnd. rewrite lookup_without. cbn.
    rewrite not_below_sibling by (by intros ->). by apply Hl; right.
Qed.
End RemoveEach.

Lemma evals_remove_tree h fuel p m :
  wf_tree m → low h m → h ≤ List.length p + fuel → m !! p = Some Dir →
  evals m (remove_tree fuel p) (Ok tt) (without [p] m).
Proof.
  revert p m. induction fuel as [|fuel IH]; intros p m Hwf Hlow Hf Hp.
  { specialize (Hlow p (mk_is_Some _ _ Hp)). lia. }
  cbn [remove_tree]. pose proof (evals_read_dir m p) as Hrd. rewrite Hp in Hrd.
  eapply evals_bind; [exact Hrd|].
  set (S := map (λ x, p ++ [x]) (children p m)).
  assert (HS : ∀ q, existsb (λ r, below r q) S = true → strictly_below p q = true).
  { intros q (r & Hr & Hb)%existsb_below. apply list_elem_of_fmap in Hr as (x & -> & _).
    apply below_true in Hb as [k ->]. apply strictly_below_spec. exists (x :: k). by rewrite <-app_assoc. }
  assert (Hnb : existsb (λ r, below r p) S = false).
  { apply not_true_iff_false. intros H%HS. by rewrite strictly_below_irrefl in H. }
  eapply evals_bind.
  { apply (evals_remove_each h); [|done|done|apply children_nodup|by intros name; rewrite children_spec].
    intros name m' Hwf' Hlow' Hn. apply IH; try done. rewrite length_app. cbn. lia. }
  fold S. assert (Hp' : without S m !! p = Some Dir) by (by rewrite lookup_without, Hnb).
  assert (Hno : ∀ k, k ≠ [] → without S m !! (p ++ k) = None).
  { intros k Hk. rewrite lookup_without. destruct (existsb (λ r, below r (p ++ k)) S) eqn:E; [done|].
    apply eq_None_not_Some. intros Hs. apply not_true_iff_false in E. apply E, existsb_below.
    destruct k as [|x k]; [done|]. exists (p ++ [x]).
    assert (Hx : is_Some (m !! (p ++ [x]))).
    { destruct k as [|y k]; [done|].
      exists Dir. apply (below_trans m (p ++ [x]) (y :: k) Hwf); [|done]. by rewrite <-app_assoc. }
    split; [apply list_elem_of_fmap; exists x; split; [done|]; by apply children_spec|].
    apply below_true. exists k. by rewrite <-app_assoc. }
  replace (without [p] m) with (delete p (without S m)).
  - apply evals_remove_dir; [done|]. apply no_children. intros y. by apply Hno.
  - rewrite (delete_without _ _ Hno), without_app. apply without_ext. intros q _. rewrite existsb_app. cbn.
    rewrite orb_false_r. destruct (existsb (λ r, below r q) S) eqn:E; [|done]. apply HS in E.
    apply strictly_below_spec in E as (k & _ & ->). by rewrite below_app.
Qed.

(** [remove_dir_all] removes the whole subtree and nothing else. *)
Lemma evals_remove_dir_all m p :
  wf_tree m → m !! p = Some Dir → evals m (fs_remove_dir_all p) (Ok tt) (without [p] m).
Proof.
  intros Hwf Hp. unfold fs_remove_dir_all.
  apply (evals_look m _ (λ v, n ← symlink_metadata p;
    match n with Symlink _ => fs_remove_file p | _ => remove_tree (height v) p end)).
  pose proof (evals_metadata m p) as Hmd. rewrite Hp in Hmd. eapply evals_bind; [exact Hmd|].
  apply (evals_remove_tree (height m)); [done|apply low_height|lia|done].
Qed.

(** ** Replacing a file, reading and writing metadata *)

Lemma evals_create_dir_there m (p : path) :
  (∀ q, q ≠ [] → q `prefix_of` p → m !! q = Some Dir) → evals m (create_dir_all p) (Ok tt) m.
Proof.
  unfold create_dir_all. intros H.
  assert (Hgo : ∀ rest dn, (∀ q, q ≠ [] → q `prefix_of` dn ++ rest → m !! q = Some Dir) →
    evals m (mkdir_prefixes dn rest) (Ok tt) m); [|by apply Hgo].
  induction rest as [|c rest IH]; intros dn Hdn; cbn [mkdir_prefixes]; [apply evals_ret|].
  eapply evals_bind.
  - apply evals_mkdir_there, Hdn; [by destruct dn|]. exists rest. by rewrite <-app_assoc.
  - apply IH. by rewrite <-app_assoc.
Qed.

Lemma wf_insert m p n : wf_tree m → p ≠ [] → m !! parent p = Some Dir → n = Dir ∨ m !! p ≠ Some Dir →
  wf_tree (<[p := n]> m).
Proof.
  intros Hwf Hne Hpar Hn q Hq Hq0. destruct (decide (q = p)) as [->|Hqp].
  - rewrite lookup_insert_ne; [done|]. intros E. destruct (path_snoc p Hne) as [x Hx].
    rewrite <-E in Hx. symmetry in Hx. by apply snoc_neq in Hx.
  - rewrite lookup_insert_ne in Hq by done. specialize (Hwf q Hq Hq0).
    destruct (decide (parent q = p)) as [<-|Hne']; [|by rewrite lookup_insert_ne].
    rewrite lookup_insert_eq. destruct Hn as [->|Hn]; [done|]. congruence.
Qed.

Section Metadata.
Context `{TL : TempLaws}.

Lemma evals_put_atomic m (final : path) bytes :
  final ≠ [] → not_temp final → m !! parent final = Some Dir → m !! final ≠ Some Dir →
  evals m (put_atomic final bytes) (Ok tt) (<[final := File bytes true]> m).
Proof.
  intros Hne Hnt Hpar Hfin. destruct (path_snoc final Hne) as [fname Hf].
  unfold put_atomic. rewrite decide_False by done.
  set (tmp := parent final ++ [temp_name m (parent final)]).
  assert (Hfresh : m !! tmp = None) by apply temp_fresh.
  assert (Htf : tmp ≠ final).
  { intros E. rewrite <-E in Hnt. pose proof (Hnt _ _ eq_refl) as Hp. by rewrite temp_prefixed in Hp. }
  assert (Hpp : parent tmp = parent final) by apply parent_app.
  assert (Hpt : tmp ≠ parent final) by (intros E; by rewrite E, Hpar in Hfresh).
  assert (Hpf : final ≠ parent final) by (intros E; rewrite <-E in Hf; symmetry in Hf; by apply snoc_neq in Hf).
  set (m1 := λ c b, <[tmp := File c b]> m).
  assert (Hm1 : ∀ c b, m1 c b !! tmp = Some (File c b)) by (intros; apply lookup_insert_eq).
  eapply evals_bind.
  { apply (evals_map_throw m (m1 [] false) (io_err (parent final)) (new_temp_in (parent final)) (Ok tmp)).
    apply (evals_look m _ (λ v, _ ← create_file (parent final ++ [temp_name v (parent final)]);
      mret (parent final ++ [temp_name v (parent final)]))).
    eapply evals_bind; [apply evals_create; [done|by rewrite parent_app]|apply evals_ret]. }
  eapply evals_bind.
  { apply (evals_on_throw _ (<[final := File bytes true]> m)). unfold fill_and_persist.
    eapply evals_bind; [apply (evals_map_throw _ (m1 bytes false) _ _ (Ok tt))|].
    { replace (m1 bytes false) with (<[tmp := File ([] ++ bytes) false]> (m1 [] false)) by apply insert_insert_eq.
      by apply (evals_write _ _ [] false). }
    eapply evals_bind; [apply (evals_map_throw _ (m1 bytes true) _ _ (Ok tt))|].
    { replace (m1 bytes true) with (<[tmp := File bytes true]> (m1 bytes false)) by apply insert_insert_eq.
      by apply (evals_sync _ _ bytes false). }
    apply (evals_map_throw _ _ _ _ (Ok tt)).
    replace (<[final := File bytes true]> m) with (delete tmp (<[final := File bytes true]> (m1 bytes true))).
    - apply (evals_rename_file _ tmp final bytes true); [done|done|..];
        unfold m1; rewrite lookup_insert_ne by done; done.
    - unfold m1. rewrite insert_insert_ne by done. rewrite delete_insert_eq.
      apply delete_id. by rewrite lookup_insert_ne. }
  assert (Hd : (<[final := File bytes true]> m) !! parent final = Some Dir) by (by rewrite lookup_insert_ne).
  pose proof (evals_fsync (<[final := File bytes true]> m) (parent final)) as Hs. rewrite Hd in Hs.
  by apply (evals_map_throw _ _ _ _ (Ok tt)).
Qed.

Lemma evals_parse {A} `{Json A} m p b (a : A) : from_slice b = Some a → evals m (parse p b) (Ok a) m.
Proof. intros H0. unfold parse. rewrite H0. apply evals_ret. Qed.

Lemma evals_serialize {A} `{Json A} m (a : A) b : to_vec a = Some b → evals m (serialize a) (Ok b) m.
Proof. intros H0. unfold serialize. rewrite H0. apply evals_ret. Qed.

Lemma evals_read_file m p c b : m !! p = Some (File c b) → evals m (read_file p) (Ok c) m.
Proof.
  intros Hp. apply (evals_map_throw _ _ _ _ (Ok c)). pose proof (evals_read m p) as H. by rewrite Hp in H.
Qed.

Lemma evals_read_missing m p : m !! p = None → evals m (read_file p) (Err (io_err p IoNotFound)) m.
Proof.
  intros Hp. apply (evals_map_throw _ _ _ _ (Err IoNotFound)). pose proof (evals_read m p) as H. by rewrite Hp in H.
Qed.

Context `{U : UuidLib} `{JC : !Json WorkspaceCore} `{JH : !Json HeadIndex} `{JM : !Json HeadManifest}.

Lemma evals_read_core m ws c b core :
  m !! workspace_core_path ws = Some (File c b) → (Z.of_nat (List.length c) ≤ MAX_WORKSPACE_CORE_BYTES)%Z →
  from_slice c = Some core → evals m (read_workspace_core ws) (Ok core) m.
Proof.
  intros Hp Hlen Hc. unfold read_workspace_core, read_capped.
  eapply evals_bind; [|by apply evals_parse].
  pose proof (evals_metadata m (workspace_core_path ws)) as Hmd. rewrite Hp in Hmd.
  eapply evals_bind; [by apply (evals_map_throw _ _ _ _ (Ok (File c b)))|]. cbv beta iota.
  destruct (Z.ltb_spec MAX_WORKSPACE_CORE_BYTES (Z.of_nat (List.length c))); [lia|].
  eapply evals_bind; [by eapply evals_read_file|].
  replace (take _ c) with c by (symmetry; apply take_ge; lia). apply evals_ret.
Qed.

Lemma evals_write_core m ws core b :
  m !! ws = Some Dir → m !! workspace_core_path ws ≠ Some Dir → to_vec core = Some b →
  (Z.of_nat (List.length b) ≤ MAX_WORKSPACE_CORE_BYTES)%Z →
  evals m (write_workspace_core ws core) (Ok tt) (<[workspace_core_path ws := File b true]> m).
Proof.
  intros Hd Hp Hb Hlen. unfold write_workspace_core. eapply evals_bind; [by apply evals_serialize|].
  destruct (Z.ltb_spec MAX_WORKSPACE_CORE_BYTES (Z.of_nat (List.length b))); [lia|].
  apply evals_put_atomic; [by destruct ws|by apply not_temp_snoc| |done].
  unfold workspace_core_path. by rewrite parent_app.
Qed.

Lemma evals_read_index m ws c b idx :
  m !! head_index_path ws = Some (File c b) → from_slice c = Some idx →
  List.length (heads idx) ≤ MAX_HEADS_PER_WORKSPACE → evals m (read_head_index ws) (Ok idx) m.
Proof.
  intros Hp Hc Hlen. unfold read_head_index. eapply evals_bind; [by eapply evals_read_file|].
  eapply evals_bind; [by apply evals_parse|].
  destruct (Nat.ltb_spec MAX_HEADS_PER_WORKSPACE (List.length (heads idx))); [lia|]. apply evals_ret.
Qed.

Lemma evals_write_index m ws idx b :
  m !! ws = Some Dir → m !! head_index_path ws ≠ Some Dir → to_vec idx = Some b →
  List.length (heads idx) ≤ MAX_HEADS_PER_WORKSPACE →
  evals m (write_head_index ws idx) (Ok tt) (<[head_index_path ws := File b true]> m).
Proof.
  intros Hd Hp Hb Hlen. unfold write_head_index.
  destruct (Nat.ltb_spec MAX_HEADS_PER_WORKSPACE (List.length (heads idx))); [lia|].
  eapply evals_bind; [by apply evals_serialize|].
  apply evals_put_atomic; [by destruct ws|by apply not_temp_snoc| |done].
  unfold head_index_path. by rewrite parent_app.
Qed.
End Metadata.
