(* ===== verification/AssetTree.v ===== *)
(** * Workspace asset trees ([src/modules/file_mgr/dataset.rs], the pure part)

    Which tree a workspace-rooted path targets, the split into tree and
    sub-path with its inverse, the shape checks, the delete target and the
    revision bump. *)

From stdpp Require Import pretty.
From S2P Require Import Prelude Ids AssetPath Common Workspace FileSystem.

Definition DATASETS_DIR_NAME : string := "datasets".
Definition CONVERTERS_DIR_NAME : string := "converters".
Definition TRAINING_LOGS_DIR_NAME : string := "training_logs".
Definition CONVERTER_LOGS_DIR_NAME : string := "converter_logs".

Inductive AssetTree : Type := Datasets | Converters | TrainingLogs | ConverterLogs.

#[export] Instance AssetTree_eq_dec : EqDecision AssetTree.
Proof. solve_decision. Defined.

Definition dir_name (t : AssetTree) : string :=
  match t with
  | Datasets => DATASETS_DIR_NAME
  | Converters => CONVERTERS_DIR_NAME
  | TrainingLogs => TRAINING_LOGS_DIR_NAME
  | ConverterLogs => CONVERTER_LOGS_DIR_NAME
  end.

Definition accepts_uploads (t : AssetTree) : bool :=
  match t with Datasets | Converters => true | _ => false end.

Definition async_delete_job_type (t : AssetTree) : JobType :=
  match t with
  | Datasets => DatasetDelete
  | Converters => ConverterDelete
  | TrainingLogs => TrainingLogsDelete
  | ConverterLogs => ConverterLogsDelete
  end.

(** [str::strip_prefix]. *)
Fixpoint strip_prefix (p s : list ascii) : option (list ascii) :=
  match p, s with
  | [], _ => Some s
  | a :: p, b :: s => if Ascii.eqb a b then strip_prefix p s else None
  | _ :: _, [] => None
  end.

(** [str::ends_with]. *)
Definition ends_with (s suffix : list ascii) : bool :=
  (List.length suffix <=? List.length s) &&
  bool_decide (drop (List.length s - List.length suffix) s = suffix).

(** [format!("{x:?}")] of a text without characters to escape. *)
Definition quoted (s : string) : string := String "034" (s ++ String "034" "").

Definition tree_of_name (c : list ascii) : option AssetTree :=
  if bool_decide (c = bytes_of DATASETS_DIR_NAME) then Some Datasets
  else if bool_decide (c = bytes_of CONVERTERS_DIR_NAME) then Some Converters
  else if bool_decide (c = bytes_of TRAINING_LOGS_DIR_NAME) then Some TrainingLogs
  else if bool_decide (c = bytes_of CONVERTER_LOGS_DIR_NAME) then Some ConverterLogs
  else None.

Definition parse_mutable_path (p : AssetPath) : result FileError (AssetTree * option AssetPath) :=
  match AssetPath_components p with
  | [] => Err (FE_InvalidName ("workspace path empty: " ++ asset_path_str p))
  | first :: _ =>
      match tree_of_name first with
      | None => Err (FE_InvalidName ("workspace mutation path top-level must be one of " ++
          "`datasets` / `converters` / `training_logs` / `converter_logs`; got " ++
          quoted (string_of_list_ascii first)))
      | Some tree =>
          match strip_prefix (bytes_of (dir_name tree)) (bytes_of (asset_path_str p)) ≫= strip_prefix ["/"%char] with
          | None => Ok (tree, None)
          | Some sub_raw =>
              match AssetPath_parse (string_of_list_ascii sub_raw) with
              | Ok sub => Ok (tree, Some sub)
              | Err _ => Err (FE_InvalidName ("internal: failed to re-parse sub-path " ++
                  quoted (string_of_list_ascii sub_raw) ++ " from " ++ asset_path_str p))
              end
          end
      end
  end.

Definition validate_dataset_upload_depth (tree : AssetTree) (p : AssetPath) : result FileError unit :=
  if negb (bool_decide (tree = Datasets)) then Ok tt
  else if (List.length (AssetPath_components p) <? 3) then
    Err (FE_InvalidName ("dataset upload requires `datasets/<class>/<file>` minimum; got `" ++
      asset_path_str p ++ "` -- the trainer treats the first non-hidden subdirectory of `datasets/` " ++
      "as the class label"))
  else Ok tt.

Definition validate_log_subpath (sub : AssetPath) : result FileError unit :=
  let comp_count := List.length (AssetPath_components sub) in
  if negb (comp_count =? 1) then
    Err (FE_InvalidName ("log file path must be a single component (e.g. `<job_id>.jsonl`); got " ++
      pretty comp_count ++ " components in " ++ quoted (asset_path_str sub)))
  else if negb (ends_with (bytes_of (asset_path_str sub)) (bytes_of ".jsonl")) then
    Err (FE_InvalidName ("log file path must end in `.jsonl`; got " ++ quoted (asset_path_str sub)))
  else Ok tt.

Definition components_path (p : AssetPath) : path := map string_of_list_ascii (AssetPath_components p).

Definition build_delete_target (workspace_dir : path) (tree : AssetTree) (sub : option AssetPath) : path :=
  workspace_dir ++ [dir_name tree] ++ match sub with Some rel => components_path rel | None => [] end.

(** [None] is the [expect] panic. *)
Definition build_display_path (tree : AssetTree) (sub : option AssetPath) : option AssetPath :=
  let raw := match sub with
             | Some rel => (dir_name tree ++ "/" ++ asset_path_str rel)%string
             | None => dir_name tree
             end in
  match AssetPath_parse raw with Ok p => Some p | Err _ => None end.

Section Bump.
Context `{U : UuidLib}.

Definition bump_workspace_revision (now_str : string) (prev_core : WorkspaceCore) : Z * WorkspaceCore :=
  let next_revision_id := sat_add64 (rev_id (core_revision prev_core)) 1 in
  (next_revision_id,
   mkWorkspaceCore (core_id prev_core) (core_name prev_core) (core_tags prev_core)
     (core_created_at prev_core) (mkWorkspaceRevision next_revision_id now_str) (core_head_count prev_core)).

(** Below the largest [u64] the bump makes every published head stale. *)
Lemma bump_stales now_str core head :
  (0 ≤ rev_id head ≤ rev_id (core_revision core))%Z → (rev_id (core_revision core) < u64_max)%Z →
  HeadStatus_from_revisions head (core_revision (snd (bump_workspace_revision now_str core))) = Stale.
Proof.
  intros Hh Hlt. unfold bump_workspace_revision, HeadStatus_from_revisions. cbn [snd core_revision rev_id].
  rewrite sat_add64_exact by lia. destruct (Z.eqb_spec (rev_id head) (rev_id (core_revision core) + 1)); [lia|done].
Qed.
End Bump.

(** ** Lemmas *)

Lemma strip_prefix_spec p s t : strip_prefix p s = Some t ↔ s = p ++ t.
Proof.
  revert s. induction p as [|a p IH]; intros s; cbn; [naive_solver|].
  destruct s as [|b s]; [naive_solver|]. destruct (Ascii.eqb_spec a b) as [->|Hab]; [|naive_solver].
  rewrite IH. naive_solver.
Qed.

Lemma tree_of_name_spec c t : tree_of_name c = Some t ↔ c = bytes_of (dir_name t).
Proof.
  unfold tree_of_name. split.
  - repeat (case_bool_decide as H; [intros [= <-]; exact H|clear H]). done.
  - intros ->. destruct t; vm_compute; reflexivity.
Qed.

Lemma dir_name_nosep t b : b ∈ bytes_of (dir_name t) → b ≠ "/"%char.
Proof. intros Hb ->. destruct t; vm_compute in Hb; set_solver. Qed.

Lemma join_with_cons sep c d cs : join_with sep (c :: d :: cs) = c ++ sep :: join_with sep (d :: cs).
Proof. done. Qed.

(** A path under tree [t] is the tree's name, or the name, a slash and the rest. *)
Lemma tree_text s t cs :
  split_on "/" (bytes_of s) = bytes_of (dir_name t) :: cs →
  bytes_of s = match cs with
               | [] => bytes_of (dir_name t)
               | _ => bytes_of (dir_name t) ++ "/"%char :: join_with "/" cs
               end.
Proof.
  intros E. pose proof (join_split "/" (bytes_of s)) as Hj. rewrite E in Hj. destruct cs; by rewrite <-Hj.
Qed.

(** The rest of a validated path is itself a valid path, with those components. *)
Lemma sub_path_parses s p t cs :
  AssetPath_parse s = Ok p → split_on "/" (bytes_of s) = bytes_of (dir_name t) :: cs → cs ≠ [] →
  AssetPath_parse (string_of_list_ascii (join_with "/" cs)) =
    Ok (mkAssetPath (string_of_list_ascii (join_with "/" cs))) ∧
  split_on "/" (join_with "/" cs) = cs.
Proof.
  intros (-> & Hlen & Hdepth & Hsafe)%AssetPath_parse_Ok E Hcs.
  assert (Hsplit : split_on "/" (join_with "/" cs) = cs).
  { apply split_join; [done|]. intros c b Hc. apply (split_on_no_sep "/" (bytes_of s)). rewrite E. by right. }
  split; [|done]. apply AssetPath_parse_Ok. rewrite bytes_of_string_of, Hsplit.
  rewrite E in Hdepth, Hsafe. apply Forall_cons_iff in Hsafe as [_ Hsafe]. cbn in Hdepth.
  split_and!; [done| |lia|done].
  pose proof (tree_text s t cs E) as Hb. destruct cs; [done|].
  rewrite <-length_bytes_of, bytes_of_string_of. rewrite <-length_bytes_of, Hb, length_app in Hlen.
  cbn [List.length] in Hlen. lia.
Qed.

Lemma parse_mutable_Ok s p t :
  AssetPath_parse s = Ok p → head (AssetPath_components p) = Some (bytes_of (dir_name t)) →
  ∃ cs, split_on "/" (bytes_of s) = bytes_of (dir_name t) :: cs ∧
    parse_mutable_path p = Ok (t, match cs with [] => None
      | _ => Some (mkAssetPath (string_of_list_ascii (join_with "/" cs))) end).
Proof.
  intros Hp Ht. pose proof Hp as (-> & _)%AssetPath_parse_Ok.
  unfold parse_mutable_path. unfold AssetPath_components in *. cbn [asset_path_str] in *.
  destruct (split_on "/" (bytes_of s)) as [|c cs] eqn:E; [done|]. injection Ht as ->.
  exists cs. split; [done|]. rewrite (proj2 (tree_of_name_spec _ t) eq_refl), (tree_text s t cs E).
  destruct cs as [|d cs].
  - by rewrite (proj2 (strip_prefix_spec _ _ []) (eq_sym (app_nil_r _))).
  - rewrite (proj2 (strip_prefix_spec _ _ ("/"%char :: join_with "/" (d :: cs))) eq_refl).
    cbn [mbind option_bind strip_prefix]. rewrite Ascii.eqb_refl.
    by destruct (sub_path_parses s _ t (d :: cs) Hp E) as [-> _].
Qed.

Lemma parse_mutable_head p t sub :
  parse_mutable_path p = Ok (t, sub) → head (AssetPath_components p) = Some (bytes_of (dir_name t)).
Proof.
  unfold parse_mutable_path. destruct (AssetPath_components p) as [|c cs]; [done|].
  destruct (tree_of_name c) as [t'|] eqn:Et; [|done]. apply tree_of_name_spec in Et as ->. cbn.
  repeat case_match; naive_solver.
Qed.

(** ** Properties *)

(** The tree/sub-path split is exact and inverts.  On a validated path
    [parse_mutable_path] succeeds iff the first component names one of the four
    trees; the split then never fails to re-parse, has no sub-path exactly for
    the bare tree, the display path rebuilt from it is the original path (its
    [expect] cannot fire), and the delete target is the workspace directory
    extended by the path's own components. *)
Theorem parse_mutable_path_exact (s : string) (p : AssetPath) (Hp : AssetPath_parse s = Ok p) :
  ((∃ t, head (AssetPath_components p) = Some (bytes_of (dir_name t))) ↔
   ∃ t sub, parse_mutable_path p = Ok (t, sub)) ∧
  ∀ t sub, parse_mutable_path p = Ok (t, sub) →
    (sub = None ↔ AssetPath_depth p = 1) ∧
    build_display_path t sub = Some p ∧
    ∀ ws, build_delete_target ws t sub = ws ++ components_path p.
Proof.
  split.
  { split; [|intros (t & sub & Hr%parse_mutable_head); by exists t].
    intros [t Ht]. destruct (parse_mutable_Ok s p t Hp Ht) as (cs & _ & Hr). eauto. }
  intros t sub Hr. destruct (parse_mutable_Ok s p t Hp (parse_mutable_head _ _ _ Hr)) as (cs & E & Hr').
  rewrite Hr' in Hr. injection Hr as <-. pose proof (tree_text s t cs E) as Hb.
  pose proof Hp as (-> & _)%AssetPath_parse_Ok.
  unfold AssetPath_depth, build_display_path, build_delete_target, components_path, AssetPath_components.
  cbn [asset_path_str]. rewrite E. destruct cs as [|d cs].
  - apply (f_equal string_of_list_ascii) in Hb. rewrite !string_of_bytes in Hb.
    split_and!; [done|by rewrite <-Hb, Hp|]. intros ws. cbn [map]. by rewrite string_of_bytes.
  - split_and!; [done| |].
    + assert (Hs : (dir_name t ++ "/" ++ string_of_list_ascii (join_with "/" (d :: cs)))%string = s).
      { apply bytes_of_inj. rewrite !bytes_of_app, bytes_of_string_of. by rewrite Hb. }
      cbv beta iota zeta. cbn [asset_path_str]. by rewrite Hs, Hp.
    + intros ws. cbv beta iota zeta. cbn [map asset_path_str]. rewrite string_of_bytes, bytes_of_string_of.
      by destruct (sub_path_parses s _ t (d :: cs) Hp E) as [_ ->].
Qed.

Lemma parse_mutable_path_exact_witness :
  parse_mutable_path (mkAssetPath "datasets/cat/x.wav") = Ok (Datasets, Some (mkAssetPath "cat/x.wav")) ∧
  build_display_path Datasets (Some (mkAssetPath "cat/x.wav")) = Some (mkAssetPath "datasets/cat/x.wav").
Proof.
  assert (E : parse_mutable_path (mkAssetPath "datasets/cat/x.wav") = Ok (Datasets, Some (mkAssetPath "cat/x.wav")))
    by (vm_compute; reflexivity).
  split; [exact E|].
  exact (proj1 (proj2 (proj2 (parse_mutable_path_exact "datasets/cat/x.wav" _ eq_refl) _ _ E))).
Defined.
