(* ===== verification/Dataset.v ===== *)
(** * Workspace asset uploads and deletes ([src/modules/file_mgr/dataset.rs])

    The upload commit and the asynchronous deletes, with their registry
    admission, their disk program and their cache publish; revision-before-bytes
    across crashes. *)

From S2P Require Import Prelude Ids AssetPath Common Workspace Broadcast JobRegistry JobRegistryFacts.
From S2P Require Import FileSystem FsLogic FsAtomic Schema Mgr HeadRotation Staging StagingFacts AssetTree.

Record DatasetUploadReceipt := mkDatasetUploadReceipt {
  ur_path : AssetPath;
  ur_sha256 : string;
  ur_size_bytes : Z;
  ur_workspace_revision_id : Z;
}.

Section Dataset.
Context `{U : UuidLib} `{B : !Broadcast RegistryEvent}.
Context `{HJ : !HashIter JobId JobEntry} `{HL : !HashIter Z (list JobReference)}.
Context `{T : TempLib}.
Context `{JC : !Json WorkspaceCore} `{JH : !Json HeadIndex} `{JT : !Json DeleteTombstone}.
Variable cfg : JobRegistryCfg.
(** The daemon's workspace root. *)
Variable root : path.

Abbreviation workspace_dir := (workspace_dir root).

Definition workspace_asset_path_join (ws : WorkspaceId) (p : AssetPath) : path :=
  workspace_dir ws ++ components_path p.

Definition workspace_asset_path (ws : WorkspaceId) (p : AssetPath) : M FileError path :=
  there ← path_exists (workspace_core_path (workspace_dir ws));
  if negb there then throw (FE_NotFound (WorkspaceId_display ws))
  else if bool_decide (head (AssetPath_components p) = Some (bytes_of ".tmp"))
  then throw (FE_InvalidName ("internal staging path is not externally addressable: " ++ asset_path_str p))
  else mret (workspace_asset_path_join ws p).

Definition open_workspace_file (ws : WorkspaceId) (p : AssetPath) : M FileError (path * node) :=
  target ← workspace_asset_path ws p;
  md ← map_throw (io_err target) (symlink_metadata target);
  match md with
  | File _ _ => mret (target, md)
  | _ => throw (io_err target IoOther)
  end.

(** ** Uploads *)

Definition ascii_lower (c : ascii) : ascii :=
  let n := nat_of_ascii c in
  if (65 <=? n) && (n <=? 90) then ascii_of_nat (n + 32) else c.
Definition eq_ignore_ascii_case (s t : string) : bool :=
  bool_decide (map ascii_lower (bytes_of s) = map ascii_lower (bytes_of t)).

Definition final_name (p : path) : string := List.last p ""%string.

(** The sibling scan: a name that differs from an existing one only by case. *)
Definition sibling_check (final_path : path) : M FileError unit :=
  there ← path_exists (parent final_path);
  if negb there then mret tt
  else
  entries ← map_throw (io_err (parent final_path)) (fs_read_dir (parent final_path));
  let target_name := final_name final_path in
  match List.find (λ name, eq_ignore_ascii_case name target_name && negb (String.eqb name target_name)) entries with
  | Some name => throw (FE_NameConflict ("workspace upload " ++ quoted target_name ++
      " collides case-insensitively with existing " ++ quoted name))
  | None => mret tt
  end.

(** Steps 3 to 5: the bumped revision, then the bytes, then the cache. *)
Definition commit_upload (now_str : string) (ws_dir : path) (cell : WorkspaceCacheCell)
    (src_tmpfile final_path : path) : M FileError (Z * WorkspaceCacheCell) :=
  let '(next_revision_id, next_core) := bump_workspace_revision now_str (cell_core cell) in
  _ ← write_workspace_core ws_dir next_core;
  _ ← map_throw (io_err (parent final_path)) (create_dir_all (parent final_path));
  _ ← map_throw (io_err final_path) (fs_rename src_tmpfile final_path);
  _ ← map_throw (io_err (parent final_path)) (fsync_dir (parent final_path));
  mret (next_revision_id, publish_core next_core cell).

(** The request checks before the lease. *)
Definition upload_checks (p : AssetPath) : result FileError AssetTree :=
  match parse_mutable_path p with
  | Err e => Err e
  | Ok (tree, sub) =>
      if negb (accepts_uploads tree)
      then Err (FE_InvalidName ("uploads to " ++ dir_name tree ++ " are reserved for the daemon producer"))
      else match sub with
           | None => Err (FE_InvalidName ("upload path requires at least one child component below `" ++
                       dir_name tree ++ "/`: " ++ asset_path_str p))
           | Some _ =>
               match validate_dataset_upload_depth tree p with
               | Err e => Err e
               | Ok _ => Ok tree
               end
           end
  end.

Definition upload_locked {E} (now_str : string) (ws : WorkspaceId) (p : AssetPath) (src_tmpfile : path)
    (caches : gmap WorkspaceId WorkspaceCacheCell) : M E (caches_result Z) :=
  there ← path_exists (workspace_core_path (workspace_dir ws));
  if negb there then mret (caches, Err (FE_NotFound (WorkspaceId_display ws)))
  else
  let final_path := workspace_asset_path_join ws p in
  s ← attempt (sibling_check final_path);
  match s with
  | Err e => mret (caches, Err e)
  | Ok _ => with_cell root caches ws (λ cell, commit_upload now_str (workspace_dir ws) cell src_tmpfile final_path)
  end.

Definition upload_workspace_file {E} (now_str : string) (ws : WorkspaceId) (p : AssetPath) (src_tmpfile : path)
    (observed_sha256 : string) (observed_size : Z) (mgr : WorkspaceMgr)
    : M E (WorkspaceMgr * result FileError DatasetUploadReceipt) :=
  match upload_checks p with
  | Err e => mret (mgr, Err e)
  | Ok _ =>
      match try_acquire_lease [RefWorkspace ws] (mgr_jobs mgr) with
      | (reg, Err c) => mret (with_mgr_jobs reg mgr, Err (conflict_to_file_error c))
      | (reg, Ok lease) =>
          x ← upload_locked now_str ws p src_tmpfile (mgr_caches mgr);
          let '(caches, r) := x in
          (* [_ref_guard] drops on return *)
          let mgr := mkWorkspaceMgr (release_lease lease reg) caches in
          mret (mgr, match r with
                     | Ok id => Ok (mkDatasetUploadReceipt p observed_sha256 observed_size id)
                     | Err e => Err e
                     end)
      end
  end.

(** ** Asynchronous deletes *)

(** The whole-tree wipe recreates the tree's directory. *)
Definition recreate_tree (ws_dir target : path) (sub : option AssetPath) : M FileError unit :=
  match sub with
  | Some _ => mret tt
  | None =>
      _ ← map_throw (io_err target) (create_dir_all target);
      map_throw (io_err ws_dir) (fsync_dir ws_dir)
  end.

(** Tombstone, revision, rename: the locked part of a dataset or converter delete. *)
Definition commit_tree_delete (now_str : string) (job_id : JobId) (ws : WorkspaceId) (tree : AssetTree)
    (sub : option AssetPath) (cell : WorkspaceCacheCell) : M FileError (StagedDelete * WorkspaceCacheCell) :=
  let ws_dir := workspace_dir ws in
  let target := build_delete_target ws_dir tree sub in
  let '(next_revision_id, next_core) := bump_workspace_revision now_str (cell_core cell) in
  let t := if bool_decide (tree = Datasets)
           then TombDataset job_id ws sub next_revision_id now_str
           else TombConverter job_id ws sub next_revision_id now_str in
  staged ← write_tombstone (ws_dir ++ [".tmp"%string]) t;
  _ ← write_workspace_core ws_dir next_core;
  _ ← stage_payload target staged;
  _ ← recreate_tree ws_dir target sub;
  mret (staged, publish_core next_core cell).

Definition commit_log_delete (now_str : string) (job_id : JobId) (ws : WorkspaceId) (tree : AssetTree)
    (sub : option AssetPath) : M FileError StagedDelete :=
  let ws_dir := workspace_dir ws in
  let target := build_delete_target ws_dir tree sub in
  let t := if bool_decide (tree = TrainingLogs)
           then TombTrainingLogs job_id ws sub now_str
           else TombConverterLogs job_id ws sub now_str in
  staged ← write_tombstone (ws_dir ++ [".tmp"%string]) t;
  _ ← stage_payload target staged;
  _ ← recreate_tree ws_dir target sub;
  mret staged.

(** A started delete: its job and the staged payload its worker will drain. *)
Definition started : Type := JobId * StagedDelete.

(** Admit the delete's job, run [body] under the workspace lock; an error drops
    the handle.  [None] is the panic of [build_display_path]. *)
Definition admit_delete {E} (fresh : JobId) (now_str : string) (ws : WorkspaceId) (tree : AssetTree)
    (sub : option AssetPath) (body : JobId → gmap WorkspaceId WorkspaceCacheCell → M E (caches_result StagedDelete))
    (mgr : WorkspaceMgr) : M E (WorkspaceMgr * option (result FileError started)) :=
  md ← attempt (map_throw (io_err (build_delete_target (workspace_dir ws) tree sub))
         (symlink_metadata (build_delete_target (workspace_dir ws) tree sub)));
  match md with
  | Err e => mret (mgr, Some (Err e))
  | Ok _ =>
      match build_display_path tree sub with
      | None => mret (mgr, None)
      | Some display_path =>
          match try_acquire cfg fresh now_str (async_delete_job_type tree) [RefWorkspace ws]
                  (Some display_path) (mgr_jobs mgr) with
          | (reg, Err c) => mret (with_mgr_jobs reg mgr, Some (Err (conflict_to_file_error c)))
          | (reg, Ok job_id) =>
              x ← body job_id (mgr_caches mgr);
              let '(caches, r) := x in
              match r with
              | Ok staged => mret (mkWorkspaceMgr reg caches, Some (Ok (job_id, staged)))
              | Err e =>
                  mret (mkWorkspaceMgr (JobHandle_drop cfg now_str (mkJobHandle job_id false) reg) caches,
                        Some (Err e))
              end
          end
      end
  end.

Definition start_async_tree_delete {E} (fresh : JobId) (now_str : string) (ws : WorkspaceId) (tree : AssetTree)
    (sub : option AssetPath) (mgr : WorkspaceMgr) : M E (WorkspaceMgr * option (result FileError started)) :=
  admit_delete fresh now_str ws tree sub
    (λ job_id caches, with_cell root caches ws (commit_tree_delete now_str job_id ws tree sub)) mgr.

(** The producer of a log tree and whether it is running. *)
Definition log_producer (ws : WorkspaceId) (tree : AssetTree) (reg : JobRegistry) : string * string * bool :=
  if bool_decide (tree = TrainingLogs)
  then ("train", "training_logs", has_active_train_for ws reg)%string
  else ("convert", "converter_logs", has_active_convert_for ws reg)%string.

Definition start_async_log_delete {E} (fresh : JobId) (now_str : string) (ws : WorkspaceId) (tree : AssetTree)
    (sub : option AssetPath) (mgr : WorkspaceMgr) : M E (WorkspaceMgr * option (result FileError started)) :=
  match (match sub with Some rel => validate_log_subpath rel | None => Ok tt end) with
  | Err e => mret (mgr, Some (Err e))
  | Ok _ =>
      let '(job_kind, conflict_label, producer_active) := log_producer ws tree (mgr_jobs mgr) in
      if (producer_active : bool) then
        mret (mgr, Some (Err (FE_JobConflict (conflict_label ++ " cannot be cleared while a " ++ job_kind ++
          " job for " ++ WorkspaceId_display ws ++ " is active"))))
      else
      admit_delete fresh now_str ws tree sub
        (λ job_id caches, r ← attempt (commit_log_delete now_str job_id ws tree sub); mret (caches, r)) mgr
  end.

Definition start_workspace_asset_delete {E} (fresh : JobId) (now_str : string) (ws : WorkspaceId)
    (p : AssetPath) (mgr : WorkspaceMgr) : M E (WorkspaceMgr * option (result FileError started)) :=
  match parse_mutable_path p with
  | Err e => mret (mgr, Some (Err e))
  | Ok (tree, sub) =>
      there ← path_exists (workspace_core_path (workspace_dir ws));
      if negb there then mret (mgr, Some (Err (FE_NotFound (WorkspaceId_display ws))))
      else match tree with
           | Datasets | Converters => start_async_tree_delete fresh now_str ws tree sub mgr
           | TrainingLogs | ConverterLogs => start_async_log_delete fresh now_str ws tree sub mgr
           end
  end.

(** [spawn_asset_drain]'s worker: how the drain ends becomes the job's terminal
    state; [reason] renders the failure. *)
Definition finish_delete (now_str : string) (reason : DeleteOutcome → list ascii) (job_id : JobId)
    (outcome : DeleteOutcome) (reg : JobRegistry) : JobRegistry :=
  match outcome with
  | Deleted => JobHandle_succeed cfg now_str (mkJobHandle job_id false) None reg
  | _ => JobHandle_fail cfg now_str (mkJobHandle job_id false) (reason outcome) reg
  end.

(** ** Typed admissions *)

Definition register_workspace_delete (fresh : JobId) (now_str : string) (ws : WorkspaceId) (mgr : WorkspaceMgr)
    : WorkspaceMgr * result RegistryConflict JobId :=
  let '(reg, r) := try_acquire cfg fresh now_str WorkspaceDelete [RefWorkspace ws] None (mgr_jobs mgr) in
  (with_mgr_jobs reg mgr, r).
Definition register_job_reference (r : JobReference) (mgr : WorkspaceMgr)
    : WorkspaceMgr * result RegistryConflict Z :=
  let '(reg, x) := try_acquire_lease [r] (mgr_jobs mgr) in (with_mgr_jobs reg mgr, x).
Definition register_convert_job (fresh : JobId) (now_str : string) (ws : WorkspaceId) (mgr : WorkspaceMgr)
    : WorkspaceMgr * result RegistryConflict JobId :=
  let '(reg, r) := try_acquire cfg fresh now_str Convert [RefWorkspace ws] None (mgr_jobs mgr) in
  (with_mgr_jobs reg mgr, r).
Definition register_train_job (fresh : JobId) (now_str : string) (ws : WorkspaceId) (mgr : WorkspaceMgr)
    : WorkspaceMgr * result RegistryConflict JobId :=
  let '(reg, r) := try_acquire cfg fresh now_str Train [RefWorkspace ws] None (mgr_jobs mgr) in
  (with_mgr_jobs reg mgr, r).

End Dataset.

(** ** Revision before bytes *)

(** What the mutations keep for themselves: the core file and the staging area. *)
Definition staging_area (ws_dir : path) : path := ws_dir ++ [".tmp"%string].
Definition internal (ws_dir p : path) : Prop :=
  put_scope (workspace_core_path ws_dir) p ∨ below (staging_area ws_dir) p = true.

(** A path that no later operation names stays definite. *)
Section Kept.
Variables (p : path) (φ : list ascii → Prop).
Let kept (d : Disk) : Prop := ∃ b, φ b ∧ definite d p (Some (File b true)).

Lemma kept_add o d : touches o p = false → kept d → kept (add_op o d).
Proof. intros Ho (b & H1 & H2). exists b. split; [done|]. by apply among_add_other. Qed.

Lemma kept_fsync dir : triple kept (fsync_dir dir) (λ _, kept) kept kept.
Proof. apply fsync_dir_triple. intros d (b & H1 & H2). exists b. split; [done|]. by apply among_fsync. Qed.

Lemma kept_mkdir q : ¬ p `prefix_of` q → triple kept (create_dir_all q) (λ _, kept) kept kept.
Proof.
  intros Hq. apply mkdir_triple with (S := λ r, r ≠ p).
  - apply stable_exists_definite. by intros H.
  - intros d r _ _ Hr. left. intros ->. done.
Qed.

Lemma kept_rename src dst :
  below src p = false → below dst p = false → triple kept (fs_rename src dst) (λ _, kept) kept kept.
Proof.
  intros Hs Hd. apply triple_syscall; [done|done|]. intros d Hk.
  assert (Hset : ∀ n, touches (OpSet dst n) p = false).
  { intros n. apply bool_decide_eq_false_2. intros ->. by apply below_false_neq in Hd. }
  assert (Hdel : touches (OpDel src) p = false).
  { apply bool_decide_eq_false_2. intros ->. by apply below_false_neq in Hs. }
  destruct (stat src d) as [[c b| |t]|]; [..|done].
  - destruct (negb _); [done|]. destruct (stat dst d) as [[| |]|]; try done;
      by apply kept_add, kept_add.
  - destruct (negb _); [done|]. destruct (bool_decide _); [done|]. apply kept_add; [|done].
    cbn. by rewrite Hs, Hd.
  - destruct (negb _); [done|]. destruct (stat dst d) as [[| |]|]; try done;
      by apply kept_add, kept_add.
Qed.
End Kept.

Section RevisionFirst.
Context `{UL : UuidLaws} `{TL : TempLaws}.
Context `{JC : !Json WorkspaceCore} `{JCL : !JsonLaws WorkspaceCore}.
Context `{JT : !Json DeleteTombstone}.
Variables (m : fs) (ws_dir : path) (next_core : WorkspaceCore).
Hypothesis Hwf : wf_tree m.
Hypothesis Hdir : m !! ws_dir = Some Dir.
Hypothesis Hset : all_settled m.

Let cj := workspace_core_path ws_dir.

(** Nothing but internal paths has been touched yet. *)
Definition before (d : Disk) : Prop := no_moves d ∧ ∀ p, ¬ internal ws_dir p → definite d p (m !! p).
(** The new revision is durable. *)
Definition after (d : Disk) : Prop :=
  ∃ b, from_slice b = Some next_core ∧ definite d cj (Some (File b true)).

(** After a crash: the old tree, or the new revision. *)
Definition rev_first (d : Disk) : Prop := ∀ img, crash_image d img →
  (∀ p, ¬ internal ws_dir p → img !! p = m !! p) ∨
  (∃ b, img !! cj = Some (File b true) ∧ from_slice b = Some next_core).

Lemma before_rev_first d : before d → rev_first d.
Proof. intros [_ H] img Hi. left. intros p Hp. eapply definite_crash; [by apply H|apply Hset|done]. Qed.

Lemma after_rev_first d : after d → rev_first d.
Proof. intros (b & H1 & H2) img Hi. right. exists b. split; [|done]. by eapply definite_crash. Qed.

Lemma before_stable : stable (internal ws_dir) before.
Proof.
  split.
  - intros d o [Hm H] Ho Hs. split; [by apply no_moves_add|]. intros p Hp.
    apply among_add_other; [by apply H|]. apply not_true_iff_false. intros Ht. by apply Hp, Hs.
  - intros d dir [Hm H]. split; [by apply no_moves_fsync|]. intros p Hp. by apply among_fsync, H.
  - intros d q c [Hm H] Hq. split; [by apply no_moves_sync|]. intros p Hp.
    apply among_sync; [by apply H|]. by intros ->.
Qed.

Lemma core_not_staged : below (staging_area ws_dir) cj = false.
Proof.
  apply not_true_iff_false. rewrite below_true. intros [k E]. unfold cj, workspace_core_path, staging_area in E.
  rewrite <-app_assoc in E. by apply app_inv_head in E.
Qed.

(** The core's atomic rewrite takes [before] to [after]. *)
Lemma write_core_rev_first old :
  triple (λ d, before d ∧ definite d cj old) (write_workspace_core ws_dir next_core)
    (λ _, after) rev_first rev_first.
Proof.
  eapply triple_conseq; [apply (write_core_triple before ws_dir old next_core)|..].
  - eapply stable_weaken; [apply before_stable|]. by left.
  - intros d [H1 H2]. split; [done|]. split; [apply H1|done].
  - intros ? d (_ & _ & b & H1 & H2). exists b. split; [by apply from_to|done].
  - intros d (H & _). by apply before_rev_first.
  - intros d (H & _). by apply before_rev_first.
Qed.

(** Any continuation that keeps the core file. *)
Lemma after_triple {A} (c : M FileError A) :
  triple after c (λ _, after) after after → triple after c (λ _, after) rev_first rev_first.
Proof. intros H. eapply triple_conseq; [exact H|..]; auto using after_rev_first. Qed.

Lemma core_not_prefix (q : path) name k : q = ws_dir ++ name :: k → name ≠ WORKSPACE_CORE_FILENAME → ¬ cj `prefix_of` q.
Proof.
  intros -> Hn [k' E]. unfold cj, workspace_core_path in E. rewrite <-app_assoc in E.
  apply app_inv_head in E. injection E as E _. congruence.
Qed.

Lemma not_below_core (q : path) name k : q = ws_dir ++ name :: k → name ≠ WORKSPACE_CORE_FILENAME → below q cj = false.
Proof.
  intros -> Hn. apply not_true_iff_false. intros [k' E]%below_true. unfold cj, workspace_core_path in E.
  rewrite <-app_assoc in E. apply app_inv_head in E. injection E as E _. congruence.
Qed.

Lemma parent_under (q : path) name k : q = ws_dir ++ name :: k → ¬ cj `prefix_of` parent q ∨ name = WORKSPACE_CORE_FILENAME.
Proof.
  intros Hq. destruct (decide (name = WORKSPACE_CORE_FILENAME)) as [|Hn]; [by right|left].
  intros Hp. apply (core_not_prefix q name k Hq Hn). etransitivity; [exact Hp|].
  destruct q as [|x q]; [by destruct ws_dir|].
  destruct (path_snoc (x :: q)) as [y Hy]; [done|]. rewrite Hy at 2. by eexists.
Qed.

(** The upload's commit. *)
Lemma commit_upload_triple now_str cell src final name k sname sk old :
  snd (bump_workspace_revision now_str (cell_core cell)) = next_core →
  final = ws_dir ++ name :: k → name ≠ WORKSPACE_CORE_FILENAME →
  src = ws_dir ++ sname :: sk → sname ≠ WORKSPACE_CORE_FILENAME →
  triple (λ d, before d ∧ definite d cj old) (commit_upload now_str ws_dir cell src final)
    (λ r d, r = (sat_add64 (rev_id (core_revision (cell_core cell))) 1, publish_core next_core cell) ∧ after d)
    rev_first rev_first.
Proof.
  intros Hnext Hfin Hn Hsrc Hsn. unfold commit_upload, bump_workspace_revision in *. cbn [snd] in Hnext.
  rewrite Hnext. eapply triple_bind; [apply write_core_rev_first|]. intros ?.
  eapply triple_bind; [apply after_triple, triple_map_throw, kept_mkdir; by destruct (parent_under _ _ _ Hfin)|].
  intros ?. eapply triple_bind.
  { apply after_triple, triple_map_throw, kept_rename; by eapply not_below_core. }
  intros ?. eapply triple_bind; [apply after_triple, triple_map_throw, kept_fsync|].
  intros ?. by apply triple_ret.
Qed.

Lemma prefix_of_dir q : q ≠ [] → q `prefix_of` ws_dir → m !! q = Some Dir ∧ ¬ internal ws_dir q.
Proof.
  intros Hq [k Hk]. split.
  - destruct k as [|x k]; [rewrite app_nil_r in Hk; by subst|].
    apply (below_trans m q (x :: k) Hwf); [rewrite <-Hk; by eexists|done].
  - assert (Hlen : List.length q ≤ List.length ws_dir) by (rewrite Hk, length_app; lia).
    intros [[E|(name & E & _)]|[k' E]%below_true]; apply (f_equal (@List.length _)) in E;
      unfold workspace_core_path, staging_area in E; rewrite ?parent_app, ?length_app in E; cbn in E; lia.
Qed.

Lemma write_tombstone_triple old (t : DeleteTombstone) :
  triple (λ d, before d ∧ definite d cj old) (write_tombstone (staging_area ws_dir) t)
    (λ staged d, staged = for_tombstone (staging_area ws_dir) t ∧ before d ∧ definite d cj old)
    rev_first rev_first.
Proof.
  set (F := λ d, before d ∧ definite d cj old).
  assert (HF : stable (λ p, below (staging_area ws_dir) p = true) F).
  { apply stable_and; [eapply stable_weaken; [apply before_stable|]; by right|].
    apply definite_stable. by rewrite core_not_staged. }
  assert (HX : ∀ d, F d → rev_first d) by (intros d [H _]; by apply before_rev_first).
  unfold write_tombstone. eapply triple_bind with (R := λ _, F).
  { apply triple_map_throw. eapply triple_conseq; [apply (mkdir_triple F _ [] (staging_area ws_dir) HF)|..]; try done.
    intros d q [[_ Hb] _] Hq Hp. cbn [app] in Hp.
    destruct (prefix_snoc_cases q ws_dir ".tmp"%string Hp) as [->|Hl]; [left; by apply below_true|right].
    destruct (prefix_of_dir q Hq) as [Hm Hi].
    { destruct (prefix_weak_total q ws_dir (staging_area ws_dir) Hp) as [Hpre|[k E]]; [by eexists|done|].
      assert (k = []) as ->; [|rewrite app_nil_r in E; by subst].
      apply (f_equal (@List.length _)) in E. rewrite length_app in E. apply length_zero_iff_nil. lia. }
    rewrite <-Hm. by apply definite_visible, Hb. }
  intros ?. cbv beta zeta. unfold serialize. destruct (to_vec t) as [bytes|]; [|by apply triple_throw].
  eapply triple_bind with (R := λ b, F); [by apply triple_ret|]. intros b.
  eapply triple_bind with (R := λ _, F); [|intros ?; by apply triple_ret].
  set (tp := tombstone (for_tombstone (staging_area ws_dir) t)).
  eapply triple_conseq; [apply (put_atomic_triple F None tp b)|..].
  - unfold tp. cbn. by destruct (staging_area ws_dir).
  - apply not_temp_snoc. unfold filename. destruct t; reflexivity.
  - eapply stable_weaken; [exact HF|]. intros p [->|(name & -> & _)];
      apply below_true; unfold tp, for_tombstone; cbn [tombstone]; rewrite ?parent_app; by eexists.
  - intros d [H1 H2]. split; [done|]. split; [apply H1|]. apply facts_spec. by intros ? [].
  - intros ? d (H & _). exact H.
  - intros d (H & _). by apply HX.
  - intros d (H & _). by apply HX.
Qed.

Lemma kept_stage_payload target staged name k sname sk :
  target = ws_dir ++ name :: k → name ≠ WORKSPACE_CORE_FILENAME →
  stage_dir staged = ws_dir ++ sname :: sk → sname ≠ WORKSPACE_CORE_FILENAME →
  payload staged = stage_dir staged ++ [STAGED_PAYLOAD_NAME] →
  triple after (stage_payload target staged) (λ _, after) after after.
Proof.
  intros Ht Hn Hs Hsn Hp. unfold stage_payload.
  destruct (decide (target = [])); [by apply triple_throw|].
  eapply triple_bind; [apply triple_map_throw, kept_mkdir; by eapply core_not_prefix|]. intros ?.
  eapply triple_bind with (R := λ _, after).
  { destruct (decide _); [by apply triple_ret|]. apply triple_map_throw, kept_fsync. }
  intros ?. eapply triple_bind.
  { apply triple_map_throw, kept_rename; [by eapply not_below_core|].
    eapply not_below_core; [|exact Hsn]. by rewrite Hp, Hs, <-app_assoc. }
  intros ?. eapply triple_bind; [apply triple_map_throw, kept_fsync|].
  intros ?. apply triple_map_throw, kept_fsync.
Qed.

Lemma kept_recreate target sub name k :
  target = ws_dir ++ name :: k → name ≠ WORKSPACE_CORE_FILENAME →
  triple after (recreate_tree ws_dir target sub) (λ _, after) after after.
Proof.
  intros Ht Hn. destruct sub; [by apply triple_ret|]. cbn [recreate_tree].
  eapply triple_bind; [apply triple_map_throw, kept_mkdir; by eapply core_not_prefix|].
  intros ?. apply triple_map_throw, kept_fsync.
Qed.
End RevisionFirst.

Section Handlers.
Context `{UL : UuidLaws} `{TL : TempLaws} `{B : !Broadcast RegistryEvent}.
Context `{HJ : !HashIter JobId JobEntry} `{HL : !HashIter Z (list JobReference)}.
Context `{JC : !Json WorkspaceCore} `{JCL : !JsonLaws WorkspaceCore} `{JH : !Json HeadIndex}.
Context `{JT : !Json DeleteTombstone}.
Variables (cfg : JobRegistryCfg) (root : path) (ws : WorkspaceId) (m : fs).
Variables (cell : WorkspaceCacheCell) (now_str : string) (old : option node).
Let ws_dir := workspace_dir_for root ws.
Let next_core := snd (bump_workspace_revision now_str (cell_core cell)).
Hypothesis Hwf : wf_tree m.
Hypothesis Hdir : m !! ws_dir = Some Dir.
Hypothesis Hset : all_settled m.

Let start (d : Disk) : Prop := before m ws_dir d ∧ definite d (workspace_core_path ws_dir) old.
Let safe := rev_first m ws_dir next_core.

Lemma start_safe d : start d → safe d.
Proof. intros [H _]. by apply before_rev_first. Qed.

Lemma tree_name_not_core t : dir_name t ≠ WORKSPACE_CORE_FILENAME.
Proof. by destruct t. Qed.

Lemma asset_path_under p t sub :
  parse_mutable_path p = Ok (t, sub) → ∃ k, workspace_asset_path_join root ws p = ws_dir ++ dir_name t :: k.
Proof.
  intros Hp%parse_mutable_head. unfold workspace_asset_path_join, components_path.
  destruct (AssetPath_components p) as [|c cs]; [done|]. injection Hp as ->.
  exists (map string_of_list_ascii cs). cbn [map]. by rewrite string_of_bytes.
Qed.

Lemma with_cell_triple {E A} (caches : gmap WorkspaceId WorkspaceCacheCell)
    (f : WorkspaceCacheCell → M FileError (A * WorkspaceCacheCell)) a :
  caches !! ws = Some cell →
  triple start (f cell) (λ r d, r = (a, publish_core next_core cell) ∧ after ws_dir next_core d) safe safe →
  triple start (with_cell root caches ws f : M E _)
    (λ x d, safe d ∧ match snd x with
       | Ok a' => a' = a ∧ after ws_dir next_core d ∧ fst x !! ws = Some (publish_core next_core cell)
       | Err _ => fst x !! ws = Some cell
       end) safe safe.
Proof.
  intros Hc Hf. unfold with_cell, cache_cell. rewrite Hc.
  eapply triple_bind with (R := λ c d, c = Ok cell ∧ start d).
  { apply triple_attempt with (Q := λ c d, c = Ok cell ∧ start d). by apply triple_ret. }
  intros c. apply triple_pure. intros ->.
  eapply triple_bind with (R := λ r d, match r with
     | Ok r => r = (a, publish_core next_core cell) ∧ after ws_dir next_core d
     | Err _ => safe d end).
  { apply triple_attempt with (Q := λ r d, match r with
      | Ok r => r = (a, publish_core next_core cell) ∧ after ws_dir next_core d
      | Err _ => safe d end). eapply triple_conseq; [exact Hf|..]; auto. }
  intros [[a' c']|e].
  - apply triple_pure. intros [= -> ->]. apply triple_ret. intros d Hd. cbn [fst snd].
    split; [by apply after_rev_first|]. split_and!; [done|done|]. apply lookup_insert_eq.
  - apply triple_ret. intros d Hd. split; [done|]. apply lookup_insert_eq.
Qed.

Lemma sibling_check_triple F final : triple F (sibling_check final) (λ _, F) F F.
Proof.
  unfold sibling_check. eapply triple_bind with (R := λ _, F); [intros w Hw; exact Hw|]. intros b.
  destruct b; cbn [negb]; [|by apply triple_ret].
  eapply triple_bind; [apply triple_map_throw, visible_read|]. intros l.
  destruct (List.find _ l); [by apply triple_throw|by apply triple_ret].
Qed.

(** What a mutation handler guarantees of the disk and of the cached core. *)
Definition mutated (caches : gmap WorkspaceId WorkspaceCacheCell) (ok : bool) (d : Disk) : Prop :=
  safe d ∧
  if ok then after ws_dir next_core d ∧ caches !! ws = Some (publish_core next_core cell)
  else caches !! ws = Some cell.

Lemma upload_triple {E} p src sha size (mgr : WorkspaceMgr) :
  mgr_caches mgr !! ws = Some cell → staged ws_dir src →
  triple start (upload_workspace_file root now_str ws p src sha size mgr : M E _)
    (λ x d, mutated (mgr_caches (fst x)) (is_ok (snd x)) d ∧
       ∀ rc, snd x = Ok rc → ur_workspace_revision_id rc = rev_id (core_revision next_core)) safe safe.
Proof.
  intros Hc (sname & sq & Hsrc). unfold upload_workspace_file.
  assert (Hnone : ∀ (mgr' : WorkspaceMgr) e, mgr_caches mgr' !! ws = Some cell →
    triple start (mret (mgr', Err e) : M E (WorkspaceMgr * result FileError DatasetUploadReceipt))
      (λ x d, mutated (mgr_caches (fst x)) (is_ok (snd x)) d ∧
       ∀ rc, snd x = Ok rc → ur_workspace_revision_id rc = rev_id (core_revision next_core)) safe safe).
  { intros mgr' e Hm. apply triple_ret. intros d Hd. split; [|done]. split; [by apply start_safe|done]. }
  destruct (upload_checks p) as [tree|e] eqn:Hchk; [|by apply Hnone].
  destruct (try_acquire_lease _ _) as [reg [lease|c]]; [|by apply Hnone].
  eapply triple_bind with (R := λ x d, safe d ∧ match snd x with
     | Ok a => a = rev_id (core_revision next_core) ∧ after ws_dir next_core d ∧
               fst x !! ws = Some (publish_core next_core cell)
     | Err _ => fst x !! ws = Some cell end).
  2:{ intros [caches r]. apply triple_ret. intros d [H1 H2]. unfold mutated. cbn [fst snd mgr_caches] in *.
      destruct r; cbn [is_ok]; [|done]. split; [split; [done|apply H2]|]. intros rc [= <-]. apply H2. }
  unfold upload_locked. eapply triple_bind with (R := λ _, start); [intros w Hw; exact Hw|]. intros b.
  destruct b; cbn [negb]; [|apply triple_ret; intros d Hd; split; [by apply start_safe|done]].
  eapply triple_bind with (R := λ _, start).
  { apply triple_attempt with (Q := λ _, start). eapply triple_conseq; [apply (sibling_check_triple start)|..]; auto using start_safe. }
  intros [u|e]; [|apply triple_ret; intros d Hd; split; [by apply start_safe|done]].
  apply with_cell_triple; [done|].
  unfold upload_checks in Hchk. destruct (parse_mutable_path p) as [[t sub]|] eqn:Hp; [|done].
  destruct (asset_path_under p t sub Hp) as [k Hk].
  eapply commit_upload_triple; first [exact Hk|exact Hsrc|apply tree_name_not_core|done].
Qed.

Lemma commit_delete_triple job_id tree sub :
  tree = Datasets ∨ tree = Converters →
  triple start (commit_tree_delete root now_str job_id ws tree sub cell)
    (λ r d, r = (for_tombstone (staging_area ws_dir)
                   (if bool_decide (tree = Datasets)
                    then TombDataset job_id ws sub (rev_id (core_revision next_core)) now_str
                    else TombConverter job_id ws sub (rev_id (core_revision next_core)) now_str),
                 publish_core next_core cell) ∧ after ws_dir next_core d) safe safe.
Proof.
  intros Htree. unfold commit_tree_delete, bump_workspace_revision. cbv zeta beta iota.
  set (t := if bool_decide _ then _ else _ : DeleteTombstone).
  assert (Htgt : build_delete_target (workspace_dir root ws) tree sub =
    ws_dir ++ dir_name tree :: match sub with Some rel => components_path rel | None => [] end) by done.
  eapply triple_bind.
  { apply (write_tombstone_triple m ws_dir next_core Hwf Hdir Hset old t). }
  intros st. apply triple_pure. intros ->. eapply triple_bind.
  { apply (write_core_rev_first m ws_dir next_core Hset old). }
  intros ?. eapply triple_bind.
  { apply (after_triple m), (kept_stage_payload ws_dir next_core) with (name := dir_name tree)
      (k := match sub with Some rel => components_path rel | None => [] end)
      (sname := ".tmp"%string) (sk := [stage_dir_name t]);
      [exact Htgt|apply tree_name_not_core| |done|done].
    cbn. unfold staging_area. by rewrite <-app_assoc. }
  intros ?. eapply triple_bind.
  { apply (after_triple m), (kept_recreate ws_dir next_core) with (name := dir_name tree)
      (k := match sub with Some rel => components_path rel | None => [] end);
      [exact Htgt|apply tree_name_not_core]. }
  intros ?. apply triple_ret. intros d Hd. by split.
Qed.

Lemma tree_delete_triple {E} fresh tree sub (mgr : WorkspaceMgr) :
  mgr_caches mgr !! ws = Some cell → tree = Datasets ∨ tree = Converters →
  triple start (start_async_tree_delete cfg root fresh now_str ws tree sub mgr : M E _)
    (λ x d, mutated (mgr_caches (fst x)) (match snd x with Some (Ok _) => true | _ => false end) d)
    safe safe.
Proof.
  intros Hc Htree. unfold start_async_tree_delete, admit_delete.
  assert (Hnone : ∀ (mgr' : WorkspaceMgr) r, mgr_caches mgr' !! ws = Some cell →
    match r with Some (Ok _) => false | _ => true end = true →
    triple start (mret (mgr', r) : M E (WorkspaceMgr * option (result FileError started)))
      (λ x d, mutated (mgr_caches (fst x)) (match snd x with Some (Ok _) => true | _ => false end) d) safe safe).
  { intros mgr' r Hm Hr. apply triple_ret. intros d Hd. split; [by apply start_safe|].
    cbn [fst snd]. by destruct r as [[]|]. }
  eapply triple_bind with (R := λ _, start).
  { apply triple_attempt with (Q := λ _, start). apply triple_map_throw.
    eapply triple_conseq; [apply (visible_read start)|..]; auto using start_safe. }
  intros [md|e]; [|by apply Hnone].
  destruct (build_display_path tree sub) as [dp|]; [|by apply Hnone].
  destruct (try_acquire _ _ _ _ _ _ _) as [reg [job_id|c]]; [|by apply Hnone].
  eapply triple_bind; [apply with_cell_triple; [exact Hc|by apply commit_delete_triple]|].
  intros [caches [st|e]]; apply triple_ret; intros d [H1 H2]; (split; [done|]); cbn [fst snd mgr_caches] in *.
  - split; apply H2.
  - done.
Qed.

(** A tree at rest starts with nothing touched. *)
Lemma quiet_start d : d = mkDisk m [] → old = m !! workspace_core_path ws_dir → start d.
Proof.
  intros -> ->. split; [|by apply definite_quiet]. split; [constructor|]. intros p _. by apply definite_quiet.
Qed.
End Handlers.

(** ** Properties *)

(** An upload advances the revision before it changes a byte.  From a tree at
    rest whose core is cached, wherever [upload_workspace_file] is cut, every
    crash leaves either all of the workspace outside [workspace.json] and
    [.tmp/] as it was, or a [workspace.json] that holds the bumped revision; a
    successful upload reports, caches and has made durable that revision; a
    failed one leaves the cached core alone. *)
Theorem upload_revision_before_bytes `{UL : UuidLaws} `{TL : TempLaws} `{B : !Broadcast RegistryEvent}
    `{HJ : !HashIter JobId JobEntry} `{HL : !HashIter Z (list JobReference)}
    `{JC : Json WorkspaceCore} `{!JsonLaws WorkspaceCore} `{JH : Json HeadIndex}
    (root : path) (ws : WorkspaceId) (m : fs) (cell : WorkspaceCacheCell) (now_str : string)
    (p : AssetPath) (src : path) (sha : string) (size : Z) (mgr : WorkspaceMgr) (w : World)
    (Hw : disk w = mkDisk m []) (Hwf : wf_tree m) (Hset : all_settled m)
    (Hdir : m !! workspace_dir_for root ws = Some Dir)
    (Hcell : mgr_caches mgr !! ws = Some cell) (Hsrc : staged (workspace_dir_for root ws) src) :
  let ws_dir := workspace_dir_for root ws in
  let next_core := snd (bump_workspace_revision now_str (cell_core cell)) in
  let '(w', r) := (upload_workspace_file root now_str ws p src sha size mgr : M FileError _) w in
  (∀ img, crash_image (disk w') img →
     (∀ q, ¬ internal ws_dir q → img !! q = m !! q) ∨
     ∃ b, img !! workspace_core_path ws_dir = Some (File b true) ∧ from_slice b = Some next_core) ∧
  match r with
  | Ret (mgr', Ok rc) =>
      ur_workspace_revision_id rc = rev_id (core_revision next_core) ∧
      mgr_caches mgr' !! ws = Some (publish_core next_core cell) ∧
      ∀ img, crash_image (disk w') img →
        ∃ b, img !! workspace_core_path ws_dir = Some (File b true) ∧ from_slice b = Some next_core
  | Ret (mgr', Err _) => mgr_caches mgr' !! ws = Some cell
  | _ => True
  end.
Proof.
  intros ws_dir next_core.
  pose proof (upload_triple (E := FileError) root ws m cell now_str (m !! workspace_core_path ws_dir) Hdir Hset
    p src sha size mgr Hcell Hsrc w (quiet_start root ws m _ _ Hw eq_refl)) as H.
  destruct (upload_workspace_file _ _ _ _ _ _ _ _ w) as [w' [[mgr' r]|e|]]; [|by split..].
  destruct H as [[H1 H2] H3]. split; [exact H1|]. cbn [fst snd] in *.
  destruct r as [rc|e]; cbn [is_ok] in *; [|done]. split_and!; [by apply H3|apply H2|].
  destruct H2 as [(b & Hb & Hd) _]. intros img Hi. exists b. split; [by eapply definite_crash|done].
Qed.

(** A dataset or converter delete advances the revision before it moves a
    byte: wherever [start_async_tree_delete] is cut, every crash leaves the
    workspace outside [workspace.json] and [.tmp/] as it was, or the bumped
    revision in [workspace.json]; a started delete has cached and made durable
    that revision, a refused or failed one leaves the cached core alone. *)
Theorem delete_revision_before_bytes `{UL : UuidLaws} `{TL : TempLaws} `{B : !Broadcast RegistryEvent}
    `{HJ : !HashIter JobId JobEntry} `{HL : !HashIter Z (list JobReference)}
    `{JC : Json WorkspaceCore} `{!JsonLaws WorkspaceCore} `{JH : Json HeadIndex} `{JT : Json DeleteTombstone}
    (cfg : JobRegistryCfg) (root : path) (ws : WorkspaceId) (m : fs) (cell : WorkspaceCacheCell)
    (fresh : JobId) (now_str : string) (tree : AssetTree) (sub : option AssetPath) (mgr : WorkspaceMgr) (w : World)
    (Hw : disk w = mkDisk m []) (Hwf : wf_tree m) (Hset : all_settled m)
    (Hdir : m !! workspace_dir_for root ws = Some Dir)
    (Hcell : mgr_caches mgr !! ws = Some cell) (Htree : tree = Datasets ∨ tree = Converters) :
  let ws_dir := workspace_dir_for root ws in
  let next_core := snd (bump_workspace_revision now_str (cell_core cell)) in
  let '(w', r) := (start_async_tree_delete cfg root fresh now_str ws tree sub mgr : M FileError _) w in
  (∀ img, crash_image (disk w') img →
     (∀ q, ¬ internal ws_dir q → img !! q = m !! q) ∨
     ∃ b, img !! workspace_core_path ws_dir = Some (File b true) ∧ from_slice b = Some next_core) ∧
  match r with
  | Ret (mgr', Some (Ok _)) =>
      mgr_caches mgr' !! ws = Some (publish_core next_core cell) ∧
      ∀ img, crash_image (disk w') img →
        ∃ b, img !! workspace_core_path ws_dir = Some (File b true) ∧ from_slice b = Some next_core
  | Ret (mgr', _) => mgr_caches mgr' !! ws = Some cell
  | _ => True
  end.
Proof.
  intros ws_dir next_core.
  pose proof (tree_delete_triple (E := FileError) cfg root ws m cell now_str (m !! workspace_core_path ws_dir)
    Hwf Hdir Hset fresh tree sub mgr Hcell Htree w (quiet_start root ws m _ _ Hw eq_refl)) as H.
  destruct (start_async_tree_delete _ _ _ _ _ _ _ _ w) as [w' [[mgr' r]|e|]]; [|by split..].
  destruct H as [H1 H2]. split; [exact H1|]. cbn [fst snd] in *.
  destruct r as [[st|e]|]; [|done..]. split; [apply H2|].
  destruct H2 as [(b & Hb & Hd) _]. intros img Hi. exists b. split; [by eapply definite_crash|done].
Qed.

(** A workspace with one sample, a second one staged for upload. *)
Section Scenario.
#[local] Existing Instance text_uuid_lib.
#[local] Existing Instance long_temp_lib.
#[local] Instance up_bus : Broadcast RegistryEvent := ring_broadcast RegistryEvent.
#[local] Instance up_core_json : Json WorkspaceCore := bits_json WorkspaceCore.
#[local] Instance up_index_json : Json HeadIndex := bits_json HeadIndex.
#[local] Instance up_tomb_json : Json DeleteTombstone := {| to_vec t := Some (bytes_of (filename t)); from_slice _ := None |}.

Definition up_ws : WorkspaceId := mkWorkspaceId ("00000000-0000-4000-8000-00000000000b" : Uuid).
Definition up_dir : path := workspace_dir_for [] up_ws.
Definition up_core : WorkspaceCore := mkWorkspaceCore up_ws "n" [] "t" (mkWorkspaceRevision 3 "t") 0.
Definition up_cell : WorkspaceCacheCell := mkCell up_core (mkHeadIndex []).
Definition up_src : path := up_dir ++ [".tmp"; "u"]%string.
Definition up_tree : fs := list_to_map
  [([], Dir); (["workspaces"%string], Dir); (up_dir, Dir); (up_dir ++ [".tmp"%string], Dir);
   (up_src, File (bytes_of "new") true); (up_dir ++ ["datasets"%string], Dir);
   (up_dir ++ ["datasets"; "cat"]%string, Dir);
   (up_dir ++ ["datasets"; "cat"; "x.wav"]%string, File (bytes_of "old") true);
   (workspace_core_path up_dir, File (bits (encode up_core)) true)].
Definition up_path : AssetPath := mkAssetPath "datasets/cat/x.wav".
Definition up_mgr : WorkspaceMgr := mkWorkspaceMgr JobRegistry_new {[ up_ws := up_cell ]}.
Definition up_world (faults : list bool) : World := mkWorld (mkDisk up_tree []) None faults.

Lemma up_settled : all_settled up_tree.
Proof.
  intros q. destruct (up_tree !! q) as [n|] eqn:E; [|done].
  apply elem_of_list_to_map_2 in E. repeat (apply elem_of_cons in E as [[= -> ->]|E]; [done|]).
  by apply elem_of_nil in E.
Qed.

Lemma up_wf : wf_tree up_tree.
Proof. apply wf_treeb_ok. vm_compute. reflexivity. Qed.

Lemma up_dir_there : up_tree !! up_dir = Some Dir.
Proof. vm_compute. reflexivity. Qed.

Lemma up_cached : mgr_caches up_mgr !! up_ws = Some up_cell.
Proof. apply lookup_singleton_eq. Qed.

(** Whether a handler answered with a success. *)
Definition answered {A B} (o : outcome FileError (A * result FileError B)) : bool :=
  match o with Ret (_, Ok _) => true | _ => false end.

Lemma upload_revision_before_bytes_witness :
  let '(w', r) := (upload_workspace_file [] "t" up_ws up_path up_src "s" 3 up_mgr : M FileError _) (up_world []) in
  ∃ mgr' rc, r = Ret (mgr', Ok rc) ∧ ur_workspace_revision_id rc = 4%Z.
Proof.
  pose proof (upload_revision_before_bytes (UL := text_uuid_laws) (TL := long_temp_laws)
    (JsonLaws0 := bits_json_laws WorkspaceCore) [] up_ws up_tree up_cell "t" up_path up_src "s" 3 up_mgr (up_world [])
    eq_refl up_wf up_settled up_dir_there up_cached (ex_intro _ "u"%string (ex_intro _ [] eq_refl))) as H.
  cbv zeta in H.
  assert (Hr : answered (snd ((upload_workspace_file [] "t" up_ws up_path up_src "s" 3 up_mgr : M FileError _)
    (up_world []))) = true) by (vm_compute; reflexivity).
  destruct (upload_workspace_file _ _ _ _ _ _ _ _ _) as [w' [[mgr' [rc|e]]|e|]]; try discriminate Hr.
  destruct H as [_ (H & _)]. exists mgr', rc. split; [done|]. rewrite H. reflexivity.
Defined.

Lemma delete_revision_before_bytes_witness :
  let '(w', r) := (start_async_tree_delete JobRegistryCfg_default [] (mkJobId ("j" : Uuid)) "t" up_ws Datasets
    (Some (mkAssetPath "cat")) up_mgr : M FileError _) (up_world []) in
  ∃ mgr' st, r = Ret (mgr', Some (Ok st)) ∧
    (rev_id (core_revision (cell_core (default up_cell (mgr_caches mgr' !! up_ws)))) = 4)%Z.
Proof.
  pose proof (delete_revision_before_bytes (UL := text_uuid_laws) (TL := long_temp_laws)
    (JsonLaws0 := bits_json_laws WorkspaceCore) JobRegistryCfg_default [] up_ws up_tree up_cell (mkJobId ("j" : Uuid)) "t"
    Datasets (Some (mkAssetPath "cat")) up_mgr (up_world [])
    eq_refl up_wf up_settled up_dir_there up_cached (or_introl eq_refl)) as H.
  cbv zeta in H.
  assert (Hr : match snd ((start_async_tree_delete JobRegistryCfg_default [] (mkJobId ("j" : Uuid)) "t" up_ws Datasets
    (Some (mkAssetPath "cat")) up_mgr : M FileError _) (up_world [])) with
    | Ret (_, Some (Ok _)) => true | _ => false end = true) by (vm_compute; reflexivity).
  destruct (start_async_tree_delete _ _ _ _ _ _ _ _ _) as [w' [[mgr' [[st|e]|]]|e|]]; try discriminate Hr.
  destruct H as [_ (H & _)]. exists mgr', st. split; [done|]. rewrite H. reflexivity.
Defined.

(** When only the last directory sync of an upload fails, the new bytes are
    visible and the revision on disk is bumped, but the cached core keeps the
    old revision: until the next reload readers see heads of that revision as
    current for a dataset that has changed. *)
Lemma upload_error_stale_cache :
  let '(w', r) := commit_upload "t" up_dir up_cell up_src (up_dir ++ ["datasets"; "cat"; "x.wav"]%string)
    (up_world [false; false; false; false; false; false; false; false; false; false; true]) in
  (match r with Throw _ => true | _ => false end = true) ∧
  visible (disk w') !! (up_dir ++ ["datasets"; "cat"; "x.wav"]%string) = Some (File (bytes_of "new") true).
Proof. vm_compute. split; reflexivity. Qed.
End Scenario.
