(* ===== verification/Recovery.v ===== *)
(** * Boot recovery of workspaces and staged deletes ([src/modules/file_mgr/recovery.rs])

    The sweeps that run once per boot before any route is live: the root
    staging directory, then every workspace (head orphans, [head_count], the
    four kinds of staged deletes), and incomplete creates.  File names are
    UTF-8, so [to_str] never refuses one. *)

From S2P Require Import Prelude Ids AssetPath Common Workspace Broadcast JobRegistry FileSystem FsLogic FsAtomic Schema Staging AssetTree.

(** [s.rsplit_once(c)]. *)
Fixpoint rsplit_once (c : ascii) (s : list ascii) : option (list ascii * list ascii) :=
  match s with
  | [] => None
  | b :: s => match rsplit_once c s with
              | Some (x, y) => Some (b :: x, y)
              | None => if Ascii.eqb b c then Some ([], s) else None
              end
  end.

(** The id of a file that the daemon owns in [heads/]: [<head_id>.mpk] or
    [<head_id>.json]. *)
Definition head_file_id `{U : UuidLib} (name : string) : option HeadId :=
  match rsplit_once "." (bytes_of name) with
  | None => None
  | Some (stem, ext) =>
      if bool_decide (ext = bytes_of "mpk") || bool_decide (ext = bytes_of "json")
      then match HeadId_parse (string_of_list_ascii stem) with
           | Parsed id => Some id
           | _ => None
           end
      else None
  end.

Record RecoveryWorkspaceReport := mkRecoveryWorkspaceReport {
  workspaces_scanned : nat;
  rw_head_orphans_swept : nat;
  rw_head_count_repaired : nat;
  rw_dataset : nat * nat;          (** [*_tombstones_completed], [*_stage_orphans_swept] *)
  rw_converter : nat * nat;
  rw_training_logs : nat * nat;
  rw_converter_logs : nat * nat;
  incomplete_creates_removed : nat;
  workspace_recovery_failures : nat;
}.

Definition RecoveryWorkspaceReport_default : RecoveryWorkspaceReport :=
  mkRecoveryWorkspaceReport 0 0 0 (0, 0) (0, 0) (0, 0) (0, 0) 0 0.

Record RecoveryRootReport := mkRecoveryRootReport {
  workspace_tombstones_completed : nat;
  workspace_stage_orphans_swept : nat;
}.

Record PerWorkspaceCounts := mkPerWorkspaceCounts {
  head_orphans_swept : nat;
  head_count_repaired : nat;
  dataset_counts : nat * nat;
  converter_counts : nat * nat;
  training_logs_counts : nat * nat;
  converter_logs_counts : nat * nat;
}.

Inductive StagingScope : Type := ScopeDataset | ScopeConverter | ScopeTrainingLogs | ScopeConverterLogs.

Definition scope_prefix (s : StagingScope) : string :=
  match s with
  | ScopeDataset => DATASET_TOMBSTONE_PREFIX
  | ScopeConverter => CONVERTER_TOMBSTONE_PREFIX
  | ScopeTrainingLogs => TRAINING_LOGS_TOMBSTONE_PREFIX
  | ScopeConverterLogs => CONVERTER_LOGS_TOMBSTONE_PREFIX
  end.

(** The drain of a tombstone gives up after this many batches. *)
Definition MAX_DRAIN_ITERS : nat := 1000 * 1000.

Section Recovery.
Context `{U : UuidLib} `{T : TempLib}.
Context `{JC : !Json WorkspaceCore} `{JH : !Json HeadIndex} `{JT : !Json DeleteTombstone}.
Context `{HP : !HashIter string path}.

(** ** Head orphans and the derived count *)

Fixpoint sweep_entries (dir : path) (known : list HeadId) (entries : list string) (removed : nat)
    : M FileError nat :=
  match entries with
  | [] => mret removed
  | name :: entries =>
      let path := dir ++ [name] in
      ft ← attempt (symlink_metadata path);
      match ft with
      | Ok (File _ _) =>
          match head_file_id name with
          | None => sweep_entries dir known entries removed
          | Some id =>
              if bool_decide (id ∈ known) then sweep_entries dir known entries removed
              else
              r ← attempt (fs_remove_file path);
              sweep_entries dir known entries (match r with Ok _ => S removed | Err _ => removed end)
          end
      | _ => sweep_entries dir known entries removed
      end
  end.

Definition sweep_head_orphans (workspace_dir : path) (hs : HeadIndex) : M FileError nat :=
  let dir := heads_dir workspace_dir in
  there ← path_is_dir dir;
  if negb there then mret 0
  else
  let known := map hr_head_id (heads hs) in
  entries ← map_throw (io_err dir) (fs_read_dir dir);
  removed ← sweep_entries dir known entries 0;
  _ ← (if 0 <? removed then best_effort (fsync_dir dir) else mret tt);
  mret removed.

(** [u8::try_from(n).unwrap_or(u8::MAX)]. *)
Definition u8_or_max (n : nat) : Z := if (Z.of_nat n <=? u8_max)%Z then Z.of_nat n else u8_max.

Definition repair_head_count (workspace_dir : path) (hs : HeadIndex) : M FileError nat :=
  r ← attempt (read_workspace_core workspace_dir);
  match r with
  | Err _ => mret 0
  | Ok core =>
      let expected := u8_or_max (List.length (heads hs)) in
      if (core_head_count core =? expected)%Z then mret 0
      else
      let updated := mkWorkspaceCore (core_id core) (core_name core) (core_tags core)
                       (core_created_at core) (core_revision core) expected in
      _ ← write_workspace_core workspace_dir updated;
      mret 1
  end.

(** ** Staging directories *)

(** The first pass: the tombstone files and the stage directories of [prefix]. *)
Fixpoint classify (staging_dir : path) (prefix : string) (entries : list string)
    (tombstone_files : list string) (stage_dirs : gmap string path)
    : M FileError (list string * gmap string path) :=
  match entries with
  | [] => mret (tombstone_files, stage_dirs)
  | name :: entries =>
      ft ← attempt (symlink_metadata (staging_dir ++ [name]));
      match ft with
      | Ok (File _ _) =>
          if String.prefix prefix name && ends_with (bytes_of name) (bytes_of ".json")
          then classify staging_dir prefix entries (tombstone_files ++ [name]) stage_dirs
          else classify staging_dir prefix entries tombstone_files stage_dirs
      | Ok Dir =>
          if String.prefix prefix name
          then classify staging_dir prefix entries tombstone_files (<[name := staging_dir ++ [name]]> stage_dirs)
          else classify staging_dir prefix entries tombstone_files stage_dirs
      | _ => classify staging_dir prefix entries tombstone_files stage_dirs
      end
  end.

(** One staged delete: drained within the cap, then finalized. *)
Definition complete_staged (staged : StagedDelete) : M FileError bool :=
  drain_ok ← attempt (drain_loop staged MAX_DRAIN_ITERS);
  match drain_ok with
  | Ok true =>
      f ← attempt (finalize_staged_delete staged);
      mret (is_ok f)
  | _ => mret false
  end.

(** The second pass; [evict] is the caller's hook on the state it closes over. *)
Fixpoint complete_tombstones {S : Type} (evict : WorkspaceId → S → S) (staging_dir : path)
    (tombstone_files : list string) (stage_dirs : gmap string path) (completed : nat) (s : S)
    : M FileError (gmap string path * nat * S) :=
  match tombstone_files with
  | [] => mret (stage_dirs, completed, s)
  | name :: tombstone_files =>
      let tombstone_path := staging_dir ++ [name] in
      t ← attempt (read_tombstone tombstone_path);
      match t with
      | Err _ =>
          _ ← attempt (fs_remove_file tombstone_path);
          complete_tombstones evict staging_dir tombstone_files stage_dirs completed s
      | Ok t =>
          let staged := for_tombstone staging_dir t in
          let stage_dirs := delete (stage_dir_name t) stage_dirs in
          ok ← complete_staged staged;
          if ok : bool
          then complete_tombstones evict staging_dir tombstone_files stage_dirs (1 + completed)
                 (evict (tombstone_workspace_id t) s)
          else complete_tombstones evict staging_dir tombstone_files stage_dirs completed s
      end
  end.

Fixpoint sweep_stage_orphans (stage_dirs : list (string * path)) (swept : nat) : M FileError nat :=
  match stage_dirs with
  | [] => mret swept
  | (_, path) :: stage_dirs =>
      r ← attempt (fs_remove_dir_all path);
      sweep_stage_orphans stage_dirs (match r with Ok _ => S swept | Err _ => swept end)
  end.

Definition walk_staging {S : Type} (evict : WorkspaceId → S → S) (staging_dir : path) (prefix : string) (s : S)
    : M FileError (nat * nat * S) :=
  entries ← map_throw (io_err staging_dir) (fs_read_dir staging_dir);
  x ← classify staging_dir prefix entries [] ∅;
  let '(tombstone_files, stage_dirs) := x in
  y ← complete_tombstones evict staging_dir tombstone_files stage_dirs 0 s;
  let '(stage_dirs, completed, s) := y in
  orphan_swept ← sweep_stage_orphans (hm_iter stage_dirs) 0;
  _ ← (if (0 <? completed) || (0 <? orphan_swept) then best_effort (fsync_dir staging_dir) else mret tt);
  mret (completed, orphan_swept, s).

Definition drain_staging_dir (staging_dir : path) (scope : StagingScope) : M FileError (nat * nat) :=
  x ← walk_staging (λ _ s, s) staging_dir (scope_prefix scope) tt;
  mret (fst x).

Definition recover_root_staging (root : path) (caches : gmap WorkspaceId WorkspaceCacheCell)
    : M FileError (RecoveryRootReport * gmap WorkspaceId WorkspaceCacheCell) :=
  let staging_dir := root_tmp_dir root in
  there ← path_is_dir staging_dir;
  if negb there then mret (mkRecoveryRootReport 0 0, caches)
  else
  x ← walk_staging (λ ws caches, delete ws caches) staging_dir WORKSPACE_TOMBSTONE_PREFIX caches;
  let '(completed, orphan_swept, caches) := x in
  mret (mkRecoveryRootReport completed orphan_swept, caches).

(** ** One workspace, then all of them *)

(** [heads.json], rewritten empty when it is missing. *)
Definition recover_index (workspace_dir : path) : M FileError HeadIndex :=
  r ← attempt (read_head_index workspace_dir);
  match r with
  | Ok idx => mret idx
  | Err (FE_Io _ IoNotFound) =>
      _ ← write_head_index workspace_dir (mkHeadIndex []);
      mret (mkHeadIndex [])
  | Err e => throw e
  end.

Definition recover_one_workspace (workspace_dir : path) : M FileError PerWorkspaceCounts :=
  hs ← recover_index workspace_dir;
  orphans ← sweep_head_orphans workspace_dir hs;
  repaired ← repair_head_count workspace_dir hs;
  let staging_dir := workspace_dir ++ [".tmp"%string] in
  there ← path_is_dir staging_dir;
  if negb there then mret (mkPerWorkspaceCounts orphans repaired (0, 0) (0, 0) (0, 0) (0, 0))
  else
  d ← drain_staging_dir staging_dir ScopeDataset;
  c ← drain_staging_dir staging_dir ScopeConverter;
  t ← drain_staging_dir staging_dir ScopeTrainingLogs;
  l ← drain_staging_dir staging_dir ScopeConverterLogs;
  mret (mkPerWorkspaceCounts orphans repaired d c t l).

Definition add_pair (a b : nat * nat) : nat * nat := (fst a + fst b, snd a + snd b).

Definition add_counts (per : PerWorkspaceCounts) (r : RecoveryWorkspaceReport) : RecoveryWorkspaceReport :=
  mkRecoveryWorkspaceReport (1 + workspaces_scanned r)
    (rw_head_orphans_swept r + head_orphans_swept per)
    (rw_head_count_repaired r + head_count_repaired per)
    (add_pair (rw_dataset r) (dataset_counts per)) (add_pair (rw_converter r) (converter_counts per))
    (add_pair (rw_training_logs r) (training_logs_counts per))
    (add_pair (rw_converter_logs r) (converter_logs_counts per))
    (incomplete_creates_removed r) (workspace_recovery_failures r).

Definition add_failure (r : RecoveryWorkspaceReport) : RecoveryWorkspaceReport :=
  mkRecoveryWorkspaceReport (workspaces_scanned r) (rw_head_orphans_swept r) (rw_head_count_repaired r)
    (rw_dataset r) (rw_converter r) (rw_training_logs r) (rw_converter_logs r)
    (incomplete_creates_removed r) (1 + workspace_recovery_failures r).

Definition add_removed (n : nat) (r : RecoveryWorkspaceReport) : RecoveryWorkspaceReport :=
  mkRecoveryWorkspaceReport (workspaces_scanned r) (rw_head_orphans_swept r) (rw_head_count_repaired r)
    (rw_dataset r) (rw_converter r) (rw_training_logs r) (rw_converter_logs r)
    (n + incomplete_creates_removed r) (workspace_recovery_failures r).

(** The loop over [workspaces/]; incomplete creates are set aside. *)
Fixpoint recover_entries (workspaces_root : path) (entries : list string) (incomplete_dirs : list path)
    (report : RecoveryWorkspaceReport) : M FileError (list path * RecoveryWorkspaceReport) :=
  match entries with
  | [] => mret (incomplete_dirs, report)
  | name :: entries =>
      let path := workspaces_root ++ [name] in
      ft ← attempt (symlink_metadata path);
      match ft with
      | Ok Dir =>
          there ← path_exists (workspace_core_path path);
          if negb there
          then recover_entries workspaces_root entries (incomplete_dirs ++ [path]) report
          else
          r ← attempt (recover_one_workspace path);
          recover_entries workspaces_root entries incomplete_dirs
            (match r with Ok per => add_counts per report | Err _ => add_failure report end)
      | _ => recover_entries workspaces_root entries incomplete_dirs report
      end
  end.

Fixpoint remove_incomplete (dirs : list path) (removed : nat) : M FileError nat :=
  match dirs with
  | [] => mret removed
  | path :: dirs =>
      r ← attempt (fs_remove_dir_all path);
      remove_incomplete dirs (match r with Ok _ => S removed | Err _ => removed end)
  end.

Definition recover_workspaces (root : path) : M FileError RecoveryWorkspaceReport :=
  let workspaces_root := workspaces_dir root in
  there ← path_is_dir workspaces_root;
  if negb there then mret RecoveryWorkspaceReport_default
  else
  entries ← map_throw (io_err workspaces_root) (fs_read_dir workspaces_root);
  x ← recover_entries workspaces_root entries [] RecoveryWorkspaceReport_default;
  let '(incomplete_dirs, report) := x in
  removed ← remove_incomplete incomplete_dirs 0;
  _ ← (if 0 <? removed then best_effort (fsync_dir workspaces_root) else mret tt);
  mret (add_removed removed report).

End Recovery.
