(* ===== verification/ActiveRecovery.v ===== *)
(** * Boot recovery of the active head ([src/modules/file_mgr/recovery.rs], 1A)

    Verifying a generation against its manifest, regenerating [labels.txt],
    promoting the newest valid previous generation, falling back to the bundled
    default; and [recover_all], which runs the three sweeps in order.

    Parameters: the modification time of a file, the rendered text of an
    activation error, and those of [ActiveHead]. *)

From stdpp Require Import sorting.
From S2P Require Import Prelude Ids AssetPath Common Text Workspace Broadcast JobRegistry FileSystem FsLogic FsAtomic Schema ActiveHead Staging Recovery.

Section ActiveRecovery.
Context `{U : UuidLib} `{T : TempLib} `{H : Sha256Lib}.
Context `{JC : !Json WorkspaceCore} `{JI : !Json HeadIndex} `{JT : !Json DeleteTombstone}.
Context `{JM : !Json HeadManifest} `{JP : !Json ActiveCurrentPointer} `{JA : !Json ActiveHeadManifest}.
Context `{HP : !HashIter string path}.
Context {Candidate : Type}.
Variable mtime : path → Z.
Variable error_text : ActivationError → string.

Inductive RecoveryError : Type :=
  | RE_File (e : FileError)
  | RE_Activation (e : ActivationError)
  | RE_Validation (e : ActiveHeadValidationError).

Definition RecoveryError_kind (e : RecoveryError) : ErrorKind := Internal.

Inductive RecoveryActiveResult : Type :=
  | Current (activation_id : string) (manifest : ActiveHeadManifest)
  | PromotedPrevious (activation_id : string) (manifest : ActiveHeadManifest)
  | DefaultedFromBundle (activation_id : string) (manifest : ActiveHeadManifest)
  | Unhealthy (reason : string).

Definition unhealthy_reason (r : RecoveryActiveResult) : option string :=
  match r with Unhealthy reason => Some reason | _ => None end.

Record RecoveryReport := mkRecoveryReport {
  rr_active : RecoveryActiveResult;
  rr_workspaces : RecoveryWorkspaceReport;
  rr_root_staging : RecoveryRootReport;
}.

Inductive VerifyOutcome : Type :=
  | VerifyOk (manifest : ActiveHeadManifest)
  | VerifyFailed.

(** ** Hashing and labels *)

Definition STREAM_HASH_CHUNK : nat := 32 * 1024.

Fixpoint hash_loop (chunk fuel : nat) (p : path) (off : nat) (s : sha_state) : M FileError sha_state :=
  match fuel with
  | 0 => throw (io_err p IoOther)
  | S fuel =>
      buf ← map_throw (io_err p) (fs_read_at p off chunk);
      if (List.length buf =? 0) then mret s
      else hash_loop chunk fuel p (off + List.length buf) (sha_update s buf)
  end.

(** Open, hash in reads of [chunk] bytes, render. *)
Definition sha256_reading (chunk : nat) (p : path) : M FileError string :=
  _ ← map_throw (io_err p) (fs_open p);
  s ← with_tree (λ m, hash_loop chunk (2 + file_len p m / chunk) p 0 sha_new);
  mret (string_of_list_ascii (hex_lowercase (sha_finalize s))).

Definition sha256_stream (p : path) : M FileError string := sha256_reading STREAM_HASH_CHUNK p.

(** Of [file_mgr/validate.rs]. *)
Definition sha256_file_streaming (p : path) : M FileError string := sha256_reading (64 * 1024) p.

(** The loop over [manifest.labels] with a newline before every label but the
    first. *)
Fixpoint render_labels (i : nat) (labels : list string) : list ascii :=
  match labels with
  | [] => []
  | l :: labels => (if 0 <? i then [lf] else []) ++ bytes_of l ++ render_labels (S i) labels
  end.

Definition regenerate_labels_from_manifest (labels_path : path) (manifest : ActiveHeadManifest)
    : M FileError unit :=
  put_atomic labels_path (render_labels 0 (am_labels manifest)).

(** ** One generation *)

Definition verify_generation (root : path) (activation_id : string) : M RecoveryError VerifyOutcome :=
  r ← attempt (read_active_manifest root activation_id);
  match r with
  | Err _ => mret VerifyFailed
  | Ok manifest =>
  match ActiveHeadManifest_validate manifest with
  | None => panic
  | Some (Err _) => mret VerifyFailed
  | Some (Ok _) =>
  let gen_dir := active_generation_dir root activation_id in
  h ← attempt (sha256_stream (gen_dir ++ [ACTIVE_HEAD_FILENAME]));
  if match h with Ok observed => String.eqb observed (am_sha256 manifest) | Err _ => false end
  then
    let labels_path := gen_dir ++ [ACTIVE_LABELS_FILENAME] in
    l ← attempt (sha256_stream labels_path);
    let labels_ok := match l with Ok observed => String.eqb observed (am_labels_sha256 manifest) | Err _ => false end in
    _ ← (if labels_ok then mret tt
         else map_throw RE_File (regenerate_labels_from_manifest labels_path manifest));
    mret (VerifyOk manifest)
  else mret VerifyFailed
  end
  end.

(** ** The bundled default *)

Definition activate_bundled_default (activation_id now_rfc3339 : string) (root : path)
    (default_head : option DefaultHeadSource) (loader : HeadInnerLoader (Candidate := Candidate))
    : M RecoveryError RecoveryActiveResult :=
  match default_head with
  | None => mret (Unhealthy "head.default not configured in launch config")
  | Some default_head =>
      r ← attempt (stage_and_validate_activation activation_id
            (mkPendingActivation root (OriginInputDefault default_head) now_rfc3339) loader);
      match r with
      | Err e => mret (Unhealthy ("bundled default activation failed: " ++ error_text e))
      | Ok result =>
          p ← attempt (publish_active_generation root (staging_path_for root (ar_activation_id result))
                         (ar_activation_id result));
          match p with
          | Err e => mret (Unhealthy ("bundled default publish failed: " ++ error_text e))
          | Ok _ => mret (DefaultedFromBundle (ar_activation_id result) (ar_manifest result))
          end
      end
  end.

(** ** The previous generations *)

Definition candidate : Type := string * Z * string.

(** [b.0.cmp(&a.0).then(b.1.cmp(&a.1)).then(a.2.cmp(&b.2))]. *)
Definition candidate_cmp (a b : candidate) : comparison :=
  match String.compare (fst (fst b)) (fst (fst a)) with
  | Eq => match Z.compare (snd (fst b)) (snd (fst a)) with
          | Eq => String.compare (snd a) (snd b)
          | c => c
          end
  | c => c
  end.
Definition candidate_le (a b : candidate) : Prop := candidate_cmp a b ≠ Gt.

#[export] Instance candidate_le_dec a b : Decision (candidate_le a b).
Proof. unfold candidate_le. destruct (candidate_cmp a b); [left|left|right]; congruence. Defined.

Fixpoint collect_candidates (root : path) (current_id : option string) (entries : list string)
    : M RecoveryError (list candidate) :=
  match entries with
  | [] => mret []
  | name :: entries =>
      if bool_decide (Some name = current_id) then collect_candidates root current_id entries
      else
      md ← attempt (symlink_metadata (active_generations_dir root ++ [name]));
      match md with
      | Ok Dir =>
          am ← attempt (read_active_manifest root name);
          let activated_at := match am with Ok m => am_activated_at m | Err _ => ""%string end in
          rest ← collect_candidates root current_id entries;
          mret ((activated_at, mtime (active_generations_dir root ++ [name]), name) :: rest)
      | _ => collect_candidates root current_id entries
      end
  end.

(** The first candidate that verifies is promoted. *)
Fixpoint promote_first (root : path) (cands : list candidate)
    : M RecoveryError (option RecoveryActiveResult) :=
  match cands with
  | [] => mret None
  | (_, _, candidate_id) :: cands =>
      v ← verify_generation root candidate_id;
      match v with
      | VerifyOk manifest =>
          _ ← map_throw RE_File (write_active_current root (mkActiveCurrentPointer candidate_id));
          _ ← best_effort (fsync_dir (active_dir root));
          mret (Some (PromotedPrevious candidate_id manifest))
      | VerifyFailed => promote_first root cands
      end
  end.

Definition promote_or_default (fresh now_rfc3339 : string) (root : path) (current_id : option string)
    (default_head : option DefaultHeadSource) (loader : HeadInnerLoader (Candidate := Candidate))
    : M RecoveryError RecoveryActiveResult :=
  let generations_root := active_generations_dir root in
  there ← path_is_dir generations_root;
  if negb there then activate_bundled_default fresh now_rfc3339 root default_head loader
  else
  entries ← map_throw (λ e, RE_File (io_err generations_root e)) (fs_read_dir generations_root);
  candidates ← collect_candidates root current_id entries;
  r ← promote_first root (merge_sort candidate_le candidates);
  match r with
  | Some r => mret r
  | None => activate_bundled_default fresh now_rfc3339 root default_head loader
  end.

Definition recover_active_head (fresh now_rfc3339 : string) (root : path)
    (default_head : option DefaultHeadSource) (loader : HeadInnerLoader (Candidate := Candidate))
    : M RecoveryError RecoveryActiveResult :=
  there ← path_exists (active_current_path root);
  if negb there then activate_bundled_default fresh now_rfc3339 root default_head loader
  else
  r ← attempt (read_active_current root);
  match r with
  | Err _ => promote_or_default fresh now_rfc3339 root None default_head loader
  | Ok pointer =>
      v ← verify_generation root (Schema.activation_id pointer);
      match v with
      | VerifyOk manifest => mret (Current (Schema.activation_id pointer) manifest)
      | VerifyFailed =>
          promote_or_default fresh now_rfc3339 root (Some (Schema.activation_id pointer)) default_head loader
      end
  end.

(** ** All three sweeps *)

Definition recover_all (fresh now_rfc3339 : string) (root : path) (default_head : option DefaultHeadSource)
    (caches : gmap WorkspaceId WorkspaceCacheCell) (loader : HeadInnerLoader (Candidate := Candidate))
    : M RecoveryError (RecoveryReport * gmap WorkspaceId WorkspaceCacheCell) :=
  x ← map_throw RE_File (recover_root_staging root caches);
  let '(root_staging, caches) := x in
  workspaces ← map_throw RE_File (recover_workspaces root);
  active ← recover_active_head fresh now_rfc3339 root default_head loader;
  mret (mkRecoveryReport active workspaces root_staging, caches).

End ActiveRecovery.
