(* ===== verification/RecoveryFacts.v ===== *)
(** * What boot recovery restores

    The exact tree an undisturbed sweep leaves: staged deletes completed, head
    orphans removed, the derived count repaired, nothing else touched; and what
    no sweep can lose, wherever it is cut. *)

From S2P Require Import Prelude Ids AssetPath Common Workspace Broadcast JobRegistry FileSystem FsLogic FsAtomic Schema Staging StagingFacts FsRun AssetTree HeadRotation Recovery.

Lemma without_equiv S T m : (∀ p, p ∈ S ↔ p ∈ T) → without S m = without T m.
Proof.
  intros H. apply without_ext. intros q _. apply eq_true_iff_eq. rewrite !existsb_below. naive_solver.
Qed.

Lemma without_names_equiv (dir : path) (S T : list string) m :
  (∀ x, x ∈ S ↔ x ∈ T) → without (map (λ x, dir ++ [x]) S) m = without (map (λ x, dir ++ [x]) T) m.
Proof.
  intros H. apply without_equiv. intros p. rewrite !list_elem_of_fmap. naive_solver.
Qed.

(** ** One staged delete *)

(** What is gone and what is untouched determine the tree. *)
Lemma tail_gone staged m m' :
  tail_step staged m m' → gone staged m' → m' = without [stage_dir staged; tombstone staged] m.
Proof.
  intros (Hst & Hout & Hsub) [Hg Ht]. apply map_eq. intros q. rewrite lookup_without. cbn.
  rewrite orb_false_r. destruct (below (stage_dir staged) q) eqn:Hb; cbn; [by apply Hg|].
  destruct (below (tombstone staged) q) eqn:Hbt; [|apply Hout; [done|]; by apply below_false_neq].
  apply below_true in Hbt as [k ->]. destruct k as [|x k]; [by rewrite app_nil_r|].
  apply eq_None_not_Some. intros Hs.
  destruct (below_trans m' (tombstone staged) (x :: k) (sg_wf _ _ Hst) Hs) as [Hd _]; [done|]. congruence.
Qed.

Lemma evals_complete_staged staged m :
  staged_tree staged m → size m < MAX_DRAIN_ITERS * DEFAULT_DELETE_BATCH_ENTRIES →
  evals m (complete_staged staged) (Ok true) (without [stage_dir staged; tombstone staged] m).
Proof.
  intros Hst Hsize d Hd. unfold complete_staged.
  destruct (evals_of_sure _ _ _ _ (sure_drain_loop staged MAX_DRAIN_ITERS m Hst) d Hd)
    as (b & d1 & E1 & [Hn1 (H1 & H2 & H3)]).
  specialize (H3 Hsize). subst b. specialize (H2 eq_refl).
  destruct (evals_of_sure _ _ _ _ (sure_finalize staged _ (proj1 H1) H2) d1 (conj Hn1 eq_refl))
    as (u & d2 & E2 & [Hn2 (H4 & H5)]).
  exists d2. split.
  - unfold attempt, mbind, M_bind. rewrite E1, E2. done.
  - split; [done|]. symmetry. apply tail_gone; [by eapply tail_trans|done].
Qed.

(** ** The walk of a staging directory *)

Definition is_tomb (pre name : string) : bool :=
  String.prefix pre name && ends_with (bytes_of name) (bytes_of ".json").

Section Walk.
Context `{UL : UuidLaws} `{JT : !Json DeleteTombstone} `{HP : !HashIter string path}.
Variables (pre : string) (dir : path).

Definition tomb_at (m : fs) (name : string) : bool :=
  match m !! (dir ++ [name]) with Some (File _ _) => is_tomb pre name | _ => false end.
Definition stage_at (m : fs) (name : string) : bool :=
  match m !! (dir ++ [name]) with Some Dir => String.prefix pre name | _ => false end.

(** The tombstone a file holds. *)
Definition tomb_of (m : fs) (name : string) : option DeleteTombstone :=
  match m !! (dir ++ [name]) with Some (File c _) => from_slice c | _ => None end.

(** What the daemon writes in a staging directory: a tombstone file carries its
    own name, its stage directory holds the payload and nothing else. *)
Record staging_ok (m : fs) : Prop := {
  so_wf : wf_tree m;
  so_dir : m !! dir = Some Dir;
  so_tomb : ∀ name t, tomb_at m name = true → tomb_of m name = Some t →
    prefix t = pre ∧ filename t = name ∧
    (m !! (dir ++ [stage_dir_name t]) = None ∨ m !! (dir ++ [stage_dir_name t]) = Some Dir);
  so_stage : ∀ name y, String.prefix pre name = true → is_Some (m !! (dir ++ [name; y])) → y = STAGED_PAYLOAD_NAME;
}.

Lemma staging_tree m name t :
  staging_ok m → tomb_at m name = true → tomb_of m name = Some t → staged_tree (for_tombstone dir t) m.
Proof.
  intros [] Hname Ht. destruct (so_tomb0 name t Hname Ht) as (Hp & Hf & Hs). split.
  - done.
  - exists dir, (stage_dir_name t), (filename t). cbn. split_and!; try done.
    unfold filename, stage_dir_name. intros E. apply (f_equal String.length) in E.
    rewrite !string_length_app in E. cbn in E. lia.
  - cbn. by rewrite parent_app.
  - done.
  - cbn. rewrite Hf. unfold tomb_at in Hname. by destruct (m !! (dir ++ [name])) as [[]|].
  - cbn. intros y. rewrite <-app_assoc. cbn. intros Hy. apply (so_stage0 (stage_dir_name t)); [|done].
    unfold stage_dir_name. rewrite Hp. apply prefix_app.
Qed.

(** Removing whole entries of the directory keeps its shape. *)
Lemma staging_without names m : staging_ok m → staging_ok (without (map (λ x, dir ++ [x]) names) m).
Proof.
  intros [].
  assert (Hpart : ∀ q n, without (map (λ x, dir ++ [x]) names) m !! q = Some n → m !! q = Some n).
  { intros q n Hq. eapply lookup_weaken; [exact Hq|apply without_sub]. }
  split.
  - by apply without_wf.
  - rewrite lookup_without. destruct (existsb (λ p, below p dir) _) eqn:E; [|done].
    apply existsb_below in E as (p & Hp & [k Hk]%below_true). apply list_elem_of_fmap in Hp as (x & -> & _).
    rewrite <-app_assoc in Hk. apply (f_equal (@List.length _)) in Hk. rewrite length_app in Hk. cbn in Hk. lia.
  - intros name t H1 H2. unfold tomb_at, tomb_of in *.
    destruct (without _ m !! (dir ++ [name])) as [[c b| |]|] eqn:E; try done. apply Hpart in E.
    destruct (so_tomb0 name t) as (A & B & C); [by rewrite E|by rewrite E|]. split_and!; [done|done|].
    destruct (without _ m !! (dir ++ [stage_dir_name t])) as [n|] eqn:E'; [right|by left].
    apply Hpart in E'. destruct C; congruence.
  - intros name y Hn [n Hy]. apply Hpart in Hy. eapply so_stage0; eauto.
Qed.

Lemma sibling_kept names m name :
  name ∉ names → without (map (λ x, dir ++ [x]) names) m !! (dir ++ [name]) = m !! (dir ++ [name]).
Proof.
  intros Hn. rewrite lookup_without. destruct (existsb _ _) eqn:E; [|done].
  apply existsb_below in E as (p & Hp & Hb). apply list_elem_of_fmap in Hp as (x & -> & Hx).
  rewrite not_below_sibling in Hb; [done|]. by intros ->.
Qed.

Lemma tomb_at_kept names m name :
  name ∉ names → tomb_at (without (map (λ x, dir ++ [x]) names) m) name = tomb_at m name.
Proof. intros Hn. unfold tomb_at. by rewrite sibling_kept. Qed.
Lemma tomb_of_kept names m name :
  name ∉ names → tomb_of (without (map (λ x, dir ++ [x]) names) m) name = tomb_of m name.
Proof. intros Hn. unfold tomb_of. by rewrite sibling_kept. Qed.

Lemma size_without S m : size (without S m) ≤ size m.
Proof. apply map_subseteq_size, without_sub. Qed.

(** The first pass sorts the entries. *)
Definition add_stage (m : fs) (acc : gmap string path) (name : string) : gmap string path :=
  if stage_at m name then <[name := dir ++ [name]]> acc else acc.

Lemma evals_classify m names files dirs :
  (∀ name, name ∈ names → is_Some (m !! (dir ++ [name]))) →
  evals m (classify dir pre names files dirs)
    (Ok (files ++ List.filter (tomb_at m) names, foldl (add_stage m) dirs names)) m.
Proof.
  revert files dirs. induction names as [|name names IH]; intros files dirs Hn; cbn [classify].
  { rewrite app_nil_r. apply evals_ret. }
  destruct (Hn name) as [n Hname]; [left|].
  pose proof (evals_metadata m (dir ++ [name])) as Hmd. rewrite Hname in Hmd.
  eapply evals_bind; [by apply evals_attempt|]. cbv beta iota.
  assert (IH' : ∀ files dirs, evals m (classify dir pre names files dirs)
    (Ok (files ++ List.filter (tomb_at m) names, foldl (add_stage m) dirs names)) m).
  { intros f ds. apply IH. intros y Hy. apply Hn. by right. }
  assert (Ht : tomb_at m name = match n with File _ _ => is_tomb pre name | _ => false end)
    by (unfold tomb_at; by rewrite Hname).
  assert (Hs : add_stage m dirs name =
    match n with Dir => if String.prefix pre name then <[name := dir ++ [name]]> dirs else dirs | _ => dirs end).
  { unfold add_stage, stage_at. rewrite Hname. by destruct n. }
  cbn [List.filter foldl]. rewrite Ht, Hs.
  destruct n as [c b| |].
  - unfold is_tomb. destruct (String.prefix pre name && _); [|apply IH'].
    change (name :: List.filter (tomb_at m) names) with ([name] ++ List.filter (tomb_at m) names).
    rewrite app_assoc. apply IH'.
  - destruct (String.prefix pre name); apply IH'.
  - apply IH'.
Qed.

Lemma stages_lookup m names dirs name :
  foldl (add_stage m) dirs names !! name =
    if bool_decide (name ∈ names) && stage_at m name then Some (dir ++ [name]) else dirs !! name.
Proof.
  revert dirs. induction names as [|x names IH]; intros dirs; cbn [foldl].
  { by rewrite bool_decide_eq_false_2 by apply not_elem_of_nil. }
  rewrite IH. unfold add_stage. destruct (decide (name ∈ names)) as [Hn|Hn].
  - rewrite !bool_decide_eq_true_2 by (done || by right). destruct (stage_at m name) eqn:E; [done|].
    cbn. destruct (decide (x = name)) as [->|Hx]; [by rewrite E|].
    destruct (stage_at m x); [by rewrite lookup_insert_ne|done].
  - rewrite (bool_decide_eq_false_2 (name ∈ names)) by done. cbn [andb].
    destruct (decide (x = name)) as [->|Hx].
    + rewrite bool_decide_eq_true_2 by left. cbn. destruct (stage_at m name); [by rewrite lookup_insert_eq|done].
    + rewrite bool_decide_eq_false_2 by (by rewrite elem_of_cons; intros [?|?]; congruence). cbn.
      destruct (stage_at m x); [by rewrite lookup_insert_ne|done].
Qed.

Lemma omap_ext_in {A B : Type} (f g : A → option B) (l : list A) : (∀ x, x ∈ l → f x = g x) → omap f l = omap g l.
Proof.
  induction l as [|x l IH]; intros H; [done|]. cbn. rewrite (H x) by left. rewrite IH; [done|].
  intros y Hy. apply H. by right.
Qed.

(** The second pass completes every parsed tombstone and drops the others. *)
Lemma evals_complete_tombstones {St : Type} (evict : WorkspaceId → St → St) files dirs completed s m :
  staging_ok m → size m < MAX_DRAIN_ITERS * DEFAULT_DELETE_BATCH_ENTRIES →
  NoDup files → (∀ name, name ∈ files → tomb_at m name = true) →
  let ts := omap (tomb_of m) files in
  evals m (complete_tombstones evict dir files dirs completed s)
    (Ok (foldl (λ ds t, delete (stage_dir_name t) ds) dirs ts, completed + List.length ts,
         foldl (λ s t, evict (tombstone_workspace_id t) s) s ts))
    (without (map (λ x, dir ++ [x]) (files ++ map stage_dir_name ts)) m).
Proof.
  revert dirs completed s m. induction files as [|name files IH]; intros dirs completed s m Hok Hsize Hnd Hf;
    cbn [complete_tombstones omap list_omap].
  { cbn. rewrite without_nil, Nat.add_0_r. apply evals_ret. }
  pose proof (Hf name ltac:(left)) as Hname.
  destruct (m !! (dir ++ [name])) as [n|] eqn:Hn; [|unfold tomb_at in Hname; by rewrite Hn in Hname].
  assert (∃ c b, n = File c b) as (c & b & ->) by (unfold tomb_at in Hname; rewrite Hn in Hname; destruct n; [eauto|done..]).
  apply NoDup_cons_1_1 in Hnd as Hni. apply NoDup_cons_1_2 in Hnd.
  assert (Hrest : ∀ gone dirs completed s, (∀ y, y ∈ files → y ∉ gone) →
    let ts := omap (tomb_of m) files in
    evals (without (map (λ x, dir ++ [x]) gone) m) (complete_tombstones evict dir files dirs completed s)
      (Ok (foldl (λ ds t, delete (stage_dir_name t) ds) dirs ts, completed + List.length ts,
           foldl (λ s t, evict (tombstone_workspace_id t) s) s ts))
      (without (map (λ x, dir ++ [x]) (gone ++ files ++ map stage_dir_name ts)) m)).
  { intros gone ds k s' Hg ts. rewrite map_app, <-without_app.
    replace ts with (omap (tomb_of (without (map (λ x, dir ++ [x]) gone) m)) files).
    - apply IH; [by apply staging_without|pose proof (size_without (map (λ x, dir ++ [x]) gone) m); lia|done|].
      intros y Hy. rewrite tomb_at_kept by auto. apply Hf. by right.
    - apply omap_ext_in. intros y Hy. apply tomb_of_kept. auto. }
  assert (Htomb : tomb_of m name = from_slice c) by (unfold tomb_of; by rewrite Hn).
  rewrite !Htomb. destruct (from_slice c) as [t|] eqn:Ht.
  - destruct (so_tomb m Hok name t Hname Htomb) as (Hp & Hfn & Hsd).
    eapply evals_bind.
    { apply (evals_attempt m m _ (Ok t)). unfold read_tombstone.
      eapply evals_bind; [by eapply evals_read_file|]. by apply evals_parse. }
    cbv beta iota. eapply evals_bind.
    { apply evals_complete_staged; [by eapply staging_tree|done]. }
    cbn [stage_dir tombstone for_tombstone]. rewrite Hfn.
    specialize (Hrest [stage_dir_name t; name] (delete (stage_dir_name t) dirs) (1 + completed)
      (evict (tombstone_workspace_id t) s)).
    cbn [map foldl List.length].
    replace (completed + S (List.length (omap (tomb_of m) files))) with
      (1 + completed + List.length (omap (tomb_of m) files)) by lia.
    replace (without (map _ ((name :: files) ++ _)) m) with
      (without (map (λ x, dir ++ [x]) ([stage_dir_name t; name] ++ files ++ map stage_dir_name (omap (tomb_of m) files))) m).
    + apply Hrest. intros y Hy. rewrite !elem_of_cons. intros [->|[->|?%elem_of_nil]]; try done.
      pose proof (Hf (stage_dir_name t) ltac:(by right)) as Hy'. unfold tomb_at in Hy'.
      by destruct Hsd as [E|E]; rewrite E in Hy'.
    + apply without_names_equiv. intros y. cbn [map]. rewrite !elem_of_app, !elem_of_cons, elem_of_nil. tauto.
  - eapply evals_bind.
    { apply (evals_attempt m m _ (Err (FE_MetadataParse (display (dir ++ [name]))))). unfold read_tombstone.
      eapply evals_bind; [by eapply evals_read_file|]. unfold parse. rewrite Ht. apply evals_throw. }
    cbv beta iota. eapply evals_bind.
    { apply evals_attempt. by apply (evals_remove_file m _ (File c b)). }
    rewrite (delete_file_without m _ (File c b)) by (done || apply Hok).
    apply (Hrest [name]). intros y Hy. rewrite elem_of_cons. intros [->|?%elem_of_nil]; done.
Qed.

(** The last pass removes the stage directories nothing claims. *)
Lemma evals_sweep_stage_orphans l swept m :
  wf_tree m → NoDup (map fst l) → (∀ x, x ∈ l → snd x = dir ++ [fst x] ∧ m !! (dir ++ [fst x]) = Some Dir) →
  evals m (sweep_stage_orphans l swept) (Ok (swept + List.length l))
    (without (map (λ x, dir ++ [x]) (map fst l)) m).
Proof.
  revert swept m. induction l as [|[name p] l IH]; intros swept m Hwf Hnd Hl; cbn [sweep_stage_orphans map fst List.length].
  { rewrite without_nil, Nat.add_0_r. apply evals_ret. }
  destruct (Hl (name, p)) as [Hp Hd]; [left|]. cbn in Hp, Hd. subst p.
  cbn [map fst] in Hnd. apply NoDup_cons_1_1 in Hnd as Hni. apply NoDup_cons_1_2 in Hnd.
  eapply evals_bind; [apply evals_attempt; by apply evals_remove_dir_all|]. cbv beta iota.
  change ((dir ++ [name]) :: map (λ x, dir ++ [x]) (map fst l)) with
    ([dir ++ [name]] ++ map (λ x, dir ++ [x]) (map fst l)).
  rewrite <-without_app, <-plus_n_Sm. apply (IH (S swept)); [by apply without_wf|done|].
  intros [y q] Hy. destruct (Hl (y, q)) as [H1 H2]; [by right|]. split; [done|]. cbn [fst] in *.
  rewrite (sibling_kept [name]); [done|]. rewrite elem_of_cons. intros [->|?%elem_of_nil]; [|done].
  apply Hni. apply list_elem_of_fmap. by exists (name, q).
Qed.

Definition staged_names (m : fs) : list string :=
  List.filter (λ n, tomb_at m n || stage_at m n) (children dir m).
Definition staged_tombs (m : fs) : list DeleteTombstone :=
  omap (tomb_of m) (List.filter (tomb_at m) (children dir m)).

(** The staging directory after the walk: no tombstone and no stage directory
    of this prefix is left. *)
Definition staging_swept (m : fs) : fs := without (map (λ x, dir ++ [x]) (staged_names m)) m.

Lemma deleted_stages_lookup (ts : list DeleteTombstone) (dirs : gmap string path) name :
  foldl (λ ds t, delete (stage_dir_name t) ds) dirs ts !! name =
    if bool_decide (name ∈ map stage_dir_name ts) then None else dirs !! name.
Proof.
  revert dirs. induction ts as [|t ts IH]; intros dirs; cbn [foldl map].
  { by rewrite bool_decide_eq_false_2 by apply not_elem_of_nil. }
  rewrite IH. destruct (decide (name ∈ map stage_dir_name ts)) as [Hn|Hn].
  - by rewrite !bool_decide_eq_true_2 by (done || by right).
  - rewrite (bool_decide_eq_false_2 (name ∈ map stage_dir_name ts)) by done.
    destruct (decide (name = stage_dir_name t)) as [->|Hne].
    + rewrite lookup_delete_eq, bool_decide_eq_true_2; [done|left].
    + rewrite lookup_delete_ne by done. rewrite bool_decide_eq_false_2; [done|].
      rewrite elem_of_cons. naive_solver.
Qed.

Lemma staged_tombs_in m t : t ∈ staged_tombs m →
  ∃ name, name ∈ children dir m ∧ tomb_at m name = true ∧ tomb_of m name = Some t.
Proof.
  unfold staged_tombs. rewrite list_elem_of_omap. intros (name & Hn & Ht).
  apply list_elem_of_In, filter_In in Hn as [Hn%list_elem_of_In Ht']. eauto.
Qed.

(** What the three passes remove is exactly the staged names. *)
Lemma walk_names (dirs : gmap string path) m name :
  staging_ok m →
  dirs = foldl (λ ds t, delete (stage_dir_name t) ds) (foldl (add_stage m) ∅ (children dir m)) (staged_tombs m) →
  is_Some (m !! (dir ++ [name])) →
  name ∈ (List.filter (tomb_at m) (children dir m) ++ map stage_dir_name (staged_tombs m)) ++ map fst (hm_iter dirs) ↔
  name ∈ staged_names m.
Proof.
  intros Hok -> Hs. rewrite !elem_of_app. unfold staged_names.
  rewrite !list_elem_of_In, !filter_In, <-!list_elem_of_In, orb_true_iff, hm_iter_perm.
  pose proof (proj2 (children_spec dir m name) Hs) as Hc. split.
  - intros [[[_ Ht]|Ht]|Ho]; (split; [done|]); [by left|right..].
    + apply list_elem_of_fmap in Ht as (t & -> & Ht). apply staged_tombs_in in Ht as (nm & Hnm & H1 & H2).
      destruct (so_tomb m Hok nm t H1 H2) as (Hp & _ & [Hd|Hd]); [by rewrite Hd in Hs; destruct Hs|].
      unfold stage_at. rewrite Hd. unfold stage_dir_name. rewrite Hp. apply prefix_app.
    + apply list_elem_of_fmap in Ho as ([nm p] & -> & Ho%elem_of_map_to_list). cbn [fst] in *.
      rewrite deleted_stages_lookup, stages_lookup in Ho.
      rewrite (bool_decide_eq_true_2 (nm ∈ children dir m)) in Ho by done.
      case_bool_decide; [done|]. cbn [andb] in Ho. destruct (stage_at m nm); [done|]. by rewrite lookup_empty in Ho.
  - intros [_ [Ht|Hst]]; [by left; left|].
    destruct (decide (name ∈ map stage_dir_name (staged_tombs m))) as [Hin|Hin]; [by left; right|right].
    apply list_elem_of_fmap. exists (name, dir ++ [name]). split; [done|]. apply elem_of_map_to_list.
    rewrite deleted_stages_lookup, stages_lookup.
    rewrite (bool_decide_eq_true_2 (name ∈ children dir m)) by done.
    rewrite (bool_decide_eq_false_2 (name ∈ map _ _)) by done. by rewrite Hst.
Qed.

(** The whole walk. *)
Lemma evals_walk_staging {St : Type} (evict : WorkspaceId → St → St) s m :
  staging_ok m → size m < MAX_DRAIN_ITERS * DEFAULT_DELETE_BATCH_ENTRIES →
  ∃ swept, evals m (walk_staging evict dir pre s)
    (Ok (List.length (staged_tombs m), swept,
         foldl (λ s t, evict (tombstone_workspace_id t) s) s (staged_tombs m)))
    (staging_swept m).
Proof.
  intros Hok Hsize. set (files := List.filter (tomb_at m) (children dir m)).
  set (stages := foldl (add_stage m) ∅ (children dir m)).
  set (dirs := foldl (λ ds t, delete (stage_dir_name t) ds) stages (staged_tombs m)).
  set (gone := files ++ map stage_dir_name (staged_tombs m)).
  exists (List.length (hm_iter dirs)). unfold walk_staging.
  pose proof (evals_read_dir m dir) as Hrd. rewrite (so_dir m Hok) in Hrd.
  eapply evals_bind; [by apply (evals_map_throw _ _ _ _ (Ok (children dir m)))|].
  eapply evals_bind; [apply evals_classify; intros y Hy; by apply children_spec|].
  cbv beta iota. cbn [app]. fold files stages.
  assert (Hfiles : ∀ y, y ∈ files → tomb_at m y = true).
  { intros y Hy. by apply list_elem_of_In, filter_In in Hy as [_ Hy]. }
  eapply evals_bind.
  { apply (evals_complete_tombstones evict files stages 0 s m Hok Hsize); [|exact Hfiles].
    apply NoDup_ListNoDup, List.NoDup_filter, NoDup_ListNoDup, children_nodup. }
  cbv beta iota. change (omap (tomb_of m) files) with (staged_tombs m). fold gone dirs. cbn [Nat.add].
  set (m1 := without (map (λ x, dir ++ [x]) gone) m).
  assert (Hmem : ∀ x, x ∈ hm_iter dirs → snd x = dir ++ [fst x] ∧ stage_at m (fst x) = true ∧
    fst x ∉ map stage_dir_name (staged_tombs m)).
  { intros [name p] Hx. rewrite hm_iter_perm in Hx. apply elem_of_map_to_list in Hx. cbn [fst snd].
    unfold dirs, stages in Hx. rewrite deleted_stages_lookup, stages_lookup in Hx.
    case_bool_decide as Hin; [done|]. rewrite lookup_empty in Hx. case_bool_decide; [|done]. cbn [andb] in Hx.
    destruct (stage_at m name) eqn:E; [|done]. by injection Hx as <-. }
  assert (Hm1 : ∀ x, x ∈ hm_iter dirs → m1 !! (dir ++ [fst x]) = Some Dir).
  { intros x Hx. apply Hmem in Hx as (_ & Hst & Hni). unfold m1. rewrite sibling_kept.
    - unfold stage_at in Hst. by destruct (m !! (dir ++ [fst x])) as [[]|].
    - unfold gone. rewrite elem_of_app. intros [Hf%Hfiles|Hf]; [|done].
      unfold tomb_at in Hf. unfold stage_at in Hst. by destruct (m !! (dir ++ [fst x])) as [[]|]. }
  eapply evals_bind.
  { apply (evals_sweep_stage_orphans (hm_iter dirs) 0 m1); [by apply without_wf, Hok| |].
    - rewrite hm_iter_perm. apply NoDup_fst_map_to_list.
    - intros x Hx. split; [by apply Hmem|by apply Hm1]. }
  cbn [Nat.add]. set (m2 := without _ m1).
  assert (Hm2 : m2 = staging_swept m).
  { unfold m2, m1, staging_swept. rewrite without_app, <-map_app. apply without_ext. intros q Hq.
    apply eq_true_iff_eq. rewrite !existsb_below.
    assert (Hup : ∀ y, below (dir ++ [y]) q = true → is_Some (m !! (dir ++ [y]))).
    { intros y [k ->]%below_true. destruct k as [|z k]; [by rewrite app_nil_r in Hq|].
      exists Dir. by apply (below_trans m _ (z :: k) (so_wf m Hok)). }
    split; intros (p & Hp & Hb); exists p; (split; [|done]);
      apply list_elem_of_fmap in Hp as (y & -> & Hy); apply list_elem_of_fmap; exists y; (split; [done|]);
      by apply (walk_names dirs m y Hok eq_refl (Hup y Hb)). }
  rewrite Hm2. eapply evals_bind; [|apply evals_ret].
  destruct (_ || _); [|apply evals_ret]. eapply evals_best_effort, evals_fsync.
Qed.
End Walk.

(** ** Head orphans *)

Section Workspace.
Context `{UL : UuidLaws} `{TL : TempLaws}.
Context `{JC : !Json WorkspaceCore} `{JCL : !JsonLaws WorkspaceCore}.
Context `{JH : !Json HeadIndex} `{JHL : !JsonLaws HeadIndex}.
Context `{JT : !Json DeleteTombstone} `{HP : !HashIter string path}.
Variable ws : path.

(** A file the daemon owns under [heads/] whose head the index does not list. *)
Definition orphan_at (hs : HeadIndex) (m : fs) (name : string) : bool :=
  match m !! (heads_dir ws ++ [name]), head_file_id name with
  | Some (File _ _), Some id => negb (bool_decide (id ∈ map hr_head_id (heads hs)))
  | _, _ => false
  end.

Lemma evals_sweep_entries hs names removed m :
  wf_tree m → NoDup names → (∀ name, name ∈ names → is_Some (m !! (heads_dir ws ++ [name]))) →
  evals m (sweep_entries (heads_dir ws) (map hr_head_id (heads hs)) names removed)
    (Ok (removed + List.length (List.filter (orphan_at hs m) names)))
    (without (map (λ x, heads_dir ws ++ [x]) (List.filter (orphan_at hs m) names)) m).
Proof.
  set (dir := heads_dir ws). revert removed m.
  induction names as [|name names IH]; intros removed m Hwf Hnd Hn; cbn [sweep_entries List.filter].
  { cbn. rewrite without_nil, Nat.add_0_r. apply evals_ret. }
  apply NoDup_cons_1_1 in Hnd as Hni. apply NoDup_cons_1_2 in Hnd.
  destruct (Hn name) as [n Hname]; [left|].
  pose proof (evals_metadata m (dir ++ [name])) as Hmd. rewrite Hname in Hmd.
  eapply evals_bind; [by apply evals_attempt|]. cbv beta iota.
  assert (Ho : orphan_at hs m name = match n, head_file_id name with
    | File _ _, Some id => negb (bool_decide (id ∈ map hr_head_id (heads hs))) | _, _ => false end).
  { unfold orphan_at. fold dir. by rewrite Hname. }
  assert (Hskip : orphan_at hs m name = false →
    evals m (sweep_entries dir (map hr_head_id (heads hs)) names removed)
      (Ok (removed + List.length (if orphan_at hs m name then name :: List.filter (orphan_at hs m) names
        else List.filter (orphan_at hs m) names)))
      (without (map (λ x, dir ++ [x]) (if orphan_at hs m name then name :: List.filter (orphan_at hs m) names
        else List.filter (orphan_at hs m) names)) m)).
  { intros ->. apply IH; [done|done|]. intros y Hy. apply Hn. by right. }
  destruct n as [c b| |]; [|by apply Hskip..].
  destruct (head_file_id name) as [id|]; [|by apply Hskip].
  destruct (bool_decide (id ∈ _)); [by apply Hskip|]. rewrite Ho. cbn [negb].
  eapply evals_bind; [apply evals_attempt; by apply (evals_remove_file m _ (File c b))|]. cbv beta iota.
  rewrite (delete_file_without m _ (File c b)) by done. cbn [map List.length].
  change ((dir ++ [name]) :: map (λ x, dir ++ [x]) (List.filter (orphan_at hs m) names)) with
    ([dir ++ [name]] ++ map (λ x, dir ++ [x]) (List.filter (orphan_at hs m) names)).
  rewrite <-without_app, <-plus_n_Sm.
  assert (Hkept : ∀ y, y ∈ names → without [dir ++ [name]] m !! (dir ++ [y]) = m !! (dir ++ [y])).
  { intros y Hy. apply (sibling_kept dir [name]). rewrite elem_of_cons. intros [->|?%elem_of_nil]; done. }
  replace (List.filter (orphan_at hs m) names) with
    (List.filter (orphan_at hs (without [dir ++ [name]] m)) names).
  - apply (IH (S removed)); [by apply without_wf|done|]. intros y Hy. rewrite Hkept by done. apply Hn. by right.
  - apply List.filter_ext_in. intros y Hy%list_elem_of_In. unfold orphan_at. fold dir. by rewrite Hkept.
Qed.

Definition orphans (hs : HeadIndex) (m : fs) : list path :=
  map (λ x, heads_dir ws ++ [x]) (List.filter (orphan_at hs m) (children (heads_dir ws) m)).

Lemma evals_sweep_head_orphans hs m :
  wf_tree m →
  evals m (sweep_head_orphans ws hs)
    (Ok (match m !! heads_dir ws with Some Dir => List.length (orphans hs m) | _ => 0 end))
    (match m !! heads_dir ws with Some Dir => without (orphans hs m) m | _ => m end).
Proof.
  intros Hwf. unfold sweep_head_orphans. eapply evals_bind; [apply evals_is_dir|]. cbv beta.
  destruct (m !! heads_dir ws) as [[| |]|] eqn:Hd; cbn [negb]; try apply evals_ret.
  pose proof (evals_read_dir m (heads_dir ws)) as Hrd. rewrite Hd in Hrd.
  eapply evals_bind; [by apply (evals_map_throw _ _ _ _ (Ok (children (heads_dir ws) m)))|].
  unfold orphans. rewrite length_map.
  eapply evals_bind.
  { apply evals_sweep_entries; [done|apply children_nodup|]. intros name. by rewrite children_spec. }
  eapply evals_bind; [|apply evals_ret].
  destruct (0 <? _); [eapply evals_best_effort, evals_fsync|apply evals_ret].
Qed.

(** ** The derived count *)

Definition with_count (n : Z) (core : WorkspaceCore) : WorkspaceCore :=
  mkWorkspaceCore (core_id core) (core_name core) (core_tags core) (core_created_at core) (core_revision core) n.

Lemma evals_repair_head_count hs m c b core cb :
  m !! ws = Some Dir → m !! workspace_core_path ws = Some (File c b) →
  (Z.of_nat (List.length c) ≤ MAX_WORKSPACE_CORE_BYTES)%Z → from_slice c = Some core →
  to_vec (with_count (u8_or_max (List.length (heads hs))) core) = Some cb →
  (Z.of_nat (List.length cb) ≤ MAX_WORKSPACE_CORE_BYTES)%Z →
  let ok := (core_head_count core =? u8_or_max (List.length (heads hs)))%Z in
  evals m (repair_head_count ws hs) (Ok (if ok then 0 else 1))
    (if ok then m else <[workspace_core_path ws := File cb true]> m).
Proof.
  intros Hd Hp Hlen Hc Hcb Hcl ok. unfold repair_head_count.
  eapply evals_bind; [apply evals_attempt; by eapply evals_read_core|]. cbv beta iota. subst ok.
  destruct (_ =? _)%Z; [apply evals_ret|].
  eapply evals_bind; [|apply evals_ret]. apply (evals_write_core m ws _ cb Hd); [by rewrite Hp|done|done].
Qed.

(** ** The index *)

(** The index on disk, or its absence, which counts as the empty one. *)
Definition index_on_disk (idx : HeadIndex) (m : fs) : Prop :=
  (∃ c b, m !! head_index_path ws = Some (File c b) ∧ from_slice c = Some idx ∧
     List.length (heads idx) ≤ MAX_HEADS_PER_WORKSPACE) ∨
  (m !! head_index_path ws = None ∧ idx = mkHeadIndex [] ∧ is_Some (to_vec idx)).

Lemma evals_recover_index idx m :
  m !! ws = Some Dir → index_on_disk idx m →
  ∃ m', evals m (recover_index ws) (Ok idx) m' ∧
    ((m' = m ∧ ∃ c b, m !! head_index_path ws = Some (File c b) ∧ from_slice c = Some idx) ∨
     m !! head_index_path ws = None ∧
      ∃ b, from_slice b = Some idx ∧ m' = <[head_index_path ws := File b true]> m).
Proof.
  intros Hd [(c & b & Hp & Hc & Hlen)|(Hp & -> & b & Hb)].
  - exists m. split; [|left; eauto]. unfold recover_index.
    eapply evals_bind; [apply evals_attempt; by eapply evals_read_index|apply evals_ret].
  - exists (<[head_index_path ws := File b true]> m). split.
    2:{ right. split; [done|]. exists b. split; [by apply from_to|done]. }
    unfold recover_index. eapply evals_bind.
    { apply evals_attempt. unfold read_head_index. eapply evals_bind_err. by apply evals_read_missing. }
    unfold io_err. cbv beta iota. eapply evals_bind; [|apply evals_ret].
    apply evals_write_index; [done|by rewrite Hp|done|cbn; lia].
Qed.

(** ** One workspace *)

Definition tmp_dir : path := ws ++ [".tmp"%string].

(** Everything a sweep of this workspace may change. *)
Definition recovery_scope (idx : HeadIndex) (q : path) : Prop :=
  q = head_index_path ws ∨ q = workspace_core_path ws ∨
  (∃ name id, q = heads_dir ws ++ [name] ∧ head_file_id name = Some id ∧ id ∉ map hr_head_id (heads idx)) ∨
  (∃ scope name, String.prefix (scope_prefix scope) name = true ∧ below (tmp_dir ++ [name]) q = true).

Definition same_except (P : path → Prop) (m m' : fs) : Prop := ∀ q, ¬ P q → m' !! q = m !! q.

Lemma same_trans P m1 m2 m3 : same_except P m1 m2 → same_except P m2 m3 → same_except P m1 m3.
Proof. intros H1 H2 q Hq. by rewrite H2, H1. Qed.

(** A tree a boot may find: [workspace.json] reads as [core] and can be
    rewritten, the index is [idx], staging has the daemon's shape. *)
Record recoverable (idx : HeadIndex) (core : WorkspaceCore) (m : fs) : Prop := {
  rv_wf : wf_tree m;
  rv_index : index_on_disk idx m;
  rv_core : ∃ c b, m !! workspace_core_path ws = Some (File c b) ∧
    (Z.of_nat (List.length c) ≤ MAX_WORKSPACE_CORE_BYTES)%Z ∧ from_slice c = Some core;
  rv_room : ∃ cb, to_vec (with_count (u8_or_max (List.length (heads idx))) core) = Some cb ∧
    (Z.of_nat (List.length cb) ≤ MAX_WORKSPACE_CORE_BYTES)%Z;
  rv_staging : m !! tmp_dir = Some Dir → ∀ scope, staging_ok (scope_prefix scope) tmp_dir m;
  rv_size : S (size m) < MAX_DRAIN_ITERS * DEFAULT_DELETE_BATCH_ENTRIES;
}.

Lemma staging_ok_same pre m m' :
  staging_ok pre tmp_dir m → wf_tree m' → (∀ q, below tmp_dir q = true → m' !! q = m !! q) →
  staging_ok pre tmp_dir m'.
Proof.
  intros [] Hwf Hs.
  assert (Hc : ∀ k, m' !! (tmp_dir ++ k) = m !! (tmp_dir ++ k)) by (intros; apply Hs, below_app).
  split; [done|..].
  - rewrite Hs; [done|]. by apply below_true.
  - intros name t. unfold tomb_at, tomb_of. rewrite !Hc. apply so_tomb0.
  - intros name y. rewrite Hc. apply so_stage0.
Qed.

(** The four walks, one prefix after the other. *)
Lemma evals_walks m :
  (∀ scope, staging_ok (scope_prefix scope) tmp_dir m) →
  size m < MAX_DRAIN_ITERS * DEFAULT_DELETE_BATCH_ENTRIES →
  ∃ names d c t l,
    (∀ (B : Type) (k : nat * nat → nat * nat → nat * nat → nat * nat → M FileError B) r m',
       evals (without (map (λ x, tmp_dir ++ [x]) names) m) (k d c t l) r m' →
       evals m (d ← drain_staging_dir tmp_dir ScopeDataset; c ← drain_staging_dir tmp_dir ScopeConverter;
                t ← drain_staging_dir tmp_dir ScopeTrainingLogs; l ← drain_staging_dir tmp_dir ScopeConverterLogs;
                k d c t l) r m') ∧
    (∀ x, x ∈ names → ∃ scope, String.prefix (scope_prefix scope) x = true) ∧
    (∀ scope x, x ∈ staged_names (scope_prefix scope) tmp_dir m → x ∈ names).
Proof.
  intros Hok Hsize.
  assert (Hwalk : ∀ scope names, ∃ n o,
    evals (without (map (λ x, tmp_dir ++ [x]) names) m) (drain_staging_dir tmp_dir scope) (Ok (n, o))
      (without (map (λ x, tmp_dir ++ [x]) (names ++ staged_names (scope_prefix scope) tmp_dir m)) m)).
  { intros scope names. set (m1 := without _ m).
    assert (Hok1 : staging_ok (scope_prefix scope) tmp_dir m1) by (by apply staging_without).
    destruct (evals_walk_staging (scope_prefix scope) tmp_dir (λ _ s, s) tt m1 Hok1) as [o Ho].
    { pose proof (size_without (map (λ x, tmp_dir ++ [x]) names) m). unfold m1. lia. }
    eexists _, o. unfold drain_staging_dir. eapply evals_bind; [exact Ho|]. cbn [fst].
    replace (without _ m) with (staging_swept (scope_prefix scope) tmp_dir m1); [apply evals_ret|].
    unfold staging_swept, m1. rewrite without_app, <-map_app. apply without_names_equiv. intros x.
    rewrite !elem_of_app. destruct (decide (x ∈ names)) as [Hx|Hx]; [tauto|].
    assert (Hsame : x ∈ staged_names (scope_prefix scope) tmp_dir (without (map (λ x, tmp_dir ++ [x]) names) m) ↔
                    x ∈ staged_names (scope_prefix scope) tmp_dir m); [|tauto].
    unfold staged_names. rewrite !list_elem_of_In, !filter_In, <-!list_elem_of_In, !children_spec.
    unfold tomb_at, stage_at. by rewrite sibling_kept by done. }
  destruct (Hwalk ScopeDataset []) as (n1 & o1 & H1), (Hwalk ScopeConverter (staged_names (scope_prefix ScopeDataset) tmp_dir m)) as (n2 & o2 & H2).
  set (N2 := staged_names (scope_prefix ScopeDataset) tmp_dir m ++ staged_names (scope_prefix ScopeConverter) tmp_dir m) in *.
  destruct (Hwalk ScopeTrainingLogs N2) as (n3 & o3 & H3).
  set (N3 := N2 ++ staged_names (scope_prefix ScopeTrainingLogs) tmp_dir m) in *.
  destruct (Hwalk ScopeConverterLogs N3) as (n4 & o4 & H4).
  set (N4 := N3 ++ staged_names (scope_prefix ScopeConverterLogs) tmp_dir m) in *.
  exists N4, (n1, o1), (n2, o2), (n3, o3), (n4, o4). cbn [map app] in H1. rewrite without_nil in H1. split_and!.
  - intros B k r m' Hk. eapply evals_bind; [exact H1|]. eapply evals_bind; [exact H2|].
    eapply evals_bind; [exact H3|]. eapply evals_bind; [exact H4|exact Hk].
  - assert (Hpre : ∀ scope x, x ∈ staged_names (scope_prefix scope) tmp_dir m → String.prefix (scope_prefix scope) x = true).
    { intros scope x Hx. unfold staged_names in Hx. apply list_elem_of_In, filter_In in Hx as [_ Hx].
      apply orb_true_iff in Hx as [Hx|Hx]; unfold tomb_at, stage_at in Hx;
        destruct (m !! (tmp_dir ++ [x])) as [[]|]; try done. by apply andb_true_iff in Hx as [Hx _]. }
    intros x. unfold N4, N3, N2. rewrite !elem_of_app. intros [[[Hx|Hx]|Hx]|Hx]; eexists; by apply Hpre in Hx.
  - intros [] x Hx; unfold N4, N3, N2; rewrite !elem_of_app; tauto.
Qed.

Lemma paths_apart :
  head_index_path ws ≠ workspace_core_path ws ∧
  (∀ k, heads_dir ws ++ k ≠ head_index_path ws ∧ heads_dir ws ++ k ≠ workspace_core_path ws) ∧
  (∀ k, tmp_dir ++ k ≠ head_index_path ws ∧ tmp_dir ++ k ≠ workspace_core_path ws) ∧
  (∀ k, below tmp_dir (heads_dir ws ++ k) = false).
Proof.
  unfold head_index_path, workspace_core_path, heads_dir, tmp_dir. split_and!.
  - intros E. by apply app_inj_tail in E as [_ E].
  - intros k. rewrite <-app_assoc. split; intros E; apply app_inv_head in E; by destruct k.
  - intros k. rewrite <-app_assoc. split; intros E; apply app_inv_head in E; by destruct k.
  - intros k. apply not_true_iff_false. intros [k' E]%below_true. rewrite <-!app_assoc in E.
    by apply app_inv_head in E.
Qed.

Lemma orphans_in hs m p : p ∈ orphans hs m →
  ∃ name id c b, p = heads_dir ws ++ [name] ∧ head_file_id name = Some id ∧
    ¬ id ∈ map hr_head_id (heads hs) ∧ m !! p = Some (File c b).
Proof.
  intros (name & -> & Hn)%list_elem_of_fmap. apply list_elem_of_In, filter_In in Hn as [_ Hn].
  unfold orphan_at in Hn. destruct (m !! _) as [[c b| |]|]; try done.
  destruct (head_file_id name) as [id|] eqn:E; [|done]. apply negb_true_iff, bool_decide_eq_false in Hn.
  by exists name, id, c, b.
Qed.

(** Removing files removes only their own paths. *)
Lemma without_files_same S m q :
  wf_tree m → (∀ p, p ∈ S → ∃ c b, m !! p = Some (File c b)) → q ∉ S → without S m !! q = m !! q.
Proof.
  intros Hwf HS Hq. rewrite lookup_without. destruct (existsb _ S) eqn:E; [|done].
  apply existsb_below in E as (p & Hp & [k ->]%below_true). destruct (HS p Hp) as (c & b & Hf).
  destruct k as [|x k]; [by rewrite app_nil_r in Hq|]. symmetry. by apply (nothing_below m p _ Hwf Hf).
Qed.

(** After the sweep a file the daemon owns in [heads/] is a listed one. *)
Lemma swept_heads hs m name id c b :
  wf_tree m → without (orphans hs m) m !! (heads_dir ws ++ [name]) = Some (File c b) →
  head_file_id name = Some id → id ∈ map hr_head_id (heads hs).
Proof.
  intros Hwf Hf Hid. destruct (decide (id ∈ map hr_head_id (heads hs))) as [|Hn]; [done|exfalso].
  rewrite lookup_without in Hf. destruct (existsb _ _) eqn:E; [done|]. apply not_true_iff_false in E.
  apply E, existsb_below. exists (heads_dir ws ++ [name]). split; [|by apply below_true].
  apply list_elem_of_fmap. exists name. split; [done|]. apply list_elem_of_In, filter_In. split.
  - apply list_elem_of_In, children_spec. by eexists.
  - unfold orphan_at. rewrite Hf, Hid. by rewrite bool_decide_eq_false_2.
Qed.

(** The tree a completed recovery of this workspace leaves. *)
Record restored (idx : HeadIndex) (core : WorkspaceCore) (m m' : fs) : Prop := {
  rs_wf : wf_tree m';
  rs_index : ∃ b s, m' !! head_index_path ws = Some (File b s) ∧ from_slice b = Some idx;
  rs_core : ∃ b s, m' !! workspace_core_path ws = Some (File b s) ∧
    from_slice b = Some (with_count (u8_or_max (List.length (heads idx))) core);
  rs_heads : ∀ name id c b, m' !! (heads_dir ws ++ [name]) = Some (File c b) →
    head_file_id name = Some id → id ∈ map hr_head_id (heads idx);
  rs_staging : ∀ scope name, tomb_at (scope_prefix scope) tmp_dir m' name = false ∧
    stage_at (scope_prefix scope) tmp_dir m' name = false;
  rs_same : same_except (recovery_scope idx) m m';
}.

Lemma wf_ws_dir m n : wf_tree m → m !! workspace_core_path ws = Some n → m !! ws = Some Dir.
Proof.
  intros Hwf Hc. unfold workspace_core_path in Hc. rewrite <-(parent_app ws WORKSPACE_CORE_FILENAME).
  apply Hwf; [by exists n|by destruct ws].
Qed.

(** The index step. *)
Lemma recover_index_step idx core m : recoverable idx core m →
  ∃ m1, evals m (recover_index ws) (Ok idx) m1 ∧ wf_tree m1 ∧ size m1 ≤ S (size m) ∧
    same_except (λ q, q = head_index_path ws) m m1 ∧
    ∃ b s, m1 !! head_index_path ws = Some (File b s) ∧ from_slice b = Some idx.
Proof.
  intros [Hwf Hidx (c & b & Hc & _) _ _ _]. pose proof (wf_ws_dir m _ Hwf Hc) as Hws.
  destruct (evals_recover_index idx m Hws Hidx) as (m1 & He & Hm1). exists m1. split; [done|].
  destruct Hm1 as [[-> Hthere]|(Hnone & ib & Hib & ->)].
  - split_and!; [done|lia|done|done].
  - split_and!.
    + apply wf_insert; [done|by destruct ws|by unfold head_index_path; rewrite parent_app|right; by rewrite Hnone].
    + by rewrite map_size_insert_None.
    + intros q Hq. by rewrite lookup_insert_ne.
    + exists ib, true. split; [apply lookup_insert_eq|done].
Qed.

(** The sweep of [heads/]. *)
Lemma sweep_heads_step idx m :
  wf_tree m →
  ∃ n m', evals m (sweep_head_orphans ws idx) (Ok n) m' ∧ wf_tree m' ∧ m' ⊆ m ∧
    same_except (λ q, ∃ name id, q = heads_dir ws ++ [name] ∧ head_file_id name = Some id ∧
      id ∉ map hr_head_id (heads idx)) m m' ∧
    ∀ name id c b, m' !! (heads_dir ws ++ [name]) = Some (File c b) →
      head_file_id name = Some id → id ∈ map hr_head_id (heads idx).
Proof.
  intros Hwf. pose proof (evals_sweep_head_orphans idx m Hwf) as He.
  destruct (decide (m !! heads_dir ws = Some Dir)) as [Hd|Hd].
  - rewrite Hd in He. eexists _, _. split; [exact He|]. split_and!.
    + by apply without_wf.
    + apply without_sub.
    + intros q Hq. apply without_files_same; [done|..].
      * intros p (name & id & c & b & _ & _ & _ & Hp)%orphans_in. eauto.
      * intros (name & id & c & b & -> & H1 & H2 & _)%orphans_in. apply Hq. eauto.
    + intros name id c b. by apply swept_heads.
  - assert (Hn : ∀ x, m !! (heads_dir ws ++ [x]) = None).
    { intros x. apply eq_None_not_Some. intros Hx. apply Hd.
      by apply (below_trans m (heads_dir ws) [x] Hwf Hx). }
    exists 0, m. split_and!; [|done|done|done|].
    + destruct (m !! heads_dir ws) as [[]|]; done || exact He.
    + intros name id c b Hf. by rewrite Hn in Hf.
Qed.

(** The derived count. *)
Lemma repair_step idx core m c b cb :
  wf_tree m → m !! workspace_core_path ws = Some (File c b) →
  (Z.of_nat (List.length c) ≤ MAX_WORKSPACE_CORE_BYTES)%Z → from_slice c = Some core →
  to_vec (with_count (u8_or_max (List.length (heads idx))) core) = Some cb →
  (Z.of_nat (List.length cb) ≤ MAX_WORKSPACE_CORE_BYTES)%Z →
  ∃ n m', evals m (repair_head_count ws idx) (Ok n) m' ∧ wf_tree m' ∧ size m' ≤ size m ∧
    same_except (λ q, q = workspace_core_path ws) m m' ∧
    ∃ b s, m' !! workspace_core_path ws = Some (File b s) ∧
      from_slice b = Some (with_count (u8_or_max (List.length (heads idx))) core).
Proof.
  intros Hwf Hp Hlen Hc Hcb Hcl. pose proof (wf_ws_dir m _ Hwf Hp) as Hws.
  pose proof (evals_repair_head_count idx m c b core cb Hws Hp Hlen Hc Hcb Hcl) as He. cbv zeta in He.
  destruct (Z.eqb_spec (core_head_count core) (u8_or_max (List.length (heads idx)))) as [E|E].
  - exists 0, m. split_and!; [exact He|done|done|done|]. exists c, b. split; [done|].
    rewrite Hc. f_equal. unfold with_count. rewrite <-E. by destruct core.
  - eexists 1, _. split_and!; [exact He|..].
    + apply wf_insert; [done|by destruct ws|by unfold workspace_core_path; rewrite parent_app|right; by rewrite Hp].
    + rewrite map_size_insert_Some by by eexists. done.
    + intros q Hq. by rewrite lookup_insert_ne.
    + exists cb, true. split; [apply lookup_insert_eq|by apply from_to].
Qed.

Lemma prefix_nonempty scope : scope_prefix scope ≠ EmptyString.
Proof. by destruct scope. Qed.

(** Boot recovery of one workspace, undisturbed. *)
Lemma evals_recover_one_workspace idx core m :
  recoverable idx core m →
  ∃ counts m', evals m (recover_one_workspace ws) (Ok counts) m' ∧ restored idx core m m'.
Proof.
  intros Hrec. destruct paths_apart as (Hic & Hh & Ht & Hbh).
  destruct (recover_index_step idx core m Hrec) as (m1 & E1 & Hwf1 & Hs1 & S1 & I1).
  destruct Hrec as [Hwf Hidx (c & b & Hc & Hcl & Hcc) (cb & Hcb & Hcbl) Hst Hsize].
  destruct (sweep_heads_step idx m1 Hwf1) as (n2 & m2 & E2 & Hwf2 & Hsub2 & S2 & I2).
  assert (Hc2 : m2 !! workspace_core_path ws = Some (File c b)).
  { rewrite S2, S1; [done|by intros E|]. intros (name & id & E & _). by apply (proj2 (Hh [name])). }
  destruct (repair_step idx core m2 c b cb Hwf2 Hc2 Hcl Hcc Hcb Hcbl) as (n3 & m3 & E3 & Hwf3 & Hs3 & S3 & I3).
  assert (Hsz3 : size m3 < MAX_DRAIN_ITERS * DEFAULT_DELETE_BATCH_ENTRIES).
  { apply map_subseteq_size in Hsub2. lia. }
  assert (Htmp : ∀ k, m3 !! (tmp_dir ++ k) = m !! (tmp_dir ++ k)).
  { intros k. destruct (Ht k) as [H1 H2]. rewrite S3, S2, S1; [done|done| |done].
    intros (name & id & E & _). pose proof (Hbh [name]) as Hb. rewrite <-E in Hb.
    by rewrite below_app in Hb. }
  assert (Hres : ∀ names, (∀ x, x ∈ names → ∃ scope, String.prefix (scope_prefix scope) x = true) →
    (∀ scope name, (tomb_at (scope_prefix scope) tmp_dir m3 name || stage_at (scope_prefix scope) tmp_dir m3 name) = true →
       name ∈ names) →
    restored idx core m (without (map (λ x, tmp_dir ++ [x]) names) m3)).
  { intros names Hnames Hall.
    assert (Hkeep : ∀ q, below tmp_dir q = false → without (map (λ x, tmp_dir ++ [x]) names) m3 !! q = m3 !! q).
    { intros q Hq. rewrite lookup_without. destruct (existsb _ _) eqn:E; [|done].
      apply existsb_below in E as (p & Hp & Hb). apply list_elem_of_fmap in Hp as (x & -> & _).
      apply below_true in Hb as [k ->]. by rewrite <-app_assoc, below_app in Hq. }
    assert (Hout : ∀ q, (∀ k, tmp_dir ++ k ≠ q) → below tmp_dir q = false).
    { intros q Hq. apply not_true_iff_false. intros [k ->]%below_true. by apply (Hq k). }
    split.
    - by apply without_wf.
    - rewrite Hkeep by (apply Hout; intros k; apply Ht). rewrite S3 by done. rewrite S2; [done|].
      intros (name & id & E & _). by apply (proj1 (Hh [name])).
    - rewrite Hkeep by (apply Hout; intros k; apply Ht). done.
    - intros name id cc bb. rewrite Hkeep by apply Hbh. rewrite S3 by apply Hh. apply I2.
    - intros scope name. destruct (decide (name ∈ names)) as [Hn|Hn].
      + unfold tomb_at, stage_at. rewrite lookup_without, (proj2 (existsb_below _ _)); [done|].
        exists (tmp_dir ++ [name]). split; [|by apply below_true]. apply list_elem_of_fmap. eauto.
      + apply orb_false_iff. unfold stage_at. rewrite tomb_at_kept, sibling_kept by done.
        fold (stage_at (scope_prefix scope) tmp_dir m3 name). apply not_true_iff_false. intros H. by apply Hn, (Hall scope).
    - intros q Hq. rewrite lookup_without. destruct (existsb _ _) eqn:E.
      + exfalso. apply existsb_below in E as (p & Hp & Hb). apply list_elem_of_fmap in Hp as (x & -> & Hx).
        apply Hq. right. right. right. destruct (Hnames x Hx) as [scope Hscope]. eauto.
      + unfold recovery_scope in Hq. rewrite S3, S2, S1; [done| | |].
        * intros ->. apply Hq. by left.
        * intros (name & id & Hn). apply Hq. right. right. left. eauto.
        * intros ->. apply Hq. right. by left. }
  assert (Hrun : ∀ (k : bool → M FileError PerWorkspaceCounts) r m',
    evals m3 (k (match m !! tmp_dir with Some Dir => true | _ => false end)) r m' →
    evals m3 (path_is_dir tmp_dir ≫= k) r m').
  { intros k r m' Hk. eapply evals_bind; [apply evals_is_dir|]. pose proof (Htmp []) as E. rewrite !app_nil_r in E.
    by rewrite E. }
  destruct (decide (m !! tmp_dir = Some Dir)) as [Hd|Hd].
  - rewrite Hd in Hrun.
    assert (Hok3 : ∀ scope, staging_ok (scope_prefix scope) tmp_dir m3).
    { intros scope. apply (staging_ok_same _ m); [by apply Hst|done|]. intros q [k ->]%below_true. apply Htmp. }
    destruct (evals_walks m3 Hok3 Hsz3) as (names & d & cv & tl & l & Hwalk & Hn1 & Hn2).
    eexists _, _. split; [|apply (Hres names); [done|]].
    + unfold recover_one_workspace. eapply evals_bind; [exact E1|]. eapply evals_bind; [exact E2|].
      eapply evals_bind; [exact E3|]. apply Hrun. cbn [negb]. apply Hwalk, evals_ret.
    + intros scope name H. apply (Hn2 scope). unfold staged_names. apply list_elem_of_In, filter_In. split; [|done].
      apply list_elem_of_In, children_spec. unfold tomb_at, stage_at in H.
      destruct (m3 !! (tmp_dir ++ [name])); [by eexists|done].
  - eexists _, m3. split.
    + unfold recover_one_workspace. eapply evals_bind; [exact E1|]. eapply evals_bind; [exact E2|].
      eapply evals_bind; [exact E3|]. apply Hrun. destruct (m !! tmp_dir) as [[]|]; done || apply evals_ret.
    + rewrite <-(without_nil m3). apply (Hres []); [by intros x ?%elem_of_nil|].
      intros scope name H. exfalso. apply Hd. unfold tomb_at, stage_at in H. rewrite Htmp in H.
      destruct (m !! (tmp_dir ++ [name])) eqn:E; [|done]. apply (below_trans m tmp_dir [name] Hwf); [by eexists|done].
Qed.
End Workspace.
