(* ===== verification/RecoverySafety.v ===== *)
(** * What boot recovery can never lose

    Recovery may itself be cut at any system call, by a power loss or an I/O
    error, and then run again.  Each sweep is confined to the paths it is meant
    for; so a workspace whose index and heads agree still does after any number
    of interrupted boots, and the first undisturbed one restores it. *)

From S2P Require Import Prelude Ids AssetPath Common Workspace Broadcast JobRegistry FileSystem FsLogic FsAtomic Schema Staging StagingFacts FsRun AssetTree HeadRotation Recovery RecoveryFacts.

(** ** Confined programs *)

(** [c] changes nothing but the paths of [S], whatever stops it. *)
Definition confined {E A : Type} (S : path → Prop) (c : M E A) : Prop :=
  ∀ F, stable S F →
    triple (λ d, no_moves d ∧ F d) c (λ _ d, no_moves d ∧ F d) (λ d, no_moves d ∧ F d) (λ d, no_moves d ∧ F d).

Lemma confined_weaken {E A : Type} (S S' : path → Prop) (c : M E A) :
  confined S c → (∀ p, S p → S' p) → confined S' c.
Proof. intros H HS F HF. apply H. by eapply stable_weaken. Qed.

Lemma confined_ret {E A : Type} (S : path → Prop) (a : A) : confined S (mret a : M E A).
Proof. intros F HF. by apply triple_ret. Qed.

Lemma confined_throw {E A : Type} (S : path → Prop) (e : E) : confined S (throw e : M E A).
Proof. intros F HF. by apply triple_throw. Qed.

Lemma confined_bind {E A B : Type} (S : path → Prop) (c : M E A) (f : A → M E B) :
  confined S c → (∀ a, confined S (f a)) → confined S (c ≫= f).
Proof. intros Hc Hf F HF. eapply triple_bind; [by apply Hc|]. intros a. by apply Hf. Qed.

Lemma confined_map_throw {E F A : Type} (S : path → Prop) (f : E → F) (c : M E A) : confined S c → confined S (map_throw f c).
Proof. intros Hc G HG. by apply triple_map_throw, Hc. Qed.

Lemma confined_attempt {E F A : Type} (S : path → Prop) (c : M E A) : confined S c → confined S (attempt c : M F _).
Proof.
  intros Hc G HG. apply triple_attempt with (Q := λ _ d, no_moves d ∧ G d).
  eapply triple_conseq; [by apply Hc|..]; auto.
Qed.

Lemma confined_best_effort {E F : Type} (S : path → Prop) (c : M E unit) : confined S c → confined S (best_effort c : M F unit).
Proof. intros Hc. apply confined_bind; [by apply confined_attempt|intros ?; apply confined_ret]. Qed.

Lemma confined_if_found {A : Type} (S : path → Prop) (c : M IoKind A) : confined S c → confined S (if_found c).
Proof.
  intros Hc F HF w Hw. specialize (Hc F HF w Hw). unfold if_found. by destruct (c w) as [w' [a|[]|]].
Qed.

Lemma confined_look {E A : Type} (S : path → Prop) (f : fs → M E A) :
  (∀ m, confined S (f m)) → confined S (λ w, f (visible (disk w)) w).
Proof. intros H F HF w Hw. by apply (H (visible (disk w)) F HF). Qed.

Lemma confined_path_exists {E : Type} (S : path → Prop) p : confined S (path_exists p : M E bool).
Proof. by intros F HF w Hw. Qed.

Lemma confined_path_is_dir {E : Type} (S : path → Prop) p : confined S (path_is_dir p : M E bool).
Proof. by intros F HF w Hw. Qed.

Lemma confined_read {A : Type} (S : path → Prop) (f : Disk → result IoKind A) : confined S (syscall (λ d, (d, f d))).
Proof. intros F HF. apply visible_read. Qed.

Lemma confined_remove_file (S : path → Prop) p : S p → confined S (fs_remove_file p).
Proof.
  intros Hp F HF. apply remove_file_triple. apply stable_and; [apply no_moves_stable|].
  eapply stable_weaken; [exact HF|]. by intros q ->.
Qed.

Lemma confined_remove_dir (S : path → Prop) p : S p → confined S (fs_remove_dir p).
Proof.
  intros Hp F HF. apply triple_syscall; [done|done|]. intros d [Hm Hd].
  destruct (stat p d) as [[| |]|]; try done. destruct (children p (visible d)); [|done].
  split; [by apply no_moves_add|]. apply (st_add _ _ HF); [done|done|]. intros q. by intros ->%touches_del.
Qed.

Lemma confined_fsync (S : path → Prop) p : confined S (fsync_dir p).
Proof.
  intros F HF. apply fsync_dir_triple. intros d [Hm Hd]. split; [by apply no_moves_fsync|by apply (st_fsync _ _ HF)].
Qed.

Create HintDb confined.
#[export] Hint Resolve confined_ret confined_throw confined_map_throw confined_attempt confined_best_effort
  confined_if_found confined_read confined_path_exists confined_path_is_dir confined_remove_file confined_remove_dir confined_fsync : confined.

Lemma confined_remove_each (S : path → Prop) rec dir l :
  (∀ name, confined S (rec (dir ++ [name]))) → (∀ name, S (dir ++ [name])) →
  confined S (remove_each rec dir l).
Proof.
  intros Hrec HS. induction l as [|name l IH]; cbn [remove_each]; [auto with confined|].
  apply confined_bind; [unfold symlink_metadata; auto with confined|]. intros n.
  apply confined_bind; [destruct n; auto with confined|done].
Qed.

Lemma confined_remove_tree (S : path → Prop) fuel dir :
  (∀ q, below dir q = true → S q) → confined S (remove_tree fuel dir).
Proof.
  revert dir. induction fuel as [|fuel IH]; intros dir HS; cbn [remove_tree]; [auto with confined|].
  apply confined_bind; [unfold fs_read_dir; auto with confined|]. intros l.
  apply confined_bind; [|intros ?; apply confined_remove_dir, HS; by apply below_true].
  apply confined_remove_each; intros name; [|apply HS, below_app].
  apply IH. intros q [k ->]%below_true. rewrite <-app_assoc. apply HS, below_app.
Qed.

Lemma confined_remove_dir_all (S : path → Prop) p :
  (∀ q, below p q = true → S q) → confined S (fs_remove_dir_all p).
Proof.
  intros HS. unfold fs_remove_dir_all.
  apply (confined_look S (λ v, n ← symlink_metadata p;
    match n with Symlink _ => fs_remove_file p | _ => remove_tree (height v) p end)). intros v.
  apply confined_bind; [unfold symlink_metadata; auto with confined|]. intros [| |];
    auto using confined_remove_tree. apply confined_remove_file, HS. by apply below_true.
Qed.

Lemma confined_put_atomic `{TL : TempLaws} (S : path → Prop) p bytes :
  p ≠ [] → not_temp p → (∀ q, put_scope p q → S q) → confined S (put_atomic p bytes).
Proof.
  intros Hne Hnt HS F HF. eapply triple_conseq;
    [apply (put_atomic_triple F None p bytes Hne Hnt); by eapply stable_weaken|..]; cbn [held].
  - intros d [H1 H2]. split_and!; [done|done|constructor].
  - intros ? d (H1 & H2 & _). done.
  - intros d (H1 & H2 & _). done.
  - intros d (H1 & H2 & _). done.
Qed.

(** ** The staged deletes are confined to the staging directory *)

Lemma confined_drain_entries (S : path → Prop) rec dir b l r :
  (∀ name r, confined S (rec (dir ++ [name]) r)) → (∀ name, S (dir ++ [name])) →
  confined S (drain_entries rec dir b l r).
Proof.
  intros Hrec HS. revert r. induction l as [|name l IH]; intros r; cbn [drain_entries]; [auto with confined|].
  destruct (b <=? r); [auto with confined|].
  apply confined_bind; [unfold symlink_metadata; auto with confined|]. intros [c sy| |t].
  - apply confined_bind; auto with confined.
  - apply confined_bind; [done|]. intros [[] r']; [|auto with confined].
    destruct (b <=? r'); [auto with confined|]. apply confined_bind; auto with confined.
  - apply confined_bind; auto with confined.
Qed.

Lemma confined_drain_dir (S : path → Prop) fuel b dir r :
  (∀ q, below dir q = true → S q) → confined S (drain_dir fuel b dir r).
Proof.
  revert dir r. induction fuel as [|fuel IH]; intros dir r HS; cbn [drain_dir]; [auto with confined|].
  apply confined_bind; [unfold fs_read_dir; auto with confined|]. intros l.
  apply confined_drain_entries; [|intros name; apply HS, below_app].
  intros name r'. apply IH. intros q [k ->]%below_true. rewrite <-app_assoc. apply HS, below_app.
Qed.

Section Staged.
Variable S : path → Prop.
Variable staged : StagedDelete.
Hypothesis Hpay : ∀ q, below (payload staged) q = true → S q.
Hypothesis Hstage : S (stage_dir staged).
Hypothesis Htomb : S (tombstone staged).

Lemma Hpay_self : S (payload staged).
Proof. apply Hpay. by apply below_true. Qed.

Lemma confined_drain_staged b : confined S (drain_staged_payload staged b).
Proof.
  unfold drain_staged_payload, symlink_metadata. pose proof Hpay_self.
  apply confined_bind; [auto with confined|]. intros [[c sy| |t]|]; auto with confined.
  - apply confined_bind; auto with confined.
  - apply (confined_look S (λ v, r ← drain_dir (height v) b (payload staged) 0; mret (fst r))).
    intros v. apply confined_bind; [by apply confined_drain_dir|auto with confined].
  - apply confined_bind; auto with confined.
Qed.

Lemma confined_drain_loop iters : confined S (drain_loop staged iters).
Proof.
  induction iters as [|iters IH]; cbn [drain_loop]; [auto with confined|].
  apply confined_bind; [apply confined_drain_staged|]. intros []; auto with confined.
Qed.

Lemma confined_finalize : confined S (finalize_staged_delete staged).
Proof.
  unfold finalize_staged_delete, symlink_metadata. pose proof Hpay_self.
  apply confined_bind; [auto with confined|]. intros md.
  apply confined_bind; [destruct md as [[]|]; auto with confined|]. intros ?.
  apply confined_bind; [auto with confined|]. intros ?.
  apply confined_bind; [auto with confined|]. intros ?.
  destruct (decide _); [auto with confined|]. cbv zeta.
  apply confined_bind; [auto with confined|]. intros []; auto with confined.
Qed.

Lemma confined_complete_staged : confined S (complete_staged staged).
Proof.
  unfold complete_staged. apply confined_bind; [apply confined_attempt, confined_drain_loop|].
  intros [[]|]; [|auto with confined..].
  apply confined_bind; [apply confined_attempt, confined_finalize|auto with confined].
Qed.
End Staged.

(** ** The sweeps *)

(** A confined program whose results all satisfy [φ]. *)
Definition confined_post {E A : Type} (S : path → Prop) (c : M E A) (φ : A → Prop) : Prop :=
  ∀ F, stable S F →
    triple (λ d, no_moves d ∧ F d) c (λ a d, φ a ∧ no_moves d ∧ F d) (λ d, no_moves d ∧ F d) (λ d, no_moves d ∧ F d).

Lemma confined_post_bind {E A B : Type} (S : path → Prop) (c : M E A) (f : A → M E B) φ ψ :
  confined_post S c φ → (∀ a, φ a → confined_post S (f a) ψ) → confined_post S (c ≫= f) ψ.
Proof.
  intros Hc Hf F HF. eapply triple_bind; [by apply Hc|]. intros a. apply triple_pure. intros Ha. by apply Hf.
Qed.

Lemma confined_post_ret {E A : Type} (S : path → Prop) (a : A) (φ : A → Prop) :
  φ a → confined_post S (mret a : M E A) φ.
Proof. intros Ha F HF. by apply triple_ret. Qed.

Lemma confined_post_of {E A : Type} (S : path → Prop) (c : M E A) : confined S c → confined_post S c (λ _, True).
Proof. intros H F HF. eapply triple_conseq; [by apply H|..]; auto. Qed.

Lemma confined_of_post {E A : Type} (S : path → Prop) (c : M E A) φ : confined_post S c φ → confined S c.
Proof. intros H F HF. eapply triple_conseq; [by apply H|..]; auto. by intros a d [_ ?]. Qed.

Section Walk.
Context `{U : UuidLib} `{JT : !Json DeleteTombstone} `{HP : !HashIter string path}.
Variable dir : path.

Definition in_dir_map (dirs : gmap string path) : Prop := ∀ name p, dirs !! name = Some p → p = dir ++ [name].

Let S : path → Prop := λ q, below dir q = true.

Lemma below_in name : S (dir ++ [name]).
Proof. apply below_app. Qed.
Local Hint Resolve below_in : confined.

Lemma confined_classify pre names files dirs :
  in_dir_map dirs → confined_post S (classify dir pre names files dirs) (λ x, in_dir_map (snd x)).
Proof.
  revert files dirs. induction names as [|name names IH]; intros files dirs Hd; cbn [classify].
  { by apply confined_post_ret. }
  eapply confined_post_bind.
  { apply confined_post_of. unfold symlink_metadata. auto with confined. }
  intros [[c sy| |t]|e] _; try by apply IH.
  - destruct (_ && _); by apply IH.
  - destruct (String.prefix pre name); [|by apply IH]. apply IH. intros x p.
    destruct (decide (x = name)) as [->|Hx]; [rewrite lookup_insert_eq; by intros [= <-]|].
    rewrite lookup_insert_ne by done. apply Hd.
Qed.

Lemma confined_read_tombstone (p : path) : confined S (read_tombstone p).
Proof.
  unfold read_tombstone, read_file, fs_read. apply confined_bind; [auto with confined|]. intros b.
  unfold parse. destruct (from_slice b); auto with confined.
Qed.

Lemma confined_complete_tombstones {St : Type} (evict : WorkspaceId → St → St) files dirs completed s :
  in_dir_map dirs →
  confined_post S (complete_tombstones evict dir files dirs completed s) (λ x, in_dir_map (fst (fst x))).
Proof.
  revert dirs completed s. induction files as [|name files IH]; intros dirs completed s Hd; cbn [complete_tombstones].
  { by apply confined_post_ret. }
  eapply confined_post_bind; [apply confined_post_of, confined_attempt, confined_read_tombstone|].
  intros [t|e] _.
  - assert (Hd' : in_dir_map (delete (stage_dir_name t) dirs)).
    { intros x p [_ Hx]%lookup_delete_Some. by apply Hd. }
    eapply confined_post_bind; [|intros [] _; by apply IH].
    apply confined_post_of, confined_complete_staged; cbn; [|apply below_in..].
    intros q [k ->]%below_true. rewrite <-!app_assoc. apply below_app.
  - eapply confined_post_bind; [|intros ? _; by apply IH].
    apply confined_post_of. auto with confined.
Qed.

Lemma confined_sweep_orphans l swept :
  (∀ x, x ∈ l → snd x = dir ++ [fst x]) → confined S (sweep_stage_orphans l swept).
Proof.
  revert swept. induction l as [|[name p] l IH]; intros swept Hl; cbn [sweep_stage_orphans]; [auto with confined|].
  apply confined_bind.
  - apply confined_attempt, confined_remove_dir_all. intros q. pose proof (Hl (name, p) ltac:(left)) as E.
    cbn in E. subst p. intros [k ->]%below_true. rewrite <-app_assoc. apply below_app.
  - intros r. apply IH. intros x Hx. apply Hl. by right.
Qed.

(** The walk of a staging directory stays inside it. *)
Lemma confined_walk_staging {St : Type} (evict : WorkspaceId → St → St) pre s :
  confined S (walk_staging evict dir pre s).
Proof.
  unfold walk_staging, fs_read_dir. apply confined_bind; [auto with confined|]. intros entries.
  eapply confined_of_post, confined_post_bind; [by apply (confined_classify pre entries [] ∅)|].
  intros [files dirs] Hd. cbn [snd] in Hd.
  eapply confined_post_bind; [by apply confined_complete_tombstones|].
  intros [[dirs' completed] s'] Hd'. cbn [fst] in Hd'. apply confined_post_of.
  apply confined_bind.
  - apply confined_sweep_orphans. intros [name p] Hx. rewrite hm_iter_perm in Hx.
    apply elem_of_map_to_list in Hx. by apply Hd'.
  - intros n. apply confined_bind; [|intros ?; auto with confined].
    destruct (_ || _); auto with confined.
Qed.
End Walk.

(** ** One workspace *)

Section OneWorkspace.
Context `{UL : UuidLaws} `{TL : TempLaws}.
Context `{JC : !Json WorkspaceCore} `{JCL : !JsonLaws WorkspaceCore}.
Context `{JH : !Json HeadIndex} `{JHL : !JsonLaws HeadIndex} `{JM : !Json HeadManifest}.
Context `{JT : !Json DeleteTombstone} `{HP : !HashIter string path}.
Variable ws : path.

(** The file of a head the index does not list. *)
Definition orphan_path (idx : HeadIndex) (q : path) : Prop :=
  ∃ name id, q = heads_dir ws ++ [name] ∧ head_file_id name = Some id ∧ ¬ id ∈ map hr_head_id (heads idx).

Lemma confined_sweep_entries idx names removed :
  confined (orphan_path idx) (sweep_entries (heads_dir ws) (map hr_head_id (heads idx)) names removed).
Proof.
  revert removed. induction names as [|name names IH]; intros removed; cbn [sweep_entries]; [auto with confined|].
  apply confined_bind; [unfold symlink_metadata; auto with confined|]. intros [[c sy| |t]|e]; auto.
  destruct (head_file_id name) as [id|] eqn:Hid; [|auto]. case_bool_decide as Hk; [auto|].
  apply confined_bind; [|intros; auto]. apply confined_attempt, confined_remove_file. by exists name, id.
Qed.

Lemma confined_sweep_heads idx : confined (orphan_path idx) (sweep_head_orphans ws idx).
Proof.
  unfold sweep_head_orphans, fs_read_dir. apply confined_bind; [auto with confined|]. intros []; cbn [negb]; [|auto with confined].
  apply confined_bind; [auto with confined|]. intros l.
  apply confined_bind; [apply confined_sweep_entries|]. intros n.
  apply confined_bind; [destruct (0 <? n); auto with confined|auto with confined].
Qed.

(** Whatever a crash leaves of [workspace.json] parses. *)
Definition core_safe (d : Disk) : Prop :=
  ∃ vs, among d (workspace_core_path ws) vs ∧
    ∀ v, v ∈ vs → ∃ b (core : WorkspaceCore), v = Some (File b true) ∧ from_slice b = Some core.

Lemma core_safe_stable (S : path → Prop) : ¬ S (workspace_core_path ws) → stable S core_safe.
Proof.
  intros HS. pose proof (λ vs, facts_stable S [(workspace_core_path ws, vs)] ltac:(by repeat constructor)) as Hst.
  split; intros d; [intros o (vs & H & Hv) Hm Ho|intros dir (vs & H & Hv)|intros q c (vs & H & Hv) Hq];
    exists vs; (split; [|done]); apply facts_one; [apply (st_add _ _ (Hst vs))|apply (st_fsync _ _ (Hst vs))|apply (st_sync _ _ (Hst vs))];
    try done; by apply facts_one.
Qed.

Lemma put_core_safe (F : Disk → Prop) b (core : WorkspaceCore) :
  stable (put_scope (workspace_core_path ws)) F → to_vec core = Some b →
  triple (λ d, no_moves d ∧ F d ∧ core_safe d) (put_atomic (workspace_core_path ws) b)
    (λ _ d, no_moves d ∧ F d ∧ core_safe d) (λ d, no_moves d ∧ F d ∧ core_safe d) (λ d, no_moves d ∧ F d ∧ core_safe d).
Proof.
  intros HF Hb. pose proof (from_to _ _ Hb) as Hfs.
  eapply triple_conseq with (P' := λ d, ∃ vs, (∀ v, v ∈ vs → ∃ b (core : WorkspaceCore),
      v = Some (File b true) ∧ from_slice b = Some core) ∧ (F d ∧ no_moves d ∧ facts (held (Some vs) [] (workspace_core_path ws)) d));
    [|intros d (H1 & H2 & vs & H3 & H4); exists vs; cbn; by rewrite facts_one|
      intros ? d H; exact H|intros d H; exact H|intros d H; exact H].
  apply triple_ex. intros vs. apply triple_pure. intros Hvs.
  assert (Hnew : ∀ d, facts (held (Some vs) [Some (File b true)] (workspace_core_path ws)) d → core_safe d).
  { intros d Hd. cbn in Hd. apply facts_one in Hd. eexists. split; [exact Hd|].
    intros v [->|Hv]%elem_of_cons; [by exists b, core|by apply Hvs]. }
  eapply triple_conseq; [apply (put_atomic_triple F (Some vs) (workspace_core_path ws) b); [by destruct ws|by apply not_temp_snoc|done]|
    intros d H; exact H|..].
  - intros ? d (H1 & H2 & H3). split_and!; [done|done|]. exists [Some (File b true)]. split; [done|].
    intros v ->%list_elem_of_singleton. by exists b, core.
  - intros d (H1 & H2 & H3). split_and!; auto.
  - intros d (H1 & H2 & H3). split_and!; auto.
Qed.

Lemma repair_safe (F : Disk → Prop) idx :
  stable (put_scope (workspace_core_path ws)) F →
  triple (λ d, no_moves d ∧ F d ∧ core_safe d) (repair_head_count ws idx)
    (λ _ d, no_moves d ∧ F d ∧ core_safe d) (λ d, no_moves d ∧ F d ∧ core_safe d) (λ d, no_moves d ∧ F d ∧ core_safe d).
Proof.
  intros HF. unfold repair_head_count. set (G := λ d, no_moves d ∧ F d ∧ core_safe d).
  eapply triple_bind with (R := λ _, G).
  - apply triple_attempt with (Q := λ _, G). eapply triple_conseq with (P' := G) (Q' := λ _, G) (X' := G) (C' := G); [|done..].
    unfold read_workspace_core, read_capped. eapply triple_bind with (R := λ _, G).
    + eapply triple_bind with (R := λ _, G); [apply triple_map_throw, visible_read|]. intros n.
      destruct (_ <? _)%Z; [by apply triple_throw|].
      eapply triple_bind with (R := λ _, G); [apply read_file_triple|]. intros c. by apply triple_ret.
    + intros b. unfold parse. destruct (from_slice b); [by apply triple_ret|by apply triple_throw].
  - intros [core|e]; [|by apply triple_ret]. destruct (_ =? _)%Z; [by apply triple_ret|].
    eapply triple_bind with (R := λ _, G); [|intros ?; by apply triple_ret].
    unfold write_workspace_core, serialize. set (up := mkWorkspaceCore _ _ _ _ _ _).
    destruct (to_vec up) as [b|] eqn:Hb.
    + eapply triple_bind with (R := λ b' d, b' = b ∧ G d); [by apply triple_ret|]. intros b'. cbv beta.
      apply triple_pure. intros ->. destruct (_ <? _)%Z; [by apply triple_throw|]. by eapply put_core_safe.
    + eapply triple_bind with (R := λ _ _, False); [by apply triple_throw|]. by intros b' w [].
Qed.

(** A present index is read as it is, or the boot fails; it is never rewritten. *)
Lemma recover_index_there w c b idx :
  visible (disk w) !! head_index_path ws = Some (File c b) → from_slice c = Some idx →
  List.length (heads idx) ≤ MAX_HEADS_PER_WORKSPACE →
  match recover_index ws w with
  | (w', Ret hs) => hs = idx ∧ disk w' = disk w
  | (w', _) => disk w' = disk w
  end.
Proof.
  intros Hv Hc Hlen.
  unfold recover_index, read_head_index, read_file, attempt, map_throw, mbind, M_bind, fs_read, syscall, stat.
  assert (Hlt : (MAX_HEADS_PER_WORKSPACE <? List.length (heads idx)) = false) by (by apply Nat.ltb_ge).
  destruct (budget w) as [[|k]|]; [done|..]; destruct (faults w) as [|[] fl]; try done; rewrite Hv;
    unfold parse; cbn -[Nat.ltb MAX_HEADS_PER_WORKSPACE]; rewrite Hc; cbn -[Nat.ltb MAX_HEADS_PER_WORKSPACE]; by rewrite Hlt.
Qed.

(** The durable facts of a workspace that recovery preserves. *)
Definition kept_facts (idx : HeadIndex) (L : list (path * list (option node))) : Prop :=
  Forall (λ x, ¬ put_scope (workspace_core_path ws) (fst x) ∧ ¬ orphan_path idx (fst x) ∧
               below (tmp_dir ws) (fst x) = false) L.

Lemma recover_one_safe idx ib L :
  from_slice ib = Some idx → List.length (heads idx) ≤ MAX_HEADS_PER_WORKSPACE →
  (head_index_path ws, [Some (File ib true)]) ∈ L → kept_facts idx L →
  let safe := λ d, no_moves d ∧ facts L d ∧ core_safe d in
  triple safe (recover_one_workspace ws) (λ _, safe) safe safe.
Proof.
  intros Hib Hlen Hin HL safe.
  assert (Hstable : ∀ S : path → Prop, (∀ x, x ∈ L → ¬ S (fst x)) → stable S (facts L)).
  { intros S HS. apply facts_stable, List.Forall_forall. intros x Hx%list_elem_of_In. by apply HS. }
  assert (HLe : ∀ x, x ∈ L → ¬ put_scope (workspace_core_path ws) (fst x) ∧ ¬ orphan_path idx (fst x) ∧
    below (tmp_dir ws) (fst x) = false).
  { intros x Hx. unfold kept_facts in HL. rewrite List.Forall_forall in HL. by apply HL, list_elem_of_In. }
  destruct (paths_apart ws) as (Hic & Hh & Ht & Hbh).
  assert (Hconf : ∀ (A : Type) (S : path → Prop) (c : M FileError A), confined S c →
    (∀ x, x ∈ L → ¬ S (fst x)) → ¬ S (workspace_core_path ws) → triple safe c (λ _, safe) safe safe).
  { intros A S c Hc HS Hcore. eapply triple_conseq; [apply (Hc (λ d, facts L d ∧ core_safe d))|..]; try done.
    apply stable_and; [by apply Hstable|by apply core_safe_stable]. }
  unfold recover_one_workspace.
  eapply triple_bind with (R := λ hs d, hs = idx ∧ safe d).
  { intros w (Hm & Hf & Hcs).
    assert (Hv : visible (disk w) !! head_index_path ws = Some (File ib true))
      by (apply definite_visible; by eapply facts_elem).
    pose proof (recover_index_there w ib true idx Hv Hib Hlen) as H.
    destruct (recover_index ws w) as [w' [hs|e|]]; [destruct H as [-> ->]|rewrite H..]; done. }
  intros hs. cbv beta. apply triple_pure. intros ->.
  eapply triple_bind with (R := λ _, safe).
  { apply (Hconf _ (orphan_path idx)); [apply confined_sweep_heads|by intros x Hx; apply HLe|].
    intros (name & id & E & _). symmetry in E. by apply (proj2 (Hh [name])). }
  intros n1. eapply triple_bind with (R := λ _, safe).
  { apply repair_safe. apply Hstable. by intros x Hx; apply HLe. }
  intros n2. fold (tmp_dir ws).
  assert (Hdrain : ∀ scope, triple safe (drain_staging_dir (tmp_dir ws) scope) (λ _, safe) safe safe).
  { intros scope. apply (Hconf _ (λ q, below (tmp_dir ws) q = true)).
    - unfold drain_staging_dir. apply confined_bind; [apply confined_walk_staging|auto with confined].
    - intros x Hx. destruct (HLe x Hx) as (_ & _ & ->). done.
    - intros [k E]%below_true. symmetry in E. by apply (proj2 (Ht k)). }
  eapply triple_bind with (R := λ _, safe).
  { by intros w Hw. }
  intros there. destruct there; cbn [negb]; [|by apply triple_ret].
  repeat (eapply triple_bind; [apply Hdrain|intros ?]). by apply triple_ret.
Qed.

(** What a consistent image fixes. *)
Definition image_facts (idx : HeadIndex) (img : fs) : list (path * list (option node)) :=
  map (λ p, (p, [img !! p])) (head_index_path ws :: heads_dir ws ::
    flat_map (λ r, [head_manifest_path ws (hr_head_id r); head_artifact_path ws (hr_head_id r)]) (heads idx)).

Lemma image_facts_quiet idx img : facts (image_facts idx img) (mkDisk img []).
Proof.
  apply facts_spec. intros x Hx%list_elem_of_In. unfold image_facts in Hx.
  apply list_elem_of_fmap in Hx as (p & -> & _). by apply definite_quiet.
Qed.

Lemma image_facts_elem idx img p :
  p = head_index_path ws ∨ p = heads_dir ws ∨
  (∃ r, r ∈ heads idx ∧ (p = head_manifest_path ws (hr_head_id r) ∨ p = head_artifact_path ws (hr_head_id r))) ↔
  (p, [img !! p]) ∈ image_facts idx img.
Proof.
  unfold image_facts. rewrite list_elem_of_fmap. split.
  - intros H. exists p. split; [done|]. rewrite !elem_of_cons, list_elem_of_In, in_flat_map.
    destruct H as [->|[->|(r & Hr & H)]]; [by left|by right; left|right; right]. exists r.
    rewrite <-!list_elem_of_In, !elem_of_cons. naive_solver.
  - intros (q & [= -> _] & Hq). rewrite !elem_of_cons, list_elem_of_In, in_flat_map in Hq.
    destruct Hq as [->|[->|(r & Hr & H)]]; [by left|by right; left|right; right]. exists r.
    rewrite <-!list_elem_of_In, !elem_of_cons, elem_of_nil in *. naive_solver.
Qed.

(** A listed head's own files are not orphans. *)
Lemma head_name_id h ext id :
  ext = "mpk"%string ∨ ext = "json"%string →
  head_file_id (HeadId_display h ++ "." ++ ext) = Some id → id = h.
Proof.
  intros Hext. unfold head_file_id.
  assert (Hsplit : rsplit_once "." (bytes_of (HeadId_display h ++ "." ++ ext)) =
    Some (bytes_of (HeadId_display h), bytes_of ext)).
  { rewrite !bytes_of_app. induction (bytes_of (HeadId_display h)) as [|c l IH].
    - by destruct Hext as [-> | ->].
    - cbn [app rsplit_once]. by rewrite IH. }
  rewrite Hsplit. destruct (_ || _); [|done]. rewrite string_of_bytes.
  destruct (HeadId_parse (HeadId_display h)) as [id'|e|] eqn:Hp; [|done..]. intros [= <-].
  pose proof (HeadId_display_canonical _ _ Hp) as Hd. symmetry. apply HeadId_display_inj; [|done].
  by apply uuid_id_parse_Parsed in Hp as [Hc _].
Qed.

Lemma image_facts_kept idx img : kept_facts idx (image_facts idx img).
Proof.
  unfold kept_facts. apply List.Forall_forall. intros x Hx%list_elem_of_In.
  unfold image_facts in Hx. apply list_elem_of_fmap in Hx as (p & -> & Hp). cbn [fst].
  assert (Hp' : (p, [img !! p]) ∈ image_facts idx img) by (apply list_elem_of_fmap; eauto).
  apply image_facts_elem in Hp'. destruct (paths_apart ws) as (Hic & Hh & Ht & Hbh).
  assert (Hhead : ∀ h ext, ext = "mpk"%string ∨ ext = "json"%string →
    let q := heads_dir ws ++ [(HeadId_display h ++ "." ++ ext)%string] in
    h ∈ map hr_head_id (heads idx) →
    ¬ put_scope (workspace_core_path ws) q ∧ ¬ orphan_path idx q ∧ below (tmp_dir ws) q = false).
  { intros h ext Hext q Hin. split_and!; [| |apply Hbh].
    - unfold put_scope, workspace_core_path. rewrite parent_app. unfold q, heads_dir. rewrite <-app_assoc.
      intros [E|(name & E & _)]; by apply app_inv_head in E.
    - intros (name & id & E & Hid & Hn). apply app_inj_tail in E as [_ <-].
      apply head_name_id in Hid as ->; done. }
  destruct Hp' as [->|[->|(r & Hr & Hp')]].
  - split_and!; [by apply index_core_scopes| |].
    + intros (name & id & E & _). symmetry in E. by apply (proj1 (Hh [name])).
    + apply not_true_iff_false. intros [k E]%below_true. symmetry in E. by apply (proj1 (Ht k)).
  - split_and!.
    + unfold put_scope, workspace_core_path, heads_dir. rewrite parent_app.
      intros [E|(name & E & Hn)]; apply app_inj_tail in E as [_ E]; by subst.
    + intros (name & id & E & _). apply (f_equal (@List.length _)) in E. rewrite length_app in E. cbn in E. lia.
    + rewrite <-(app_nil_r (heads_dir ws)). apply Hbh.
  - assert (Hin : hr_head_id r ∈ map hr_head_id (heads idx)) by (apply list_elem_of_fmap; eauto).
    destruct Hp' as [->| ->]; [apply (Hhead _ "json"%string)|apply (Hhead _ "mpk"%string)]; auto.
Qed.

Definition safe (idx : HeadIndex) (img : fs) (d : Disk) : Prop :=
  no_moves d ∧ facts (image_facts idx img) d ∧ core_safe d.

Lemma safe_start idx img : heads_consistent ws idx img → safe idx img (mkDisk img []).
Proof.
  intros (_ & _ & _ & _ & b & core & Hb & Hc). split_and!; [constructor|apply image_facts_quiet|].
  exists [Some (File b true)]. split; [by apply definite_quiet|].
  intros v ->%list_elem_of_singleton. by exists b, core.
Qed.

(** Whatever agrees with the facts of a safe disk is consistent again. *)
Lemma safe_consistent idx img d img' :
  heads_consistent ws idx img → safe idx img d →
  (∀ p vs, among d p vs → forallb settled vs = true → img' !! p ∈ vs) → heads_consistent ws idx img'.
Proof.
  intros ((ib & Hi1 & Hi2) & Hlen & Hd & Hheads & _) (_ & HL & vs & Hvs & Hcore) Hagree.
  assert (Hsame : ∀ p n, (p, [img !! p]) ∈ image_facts idx img → img !! p = Some n →
    settled (Some n) = true → img' !! p = Some n).
  { intros p n Hp Hn Hs. pose proof (facts_elem _ _ _ _ HL Hp) as Ha. apply Hagree in Ha.
    - apply list_elem_of_singleton in Ha. congruence.
    - rewrite Hn. cbn [forallb]. by rewrite Hs. }
  split_and!.
  - exists ib. split; [|done]. apply Hsame; [apply image_facts_elem; by left|done|done].
  - done.
  - apply Hsame; [apply image_facts_elem; by right; left|done|done].
  - intros r Hr. destruct (Hheads r Hr) as [(mb & man & H1 & H2 & H3) (wb & H4)]. split.
    + exists mb, man. split_and!; [|done|done]. apply Hsame; [apply image_facts_elem; right; right; eauto|done|done].
    + exists wb. apply Hsame; [apply image_facts_elem; right; right; eauto|done|done].
  - destruct (Hcore (img' !! workspace_core_path ws)) as (b & core & H1 & H2); [|by exists b, core].
    apply Hagree; [done|]. apply forallb_forall. intros v Hv%list_elem_of_In.
    by destruct (Hcore v Hv) as (b & core & -> & _).
Qed.

(** One boot, cut or not, started on [img]. *)
Definition reboot (img img' : fs) : Prop :=
  ∃ b fl, crash_image (disk (fst (recover_one_workspace ws (mkWorld (mkDisk img []) b fl)))) img'.

Lemma recover_run_safe idx img b fl :
  heads_consistent ws idx img →
  safe idx img (disk (fst (recover_one_workspace ws (mkWorld (mkDisk img []) b fl)))).
Proof.
  intros Hc. pose proof Hc as ((ib & Hi1 & Hi2) & Hlen & _).
  pose proof (recover_one_safe idx ib (image_facts idx img) Hi2 Hlen) as H. cbv zeta in H.
  specialize (H ltac:(rewrite <-Hi1; apply image_facts_elem; by left) (image_facts_kept idx img)
    (mkWorld (mkDisk img []) b fl) (safe_start idx img Hc)).
  by destruct (recover_one_workspace ws _) as [w' [a|e|]].
Qed.

Lemma reboot_consistent idx img img' :
  heads_consistent ws idx img → reboot img img' → heads_consistent ws idx img'.
Proof.
  intros Hc (b & fl & Hi). eapply safe_consistent; [exact Hc|by apply (recover_run_safe idx img b fl)|].
  intros p vs Ha Hs. by eapply among_crash.
Qed.

Lemma reboots_consistent idx img img' :
  heads_consistent ws idx img → rtc reboot img img' → heads_consistent ws idx img'.
Proof. intros Hc. induction 1; [done|]. apply IHrtc. by eapply reboot_consistent. Qed.

(** The undisturbed boot. *)
Lemma recovery_completes idx core img :
  heads_consistent ws idx img → recoverable ws idx core img →
  ∃ counts w', recover_one_workspace ws (mkWorld (mkDisk img []) None []) = (w', Ret counts) ∧
    restored ws idx core img (visible (disk w')) ∧ heads_consistent ws idx (visible (disk w')).
Proof.
  intros Hc Hr. destruct (evals_recover_one_workspace ws idx core img Hr) as (counts & m' & He & Hres).
  destruct (He (mkDisk img [])) as (d' & E & [Hn Hv]); [by split; [constructor|]|].
  exists counts, (calm d'). change (mkWorld (mkDisk img []) None []) with (calm (mkDisk img [])).
  split; [exact E|]. cbn [disk calm]. rewrite <-Hv. split; [done|].
  pose proof (recover_run_safe idx img None [] Hc) as Hs. unfold calm in E. rewrite E in Hs. cbn in Hs.
  rewrite Hv. eapply safe_consistent; [exact Hc|exact Hs|]. intros p vs Ha _. by apply among_visible.
Qed.
End OneWorkspace.

Lemma existsb_map {A B : Type} (f : A → B) (g : B → bool) l : existsb g (map f l) = existsb (λ x, g (f x)) l.
Proof. induction l as [|x l IH]; cbn; [done|]. by rewrite IH. Qed.

Lemma scrambled_refl m : scrambled_fs m m.
Proof. intros p. destruct (m !! p) as [[c []| |]|]; cbn; eauto. Qed.

(** A crash may lose nothing. *)
Lemma crash_visible d : crash_image d (visible d).
Proof. exists (pending d). split; [done|apply scrambled_refl]. Qed.

(** ** Properties *)


(** Boot recovery restores a workspace.  On any tree with a readable
    [workspace.json], an index of at most two heads (or none, which counts as
    the empty one) and daemon-shaped staging, an undisturbed
    [recover_one_workspace] succeeds and leaves the index, the repaired
    [head_count], only listed heads among the files it owns in [heads/], no
    tombstone and no stage directory, and every other path as it was. *)
Theorem recover_one_workspace_restores `{UL : UuidLaws} `{TL : TempLaws}
    `{JC : Json WorkspaceCore} `{!JsonLaws WorkspaceCore} `{JH : Json HeadIndex} `{!JsonLaws HeadIndex}
    `{JT : !Json DeleteTombstone} `{HP : !HashIter string path}
    (ws : path) (idx : HeadIndex) (core : WorkspaceCore) (m : fs) (w : World)
    (Hquiet : quiet w) (Hnm : no_moves (disk w)) (Hm : visible (disk w) = m)
    (Hrec : recoverable ws idx core m) :
  ∃ counts w', recover_one_workspace ws w = (w', Ret counts) ∧ restored ws idx core m (visible (disk w')).
Proof.
  destruct (evals_recover_one_workspace ws idx core m Hrec) as (counts & m' & He & Hres).
  destruct (He (disk w) (conj Hnm (eq_sym Hm))) as (d' & E & [_ Hv]). exists counts, (calm d').
  destruct w as [d b f]. destruct Hquiet as [Hb Hf]. cbn in Hb, Hf. subst b f. split; [exact E|]. cbn. by rewrite <-Hv.
Qed.

(** The root sweep completes interrupted workspace deletes.  With every
    tombstone of the root staging directory carrying its own name, an
    undisturbed [recover_root_staging] succeeds, counts and evicts from the
    cache exactly the workspaces the tombstones name, and removes every
    tombstone and stage directory and nothing else. *)
Theorem recover_root_staging_completes `{UL : UuidLaws} `{JC : Json WorkspaceCore} `{JH : Json HeadIndex}
    `{JT : !Json DeleteTombstone} `{HP : !HashIter string path}
    (root : path) (caches : gmap WorkspaceId WorkspaceCacheCell) (w : World)
    (Hquiet : quiet w) (Hnm : no_moves (disk w))
    (Hok : staging_ok WORKSPACE_TOMBSTONE_PREFIX (root_tmp_dir root) (visible (disk w)))
    (Hsize : size (visible (disk w)) < MAX_DRAIN_ITERS * DEFAULT_DELETE_BATCH_ENTRIES) :
  let m := visible (disk w) in
  let ts := staged_tombs WORKSPACE_TOMBSTONE_PREFIX (root_tmp_dir root) m in
  ∃ swept w', recover_root_staging root caches w =
      (w', Ret (mkRecoveryRootReport (List.length ts) swept,
                foldl (λ cs t, delete (tombstone_workspace_id t) cs) caches ts)) ∧
    ∀ q, visible (disk w') !! q =
      if existsb (λ name, below (root_tmp_dir root ++ [name]) q)
           (staged_names WORKSPACE_TOMBSTONE_PREFIX (root_tmp_dir root) m)
      then None else m !! q.
Proof.
  cbv zeta. set (m := visible (disk w)) in *.
  destruct (evals_walk_staging WORKSPACE_TOMBSTONE_PREFIX (root_tmp_dir root)
    (λ ws cs, delete ws cs) caches m Hok Hsize) as [swept He].
  assert (Hrun : evals m (recover_root_staging root caches)
    (Ok (mkRecoveryRootReport (List.length (staged_tombs WORKSPACE_TOMBSTONE_PREFIX (root_tmp_dir root) m)) swept,
      foldl (λ cs t, delete (tombstone_workspace_id t) cs) caches
        (staged_tombs WORKSPACE_TOMBSTONE_PREFIX (root_tmp_dir root) m)))
    (staging_swept WORKSPACE_TOMBSTONE_PREFIX (root_tmp_dir root) m)).
  { unfold recover_root_staging. eapply evals_bind; [apply evals_is_dir|]. cbv beta.
    rewrite (so_dir _ _ _ Hok). cbn [negb]. eapply evals_bind; [exact He|]. apply evals_ret. }
  destruct (Hrun (disk w) (conj Hnm eq_refl)) as (d' & E & [_ Hv]). exists swept, (calm d').
  destruct w as [d b f]. destruct Hquiet as [Hb Hf]. cbn in Hb, Hf. subst b f. split; [exact E|].
  intros q. cbn [disk calm]. rewrite <-Hv. unfold staging_swept. rewrite lookup_without.
  by rewrite existsb_map.
Qed.

(** A workspace found dirty at boot: an unlisted head file, a stale count, an
    interrupted dataset delete, an orphan stage directory, a torn tombstone. *)
Section Scenario.
#[local] Instance rv_uuid : UuidLib := text_uuid_lib.
#[local] Instance rv_temp : TempLib := long_temp_lib.
#[local] Instance rv_core_json : Json WorkspaceCore := bits_json WorkspaceCore.
#[local] Instance rv_index_json : Json HeadIndex := bits_json HeadIndex.
#[local] Instance rv_manifest_json : Json HeadManifest := bits_json HeadManifest.
#[local] Instance rv_tomb_json : Json DeleteTombstone := bits_json DeleteTombstone.

Definition rv_cut : World := mkWorld (disk sc_world) (Some 9) [].
Definition rv_img0 : fs := visible (disk (fst (publish_trained_head sc_ws sc_cell sc_pending rv_cut))).
Definition rv_img1 : fs :=
  visible (disk (fst (recover_one_workspace sc_ws (mkWorld (mkDisk rv_img0 []) (Some 3) [])))).


Definition rv_job (c : ascii) : JobId := mkJobId (String c "1" : Uuid).
Definition rv_tomb : DeleteTombstone := TombDataset (rv_job "d") hr_ws None 3 "t".
Definition rv_tree : fs := list_to_map (
  map (λ x, (sc_ws ++ fst x, snd x))
  [ (["workspace.json"%string], File (sc_bytes (with_count 7 sc_core)) true);
    (["heads.json"%string], File (sc_bytes (mkHeadIndex [])) true);
    (["heads"%string], Dir);
    (["heads"; (HeadId_display (sc_id "c") ++ ".mpk")]%string, File (bytes_of "w") true);
    (["heads"; "notes.txt"]%string, File (bytes_of "n") true);
    ([".tmp"%string], Dir);
    ([".tmp"; filename rv_tomb]%string, File (bits (encode rv_tomb)) true);
    ([".tmp"; stage_dir_name rv_tomb]%string, Dir);
    ([".tmp"; stage_dir_name rv_tomb; "payload"]%string, Dir);
    ([".tmp"; stage_dir_name rv_tomb; "payload"; "x.wav"]%string, File [] true);
    ([".tmp"; "delete-converters-z"]%string, Dir);
    ([".tmp"; "delete-assets-q.json"]%string, File (bytes_of "torn") false) ] ++
  [([], Dir); (["workspaces"%string], Dir); (sc_ws, Dir)]).

(** Checking the shape of a staging directory name by name. *)
Definition staging_okb (pre : string) (dir : path) (m : fs) : bool :=
  forallb (λ name,
    (if tomb_at pre dir m name
     then match tomb_of dir m name with
          | Some t => String.eqb (prefix t) pre && String.eqb (filename t) name &&
              match m !! (dir ++ [stage_dir_name t]) with None | Some Dir => true | _ => false end
          | None => true
          end
     else true) &&
    (if String.prefix pre name
     then forallb (λ y, String.eqb y STAGED_PAYLOAD_NAME) (children (dir ++ [name]) m)
     else true)) (children dir m).

Lemma staging_okb_ok pre dir m :
  wf_tree m → m !! dir = Some Dir → staging_okb pre dir m = true → staging_ok pre dir m.
Proof.
  intros Hwf Hd Hb. unfold staging_okb in Hb. rewrite forallb_forall in Hb.
  assert (Hc : ∀ name, is_Some (m !! (dir ++ [name])) → In name (children dir m)).
  { intros name Hn. apply list_elem_of_In. by apply children_spec. }
  split; [done|done|..].
  - intros name t Hn Ht. assert (Hs : is_Some (m !! (dir ++ [name]))).
    { unfold tomb_at in Hn. destruct (m !! (dir ++ [name])); [by eexists|done]. }
    specialize (Hb name (Hc name Hs)). rewrite Hn, Ht in Hb.
    apply andb_true_iff in Hb as [Hb _]. apply andb_true_iff in Hb as [Hb Hs3].
    apply andb_true_iff in Hb as [->%String.eqb_eq ->%String.eqb_eq]. split_and!; [done|done|].
    destruct (m !! (dir ++ [stage_dir_name t])) as [[]|]; [done|by right|done|by left].
  - intros name y Hp Hy. assert (Hs : is_Some (m !! (dir ++ [name]))).
    { exists Dir. apply (below_trans m (dir ++ [name]) [y] Hwf); [|done]. by rewrite <-app_assoc. }
    specialize (Hb name (Hc name Hs)). rewrite Hp in Hb. apply andb_true_iff in Hb as [_ Hb].
    rewrite forallb_forall in Hb. apply String.eqb_eq, Hb, list_elem_of_In, children_spec.
    by rewrite <-app_assoc.
Qed.

Lemma rv_wf_tree : wf_tree rv_tree.
Proof. apply wf_treeb_ok. vm_compute. reflexivity. Qed.

Lemma rv_recoverable : recoverable sc_ws (mkHeadIndex []) (with_count 7 sc_core) rv_tree.
Proof.
  split.
  - exact rv_wf_tree.
  - left. exists (sc_bytes (mkHeadIndex [])), true. split_and!; [vm_compute; reflexivity| |cbn; lia].
    by apply (@from_to _ _ (bits_json_laws HeadIndex)).
  - exists (sc_bytes (with_count 7 sc_core)), true. split_and!; [vm_compute; reflexivity|vm_compute; discriminate|].
    by apply (@from_to _ _ (bits_json_laws WorkspaceCore)).
  - exists (bits (encode (with_count 0 sc_core))). split; [reflexivity|vm_compute; discriminate].
  - intros Hd scope. apply staging_okb_ok; [exact rv_wf_tree|exact Hd|]. destruct scope; vm_compute; reflexivity.
  - assert (E : size rv_tree = 15) by (vm_compute; reflexivity). rewrite E.
    unfold MAX_DRAIN_ITERS, DEFAULT_DELETE_BATCH_ENTRIES. lia.
Qed.

Lemma recover_one_workspace_restores_witness :
  ∃ counts w', recover_one_workspace sc_ws (mkWorld (mkDisk rv_tree []) None []) = (w', Ret counts) ∧
    restored sc_ws (mkHeadIndex []) (with_count 7 sc_core) rv_tree (visible (disk w')).
Proof.
  apply (recover_one_workspace_restores (UL := text_uuid_laws) (TL := long_temp_laws)
    (JsonLaws0 := bits_json_laws WorkspaceCore) (JsonLaws1 := bits_json_laws HeadIndex)
    sc_ws (mkHeadIndex []) (with_count 7 sc_core) rv_tree (mkWorld (mkDisk rv_tree []) None [])).
  - by split.
  - constructor.
  - reflexivity.
  - exact rv_recoverable.
Defined.

(** An interrupted delete of a whole workspace. *)
Definition rt_tomb : DeleteTombstone := TombWorkspace (rv_job "w") hr_ws "t".
Definition rt_tree : fs := list_to_map
  [ ([], Dir); ([".tmp"%string], Dir);
    ([".tmp"; filename rt_tomb]%string, File (bits (encode rt_tomb)) true);
    ([".tmp"; stage_dir_name rt_tomb]%string, Dir);
    ([".tmp"; stage_dir_name rt_tomb; "payload"]%string, Dir);
    ([".tmp"; stage_dir_name rt_tomb; "payload"; "workspace.json"]%string, File [] true);
    (["workspaces"%string], Dir) ].

Lemma rt_staging_ok : staging_ok WORKSPACE_TOMBSTONE_PREFIX (root_tmp_dir []) rt_tree.
Proof.
  apply staging_okb_ok; [apply wf_treeb_ok|..]; vm_compute; reflexivity.
Qed.

Lemma recover_root_staging_completes_witness :
  ∃ swept w', recover_root_staging [] {[ hr_ws := sc_cell ]} (mkWorld (mkDisk rt_tree []) None []) =
      (w', Ret (mkRecoveryRootReport 1 swept, delete hr_ws {[ hr_ws := sc_cell ]})) ∧
    visible (disk w') !! [".tmp"; stage_dir_name rt_tomb; "payload"]%string = None.
Proof.
  destruct (recover_root_staging_completes (UL := text_uuid_laws) [] {[ hr_ws := sc_cell ]}
    (mkWorld (mkDisk rt_tree []) None [])) as (swept & w' & H1 & H2).
  - by split.
  - constructor.
  - exact rt_staging_ok.
  - assert (E : size rt_tree = 7) by (vm_compute; reflexivity). cbn [disk visible]. 
    change (visible (mkDisk rt_tree [])) with rt_tree. rewrite E.
    unfold MAX_DRAIN_ITERS, DEFAULT_DELETE_BATCH_ENTRIES. lia.
  - exists swept, w'.
    assert (E : staged_tombs WORKSPACE_TOMBSTONE_PREFIX (root_tmp_dir []) rt_tree = [rt_tomb]) by (vm_compute; reflexivity).
    cbv zeta in H1, H2. cbn [disk] in H1, H2. change (visible (mkDisk rt_tree [])) with rt_tree in H1, H2.
    unfold rv_uuid in *. rewrite E in H1. split; [exact H1|]. rewrite H2. vm_compute. reflexivity.
Defined.
End Scenario.
