(* ===== verification/StorageReaper.v ===== *)
(** * The storage reaper

    [file_mgr/storage_reaper.rs]: the periodic sweep of what crashed uploads and
    deletes left in the [.tmp/] directories and of job logs past their age, and
    the daemon's tick around it.

    Times are nanoseconds.  An entry's modification time is what the sweep's own
    [metadata] call reports, a parameter [mtime]; a platform that exposes none
    answers with an error. *)

From S2P Require Import Prelude Ids AssetPath Common Workspace FileSystem FsAtomic Schema Staging AssetTree.

(** ** Configuration and report *)

Record SweepConfig : Type := mkSweepConfig { tmp_age : Z; log_age : Z }.

Record SweepReport : Type := mkSweepReport {
  tmp_orphans_reaped : nat;
  log_files_pruned : nat;
  workspaces_scanned : nat;
  failures : nat;
}.

Definition default_report : SweepReport := mkSweepReport 0 0 0 0.

Definition did_work (r : SweepReport) : bool := (0 <? tmp_orphans_reaped r) || (0 <? log_files_pruned r).

Definition add_reaped (n : nat) (r : SweepReport) : SweepReport :=
  mkSweepReport (tmp_orphans_reaped r + n) (log_files_pruned r) (workspaces_scanned r) (failures r).
Definition add_pruned (n : nat) (r : SweepReport) : SweepReport :=
  mkSweepReport (tmp_orphans_reaped r) (log_files_pruned r + n) (workspaces_scanned r) (failures r).
Definition add_scanned (n : nat) (r : SweepReport) : SweepReport :=
  mkSweepReport (tmp_orphans_reaped r) (log_files_pruned r) (workspaces_scanned r + n) (failures r).
Definition add_failures (n : nat) (r : SweepReport) : SweepReport :=
  mkSweepReport (tmp_orphans_reaped r) (log_files_pruned r) (workspaces_scanned r) (failures r + n).

(** [matches!(now.duration_since(mtime), Ok(d) if d > age)]: a time in the
    future is not an age. *)
Definition aged_out (now age mtime : Z) : bool := ((mtime <=? now) && (age <? now - mtime))%Z.

(** [for entry in read_dir(dir)]: the step to the next entry is a call of its
    own; when it fails the entry is counted and passed over. *)
Definition next_entry : M IoKind unit := syscall (λ d, (d, Ok tt)).

Fixpoint for_entries (dir : path) (body : path → SweepReport → M FileError SweepReport)
    (entries : list string) (report : SweepReport) : M FileError SweepReport :=
  match entries with
  | [] => mret report
  | name :: entries =>
      entry ← attempt next_entry;
      report ← match entry with
               | Err _ => mret (add_failures 1 report)
               | Ok _ => body (dir ++ [name]) report
               end;
      for_entries dir body entries report
  end.

(** ** The sweep *)

Section Sweep.
Variable mtime : path → result IoKind Z.
Variable now : Z.

(** What a removal's result adds: nothing when the entry was already gone. *)
Definition removed (count : SweepReport → SweepReport) (res : result IoKind unit) (report : SweepReport) : SweepReport :=
  match res with
  | Ok _ => count report
  | Err IoNotFound => report
  | Err _ => add_failures 1 report
  end.

(** The body of [sweep_dir_entries]'s loop. *)
Definition reap_entry (age : Z) (p : path) (report : SweepReport) : M FileError SweepReport :=
  metadata ← attempt (symlink_metadata p);
  match metadata with
  | Err IoNotFound => mret report
  | Err _ => mret (add_failures 1 report)
  | Ok n =>
      match mtime p with
      | Err _ => mret (add_failures 1 report)
      | Ok t =>
          if negb (aged_out now age t) then mret report
          else
            res ← attempt (match n with Dir => fs_remove_dir_all p | _ => fs_remove_file p end);
            mret (removed (add_reaped 1) res report)
      end
  end.

Definition sweep_dir_entries (dir : path) (age : Z) (report : SweepReport) : M FileError SweepReport :=
  entries ← attempt (fs_read_dir dir);
  match entries with
  | Ok entries => for_entries dir (reap_entry age) entries report
  | Err IoNotFound => mret report
  | Err _ => mret (add_failures 1 report)
  end.

(** The body of [prune_old_files]'s loop: regular files only. *)
Definition prune_entry (age : Z) (p : path) (report : SweepReport) : M FileError SweepReport :=
  metadata ← attempt (symlink_metadata p);
  match metadata with
  | Err IoNotFound => mret report
  | Err _ => mret (add_failures 1 report)
  | Ok (File _ _) =>
      match mtime p with
      | Err _ => mret (add_failures 1 report)
      | Ok t =>
          if negb (aged_out now age t) then mret report
          else
            res ← attempt (fs_remove_file p);
            mret (removed (add_pruned 1) res report)
      end
  | Ok _ => mret report
  end.

Definition prune_old_files (dir : path) (age : Z) (report : SweepReport) : M FileError SweepReport :=
  entries ← attempt (fs_read_dir dir);
  match entries with
  | Ok entries => for_entries dir (prune_entry age) entries report
  | Err IoNotFound => mret report
  | Err _ => mret (add_failures 1 report)
  end.

Definition sweep_workspace (cfg : SweepConfig) (ws : path) (report : SweepReport) : M FileError SweepReport :=
  report ← sweep_dir_entries (ws ++ [ROOT_TMP_DIR_NAME]) (tmp_age cfg) report;
  report ← prune_old_files (ws ++ [TRAINING_LOGS_DIR_NAME]) (log_age cfg) report;
  prune_old_files (ws ++ [CONVERTER_LOGS_DIR_NAME]) (log_age cfg) report.

(** The body of [sweep_once]'s loop over the workspaces. *)
Definition scan_workspace (cfg : SweepConfig) (ws : path) (report : SweepReport) : M FileError SweepReport :=
  file_type ← attempt (symlink_metadata ws);
  match file_type with
  | Err _ => mret (add_failures 1 report)
  | Ok Dir => sweep_workspace cfg ws (add_scanned 1 report)
  | Ok _ => mret report
  end.

Definition sweep_once (root : path) (cfg : SweepConfig) : M FileError SweepReport :=
  report ← sweep_dir_entries (root_tmp_dir root) (tmp_age cfg) default_report;
  report ← sweep_dir_entries (active_staging_dir root) (tmp_age cfg) report;
  let workspaces := workspaces_dir root in
  entries ← attempt (fs_read_dir workspaces);
  match entries with
  | Ok entries => for_entries workspaces (scan_workspace cfg) entries report
  | Err IoNotFound => mret report
  | Err e => throw (io_err workspaces e)
  end.
End Sweep.

(** ** The daemon's tick *)

Definition TMP_AGE_THRESHOLD : Z := from_secs (24 * 3600).
Definition LOG_AGE_THRESHOLD : Z := from_secs (30 * 24 * 3600).

(** The sweep's counters of [WorkspaceMetrics]; [fetch_add] wraps at 64 bits. *)
Record StorageMetrics : Type := mkStorageMetrics {
  tmp_orphans_reaped_total : Z;
  log_files_pruned_total : Z;
  storage_reaper_failures_total : Z;
}.

Definition fetch_add (n : nat) (total : Z) : Z := ((total + Z.of_nat n) mod 2 ^ 64)%Z.

Definition record_storage_sweep (reaped pruned failed : nat) (s : StorageMetrics) : StorageMetrics :=
  mkStorageMetrics (fetch_add reaped (tmp_orphans_reaped_total s)) (fetch_add pruned (log_files_pruned_total s))
    (fetch_add failed (storage_reaper_failures_total s)).

(** One tick: a sweep that fails is logged and leaves the counters alone.  The
    second component is whether the tick logs that the sweep completed. *)
Definition storage_reaper_tick (mtime : path → result IoKind Z) (now : Z) (root : path) (s : StorageMetrics)
    : M FileError (StorageMetrics * bool) :=
  outcome ← attempt (sweep_once mtime now root (mkSweepConfig TMP_AGE_THRESHOLD LOG_AGE_THRESHOLD));
  mret (match outcome with
        | Ok report =>
            (record_storage_sweep (tmp_orphans_reaped report) (log_files_pruned report) (failures report) s,
             did_work report || (0 <? failures report))
        | Err _ => (s, false)
        end).
