(* ===== verification/StorageReaperFacts.v ===== *)
(** * What the storage reaper removes

    A sweep cut anywhere touches aged entries only ([sweep_only_stale]); one that
    nothing disturbs removes exactly them, counts them, and leaves a second sweep
    nothing to do ([sweep_once_exact]).  [confined] bounds the first;
    [evals_for_entries] computes the second, entry by entry, each entry's effect
    depending on its own subtree alone. *)

From S2P Require Import Prelude Ids AssetPath Common Workspace Broadcast JobRegistry FileSystem FsLogic FsAtomic Schema ActiveHead Staging StagingFacts FsRun AssetTree HeadRotation Recovery RecoveryFacts RecoverySafety StorageReaper.

(** ** Where the sweep may reach *)

Section Reach.
Variable mtime : path → result IoKind Z.
Variable now : Z.

Definition aged (age : Z) (p : path) : bool :=
  match mtime p with Ok t => aged_out now age t | Err _ => false end.

(** [q] is, or lies in, an aged entry of [dir]. *)
Definition stale_tree (dir : path) (age : Z) (q : path) : Prop :=
  ∃ name, aged age (dir ++ [name]) = true ∧ below (dir ++ [name]) q = true.

(** [q] is an aged entry of [dir]. *)
Definition stale_file (dir : path) (age : Z) (q : path) : Prop :=
  ∃ name, aged age q = true ∧ q = dir ++ [name].

Definition reapable_in (cfg : SweepConfig) (ws q : path) : Prop :=
  stale_tree (ws ++ [ROOT_TMP_DIR_NAME]) (tmp_age cfg) q ∨
  stale_file (ws ++ [TRAINING_LOGS_DIR_NAME]) (log_age cfg) q ∨
  stale_file (ws ++ [CONVERTER_LOGS_DIR_NAME]) (log_age cfg) q.

Definition reapable (root : path) (cfg : SweepConfig) (q : path) : Prop :=
  stale_tree (root_tmp_dir root) (tmp_age cfg) q ∨
  stale_tree (active_staging_dir root) (tmp_age cfg) q ∨
  ∃ name, reapable_in cfg (workspaces_dir root ++ [name]) q.

Lemma confined_for_entries (S : path → Prop) dir body l r :
  (∀ name r, confined S (body (dir ++ [name]) r)) → confined S (for_entries dir body l r).
Proof.
  intros Hb. revert r. induction l as [|name l IH]; intros r; cbn [for_entries]; [auto with confined|].
  apply confined_bind; [apply confined_attempt, (confined_read S (λ _, Ok tt))|]. intros it.
  apply confined_bind; [destruct it; auto with confined|done].
Qed.

Lemma confined_reap_entry dir name age r :
  confined (stale_tree dir age) (reap_entry mtime now age (dir ++ [name]) r).
Proof.
  unfold reap_entry, symlink_metadata. apply confined_bind; [auto with confined|].
  intros [n|[]]; [|auto with confined..]. destruct (mtime (dir ++ [name])) as [t|e] eqn:Et; [|auto with confined].
  destruct (aged_out now age t) eqn:Ea; cbn [negb]; [|auto with confined].
  assert (Hs : ∀ q, below (dir ++ [name]) q = true → stale_tree dir age q).
  { intros q Hq. exists name. unfold aged. by rewrite Et. }
  apply confined_bind; [|intros res; auto with confined]. apply confined_attempt.
  assert (Hp : stale_tree dir age (dir ++ [name])) by (apply Hs; by apply below_true).
  destruct n; auto using confined_remove_dir_all with confined.
Qed.

Lemma confined_prune_entry dir name age r :
  confined (stale_file dir age) (prune_entry mtime now age (dir ++ [name]) r).
Proof.
  unfold prune_entry, symlink_metadata. apply confined_bind; [auto with confined|].
  intros [[c sy| |tg]|[]]; [|auto with confined..]. destruct (mtime (dir ++ [name])) as [t|e] eqn:Et; [|auto with confined].
  destruct (aged_out now age t) eqn:Ea; cbn [negb]; [|auto with confined].
  apply confined_bind; [|intros res; auto with confined]. apply confined_attempt, confined_remove_file.
  exists name. unfold aged. by rewrite Et.
Qed.

Lemma confined_sweep_dir dir age r : confined (stale_tree dir age) (sweep_dir_entries mtime now dir age r).
Proof.
  unfold sweep_dir_entries, fs_read_dir. apply confined_bind; [auto with confined|].
  intros [l|[]]; [|auto with confined..]. apply confined_for_entries. intros name r'. apply confined_reap_entry.
Qed.

Lemma confined_prune dir age r : confined (stale_file dir age) (prune_old_files mtime now dir age r).
Proof.
  unfold prune_old_files, fs_read_dir. apply confined_bind; [auto with confined|].
  intros [l|[]]; [|auto with confined..]. apply confined_for_entries. intros name r'. apply confined_prune_entry.
Qed.

Lemma confined_sweep_workspace cfg ws r : confined (reapable_in cfg ws) (sweep_workspace mtime now cfg ws r).
Proof.
  unfold sweep_workspace.
  apply confined_bind; [eapply confined_weaken; [apply confined_sweep_dir|unfold reapable_in; auto]|]. intros r1.
  apply confined_bind; [eapply confined_weaken; [apply confined_prune|unfold reapable_in; auto]|]. intros r2.
  eapply confined_weaken; [apply confined_prune|unfold reapable_in; auto].
Qed.

Lemma confined_sweep_once root cfg : confined (reapable root cfg) (sweep_once mtime now root cfg).
Proof.
  unfold sweep_once, fs_read_dir.
  apply confined_bind; [eapply confined_weaken; [apply confined_sweep_dir|unfold reapable; auto]|]. intros r1.
  apply confined_bind; [eapply confined_weaken; [apply confined_sweep_dir|unfold reapable; auto]|]. intros r2.
  cbv zeta. apply confined_bind; [auto with confined|]. intros [l|[]]; [|auto with confined..].
  apply confined_for_entries. intros name r3. unfold scan_workspace, symlink_metadata.
  apply confined_bind; [auto with confined|]. intros [[c sy| |tg]|e]; [auto with confined| |auto with confined..].
  eapply confined_weaken; [apply confined_sweep_workspace|]. unfold reapable. eauto.
Qed.
End Reach.

(** ** An undisturbed sweep, computed from the tree *)

(** [for entry in entries] when every body has an effect [gone] and a count
    [upd] that depend on the subtree of the entry alone. *)
Section Entries.
Variable body : path → SweepReport → M FileError SweepReport.
Variable gone : path → fs → list path.
Variable upd : path → fs → SweepReport → SweepReport.

Definition same_below (p : path) (m m' : fs) : Prop := ∀ q, below p q = true → m !! q = m' !! q.

Hypothesis Hbody : ∀ p m n r, wf_tree m → m !! p = Some n →
  evals m (body p r) (Ok (upd p m r)) (without (gone p m) m).
Hypothesis Hin : ∀ p m q, q ∈ gone p m → below p q = true.
Hypothesis Hgone : ∀ p m m' q, same_below p m m' → q ∈ gone p m → q ∈ gone p m'.
Hypothesis Hupd : ∀ p m m' r, same_below p m m' → upd p m r = upd p m' r.

Lemma evals_next_entry m : evals m next_entry (Ok tt) m.
Proof. by apply (evals_read_call m (λ _, Ok tt)). Qed.

Lemma same_below_sym p m m' : same_below p m m' → same_below p m' m.
Proof. intros H q Hq. by rewrite H. Qed.

Lemma siblings_apart (dir : path) (x y : string) q : x ≠ y → below (dir ++ [y]) q = true → below (dir ++ [x]) q = false.
Proof.
  intros Hne [k ->]%below_true. apply not_true_iff_false. intros [k' E]%below_true.
  rewrite <-!app_assoc in E. apply app_inv_head in E. cbn in E. congruence.
Qed.

Lemma same_below_without S dir x y m : (∀ q, q ∈ S → below (dir ++ [x]) q = true) → x ≠ y →
  same_below (dir ++ [y]) m (without S m).
Proof.
  intros HS Hne q Hq. rewrite lookup_without. destruct (existsb _ S) eqn:E; [|done].
  apply existsb_below in E as (p & Hp%HS & Hb). apply below_true in Hb as [k1 ->].
  apply below_true in Hp as [k2 ->]. pose proof (siblings_apart dir x y _ Hne Hq) as Hf.
  rewrite <-app_assoc, below_app in Hf. done.
Qed.

Lemma evals_for_entries dir l m r :
  wf_tree m → NoDup l → (∀ x, x ∈ l → is_Some (m !! (dir ++ [x]))) →
  evals m (for_entries dir body l r) (Ok (foldl (λ r x, upd (dir ++ [x]) m r) r l))
    (without (concat (map (λ x, gone (dir ++ [x]) m) l)) m).
Proof.
  revert m r. induction l as [|x l IH]; intros m r Hwf Hnd Hl; cbn [for_entries foldl map concat].
  { rewrite without_nil. apply evals_ret. }
  destruct (Hl x) as [n Hn]; [left|]. pose proof (NoDup_cons_1_1 _ _ Hnd) as Hx. apply NoDup_cons_1_2 in Hnd.
  eapply evals_bind; [apply evals_attempt, evals_next_entry|].
  eapply evals_bind; [by eapply Hbody|].
  assert (Hsame : ∀ y, y ∈ l → same_below (dir ++ [y]) m (without (gone (dir ++ [x]) m) m)).
  { intros y Hy. eapply (same_below_without _ dir x); [apply Hin|]. by intros ->. }
  set (m1 := without (gone (dir ++ [x]) m) m) in *.
  specialize (IH m1 (upd (dir ++ [x]) m r) (without_wf _ _ Hwf) Hnd).
  replace (foldl (λ r x, upd (dir ++ [x]) m r) (upd (dir ++ [x]) m r) l)
    with (foldl (λ r x, upd (dir ++ [x]) m1 r) (upd (dir ++ [x]) m r) l).
  2:{ clear IH. revert Hsame. generalize (upd (dir ++ [x]) m r). clear -Hupd.
      induction l as [|y l IH]; intros r Hs; [done|]. cbn [foldl].
      rewrite (Hupd (dir ++ [y]) m1 m) by (apply same_below_sym, Hs; left). apply IH. intros z Hz. apply Hs. by right. }
  replace (without (gone (dir ++ [x]) m ++ concat (map (λ x, gone (dir ++ [x]) m) l)) m)
    with (without (concat (map (λ x, gone (dir ++ [x]) m1) l)) m1).
  - apply IH. intros y Hy. rewrite <-(Hsame y Hy) by (by apply below_true). apply Hl. by right.
  - unfold m1 at 2. rewrite without_app. apply without_ext. intros q _. rewrite !existsb_app. f_equal.
    apply eq_iff_eq_true. rewrite !existsb_below. split; intros (p & Hp & Hq); exists p; (split; [|done]).
    all: apply list_elem_of_In, in_concat in Hp as (g & Hg & Hp); apply in_map_iff in Hg as (y & <- & Hy);
      apply list_elem_of_In, in_concat; eexists; (split; [apply in_map_iff; exists y; by split|]).
    all: apply list_elem_of_In; eapply Hgone; [|by apply list_elem_of_In].
    + by apply same_below_sym, Hsame, list_elem_of_In.
    + by apply Hsame, list_elem_of_In.
Qed.
End Entries.

Section Exact.
Variable mtime : path → result IoKind Z.
Variable now : Z.

Definition entries_of (m : fs) (dir : path) : list path := map (λ x, dir ++ [x]) (children dir m).

(** The aged entries of a directory, and its aged regular files. *)
Definition stale_entries (age : Z) (m : fs) (dir : path) : list path :=
  List.filter (aged mtime now age) (entries_of m dir).
Definition is_file_at (m : fs) (p : path) : bool := match m !! p with Some (File _ _) => true | _ => false end.
Definition file_entries (m : fs) (dir : path) : list path := List.filter (is_file_at m) (entries_of m dir).
Definition stale_logs (age : Z) (m : fs) (dir : path) : list path :=
  List.filter (aged mtime now age) (file_entries m dir).

(** Entries without a modification time, directories that cannot be listed. *)
Definition untimed (p : path) : bool := match mtime p with Err _ => true | Ok _ => false end.
Definition no_mtime (ps : list path) : nat := List.length (List.filter untimed ps).
Definition unreadable (m : fs) (dir : path) : nat := match m !! dir with Some Dir | None => 0 | _ => 1 end.

Definition swept_tmp (age : Z) (m : fs) (dir : path) (r : SweepReport) : SweepReport :=
  add_failures (unreadable m dir + no_mtime (entries_of m dir)) (add_reaped (List.length (stale_entries age m dir)) r).
Definition swept_logs (age : Z) (m : fs) (dir : path) (r : SweepReport) : SweepReport :=
  add_failures (unreadable m dir + no_mtime (file_entries m dir)) (add_pruned (List.length (stale_logs age m dir)) r).

Lemma report_eq (r r' : SweepReport) :
  tmp_orphans_reaped r = tmp_orphans_reaped r' → log_files_pruned r = log_files_pruned r' →
  workspaces_scanned r = workspaces_scanned r' → failures r = failures r' → r = r'.
Proof. destruct r, r'; cbn. congruence. Qed.

Lemma evals_ret_eq (m : fs) (r r' : SweepReport) : r = r' → evals m (mret r : M FileError SweepReport) (Ok r') m.
Proof. intros ->. apply evals_ret. Qed.

Lemma not_dir_no_entries m dir : wf_tree m → m !! dir ≠ Some Dir → entries_of m dir = [].
Proof.
  intros Hwf Hd. unfold entries_of. rewrite no_children; [done|]. intros y. apply eq_None_not_Some. intros Hs.
  by destruct (below_trans m dir [y] Hwf Hs) as [E _].
Qed.

Lemma concat_filter {A B : Type} (f : A → bool) (g : B → A) (l : list B) :
  concat (map (λ x, if f (g x) then [g x] else []) l) = List.filter f (map g l).
Proof. induction l as [|x l IH]; cbn; [done|]. rewrite IH. by destruct (f (g x)). Qed.

(** What one entry of a [.tmp/] directory adds to the report. *)
Definition reap_gone (age : Z) (p : path) (m : fs) : list path := if aged mtime now age p then [p] else [].
Definition reap_upd (age : Z) (p : path) (m : fs) (r : SweepReport) : SweepReport :=
  if untimed p then add_failures 1 r else if aged mtime now age p then add_reaped 1 r else r.

Lemma evals_remove_any m p n : wf_tree m → m !! p = Some n →
  evals m (match n with Dir => fs_remove_dir_all p | _ => fs_remove_file p end) (Ok tt) (without [p] m).
Proof.
  intros Hwf Hp. destruct (decide (n = Dir)) as [->|Hne]; [by apply evals_remove_dir_all|].
  rewrite <-(delete_file_without m p n) by done. pose proof (evals_remove_file m p n Hp Hne). by destruct n.
Qed.

Lemma evals_reap_entry age p m n r : wf_tree m → m !! p = Some n →
  evals m (reap_entry mtime now age p r) (Ok (reap_upd age p m r)) (without (reap_gone age p m) m).
Proof.
  intros Hwf Hp. unfold reap_entry, reap_upd, reap_gone, aged, untimed.
  pose proof (evals_metadata m p) as Hmd. rewrite Hp in Hmd.
  eapply evals_bind; [apply evals_attempt, Hmd|]. cbv beta iota.
  destruct (mtime p) as [t|e]; [|rewrite without_nil; apply evals_ret].
  destruct (aged_out now age t); cbn [negb]; [|rewrite without_nil; apply evals_ret].
  eapply evals_bind; [by apply evals_attempt, evals_remove_any|apply evals_ret].
Qed.

Lemma aged_timed age p : aged mtime now age p = true → untimed p = false.
Proof. unfold aged, untimed. by destruct (mtime p). Qed.

Lemma reap_total age dir m l r :
  foldl (λ r x, reap_upd age (dir ++ [x]) m r) r l =
    add_failures (no_mtime (map (λ x, dir ++ [x]) l))
      (add_reaped (List.length (List.filter (aged mtime now age) (map (λ x, dir ++ [x]) l))) r).
Proof.
  revert r. unfold no_mtime. induction l as [|x l IH]; intros r; [by apply report_eq; cbn; lia|].
  cbn [foldl map List.filter]. rewrite IH. unfold reap_upd. pose proof (aged_timed age (dir ++ [x])) as H.
  destruct (untimed (dir ++ [x])), (aged mtime now age (dir ++ [x])); try by specialize (H eq_refl).
  all: apply report_eq; cbn; lia.
Qed.

Lemma evals_sweep_dir age m dir r : wf_tree m →
  evals m (sweep_dir_entries mtime now dir age r) (Ok (swept_tmp age m dir r)) (without (stale_entries age m dir) m).
Proof.
  intros Hwf. unfold sweep_dir_entries, swept_tmp, unreadable, stale_entries.
  pose proof (evals_read_dir m dir) as Hrd. eapply evals_bind; [apply evals_attempt, Hrd|]. cbv beta iota.
  destruct (decide (m !! dir = Some Dir)) as [Hd|Hd].
  - rewrite Hd. cbn [Nat.add]. unfold entries_of. rewrite <-(reap_total age dir m), <-concat_filter.
    apply (evals_for_entries (reap_entry mtime now age) (reap_gone age) (reap_upd age)); [..|done|apply children_nodup|].
    + intros; by eapply evals_reap_entry.
    + intros p m0 q. unfold reap_gone. destruct (aged _ _ _ _); [|by intros ?%elem_of_nil].
      intros ->%list_elem_of_singleton. by apply below_true.
    + done.
    + done.
    + intros x. by rewrite children_spec.
  - rewrite (not_dir_no_entries m dir) by done. cbn. rewrite without_nil.
    destruct (m !! dir) as [[c sy| |t]|]; try done.
    all: apply evals_ret_eq, report_eq; cbn; lia.
Qed.

(** What one entry of a log directory adds. *)
Definition prune_gone (age : Z) (p : path) (m : fs) : list path :=
  if is_file_at m p && aged mtime now age p then [p] else [].
Definition prune_upd (age : Z) (p : path) (m : fs) (r : SweepReport) : SweepReport :=
  if negb (is_file_at m p) then r
  else if untimed p then add_failures 1 r else if aged mtime now age p then add_pruned 1 r else r.

Lemma evals_prune_entry age p m n r : wf_tree m → m !! p = Some n →
  evals m (prune_entry mtime now age p r) (Ok (prune_upd age p m r)) (without (prune_gone age p m) m).
Proof.
  intros Hwf Hp. unfold prune_entry, prune_upd, prune_gone, aged, untimed, is_file_at. rewrite Hp.
  pose proof (evals_metadata m p) as Hmd. rewrite Hp in Hmd.
  eapply evals_bind; [apply evals_attempt, Hmd|]. cbv beta iota.
  destruct n as [c sy| |tg]; cbn [negb andb]; [|rewrite without_nil; apply evals_ret..].
  destruct (mtime p) as [t|e]; [|rewrite without_nil; apply evals_ret].
  destruct (aged_out now age t); cbn [negb]; [|rewrite without_nil; apply evals_ret].
  eapply evals_bind; [by apply evals_attempt, (evals_remove_any m p (File c sy))|apply evals_ret].
Qed.

Lemma prune_total age dir m l r :
  foldl (λ r x, prune_upd age (dir ++ [x]) m r) r l =
    add_failures (no_mtime (List.filter (is_file_at m) (map (λ x, dir ++ [x]) l)))
      (add_pruned (List.length (List.filter (aged mtime now age) (List.filter (is_file_at m) (map (λ x, dir ++ [x]) l)))) r).
Proof.
  revert r. unfold no_mtime. induction l as [|x l IH]; intros r; [by apply report_eq; cbn; lia|].
  cbn [foldl map List.filter]. rewrite IH. unfold prune_upd. destruct (is_file_at m (dir ++ [x])); cbn [negb]; [|done].
  cbn [List.filter]. pose proof (aged_timed age (dir ++ [x])) as H.
  destruct (untimed (dir ++ [x])), (aged mtime now age (dir ++ [x])); try by specialize (H eq_refl).
  all: apply report_eq; cbn; lia.
Qed.

Lemma prune_gone_all age dir m l :
  concat (map (λ x, prune_gone age (dir ++ [x]) m) l) =
    List.filter (aged mtime now age) (List.filter (is_file_at m) (map (λ x, dir ++ [x]) l)).
Proof.
  induction l as [|x l IH]; [done|]. cbn [map concat List.filter]. rewrite IH. unfold prune_gone.
  destruct (is_file_at m (dir ++ [x])); cbn [andb List.filter]; [|done]. by destruct (aged _ _ _ _).
Qed.

Lemma evals_prune age m dir r : wf_tree m →
  evals m (prune_old_files mtime now dir age r) (Ok (swept_logs age m dir r)) (without (stale_logs age m dir) m).
Proof.
  intros Hwf. unfold prune_old_files, swept_logs, unreadable, stale_logs, file_entries.
  pose proof (evals_read_dir m dir) as Hrd. eapply evals_bind; [apply evals_attempt, Hrd|]. cbv beta iota.
  destruct (decide (m !! dir = Some Dir)) as [Hd|Hd].
  - rewrite Hd. cbn [Nat.add]. unfold entries_of. rewrite <-(prune_total age dir m), <-prune_gone_all.
    apply (evals_for_entries (prune_entry mtime now age) (prune_gone age) (prune_upd age)); [..|done|apply children_nodup|].
    + intros; by eapply evals_prune_entry.
    + intros p m0 q. unfold prune_gone. destruct (_ && _); [|by intros ?%elem_of_nil].
      intros ->%list_elem_of_singleton. by apply below_true.
    + intros p m1 m2 q Hs. unfold prune_gone, is_file_at. by rewrite (Hs p) by (by apply below_true).
    + intros p m1 m2 r0 Hs. unfold prune_upd, is_file_at. by rewrite (Hs p) by (by apply below_true).
    + intros x. by rewrite children_spec.
  - rewrite (not_dir_no_entries m dir) by done. cbn. rewrite without_nil.
    destruct (m !! dir) as [[c sy| |t]|]; try done.
    all: apply evals_ret_eq, report_eq; cbn; lia.
Qed.

(** The counts depend on the directory's subtree alone. *)
Lemma entries_of_perm m m' dir : same_below dir m m' → entries_of m dir ≡ₚ entries_of m' dir.
Proof.
  intros Hs. apply Permutation_map, NoDup_Permutation; [apply children_nodup..|]. intros x.
  by rewrite !children_spec, (Hs (dir ++ [x])) by apply below_app.
Qed.

Lemma entries_of_elem m dir p : p ∈ entries_of m dir → ∃ x, p = dir ++ [x].
Proof. unfold entries_of. intros (x & -> & _)%list_elem_of_fmap. by exists x. Qed.

Lemma filter_perm {A : Type} (f g : A → bool) (l l' : list A) :
  l ≡ₚ l' → (∀ x, x ∈ l → f x = g x) → List.filter f l ≡ₚ List.filter g l'.
Proof.
  intros HP Hfg. assert (E : List.filter f l = List.filter g l).
  { clear HP. induction l as [|x l IH]; cbn; [done|]. rewrite (Hfg x) by left. by rewrite IH by (intros; apply Hfg; by right). }
  rewrite E. clear E Hfg. induction HP; cbn; try done.
  - destruct (g x); by rewrite IHHP.
  - destruct (g x), (g y); try done. by apply perm_swap.
  - by etrans.
Qed.

Lemma file_entries_perm m m' dir : same_below dir m m' → file_entries m dir ≡ₚ file_entries m' dir.
Proof.
  intros Hs. apply filter_perm; [by apply entries_of_perm|]. intros p (x & ->)%entries_of_elem.
  unfold is_file_at. by rewrite (Hs (dir ++ [x])) by apply below_app.
Qed.

Lemma stale_entries_perm age m m' dir : same_below dir m m' → stale_entries age m dir ≡ₚ stale_entries age m' dir.
Proof. intros Hs. apply filter_perm; [by apply entries_of_perm|done]. Qed.

Lemma stale_logs_perm age m m' dir : same_below dir m m' → stale_logs age m dir ≡ₚ stale_logs age m' dir.
Proof. intros Hs. apply filter_perm; [by apply file_entries_perm|done]. Qed.

Lemma no_mtime_perm l l' : l ≡ₚ l' → no_mtime l = no_mtime l'.
Proof. intros H. by apply Permutation_length, filter_perm. Qed.

Lemma unreadable_same m m' dir : same_below dir m m' → unreadable m dir = unreadable m' dir.
Proof. intros Hs. unfold unreadable. by rewrite (Hs dir) by (by apply below_true). Qed.

Lemma swept_tmp_same age m m' dir r : same_below dir m m' → swept_tmp age m dir r = swept_tmp age m' dir r.
Proof.
  intros Hs. unfold swept_tmp. rewrite (unreadable_same m m'), (no_mtime_perm _ _ (entries_of_perm _ _ _ Hs)) by done.
  by rewrite (Permutation_length (stale_entries_perm age _ _ _ Hs)).
Qed.

Lemma swept_logs_same age m m' dir r : same_below dir m m' → swept_logs age m dir r = swept_logs age m' dir r.
Proof.
  intros Hs. unfold swept_logs. rewrite (unreadable_same m m'), (no_mtime_perm _ _ (file_entries_perm _ _ _ Hs)) by done.
  by rewrite (Permutation_length (stale_logs_perm age _ _ _ Hs)).
Qed.

Lemma without_mem (S T : list path) (m : fs) : (∀ q, q ∈ S ↔ q ∈ T) → without S m = without T m.
Proof.
  intros H. apply without_ext. intros q _. apply eq_iff_eq_true. rewrite !existsb_below.
  split; intros (p & Hp & Hq); exists p; (split; [by apply H|done]).
Qed.

Lemma without_perm (S T U : list path) (m : fs) : T ≡ₚ U → without T (without S m) = without (S ++ U) m.
Proof. intros H. rewrite without_app. apply without_mem. intros q. by rewrite H. Qed.

Lemma same_below_trans p m1 m2 m3 : same_below p m1 m2 → same_below p m2 m3 → same_below p m1 m3.
Proof. intros H1 H2 q Hq. by rewrite H1, H2. Qed.

Lemma same_below_down p q m m' : below p q = true → same_below p m m' → same_below q m m'.
Proof. intros [k ->]%below_true H r [k' ->]%below_true. apply H. rewrite <-app_assoc. apply below_app. Qed.

Lemma stale_entries_below age m dir q : q ∈ stale_entries age m dir → below dir q = true.
Proof.
  intros (Hq & _)%list_elem_of_In%filter_In. apply list_elem_of_In, entries_of_elem in Hq as [x ->]. apply below_app.
Qed.

Lemma stale_logs_below age m dir q : q ∈ stale_logs age m dir → below dir q = true.
Proof.
  intros (Hq & _)%list_elem_of_In%filter_In. apply filter_In in Hq as [Hq _].
  apply list_elem_of_In, entries_of_elem in Hq as [x ->]. apply below_app.
Qed.

(** *** One workspace *)

Definition is_dir_at (m : fs) (p : path) : bool := match m !! p with Some Dir => true | _ => false end.
Definition log_dirs_of (ws : path) : list path := [ws ++ [TRAINING_LOGS_DIR_NAME]; ws ++ [CONVERTER_LOGS_DIR_NAME]].

Definition ws_gone (cfg : SweepConfig) (ws : path) (m : fs) : list path :=
  if is_dir_at m ws
  then stale_entries (tmp_age cfg) m (ws ++ [ROOT_TMP_DIR_NAME]) ++ flat_map (stale_logs (log_age cfg) m) (log_dirs_of ws)
  else [].
Definition ws_upd (cfg : SweepConfig) (ws : path) (m : fs) (r : SweepReport) : SweepReport :=
  if is_dir_at m ws
  then swept_logs (log_age cfg) m (ws ++ [CONVERTER_LOGS_DIR_NAME])
         (swept_logs (log_age cfg) m (ws ++ [TRAINING_LOGS_DIR_NAME])
            (swept_tmp (tmp_age cfg) m (ws ++ [ROOT_TMP_DIR_NAME]) (add_scanned 1 r)))
  else r.

Lemma evals_sweep_workspace cfg m ws r : wf_tree m →
  evals m (sweep_workspace mtime now cfg ws r)
    (Ok (swept_logs (log_age cfg) m (ws ++ [CONVERTER_LOGS_DIR_NAME])
         (swept_logs (log_age cfg) m (ws ++ [TRAINING_LOGS_DIR_NAME])
            (swept_tmp (tmp_age cfg) m (ws ++ [ROOT_TMP_DIR_NAME]) r))))
    (without (stale_entries (tmp_age cfg) m (ws ++ [ROOT_TMP_DIR_NAME]) ++ flat_map (stale_logs (log_age cfg) m) (log_dirs_of ws)) m).
Proof.
  intros Hwf. unfold sweep_workspace.
  set (S1 := stale_entries (tmp_age cfg) m (ws ++ [ROOT_TMP_DIR_NAME])).
  assert (HS1 : ∀ y, y ≠ ROOT_TMP_DIR_NAME → same_below (ws ++ [y]) m (without S1 m)).
  { intros y Hy. eapply same_below_without; [apply stale_entries_below|by apply not_eq_sym]. }
  set (m1 := without S1 m) in *.
  assert (HS2 : ∀ y, y ≠ TRAINING_LOGS_DIR_NAME →
    same_below (ws ++ [y]) m1 (without (stale_logs (log_age cfg) m1 (ws ++ [TRAINING_LOGS_DIR_NAME])) m1)).
  { intros y Hy. eapply same_below_without; [apply stale_logs_below|by apply not_eq_sym]. }
  eapply evals_bind; [by apply evals_sweep_dir|]. fold S1 m1.
  assert (Hwf1 : wf_tree m1) by by apply without_wf.
  eapply evals_bind; [by apply evals_prune|]. rewrite <-(swept_logs_same _ m m1) by by apply HS1.
  set (m2 := without _ m1) in *.
  assert (H02 : same_below (ws ++ [CONVERTER_LOGS_DIR_NAME]) m m2) by (eapply same_below_trans; [by apply HS1|by apply HS2]).
  rewrite (swept_logs_same _ m m2 (ws ++ [CONVERTER_LOGS_DIR_NAME])) by done.
  assert (Hwf2 : wf_tree m2) by by apply without_wf. set (r2 := swept_logs (log_age cfg) m (ws ++ [TRAINING_LOGS_DIR_NAME]) _).
  pose proof (evals_prune (log_age cfg) m2 (ws ++ [CONVERTER_LOGS_DIR_NAME]) r2 Hwf2) as H.
  replace (without (S1 ++ _) m) with (without (stale_logs (log_age cfg) m2 (ws ++ [CONVERTER_LOGS_DIR_NAME])) m2); [exact H|].
  unfold m2 at 2, m1 at 2. rewrite !without_app. apply without_mem. intros q. cbn [flat_map log_dirs_of].
  rewrite app_nil_r, !elem_of_app.
  by rewrite <-(stale_logs_perm _ _ _ _ H02), <-(stale_logs_perm _ _ _ _ (HS1 TRAINING_LOGS_DIR_NAME ltac:(done))).
Qed.

Lemma ws_gone_below cfg ws m q : q ∈ ws_gone cfg ws m → below ws q = true.
Proof.
  unfold ws_gone. destruct (is_dir_at m ws); [|by intros ?%elem_of_nil]. cbn. rewrite app_nil_r, !elem_of_app.
  intros [H%stale_entries_below|[H%stale_logs_below|H%stale_logs_below]];
    apply below_true in H as [k ->]; rewrite <-app_assoc; apply below_app.
Qed.

Lemma ws_gone_same cfg ws m m' q : same_below ws m m' → q ∈ ws_gone cfg ws m → q ∈ ws_gone cfg ws m'.
Proof.
  intros Hs. unfold ws_gone, is_dir_at. rewrite <-(Hs ws) by by apply below_true.
  assert (Hd : ∀ y, same_below (ws ++ [y]) m m') by (intros y; eapply same_below_down, Hs; apply below_app).
  destruct (m !! ws) as [[| |]|]; try done. cbn. rewrite !app_nil_r, !elem_of_app.
  by rewrite (stale_entries_perm _ _ _ _ (Hd ROOT_TMP_DIR_NAME)), !(stale_logs_perm _ _ _ _ (Hd _)).
Qed.

Lemma ws_upd_same cfg ws m m' r : same_below ws m m' → ws_upd cfg ws m r = ws_upd cfg ws m' r.
Proof.
  intros Hs. unfold ws_upd, is_dir_at. rewrite <-(Hs ws) by by apply below_true.
  assert (Hd : ∀ y, same_below (ws ++ [y]) m m') by (intros y; eapply same_below_down, Hs; apply below_app).
  destruct (m !! ws) as [[| |]|]; try done.
  by rewrite (swept_logs_same _ m m'), (swept_logs_same _ m m'), (swept_tmp_same _ m m').
Qed.

Lemma evals_scan_workspace cfg ws m n r : wf_tree m → m !! ws = Some n →
  evals m (scan_workspace mtime now cfg ws r) (Ok (ws_upd cfg ws m r)) (without (ws_gone cfg ws m) m).
Proof.
  intros Hwf Hp. unfold scan_workspace, ws_upd, ws_gone, is_dir_at. rewrite Hp.
  pose proof (evals_metadata m ws) as Hmd. rewrite Hp in Hmd.
  eapply evals_bind; [apply evals_attempt, Hmd|]. cbv beta iota.
  destruct n as [c sy| |t]; [rewrite without_nil; apply evals_ret| |rewrite without_nil; apply evals_ret].
  by apply evals_sweep_workspace.
Qed.

(** *** The whole sweep *)

Definition workspace_dirs (root : path) (m : fs) : list path := List.filter (is_dir_at m) (entries_of m (workspaces_dir root)).

(** The directories whose entries are temporaries, and those that hold logs. *)
Definition tmp_dirs (root : path) (m : fs) : list path :=
  [root_tmp_dir root; active_staging_dir root] ++ map (λ ws, ws ++ [ROOT_TMP_DIR_NAME]) (workspace_dirs root m).
Definition log_dirs (root : path) (m : fs) : list path := flat_map log_dirs_of (workspace_dirs root m).

Definition orphans (root : path) (cfg : SweepConfig) (m : fs) : list path :=
  flat_map (stale_entries (tmp_age cfg) m) (tmp_dirs root m).
Definition old_logs (root : path) (cfg : SweepConfig) (m : fs) : list path :=
  flat_map (stale_logs (log_age cfg) m) (log_dirs root m).

Definition sweep_report (root : path) (cfg : SweepConfig) (m : fs) : SweepReport :=
  mkSweepReport (List.length (orphans root cfg m)) (List.length (old_logs root cfg m))
    (List.length (workspace_dirs root m))
    (list_sum (map (unreadable m) (tmp_dirs root m ++ log_dirs root m)) +
     no_mtime (flat_map (entries_of m) (tmp_dirs root m)) + no_mtime (flat_map (file_entries m) (log_dirs root m))).

Lemma no_mtime_app l l' : no_mtime (l ++ l') = no_mtime l + no_mtime l'.
Proof. unfold no_mtime. by rewrite List.filter_app, length_app. Qed.

Lemma ws_total cfg dir m l r :
  let dirs := List.filter (is_dir_at m) (map (λ x, dir ++ [x]) l) in
  let tmps := map (λ ws, ws ++ [ROOT_TMP_DIR_NAME]) dirs in
  let logs := flat_map log_dirs_of dirs in
  foldl (λ r x, ws_upd cfg (dir ++ [x]) m r) r l =
    mkSweepReport (tmp_orphans_reaped r + List.length (flat_map (stale_entries (tmp_age cfg) m) tmps))
      (log_files_pruned r + List.length (flat_map (stale_logs (log_age cfg) m) logs))
      (workspaces_scanned r + List.length dirs)
      (failures r + (list_sum (map (unreadable m) (tmps ++ logs)) + no_mtime (flat_map (entries_of m) tmps) +
         no_mtime (flat_map (file_entries m) logs))).
Proof.
  cbv zeta. revert r. induction l as [|x l IH]; intros r; [by apply report_eq; cbn; lia|].
  cbn [foldl map List.filter]. rewrite IH. unfold ws_upd. destruct (is_dir_at m (dir ++ [x])); [|done].
  cbn [map flat_map log_dirs_of app]. rewrite ?map_app, ?length_app, ?list_sum_app, ?no_mtime_app. cbn [map].
  apply report_eq; cbn; rewrite ?map_app, ?length_app, ?list_sum_app, ?no_mtime_app; unfold list_sum; cbn; lia.
Qed.

Lemma ws_gone_all cfg dir m l q :
  let dirs := List.filter (is_dir_at m) (map (λ x, dir ++ [x]) l) in
  q ∈ concat (map (λ x, ws_gone cfg (dir ++ [x]) m) l) ↔
  q ∈ flat_map (stale_entries (tmp_age cfg) m) (map (λ ws, ws ++ [ROOT_TMP_DIR_NAME]) dirs) ++
      flat_map (stale_logs (log_age cfg) m) (flat_map log_dirs_of dirs).
Proof.
  cbv zeta. induction l as [|x l IH]; [done|]. cbn [map concat List.filter]. unfold ws_gone at 1.
  destruct (is_dir_at m (dir ++ [x])); [|exact IH].
  cbn [map flat_map]. rewrite List.flat_map_app, !elem_of_app. rewrite elem_of_app in IH. tauto.
Qed.

Lemma workspace_dirs_perm root m m' : same_below (workspaces_dir root) m m' →
  workspace_dirs root m ≡ₚ workspace_dirs root m'.
Proof.
  intros Hs. apply filter_perm; [by apply entries_of_perm|]. intros p (x & ->)%entries_of_elem.
  unfold is_dir_at. by rewrite (Hs (workspaces_dir root ++ [x])) by apply below_app.
Qed.

Lemma flat_map_perm {A B : Type} (f g : A → list B) (l l' : list A) :
  l ≡ₚ l' → (∀ x, x ∈ l → f x ≡ₚ g x) → flat_map f l ≡ₚ flat_map g l'.
Proof.
  intros HP H. trans (flat_map g l); [|clear H; induction HP; cbn; [done|by f_equiv|by rewrite !app_assoc, (Permutation_app_comm (g x))|by etrans]].
  clear HP. induction l as [|x l IH]; cbn; [done|]. rewrite (H x) by left. by rewrite IH by (intros; apply H; by right).
Qed.

Lemma list_sum_perm (l l' : list nat) : l ≡ₚ l' → list_sum l = list_sum l'.
Proof. unfold list_sum. induction 1; cbn; lia. Qed.

(** The workspaces' share of the sweep is the same on a tree that differs
    elsewhere only. *)
Section Elsewhere.
Variables (root : path) (cfg : SweepConfig) (m m' : fs).
Hypothesis Hs : same_below (workspaces_dir root) m m'.

Definition ws_tmps (m : fs) : list path := map (λ ws, ws ++ [ROOT_TMP_DIR_NAME]) (workspace_dirs root m).

Lemma ws_tmps_perm : ws_tmps m ≡ₚ ws_tmps m'.
Proof. by apply Permutation_map, workspace_dirs_perm. Qed.
Lemma log_dirs_perm : log_dirs root m ≡ₚ log_dirs root m'.
Proof. apply flat_map_perm; [by apply workspace_dirs_perm|done]. Qed.

Lemma ws_dir_below ws : ws ∈ workspace_dirs root m → below (workspaces_dir root) ws = true.
Proof. intros [H _]%list_elem_of_In%filter_In. apply list_elem_of_In, entries_of_elem in H as [x ->]. apply below_app. Qed.

Lemma ws_tmp_same p : p ∈ ws_tmps m → same_below p m m'.
Proof.
  intros (ws & -> & H%ws_dir_below)%list_elem_of_fmap. eapply same_below_down, Hs.
  apply below_true in H as [k ->]. rewrite <-app_assoc. apply below_app.
Qed.
Lemma log_dir_same p : p ∈ log_dirs root m → same_below p m m'.
Proof.
  intros (ws & H & Hp)%list_elem_of_In%in_flat_map. apply list_elem_of_In, ws_dir_below, below_true in H as [k ->].
  eapply same_below_down, Hs. destruct Hp as [<-|[<-|[]]]; rewrite <-app_assoc; apply below_app.
Qed.

Lemma ws_orphans_perm : flat_map (stale_entries (tmp_age cfg) m) (ws_tmps m) ≡ₚ flat_map (stale_entries (tmp_age cfg) m') (ws_tmps m').
Proof. apply flat_map_perm; [apply ws_tmps_perm|]. intros p Hp. by apply stale_entries_perm, ws_tmp_same. Qed.
Lemma old_logs_perm : old_logs root cfg m ≡ₚ old_logs root cfg m'.
Proof. apply flat_map_perm; [apply log_dirs_perm|]. intros p Hp. by apply stale_logs_perm, log_dir_same. Qed.
Lemma ws_entries_perm : flat_map (entries_of m) (ws_tmps m) ≡ₚ flat_map (entries_of m') (ws_tmps m').
Proof. apply flat_map_perm; [apply ws_tmps_perm|]. intros p Hp. by apply entries_of_perm, ws_tmp_same. Qed.
Lemma log_files_perm : flat_map (file_entries m) (log_dirs root m) ≡ₚ flat_map (file_entries m') (log_dirs root m').
Proof. apply flat_map_perm; [apply log_dirs_perm|]. intros p Hp. by apply file_entries_perm, log_dir_same. Qed.

Lemma ws_unreadable_sum :
  list_sum (map (unreadable m) (ws_tmps m ++ log_dirs root m)) = list_sum (map (unreadable m') (ws_tmps m' ++ log_dirs root m')).
Proof.
  apply list_sum_perm. trans (map (unreadable m') (ws_tmps m ++ log_dirs root m)).
  - apply reflexive_eq, map_ext_in. intros p [H|H]%in_app_or; apply unreadable_same;
      [by apply ws_tmp_same, list_elem_of_In|by apply log_dir_same, list_elem_of_In].
  - apply Permutation_map. by rewrite ws_tmps_perm, log_dirs_perm.
Qed.
End Elsewhere.

(** The loop over the workspaces, on the tree [m'] the two earlier sweeps left. *)
Lemma evals_scan_all root cfg m m' r : wf_tree m' → same_below (workspaces_dir root) m m' →
  evals m' (for_entries (workspaces_dir root) (scan_workspace mtime now cfg) (children (workspaces_dir root) m') r)
    (Ok (mkSweepReport
      (tmp_orphans_reaped r + List.length (flat_map (stale_entries (tmp_age cfg) m) (ws_tmps root m)))
      (log_files_pruned r + List.length (old_logs root cfg m))
      (workspaces_scanned r + List.length (workspace_dirs root m))
      (failures r + (list_sum (map (unreadable m) (ws_tmps root m ++ log_dirs root m)) +
         no_mtime (flat_map (entries_of m) (ws_tmps root m)) + no_mtime (flat_map (file_entries m) (log_dirs root m))))))
    (without (flat_map (stale_entries (tmp_age cfg) m) (ws_tmps root m) ++ old_logs root cfg m) m').
Proof.
  intros Hwf Hs. pose proof (evals_for_entries (scan_workspace mtime now cfg) (ws_gone cfg) (ws_upd cfg)) as H.
  specialize (H ltac:(intros; by eapply evals_scan_workspace) (ws_gone_below cfg) (ws_gone_same cfg) (ws_upd_same cfg)
    (workspaces_dir root) _ m' r Hwf (children_nodup _ _) (λ x, proj1 (children_spec _ _ _))).
  rewrite ws_total in H. rewrite (Permutation_length (ws_orphans_perm root cfg m m' Hs)),
    (Permutation_length (old_logs_perm root cfg m m' Hs)), (Permutation_length (workspace_dirs_perm root m m' Hs)),
    (ws_unreadable_sum root m m' Hs), (no_mtime_perm _ _ (ws_entries_perm root m m' Hs)),
    (no_mtime_perm _ _ (log_files_perm root m m' Hs)).
  erewrite without_mem; [exact H|]. intros q. rewrite ws_gone_all.
  by rewrite !elem_of_app, (ws_orphans_perm root cfg m m' Hs), (old_logs_perm root cfg m m' Hs).
Qed.

Definition sweep_result (root : path) (cfg : SweepConfig) (m : fs) : result FileError SweepReport :=
  match m !! workspaces_dir root with
  | Some Dir | None => Ok (sweep_report root cfg m)
  | _ => Err (io_err (workspaces_dir root) IoOther)
  end.

Lemma evals_sweep_once root cfg m : wf_tree m →
  evals m (sweep_once mtime now root cfg) (sweep_result root cfg m)
    (without (orphans root cfg m ++ old_logs root cfg m) m).
Proof.
  intros Hwf. unfold sweep_once. set (S1 := stale_entries (tmp_age cfg) m (root_tmp_dir root)).
  assert (HS1 : ∀ y, y ≠ ROOT_TMP_DIR_NAME → same_below (root ++ [y]) m (without S1 m)).
  { intros y Hy. eapply same_below_without; [apply stale_entries_below|by apply not_eq_sym]. }
  set (m1 := without S1 m) in *. assert (Hwf1 : wf_tree m1) by by apply without_wf.
  set (S2 := stale_entries (tmp_age cfg) m1 (active_staging_dir root)).
  assert (HS2 : ∀ y, y ≠ ACTIVE_DIR_NAME → same_below (root ++ [y]) m1 (without S2 m1)).
  { intros y Hy. eapply (same_below_without S2 root ACTIVE_DIR_NAME); [|by apply not_eq_sym].
    intros q [k ->]%stale_entries_below%below_true. unfold active_staging_dir, active_dir.
    rewrite <-!app_assoc. rewrite app_assoc. apply below_app. }
  set (m2 := without S2 m1) in *. assert (Hwf2 : wf_tree m2) by by apply without_wf.
  assert (Hw : same_below (workspaces_dir root) m m2) by (eapply same_below_trans; [by apply HS1|by apply HS2]).
  assert (Ha : same_below (active_staging_dir root) m m1).
  { eapply same_below_down, (HS1 ACTIVE_DIR_NAME); [apply below_app|done]. }
  eapply evals_bind; [by apply evals_sweep_dir|]. fold S1 m1.
  eapply evals_bind; [by apply evals_sweep_dir|]. fold S2 m2. cbv zeta.
  rewrite <-(swept_tmp_same _ m m1) by done. set (r2 := swept_tmp _ m _ _).
  pose proof (evals_read_dir m2 (workspaces_dir root)) as Hrd. rewrite <-(Hw (workspaces_dir root)) in Hrd by by apply below_true.
  eapply evals_bind; [apply evals_attempt, Hrd|]. cbv beta iota. clear Hrd.
  assert (Ho : orphans root cfg m = S1 ++ stale_entries (tmp_age cfg) m (active_staging_dir root) ++
                 flat_map (stale_entries (tmp_age cfg) m) (ws_tmps root m)) by (unfold orphans, tmp_dirs, ws_tmps; cbn; done).
  assert (Hout : without (flat_map (stale_entries (tmp_age cfg) m) (ws_tmps root m) ++ old_logs root cfg m) m2 =
                 without (orphans root cfg m ++ old_logs root cfg m) m).
  { unfold m2, m1. rewrite !without_app. apply without_mem. intros q. rewrite Ho, !elem_of_app.
    rewrite (stale_entries_perm (tmp_age cfg) _ _ _ Ha : _ ≡ₚ S2). tauto. }
  destruct (decide (m !! workspaces_dir root = Some Dir)) as [Hd|Hd].
  - rewrite Hd. unfold sweep_result. rewrite Hd, <-Hout.
    pose proof (evals_scan_all root cfg m m2 r2 Hwf2 Hw) as H.
    match type of H with evals _ _ (Ok ?a) _ => replace (sweep_report root cfg m) with a; [exact H|] end.
    unfold sweep_report. rewrite Ho. unfold tmp_dirs. fold (ws_tmps root m). unfold r2, swept_tmp.
    cbn [app map flat_map]. rewrite !length_app, !no_mtime_app. unfold list_sum, S1. apply report_eq; cbn; lia.
  - assert (Hnil : workspace_dirs root m = []) by (unfold workspace_dirs; by rewrite not_dir_no_entries).
    assert (Hout2 : m2 = without (orphans root cfg m ++ old_logs root cfg m) m).
    { rewrite <-Hout. unfold ws_tmps, old_logs, log_dirs. rewrite Hnil. cbn. by rewrite without_nil. }
    unfold sweep_result. rewrite <-Hout2.
    destruct (m !! workspaces_dir root) as [[c sy| |t]|]; [apply evals_throw|done|apply evals_throw|].
    apply evals_ret_eq. unfold sweep_report. rewrite Ho. unfold tmp_dirs, old_logs, log_dirs, ws_tmps. rewrite Hnil.
    cbn [app map flat_map]. rewrite !length_app, !no_mtime_app. unfold S1. apply report_eq; cbn; lia.
Qed.
End Exact.

(** An undisturbed tick logs and counts what the sweep reports; a sweep that
    fails leaves the counters alone. *)
Lemma evals_tick mtime now root s m : wf_tree m →
  let cfg := mkSweepConfig TMP_AGE_THRESHOLD LOG_AGE_THRESHOLD in
  let r := sweep_report mtime now root cfg m in
  evals m (storage_reaper_tick mtime now root s)
    (Ok (match sweep_result mtime now root cfg m with
         | Ok _ => (record_storage_sweep (tmp_orphans_reaped r) (log_files_pruned r) (failures r) s,
                    did_work r || (0 <? failures r))
         | Err _ => (s, false)
         end))
    (without (orphans mtime now root cfg m ++ old_logs mtime now root cfg m) m).
Proof.
  intros Hwf cfg r. unfold storage_reaper_tick.
  eapply evals_bind; [by eapply evals_attempt, evals_sweep_once|]. unfold sweep_result. fold cfg r.
  destruct (m !! workspaces_dir root) as [[c sy| |t]|]; apply evals_ret.
Qed.

(** ** A second sweep finds nothing *)

Section Again.
Variables (mtime : path → result IoKind Z) (now : Z) (root : path) (cfg : SweepConfig) (m : fs).
Let swept : fs := without (orphans mtime now root cfg m ++ old_logs mtime now root cfg m) m.

Lemma swept_sub q n : swept !! q = Some n → m !! q = Some n.
Proof. intros H. eapply lookup_weaken; [exact H|apply without_sub]. Qed.

Lemma swept_keeps q : is_Some (swept !! q) → q ∉ orphans mtime now root cfg m ++ old_logs mtime now root cfg m.
Proof.
  intros [n Hn] Hq. unfold swept in Hn. rewrite lookup_without in Hn.
  rewrite (proj2 (existsb_below _ q)) in Hn; [done|]. exists q. split; [done|]. by apply below_true.
Qed.

Lemma entries_of_spec m0 dir p : p ∈ entries_of m0 dir ↔ ∃ x, p = dir ++ [x] ∧ is_Some (m0 !! p).
Proof.
  unfold entries_of. rewrite list_elem_of_fmap. split.
  - intros (x & -> & H%children_spec). by exists x.
  - intros (x & -> & H). exists x. by rewrite children_spec.
Qed.

Lemma entries_of_swept dir p : p ∈ entries_of swept dir → p ∈ entries_of m dir ∧ is_Some (swept !! p).
Proof.
  rewrite !entries_of_spec. intros (x & -> & [n Hn]). split; [|by exists n]. exists x. split; [done|].
  exists n. by apply swept_sub.
Qed.

Lemma is_dir_swept p : is_dir_at swept p = true → is_dir_at m p = true.
Proof. unfold is_dir_at. destruct (swept !! p) as [n|] eqn:E; [|done]. by rewrite (swept_sub p n E). Qed.

Lemma is_file_swept p : is_file_at swept p = true → is_file_at m p = true.
Proof. unfold is_file_at. destruct (swept !! p) as [n|] eqn:E; [|done]. by rewrite (swept_sub p n E). Qed.

Lemma ws_dirs_swept ws : ws ∈ workspace_dirs root swept → ws ∈ workspace_dirs root m.
Proof.
  unfold workspace_dirs. rewrite !list_elem_of_In, !filter_In, <-!list_elem_of_In.
  intros [H1%entries_of_swept H2%is_dir_swept]. tauto.
Qed.

Lemma tmp_dirs_swept d : d ∈ tmp_dirs root swept → d ∈ tmp_dirs root m.
Proof.
  unfold tmp_dirs. rewrite !elem_of_app, !list_elem_of_fmap. intros [H|(ws & -> & H%ws_dirs_swept)]; [by left|right].
  by exists ws.
Qed.

Lemma log_dirs_swept d : d ∈ log_dirs root swept → d ∈ log_dirs root m.
Proof.
  unfold log_dirs. rewrite !list_elem_of_In, !in_flat_map. intros (ws & H%list_elem_of_In%ws_dirs_swept & Hd).
  exists ws. by rewrite <-list_elem_of_In.
Qed.

Lemma swept_no_orphans : orphans mtime now root cfg swept = [].
Proof.
  apply elem_of_nil_inv. intros p (d & Hd%list_elem_of_In%tmp_dirs_swept & Hp)%list_elem_of_In%in_flat_map.
  apply filter_In in Hp as [Hp Ha]. apply list_elem_of_In, entries_of_swept in Hp as [Hp Hs].
  apply swept_keeps in Hs. apply Hs, elem_of_app. left. apply list_elem_of_In, in_flat_map. exists d.
  split; [by apply list_elem_of_In|]. apply filter_In. split; [by apply list_elem_of_In|done].
Qed.

Lemma swept_no_old_logs : old_logs mtime now root cfg swept = [].
Proof.
  apply elem_of_nil_inv. intros p (d & Hd%list_elem_of_In%log_dirs_swept & Hp)%list_elem_of_In%in_flat_map.
  apply filter_In in Hp as [[Hp Hf]%filter_In Ha]. apply list_elem_of_In, entries_of_swept in Hp as [Hp Hs].
  apply swept_keeps in Hs. apply Hs, elem_of_app. right. apply list_elem_of_In, in_flat_map. exists d.
  split; [by apply list_elem_of_In|]. apply filter_In. split; [|done]. apply filter_In.
  split; [by apply list_elem_of_In|by apply is_file_swept].
Qed.
End Again.

(** What the paths outside [S] show stays. *)
Lemma outside_visible_stable (S : path → Prop) (q : path) (v : option node) : ¬ S q → stable S (λ d, no_moves d ∧ visible d !! q = v).
Proof.
  intros Hq. split.
  - intros d o [Hn <-] Hm Ho. split; [by apply no_moves_add|]. rewrite visible_add.
    destruct o as [p n|p|]; [..|done]; cbn; [apply lookup_insert_ne|apply lookup_delete_ne];
      intros ->; apply Hq, Ho; cbn; by apply bool_decide_eq_true.
  - intros d dir [Hn <-]. split; [by apply no_moves_fsync|by apply visible_fsync].
  - intros d p c [Hn <-] Hp. split; [by apply no_moves_sync|]. rewrite visible_sync by done.
    rewrite bool_decide_eq_false_2; [done|]. by intros ->.
Qed.

(** The workspace's own files and trees, and the published generations, are out
    of reach at any age. *)
Lemma workspace_out_of_reach mtime now root cfg name c rest :
  c ∉ [ROOT_TMP_DIR_NAME; TRAINING_LOGS_DIR_NAME; CONVERTER_LOGS_DIR_NAME] →
  ¬ reapable mtime now root cfg (workspaces_dir root ++ name :: c :: rest).
Proof.
  unfold reapable, reapable_in, stale_tree, stale_file, root_tmp_dir, active_staging_dir, active_dir, workspaces_dir.
  intros Hc [(x & _ & [k E]%below_true)|[(x & _ & [k E]%below_true)|(n & [(x & _ & [k E]%below_true)|[(x & _ & E)|(x & _ & E)]])]].
  all: rewrite <-!app_assoc in E; apply app_inv_head in E; injection E; intros; subst; apply Hc; set_solver.
Qed.

Lemma generation_out_of_reach mtime now root cfg rest :
  ¬ reapable mtime now root cfg (active_generations_dir root ++ rest).
Proof.
  unfold reapable, reapable_in, stale_tree, stale_file, root_tmp_dir, active_staging_dir, active_generations_dir, active_dir, workspaces_dir.
  intros [(x & _ & [k E]%below_true)|[(x & _ & [k E]%below_true)|(n & [(x & _ & [k E]%below_true)|[(x & _ & E)|(x & _ & E)]])]].
  all: rewrite <-!app_assoc in E; apply app_inv_head in E; discriminate.
Qed.

(** ** Properties *)

(** C28: The reaper removes nothing it should not.  Let a sweep fail at any
    system call or be cut by a power loss: a path that is neither in an aged
    entry of one of the three kinds of [.tmp/] directory nor an aged entry of a
    log directory shows what it showed before, and after a crash it holds
    nothing it could not have held had the sweep not run. *)
Theorem sweep_only_stale (mtime : path → result IoKind Z) (now : Z) (root : path) (cfg : SweepConfig)
    (w : World) (q : path)
    (Hmoves : no_moves (disk w))
    (Hq : ¬ reapable mtime now root cfg q) :
  let w' := fst (sweep_once mtime now root cfg w) in
  visible (disk w') !! q = visible (disk w) !! q ∧
  ∀ vs, among (disk w) q vs → among (disk w') q vs.
Proof.
  cbv zeta. pose proof (confined_sweep_once mtime now root cfg) as Hc. split.
  - pose proof (Hc _ (outside_visible_stable _ q (visible (disk w) !! q) Hq) w (conj Hmoves (conj Hmoves eq_refl))) as H.
    destruct (sweep_once mtime now root cfg w) as [w' []]; apply H.
  - intros vs Hvs. assert (Hst : stable (reapable mtime now root cfg) (λ d, among d q vs)).
    { split; intros d; [intros o H _ Ho|intros dir H|intros p c H Hp].
      - apply among_add_other; [done|]. apply not_true_iff_false. intros Ht. by apply Hq, Ho.
      - by apply among_fsync.
      - apply among_sync; [done|]. by intros <-. }
    pose proof (Hc _ Hst w (conj Hmoves Hvs)) as H.
    destruct (sweep_once mtime now root cfg w) as [w' []]; apply H.
Qed.

(** A sweep nothing disturbs removes exactly the aged entries: from the
    tree [m] it leaves [m] without the subtrees at the aged entries of every
    [.tmp/] directory and without the aged regular files of every log
    directory; the report counts both, the workspaces, and as failures the
    directories it cannot list and the entries without a modification time.  It
    fails only when [workspaces] itself cannot be listed.  A second sweep at the
    same time changes nothing and reports no work. *)
Theorem sweep_once_exact (mtime : path → result IoKind Z) (now : Z) (root : path) (cfg : SweepConfig)
    (d : Disk)
    (Hmoves : no_moves d)
    (Hwf : wf_tree (visible d)) :
  let m := visible d in
  let m' := without (orphans mtime now root cfg m ++ old_logs mtime now root cfg m) m in
  ∃ d' d'' res,
    sweep_once mtime now root cfg (calm d) = (calm d', to_outcome (sweep_result mtime now root cfg m)) ∧
    visible d' = m' ∧
    sweep_once mtime now root cfg (calm d') = (calm d'', to_outcome res) ∧ visible d'' = m' ∧
    ∀ report, res = Ok report → did_work report = false.
Proof.
  intros m m'. destruct (evals_sweep_once mtime now root cfg m Hwf d) as (d' & E1 & Hd'); [by split|].
  destruct (evals_sweep_once mtime now root cfg m' (without_wf _ _ Hwf) d' Hd') as (d'' & E2 & [_ Hd'']).
  assert (Ho : orphans mtime now root cfg m' = []) by apply swept_no_orphans.
  assert (Hl : old_logs mtime now root cfg m' = []) by apply swept_no_old_logs.
  exists d', d'', (sweep_result mtime now root cfg m'). split_and!; [done|by destruct Hd'|done|..].
  { rewrite Ho, Hl in Hd''. rewrite <-Hd''. apply without_nil. }
  intros report Hr. assert (report = sweep_report mtime now root cfg m') as ->.
  { unfold sweep_result in Hr. destruct (m' !! workspaces_dir root) as [[| |]|]; congruence. }
  unfold did_work, sweep_report. cbn [tmp_orphans_reaped log_files_pruned]. by rewrite Ho, Hl.
Qed.

(** ** Witnesses *)

(** A root with an aged upload, a fresh one, a staged tree, an aged and a fresh
    log, a directory among the logs and a head. *)
Definition sr_tree : fs := list_to_map
  [ ([], Dir); ([".tmp"], Dir); ([".tmp"; "old"], File [] false); ([".tmp"; "new"], File [] false);
    (["active"], Dir); (["active"; ".tmp"], Dir); (["active"; ".tmp"; "a1"], Dir);
    (["active"; ".tmp"; "a1"; "head.mpk"], File [] false);
    (["workspaces"], Dir); (["workspaces"; "w"], Dir); (["workspaces"; "w"; "heads"], Dir);
    (["workspaces"; "w"; "heads"; "h.mpk"], File [] true);
    (["workspaces"; "w"; ".tmp"], Dir); (["workspaces"; "w"; ".tmp"; "old"], Symlink "/etc");
    (["workspaces"; "w"; ".tmp"; "late"], File [] false);
    (["workspaces"; "w"; "training_logs"], Dir); (["workspaces"; "w"; "training_logs"; "old"], File [] true);
    (["workspaces"; "w"; "training_logs"; "new"], File [] true);
    (["workspaces"; "w"; "training_logs"; "kept"], Dir) ]%string.

(** Names tell the ages: ["new"] is an hour old, ["late"] has no time, all else
    is sixty days old. *)
Definition sr_mtime (p : path) : result IoKind Z :=
  match reverse p with
  | "new"%string :: _ => Ok (from_secs (99 * 86400 - 3600))
  | "late"%string :: _ => Err IoOther
  | _ => Ok (from_secs (39 * 86400))
  end.
Definition sr_now : Z := from_secs (99 * 86400).
Definition sr_cfg : SweepConfig := mkSweepConfig TMP_AGE_THRESHOLD LOG_AGE_THRESHOLD.
Definition sr_disk : Disk := mkDisk sr_tree [].
Definition sr_cut : World := mkWorld sr_disk (Some 12) [false; false; true].
Definition sr_head : path := ["workspaces"; "w"; "heads"; "h.mpk"]%string.

Lemma sweep_only_stale_witness :
  visible (disk (fst (sweep_once sr_mtime sr_now [] sr_cfg sr_cut))) !! sr_head = Some (File [] true).
Proof.
  rewrite (proj1 (sweep_only_stale sr_mtime sr_now [] sr_cfg sr_cut sr_head (List.Forall_nil _)
    (workspace_out_of_reach sr_mtime sr_now [] sr_cfg "w" "heads" ["h.mpk"%string] ltac:(set_solver)))).
  vm_compute. reflexivity.
Defined.

Example sr_report : sweep_report sr_mtime sr_now [] sr_cfg sr_tree = mkSweepReport 3 1 1 1.
Proof. vm_compute. reflexivity. Qed.

Lemma sweep_once_exact_witness : ∃ d',
  sweep_once sr_mtime sr_now [] sr_cfg (calm sr_disk) = (calm d', Ret (mkSweepReport 3 1 1 1)) ∧
  visible d' !! sr_head = Some (File [] true) ∧
  visible d' !! ["workspaces"; "w"; "training_logs"; "old"]%string = None.
Proof.
  destruct (sweep_once_exact sr_mtime sr_now [] sr_cfg sr_disk (List.Forall_nil _)
    (wf_treeb_ok sr_tree ltac:(vm_compute; reflexivity))) as (d' & d'' & res & E & Hv & _).
  exists d'. rewrite Hv. split_and!; [|vm_compute; reflexivity..].
  rewrite E. vm_compute. reflexivity.
Defined.
