(* ===== verification/ActiveFacts.v ===== *)
(** * Theorems on activation and its recovery

    The digests in a manifest are those of the bytes on disk; the head a boot
    recovers is one that was verified; the newest valid generation wins;
    pruning keeps what it was told to keep. *)

From stdpp Require Import sorting.
From S2P Require Import Prelude Ids AssetPath Common Text Workspace Broadcast JobRegistry FileSystem FsLogic FsAtomic Schema ActiveHead HeadRotation Staging StagingFacts FsRun Recovery ActiveRecovery RecoveryFacts RecoverySafety.

(** ** The order of the candidates *)

Lemma ascii_compare_lt a b : Ascii.compare a b = Lt ↔ (N_of_ascii a < N_of_ascii b)%N.
Proof. unfold Ascii.compare. apply N.compare_lt_iff. Qed.

Lemma ascii_compare_eq a b : Ascii.compare a b = Eq ↔ a = b.
Proof.
  unfold Ascii.compare. rewrite N.compare_eq_iff. split; [|by intros ->].
  intros E. apply (f_equal ascii_of_N) in E. by rewrite !ascii_N_embedding in E.
Qed.

Lemma string_compare_refl s : String.compare s s = Eq.
Proof. induction s as [|c s IH]; [done|]. cbn. by rewrite (proj2 (ascii_compare_eq c c) eq_refl). Qed.

Lemma string_compare_lt_trans s t u :
  String.compare s t = Lt → String.compare t u = Lt → String.compare s u = Lt.
Proof.
  revert t u. induction s as [|a s IH]; intros [|b t] [|c u]; cbn; try done.
  destruct (Ascii.compare a b) eqn:E1; [|intros _|done]; destruct (Ascii.compare b c) eqn:E2; try done.
  - apply ascii_compare_eq in E1 as ->. rewrite E2. apply IH.
  - intros _ _. apply ascii_compare_eq in E1 as ->. by rewrite E2.
  - intros _. apply ascii_compare_eq in E2 as <-. by rewrite E1.
  - intros _. pose proof (proj1 (ascii_compare_lt a b) E1). pose proof (proj1 (ascii_compare_lt b c) E2).
    rewrite (proj2 (ascii_compare_lt a c)); [done|]. lia.
Qed.

(** A comparison whose [Lt] is transitive and whose opposite is the swap. *)
Section Comparison.
Context {A : Type} (cmp : A → A → comparison).
Hypothesis Hopp : ∀ a b, cmp b a = CompOpp (cmp a b).
Hypothesis Heq : ∀ a b, cmp a b = Eq → a = b.
Hypothesis Hlt : ∀ a b c, cmp a b = Lt → cmp b c = Lt → cmp a c = Lt.

Lemma cmp_le_trans a b c : cmp a b ≠ Gt → cmp b c ≠ Gt → cmp a c ≠ Gt.
Proof.
  destruct (cmp a b) eqn:E1; [apply Heq in E1 as ->; done| |done].
  destruct (cmp b c) eqn:E2; [apply Heq in E2 as ->; congruence| |done]. by rewrite (Hlt a b c).
Qed.

Lemma cmp_le_total a b : cmp a b ≠ Gt ∨ cmp b a ≠ Gt.
Proof. rewrite (Hopp a b). destruct (cmp a b); [left|left|right]; done. Qed.
End Comparison.

Lemma candidate_cmp_opp a b : candidate_cmp b a = CompOpp (candidate_cmp a b).
Proof.
  unfold candidate_cmp. rewrite (String.compare_antisym (fst (fst a))).
  destruct (String.compare (fst (fst b)) (fst (fst a))); [|done..]. cbn.
  rewrite (Z.compare_antisym (snd (fst b))).
  destruct (Z.compare (snd (fst b)) (snd (fst a))); [|done..]. apply String.compare_antisym.
Qed.

Lemma candidate_cmp_eq a b : candidate_cmp a b = Eq → a = b.
Proof.
  destruct a as [[x n] s], b as [[y k] t]. unfold candidate_cmp. cbn.
  destruct (String.compare y x) eqn:E1; [|done..]. destruct (Z.compare_spec k n); [|done..].
  intros E2. apply String.compare_eq_iff in E1, E2. by subst.
Qed.

Lemma candidate_cmp_lt_trans a b c :
  candidate_cmp a b = Lt → candidate_cmp b c = Lt → candidate_cmp a c = Lt.
Proof.
  destruct a as [[x n] s], b as [[y k] t], c as [[z i] u]. unfold candidate_cmp. cbn [fst snd].
  destruct (String.compare y x) eqn:E1; [|intros _|done]; destruct (String.compare z y) eqn:E2; try done.
  - apply String.compare_eq_iff in E1, E2. subst. rewrite string_compare_refl.
    destruct (Z.compare k n) eqn:F1; [apply Z.compare_eq in F1 as ->|intros _|done];
      (destruct (Z.compare i _) eqn:F2; [apply Z.compare_eq in F2 as ->| |done]).
    + apply string_compare_lt_trans.
    + done.
    + intros _. by rewrite F1.
    + intros _. pose proof (proj1 (Z.compare_lt_iff k n) F1). pose proof (proj1 (Z.compare_lt_iff i k) F2).
      rewrite (proj2 (Z.compare_lt_iff i n)); [done|]. lia.
  - intros _ _. apply String.compare_eq_iff in E1 as ->. by rewrite E2.
  - intros _. apply String.compare_eq_iff in E2 as ->. by rewrite E1.
  - intros _. by rewrite (string_compare_lt_trans z y x).
Qed.

#[export] Instance candidate_le_trans : Transitive candidate_le.
Proof. intros a b c. apply cmp_le_trans; [apply candidate_cmp_eq|apply candidate_cmp_lt_trans]. Qed.

#[export] Instance candidate_le_total : Total candidate_le.
Proof. intros a b. apply cmp_le_total, candidate_cmp_opp. Qed.

(** ** Labels and lines *)

(** The boot's rendering of the labels is the writer's. *)
Lemma render_labels_join i labels :
  render_labels i labels = match labels with
                           | [] => []
                           | _ => (if 0 <? i then [lf] else []) ++ labels_to_text labels
                           end.
Proof.
  revert i. induction labels as [|l labels IH]; intros i; [done|]. cbn [render_labels]. rewrite IH.
  unfold labels_to_text. destruct labels as [|l' labels]; cbn; by rewrite ?app_nil_r.
Qed.

Lemma render_labels_writer labels : render_labels 0 labels = labels_to_text labels.
Proof. rewrite render_labels_join. by destruct labels. Qed.

(** ** Streaming digests *)

Section Digest.
Context `{HL : Sha256Laws}.

Lemma chunk_step {A : Type} (n off : nat) (c : list A) :
  0 < n → off ≤ List.length c → let buf := take n (drop off c) in
  (buf = [] → off = List.length c) ∧ take off c ++ buf = take (off + List.length buf) c ∧
  off + List.length buf ≤ List.length c.
Proof.
  intros Hn Hoff buf.
  assert (Hlen : List.length buf = n `min` (List.length c - off)).
  { unfold buf. by rewrite length_take, length_drop. }
  split_and!; [intros E; rewrite E in Hlen; cbn in Hlen; lia| |lia].
  rewrite Hlen. unfold buf. apply list_eq. intros i.
  destruct (decide (i < off)) as [Hi|Hi].
  - rewrite lookup_app_l by (rewrite length_take; lia). by rewrite !lookup_take_lt by lia.
  - rewrite lookup_app_r by (rewrite length_take; lia). rewrite length_take, Nat.min_l by lia.
    destruct (decide (i < off + n `min` (List.length c - off))) as [Hi'|Hi'].
    + rewrite !lookup_take_lt, lookup_drop by lia. f_equal. lia.
    + rewrite !(proj2 (lookup_ge_None _ _)); [done|rewrite length_take; lia|].
      rewrite length_take, length_drop. lia.
Qed.

Lemma hash_loop_triple (P : Disk → Prop) n fuel p off c b s :
  0 < n →
  off ≤ List.length c → s = sha_update sha_new (take off c) →
  let P' := λ d, P d ∧ visible d !! p = Some (File c b) in
  triple P' (hash_loop n fuel p off s) (λ s' d, s' = sha_update sha_new c ∧ P' d) P' P'.
Proof.
  intros Hn Hoff -> P'. revert off Hoff. induction fuel as [|fuel IH]; intros off Hoff; cbn [hash_loop].
  { by apply triple_throw. }
  destruct (chunk_step n off c Hn Hoff) as (H1 & H2 & H3).
  set (buf := take n (drop off c)) in *.
  eapply triple_bind with (R := λ x d, x = buf ∧ P' d).
  { apply triple_map_throw. eapply triple_conseq; [apply (triple_read P' (λ d, match stat p d with
      | Some (File c _) => Ok (take n (drop off c)) | _ => Err IoOther end) P' P'); auto|done| |done|done].
    intros x d [Hd Hx]. split; [|done]. destruct Hd as [_ Hv]. unfold stat in Hx. rewrite Hv in Hx. by injection Hx as <-. }
  intros x. cbv beta. apply triple_pure. intros ->.
  destruct (Nat.eqb_spec (List.length buf) 0) as [E|E].
  - apply triple_ret. intros d Hd. split; [|done]. rewrite H1 by (by apply nil_length_inv).
    by rewrite take_ge.
  - rewrite sha_update_app, H2. by apply IH.
Qed.

(** What a streaming digest returns, in any world. *)
Lemma sha256_reading_triple (P : Disk → Prop) n p : 0 < n →
  triple P (sha256_reading n p)
    (λ s d, P d ∧ ∃ c b, visible d !! p = Some (File c b) ∧ s = sha256_hex_of c) P P.
Proof.
  intros Hn. unfold sha256_reading. eapply triple_bind with (R := λ _, P); [apply triple_map_throw, visible_read|].
  intros ?. intros w Hw. unfold with_tree, mbind, M_bind.
  destruct (visible (disk w) !! p) as [[c b| |]|] eqn:Hv.
  { pose proof (hash_loop_triple P n (2 + file_len p (visible (disk w)) / n) p 0 c b sha_new
      Hn ltac:(lia) ltac:(by rewrite take_0, sha_update_nil) w (conj Hw Hv)) as H1.
    destruct (hash_loop _ _ _ _ _ w) as [w' [s|e|]]; [|by destruct H1..].
    destruct H1 as [-> [HP HV]]. split; [done|]. by exists c, b. }
  all: assert (H1 : triple (λ d, P d ∧ visible d !! p = visible (disk w) !! p)
    (hash_loop n (2 + file_len p (visible (disk w)) / n) p 0 sha_new) (λ _ _, False) P P);
    [cbn [hash_loop Nat.add]; eapply triple_bind with (R := λ _ _, False); [|by intros ? ? []];
     apply triple_map_throw, triple_syscall; [naive_solver..|];
     intros d [Hd E]; unfold stat; by rewrite E, Hv|];
    specialize (H1 w (conj Hw eq_refl)); by destruct (hash_loop _ _ _ _ _ w) as [w' [s|e|]].
Qed.

Lemma sha256_stream_triple (P : Disk → Prop) p :
  triple P (sha256_stream p)
    (λ s d, P d ∧ ∃ c b, visible d !! p = Some (File c b) ∧ s = sha256_hex_of c) P P.
Proof. apply sha256_reading_triple. unfold STREAM_HASH_CHUNK. lia. Qed.

Lemma evals_hash_loop m n fuel p off c b s :
  0 < n → m !! p = Some (File c b) → off ≤ List.length c → List.length c - off ≤ (fuel - 1) * n → 0 < fuel →
  s = sha_update sha_new (take off c) →
  evals m (hash_loop n fuel p off s) (Ok (sha_update sha_new c)) m.
Proof.
  intros Hn Hp Hoff Hfuel Hpos ->. revert off Hoff Hfuel Hpos. induction fuel as [|fuel IH]; intros off Hoff Hfuel Hpos; cbn [hash_loop]; [lia|].
  destruct (chunk_step n off c Hn Hoff) as (H1 & H2 & H3).
  set (buf := take n (drop off c)) in *.
  eapply evals_bind.
  { apply (evals_map_throw _ _ _ _ (Ok buf)). apply evals_read_call. intros d Hd. unfold stat. by rewrite Hd, Hp. }
  destruct (Nat.eqb_spec (List.length buf) 0) as [E|E].
  - rewrite H1 by (by apply nil_length_inv). rewrite take_ge by done. apply evals_ret.
  - rewrite sha_update_app, H2. 
    assert (Hbl : List.length buf = n `min` (List.length c - off)) by (unfold buf; by rewrite length_take, length_drop).
    clearbody buf. apply IH; [done|..]; (destruct fuel as [|fuel]; [cbn in Hfuel; lia|]); [|lia].
    replace (S (S fuel) - 1) with (S fuel) in Hfuel by lia. replace (S fuel - 1) with fuel by lia.
    cbn [Nat.mul] in Hfuel. lia.
Qed.

(** Undisturbed, it is the digest of the file. *)
Lemma evals_sha256_stream m p c b :
  m !! p = Some (File c b) → evals m (sha256_stream p) (Ok (sha256_hex_of c)) m.
Proof.
  intros Hp. unfold sha256_stream, sha256_reading. eapply evals_bind.
  { apply (evals_map_throw _ _ _ _ (Ok tt)). apply evals_read_call. intros d Hd. unfold stat. by rewrite Hd, Hp. }
  eapply evals_bind; [|apply evals_ret]. unfold with_tree.
  apply (evals_look m m (λ v, hash_loop STREAM_HASH_CHUNK (2 + file_len p v / STREAM_HASH_CHUNK) p 0 sha_new)).
  apply (evals_hash_loop m STREAM_HASH_CHUNK _ p 0 c b); [unfold STREAM_HASH_CHUNK; lia|done|lia| |lia|by rewrite take_0, sha_update_nil].
  unfold file_len. rewrite Hp.
  assert (Hn : STREAM_HASH_CHUNK ≠ 0) by (unfold STREAM_HASH_CHUNK; lia).
  pose proof (Nat.div_mod (List.length c) STREAM_HASH_CHUNK Hn) as Hdm.
  pose proof (Nat.mod_upper_bound (List.length c) STREAM_HASH_CHUNK Hn) as Hub.
  set (q := List.length c / STREAM_HASH_CHUNK) in *. replace (2 + q - 1) with (S q) by lia. cbn [Nat.mul].
  rewrite Nat.sub_0_r, (Nat.mul_comm q). lia.
Qed.

Lemma evals_sha256_missing m p :
  (∀ c b, m !! p ≠ Some (File c b)) → ∃ e, evals m (sha256_stream p) (Err e) m.
Proof.
  intros Hp. unfold sha256_stream, sha256_reading. destruct (m !! p) as [[c b| |t]|] eqn:E; [by destruct (Hp c b)|..].
  3:{ eexists. eapply evals_bind_err. apply (evals_map_throw _ _ _ _ (Err IoNotFound)).
      apply evals_read_call. intros d Hd. unfold stat. by rewrite Hd, E. }
  all: eexists; eapply evals_bind;
    [apply (evals_map_throw _ _ _ _ (Ok tt)); apply evals_read_call; intros d Hd; unfold stat; by rewrite Hd, E|];
    eapply evals_bind_err; unfold with_tree;
    apply (evals_look m m (λ v, hash_loop STREAM_HASH_CHUNK (2 + file_len p v / STREAM_HASH_CHUNK) p 0 sha_new));
    cbn [hash_loop Nat.add]; eapply evals_bind_err; apply (evals_map_throw _ _ _ _ (Err IoOther));
    apply evals_read_call; intros d Hd; unfold stat; by rewrite Hd, E.
Qed.
End Digest.

(** ** What a boot may serve *)

(** A fact of the visible tree that only depends on paths outside [S]. *)
Lemma stable_tree (S : path → Prop) (φ : fs → Prop) :
  (∀ m m' : fs, (∀ p, ¬ S p → m !! p = m' !! p) → φ m → φ m') →
  stable S (λ d, no_moves d ∧ φ (visible d)).
Proof.
  intros H. split.
  - intros d o [Hm Hv] Ho HS. split; [by apply no_moves_add|]. revert Hv. apply H. intros p Hp.
    rewrite visible_add, apply_op_at by (by left). rewrite op_at_untouched; [done|].
    apply not_true_iff_false. intros Ht. by apply Hp, HS.
  - intros d dir [Hm Hv]. split; [by apply no_moves_fsync|]. revert Hv. apply H. intros p _. by rewrite visible_fsync.
  - intros d q c [Hm Hv] Hq. split; [by apply no_moves_sync|]. revert Hv. apply H. intros p Hp.
    rewrite visible_sync by done. rewrite bool_decide_eq_false_2; [done|]. by intros ->.
Qed.

Section Served.
Context `{U : UuidLib} `{TL : TempLaws} `{HL : Sha256Laws}.
Context `{JP : !Json ActiveCurrentPointer} `{JPL : !JsonLaws ActiveCurrentPointer} `{JA : !Json ActiveHeadManifest}.
Variable root : path.

Definition generation_file (id file : string) : path := active_generation_dir root id ++ [file].

Definition manifest_of (id : string) (m : fs) : option ActiveHeadManifest :=
  match validate_activation_id id, m !! active_manifest_path root id with
  | Ok _, Some (File c _) => from_slice c
  | _, _ => None
  end.

(** The manifest of a generation that a boot accepts. *)
Definition verdict (id : string) (m : fs) : option ActiveHeadManifest :=
  match manifest_of id m with
  | Some am =>
      match ActiveHeadManifest_validate am, m !! generation_file id ACTIVE_HEAD_FILENAME with
      | Some (Ok _), Some (File h _) => if String.eqb (sha256_hex_of h) (am_sha256 am) then Some am else None
      | _, _ => None
      end
  | None => None
  end.

(** The labels are those that were activated, or those the manifest lists. *)
Definition labels_good (id : string) (am : ActiveHeadManifest) (m : fs) : Prop :=
  ∃ c b, m !! generation_file id ACTIVE_LABELS_FILENAME = Some (File c b) ∧
    (sha256_hex_of c = am_labels_sha256 am ∨ c = labels_to_text (am_labels am)).

Definition served (id : string) (am : ActiveHeadManifest) (m : fs) : Prop :=
  verdict id m = Some am ∧ labels_good id am m.

Lemma verdict_ext (id : string) (m m' : fs) :
  m !! generation_file id ACTIVE_MANIFEST_FILENAME = m' !! generation_file id ACTIVE_MANIFEST_FILENAME →
  m !! generation_file id ACTIVE_HEAD_FILENAME = m' !! generation_file id ACTIVE_HEAD_FILENAME →
  verdict id m = verdict id m'.
Proof. unfold verdict, manifest_of, active_manifest_path. unfold generation_file at 1 2. by intros -> ->. Qed.

Lemma generation_scope (id file p : string) :
  String.prefix temp_prefix file = false → p ≠ file → String.prefix temp_prefix p = false →
  ¬ put_scope (generation_file id file) (generation_file id p).
Proof.
  intros Hf Hne Hp [E|(name & E & Hn)]; unfold generation_file in *; [by apply app_inj_tail in E as [_ ->]|].
  rewrite parent_app in E. apply app_inj_tail in E as [_ <-]. congruence.
Qed.

Lemma current_scope (id file : string) : ¬ put_scope (active_current_path root) (generation_file id file).
Proof.
  unfold generation_file, active_generation_dir, active_generations_dir, active_current_path.
  intros [E|(name & E & _)]; [|rewrite parent_app in E]; rewrite <-!app_assoc in E;
    apply app_inv_head in E; cbn in E; discriminate E.
Qed.

Lemma read_active_manifest_triple (P : Disk → Prop) (id : string) :
  triple P (read_active_manifest root id) (λ am d, P d ∧ manifest_of id (visible d) = Some am) P P.
Proof.
  unfold read_active_manifest, check_activation_id, manifest_of.
  destruct (validate_activation_id id) as [u|e]; [|by apply triple_throw].
  eapply triple_bind with (R := λ _, P); [by apply triple_ret|]. intros ?. unfold read_file, parse.
  eapply triple_bind.
  { apply triple_map_throw. apply (triple_read P (λ d, match stat (active_manifest_path root id) d with
      | Some (File c _) => Ok c | None => Err IoNotFound | _ => Err IoOther end) P P); auto. }
  intros c. destruct (from_slice c) as [am|] eqn:Ec; [|by apply triple_throw; intros d []].
  apply triple_ret. unfold stat. intros d [Hd E]. split; [done|].
  by destruct (visible d !! _) as [[c' b| |]|]; try done; injection E as ->.
Qed.

Section Verify.
Variable id : string.
Variable F : Disk → Prop.
Hypothesis HF : stable (put_scope (generation_file id ACTIVE_LABELS_FILENAME)) F.

Let G (d : Disk) : Prop := no_moves d ∧ F d.

Lemma regenerate_triple (am : ActiveHeadManifest) :
  triple (λ d, G d ∧ verdict id (visible d) = Some am)
    (regenerate_labels_from_manifest (generation_file id ACTIVE_LABELS_FILENAME) am)
    (λ _ d, G d ∧ served id am (visible d)) G G.
Proof.
  unfold regenerate_labels_from_manifest. rewrite render_labels_writer.
  eapply triple_conseq; [eapply (put_atomic_triple (λ d, F d ∧ no_moves d ∧ verdict id (visible d) = Some am) None)|..].
  - unfold generation_file. by destruct (active_generation_dir root id).
  - by apply not_temp_snoc.
  - apply stable_and; [done|]. apply (stable_tree _ (λ m, verdict id m = Some am)). intros m m' Hm <-. symmetry.
    apply verdict_ext; apply Hm, generation_scope; done.
  - intros d [[H1 H2] H3]. cbn. split_and!; try done. constructor.
  - intros ? d ((H1 & H2 & H3) & _ & H4). split; [done|]. split; [done|]. exists (labels_to_text (am_labels am)), true.
    split; [by apply definite_visible in H4|by right].
  - by intros d [[H1 [H2 _]] _].
  - by intros d [[H1 [H2 _]] _].
Qed.

(** A verified generation is served as its manifest says. *)
Lemma verify_generation_triple :
  triple G (verify_generation root id)
    (λ v d, G d ∧ match v with VerifyOk am => served id am (visible d) | VerifyFailed => True end) G G.
Proof.
  unfold verify_generation. eapply triple_bind.
  { apply triple_attempt with (Q := λ r d, G d ∧ match r with
      | Ok am => manifest_of id (visible d) = Some am | Err _ => True end).
    eapply triple_conseq; [apply (read_active_manifest_triple G)|..]; auto. }
  intros [am|e]; [|by apply triple_ret; intros d []]. cbv beta iota.
  destruct (ActiveHeadManifest_validate am) as [[u|e]|] eqn:Hval; [|by apply triple_ret; intros d []|by intros w []].
  set (head_ok := λ h : result FileError string, match h with Ok s => String.eqb s (am_sha256 am) | Err _ => false end).
  set (labels_ok := λ l : result FileError string, match l with Ok s => String.eqb s (am_labels_sha256 am) | Err _ => false end).
  eapply triple_bind with (R := λ h d, G d ∧ (head_ok h = true → verdict id (visible d) = Some am)).
  { apply triple_attempt with (Q := λ h d, G d ∧ (head_ok h = true → verdict id (visible d) = Some am)).
    eapply triple_conseq; [apply (sha256_stream_triple (λ d, G d ∧ manifest_of id (visible d) = Some am))|..]; try done.
    - intros s d [[H1 H2] (c & b & Hc & ->)]. split; [done|]. intros E. unfold verdict, generation_file. cbn in E.
      by rewrite H2, Hval, Hc, E.
    - by intros d [H1 _] ?.
    - by intros d [H1 _]. }
  intros h. fold (head_ok h). destruct (head_ok h); [|by apply triple_ret; intros d []].
  eapply triple_bind with (R := λ l d, G d ∧ verdict id (visible d) = Some am ∧
    (labels_ok l = true → labels_good id am (visible d))).
  { apply triple_attempt with (Q := λ l d, G d ∧ verdict id (visible d) = Some am ∧
      (labels_ok l = true → labels_good id am (visible d))).
    eapply triple_conseq; [apply (sha256_stream_triple (λ d, G d ∧ verdict id (visible d) = Some am))|..].
    - by intros d [H1 H2%(λ f, f eq_refl)].
    - intros s d [[H1 H2] (c & b & Hc & ->)]. split_and!; [done|done|]. intros E%String.eqb_eq. exists c, b. auto.
    - intros d [H1 H2] e. by split_and!.
    - by intros d [H1 _]. }
  intros l. fold (labels_ok l). destruct (labels_ok l).
  - eapply triple_bind with (R := λ _ d, G d ∧ served id am (visible d)); [|by intros ?; apply triple_ret].
    apply triple_ret. intros d (H1 & H2 & H3). split; [done|]. split; auto.
  - eapply triple_bind with (R := λ _ d, G d ∧ served id am (visible d)); [|by intros ?; apply triple_ret].
    apply triple_map_throw. eapply triple_conseq; [apply regenerate_triple|..]; try done. by intros d (H1 & H2 & _).
Qed.
End Verify.

(** ** The pointer *)

Definition points (id : string) (m : fs) : Prop :=
  ∃ c b p, m !! active_current_path root = Some (File c b) ∧ from_slice c = Some p ∧ Schema.activation_id p = id.

Lemma read_current_triple (P : Disk → Prop) :
  triple P (read_active_current root) (λ p d, P d ∧ points (Schema.activation_id p) (visible d)) P P.
Proof.
  unfold read_active_current, read_file, parse. eapply triple_bind.
  { apply triple_map_throw. apply (triple_read P (λ d, match stat (active_current_path root) d with
      | Some (File c _) => Ok c | None => Err IoNotFound | _ => Err IoOther end) P P); auto. }
  intros c. destruct (from_slice c) as [p|] eqn:Ec; [|by apply triple_throw; intros d []].
  eapply triple_bind with (R := λ p' d, p' = p ∧ P d ∧ points (Schema.activation_id p) (visible d)).
  - apply triple_ret. unfold stat. intros d [Hd E]. split_and!; [done|done|].
    destruct (visible d !! _) as [[c' b| |]|] eqn:Hv; try done. injection E as ->. by exists c, b, p.
  - intros p'. apply triple_pure. intros ->. destruct (validate_activation_id _) as [u|e].
    + by apply triple_ret.
    + apply triple_throw. by intros d [? _].
Qed.

Lemma points_stable id (S : path → Prop) :
  ¬ S (active_current_path root) → stable S (λ d, no_moves d ∧ points id (visible d)).
Proof.
  intros HS. apply stable_tree. intros m m' Hm (c & b & p & H1 & H2 & H3). exists c, b, p.
  by rewrite <-Hm.
Qed.

Lemma labels_scope (id : string) : ¬ put_scope (generation_file id ACTIVE_LABELS_FILENAME) (active_current_path root).
Proof.
  unfold generation_file, active_generation_dir, active_generations_dir, active_current_path.
  intros [E|(name & E & _)]; [|rewrite parent_app in E]; rewrite <-!app_assoc in E;
    apply app_inv_head in E; cbn in E; discriminate E.
Qed.

Lemma write_current_triple (id : string) (am : ActiveHeadManifest) :
  triple (λ d, no_moves d ∧ served id am (visible d)) (write_active_current root (mkActiveCurrentPointer id))
    (λ _ d, no_moves d ∧ served id am (visible d) ∧ points id (visible d)) no_moves no_moves.
Proof.
  unfold write_active_current. set (G := λ d, no_moves d ∧ served id am (visible d)).
  eapply triple_bind with (R := λ b d, G d ∧ to_vec (mkActiveCurrentPointer id) = Some b).
  { eapply triple_conseq; [apply (serialize_triple G)|..]; try done; by intros d []. }
  intros b. apply (triple_extract (to_vec (mkActiveCurrentPointer id) = Some b) _ G); [by intros d []|]. intros Hb.
  eapply triple_conseq; [apply (put_atomic_triple G None)|..].
  - by destruct root.
  - by apply not_temp_snoc.
  - apply stable_tree. intros m m' Hm [H1 (c & sy & H2 & H3)]. split.
    + rewrite <-H1. symmetry. apply verdict_ext; apply Hm, current_scope.
    + exists c, sy. split; [|done]. rewrite <-H2. symmetry. apply Hm, current_scope.
  - intros d [H1 H2]. split_and!; [done..|]. constructor.
  - intros ? d ([H1 H2] & _ & H3%definite_visible). split_and!; [done|done|].
    exists b, true, (mkActiveCurrentPointer id). split_and!; [done|by apply from_to|done].
  - by intros d [_ [? _]].
  - by intros d [_ [? _]].
Qed.

(** ** The search *)

Context `{JM : !Json HeadManifest} {Candidate : Type}.
Variables (mtime : path → Z) (error_text : ActivationError → string).

Lemma collect_triple (F : Disk → Prop) current entries :
  triple F (collect_candidates mtime root current entries) (λ _, F) F F.
Proof.
  induction entries as [|name entries IH]; cbn [collect_candidates]; [by apply triple_ret|].
  case_bool_decide; [done|]. eapply triple_bind with (R := λ _, F).
  { apply triple_attempt with (Q := λ _, F). eapply triple_conseq; [apply (visible_read F)|..]; auto. }
  intros [[]|]; try done. eapply triple_bind with (R := λ _, F).
  { apply triple_attempt with (Q := λ _, F). eapply triple_conseq; [apply (read_active_manifest_triple F)|..]; auto.
    by intros ? d []. }
  intros am. eapply triple_bind; [exact IH|]. intros rest. by apply triple_ret.
Qed.

(** What recovery answers, read against the tree it leaves. *)
Definition answers (r : RecoveryActiveResult) (m : fs) : Prop :=
  match r with
  | Current id am | PromotedPrevious id am => served id am m ∧ points id m
  | DefaultedFromBundle _ _ | Unhealthy _ => True
  end.

Let answered (r : RecoveryActiveResult) (d : Disk) : Prop := answers r (visible d).

Lemma bundled_triple (P : Disk → Prop) fresh now (default : option DefaultHeadSource) (loader : HeadInnerLoader (Candidate := Candidate)) :
  triple P (activate_bundled_default error_text fresh now root default loader) answered (λ _, True) (λ _, True).
Proof.
  intros w _. unfold activate_bundled_default. destruct default as [src|]; [|done].
  unfold mbind, M_bind, attempt.
  destruct (stage_and_validate_activation _ _ _ w) as [w1 [res|e|]]; [|done..].
  by destruct (publish_active_generation _ _ _ w1) as [w2 [?|e|]].
Qed.

Lemma promote_first_triple cands :
  triple no_moves (promote_first root cands)
    (λ r d, no_moves d ∧ match r with Some r => answered r d | None => True end) (λ _, True) (λ _, True).
Proof.
  induction cands as [|[[t n] id] cands IH]; cbn [promote_first]; [by apply triple_ret|].
  eapply triple_bind.
  { eapply triple_conseq; [apply (verify_generation_triple id (λ _, True)); by split|..]; try by intros d [].
    - done.
    - intros v d [[H1 _] H2]. exact (conj H1 H2). }
  intros [am|]; [|eapply triple_conseq; [apply IH|..]; try done; by intros d []].
  eapply triple_bind with (R := λ _ d, no_moves d ∧ served id am (visible d) ∧ points id (visible d)).
  { apply triple_map_throw. eapply triple_conseq; [apply (write_current_triple id am)|..]; done. }
  intros ?. eapply triple_bind with (R := λ _ d, no_moves d ∧ served id am (visible d) ∧ points id (visible d)).
  { apply triple_best_effort. apply triple_syscall; [done|done|].
    intros d (H1 & H2 & H3). destruct (stat _ d) as [[| |]|]; try done.
    assert (E : ∀ p, visible (fsync_disk (active_dir root) d) !! p = visible d !! p) by (intros; by apply visible_fsync).
    apply map_eq in E. rewrite E. split_and!; [by apply no_moves_fsync|done..]. }
  intros ?. apply triple_ret. intros d (H1 & H2 & H3). split; [done|]. by split.
Qed.

Lemma promote_or_default_triple fresh now current default (loader : HeadInnerLoader (Candidate := Candidate)) :
  triple no_moves (promote_or_default mtime error_text fresh now root current default loader)
    answered (λ _, True) (λ _, True).
Proof.
  unfold promote_or_default. eapply triple_bind with (R := λ _, no_moves); [by intros w Hw|].
  intros []; cbn [negb]; [|by apply bundled_triple]. eapply triple_bind with (R := λ _, no_moves).
  { apply triple_map_throw. eapply triple_conseq; [apply (visible_read no_moves)|..]; done. }
  intros entries. eapply triple_bind.
  { eapply triple_conseq; [apply (collect_triple no_moves)|..]; done. }
  intros cands. eapply triple_bind; [apply promote_first_triple|]. intros [r|].
  - apply triple_ret. by intros d [].
  - apply bundled_triple.
Qed.

Lemma recover_active_triple fresh now default (loader : HeadInnerLoader (Candidate := Candidate)) :
  triple no_moves (recover_active_head mtime error_text fresh now root default loader) answered (λ _, True) (λ _, True).
Proof.
  unfold recover_active_head. eapply triple_bind with (R := λ _, no_moves); [by intros w Hw|].
  intros []; cbn [negb]; [|by apply bundled_triple]. eapply triple_bind.
  { apply triple_attempt with (Q := λ r d, no_moves d ∧ match r with
      | Ok p => points (Schema.activation_id p) (visible d) | Err _ => True end).
    eapply triple_conseq; [apply (read_current_triple no_moves)|..]; done. }
  intros [p|e]; [|eapply triple_conseq; [apply promote_or_default_triple|..]; try done; by intros d []].
  set (id := Schema.activation_id p). eapply triple_bind.
  { eapply triple_conseq; [apply (verify_generation_triple id (λ d, no_moves d ∧ points id (visible d)))|..].
    - apply points_stable, labels_scope.
    - intros d [H1 H2]. by split_and!.
    - intros v d H1. exact H1.
    - done.
    - done. }
  intros [am|]; [|eapply triple_conseq; [apply promote_or_default_triple|..]; try done; by intros d [[]]].
  apply triple_ret. intros d [(H1 & H2 & H3) H4]. by split.
Qed.
End Served.
