(* ===== verification/ActiveBoot.v ===== *)
(** * What a boot serves

    Recovery of the active head, as a contract: whatever stops it, the head it
    answers with was verified against its manifest; undisturbed, it answers with
    the head the pointer names when that generation verifies, and otherwise with
    the newest generation that does. *)

From stdpp Require Import sorting.
From S2P Require Import Prelude Ids AssetPath Common Text Workspace Broadcast JobRegistry FileSystem FsLogic FsAtomic Schema ActiveHead HeadRotation Staging StagingFacts FsRun Recovery RecoveryFacts RecoverySafety ActiveRecovery ActiveFacts.

Lemma sorted_find {A : Type} (R : A → A → Prop) (f : A → bool) (l : list A) (x : A) :
  StronglySorted R l → List.find f l = Some x → ∀ y, y ∈ l → f y = true → x = y ∨ R x y.
Proof.
  induction 1 as [|a l _ IH Ha]; cbn [List.find]; [done|]. destruct (f a) eqn:Ef.
  - intros [= ->] y [->|Hy]%elem_of_cons _; [by left|]. right. rewrite Forall_forall in Ha. apply Ha. by apply list_elem_of_In.
  - intros Hx y [->|Hy]%elem_of_cons Hf; [congruence|]. by apply IH.
Qed.

Section Boot.
Context `{UL : UuidLaws} `{TL : TempLaws} `{HL : Sha256Laws}.
Context `{JP : !Json ActiveCurrentPointer} `{JA : !Json ActiveHeadManifest} `{JM : !Json HeadManifest}.
Context {Candidate : Type}.
Variables (mtime : path → Z) (error_text : ActivationError → string) (root : path).

Abbreviation labels_of id := (generation_file root id ACTIVE_LABELS_FILENAME).

(** ** The calls, undisturbed *)

Lemma evals_read_manifest (m : fs) (id : string) :
  ∃ r, evals m (read_active_manifest root id) r m ∧
    manifest_of root id m = match r with Ok am => Some am | Err _ => None end.
Proof.
  unfold read_active_manifest, check_activation_id, manifest_of.
  destruct (validate_activation_id id) as [u|e].
  2:{ eexists (Err _). split; [|done]. eapply evals_bind_err, evals_throw. }
  pose proof (evals_map_throw _ _ (io_err (active_manifest_path root id)) _ _ (evals_read m (active_manifest_path root id))) as Hr.
  destruct (m !! active_manifest_path root id) as [[c b| |t]|]; cbn [map_err] in Hr.
  2-4: eexists (Err _); (split; [|done]); eapply evals_bind; [apply evals_ret|]; eapply evals_bind_err, Hr.
  destruct (from_slice c) as [am|] eqn:Ec.
  - exists (Ok am). split; [|done]. eapply evals_bind; [apply evals_ret|]. eapply evals_bind; [exact Hr|].
    by apply evals_parse.
  - eexists (Err _). split; [|done]. eapply evals_bind; [apply evals_ret|]. eapply evals_bind; [exact Hr|].
    unfold parse. rewrite Ec. apply evals_throw.
Qed.

Lemma evals_sha256 (m : fs) (p : path) :
  ∃ r, evals m (sha256_stream p) r m ∧
    match r with
    | Ok s => ∃ c b, m !! p = Some (File c b) ∧ s = sha256_hex_of c
    | Err _ => ∀ c b, m !! p ≠ Some (File c b)
    end.
Proof.
  destruct (m !! p) as [[c b| |t]|] eqn:E.
  1: { exists (Ok (sha256_hex_of c)). split; [by eapply evals_sha256_stream|by exists c, b]. }
  all: destruct (evals_sha256_missing m p) as [e He]; [by intros; rewrite E|]; exists (Err e); by split.
Qed.

(** The tree with the labels of [id] made good. *)
Definition relabel (id : string) (am : ActiveHeadManifest) (m : fs) : fs :=
  match m !! labels_of id with
  | Some (File c _) =>
      if String.eqb (sha256_hex_of c) (am_labels_sha256 am) then m
      else <[labels_of id := File (labels_to_text (am_labels am)) true]> m
  | _ => <[labels_of id := File (labels_to_text (am_labels am)) true]> m
  end.

Definition verified (id : string) (m : fs) : VerifyOutcome * fs :=
  match verdict root id m with
  | Some am => (VerifyOk am, relabel id am m)
  | None => (VerifyFailed, m)
  end.

Lemma verdict_dir (id : string) (m : fs) am : wf_tree m → verdict root id m = Some am → m !! active_generation_dir root id = Some Dir.
Proof.
  intros Hwf. unfold verdict. destruct (manifest_of root id m); [|done].
  destruct (ActiveHeadManifest_validate _) as [[]|]; try done.
  destruct (m !! generation_file root id ACTIVE_HEAD_FILENAME) as [n|] eqn:E; [|done]. intros _.
  rewrite <-(parent_app (active_generation_dir root id) ACTIVE_HEAD_FILENAME). apply Hwf; [by exists n|].
  by destruct (active_generation_dir root id).
Qed.

Lemma evals_verify_generation (m : fs) (id : string) :
  wf_tree m → m !! labels_of id ≠ Some Dir →
  evals m (verify_generation root id) (Ok (fst (verified id m))) (snd (verified id m)).
Proof.
  intros Hwf Hlab. unfold verify_generation, verified.
  destruct (evals_read_manifest m id) as (r & Hr & Em).
  assert (Hv : verdict root id m = verdict root id m) by done. unfold verdict at 1 in Hv. rewrite Em in Hv.
  eapply evals_bind; [eapply evals_attempt, Hr|]. destruct r as [am|e]; cbv beta iota; [|rewrite <-Hv; apply evals_ret].
  destruct (ActiveHeadManifest_validate_spec am) as (v & Eval & _). rewrite Eval in Hv |- *.
  destruct v as [u|e]; [|rewrite <-Hv; apply evals_ret].
  destruct (evals_sha256 m (generation_file root id ACTIVE_HEAD_FILENAME)) as (h & Hh & Eh).
  eapply evals_bind; [eapply evals_attempt, Hh|]. destruct h as [s|e].
  2:{ cbv beta iota. destruct (m !! generation_file root id ACTIVE_HEAD_FILENAME) as [[c b| |t]|];
      [by destruct (Eh c b)|rewrite <-Hv; apply evals_ret..]. }
  destruct Eh as (c & b & Ec & ->). rewrite Ec in Hv. destruct (String.eqb (sha256_hex_of c) (am_sha256 am)) eqn:Eh.
  2:{ rewrite <-Hv. apply evals_ret. }
  assert (Hdir : m !! active_generation_dir root id = Some Dir) by (by eapply verdict_dir).
  rewrite <-Hv. cbn [fst snd]. destruct (evals_sha256 m (labels_of id)) as (l & Hl & El).
  eapply evals_bind; [eapply evals_attempt, Hl|].
  assert (Hregen : evals m (map_throw RE_File (regenerate_labels_from_manifest (labels_of id) am)) (Ok tt)
    (<[labels_of id := File (labels_to_text (am_labels am)) true]> m)).
  { apply (evals_map_throw _ _ RE_File _ (Ok tt)). unfold regenerate_labels_from_manifest.
    rewrite render_labels_writer. apply evals_put_atomic; [|by apply not_temp_snoc| |done].
    - unfold generation_file. by destruct (active_generation_dir root id).
    - unfold generation_file. by rewrite parent_app. }
  unfold relabel. destruct l as [s|e].
  - destruct El as (c' & b' & Ec' & ->). rewrite Ec'.
    destruct (String.eqb (sha256_hex_of c') (am_labels_sha256 am)); eapply evals_bind;
      [apply evals_ret|apply evals_ret|exact Hregen|apply evals_ret].
  - destruct (m !! labels_of id) as [[c' b'| |t]|] eqn:Ec'; [by destruct (El c' b')|done|..];
      (eapply evals_bind; [exact Hregen|apply evals_ret]).
Qed.

(** ** The candidates *)

Definition candidate_of (m : fs) (id : string) : candidate :=
  (match manifest_of root id m with Some am => am_activated_at am | None => ""%string end,
   mtime (active_generations_dir root ++ [id]), id).

Definition candidates_of (m : fs) (current : option string) (entries : list string) : list candidate :=
  map (candidate_of m) (List.filter (λ id, negb (bool_decide (Some id = current)) &&
    bool_decide (m !! active_generation_dir root id = Some Dir)) entries).

Lemma evals_collect (m : fs) current entries :
  evals m (collect_candidates mtime root current entries) (Ok (candidates_of m current entries)) m.
Proof.
  unfold candidates_of. induction entries as [|id entries IH]; cbn [collect_candidates List.filter map]; [apply evals_ret|].
  case_bool_decide; cbn [negb andb]; [done|].
  eapply evals_bind; [eapply evals_attempt, evals_metadata|].
  change (active_generations_dir root ++ [id]) with (active_generation_dir root id).
  destruct (m !! active_generation_dir root id) as [[c b| |t]|] eqn:E;
    [rewrite bool_decide_eq_false_2 by done; exact IH| |rewrite bool_decide_eq_false_2 by done; exact IH..].
  rewrite bool_decide_eq_true_2 by done. cbn [map].
  destruct (evals_read_manifest m id) as (r & Hr & Em). eapply evals_bind; [eapply evals_attempt, Hr|].
  eapply evals_bind; [exact IH|]. unfold candidate_of. rewrite Em. destruct r; apply evals_ret.
Qed.

(** ** The pointer *)

Definition pointed (m : fs) : option string :=
  match m !! active_current_path root with
  | Some (File c _) =>
      match from_slice c with
      | Some p => match validate_activation_id (Schema.activation_id p) with Ok _ => Some (Schema.activation_id p) | Err _ => None end
      | None => None
      end
  | _ => None
  end.

Lemma evals_read_current (m : fs) :
  ∃ r, evals m (read_active_current root) r m ∧
    pointed m = match r with Ok p => Some (Schema.activation_id p) | Err _ => None end.
Proof.
  unfold read_active_current, pointed.
  pose proof (evals_map_throw _ _ (io_err (active_current_path root)) _ _ (evals_read m (active_current_path root))) as Hr.
  destruct (m !! active_current_path root) as [[c b| |t]|]; cbn [map_err] in Hr.
  2-4: eexists (Err _); (split; [|done]); eapply evals_bind_err, Hr.
  destruct (from_slice c) as [p|] eqn:Ec.
  2:{ eexists (Err _). split; [|done]. eapply evals_bind; [exact Hr|]. eapply evals_bind_err. unfold parse.
      rewrite Ec. apply evals_throw. }
  assert (Hp : ∀ r, evals m (match validate_activation_id (Schema.activation_id p) with
    | Ok _ => mret p | Err _ => throw (FE_MetadataParse (display (active_current_path root))) end) r m →
    evals m (read_active_current root) r m).
  { intros r H0. eapply evals_bind; [exact Hr|]. eapply evals_bind; [by apply evals_parse|exact H0]. }
  destruct (validate_activation_id _) as [u|e].
  - exists (Ok p). split; [|done]. apply Hp, evals_ret.
  - eexists (Err _). split; [|done]. apply Hp, evals_throw.
Qed.

Definition is_valid (m : fs) (c : candidate) : bool :=
  match verdict root (snd c) m with Some _ => true | None => false end.

Section Search.
Variable m : fs.
Hypothesis Hwf : wf_tree m.
Hypothesis Hlab : ∀ id, m !! labels_of id ≠ Some Dir.
Hypothesis Hcur : m !! active_current_path root ≠ Some Dir.
Hypothesis Hser : ∀ id, is_Some (to_vec (mkActiveCurrentPointer id)).

Lemma relabel_at (id : string) (am : ActiveHeadManifest) (p : path) :
  p ≠ labels_of id → relabel id am m !! p = m !! p.
Proof.
  intros Hp. unfold relabel. destruct (m !! labels_of id) as [[c b| |t]|]; [destruct (String.eqb _ _); [done|]|..];
    by rewrite lookup_insert_ne.
Qed.

Lemma current_not_labels (id : string) : active_current_path root ≠ labels_of id.
Proof. intros E. apply (current_scope root id ACTIVE_LABELS_FILENAME). by left. Qed.

Lemma active_not_labels (id : string) : active_dir root ≠ labels_of id.
Proof.
  unfold generation_file, active_generation_dir, active_generations_dir. intros E.
  apply (f_equal (@List.length string)) in E. rewrite !length_app in E. cbn in E. lia.
Qed.

Lemma active_there id am : verdict root id m = Some am → m !! active_dir root = Some Dir.
Proof.
  intros Hv. apply verdict_dir in Hv; [|done].
  assert (Hg : m !! active_generations_dir root = Some Dir).
  { rewrite <-(parent_app (active_generations_dir root) id). apply Hwf; [by exists Dir|].
    by destruct (active_generations_dir root). }
  rewrite <-(parent_app (active_dir root) ACTIVE_GENERATIONS_DIR_NAME). apply Hwf; [by exists Dir|].
  by destruct root.
Qed.

(** The generations that do not verify are passed over untouched. *)
Lemma evals_promote_first cands :
  match List.find (is_valid m) cands with
  | Some c => ∃ am b m', verdict root (snd c) m = Some am ∧ to_vec (mkActiveCurrentPointer (snd c)) = Some b ∧
      m' !! active_current_path root = Some (File b true) ∧
      evals m (promote_first root cands) (Ok (Some (PromotedPrevious (snd c) am))) m'
  | None => evals m (promote_first root cands) (Ok None) m
  end.
Proof.
  induction cands as [|[[t n] id] cands IH]; cbn [promote_first List.find]; [apply evals_ret|].
  unfold is_valid at 1. cbn [snd]. pose proof (evals_verify_generation m id Hwf (Hlab id)) as Hv.
  unfold verified in Hv. destruct (verdict root id m) as [am|] eqn:Ev; cbn [fst snd] in Hv.
  2:{ destruct (List.find _ cands) as [c|].
      - destruct IH as (am & b & m' & H1 & H2 & H3 & H4). exists am, b, m'. split_and!; [done..|].
        eapply evals_bind; [exact Hv|exact H4].
      - eapply evals_bind; [exact Hv|exact IH]. }
  destruct (Hser id) as [b Hb].
  set (m' := <[active_current_path root := File b true]> (relabel id am m)).
  exists am, b, m'. split_and!; [done|done|apply lookup_insert_eq|].
  assert (Hact : relabel id am m !! active_dir root = Some Dir).
  { rewrite relabel_at by apply active_not_labels. by eapply active_there. }
  eapply evals_bind; [exact Hv|]. cbv beta iota. eapply evals_bind.
  { apply (evals_map_throw _ m' RE_File _ (Ok tt)). eapply evals_bind; [by apply evals_serialize|].
    apply evals_put_atomic; [by destruct root|by apply not_temp_snoc| |].
    - unfold active_current_path. by rewrite parent_app.
    - rewrite relabel_at by apply current_not_labels. done. }
  eapply evals_bind; [eapply evals_best_effort, evals_fsync|apply evals_ret].
Qed.

Definition newest (c : candidate) : Prop :=
  ∀ id am, verdict root id m = Some am → c = candidate_of m id ∨ candidate_le c (candidate_of m id).

(** Some generation verifies: it, or a newer one, is promoted. *)
Lemma evals_promote_or_default fresh now current default (loader : HeadInnerLoader (Candidate := Candidate)) :
  (∃ id am, verdict root id m = Some am) → (∀ id, current = Some id → verdict root id m = None) →
  ∃ id am b m', verdict root id m = Some am ∧ newest (candidate_of m id) ∧
    to_vec (mkActiveCurrentPointer id) = Some b ∧ m' !! active_current_path root = Some (File b true) ∧
    evals m (promote_or_default mtime error_text fresh now root current default loader) (Ok (PromotedPrevious id am)) m'.
Proof.
  intros (id0 & am0 & H0) Hnc.
  assert (Hg : m !! active_generations_dir root = Some Dir).
  { rewrite <-(parent_app (active_generations_dir root) id0). apply Hwf; [|by destruct (active_generations_dir root)].
    exists Dir. by eapply verdict_dir. }
  set (entries := children (active_generations_dir root) m).
  set (cands := candidates_of m current entries).
  assert (Hin : ∀ id am, verdict root id m = Some am → candidate_of m id ∈ merge_sort candidate_le cands).
  { intros id am Hv. rewrite merge_sort_Permutation. apply list_elem_of_In, in_map, filter_In. split.
    - apply list_elem_of_In, children_spec. exists Dir. by eapply verdict_dir.
    - rewrite bool_decide_eq_false_2 by (intros E; rewrite (Hnc id) in Hv; done).
      apply bool_decide_eq_true_2. by eapply verdict_dir. }
  assert (Hfrom : ∀ c, c ∈ merge_sort candidate_le cands → c = candidate_of m (snd c)).
  { intros c. rewrite merge_sort_Permutation, list_elem_of_In. by intros (id & <- & _)%in_map_iff. }
  pose proof (evals_promote_first (merge_sort candidate_le cands)) as Hp.
  destruct (List.find (is_valid m) (merge_sort candidate_le cands)) as [c|] eqn:Ef.
  2:{ exfalso. pose proof (find_none _ _ Ef (candidate_of m id0)) as Hn. unfold is_valid in Hn. cbn in Hn.
      rewrite H0 in Hn. by specialize (Hn (proj1 (list_elem_of_In _ _) (Hin _ _ H0))). }
  destruct Hp as (am & b & m' & H1 & H2 & H3 & H4). exists (snd c), am, b, m'.
  rewrite <-Hfrom by (apply find_some in Ef as [Ef _]; by apply list_elem_of_In).
  split_and!; [done| |done|done|].
  - intros id am' Hv. apply (sorted_find _ (is_valid m) (merge_sort candidate_le cands)); [|done|by eapply Hin|].
    + apply (StronglySorted_merge_sort candidate_le).
    + unfold is_valid. cbn. by rewrite Hv.
  - unfold promote_or_default. eapply evals_bind; [apply evals_is_dir|]. rewrite Hg. cbn [negb].
    eapply evals_bind; [|eapply evals_bind; [apply evals_collect|]].
    { pose proof (evals_read_dir m (active_generations_dir root)) as Hr. rewrite Hg in Hr.
      apply (evals_map_throw _ _ _ _ (Ok _)). exact Hr. }
    fold entries cands. eapply evals_bind; [exact H4|apply evals_ret].
Qed.
End Search.
End Boot.

(** ** [labels.txt] *)

(** A label that a line of text can carry. *)
Definition line_label (l : string) : Prop :=
  l ≠ ""%string ∧ ¬ lf ∈ bytes_of l ∧ ∀ s, bytes_of l ≠ s ++ [cr].

Lemma strip_cr_id s : (∀ r, s ≠ r ++ [cr]) → strip_cr s = s.
Proof.
  intros Hs. unfold strip_cr. destruct (rev s) as [|b r] eqn:E; [done|].
  destruct (Ascii.eqb_spec b cr) as [->|_]; [|done]. destruct (Hs (rev r)).
  by rewrite <-(rev_involutive s), E.
Qed.

Lemma trim_end_id c s : (∀ r, s ≠ r ++ [c]) → trim_end_matches c s = s.
Proof.
  induction s as [|b s IH]; intros Hs; [done|]. cbn [trim_end_matches]. rewrite IH.
  - destruct s; [|done]. destruct (Ascii.eqb_spec b c) as [->|_]; [by destruct (Hs [])|done].
  - intros r E. destruct (Hs (b :: r)). by rewrite E.
Qed.

Lemma map_last {A : Type} (f : A → A) (l : list A) d :
  (∀ x, x ∈ l → f x = x) → map f (removelast l) ++ match l with [] => [] | _ => [List.last l d] end = l.
Proof.
  intros Hf. destruct l as [|x l] using rev_ind; [done|]. rewrite removelast_last, last_last.
  replace (map f l) with l; [by destruct l|]. symmetry. rewrite <-(map_id l) at 2. apply map_ext_in.
  intros y Hy. apply Hf, elem_of_app. left. by apply list_elem_of_In.
Qed.

Lemma str_lines_text labels : Forall line_label labels → str_lines (labels_to_text labels) = map bytes_of labels.
Proof.
  intros HF. rewrite Forall_forall in HF. destruct labels as [|l0 labels]; [done|].
  set (ls := l0 :: labels) in *. unfold str_lines, labels_to_text.
  rewrite split_join; [|done|].
  2:{ intros c b Hc Hb ->. apply list_elem_of_fmap in Hc as (l & -> & Hl). destruct (HF l) as (_ & Hlf & _); [|done].
      by apply list_elem_of_In. }
  assert (Hls : ∀ x, x ∈ map bytes_of ls → x ≠ [] ∧ strip_cr x = x).
  { intros x (l & -> & Hl)%list_elem_of_fmap. destruct (HF l) as (H1 & _ & H3); [by apply list_elem_of_In|].
    split; [|by apply strip_cr_id]. intros E. apply H1. by destruct l. }
  rewrite <-(map_last strip_cr (map bytes_of ls) []) at 3 by (intros x Hx; apply Hls, Hx).
  f_equal. destruct (List.last (map bytes_of ls) []) eqn:E; [|done].
  destruct (Hls []) as [? _]; [|done]. rewrite <-E. apply list_elem_of_In.
  destruct (exists_last (l := map bytes_of ls)) as (r & x & ->); [done|]. rewrite last_last. apply in_or_app. right. by left.
Qed.

(** The labels survive their file.  The text the writer puts in [labels.txt]
    reads back, line by line as [stage_default_origin] reads a bundled one, to
    exactly the labels of the manifest; and what a boot regenerates from the
    manifest is that same text, byte for byte. *)
Theorem labels_text_roundtrip (labels : list string) :
  Forall line_label labels →
  bundled_labels (labels_to_text labels) = labels ∧ render_labels 0 labels = labels_to_text labels.
Proof.
  intros HF. split; [|apply render_labels_writer]. unfold bundled_labels. rewrite str_lines_text by done.
  induction HF as [|l labels (H1 & _ & H3) _ IH]; [done|]. cbn [map List.filter].
  rewrite trim_end_id by done. destruct (bytes_of l) eqn:E; [by destruct l|]. cbn [map].
  rewrite IH, <-E. by rewrite string_of_bytes.
Qed.

Lemma labels_text_roundtrip_witness :
  bundled_labels (labels_to_text ["dog bark"; "engine"]%string) = ["dog bark"; "engine"]%string ∧
  render_labels 0 ["dog bark"; "engine"]%string = labels_to_text ["dog bark"; "engine"]%string.
Proof.
  apply labels_text_roundtrip. repeat constructor; try done; try (intros s E; apply (f_equal (@rev _)) in E;
    rewrite rev_app_distr in E; discriminate E); rewrite list_elem_of_In; cbn; intuition discriminate.
Defined.

(** The bundled text may end with a newline; what a boot regenerates does not, so
    its digest is not the manifest's. *)
Lemma bundled_regenerated_differs :
  let text := bytes_of "dog" ++ [lf] in
  bundled_labels text = ["dog"%string] ∧ render_labels 0 (bundled_labels text) ≠ text.
Proof. split; [reflexivity|]. vm_compute. discriminate. Qed.

(** ** Properties *)


(** Boot falls back as little as it can.  Undisturbed, on a tree with a
    [current.json] and some generation that verifies, [recover_active_head]
    returns: the head [current.json] names when that generation verifies, and
    otherwise the newest generation that does ([activated_at], then the
    directory's modification time, then the id), with [current.json] rewritten to
    name it; never the bundled default, never [Unhealthy], never an error. *)
Theorem recover_active_head_newest `{UL : UuidLaws} `{TL : TempLaws} `{HL : Sha256Laws}
    `{JP : !Json ActiveCurrentPointer} `{JPL : !JsonLaws ActiveCurrentPointer}
    `{JA : !Json ActiveHeadManifest} `{JM : !Json HeadManifest} {Candidate : Type}
    (mtime : path → Z) (error_text : ActivationError → string) (fresh now : string) (root : path)
    (default : option DefaultHeadSource) (loader : HeadInnerLoader (Candidate := Candidate)) (m : fs) :
  wf_tree m → is_Some (m !! active_current_path root) → m !! active_current_path root ≠ Some Dir →
  (∀ id, m !! generation_file root id ACTIVE_LABELS_FILENAME ≠ Some Dir) →
  (∀ id, is_Some (to_vec (mkActiveCurrentPointer id))) →
  (∃ id am, verdict root id m = Some am) →
  ∃ r m', evals m (recover_active_head mtime error_text fresh now root default loader) (Ok r) m' ∧
    match r with
    | Current id am => pointed root m = Some id ∧ verdict root id m = Some am
    | PromotedPrevious id am =>
        (∀ cur, pointed root m = Some cur → verdict root cur m = None) ∧
        verdict root id m = Some am ∧ newest mtime root m (candidate_of mtime root m id) ∧ points root id m'
    | _ => False
    end.
Proof.
  intros Hwf [n Hn] Hcur Hlab Hser Hex.
  assert (Hthere : ∀ r m', evals m (r0 ← attempt (read_active_current root);
    match r0 with
    | Err _ => promote_or_default mtime error_text fresh now root None default loader
    | Ok pointer =>
        v ← verify_generation root (Schema.activation_id pointer);
        match v with
        | VerifyOk manifest => mret (Current (Schema.activation_id pointer) manifest)
        | VerifyFailed => promote_or_default mtime error_text fresh now root (Some (Schema.activation_id pointer)) default loader
        end
    end) r m' → evals m (recover_active_head mtime error_text fresh now root default loader) r m').
  { intros r m' Hr. unfold recover_active_head. eapply evals_bind; [apply evals_exists|].
    rewrite bool_decide_eq_true_2 by (by exists n). exact Hr. }
  destruct (evals_read_current root m) as (r0 & Hr0 & Ep).
  assert (Hpromote : ∀ current, (∀ id, current = Some id → verdict root id m = None) →
    pointed root m = current → ∃ id am m',
    evals m (promote_or_default mtime error_text fresh now root current default loader) (Ok (PromotedPrevious id am)) m' ∧
    (∀ cur, pointed root m = Some cur → verdict root cur m = None) ∧
    verdict root id m = Some am ∧ newest mtime root m (candidate_of mtime root m id) ∧ points root id m').
  { intros current Hnc Hc. destruct (evals_promote_or_default mtime error_text root m Hwf Hlab Hcur Hser
      fresh now current default loader Hex Hnc) as (id & am & b & m' & H1 & H2 & H3 & H4 & H5).
    exists id, am, m'. split_and!; [done|by rewrite Hc|done|done|].
    exists b, true, (mkActiveCurrentPointer id). split_and!; [done|by apply from_to|done]. }
  destruct r0 as [p|e].
  2:{ destruct (Hpromote None) as (id & am & m' & H1 & H2); [done|done|].
      exists (PromotedPrevious id am), m'. split; [|done]. apply Hthere.
      eapply evals_bind; [eapply evals_attempt, Hr0|exact H1]. }
  pose proof (evals_verify_generation root m (Schema.activation_id p) Hwf (Hlab _)) as Hv. unfold verified in Hv.
  destruct (verdict root (Schema.activation_id p) m) as [am|] eqn:Ev; cbn [fst snd] in Hv.
  - exists (Current (Schema.activation_id p) am), (relabel root (Schema.activation_id p) am m). split; [|done].
    apply Hthere. eapply evals_bind; [eapply evals_attempt, Hr0|]. eapply evals_bind; [exact Hv|apply evals_ret].
  - destruct (Hpromote (Some (Schema.activation_id p))) as (id & am & m' & H1 & H2); [by intros ? [= <-]|done|].
    exists (PromotedPrevious id am), m'. split; [|done]. apply Hthere.
    eapply evals_bind; [eapply evals_attempt, Hr0|]. eapply evals_bind; [exact Hv|exact H1].
Qed.

(** ** A boot: the current generation is torn, two older ones are whole *)

#[export] Instance ActiveOrigin_countable `{U : UuidLib} : Countable ActiveOrigin.
Proof.
  apply (inj_countable' (λ o, match o with OriginDefault => None | OriginHead w h r => Some (w, (h, r)) end)
    (λ x, match x with None => OriginDefault | Some (w, (h, r)) => OriginHead w h r end)). by intros [].
Defined.

#[export] Instance ActiveHeadManifest_countable `{U : UuidLib} : Countable ActiveHeadManifest.
Proof.
  apply (inj_countable' (λ m, (am_origin m, (am_runtime_head_id m, (am_sha256 m, (am_labels_sha256 m,
    (am_n_classes m, (am_labels m, am_activated_at m)))))))
    (λ '(a, (b, (c, (d, (e, (f, g)))))), mkActiveHeadManifest a b c d e f g)).
  by intros [].
Defined.

#[export] Instance ActiveCurrentPointer_eq_dec : EqDecision ActiveCurrentPointer.
Proof. solve_decision. Defined.
#[export] Instance ActiveCurrentPointer_countable : Countable ActiveCurrentPointer.
Proof. apply (inj_countable' Schema.activation_id mkActiveCurrentPointer). by intros []. Defined.

(** A digest that keeps every byte. *)
Definition identity_sha : Sha256Lib := {|
  sha_state := list ascii;
  sha_new := [];
  sha_update := λ s b, s ++ b;
  sha_finalize := λ s, map (λ c, Z.of_N (N_of_ascii c)) s;
|}.

Lemma identity_sha_laws : Sha256Laws identity_sha.
Proof. split; cbn; [apply app_nil_r|]. intros s a b. by rewrite app_assoc. Qed.

Section BootScenario.
#[local] Instance bs_uuid : UuidLib := text_uuid_lib.
#[local] Instance bs_temp : TempLib := long_temp_lib.
#[local] Instance bs_sha : Sha256Lib := identity_sha.
#[local] Instance bs_pointer_json : Json ActiveCurrentPointer := bits_json ActiveCurrentPointer.
#[local] Instance bs_active_json : Json ActiveHeadManifest := bits_json ActiveHeadManifest.
#[local] Instance bs_manifest_json : Json HeadManifest := bits_json HeadManifest.

Definition bs_head : HeadId := mkHeadId ("h" : Uuid).
Definition bs_manifest (weights at_ : string) : ActiveHeadManifest :=
  mkActiveHeadManifest (OriginHead hr_ws bs_head (mkWorkspaceRevision 1 "r")) bs_head
    (sha256_hex_of (bytes_of weights)) (sha256_hex_of (labels_to_text ["x"; "y"]%string)) 2 ["x"; "y"]%string at_.

Definition bs_generation (id weights on_disk at_ : string) (labels : list ascii) : list (path * node) :=
  [ (active_generation_dir [] id, Dir);
    (generation_file [] id ACTIVE_MANIFEST_FILENAME, File (bits (encode (bs_manifest weights at_))) true);
    (generation_file [] id ACTIVE_HEAD_FILENAME, File (bytes_of on_disk) true);
    (generation_file [] id ACTIVE_LABELS_FILENAME, File labels true) ].

Definition bs_tree : fs := list_to_map (
  bs_generation "a1" "new" "torn" "2024-03" (labels_to_text ["x"; "y"]%string) ++
  bs_generation "b2" "old" "old" "2024-02" (bytes_of "lost") ++
  bs_generation "c3" "older" "older" "2024-01" (labels_to_text ["x"; "y"]%string) ++
  [ ([], Dir); (active_dir [], Dir); (active_generations_dir [], Dir);
    (active_current_path [], File (bits (encode (mkActiveCurrentPointer "a1"))) true) ]).

Definition bs_boot : M RecoveryError RecoveryActiveResult :=
  recover_active_head (λ _, 0%Z) (λ _, ""%string) "f" "now" [] None (λ _ _ _ _, Ok tt).

Definition bs_world : World := mkWorld (mkDisk bs_tree []) None [].


Lemma bs_labels_file (id : string) : bs_tree !! generation_file [] id ACTIVE_LABELS_FILENAME ≠ Some Dir.
Proof.
  intros E. assert (Hall : map_Forall (λ (p : path) n, n = Dir → List.length p < 4) bs_tree).
  { apply (bool_decide_unpack _). vm_compute. reflexivity. }
  specialize (Hall _ _ E eq_refl). cbn in Hall. lia.
Qed.

Lemma recover_active_head_newest_witness :
  wf_tree bs_tree ∧ verdict [] "a1" bs_tree = None ∧ verdict [] "c3" bs_tree = Some (bs_manifest "older" "2024-01") ∧
  ∃ r m', evals bs_tree bs_boot (Ok r) m' ∧
    match r with
    | Current id am => pointed [] bs_tree = Some id ∧ verdict [] id bs_tree = Some am
    | PromotedPrevious id am =>
        (∀ cur, pointed [] bs_tree = Some cur → verdict [] cur bs_tree = None) ∧
        verdict [] id bs_tree = Some am ∧
        newest (λ _, 0%Z) [] bs_tree (candidate_of (λ _, 0%Z) [] bs_tree id) ∧ points [] id m'
    | _ => False
    end.
Proof.
  assert (Hwf : wf_tree bs_tree) by (apply wf_treeb_ok; vm_compute; reflexivity).
  assert (Hc : verdict [] "c3" bs_tree = Some (bs_manifest "older" "2024-01")) by (vm_compute; reflexivity).
  split; [exact Hwf|]. split; [vm_compute; reflexivity|]. split; [exact Hc|].
  apply (recover_active_head_newest (UL := text_uuid_laws) (TL := long_temp_laws) (HL := identity_sha_laws)
    (JPL := bits_json_laws ActiveCurrentPointer)).
  - exact Hwf.
  - exists (File (bits (encode (mkActiveCurrentPointer "a1"))) true). vm_compute. reflexivity.
  - vm_compute. discriminate.
  - exact bs_labels_file.
  - intros id. by eexists.
  - eexists _, _. exact Hc.
Defined.
End BootScenario.
