(* ===== verification/ActivePublish.v ===== *)
(** * What an activation leaves behind

    Staging touches only its own directory and leaves three synced files whose
    digests are the manifest's; the publish moves them as they are.  A power loss
    or an I/O error anywhere leaves the previous generation whole and the pointer
    old or new. *)

From S2P Require Import Prelude Ids AssetPath Common Text Workspace FileSystem FsLogic FsAtomic Schema ActiveHead HeadRotation Staging StagingFacts FsRun Recovery RecoveryFacts RecoverySafety ActiveRecovery ActiveFacts ActiveBoot.

(** ** A directory moved and not yet synced on both sides *)

Section Moved.
Variables (src dst : path) (x : string) (v : option node).

(** [dst/x] is what [src/x] was, now and after any sync. *)
Definition moved_in (d : Disk) : Prop :=
  (∃ os1 un os2, pending d = os1 ++ OpMove src dst un :: os2 ∧
     Forall (λ o, op_among (src ++ [x]) [v] o ∧ op_among (dst ++ [x]) [v] o) (os1 ++ os2) ∧
     durable d !! (src ++ [x]) = v) ∨
  (Forall (op_among (dst ++ [x]) [v]) (pending d) ∧ durable d !! (dst ++ [x]) = v).

Let both (o : op) : Prop := op_among (src ++ [x]) [v] o ∧ op_among (dst ++ [x]) [v] o.

Lemma both_src os : Forall both os → Forall (op_among (src ++ [x]) [v]) os.
Proof. apply List.Forall_impl. by intros o []. Qed.
Lemma both_dst os : Forall both os → Forall (op_among (dst ++ [x]) [v]) os.
Proof. apply List.Forall_impl. by intros o []. Qed.

Lemma apply_ops_app os1 os2 m : apply_ops (os1 ++ os2) m = apply_ops os2 (apply_ops os1 m).
Proof. apply foldl_app. Qed.

Lemma move_through os1 un os2 m :
  Forall both os1 → Forall both os2 → m !! (src ++ [x]) = v →
  apply_ops (os1 ++ OpMove src dst un :: os2) m !! (dst ++ [x]) = v.
Proof.
  intros H1 H2 Hm. rewrite apply_ops_app. change (OpMove src dst un :: os2) with ([OpMove src dst un] ++ os2).
  rewrite apply_ops_app. apply list_elem_of_singleton, ops_among; [by apply both_dst|]. cbn.
  rewrite move_tree_dst. apply ops_among; [by apply both_src|]. by apply list_elem_of_singleton.
Qed.

Lemma moved_visible d : moved_in d → visible d !! (dst ++ [x]) = v.
Proof.
  intros [(os1 & un & os2 & Hp & HF & Hd)|[HF Hd]]; unfold visible.
  - rewrite Hp. apply Forall_app in HF as [H1 H2]. by apply move_through.
  - apply list_elem_of_singleton, ops_among; [done|]. by apply list_elem_of_singleton.
Qed.

Lemma moved_add d o : moved_in d → both o → moved_in (add_op o d).
Proof.
  intros [(os1 & un & os2 & Hp & HF & Hd)|[HF Hd]] Ho; [left|right]; cbn.
  - exists os1, un, (os2 ++ [o]). rewrite Hp, <-app_assoc. split_and!; [done| |done].
    rewrite app_assoc. apply Forall_app. split; [done|]. by apply Forall_singleton.
  - split; [|done]. apply Forall_app. split; [done|]. apply Forall_singleton, Ho.
Qed.

Lemma marked_both dir (f : op * bool → bool) os (φ : op → Prop) :
  (∀ o, φ o → φ (fst (fsync_op dir o))) → Forall φ os →
  Forall φ (map fst (List.filter f (map (fsync_op dir) os))).
Proof.
  intros Hφ. rewrite !List.Forall_forall. intros H o (y & <- & [Hy _]%filter_In)%in_map_iff.
  apply in_map_iff in Hy as (o & <- & Ho). by apply Hφ, H.
Qed.

Lemma both_fsync dir o : both o → both (fst (fsync_op dir o)).
Proof. by destruct o. Qed.

Lemma moved_fsync d dir : moved_in d → moved_in (fsync_disk dir d).
Proof.
  intros [(os1 & un & os2 & Hp & HF & Hd)|[HF Hd]].
  2:{ right. cbn. split; [by apply marked_both; [intros o; apply fsync_op_among|]|].
      apply list_elem_of_singleton, ops_among; [by apply marked_both; [intros o; apply fsync_op_among|]|].
      by apply list_elem_of_singleton. }
  set (A := λ f os, map fst (List.filter f (map (fsync_op dir) os)) : list op).
  assert (HA : ∀ f, A f (pending d) = A f os1 ++ A f [OpMove src dst un] ++ A f os2).
  { intros f. unfold A. rewrite Hp, !map_app, filter_app, map_app. cbn [map List.filter]. f_equal.
    by destruct (f _). }
  apply Forall_app in HF as [H1 H2].
  assert (HB : ∀ f os, Forall both os → Forall both (A f os)).
  { intros f os. apply marked_both. apply both_fsync. }
  set (un' := List.filter (λ q, negb (bool_decide (q = dir))) un).
  set (b := match un' with [] => true | _ => false end).
  assert (Hm : ∀ f, A f [OpMove src dst un] = if f (OpMove src dst un', b) then [OpMove src dst un'] else []).
  { intros f. unfold A. cbn. fold un' b. by destruct (f _). }
  change (fsync_disk dir d) with (mkDisk (apply_ops (A snd (pending d)) (durable d)) (A (λ y, negb (snd y)) (pending d))).
  rewrite !HA, !Hm. cbn [snd]. destruct b; cbn [negb]; [right|left]; cbn [durable pending].
  - split; [apply Forall_app; split; by apply both_dst, HB|]. by apply move_through; [apply HB..|].
  - exists (A (λ y, negb (snd y)) os1), un', (A (λ y, negb (snd y)) os2). split_and!; [done|apply Forall_app; split; by apply HB|].
    cbn [app]. apply list_elem_of_singleton, ops_among; [apply Forall_app; split; by apply both_src, HB|].
    by apply list_elem_of_singleton.
Qed.

Lemma op_among_sync p q c o : p ≠ q → op_among p [v] o → op_among p [v] (sync_op q c o).
Proof.
  intros Hne [H|[H1 H2]]; [left; by rewrite sync_op_touches|right].
  split; [by rewrite sync_op_is_move|]. intros u. by rewrite op_at_sync.
Qed.

Lemma moved_sync d q c : moved_in d → q ≠ src ++ [x] → q ≠ dst ++ [x] → moved_in (sync_file_disk q c d).
Proof.
  intros [(os1 & un & os2 & Hp & HF & Hd)|[HF Hd]] Hs Ht; [left|right]; cbn.
  - exists (map (sync_op q c) os1), un, (map (sync_op q c) os2). rewrite Hp, map_app, lookup_alter_ne by congruence.
    split_and!; [done| |done]. rewrite <-map_app. apply Forall_map. eapply List.Forall_impl; [|exact HF].
    intros o [H1 H2]. split; apply op_among_sync; congruence || done.
  - rewrite lookup_alter_ne by congruence. split; [|done]. apply Forall_map. eapply List.Forall_impl; [|exact HF].
    intros o. apply op_among_sync. congruence.
Qed.

Lemma moved_stable (S : path → Prop) : ¬ S (src ++ [x]) → ¬ S (dst ++ [x]) → stable S moved_in.
Proof.
  intros Hs Hd. split.
  - intros d o H Hm Ho. apply moved_add; [done|]. split; left; apply not_true_iff_false; intros Ht; by apply Ho in Ht.
  - intros d dir. apply moved_fsync.
  - intros d q c H Hq. apply moved_sync; [done|by intros ->..].
Qed.

(** At the rename. *)
Lemma moved_start d : definite d (src ++ [x]) v → Forall (λ o, touches o (dst ++ [x]) = false) (pending d) →
  moved_in (add_op (OpMove src dst [parent src; parent dst]) d).
Proof.
  intros [Hd Hp] Hu. left. exists (pending d), [parent src; parent dst], []. rewrite app_nil_r. split_and!; [done| |].
  - apply List.Forall_forall. intros o Ho. rewrite List.Forall_forall in Hp, Hu. split; [by apply Hp|left; by apply Hu].
  - by apply list_elem_of_singleton in Hd.
Qed.
End Moved.

(** Nothing pending names the path. *)
Definition untouched (d : Disk) (p : path) : Prop := Forall (λ o, touches o p = false) (pending d).

Lemma untouched_stable (S : path → Prop) p : ¬ S p → stable S (λ d, untouched d p).
Proof.
  unfold untouched. intros Hp. split; cbn.
  - intros d o H _ Ho. apply Forall_app. split; [done|]. apply Forall_singleton, not_true_iff_false. intros Ht.
    by apply Hp, Ho.
  - intros d dir. apply marked_both. by intros [].
  - intros d q c H _. apply Forall_map. eapply List.Forall_impl; [|exact H]. intros o. by rewrite sync_op_touches.
Qed.

Lemma still_stable (S : path → Prop) p : stable S (λ d, still d p).
Proof.
  split; [intros d o H Ho _; apply still_add; [done|by left]|intros d dir; apply still_fsync|intros d q c H _; by apply still_sync].
Qed.

(** A visible value is stable where no pending move concerns it. *)
Lemma visible_stable_still (S : path → Prop) (N : Disk → Prop) p v :
  stable S N → (∀ d, N d → still d p) → ¬ S p → stable S (λ d, N d ∧ visible d !! p = v).
Proof.
  intros HN Hst Hp. split.
  - intros d o [H1 H2] Ho HS. split; [by apply (st_add _ _ HN)|]. rewrite visible_add.
    rewrite apply_op_at by (by left). rewrite op_at_untouched; [done|].
    apply not_true_iff_false. intros Ht. by apply Hp, HS.
  - intros d dir [H1 H2]. split; [by apply (st_fsync _ _ HN)|]. rewrite visible_fsync_still by auto. done.
  - intros d q c [H1 H2] Hq. split; [by apply (st_sync _ _ HN)|]. rewrite visible_sync_still by auto.
    rewrite bool_decide_eq_false_2; [done|]. by intros ->.
Qed.

Lemma stable_all {I : Type} (S : path → Prop) (F : I → Disk → Prop) : (∀ i, stable S (F i)) → stable S (λ d, ∀ i, F i d).
Proof. intros H. split; intros; by apply H. Qed.

Lemma stable_impl (S : path → Prop) (φ : Prop) (F : Disk → Prop) : stable S F → stable S (λ d, φ → F d).
Proof. intros []. split; eauto. Qed.

(** ** Staging *)

Section Stage.
Context `{U : UuidLib} `{TL : TempLaws} `{HL : Sha256Laws}.
Context `{JM : !Json HeadManifest} `{JP : !Json ActiveCurrentPointer} `{JA : !Json ActiveHeadManifest}.
Variables (root : path) (id : string).

Let dir : path := staging_path_for root id.
Definition staged_file (name : string) : path := dir ++ [name].

Definition in_stage (p : path) : Prop := strictly_below dir p = true.
Definition stage_scope (p : path) : Prop := (p ≠ [] ∧ p `prefix_of` dir) ∨ in_stage p.

Variables (F N : Disk → Prop).
Hypothesis HF : stable in_stage F.
Hypothesis HN : stable in_stage N.
Hypothesis Hstill : ∀ d p, N d → in_stage p → still d p.

Let P (d : Disk) : Prop := F d ∧ N d.

Lemma in_stage_snoc name : in_stage (staged_file name).
Proof. apply strictly_below_spec. by exists [name]. Qed.

Lemma put_in_stage name p : put_scope (staged_file name) p → in_stage p.
Proof.
  intros [->|(n & -> & _)]; [apply in_stage_snoc|]. unfold staged_file. rewrite parent_app. apply in_stage_snoc.
Qed.

Lemma HP : stable in_stage P.
Proof. by apply stable_and. Qed.

Lemma staged_ne (a b : string) : a ≠ b → staged_file a ≠ staged_file b.
Proof. intros Hne E. by apply app_inj_tail in E as [_ ->]. Qed.

(** Writing one staged file through [put_atomic]; what was visible next to it
    becomes durable. *)
Lemma put_staged (A : Disk → Prop) (B : Disk → Prop) name bytes :
  String.prefix temp_prefix name = false → stable (put_scope (staged_file name)) A →
  (∀ d, A d → N d → B (fsync_disk dir d)) →
  triple (λ d, P d ∧ A d) (put_atomic (staged_file name) bytes)
    (λ _ d, P d ∧ B d ∧ definite d (staged_file name) (Some (File bytes true))) P P.
Proof.
  intros Hn HA HB. pose proof (put_in_stage name) as Hsc.
  eapply triple_conseq; [apply (put_atomic_fsync_triple (λ d, F d ∧ A d) N (λ d, F d ∧ B d) None (staged_file name) bytes)|..].
  - unfold staged_file. by destruct dir.
  - by apply not_temp_snoc.
  - apply stable_and; [|done]. by eapply stable_weaken.
  - by eapply stable_weaken.
  - intros d p Hd Hp. apply Hstill; auto.
  - intros d [H1 H2] H3. unfold staged_file. rewrite parent_app. split; [by apply (st_fsync _ _ HF)|by apply HB].
  - intros d [[H1 H2] H3]. split_and!; [done..|]. constructor.
  - intros ? d ((H1 & H2) & H3 & H4). by split_and!.
  - intros d ((H1 & H2) & H3 & H4). by split.
  - intros d ((H1 & H2) & H3 & H4). by split.
Qed.

(** ** [copy_and_hash] *)

Lemma copy_loop_triple fuel src dst off acc b :
  in_stage dst →
  triple (λ d, P d ∧ visible d !! dst = Some (File acc b)) (copy_loop fuel src dst off (sha_update sha_new acc))
    (λ s d, P d ∧ ∃ h b', visible d !! dst = Some (File h b') ∧ s = sha_update sha_new h) P P.
Proof.
  intros Hdst. assert (HPd : stable (λ p, p = dst) P) by (eapply stable_weaken; [apply HP|by intros p ->]).
  revert off acc b. induction fuel as [|fuel IH]; intros off acc b; cbn [copy_loop].
  { apply triple_throw. by intros d []. }
  eapply triple_bind with (R := λ _ d, P d ∧ visible d !! dst = Some (File acc b)).
  { apply triple_map_throw. eapply triple_conseq; [apply (visible_read (λ d, P d ∧ visible d !! dst = Some (File acc b)))|..];
      try done; by intros d []. }
  intros buf. destruct (Nat.eqb_spec (List.length buf) 0) as [E|E].
  - apply triple_ret. intros d [H1 H2]. split; [done|]. by exists acc, b.
  - eapply triple_bind; [apply triple_map_throw, write_file_triple, HPd|]. intros ?. cbv beta.
    rewrite sha_update_app. apply IH.
Qed.

Lemma copy_and_hash_triple src dst :
  in_stage dst →
  triple P (copy_and_hash src dst)
    (λ s d, P d ∧ ∃ h, visible d !! dst = Some (File h true) ∧ s = sha256_hex_of h) P P.
Proof.
  intros Hdst. assert (HPd : stable (λ p, p = dst) P) by (eapply stable_weaken; [apply HP|by intros p ->]).
  unfold copy_and_hash. eapply triple_bind with (R := λ _, P); [apply triple_map_throw, visible_read|]. intros ?.
  eapply triple_bind with (R := λ _ d, P d ∧ visible d !! dst = Some (File [] false)).
  { apply triple_map_throw, triple_syscall; [done|done|]. intros d Hd. unfold stat.
    destruct (visible d !! dst) as [[| |]|]; try done;
      (destruct (parent_ok dst d); [|done]; split; [by apply (frame_set P dst HPd)|rewrite visible_add; apply lookup_insert_eq]). }
  intros ?. eapply triple_bind with (R := λ s d, P d ∧ ∃ h b', visible d !! dst = Some (File h b') ∧ s = sha_update sha_new h).
  { intros w Hw. pose proof (copy_loop_triple (2 + file_len src (visible (disk w)) / COPY_CHUNK) src dst 0 [] false Hdst) as Hl.
    rewrite sha_update_nil in Hl. by apply Hl. }
  intros s. eapply triple_bind with (R := λ _ d, P d ∧ ∃ h, visible d !! dst = Some (File h true) ∧ s = sha_update sha_new h).
  - apply triple_map_throw. intros w [Hw (h & b' & Hv & ->)].
    pose proof (sync_file_triple P dst HPd h b' (λ d H, Hstill d dst (proj2 H) Hdst) w (conj Hw Hv)) as H1.
    destruct (sync_file dst w) as [w' [u0|e0|]]; [|done..]. destruct H1 as [H1 H2]. split; [done|]. by exists h.
  - intros ?. apply triple_ret. intros d [Hd (h & Hv & ->)]. split; [done|]. by exists h.
Qed.

(** ** The staged source *)

(** Both files are durable, with the digests the source reports. *)
Definition source_staged (head_sha labels_sha : string) (d : Disk) : Prop :=
  ∃ h l, definite d (staged_file ACTIVE_HEAD_FILENAME) (Some (File h true)) ∧
    definite d (staged_file ACTIVE_LABELS_FILENAME) (Some (File l true)) ∧
    head_sha = sha256_hex_of h ∧ labels_sha = sha256_hex_of l.

Lemma not_own_scope (a b : string) :
  String.prefix temp_prefix b = false → a ≠ b → ¬ put_scope (staged_file a) (staged_file b).
Proof.
  intros Hb Hne [E|(n & E & Hn)]; [by apply (staged_ne b a)|]. unfold staged_file in E. rewrite parent_app in E.
  apply app_inj_tail in E as [_ <-]. congruence.
Qed.

Lemma stage_labels head_sha bytes (A : Disk → Prop) (Hd : list ascii) :
  head_sha = sha256_hex_of Hd →
  stable (put_scope (staged_file ACTIVE_LABELS_FILENAME)) A →
  (∀ d, A d → N d → definite (fsync_disk dir d) (staged_file ACTIVE_HEAD_FILENAME) (Some (File Hd true))) →
  triple (λ d, P d ∧ A d) (put_atomic (staged_file ACTIVE_LABELS_FILENAME) bytes)
    (λ _ d, P d ∧ source_staged head_sha (sha256_hex_of bytes) d) P P.
Proof.
  intros Hsha HA HB. eapply triple_conseq; [apply (put_staged A
    (λ d, definite d (staged_file ACTIVE_HEAD_FILENAME) (Some (File Hd true))) ACTIVE_LABELS_FILENAME bytes)|..]; try done.
  intros ? d (H1 & H2 & H3). split; [done|]. by exists Hd, bytes.
Qed.

Lemma stage_head_origin_triple ws_dir ws head :
  triple P (stage_head_origin ws_dir ws head dir)
    (λ ss d, P d ∧ source_staged (ss_head_sha256 ss) (ss_labels_sha256 ss) d) P P.
Proof.
  unfold stage_head_origin. eapply triple_bind with (R := λ _, P).
  { apply triple_map_throw. unfold read_head_manifest. eapply triple_bind; [apply read_file_triple|]. intros b.
    eapply triple_bind with (R := λ _, P); [eapply triple_conseq; [apply parse_triple|..]; try done; by intros ? d []|].
    intros m. destruct (HeadManifest_validate m); [by apply triple_ret|by apply triple_throw]. }
  intros m. destruct (HeadManifest_validate m); [|by apply triple_throw].
  eapply triple_bind with (R := λ _, P); [by intros w Hw|]. intros []; cbn [negb]; [|by apply triple_throw].
  eapply triple_bind; [apply triple_map_throw, copy_and_hash_triple, in_stage_snoc|]. intros s. cbv beta.
  destruct (negb (String.eqb s (hm_sha256 m))); [apply triple_throw; by intros d []|].
  apply triple_conseq with (P' := λ d, ∃ h, s = sha256_hex_of h ∧
      (P d ∧ visible d !! staged_file ACTIVE_HEAD_FILENAME = Some (File h true)))
    (Q' := λ ss d, P d ∧ source_staged (ss_head_sha256 ss) (ss_labels_sha256 ss) d) (X' := P) (C' := P); try done.
  2:{ intros d [H1 (h & H2 & H3)]. by exists h. }
  apply triple_ex. intros h. apply triple_pure. intros ->.
  eapply triple_bind.
  { apply triple_map_throw. eapply triple_conseq; [apply (stage_labels (sha256_hex_of h) (labels_to_text (hm_labels m))
      (λ d, N d ∧ visible d !! staged_file ACTIVE_HEAD_FILENAME = Some (File h true)) h); [done|..]|..]; [| |by intros d [[H1 H2] H3]|intros ? d H1; exact H1|done|done].
    - apply visible_stable_still; [eapply stable_weaken; [exact HN|apply put_in_stage]|intros d Hd; apply Hstill; [done|apply in_stage_snoc]|].
      by apply not_own_scope.
    - intros d [H1 H2] H3. apply definite_of_fsync_still; [apply Hstill; [done|apply in_stage_snoc]|done|apply parent_app]. }
  intros ?. destruct (u32_try_from _) as [n|].
  - by apply triple_ret.
  - apply triple_throw. by intros d [].
Qed.

Lemma stage_default_origin_triple src :
  triple P (stage_default_origin src dir)
    (λ ss d, P d ∧ source_staged (ss_head_sha256 ss) (ss_labels_sha256 ss) d) P P.
Proof.
  unfold stage_default_origin. eapply triple_bind with (R := λ _, P); [apply triple_map_throw, visible_read|]. intros mpk.
  eapply triple_bind with (R := λ _, P); [apply triple_map_throw, visible_read|]. intros labels.
  destruct (negb (utf8_ok labels)); [by apply triple_throw|].
  destruct (bundled_labels labels) as [|l0 ls]; [by apply triple_throw|].
  destruct (u32_try_from _) as [n|]; [|by apply triple_throw].
  eapply triple_bind with (R := λ _ d, P d ∧ definite d (staged_file ACTIVE_HEAD_FILENAME) (Some (File mpk true))).
  { apply triple_map_throw. eapply triple_conseq; [apply (put_staged (λ _, True) (λ _, True) ACTIVE_HEAD_FILENAME mpk)|..]; try done.
    intros ? d (H1 & _ & H3). by split. }
  intros ?. eapply triple_bind.
  { apply triple_map_throw. apply (stage_labels (sha256_hex_of mpk) labels
      (λ d, definite d (staged_file ACTIVE_HEAD_FILENAME) (Some (File mpk true))) mpk); [done|..].
    - apply definite_stable. by apply not_own_scope.
    - intros d H1 _. by apply among_fsync. }
  intros ?. by apply triple_ret.
Qed.

(** ** The whole staging step *)

(** The staged directory is a generation for its manifest. *)
Definition staged_ok {Candidate : Type} (res : ActivationResult (Candidate := Candidate)) (d : Disk) : Prop :=
  ar_activation_id res = id ∧ ActiveHeadManifest_validate (ar_manifest res) = Some (Ok tt) ∧
  ∃ mb, to_vec (ar_manifest res) = Some mb ∧
    definite d (staged_file ACTIVE_MANIFEST_FILENAME) (Some (File mb true)) ∧
    source_staged (am_sha256 (ar_manifest res)) (am_labels_sha256 (ar_manifest res)) d.

Lemma source_staged_stable hs ls name :
  name ≠ ACTIVE_HEAD_FILENAME → name ≠ ACTIVE_LABELS_FILENAME →
  stable (put_scope (staged_file name)) (source_staged hs ls).
Proof.
  intros H1 H2.
  assert (Hst : ∀ h l, stable (put_scope (staged_file name)) (λ d,
    definite d (staged_file ACTIVE_HEAD_FILENAME) (Some (File h true)) ∧
    definite d (staged_file ACTIVE_LABELS_FILENAME) (Some (File l true)))).
  { intros h l. apply stable_and; apply definite_stable; by apply not_own_scope. }
  split.
  - intros d o (h & l & E1 & E2 & E3) Hm Ho. exists h, l.
    destruct (st_add _ _ (Hst h l) d o (conj E1 E2) Hm Ho). done.
  - intros d p (h & l & E1 & E2 & E3). exists h, l. destruct (st_fsync _ _ (Hst h l) d p (conj E1 E2)). done.
  - intros d q c (h & l & E1 & E2 & E3) Hq. exists h, l. destruct (st_sync _ _ (Hst h l) d q c (conj E1 E2) Hq). done.
Qed.

Lemma stage_rest_triple {Candidate : Type} (pending : PendingActivation) (loader : HeadInnerLoader (Candidate := Candidate)) :
  triple P
    (staged ← match pa_origin_input pending with
              | OriginInputHead ws_dir ws head_id => stage_head_origin ws_dir ws head_id dir
              | OriginInputDefault source => stage_default_origin source dir
              end;
     runtime_head_id ← runtime_head_id_for (pa_origin_input pending);
     let manifest := mkActiveHeadManifest (ss_origin staged) runtime_head_id (ss_head_sha256 staged)
       (ss_labels_sha256 staged) (ss_n_classes staged) (ss_labels staged) (pa_now_rfc3339 pending) in
     match ActiveHeadManifest_validate manifest with
     | None => panic
     | Some (Err e) => throw (AE_Validation e)
     | Some (Ok _) =>
       candidate ← with_tree (λ m, lift (map_err AE_Preload (loader m
         (dir ++ [ACTIVE_HEAD_FILENAME]) (dir ++ [ACTIVE_LABELS_FILENAME]) runtime_head_id)));
       manifest_bytes ← map_throw AE_File (serialize manifest);
       _ ← map_throw AE_File (put_atomic (dir ++ [ACTIVE_MANIFEST_FILENAME]) manifest_bytes);
       mret (mkActivationResult manifest id candidate)
     end)
    (λ res d, P d ∧ staged_ok res d) P P.
Proof.
  eapply triple_bind with (R := λ ss d, P d ∧ source_staged (ss_head_sha256 ss) (ss_labels_sha256 ss) d).
  { destruct (pa_origin_input pending); [apply stage_head_origin_triple|apply stage_default_origin_triple]. }
  intros ss. set (Q := λ d, P d ∧ source_staged (ss_head_sha256 ss) (ss_labels_sha256 ss) d).
  eapply triple_bind with (R := λ _, Q).
  { unfold runtime_head_id_for. destruct (pa_origin_input pending); [by apply triple_ret|].
    destruct default_runtime_head_id; [by apply triple_ret|..]; by intros w []. }
  intros rid. cbv zeta. set (am := mkActiveHeadManifest _ _ _ _ _ _ _).
  destruct (ActiveHeadManifest_validate am) as [[[]|e]|] eqn:Hv; [|apply triple_throw; by intros d []|by intros w []].
  eapply triple_bind with (R := λ _, Q).
  { intros w Hw. unfold with_tree. destruct (loader _ _ _ _); cbn; [done|by destruct Hw]. }
  intros c. eapply triple_bind with (R := λ b d, Q d ∧ to_vec am = Some b).
  { apply triple_map_throw. eapply triple_conseq; [apply (serialize_triple Q)|..]; try done; by intros d []. }
  intros b. apply (triple_extract (to_vec am = Some b) _ Q); [by intros d []|]. intros Hb.
  eapply triple_bind with (R := λ _ d, P d ∧ source_staged (ss_head_sha256 ss) (ss_labels_sha256 ss) d ∧
    definite d (staged_file ACTIVE_MANIFEST_FILENAME) (Some (File b true))).
  - apply triple_map_throw. apply (put_staged (source_staged (ss_head_sha256 ss) (ss_labels_sha256 ss))
      (source_staged (ss_head_sha256 ss) (ss_labels_sha256 ss)) ACTIVE_MANIFEST_FILENAME b); [done|by apply source_staged_stable|].
    intros d H1 _. apply (st_fsync _ _ (source_staged_stable (ss_head_sha256 ss) (ss_labels_sha256 ss) ACTIVE_MANIFEST_FILENAME ltac:(done) ltac:(done)) d dir H1).
  - intros ?. apply triple_ret. intros d (H1 & H2 & H3). split; [done|]. split_and!; [done|done|]. by exists b.
Qed.
End Stage.

(** ** The publish *)

Section Publish.
Context `{U : UuidLib} `{TL : TempLaws} `{HL : Sha256Laws}.
Context `{JM : !Json HeadManifest} `{JP : !Json ActiveCurrentPointer} `{JA : !Json ActiveHeadManifest}.
Variables (root : path) (id : string).

Let stg : path := staging_path_for root id.
Let gen : path := active_generation_dir root id.
Let current : path := active_current_path root.

(** What an activation may touch: the two parents it creates, its staging and
    generation directories, and the pointer with its temporaries. *)
Definition activation_scope (p : path) : Prop :=
  stage_scope root id p ∨ (p ≠ [] ∧ p `prefix_of` active_generations_dir root) ∨
  below gen p = true ∨ put_scope current p.

Lemma stg_eq : stg = active_dir root ++ [ACTIVE_TMP_DIR_NAME; id].
Proof. unfold stg, staging_path_for, active_staging_dir. by rewrite <-app_assoc. Qed.
Lemma gen_eq : gen = active_dir root ++ [ACTIVE_GENERATIONS_DIR_NAME; id].
Proof. unfold gen, active_generation_dir, active_generations_dir. by rewrite <-app_assoc. Qed.

Lemma in_stage_below p : in_stage root id p → below stg p = true.
Proof. intros (k & _ & ->)%strictly_below_spec. apply below_true. by exists k. Qed.

Lemma below_rest (q : path) (a b : string) : below (active_dir root ++ [a; b]) q = true → ∃ k, q = active_dir root ++ a :: b :: k.
Proof. intros [k ->]%below_true. exists k. by rewrite <-app_assoc. Qed.

Lemma put_current_rest p : put_scope current p → ∃ n : string, p = active_dir root ++ [n].
Proof.
  intros [->|(n & -> & _)]; [by eexists|]. unfold current, active_current_path. rewrite parent_app. by exists n.
Qed.

Lemma prefix_rest (p : path) (a b : string) k : p `prefix_of` active_dir root ++ [a] → p = active_dir root ++ b :: k →
  b = a ∧ k = [].
Proof. intros Hp ->. apply prefix_app_inv in Hp. apply prefix_cons_inv_1 in Hp as Ha. by apply prefix_cons_inv_2, prefix_nil_inv in Hp. Qed.

Lemma not_stage_scope (p : path) (a b : string) k :
  p = active_dir root ++ a :: k → a ≠ ACTIVE_TMP_DIR_NAME → ¬ stage_scope root id p.
Proof.
  intros -> Ha [[_ Hp]|Hp%in_stage_below].
  - fold stg in Hp. rewrite stg_eq in Hp. apply prefix_app_inv, prefix_cons_inv_1 in Hp. done.
  - rewrite stg_eq in Hp. apply below_rest in Hp as [k' E]. apply app_inv_head in E. congruence.
Qed.

Lemma current_not_staged : ¬ stage_scope root id current.
Proof. by eapply (not_stage_scope _ ACTIVE_CURRENT_FILENAME "" []). Qed.

Lemma generation_eq x : generation_file root id x = active_dir root ++ [ACTIVE_GENERATIONS_DIR_NAME; id; x].
Proof. unfold generation_file. fold gen. by rewrite gen_eq, <-app_assoc. Qed.
Lemma staged_eq x : staged_file root id x = active_dir root ++ [ACTIVE_TMP_DIR_NAME; id; x].
Proof. unfold staged_file. fold stg. by rewrite stg_eq, <-app_assoc. Qed.

Lemma generation_not_staged x : ¬ stage_scope root id (generation_file root id x).
Proof. by eapply (not_stage_scope _ ACTIVE_GENERATIONS_DIR_NAME "" [id; x]); [apply generation_eq|]. Qed.

(** The directories [create_dir_all] may make on the way to [generations/]. *)
Definition generations_scope (p : path) : Prop := p ≠ [] ∧ p `prefix_of` active_generations_dir root.

Lemma not_generations_scope (p : path) (a : string) k :
  p = active_dir root ++ a :: k → a ≠ ACTIVE_GENERATIONS_DIR_NAME ∨ k ≠ [] → ¬ generations_scope p.
Proof. intros E Hne [_ Hp]. by destruct (prefix_rest _ _ _ _ Hp E), Hne. Qed.

Lemma not_put_current (p : path) (a b : string) k : p = active_dir root ++ a :: b :: k → ¬ put_scope current p.
Proof. intros -> [n E]%put_current_rest. by apply app_inv_head in E. Qed.

Variables (L : list (path * list (option node))) (old : option node).
Hypothesis Hdisj : Forall (λ x, ¬ activation_scope (fst x)) L.

Definition before_publish (d : Disk) : Prop := facts L d ∧ definite d current old.

Lemma others_stable (S : path → Prop) : (∀ p, S p → activation_scope p) → stable S (facts L).
Proof. intros HS. apply facts_stable. eapply List.Forall_impl; [|exact Hdisj]. cbn. intros x Hx Hs. by apply Hx, HS. Qed.

Lemma before_publish_stable (S : path → Prop) : (∀ p, S p → activation_scope p) → ¬ S current → stable S before_publish.
Proof. intros HS Hc. apply stable_and; [by apply others_stable|by apply definite_stable]. Qed.

(** ** The staging step *)

Definition fresh_generation (d : Disk) : Prop := ∀ x, untouched d (generation_file root id x).

Lemma fresh_stable (S : path → Prop) : (∀ x, ¬ S (generation_file root id x)) → stable S fresh_generation.
Proof. intros HS. apply stable_all. intros x. by apply untouched_stable. Qed.

Let Fr (d : Disk) : Prop := before_publish d ∧ fresh_generation d.

Lemma frame_stage : stable (stage_scope root id) Fr.
Proof.
  apply stable_and; [apply before_publish_stable; [by left|apply current_not_staged]|apply fresh_stable, generation_not_staged].
Qed.

Lemma stage_dir_stable : stable (in_stage root id) (λ d, no_moves d ∧ visible d !! stg = Some Dir).
Proof.
  apply visible_stable_still; [apply no_moves_stable|intros d; apply no_moves_still|].
  intros Hs. unfold in_stage in Hs. fold stg in Hs. by rewrite strictly_below_irrefl in Hs.
Qed.

Lemma stage_triple {Candidate : Type} now origin (loader : HeadInnerLoader (Candidate := Candidate)) :
  triple (λ d, Fr d ∧ no_moves d)
    (stage_and_validate_activation id (mkPendingActivation root origin now) loader)
    (λ res d, (Fr d ∧ no_moves d ∧ visible d !! stg = Some Dir) ∧ staged_ok root id res d) before_publish before_publish.
Proof.
  assert (HS : stable (stage_scope root id) (λ d, Fr d ∧ no_moves d)) by (apply stable_and; [apply frame_stage|apply no_moves_stable]).
  assert (Hw : ∀ d, Fr d ∧ no_moves d → before_publish d) by (by intros d [[]]).
  unfold stage_and_validate_activation. cbn [pa_root pa_origin_input pa_now_rfc3339].
  eapply triple_bind with (R := λ _ d, Fr d ∧ no_moves d).
  { apply triple_map_throw. eapply triple_conseq; [apply (mkdir_there_triple _ (stage_scope root id) [] (active_staging_dir root) HS)|..];
      [|unfold active_staging_dir; by destruct (active_dir root)|done|by intros ? d []|exact Hw|exact Hw].
    intros q Hq Hp. left. split; [done|]. etrans; [exact Hp|]. by eexists. }
  intros ?. eapply triple_bind with (R := λ _ d, Fr d ∧ no_moves d); [by intros w Hd|].
  intros [|]; [by apply triple_throw|]. eapply triple_bind.
  { apply triple_map_throw. eapply triple_conseq; [apply (mkdir_there_triple _ (stage_scope root id) [] stg HS)|..];
      [by left|unfold stg, staging_path_for; by destruct (active_staging_dir root)|done|intros ? d Hd; exact Hd|exact Hw|exact Hw]. }
  intros ?. cbv beta. eapply triple_conseq;
    [refine (stage_rest_triple root id Fr (λ d, no_moves d ∧ visible d !! stg = Some Dir) _ _ _
       (mkPendingActivation root origin now) loader)|..].
  - eapply stable_weaken; [apply frame_stage|by right].
  - apply stage_dir_stable.
  - intros d p [Hn _] _. by apply no_moves_still.
  - by intros d [[] ].
  - by intros ? d [].
  - by intros d [[]].
  - by intros d [[]].
Qed.

(** ** The publish step *)

Variables (mb hb lb : list ascii).

Let three (file_at : string → list ascii → Disk → Prop) (d : Disk) : Prop :=
  file_at ACTIVE_MANIFEST_FILENAME mb d ∧ file_at ACTIVE_HEAD_FILENAME hb d ∧ file_at ACTIVE_LABELS_FILENAME lb d.

(** The three files in staging, and where the rename puts them. *)
Definition staged_three : Disk → Prop := three (λ x c d, definite d (staged_file root id x) (Some (File c true))).
Definition moved_three : Disk → Prop := three (λ x c, moved_in stg gen x (Some (File c true))).

Definition new_pointer : list (option node) :=
  match to_vec (mkActiveCurrentPointer id) with Some pb => [Some (File pb true)] | None => [] end.

Definition cut (d : Disk) : Prop := facts L d ∧ among d current (new_pointer ++ [old]).

Lemma before_cut d : before_publish d → cut d.
Proof. intros [H1 H2]. split; [done|]. eapply among_weaken; [exact H2|]. intros v Hv. apply elem_of_app. by right. Qed.

Lemma three_stable (S : path → Prop) (f : string → list ascii → Disk → Prop) :
  (∀ x c, stable S (f x c)) → stable S (three f).
Proof. intros Hf. unfold three. by repeat apply stable_and. Qed.

Lemma three_impl (f g : string → list ascii → Disk → Prop) d d' : (∀ x c, f x c d → g x c d') → three f d → three g d'.
Proof. intros Hfg (H1 & H2 & H3). by split_and!; apply Hfg. Qed.

Definition off_pointer (d : Disk) : Prop := ∀ p, put_scope current p → still d p.

Lemma off_pointer_stable (S : path → Prop) : stable S off_pointer.
Proof. apply stable_all. intros p. apply stable_impl, still_stable. Qed.

Lemma moved_pointer_stable x v : stable (put_scope current) (moved_in stg gen x v).
Proof.
  apply moved_stable.
  - eapply not_put_current. rewrite stg_eq, <-app_assoc. reflexivity.
  - eapply not_put_current. rewrite gen_eq, <-app_assoc. reflexivity.
Qed.

Let After (d : Disk) : Prop := facts L d ∧ moved_three d.

Lemma after_stable : stable (put_scope current) After.
Proof.
  apply stable_and; [apply others_stable; intros p Hp; by do 3 right|]. apply three_stable. intros x c. apply moved_pointer_stable.
Qed.

Let Ready (d : Disk) : Prop :=
  (Fr d ∧ (no_moves d ∧ visible d !! stg = Some Dir)) ∧ staged_three d.

Lemma ready_stable : stable generations_scope Ready.
Proof.
  apply stable_and; [apply stable_and; [apply stable_and|]|].
  - apply before_publish_stable; [intros p Hp; by right; left|].
    eapply (not_generations_scope _ ACTIVE_CURRENT_FILENAME []); [reflexivity|by left].
  - apply fresh_stable. intros x. eapply not_generations_scope; [apply generation_eq|by right].
  - apply visible_stable_still; [apply no_moves_stable|intros d; apply no_moves_still|].
    eapply not_generations_scope; [apply stg_eq|by left].
  - apply three_stable. intros x c. apply definite_stable. eapply not_generations_scope; [apply staged_eq|by left].
Qed.

Lemma move_untouched p : ¬ activation_scope p → p ≠ stg → touches (OpMove stg gen [parent stg; parent gen]) p = false.
Proof.
  intros Hp Hne. cbn. apply orb_false_iff. split; apply not_true_iff_false; intros Hb; apply Hp.
  - left. right. unfold in_stage, strictly_below. fold stg. rewrite Hb. cbn. apply negb_true_iff, bool_decide_eq_false. congruence.
  - right; right; left. done.
Qed.

Lemma move_off (p : path) (a : string) : p = active_dir root ++ [a] → touches (OpMove stg gen [parent stg; parent gen]) p = false.
Proof.
  intros ->. cbn. apply orb_false_iff. split; apply not_true_iff_false; rewrite ?stg_eq, ?gen_eq;
    intros [k E]%below_rest; by apply app_inv_head in E.
Qed.

Lemma stg_scope : activation_scope stg.
Proof. left. left. split; [|done]. rewrite stg_eq. by destruct (active_dir root). Qed.

Lemma publish_move_triple :
  triple Ready (fs_rename stg gen)
    (λ _ d, After d ∧ off_pointer d ∧ definite d current old) before_publish before_publish.
Proof.
  assert (Hw : ∀ d, Ready d → before_publish d) by (by intros d [[[] _] _]).
  apply triple_syscall; [done|done|]. intros d Hd. pose proof (Hw _ Hd) as [HLd Hcur].
  destruct Hd as [[[_ Hfresh] [Hnm Hv]] H3]. unfold stat. rewrite Hv.
  destruct (parent_ok gen d); [|done]. cbn [negb]. destruct (bool_decide _); [done|].
  split_and!; [split| |].
  - apply facts_spec. intros x Hx. apply among_add_other; [by apply (proj1 (facts_spec L d) HLd)|].
    pose proof (proj1 (List.Forall_forall _ _) Hdisj x Hx) as Hns. apply move_untouched; [done|].
    intros E. apply Hns. rewrite E. apply stg_scope.
  - eapply three_impl; [|exact H3]. intros x c Hx. apply moved_start; [exact Hx|apply (Hfresh x)].
  - intros p [n Hp]%put_current_rest. apply still_add; [by apply no_moves_still|]. right. by eapply move_off.
  - apply among_add_other; [done|]. eapply move_off. reflexivity.
Qed.

Definition pointer_published (d : Disk) : Prop :=
  ∃ pb, to_vec (mkActiveCurrentPointer id) = Some pb ∧ definite d current (Some (File pb true)).

Lemma pointer_triple :
  triple (λ d, After d ∧ off_pointer d ∧ definite d current old)
    (write_active_current root (mkActiveCurrentPointer id)) (λ _ d, After d ∧ pointer_published d) cut cut.
Proof.
  set (P := λ d, After d ∧ off_pointer d ∧ definite d current old).
  assert (Hw : ∀ d, P d → cut d) by (intros d ([H1 _] & _ & H2); by apply before_cut).
  unfold write_active_current. eapply triple_bind with (R := λ b d, P d ∧ to_vec (mkActiveCurrentPointer id) = Some b).
  { eapply triple_conseq; [apply (serialize_triple P)|..]; done. }
  intros pb. apply (triple_extract (to_vec (mkActiveCurrentPointer id) = Some pb) _ P); [by intros d []|]. intros Hpb.
  assert (Hc : ∀ d, After d ∧ off_pointer d ∧ facts (held (Some [old]) [Some (File pb true)] current) d → cut d).
  { intros d ([H1 _] & _ & H2). cbn in H2. split; [done|]. unfold new_pointer. rewrite Hpb. by apply facts_one in H2. }
  eapply triple_conseq; [apply (put_atomic_fsync_triple After off_pointer After (Some [old]) current pb)|..].
  - unfold current, active_current_path. by destruct (active_dir root).
  - by apply not_temp_snoc.
  - apply after_stable.
  - apply off_pointer_stable.
  - intros d p Hd. apply Hd.
  - intros d H1 _. by apply (st_fsync _ _ after_stable).
  - intros d (H1 & H2 & H3). split_and!; [done|done|]. cbn. by apply facts_one.
  - intros ? d (H1 & _ & H2). split; [done|]. by exists pb.
  - exact Hc.
  - exact Hc.
Qed.

Lemma publish_generation_triple :
  triple (λ d, (Fr d ∧ (no_moves d ∧ visible d !! stg = Some Dir)) ∧ staged_three d)
    (publish_active_generation root stg id) (λ _ d, After d ∧ pointer_published d) cut cut.
Proof.
  fold Ready. assert (Hw : ∀ d, Ready d → cut d) by (intros d [[[] _] _]; by apply before_cut).
  unfold publish_active_generation. fold gen. eapply triple_bind with (R := λ _, Ready).
  { apply triple_map_throw. eapply triple_conseq; [apply (mkdir_there_triple Ready generations_scope [] (active_generations_dir root) ready_stable)|..];
      [done|unfold active_generations_dir; by destruct (active_dir root)|done|by intros ? d []|exact Hw|exact Hw]. }
  intros ?. eapply triple_bind.
  { apply triple_map_throw. eapply triple_conseq; [apply publish_move_triple|done|intros ? d Hd; exact Hd|apply before_cut|apply before_cut]. }
  intros ?. cbv beta.
  set (R := λ d, After d ∧ off_pointer d ∧ definite d current old). eapply triple_bind with (R := λ _, R).
  { apply triple_map_throw. eapply triple_conseq; [apply (fsync_dir_triple R R)|done|done|..].
    - intros d (H1 & H2 & H3). split_and!; [by apply (st_fsync _ _ after_stable)| |by apply among_fsync].
      by apply (st_fsync _ _ (off_pointer_stable (λ _, True))).
    - intros d ([H1 _] & _ & H2). by apply before_cut.
    - intros d ([H1 _] & _ & H2). by apply before_cut. }
  intros ?. eapply triple_bind; [apply triple_map_throw, pointer_triple|]. intros ?. cbv beta.
  apply triple_map_throw. set (R' := λ d, After d ∧ pointer_published d).
  assert (HR : ∀ d, R' d → cut d).
  { intros d [[H1 _] (pb & E & H2)]. split; [done|]. unfold new_pointer. rewrite E.
    eapply among_weaken; [exact H2|]. intros v ->%list_elem_of_singleton. by left. }
  eapply triple_conseq; [apply (fsync_dir_triple R' R')|done|done|exact HR|exact HR].
  intros d [H1 (pb & E & H2)]. split; [by apply (st_fsync _ _ after_stable)|]. exists pb. split; [done|by apply among_fsync].
Qed.
End Publish.

(** ** The whole activation *)

Section Activation.
Context `{U : UuidLib} `{TL : TempLaws} `{HL : Sha256Laws}.
Context `{JM : !Json HeadManifest} `{JP : !Json ActiveCurrentPointer} `{JA : !Json ActiveHeadManifest}.
Context {Candidate : Type}.
Variables (root : path) (id : string) (L : list (path * list (option node))) (old : option node).
Hypothesis Hdisj : Forall (λ x, ¬ activation_scope root id (fst x)) L.

Abbreviation stg := (staging_path_for root id).
Abbreviation gen := (active_generation_dir root id).

(** The generation the result describes is in place. *)
Definition generation_placed (res : ActivationResult (Candidate := Candidate)) (d : Disk) : Prop :=
  ar_activation_id res = id ∧ ActiveHeadManifest_validate (ar_manifest res) = Some (Ok tt) ∧
  ∃ mb hb lb, to_vec (ar_manifest res) = Some mb ∧ am_sha256 (ar_manifest res) = sha256_hex_of hb ∧
    am_labels_sha256 (ar_manifest res) = sha256_hex_of lb ∧ moved_three root id mb hb lb d.

Lemma activation_triple now origin (loader : HeadInnerLoader (Candidate := Candidate)) :
  triple (λ d, (before_publish root L old d ∧ fresh_generation root id d) ∧ no_moves d)
    (stage_and_publish_activation id now root origin loader)
    (λ res d, facts L d ∧ pointer_published root id d ∧ generation_placed res d) (cut root id L old) (cut root id L old).
Proof.
  pose proof (before_cut root id L old) as Hcut.
  unfold stage_and_publish_activation. eapply triple_bind.
  { eapply triple_conseq; [apply (stage_triple root id L old Hdisj)|done|intros res d Hd; exact Hd|exact Hcut|exact Hcut]. }
  intros res. cbv beta. intros w [Hb (Hid & Hval & mb & Hmb & Dm & hb & lb & Dh & Dl & Sh & Sl)].
  assert (H3 : staged_three root id mb hb lb (disk w)) by (by split_and!).
  rewrite Hid. refine (triple_bind _ _ _ _ (λ res d, facts L d ∧ pointer_published root id d ∧ generation_placed res d)
    (cut root id L old) (cut root id L old) (publish_generation_triple root id L old Hdisj mb hb lb) _ w (conj Hb H3)).
  intros ?. apply triple_ret. intros d [[H1 H2] H4]. split_and!; [done|done|]. split_and!; [done|done|].
  by exists mb, hb, lb.
Qed.

(** What a boot finds afterwards. *)
Lemma placed_served `{JAL : !JsonLaws ActiveHeadManifest} (u : unit) res d :
  validate_activation_id id = Ok u → generation_placed res d → served root id (ar_manifest res) (visible d).
Proof.
  intros Hid (_ & Hval & mb & hb & lb & Hmb & Sh & Sl & Dm & Dh & Dl).
  apply moved_visible in Dm, Dh, Dl. split; [|by exists lb, true; split; [|left]].
  unfold verdict, manifest_of. rewrite Hid. unfold active_manifest_path, generation_file. rewrite Dm.
  rewrite (from_to _ _ Hmb), Hval, Dh, Sh. by rewrite String.eqb_refl.
Qed.

Lemma published_points `{JPL : !JsonLaws ActiveCurrentPointer} d :
  pointer_published root id d → points root id (visible d).
Proof.
  intros (pb & E & Hd%definite_visible). exists pb, true, (mkActiveCurrentPointer id). split_and!; [done|by apply from_to|done].
Qed.
End Activation.

(** ** Properties *)


(** C6: What an activation publishes is what a boot accepts.  When
    [stage_and_publish_activation] returns, [current.json] names the new
    generation, whose manifest on disk is the returned one, parses and validates,
    and whose weights and labels have the digests that manifest records, whatever
    I/O errors were absorbed on the way and whichever origin it was staged from. *)
Theorem activation_publishes_served `{U : UuidLib} `{TL : TempLaws} `{HL : Sha256Laws}
    `{JM : !Json HeadManifest} `{JP : !Json ActiveCurrentPointer} `{JPL : !JsonLaws ActiveCurrentPointer}
    `{JA : !Json ActiveHeadManifest} `{JAL : !JsonLaws ActiveHeadManifest} {Candidate : Type}
    (root : path) (id now : string) (origin : ActivationOriginInput) (loader : HeadInnerLoader (Candidate := Candidate))
    (w : World) (Hid : validate_activation_id id = Ok tt)
    (Hnm : no_moves (disk w)) (Hfresh : fresh_generation root id (disk w))
    (Hcur : Forall (λ o, touches o (active_current_path root) = false) (pending (disk w))) :
  match stage_and_publish_activation id now root origin loader w with
  | (w', Ret res) =>
      ar_activation_id res = id ∧ points root id (visible (disk w')) ∧ served root id (ar_manifest res) (visible (disk w'))
  | _ => True
  end.
Proof.
  pose proof (activation_triple root id [] (durable (disk w) !! active_current_path root) (List.Forall_nil _) now origin loader w) as H0.
  cbv beta in H0. destruct (stage_and_publish_activation id now root origin loader w) as [w' [res|e|]]; [|done..].
  destruct H0 as (_ & H1 & H2).
  { split; [|done]. split; [|done]. split; [constructor|]. split; [by left|].
    eapply List.Forall_impl; [|exact Hcur]. intros o Ho. by left. }
  split; [apply H2|]. split; [by apply published_points|]. by eapply placed_served.
Qed.

(** ** Switching from a trained head to the bundled one *)

Section PublishScenario.
#[local] Instance ps_uuid : UuidLib := text_uuid_lib.
#[local] Instance ps_temp : TempLib := long_temp_lib.
#[local] Instance ps_sha : Sha256Lib := identity_sha.
#[local] Instance ps_pointer_json : Json ActiveCurrentPointer := bits_json ActiveCurrentPointer.
#[local] Instance ps_active_json : Json ActiveHeadManifest := bits_json ActiveHeadManifest.
#[local] Instance ps_manifest_json : Json HeadManifest := bits_json HeadManifest.

Definition ps_pointer (id : string) : node := File (bits (encode (mkActiveCurrentPointer id))) true.

Definition ps_tree : fs := list_to_map (
  bs_generation "a1" "new" "new" "2024-03" (labels_to_text ["x"; "y"]%string) ++
  [ ([], Dir); (active_dir [], Dir); (active_generations_dir [], Dir); (active_current_path [], ps_pointer "a1");
    (["head.mpk"]%string, File (bytes_of "bundled") true);
    (["labels.txt"]%string, File (labels_to_text ["dog"; "cat"]%string) true) ]).

Definition ps_run (cut_at : option nat) (faults : list bool) : World * outcome ActivationError (ActivationResult (Candidate := unit)) :=
  stage_and_publish_activation "b2" "now" [] (OriginInputDefault (mkDefaultHeadSource ["head.mpk"]%string ["labels.txt"]%string))
    (λ _ _ _ _, Ok tt) (mkWorld (mkDisk ps_tree []) cut_at faults).

(** The files of the served generation. *)
Definition ps_previous : list (path * list (option node)) :=
  map (λ x, (generation_file [] "a1" x, [ps_tree !! generation_file [] "a1" x]))
    [ACTIVE_MANIFEST_FILENAME; ACTIVE_HEAD_FILENAME; ACTIVE_LABELS_FILENAME].

Lemma ps_disjoint : Forall (λ x, ¬ activation_scope [] "b2" (fst x)) ps_previous.
Proof.
  apply Forall_map, List.Forall_forall. intros x _. cbn [fst]. rewrite generation_eq. intros [[[_ H0]|H0]|[[_ H0]|[H0|H0]]].
  - apply prefix_length in H0. cbn in H0. lia.
  - apply in_stage_below in H0. rewrite stg_eq in H0. apply below_rest in H0 as [k E]. discriminate E.
  - apply prefix_length in H0. cbn in H0. lia.
  - rewrite gen_eq in H0. apply below_rest in H0 as [k E]. discriminate E.
  - apply put_current_rest in H0 as [n E]. discriminate E.
Qed.

Lemma ps_fresh faults cut_at : fresh_generation [] "b2" (disk (mkWorld (mkDisk ps_tree []) cut_at faults)).
Proof. intros x. constructor. Qed.


Lemma activation_publishes_served_witness :
  match ps_run None [] with
  | (w', Ret res) => ar_activation_id res = "b2"%string ∧ points [] "b2" (visible (disk w')) ∧
      served [] "b2" (ar_manifest res) (visible (disk w')) ∧ am_labels (ar_manifest res) = ["dog"; "cat"]%string
  | _ => False
  end.
Proof.
  pose proof (activation_publishes_served (T := ps_temp) (TL := long_temp_laws) (H := ps_sha) (HL := identity_sha_laws)
    (JP := ps_pointer_json) (JA := ps_active_json)
    (JPL := bits_json_laws ActiveCurrentPointer) (JAL := bits_json_laws ActiveHeadManifest) [] "b2" "now"
    (OriginInputDefault (mkDefaultHeadSource ["head.mpk"]%string ["labels.txt"]%string)) (λ _ _ _ _, Ok tt)
    (mkWorld (mkDisk ps_tree []) None [])) as H0.
  fold (ps_run None []) in H0.
  assert (Hr : (match ps_run None [] with (_, Ret res) => am_labels (ar_manifest res) | _ => [] end) = ["dog"; "cat"]%string)
    by (vm_compute; reflexivity).
  destruct (ps_run None []) as [w' [res|e|]]; [|done..].
  destruct H0 as (H1 & H2 & H3); [reflexivity|constructor|apply (ps_fresh [] None)|constructor|]. by split_and!.
Defined.
End PublishScenario.
