(* ===== verification/WorkspaceRegistry.v ===== *)
(** * The workspace lifecycle ([src/modules/file_mgr/registry.rs])

    Names and tags, the create, patch and delete of workspaces, their listing
    and their summary.  [registry_lock] makes create and patch one uninterrupted
    program each.  The Unicode case table of [str::to_lowercase] is a parameter
    ([CharTables]). *)

From stdpp Require Import pretty.
From S2P Require Import Prelude Ids AssetPath Common Text Workspace Broadcast JobRegistry FileSystem FsLogic FsAtomic Schema Mgr Staging AssetTree Dataset.

Class CharTables := { to_lowercase : string → string }.

(** ** Names and tags *)

(** A first, or last, character with the [White_Space] property. *)
Definition starts_with_whitespace (s : list ascii) : bool :=
  is_whitespace (take 1 s) || is_whitespace (take 2 s) || is_whitespace (take 3 s).
Definition ends_with_whitespace (s : list ascii) : bool :=
  let n := List.length s in
  is_whitespace (drop (n - 1) s) || is_whitespace (drop (n - 2) s) || is_whitespace (drop (n - 3) s).

(** [chars().any(char::is_control)]: U+0000 to U+001F and U+007F to U+009F. *)
Fixpoint has_control (s : list ascii) : bool :=
  match s with
  | [] => false
  | a :: s =>
      (byte_val a <? 32)%Z || (byte_val a =? 127)%Z ||
      ((byte_val a =? 194)%Z && match s with b :: _ => (byte_val b <? 160)%Z | [] => false end) ||
      has_control s
  end.

Definition has_separator (s : list ascii) : bool :=
  existsb (λ c, Ascii.eqb c "000" || Ascii.eqb c "/" || Ascii.eqb c "\") s.

Definition validate_workspace_name (name : string) : result FileError unit :=
  let s := bytes_of name in
  if (String.length name =? 0) then Err (FE_InvalidName name)
  else if (128 <? String.length name) then Err (FE_InvalidName name)
  else if has_separator s then Err (FE_InvalidName name)
  else if starts_with_whitespace s then Err (FE_InvalidName name)
  else if ends_with_whitespace s then Err (FE_InvalidName name)
  else if has_control s then Err (FE_InvalidName name)
  else Ok tt.

Definition MAX_WORKSPACE_TAGS : nat := 32.
Definition MAX_TAG_BYTES : nat := 64.

(** [char::is_ascii_whitespace]: no vertical tab. *)
Definition is_ascii_whitespace (c : ascii) : bool :=
  let b := byte_val c in ((b =? 32) || (b =? 9) || (b =? 10) || (b =? 12) || (b =? 13))%Z.

Fixpoint drop_while {A} (p : A → bool) (l : list A) : list A :=
  match l with [] => [] | a :: l' => if p a then drop_while p l' else l end.
Definition trim_matches (p : ascii → bool) (s : list ascii) : list ascii :=
  rev (drop_while p (rev (drop_while p s))).

Section Registry.
Context `{U : UuidLib} `{B : !Broadcast RegistryEvent} `{CT : CharTables}.
Context `{HJ : !HashIter JobId JobEntry} `{HL : !HashIter Z (list JobReference)}.
Context `{T : TempLib}.
Context `{JC : !Json WorkspaceCore} `{JH : !Json HeadIndex} `{JT : !Json DeleteTombstone}.
Variable cfg : JobRegistryCfg.
(** The daemon's workspace root. *)
Variable root : path.

Abbreviation workspace_dir := (workspace_dir root).

(** One tag, trimmed. *)
Definition validate_tag (raw : string) : result FileError string :=
  let trimmed := string_of_list_ascii (trim_matches is_ascii_whitespace (bytes_of raw)) in
  let s := bytes_of trimmed in
  if (String.length trimmed =? 0)
  then Err (FE_InvalidName ("tag empty after ASCII whitespace trim: " ++ quoted raw))
  else if (MAX_TAG_BYTES <? String.length trimmed)
  then Err (FE_InvalidName ("tag exceeds " ++ pretty MAX_TAG_BYTES ++ " bytes: " ++ quoted trimmed))
  else if has_separator s
  then Err (FE_InvalidName ("tag contains NUL or path separator: " ++ quoted trimmed))
  else if has_control s
  then Err (FE_InvalidName ("tag contains control character: " ++ quoted trimmed))
  else Ok trimmed.

Fixpoint validate_tags_loop (tags : list string) (out : list string) (seen_lower : gset string)
    : result FileError (list string) :=
  match tags with
  | [] => Ok out
  | raw :: tags =>
      match validate_tag raw with
      | Err e => Err e
      | Ok trimmed =>
          let lower := to_lowercase trimmed in
          if bool_decide (lower ∈ seen_lower)
          then Err (FE_InvalidName ("duplicate tag (case-insensitive): " ++ quoted trimmed))
          else validate_tags_loop tags (out ++ [trimmed]) ({[ lower ]} ∪ seen_lower)
      end
  end.

Definition validate_workspace_tags (tags : list string) : result FileError (list string) :=
  if (MAX_WORKSPACE_TAGS <? List.length tags)
  then Err (FE_InvalidName ("tags exceed max " ++ pretty MAX_WORKSPACE_TAGS ++ ": got " ++ pretty (List.length tags)))
  else validate_tags_loop tags [] ∅.

(** ** Listing *)

Definition ensure_root_layout : M FileError unit := map_throw (io_err root) (create_dir_all root).

Fixpoint list_entries (workspaces_root : path) (entries : list string) (out : list WorkspaceId)
    : M FileError (list WorkspaceId) :=
  match entries with
  | [] => mret out
  | name :: entries =>
      ft ← attempt (symlink_metadata (workspaces_root ++ [name]));
      match ft with
      | Ok Dir =>
          match WorkspaceId_parse name with
          | Parsed id =>
              there ← path_exists (workspace_core_path (workspaces_root ++ [name]));
              list_entries workspaces_root entries (if there : bool then out ++ [id] else out)
          | _ => list_entries workspaces_root entries out
          end
      | _ => list_entries workspaces_root entries out
      end
  end.

Definition list_workspaces : M FileError (list WorkspaceId) :=
  let workspaces_root := workspaces_dir root in
  there ← path_exists workspaces_root;
  if negb there then mret []
  else
  entries ← map_throw (io_err workspaces_root) (fs_read_dir workspaces_root);
  list_entries workspaces_root entries [].

(** The scan of [ensure_workspace_name_available]; the cells it loads stay in
    the map. *)
Fixpoint scan_names {E} (name : string) (except : option WorkspaceId) (ids : list WorkspaceId)
    (caches : gmap WorkspaceId WorkspaceCacheCell) : M E (caches_result unit) :=
  match ids with
  | [] => mret (caches, Ok tt)
  | existing :: ids =>
      if bool_decide (except = Some existing) then scan_names name except ids caches
      else
      c ← attempt (cache_cell root caches existing);
      match c with
      | Err (FE_Io _ IoNotFound) => scan_names name except ids caches
      | Err e => mret (caches, Err e)
      | Ok cell =>
          let caches := <[existing := cell]> caches in
          if bool_decide (to_lowercase (core_name (cell_core cell)) = to_lowercase name)
          then mret (caches, Err (FE_NameConflict name))
          else scan_names name except ids caches
      end
  end.

Definition ensure_workspace_name_available {E} (name : string) (except : option WorkspaceId)
    (caches : gmap WorkspaceId WorkspaceCacheCell) : M E (caches_result unit) :=
  ids ← attempt list_workspaces;
  match ids with
  | Err e => mret (caches, Err e)
  | Ok ids => scan_names name except ids caches
  end.

(** ** Create *)

(** [fsync_dir(p)] when [p] is there. *)
Definition fsync_if_there (p : path) : M FileError unit :=
  there ← path_exists p;
  if there : bool then map_throw (io_err p) (fsync_dir p) else mret tt.

(** The disk part: the head index before the core, then the parents' entries. *)
Definition commit_create (id : WorkspaceId) (now_str : string) (name : string) (tags : list string)
    : M FileError WorkspaceCore :=
  let workspaces_root := workspaces_dir root in
  let ws := workspace_dir id in
  _ ← map_throw (io_err workspaces_root) (create_dir_all workspaces_root);
  _ ← map_throw (io_err ws) (create_dir_all ws);
  _ ← write_head_index ws (mkHeadIndex []);
  let core := mkWorkspaceCore id name tags now_str (mkWorkspaceRevision 0 now_str) 0 in
  _ ← write_workspace_core ws core;
  _ ← fsync_if_there workspaces_root;
  _ ← fsync_if_there root;
  mret core.

(** [fresh] is [WorkspaceId::new()]. *)
Definition create_with_tags {E} (fresh : WorkspaceId) (now_str : string) (name : string) (tags : list string)
    (mgr : WorkspaceMgr) : M E (WorkspaceMgr * result FileError WorkspaceId) :=
  match validate_workspace_name name with
  | Err e => mret (mgr, Err e)
  | Ok _ =>
      match validate_workspace_tags tags with
      | Err e => mret (mgr, Err e)
      | Ok normalized_tags =>
          x ← ensure_workspace_name_available name None (mgr_caches mgr);
          let '(caches, available) := x in
          match available with
          | Err e => mret (mkWorkspaceMgr (mgr_jobs mgr) caches, Err e)
          | Ok _ =>
              r ← attempt (commit_create fresh now_str name normalized_tags);
              match r with
              | Err e => mret (mkWorkspaceMgr (mgr_jobs mgr) caches, Err e)
              | Ok core =>
                  mret (mkWorkspaceMgr (mgr_jobs mgr) (<[fresh := mkCell core (mkHeadIndex [])]> caches), Ok fresh)
              end
          end
      end
  end.

Definition create {E} (fresh : WorkspaceId) (now_str : string) (name : string) (mgr : WorkspaceMgr)
    : M E (WorkspaceMgr * result FileError WorkspaceId) := create_with_tags fresh now_str name [] mgr.

(** ** Patch *)

Definition patch_core (name : option string) (tags : option (list string)) (core : WorkspaceCore) : WorkspaceCore :=
  mkWorkspaceCore (core_id core) (default (core_name core) name) (default (core_tags core) tags)
    (core_created_at core) (core_revision core) (core_head_count core).

(** The locked part once the name is free: the core is rewritten, then published. *)
Definition patch_locked {E} (id : WorkspaceId) (name : option string) (tags : option (list string))
    (caches : gmap WorkspaceId WorkspaceCacheCell) : M E (caches_result WorkspaceCore) :=
  there ← path_exists (workspace_core_path (workspace_dir id));
  if negb there then mret (caches, Err (FE_NotFound (WorkspaceId_display id)))
  else
  with_cell root caches id (λ cell,
    let next_core := patch_core name tags (cell_core cell) in
    _ ← write_workspace_core (workspace_dir id) next_core;
    mret (next_core, publish_core next_core cell)).

(** [tags.map(validate_workspace_tags).transpose()]. *)
Definition validate_tags_opt (tags : option (list string)) : result FileError (option (list string)) :=
  match tags with
  | Some t => match validate_workspace_tags t with Ok t => Ok (Some t) | Err e => Err e end
  | None => Ok None
  end.

Definition validate_name_opt (name : option string) : result FileError unit :=
  match name with Some n => validate_workspace_name n | None => Ok tt end.

Definition patch_workspace {E} (id : WorkspaceId) (name : option string) (tags : option (list string))
    (mgr : WorkspaceMgr) : M E (WorkspaceMgr * result FileError WorkspaceCore) :=
  if bool_decide (name = None) && bool_decide (tags = None)
  then mret (mgr, Err (FE_InvalidName "patch_workspace requires at least one of `name` or `tags`"))
  else
  match validate_name_opt name with
  | Err e => mret (mgr, Err e)
  | Ok _ =>
      match validate_tags_opt tags with
      | Err e => mret (mgr, Err e)
      | Ok normalized_tags =>
          x ← (match name with
               | Some n => ensure_workspace_name_available n (Some id) (mgr_caches mgr)
               | None => mret (mgr_caches mgr, Ok tt)
               end);
          let '(caches, available) := x in
          match available with
          | Err e => mret (mkWorkspaceMgr (mgr_jobs mgr) caches, Err e)
          | Ok _ =>
              y ← patch_locked id name normalized_tags caches;
              let '(caches, r) := y in
              mret (mkWorkspaceMgr (mgr_jobs mgr) caches, r)
          end
      end
  end.

(** ** Delete *)

(** Tombstone, rename, then the cached cell goes. *)
Definition stage_workspace (now_str : string) (id : WorkspaceId) (job_id : JobId) : M FileError StagedDelete :=
  there ← path_exists (workspace_core_path (workspace_dir id));
  if negb there then throw (FE_NotFound (WorkspaceId_display id))
  else
  staged ← write_tombstone (root_tmp_dir root) (TombWorkspace job_id id now_str);
  _ ← stage_payload (workspace_dir id) staged;
  mret staged.

Definition start_delete_workspace_inner_with_id {E} (now_str : string) (id : WorkspaceId) (job_id : JobId)
    (caches : gmap WorkspaceId WorkspaceCacheCell) : M E (caches_result StagedDelete) :=
  r ← attempt (stage_workspace now_str id job_id);
  match r with
  | Err e => mret (caches, Err e)
  | Ok staged => mret (delete id caches, Ok staged)
  end.

(** The synchronous delete; [None] when [fuel] drains were not enough. *)
Definition delete_sync (fresh : JobId) (now_str : string) (id : WorkspaceId) (fuel : nat) (mgr : WorkspaceMgr)
    : M FileError (WorkspaceMgr * option (result FileError unit)) :=
  x ← start_delete_workspace_inner_with_id now_str id fresh (mgr_caches mgr);
  let '(caches, r) := x in
  let mgr := mkWorkspaceMgr (mgr_jobs mgr) caches in
  match r with
  | Err e => mret (mgr, Some (Err e))
  | Ok staged =>
      o ← drain_to_completion staged None fuel;
      mret (mgr, match o with
                 | None => None
                 | Some Deleted => Some (Ok tt)
                 | Some (DrainFailed e) | Some (FinalizeFailed e) => Some (Err e)
                 end)
  end.

(** Admission and staging; an error drops the handle. *)
Definition start_delete_workspace {E} (fresh : JobId) (now_str : string) (id : WorkspaceId) (mgr : WorkspaceMgr)
    : M E (WorkspaceMgr * result FileError started) :=
  there ← path_exists (workspace_core_path (workspace_dir id));
  if negb there then mret (mgr, Err (FE_NotFound (WorkspaceId_display id)))
  else
  match register_workspace_delete cfg fresh now_str id mgr with
  | (mgr, Err c) => mret (mgr, Err (conflict_to_file_error c))
  | (mgr, Ok job_id) =>
      x ← start_delete_workspace_inner_with_id now_str id job_id (mgr_caches mgr);
      let '(caches, r) := x in
      match r with
      | Ok staged => mret (mkWorkspaceMgr (mgr_jobs mgr) caches, Ok (job_id, staged))
      | Err e =>
          mret (mkWorkspaceMgr (JobHandle_drop cfg now_str (mkJobHandle job_id false) (mgr_jobs mgr)) caches, Err e)
      end
  end.

(** How the spawned worker's [drain_to_completion] ends the job. *)
Definition finish_workspace_delete (now_str : string) (reason : DeleteOutcome → list ascii) (job_id : JobId)
    (outcome : DeleteOutcome) (reg : JobRegistry) : JobRegistry :=
  match outcome with
  | Deleted => JobHandle_succeed cfg now_str (mkJobHandle job_id false) (Some (ResWorkspaceDelete false)) reg
  | _ => JobHandle_fail cfg now_str (mkJobHandle job_id false) (reason outcome) reg
  end.

(** ** Reads *)

Record WorkspaceSummary := mkWorkspaceSummary {
  ws_core : WorkspaceCore;
  ws_heads : HeadIndex;
  ws_head_statuses : list HeadStatus;
}.

Definition read_cached_core {E} (id : WorkspaceId) (caches : gmap WorkspaceId WorkspaceCacheCell)
    : M E (caches_result WorkspaceCore) := with_cell root caches id (λ cell, mret (cell_core cell, cell)).

Definition summary {E} (id : WorkspaceId) (caches : gmap WorkspaceId WorkspaceCacheCell)
    : M E (caches_result WorkspaceSummary) :=
  with_cell root caches id (λ cell,
    mret (mkWorkspaceSummary (cell_core cell) (cell_heads cell)
      (map (λ h, HeadStatus_from_revisions (hr_revision h) (core_revision (cell_core cell))) (heads (cell_heads cell))), cell)).
End Registry.
