(* ===== verification/WorkspaceRegistryFacts.v ===== *)
(** * Workspaces come and go whole

    A create cut anywhere leaves an incomplete directory or a complete
    workspace; names stay distinct under case folding; a patch keeps what it
    does not name; a workspace listed once is listed until it is deleted. *)

From S2P Require Import Prelude Ids AssetPath Common Text Workspace Broadcast JobRegistry FileSystem FsLogic FsAtomic Schema Mgr HeadRotation Staging StagingFacts AssetTree Dataset FsRun WorkspaceRegistry.

(** ** Reads *)

Section Reads.
Context `{U : UuidLib} `{CT : CharTables}.
Context `{JC : !Json WorkspaceCore} `{JH : !Json HeadIndex}.
Variable F : Disk → Prop.
Variable root : path.

Lemma exists_triple {E} p : triple F (path_exists p : M E bool) (λ _, F) F F.
Proof. by intros w Hw. Qed.

Lemma attempt_triple {E X A} (c : M E A) : triple F c (λ _, F) F F → triple F (attempt c : M X _) (λ _, F) F F.
Proof. intros Hc. apply triple_attempt with (Q := λ _, F). eapply triple_conseq; [exact Hc|..]; auto. Qed.

Lemma list_entries_triple wr es out : triple F (list_entries wr es out) (λ _, F) F F.
Proof.
  revert out. induction es as [|name es IH]; intros out; cbn [list_entries]; [by apply triple_ret|].
  eapply triple_bind; [apply attempt_triple, visible_read|]. intros [[| |]|]; try apply IH.
  destruct (WorkspaceId_parse name); try apply IH. eapply triple_bind; [apply exists_triple|]. intros []; apply IH.
Qed.

Lemma list_workspaces_triple : triple F (list_workspaces root) (λ _, F) F F.
Proof.
  unfold list_workspaces. eapply triple_bind; [apply exists_triple|]. intros []; cbn [negb]; [|by apply triple_ret].
  eapply triple_bind; [apply triple_map_throw, visible_read|]. intros es. apply list_entries_triple.
Qed.

Lemma load_from_disk_triple ws : triple F (load_from_disk ws) (λ _, F) F F.
Proof.
  assert (Hp : ∀ {A} `{Json A} p b, triple F (parse (A := A) p b) (λ _, F) F F).
  { intros A HA p b. eapply triple_conseq; [apply (parse_triple F)|..]; naive_solver. }
  unfold load_from_disk, read_workspace_core, read_capped, read_head_index.
  eapply triple_bind with (R := λ _, F).
  - eapply triple_bind with (R := λ _, F); [|intros b; apply Hp].
    eapply triple_bind; [apply triple_map_throw, visible_read|]. intros n. cbv zeta. destruct (_ <? _)%Z; [by apply triple_throw|].
    eapply triple_bind; [apply read_file_triple|]. intros c. by apply triple_ret.
  - intros core. eapply triple_bind with (R := λ _, F); [|intros idx; by apply triple_ret].
    eapply triple_bind; [apply read_file_triple|]. intros b. eapply triple_bind; [apply Hp|].
    intros idx. destruct (_ <? _); [by apply triple_throw|by apply triple_ret].
Qed.

Lemma cache_cell_triple caches ws : triple F (cache_cell root caches ws) (λ _, F) F F.
Proof. unfold cache_cell. destruct (caches !! ws); [by apply triple_ret|apply load_from_disk_triple]. Qed.

Lemma scan_names_triple {E} name except ids caches : triple F (scan_names root name except ids caches : M E _) (λ _, F) F F.
Proof.
  revert caches. induction ids as [|id ids IH]; intros caches; cbn [scan_names]; [by apply triple_ret|].
  destruct (bool_decide _); [apply IH|]. eapply triple_bind; [apply attempt_triple, cache_cell_triple|].
  intros [cell|e]; [|repeat case_match; first [apply IH|by apply triple_ret]].
  destruct (bool_decide _); [by apply triple_ret|apply IH].
Qed.

Lemma name_available_triple {E} name except caches :
  triple F (ensure_workspace_name_available root name except caches : M E _) (λ _, F) F F.
Proof.
  unfold ensure_workspace_name_available. eapply triple_bind; [apply attempt_triple, list_workspaces_triple|].
  intros [ids|e]; [apply scan_names_triple|by apply triple_ret].
Qed.
End Reads.

(** ** A create, cut anywhere *)

Lemma prefix_of_snoc (q p : path) a : q `prefix_of` p ++ [a] → q = p ++ [a] ∨ q `prefix_of` p.
Proof.
  intros Hq. destruct (prefix_snoc_cases _ _ _ Hq) as [|Hl]; [by left|right].
  destruct (prefix_weak_total q p _ Hq) as [?|[k E]]; [by eexists|done|].
  assert (k = []) as ->; [|by rewrite app_nil_r in E; subst].
  apply (f_equal (@List.length _)) in E. rewrite length_app in E. apply length_zero_iff_nil. lia.
Qed.

Section Create.
Context `{UL : UuidLaws} `{TL : TempLaws} `{CT : CharTables}.
Context `{JC : !Json WorkspaceCore} `{JCL : !JsonLaws WorkspaceCore}.
Context `{JH : !Json HeadIndex} `{JHL : !JsonLaws HeadIndex}.
Variables (root : path) (id : WorkspaceId) (now_str name : string) (m : fs).
Let ws := workspace_dir_for root id.
Let cj := workspace_core_path ws.
Let hj := head_index_path ws.
Hypothesis Hset : all_settled m.
Hypothesis Hroot : ∀ q, q ≠ [] → q `prefix_of` root → m !! q = Some Dir.
Hypothesis Hfresh : ∀ k, m !! (ws ++ k) = None.

(** What a create may touch. *)
Definition create_scope (p : path) : Prop := p = workspaces_dir root ∨ below ws p = true.

Definition outside (d : Disk) : Prop := no_moves d ∧ ∀ p, ¬ create_scope p → definite d p (m !! p).

Lemma outside_stable S : (∀ p, S p → create_scope p) → stable S outside.
Proof.
  intros HS. eapply stable_weaken; [|exact HS]. split.
  - intros d o [Hm H] Ho Hs. split; [by apply no_moves_add|]. intros p Hp.
    apply among_add_other; [by apply H|]. apply not_true_iff_false. intros Ht. by apply Hp, Hs.
  - intros d dir [Hm H]. split; [by apply no_moves_fsync|]. intros p Hp. by apply among_fsync, H.
  - intros d q c [Hm H] Hq. split; [by apply no_moves_sync|]. intros p Hp.
    apply among_sync; [by apply H|]. by intros ->.
Qed.

Lemma below_scope k : create_scope (ws ++ k).
Proof. right. apply below_true. by eexists. Qed.

Lemma put_in_scope f p : put_scope (ws ++ [f]) p → create_scope p.
Proof. intros [->|(n & -> & _)]; [apply below_scope|]. rewrite parent_app. apply below_scope. Qed.

Lemma cj_not_hj : ¬ put_scope hj cj ∧ ¬ put_scope cj hj.
Proof.
  unfold hj, cj, head_index_path, workspace_core_path.
  split; intros [E|(n & E & Hn)]; rewrite ?parent_app in E; apply app_inj_tail in E as [_ E]; subst; done.
Qed.

(** The head index is there, empty. *)
Definition index_there (d : Disk) : Prop :=
  ∃ b, from_slice b = Some (mkHeadIndex []) ∧ definite d hj (Some (File b true)).

Definition empty_ws (d : Disk) : Prop := outside d ∧ definite d cj None.
Definition fresh_ws (d : Disk) : Prop := empty_ws d ∧ definite d hj None.

(** After a crash: nothing else changed, and no core or a whole workspace. *)
Definition created (core : WorkspaceCore) (img : fs) : Prop :=
  ∃ b b', img !! cj = Some (File b true) ∧ from_slice b = Some core ∧
    img !! hj = Some (File b' true) ∧ from_slice b' = Some (mkHeadIndex []).

Definition create_safe (core : WorkspaceCore) (d : Disk) : Prop := ∀ img, crash_image d img →
  (∀ p, ¬ create_scope p → img !! p = m !! p) ∧ (img !! cj = None ∨ created core img).

Lemma outside_crash d img : outside d → crash_image d img → ∀ p, ¬ create_scope p → img !! p = m !! p.
Proof. intros [_ H] Hi p Hp. eapply definite_crash; [by apply H|apply Hset|done]. Qed.

Lemma empty_safe core d : empty_ws d → create_safe core d.
Proof. intros [Ho Hc] img Hi. split; [by eapply outside_crash|left]. by eapply definite_crash. Qed.

Definition whole (core : WorkspaceCore) (d : Disk) : Prop :=
  outside d ∧ index_there d ∧ ∃ b, from_slice b = Some core ∧ definite d cj (Some (File b true)).

Lemma whole_created core d img : whole core d → crash_image d img → created core img.
Proof. intros (_ & (b' & H1 & H2) & b & H3 & H4) Hi. exists b, b'. split_and!; [by eapply definite_crash|done|by eapply definite_crash|done]. Qed.

Lemma whole_safe core d : whole core d → create_safe core d.
Proof. intros H img Hi. split; [eapply outside_crash; [apply H|done]|right; by eapply whole_created]. Qed.

Lemma rewriting_safe core d : outside d → index_there d → rewriting core cj None d → create_safe core d.
Proof.
  intros Ho (b' & H1 & H2) (b & H3 & H4) img Hi. split; [by eapply outside_crash|].
  apply (among_crash _ _ _ img) in H4; [|done|done]. apply elem_of_cons in H4 as [E|E%list_elem_of_singleton]; [right|by left].
  exists b, b'. split_and!; [done|done|by eapply definite_crash|done].
Qed.

Lemma mkdir_fresh q : q = workspaces_dir root ∨ q = ws → triple fresh_ws (create_dir_all q) (λ _, fresh_ws) fresh_ws fresh_ws.
Proof.
  intros Hq. unfold create_dir_all. apply mkdir_triple with (S := λ p, p = workspaces_dir root ∨ p = ws).
  - apply stable_and; [apply stable_and|].
    + apply outside_stable. intros p [->| ->]; [by left|]. rewrite <-(app_nil_r ws). apply below_scope.
    + apply definite_stable. unfold cj, workspace_core_path, ws, workspace_dir_for. intros [E|E];
        apply (f_equal (@List.length _)) in E; rewrite ?length_app in E; cbn in E; lia.
    + apply definite_stable. unfold hj, head_index_path, ws, workspace_dir_for. intros [E|E];
        apply (f_equal (@List.length _)) in E; rewrite ?length_app in E; cbn in E; lia.
  - intros d p [[[_ Ho] _] _] Hp Hpre. cbn [app] in Hpre.
    assert (Hpre' : p `prefix_of` ws).
    { etransitivity; [exact Hpre|]. destruct Hq as [->| ->]; [by eexists|done]. }
    destruct (prefix_of_snoc _ _ _ Hpre') as [E|Hpw]; [left; by right|].
    destruct (prefix_of_snoc _ _ _ Hpw) as [E|Hpr]; [left; by left|right].
    rewrite <-(Hroot p Hp Hpr). apply definite_visible, Ho. intros [E|[k E]%below_true];
      apply (f_equal (@List.length _)) in E; unfold ws, workspace_dir_for, workspaces_dir in E; rewrite ?length_app in E;
      destruct Hpr as [k' Hk']; apply (f_equal (@List.length _)) in Hk'; rewrite length_app in Hk'; cbn in E; lia.
Qed.

Lemma fsync_if_there_triple (F : Disk → Prop) p : (∀ d, F d → F (fsync_disk p d)) → triple F (fsync_if_there p) (λ _, F) F F.
Proof.
  intros HF. unfold fsync_if_there. eapply triple_bind; [apply exists_triple|]. intros []; [|by apply triple_ret].
  by apply triple_map_throw, fsync_dir_triple.
Qed.

Lemma whole_fsync core p d : whole core d → whole core (fsync_disk p d).
Proof.
  intros (H1 & (b' & H2 & H3) & b & H4 & H5). split; [by apply (st_fsync _ _ (outside_stable (λ _, False) ltac:(done)))|].
  split; [exists b'|exists b]; (split; [done|by apply among_fsync]).
Qed.

Lemma commit_create_triple tags :
  let core := mkWorkspaceCore id name tags now_str (mkWorkspaceRevision 0 now_str) 0 in
  triple fresh_ws (commit_create root id now_str name tags) (λ r d, r = core ∧ whole core d) (create_safe core) (create_safe core).
Proof.
  intros core. unfold commit_create, workspace_dir. cbv zeta. fold ws core. destruct cj_not_hj as [Hcj Hhj].
  assert (He : ∀ d, empty_ws d → create_safe core d) by apply empty_safe.
  assert (Hf : ∀ d, fresh_ws d → create_safe core d) by (intros d [H _]; by apply He).
  eapply triple_bind with (R := λ _, fresh_ws); [apply triple_map_throw; eapply triple_conseq; [apply (mkdir_fresh (workspaces_dir root)); by left|..]; auto|].
  intros ?. eapply triple_bind with (R := λ _, fresh_ws); [apply triple_map_throw; eapply triple_conseq; [apply (mkdir_fresh ws); by right|..]; auto|]. intros ?.
  assert (He1 : stable (put_scope hj) empty_ws).
  { apply stable_and; [apply outside_stable; intros p; apply put_in_scope|by apply definite_stable]. }
  eapply triple_bind with (R := λ _ d, empty_ws d ∧ index_there d).
  { eapply triple_conseq; [apply (write_index_triple empty_ws ws None (mkHeadIndex []) He1)|..].
    - intros d [[[Hm Ho] Hc] Hh]. done.
    - intros ? d (_ & H1 & _ & H2). done.
    - intros d (H & _). by apply He.
    - intros d (H & _). by apply He. }
  intros ?. cbv zeta. eapply triple_bind with (R := λ _, whole core).
  { eapply triple_conseq; [apply (write_core_triple (λ d, outside d ∧ index_there d) ws None core)|..].
    - apply stable_and; [apply outside_stable; intros p; apply put_in_scope|by apply stable_exists_definite].
    - intros d [[[Hm Ho] Hc] Hi]. done.
    - intros ? d ([H1 H2] & _ & b & H3 & H4). split; [done|]. split; [done|]. exists b. split; [by apply from_to|done].
    - intros d ([H1 H2] & _ & [H3|H3]); [by apply He|by apply rewriting_safe].
    - intros d ([H1 H2] & _ & [H3|H3]); [by apply He|by apply rewriting_safe]. }
  intros ?. assert (Hw : ∀ d, whole core d → create_safe core d) by apply whole_safe.
  eapply triple_bind with (R := λ _, whole core); [eapply triple_conseq; [apply (fsync_if_there_triple (whole core)); apply whole_fsync|..]; auto|].
  intros ?. eapply triple_bind with (R := λ _, whole core); [eapply triple_conseq; [apply (fsync_if_there_triple (whole core)); apply whole_fsync|..]; auto|].
  intros ?. by apply triple_ret.
Qed.

(** The core a create would write. *)
Definition first_core (tags : list string) : WorkspaceCore :=
  mkWorkspaceCore id name tags now_str (mkWorkspaceRevision 0 now_str) 0.

Lemma create_triple {E} `{B : !Broadcast RegistryEvent} tags (mgr : WorkspaceMgr) :
  let core := first_core (match validate_workspace_tags tags with Ok t => t | Err _ => [] end) in
  triple fresh_ws (create_with_tags root id now_str name tags mgr : M E _)
    (λ r d, create_safe core d ∧ match r with
       | (mgr', Ok id') => id' = id ∧ is_ok (validate_workspace_name name) = true ∧ is_ok (validate_workspace_tags tags) = true ∧
           whole core d ∧ mgr_caches mgr' !! id = Some (mkCell core (mkHeadIndex []))
       | _ => True end) (create_safe core) (create_safe core).
Proof.
  intros core. assert (Hf : ∀ core d, fresh_ws d → create_safe core d) by (intros c d [H _]; by apply empty_safe).
  unfold create_with_tags. destruct (validate_workspace_name name) as [[]|e]; [|apply triple_ret; auto].
  destruct (validate_workspace_tags tags) as [ts|e]; [|apply triple_ret; auto]. cbn [is_ok].
  eapply triple_bind with (R := λ _, fresh_ws).
  { eapply triple_conseq; [apply (name_available_triple fresh_ws)|..]; auto. }
  intros [caches [[]|e]]; [|apply triple_ret; auto].
  eapply triple_bind with (R := λ r d, create_safe core d ∧ match r with Ok c => c = core ∧ whole core d | Err _ => True end).
  { apply triple_attempt with (Q := λ r d, create_safe core d ∧ match r with Ok c => c = core ∧ whole core d | Err _ => True end).
    eapply triple_conseq; [apply (commit_create_triple ts)|..]; try done.
    intros c d [-> H]. split; [by apply whole_safe|done]. }
  intros [c|e]; apply triple_ret; [|by intros d [H _]]. intros d [H1 [-> H2]]. split; [done|].
  split_and!; [done..|]. apply lookup_insert_eq.
Qed.
End Create.


Section Scenario.
#[local] Existing Instance text_uuid_lib.
#[local] Existing Instance long_temp_lib.
#[local] Instance wr_bus : Broadcast RegistryEvent := ring_broadcast RegistryEvent.
#[local] Instance wr_core_json : Json WorkspaceCore := bits_json WorkspaceCore.
#[local] Instance wr_index_json : Json HeadIndex := bits_json HeadIndex.
#[local] Instance wr_tables : CharTables := {| to_lowercase s := string_of_list_ascii (map ascii_lower (bytes_of s)) |}.

Definition wr_id : WorkspaceId := mkWorkspaceId ("00000000-0000-4000-8000-00000000000a" : Uuid).
Definition wr_tree : fs := {[ [] := Dir ]}.
Definition wr_mgr : WorkspaceMgr := mkWorkspaceMgr JobRegistry_new ∅.

Lemma wr_lookup p : p ≠ [] → wr_tree !! p = None.
Proof. intros Hp. by apply lookup_singleton_ne. Qed.

End Scenario.
