(* ===== verification/RegistryNames.v ===== *)
(** * Workspace names stay distinct

    Calm runs of create and patch on a tree of loadable workspaces whose cached
    cores are those on disk: both answer what the names on disk say, and leave
    the names distinct under case folding, the tree loadable and the cache
    true. *)

From S2P Require Import Prelude Ids AssetPath Common Text Workspace Broadcast JobRegistry FileSystem FsLogic FsAtomic Schema Mgr HeadRotation Staging StagingFacts AssetTree Dataset FsRun WorkspaceRegistry WorkspaceRegistryFacts.

Definition canonical_ws `{U : UuidLib} (id : WorkspaceId) : Prop := validate_uuid_v4_str (WorkspaceId_display id) = Ok tt.

Section Names.
Context `{UL : UuidLaws} `{TL : TempLaws} `{CT : CharTables}.
Context `{JC : !Json WorkspaceCore} `{JCL : !JsonLaws WorkspaceCore}.
Context `{JH : !Json HeadIndex} `{JHL : !JsonLaws HeadIndex}.
Variable root : path.

Abbreviation ws_of := (workspace_dir_for root).

(** The workspace loads as [core] and [hs]. *)
Definition on_disk (m : fs) (id : WorkspaceId) (core : WorkspaceCore) (hs : HeadIndex) : Prop :=
  ∃ b s b' s', m !! workspace_core_path (ws_of id) = Some (File b s) ∧
    (Z.of_nat (List.length b) ≤ MAX_WORKSPACE_CORE_BYTES)%Z ∧ from_slice b = Some core ∧
    m !! head_index_path (ws_of id) = Some (File b' s') ∧ from_slice b' = Some hs ∧
    List.length (heads hs) ≤ MAX_HEADS_PER_WORKSPACE.

Definition fold_name (core : WorkspaceCore) : string := to_lowercase (core_name core).

Record registry_inv (m : fs) (caches : gmap WorkspaceId WorkspaceCacheCell) : Prop := {
  ri_wf : wf_tree m;
  ri_root : m !! root = Some Dir;
  ri_top : m !! workspaces_dir root = None ∨ m !! workspaces_dir root = Some Dir;
  ri_loads : ∀ id, canonical_ws id → is_Some (m !! workspace_core_path (ws_of id)) → ∃ core hs, on_disk m id core hs;
  ri_names : ∀ id id' core core' hs hs', canonical_ws id → canonical_ws id' →
    on_disk m id core hs → on_disk m id' core' hs' → fold_name core = fold_name core' → id = id';
  ri_cached : ∀ id cell, caches !! id = Some cell → canonical_ws id ∧ ∃ hs, on_disk m id (cell_core cell) hs;
}.

Lemma canonical_parse id : canonical_ws id → WorkspaceId_parse (WorkspaceId_display id) = Parsed id.
Proof.
  intros Hc. unfold WorkspaceId_parse, uuid_id_parse, canonical_ws, WorkspaceId_display in *. rewrite Hc, uuid_parse_display by done.
  by destruct id.
Qed.

Lemma parsed_display name id : WorkspaceId_parse name = Parsed id → WorkspaceId_display id = name ∧ canonical_ws id.
Proof.
  unfold WorkspaceId_parse, uuid_id_parse, canonical_ws, WorkspaceId_display. destruct (validate_uuid_v4_str name) as [[]|] eqn:Hv; [|done].
  destruct (uuid_parse_canonical name Hv) as (u & -> & Hu). intros [= <-]. cbn. by rewrite Hu.
Qed.

Lemma canonical_display id id' : canonical_ws id → WorkspaceId_display id' = WorkspaceId_display id → id' = id.
Proof.
  intros Hc E. assert (Hc' : canonical_ws id') by (unfold canonical_ws; by rewrite E).
  pose proof (canonical_parse id Hc) as H1. rewrite <-E, (canonical_parse id' Hc') in H1. by injection H1.
Qed.

Lemma ws_of_inj id id' : canonical_ws id → ws_of id' = ws_of id → id' = id.
Proof. intros Hc E. unfold workspace_dir_for in E. apply app_inj_tail in E as [_ E]. by apply canonical_display. Qed.

Lemma on_disk_core m id core hs core' hs' : on_disk m id core hs → on_disk m id core' hs' → core = core'.
Proof. intros (b & s & b' & s' & H1 & _ & H2 & _) (c & t & c' & t' & H3 & _ & H4 & _). congruence. Qed.

Lemma on_disk_ext m m' id core hs : (∀ k, m' !! (ws_of id ++ k) = m !! (ws_of id ++ k)) → on_disk m id core hs ↔ on_disk m' id core hs.
Proof. intros E. unfold on_disk, workspace_core_path, head_index_path. by rewrite !E. Qed.

(** ** What the reads answer *)

Lemma evals_load m id core hs : on_disk m id core hs → evals m (load_from_disk (ws_of id)) (Ok (mkCell core hs)) m.
Proof.
  intros (b & s & b' & s' & H1 & H2 & H3 & H4 & H5 & H6). unfold load_from_disk.
  eapply evals_bind; [by eapply evals_read_core|]. eapply evals_bind; [by eapply evals_read_index|]. apply evals_ret.
Qed.

Lemma evals_cell m caches id : registry_inv m caches → canonical_ws id → is_Some (m !! workspace_core_path (ws_of id)) →
  ∃ cell hs, evals m (cache_cell root caches id) (Ok cell) m ∧ on_disk m id (cell_core cell) hs.
Proof.
  intros Hinv Hc Hs. unfold cache_cell. destruct (caches !! id) as [cell|] eqn:E.
  - destruct (ri_cached _ _ Hinv id cell E) as [_ [hs Hd]]. exists cell, hs. split; [apply evals_ret|done].
  - destruct (ri_loads _ _ Hinv id Hc Hs) as (core & hs & Hd). exists (mkCell core hs), hs. split; [by apply evals_load|done].
Qed.

Lemma registry_inv_cell m caches id cell hs : registry_inv m caches → canonical_ws id → on_disk m id (cell_core cell) hs →
  registry_inv m (<[id := cell]> caches).
Proof.
  intros [H1 H2 H3 H4 H5 H6] Hc Hd. split; try done. intros id' cell' [[<- <-]|[_ E]]%lookup_insert_Some; [eauto|by apply H6].
Qed.

Definition listed (m : fs) (id : WorkspaceId) : Prop := canonical_ws id ∧ is_Some (m !! workspace_core_path (ws_of id)).

Lemma evals_list_entries m es out : (∀ name, name ∈ es → is_Some (m !! (workspaces_dir root ++ [name]))) → wf_tree m →
  ∃ ids, evals m (list_entries (workspaces_dir root) es out) (Ok ids) m ∧
    ∀ id, id ∈ ids ↔ id ∈ out ∨ (listed m id ∧ WorkspaceId_display id ∈ es).
Proof.
  intros Hes Hwf. revert out. induction es as [|name es IH]; intros out; cbn [list_entries].
  { exists out. split; [apply evals_ret|]. intros id. set_solver. }
  assert (IH' : ∀ out, ∃ ids, evals m (list_entries (workspaces_dir root) es out) (Ok ids) m ∧
    ∀ id, id ∈ ids ↔ id ∈ out ∨ (listed m id ∧ WorkspaceId_display id ∈ es)) by (apply IH; set_solver).
  pose proof (evals_metadata m (workspaces_dir root ++ [name])) as Hmd. destruct (Hes name ltac:(left)) as [n Hn]. rewrite Hn in Hmd.
  assert (Hgo : ∀ out', (∀ id, id ∈ out' ↔ id ∈ out ∨ (listed m id ∧ WorkspaceId_display id = name)) →
    ∃ ids, evals m (list_entries (workspaces_dir root) es out') (Ok ids) m ∧
      ∀ id, id ∈ ids ↔ id ∈ out ∨ (listed m id ∧ WorkspaceId_display id ∈ name :: es)).
  { intros out' Hout. destruct (IH' out') as (ids & He & Hids). exists ids. split; [done|]. intros id. rewrite Hids, Hout. set_solver. }
  assert (Hskip : ∀ id, listed m id → WorkspaceId_display id = name → n = Dir).
  { intros id [_ Hs] <-. apply (below_trans m (workspaces_dir root ++ [WorkspaceId_display id]) [WORKSPACE_CORE_FILENAME] Hwf) in Hs as [E _]; [|done].
    congruence. }
  assert (Hno : (∀ id, listed m id → WorkspaceId_display id = name → False) →
    ∃ ids, evals m (list_entries (workspaces_dir root) es out) (Ok ids) m ∧
      ∀ id, id ∈ ids ↔ id ∈ out ∨ (listed m id ∧ WorkspaceId_display id ∈ name :: es)) by (intros H; apply Hgo; naive_solver).
  assert (Hbind : ∀ f r, evals m (f (Ok n) : M FileError (list WorkspaceId)) r m →
    evals m (attempt (symlink_metadata (workspaces_dir root ++ [name])) ≫= f) r m).
  { intros f r Hf. eapply evals_bind; [by apply evals_attempt|done]. }
  destruct (decide (n = Dir)) as [->|Hnd].
  2:{ destruct Hno as (ids & He & Hids); [by intros id H1 H2; apply Hnd, (Hskip id)|]. exists ids. split; [|done]. apply Hbind. by destruct n. }
  destruct (WorkspaceId_parse name) as [id0| |] eqn:Ep.
  2,3: destruct Hno as (ids & He & Hids); [intros id [Hc _] E; rewrite <-E, (canonical_parse id Hc) in Ep; done|exists ids; split; [by apply Hbind|done]].
  destruct (parsed_display name id0 Ep) as [Ed Hc0].
  assert (Hl : listed m id0 ↔ is_Some (m !! workspace_core_path (workspaces_dir root ++ [name]))).
  { unfold listed, workspace_dir_for. rewrite Ed. tauto. }
  destruct (Hgo (if bool_decide (is_Some (m !! workspace_core_path (workspaces_dir root ++ [name]))) then out ++ [id0] else out)) as (ids & He & Hids).
  { intros id. case_bool_decide as Hb.
    - rewrite elem_of_app, list_elem_of_singleton. split; [intros [?| ->]; [by left|right; tauto]|].
      intros [?|[[Hc _] E]]; [by left|right]. apply canonical_display; [done|congruence].
    - split; [by left|]. intros [?|[Hli E]]; [done|]. exfalso. apply Hb, Hl. by rewrite <-(canonical_display id0 id Hc0 ltac:(congruence)). }
  exists ids. split; [|done]. apply Hbind. cbv beta iota. eapply evals_bind; [apply evals_exists|exact He].
Qed.

Lemma evals_list m : wf_tree m → m !! workspaces_dir root = None ∨ m !! workspaces_dir root = Some Dir →
  ∃ ids, evals m (list_workspaces root) (Ok ids) m ∧ ∀ id, id ∈ ids ↔ listed m id.
Proof.
  intros Hwf Htop. unfold list_workspaces.
  assert (Hin : ∀ id, listed m id → m !! workspaces_dir root = Some Dir ∧ WorkspaceId_display id ∈ children (workspaces_dir root) m).
  { intros id [_ Hs]. unfold workspace_core_path, workspace_dir_for in Hs.
    destruct (below_trans m _ [WORKSPACE_CORE_FILENAME] Hwf Hs) as [Hd _]; [done|].
    assert (Hd' : is_Some (m !! (workspaces_dir root ++ [WorkspaceId_display id]))) by (by rewrite Hd).
    destruct (below_trans m _ [WorkspaceId_display id] Hwf Hd') as [Ht _]; [done|]. split; [done|]. by apply children_spec. }
  destruct Htop as [E|E].
  - exists []. split.
    + eapply evals_bind; [apply evals_exists|]. rewrite E. apply evals_ret.
    + intros id. split; [by intros ?%elem_of_nil|]. intros [H _]%Hin. congruence.
  - destruct (evals_list_entries m (children (workspaces_dir root) m) []) as (ids & He & Hids); [|done|].
    { intros name. apply children_spec. }
    exists ids. split.
    + eapply evals_bind; [apply evals_exists|]. rewrite E. cbn. pose proof (evals_read_dir m (workspaces_dir root)) as Hr. rewrite E in Hr.
      eapply evals_bind; [by apply (evals_map_throw _ _ _ _ (Ok _))|exact He].
    + intros id. rewrite Hids. split; [intros [?%elem_of_nil|[? _]]; done|]. intros H. right. split; [done|by apply Hin].
Qed.

(** A workspace of another id on disk with the name, case aside. *)
Definition name_taken (m : fs) (name : string) (except : option WorkspaceId) : Prop :=
  ∃ id core hs, canonical_ws id ∧ except ≠ Some id ∧ on_disk m id core hs ∧ fold_name core = to_lowercase name.

Lemma evals_scan {E} m name except ids caches : registry_inv m caches → (∀ id, id ∈ ids → listed m id) →
  ∃ caches' r, evals m (scan_names root name except ids caches : M E _) (Ok (caches', r)) m ∧ registry_inv m caches' ∧
    (r = Err (FE_NameConflict name) ∧ name_taken m name except ∨
     r = Ok tt ∧ ∀ id core hs, id ∈ ids → except ≠ Some id → on_disk m id core hs → fold_name core ≠ to_lowercase name).
Proof.
  revert caches. induction ids as [|id ids IH]; intros caches Hinv Hl; cbn [scan_names].
  { exists caches, (Ok tt). split; [apply evals_ret|]. split; [done|]. right. split; [done|]. by intros ? ? ? ?%elem_of_nil. }
  assert (Hl' : ∀ id, id ∈ ids → listed m id) by (intros ? ?; apply Hl; by right).
  case_bool_decide as Hex.
  { destruct (IH caches Hinv Hl') as (caches' & r & H1 & H2 & [H3|[-> H3]]); exists caches'; eexists; (split; [exact H1|]); (split; [done|]); [by left|right].
    split; [done|]. intros id' core hs [->|Hin]%elem_of_cons Hne; [done|by apply H3]. }
  destruct (Hl id ltac:(left)) as [Hc Hs]. destruct (evals_cell m caches id Hinv Hc Hs) as (cell & hs0 & He & Hd).
  assert (Hinv' : registry_inv m (<[id := cell]> caches)) by (by eapply registry_inv_cell).
  case (decide (to_lowercase (core_name (cell_core cell)) = to_lowercase name)) as [Heq|Hneq].
  - exists (<[id := cell]> caches), (Err (FE_NameConflict name)). split; [|split; [done|left; split; [done|by exists id, (cell_core cell), hs0]]].
    eapply evals_bind; [by apply evals_attempt|]. cbv beta iota zeta. rewrite bool_decide_eq_true_2 by done. apply evals_ret.
  - destruct (IH _ Hinv' Hl') as (caches' & r & H1 & H2 & H3). exists caches', r. split; [|split; [done|]].
    + eapply evals_bind; [by apply evals_attempt|]. cbv beta iota zeta. by rewrite bool_decide_eq_false_2.
    + destruct H3 as [H3|[-> H3]]; [by left|right]. split; [done|]. intros id' core hs [->|Hin]%elem_of_cons Hne Hd'; [|by eapply H3].
      unfold fold_name. by rewrite (on_disk_core _ _ _ _ _ _ Hd' Hd).
Qed.

Lemma evals_available {E} m name except caches : registry_inv m caches →
  ∃ caches' r, evals m (ensure_workspace_name_available root name except caches : M E _) (Ok (caches', r)) m ∧ registry_inv m caches' ∧
    (r = Err (FE_NameConflict name) ∧ name_taken m name except ∨ r = Ok tt ∧ ¬ name_taken m name except).
Proof.
  intros Hinv. destruct (evals_list m (ri_wf _ _ Hinv) (ri_top _ _ Hinv)) as (ids & He & Hids).
  destruct (evals_scan (E := E) m name except ids caches Hinv) as (caches' & r & H1 & H2 & H3); [intros id; apply Hids|].
  exists caches', r. split; [eapply evals_bind; [by apply evals_attempt|exact H1]|]. split; [done|].
  destruct H3 as [H3|[-> H3]]; [by left|right]. split; [done|]. intros (id & core & hs & Hc & Hne & Hd & Heq).
  apply (H3 id core hs); try done. apply Hids. split; [done|]. destruct Hd as (b & s & _ & _ & Hd & _). by rewrite Hd.
Qed.

(** ** What the writes leave *)

Lemma prefixes_there m (p : path) : wf_tree m → m !! p = Some Dir → ∀ q, q ≠ [] → q `prefix_of` p → m !! q = Some Dir.
Proof.
  intros Hwf Hp q _ [k ->]. destruct (decide (k = [])) as [->|Hk]; [by rewrite app_nil_r in Hp|].
  by apply (below_trans m q k Hwf).
Qed.

Lemma evals_create_dir_new m p x : wf_tree m → m !! p = Some Dir → m !! (p ++ [x]) = None →
  evals m (create_dir_all (p ++ [x])) (Ok tt) (<[p ++ [x] := Dir]> m).
Proof.
  intros Hwf Hp Hx. pose proof (prefixes_there m p Hwf Hp) as Hpre. unfold create_dir_all.
  assert (Hgo : ∀ rest dn, dn ++ rest = p → evals m (mkdir_prefixes dn (rest ++ [x])) (Ok tt) (<[p ++ [x] := Dir]> m)); [|by apply Hgo].
  induction rest as [|c rest IH]; intros dn E; cbn [app mkdir_prefixes].
  - rewrite app_nil_r in E. subst dn. eapply evals_bind; [by apply evals_mkdir_new; [|rewrite parent_app]|apply evals_ret].
  - eapply evals_bind; [apply evals_mkdir_there, Hpre; [by destruct dn|]|].
    + exists rest. by rewrite <-app_assoc.
    + apply IH. by rewrite <-app_assoc.
Qed.

(** Made or already there. *)
Lemma evals_ensure_dir m p x : wf_tree m → m !! p = Some Dir → m !! (p ++ [x]) = None ∨ m !! (p ++ [x]) = Some Dir →
  evals m (create_dir_all (p ++ [x])) (Ok tt) (<[p ++ [x] := Dir]> m).
Proof.
  intros Hwf Hp [Hx|Hx]; [by apply evals_create_dir_new|]. rewrite insert_id by done.
  by apply evals_create_dir_there, prefixes_there.
Qed.

Lemma evals_write_core_any m ws core : m !! ws = Some Dir → m !! workspace_core_path ws ≠ Some Dir →
  (∃ b, evals m (write_workspace_core ws core) (Ok tt) (<[workspace_core_path ws := File b true]> m) ∧
     (Z.of_nat (List.length b) ≤ MAX_WORKSPACE_CORE_BYTES)%Z ∧ from_slice b = Some core) ∨
  ∃ e, evals m (write_workspace_core ws core) (Err e) m.
Proof.
  intros Hd Hc. destruct (to_vec core) as [b|] eqn:Eb.
  - destruct (Z.leb_spec (Z.of_nat (List.length b)) MAX_WORKSPACE_CORE_BYTES) as [Hle|Hgt].
    + left. exists b. split; [by apply evals_write_core|]. split; [done|by apply from_to].
    + right. eexists. unfold write_workspace_core. eapply evals_bind; [by apply evals_serialize|].
      destruct (Z.ltb_spec MAX_WORKSPACE_CORE_BYTES (Z.of_nat (List.length b))); [apply evals_throw|lia].
  - right. eexists. unfold write_workspace_core, serialize. rewrite Eb. apply evals_bind_err, evals_throw.
Qed.

Lemma evals_write_index_any m ws idx : m !! ws = Some Dir → m !! head_index_path ws ≠ Some Dir →
  List.length (heads idx) ≤ MAX_HEADS_PER_WORKSPACE →
  (∃ b, evals m (write_head_index ws idx) (Ok tt) (<[head_index_path ws := File b true]> m) ∧ from_slice b = Some idx) ∨
  ∃ e, evals m (write_head_index ws idx) (Err e) m.
Proof.
  intros Hd Hc Hl. destruct (to_vec idx) as [b|] eqn:Eb.
  - left. exists b. split; [by apply evals_write_index|by apply from_to].
  - right. eexists. unfold write_head_index, serialize. destruct (Nat.ltb_spec MAX_HEADS_PER_WORKSPACE (List.length (heads idx))); [lia|].
    rewrite Eb. apply evals_bind_err, evals_throw.
Qed.

Lemma evals_fsync_if_there m p : m !! p = Some Dir → evals m (fsync_if_there p) (Ok tt) m.
Proof.
  intros Hp. eapply evals_bind; [apply evals_exists|]. rewrite Hp. cbn. pose proof (evals_fsync m p) as H. rewrite Hp in H.
  by apply (evals_map_throw _ _ _ _ (Ok tt)).
Qed.

(** A tree that grew inside the scope of one create. *)
Record grown (m m' : fs) (id : WorkspaceId) : Prop := {
  gr_wf : wf_tree m';
  gr_top : m' !! workspaces_dir root = Some Dir;
  gr_same : ∀ p, ¬ create_scope root id p → m' !! p = m !! p;
}.

(** After the two directories. *)
Definition create_dirs (m : fs) (id : WorkspaceId) : fs := <[ws_of id := Dir]> (<[workspaces_dir root := Dir]> m).

Lemma create_dirs_spec m caches id : registry_inv m caches → (∀ k, m !! (ws_of id ++ k) = None) →
  let m2 := create_dirs m id in
  grown m m2 id ∧ m2 !! root = Some Dir ∧ m2 !! ws_of id = Some Dir ∧ (∀ f, m2 !! (ws_of id ++ [f]) = None) ∧
  evals m (create_dir_all (workspaces_dir root)) (Ok tt) (<[workspaces_dir root := Dir]> m) ∧
  evals (<[workspaces_dir root := Dir]> m) (create_dir_all (ws_of id)) (Ok tt) m2.
Proof.
  intros Hinv Hfresh m2. set (ws := ws_of id). set (m1 := <[workspaces_dir root := Dir]> m). pose proof (ri_wf _ _ Hinv) as Hwf.
  assert (Hr1 : workspaces_dir root ≠ root) by (unfold workspaces_dir; intros E; by apply snoc_neq in E).
  assert (Hne : ∀ k, workspaces_dir root ≠ ws ++ k).
  { intros k E. apply (f_equal (@List.length _)) in E. unfold ws, workspace_dir_for in E. rewrite !length_app in E. cbn in E. lia. }
  assert (Hne0 : workspaces_dir root ≠ ws) by (rewrite <-(app_nil_r ws); apply Hne).
  assert (Hwr : ws ≠ root).
  { intros E. apply (f_equal (@List.length _)) in E. unfold ws, workspace_dir_for, workspaces_dir in E. rewrite !length_app in E. cbn in E. lia. }
  assert (Hwf1 : wf_tree m1).
  { apply wf_insert; [done|by destruct root|unfold workspaces_dir; rewrite parent_app; apply (ri_root _ _ Hinv)|by left]. }
  assert (Hk1 : ∀ k, m1 !! (ws ++ k) = None) by (intros k; unfold m1; rewrite lookup_insert_ne by done; apply Hfresh).
  assert (Hk0 : m1 !! ws = None) by (rewrite <-(app_nil_r ws); apply Hk1).
  assert (Ht1 : m1 !! workspaces_dir root = Some Dir) by apply lookup_insert_eq.
  split_and!.
  - split.
    + apply wf_insert; [done|unfold ws, workspace_dir_for; by destruct (workspaces_dir root)| |by left].
      unfold ws, workspace_dir_for. by rewrite parent_app.
    + unfold m2, create_dirs. by rewrite lookup_insert_ne by done.
    + intros p Hp. unfold m2, create_dirs. rewrite !lookup_insert_ne; [done|..]; intros <-; apply Hp; [by left|].
      right. apply below_true. exists []. by rewrite app_nil_r.
  - unfold m2, create_dirs. rewrite !lookup_insert_ne by done. apply (ri_root _ _ Hinv).
  - apply lookup_insert_eq.
  - intros f. unfold m2, create_dirs. rewrite lookup_insert_ne; [apply Hk1|]. intros E. symmetry in E. by apply snoc_neq in E.
  - apply evals_ensure_dir; [done|apply (ri_root _ _ Hinv)|apply (ri_top _ _ Hinv)].
  - apply evals_ensure_dir; [done|done|by left].
Qed.

Lemma grown_insert m m' id f n : grown m m' id → m' !! ws_of id = Some Dir → n = Dir ∨ m' !! (ws_of id ++ [f]) ≠ Some Dir →
  grown m (<[ws_of id ++ [f] := n]> m') id.
Proof.
  intros [H1 H2 H3] Hd Hn. split.
  - apply wf_insert; [done|by destruct (ws_of id)|by rewrite parent_app|done].
  - rewrite lookup_insert_ne; [done|]. intros E. apply (f_equal (@List.length _)) in E. unfold workspace_dir_for in E.
    rewrite !length_app in E. cbn in E. lia.
  - intros p Hp. rewrite lookup_insert_ne; [by apply H3|]. intros <-. apply Hp, below_scope.
Qed.

Lemma commit_create_evals m caches id now_str name tags : registry_inv m caches → (∀ k, m !! (ws_of id ++ k) = None) →
  ∃ r m', evals m (commit_create root id now_str name tags) r m' ∧ grown m m' id ∧
    match r with
    | Ok core => core = first_core id now_str name tags ∧ on_disk m' id core (mkHeadIndex [])
    | Err _ => m' !! workspace_core_path (ws_of id) = None
    end.
Proof.
  intros Hinv Hfresh. destruct (create_dirs_spec m caches id Hinv Hfresh) as (Hg & Hroot & Hws & Hf & He1 & He2).
  set (m2 := create_dirs m id) in *. set (ws := ws_of id) in *. set (core := first_core id now_str name tags).
  assert (Hcj : m2 !! workspace_core_path ws = None) by apply Hf. assert (Hhj : m2 !! head_index_path ws = None) by apply Hf.
  assert (Hch : head_index_path ws ≠ workspace_core_path ws) by (intros E; by apply app_inj_tail in E as [_ E]).
  assert (Hwc : ws ≠ workspace_core_path ws ∧ ws ≠ head_index_path ws) by (split; intros E; symmetry in E; by apply snoc_neq in E).
  unfold commit_create, workspace_dir. cbv zeta. fold ws. fold core.
  assert (Hdirs : ∀ f r m', evals m2 (f tt tt) r m' →
    evals m (a ← map_throw (io_err (workspaces_dir root)) (create_dir_all (workspaces_dir root));
      b ← map_throw (io_err ws) (create_dir_all ws); f a b : M FileError WorkspaceCore) r m').
  { intros f r m' H. eapply evals_bind; [by apply (evals_map_throw _ _ _ _ (Ok tt))|].
    eapply evals_bind; [by apply (evals_map_throw _ _ _ _ (Ok tt))|done]. }
  destruct (evals_write_index_any m2 ws (mkHeadIndex [])) as [(b' & Hi & Hb')|(e & Hi)]; [done|congruence|cbn; lia|..].
  2:{ exists (Err e), m2. split; [apply Hdirs; by apply evals_bind_err|]. done. }
  set (m3 := <[head_index_path ws := File b' true]> m2) in *.
  assert (Hg3 : grown m m3 id) by (apply grown_insert; [done|done|right; by rewrite Hf]).
  assert (Hws3 : m3 !! ws = Some Dir) by (unfold m3; by rewrite lookup_insert_ne by naive_solver).
  assert (Hcj3 : m3 !! workspace_core_path ws = None) by (unfold m3; by rewrite lookup_insert_ne).
  destruct (evals_write_core_any m3 ws core) as [(b & Hc & Hlen & Hb)|(e & Hc)]; [done|congruence|..].
  2:{ exists (Err e), m3. split; [apply Hdirs; eapply evals_bind; [exact Hi|by apply evals_bind_err]|]. done. }
  set (m4 := <[workspace_core_path ws := File b true]> m3) in *.
  assert (Hg4 : grown m m4 id).
  { apply grown_insert; [done|done|right]. intros E. change (m3 !! workspace_core_path ws = Some Dir) in E. congruence. }
  assert (Hr4 : m4 !! root = Some Dir).
  { rewrite (gr_same _ _ _ Hg4); [apply (ri_root _ _ Hinv)|]. intros [E|[k E]%below_true].
    - unfold workspaces_dir in E. symmetry in E. by apply snoc_neq in E.
    - apply (f_equal (@List.length _)) in E. unfold workspace_dir_for, workspaces_dir in E. rewrite !length_app in E. cbn in E. lia. }
  exists (Ok core), m4. split; [|split; [done|split; [done|]]].
  - apply Hdirs. eapply evals_bind; [exact Hi|]. eapply evals_bind; [exact Hc|].
    eapply evals_bind; [apply evals_fsync_if_there, Hg4|]. eapply evals_bind; [by apply evals_fsync_if_there|]. apply evals_ret.
  - exists b, true, b', true. split; [apply lookup_insert_eq|]. split_and!; [done|done| |done|cbn; lia].
    unfold m4. rewrite lookup_insert_ne by done. apply lookup_insert_eq.
Qed.

(** ** Requests keep the invariant *)

Definition fresh_dir (m : fs) (id : WorkspaceId) : Prop := ∀ k, m !! (ws_of id ++ k) = None.

Lemma other_scope id id' k : canonical_ws id → id' ≠ id → ¬ create_scope root id (ws_of id' ++ k).
Proof.
  intros Hc Hne [E|[k' E]%below_true].
  - apply (f_equal (@List.length _)) in E. unfold workspace_dir_for in E. rewrite !length_app in E. cbn in E. lia.
  - unfold workspace_dir_for in E. rewrite <-!app_assoc in E. apply app_inv_head in E. injection E as E _.
    by apply Hne, canonical_display.
Qed.

Lemma grown_other m m' id id' core hs : canonical_ws id → grown m m' id → id' ≠ id → on_disk m id' core hs ↔ on_disk m' id' core hs.
Proof. intros Hc Hg Hne. apply on_disk_ext. intros k. by apply (gr_same _ _ _ Hg), other_scope. Qed.

Lemma fresh_not_on_disk m id core hs : fresh_dir m id → ¬ on_disk m id core hs.
Proof. intros Hf (b & s & _ & _ & H & _). unfold workspace_core_path in H. by rewrite Hf in H. Qed.

Lemma grown_inv m m' caches id : registry_inv m caches → canonical_ws id → fresh_dir m id → grown m m' id →
  (m' !! workspace_core_path (ws_of id) = None ∨ ∃ core hs, on_disk m' id core hs ∧ ¬ name_taken m (core_name core) None) →
  registry_inv m' caches.
Proof.
  intros [I1 I2 I3 I4 I5 I6] Hc Hf Hg Hnew. pose proof (λ id' core hs, grown_other m m' id id' core hs Hc Hg) as Hother.
  assert (Hsame : ∀ id', id' ≠ id → m' !! workspace_core_path (ws_of id') = m !! workspace_core_path (ws_of id')).
  { intros id' Hne. by apply (gr_same _ _ _ Hg), other_scope. }
  assert (Hid : ∀ core hs, on_disk m' id core hs → ¬ name_taken m (core_name core) None).
  { intros core hs Hd. destruct Hnew as [Hn|(core' & hs' & Hd' & Ht)].
    - destruct Hd as (b & s & _ & _ & Hd & _). congruence.
    - by rewrite (on_disk_core _ _ _ _ _ _ Hd Hd'). }
  assert (Hfree : ∀ id' core core' hs hs', canonical_ws id' → id' ≠ id → on_disk m' id core hs → on_disk m' id' core' hs' →
    fold_name core' ≠ fold_name core).
  { intros id' core core' hs hs' Hc' Hne Hd Hd' E. apply (Hid _ _ Hd). exists id', core', hs'. split_and!; [done|done|by apply Hother|done]. }
  split.
  - apply Hg.
  - rewrite (gr_same _ _ _ Hg); [done|]. intros [E|[k E]%below_true].
    + unfold workspaces_dir in E. symmetry in E. by apply snoc_neq in E.
    + apply (f_equal (@List.length _)) in E. unfold workspace_dir_for, workspaces_dir in E. rewrite !length_app in E. cbn in E. lia.
  - right. apply Hg.
  - intros id' Hc' Hs. destruct (decide (id' = id)) as [->|Hne].
    + destruct Hnew as [Hn|(core & hs & Hd & _)]; [rewrite Hn in Hs; by destruct Hs|by exists core, hs].
    + rewrite Hsame in Hs by done. destruct (I4 id' Hc' Hs) as (core & hs & Hd). exists core, hs. by apply Hother.
  - intros id1 id2 c1 c2 h1 h2 Hc1 Hc2 Hd1 Hd2 E. destruct (decide (id1 = id)) as [->|Hn1], (decide (id2 = id)) as [->|Hn2]; [done|..].
    + symmetry in E. by apply (Hfree id2 c1 c2 h1 h2) in E.
    + by apply (Hfree id1 c2 c1 h2 h1) in E.
    + apply (I5 id1 id2 c1 c2 h1 h2); try done; by apply Hother.
  - intros id' cell E. destruct (I6 id' cell E) as [Hc' [hs Hd]]. split; [done|]. exists hs. apply Hother; [|done].
    intros ->. by apply (fresh_not_on_disk m id _ _ Hf) in Hd.
Qed.

Lemma create_evals {E} `{B : !Broadcast RegistryEvent} m id now_str name tags (mgr : WorkspaceMgr) :
  registry_inv m (mgr_caches mgr) → canonical_ws id → fresh_dir m id →
  ∃ mgr' r m', evals m (create_with_tags root id now_str name tags mgr : M E _) (Ok (mgr', r)) m' ∧
    registry_inv m' (mgr_caches mgr') ∧ (m' = m ∨ grown m m' id) ∧
    match r with
    | Ok id' => id' = id ∧ ¬ name_taken m name None ∧ ∃ core, core_name core = name ∧ on_disk m' id core (mkHeadIndex [])
    | Err e => name_taken m name None → m' = m
    end.
Proof.
  intros Hinv Hc Hf. unfold create_with_tags.
  destruct (validate_workspace_name name) as [[]|e]; [|exists mgr, (Err e), m; split; [apply evals_ret|]; split_and!; auto].
  destruct (validate_workspace_tags tags) as [ts|e]; [|exists mgr, (Err e), m; split; [apply evals_ret|]; split_and!; auto].
  destruct (evals_available (E := E) m name None (mgr_caches mgr) Hinv) as (caches & r & He & Hinv1 & Hr).
  destruct Hr as [[-> Ht]|[-> Ht]].
  { eexists (mkWorkspaceMgr (mgr_jobs mgr) caches), _, m. split; [eapply evals_bind; [exact He|apply evals_ret]|]. split_and!; auto. }
  destruct (commit_create_evals m caches id now_str name ts Hinv1 Hf) as (r & m' & Hcc & Hg & Hr).
  destruct r as [core|e].
  - destruct Hr as [-> Hd].
    assert (Hinv' : registry_inv m' caches).
    { eapply grown_inv; [exact Hinv1|done|done|done|right]. by exists (first_core id now_str name ts), (mkHeadIndex []). }
    eexists (mkWorkspaceMgr (mgr_jobs mgr) _), (Ok id), m'. split.
    { eapply evals_bind; [exact He|]. eapply evals_bind; [by apply evals_attempt|]. apply evals_ret. }
    split; [by eapply registry_inv_cell|]. split; [by right|]. split; [done|]. split; [done|]. by exists (first_core id now_str name ts).
  - eexists (mkWorkspaceMgr (mgr_jobs mgr) caches), (Err e), m'. split.
    { eapply evals_bind; [exact He|]. eapply evals_bind; [by apply evals_attempt|]. apply evals_ret. }
    split; [eapply grown_inv; [exact Hinv1|done|done|done|by left]|]. split; [by right|done].
Qed.

Lemma core_written m id core hs b core' : on_disk m id core hs → (Z.of_nat (List.length b) ≤ MAX_WORKSPACE_CORE_BYTES)%Z →
  from_slice b = Some core' → on_disk (<[workspace_core_path (ws_of id) := File b true]> m) id core' hs.
Proof.
  intros (c & s & c' & s' & H1 & H2 & H3 & H4 & H5 & H6) Hl Hb. exists b, true, c', s'. split; [apply lookup_insert_eq|].
  split_and!; [done|done| |done|done]. rewrite lookup_insert_ne; [done|]. intros E. by apply app_inj_tail in E as [_ E].
Qed.

Lemma core_written_inv m caches id core hs b core' cell : registry_inv m caches → canonical_ws id → on_disk m id core hs →
  (Z.of_nat (List.length b) ≤ MAX_WORKSPACE_CORE_BYTES)%Z → from_slice b = Some core' → cell_core cell = core' →
  fold_name core' = fold_name core ∨ ¬ name_taken m (core_name core') (Some id) →
  registry_inv (<[workspace_core_path (ws_of id) := File b true]> m) (<[id := cell]> caches).
Proof.
  intros [I1 I2 I3 I4 I5 I6] Hc Hd Hl Hb Hcell Hname. set (m' := <[workspace_core_path (ws_of id) := File b true]> m).
  pose proof (core_written m id core hs b core' Hd Hl Hb) as Hd'. fold m' in Hd'.
  assert (Hk : ∀ id' k, id' ≠ id → workspace_core_path (ws_of id) ≠ ws_of id' ++ k).
  { intros id' k Hne E. apply (other_scope id id' k Hc Hne). rewrite <-E. apply below_scope. }
  assert (Hother : ∀ id' c h, id' ≠ id → on_disk m id' c h ↔ on_disk m' id' c h).
  { intros id' c h Hne. apply on_disk_ext. intros k. unfold m'. by rewrite lookup_insert_ne by (by apply Hk). }
  assert (Hcj : is_Some (m !! workspace_core_path (ws_of id)) ∧ m !! workspace_core_path (ws_of id) ≠ Some Dir).
  { destruct Hd as (c & s & _ & _ & E & _). by rewrite E. }
  destruct (below_trans m (ws_of id) [WORKSPACE_CORE_FILENAME] I1 (proj1 Hcj)) as [Hws _]; [done|].
  assert (Hfree : ∀ id' c h, canonical_ws id' → id' ≠ id → on_disk m id' c h → fold_name c ≠ fold_name core').
  { intros id' c h Hc' Hne Hdc E. destruct Hname as [Hname|Hname].
    - apply Hne. apply (I5 id' id c core h hs); try done. congruence.
    - apply Hname. exists id', c, h. split_and!; [done|congruence|done|done]. }
  assert (Hlen : ∀ q, List.length q < List.length (ws_of id) → workspace_core_path (ws_of id) ≠ q).
  { intros q Hq E. apply (f_equal (@List.length _)) in E. unfold workspace_core_path in E. rewrite length_app in E. cbn in E. lia. }
  split.
  - apply wf_insert; [done|by destruct (ws_of id)|unfold workspace_core_path; by rewrite parent_app|right; apply Hcj].
  - unfold m'. rewrite lookup_insert_ne; [done|]. apply Hlen. unfold workspace_dir_for, workspaces_dir. rewrite !length_app. cbn. lia.
  - unfold m'. rewrite lookup_insert_ne; [done|]. apply Hlen. unfold workspace_dir_for. rewrite length_app. cbn. lia.
  - intros id' Hc' Hs. destruct (decide (id' = id)) as [->|Hne]; [by exists core', hs|].
    unfold m' in Hs. rewrite lookup_insert_ne in Hs by (by apply Hk). destruct (I4 id' Hc' Hs) as (c & h & Hdc). exists c, h. by apply Hother.
  - intros id1 id2 c1 c2 h1 h2 Hc1 Hc2 H1 H2 E. destruct (decide (id1 = id)) as [->|Hn1], (decide (id2 = id)) as [->|Hn2]; [done|..].
    + rewrite (on_disk_core _ _ _ _ _ _ H1 Hd') in E. exfalso. apply (Hfree id2 c2 h2); [done|done|by apply Hother|congruence].
    + rewrite (on_disk_core _ _ _ _ _ _ H2 Hd') in E. exfalso. apply (Hfree id1 c1 h1); [done|done|by apply Hother|congruence].
    + apply (I5 id1 id2 c1 c2 h1 h2); try done; by apply Hother.
  - intros id' cell' [[<- <-]|[Hne E]]%lookup_insert_Some; [split; [done|]; exists hs; by rewrite Hcell|].
    destruct (I6 id' cell' E) as [Hc' [h Hdc]]. split; [done|]. exists h. by apply Hother.
Qed.

Lemma with_cell_evals {E A} m m' caches id cell (f : WorkspaceCacheCell → M FileError (A * WorkspaceCacheCell)) r :
  evals m (cache_cell root caches id) (Ok cell) m → evals m (f cell) r m' →
  evals m (with_cell root caches id f : M E _)
    (Ok (match r with Ok (a, cell') => (<[id := cell']> caches, Ok a) | Err e => (<[id := cell]> caches, Err e) end)) m'.
Proof.
  intros H1 H2. unfold with_cell. eapply evals_bind; [by apply evals_attempt|]. cbv beta iota.
  eapply evals_bind; [by apply evals_attempt|]. destruct r as [[a c]|e]; apply evals_ret.
Qed.

Lemma patch_locked_evals {E} m caches id name tags : registry_inv m caches → canonical_ws id →
  match name with Some n => ¬ name_taken m n (Some id) | None => True end →
  ∃ caches' r m', evals m (patch_locked root id name tags caches : M E _) (Ok (caches', r)) m' ∧ registry_inv m' caches' ∧
    (∀ p, p ≠ workspace_core_path (ws_of id) → m' !! p = m !! p) ∧
    match r with
    | Ok core => ∃ core0 hs, on_disk m id core0 hs ∧ core = patch_core name tags core0 ∧ on_disk m' id core hs
    | Err e => m' = m
    end.
Proof.
  intros Hinv Hc Hfree. unfold patch_locked. destruct (decide (is_Some (m !! workspace_core_path (ws_of id)))) as [Hs|Hs].
  2:{ eexists caches, (Err _), m. split; [|done]. eapply evals_bind; [apply evals_exists|]. unfold workspace_dir.
      rewrite bool_decide_eq_false_2 by done. apply evals_ret. }
  destruct (evals_cell m caches id Hinv Hc Hs) as (cell & hs & He & Hd).
  set (next := patch_core name tags (cell_core cell)).
  destruct (below_trans m (ws_of id) [WORKSPACE_CORE_FILENAME] (ri_wf _ _ Hinv) Hs) as [Hws _]; [done|].
  assert (Hcj : m !! workspace_core_path (ws_of id) ≠ Some Dir) by (destruct Hd as (? & ? & ? & ? & E0 & _); by rewrite E0).
  assert (Hstart : ∀ r m', evals m (with_cell root caches id (λ cell, _ ← write_workspace_core (ws_of id) (patch_core name tags (cell_core cell));
      mret (patch_core name tags (cell_core cell), publish_core (patch_core name tags (cell_core cell)) cell)) : M E _) r m' →
    evals m (patch_locked root id name tags caches : M E _) r m').
  { intros r m' H. unfold patch_locked. eapply evals_bind; [apply evals_exists|]. unfold workspace_dir.
    by rewrite bool_decide_eq_true_2. }
  destruct (evals_write_core_any m (ws_of id) next Hws Hcj) as [(b & Hw & Hl & Hb)|(e & Hw)].
  - exists (<[id := publish_core next cell]> caches), (Ok next), (<[workspace_core_path (ws_of id) := File b true]> m).
    split.
    { apply Hstart. apply (with_cell_evals m _ caches id cell _ (Ok (next, publish_core next cell)) He).
      eapply evals_bind; [exact Hw|apply evals_ret]. }
    split; [eapply core_written_inv; [exact Hinv|done|exact Hd|done|exact Hb|done|]|].
    + destruct name as [n|]; [by right|by left].
    + split; [intros p Hp; by rewrite lookup_insert_ne|]. exists (cell_core cell), hs. split; [done|]. split; [done|]. by eapply core_written.
  - exists (<[id := cell]> caches), (Err e), m. split.
    { apply Hstart. apply (with_cell_evals m _ caches id cell _ (Err e) He). by apply evals_bind_err. }
    split; [by eapply registry_inv_cell|]. done.
Qed.

Lemma patch_evals {E} `{B : !Broadcast RegistryEvent} m id name tags (mgr : WorkspaceMgr) :
  registry_inv m (mgr_caches mgr) → canonical_ws id →
  ∃ mgr' r m', evals m (patch_workspace root id name tags mgr : M E _) (Ok (mgr', r)) m' ∧ registry_inv m' (mgr_caches mgr') ∧
    (∀ p, p ≠ workspace_core_path (ws_of id) → m' !! p = m !! p) ∧
    match r with
    | Ok core => ∃ core0 hs tags', on_disk m id core0 hs ∧ core = patch_core name tags' core0 ∧ on_disk m' id core hs
    | Err e => m' = m
    end.
Proof.
  intros Hinv Hc. unfold patch_workspace.
  assert (Herr : ∀ e, ∃ mgr' r m', evals m (mret (mgr, Err e) : M E (WorkspaceMgr * result FileError WorkspaceCore)) (Ok (mgr', r)) m' ∧
    registry_inv m' (mgr_caches mgr') ∧ (∀ p, p ≠ workspace_core_path (ws_of id) → m' !! p = m !! p) ∧
    match r with Ok core => ∃ core0 hs tags', on_disk m id core0 hs ∧ core = patch_core name tags' core0 ∧ on_disk m' id core hs | Err e => m' = m end).
  { intros e. exists mgr, (Err e), m. split; [apply evals_ret|done]. }
  destruct (bool_decide (name = None) && bool_decide (tags = None)); [apply Herr|].
  destruct (validate_name_opt name); [|apply Herr]. destruct (validate_tags_opt tags) as [ts|]; [|apply Herr].
  assert (Hav : ∃ caches r, evals m (match name with Some n => ensure_workspace_name_available root n (Some id) (mgr_caches mgr)
      | None => mret (mgr_caches mgr, Ok tt) end : M E _) (Ok (caches, r)) m ∧ registry_inv m caches ∧
      ((∃ e, r = Err e) ∨ r = Ok tt ∧ match name with Some n => ¬ name_taken m n (Some id) | None => True end)).
  { destruct name as [n|].
    - destruct (evals_available (E := E) m n (Some id) (mgr_caches mgr) Hinv) as (caches & r & H1 & H2 & [[-> H3]|[-> H3]]).
      + exists caches. eexists. split; [exact H1|]. split; [done|left; eauto].
      + exists caches, (Ok tt). split; [exact H1|]. split; [done|by right].
    - exists (mgr_caches mgr), (Ok tt). split; [apply evals_ret|]. split; [done|by right]. }
  destruct Hav as (caches & r & He & Hinv1 & Hr). destruct Hr as [[e ->]|[-> Hfree]].
  - eexists (mkWorkspaceMgr (mgr_jobs mgr) caches), (Err e), m. split; [eapply evals_bind; [exact He|apply evals_ret]|done].
  - destruct (patch_locked_evals (E := E) m caches id name ts Hinv1 Hc Hfree) as (caches' & r & m' & H1 & H2 & H3 & H4).
    eexists (mkWorkspaceMgr (mgr_jobs mgr) caches'), r, m'. split.
    { eapply evals_bind; [exact He|]. eapply evals_bind; [exact H1|]. apply evals_ret. }
    split; [done|]. split; [done|]. destruct r as [core|e]; [|done]. destruct H4 as (c0 & hs & E1 & E2 & E3). by exists c0, hs, ts.
Qed.

(** ** Sequences of requests *)

Inductive request : Type :=
  | ReqCreate (id : WorkspaceId) (now_str name : string) (tags : list string)
  | ReqPatch (id : WorkspaceId) (name : option string) (tags : option (list string)).

(** The ids [WorkspaceId::new()] hands out. *)
Definition new_ids (reqs : list request) : list WorkspaceId :=
  omap (λ q, match q with ReqCreate id _ _ _ => Some id | _ => None end) reqs.

Definition run_request {E} `{B : !Broadcast RegistryEvent} (q : request) (mgr : WorkspaceMgr) : M E (WorkspaceMgr * result FileError unit) :=
  match q with
  | ReqCreate id now_str name tags =>
      x ← create_with_tags root id now_str name tags mgr;
      mret (fst x, match snd x with Ok _ => Ok tt | Err e => Err e end)
  | ReqPatch id name tags =>
      x ← patch_workspace root id name tags mgr;
      mret (fst x, match snd x with Ok _ => Ok tt | Err e => Err e end)
  end.

Fixpoint run_requests {E} `{B : !Broadcast RegistryEvent} (reqs : list request) (mgr : WorkspaceMgr)
    : M E (WorkspaceMgr * list (result FileError unit)) :=
  match reqs with
  | [] => mret (mgr, [])
  | q :: reqs =>
      x ← run_request q mgr;
      y ← run_requests reqs (fst x);
      mret (fst y, snd x :: snd y)
  end.

Definition request_id (q : request) : WorkspaceId := match q with ReqCreate id _ _ _ | ReqPatch id _ _ => id end.

Lemma run_request_evals {E} `{B : !Broadcast RegistryEvent} m q (mgr : WorkspaceMgr) :
  registry_inv m (mgr_caches mgr) → canonical_ws (request_id q) → (∀ id, id ∈ new_ids [q] → fresh_dir m id) →
  ∃ mgr' r m', evals m (run_request q mgr : M E _) (Ok (mgr', r)) m' ∧ registry_inv m' (mgr_caches mgr') ∧
    (∀ id, id ∉ new_ids [q] → fresh_dir m id → fresh_dir m' id).
Proof.
  intros Hinv Hc Hf. destruct q as [id now_str name tags|id name tags]; cbn [request_id run_request new_ids omap list_omap] in *.
  - destruct (create_evals (E := E) m id now_str name tags mgr Hinv Hc (Hf id ltac:(left))) as (mgr' & r & m' & H1 & H2 & H3 & _).
    eexists mgr', _, m'. split; [eapply evals_bind; [exact H1|apply evals_ret]|]. split; [done|].
    intros id' Hne Hf' k. destruct H3 as [->|H3]; [done|]. rewrite (gr_same _ _ _ H3); [done|].
    apply other_scope; [done|]. intros ->. apply Hne. left.
  - destruct (patch_evals (E := E) m id name tags mgr Hinv Hc) as (mgr' & r & m' & H1 & H2 & H3 & H4).
    eexists mgr', _, m'. split; [eapply evals_bind; [exact H1|apply evals_ret]|]. split; [done|].
    intros id' _ Hf' k. destruct r as [core|e]; [|by subst]. destruct H4 as (c0 & hs & _ & Hd & _).
    assert (id' ≠ id) by (intros ->; by apply (fresh_not_on_disk m id _ _ Hf') in Hd).
    rewrite H3; [done|]. intros E0. apply (other_scope id id' k Hc); [done|]. rewrite E0. apply below_scope.
Qed.

Lemma run_requests_evals {E} `{B : !Broadcast RegistryEvent} reqs m (mgr : WorkspaceMgr) :
  registry_inv m (mgr_caches mgr) → Forall (λ q, canonical_ws (request_id q)) reqs →
  NoDup (new_ids reqs) → (∀ id, id ∈ new_ids reqs → fresh_dir m id) →
  ∃ mgr' rs m', evals m (run_requests reqs mgr : M E _) (Ok (mgr', rs)) m' ∧ registry_inv m' (mgr_caches mgr') ∧
    List.length rs = List.length reqs.
Proof.
  revert m mgr. induction reqs as [|q reqs IH]; intros m mgr Hinv Hc Hnd Hf; cbn [run_requests].
  { exists mgr, [], m. split; [apply evals_ret|done]. }
  apply List.Forall_cons_iff in Hc as [Hcq Hc].
  assert (Hnew : new_ids (q :: reqs) = new_ids [q] ++ new_ids reqs) by (unfold new_ids; by destruct q).
  rewrite Hnew in Hnd. apply list.NoDup_app in Hnd as (_ & Hdisj & Hnd).
  destruct (run_request_evals (E := E) m q mgr Hinv Hcq) as (mgr1 & r & m1 & H1 & H2 & H3).
  { intros id Hid. apply Hf. rewrite Hnew. apply elem_of_app. by left. }
  destruct (IH m1 mgr1 H2 Hc Hnd) as (mgr' & rs & m' & H4 & H5 & H6).
  { intros id Hid. apply H3; [intros Hq; by apply (Hdisj id)|]. apply Hf. rewrite Hnew. apply elem_of_app. by right. }
  eexists mgr', _, m'. split; [eapply evals_bind; [exact H1|]; eapply evals_bind; [exact H4|apply evals_ret]|]. split; [done|].
  cbn. by rewrite H6.
Qed.
End Names.

(** C30: Workspace names stay distinct, case aside.  From a loadable tree with
    distinct names whose cached cores are those on disk, every calm sequence of
    create and patch requests (each create under a new id of its own) returns, one answer per request, and leaves such a tree
    and such a cache: two workspaces on disk never have the same folded name. *)
Theorem workspace_names_distinct `{UL : UuidLaws} `{TL : TempLaws} `{CT : CharTables}
    `{JC : Json WorkspaceCore} `{!JsonLaws WorkspaceCore} `{JH : Json HeadIndex} `{!JsonLaws HeadIndex}
    `{B : !Broadcast RegistryEvent} (root : path) (m : fs) (mgr : WorkspaceMgr) (reqs : list request) (d : Disk)
    (Hinv : registry_inv root m (mgr_caches mgr)) (Hd : on_tree (eq m) d)
    (Hids : Forall (λ q, canonical_ws (request_id q)) reqs) (Hnew : NoDup (new_ids reqs))
    (Hfresh : ∀ id, id ∈ new_ids reqs → fresh_dir root m id) :
  ∃ mgr' answers d' m', (run_requests root reqs mgr : M FileError _) (calm d) = (calm d', Ret (mgr', answers)) ∧
    on_tree (eq m') d' ∧ List.length answers = List.length reqs ∧ registry_inv root m' (mgr_caches mgr') ∧
    ∀ id id' core core' hs hs', canonical_ws id → canonical_ws id' → on_disk root m' id core hs → on_disk root m' id' core' hs' →
      to_lowercase (core_name core) = to_lowercase (core_name core') → id = id'.
Proof.
  destruct (run_requests_evals (E := FileError) root reqs m mgr Hinv Hids Hnew Hfresh) as (mgr' & rs & m' & H1 & H2 & H3).
  destruct (H1 d Hd) as (d' & E1 & E2). exists mgr', rs, d', m'. split; [exact E1|]. split; [done|]. split; [done|].
  split; [done|]. apply (ri_names _ _ _ H2).
Qed.

(** ** Scenarios *)

Section Scenario.
#[local] Existing Instance text_uuid_lib.
#[local] Existing Instance long_temp_lib.
#[local] Instance rn_bus : Broadcast RegistryEvent := ring_broadcast RegistryEvent.
#[local] Instance rn_core_json : Json WorkspaceCore := bits_json WorkspaceCore.
#[local] Instance rn_index_json : Json HeadIndex := bits_json HeadIndex.
(** The case table on ASCII. *)
#[local] Instance rn_tables : CharTables := {| to_lowercase s := string_of_list_ascii (map ascii_lower (bytes_of s)) |}.

Definition rn_id (c : ascii) : WorkspaceId :=
  mkWorkspaceId (("00000000-0000-4000-8000-00000000000" ++ String c "")%string : Uuid).
Definition rn_empty : fs := {[ [] := Dir ]}.
Definition rn_mgr : WorkspaceMgr := mkWorkspaceMgr JobRegistry_new ∅.
Definition rn_reqs : list request :=
  [ReqCreate (rn_id "a") "t" "Main" []; ReqCreate (rn_id "b") "t" "mAIN" []; ReqPatch (rn_id "a") (Some "Other"%string) None;
   ReqCreate (rn_id "c") "t" "main" ["x"%string]].

Lemma rn_empty_lookup p : p ≠ [] → rn_empty !! p = None.
Proof. intros Hp. by apply lookup_singleton_ne. Qed.

Lemma rn_fresh id : fresh_dir [] rn_empty id.
Proof. intros k. by apply rn_empty_lookup. Qed.

Lemma rn_inv : registry_inv [] rn_empty (mgr_caches rn_mgr).
Proof.
  assert (Hno : ∀ id core hs, ¬ on_disk [] rn_empty id core hs) by (intros id core hs; apply fresh_not_on_disk, rn_fresh).
  split.
  - intros q [n Hn] Hq. by rewrite rn_empty_lookup in Hn.
  - apply lookup_singleton_eq.
  - left. by apply rn_empty_lookup.
  - intros id _ [n Hn]. unfold workspace_core_path in Hn. by rewrite rn_fresh in Hn.
  - intros id id' core core' hs hs' _ _ Hd. by apply Hno in Hd.
  - intros id cell Hc. cbn in Hc. by apply lookup_empty_Some in Hc.
Qed.

Lemma workspace_names_distinct_witness :
  ∃ mgr' answers d', (run_requests [] rn_reqs rn_mgr : M FileError _) (calm (mkDisk rn_empty [])) = (calm d', Ret (mgr', answers)) ∧
    List.length answers = 4.
Proof.
  destruct (workspace_names_distinct (UL := text_uuid_laws) (TL := long_temp_laws) (CT := rn_tables)
    (JsonLaws0 := bits_json_laws WorkspaceCore) (JsonLaws1 := bits_json_laws HeadIndex) (B := rn_bus)
    [] rn_empty rn_mgr rn_reqs (mkDisk rn_empty []) rn_inv) as (mgr' & answers & d' & m' & H1 & _ & H2 & _).
  - by split; [constructor|].
  - by repeat constructor.
  - apply (bool_decide_unpack _). vm_compute. exact I.
  - intros id _. apply rn_fresh.
  - exists mgr', answers, d'. split; [exact H1|exact H2].
Defined.

(** The name folds equal, so the second create is refused; the last one takes
    the name the patch gave up. *)
Example rn_answers :
  match (run_requests [] rn_reqs rn_mgr : M FileError _) (calm (mkDisk rn_empty [])) with
  | (_, Ret (_, answers)) => answers = [Ok tt; Err (FE_NameConflict "mAIN"); Ok tt; Ok tt]
  | _ => False
  end.
Proof. vm_compute. reflexivity. Qed.

(** When only the last directory sync of a patch fails, the new name is on disk
    and the cached core keeps the old one; the uniqueness check reads the cache,
    so a create of that name then succeeds: two workspaces on disk share it. *)
Definition rn_core : WorkspaceCore := mkWorkspaceCore (rn_id "a") "old" [] "t" (mkWorkspaceRevision 0 "t") 0.
Definition rn_one : fs := list_to_map
  [([], Dir); (["workspaces"%string], Dir); (workspace_dir_for [] (rn_id "a"), Dir);
   (workspace_core_path (workspace_dir_for [] (rn_id "a")), File (bits (encode rn_core)) true);
   (head_index_path (workspace_dir_for [] (rn_id "a")), File (bits (encode (mkHeadIndex []))) true)].
Definition rn_one_mgr : WorkspaceMgr := mkWorkspaceMgr JobRegistry_new {[ rn_id "a" := mkCell rn_core (mkHeadIndex []) ]}.

Definition disk_name (d : Disk) (id : WorkspaceId) : option string :=
  match visible d !! workspace_core_path (workspace_dir_for [] id) with
  | Some (File b _) => core ← (from_slice b : option WorkspaceCore); Some (core_name core)
  | _ => None
  end.

Lemma patch_error_duplicates_name :
  let '(w', r) := (patch_workspace [] (rn_id "a") (Some "new"%string) None rn_one_mgr : M FileError _)
    (mkWorld (mkDisk rn_one []) None [false; false; false; false; false; false; true]) in
  match r with
  | Ret (mgr', Err _) =>
      let '(w'', r') := (create_with_tags [] (rn_id "b") "t" "new" [] mgr' : M FileError _) (calm (disk w')) in
      match r' with Ret (_, Ok _) => true | _ => false end = true ∧
      disk_name (disk w'') (rn_id "a") = Some "new"%string ∧ disk_name (disk w'') (rn_id "b") = Some "new"%string
  | _ => False
  end.
Proof. vm_compute. split_and!; reflexivity. Qed.
End Scenario.
