(* ===== verification/Framing.v ===== *)
(** * Wire framing ([src/modules/proto/framing.rs], [src/modules/stream_io/framing.rs])

    Envelopes, the length prefix and its reader.  A reader delivers its bytes in
    arbitrary pieces, and may fail between two of them.

    Parameter: the code [prost] generates for the three [.proto] files
    ([Prost]). *)

From S2P Require Import Prelude HeadHeader Common.

(** ** Messages ([src/modules/proto/*.proto]) *)

Inductive Codec : Type :=
  | Opus (b : list Z)
  | PcmS16 (b : list Z)
  | Flac (b : list Z).

Record AudioFrame := mkAudioFrame {
  af_seq : Z;
  af_t_us_capture_monotonic : option Z;
  af_t_us_publish_unix : option Z;
  af_sample_rate : option Z;
  af_frame_duration_ms : option Z;
  af_codec : option Codec;
}.

(** A [float] is its 32 bits. *)
Record TopK := mkTopK { tk_class_idx : Z; tk_label : string; tk_prob : Z }.

Record InferenceFrame := mkInferenceFrame {
  if_seq : Z;
  if_t_us_capture_monotonic : option Z;
  if_t_us_publish_unix : option Z;
  if_top_k : list TopK;
  if_head_id : option string;
  if_head_version : option Z;
}.

Inductive EnvelopePayload : Type :=
  | Audio (frame : AudioFrame)
  | Inference (frame : InferenceFrame).

Record Envelope := mkEnvelope { env_payload : option EnvelopePayload }.

(** [prost::Message] for [Envelope]: encoding yields bytes that decode to the
    same message. *)
Class Prost := { encode_to_vec : Envelope → list Z; prost_decode : list Z → option Envelope }.
Class ProstLaws `(P : Prost) := {
  prost_bytes : ∀ e, Forall is_byte (encode_to_vec e);
  prost_decode_encode : ∀ e, prost_decode (encode_to_vec e) = Some e;
}.

(** ** The checked encoder *)

Definition WS_SUBPROTOCOL : string := "acoustics".
Definition MAX_UDS_FRAME_BYTES : Z := (64 * 1024)%Z.

Inductive FramingEncodeError : Type := PayloadTooLarge (observed : nat) (max : Z).

Definition FramingEncodeError_kind (e : FramingEncodeError) : ErrorKind := Internal.

(** [payload.len() as u32] is exact after the check. *)
Definition try_encode_length_prefixed (payload : list Z) : result FramingEncodeError (list Z) :=
  if (MAX_UDS_FRAME_BYTES <? Z.of_nat (List.length payload))%Z
  then Err (PayloadTooLarge (List.length payload) MAX_UDS_FRAME_BYTES)
  else
  let len := (Z.of_nat (List.length payload) mod (u32_max + 1))%Z in
  Ok (u32_to_le_bytes len ++ payload).

(** ** Readers *)

(** What one [read] finds: some bytes (none at the end of the stream) or an
    error; after the last arrival the stream has ended. *)
Inductive arrival : Type := Bytes (bs : list Z) | ReadFails (k : IoKind).
Definition reader : Type := list arrival.

Inductive ReadError : Type := UnexpectedEof | ReadIo (k : IoKind).

(** [AsyncReadExt::read_exact] with [n] bytes still to fill. *)
Fixpoint read_exact (n : nat) (acc : list Z) (r : reader) : reader * result ReadError (list Z) :=
  if (n =? 0) then (r, Ok acc)
  else match r with
       | [] => ([], Err UnexpectedEof)
       | ReadFails k :: r => (r, Err (ReadIo k))
       | Bytes [] :: r => (r, Err UnexpectedEof)
       | Bytes bs :: r =>
           if (List.length bs <=? n) then read_exact (n - List.length bs) (acc ++ bs) r
           else (Bytes (drop n bs) :: r, Ok (acc ++ take n bs))
       end.

Inductive FramingError : Type :=
  | OversizedPrefix (observed max : Z)
  | Truncated (declared : Z)
  | Io (source : ReadError).

Definition decode_length_prefixed (r : reader) : reader * result FramingError (list Z) :=
  match read_exact 4 [] r with
  | (r, Err source) => (r, Err (Io source))
  | (r, Ok len_buf) =>
      let len := u32_from_le_bytes len_buf in
      if (MAX_UDS_FRAME_BYTES <? len)%Z then (r, Err (OversizedPrefix len MAX_UDS_FRAME_BYTES))
      else match read_exact (Z.to_nat len) [] r with
           | (r, Ok payload) => (r, Ok payload)
           | (r, Err UnexpectedEof) => (r, Err (Truncated len))
           | (r, Err source) => (r, Err (Io source))
           end
  end.

(** A client: frames until the first error, where it closes. *)
Fixpoint receive (fuel : nat) (r : reader) : list (list Z) * option FramingError :=
  match fuel with
  | 0 => ([], None)
  | S fuel =>
      match decode_length_prefixed r with
      | (_, Err e) => ([], Some e)
      | (r, Ok payload) => let '(ps, e) := receive fuel r in (payload :: ps, e)
      end
  end.

(** ** Envelopes *)

Section Envelopes.
Context `{P : Prost}.

Definition wrap_audio (frame : AudioFrame) : list Z := encode_to_vec (mkEnvelope (Some (Audio frame))).
Definition wrap_inference (frame : InferenceFrame) : list Z := encode_to_vec (mkEnvelope (Some (Inference frame))).

(** With a scratch buffer: cleared, filled, split off whole. *)
Definition wrap_audio_into (buf : list Z) (frame : AudioFrame) : list Z * list Z :=
  let buf := [] in
  let buf := buf ++ encode_to_vec (mkEnvelope (Some (Audio frame))) in
  ([], buf).
Definition wrap_inference_into (buf : list Z) (frame : InferenceFrame) : list Z * list Z :=
  let buf := [] in
  let buf := buf ++ encode_to_vec (mkEnvelope (Some (Inference frame))) in
  ([], buf).

Inductive ProtoDecodeError : Type := Decode | MissingPayload.

Definition ProtoDecodeError_kind (e : ProtoDecodeError) : ErrorKind := UserInput.

Definition decode_envelope (bytes : list Z) : result ProtoDecodeError Envelope :=
  match prost_decode bytes with
  | None => Err Decode
  | Some env => match env_payload env with None => Err MissingPayload | Some _ => Ok env end
  end.
End Envelopes.

(** ** A reader as one run of bytes *)

(** How it ends. *)
Fixpoint flat (r : reader) : list Z * ReadError :=
  match r with
  | [] => ([], UnexpectedEof)
  | ReadFails k :: _ => ([], ReadIo k)
  | Bytes [] :: _ => ([], UnexpectedEof)
  | Bytes bs :: r => let '(rest, e) := flat r in (bs ++ rest, e)
  end.

(** The contract on one run of bytes: the payload and what follows it. *)
Definition decode_flat (bs : list Z) (ending : ReadError) : result FramingError (list Z * list Z) :=
  if (List.length bs <? 4) then Err (Io ending)
  else
  let len := u32_from_le_bytes (take 4 bs) in
  if (MAX_UDS_FRAME_BYTES <? len)%Z then Err (OversizedPrefix len MAX_UDS_FRAME_BYTES)
  else if (List.length bs - 4 <? Z.to_nat len)
  then Err match ending with UnexpectedEof => Truncated len | e => Io e end
  else Ok (take (Z.to_nat len) (drop 4 bs), drop (Z.to_nat len) (drop 4 bs)).

Lemma read_exact_flat n acc r :
  match read_exact n acc r with
  | (r', Ok bs) => n ≤ List.length (fst (flat r)) ∧ bs = acc ++ take n (fst (flat r)) ∧
                   flat r' = (drop n (fst (flat r)), snd (flat r))
  | (_, Err e) => List.length (fst (flat r)) < n ∧ e = snd (flat r)
  end.
Proof.
  revert n acc. induction r as [|[bs|k] r IH]; intros n acc; cbn [read_exact]; destruct (Nat.eqb_spec n 0) as [->|Hn].
  1, 3, 5: by rewrite take_0, app_nil_r, drop_0, <-surjective_pairing; split; [lia|].
  - cbn. split; [lia|done].
  - destruct bs as [|b bs]; [cbn; split; [lia|done]|]. set (c := b :: bs).
    assert (Hc : c ≠ []) by done. assert (E : flat (Bytes c :: r) = (c ++ fst (flat r), snd (flat r))) by (cbn; by destruct (flat r)).
    rewrite E. cbn [fst snd]. rewrite length_app. clearbody c. destruct (Nat.leb_spec (List.length c) n) as [Hl|Hl].
    + specialize (IH (n - List.length c) (acc ++ c)). destruct (read_exact _ _ _) as [r' [bs'|e]].
      * destruct IH as (H1 & -> & H2). split; [lia|]. rewrite H2, take_app, drop_app, <-app_assoc.
        rewrite (take_ge c), (drop_ge c) by lia. done.
      * destruct IH as [H1 ->]. split; [lia|done].
    + split; [lia|]. rewrite take_app_le, drop_app_le by lia. split; [done|]. cbn.
      destruct (drop n c) as [|x l] eqn:Ed; [apply (f_equal (@List.length _)) in Ed; rewrite length_drop in Ed; cbn in Ed; lia|].
      by destruct (flat r).
  - cbn. split; [lia|done].
Qed.

Lemma decode_spec r :
  match decode_length_prefixed r, decode_flat (fst (flat r)) (snd (flat r)) with
  | (r', Ok p), Ok (p', rest) => p = p' ∧ flat r' = (rest, snd (flat r))
  | (_, Err e), Err e' => e = e'
  | _, _ => False
  end.
Proof.
  unfold decode_length_prefixed, decode_flat. pose proof (read_exact_flat 4 [] r) as H.
  destruct (read_exact 4 [] r) as [r1 [buf|e]].
  2:{ destruct H as [H ->]. destruct (Nat.ltb_spec (List.length (fst (flat r))) 4); [done|lia]. }
  destruct H as (H1 & -> & H2). destruct (Nat.ltb_spec (List.length (fst (flat r))) 4); [lia|]. cbn [app].
  destruct (_ <? _)%Z; [done|]. set (n := Z.to_nat _). pose proof (read_exact_flat n [] r1) as H3.
  rewrite H2 in H3. cbn [fst snd] in H3. rewrite length_drop in H3.
  destruct (read_exact n [] r1) as [r2 [p|e]].
  - destruct H3 as (H4 & -> & H5). destruct (Nat.ltb_spec (List.length (fst (flat r)) - 4) n); [lia|]. done.
  - destruct H3 as [H4 ->]. destruct (Nat.ltb_spec (List.length (fst (flat r)) - 4) n); [|lia].
    by destruct (snd (flat r)).
Qed.

(** ** Encoded frames *)

Lemma encode_layout payload w :
  try_encode_length_prefixed payload = Ok w →
  (Z.of_nat (List.length payload) ≤ MAX_UDS_FRAME_BYTES)%Z ∧
  w = u32_to_le_bytes (Z.of_nat (List.length payload)) ++ payload.
Proof.
  unfold try_encode_length_prefixed. destruct (Z.ltb_spec MAX_UDS_FRAME_BYTES (Z.of_nat (List.length payload))); [done|].
  intros [= <-]. split; [done|]. rewrite Z.mod_small; [done|]. unfold MAX_UDS_FRAME_BYTES, u32_max in *. lia.
Qed.

Lemma prefix_value (n : nat) : (Z.of_nat n ≤ MAX_UDS_FRAME_BYTES)%Z → u32_from_le_bytes (u32_to_le_bytes (Z.of_nat n)) = Z.of_nat n.
Proof. intros H. apply from_to_le. unfold is_u32, MAX_UDS_FRAME_BYTES, u32_max in *. lia. Qed.

(** A whole frame at the front is the payload; a cut one is an error. *)
Lemma decode_flat_whole payload w rest e :
  try_encode_length_prefixed payload = Ok w → decode_flat (w ++ rest) e = Ok (payload, rest).
Proof.
  intros [Hl ->]%encode_layout. unfold decode_flat. rewrite !length_app, length_u32_to_le_bytes, <-app_assoc.
  destruct (Nat.ltb_spec (4 + List.length payload + List.length rest) 4); [lia|].
  rewrite (take_app_length' (u32_to_le_bytes _)), (drop_app_length' (u32_to_le_bytes _)) by done.
  rewrite prefix_value by done. destruct (Z.ltb_spec MAX_UDS_FRAME_BYTES (Z.of_nat (List.length payload))); [lia|].
  rewrite Nat2Z.id. destruct (Nat.ltb_spec (4 + List.length payload + List.length rest - 4) (List.length payload)); [lia|].
  by rewrite take_app_length, drop_app_length.
Qed.

Lemma decode_flat_cut payload w k e :
  try_encode_length_prefixed payload = Ok w → k < List.length w → ∃ err, decode_flat (take k w) e = Err err.
Proof.
  intros [Hl ->]%encode_layout Hk. rewrite length_app, length_u32_to_le_bytes in Hk. unfold decode_flat.
  rewrite length_take, length_app, length_u32_to_le_bytes.
  destruct (Nat.ltb_spec (k `min` (4 + List.length payload)) 4); [by eexists|].
  rewrite take_take, Nat.min_l by lia. rewrite (take_app_length' (u32_to_le_bytes _)) by done. rewrite prefix_value by done.
  destruct (Z.ltb_spec MAX_UDS_FRAME_BYTES (Z.of_nat (List.length payload))); [lia|]. rewrite Nat2Z.id.
  destruct (Nat.ltb_spec (k `min` (4 + List.length payload) - 4) (List.length payload)); [by eexists|lia].
Qed.

Lemma decode_of_flat r :
  match decode_flat (fst (flat r)) (snd (flat r)) with
  | Ok (p, rest) => ∃ r', decode_length_prefixed r = (r', Ok p) ∧ flat r' = (rest, snd (flat r))
  | Err e => ∃ r', decode_length_prefixed r = (r', Err e)
  end.
Proof.
  pose proof (decode_spec r) as H. destruct (decode_length_prefixed r) as [r' [p|e]], (decode_flat _ _) as [[p' rest]|e'];
    try done; [|by exists r'; subst]. destruct H as [-> H]. by exists r'.
Qed.

(** What a client receives from the first [k] bytes of a stream of frames. *)
Lemma receive_stream (payloads wires : list (list Z)) k r e :
  Forall2 (λ p w, try_encode_length_prefixed p = Ok w) payloads wires →
  flat r = (take k (List.concat wires), e) →
  ∃ n err, receive (S (List.length payloads)) r = (take n payloads, Some err) ∧ n ≤ List.length payloads ∧
    List.length (List.concat (take n wires)) ≤ k ∧
    (n = List.length payloads → err = Io e) ∧ (n < List.length payloads → k < List.length (List.concat (take (S n) wires))).
Proof.
  intros HF. revert k r. induction HF as [|p w ps ws Hp HF IH]; intros k r Hr; cbn [List.concat] in Hr.
  - exists 0, (Io e). rewrite take_nil in Hr. cbn [List.length receive]. pose proof (decode_of_flat r) as H. rewrite Hr in H. cbn in H.
    destruct H as [r' ->]. split_and!; cbn; try done; lia.
  - cbn [List.length]. set (m := List.length ps) in *. pose proof (decode_of_flat r) as H. rewrite Hr in H. cbn [fst snd] in H.
    destruct (Nat.le_gt_cases (List.length w) k) as [Hk|Hk].
    + rewrite take_app_ge in H by done. rewrite (decode_flat_whole _ _ _ _ Hp) in H. destruct H as (r' & E & Hr').
      destruct (IH (k - List.length w) r' Hr') as (n & err & E' & Hn & Hk' & H1 & H2).
      exists (S n), err. change (receive (S (S m)) r) with (match decode_length_prefixed r with (_, Err e) => ([], Some e)
        | (r, Ok payload) => let '(ps, e) := receive (S m) r in (payload :: ps, e) end). rewrite E.
      rewrite E'. cbn [take List.concat]. rewrite length_app. split_and!; [done|lia|lia|intros; apply H1; lia|].
      intros Hlt. cbn [take List.concat]. rewrite length_app. assert (Hn' : n < List.length ps) by (unfold m in *; lia).
      specialize (H2 Hn'). cbn [take] in H2. lia.
    + rewrite take_app_le in H by lia. destruct (decode_flat_cut p w k e Hp Hk) as [err E]. rewrite E in H. destruct H as [r' E'].
      exists 0, err. cbn [receive]. rewrite E'. cbn. rewrite ?app_nil_r. split_and!; try done; lia.
Qed.

(** ** Properties *)

(** The reader does not depend on how the transport cuts the stream.  On any
    pieces, [decode_length_prefixed] answers what the length-prefix contract says
    of the bytes in one run: the same payload and the same remainder, or the same
    error (a missing prefix, a prefix over the cap rejected before its payload is
    looked at, a truncated payload). *)
Theorem decode_any_chunking (r : reader) :
  match decode_flat (fst (flat r)) (snd (flat r)) with
  | Ok (payload, rest) => ∃ r', decode_length_prefixed r = (r', Ok payload) ∧ flat r' = (rest, snd (flat r)) ∧
      (Z.of_nat (List.length payload) ≤ MAX_UDS_FRAME_BYTES)%Z
  | Err e => ∃ r', decode_length_prefixed r = (r', Err e)
  end.
Proof.
  pose proof (decode_of_flat r) as H. destruct (decode_flat _ _) as [[p rest]|err] eqn:E; [|done].
  destruct H as (r' & H1 & H2). exists r'. split_and!; [done|done|]. unfold decode_flat in E.
  destruct (_ <? 4); [done|]. destruct (Z.ltb_spec MAX_UDS_FRAME_BYTES (u32_from_le_bytes (take 4 (fst (flat r))))) as [|Hl]; [done|].
  destruct (_ <? _) eqn:E'; [done|]. injection E as <- <-. rewrite length_take. unfold MAX_UDS_FRAME_BYTES in *. lia.
Qed.

(** C38: What is broadcast is what a client decodes.  Envelopes that the encoder
    accepts, sent in order, cut anywhere and delivered in any pieces: the client
    gets exactly the envelopes whose frames are wholly inside what arrived, in
    order and unchanged, then an error that makes it close; all of them when
    everything arrived. *)
Theorem wire_roundtrip `{P : Prost} `{PL : !ProstLaws P} (envs : list EnvelopePayload) (wires : list (list Z)) (k : nat)
    (r : reader) (e : ReadError)
    (Henc : Forall2 (λ p w, try_encode_length_prefixed
       match p with Audio f => wrap_audio f | Inference f => wrap_inference f end = Ok w) envs wires)
    (Hr : flat r = (take k (List.concat wires), e)) :
  ∃ n payloads err, receive (S (List.length envs)) r = (payloads, Some err) ∧ n ≤ List.length envs ∧
    map decode_envelope payloads = map (λ p, Ok (mkEnvelope (Some p))) (take n envs) ∧
    List.length (List.concat (take n wires)) ≤ k ∧
    (n < List.length envs → k < List.length (List.concat (take (S n) wires))) ∧
    (List.length (List.concat wires) ≤ k → n = List.length envs ∧ err = Io e).
Proof.
  set (wrap := λ p, match p with Audio f => wrap_audio f | Inference f => wrap_inference f end) in *.
  destruct (receive_stream (map wrap envs) wires k r e) as (n & err & E & Hn & Hk & H1 & H2); [by apply Forall2_fmap_l|done|].
  rewrite length_map in *. exists n, (take n (map wrap envs)), err. split_and!; [done|done| |done|done|].
  - rewrite firstn_map, map_map. apply map_ext. intros p. unfold decode_envelope.
    assert (Hw : wrap p = encode_to_vec (mkEnvelope (Some p))) by (by destruct p). rewrite Hw, prost_decode_encode. done.
  - intros Hall. destruct (Nat.lt_ge_cases n (List.length envs)) as [Hlt|Hge]; [|by split; [lia|apply H1; lia]].
    specialize (H2 Hlt). exfalso. rewrite <-(take_drop (S n) wires), concat_app, length_app in Hall. lia.
Qed.

(** ** Two frames, cut inside a piece *)

#[export] Instance Codec_eq_dec : EqDecision Codec.
Proof. solve_decision. Defined.
#[export] Instance Codec_countable : Countable Codec.
Proof.
  apply (inj_countable' (λ c, match c with Opus b => (0, b) | PcmS16 b => (1, b) | Flac b => (2, b) end)
    (λ '(n, b), match n with 0 => Opus b | 1 => PcmS16 b | _ => Flac b end)). by intros [].
Defined.
#[export] Instance AudioFrame_eq_dec : EqDecision AudioFrame.
Proof. solve_decision. Defined.
#[export] Instance AudioFrame_countable : Countable AudioFrame.
Proof.
  apply (inj_countable' (λ f, (af_seq f, af_t_us_capture_monotonic f, af_t_us_publish_unix f, af_sample_rate f,
    af_frame_duration_ms f, af_codec f)) (λ '(a, b, c, d, e, f), mkAudioFrame a b c d e f)). by intros [].
Defined.
#[export] Instance TopK_eq_dec : EqDecision TopK.
Proof. solve_decision. Defined.
#[export] Instance TopK_countable : Countable TopK.
Proof. apply (inj_countable' (λ t, (tk_class_idx t, tk_label t, tk_prob t)) (λ '(a, b, c), mkTopK a b c)). by intros []. Defined.
#[export] Instance InferenceFrame_eq_dec : EqDecision InferenceFrame.
Proof. solve_decision. Defined.
#[export] Instance InferenceFrame_countable : Countable InferenceFrame.
Proof.
  apply (inj_countable' (λ f, (if_seq f, if_t_us_capture_monotonic f, if_t_us_publish_unix f, if_top_k f,
    if_head_id f, if_head_version f)) (λ '(a, b, c, d, e, f), mkInferenceFrame a b c d e f)). by intros [].
Defined.
#[export] Instance EnvelopePayload_eq_dec : EqDecision EnvelopePayload.
Proof. solve_decision. Defined.
#[export] Instance EnvelopePayload_countable : Countable EnvelopePayload.
Proof.
  apply (inj_countable' (λ p, match p with Audio f => inl f | Inference f => inr f end)
    (λ x, match x with inl f => Audio f | inr f => Inference f end)). by intros [].
Defined.

Definition bits_prost : Prost := {|
  encode_to_vec := λ e, map byte_val (bits (encode (env_payload e)));
  prost_decode := λ bs, mkEnvelope <$> (unbits (map (λ b, ascii_of_N (Z.to_N b)) bs) ≫= decode);
|}.

Lemma bits_prost_laws : ProstLaws bits_prost.
Proof.
  split; cbn.
  - intros e. apply List.Forall_forall. intros b (c & <- & _)%in_map_iff. unfold is_byte, byte_val.
    pose proof (N_ascii_bounded c). lia.
  - intros [e]. cbn. rewrite map_map. assert (E : ∀ l, map (λ c, ascii_of_N (Z.to_N (byte_val c))) l = l).
    { intros l. rewrite <-(map_id l) at 2. apply map_ext. intros c. unfold byte_val. rewrite N2Z.id. apply ascii_N_embedding. }
    rewrite E, unbits_bits. cbn. by rewrite decode_encode.
Qed.

Section FramingScenario.
#[local] Instance fs_prost : Prost := bits_prost.

Definition fs_audio : AudioFrame := mkAudioFrame 7 None (Some 3%Z) None None (Some (Opus [1; 2]%Z)).
Definition fs_infer : InferenceFrame := mkInferenceFrame 8 None None [mkTopK 1 "dog" 5] None None.
Definition fs_wire (bs : list Z) : list Z := match try_encode_length_prefixed bs with Ok w => w | Err _ => [] end.
Definition fs_wires : list (list Z) := [fs_wire (wrap_audio fs_audio); fs_wire (wrap_inference fs_infer)].

(** Three bytes at a time, up to the middle of the second frame. *)
Fixpoint pieces (fuel : nat) (bs : list Z) : reader :=
  match fuel, bs with
  | S fuel, _ :: _ => Bytes (take 3 bs) :: pieces fuel (drop 3 bs)
  | _, _ => []
  end.
Definition fs_cut : nat := List.length (fs_wire (wrap_audio fs_audio)) + 10.
Definition fs_reader : reader := pieces fs_cut (take fs_cut (List.concat fs_wires)).

Lemma wire_roundtrip_witness :
  ∃ payloads err, receive 3 fs_reader = (payloads, Some err) ∧
    map decode_envelope payloads = [Ok (mkEnvelope (Some (Audio fs_audio)))].
Proof.
  destruct (wire_roundtrip (PL := bits_prost_laws) [Audio fs_audio; Inference fs_infer] fs_wires fs_cut fs_reader UnexpectedEof)
    as (n & ps & err & E & Hn & Hm & Hk & Hk' & _).
  - repeat constructor; vm_compute; reflexivity.
  - vm_compute. reflexivity.
  - exists ps, err. split; [exact E|].
    assert (Hc : n = 1).
    { assert (H0 : (List.length (List.concat (take 0 fs_wires)) <=? fs_cut) && (List.length (List.concat (take 1 fs_wires)) <=? fs_cut)
        && negb (List.length (List.concat (take 2 fs_wires)) <=? fs_cut) = true) by (vm_compute; reflexivity).
      apply andb_true_iff in H0 as [[_ H1%Nat.leb_le]%andb_true_iff H2%negb_true_iff%Nat.leb_gt].
      destruct n as [|[|[|n]]]; [|done| |cbn in Hn; lia].
      - specialize (Hk' ltac:(cbn; lia)). lia.
      - lia. }
    subst n. exact Hm.
Defined.
End FramingScenario.
