(* ===== verification/StreamIo.v ===== *)
(** * The frame fan-out ([src/modules/stream_io.rs])

    Admission of WebSocket subscribers, the subscriber counts, the loop that
    serves one of them, and the binding of the Unix socket.

    Parameters: the broadcast channel ([Broadcast]), [HeaderValue::to_str]; the
    outcome of each socket call and what the client sends are arguments of the
    step that meets them. *)

From stdpp Require Import pretty.
From S2P Require Import Prelude Broadcast AssetPath Common Text Framing.

(** ** Errors *)

(** The kinds of [std::fs::FileType]. *)
Inductive FileType : Type :=
  | FtSymlink | FtRegular | FtDirectory | FtFifo | FtBlock | FtChar | FtSocket | FtUnknown.

#[export] Instance FileType_eq_dec : EqDecision FileType.
Proof. solve_decision. Defined.

(** The labels of [UdsPathNotSocket]; the details are not modelled. *)
Inductive StreamError : Type :=
  | UdsBind (path : string) (source : IoKind)
  | TcpBind (addr : string) (source : IoKind)
  | UdsPerms (path : string) (source : IoKind)
  | UdsRemove (path : string) (source : IoKind)
  | UdsStat (path : string) (source : IoKind)
  | UdsPathNotSocket (path kind : string)
  | UdsParentInsecure (path parent : string)
  | Serve (transport : string).

Definition StreamError_kind (e : StreamError) : ErrorKind := Internal.

(** ** Transport policy *)

Record TransportPolicy := mkTransportPolicy {
  max_connections_per_stream : Z;
  require_subprotocol : bool;
  allowed_origins : option (list string);
}.

Definition TransportPolicy_default : TransportPolicy := mkTransportPolicy 0 true None.
Definition TransportPolicy_capped : TransportPolicy := mkTransportPolicy 32 true None.

Definition origin_ok (policy : TransportPolicy) (supplied : option string) : bool :=
  match allowed_origins policy with
  | None => true
  | Some allowed =>
      match supplied with
      | None => true
      | Some origin => existsb (λ a, String.eqb a origin) allowed
      end
  end.

Definition BAD_REQUEST : Z := 400.
Definition FORBIDDEN : Z := 403.
Definition TOO_MANY_REQUESTS : Z := 429.

(** ** Subscriber counts *)

(** [SubscriberGuard::try_acquire]: the new count, or a refusal. *)
Definition try_acquire_slot (count max_per_stream : Z) : option Z :=
  if (max_per_stream =? 0)%Z then Some (sat_add64 count 1)
  else if (count mod (u32_max + 1) <? max_per_stream)%Z then Some (sat_add64 count 1)
  else None.

(** [SubscriberGuard::drop]. *)
Definition release_slot (count : Z) : Z := Z.max 0 (count - 1).

Section StreamIo.
Context `{B : !Broadcast (list Z)}.

(** [HeaderMap::get] of the two headers the handlers read, and [to_str]. *)
Record HeaderMap := mkHeaderMap { origin_header : option (list ascii); protocol_header : option (list ascii) }.
Variable to_str : list ascii → option string.

(** One of the two streams of [StreamRouter]. *)
Record Stream := mkStream {
  tx : chan;
  subs : Z;
  messages_dropped : Z;
}.

Definition Stream_new (capacity : nat) : Stream := mkStream (channel capacity) 0 0.

Definition enforce_subprotocol (headers : HeaderMap) (policy : TransportPolicy) : result Z unit :=
  if negb (require_subprotocol policy) then Ok tt
  else match protocol_header headers with
       | None => Err BAD_REQUEST
       | Some raw =>
           match to_str raw with
           | None => Err BAD_REQUEST
           | Some s =>
               if existsb (λ tok, String.eqb (string_of_list_ascii (str_trim tok)) WS_SUBPROTOCOL) (split_on "," (bytes_of s))
               then Ok tt else Err BAD_REQUEST
           end
       end.

Definition enforce_admission (headers : HeaderMap) (count : Z) (policy : TransportPolicy) : result Z Z :=
  let supplied_origin := raw ← origin_header headers; to_str raw in
  if negb (origin_ok policy supplied_origin) then Err FORBIDDEN
  else match try_acquire_slot count (max_connections_per_stream policy) with
       | Some count => Ok count
       | None => Err TOO_MANY_REQUESTS
       end.

(** [audio_ws_handler], [infer_ws_handler]. *)
Definition ws_handler (headers : HeaderMap) (policy : TransportPolicy) (s : Stream) : Stream * result Z rx :=
  match enforce_subprotocol headers policy with
  | Err status => (s, Err status)
  | Ok _ =>
      match enforce_admission headers (subs s) policy with
      | Err status => (s, Err status)
      | Ok count =>
          let '(c, r) := subscribe (tx s) in
          (mkStream c count (messages_dropped s), Ok r)
      end
  end.

(** ** [handle_ws] *)

Inductive Message : Type :=
  | Binary (payload : list Z)
  | Pong (payload : list Z)
  | Close (code : Z) (reason : string).

(** What [socket.recv] yields. *)
Inductive ClientMsg : Type :=
  | CmEnd
  | CmClose
  | CmPing (payload : list Z)
  | CmOther
  | CmError.

Inductive flow : Type := Continue | Break.

Definition sent_if (ok : bool) (m : Message) (out : list Message) : list Message :=
  if ok then out ++ [m] else out.

(** One round of the loop: the broadcast first, then the client.  [send_ok] is
    whether the socket takes what the round sends. *)
Definition ws_turn (send_ok : bool) (client : option ClientMsg) (s : Stream) (r : rx) (out : list Message)
    : Stream * rx * list Message * flow :=
  match recv (tx s) r with
  | Some (r, RecvOk payload) =>
      (s, r, sent_if send_ok (Binary payload) out, if send_ok then Continue else Break)
  | Some (r, RecvLagged n) =>
      (mkStream (tx s) (subs s) (wrap_add64 (messages_dropped s) (Z.of_nat n)), r,
       sent_if send_ok (Close 1011 ("lagged " ++ pretty n)) out, Break)
  | Some (r, RecvClosed) => (s, r, sent_if send_ok (Close 1001 "stream closed") out, Break)
  | None =>
      match client with
      | None => (s, r, out, Continue)
      | Some CmEnd | Some CmClose | Some CmError => (s, r, out, Break)
      | Some (CmPing payload) => (s, r, sent_if send_ok (Pong payload) out, Continue)
      | Some CmOther => (s, r, out, Continue)
      end
  end.

(** The end of [handle_ws], by whatever way: the guard and the receiver drop. *)
Definition ws_exit (r : rx) (s : Stream) : Stream :=
  mkStream (unsubscribe r (tx s)) (release_slot (subs s)) (messages_dropped s).

(** ** The router *)

Inductive StreamKind : Type := AudioStream | InferStream.

#[export] Instance StreamKind_eq_dec : EqDecision StreamKind.
Proof. solve_decision. Defined.

Record Conn := mkConn { conn_kind : StreamKind; conn_rx : rx; conn_out : list Message }.

Record StreamRouter := mkStreamRouter {
  audio : Stream;
  infer : Stream;
  conns : gmap nat Conn;
  closed : list Conn;
}.

Definition with_capacities (audio_cap infer_cap : nat) : StreamRouter :=
  mkStreamRouter (Stream_new audio_cap) (Stream_new infer_cap) ∅ [].

Definition stream_of (k : StreamKind) (s : StreamRouter) : Stream :=
  match k with AudioStream => audio s | InferStream => infer s end.
Definition set_stream (k : StreamKind) (st : Stream) (s : StreamRouter) : StreamRouter :=
  match k with
  | AudioStream => mkStreamRouter st (infer s) (conns s) (closed s)
  | InferStream => mkStreamRouter (audio s) st (conns s) (closed s)
  end.

(** What happens to a router: a producer sends, a client asks for an upgrade
    through a listener with its policy, a connection's task runs one round, or is
    dropped. *)
Inductive fan_event : Type :=
  | Publish (k : StreamKind) (payload : list Z)
  | Upgrade (k : StreamKind) (policy : TransportPolicy) (headers : HeaderMap) (id : nat)
  | Turn (id : nat) (send_ok : bool) (client : option ClientMsg)
  | Cancel (id : nat).

Definition finish (id : nat) (c : Conn) (s : StreamRouter) : StreamRouter :=
  let s := set_stream (conn_kind c) (ws_exit (conn_rx c) (stream_of (conn_kind c) s)) s in
  mkStreamRouter (audio s) (infer s) (delete id (conns s)) (c :: closed s).

Definition fan_step (ev : fan_event) (s : StreamRouter) : StreamRouter :=
  match ev with
  | Publish k payload =>
      let st := stream_of k s in
      set_stream k (mkStream (fst (send payload (tx st))) (subs st) (messages_dropped st)) s
  | Upgrade k policy headers id =>
      match conns s !! id with
      | Some _ => s (* the id is taken *)
      | None =>
          match ws_handler headers policy (stream_of k s) with
          | (st, Err _) => set_stream k st s
          | (st, Ok r) =>
              let s := set_stream k st s in
              mkStreamRouter (audio s) (infer s) (<[id := mkConn k r []]> (conns s)) (closed s)
          end
      end
  | Turn id send_ok client =>
      match conns s !! id with
      | None => s
      | Some c =>
          let '(st, r, out, fl) := ws_turn send_ok client (stream_of (conn_kind c) s) (conn_rx c) (conn_out c) in
          let s := set_stream (conn_kind c) st s in
          let c := mkConn (conn_kind c) r out in
          match fl with
          | Continue => mkStreamRouter (audio s) (infer s) (<[id := c]> (conns s)) (closed s)
          | Break => finish id c s
          end
      end
  | Cancel id =>
      match conns s !! id with
      | None => s
      | Some c => finish id c s
      end
  end.

Definition fan_run (evs : list fan_event) (s : StreamRouter) : StreamRouter :=
  foldl (λ s ev, fan_step ev s) s evs.
End StreamIo.

(** ** The Unix socket *)

(** What the calls of [bind_uds] and [set_uds_permissions] find: [metadata] of
    the parent (a directory, its mode), the entry at the path, and the results of
    unlink, bind and chmod. *)
Record UdsCalls := mkUdsCalls {
  uc_parent : result IoKind (bool * Z);
  uc_entry : result IoKind FileType;
  uc_remove : result IoKind unit;
  uc_bind : result IoKind unit;
  uc_entry_bound : result IoKind FileType;
  uc_chmod : result IoKind unit;
}.

(** What they did to the filesystem. *)
Inductive uds_effect : Type := Unlinked | Bound | Chmodded (mode : Z).

Definition validate_parent_dir_confinement (c : UdsCalls) (path parent : string) : result StreamError unit :=
  match uc_parent c with
  | Err _ => Err (UdsParentInsecure path parent)
  | Ok (is_dir, mode) =>
      if negb is_dir then Err (UdsParentInsecure path parent)
      else
      let world_writable := negb (Z.land mode 2 =? 0)%Z in
      let sticky := negb (Z.land mode 512 =? 0)%Z in
      if world_writable && negb sticky then Err (UdsParentInsecure path parent) else Ok tt
  end.

(** [ft.is_socket()] is the fall-through; the label of the rest. *)
Definition not_socket_label (ft : FileType) : option string :=
  match ft with
  | FtSymlink => Some "symlink"
  | FtRegular => Some "regular file"
  | FtDirectory => Some "directory"
  | FtFifo => Some "fifo"
  | FtBlock => Some "block device"
  | FtChar => Some "char device"
  | FtSocket => None
  | FtUnknown => Some "unknown file type"
  end%string.

(** [parent] is [path.parent()]. *)
Definition bind_uds (c : UdsCalls) (path : string) (parent : option string) : list uds_effect * result StreamError unit :=
  match parent with
  | None => ([], Err (UdsParentInsecure path ""))
  | Some parent =>
  if (String.length parent =? 0) then ([], Err (UdsParentInsecure path ""))
  else
  match validate_parent_dir_confinement c path parent with
  | Err e => ([], Err e)
  | Ok _ =>
  let bind (done : list uds_effect) :=
    match uc_bind c with Ok _ => (done ++ [Bound], Ok tt) | Err source => (done, Err (UdsBind path source)) end in
  match uc_entry c with
  | Err IoNotFound => bind []
  | Err source => ([], Err (UdsStat path source))
  | Ok ft =>
      match not_socket_label ft with
      | Some kind => ([], Err (UdsPathNotSocket path kind))
      | None =>
          match uc_remove c with
          | Err source => ([], Err (UdsRemove path source))
          | Ok _ => bind [Unlinked]
          end
      end
  end
  end
  end.

Definition set_uds_permissions (c : UdsCalls) (path : string) (mode : Z) : list uds_effect * result StreamError unit :=
  match uc_entry_bound c with
  | Err source => ([], Err (UdsPerms path source))
  | Ok ft =>
      match not_socket_label ft with
      | Some kind => ([], Err (UdsPathNotSocket path kind))
      | None =>
          match uc_chmod c with
          | Ok _ => ([Chmodded mode], Ok tt)
          | Err source => ([], Err (UdsPerms path source))
          end
      end
  end.

(** ** The accept loop of [serve_uds] *)

(** [raw_os_error] of a failed accept. *)
Inductive Errno : Type := EMFILE | ENFILE | EAGAIN | ECONNABORTED | OtherErrno.

Definition is_transient_accept_error (raw_os_error : option Errno) : bool :=
  match raw_os_error with
  | Some EMFILE | Some ENFILE | Some EAGAIN | Some ECONNABORTED => true
  | Some OtherErrno | None => false
  end.

(** What the [select] of the loop yields. *)
Inductive accept_event : Type :=
  | AcceptShutdown
  | Accepted
  | AcceptError (raw_os_error : option Errno).

(** Milliseconds. *)
Definition UDS_ACCEPT_BACKOFF : Z := 100.

(** The ids of the connections spawned, the time slept, and the result once the
    loop ends. *)
Fixpoint serve_uds (evs : list accept_event) (conn_id : Z) (spawned : list Z) (slept : Z)
    : list Z * Z * option (result StreamError unit) :=
  match evs with
  | [] => (spawned, slept, None)
  | AcceptShutdown :: _ => (spawned, slept, Some (Ok tt))
  | Accepted :: evs =>
      let conn_id := wrap_add64 conn_id 1 in
      serve_uds evs conn_id (spawned ++ [conn_id]) slept
  | AcceptError e :: evs =>
      if is_transient_accept_error e then serve_uds evs conn_id spawned (slept + UDS_ACCEPT_BACKOFF)
      else (spawned, slept, Some (Err (Serve "uds")))
  end.

(** [try_bind_uds] of the daemon: bind, then chmod. *)
Definition try_bind_uds (c : UdsCalls) (path : string) (parent : option string) (mode : Z)
    : list uds_effect * result StreamError unit :=
  match bind_uds c path parent with
  | (done, Err e) => (done, Err e)
  | (done, Ok _) => let '(more, r) := set_uds_permissions c path mode in (done ++ more, r)
  end.
