(* ===== verification/StreamIoFacts.v ===== *)
(** * What the fan-out guarantees

    The subscriber counts are the live connections and respect the caps; what a
    client receives is a run of consecutive frames; the socket is bound only
    where it is safe. *)

From stdpp Require Import pretty.
From S2P Require Import Prelude Broadcast AssetPath Common Text Framing StreamIo.

Section Fan.
Context `{B : !Broadcast (list Z)} `{BL : !BroadcastLaws (list Z)}.
Variable to_str : list ascii → option string.

(** ** Counts *)

Definition on_kind (k : StreamKind) (cs : gmap nat Conn) : nat :=
  size (filter (λ '(_, c), conn_kind c = k) cs).

Lemma on_kind_insert k id c (cs : gmap nat Conn) :
  cs !! id = None → on_kind k (<[id := c]> cs) = on_kind k cs + (if bool_decide (conn_kind c = k) then 1 else 0).
Proof.
  intros Hid. unfold on_kind. case_bool_decide as Hk.
  - rewrite map_filter_insert_True by done. rewrite map_size_insert_None; [lia|]. apply map_lookup_filter_None. by left.
  - rewrite map_filter_insert_False by done. rewrite delete_id by done. lia.
Qed.

Lemma on_kind_delete k id c (cs : gmap nat Conn) :
  cs !! id = Some c → on_kind k cs = on_kind k (delete id cs) + (if bool_decide (conn_kind c = k) then 1 else 0).
Proof.
  intros Hid. rewrite <-(insert_delete_id cs id c) at 1 by done. apply on_kind_insert, lookup_delete_eq.
Qed.

Lemma on_kind_update k id c c' (cs : gmap nat Conn) :
  cs !! id = Some c → conn_kind c' = conn_kind c → on_kind k (<[id := c']> cs) = on_kind k cs.
Proof.
  intros Hid Hk. rewrite (on_kind_delete k id c cs Hid), <-insert_delete_eq.
  rewrite on_kind_insert by apply lookup_delete_eq. by rewrite Hk.
Qed.

(** ** Frames *)

Definition binaries (out : list Message) : list (list Z) :=
  omap (λ m, match m with Binary p => Some p | _ => None end) out.
Definition is_close (m : Message) : bool := match m with Close _ _ => true | _ => false end.

(** The frames of a client are consecutive in the log; a live one has got
    everything up to its position and no close. *)
Definition in_order (l : list (list Z)) (bs : list (list Z)) (upto : option nat) : Prop :=
  ∃ pre post, l = pre ++ bs ++ post ∧ match upto with Some n => List.length pre + List.length bs = n | None => True end.

Definition live_ok (s : StreamRouter) (c : Conn) : Prop :=
  in_order (sent (tx (stream_of (conn_kind c) s))) (binaries (conn_out c)) (Some (cursor (conn_rx c))) ∧
  Forall (λ m, is_close m = false) (conn_out c).

(** A closed one: at most one close, at the end. *)
Definition closed_ok (s : StreamRouter) (c : Conn) : Prop :=
  in_order (sent (tx (stream_of (conn_kind c) s))) (binaries (conn_out c)) None ∧
  ∃ body tail, conn_out c = body ++ tail ∧ Forall (λ m, is_close m = false) body ∧
    (tail = [] ∨ ∃ code reason, tail = [Close code reason]).

Lemma in_order_weaken l bs n : in_order l bs (Some n) → in_order l bs None.
Proof. intros (pre & post & H & _). by exists pre, post. Qed.

Lemma in_order_grow l l' bs upto : in_order l bs upto → in_order (l ++ l') bs upto.
Proof. intros (pre & post & -> & H). exists pre, (post ++ l'). by rewrite <-!app_assoc. Qed.

Lemma in_order_next l bs n p : in_order l bs (Some n) → l !! n = Some p → in_order l (bs ++ [p]) (Some (S n)).
Proof.
  intros (pre & post & -> & <-) Hp. rewrite app_assoc, lookup_app_r in Hp by (rewrite length_app; lia).
  rewrite length_app, Nat.sub_diag in Hp. destruct post as [|x post]; [done|]. injection Hp as ->.
  exists pre, post. rewrite <-!app_assoc. split; [done|]. rewrite length_app. cbn. lia.
Qed.

Lemma binaries_app o1 o2 : binaries (o1 ++ o2) = binaries o1 ++ binaries o2.
Proof. apply omap_app. Qed.

Lemma live_closed s c : live_ok s c → closed_ok s c.
Proof.
  intros [H1 H2]. split; [by eapply in_order_weaken|]. exists (conn_out c), []. rewrite app_nil_r. split_and!; [done|done|by left].
Qed.

(** ** One round *)

Definition logs_grow (s s' : StreamRouter) : Prop :=
  ∀ k, ∃ l, sent (tx (stream_of k s')) = sent (tx (stream_of k s)) ++ l.

Lemma live_grow s s' c : logs_grow s s' → live_ok s c → live_ok s' c.
Proof. intros Hg [H1 H2]. destruct (Hg (conn_kind c)) as [l E]. split; [|done]. rewrite E. by apply in_order_grow. Qed.
Lemma closed_grow s s' c : logs_grow s s' → closed_ok s c → closed_ok s' c.
Proof. intros Hg [H1 H2]. destruct (Hg (conn_kind c)) as [l E]. split; [|done]. rewrite E. by apply in_order_grow. Qed.

Lemma turn_spec send_ok client st (r : rx) out :
  in_order (sent (tx st)) (binaries out) (Some (cursor r)) → Forall (λ m, is_close m = false) out →
  let '(st', r', out', fl) := ws_turn send_ok client st r out in
  tx st' = tx st ∧ subs st' = subs st ∧
  match fl with
  | Continue => in_order (sent (tx st)) (binaries out') (Some (cursor r')) ∧ Forall (λ m, is_close m = false) out'
  | Break => in_order (sent (tx st)) (binaries out') None ∧
      ∃ body tail, out' = body ++ tail ∧ Forall (λ m, is_close m = false) body ∧
        (tail = [] ∨ ∃ code reason, tail = [Close code reason])
  end.
Proof.
  intros Ho Hc.
  assert (Hplain : ∀ p, Forall (λ m, is_close m = false) (out ++ [p]) ↔ is_close p = false).
  { intros p. rewrite Forall_app, Forall_singleton. naive_solver. }
  assert (Hend : ∀ o, (o = out ∨ ∃ code reason, o = out ++ [Close code reason]) →
    in_order (sent (tx st)) (binaries o) None ∧
      ∃ body tail, o = body ++ tail ∧ Forall (λ m, is_close m = false) body ∧ (tail = [] ∨ ∃ code reason, tail = [Close code reason])).
  { intros o [->|(code & reason & ->)].
    - split; [by eapply in_order_weaken|]. exists out, []. rewrite app_nil_r. split_and!; [done|done|by left].
    - rewrite binaries_app. cbn. rewrite app_nil_r. split; [by eapply in_order_weaken|].
      exists out, [Close code reason]. split_and!; [done|done|]. right. by exists code, reason. }
  unfold ws_turn. destruct (recv (tx st) r) as [[r' [p|n|]]|] eqn:Er.
  - apply recv_ok_law in Er as [E1 E2]. do 2 (split; [done|]). destruct send_ok; cbn [sent_if].
    + rewrite binaries_app. cbn. rewrite E2. split; [by eapply in_order_next|by apply Hplain].
    + apply Hend. by left.
  - do 2 (split; [done|]). apply Hend. destruct send_ok; [right; by eexists _, _|by left].
  - do 2 (split; [done|]). apply Hend. destruct send_ok; [right; by eexists _, _|by left].
  - destruct client as [[| |p| |]|]; do 2 (split; [done|]); try (by apply Hend; left); try done.
    destruct send_ok; cbn [sent_if]; [|done]. rewrite binaries_app. cbn. rewrite app_nil_r. split; [done|by apply Hplain].
Qed.

(** ** The invariant *)

Record fan_inv (n : nat) (s : StreamRouter) : Prop := {
  fi_count : ∀ k, subs (stream_of k s) = Z.of_nat (on_kind k (conns s));
  fi_bound : ∀ k, on_kind k (conns s) ≤ n;
  fi_live : map_Forall (λ _, live_ok s) (conns s);
  fi_closed : Forall (closed_ok s) (closed s);
}.

Lemma stream_of_set k k' st s : stream_of k' (set_stream k st s) = if decide (k = k') then st else stream_of k' s.
Proof. by destruct k, k'. Qed.
Lemma conns_set k st s : conns (set_stream k st s) = conns s.
Proof. by destruct k. Qed.
Lemma closed_set k st s : closed (set_stream k st s) = closed s.
Proof. by destruct k. Qed.
Lemma set_same k s : set_stream k (stream_of k s) s = s.
Proof. by destruct s, k. Qed.

Lemma logs_set k st s l : sent (tx st) = sent (tx (stream_of k s)) ++ l → logs_grow s (set_stream k st s).
Proof.
  intros E k'. rewrite stream_of_set. destruct (decide (k = k')) as [->|]; [by exists l|]. exists []. by rewrite app_nil_r.
Qed.

(** The routers of a step share their logs with [s]. *)
Lemma inv_logs n s s' : fan_inv n s → logs_grow s s' → conns s' = conns s → closed s' = closed s →
  (∀ k, subs (stream_of k s') = subs (stream_of k s)) → fan_inv n s'.
Proof.
  intros [H1 H2 H3 H4] Hg E1 E2 E3. split.
  - intros k. by rewrite E3, E1.
  - by rewrite E1.
  - rewrite E1. eapply map_Forall_impl; [exact H3|]. intros ? c. by apply live_grow.
  - rewrite E2. eapply List.Forall_impl; [|exact H4]. intros c. by apply closed_grow.
Qed.

Lemma inv_set n k st s l : fan_inv n s → sent (tx st) = sent (tx (stream_of k s)) ++ l → subs st = subs (stream_of k s) →
  fan_inv n (set_stream k st s).
Proof.
  intros Hi E1 E2. eapply inv_logs; [exact Hi|by eapply logs_set|apply conns_set|apply closed_set|].
  intros k'. rewrite stream_of_set. by destruct (decide (k = k')) as [<-|].
Qed.

Lemma inv_finish n s id c0 c : fan_inv n s → conns s !! id = Some c0 → conn_kind c = conn_kind c0 → closed_ok s c →
  fan_inv n (finish id c s).
Proof.
  intros Hi Hid Hk Hc. unfold finish. set (st := ws_exit (conn_rx c) (stream_of (conn_kind c) s)). cbv zeta.
  set (s1 := set_stream (conn_kind c) st s).
  assert (Ec : conns s1 = conns s) by apply conns_set. assert (Ed : closed s1 = closed s) by apply closed_set. rewrite Ec, Ed.
  assert (Hg : logs_grow s s1).
  { apply logs_set with (l := []). unfold st, ws_exit. cbn. by rewrite unsubscribe_law, app_nil_r. }
  assert (Hg' : logs_grow s (mkStreamRouter (audio s1) (infer s1) (delete id (conns s)) (c :: closed s))) by (intros []; [apply (Hg AudioStream)|apply (Hg InferStream)]).
  pose proof (λ k, on_kind_delete k id c0 (conns s) Hid) as Hd. destruct Hi as [H1 H2 H3 H4]. split; cbn [conns closed].
  - assert (Hst : ∀ k, subs (stream_of k s1) = Z.of_nat (on_kind k (delete id (conns s)))).
    { intros k. unfold s1. rewrite stream_of_set. specialize (Hd k). specialize (H1 k). rewrite Hd in H1.
      destruct (decide (conn_kind c = k)) as [<-|Hne].
      - rewrite bool_decide_eq_true_2 in H1 by done. unfold st, ws_exit, release_slot. cbn [subs]. lia.
      - rewrite bool_decide_eq_false_2 in H1 by congruence. lia. }
    intros []; [apply (Hst AudioStream)|apply (Hst InferStream)].
  - intros k. specialize (Hd k). specialize (H2 k). lia.
  - apply map_Forall_delete. eapply map_Forall_impl; [exact H3|]. intros ? c1. by apply live_grow.
  - constructor; [by eapply closed_grow|]. eapply List.Forall_impl; [|exact H4]. intros c1. by apply closed_grow.
Qed.

Lemma ws_handler_spec headers policy st :
  match ws_handler to_str headers policy st with
  | (st', Err _) => st' = st
  | (st', Ok r) => sent (tx st') = sent (tx st) ∧ cursor r = List.length (sent (tx st)) ∧
      subs st' = sat_add64 (subs st) 1 ∧
      (max_connections_per_stream policy = 0 ∨ subs st mod (u32_max + 1) < max_connections_per_stream policy)%Z
  end.
Proof.
  unfold ws_handler. destruct (enforce_subprotocol _ _ _); [|done]. unfold enforce_admission, try_acquire_slot.
  destruct (negb _); [done|]. pose proof (subscribe_law (tx st)) as (L1 & _ & L3).
  destruct (Z.eqb_spec (max_connections_per_stream policy) 0).
  - destruct (subscribe (tx st)) as [c r]. cbn in *. split_and!; try done. by left.
  - destruct (Z.ltb_spec (subs st mod (u32_max + 1)) (max_connections_per_stream policy)); [|done].
    destruct (subscribe (tx st)) as [c r]. cbn in *. split_and!; try done. by right.
Qed.

Lemma step_inv_fan n ev s : fan_inv n s → (Z.of_nat (S n) ≤ u64_max)%Z → fan_inv (S n) (fan_step to_str ev s).
Proof.
  intros Hi Hn. assert (Hi' : fan_inv (S n) s) by (destruct Hi; split; try done; intros k; specialize (fi_bound0 k); lia).
  destruct ev as [k payload|k policy headers id|id ok client|id]; cbn [fan_step].
  - destruct (decide (receiver_count (tx (stream_of k s)) = 0)) as [E|E].
    + rewrite (send_none_law _ _ E). apply inv_set with (l := []); cbn; [done|by rewrite app_nil_r|done].
    + destruct (send_law payload (tx (stream_of k s)) ltac:(lia)) as (c' & -> & E1 & _). by eapply inv_set.
  - destruct (conns s !! id) eqn:Hid; [done|]. pose proof (ws_handler_spec headers policy (stream_of k s)) as H.
    destruct (ws_handler _ _ _ _) as [st [r|status]]; [|subst st; by rewrite set_same].
    destruct H as (H1 & H2 & H3 & _). set (s1 := set_stream k st s).
    assert (Hg : logs_grow s s1) by (apply logs_set with (l := []); by rewrite H1, app_nil_r).
    assert (Hg' : ∀ cs, logs_grow s (mkStreamRouter (audio s1) (infer s1) cs (closed s)))
      by (intros cs []; [apply (Hg AudioStream)|apply (Hg InferStream)]).
    destruct Hi as [I1 I2 I3 I4]. assert (Ec : conns s1 = conns s) by apply conns_set. assert (Ed : closed s1 = closed s) by apply closed_set. rewrite Ec, Ed.
    pose proof (λ k', on_kind_insert k' id (mkConn k r []) (conns s) Hid) as Hins. split; cbn [conns closed].
    + assert (Hst : ∀ k', subs (stream_of k' s1) = Z.of_nat (on_kind k' (<[id := mkConn k r []]> (conns s)))).
      { intros k'. rewrite Hins. unfold s1. rewrite stream_of_set. specialize (I1 k'). specialize (I2 k'). cbn [conn_kind].
        destruct (decide (k = k')) as [->|Hne].
        - rewrite bool_decide_eq_true_2 by done. rewrite H3, I1, sat_add64_exact; lia.
        - rewrite bool_decide_eq_false_2 by done. lia. }
      intros []; [apply (Hst AudioStream)|apply (Hst InferStream)].
    + intros k'. rewrite Hins. specialize (I2 k'). case_bool_decide; lia.
    + apply map_Forall_insert; [done|]. split.
      * split; [|constructor]. cbn [conn_out conn_kind conn_rx].
        exists (sent (tx (stream_of k s))), []. destruct (Hg' (<[id := mkConn k r []]> (conns s)) k) as [l E]. cbn.
        assert (El : sent (tx (stream_of k s1)) = sent (tx (stream_of k s))) by (unfold s1; by rewrite stream_of_set, decide_True).
        rewrite app_nil_r. split; [|rewrite H2; lia]. by destruct k.
      * eapply map_Forall_impl; [exact I3|]. intros ? c. by apply live_grow.
    + eapply List.Forall_impl; [|exact I4]. intros c. by apply closed_grow.
  - destruct (conns s !! id) as [c|] eqn:Hid; [|done]. pose proof (fi_live _ _ Hi _ _ Hid) as [L1 L2].
    pose proof (turn_spec ok client (stream_of (conn_kind c) s) (conn_rx c) (conn_out c) L1 L2) as H.
    destruct (ws_turn _ _ _ _ _) as [[[st r] out] fl]. destruct H as (H1 & H2 & H3).
    set (s1 := set_stream (conn_kind c) st s).
    assert (Hi1 : fan_inv (S n) s1) by (apply inv_set with (l := []); [done|by rewrite H1, app_nil_r|done]).
    assert (Hlog : sent (tx (stream_of (conn_kind c) s1)) = sent (tx (stream_of (conn_kind c) s)))
      by (unfold s1; rewrite stream_of_set, decide_True by done; by rewrite H1).
    assert (Hc1 : conns s1 !! id = Some c) by (unfold s1; by rewrite conns_set).
    destruct fl.
    + destruct Hi1 as [I1 I2 I3 I4]. split; cbn [conns closed].
      * intros k. rewrite (on_kind_update k id c) by done. specialize (I1 k). by destruct k.
      * intros k. rewrite (on_kind_update k id c) by done. apply I2.
      * assert (Hg : ∀ cs, logs_grow s1 (mkStreamRouter (audio s1) (infer s1) cs (closed s1)))
          by (intros cs []; exists []; cbn; by rewrite app_nil_r).
        rewrite <-insert_delete_eq. apply map_Forall_insert; [apply lookup_delete_eq|]. split.
        -- eapply live_grow; [apply Hg|]. destruct H3 as [H3 H4]. split; cbn [conn_out conn_kind conn_rx]; [by rewrite Hlog|done].
        -- apply map_Forall_delete. eapply map_Forall_impl; [exact I3|]. intros ? c1. by apply live_grow.
      * eapply List.Forall_impl; [|exact I4]. intros c1. apply closed_grow. intros []; exists []; cbn; by rewrite app_nil_r.
    + eapply inv_finish; [done|exact Hc1|done|]. destruct H3 as [H3 H4]. split; cbn [conn_out conn_kind]; [by rewrite Hlog|exact H4].
  - destruct (conns s !! id) as [c|] eqn:Hid; [|done]. eapply inv_finish; [done|exact Hid|done|].
    apply live_closed, (fi_live _ _ Hi _ _ Hid).
Qed.

Lemma run_inv_fan evs n s : fan_inv n s → (Z.of_nat (n + List.length evs) ≤ u64_max)%Z → fan_inv (n + List.length evs) (fan_run to_str evs s).
Proof.
  revert n s. induction evs as [|ev evs IH]; intros n s Hi Hn; cbn [fan_run foldl List.length].
  - by rewrite Nat.add_0_r.
  - rewrite <-Nat.add_succ_comm. apply IH; [apply step_inv_fan; [done|]|]; cbn in Hn; lia.
Qed.

Lemma with_capacities_inv a i : fan_inv 0 (with_capacities a i).
Proof.
  split; cbn.
  - intros k. unfold on_kind. rewrite map_filter_empty, map_size_empty. by destruct k.
  - intros k. unfold on_kind. by rewrite map_filter_empty, map_size_empty.
  - apply map_Forall_empty.
  - constructor.
Qed.

(** ** Caps *)

(** Every listener of stream [k] caps it, at most at [cap]. *)
Definition capped (k : StreamKind) (cap : Z) (ev : fan_event) : Prop :=
  match ev with
  | Upgrade k' policy _ _ => k' = k → (0 < max_connections_per_stream policy ≤ cap)%Z
  | _ => True
  end.

Lemma finish_subs id c s k : (0 ≤ subs (stream_of k s) → 0 ≤ subs (stream_of k (finish id c s)) ≤ subs (stream_of k s))%Z.
Proof.
  intros H. unfold finish, ws_exit, release_slot. destruct k, (conn_kind c); cbn in *; lia.
Qed.

Lemma step_capped k cap ev s : capped k cap ev → (0 < cap ≤ u32_max)%Z → (0 ≤ subs (stream_of k s) ≤ cap)%Z →
  (0 ≤ subs (stream_of k (fan_step to_str ev s)) ≤ cap)%Z.
Proof.
  intros Hc Hcap Hs. destruct ev as [k' payload|k' policy headers id|id ok client|id]; cbn [fan_step].
  - rewrite stream_of_set. by destruct (decide (k' = k)) as [->|].
  - destruct (conns s !! id); [done|]. pose proof (ws_handler_spec headers policy (stream_of k' s)) as H.
    destruct (ws_handler _ _ _ _) as [st [r|status]]; [|subst st; by rewrite set_same].
    destruct H as (_ & _ & H3 & H4).
    assert (Hst : (0 ≤ subs (stream_of k (set_stream k' st s)) ≤ cap)%Z).
    { rewrite stream_of_set. destruct (decide (k' = k)) as [->|]; [|done]. specialize (Hc eq_refl).
      destruct H4 as [H4|H4]; [lia|]. rewrite Z.mod_small in H4 by (unfold u32_max in *; lia).
      rewrite H3, sat_add64_exact by (unfold u32_max, u64_max in *; lia). lia. }
    by destruct k.
  - destruct (conns s !! id) as [c|]; [|done].
    assert (Hsub : subs (fst (fst (fst (ws_turn ok client (stream_of (conn_kind c) s) (conn_rx c) (conn_out c))))) = subs (stream_of (conn_kind c) s)).
    { unfold ws_turn. destruct (recv _ _) as [[r' [p|n|]]|]; [done..|]. by destruct client as [[]|]. }
    destruct (ws_turn _ _ _ _ _) as [[[st r] out] fl]. cbn [fst] in Hsub.
    assert (Hst : (0 ≤ subs (stream_of k (set_stream (conn_kind c) st s)) ≤ cap)%Z).
    { rewrite stream_of_set. destruct (decide (conn_kind c = k)) as [<-|]; [|done]. by rewrite Hsub. }
    destruct fl; [by destruct k|]. pose proof (finish_subs id (mkConn (conn_kind c) r out) (set_stream (conn_kind c) st s) k). lia.
  - destruct (conns s !! id) as [c|]; [|done]. pose proof (finish_subs id c s k). lia.
Qed.

Lemma run_capped k cap evs s : Forall (capped k cap) evs → (0 < cap ≤ u32_max)%Z → (0 ≤ subs (stream_of k s) ≤ cap)%Z →
  (0 ≤ subs (stream_of k (fan_run to_str evs s)) ≤ cap)%Z.
Proof.
  intros HF Hcap. revert s. induction HF as [|ev evs Hev HF IH]; intros s Hs; [done|]. cbn. by apply IH, step_capped.
Qed.
End Fan.

(** ** Properties *)

(** The subscriber count is the number of live connections, and a cap is a
    cap.  After any sequence of sends, upgrades through any listeners, rounds and
    drops, each stream's count is exactly the number of its connections still
    served (the encoder's auto-pause never acts on a stale count), and when every
    listener of a stream caps it at no more than [cap], no more than [cap] are
    ever served at once. *)
Theorem fanout_counts `{B : !Broadcast (list Z)} `{BL : !BroadcastLaws (list Z)} (to_str : list ascii → option string)
    (a i : nat) (evs : list fan_event) (Hlen : (Z.of_nat (List.length evs) ≤ u64_max)%Z) :
  let s := fan_run to_str evs (with_capacities a i) in
  ∀ k, subs (stream_of k s) = Z.of_nat (on_kind k (conns s)) ∧
    (∀ cap, (0 < cap ≤ u32_max)%Z → Forall (capped k cap) evs → (Z.of_nat (on_kind k (conns s)) ≤ cap)%Z).
Proof.
  intros s k. pose proof (run_inv_fan to_str evs 0 (with_capacities a i) (with_capacities_inv a i) Hlen) as [H1 _ _ _].
  fold s in H1. split; [apply H1|]. intros cap Hcap HF. rewrite <-H1.
  pose proof (run_capped to_str k cap evs (with_capacities a i) HF Hcap) as H. fold s in H.
  assert (Hz : subs (stream_of k (with_capacities a i)) = 0%Z) by (by destruct k). rewrite Hz in H. lia.
Qed.

(** C37: A client never sees a gap.  Whatever the producers and the other clients
    do, the binary messages a connection was sent are consecutive frames of its
    stream, in order and unchanged: a client that falls behind is closed, not
    skipped ahead.  While it is served it has everything up to its position and
    no close; a close is the last message it gets. *)
Theorem ws_no_gap `{B : !Broadcast (list Z)} `{BL : !BroadcastLaws (list Z)} (to_str : list ascii → option string)
    (a i : nat) (evs : list fan_event) (Hlen : (Z.of_nat (List.length evs) ≤ u64_max)%Z) (c : Conn) :
  let s := fan_run to_str evs (with_capacities a i) in
  let log := sent (tx (stream_of (conn_kind c) s)) in
  ((∃ id, conns s !! id = Some c) →
     (∃ from, binaries (conn_out c) = take (cursor (conn_rx c) - from) (drop from log) ∧ from ≤ cursor (conn_rx c) ≤ List.length log) ∧
     Forall (λ m, is_close m = false) (conn_out c)) ∧
  (c ∈ closed s →
     (∃ from, binaries (conn_out c) = take (List.length (binaries (conn_out c))) (drop from log)) ∧
     ∃ body tail, conn_out c = body ++ tail ∧ Forall (λ m, is_close m = false) body ∧
       (tail = [] ∨ ∃ code reason, tail = [Close code reason])).
Proof.
  intros s log. pose proof (run_inv_fan to_str evs 0 (with_capacities a i) (with_capacities_inv a i) Hlen) as [_ _ H3 H4].
  fold s in H3, H4. split.
  - intros [id Hid]. destruct (H3 _ _ Hid) as [(pre & post & E & Hn) H5]. split; [|done]. exists (List.length pre).
    unfold log. rewrite E, <-Hn. rewrite drop_app_length, !length_app.
    replace (List.length pre + List.length (binaries (conn_out c)) - List.length pre) with (List.length (binaries (conn_out c))) by lia.
    rewrite take_app_length. split; [done|lia].
  - intros Hin. rewrite List.Forall_forall in H4. destruct (H4 c) as [(pre & post & E & _) H5]; [by apply list_elem_of_In|].
    split; [|done]. exists (List.length pre). unfold log. by rewrite E, drop_app_length, take_app_length.
Qed.

(** The mode bits tested with a mask. *)
Lemma land_pow2_testbit m i : (0 ≤ i)%Z → negb (Z.land m (2 ^ i) =? 0)%Z = Z.testbit m i.
Proof.
  intros Hi. destruct (Z.testbit m i) eqn:E.
  - apply negb_true_iff, Z.eqb_neq. intros H0. apply (f_equal (λ z, Z.testbit z i)) in H0.
    rewrite Z.land_spec, E, Z.pow2_bits_true, Z.bits_0 in H0 by done. done.
  - apply negb_false_iff, Z.eqb_eq. apply Z.bits_inj'. intros j Hj. rewrite Z.land_spec, Z.bits_0.
    destruct (decide (i = j)) as [<-|Hne]; [by rewrite E|]. by rewrite Z.pow2_bits_false, andb_false_r.
Qed.

Lemma not_socket_None ft : not_socket_label ft = None ↔ ft = FtSocket.
Proof. by destruct ft. Qed.

(** A parent [bind_uds] accepts. *)
Definition confined_parent (c : UdsCalls) (parent : option string) : Prop :=
  ∃ p m, parent = Some p ∧ p ≠ ""%string ∧ uc_parent c = Ok (true, m) ∧ (Z.testbit m 1 = true → Z.testbit m 9 = true).

Lemma confinement_spec c path p : p ≠ ""%string →
  validate_parent_dir_confinement c path p = Ok tt ↔ confined_parent c (Some p).
Proof.
  intros Hp. unfold validate_parent_dir_confinement, confined_parent. split.
  - destruct (uc_parent c) as [[[] m]|]; try done. cbn [negb].
    change (Z.land m 2) with (Z.land m (2 ^ 1)). change (Z.land m 512) with (Z.land m (2 ^ 9)). rewrite !land_pow2_testbit by done.
    intros H. exists p, m. split_and!; try done. intros E. rewrite E in H. by destruct (Z.testbit m 9).
  - intros (p' & m & [= <-] & _ & -> & H). cbn [negb].
    change (Z.land m 2) with (Z.land m (2 ^ 1)). change (Z.land m 512) with (Z.land m (2 ^ 9)). rewrite !land_pow2_testbit by done.
    destruct (Z.testbit m 1); [|done]. by rewrite H.
Qed.

(** What a bind did, whatever it answered. *)
Lemma bind_uds_spec c path parent :
  let '(done, r) := bind_uds c path parent in
  match r with
  | Ok _ => confined_parent c parent ∧
      (done = [Bound] ∧ uc_entry c = Err IoNotFound ∨ done = [Unlinked; Bound] ∧ uc_entry c = Ok FtSocket)
  | Err _ => done = [] ∨ done = [Unlinked] ∧ uc_entry c = Ok FtSocket ∧ confined_parent c parent
  end.
Proof.
  unfold bind_uds. destruct parent as [p|]; [|by left]. destruct (Nat.eqb_spec (String.length p) 0) as [|Hp]; [by left|].
  assert (Hp' : p ≠ ""%string) by (by intros ->). pose proof (confinement_spec c path p Hp') as Hc.
  destruct (validate_parent_dir_confinement c path p) as [[]|e]; [|by left].
  assert (Hconf : confined_parent c (Some p)) by (by apply Hc). clear Hc Hp.
  destruct (uc_entry c) as [ft|[]]; [|destruct (uc_bind c); [|by left]; split; [done|by left]|by left|by left].
  destruct (not_socket_label ft) eqn:Hl; [by left|]. apply not_socket_None in Hl as ->.
  destruct (uc_remove c); [|by left]. destruct (uc_bind c); [|by right]. split; [done|by right].
Qed.

(** Binding the Unix socket never destroys what it did not make.  Whatever
    the calls find, [try_bind_uds] unlinks only an entry it saw to be a socket,
    touches nothing unless the parent is an existing directory that is not
    world-writable or has the sticky bit, changes modes only on a socket and only
    after its own bind, and succeeds exactly when it did both. *)
Theorem try_bind_uds_safe (c : UdsCalls) (path : string) (parent : option string) (mode : Z) :
  let '(done, r) := try_bind_uds c path parent mode in
  (done ≠ [] → confined_parent c parent) ∧
  (Unlinked ∈ done → uc_entry c = Ok FtSocket) ∧
  (∀ m, Chmodded m ∈ done → m = mode ∧ uc_entry_bound c = Ok FtSocket ∧ ∃ pre, done = pre ++ [Bound; Chmodded m]) ∧
  (r = Ok tt ↔ Chmodded mode ∈ done).
Proof.
  unfold try_bind_uds. pose proof (bind_uds_spec c path parent) as H. destruct (bind_uds c path parent) as [done [u|e]].
  2:{ destruct H as [->|(-> & H1 & H2)]; split_and!; try done; set_solver. }
  destruct H as [H1 H2]. assert (Hdone : ∃ pre, done = pre ++ [Bound] ∧ (Unlinked ∈ pre → uc_entry c = Ok FtSocket) ∧ ∀ m, ¬ Chmodded m ∈ pre).
  { destruct H2 as [[-> H2]|[-> H2]]; [exists []|exists [Unlinked]]; split_and!; set_solver. }
  clear H2. destruct Hdone as (pre & -> & H2 & H3). unfold set_uds_permissions.
  assert (Hno : ∀ m, ¬ Chmodded m ∈ (pre ++ [Bound]) ++ []).
  { intros m. rewrite app_nil_r, elem_of_app, list_elem_of_singleton. intros [H|H]; [by apply (H3 m)|done]. }
  assert (Hun : ∀ more, ¬ Unlinked ∈ more → Unlinked ∈ (pre ++ [Bound]) ++ more → uc_entry c = Ok FtSocket).
  { intros more Hm. rewrite !elem_of_app, list_elem_of_singleton. intros [[H|H]|H]; [by apply H2|done|done]. }
  assert (Hfail : ∀ e : StreamError, let done := (pre ++ [Bound]) ++ [] in
    (done ≠ [] → confined_parent c parent) ∧ (Unlinked ∈ done → uc_entry c = Ok FtSocket) ∧
    (∀ m, Chmodded m ∈ done → m = mode ∧ uc_entry_bound c = Ok FtSocket ∧ ∃ pre, done = pre ++ [Bound; Chmodded m]) ∧
    (Err e = Ok tt ↔ Chmodded mode ∈ done)).
  { intros e. split_and!; [done|apply Hun; apply not_elem_of_nil|by intros m Hm%Hno|]. by split; [|intros Hm%Hno]. }
  destruct (uc_entry_bound c) as [ft|k]; [|apply Hfail]. destruct (not_socket_label ft) eqn:Hl; [apply Hfail|].
  apply not_socket_None in Hl as ->. destruct (uc_chmod c) as [[]|k]; [|apply Hfail].
  split_and!; [done|apply Hun; by intros ?%list_elem_of_singleton| |].
  - intros m. rewrite !elem_of_app, !list_elem_of_singleton. intros [[H|H]|[= ->]]; [by destruct (H3 m)|done|].
    split_and!; [done|done|]. exists pre. by rewrite <-app_assoc.
  - split; [|done]. intros _. apply elem_of_app. right. by apply list_elem_of_singleton.
Qed.

(** ** A capped listener, a slow client *)

Section FanScenario.
#[local] Instance fan_bus : Broadcast (list Z) := ring_broadcast (list Z).

Definition fan_str (raw : list ascii) : option string := Some (string_of_list_ascii raw).
Definition fan_policy : TransportPolicy := mkTransportPolicy 1 true (Some ["https://lab"]%string).
Definition fan_headers : HeaderMap := mkHeaderMap (Some (bytes_of "https://lab")) (Some (bytes_of "v0, acoustics")).

(** The second client is over the cap; the first gets one frame and then falls
    four behind a ring of two. *)
Definition fan_events : list fan_event :=
  [ Upgrade AudioStream fan_policy fan_headers 0; Upgrade AudioStream fan_policy fan_headers 1;
    Publish AudioStream [1]%Z; Turn 0 true None;
    Publish AudioStream [2]%Z; Publish AudioStream [3]%Z; Publish AudioStream [4]%Z; Publish AudioStream [5]%Z ].
Definition fan_lagged : list fan_event := fan_events ++ [Turn 0 true None].

Lemma fan_capped : Forall (capped AudioStream 1) fan_events.
Proof. repeat constructor; cbn; lia. Qed.

Lemma fanout_counts_witness :
  let s := fan_run fan_str fan_events (with_capacities 2 2) in
  subs (audio s) = 1%Z ∧ on_kind AudioStream (conns s) = 1 ∧ (Z.of_nat (on_kind AudioStream (conns s)) ≤ 1)%Z.
Proof.
  destruct (fanout_counts (B := fan_bus) (BL := ring_broadcast_laws (list Z)) fan_str 2 2 fan_events ltac:(unfold u64_max; cbn; lia) AudioStream) as [H1 H2].
  split; [vm_compute; reflexivity|]. split; [vm_compute; reflexivity|].
  apply H2; [unfold u32_max; lia|]. exact fan_capped.
Defined.

Lemma ws_no_gap_witness :
  ∃ c, closed (fan_run fan_str fan_lagged (with_capacities 2 2)) = [c] ∧
    conn_out c = [Binary [1]%Z; Close 1011 "lagged 2"] ∧
    ∃ from, binaries (conn_out c) = take (List.length (binaries (conn_out c)))
      (drop from (sent (BroadcastLaws := ring_broadcast_laws (list Z)) (tx (stream_of (conn_kind c) (fan_run fan_str fan_lagged (with_capacities 2 2)))))).
Proof.
  set (c := mkConn AudioStream (3 : rx (Broadcast := fan_bus)) [Binary [1]%Z; Close 1011 "lagged 2"] : Conn (B := fan_bus)).
  assert (E : closed (fan_run fan_str fan_lagged (with_capacities 2 2)) = [c]) by (vm_compute; reflexivity).
  exists c. split; [exact E|]. split; [reflexivity|].
  destruct (ws_no_gap (B := fan_bus) (BL := ring_broadcast_laws (list Z)) fan_str 2 2 fan_lagged ltac:(unfold u64_max; cbn; lia) c) as [_ H].
  destruct H as [H _]; [rewrite E; by left|]. exact H.
Defined.
End FanScenario.
