(* ===== verification/AudioBuffer.v ===== *)
(** * The sample ring ([src/modules/audio_buffer.rs])

    One writer, any number of readers, no locks: the writer stores cells and
    then the head, a reader loads the head, the cells and the head again.

    Every atomic access is its own step.  A location is the history of the
    values stored to it.  A reader carries, per location, the oldest value it
    may still see: an acquire load of the head raises that to what the writer
    had stored before the matching release store; a relaxed store of a cell
    carries nothing, so the reader's [fence(Acquire)] has nothing to acquire.  With [stale := false] every load sees the newest value
    (sequential consistency, and x86-TSO, where the store buffer of the writer
    only delays its steps); with [stale := true] a load sees any value the
    Rust memory model allows. *)

From S2P Require Import Prelude Common.

(** ** Construction *)

Inductive ReadStatus : Type :=
  | Ready
  | Wait
  | Lagged (by_ : Z).

(** [Inner]: the history of each cell (an [f32] is its bits), and of the head
    with, per cell, how many stores preceded the release. *)
Record Inner := mkInner {
  data : list (list Z);
  capacity : Z;
  writer_taken : bool;
  head_history : list (Z * list nat);
}.

Definition capacity_minus_margin (b : Inner) : Z := capacity b - capacity b / 4.
Definition safety_margin (b : Inner) : Z := capacity b / 4.

Definition is_power_of_two (n : Z) : bool := ((0 <? n) && (Z.land n (n - 1) =? 0))%Z.

(** [None] is the panic. *)
Definition AudioBuffer_new (cap : Z) : option Inner :=
  if ((4 <=? cap) && is_power_of_two cap)%Z
  then Some (mkInner (replicate (Z.to_nat cap) [0%Z]) cap false [(0%Z, replicate (Z.to_nat cap) 0)])
  else None.

Definition safe_peek_window (b : Inner) : Z := capacity_minus_margin b.
Definition max_push_len (b : Inner) : Z := safety_margin b.

(** The newest head. *)
Definition newest_head (b : Inner) : Z := match List.last (head_history b) (0%Z, []) with (v, _) => v end.

(** ** The writer *)

(** The stores of one [push] at [head]: the run to the end of the ring, then the
    wrapped rest. *)
Definition push_stores (cap head : Z) (samples : list Z) : list (nat * Z) :=
  let start := Z.to_nat (Z.land head (cap - 1)) in
  let n := List.length samples in
  let first := (Z.to_nat cap - start) `min` n in
  let head_part := take first samples in
  let wrap_part := drop first samples in
  zip (seq start first) head_part ++ zip (seq 0 (List.length wrap_part)) wrap_part.

(** Where the writer is: between calls, or with stores left and the head to
    publish after them. *)
Inductive wpc : Type :=
  | WIdle
  | WStoring (todo : list (nat * Z)) (next_head : Z).

(** [Writer::push] up to its first store; [None] is the panic. *)
Definition push_begin (b : Inner) (samples : list Z) : option wpc :=
  let n := Z.of_nat (List.length samples) in
  if (n =? 0)%Z then Some WIdle
  else if (n <=? safety_margin b)%Z
  then Some (WStoring (push_stores (capacity b) (newest_head b) samples) (wrap_add64 (newest_head b) n))
  else None.

Definition store_cell (c : nat) (s : Z) (b : Inner) : Inner :=
  mkInner (alter (λ h, h ++ [s]) c (data b)) (capacity b) (writer_taken b) (head_history b).

(** A release store: the newest index of every cell goes with it. *)
Definition store_head (v : Z) (b : Inner) : Inner :=
  mkInner (data b) (capacity b) (writer_taken b)
    (head_history b ++ [(v, map (λ h, pred (List.length h)) (data b))]).

Definition set_writer_taken (t : bool) (b : Inner) : Inner :=
  mkInner (data b) (capacity b) t (head_history b).

(** ** Readers *)

(** The oldest values a thread may still see: an index into the head's history,
    and one per cell. *)
Record View := mkView { v_head : nat; v_cells : list nat }.

Definition acquire (i : nat) (released : list nat) (v : View) : View :=
  mkView i (zip_with Nat.max (v_cells v) released).

Inductive rpc : Type :=
  | RIdle
  | RLoading (cells : list nat) (got : list Z)
  | RRecheck (got : list Z).

Record Reader := mkReader { tail : Z; view : View; pc : rpc }.

(** The cells of [n] samples from [tail]. *)
Definition peek_cells (cap tail : Z) (n : nat) : list nat :=
  let start := Z.to_nat (Z.land tail (cap - 1)) in
  let first := (Z.to_nat cap - start) `min` n in
  seq start first ++ seq 0 (n - first).

(** [peek_into] from its first load of the head, [h0]: a final answer, or the
    cells to load. *)
Definition peek_begin (b : Inner) (tail h0 : Z) (n : nat) : ReadStatus + list nat :=
  let avail := sat_sub h0 tail in
  if (avail <? Z.of_nat n)%Z then inl Wait
  else if (capacity_minus_margin b <? avail)%Z then inl (Lagged avail)
  else inr (peek_cells (capacity b) tail n).

(** The recheck, from the second load. *)
Definition peek_end (b : Inner) (tail h1 : Z) : ReadStatus :=
  let avail1 := sat_sub h1 tail in
  if (avail1 <=? capacity_minus_margin b)%Z then Ready else Lagged avail1.

(** [advance]; [None] is the panic. *)
Definition advance_tail (tail head : Z) (n : nat) : option Z :=
  let tail := sat_add64 tail (Z.of_nat n) in
  if (tail <=? head)%Z then Some tail else None.

Definition seek_tail (head : Z) (n : nat) : Z := sat_sub head (Z.of_nat n).
Definition available_at (tail head : Z) : Z := sat_sub head tail.

(** ** Threads *)

Record System := mkSystem { ring : Inner; writer : wpc; readers : gmap nat Reader }.

(** What the calls answer. *)
Inductive event : Type :=
  | Pushed (samples : list Z)
  | PushPanics
  | TakePanics
  | Peeked (t : nat) (tail : Z) (n : nat) (out : list Z) (status : ReadStatus)
  | PeekPanics (t : nat)
  | Advanced (t : nat) (tail : Z)
  | AdvancePanics (t : nat)
  | Available (t : nat) (n : Z).

(** The index a load may see. *)
Definition sees (stale : bool) (oldest len i : nat) : Prop :=
  oldest ≤ i < len ∧ (stale = false → i = pred len).

Definition with_ring (b : Inner) (s : System) : System := mkSystem b (writer s) (readers s).
Definition with_reader (t : nat) (r : Reader) (s : System) : System := mkSystem (ring s) (writer s) (<[t := r]> (readers s)).

Inductive step (stale : bool) : System → list event → System → Prop :=
  | TakeWriter s :
      writer_taken (ring s) = false → step stale s [] (with_ring (set_writer_taken true (ring s)) s)
  | TakeWriterPanics s :
      writer_taken (ring s) = true → step stale s [TakePanics] s
  | DropWriter s :
      writer_taken (ring s) = true → writer s = WIdle → step stale s [] (with_ring (set_writer_taken false (ring s)) s)
  | PushBegin s samples w :
      writer_taken (ring s) = true → writer s = WIdle → push_begin (ring s) samples = Some w →
      step stale s [Pushed samples] (mkSystem (ring s) w (readers s))
  | PushOver s samples :
      writer_taken (ring s) = true → writer s = WIdle → push_begin (ring s) samples = None →
      step stale s [PushPanics] s
  | StoreCell s c x todo nh :
      writer s = WStoring ((c, x) :: todo) nh →
      step stale s [] (mkSystem (store_cell c x (ring s)) (WStoring todo nh) (readers s))
  | StoreHead s nh :
      writer s = WStoring [] nh →
      step stale s [] (mkSystem (store_head nh (ring s)) WIdle (readers s))
  | NewReader s t behind i v rel :
      readers s !! t = None → sees stale 0 (List.length (head_history (ring s))) i → head_history (ring s) !! i = Some (v, rel) →
      step stale s [] (with_reader t (mkReader (seek_tail v behind) (mkView i rel) RIdle) s)
  | PeekNone s t r :
      readers s !! t = Some r → pc r = RIdle → step stale s [Peeked t (tail r) 0 [] Ready] s
  | PeekOver s t r n :
      readers s !! t = Some r → pc r = RIdle → (capacity_minus_margin (ring s) < Z.of_nat n)%Z →
      step stale s [PeekPanics t] s
  | PeekBegin s t r n i v rel :
      readers s !! t = Some r → pc r = RIdle → 0 < n → (Z.of_nat n ≤ capacity_minus_margin (ring s))%Z →
      sees stale (v_head (view r)) (List.length (head_history (ring s))) i → head_history (ring s) !! i = Some (v, rel) →
      let vw := acquire i rel (view r) in
      step stale s
        (match peek_begin (ring s) (tail r) v n with inl st => [Peeked t (tail r) n [] st] | inr _ => [] end)
        (with_reader t (mkReader (tail r) vw
           (match peek_begin (ring s) (tail r) v n with inl _ => RIdle | inr cells => RLoading cells [] end)) s)
  | LoadCell s t r c cells got h i oldest x :
      readers s !! t = Some r → pc r = RLoading (c :: cells) got →
      data (ring s) !! c = Some h → v_cells (view r) !! c = Some oldest →
      sees stale oldest (List.length h) i → h !! i = Some x →
      step stale s []
        (with_reader t (mkReader (tail r) (mkView (v_head (view r)) (<[c := i]> (v_cells (view r)))) (RLoading cells (got ++ [x]))) s)
  | LoadsDone s t r got :
      readers s !! t = Some r → pc r = RLoading [] got →
      step stale s [] (with_reader t (mkReader (tail r) (view r) (RRecheck got)) s)
  | Recheck s t r got i v rel :
      readers s !! t = Some r → pc r = RRecheck got →
      sees stale (v_head (view r)) (List.length (head_history (ring s))) i → head_history (ring s) !! i = Some (v, rel) →
      step stale s [Peeked t (tail r) (List.length got) got (peek_end (ring s) (tail r) v)]
        (with_reader t (mkReader (tail r) (acquire i rel (view r)) RIdle) s)
  | Advance s t r n i v rel :
      readers s !! t = Some r → pc r = RIdle →
      sees stale (v_head (view r)) (List.length (head_history (ring s))) i → head_history (ring s) !! i = Some (v, rel) →
      step stale s
        (match advance_tail (tail r) v n with Some tl => [Advanced t tl] | None => [AdvancePanics t] end)
        (with_reader t (mkReader (sat_add64 (tail r) (Z.of_nat n)) (mkView i (v_cells (view r))) RIdle) s)
  | SeekLatest s t r n i v rel :
      readers s !! t = Some r → pc r = RIdle →
      sees stale (v_head (view r)) (List.length (head_history (ring s))) i → head_history (ring s) !! i = Some (v, rel) →
      step stale s [] (with_reader t (mkReader (seek_tail v n) (acquire i rel (view r)) RIdle) s)
  | AvailableCall s t r i v rel :
      readers s !! t = Some r → pc r = RIdle →
      sees stale (v_head (view r)) (List.length (head_history (ring s))) i → head_history (ring s) !! i = Some (v, rel) →
      step stale s [Available t (available_at (tail r) v)]
        (with_reader t (mkReader (tail r) (acquire i rel (view r)) RIdle) s).

(** A run and what its calls answered. *)
Inductive run (stale : bool) : System → list event → System → Prop :=
  | RunStart s : run stale s [] s
  | RunStep s tr s' ev s'' : run stale s tr s' → step stale s' ev s'' → run stale s (tr ++ ev) s''.

Definition start (b : Inner) : System := mkSystem b WIdle ∅.

(** The samples of the accepted pushes, in order. *)
Definition pushed (tr : list event) : list Z :=
  List.concat (omap (λ e, match e with Pushed l => Some l | _ => None end) tr).
