(* ===== verification/AudioBufferFacts.v ===== *)
(** * The invariant of the sample ring

    Positions count the samples ever pushed; a cell holds those of its residue
    in order.  [inv]: what the writer has stored and published, what each
    reader's view covers, and that every window answered so far is covered. *)

From S2P Require Import Prelude Common AudioBuffer.

(** ** Positions and cells *)

Section Cells.
Variable N : nat.
Hypothesis HN : 0 < N.

(** How many of the first [k] positions fall in cell [c]. *)
Definition cnt (c k : nat) : nat := (k + (N - 1 - c)) / N.

Lemma cnt_spec c k i : c < N → i < cnt c k ↔ c + i * N < k.
Proof.
  intros Hc. unfold cnt. pose proof (Nat.div_mod (k + (N - 1 - c)) N ltac:(lia)).
  pose proof (Nat.mod_upper_bound (k + (N - 1 - c)) N ltac:(lia)). set (q := (k + (N - 1 - c)) / N) in *. split; intros Hi; nia.
Qed.

Lemma nat_by_lt (a b : nat) : (∀ i, i < a ↔ i < b) → a = b.
Proof. intros H. pose proof (H a). pose proof (H b). lia. Qed.

Lemma cnt_mono c k k' : c < N → k ≤ k' → cnt c k ≤ cnt c k'.
Proof. intros Hc Hk. destruct (Nat.le_gt_cases (cnt c k) (cnt c k')) as [|Hgt]; [done|]. apply cnt_spec in Hgt; [|done].
  assert (¬ cnt c k' < cnt c k') as Hn by lia. rewrite cnt_spec in Hn by done. lia. Qed.

(** The position of the newest store to [c]. *)
Lemma cnt_at c k p : p mod N = c → p = c + (p / N) * N ∧ (p < k ↔ p / N < cnt c k).
Proof.
  intros Hp. assert (Hc : c < N) by (subst c; apply Nat.mod_upper_bound; lia).
  pose proof (Nat.div_mod p N ltac:(lia)). assert (E : p = c + p / N * N) by lia. split; [done|].
  rewrite cnt_spec by done. by rewrite <-E.
Qed.

Lemma cnt_next k : cnt (k mod N) k = k / N.
Proof.
  assert (Hc : k mod N < N) by (apply Nat.mod_upper_bound; lia).
  pose proof (Nat.div_mod k N ltac:(lia)). apply nat_by_lt. intros i. rewrite cnt_spec by done. split; intros; nia.
Qed.

Lemma cnt_S c k : c < N → cnt c (S k) = if bool_decide (k mod N = c) then S (cnt c k) else cnt c k.
Proof.
  intros Hc. apply nat_by_lt. intros i. rewrite cnt_spec by done. case_bool_decide as Hk.
  - subst c. rewrite cnt_next. pose proof (Nat.div_mod k N ltac:(lia)). split; intros; nia.
  - rewrite cnt_spec by done. split; [|lia]. intros Hi. destruct (decide (k = c + i * N)) as [->|]; [|lia].
    exfalso. apply Hk. rewrite Nat.Div0.mod_add. by apply Nat.mod_small.
Qed.

Lemma next_lap p q : q mod N = p mod N → p < q → p + N ≤ q.
Proof.
  intros E Hlt. pose proof (Nat.div_mod q N ltac:(lia)) as Hq. pose proof (Nat.div_mod p N ltac:(lia)) as Hp. rewrite E in Hq.
  set (a := p / N) in *. set (b := q / N) in *. set (r := p mod N) in *. assert (a < b); nia.
Qed.

(** The history of a cell after the first [k] samples of [L]. *)
Definition hist_ok (c : nat) (h : list Z) (k : nat) (L : list Z) : Prop :=
  List.length h = S (cnt c k) ∧ ∀ i, i < cnt c k → h !! S i = L !! (c + i * N).

Lemma hist_store c h k L x : c < N → k mod N = c → hist_ok c h k L → L !! k = Some x → hist_ok c (h ++ [x]) (S k) L.
Proof.
  intros Hc Hk [H1 H2] Hx. unfold hist_ok. rewrite cnt_S, bool_decide_eq_true_2 by done. split; [rewrite length_app; cbn; lia|].
  intros i Hi. destruct (decide (i = cnt c k)) as [->|].
  - rewrite lookup_app_r by lia. rewrite H1, Nat.sub_diag. cbn. rewrite <-Hx. f_equal. subst c. rewrite cnt_next.
    pose proof (Nat.div_mod k N ltac:(lia)). lia.
  - rewrite lookup_app_l by lia. apply H2. lia.
Qed.

Lemma hist_other c h k L : c < N → k mod N ≠ c → hist_ok c h k L → hist_ok c h (S k) L.
Proof. intros Hc Hk H. unfold hist_ok. by rewrite cnt_S, bool_decide_eq_false_2. Qed.

Lemma hist_grow c h k L l : c < N → k ≤ List.length L → hist_ok c h k L → hist_ok c h k (L ++ l).
Proof.
  intros Hc Hk [H1 H2]. split; [done|]. intros i Hi. rewrite H2 by done. rewrite lookup_app_l; [done|]. apply cnt_spec in Hi; [|done]. lia.
Qed.

(** A load that is not older than the head [h] shows a sample that is not older
    than position [p] below [h]. *)
Lemma hist_read c hist k L h p i x : p mod N = c → p < h → hist_ok c hist k L → cnt c h ≤ i → hist !! i = Some x →
  ∃ q, q mod N = c ∧ p ≤ q < k ∧ L !! q = Some x ∧ (i = cnt c k → k ≤ q + N).
Proof.
  intros Hp Hph [H1 H2] Hi Hx. assert (Hc : c < N) by (subst c; apply Nat.mod_upper_bound; lia).
  destruct (cnt_at c h p Hp) as [E Hlt]. apply Hlt in Hph as Hd.
  assert (Hil : i < List.length hist) by (by eapply lookup_lt_Some). rewrite H1 in Hil.
  destruct i as [|i]; [lia|]. rewrite H2 in Hx by lia. exists (c + i * N).
  assert (Hik : c + i * N < k) by (apply cnt_spec; [done|lia]).
  split_and!; [rewrite Nat.Div0.mod_add; by apply Nat.mod_small|nia|done|done|].
  intros Ei. assert (Hno : ¬ S i < cnt c k) by lia. rewrite cnt_spec in Hno by done. lia.
Qed.
End Cells.

(** ** Indices of the source *)

Lemma land_mask e x : (0 ≤ e)%Z → Z.land x (2 ^ e - 1) = (x mod 2 ^ e)%Z.
Proof. intros He. rewrite <-Z.land_ones by done. by rewrite Z.ones_equiv, Z.sub_1_r. Qed.

Lemma power_of_two n : is_power_of_two n = true → ∃ e, (0 ≤ e ∧ n = 2 ^ e)%Z.
Proof.
  unfold is_power_of_two. intros [Hn H]%andb_true_iff. apply Z.ltb_lt in Hn. apply Z.eqb_eq in H. exists (Z.log2 n).
  split; [apply Z.log2_nonneg|]. destruct (Z.log2_spec n Hn) as [H1 H2].
  destruct (decide (n = 2 ^ Z.log2 n)%Z) as [|Hne]; [done|]. exfalso.
  assert (Hb : Z.testbit (Z.land n (n - 1)) (Z.log2 n) = true).
  { rewrite Z.land_spec, Z.bit_log2 by done. assert (El : Z.log2 (n - 1) = Z.log2 n) by (apply Z.log2_unique; [apply Z.log2_nonneg|lia]).
    rewrite <-El. rewrite Z.bit_log2; [done|]. pose proof (Z.pow_pos_nonneg 2 (Z.log2 n) ltac:(lia) (Z.log2_nonneg n)). lia. }
  rewrite H, Z.bits_0 in Hb. done.
Qed.

(** The two runs of the source are the positions modulo the capacity. *)
Lemma ring_run (N st n : nat) : st < N → n ≤ N →
  seq st ((N - st) `min` n) ++ seq 0 (n - (N - st) `min` n) = map (λ i, (st + i) mod N) (seq 0 n).
Proof.
  intros Hst Hn. set (f := (N - st) `min` n). replace n with (f + (n - f)) at 2 by lia. rewrite seq_app, map_app. f_equal.
  - apply list_eq. intros i. rewrite list_lookup_fmap. destruct (decide (i < f)).
    + rewrite !lookup_seq_lt by lia. cbn. f_equal. rewrite Nat.mod_small; lia.
    + rewrite !lookup_seq_ge by lia. done.
  - apply list_eq. intros i. rewrite list_lookup_fmap. destruct (decide (i < n - f)).
    + rewrite !lookup_seq_lt by lia. cbn. f_equal. replace (st + (f + i)) with (i + 1 * N) by lia.
      rewrite Nat.Div0.mod_add. rewrite Nat.mod_small; lia.
    + rewrite !lookup_seq_ge by lia. done.
Qed.

Lemma seq_shift_mod (N k n : nat) : map (λ i, (k + i) mod N) (seq 0 n) = map (λ p, p mod N) (seq k n).
Proof.
  apply list_eq. intros i. rewrite !list_lookup_fmap. destruct (decide (i < n)); [|by rewrite !lookup_seq_ge by lia].
  by rewrite !lookup_seq_lt by lia.
Qed.

Section Ring.
Variables (stale : bool) (cap e : Z).
Hypothesis Hcap : (cap = 2 ^ e)%Z.
Hypothesis He : (2 ≤ e)%Z.

Let N : nat := Z.to_nat cap.
Let margin : nat := N / 4.

Lemma cap_N : cap = Z.of_nat N ∧ 4 ≤ N.
Proof.
  assert (H : (2 ^ 2 ≤ 2 ^ e)%Z) by (apply Z.pow_le_mono_r; lia). unfold N. rewrite Hcap. change (2 ^ 2)%Z with 4%Z in H. lia.
Qed.

Lemma mask_mod p : Z.to_nat (Z.land (Z.of_nat p) (cap - 1)) = p mod N.
Proof.
  destruct cap_N as [E H4]. rewrite Hcap at 1. rewrite land_mask by lia. rewrite <-Hcap, E. rewrite <-Nat2Z.inj_mod. apply Nat2Z.id.
Qed.

Lemma peek_cells_spec p n : n ≤ N → peek_cells cap (Z.of_nat p) n = map (λ q, q mod N) (seq p n).
Proof.
  intros Hn. destruct cap_N as [_ H4]. unfold peek_cells. rewrite mask_mod. fold N.
  assert (Hp : p mod N < N) by (apply Nat.mod_upper_bound; lia). rewrite ring_run by done.
  rewrite <-seq_shift_mod. apply map_ext. intros i. apply Nat.Div0.add_mod_idemp_l.
Qed.

Lemma push_stores_spec p samples : List.length samples ≤ N →
  push_stores cap (Z.of_nat p) samples = zip (map (λ q, q mod N) (seq p (List.length samples))) samples.
Proof.
  intros Hn. destruct cap_N as [_ H4]. unfold push_stores. rewrite mask_mod. fold N. set (n := List.length samples) in *.
  assert (Hp : p mod N < N) by (apply Nat.mod_upper_bound; lia). set (f := (N - p mod N) `min` n).
  rewrite <-zip_with_app by (rewrite length_seq, length_take; unfold n in *; lia).
  rewrite take_drop, length_drop. fold n. f_equal. unfold f. rewrite ring_run by done.
  rewrite <-seq_shift_mod. apply map_ext. intros i. apply Nat.Div0.add_mod_idemp_l.
Qed.

(** ** The invariant *)

Abbreviation cnt := (cnt N).
Abbreviation hist_ok := (hist_ok N).

Definition released (v : nat) : list nat := map (λ c, cnt c v) (seq 0 N).

Lemma released_at v c : c < N → released v !! c = Some (cnt c v).
Proof. intros Hc. unfold released. rewrite list_lookup_fmap, lookup_seq_lt by done. done. Qed.

(** [hs] are the published heads, [k] the samples stored, of the samples [L]. *)
Record ring_ok (L : list Z) (hs : list nat) (k : nat) (b : Inner) : Prop := {
  ro_cap : capacity b = cap;
  ro_cells : List.length (data b) = N;
  ro_hist : ∀ c h, data b !! c = Some h → hist_ok c h k L;
  ro_heads : head_history b = map (λ v, (Z.of_nat v, released v)) hs;
  ro_some : hs ≠ [];
  ro_sorted : ∀ i j v w, i ≤ j → hs !! i = Some v → hs !! j = Some w → v ≤ w;
  ro_last : List.last hs 0 ≤ k ≤ List.length L;
  ro_margin : List.length L ≤ List.last hs 0 + margin;
  ro_u64 : (Z.of_nat (List.length L) ≤ u64_max)%Z;
}.

Definition writer_ok (L : list Z) (hs : list nat) (k : nat) (w : wpc) : Prop :=
  match w with
  | WIdle => List.last hs 0 = List.length L ∧ k = List.length L
  | WStoring todo nh => nh = Z.of_nat (List.length L) ∧ todo = zip (map (λ q, q mod N) (seq k (List.length L - k))) (drop k L)
  end.

(** The sample at position [p], or a newer one of its cell; the newer one only
    with stale loads, or once the head is past the window. *)
Definition sample_ok (L : list Z) (hd k p : nat) (x : Z) (limit : nat) : Prop :=
  ∃ q, q mod N = p mod N ∧ p ≤ q < k ∧ L !! q = Some x ∧ (stale = false → q = p ∨ limit < hd).

(** The view is at least what was stored before the head [hv]. *)
Definition covers (vw : View) (hv : nat) : Prop := ∀ c o, v_cells vw !! c = Some o → cnt c hv ≤ o.

Definition pc_ok (L : list Z) (hs : list nat) (k hv : nat) (vw : View) (tl : Z) (p : rpc) : Prop :=
  let window (got : list Z) (n : nat) :=
    ∃ t, tl = Z.of_nat t ∧ List.length got ≤ n ∧ t + n ≤ hv ∧ hv ≤ t + (N - margin) ∧
      ∀ i x, got !! i = Some x → sample_ok L (List.last hs 0) k (t + i) x (t + (N - margin)) in
  match p with
  | RIdle => True
  | RLoading cells got => covers vw hv ∧ ∃ n, window got n ∧
      ∃ t, tl = Z.of_nat t ∧ cells = map (λ q, q mod N) (seq (t + List.length got) (n - List.length got))
  | RRecheck got => window got (List.length got)
  end.

Definition reader_ok (L : list Z) (hs : list nat) (k : nat) (r : Reader) : Prop :=
  (0 ≤ tail r)%Z ∧ List.length (v_cells (view r)) = N ∧
  ∃ hv, hs !! v_head (view r) = Some hv ∧
    (∀ c o, v_cells (view r) !! c = Some o → o ≤ cnt c k) ∧
    pc_ok L hs k hv (view r) (tail r) (pc r).

(** What has been answered: a [Ready] window, and that the reader's view covers
    it from then on. *)
Definition answer_ok (L : list Z) (hs : list nat) (k : nat) (rs : gmap nat Reader) (ev : event) : Prop :=
  match ev with
  | Peeked t tl n out Ready => List.length out = n ∧
      (n ≠ 0 → ∃ p, tl = Z.of_nat p ∧ (∀ i x, out !! i = Some x → ∃ q, q mod N = (p + i) mod N ∧ p + i ≤ q < k ∧
          L !! q = Some x ∧ (stale = false → q = p + i)) ∧
        ∃ r hv, rs !! t = Some r ∧ hs !! v_head (view r) = Some hv ∧ p + n ≤ hv)
  | _ => True
  end.

Definition inv (L : list Z) (tr : list event) (s : System) : Prop :=
  ∃ hs k, ring_ok L hs k (ring s) ∧ writer_ok L hs k (writer s) ∧
    map_Forall (λ _, reader_ok L hs k) (readers s) ∧ Forall (answer_ok L hs k (readers s)) tr.

(** ** The writer's steps keep what readers know *)

Record later (L : list Z) (hs : list nat) (k : nat) (L' : list Z) (hs' : list nat) (k' : nat) : Prop := {
  lt_log : ∃ l, L' = L ++ l;
  lt_heads : ∃ h, hs' = hs ++ h;
  lt_stored : k ≤ k';
  lt_last : List.last hs 0 ≤ List.last hs' 0;
}.

Lemma sample_later L hs k L' hs' k' p x limit : later L hs k L' hs' k' →
  sample_ok L (List.last hs 0) k p x limit → sample_ok L' (List.last hs' 0) k' p x limit.
Proof.
  intros [[l ->] _ Hk Hl] (q & H1 & H2 & H3 & H4). exists q. split_and!; [done|lia|lia|by apply lookup_app_l_Some|].
  intros Hs. destruct (H4 Hs); [by left|right; lia].
Qed.

Lemma reader_later L hs k L' hs' k' r : later L hs k L' hs' k' → reader_ok L hs k r → reader_ok L' hs' k' r.
Proof.
  intros Hlt (H1 & H2 & hv & H3 & H4 & H5). pose proof Hlt as [[l EL] [h Eh] Hk Hl].
  split; [done|]. split; [done|]. exists hv. split; [rewrite Eh; by apply lookup_app_l_Some|]. destruct cap_N as [_ HN]. split.
  - intros c o Ho. specialize (H4 c o Ho). assert (Hc : c < N) by (rewrite <-H2; by eapply lookup_lt_Some).
    pose proof (cnt_mono N ltac:(lia) c k k' Hc Hk). lia.
  - assert (Hw : ∀ t (got : list Z), (∀ i x, got !! i = Some x → sample_ok L (List.last hs 0) k (t + i) x (t + (N - margin))) →
      ∀ i x, got !! i = Some x → sample_ok L' (List.last hs' 0) k' (t + i) x (t + (N - margin))).
    { intros t got Hg i x Hx. eapply sample_later; [exact Hlt|]. by apply Hg. }
    unfold pc_ok in *. destruct (pc r) as [|cells got|got]; [done|..].
    + destruct H5 as (Hcv & n & (t & E1 & E2 & E3 & E4 & E5) & H6). split; [done|]. exists n. split; [|done]. exists t. split_and!; try done. by apply Hw.
    + destruct H5 as (t & E1 & E2 & E3 & E4 & E5). exists t. split_and!; try done. by apply Hw.
Qed.

Lemma answer_later L hs k L' hs' k' rs ev : later L hs k L' hs' k' → answer_ok L hs k rs ev → answer_ok L' hs' k' rs ev.
Proof.
  intros [[l ->] [h ->] Hk Hl]. destruct ev as [| | |t tl n out [| |b]| | | |]; cbn; try done. intros [H1 H2]. split; [done|].
  intros Hn. destruct (H2 Hn) as (p & E & H3 & r & hv & H4 & H5 & H6). exists p. split_and!; [done| |].
  - intros i x Hx. destruct (H3 i x Hx) as (q & E1 & E2 & E3 & E4). exists q. split_and!; [done|lia|lia|by apply lookup_app_l_Some|done].
  - exists r, hv. split_and!; [done|by apply lookup_app_l_Some|done].
Qed.

Lemma inv_later L hs k L' hs' k' tr s b w : later L hs k L' hs' k' →
  ring_ok L' hs' k' b → writer_ok L' hs' k' w →
  map_Forall (λ _, reader_ok L hs k) (readers s) → Forall (answer_ok L hs k (readers s)) tr →
  inv L' tr (mkSystem b w (readers s)).
Proof.
  intros Hlt Hb Hw Hr Ha. exists hs', k'. split_and!; [done|done| |].
  - eapply map_Forall_impl; [exact Hr|]. intros ? r. by apply reader_later.
  - eapply List.Forall_impl; [|exact Ha]. intros ev. by apply answer_later.
Qed.

Lemma list_last_app {A : Type} (l : list A) x d : List.last (l ++ [x]) d = x.
Proof. apply last_last. Qed.

Lemma in_heads L hs k b i v : ring_ok L hs k b → hs !! i = Some v → v ≤ List.last hs 0.
Proof.
  intros Hb Hi. destruct (exists_last (ro_some _ _ _ _ Hb)) as (l & x & E). rewrite E, list_last_app.
  assert (Hlt : i < List.length hs) by (by eapply lookup_lt_Some). rewrite E, length_app in Hlt. cbn in Hlt.
  apply (ro_sorted _ _ _ _ Hb i (List.length l)); [lia|done|]. rewrite E, lookup_app_r, Nat.sub_diag by lia. done.
Qed.

Lemma store_cell_inv L hs k b c x todo nh : ring_ok L hs k b → writer_ok L hs k (WStoring ((c, x) :: todo) nh) →
  ring_ok L hs (S k) (store_cell c x b) ∧ writer_ok L hs (S k) (WStoring todo nh).
Proof.
  intros Hb [Enh Etodo]. destruct cap_N as [_ HN]. pose proof Hb as [B1 B2 B3 B4 B5 B6 B7 B8 B9].
  destruct (List.length L - k) as [|m] eqn:Em; [done|].
  destruct (drop k L) as [|y rest] eqn:Ed; [done|]. cbn in Etodo. injection Etodo as -> -> ->.
  assert (Hx : L !! k = Some y) by (rewrite <-(Nat.add_0_r k), <-lookup_drop, Ed; done).
  assert (Erest : rest = drop (S k) L) by (pose proof (drop_S _ _ _ Hx) as E; rewrite Ed in E; by injection E).
  split.
  - split; cbn; try done.
    + by rewrite length_alter.
    + intros c' h. destruct (decide (c' = k mod N)) as [->|Hne].
      * rewrite list_lookup_alter_eq. intros (h0 & Hh0 & ->)%fmap_Some. apply hist_store; [lia|apply Nat.mod_upper_bound; lia|done|by apply B3|done].
      * rewrite list_lookup_alter_ne by done. intros Hh. assert (c' < N) by (rewrite <-B2; by eapply lookup_lt_Some).
        apply hist_other; [lia|done|congruence|]. by apply B3.
    + lia.
  - split; [done|]. replace (List.length L - S k) with m by lia. by rewrite Erest.
Qed.
Lemma newest_last L hs k b : ring_ok L hs k b → newest_head b = Z.of_nat (List.last hs 0).
Proof.
  intros Hb. unfold newest_head. rewrite (ro_heads _ _ _ _ Hb). destruct (exists_last (ro_some _ _ _ _ Hb)) as (l & x & ->).
  rewrite map_app. cbn [map]. by rewrite !list_last_app.
Qed.

Lemma store_head_inv L hs k b nh : ring_ok L hs k b → writer_ok L hs k (WStoring [] nh) →
  k = List.length L ∧ ring_ok L (hs ++ [List.length L]) k (store_head nh b) ∧ writer_ok L (hs ++ [List.length L]) k WIdle.
Proof.
  intros Hb [-> Etodo]. destruct cap_N as [_ HN]. pose proof Hb as [B1 B2 B3 B4 B5 B6 B7 B8 B9].
  assert (Hk : k = List.length L).
  { apply (f_equal (@List.length _)) in Etodo. rewrite length_zip_with, length_map, length_seq, length_drop in Etodo. cbn in Etodo. lia. }
  split; [done|]. split; [|unfold writer_ok; by rewrite list_last_app].
  split; cbn; try done.
  - rewrite B4, map_app. cbn. do 3 f_equal. apply list_eq. intros c. rewrite list_lookup_fmap.
    destruct (data b !! c) as [h|] eqn:Eh; cbn.
    + assert (Hc : c < N) by (rewrite <-B2; by eapply lookup_lt_Some). rewrite released_at by done.
      destruct (B3 c h Eh) as [-> _]. cbn. by rewrite Hk.
    + apply lookup_ge_None in Eh. symmetry. apply lookup_ge_None. unfold released. rewrite length_map, length_seq. lia.
  - by destruct hs.
  - intros i j v w Hij Hi Hj. destruct (decide (j < List.length hs)).
    + rewrite lookup_app_l in Hi, Hj by lia. by apply (B6 i j).
    + rewrite (lookup_app_r hs [List.length L] j) in Hj by lia. destruct (j - List.length hs) as [|m]; [|by destruct m].
      injection Hj as <-. destruct (decide (i < List.length hs)).
      * rewrite lookup_app_l in Hi by lia. pose proof (in_heads L hs k b i v Hb Hi). lia.
      * rewrite lookup_app_r in Hi by lia. destruct (i - List.length hs) as [|m]; [by injection Hi as <-|by destruct m].
  - rewrite list_last_app. lia.
  - rewrite list_last_app. lia.
Qed.

Lemma margin_Z : Z.of_nat margin = (cap / 4)%Z.
Proof. destruct cap_N as [E _]. unfold margin. rewrite Nat2Z.inj_div, E. done. Qed.

Lemma push_begin_inv L hs k b samples w : ring_ok L hs k b → writer_ok L hs k WIdle →
  push_begin b samples = Some w → (Z.of_nat (List.length (L ++ samples)) ≤ u64_max)%Z →
  ring_ok (L ++ samples) hs k b ∧ writer_ok (L ++ samples) hs k w.
Proof.
  intros Hb [Hhd Hk] Hp Hu. destruct cap_N as [Ec HN]. pose proof Hb as [B1 B2 B3 B4 B5 B6 B7 B8 B9]. rewrite length_app in Hu.
  unfold push_begin in Hp. destruct (Z.eqb_spec (Z.of_nat (List.length samples)) 0) as [E|E].
  - destruct samples; [|done]. injection Hp as <-. rewrite app_nil_r. done.
  - destruct (Z.leb_spec (Z.of_nat (List.length samples)) (safety_margin b)) as [Hm|]; [|done]. injection Hp as <-.
    unfold safety_margin in Hm. rewrite B1, <-margin_Z in Hm. apply Nat2Z.inj_le in Hm. split.
    + split; try done; rewrite ?length_app; try lia. intros c h Hh. assert (c < N) by (rewrite <-B2; by eapply lookup_lt_Some).
      apply hist_grow; [lia|lia|lia|by apply B3].
    + cbn. rewrite length_app. assert (HmN : margin ≤ N) by (unfold margin; apply Nat.Div0.div_le_upper_bound; lia).
      rewrite (newest_last L hs k b Hb), Hhd, B1, push_stores_spec by lia. rewrite Hk, drop_app_length.
      replace (List.length L + List.length samples - List.length L) with (List.length samples) by lia.
      split; [|done]. unfold wrap_add64. rewrite Z.mod_small; [lia|]. unfold u64_max in *. lia.
Qed.

(** ** The readers' steps *)

Lemma head_load L hs k b i v rel : ring_ok L hs k b → head_history b !! i = Some (v, rel) →
  ∃ h, hs !! i = Some h ∧ v = Z.of_nat h ∧ rel = released h ∧ (i = pred (List.length (head_history b)) → h = List.last hs 0).
Proof.
  intros Hb Hi. rewrite (ro_heads _ _ _ _ Hb) in *. rewrite list_lookup_fmap in Hi. apply fmap_Some in Hi as (h & Hi & [= -> ->]).
  exists h. split_and!; [done|done|done|]. rewrite length_map. intros ->. destruct (exists_last (ro_some _ _ _ _ Hb)) as (l & x & E).
  rewrite E in Hi |- *. rewrite list_last_app. rewrite length_app in Hi. cbn in Hi. rewrite Nat.add_1_r in Hi. cbn in Hi.
  rewrite lookup_app_r, Nat.sub_diag in Hi by lia. by injection Hi as <-.
Qed.

(** A view of a published head. *)
Definition view_ok (hs : list nat) (k : nat) (vw : View) (hv : nat) : Prop :=
  List.length (v_cells vw) = N ∧ hs !! v_head vw = Some hv ∧ ∀ c o, v_cells vw !! c = Some o → o ≤ cnt c k.

Lemma acquire_ok L hs k b i h vw hv : ring_ok L hs k b → view_ok hs k vw hv → v_head vw ≤ i → hs !! i = Some h →
  view_ok hs k (acquire i (released h) vw) h ∧ covers (acquire i (released h) vw) h.
Proof.
  intros Hb (V1 & V2 & V3) Hle Hi. destruct cap_N as [_ HN]. unfold acquire.
  assert (Hlen : List.length (released h) = N) by (unfold released; by rewrite length_map, length_seq).
  assert (Hboth : ∀ c o, v_cells (acquire i (released h) vw) !! c = Some o → cnt c h ≤ o ≤ cnt c k).
  2:{ split; [|intros c o Ho; by apply Hboth]. split; [cbn; rewrite length_zip_with, V1, Hlen; lia|]. split; [done|].
      intros c o Ho. by apply Hboth. }
  cbn. intros c o Ho. apply lookup_zip_with_Some in Ho as (x & y & -> & Hx & Hy). assert (Hc : c < N) by (rewrite <-V1; by eapply lookup_lt_Some).
  rewrite released_at in Hy by done. injection Hy as <-. specialize (V3 c x Hx).
  pose proof (in_heads L hs k b i h Hb Hi). pose proof (ro_last _ _ _ _ Hb).
  pose proof (cnt_mono N ltac:(lia) c h k Hc ltac:(lia)). lia.
Qed.

Lemma new_view_ok L hs k b i h : ring_ok L hs k b → hs !! i = Some h → view_ok hs k (mkView i (released h)) h.
Proof.
  intros Hb Hi. destruct cap_N as [_ HN]. split; [cbn; unfold released; by rewrite length_map, length_seq|]. split; [done|]. cbn.
  intros c o Ho. assert (Hc : c < N) by (apply lookup_lt_Some in Ho; unfold released in Ho; by rewrite length_map, length_seq in Ho).
  rewrite released_at in Ho by done. injection Ho as <-. pose proof (in_heads L hs k b i h Hb Hi). pose proof (ro_last _ _ _ _ Hb).
  pose proof (cnt_mono N ltac:(lia) c h k Hc ltac:(lia)). lia.
Qed.

Lemma reader_view L hs k r : reader_ok L hs k r → ∃ hv, view_ok hs k (view r) hv ∧ pc_ok L hs k hv (view r) (tail r) (pc r) ∧ (0 ≤ tail r)%Z.
Proof. intros (H1 & H2 & hv & H3 & H4 & H5). by exists hv. Qed.

Lemma reader_of_view L hs k tl vw p hv : (0 ≤ tl)%Z → view_ok hs k vw hv → pc_ok L hs k hv vw tl p → reader_ok L hs k (mkReader tl vw p).
Proof. intros H1 (V1 & V2 & V3) H2. split; [done|]. split; [done|]. by exists hv. Qed.

(** A reader takes its place, or its next one. *)
Lemma inv_reader L hs k tr s t r' evs : ring_ok L hs k (ring s) → writer_ok L hs k (writer s) →
  map_Forall (λ _, reader_ok L hs k) (readers s) → Forall (answer_ok L hs k (readers s)) tr →
  reader_ok L hs k r' → (∀ r, readers s !! t = Some r → v_head (view r) ≤ v_head (view r')) →
  Forall (answer_ok L hs k (<[t := r']> (readers s))) evs →
  inv L (tr ++ evs) (with_reader t r' s).
Proof.
  intros Hb Hw Hr Ha Hr' Hup Hevs. exists hs, k. cbn. split_and!; [done|done|by apply map_Forall_insert_2|].
  apply Forall_app. split; [|done]. eapply List.Forall_impl; [|exact Ha].
  intros [| | |t0 tl n out [| |b]| | | |]; cbn; try done. intros [H1 H2]. split; [done|]. intros Hn.
  destruct (H2 Hn) as (p & E & H3 & r & hv & H4 & H5 & H6). exists p. split_and!; [done|done|].
  destruct (decide (t = t0)) as [->|Hne].
  - rewrite lookup_insert_eq. destruct Hr' as (_ & _ & hv' & H7 & _). exists r', hv'. split_and!; [done|done|].
    pose proof (ro_sorted _ _ _ _ Hb _ _ _ _ (Hup r H4) H5 H7). lia.
  - rewrite lookup_insert_ne by done. by exists r, hv.
Qed.

Lemma ring_flag L hs k b t : ring_ok L hs k b → ring_ok L hs k (set_writer_taken t b).
Proof. intros []. by split. Qed.

Lemma inv_plain L tr s evs : inv L tr s → Forall (λ ev, match ev with Peeked _ _ _ _ Ready => False | _ => True end) evs →
  inv L (tr ++ evs) s.
Proof.
  intros (hs & k & H1 & H2 & H3 & H4) He'. exists hs, k. split_and!; [done|done|done|]. apply Forall_app. split; [done|].
  eapply List.Forall_impl; [|exact He']. by intros [| | |? ? ? ? [| |]| | | |].
Qed.

(** The window a [peek_begin] opens. *)
Lemma peek_begin_window L hs k b tl n h cells : ring_ok L hs k b → (0 ≤ tl)%Z →
  (Z.of_nat n ≤ capacity_minus_margin b)%Z → 0 < n → peek_begin b tl (Z.of_nat h) n = inr cells →
  ∃ t, tl = Z.of_nat t ∧ t + n ≤ h ∧ h ≤ t + (N - margin) ∧ cells = map (λ q, q mod N) (seq t n).
Proof.
  intros Hb Htl Hn Hpos Hp. destruct cap_N as [Ec HN]. assert (∃ t, tl = Z.of_nat t) as [t ->] by (exists (Z.to_nat tl); lia).
  assert (HmN : margin ≤ N) by (unfold margin; apply Nat.Div0.div_le_upper_bound; lia).
  assert (Ecmm : capacity_minus_margin b = Z.of_nat (N - margin)).
  { unfold capacity_minus_margin. rewrite (ro_cap _ _ _ _ Hb), <-margin_Z. lia. }
  unfold peek_begin, sat_sub in Hp. rewrite Ecmm in *.
  destruct (Z.ltb_spec (Z.max (Z.of_nat h - Z.of_nat t) 0) (Z.of_nat n)); [done|].
  destruct (Z.ltb_spec (Z.of_nat (N - margin)) (Z.max (Z.of_nat h - Z.of_nat t) 0)); [done|]. injection Hp as <-.
  exists t. rewrite (ro_cap _ _ _ _ Hb), peek_cells_spec by lia. split_and!; [done|lia|lia|done].
Qed.

(** One more sample. *)
Lemma load_sample L hs k b t hv c h i o x vw :
  ring_ok L hs k b → view_ok hs k vw hv → covers vw hv → t < hv → hv ≤ t + (N - margin) →
  data b !! c = Some h → c = t mod N → v_cells vw !! c = Some o → sees stale o (List.length h) i → h !! i = Some x →
  ∀ limit, limit + margin < t + N + 1 → sample_ok L (List.last hs 0) k t x limit ∧
    view_ok hs k (mkView (v_head vw) (<[c := i]> (v_cells vw))) hv ∧ covers (mkView (v_head vw) (<[c := i]> (v_cells vw))) hv.
Proof.
  intros Hb (V1 & V2 & V3) Hcv Ht Hcmm Hh -> Ho [Hi Hfresh] Hx limit Hlim. destruct cap_N as [_ HN]. pose proof (V3 _ _ Ho) as Hco. pose proof (Hcv _ _ Ho) as Hco'.
  pose proof (ro_hist _ _ _ _ Hb _ _ Hh) as Hhist.
  destruct (hist_read N ltac:(lia) (t mod N) h k L hv t i x eq_refl Ht Hhist ltac:(lia) Hx) as (q & E1 & E2 & E3 & E4).
  pose proof (ro_margin _ _ _ _ Hb). pose proof (ro_last _ _ _ _ Hb). split.
  - exists q. split_and!; [done|lia|lia|done|]. intros Hs. destruct Hhist as [Hl _].
    specialize (E4 ltac:(rewrite (Hfresh Hs), Hl; done)). destruct (decide (q = t)) as [|Hne]; [by left|right].
    assert (t + N ≤ q); [|lia]. apply (next_lap N); [lia|done|lia].
  - assert (Hboth : ∀ c' o', <[t mod N := i]> (v_cells vw) !! c' = Some o' → cnt c' hv ≤ o' ≤ cnt c' k).
    2:{ split; [|intros c' o' Ho'; by apply Hboth]. split; [cbn; by rewrite length_insert|]. split; [done|]. intros c' o' Ho'. by apply Hboth. }
    intros c' o' Ho'. destruct (decide (c' = t mod N)) as [->|Hne].
    + rewrite list_lookup_insert_eq in Ho' by (by eapply lookup_lt_Some). injection Ho' as <-. destruct Hhist as [Hl _]. lia.
    + rewrite list_lookup_insert_ne in Ho' by done. split; [by apply Hcv|by apply V3].
Qed.

Lemma cmm_nat L hs k b : ring_ok L hs k b → margin ≤ N ∧ capacity_minus_margin b = Z.of_nat (N - margin).
Proof.
  intros Hb. destruct cap_N as [Ec HN]. assert (HmN : margin ≤ N) by (unfold margin; apply Nat.Div0.div_le_upper_bound; lia).
  split; [done|]. unfold capacity_minus_margin. rewrite (ro_cap _ _ _ _ Hb), <-margin_Z. lia.
Qed.

Section Reading.
Context (L : list Z) (hs : list nat) (k : nat) (tr : list event) (s : System) (t : nat) (r : Reader).
Hypothesis Hb : ring_ok L hs k (ring s).
Hypothesis Hw : writer_ok L hs k (writer s).
Hypothesis Hr : map_Forall (λ _, reader_ok L hs k) (readers s).
Hypothesis Ha : Forall (answer_ok L hs k (readers s)) tr.
Hypothesis Ht : readers s !! t = Some r.

(** The reader of the section takes its next place. *)
Lemma reader_moves r' evs : reader_ok L hs k r' → v_head (view r) ≤ v_head (view r') →
  Forall (answer_ok L hs k (<[t := r']> (readers s))) evs → inv L (tr ++ evs) (with_reader t r' s).
Proof. intros Hr' Hup Hevs. apply (inv_reader L hs k); try done. intros r0 E. rewrite Ht in E. by injection E as <-. Qed.

(** A load of the head by the reader. *)
Lemma reader_load i v rel : sees stale (v_head (view r)) (List.length (head_history (ring s))) i → head_history (ring s) !! i = Some (v, rel) →
  ∃ hv h, view_ok hs k (view r) hv ∧ pc_ok L hs k hv (view r) (tail r) (pc r) ∧ (0 ≤ tail r)%Z ∧
    v = Z.of_nat h ∧ hv ≤ h ∧ rel = released h ∧ hs !! i = Some h ∧ view_ok hs k (acquire i rel (view r)) h ∧ covers (acquire i rel (view r)) h ∧
    v_head (view r) ≤ i ∧ (stale = false → h = List.last hs 0).
Proof.
  intros [Hle Hfresh] Hi. destruct (reader_view L hs k r (Hr t r Ht)) as (hv & Hvw & Hpc & Htl).
  destruct (head_load L hs k _ i v rel Hb Hi) as (h & H1 & H2 & H3 & H4). exists hv, h. pose proof Hvw as (_ & Hh & _).
  subst rel. destruct (acquire_ok L hs k _ i h (view r) hv Hb Hvw ltac:(lia) H1) as [Ha1 Ha2].
  split; [exact Hvw|]. split; [exact Hpc|]. split; [exact Htl|]. split; [exact H2|].
  split; [by apply (ro_sorted _ _ _ _ Hb (v_head (view r)) i hv h ltac:(lia))|]. split; [done|]. split; [exact H1|]. split; [exact Ha1|].
  split; [exact Ha2|]. split; [lia|]. intros Hs. by apply H4, Hfresh.
Qed.

Lemma peek_begin_inv n i v rel : 0 < n → (Z.of_nat n ≤ capacity_minus_margin (ring s))%Z →
  sees stale (v_head (view r)) (List.length (head_history (ring s))) i → head_history (ring s) !! i = Some (v, rel) →
  inv L (tr ++ match peek_begin (ring s) (tail r) v n with inl st => [Peeked t (tail r) n [] st] | inr _ => [] end)
    (with_reader t (mkReader (tail r) (acquire i rel (view r))
      (match peek_begin (ring s) (tail r) v n with inl _ => RIdle | inr cells => RLoading cells [] end)) s).
Proof.
  intros Hpos Hn Hsees Hi. destruct (reader_load i v rel Hsees Hi) as (hv & h & _ & _ & Htl & -> & _ & -> & _ & Hvw' & Hcv' & Hup & _).
  destruct (peek_begin (ring s) (tail r) (Z.of_nat h) n) as [st|cells] eqn:Ep.
  - assert (Hst : match st with Ready => False | _ => True end).
    { unfold peek_begin in Ep. destruct (_ <? _)%Z; [by injection Ep as <-|]. destruct (_ <? _)%Z; [by injection Ep as <-|done]. }
    apply reader_moves; [by eapply reader_of_view|done|]. constructor; [by destruct st|constructor].
  - destruct (peek_begin_window L hs k (ring s) (tail r) n h cells Hb Htl Hn Hpos Ep) as (t0 & E1 & E2 & E3 & E4).
    apply reader_moves; [|done|constructor]. eapply reader_of_view; [done|done|]. split; [done|].
    exists n. split; [|exists t0; split; [done|]; cbn; by rewrite Nat.add_0_r, Nat.sub_0_r].
    exists t0. split_and!; [done|cbn; lia|lia|lia|by intros []].
Qed.

Lemma load_cell_inv c cells got h i o x : pc r = RLoading (c :: cells) got →
  data (ring s) !! c = Some h → v_cells (view r) !! c = Some o → sees stale o (List.length h) i → h !! i = Some x →
  inv L (tr ++ []) (with_reader t (mkReader (tail r) (mkView (v_head (view r)) (<[c := i]> (v_cells (view r)))) (RLoading cells (got ++ [x]))) s).
Proof.
  intros Hpc Hh Ho Hsees Hx. destruct (cmm_nat L hs k (ring s) Hb) as [HmN Hcmm]. destruct cap_N as [_ HN].
  destruct (reader_view L hs k r (Hr t r Ht)) as (hv & Hvw & Hp & Htl). rewrite Hpc in Hp.
  destruct Hp as (Hcv & n & (t0 & E1 & E2 & E3 & E4 & E5) & t1 & E6 & E7). assert (t1 = t0) as -> by lia.
  destruct (n - List.length got) as [|m] eqn:Em; [done|]. cbn in E7. injection E7 as -> ->.
  assert (Hgot : List.length got < n) by lia.
  destruct (load_sample L hs k (ring s) (t0 + List.length got) hv _ h i o x (view r) Hb Hvw Hcv ltac:(lia) ltac:(lia) Hh eq_refl Ho Hsees Hx
    (t0 + (N - margin)) ltac:(lia)) as (Hsample & Hvw' & Hcv').
  apply reader_moves; [|done|constructor]. eapply reader_of_view; [done|exact Hvw'|]. split; [done|]. exists n. split.
  - exists t0. rewrite length_app. cbn [List.length]. split_and!; [done|lia|lia|lia|].
    intros j y [Hj|[Hlj Hj]]%lookup_app_Some; [by apply E5|]. apply list_lookup_singleton_Some in Hj as [Ej <-].
    by assert (j = List.length got) as -> by lia.
  - exists t0. split; [done|]. rewrite length_app. cbn. replace (n - (List.length got + 1)) with m by lia.
    by replace (t0 + (List.length got + 1)) with (S (t0 + List.length got)) by lia.
Qed.

Lemma loads_done_inv got : pc r = RLoading [] got → inv L (tr ++ []) (with_reader t (mkReader (tail r) (view r) (RRecheck got)) s).
Proof.
  intros Hpc. destruct (reader_view L hs k r (Hr t r Ht)) as (hv & Hvw & Hp & Htl). rewrite Hpc in Hp.
  destruct Hp as (Hcv & n & (t0 & E1 & E2 & E3 & E4 & E5) & t1 & E6 & E7).
  destruct (n - List.length got) as [|m] eqn:Em; [|done]. apply reader_moves; [|done|constructor].
  eapply reader_of_view; [done|exact Hvw|]. exists t0. split_and!; [done|lia|lia|lia|done].
Qed.

Lemma recheck_inv got i v rel : pc r = RRecheck got →
  sees stale (v_head (view r)) (List.length (head_history (ring s))) i → head_history (ring s) !! i = Some (v, rel) →
  inv L (tr ++ [Peeked t (tail r) (List.length got) got (peek_end (ring s) (tail r) v)])
    (with_reader t (mkReader (tail r) (acquire i rel (view r)) RIdle) s).
Proof.
  intros Hpc Hsees Hi. destruct (cmm_nat L hs k (ring s) Hb) as [HmN Hcmm].
  destruct (reader_load i v rel Hsees Hi) as (hv & h & Hvw & Hp & Htl & -> & Hhv & -> & Hih & Hvw' & _ & Hup & Hlast).
  rewrite Hpc in Hp. destruct Hp as (t0 & E1 & _ & E3 & E4 & E5). apply reader_moves; [by eapply reader_of_view|done|].
  constructor; [|constructor]. destruct (peek_end (ring s) (tail r) (Z.of_nat h)) eqn:Epe; try done. split; [done|]. intros Hne.
  exists t0. split; [done|]. split.
  - intros j y Hj. destruct (E5 j y Hj) as (q & H1 & H2 & H3 & H4). exists q. split_and!; [done|lia|lia|done|].
    intros Hs. destruct (H4 Hs) as [->|Hgt]; [done|]. exfalso. unfold peek_end, sat_sub in Epe. rewrite Hcmm, E1, (Hlast Hs) in Epe.
    destruct (Z.leb_spec (Z.max (Z.of_nat (List.last hs 0) - Z.of_nat t0) 0) (Z.of_nat (N - margin))); [lia|done].
  - rewrite lookup_insert_eq. exists (mkReader (tail r) (acquire i (released h) (view r)) RIdle), h. split_and!; [done|done|lia].
Qed.
End Reading.

Lemma ring_step_inv L tr s evs s' : inv L tr s → step stale s evs s' → (Z.of_nat (List.length (L ++ pushed evs)) ≤ u64_max)%Z →
  inv (L ++ pushed evs) (tr ++ evs) s'.
Proof.
  intros Hinv Hstep Hu. pose proof Hinv as (hs & k & Hb & Hw & Hr & Ha).
  assert (Hplain : ∀ evs, pushed evs = [] → Forall (λ ev, match ev with Peeked _ _ _ _ Ready => False | _ => True end) evs →
    inv (L ++ pushed evs) (tr ++ evs) s) by (intros evs' -> He'; rewrite app_nil_r; by apply inv_plain).
  destruct Hstep as [s _|s _|s _ Hidle|s samples w _ Hidle Hbegin|s samples _ _ _|s c x todo nh Hst|s nh Hst
    |s t behind i v rel Ht Hsees Hi|s t r Ht Hpc|s t r n Ht Hpc Hn|s t r n i v rel Ht Hpc Hpos Hn Hsees Hi vw
    |s t r c cells got h i o x Ht Hpc Hh Ho Hsees Hx|s t r got Ht Hpc|s t r got i v rel Ht Hpc Hsees Hi
    |s t r n i v rel Ht Hpc Hsees Hi|s t r n i v rel Ht Hpc Hsees Hi|s t r i v rel Ht Hpc Hsees Hi].
  - cbn. rewrite !app_nil_r. exists hs, k. split; [by apply ring_flag|]. done.
  - apply Hplain; [done|by repeat constructor].
  - cbn. rewrite !app_nil_r. exists hs, k. split; [by apply ring_flag|]. done.
  - unfold pushed in *. cbn [omap list_omap List.concat] in *. rewrite app_nil_r in *. rewrite Hidle in Hw.
    destruct (push_begin_inv L hs k (ring s) samples w Hb Hw Hbegin Hu) as [Hb' Hw'].
    assert (Hlt : later L hs k (L ++ samples) hs k) by (split; [by exists samples|exists []; by rewrite app_nil_r|done|done]).
    apply inv_plain; [|by repeat constructor]. by eapply inv_later.
  - apply Hplain; [done|by repeat constructor].
  - cbn. rewrite !app_nil_r. rewrite Hst in Hw. destruct (store_cell_inv L hs k (ring s) c x todo nh Hb Hw) as [Hb' Hw'].
    eapply inv_later; [|done..]. split; [exists []; by rewrite app_nil_r|exists []; by rewrite app_nil_r|lia|done].
  - cbn. rewrite !app_nil_r. rewrite Hst in Hw. destruct (store_head_inv L hs k (ring s) nh Hb Hw) as (Hk & Hb' & Hw').
    eapply inv_later; [|done..]. pose proof (ro_last _ _ _ _ Hb). split; [exists []; by rewrite app_nil_r|by eexists|done|rewrite list_last_app; lia].
  - cbn. rewrite app_nil_r. destruct (head_load L hs k _ i v rel Hb Hi) as (h & H1 & -> & -> & _).
    apply inv_reader with (evs := []) (hs := hs) (k := k); try done; [|by intros r E; rewrite Ht in E].
    eapply reader_of_view; [unfold seek_tail, sat_sub; lia|by eapply new_view_ok|done].
  - cbn. rewrite app_nil_r. exists hs, k. split_and!; [done..|]. apply Forall_app. split; [done|]. by repeat constructor.
  - apply Hplain; [done|by repeat constructor].
  - subst vw. replace (L ++ _) with L by (by destruct (peek_begin _ _ _ _); cbn; rewrite app_nil_r). by eapply peek_begin_inv.
  - cbn [pushed omap list_omap List.concat]. rewrite (app_nil_r L). by eapply load_cell_inv.
  - cbn [pushed omap list_omap List.concat]. rewrite (app_nil_r L). by eapply loads_done_inv.
  - cbn [pushed omap list_omap List.concat]. rewrite (app_nil_r L). by eapply recheck_inv.
  - destruct (reader_load L hs k s t r Hb Hr Ht i v rel Hsees Hi) as (hv & h & (W1 & W2 & W3) & _ & Htl & -> & _ & -> & Hih & _ & _ & Hup & _).
    replace (L ++ _) with L by (by destruct (advance_tail _ _ _); cbn; rewrite app_nil_r). eapply reader_moves; try done.
    + eapply (reader_of_view _ _ _ _ _ _ h); [unfold sat_add64, u64_max; lia|by split|done].
    + destruct (advance_tail _ _ _); by repeat constructor.
  - destruct (reader_load L hs k s t r Hb Hr Ht i v rel Hsees Hi) as (hv & h & _ & _ & Htl & -> & _ & -> & Hih & Hvw' & _ & Hup & _).
    cbn [pushed omap list_omap List.concat]. rewrite (app_nil_r L). eapply reader_moves; try done.
    eapply (reader_of_view _ _ _ _ _ _ h); [unfold seek_tail, sat_sub; lia|done|done].
  - destruct (reader_load L hs k s t r Hb Hr Ht i v rel Hsees Hi) as (hv & h & _ & _ & Htl & -> & _ & -> & Hih & Hvw' & _ & Hup & _).
    cbn [pushed omap list_omap List.concat]. rewrite (app_nil_r L). eapply reader_moves; try done; [|by repeat constructor].
    by eapply (reader_of_view _ _ _ _ _ _ h).
Qed.

Lemma pushed_app tr ev : pushed (tr ++ ev) = pushed tr ++ pushed ev.
Proof. unfold pushed. by rewrite omap_app, concat_app. Qed.

Lemma run_inv s tr s' : run stale s tr s' → inv [] [] s → (Z.of_nat (List.length (pushed tr)) ≤ u64_max)%Z → inv (pushed tr) tr s'.
Proof.
  intros Hrun Hinv. induction Hrun as [s|s tr s' ev s'' Hrun IH Hstep]; intros Hu; [done|].
  rewrite pushed_app in *. eapply ring_step_inv; [apply IH; [done|]|done|done]. rewrite length_app in Hu. lia.
Qed.

Lemma new_ring_ok : ring_ok [] [0] 0 (mkInner (replicate N [0%Z]) cap false [(0%Z, replicate N 0)]).
Proof.
  destruct cap_N as [_ HN]. split; cbn; try done; try lia.
  - by rewrite length_replicate.
  - intros c h [-> Hc]%lookup_replicate. assert (E : cnt c 0 = 0) by (apply Nat.div_small; lia). split; rewrite E; [done|lia].
  - do 2 f_equal. apply list_eq. intros c. destruct (decide (c < N)) as [Hc|Hc].
    + rewrite released_at by done. rewrite lookup_replicate_2 by done. f_equal. symmetry. apply Nat.div_small. lia.
    + unfold released. rewrite list_lookup_fmap, lookup_seq_ge by lia. apply lookup_ge_None. rewrite length_replicate. lia.
  - intros i j v w _ Hi Hj. apply list_lookup_singleton_Some in Hi as [_ <-], Hj as [_ <-]. done.
Qed.

Lemma new_inv b : AudioBuffer_new cap = Some b → inv [] [] (start b).
Proof.
  unfold AudioBuffer_new. destruct (_ && _); [|done]. intros [= <-]. exists [0], 0. split; [exact new_ring_ok|].
  split; [done|]. split; [apply map_Forall_empty|by constructor].
Qed.
End Ring.

(** The invariant of a run from a new buffer. *)
Lemma audio_inv stale cap b tr s : AudioBuffer_new cap = Some b → run stale (start b) tr s →
  (Z.of_nat (List.length (pushed tr)) ≤ u64_max)%Z → inv stale cap (pushed tr) tr s.
Proof.
  intros Hb Hrun Hu. assert (∃ e, cap = 2 ^ e ∧ 2 ≤ e)%Z as (e & E & He).
  { unfold AudioBuffer_new in Hb. destruct (Z.leb_spec 4 cap) as [H4|]; [|done]. destruct (is_power_of_two cap) eqn:Ep; [|done].
    destruct (power_of_two _ Ep) as (e & He & ->). exists e. split; [done|]. change 4%Z with (2 ^ 2)%Z in H4.
    by apply Z.pow_le_mono_r_iff in H4. }
  eapply run_inv; [exact E|done|done|by eapply new_inv|done].
Qed.

(** A [Ready] answer of a run. *)
Lemma ready_window stale cap b tr s t tl n out : AudioBuffer_new cap = Some b → run stale (start b) tr s →
  (Z.of_nat (List.length (pushed tr)) ≤ u64_max)%Z → Peeked t tl n out Ready ∈ tr → n ≠ 0 →
  List.length out = n ∧ ∃ hs k p, ring_ok cap (pushed tr) hs k (ring s) ∧ tl = Z.of_nat p ∧
    (∀ i x, out !! i = Some x → ∃ q, q mod Z.to_nat cap = (p + i) mod Z.to_nat cap ∧ p + i ≤ q < k ∧
       pushed tr !! q = Some x ∧ (stale = false → q = p + i)) ∧
    ∃ r hv, readers s !! t = Some r ∧ hs !! v_head (view r) = Some hv ∧ p + n ≤ hv.
Proof.
  intros Hb Hrun Hu Hin Hn. destruct (audio_inv _ _ _ _ _ Hb Hrun Hu) as (hs & k & Hring & _ & _ & Ha).
  rewrite List.Forall_forall in Ha. apply list_elem_of_In in Hin. destruct (Ha _ Hin) as [Hl Hw]. split; [done|].
  destruct (Hw Hn) as (p & E & Hout & Hr). by exists hs, k, p.
Qed.

(** * What a reader of the ring gets

    With sequentially consistent loads a [Ready] window is exactly the samples
    pushed at its positions.  With every load the memory model allows it may be
    newer than that, never older; a run shows that it can be newer. *)

(** ** Schedules *)

(** One step, with the index its load sees. *)
Inductive action : Type :=
  | TakeA
  | PushA (samples : list Z)
  | CellA
  | HeadA
  | NewA (t behind i : nat)
  | PeekA (t n i : nat)
  | LoadA (t i : nat)
  | DoneA (t : nat)
  | RecheckA (t i : nat)
  | AdvanceA (t n i : nat).

Definition sees_b (stale : bool) (oldest len i : nat) : bool :=
  (oldest <=? i) && (i <? len) && (stale || (i =? pred len)).

Definition head_seen (stale : bool) (oldest i : nat) (b : Inner) : option (Z * list nat) :=
  if sees_b stale oldest (List.length (head_history b)) i then head_history b !! i else None.

Definition exec (stale : bool) (a : action) (s : System) : option (list event * System) :=
  match a with
  | TakeA => if writer_taken (ring s) then None else Some ([], with_ring (set_writer_taken true (ring s)) s)
  | PushA samples =>
      match writer_taken (ring s), writer s, push_begin (ring s) samples with
      | true, WIdle, Some w => Some ([Pushed samples], mkSystem (ring s) w (readers s))
      | _, _, _ => None
      end
  | CellA =>
      match writer s with
      | WStoring ((c, x) :: todo) nh => Some ([], mkSystem (store_cell c x (ring s)) (WStoring todo nh) (readers s))
      | _ => None
      end
  | HeadA =>
      match writer s with
      | WStoring [] nh => Some ([], mkSystem (store_head nh (ring s)) WIdle (readers s))
      | _ => None
      end
  | NewA t behind i =>
      match readers s !! t, head_seen stale 0 i (ring s) with
      | None, Some (v, rel) => Some ([], with_reader t (mkReader (seek_tail v behind) (mkView i rel) RIdle) s)
      | _, _ => None
      end
  | PeekA t n i =>
      r ← readers s !! t;
      match pc r, head_seen stale (v_head (view r)) i (ring s) with
      | RIdle, Some (v, rel) =>
          if (0 <? n) && (Z.of_nat n <=? capacity_minus_margin (ring s))%Z
          then Some (match peek_begin (ring s) (tail r) v n with inl st => [Peeked t (tail r) n [] st] | inr _ => [] end,
                 with_reader t (mkReader (tail r) (acquire i rel (view r))
                   (match peek_begin (ring s) (tail r) v n with inl _ => RIdle | inr cells => RLoading cells [] end)) s)
          else None
      | _, _ => None
      end
  | LoadA t i =>
      r ← readers s !! t;
      match pc r with
      | RLoading (c :: cells) got =>
          h ← data (ring s) !! c; oldest ← v_cells (view r) !! c; x ← (h : list Z) !! i;
          if sees_b stale oldest (List.length h) i
          then Some ([], with_reader t (mkReader (tail r) (mkView (v_head (view r)) (<[c := i]> (v_cells (view r)))) (RLoading cells (got ++ [x]))) s)
          else None
      | _ => None
      end
  | DoneA t =>
      r ← readers s !! t;
      match pc r with
      | RLoading [] got => Some ([], with_reader t (mkReader (tail r) (view r) (RRecheck got)) s)
      | _ => None
      end
  | RecheckA t i =>
      r ← readers s !! t;
      match pc r, head_seen stale (v_head (view r)) i (ring s) with
      | RRecheck got, Some (v, rel) =>
          Some ([Peeked t (tail r) (List.length got) got (peek_end (ring s) (tail r) v)],
                with_reader t (mkReader (tail r) (acquire i rel (view r)) RIdle) s)
      | _, _ => None
      end
  | AdvanceA t n i =>
      r ← readers s !! t;
      match pc r, head_seen stale (v_head (view r)) i (ring s) with
      | RIdle, Some (v, rel) =>
          Some (match advance_tail (tail r) v n with Some tl => [Advanced t tl] | None => [AdvancePanics t] end,
                with_reader t (mkReader (sat_add64 (tail r) (Z.of_nat n)) (mkView i (v_cells (view r))) RIdle) s)
      | _, _ => None
      end
  end.

Fixpoint exec_all (stale : bool) (l : list action) (tr : list event) (s : System) : option (list event * System) :=
  match l with
  | [] => Some (tr, s)
  | a :: l => '(ev, s') ← exec stale a s; exec_all stale l (tr ++ ev) s'
  end.

Lemma sees_b_sound stale oldest len i : sees_b stale oldest len i = true → sees stale oldest len i.
Proof.
  unfold sees_b. intros [[H1%Nat.leb_le H2%Nat.ltb_lt]%andb_true_iff H3]%andb_true_iff. split; [done|].
  intros ->. by apply Nat.eqb_eq in H3.
Qed.

Lemma head_seen_sound stale oldest i b v rel : head_seen stale oldest i b = Some (v, rel) →
  sees stale oldest (List.length (head_history b)) i ∧ head_history b !! i = Some (v, rel).
Proof. unfold head_seen. destruct (sees_b _ _ _ _) eqn:E; [|done]. split; [by apply sees_b_sound|done]. Qed.

Lemma exec_sound stale a s ev s' : exec stale a s = Some (ev, s') → step stale s ev s'.
Proof.
  destruct a as [|samples| | |t behind i|t n i|t i|t|t i|t n i]; unfold exec; intros He.
  - destruct (writer_taken (ring s)) eqn:E; [done|]. injection He as <- <-. by constructor.
  - destruct (writer_taken (ring s)) eqn:E1, (writer s) eqn:E2, (push_begin (ring s) samples) eqn:E3; try done.
    injection He as <- <-. by constructor.
  - destruct (writer s) as [|[|[c x] todo] nh] eqn:E; try done. injection He as <- <-. by constructor.
  - destruct (writer s) as [|[|] nh] eqn:E; try done. injection He as <- <-. by constructor.
  - destruct (readers s !! t) eqn:E; [done|]. destruct (head_seen _ _ _ _) as [[v rel]|] eqn:Eh; [|done]. injection He as <- <-.
    apply head_seen_sound in Eh as [? ?]. by eapply NewReader.
  - destruct (readers s !! t) as [r|] eqn:E; [cbn in He|done]. destruct (pc r) eqn:Ep; try done.
    destruct (head_seen _ _ _ _) as [[v rel]|] eqn:Eh; [|done]. apply head_seen_sound in Eh as [? ?].
    destruct (_ && _) eqn:Eb; [|done]. apply andb_true_iff in Eb as [E1 ?%Z.leb_le].
    assert (0 < n) by (destruct n; [done|lia]).
    injection He as <- <-. by apply (PeekBegin stale s t r n i v rel).
  - destruct (readers s !! t) as [r|] eqn:E; [cbn in He|done]. destruct (pc r) as [|[|c cells] got|] eqn:Ep; try done.
    destruct (data (ring s) !! c) as [h|] eqn:Eh; [cbn in He|done].
    destruct (v_cells (view r) !! c) as [o|] eqn:Eo; [cbn in He|done]. destruct (h !! i) as [x|] eqn:Ex; [cbn in He|done].
    destruct (sees_b _ _ _ _) eqn:Es; [|done]. injection He as <- <-. apply sees_b_sound in Es. by eapply LoadCell.
  - destruct (readers s !! t) as [r|] eqn:E; [cbn in He|done]. destruct (pc r) as [|[|c cells] got|] eqn:Ep; try done.
    injection He as <- <-. by eapply LoadsDone.
  - destruct (readers s !! t) as [r|] eqn:E; [cbn in He|done]. destruct (pc r) eqn:Ep; try done.
    destruct (head_seen _ _ _ _) as [[v rel]|] eqn:Eh; [|done]. apply head_seen_sound in Eh as [? ?].
    injection He as <- <-. by eapply Recheck.
  - destruct (readers s !! t) as [r|] eqn:E; [cbn in He|done]. destruct (pc r) eqn:Ep; try done.
    destruct (head_seen _ _ _ _) as [[v rel]|] eqn:Eh; [|done]. apply head_seen_sound in Eh as [? ?].
    injection He as <- <-. by eapply Advance.
Qed.

Lemma exec_all_sound stale l tr s0 s tr' s' : run stale s0 tr s → exec_all stale l tr s = Some (tr', s') → run stale s0 tr' s'.
Proof.
  revert tr s. induction l as [|a l IH]; intros tr s Hrun; [by intros [= <- <-]|]. cbn.
  destruct (exec stale a s) as [[ev s1]|] eqn:E; [|done]. cbn. apply IH. eapply RunStep; [exact Hrun|by eapply exec_sound].
Qed.

(** A schedule of a new buffer. *)
Definition play (stale : bool) (cap : Z) (l : list action) : option (list event * System) :=
  b ← AudioBuffer_new cap; exec_all stale l [] (start b).

Lemma play_sound stale cap l b tr s : AudioBuffer_new cap = Some b → play stale cap l = Some (tr, s) → run stale (start b) tr s.
Proof. unfold play. intros ->. cbn. apply exec_all_sound. constructor. Qed.

(** ** Runs *)

(** Two samples pushed, read and consumed. *)
Definition two_samples : list action :=
  [TakeA; NewA 0 0 0; PushA [10%Z]; CellA; HeadA; PushA [11%Z]; CellA; HeadA; PeekA 0 2 2; LoadA 0 1; LoadA 0 1; DoneA 0; RecheckA 0 2].

(** Five samples into a ring of four: the load of the first cell sees the
    newest store, the recheck an old head. *)
Definition lapped : list action :=
  [TakeA; NewA 0 0 0; PushA [10%Z]; CellA; HeadA; PeekA 0 1 1;
   PushA [11%Z]; CellA; HeadA; PushA [12%Z]; CellA; HeadA; PushA [13%Z]; CellA; HeadA; PushA [14%Z]; CellA; HeadA;
   LoadA 0 2; DoneA 0; RecheckA 0 1].

Lemma two_samples_run : ∃ (b : Inner) (tr : list event) (s : System), AudioBuffer_new 4 = Some b ∧ run false (start b) tr s ∧
  pushed tr = [10; 11]%Z ∧ Peeked 0 0 2 [10; 11]%Z Ready ∈ tr ∧
  ∃ rel, readers s !! 0 = Some (mkReader 0 (mkView 2 [1; 1; 0; 0]) RIdle) ∧ List.length (head_history (ring s)) = 3 ∧
    head_history (ring s) !! 2 = Some (2%Z, rel).
Proof.
  destruct (AudioBuffer_new 4) as [b|] eqn:Eb; [|done]. destruct (play false 4 two_samples) as [[tr s]|] eqn:Ep; [|by vm_compute in Ep].
  exists b, tr, s. split; [done|]. split; [by eapply play_sound|]. vm_compute in Ep. injection Ep as <- <-. split; [done|].
  split; [set_solver|]. by exists [1; 1; 0; 0].
Qed.

(** With every load the memory model allows, a [Ready] window can hold a sample
    the writer has lapped it with: the cell's new store is seen before the head
    stores that precede it. *)
Lemma stale_ready_mixed :
  ∃ (b : Inner) (tr : list event) (s : System), AudioBuffer_new 4 = Some b ∧ run true (start b) tr s ∧
    pushed tr = [10; 11; 12; 13; 14]%Z ∧ Peeked 0 0 1 [14%Z] Ready ∈ tr.
Proof.
  destruct (AudioBuffer_new 4) as [b|] eqn:Eb; [|done]. destruct (play true 4 lapped) as [[tr s]|] eqn:Ep; [|by vm_compute in Ep].
  exists b, tr, s. split; [done|]. split; [by eapply play_sound|]. vm_compute in Ep. injection Ep as <- <-. split; [done|]. set_solver.
Qed.

(** ** Theorems *)

(** C10: with sequentially consistent loads (and on x86-TSO), a [peek_into] that
    answers [Ready] has copied out exactly the samples pushed at the reader's
    position, whatever the writer stored meanwhile: lap detection never misses. *)
Theorem ring_reads_exact (cap : Z) (b : Inner) (tr : list event) (s : System) (t : nat) (tl : Z) (n : nat) (out : list Z) :
  AudioBuffer_new cap = Some b → run false (start b) tr s → (Z.of_nat (List.length (pushed tr)) ≤ u64_max)%Z →
  Peeked t tl n out Ready ∈ tr → n ≠ 0 →
  List.length out = n ∧ out = take n (drop (Z.to_nat tl) (pushed tr)).
Proof.
  intros Hb Hrun Hu Hin Hn. destruct (ready_window _ _ _ _ _ _ _ _ _ Hb Hrun Hu Hin Hn) as (Hl & hs & k & p & _ & -> & Hout & _).
  split; [done|]. rewrite Nat2Z.id. apply list_eq. intros i. destruct (decide (i < n)) as [Hi|Hi].
  - destruct (lookup_lt_is_Some_2 out i) as [x Hx]; [lia|]. destruct (Hout i x Hx) as (q & _ & _ & Hq & Hex).
    rewrite Hx, lookup_take_lt, lookup_drop by done. by rewrite <-(Hex eq_refl).
  - rewrite lookup_take_ge by lia. apply lookup_ge_None. lia.
Qed.

Lemma ring_reads_exact_witness : ∃ (b : Inner) (tr : list event) (s : System),
  AudioBuffer_new 4 = Some b ∧ run false (start b) tr s ∧ pushed tr = [10; 11]%Z ∧
  (List.length [10; 11]%Z = 2 ∧ [10; 11]%Z = take 2 (drop (Z.to_nat 0) (pushed tr))).
Proof.
  destruct two_samples_run as (b & tr & s & Hb & Hrun & Hp & Hin & _). exists b, tr, s. split; [done|]. split; [done|]. split; [done|].
  apply (ring_reads_exact 4 b tr s 0 0 2 [10; 11]%Z Hb Hrun); [rewrite Hp; by vm_compute|done|done].
Defined.

(** With every load the memory model allows, each sample a [Ready] window
    holds was pushed at its position or at a later one of the same cell, and its
    store had been made: never an older sample, never one that was not pushed. *)
Theorem ring_reads_not_older (stale : bool) (cap : Z) (b : Inner) (tr : list event) (s : System) (t : nat) (tl : Z) (n : nat)
    (out : list Z) (i : nat) (x : Z) :
  AudioBuffer_new cap = Some b → run stale (start b) tr s → (Z.of_nat (List.length (pushed tr)) ≤ u64_max)%Z →
  Peeked t tl n out Ready ∈ tr → out !! i = Some x →
  ∃ q : nat, (Z.of_nat q mod cap = (tl + Z.of_nat i) mod cap ∧ tl + Z.of_nat i ≤ Z.of_nat q)%Z ∧ pushed tr !! q = Some x.
Proof.
  intros Hb Hrun Hu Hin Hx. destruct (decide (n = 0)) as [->|Hn].
  { destruct (audio_inv _ _ _ _ _ Hb Hrun Hu) as (hs & k & _ & _ & _ & Ha). rewrite List.Forall_forall in Ha.
    apply list_elem_of_In in Hin. destruct (Ha _ Hin) as [Hl _]. by destruct out. }
  destruct (ready_window _ _ _ _ _ _ _ _ _ Hb Hrun Hu Hin Hn) as (_ & hs & k & p & Hring & -> & Hout & _).
  destruct (Hout i x Hx) as (q & E & Hq & HL & _). exists q. split; [|done]. split; [|lia].
  assert (E4 : (4 ≤ cap)%Z) by (unfold AudioBuffer_new in Hb; by destruct (Z.leb_spec 4 cap)).
  apply (f_equal Z.of_nat) in E. by rewrite !Nat2Z.inj_mod, Z2Nat.id, Nat2Z.inj_add in E by lia.
Qed.

Lemma ring_reads_not_older_witness : ∃ (b : Inner) (tr : list event) (s : System),
  AudioBuffer_new 4 = Some b ∧ run true (start b) tr s ∧ pushed tr = [10; 11; 12; 13; 14]%Z ∧
  ∃ q : nat, (Z.of_nat q mod 4 = (0 + Z.of_nat 0) mod 4 ∧ 0 + Z.of_nat 0 ≤ Z.of_nat q)%Z ∧ pushed tr !! q = Some 14%Z.
Proof.
  destruct stale_ready_mixed as (b & tr & s & Hb & Hrun & Hp & Hin). exists b, tr, s. split; [done|]. split; [done|]. split; [done|].
  apply (ring_reads_not_older true 4 b tr s 0 0 1 [14%Z] 0 14%Z Hb Hrun); [rewrite Hp; by vm_compute|done|done].
Defined.

(** After a [Ready] of [n] samples, [advance] by at most [n] from the same
    position never panics, whichever head its load sees. *)
Theorem ready_then_advance (stale : bool) (cap : Z) (b : Inner) (tr : list event) (s : System) (t : nat) (r : Reader) (n m : nat)
    (out : list Z) (i : nat) (v : Z) (rel : list nat) :
  AudioBuffer_new cap = Some b → run stale (start b) tr s → (Z.of_nat (List.length (pushed tr)) ≤ u64_max)%Z →
  readers s !! t = Some r → Peeked t (tail r) n out Ready ∈ tr → n ≠ 0 → m ≤ n →
  sees stale (v_head (view r)) (List.length (head_history (ring s))) i → head_history (ring s) !! i = Some (v, rel) →
  advance_tail (tail r) v m = Some (tail r + Z.of_nat m)%Z.
Proof.
  intros Hb Hrun Hu Hr Hin Hn Hm [Hs _] Hi.
  destruct (ready_window _ _ _ _ _ _ _ _ _ Hb Hrun Hu Hin Hn) as (_ & hs & k & p & Hring & Etl & _ & r' & hv & Hr' & Hhv & Hle).
  rewrite Hr in Hr'. injection Hr' as <-.
  destruct (head_load cap 0%Z _ _ _ _ _ _ _ Hring Hi) as (h & Hh & -> & _ & _).
  pose proof (ro_sorted _ _ _ _ _ Hring (v_head (view r)) i hv h ltac:(lia) Hhv Hh).
  pose proof (in_heads cap 0%Z _ _ _ _ _ _ Hring Hh). pose proof (ro_last _ _ _ _ _ Hring). pose proof (ro_u64 _ _ _ _ _ Hring).
  unfold advance_tail, sat_add64. rewrite Z.min_l by lia. rewrite Etl. destruct (Z.leb_spec (Z.of_nat p + Z.of_nat m) (Z.of_nat h)); [done|lia].
Qed.

Lemma ready_then_advance_witness : ∃ (b : Inner) (tr : list event) (s : System) (r : Reader),
  AudioBuffer_new 4 = Some b ∧ run false (start b) tr s ∧ readers s !! 0 = Some r ∧
  advance_tail (tail r) 2 2 = Some (tail r + Z.of_nat 2)%Z.
Proof.
  destruct two_samples_run as (b & tr & s & Hb & Hrun & Hp & Hin & rel & Hr & Hlen & Hi). eexists b, tr, s, _. split; [done|]. split; [done|].
  split; [exact Hr|]. apply (ready_then_advance false 4 b tr s 0 _ 2 2 [10; 11]%Z 2 2 rel Hb Hrun); [rewrite Hp; by vm_compute|exact Hr|done|done|done| |done].
  rewrite Hlen. by split; [cbn; lia|].
Defined.
