(* ===== verification/F32.v ===== *)
(** * Floats and durations of the audio path

    An [f32] or [f64] of an arithmetic path is a [spec_float] of the Standard
    Library, whose operations round to nearest even, as Rust's do.  A NaN has
    no payload: Rust does not specify it.  A [Duration] and an [Instant] are
    nanoseconds in [Z].  The functions whose result Rust leaves to the platform
    ([exp], [ln], [powf], [sin]) are a parameter ([Libm]). *)

From Stdlib Require Import SpecFloat.
From S2P Require Import Prelude.

Open Scope Z_scope.

Definition f32 : Type := spec_float.
Definition f64 : Type := spec_float.

(** ** [f32] *)

Definition f32_add : f32 → f32 → f32 := SFadd 24 128.
Definition f32_sub : f32 → f32 → f32 := SFsub 24 128.
Definition f32_mul : f32 → f32 → f32 := SFmul 24 128.
Definition f32_div : f32 → f32 → f32 := SFdiv 24 128.
Definition f32_sqrt : f32 → f32 := SFsqrt 24 128.

(** [z as f32] of an integer. *)
Definition f32_of_int (z : Z) : f32 := binary_normalize 24 128 z 0 false.

Definition f32_zero : f32 := S754_zero false.
Definition f32_one : f32 := f32_of_int 1.

Definition is_finite (x : spec_float) : bool :=
  match x with S754_zero _ | S754_finite _ _ _ => true | _ => false end.

(** [a > b]: false when either is a NaN. *)
Definition float_gt (a b : spec_float) : bool := SFltb b a.
Definition float_ge (a b : spec_float) : bool := SFleb b a.

(** [f32::to_bits]. *)
Definition f32_to_bits (x : f32) : Z :=
  let sign (s : bool) := if s then 2 ^ 31 else 0 in
  match x with
  | S754_zero s => sign s
  | S754_infinity s => sign s + 255 * 2 ^ 23
  | S754_nan => 255 * 2 ^ 23 + 2 ^ 22
  | S754_finite s m e =>
      if Z.pos m <? 2 ^ 23 then sign s + Z.pos m else sign s + (e + 150) * 2 ^ 23 + (Z.pos m - 2 ^ 23)
  end.

(** [f32::from_bits]. *)
Definition f32_of_bits (b : Z) : f32 :=
  let s := Z.testbit b 31 in
  let e := Z.land (Z.shiftr b 23) 255 in
  let m := Z.land b (2 ^ 23 - 1) in
  if e =? 255 then (if m =? 0 then S754_infinity s else S754_nan)
  else if e =? 0 then match m with Z.pos p => S754_finite s p (-149) | _ => S754_zero s end
  else match m + 2 ^ 23 with Z.pos p => S754_finite s p (e - 150) | _ => S754_nan end.

(** ** [f64] *)

Definition f64_add : f64 → f64 → f64 := SFadd 53 1024.
Definition f64_mul : f64 → f64 → f64 := SFmul 53 1024.
Definition f64_div : f64 → f64 → f64 := SFdiv 53 1024.
Definition f64_sqrt : f64 → f64 := SFsqrt 53 1024.
Definition f64_of_int (z : Z) : f64 := binary_normalize 53 1024 z 0 false.

Definition recast (prec emax : Z) (x : spec_float) : spec_float :=
  match x with S754_finite s m e => binary_normalize prec emax (cond_Zopp s (Z.pos m)) e s | _ => x end.

(** [x as f32] and [x as f64]. *)
Definition f64_as_f32 : f64 → f32 := recast 24 128.
Definition f32_as_f64 : f32 → f64 := recast 53 1024.

(** ** Durations and instants *)

(** [Instant::saturating_duration_since], and [duration_since], which saturates
    too. *)
Definition saturating_duration_since (now earlier : Z) : Z := Z.max 0 (now - earlier).

(** [num / den] to the nearest, ties to even. *)
Definition round_half_even (num den : Z) : Z :=
  let q := num / den in
  let r := num mod den in
  if (2 * r <? den) || ((2 * r =? den) && Z.even q) then q else q + 1.

(** [Duration::from_secs_f64]; [None] is the panic (negative, not finite, or
    2^64 seconds and more). *)
Definition from_secs_f64 (x : f64) : option Z :=
  match x with
  | S754_zero _ => Some 0
  | S754_finite false m e =>
      let ns := if 0 <=? e then Z.pos m * 2 ^ e * ns_per_sec
                else round_half_even (Z.pos m * ns_per_sec) (2 ^ (- e)) in
      if ns <? (u64_max + 1) * ns_per_sec then Some ns else None
  | _ => None
  end.

(** [Duration::as_secs_f32]. *)
Definition as_secs_f32 (d : Z) : f32 :=
  f32_add (f32_of_int (d / ns_per_sec)) (f32_div (f32_of_int (d mod ns_per_sec)) (f32_of_int ns_per_sec)).

(** ** The platform's functions *)

Class Libm := {
  f32_exp : f32 → f32;
  f32_ln : f32 → f32;
  f32_powf : f32 → f32 → f32;
  f64_sin : f64 → f64;
}.

(** A platform to run examples on: [exp] is zero, as it is of a very negative
    argument, [ln] and [sin] are their argument, [powf] is its base. *)
#[export] Instance libm_crude : Libm := {| f32_exp := λ _, f32_zero; f32_ln := λ x, x; f32_powf := λ b _, b; f64_sin := λ x, x |}.

(** ** Checks of the encoding *)

Example f32_of_bits_tenth : f32_of_bits 1036831949 = f32_div f32_one (f32_of_int 10). Proof. reflexivity. Qed.
Example f32_bits_one : f32_to_bits f32_one = 1065353216. Proof. reflexivity. Qed.
Example f32_bits_tenth : f32_to_bits (f32_div f32_one (f32_of_int 10)) = 1036831949. Proof. reflexivity. Qed.
Example f32_bits_minus_third : f32_to_bits (f32_div (f32_of_int (-1)) (f32_of_int 3)) = 3198855851. Proof. reflexivity. Qed.
Example block_of_1024 : from_secs_f64 (f64_div (f64_of_int 1024) (f64_of_int 44100)) = Some 23219955. Proof. reflexivity. Qed.

(** ** The quotient of two counters is a duration *)

Lemma digits2_pos_bounds (p : positive) :
  2 ^ (Z.pos (digits2_pos p) - 1) ≤ Z.pos p < 2 ^ Z.pos (digits2_pos p).
Proof.
  induction p as [p IH|p IH|]; [| |done]; cbn [digits2_pos]; rewrite Pos2Z.inj_succ, Z.sub_1_r, Z.pred_succ,
    Z.pow_succ_r by lia;
    replace (2 ^ Z.pos (digits2_pos p)) with (2 * 2 ^ (Z.pos (digits2_pos p) - 1)) in *
      by (rewrite <- Z.pow_succ_r by lia; f_equal; lia); lia.
Qed.

Lemma Zdigits2_bounds (m : Z) :
  0 ≤ m → 0 ≤ Zdigits2 m ∧ m < 2 ^ Zdigits2 m ∧ ∀ b, 0 ≤ b → m < 2 ^ b → Zdigits2 m ≤ b.
Proof.
  intros Hm. destruct m as [|p|p]; [by repeat split; cbn; lia| |lia]. cbn [Zdigits2].
  pose proof (digits2_pos_bounds p) as [Hl Hu]. repeat split; [lia|lia|]. intros b Hb Hlt.
  destruct (Z.le_gt_cases (Z.pos (digits2_pos p)) b) as [|Hgt]; [done|].
  assert (2 ^ b ≤ 2 ^ (Z.pos (digits2_pos p) - 1)) by (apply Z.pow_le_mono_r; lia). lia.
Qed.

Lemma iter_shr_1 (p : positive) (r : shr_record) :
  0 ≤ shr_m r → 0 ≤ shr_m (SpecFloat.iter_pos shr_1 p r) ∧ shr_m (SpecFloat.iter_pos shr_1 p r) * 2 ^ Z.pos p ≤ shr_m r.
Proof.
  assert (H1 : ∀ r, 0 ≤ shr_m r → 0 ≤ shr_m (shr_1 r) ∧ shr_m (shr_1 r) * 2 ≤ shr_m r).
  { intros [[|[q|q|]|q] ? ?]; cbn; lia. }
  revert r. induction p as [p IH|p IH|]; intros r Hr; cbn [SpecFloat.iter_pos].
  - destruct (H1 r Hr) as [Ha Hb]. destruct (IH _ Ha) as [Hc Hd]. destruct (IH _ Hc) as [He Hf].
    split; [done|]. replace (2 ^ Z.pos p~1) with (2 * (2 ^ Z.pos p * 2 ^ Z.pos p)); [nia|].
    rewrite <- Z.pow_add_r, <- Z.pow_succ_r by lia. f_equal. lia.
  - destruct (IH _ Hr) as [Hc Hd]. destruct (IH _ Hc) as [He Hf].
    split; [done|]. replace (2 ^ Z.pos p~0) with (2 ^ Z.pos p * 2 ^ Z.pos p); [nia|].
    rewrite <- Z.pow_add_r by lia. f_equal. lia.
  - by apply H1.
Qed.

(** One alignment of the rounding: at most [prec] digits are left. *)
Lemma shr_fexp_53 (m e : Z) (l : location) :
  0 ≤ m →
  0 ≤ shr_m (fst (shr_fexp 53 1024 m e l)) < 2 ^ 53 ∧
  snd (shr_fexp 53 1024 m e l) = Z.max e (Z.max (Zdigits2 m + e - 53) (-1074)).
Proof.
  intros Hm. destruct (Zdigits2_bounds m Hm) as (Hd0 & Hd & _).
  assert (Hrec : shr_m (shr_record_of_loc m l) = m) by (by destruct l as [|[]]).
  unfold shr_fexp, fexp, emin. change (3 - 1024 - 53) with (-1074).
  set (n := Z.max (Zdigits2 m + e - 53) (-1074) - e).
  assert (Hsmall : n ≤ 0 → m < 2 ^ 53).
  { intros Hn. eapply Z.lt_le_trans; [exact Hd|]. apply Z.pow_le_mono_r; lia. }
  destruct n as [|p|p] eqn:En; cbn [shr fst snd].
  - rewrite Hrec. lia.
  - destruct (iter_shr_1 p (shr_record_of_loc m l)) as [Ha Hb]; [by rewrite Hrec|]. rewrite Hrec in Hb.
    split; [split; [done|]|lia].
    assert (2 ^ Zdigits2 m ≤ 2 ^ 53 * 2 ^ Z.pos p).
    { rewrite <- Z.pow_add_r by lia. apply Z.pow_le_mono_r; lia. }
    assert (0 < 2 ^ Z.pos p) by (apply Z.pow_pos_nonneg; lia). nia.
  - rewrite Hrec. lia.
Qed.

Lemma round_nearest_even_bound (m : Z) (l : location) :
  m ≤ round_nearest_even m l ≤ m + 1.
Proof. destruct l as [|[]]; cbn; repeat case_match; lia. Qed.

(** Rounding a number below [2 ^ 53] scaled by at most two stays small. *)
Lemma round_aux_small (m e : Z) (l : location) :
  0 ≤ m → e ≤ 0 → Zdigits2 m + e ≤ 53 →
  match binary_round_aux 53 1024 false m e l with
  | S754_zero _ => True
  | S754_finite s m' e' => s = false ∧ e' ≤ 1 ∧ Z.pos m' < 2 ^ 53
  | _ => False
  end.
Proof.
  intros Hm He Hd. unfold binary_round_aux.
  pose proof (shr_fexp_53 m e l Hm) as [H1 H2].
  destruct (shr_fexp 53 1024 m e l) as [r1 e1]. cbn [fst snd] in *.
  set (m2 := round_nearest_even (shr_m r1) (loc_of_shr_record r1)).
  assert (Hm2 : 0 ≤ m2 ≤ 2 ^ 53) by (pose proof (round_nearest_even_bound (shr_m r1) (loc_of_shr_record r1)); lia).
  pose proof (shr_fexp_53 m2 e1 loc_Exact (proj1 Hm2)) as [H3 H4].
  destruct (shr_fexp 53 1024 m2 e1 loc_Exact) as [r2 e2]. cbn [fst snd] in *.
  destruct (Zdigits2_bounds m2 (proj1 Hm2)) as (_ & _ & Hb).
  specialize (Hb 54 ltac:(lia) ltac:(lia)).
  destruct (shr_m r2) as [|p|p] eqn:Ep; [done| |lia].
  destruct (Z.leb_spec e2 (1024 - 53)); [|lia]. repeat split; lia.
Qed.

Lemma digits2_shift (p : positive) (d : positive) :
  digits2_pos (Pos.iter xO p d) = (digits2_pos p + d)%positive.
Proof.
  revert d. apply Pos.peano_ind; [cbn; lia|]. intros d IH. rewrite Pos.iter_succ. cbn [digits2_pos]. rewrite IH. lia.
Qed.

(** Alignment and rounding leave 53 digits as they are. *)
Lemma round_aux_exact (p : positive) (e : Z) :
  Z.pos (digits2_pos p) = 53 → -1074 ≤ e ≤ 971 →
  binary_round_aux 53 1024 false (Z.pos p) e loc_Exact = S754_finite false p e.
Proof.
  intros Hd He. unfold binary_round_aux, shr_fexp, fexp, emin. cbn [Zdigits2]. rewrite Hd.
  replace (Z.max (53 + e - 53) (3 - 1024 - 53) - e) with 0 by lia. cbn [shr shr_record_of_loc shr_m].
  cbn [loc_of_shr_record round_nearest_even shr_record_of_loc Zdigits2]. rewrite Hd.
  replace (Z.max (53 + e - 53) (3 - 1024 - 53) - e) with 0 by lia. cbn [shr shr_m].
  by destruct (Z.leb_spec e (1024 - 53)); [|lia].
Qed.

(** A counter below [2 ^ 53] is exact. *)
Lemma f64_of_int_exact (p : positive) :
  Z.pos p < 2 ^ 53 →
  ∃ m, f64_of_int (Z.pos p) = S754_finite false m (Z.pos (digits2_pos p) - 53) ∧ Z.pos (digits2_pos m) = 53.
Proof.
  intros Hp. unfold f64_of_int. cbn [binary_normalize]. unfold binary_round, shl_align, fexp, emin.
  destruct (Zdigits2_bounds (Z.pos p) ltac:(lia)) as (_ & _ & Hb). specialize (Hb 53 ltac:(lia) Hp).
  cbn [Zdigits2] in Hb.
  replace (Z.max (Z.pos (digits2_pos p) + 0 - 53) (3 - 1024 - 53)) with (Z.pos (digits2_pos p) - 53) by lia.
  rewrite Z.sub_0_r. destruct (Z.pos (digits2_pos p) - 53) as [|q|q] eqn:Eq; [|lia|].
  - exists p. split; [|lia]. apply round_aux_exact; lia.
  - exists (Pos.iter xO p q). pose proof (digits2_shift p q) as Hs. split; [|lia].
    apply round_aux_exact; lia.
Qed.

Lemma from_secs_f64_small (x : f64) :
  match x with
  | S754_zero _ => True
  | S754_finite s m e => s = false ∧ e ≤ 1 ∧ Z.pos m < 2 ^ 53
  | _ => False
  end → ∃ d, from_secs_f64 x = Some d.
Proof.
  destruct x as [s| | |s m e]; try done; [by exists 0|]. intros (-> & He & Hm). unfold from_secs_f64. cbv zeta.
  assert (Hr : (if 0 <=? e then Z.pos m * 2 ^ e * ns_per_sec
                else round_half_even (Z.pos m * ns_per_sec) (2 ^ (- e))) ≤ Z.pos m * 2 * ns_per_sec + 1).
  { unfold ns_per_sec. destruct (Z.leb_spec 0 e).
    - assert (2 ^ e ≤ 2 ^ 1) by (apply Z.pow_le_mono_r; lia). nia.
    - assert (1 ≤ 2 ^ (- e)) by (pose proof (Z.pow_pos_nonneg 2 (- e)); lia).
      unfold round_half_even. set (d := 2 ^ (- e)) in *.
      assert (Z.pos m * 1000000000 / d ≤ Z.pos m * 1000000000) by (apply Z.div_le_upper_bound; nia).
      case_match; lia. }
  revert Hr. generalize (if 0 <=? e then Z.pos m * 2 ^ e * ns_per_sec
                else round_half_even (Z.pos m * ns_per_sec) (2 ^ (- e))). intros ns Hr.
  destruct (Z.ltb_spec ns ((u64_max + 1) * ns_per_sec)) as [|E]; [by eexists|].
  unfold u64_max, ns_per_sec in *. lia.
Qed.

(** [Duration::from_secs_f64(frames as f64 / rate as f64)] does not panic. *)
Lemma block_duration_some (frames rate : Z) :
  0 ≤ frames < 2 ^ 53 → 0 < rate < 2 ^ 53 →
  ∃ d, from_secs_f64 (f64_div (f64_of_int frames) (f64_of_int rate)) = Some d.
Proof.
  intros Hf Hr. apply from_secs_f64_small.
  destruct rate as [|r|r]; [lia| |lia]. destruct (f64_of_int_exact r ltac:(lia)) as (mr & -> & Hmr).
  destruct frames as [|f|f]; [done| |lia]. destruct (f64_of_int_exact f ltac:(lia)) as (mf & -> & Hmf).
  destruct (Zdigits2_bounds (Z.pos f) ltac:(lia)) as (_ & _ & Hfd). specialize (Hfd 53 ltac:(lia) ltac:(lia)).
  cbn [Zdigits2] in Hfd.
  unfold f64_div, SFdiv, SFdiv_core_binary. cbn [Zdigits2 xorb]. rewrite Hmr, Hmf.
  set (ef := Z.pos (digits2_pos f) - 53) in *. set (er := Z.pos (digits2_pos r) - 53) in *.
  unfold fexp, emin. set (e' := Z.min _ (ef - er)).
  set (s := ef - er - e').
  assert (Hs : 0 ≤ s) by lia.
  assert (Hm' : (match s with 0 => Z.pos mf | Z.pos _ => Z.shiftl (Z.pos mf) s | Z.neg _ => 0 end) = Z.pos mf * 2 ^ s).
  { clearbody s. destruct s; [by rewrite Z.mul_1_r|by rewrite Z.shiftl_mul_pow2|lia]. }
  rewrite Hm'.
  pose proof (Z_div_mod (Z.pos mf * 2 ^ s) (Z.pos mr) ltac:(lia)) as Hdm.
  destruct (Z.div_eucl (Z.pos mf * 2 ^ s) (Z.pos mr)) as [q rr]. destruct Hdm as [Hq Hrr].
  pose proof (digits2_pos_bounds mf) as [_ Hbf]. pose proof (digits2_pos_bounds mr) as [Hbr _].
  rewrite Hmf in Hbf. rewrite Hmr in Hbr. change (53 - 1) with 52 in Hbr.
  assert (Hp2 : 0 < 2 ^ s) by (apply Z.pow_pos_nonneg; lia).
  assert (Hq0 : 0 ≤ q) by nia.
  assert (Hqb : q < 2 ^ (1 + s)).
  { rewrite Z.pow_add_r by lia. change (2 ^ 1) with 2.
    assert (2 ^ 53 = 2 * 2 ^ 52) by done. nia. }
  destruct (Zdigits2_bounds q Hq0) as (_ & _ & Hqd). specialize (Hqd (1 + s) ltac:(lia) Hqb).
  apply round_aux_small; lia.
Qed.
