(* ===== verification/F32Facts.v ===== *)
(** * Bounds on rounded results, of either sign, and exact ratios

    [fle x b] and [fge x b]: the non-negative finite float [x] is at most, at
    least, the integer [b].  Rounding keeps both when [b] is below 2^24, where
    every integer is a float: so sums, products and quotients of floats stay
    within the bounds their exact values have. *)

From Stdlib Require Import SpecFloat.
From S2P Require Import Prelude Common F32.

Local Open Scope Z_scope.

(** The magnitude [m * 2 ^ e] against [b]. *)
Definition mag_le (m e b : Z) : Prop := m * 2 ^ Z.max e 0 ≤ b * 2 ^ Z.max (- e) 0.
Definition mag_ge (m e b : Z) : Prop := b * 2 ^ Z.max (- e) 0 ≤ m * 2 ^ Z.max e 0.

Definition fle (x : f32) (b : Z) : Prop :=
  match x with
  | S754_zero _ => 0 ≤ b
  | S754_finite false m e => mag_le (Z.pos m) e b
  | _ => False
  end.
Definition fge (x : f32) (b : Z) : Prop :=
  match x with
  | S754_zero _ => b ≤ 0
  | S754_finite false m e => mag_ge (Z.pos m) e b
  | _ => False
  end.

(** ** Shifting right keeps the floor and whether anything was lost *)

Definition lossless (r : shr_record) : bool := negb (shr_r r) && negb (shr_s r).

Lemma shr_1_spec r : 0 ≤ shr_m r →
  shr_m (shr_1 r) = shr_m r / 2 ∧ (lossless (shr_1 r) = false → shr_m (shr_1 r) * 2 < shr_m r ∨ lossless r = false).
Proof.
  intros H. rewrite <-Z.div2_div. destruct r as [[|[q|q|]|q] ar as_]; cbn in H |- *; try lia.
  all: split; [reflexivity|]; unfold lossless; cbn; intros Hl; try (left; lia); right; by destruct ar.
Qed.

(** [p] shifts: the quotient by [2 ^ p], never rounded up, lossless only when it
    is exact. *)
Lemma iter_shr_spec (p : positive) r : 0 ≤ shr_m r →
  let r' := SpecFloat.iter_pos shr_1 p r in
  shr_m r' = shr_m r / 2 ^ Z.pos p ∧
  (lossless r' = false → shr_m r' * 2 ^ Z.pos p < shr_m r ∨ lossless r = false).
Proof.
  assert (Hcomp : ∀ a b (f g : shr_record → shr_record), 0 < a → 0 < b →
    (∀ r, 0 ≤ shr_m r → shr_m (f r) = shr_m r / a ∧ (lossless (f r) = false → shr_m (f r) * a < shr_m r ∨ lossless r = false)) →
    (∀ r, 0 ≤ shr_m r → shr_m (g r) = shr_m r / b ∧ (lossless (g r) = false → shr_m (g r) * b < shr_m r ∨ lossless r = false)) →
    ∀ r, 0 ≤ shr_m r → shr_m (g (f r)) = shr_m r / (a * b) ∧
      (lossless (g (f r)) = false → shr_m (g (f r)) * (a * b) < shr_m r ∨ lossless r = false)).
  { intros a b f g Ha Hb Hf Hg r0 Hr. destruct (Hf r0 Hr) as [E1 L1].
    assert (H1 : 0 ≤ shr_m (f r0)) by (rewrite E1; apply Z.div_pos; lia).
    destruct (Hg (f r0) H1) as [E2 L2]. split; [rewrite E2, E1; by apply Z.div_div; lia|].
    intros Hl. pose proof (Z.mul_div_le (shr_m r0) a Ha). rewrite <-E1 in *. destruct (L2 Hl) as [Hlt|Hl1]; [left; nia|].
    destruct (L1 Hl1) as [Hlt|]; [|by right]. left.
    pose proof (Z.mul_div_le (shr_m (f r0)) b Hb). rewrite <-E2 in *. nia. }
  cbv zeta. revert r. induction p as [p IH|p IH|]; intros r Hr; cbn [SpecFloat.iter_pos].
  - replace (2 ^ Z.pos p~1) with (2 * (2 ^ Z.pos p * 2 ^ Z.pos p)).
    2:{ rewrite <-Z.pow_add_r, <-Z.pow_succ_r by lia. f_equal. lia. }
    assert (0 < 2 ^ Z.pos p) by (apply Z.pow_pos_nonneg; lia).
    apply (Hcomp 2 (2 ^ Z.pos p * 2 ^ Z.pos p) shr_1 (λ r, SpecFloat.iter_pos shr_1 p (SpecFloat.iter_pos shr_1 p r)));
      [lia|lia|apply shr_1_spec| |done]. intros r0. by apply (Hcomp (2 ^ Z.pos p) (2 ^ Z.pos p)).
  - replace (2 ^ Z.pos p~0) with (2 ^ Z.pos p * 2 ^ Z.pos p).
    2:{ rewrite <-Z.pow_add_r by lia. f_equal. lia. }
    assert (0 < 2 ^ Z.pos p) by (apply Z.pow_pos_nonneg; lia). by apply (Hcomp (2 ^ Z.pos p) (2 ^ Z.pos p)).
  - by apply shr_1_spec.
Qed.

(** One alignment of an [f32] result. *)
Lemma shr_fexp_24 (m e : Z) (l : location) :
  0 ≤ m →
  let '(r, e') := shr_fexp 24 128 m e l in
  e' = Z.max e (Z.max (Zdigits2 m + e - 24) (-149)) ∧
  shr_m r = m / 2 ^ (e' - e) ∧
  (loc_of_shr_record r ≠ loc_Exact → shr_m r * 2 ^ (e' - e) < m ∨ l ≠ loc_Exact).
Proof.
  intros Hm.
  assert (Hrec : shr_m (shr_record_of_loc m l) = m) by (by destruct l as [|[]]).
  assert (Hll : lossless (shr_record_of_loc m l) = false → l ≠ loc_Exact) by (by destruct l as [|[]]).
  assert (Hloc : ∀ r, loc_of_shr_record r ≠ loc_Exact → lossless r = false) by (intros [? [] []]; cbn; done).
  unfold shr_fexp, fexp, emin. change (3 - 128 - 24) with (-149).
  set (n := Z.max (Zdigits2 m + e - 24) (-149) - e).
  destruct n as [|p|p] eqn:En; cbn [shr].
  - rewrite Hrec. replace (e - e) with 0 by lia. rewrite Z.div_1_r, Z.mul_1_r. split_and!; [lia|done|]. intros H. right. by apply Hll, Hloc.
  - destruct (iter_shr_spec p (shr_record_of_loc m l)) as [Ha Hb]; [by rewrite Hrec|]. rewrite Hrec in *.
    replace (e + Z.pos p - e) with (Z.pos p) by lia. split_and!; [lia|done|]. intros H.
    destruct (Hb (Hloc _ H)) as [|H2]; [by left|right; by apply Hll].
  - rewrite Hrec. replace (e - e) with 0 by lia. rewrite Z.div_1_r, Z.mul_1_r. split_and!; [lia|done|]. intros H. right. by apply Hll, Hloc.
Qed.

(** ** Rounding keeps integer bounds *)

Lemma mag_le_neg m e b : e ≤ 0 → mag_le m e b ↔ m ≤ b * 2 ^ (- e).
Proof. intros He. unfold mag_le. rewrite (Z.max_r e 0), (Z.max_l (- e) 0) by lia. by rewrite Z.mul_1_r. Qed.
Lemma mag_ge_neg m e b : e ≤ 0 → mag_ge m e b ↔ b * 2 ^ (- e) ≤ m.
Proof. intros He. unfold mag_ge. rewrite (Z.max_r e 0), (Z.max_l (- e) 0) by lia. by rewrite Z.mul_1_r. Qed.

(** A magnitude below 2^24 * 2^t at an exponent of at most [t] is aligned at one
    of at most [t]. *)
Lemma small_exponent t m e b : 0 ≤ m → e ≤ t → b < 2 ^ 24 → m ≤ b * 2 ^ (t - e) → Zdigits2 m + e - 24 ≤ t.
Proof.
  intros Hm He Hb Hle. destruct (Zdigits2_bounds m Hm) as (_ & _ & Hd).
  assert (Zdigits2 m ≤ 24 + (t - e)); [apply Hd; [lia|]|lia].
  rewrite Z.pow_add_r by lia. assert (0 < 2 ^ (t - e)) by (apply Z.pow_pos_nonneg; lia). nia.
Qed.

(** The quotient by [2 ^ k] at the shifted exponent. *)
Lemma shifted_bounds t m e k a b : 0 ≤ k → e + k ≤ t → a * 2 ^ (t - e) ≤ m ≤ b * 2 ^ (t - e) →
  a * 2 ^ (t - (e + k)) ≤ m / 2 ^ k ≤ b * 2 ^ (t - (e + k)).
Proof.
  intros Hk Hek [Ha Hb]. assert (Hp : 0 < 2 ^ k) by (apply Z.pow_pos_nonneg; lia).
  assert (E : 2 ^ (t - e) = 2 ^ (t - (e + k)) * 2 ^ k) by (rewrite <-Z.pow_add_r by lia; f_equal; lia).
  rewrite E in *. split; [apply Z.div_le_lower_bound; lia|apply Z.div_le_upper_bound; lia].
Qed.

(** [x] is between [a * 2 ^ t] and [b * 2 ^ t], at an exponent of at most [t]. *)
Definition scaled_between (t a b : Z) (x : f32) : Prop :=
  match x with
  | S754_zero _ => a ≤ 0 ≤ b
  | S754_finite false m e => e ≤ t ∧ a * 2 ^ (t - e) ≤ Z.pos m ≤ b * 2 ^ (t - e)
  | _ => False
  end.

Lemma round_aux_scaled (t m e : Z) (l : location) (a b : Z) :
  0 ≤ m → e ≤ t → -149 ≤ t ≤ 104 → 0 ≤ a → b < 2 ^ 24 → a * 2 ^ (t - e) ≤ m ≤ b * 2 ^ (t - e) → (l ≠ loc_Exact → m < b * 2 ^ (t - e)) →
  scaled_between t a b (binary_round_aux 24 128 false m e l).
Proof.
  intros Hm He Ht Ha Hb Hab Hl. unfold binary_round_aux.
  pose proof (shr_fexp_24 m e l Hm) as H1. destruct (shr_fexp 24 128 m e l) as [r1 e1]. destruct H1 as (He1 & Hr1 & Hloc).
  pose proof (small_exponent t m e b Hm He Hb (proj2 Hab)) as Hs1.
  assert (Hk1 : 0 ≤ e1 - e ∧ e1 ≤ t) by lia.
  pose proof (shifted_bounds t m e (e1 - e) a b ltac:(lia) ltac:(lia) Hab) as Hm1. replace (e + (e1 - e)) with e1 in Hm1 by lia.
  rewrite <-Hr1 in Hm1.
  assert (H2 : a * 2 ^ (t - e1) ≤ round_nearest_even (shr_m r1) (loc_of_shr_record r1) ≤ b * 2 ^ (t - e1)).
  { assert (Hd : loc_of_shr_record r1 = loc_Exact ∨ loc_of_shr_record r1 ≠ loc_Exact) by (destruct (loc_of_shr_record r1); [by left|by right]).
    destruct Hd as [->|Hne]; [done|].
    pose proof (round_nearest_even_bound (shr_m r1) (loc_of_shr_record r1)). split; [lia|].
    enough (shr_m r1 < b * 2 ^ (t - e1)) by lia.
    assert (Hp : 0 < 2 ^ (e1 - e)) by (apply Z.pow_pos_nonneg; lia).
    assert (E : 2 ^ (t - e) = 2 ^ (t - e1) * 2 ^ (e1 - e)) by (rewrite <-Z.pow_add_r by lia; f_equal; lia).
    pose proof (Z.mul_div_le m (2 ^ (e1 - e)) Hp) as Hfl. rewrite <-Hr1 in Hfl. rewrite E in Hl, Hab.
    destruct (Hloc Hne) as [Hlt|Hll]; [nia|]. specialize (Hl Hll). nia. }
  set (m2 := round_nearest_even _ _) in *.
  assert (Hm2 : 0 ≤ m2) by (assert (0 < 2 ^ (t - e1)) by (apply Z.pow_pos_nonneg; lia); nia).
  pose proof (shr_fexp_24 m2 e1 loc_Exact Hm2) as H3. destruct (shr_fexp 24 128 m2 e1 loc_Exact) as [r2 e2].
  destruct H3 as (He2 & Hr2 & _). pose proof (small_exponent t m2 e1 b Hm2 ltac:(lia) Hb (proj2 H2)) as Hs2.
  pose proof (shifted_bounds t m2 e1 (e2 - e1) a b ltac:(lia) ltac:(lia) H2) as Hm3. replace (e1 + (e2 - e1)) with e2 in Hm3 by lia.
  rewrite <-Hr2 in Hm3. assert (Hp2 : 0 < 2 ^ (t - e2)) by (apply Z.pow_pos_nonneg; lia).
  destruct (shr_m r2) as [|q|q] eqn:Eq; cbn [scaled_between]; [nia| |nia].
  destruct (Z.leb_spec e2 (128 - 24)); [|lia]. cbn [scaled_between]. lia.
Qed.

Lemma round_aux_bounds (m e : Z) (l : location) (a b : Z) :
  0 ≤ m → e ≤ 0 → 0 ≤ a → b < 2 ^ 24 → a * 2 ^ (- e) ≤ m ≤ b * 2 ^ (- e) → (l ≠ loc_Exact → m < b * 2 ^ (- e)) →
  fle (binary_round_aux 24 128 false m e l) b ∧ fge (binary_round_aux 24 128 false m e l) a.
Proof.
  rewrite <-(Z.sub_0_l e). intros Hm He Ha Hb Hab Hl. pose proof (round_aux_scaled 0 m e l a b Hm He ltac:(lia) Ha Hb Hab Hl) as H.
  destruct (binary_round_aux 24 128 false m e l) as [s| | |[] m' e']; try done; cbn [scaled_between fle fge] in *; [lia|].
  rewrite mag_le_neg, mag_ge_neg by lia. rewrite Z.sub_0_l in H. lia.
Qed.

(** ** Sums *)

(** The same bound read at any exponent [k] below. *)
Lemma mag_le_at k m e b : k ≤ e → k ≤ 0 → mag_le m e b ↔ m * 2 ^ (e - k) ≤ b * 2 ^ (- k).
Proof.
  intros Hke Hk. unfold mag_le.
  replace (e - k) with (Z.max e 0 + (- Z.max (- e) 0 - k)) by lia. replace (- k) with (Z.max (- e) 0 + (- Z.max (- e) 0 - k)) by lia.
  rewrite !Z.pow_add_r by lia. assert (0 < 2 ^ (- Z.max (- e) 0 - k)) by (apply Z.pow_pos_nonneg; lia). nia.
Qed.
Lemma mag_ge_at k m e b : k ≤ e → k ≤ 0 → mag_ge m e b ↔ b * 2 ^ (- k) ≤ m * 2 ^ (e - k).
Proof.
  intros Hke Hk. unfold mag_ge.
  replace (e - k) with (Z.max e 0 + (- Z.max (- e) 0 - k)) by lia. replace (- k) with (Z.max (- e) 0 + (- Z.max (- e) 0 - k)) by lia.
  rewrite !Z.pow_add_r by lia. assert (0 < 2 ^ (- Z.max (- e) 0 - k)) by (apply Z.pow_pos_nonneg; lia). nia.
Qed.

Lemma iter_xO_mul (m d : positive) : Z.pos (Pos.iter xO m d) = Z.pos m * 2 ^ Z.pos d.
Proof.
  revert d. apply Pos.peano_ind; [cbn; lia|]. intros d IH. rewrite Pos.iter_succ, Pos2Z.inj_succ, Z.pow_succ_r by lia.
  rewrite Pos2Z.inj_xO, IH. ring.
Qed.

Lemma shl_align_spec (m : positive) (e e' : Z) :
  snd (shl_align m e e') = Z.min e e' ∧ Z.pos (fst (shl_align m e e')) = Z.pos m * 2 ^ (e - Z.min e e').
Proof.
  unfold shl_align. destruct (e' - e) as [|d|d] eqn:Ed; cbn [fst snd].
  - replace (e - Z.min e e') with 0 by lia. lia.
  - replace (e - Z.min e e') with 0 by lia. lia.
  - rewrite iter_xO_mul. replace (e - Z.min e e') with (Z.pos d) by lia. split; [lia|done].
Qed.

Lemma mag_exponent m e b : 0 < m → b < 2 ^ 24 → mag_le m e b → Zdigits2 m + e ≤ 24.
Proof.
  intros Hm Hb Hle. destruct (Z.le_gt_cases e 0) as [He|He].
  - apply (mag_le_neg _ _ _ He) in Hle. rewrite <-Z.sub_0_l in Hle. pose proof (small_exponent 0 m e b ltac:(lia) He Hb Hle). lia.
  - unfold mag_le in Hle. rewrite (Z.max_l e 0), (Z.max_r (- e) 0), Z.mul_1_r in Hle by lia.
    destruct (Zdigits2_bounds m ltac:(lia)) as (Hd0 & _ & Hd).
    assert (He24 : e < 24). { apply Z.lt_nge. intros Hge. assert (2 ^ 24 ≤ 2 ^ e) by (apply Z.pow_le_mono_r; lia). nia. }
    enough (Zdigits2 m ≤ 24 - e) by lia. apply Hd; [lia|].
    assert (E : 2 ^ 24 = 2 ^ (24 - e) * 2 ^ e) by (rewrite <-Z.pow_add_r by lia; f_equal; lia).
    assert (0 < 2 ^ e) by (apply Z.pow_pos_nonneg; lia). nia.
Qed.

Lemma binary_round_bounds (m : positive) (e a b : Z) : 0 ≤ a → b < 2 ^ 24 → mag_ge (Z.pos m) e a → mag_le (Z.pos m) e b →
  fle (binary_round 24 128 false m e) b ∧ fge (binary_round 24 128 false m e) a.
Proof.
  intros Ha Hb Hge Hle. unfold binary_round, fexp, emin. pose proof (mag_exponent (Z.pos m) e b ltac:(lia) Hb Hle) as Hd.
  pose proof (shl_align_spec m e (Z.max (Z.pos (digits2_pos m) + e - 24) (3 - 128 - 24))) as [Hez Hmz].
  destruct (shl_align m e _) as [mz ez]. cbn [fst snd] in *. cbn [Zdigits2] in Hd.
  assert (Hez0 : ez ≤ 0 ∧ ez ≤ e) by lia. rewrite <-Hez in Hmz.
  apply (mag_le_at ez) in Hle; [|lia..]. apply (mag_ge_at ez) in Hge; [|lia..].
  apply round_aux_bounds; [lia|lia|lia|done|lia|done].
Qed.

Lemma f32_add_bounds (x y : f32) (a b c d : Z) :
  fge x a → fle x b → fge y c → fle y d → 0 ≤ a → 0 ≤ c → b + d < 2 ^ 24 →
  fle (f32_add x y) (b + d) ∧ fge (f32_add x y) (a + c).
Proof.
  assert (Hw : ∀ z k1 k2, fle z k1 → k1 ≤ k2 → fle z k2).
  { intros [s| | |[] m e] k1 k2; cbn; try done; [lia|]. unfold mag_le. intros.
    assert (0 < 2 ^ Z.max (- e) 0) by (apply Z.pow_pos_nonneg; lia). nia. }
  assert (Hpos : ∀ z k, fle z k → 0 ≤ k).
  { intros [s| | |[] m e] k; cbn; try done. unfold mag_le. intros.
    assert (0 < 2 ^ Z.max (- e) 0) by (apply Z.pow_pos_nonneg; lia). assert (0 < 2 ^ Z.max e 0) by (apply Z.pow_pos_nonneg; lia). nia. }
  intros Hxa Hxb Hyc Hyd Ha Hc Hbd. pose proof (Hpos _ _ Hxb). pose proof (Hpos _ _ Hyd).
  destruct x as [sx| | |[] mx ex], y as [sy| | |[] my ey]; try done; unfold f32_add; cbn [SFadd].
  - cbn [fle fge] in *. destruct sx, sy; cbn; lia.
  - cbn [fge] in Hxa. assert (a = 0) as -> by lia. split; [by eapply Hw; [exact Hyd|lia]|done].
  - cbn [fge] in Hyc. assert (c = 0) as -> by lia. rewrite Z.add_0_r. split; [by eapply Hw; [exact Hxb|lia]|done].
  - cbn [cond_Zopp]. destruct (shl_align_spec mx ex (Z.min ex ey)) as [_ Ex]. destruct (shl_align_spec my ey (Z.min ex ey)) as [_ Ey].
    rewrite (Z.min_r ex (Z.min ex ey)) in Ex by lia. rewrite (Z.min_r ey (Z.min ex ey)) in Ey by lia.
    set (p1 := fst (shl_align mx ex _)) in *. set (p2 := fst (shl_align my ey _)) in *. clearbody p1 p2.
    change (Z.pos p1 + Z.pos p2) with (Z.pos (p1 + p2)). cbn [binary_normalize]. apply binary_round_bounds; [lia|lia|..].
    all: assert (Hk : ∃ k, k ≤ 0 ∧ k ≤ Z.min ex ey) by (exists (Z.min (Z.min ex ey) 0); lia); destruct Hk as (k & Hk0 & Hk).
    all: rewrite ?(mag_le_at k), ?(mag_ge_at k) by lia; rewrite Pos2Z.inj_add, Ex, Ey.
    all: apply (mag_le_at k) in Hxb, Hyd; [|lia..]; apply (mag_ge_at k) in Hxa, Hyc; [|lia..].
    all: assert (Esx : 2 ^ (ex - k) = 2 ^ (ex - Z.min ex ey) * 2 ^ (Z.min ex ey - k)) by (rewrite <-Z.pow_add_r by lia; f_equal; lia).
    all: assert (Esy : 2 ^ (ey - k) = 2 ^ (ey - Z.min ex ey) * 2 ^ (Z.min ex ey - k)) by (rewrite <-Z.pow_add_r by lia; f_equal; lia).
    all: rewrite Esx, Esy in *; nia.
Qed.

(** ** Reciprocals and products of numbers up to one *)

Lemma new_location_exact n k : new_location n k ≠ loc_Exact → k ≠ 0.
Proof. intros H ->. apply H. unfold new_location, new_location_even, new_location_odd. by destruct (Z.even n). Qed.

Lemma f32_recip_bounds (s : f32) : fge s 1 → fle (f32_div f32_one s) 1 ∧ fge (f32_div f32_one s) 0.
Proof.
  destruct s as [?| | |[] m e]; cbn [fge]; try done. intros Hge.
  change f32_one with (S754_finite false 8388608 (-23)). unfold f32_div, SFdiv, SFdiv_core_binary. cbn [xorb].
  set (e' := Z.min _ (-23 - e)). set (sft := -23 - e - e').
  assert (Hs : 0 ≤ sft) by lia.
  assert (Hm' : (match sft with 0 => 8388608 | Z.pos _ => Z.shiftl 8388608 sft | Z.neg _ => 0 end) = 8388608 * 2 ^ sft).
  { clearbody sft. destruct sft; [done|by rewrite Z.shiftl_mul_pow2|lia]. }
  rewrite Hm'.
  assert (He' : e' ≤ 0).
  { unfold mag_ge in Hge. destruct (Zdigits2_bounds (Z.pos m) ltac:(lia)) as (_ & Hd & _).
    assert (0 ≤ Zdigits2 (Z.pos m) + e).
    { apply Z.nlt_ge. intros Hlt. cbn [Zdigits2] in *. rewrite (Z.max_r e 0), (Z.max_l (- e) 0) in Hge by lia.
      assert (2 ^ Z.pos (digits2_pos m) ≤ 2 ^ (- e)) by (apply Z.pow_le_mono_r; lia). lia. }
    unfold e', fexp, emin. change (Zdigits2 8388608) with 24. lia. }
  pose proof (Z_div_mod (8388608 * 2 ^ sft) (Z.pos m) ltac:(lia)) as Hdm.
  destruct (Z.div_eucl (8388608 * 2 ^ sft) (Z.pos m)) as [q r]. destruct Hdm as [Hq Hr].
  assert (Hp : 0 < 2 ^ sft) by (apply Z.pow_pos_nonneg; lia). assert (Hp' : 0 < 2 ^ (- e')) by (apply Z.pow_pos_nonneg; lia).
  assert (Hq0 : 0 ≤ q) by nia.
  assert (Hmain : Z.pos m * q + r ≤ Z.pos m * 2 ^ (- e')).
  { rewrite <-Hq. change 8388608 with (2 ^ 23). rewrite <-Z.pow_add_r by lia. replace (23 + sft) with (- e - e') by lia.
    unfold mag_ge in Hge. destruct (Z.le_gt_cases e 0) as [He|He].
    - rewrite (Z.max_r e 0), (Z.max_l (- e) 0) in Hge by lia. replace (- e - e') with (- e + - e') by lia.
      rewrite Z.pow_add_r by lia. nia.
    - assert (2 ^ (- e - e') ≤ 2 ^ (- e')) by (apply Z.pow_le_mono_r; lia). nia. }
  apply round_aux_bounds; [lia|lia|lia|lia| |].
  - split; [lia|]. rewrite Z.mul_1_l. nia.
  - intros Hl%new_location_exact. rewrite Z.mul_1_l. nia.
Qed.

Lemma fle_1_exponent m e : mag_le (Z.pos m) e 1 → e ≤ 0.
Proof.
  unfold mag_le. intros H. apply Z.nlt_ge. intros He. rewrite (Z.max_l e 0), (Z.max_r (- e) 0) in H by lia.
  assert (2 ^ 1 ≤ 2 ^ e) by (apply Z.pow_le_mono_r; lia). lia.
Qed.

Lemma f32_mul_bounds (x y : f32) : fle x 1 → fle y 1 → fle (f32_mul x y) 1 ∧ fge (f32_mul x y) 0.
Proof.
  destruct x as [sx| | |[] mx ex], y as [sy| | |[] my ey]; try done; intros Hx Hy; unfold f32_mul; cbn [SFmul]; try (cbn; lia).
  cbn [fle] in *. pose proof (fle_1_exponent _ _ Hx) as Hex. pose proof (fle_1_exponent _ _ Hy) as Hey.
  apply (mag_le_neg _ _ _ Hex) in Hx. apply (mag_le_neg _ _ _ Hey) in Hy. cbn [xorb].
  apply round_aux_bounds; [lia|lia|lia|lia| |done].
  replace (- (ex + ey)) with (- ex + - ey) by lia. rewrite Z.pow_add_r by lia.
  assert (0 < 2 ^ (- ex)) by (apply Z.pow_pos_nonneg; lia). assert (0 < 2 ^ (- ey)) by (apply Z.pow_pos_nonneg; lia).
  rewrite Pos2Z.inj_mul. nia.
Qed.

(** ** Order *)

(** The representation of an [f32]: a mantissa of 24 digits unless the exponent
    is the least. *)
Definition canonical (x : f32) : bool := valid_binary 24 128 x.

(** A difference with a larger number is not positive. *)
Definition nonpos (x : f32) : Prop :=
  match x with S754_zero _ | S754_infinity true | S754_finite true _ _ => True | _ => False end.

Lemma round_aux_sign s m e l : 0 ≤ m →
  match binary_round_aux 24 128 s m e l with
  | S754_zero s' | S754_infinity s' | S754_finite s' _ _ => s' = s
  | S754_nan => False
  end.
Proof.
  intros Hm. unfold binary_round_aux. pose proof (shr_fexp_24 m e l Hm) as H1.
  destruct (shr_fexp 24 128 m e l) as [r1 e1]. destruct H1 as (_ & Hr1 & _).
  set (m2 := round_nearest_even _ _). assert (Hm2 : 0 ≤ m2).
  { pose proof (round_nearest_even_bound (shr_m r1) (loc_of_shr_record r1)). unfold m2. rewrite Hr1 in *.
    destruct (Z.le_gt_cases 0 (e1 - e)).
    - pose proof (Z.div_pos m (2 ^ (e1 - e)) Hm ltac:(apply Z.pow_pos_nonneg; lia)). lia.
    - rewrite (Z.pow_neg_r 2 (e1 - e)) in * by lia. rewrite Z.div_0_r in *. lia. }
  pose proof (shr_fexp_24 m2 e1 loc_Exact Hm2) as H2. destruct (shr_fexp 24 128 m2 e1 loc_Exact) as [r2 e2].
  destruct H2 as (He2 & Hr2 & _). assert (0 ≤ shr_m r2).
  { rewrite Hr2. apply Z.div_pos; [done|]. apply Z.pow_pos_nonneg; lia. }
  destruct (shr_m r2); [done| |lia]. by destruct (_ <=? _).
Qed.

Lemma canonical_spec s m e : canonical (S754_finite s m e) = true →
  Z.pos m < 2 ^ 24 ∧ -149 ≤ e ∧ (-149 < e → 2 ^ 23 ≤ Z.pos m).
Proof.
  unfold canonical, valid_binary, bounded, canonical_mantissa, fexp, emin. intros [H _]%andb_true_iff.
  apply Z.eqb_eq in H. change (3 - 128 - 24) with (-149) in H.
  pose proof (digits2_pos_bounds m) as [Hl Hu]. split_and!; [|lia|intros He].
  - eapply Z.lt_le_trans; [exact Hu|]. apply Z.pow_le_mono_r; lia.
  - replace (Z.pos (digits2_pos m)) with 24 in Hl by lia. exact Hl.
Qed.

(** The order of two magnitudes is that of their exponents, then mantissas. *)
Lemma mag_lt_exponent s1 s2 m1 m2 e1 e2 : canonical (S754_finite s1 m1 e1) = true → canonical (S754_finite s2 m2 e2) = true →
  e1 < e2 → Z.pos m1 ≤ Z.pos m2 * 2 ^ (e2 - e1).
Proof.
  intros (H1 & Hm1 & _)%canonical_spec (_ & _ & H2)%canonical_spec He. specialize (H2 ltac:(lia)).
  assert (2 ^ 1 ≤ 2 ^ (e2 - e1)) by (apply Z.pow_le_mono_r; lia). nia.
Qed.

Lemma normalize_nonpos d e : d ≤ 0 → nonpos (binary_normalize 24 128 d e false).
Proof.
  intros Hd. destruct d as [|p|p]; cbn [binary_normalize]; [done|lia|]. unfold binary_round.
  destruct (shl_align _ _ _) as [mz ez]. pose proof (round_aux_sign true (Z.pos mz) ez loc_Exact ltac:(lia)) as H.
  destruct (binary_round_aux _ _ _ _ _ _) as [s|s| |s m e']; cbn in *; subst; done.
Qed.

Lemma f32_sub_nonpos (x y : f32) : canonical x = true → canonical y = true → is_finite y = true →
  SFleb x y = true → nonpos (f32_sub x y).
Proof.
  intros Hcx Hcy Hy Hle. unfold f32_sub, SFleb in *.
  destruct x as [sx|[]| |sx mx ex], y as [sy| | |sy my ey]; try done.
  - by destruct sx, sy.
  - by destruct sy.
  - by destruct sx.
  - cbn [SFsub]. apply normalize_nonpos.
    destruct (shl_align_spec mx ex (Z.min ex ey)) as [_ Ex]. destruct (shl_align_spec my ey (Z.min ex ey)) as [_ Ey].
    rewrite (Z.min_r ex (Z.min ex ey)) in Ex by lia. rewrite (Z.min_r ey (Z.min ex ey)) in Ey by lia.
    set (p1 := fst (shl_align mx ex _)) in *. set (p2 := fst (shl_align my ey _)) in *. clearbody p1 p2.
    unfold Zminus. destruct sx, sy; cbn [cond_Zopp]; try (cbn in Hle; done); try lia.
    all: rewrite Ex, Ey; cbn [SFcompare] in Hle; destruct (Z.compare_spec ex ey) as [Hc|Hc|Hc]; try done.
    all: change (PosDef.Pos.compare_cont Eq mx my) with (mx ?= my)%positive in Hle.
    1,3: rewrite Hc, Z.min_id, Z.sub_diag, !Z.mul_1_r; destruct (Pos.compare_spec mx my); try done; lia.
    + pose proof (mag_lt_exponent _ _ _ _ _ _ Hcy Hcx Hc). rewrite (Z.min_r ex ey), Z.sub_diag, Z.pow_0_r by lia. lia.
    + pose proof (mag_lt_exponent _ _ _ _ _ _ Hcx Hcy Hc). rewrite (Z.min_l ex ey), Z.sub_diag, Z.pow_0_r by lia. lia.
Qed.

(** The order of [f32], a NaN apart, is total: compare [rank]s. *)
Definition not_nan (x : f32) : bool := match x with S754_nan => false | _ => true end.

Definition rank (x : f32) : Z * Z * Z :=
  match x with
  | S754_infinity true => (-2, 0, 0)
  | S754_finite true m e => (-1, - e, Z.neg m)
  | S754_finite false m e => (1, e, Z.pos m)
  | S754_infinity false => (2, 0, 0)
  | _ => (0, 0, 0)
  end.
Definition rank_le (a b : Z * Z * Z) : Prop :=
  let '(a1, a2, a3) := a in
  let '(b1, b2, b3) := b in
  a1 < b1 ∨ (a1 = b1 ∧ (a2 < b2 ∨ (a2 = b2 ∧ a3 ≤ b3))).

Lemma SFleb_rank x y : not_nan x = true → not_nan y = true → SFleb x y = true ↔ rank_le (rank x) (rank y).
Proof.
  intros Hx Hy. unfold SFleb.
  destruct x as [sx|[]| |[] mx ex], y as [sy|[]| |[] my ey]; try done; cbn [rank rank_le SFcompare].
  all: try (split; [intros _; try (left; lia); right; lia|done]); try (split; [done|lia]).
  all: destruct (Z.compare_spec ex ey) as [Hc|Hc|Hc]; try (split; [intros _; right; split; [done|]; left; lia|done]);
    try (split; [done|intros [|[_ [|[? ?]]]]; lia]).
  all: change (PosDef.Pos.compare_cont Eq mx my) with (mx ?= my)%positive; destruct (Pos.compare_spec mx my); cbn [CompOpp].
  all: first [split; [intros _; right; split; [done|]; right; lia|done]|split; [done|intros [|[_ [|[? ?]]]]; lia]].
Qed.

Lemma SFleb_trans x y z : not_nan y = true → SFleb x y = true → SFleb y z = true → SFleb x z = true.
Proof.
  intros Hy Hxy Hyz. assert (Hx : not_nan x = true) by (unfold SFleb in Hxy; by destruct x). 
  assert (Hz : not_nan z = true) by (unfold SFleb in Hyz; destruct y as [|[]| |[]], z as [|[]| |[]]; done).
  apply SFleb_rank in Hxy; [|done..]. apply SFleb_rank in Hyz; [|done..]. apply SFleb_rank; [done..|].
  destruct (rank x) as [[a1 a2] a3], (rank y) as [[b1 b2] b3], (rank z) as [[c1 c2] c3]. cbn in *. lia.
Qed.

Lemma SFleb_total x y : not_nan x = true → not_nan y = true → SFleb x y = true ∨ SFleb y x = true.
Proof.
  intros Hx Hy. rewrite !SFleb_rank by done.
  destruct (rank x) as [[a1 a2] a3], (rank y) as [[b1 b2] b3]. cbn. lia.
Qed.

Lemma SFleb_refl x : not_nan x = true → SFleb x x = true.
Proof. intros Hx. by destruct (SFleb_total x x Hx Hx). Qed.

(** [f32::max]: a NaN operand is ignored. *)
Definition f32_max (a b : f32) : f32 :=
  if negb (not_nan a) then b else if negb (not_nan b) then a else if SFltb a b then b else a.

Lemma SFltb_leb x y : not_nan x = true → not_nan y = true → SFltb x y = negb (SFleb y x).
Proof.
  intros Hx Hy. unfold SFltb, SFleb. 
  destruct x as [sx|[]| |[] mx ex], y as [sy|[]| |[] my ey]; try done; cbn [SFcompare].
  all: rewrite (Z.compare_antisym ex ey); destruct (ex ?= ey); try done; cbn [CompOpp].
  all: change (PosDef.Pos.compare_cont Eq mx my) with (mx ?= my)%positive;
    change (PosDef.Pos.compare_cont Eq my mx) with (my ?= mx)%positive;
    rewrite (Pos.compare_antisym mx my); by destruct (mx ?= my)%positive.
Qed.

Lemma f32_max_spec a b : not_nan a = true →
  not_nan (f32_max a b) = true ∧ SFleb a (f32_max a b) = true ∧ (not_nan b = true → SFleb b (f32_max a b) = true) ∧
  (f32_max a b = a ∨ f32_max a b = b).
Proof.
  intros Ha. unfold f32_max. rewrite Ha. cbn [negb]. destruct (not_nan b) eqn:Hb; cbn [negb].
  2:{ split_and!; [done|by apply SFleb_refl|done|by left]. }
  destruct (SFltb a b) eqn:Hlt; rewrite SFltb_leb in Hlt by done.
  - apply negb_true_iff in Hlt. split_and!; [done| |intros _; by apply SFleb_refl|by right].
    destruct (SFleb_total a b Ha Hb); congruence.
  - apply negb_false_iff in Hlt. split_and!; [done|by apply SFleb_refl|done|by left].
Qed.

(** ** Results are canonical *)

Lemma digits_exact m k : 0 < k → 2 ^ (k - 1) ≤ m < 2 ^ k → Zdigits2 m = k.
Proof.
  intros Hk [Hl Hu]. assert (0 < 2 ^ (k - 1)) by (apply Z.pow_pos_nonneg; lia).
  destruct (Zdigits2_bounds m ltac:(lia)) as (H0 & H1 & H2). specialize (H2 k ltac:(lia) Hu).
  destruct (Z.eq_dec (Zdigits2 m) k) as [|Hne]; [done|].
  assert (2 ^ Zdigits2 m ≤ 2 ^ (k - 1)) by (apply Z.pow_le_mono_r; lia). lia.
Qed.

Lemma digits_at_least m k : 0 ≤ k → 2 ^ k ≤ m → k + 1 ≤ Zdigits2 m.
Proof.
  intros Hk Hm. assert (0 < 2 ^ k) by (apply Z.pow_pos_nonneg; lia).
  destruct (Zdigits2_bounds m ltac:(lia)) as (H0 & H1 & _).
  destruct (Z.le_gt_cases (k + 1) (Zdigits2 m)) as [|Hlt]; [done|].
  assert (2 ^ Zdigits2 m ≤ 2 ^ k) by (apply Z.pow_le_mono_r; lia). lia.
Qed.

Lemma canonical_intro s (m : positive) e :
  Z.max (Zdigits2 (Z.pos m) + e - 24) (-149) = e → e ≤ 104 → canonical (S754_finite s m e) = true.
Proof.
  intros Hm He. unfold canonical, valid_binary, bounded, canonical_mantissa, fexp, emin. change (3 - 128 - 24) with (-149).
  cbn [Zdigits2] in Hm. rewrite Hm, Z.eqb_refl. cbn [andb]. by apply Z.leb_le.
Qed.

(** Rounding a number aligned no higher than its digits ask for. *)
Lemma round_aux_canonical s m e l :
  0 ≤ m → e ≤ Z.max (Zdigits2 m + e - 24) (-149) → canonical (binary_round_aux 24 128 s m e l) = true.
Proof.
  intros Hm He. unfold binary_round_aux. pose proof (shr_fexp_24 m e l Hm) as H1.
  destruct (shr_fexp 24 128 m e l) as [r1 e1]. destruct H1 as (He1 & Hr1 & _).
  rewrite Z.max_r in He1 by done. destruct (Zdigits2_bounds m Hm) as (Hd0 & Hd & _).
  assert (Hk : 0 < 2 ^ (e1 - e)) by (apply Z.pow_pos_nonneg; lia).
  assert (Hm1 : 0 ≤ shr_m r1 < 2 ^ 24 ∧ (-149 < e1 → 2 ^ 23 ≤ shr_m r1)).
  { rewrite Hr1. split; [split|].
    - apply Z.div_pos; lia.
    - apply Z.div_lt_upper_bound; [done|]. eapply Z.lt_le_trans; [exact Hd|]. rewrite <-Z.pow_add_r by lia. apply Z.pow_le_mono_r; lia.
    - intros Hlt. apply Z.div_le_lower_bound; [done|]. rewrite <-Z.pow_add_r by lia.
      destruct m as [|p|p]; [cbn in He, He1; lia| |lia]. pose proof (digits2_pos_bounds p) as [Hp _]. cbn [Zdigits2] in *.
      eapply Z.le_trans; [|exact Hp]. apply Z.pow_le_mono_r; lia. }
  set (m2 := round_nearest_even _ _). pose proof (round_nearest_even_bound (shr_m r1) (loc_of_shr_record r1)) as Hne. fold m2 in Hne.
  pose proof (shr_fexp_24 m2 e1 loc_Exact ltac:(lia)) as H2. destruct (shr_fexp 24 128 m2 e1 loc_Exact) as [r2 e2].
  destruct H2 as (He2 & Hr2 & _).
  assert (Hfin : 0 ≤ shr_m r2 < 2 ^ 24 ∧ (-149 < e2 → 2 ^ 23 ≤ shr_m r2) ∧ -149 ≤ e2).
  { destruct (Z.eq_dec m2 (2 ^ 24)) as [E|E].
    - assert (Hd2 : Zdigits2 m2 = 25) by (by rewrite E). rewrite Hd2 in He2. assert (e2 = e1 + 1) as -> by lia.
      rewrite Hr2, E. replace (e1 + 1 - e1) with 1 by lia. change (2 ^ 24 / 2 ^ 1) with (2 ^ 23). lia.
    - destruct (Zdigits2_bounds m2 ltac:(lia)) as (_ & _ & Hb). specialize (Hb 24 ltac:(lia) ltac:(lia)).
      assert (e2 = e1) as -> by lia. rewrite Hr2, Z.sub_diag, Z.div_1_r. lia. }
  destruct Hfin as (Hr & Hn & H149). destruct (shr_m r2) as [|p|p]; [done| |lia].
  destruct (Z.leb_spec e2 (128 - 24)) as [Hle|]; [|done]. apply canonical_intro; [|lia].
  destruct (Z.eq_dec e2 (-149)) as [->|Hne2].
  - destruct (Zdigits2_bounds (Z.pos p) ltac:(lia)) as (_ & _ & Hb). specialize (Hb 24 ltac:(lia) ltac:(lia)). lia.
  - rewrite (digits_exact (Z.pos p) 24); [lia|lia|]. change (24 - 1) with 23. split; [apply Hn; lia|lia].
Qed.

Lemma normalize_canonical z e : canonical (binary_normalize 24 128 z e false) = true.
Proof.
  assert (Hr : ∀ s p, canonical (binary_round 24 128 s p e) = true).
  { intros s p. unfold binary_round, fexp, emin.
    set (f := Z.max (Z.pos (digits2_pos p) + e - 24) (3 - 128 - 24)).
    destruct (shl_align_spec p e f) as [Hez Hmz]. destruct (shl_align p e f) as [mz ez]. cbn [fst snd] in *.
    apply round_aux_canonical; [lia|]. change (3 - 128 - 24) with (-149) in f.
    pose proof (digits2_pos_bounds p) as [Hp _]. rewrite <-Hez in Hmz.
    enough (Z.pos (digits2_pos p) + (e - ez) ≤ Zdigits2 (Z.pos mz)) by lia.
    replace (Z.pos (digits2_pos p) + (e - ez)) with (Z.pos (digits2_pos p) - 1 + (e - ez) + 1) by lia. apply digits_at_least; [lia|].
    rewrite Hmz, Z.pow_add_r by lia. assert (0 < 2 ^ (e - ez)) by (apply Z.pow_pos_nonneg; lia). nia. }
  destruct z; cbn [binary_normalize]; [done|apply Hr..].
Qed.

Lemma f32_add_canonical x y : canonical x = true → canonical y = true → canonical (f32_add x y) = true.
Proof.
  intros Hx Hy. unfold f32_add. destruct x as [[]|[]| |], y as [[]|[]| |]; try done; cbn [SFadd]; apply normalize_canonical.
Qed.

Lemma f32_mul_canonical x y : canonical x = true → canonical y = true → canonical (f32_mul x y) = true.
Proof.
  intros Hx Hy. unfold f32_mul. destruct x as [sx|sx| |sx mx ex], y as [sy|sy| |sy my ey]; try done; cbn [SFmul].
  apply round_aux_canonical; [lia|]. apply canonical_spec in Hx as (_ & Hex & Hnx). apply canonical_spec in Hy as (_ & Hey & Hny).
  destruct (Z.eq_dec ex (-149)) as [->|Hx'], (Z.eq_dec ey (-149)) as [->|Hy']; [lia|..].
  all: enough (24 ≤ Zdigits2 (Z.pos (mx * my))) by lia.
  all: change 24 with (23 + 1) at 1; apply digits_at_least; [lia|]; rewrite Pos2Z.inj_mul.
  - specialize (Hny ltac:(lia)). nia.
  - specialize (Hnx ltac:(lia)). nia.
  - specialize (Hnx ltac:(lia)). nia.
Qed.

Lemma f32_of_bits_canonical b : canonical (f32_of_bits b) = true.
Proof.
  unfold f32_of_bits. set (s := Z.testbit b 31). set (e := Z.land (Z.shiftr b 23) 255). set (m := Z.land b (2 ^ 23 - 1)).
  assert (He : 0 ≤ e < 2 ^ 8) by (unfold e; change 255 with (Z.ones 8); rewrite Z.land_ones by lia; apply Z.mod_pos_bound; lia).
  assert (Hm : 0 ≤ m < 2 ^ 23) by (unfold m; change (2 ^ 23 - 1) with (Z.ones 23); rewrite Z.land_ones by lia; apply Z.mod_pos_bound; lia).
  clearbody e m. destruct (Z.eqb_spec e 255) as [|H255]; [by destruct (m =? 0)|]. destruct (Z.eqb_spec e 0) as [|H0].
  - destruct m as [|p|p]; [done| |done]. apply canonical_intro; [|lia].
    destruct (Zdigits2_bounds (Z.pos p) ltac:(lia)) as (_ & _ & Hb). specialize (Hb 24 ltac:(lia) ltac:(lia)). lia.
  - destruct (m + 2 ^ 23) as [|p|p] eqn:E; [done| |done]. apply canonical_intro; [|lia].
    rewrite (digits_exact (Z.pos p) 24); [lia|lia|]. rewrite <-E. lia.
Qed.

(** * Bounds on signed values

    [within x b]: the float [x] is finite and its absolute value at most the
    integer [b].  Sums, quotients, and integers scaled to the unit keep it. *)

(** The absolute value against an integer. *)
Definition within (x : f32) (b : Z) : Prop :=
  match x with
  | S754_zero _ => 0 ≤ b
  | S754_finite _ m e => mag_le (Z.pos m) e b
  | _ => False
  end.

Lemma within_finite x b : within x b → is_finite x = true.
Proof. by destruct x. Qed.

Lemma within_nonneg x b : within x b → 0 ≤ b.
Proof.
  destruct x as [s| | |s m e]; cbn; try done. unfold mag_le. intros.
  assert (0 < 2 ^ Z.max (- e) 0) by (apply Z.pow_pos_nonneg; lia). assert (0 < 2 ^ Z.max e 0) by (apply Z.pow_pos_nonneg; lia). nia.
Qed.

Lemma mag_le_weaken m e a b : mag_le m e a → a ≤ b → mag_le m e b.
Proof. unfold mag_le. intros. assert (0 < 2 ^ Z.max (- e) 0) by (apply Z.pow_pos_nonneg; lia). nia. Qed.

Lemma within_weaken x a b : within x a → a ≤ b → within x b.
Proof. destruct x as [s| | |s m e]; cbn; try done; [lia|]. apply mag_le_weaken. Qed.

Lemma fle_within x b : fle x b → within x b.
Proof. by destruct x as [s| | |[] m e]. Qed.

Lemma round_aux_opp m e l : binary_round_aux 24 128 true m e l = SFopp (binary_round_aux 24 128 false m e l).
Proof.
  unfold binary_round_aux. destruct (shr_fexp 24 128 m e l) as [r1 e1]. destruct (shr_fexp 24 128 _ e1 loc_Exact) as [r2 e2].
  destruct (shr_m r2); [done| |done]. by destruct (e2 <=? 128 - 24).
Qed.

Lemma within_round_aux s m e l b : within (binary_round_aux 24 128 false m e l) b → within (binary_round_aux 24 128 s m e l) b.
Proof. destruct s; [|done]. rewrite round_aux_opp. by destruct (binary_round_aux 24 128 false m e l). Qed.

Lemma binary_round_within s (m : positive) (e b : Z) : b < 2 ^ 24 → mag_le (Z.pos m) e b → within (binary_round 24 128 s m e) b.
Proof.
  intros Hb Hle. pose proof (binary_round_bounds m e 0 b (Z.le_refl 0) Hb) as H. unfold binary_round in *.
  destruct (shl_align m e _) as [mz ez]. apply within_round_aux, fle_within, H; [|done].
  unfold mag_ge. assert (0 < 2 ^ Z.max e 0) by (apply Z.pow_pos_nonneg; lia). lia.
Qed.

Lemma normalize_within z e s b : b < 2 ^ 24 → mag_le (Z.abs z) e b → within (binary_normalize 24 128 z e s) b.
Proof.
  intros Hb Hle. destruct z as [|p|p]; cbn [binary_normalize Z.abs] in *; [|by apply binary_round_within..].
  unfold mag_le in Hle. cbn. assert (0 < 2 ^ Z.max (- e) 0) by (apply Z.pow_pos_nonneg; lia). nia.
Qed.

Lemma f32_add_within x y a b : within x a → within y b → a + b < 2 ^ 24 → within (f32_add x y) (a + b).
Proof.
  intros Hx Hy Hab. pose proof (within_nonneg _ _ Hx). pose proof (within_nonneg _ _ Hy).
  destruct x as [sx| | |sx mx ex], y as [sy| | |sy my ey]; try done; unfold f32_add; cbn [SFadd].
  - destruct sx, sy; cbn [within] in *; cbn; lia.
  - by eapply within_weaken; [exact Hy|lia].
  - by eapply within_weaken; [exact Hx|lia].
  - cbn [within] in Hx, Hy. destruct (shl_align_spec mx ex (Z.min ex ey)) as [_ Ex]. destruct (shl_align_spec my ey (Z.min ex ey)) as [_ Ey].
    rewrite (Z.min_r ex (Z.min ex ey)) in Ex by lia. rewrite (Z.min_r ey (Z.min ex ey)) in Ey by lia.
    set (p1 := fst (shl_align mx ex _)) in *. set (p2 := fst (shl_align my ey _)) in *. clearbody p1 p2.
    apply normalize_within; [done|]. assert (Hk : ∃ k, k ≤ 0 ∧ k ≤ ex ∧ k ≤ ey ∧ k ≤ Z.min ex ey) by (exists (Z.min (Z.min ex ey) 0); lia).
    destruct Hk as (k & Hk0 & Hkx & Hky & Hk).
    assert (Hz : Z.abs (cond_Zopp sx (Z.pos p1) + cond_Zopp sy (Z.pos p2)) ≤ Z.pos p1 + Z.pos p2) by (destruct sx, sy; cbn [cond_Zopp]; lia).
    apply (mag_le_at k) in Hx, Hy; [|lia..]. rewrite (mag_le_at k) by lia.
    assert (Esx : 2 ^ (ex - k) = 2 ^ (ex - Z.min ex ey) * 2 ^ (Z.min ex ey - k)) by (rewrite <-Z.pow_add_r by lia; f_equal; lia).
    assert (Esy : 2 ^ (ey - k) = 2 ^ (ey - Z.min ex ey) * 2 ^ (Z.min ex ey - k)) by (rewrite <-Z.pow_add_r by lia; f_equal; lia).
    assert (0 < 2 ^ (Z.min ex ey - k)) by (apply Z.pow_pos_nonneg; lia). rewrite Esx, Esy in *. nia.
Qed.

(** [mx * 2 ^ ex] is at most [my * 2 ^ ey]. *)
Definition mag_cmp (mx ex my ey : Z) : Prop := mx * 2 ^ (ex - Z.min ex ey) ≤ my * 2 ^ (ey - Z.min ex ey).

Lemma mag_cmp_via k b mx ex my ey : mag_le mx (ex - k) b → mag_ge my (ey - k) b → mag_cmp mx ex my ey.
Proof.
  intros Hx Hy. unfold mag_cmp. set (j := Z.min (Z.min ex ey - k) 0).
  apply (mag_le_at j) in Hx; [|lia..]. apply (mag_ge_at j) in Hy; [|lia..].
  set (i := Z.min ex ey) in *.
  assert (E1 : 2 ^ (ex - k - j) = 2 ^ (ex - i) * 2 ^ (i - k - j)) by (rewrite <-Z.pow_add_r by lia; f_equal; lia).
  assert (E2 : 2 ^ (ey - k - j) = 2 ^ (ey - i) * 2 ^ (i - k - j)) by (rewrite <-Z.pow_add_r by lia; f_equal; lia).
  assert (0 < 2 ^ (i - k - j)) by (apply Z.pow_pos_nonneg; lia). rewrite E1, E2 in *. nia.
Qed.

Lemma mag_cmp_at j mx ex my ey : mag_cmp mx ex my ey → j ≤ ex → j ≤ ey → mx * 2 ^ (ex - j) ≤ my * 2 ^ (ey - j).
Proof.
  unfold mag_cmp. intros Hc Hx Hy. assert (Hi : ∃ i, i = Z.min ex ey ∧ j ≤ i ∧ i ≤ ex ∧ i ≤ ey) by (exists (Z.min ex ey); lia).
  destruct Hi as (i & Ei & Hji & Hix & Hiy). rewrite <-Ei in Hc.
  replace (ex - j) with (ex - i + (i - j)) by lia. replace (ey - j) with (ey - i + (i - j)) by lia. rewrite !Z.pow_add_r by lia.
  assert (0 < 2 ^ (i - j)) by (apply Z.pow_pos_nonneg; lia). nia.
Qed.

Lemma mag_cmp_digits mx ex my ey : 0 < mx → 0 < my → mag_cmp mx ex my ey → Zdigits2 mx + ex ≤ Zdigits2 my + ey.
Proof.
  intros Hx Hy Hc. destruct (Zdigits2_bounds mx ltac:(lia)) as (_ & _ & Hd1). destruct (Zdigits2_bounds my ltac:(lia)) as (Hd0 & Hd2 & _).
  set (dy := Zdigits2 my) in *. clearbody dy.
  assert (Hj : ∃ j, j ≤ ex ∧ j ≤ ey) by (exists (Z.min ex ey); lia). destruct Hj as (j & Hjx & Hjy).
  pose proof (mag_cmp_at j _ _ _ _ Hc Hjx Hjy) as Hle. clear Hc.
  assert (Hlt : mx * 2 ^ (ex - j) < 2 ^ (dy + (ey - j))).
  { rewrite Z.pow_add_r by lia. assert (0 < 2 ^ (ey - j)) by (apply Z.pow_pos_nonneg; lia). nia. }
  destruct (Z.le_gt_cases ex (dy + ey)) as [Hge|Hgt].
  - enough (Zdigits2 mx ≤ dy + ey - ex) by lia. apply Hd1; [lia|].
    replace (dy + (ey - j)) with (dy + ey - ex + (ex - j)) in Hlt by lia. rewrite Z.pow_add_r in Hlt by lia.
    assert (0 < 2 ^ (ex - j)) by (apply Z.pow_pos_nonneg; lia). nia.
  - assert (2 ^ (dy + (ey - j)) ≤ 2 ^ (ex - j)) by (apply Z.pow_le_mono_r; lia).
    assert (0 < 2 ^ (ex - j)) by (apply Z.pow_pos_nonneg; lia). nia.
Qed.

(** A quotient of magnitudes in order is at most one. *)
Lemma div_within sx mx ex sy my ey : mag_cmp (Z.pos mx) ex (Z.pos my) ey →
  within (f32_div (S754_finite sx mx ex) (S754_finite sy my ey)) 1.
Proof.
  intros Hc. pose proof (mag_cmp_digits (Z.pos mx) ex (Z.pos my) ey ltac:(lia) ltac:(lia) Hc) as Hd.
  unfold f32_div, SFdiv, SFdiv_core_binary. set (e' := Z.min (fexp 24 128 _) (ex - ey)). set (sft := ex - ey - e').
  assert (He' : e' ≤ 0) by (unfold e', fexp, emin; lia). assert (Hs : 0 ≤ sft) by (unfold sft, e'; lia).
  assert (Hm' : (match sft with 0 => Z.pos mx | Z.pos _ => Z.shiftl (Z.pos mx) sft | Z.neg _ => 0 end) = Z.pos mx * 2 ^ sft).
  { clearbody sft. destruct sft; [cbn; lia|by rewrite Z.shiftl_mul_pow2|lia]. }
  rewrite Hm'. pose proof (mag_cmp_at (ey + e') (Z.pos mx) ex (Z.pos my) ey Hc ltac:(unfold sft in Hs; lia) ltac:(lia)) as Hle.
  replace (ex - (ey + e')) with sft in Hle by (unfold sft; lia). replace (ey - (ey + e')) with (- e') in Hle by lia.
  pose proof (Z_div_mod (Z.pos mx * 2 ^ sft) (Z.pos my) ltac:(lia)) as Hdm.
  destruct (Z.div_eucl (Z.pos mx * 2 ^ sft) (Z.pos my)) as [q r]. destruct Hdm as [Hq Hr].
  assert (Hp : 0 < 2 ^ sft) by (apply Z.pow_pos_nonneg; lia). assert (Hp' : 0 < 2 ^ (- e')) by (apply Z.pow_pos_nonneg; lia).
  assert (Hq0 : 0 ≤ q) by nia. rewrite Hq in Hle. clearbody e' sft.
  apply within_round_aux, fle_within.
  apply (round_aux_bounds q e' (new_location (Z.pos my) r) 0 1); [lia|lia|lia|lia|split; [lia|nia]|].
  intros Hl%new_location_exact. rewrite Z.mul_1_l. nia.
Qed.

(** ** Integers *)

Lemma f32_of_int_scaled v k : 0 ≤ k ≤ 104 → Z.abs v ≤ 2 ^ k →
  match f32_of_int v with
  | S754_zero _ => True
  | S754_finite _ m e => mag_le (Z.pos m) (e - k) 1
  | _ => False
  end.
Proof.
  intros Hk Hv.
  assert (Hr : ∀ s (p : positive), Z.pos p ≤ 2 ^ k →
    match binary_round 24 128 s p 0 with S754_zero _ => True | S754_finite _ m e => mag_le (Z.pos m) (e - k) 1 | _ => False end).
  { intros s p Hp. unfold binary_round. pose proof (shl_align_spec p 0 (fexp 24 128 (Z.pos (digits2_pos p) + 0))) as [Ez Em].
    destruct (shl_align p 0 _) as [mz ez]. cbn [fst snd] in *. rewrite <-Ez in Em.
    assert (Hz : ez ≤ 0) by lia.
    assert (H : scaled_between k 0 1 (binary_round_aux 24 128 false (Z.pos mz) ez loc_Exact)).
    { apply round_aux_scaled; [lia|lia|lia|lia|lia| |done]. rewrite Em. replace (0 - ez) with (- ez) by lia.
      replace (k - ez) with (k + - ez) by lia. rewrite Z.pow_add_r by lia. assert (0 < 2 ^ (- ez)) by (apply Z.pow_pos_nonneg; lia). nia. }
    assert (Hs : binary_round_aux 24 128 s (Z.pos mz) ez loc_Exact =
      (if s then SFopp else id) (binary_round_aux 24 128 false (Z.pos mz) ez loc_Exact)) by (destruct s; [apply round_aux_opp|done]).
    rewrite Hs. destruct (binary_round_aux 24 128 false (Z.pos mz) ez loc_Exact) as [?| | |[] m e]; try done; [by destruct s|].
    destruct H as (He & _ & Hm). assert (mag_le (Z.pos m) (e - k) 1); [|by destruct s].
    apply mag_le_neg; [lia|]. by replace (- (e - k)) with (k - e) by lia. }
  unfold f32_of_int. destruct v as [|p|p]; cbn [binary_normalize]; [done|apply Hr; lia..].
Qed.

(** An integer of [k] bits over [2 ^ k]. *)
Lemma unit_scaled v k : 0 ≤ k ≤ 104 → Z.abs v ≤ 2 ^ k → f32_of_int (2 ^ k) = S754_finite false 8388608 (k - 23) →
  within (f32_div (f32_of_int v) (f32_of_int (2 ^ k))) 1.
Proof.
  intros Hk Hv ->. pose proof (f32_of_int_scaled v k Hk Hv) as H. destruct (f32_of_int v) as [s| | |s m e]; try done.
  apply div_within, (mag_cmp_via k 1); [done|]. replace (k - 23 - k) with (-23) by lia. by apply mag_ge_neg.
Qed.

(** ** Means *)

Lemma sum_within l a k : Forall (λ x, within x 1) l → within a k → k + Z.of_nat (List.length l) < 2 ^ 24 →
  within (foldl f32_add a l) (k + Z.of_nat (List.length l)).
Proof.
  intros Hl. revert a k. induction Hl as [|x l Hx Hl IH]; intros a k Ha Hb; cbn [foldl List.length] in *; [by rewrite Z.add_0_r|].
  replace (k + Z.of_nat (S (List.length l))) with (k + 1 + Z.of_nat (List.length l)) by lia. apply IH; [|lia].
  apply f32_add_within; [done|done|lia].
Qed.

Lemma of_nat_at_least n : (0 < n)%nat → Z.of_nat n < 2 ^ 24 → ∃ m e, f32_of_int (Z.of_nat n) = S754_finite false m e ∧ mag_ge (Z.pos m) e (Z.of_nat n).
Proof.
  intros Hn Hb. destruct (Z.of_nat n) as [|p|p] eqn:E; [lia| |lia]. unfold f32_of_int. cbn [binary_normalize].
  destruct (binary_round_bounds p 0 (Z.pos p) (Z.pos p)) as [_ H]; [lia|done|apply mag_ge_neg; cbn; lia|apply mag_le_neg; cbn; lia|].
  destruct (binary_round 24 128 false p 0) as [?| | |[] m e]; cbn [fge] in H; try done. by exists m, e.
Qed.

(** The mean of at most [n] numbers between -1 and 1, over [n]. *)
Lemma mean_within l n : Forall (λ x, within x 1) l → (0 < n)%nat → (List.length l ≤ n)%nat → Z.of_nat n < 2 ^ 24 →
  within (f32_div (foldl f32_add (S754_zero true) l) (f32_of_int (Z.of_nat n))) 1.
Proof.
  intros Hl Hn Hle Hb. destruct (of_nat_at_least n Hn Hb) as (m & e & -> & Hm).
  pose proof (sum_within l (S754_zero true) 0 Hl ltac:(cbn; lia) ltac:(lia)) as Hs.
  apply (within_weaken _ _ (Z.of_nat n)) in Hs; [|lia]. destruct (foldl f32_add (S754_zero true) l) as [s| | |s ms es]; try done.
  apply div_within, (mag_cmp_via 0 (Z.of_nat n)); by rewrite Z.sub_0_r.
Qed.

(** * The quotient of two small integers in binary32

    An integer below 2^24 is exact; the correctly rounded quotient of two of
    them stays between any two multiples of a power of two that enclose the
    exact one. *)

(** The mantissa and exponent of a positive integer. *)
Definition is_int (d : Z) (x : f32) : Prop :=
  match x with S754_finite false m e => e ≤ 0 ∧ Z.pos m = d * 2 ^ (- e) | _ => False end.

Lemma of_int_exact d : 0 < d < 2 ^ 24 → is_int d (f32_of_int d).
Proof.
  intros Hd. destruct d as [|p|p]; [lia| |lia]. unfold f32_of_int. cbn [binary_normalize]. unfold binary_round.
  pose proof (shl_align_spec p 0 (fexp 24 128 (Z.pos (digits2_pos p) + 0))) as [Ez Em].
  destruct (shl_align p 0 _) as [mz ez]. cbn [fst snd] in *. rewrite <-Ez in Em. assert (Hz : ez ≤ 0) by lia.
  assert (H : scaled_between 0 (Z.pos p) (Z.pos p) (binary_round_aux 24 128 false (Z.pos mz) ez loc_Exact)).
  { apply round_aux_scaled; [lia..| |done]. by rewrite Em. }
  destruct (binary_round_aux _ _ _ _ _ _) as [s| | |[] m e]; cbn [scaled_between is_int] in *; try done; [lia|].
  replace (0 - e) with (- e) in H by lia. lia.
Qed.

Lemma digits_shift d k : 0 < d → 0 ≤ k → Zdigits2 (d * 2 ^ k) = Zdigits2 d + k.
Proof.
  intros Hd Hk. destruct d as [|p|p]; [lia| |lia]. pose proof (digits2_pos_bounds p) as [Hl Hu]. cbn [Zdigits2].
  set (n := Z.pos (digits2_pos p)) in *. assert (0 < n) by lia. clearbody n.
  change (match Z.pos p * 2 ^ k with 0 => 0 | Z.pos q | Z.neg q => Z.pos (digits2_pos q) end) with (Zdigits2 (Z.pos p * 2 ^ k)).
  apply digits_exact; [lia|]. replace (n + k - 1) with (n - 1 + k) by lia. rewrite !Z.pow_add_r by lia.
  assert (0 < 2 ^ k) by (apply Z.pow_pos_nonneg; lia). nia.
Qed.

Lemma mant_digits d (m : positive) e : 0 < d → e ≤ 0 → Z.pos m = d * 2 ^ (- e) → Zdigits2 (Z.pos m) + e = Zdigits2 d.
Proof. intros Hd He ->. rewrite digits_shift by lia. lia. Qed.

(** The exponent the quotient is computed at. *)
Definition div_exp (d t : Z) : Z := Z.max (Zdigits2 d - Zdigits2 t - 24) (-149).

(** What the division computes: a truncated quotient at its exponent, and where
    the remainder stands. *)
Lemma div_core (mx my : positive) ex ey :
  ∃ e' q r, f32_div (S754_finite false mx ex) (S754_finite false my ey) = binary_round_aux 24 128 false q e' (new_location (Z.pos my) r) ∧
    e' = Z.min (Z.max (Zdigits2 (Z.pos mx) + ex - (Zdigits2 (Z.pos my) + ey) - 24) (-149)) (ex - ey) ∧ 0 ≤ ex - ey - e' ∧
    Z.pos mx * 2 ^ (ex - ey - e') = Z.pos my * q + r ∧ 0 ≤ r < Z.pos my ∧ 0 ≤ q.
Proof.
  unfold f32_div, SFdiv, SFdiv_core_binary. cbn [xorb]. set (D := Zdigits2 (Z.pos mx) + ex - (Zdigits2 (Z.pos my) + ey)).
  change (fexp 24 128 D) with (Z.max (D - 24) (-149)). set (e' := Z.min _ (ex - ey)). set (sft := ex - ey - e'). assert (Hs : 0 ≤ sft) by lia.
  assert (Hm' : (match sft with 0 => Z.pos mx | Z.pos _ => Z.shiftl (Z.pos mx) sft | Z.neg _ => 0 end) = Z.pos mx * 2 ^ sft).
  { clearbody sft. destruct sft; [lia|by rewrite Z.shiftl_mul_pow2|lia]. }
  rewrite Hm'. pose proof (Z_div_mod (Z.pos mx * 2 ^ sft) (Z.pos my) ltac:(lia)) as Hdm.
  destruct (Z.div_eucl (Z.pos mx * 2 ^ sft) (Z.pos my)) as [q r]. destruct Hdm as [Hq Hr].
  assert (0 < 2 ^ sft) by (apply Z.pow_pos_nonneg; lia). exists e', q, r. split_and!; [done|done|done|done|lia|lia|nia].
Qed.

Lemma f32_div_canonical (mx my : positive) ex ey :
  canonical (f32_div (S754_finite false mx ex) (S754_finite false my ey)) = true.
Proof.
  destruct (div_core mx my ex ey) as (e' & q & r & -> & He' & Hs & Hq & Hr & Hq0). apply round_aux_canonical; [done|].
  set (dx := Zdigits2 (Z.pos mx)) in *. set (dy := Zdigits2 (Z.pos my)) in *. set (D := dx + ex - (dy + ey)) in *.
  destruct (Z.le_gt_cases e' (-149)) as [|H149]; [lia|].
  assert (Hlow : 2 ^ (dx - 1) ≤ Z.pos mx) by apply digits2_pos_bounds.
  assert (Hup : Z.pos my < 2 ^ dy) by apply digits2_pos_bounds.
  assert (Hdx : 0 < dx) by (unfold dx; cbn; lia). assert (Hdy : 0 < dy) by (unfold dy; cbn; lia).
  assert (Hge : 2 ^ (D - e' - 1) ≤ q).
  { enough (2 ^ (D - e' - 1) < q + 1) by lia. apply (Z.mul_lt_mono_pos_l (Z.pos my)); [done|].
    assert (E : 2 ^ dy * 2 ^ (D - e' - 1) = 2 ^ (dx - 1) * 2 ^ (ex - ey - e')) by (rewrite <-!Z.pow_add_r by lia; f_equal; lia).
    assert (0 < 2 ^ (D - e' - 1)) by (apply Z.pow_pos_nonneg; lia). assert (0 < 2 ^ (ex - ey - e')) by (apply Z.pow_pos_nonneg; lia). nia. }
  pose proof (digits_at_least q (D - e' - 1) ltac:(lia) Hge). lia.
Qed.

Lemma div_scaled d t k a b : 0 < d < 2 ^ 24 → 0 < t < 2 ^ 24 → div_exp d t ≤ k → -149 ≤ k ≤ 0 → 0 ≤ a → b < 2 ^ 24 →
  a * t ≤ d * 2 ^ (- k) ≤ b * t →
  scaled_between k a b (f32_div (f32_of_int d) (f32_of_int t)) ∧ canonical (f32_div (f32_of_int d) (f32_of_int t)) = true.
Proof.
  intros Hd Ht He Hk Ha Hb Hab. pose proof (of_int_exact d Hd) as Hx. pose proof (of_int_exact t Ht) as Hy.
  destruct (f32_of_int d) as [?| | |[] mx ex]; try done. destruct (f32_of_int t) as [?| | |[] my ey]; try done.
  split; [|apply f32_div_canonical]. cbn [is_int] in *. destruct Hx as [Hex Hmx], Hy as [Hey Hmy].
  pose proof (mant_digits d mx ex ltac:(lia) Hex Hmx) as Dx. pose proof (mant_digits t my ey ltac:(lia) Hey Hmy) as Dy.
  destruct (div_core mx my ex ey) as (e' & q & r & -> & He' & Hs & Hq & Hr & Hq0). rewrite Dx, Dy in He'.
  fold (div_exp d t) in He'. assert (Hek : e' ≤ k) by lia.
  assert (Hq' : d * 2 ^ (- ey - e') = t * 2 ^ (- ey) * q + r).
  { rewrite Hmx, Hmy, <-Z.mul_assoc, <-Z.pow_add_r in Hq by lia. by replace (- ex + (ex - ey - e')) with (- ey - e') in Hq by lia. }
  rewrite Hmy in Hr. assert (Hp : 0 < 2 ^ (- ey)) by (apply Z.pow_pos_nonneg; lia). assert (Hp' : 0 < 2 ^ (k - e')) by (apply Z.pow_pos_nonneg; lia).
  assert (E : 2 ^ (- ey - e') = 2 ^ (- ey) * (2 ^ (- k) * 2 ^ (k - e'))) by (rewrite <-!Z.pow_add_r by lia; f_equal; lia).
  rewrite E in Hq'. set (P := 2 ^ (- ey)) in *. set (K := 2 ^ (- k)) in *. set (S := 2 ^ (k - e')) in *.
  assert (Hlow : a * t * (S * P) ≤ d * K * (S * P)) by (apply Z.mul_le_mono_nonneg_r; nia).
  assert (Hup : d * K * (S * P) ≤ b * t * (S * P)) by (apply Z.mul_le_mono_nonneg_r; nia).
  assert (HtP : 0 < t * P) by nia.
  assert (H1 : a * S < q + 1) by (apply (Z.mul_lt_mono_pos_l (t * P)); [done|]; nia).
  assert (H2 : q ≤ b * S) by (apply (Z.mul_le_mono_pos_l _ _ (t * P)); [done|]; nia).
  apply round_aux_scaled; [done|done|lia|done|done|unfold S in *; lia|].
  intros Hl%new_location_exact. fold S. apply (Z.mul_lt_mono_pos_l (t * P)); [done|]. nia.
Qed.

(** ** Comparison with a constant *)

(** A number at most, or above, [m * 2 ^ k]. *)
Lemma not_above k (m : positive) a x : scaled_between k a (Z.pos m) x → SFltb (S754_finite false m k) x = false.
Proof.
  intros Hx. destruct x as [s| | |[] mx ex]; try done. cbn [scaled_between] in Hx. destruct Hx as [He [_ Hm]].
  unfold SFltb. cbn [SFcompare]. destruct (Z.compare_spec k ex) as [-> |Hlt|Hgt]; [|lia|done].
  rewrite Z.sub_diag, Z.mul_1_r in Hm. change (Pos.compare_cont Eq m mx) with (m ?= mx)%positive.
  destruct (Pos.compare_spec m mx); [done|lia|done].
Qed.

Lemma above k (m : positive) k' a b x : canonical x = true → scaled_between k' a b x → 0 < a → k ≤ k' → -149 < k →
  2 ^ 23 ≤ Z.pos m < a * 2 ^ (k' - k) → SFltb (S754_finite false m k) x = true.
Proof.
  intros Hc Hx Ha Hk H149 Hm. destruct x as [s| | |[] mx ex]; try done; cbn [scaled_between] in Hx; [lia|].
  destruct Hx as [He [Hlo _]]. apply canonical_spec in Hc as (Hmx & _ & _).
  unfold SFltb. cbn [SFcompare]. destruct (Z.compare_spec k ex) as [E|Hlt|Hgt]; [|done|exfalso].
  - subst ex. change (Pos.compare_cont Eq m mx) with (m ?= mx)%positive. destruct (Pos.compare_spec m mx); [lia|done|lia].
  - assert (E : 2 ^ (k' - ex) = 2 ^ (k' - k) * 2 ^ (k - ex)) by (rewrite <-Z.pow_add_r by lia; f_equal; lia).
    assert (2 ^ 1 ≤ 2 ^ (k - ex)) by (apply Z.pow_le_mono_r; lia). nia.
Qed.
