(* ===== verification/RequestPayload.v ===== *)
(** * Request payloads ([src/modules/file_mgr/request_payload.rs])

    The training hyperparameters, the converter-rooted paths and the convert
    request, with their validators.  The JSON of the requests is [serde]'s;
    canonical hashing and the [serde_json::Value] carriers, which no daemon code
    calls, are left out. *)

From Stdlib Require Import SpecFloat.
From S2P Require Import Prelude AssetPath Common F32.

Local Open Scope Z_scope.

(** ** Training *)

Record TrainingCfg := mkTrainingCfg {
  tc_epochs : Z;
  tc_batch_size : Z;
  tc_learning_rate : f32;
  tc_seed : option Z;
  tc_validation_split : f32;
}.

Definition MIN_EPOCHS : Z := 1.
Definition MAX_EPOCHS : Z := 1000.
Definition MIN_BATCH_SIZE : Z := 1.
Definition MAX_BATCH_SIZE : Z := 4096.
Definition MAX_LEARNING_RATE : f32 := f32_one.
Definition MAX_CONVERT_SHARDS : nat := 64.

Inductive ValidationError : Type :=
  | EpochsOutOfRange (got min max : Z)
  | BatchSizeOutOfRange (got min max : Z)
  | LearningRateOutOfRange (got max : f32)
  | ValidationSplitOutOfRange (got : f32)
  | NoShards
  | TooManyShards (got max : nat).

Definition ValidationError_kind (e : ValidationError) : ErrorKind := UserInput.

Definition validate_training_cfg (cfg : TrainingCfg) : result ValidationError unit :=
  if negb ((MIN_EPOCHS <=? tc_epochs cfg) && (tc_epochs cfg <=? MAX_EPOCHS))
  then Err (EpochsOutOfRange (tc_epochs cfg) MIN_EPOCHS MAX_EPOCHS)
  else if negb ((MIN_BATCH_SIZE <=? tc_batch_size cfg) && (tc_batch_size cfg <=? MAX_BATCH_SIZE))
  then Err (BatchSizeOutOfRange (tc_batch_size cfg) MIN_BATCH_SIZE MAX_BATCH_SIZE)
  else if negb (is_finite (tc_learning_rate cfg)) || float_ge f32_zero (tc_learning_rate cfg) ||
          float_gt (tc_learning_rate cfg) MAX_LEARNING_RATE
  then Err (LearningRateOutOfRange (tc_learning_rate cfg) MAX_LEARNING_RATE)
  else if negb (float_ge (tc_validation_split cfg) f32_zero && float_gt f32_one (tc_validation_split cfg))
  then Err (ValidationSplitOutOfRange (tc_validation_split cfg))
  else Ok tt.

(** ** Converter paths *)

Inductive ConverterPathError : Type := ConverterPathEmpty | ConverterPathInvalid (e : AssetPathError).

Definition ConverterPathError_kind (e : ConverterPathError) : ErrorKind := UserInput.

Record ConverterPath := mkConverterPath { workspace_relative : AssetPath }.

(** [s.strip_prefix(p)]. *)
Fixpoint strip_prefix (p s : string) : option string :=
  match p, s with
  | EmptyString, _ => Some s
  | String a p, String b s => if Ascii.eqb a b then strip_prefix p s else None
  | _, EmptyString => None
  end.

Definition ConverterPath_parse (input : string) : result ConverterPathError ConverterPath :=
  let stripped := default input (strip_prefix "/" input) in
  if decide (stripped = ""%string) then Err ConverterPathEmpty
  else
    workspace_relative ← map_err ConverterPathInvalid (AssetPath_parse ("converters/" ++ stripped));
    Ok (mkConverterPath workspace_relative).

(** [None] is the panic of the [expect]. *)
Definition wire_form (p : ConverterPath) : option string :=
  strip_prefix "converters/" (asset_path_str (workspace_relative p)).

(** ** Convert requests *)

Inductive LabelsFormat : Type := Lines | TfjsMetadata.

Record TfjsConvertParams := mkTfjsConvertParams {
  tp_model_json_path : ConverterPath;
  tp_shards : list ConverterPath;
  tp_labels_path : ConverterPath;
  tp_labels_format : LabelsFormat;
}.

Inductive ConvertRequest : Type := Tfjs (params : TfjsConvertParams).

Definition validate_tfjs_params (params : TfjsConvertParams) : result ValidationError unit :=
  match tp_shards params with
  | [] => Err NoShards
  | shards =>
      if (MAX_CONVERT_SHARDS <? List.length shards)%nat
      then Err (TooManyShards (List.length shards) MAX_CONVERT_SHARDS)
      else Ok tt
  end.

Definition validate_convert_request (req : ConvertRequest) : result ValidationError unit :=
  match req with Tfjs params => validate_tfjs_params params end.

(** ** Theory *)

(** Accepted hyperparameters are in range; a NaN is in none. *)
Lemma validate_training_cfg_Ok cfg :
  validate_training_cfg cfg = Ok tt →
  1 ≤ tc_epochs cfg ≤ 1000 ∧ 1 ≤ tc_batch_size cfg ≤ 4096 ∧
  is_finite (tc_learning_rate cfg) = true ∧ float_gt (tc_learning_rate cfg) f32_zero = true ∧
  is_finite (tc_validation_split cfg) = true ∧ float_ge (tc_validation_split cfg) f32_zero = true ∧
  float_gt f32_one (tc_validation_split cfg) = true.
Proof.
  unfold validate_training_cfg, MIN_EPOCHS, MAX_EPOCHS, MIN_BATCH_SIZE, MAX_BATCH_SIZE.
  destruct (Z.leb_spec 1 (tc_epochs cfg)), (Z.leb_spec (tc_epochs cfg) 1000); try done; cbn [andb negb].
  destruct (Z.leb_spec 1 (tc_batch_size cfg)), (Z.leb_spec (tc_batch_size cfg) 4096); try done; cbn [andb negb].
  destruct (is_finite (tc_learning_rate cfg)) eqn:Hf; [|done]. destruct (float_ge f32_zero _) eqn:Hge; [done|].
  destruct (float_gt (tc_learning_rate cfg) _) eqn:Hgt; [done|]. cbn [orb negb].
  destruct (float_ge (tc_validation_split cfg) _) eqn:Hv; [|done]. destruct (float_gt f32_one _) eqn:Hv1; [|done]. intros _.
  split_and!; try done.
  - revert Hf Hge. unfold float_ge, float_gt. destruct (tc_learning_rate cfg) as [s|s| |s m e]; try done. by destruct s.
  - revert Hv Hv1. unfold float_ge, float_gt. destruct (tc_validation_split cfg) as [s|s| |s m e]; try done; by destruct s.
Qed.

Lemma strip_prefix_app p s : strip_prefix p (p ++ s) = Some s.
Proof. induction p as [|a p IH]; [done|]. change ((if Ascii.eqb a a then strip_prefix p (p ++ s) else None) = Some s). by rewrite Ascii.eqb_refl. Qed.


(** The accepted text after [converters/] starts with no slash. *)
Lemma converters_tail s p : AssetPath_parse ("converters/" ++ s) = Ok p → s ≠ ""%string ∧ strip_prefix "/" s = None.
Proof.
  intros H. apply AssetPath_parse_Ok in H as (_ & _ & _ & HF).
  change (bytes_of ("converters/" ++ s)) with (bytes_of "converters" ++ "/"%char :: bytes_of s) in HF.
  rewrite split_on_app_nosep in HF.
  2:{ intros b Hb. apply list_elem_of_In in Hb. repeat (destruct Hb as [<-|Hb]; [done|]). done. }
  apply Forall_inv_tail in HF. destruct s as [|a s].
  { apply Forall_inv in HF as [H _]. done. }
  split; [done|]. cbn [strip_prefix]. destruct (Ascii.eqb_spec "/" a) as [<-|]; [|done].
  cbn in HF. destruct (split_on "/" (list_ascii_of_string s)); by apply Forall_inv in HF as [H _].
Qed.

Lemma converter_path_forms s p : ConverterPath_parse s = Ok p →
  ∃ sub, wire_form p = Some sub ∧ asset_path_str (workspace_relative p) = ("converters/" ++ sub)%string ∧
    AssetPath_parse ("converters/" ++ sub) = Ok (workspace_relative p) ∧ strip_prefix "/" sub = None ∧ sub ≠ ""%string ∧
    (s = sub ∨ s = ("/" ++ sub)%string).
Proof.
  unfold ConverterPath_parse. set (sub := default s (strip_prefix "/" s)). case_decide as Hne; [done|].
  destruct (AssetPath_parse _) as [a|e] eqn:E; [|done]. cbn. intros [= <-]. exists sub.
  pose proof (converters_tail _ _ E) as [_ Ht]. pose proof E as E'. apply AssetPath_parse_Ok in E' as (-> & _).
  split_and!; [apply (strip_prefix_app "converters/")|done|done|done|done|].
  unfold sub. destruct s as [|c s]; [by left|]. cbn [strip_prefix]. destruct (Ascii.eqb_spec "/" c) as [<-|]; [by right|by left].
Qed.

(** Converter paths round-trip and stay below [converters/].  Writing an
    accepted path never panics; the written form is accepted again, with and
    without the legacy leading slash, as the same path; and the components it
    resolves to are [converters] followed by names with neither slashes nor
    leading dots. *)
Theorem converter_path_roundtrip (s : string) (p : ConverterPath) (Hp : ConverterPath_parse s = Ok p) :
  ∃ sub, wire_form p = Some sub ∧ ConverterPath_parse sub = Ok p ∧ ConverterPath_parse ("/" ++ sub) = Ok p ∧
    (s = sub ∨ s = ("/" ++ sub)%string) ∧
    ∃ cs, AssetPath_components (workspace_relative p) = bytes_of "converters" :: cs ∧ cs ≠ [] ∧ Forall component_safe cs ∧
      ∀ dir, resolve dir (AssetPath_components (workspace_relative p)) = Some (dir ++ bytes_of "converters" :: cs).
Proof.
  destruct (converter_path_forms s p Hp) as (sub & Hw & Hs & Ha & Ht & Hne & Hin). exists sub.
  assert (Hre : ConverterPath_parse sub = Ok p).
  { unfold ConverterPath_parse. rewrite Ht. cbn [default]. rewrite decide_False by done. rewrite Ha. cbn. by destruct p. }
  split_and!; [done|done| |done|].
  - unfold ConverterPath_parse in *. rewrite (strip_prefix_app "/" sub). rewrite Ht in Hre. exact Hre.
  - apply AssetPath_parse_Ok in Ha as (_ & _ & _ & HF). unfold AssetPath_components. rewrite Hs.
    change (bytes_of ("converters/" ++ sub)) with (bytes_of "converters" ++ "/"%char :: bytes_of sub) in HF |- *.
    rewrite split_on_app_nosep in HF |- *.
    2,3: intros b Hb; apply list_elem_of_In in Hb; repeat (destruct Hb as [<-|Hb]; [done|]); done.
    exists (split_on "/" (bytes_of sub)). split_and!; [done|apply split_on_ne|by apply Forall_inv_tail in HF|].
    intros dir. by apply resolve_safe.
Qed.

Lemma converter_path_roundtrip_witness :
  ConverterPath_parse "/tfjs/model.json" = Ok (mkConverterPath (mkAssetPath "converters/tfjs/model.json")) ∧
  ∃ sub, wire_form (mkConverterPath (mkAssetPath "converters/tfjs/model.json")) = Some sub ∧
    ConverterPath_parse sub = Ok (mkConverterPath (mkAssetPath "converters/tfjs/model.json")).
Proof.
  assert (E : ConverterPath_parse "/tfjs/model.json" = Ok (mkConverterPath (mkAssetPath "converters/tfjs/model.json"))) by (vm_compute; reflexivity).
  split; [exact E|]. destruct (converter_path_roundtrip _ _ E) as (sub & H1 & H2 & _). exists sub. split; [exact H1|exact H2].
Defined.

(** The other spellings are refused. *)
Example converter_paths_refused :
  ConverterPath_parse "" = Err ConverterPathEmpty ∧ ConverterPath_parse "/" = Err ConverterPathEmpty ∧
  ConverterPath_parse "//a" = Err (ConverterPathInvalid (EmptyComponent 1)) ∧
  ConverterPath_parse "../a" = Err (ConverterPathInvalid (LeadingDot 1)).
Proof. split_and!; vm_compute; reflexivity. Qed.
