(* ===== verification/InferenceKernel.v ===== *)
(** * The inference kernels

    [inference/kernel.rs]: the head's matrix product, the softmax, the top-k
    selection and the transposition to the accelerator's layout.  A caller's
    buffer is an argument and the written buffer the result; [None] is a panic.
    The sorts of the standard library leave the order of equal elements open
    ([UnstableSort]); [exp] is the platform's ([Libm]). *)

From Stdlib Require Import SpecFloat Sorted.
From S2P Require Import Prelude F32 F32Facts.

Local Open Scope nat_scope.

(** ** [head_forward] *)

(** [chunks_exact(n)]: the whole chunks; a chunk size of zero panics. *)
Fixpoint chunks (fuel n : nat) (l : list f32) : list (list f32) :=
  match fuel with
  | 0 => []
  | S fuel => if List.length l <? n then [] else take n l :: chunks fuel n (drop n l)
  end.
Definition chunks_exact (n : nat) (l : list f32) : option (list (list f32)) :=
  if n =? 0 then None else Some (chunks (List.length l) n l).

(** [for (out, &w) in logits.iter_mut().zip(row) { *out += f * w }]. *)
Fixpoint accumulate (f : f32) (logits row : list f32) : list f32 :=
  match logits, row with
  | out :: logits, w :: row => f32_add out (f32_mul f w) :: accumulate f logits row
  | _, _ => logits
  end.

Definition head_forward (features weight bias logits : list f32) : option (list f32) :=
  let n := List.length logits in
  if negb (List.length bias =? n) then None
  else if negb (List.length weight =? List.length features * n) then None
  else
    rows ← chunks_exact n weight;
    Some (foldl (λ logits '(f, row), accumulate f logits row) bias (zip features rows)).

(** ** [softmax_into] *)

Section Softmax.
Context `{L : Libm}.

Definition neg_infinity : f32 := S754_infinity true.

Definition softmax_into (logits probs : list f32) : option (list f32) :=
  if negb (List.length logits =? List.length probs) then None
  else
    let m := foldl f32_max neg_infinity logits in
    if negb (is_finite m) then
      let n := List.length probs in
      let p := if n =? 0 then f32_zero else f32_div f32_one (f32_of_int (Z.of_nat n)) in
      Some (replicate n p)
    else
      let probs := map (λ l, f32_exp (f32_sub l m)) logits in
      let sum := foldl f32_add f32_zero probs in
      let inv := f32_div f32_one sum in
      Some (map (λ p, f32_mul p inv) probs).
End Softmax.

(** ** [top_k_indices_into] *)

Class UnstableSort := {
  sort_unstable_by : (nat → nat → comparison) → list nat → list nat;
  select_nth_unstable_by : nat → (nat → nat → comparison) → list nat → list nat;
}.

(** A comparator that is a total order on the elements of [l]. *)
Record total_order_on (cmp : nat → nat → comparison) (l : list nat) : Prop := {
  to_anti : ∀ a b, a ∈ l → b ∈ l → cmp b a = CompOpp (cmp a b);
  to_trans : ∀ a b c, a ∈ l → b ∈ l → c ∈ l → cmp a b ≠ Gt → cmp b c ≠ Gt → cmp a c ≠ Gt;
}.

Class UnstableSortLaws `(US : UnstableSort) := {
  sort_perm : ∀ cmp l, sort_unstable_by cmp l ≡ₚ l;
  sort_sorted : ∀ cmp l, total_order_on cmp l → StronglySorted (λ a b, cmp a b ≠ Gt) (sort_unstable_by cmp l);
  select_perm : ∀ i cmp l, select_nth_unstable_by i cmp l ≡ₚ l;
  select_split : ∀ i cmp l a b, total_order_on cmp l → i < List.length l →
    a ∈ take (S i) (select_nth_unstable_by i cmp l) → b ∈ drop (S i) (select_nth_unstable_by i cmp l) → cmp a b ≠ Gt;
}.

Section TopK.
Context `{US : UnstableSort}.

(** The larger value first; a NaN compares equal. *)
Definition by_value (xs : list f32) (a b : nat) : comparison :=
  default Eq (SFcompare (nth b xs S754_nan) (nth a xs S754_nan)).

Definition top_k_indices_into (xs : list f32) (k : nat) : list nat :=
  let n := List.length xs in
  let k_capped := k `min` n in
  if k_capped =? 0 then []
  else
    let out := seq 0 n in
    let out := if k_capped <? n then take k_capped (select_nth_unstable_by (k_capped - 1) (by_value xs) out) else out in
    sort_unstable_by (by_value xs) out.
End TopK.

(** ** [transpose_frame_major_to_bin_major] *)

(** [out[i] = v]; past the end is a panic. *)
Definition write_at (out : list f32) (i : nat) (v : f32) : option (list f32) :=
  if i <? List.length out then Some (<[i := v]> out) else None.

Fixpoint transpose_row (n_frames f b : nat) (row : list f32) (out : list f32) : option (list f32) :=
  match row with
  | [] => Some out
  | v :: row => out ← write_at out (b * n_frames + f) v; transpose_row n_frames f (b + 1) row out
  end.

Fixpoint transpose_rows (n_frames f : nat) (spec : list (list f32)) (out : list f32) : option (list f32) :=
  match spec with
  | [] => Some out
  | row :: spec => out ← transpose_row n_frames f 0 row out; transpose_rows n_frames (f + 1) spec out
  end.

Definition transpose_frame_major_to_bin_major (spec : list (list f32)) (out : list f32) : option (list f32) :=
  transpose_rows (List.length spec) 0 spec out.

(** * What the inference kernels compute

    [head_forward] is the affine map, summed in the order of the features;
    [softmax_into] answers numbers between 0 and 1, or NaN in every place when a
    logit is NaN; [top_k_indices_into] answers the places of the largest values. *)

(** ** The matrix product *)

(** The logit of class [c]: the bias, then each feature times its weight, added
    in order. *)
Definition logit (features weight : list f32) (n : nat) (bias : f32) (c : nat) : f32 :=
  foldl (λ acc i, f32_add acc (f32_mul (nth i features S754_nan) (nth (i * n + c) weight S754_nan)))
    bias (seq 0 (List.length features)).

Lemma logit_cons f features weight n b c : n ≤ List.length weight → c < n →
  logit (f :: features) weight n b c =
    logit features (drop n weight) n (f32_add b (f32_mul f (nth c weight S754_nan))) c.
Proof.
  intros Hn Hc. unfold logit. cbn [List.length seq foldl nth Nat.mul Nat.add].
  rewrite <-seq_shift. generalize (f32_add b (f32_mul f (nth c weight S754_nan))).
  induction (seq 0 (List.length features)) as [|i l IH]; intros a; [done|]. cbn [map foldl nth]. rewrite IH.
  f_equal. f_equal. f_equal. replace (S i * n + c) with (n + (i * n + c)) by lia.
  rewrite <-(take_drop n weight) at 1. rewrite app_nth2; rewrite length_take; [f_equal; lia|lia].
Qed.

Lemma accumulate_spec f logits row : List.length logits ≤ List.length row →
  accumulate f logits row =
    map (λ c, f32_add (nth c logits S754_nan) (f32_mul f (nth c row S754_nan))) (seq 0 (List.length logits)).
Proof.
  revert row. induction logits as [|o logits IH]; intros [|w row] Hl; cbn in Hl; try done; try lia.
  cbn [accumulate List.length seq map nth]. f_equal. rewrite IH by lia. rewrite <-seq_shift, map_map. done.
Qed.

Lemma length_accumulate f logits row : List.length (accumulate f logits row) = List.length logits.
Proof. revert row. induction logits as [|o logits IH]; intros [|w row]; cbn; [done..|]. by rewrite IH. Qed.

Lemma head_rows n features weight fuel acc : 0 < n → List.length acc = n → List.length weight = List.length features * n →
  List.length weight ≤ fuel →
  foldl (λ logits '(f, row), accumulate f logits row) acc (zip features (chunks fuel n weight)) =
    map (λ c, logit features weight n (nth c acc S754_nan) c) (seq 0 n).
Proof.
  intros Hn. revert weight fuel acc. induction features as [|f features IH]; intros weight fuel acc Hacc Hw Hf.
  - cbn [zip zip_with foldl]. rewrite <-Hacc. unfold logit. cbn [List.length seq foldl]. clear.
    induction acc as [|x acc IH]; [done|]. cbn [List.length seq map nth]. f_equal. rewrite <-seq_shift, map_map. exact IH.
  - cbn [List.length] in Hw. destruct fuel as [|fuel]; [lia|]. cbn [chunks].
    destruct (Nat.ltb_spec (List.length weight) n) as [|_]; [lia|]. cbn [zip zip_with foldl].
    rewrite IH; [|by rewrite length_accumulate|rewrite length_drop; lia|rewrite length_drop; lia].
    apply map_ext_in. intros c Hc%in_seq. rewrite logit_cons by lia. f_equal.
    rewrite accumulate_spec by (rewrite length_take; lia). rewrite Hacc.
    rewrite (nth_indep _ S754_nan (f32_add (nth 0 acc S754_nan) (f32_mul f (nth 0 (take n weight) S754_nan)))) by (rewrite length_map, length_seq; lia).
    rewrite (map_nth (λ c, f32_add (nth c acc S754_nan) (f32_mul f (nth c (take n weight) S754_nan))) _ 0), seq_nth by lia. cbn [Nat.add].
    f_equal. f_equal. rewrite <-(take_drop n weight) at 2. rewrite app_nth1; [done|rewrite length_take; lia].
Qed.

Lemma head_forward_exact features weight bias logits :
  head_forward features weight bias logits =
    let n := List.length logits in
    if (List.length bias =? n) && (List.length weight =? List.length features * n) && negb (n =? 0)
    then Some (map (λ c, logit features weight n (nth c bias S754_nan) c) (seq 0 n)) else None.
Proof.
  cbv zeta. unfold head_forward. destruct (Nat.eqb_spec (List.length bias) (List.length logits)) as [Hb|]; cbn [negb andb]; [|done].
  destruct (Nat.eqb_spec (List.length weight) (List.length features * List.length logits)) as [Hw|]; cbn [negb andb]; [|done].
  unfold chunks_exact. destruct (Nat.eqb_spec (List.length logits) 0) as [|Hn]; [done|]. cbn [negb mbind option_bind].
  f_equal. apply head_rows; lia.
Qed.

(** ** The softmax *)

(** What the platform's [exp] is relied on for: NaN is passed on, [exp(0)] is
    one, and on a number that is not positive it stays between 0 and 1. *)
Class ExpLaws `(L : Libm) := {
  exp_nan : f32_exp S754_nan = S754_nan;
  exp_zero : ∀ s, f32_exp (S754_zero s) = f32_one;
  exp_nonpos : ∀ x, nonpos x → fle (f32_exp x) 1 ∧ fge (f32_exp x) 0;
}.

(** A number between 0 and 1. *)
Definition probability (p : f32) : Prop := fge p 0 ∧ fle p 1.

Lemma max_spec l a : not_nan a = true →
  let m := foldl f32_max a l in
  not_nan m = true ∧ SFleb a m = true ∧ (∀ x, x ∈ l → not_nan x = true → SFleb x m = true) ∧ (m = a ∨ m ∈ l).
Proof.
  cbv zeta. revert a. induction l as [|x l IH]; intros a Ha; cbn [foldl].
  { split_and!; [done|by apply SFleb_refl|by intros x ?%elem_of_nil|by left]. }
  destruct (f32_max_spec a x Ha) as (Hm & Ham & Hxm & Hor). destruct (IH _ Hm) as (H1 & H2 & H3 & H4).
  split_and!; [done|by eapply SFleb_trans; [exact Hm|..]| |].
  - intros y [->|Hy]%elem_of_cons Hny; [|by apply H3]. eapply SFleb_trans; [exact Hm|by apply Hxm|done].
  - destruct H4 as [->|H4]; [|right; by right]. destruct Hor as [-> | ->]; [by left|right; left].
Qed.

Lemma add_nan_l l : foldl f32_add S754_nan l = S754_nan.
Proof. by induction l. Qed.

Lemma add_nan l a : S754_nan ∈ l → foldl f32_add a l = S754_nan.
Proof.
  revert a. induction l as [|x l IH]; intros a Hx; [by apply elem_of_nil in Hx|]. cbn [foldl].
  apply elem_of_cons in Hx as [<-|Hx]; [|by apply IH].
  replace (f32_add a S754_nan) with S754_nan by by destruct a. apply add_nan_l.
Qed.

Lemma fle_weaken x a b : fle x a → (a ≤ b)%Z → fle x b.
Proof.
  destruct x as [s| | |[] m e]; cbn; try done; [lia|]. unfold mag_le. intros.
  assert (0 < 2 ^ Z.max (- e) 0)%Z by (apply Z.pow_pos_nonneg; lia). nia.
Qed.
Lemma fge_weaken x a b : fge x b → (a ≤ b)%Z → fge x a.
Proof.
  destruct x as [s| | |[] m e]; cbn; try done; [lia|]. unfold mag_ge. intros.
  assert (0 < 2 ^ Z.max (- e) 0)%Z by (apply Z.pow_pos_nonneg; lia). nia.
Qed.

(** A sum of numbers between 0 and 1, at least one if one of them is one. *)
Lemma sum_bounds l a k : Forall probability l → fge a 0 → fle a k → (k + Z.of_nat (List.length l) < 2 ^ 24)%Z →
  fge (foldl f32_add a l) 0 ∧ fle (foldl f32_add a l) (k + Z.of_nat (List.length l)) ∧
  (fge a 1 ∨ f32_one ∈ l → fge (foldl f32_add a l) 1).
Proof.
  revert a k. induction l as [|x l IH]; intros a k Hl Ha Hk Hb; cbn [foldl List.length].
  { rewrite Z.add_0_r. split_and!; [done..|]. by intros [|?%elem_of_nil]. }
  inversion Hl as [|x0 l0 [Hx0 Hx1] Hl']; subst. cbn [List.length] in Hb.
  destruct (f32_add_bounds a x 0 k 0 1 Ha Hk Hx0 Hx1) as [Hle Hge]; [lia..|].
  destruct (IH (f32_add a x) (k + 1)%Z Hl' Hge Hle) as (H1 & H2 & H3); [lia|].
  split_and!; [done|by replace (k + Z.of_nat (S (List.length l)))%Z with (k + 1 + Z.of_nat (List.length l))%Z by lia|].
  intros Hor. apply H3. assert (H1k : fge a 1 ∨ x = f32_one ∨ f32_one ∈ l) by (rewrite elem_of_cons in Hor; naive_solver).
  destruct H1k as [Ha1|[->|Hin]]; [|..|by right]; left.
  - apply (f32_add_bounds a x 1 k 0 1); [done..|lia|lia|lia].
  - apply (f32_add_bounds a f32_one 0 k 1 1); [done|done|vm_compute; congruence|vm_compute; congruence|lia..].
Qed.

Lemma count_bounds n : 0 < n → (Z.of_nat n < 2 ^ 24)%Z → fge (f32_of_int (Z.of_nat n)) 1.
Proof.
  intros Hn Hb. destruct (Z.of_nat n) as [|p|p] eqn:E; [lia| |lia]. unfold f32_of_int. cbn [binary_normalize].
  apply (binary_round_bounds p 0 1 (Z.pos p)); [lia|done|apply mag_ge_neg; cbn; lia|apply mag_le_neg; cbn; lia].
Qed.

Lemma sub_self x : is_finite x = true → ∃ s, f32_sub x x = S754_zero s.
Proof.
  destruct x as [s| | |s m e]; try done; intros _.
  - unfold f32_sub. destruct s; cbn; by eexists.
  - unfold f32_sub. cbn [SFsub]. rewrite Z.sub_diag. cbn. by eexists.
Qed.

Lemma nan_in (l : list f32) : S754_nan ∈ l ∨ S754_nan ∉ l.
Proof.
  destruct (existsb (λ x, negb (not_nan x)) l) eqn:E; [left|right].
  - apply existsb_exists in E as (x & Hx & Hn). apply list_elem_of_In in Hx. by destruct x.
  - intros Hx%list_elem_of_In. apply not_true_iff_false in E. apply E, existsb_exists. by exists S754_nan.
Qed.

(** A NaN among the logits reaches every place; without one every place holds
    a number between 0 and 1. *)
Lemma softmax_outcome `{L : Libm} `{!ExpLaws L} (logits probs : list f32) :
  logits ≠ [] → List.length probs = List.length logits → (Z.of_nat (List.length logits) < 2 ^ 24)%Z →
  Forall (λ x, canonical x = true) logits →
  ∃ ps, softmax_into logits probs = Some ps ∧ List.length ps = List.length logits ∧
    (ps = replicate (List.length logits) S754_nan ∨ Forall probability ps) ∧
    (S754_nan ∉ logits → Forall probability ps).
Proof.
  intros Hne Hlen Hn Hc. unfold softmax_into. rewrite Hlen, Nat.eqb_refl. cbn [negb].
  set (m := foldl f32_max neg_infinity logits). assert (Hpos : 0 < List.length logits) by (destruct logits; [done|cbn; lia]).
  destruct (is_finite m) eqn:Hm; cbn [negb].
  2:{ destruct (Nat.eqb_spec (List.length logits) 0) as [|_]; [lia|].
      destruct (f32_recip_bounds _ (count_bounds _ Hpos Hn)) as [Hle Hge].
      eexists; split_and!; [done|by rewrite length_replicate|right|intros _]; by apply Forall_replicate. }
  destruct (max_spec logits neg_infinity eq_refl) as (Hnan & _ & Hmax & Hin). fold m in Hnan, Hmax, Hin.
  destruct Hin as [Hin|Hin]; [by rewrite Hin in Hm|].
  set (es := map (λ l, f32_exp (f32_sub l m)) logits).
  assert (Hel : List.length es = List.length logits) by apply length_map.
  eexists. split; [done|]. rewrite length_map. split; [exact Hel|].
  assert (Hgood : S754_nan ∉ logits → Forall probability (map (λ p, f32_mul p (f32_div f32_one (foldl f32_add f32_zero es))) es)).
  { intros Hno. assert (He : Forall probability es).
    { apply List.Forall_forall. intros e (x & <- & Hx)%in_map_iff. apply list_elem_of_In in Hx. rewrite List.Forall_forall in Hc.
      assert (Hxn : not_nan x = true) by (destruct x; [done|done|by destruct (Hno Hx)|done]). destruct (exp_nonpos (f32_sub x m)) as [H1 H2]; [|by split].
      apply f32_sub_nonpos; [by apply Hc, list_elem_of_In|by apply Hc, list_elem_of_In|done|by apply Hmax]. }
    assert (Hone : f32_one ∈ es).
    { apply list_elem_of_In, in_map_iff. exists m. split; [|by apply list_elem_of_In].
      destruct (sub_self m Hm) as [s ->]. apply exp_zero. }
    destruct (sum_bounds es f32_zero 0 He) as (_ & _ & Hs); [by cbn|by cbn|unfold es; rewrite length_map; lia|].
    destruct (f32_recip_bounds _ (Hs (or_intror Hone))) as [Hi _].
    apply List.Forall_forall. intros p (e & <- & Hep)%in_map_iff. rewrite List.Forall_forall in He. destruct (He e Hep) as [_ He1].
    destruct (f32_mul_bounds e _ He1 Hi). by split. }
  split; [|exact Hgood]. destruct (nan_in logits) as [Hnin|Hno]; [left|right; by apply Hgood].
  assert (Hes : foldl f32_add f32_zero es = S754_nan).
  { apply add_nan, list_elem_of_In, in_map_iff. exists S754_nan. split; [|by apply list_elem_of_In]. cbn. apply exp_nan. }
  rewrite Hes. unfold es. rewrite map_map. generalize logits. induction logits0 as [|x l IH]; [done|].
  cbn [map List.length replicate]. f_equal; [|exact IH]. cbn. by destruct (f32_exp (f32_sub x m)).
Qed.

(** ** The selection *)

Definition value (xs : list f32) (i : nat) : f32 := nth i xs S754_nan.

(** All values are numbers, or none is. *)
Definition uniform_nan (xs : list f32) : Prop :=
  Forall (λ x, not_nan x = true) xs ∨ Forall (λ x, x = S754_nan) xs.

Lemma by_value_number xs a b : not_nan (value xs a) = true → not_nan (value xs b) = true →
  by_value xs a b ≠ Gt ↔ SFleb (value xs b) (value xs a) = true.
Proof.
  intros Ha Hb. unfold by_value, SFleb. fold (value xs a) (value xs b).
  destruct (SFcompare (value xs b) (value xs a)) as [[]|] eqn:E; cbn; try (split; [done|by intros; congruence]); try naive_solver.
  exfalso. by destruct (value xs a) as [|[]| |[]], (value xs b) as [|[]| |[]].
Qed.

Lemma SFcompare_anti x y : not_nan x = true → not_nan y = true →
  default Eq (SFcompare y x) = CompOpp (default Eq (SFcompare x y)).
Proof.
  intros Hx Hy. destruct x as [sx|[]| |[] mx ex], y as [sy|[]| |[] my ey]; try done; cbn [SFcompare default].
  all: rewrite (Z.compare_antisym ex ey); destruct (ex ?= ey)%Z; try done; cbn [CompOpp default].
  all: change (PosDef.Pos.compare_cont Eq mx my) with (mx ?= my)%positive;
    change (PosDef.Pos.compare_cont Eq my mx) with (my ?= mx)%positive;
    rewrite (Pos.compare_antisym mx my); by destruct (mx ?= my)%positive.
Qed.

Lemma by_value_order xs l : uniform_nan xs → (∀ i, i ∈ l → i < List.length xs) → total_order_on (by_value xs) l.
Proof.
  intros Hu Hl. assert (Hv : ∀ i, i ∈ l → value xs i ∈ xs).
  { intros i Hi. apply list_elem_of_In, nth_In. by apply Hl. }
  destruct Hu as [Hu|Hu]; rewrite List.Forall_forall in Hu.
  - assert (Hn : ∀ i, i ∈ l → not_nan (value xs i) = true) by (intros i Hi; by apply Hu, list_elem_of_In, Hv).
    split.
    + intros a b Ha Hb. by apply SFcompare_anti; apply Hn.
    + intros a b c Ha Hb Hc. rewrite !by_value_number by by apply Hn. intros H1 H2. by eapply SFleb_trans; [|exact H2|exact H1]; apply Hn.
  - assert (Hn : ∀ i, i ∈ l → value xs i = S754_nan) by (intros i Hi; by apply Hu, list_elem_of_In, Hv).
    assert (He : ∀ a b, a ∈ l → b ∈ l → by_value xs a b = Eq).
    { intros a b Ha Hb. unfold by_value. fold (value xs a) (value xs b). by rewrite (Hn a), (Hn b). }
    split; intros; rewrite !He by done; done.
Qed.

Lemma sorted_ordered {A : Type} (R : A → A → Prop) l i j x y :
  StronglySorted R l → l !! i = Some x → l !! j = Some y → i < j → R x y.
Proof.
  intros Hs. revert i j. induction Hs as [|z l Hs IH Hz]; intros i j Hi Hj Hij; [done|].
  destruct j as [|j]; [lia|]. destruct i as [|i]; cbn in Hi, Hj; [|eapply IH; [done..|lia]].
  injection Hi as ->. rewrite List.Forall_forall in Hz. apply Hz, list_elem_of_In. by eapply list_elem_of_lookup_2.
Qed.

Record top_k_of (xs : list f32) (k : nat) (out : list nat) : Prop := {
  tk_length : List.length out = k `min` List.length xs;
  tk_nodup : NoDup out;
  tk_range : ∀ i, i ∈ out → i < List.length xs;
  tk_sorted : ∀ i j a b, out !! i = Some a → out !! j = Some b → i < j → by_value xs a b ≠ Gt;
  tk_best : ∀ a b, a ∈ out → b < List.length xs → b ∉ out → by_value xs a b ≠ Gt;
}.

Lemma top_k_indices_spec `{US : UnstableSort} `{!UnstableSortLaws US} (xs : list f32) (k : nat) :
  uniform_nan xs → top_k_of xs k (top_k_indices_into xs k).
Proof.
  intros Hu. unfold top_k_indices_into. set (n := List.length xs). set (kc := k `min` n).
  destruct (Nat.eqb_spec kc 0) as [E|E].
  { split; cbn; [lia|by apply NoDup_nil_2|by intros i ?%elem_of_nil|done|by intros a b ?%elem_of_nil]. }
  assert (Hseq : ∀ i, i ∈ seq 0 n → i < n) by (intros i Hi%list_elem_of_In%in_seq; lia).
  assert (Hord : total_order_on (by_value xs) (seq 0 n)) by (by apply by_value_order).
  set (sel := select_nth_unstable_by (kc - 1) (by_value xs) (seq 0 n)).
  set (out := if kc <? n then take kc sel else seq 0 n).
  assert (Hsel : sel ≡ₚ seq 0 n) by apply select_perm.
  assert (Hout : ∃ rest, out ++ rest ≡ₚ seq 0 n ∧ List.length out = kc ∧ ∀ a b, a ∈ out → b ∈ rest → by_value xs a b ≠ Gt).
  { unfold out. destruct (Nat.ltb_spec kc n) as [Hlt|Hge].
    - exists (drop kc sel). rewrite take_drop. split_and!; [done| |].
      + rewrite length_take, (Permutation_length Hsel), length_seq. lia.
      + intros a b Ha Hb. apply (select_split (kc - 1) (by_value xs) (seq 0 n) a b Hord); [rewrite length_seq; lia|..];
          replace (S (kc - 1)) with kc by lia; done.
    - exists []. rewrite app_nil_r. split_and!; [done|rewrite length_seq; lia|by intros a b _ ?%elem_of_nil]. }
  destruct Hout as (rest & Hp & Hlen & Hbest).
  assert (Hnd : NoDup (out ++ rest)) by (rewrite Hp; apply NoDup_ListNoDup, seq_NoDup).
  assert (Hsub : ∀ i, i ∈ out → i ∈ seq 0 n) by (intros i Hi; rewrite <-Hp; apply elem_of_app; by left).
  pose proof (sort_perm (by_value xs) out) as Hs.
  assert (Hordo : total_order_on (by_value xs) out) by (apply by_value_order; [done|]; intros i Hi; by apply Hseq, Hsub).
  pose proof (sort_sorted (by_value xs) out Hordo) as Hsorted. split.
  - by rewrite (Permutation_length Hs).
  - rewrite Hs. by apply list.NoDup_app in Hnd as [Hnd _].
  - intros i Hi. rewrite Hs in Hi. by apply Hseq, Hsub.
  - intros i j a b Hi Hj Hij. by eapply (sorted_ordered (λ a b, by_value xs a b ≠ Gt)).
  - intros a b Ha Hb Hno. rewrite Hs in Ha, Hno. apply Hbest; [done|].
    assert (Hin : b ∈ out ++ rest) by (rewrite Hp; apply list_elem_of_In, in_seq; lia).
    apply elem_of_app in Hin. tauto.
Qed.

Lemma logit_canonical features weight n b c :
  canonical b = true → Forall (λ x, canonical x = true) features → Forall (λ x, canonical x = true) weight →
  canonical (logit features weight n b c) = true.
Proof.
  intros Hb Hf Hw. unfold logit. revert b Hb. generalize (seq 0 (List.length features)) as l.
  assert (Hnth : ∀ (l : list f32) j, Forall (λ x, canonical x = true) l → canonical (nth j l S754_nan) = true).
  { intros l j Hl. destruct (nth_in_or_default j l S754_nan) as [Hin| ->]; [|done]. rewrite List.Forall_forall in Hl. by apply Hl. }
  induction l as [|i l IH]; intros b Hb; [done|]. cbn [foldl]. apply IH, f32_add_canonical; [done|].
  apply f32_mul_canonical; by apply Hnth.
Qed.

(** C35: The head's arithmetic answers for every well-shaped head, whatever the
    platform's [exp] does within its laws: the logits are the affine map summed
    in order, the probabilities numbers between 0 and 1 (or all NaN, only when a
    logit is), and the chosen classes those of the largest probabilities, the
    largest first. *)
Theorem kernels_answer `{L : Libm} `{!ExpLaws L} `{US : UnstableSort} `{!UnstableSortLaws US}
    (features weight bias : list f32) (n k : nat) :
  (0 < Z.of_nat n < 2 ^ 24)%Z → List.length bias = n → List.length weight = List.length features * n →
  Forall (λ x, canonical x = true) (features ++ weight ++ bias) →
  let logits := map (λ c, logit features weight n (nth c bias S754_nan) c) (seq 0 n) in
  head_forward features weight bias (replicate n f32_zero) = Some logits ∧
  ∃ probs, softmax_into logits (replicate n f32_zero) = Some probs ∧ List.length probs = n ∧
    (probs = replicate n S754_nan ∨ Forall probability probs) ∧
    (S754_nan ∉ logits → Forall probability probs) ∧
    top_k_of probs k (top_k_indices_into probs k).
Proof.
  intros Hn Hb Hw [Hf [Hcw Hcb]%list.Forall_app]%list.Forall_app logits.
  assert (Hll : List.length logits = n) by (unfold logits; by rewrite length_map, length_seq). split.
  { rewrite head_forward_exact. cbv zeta. rewrite length_replicate, Hb, Hw, !Nat.eqb_refl. destruct (Nat.eqb_spec n 0) as [|_]; [lia|reflexivity]. }
  destruct (softmax_outcome logits (replicate n f32_zero)) as (probs & Hs & Hlp & Hp & Hgood).
  { destruct logits; [cbn in Hll; lia|done]. } { by rewrite length_replicate. } { rewrite Hll. lia. }
  { apply List.Forall_forall. intros x (c & <- & _)%in_map_iff. apply logit_canonical; [|done..].
    destruct (nth_in_or_default c bias S754_nan) as [Hin| ->]; [|done]. rewrite List.Forall_forall in Hcb. by apply Hcb. }
  rewrite Hll in Hlp, Hp. exists probs. split_and!; try done. apply top_k_indices_spec.
  destruct Hp as [-> | Hp]; [right; by apply Forall_replicate|left]. eapply list.Forall_impl; [exact Hp|]. intros p [H _]. by destruct p.
Qed.

(** ** A platform and a sort to run examples on *)

(** [exp] as the step at zero. *)
Definition step_exp (x : f32) : f32 :=
  match x with
  | S754_nan => S754_nan
  | S754_zero _ => f32_one
  | S754_finite true _ _ | S754_infinity true => f32_zero
  | _ => S754_infinity false
  end.
Definition libm_step : Libm := {| f32_exp := step_exp; f32_ln := λ x, x; f32_powf := λ b _, b; f64_sin := λ x, x |}.

#[export] Instance libm_step_laws : ExpLaws libm_step.
Proof. split; [done|done|]. intros x Hx. destruct x as [s|[]| |[] m e]; cbn in Hx |- *; try done; try (split; vm_compute; congruence). Qed.

Fixpoint insert_by (cmp : nat → nat → comparison) (x : nat) (l : list nat) : list nat :=
  match l with
  | [] => [x]
  | y :: l' => match cmp x y with Gt => y :: insert_by cmp x l' | _ => x :: l end
  end.
Definition sort_by (cmp : nat → nat → comparison) (l : list nat) : list nat := foldr (insert_by cmp) [] l.

Definition insertion_sort : UnstableSort := {|
  sort_unstable_by := sort_by;
  select_nth_unstable_by := λ _, sort_by;
|}.

Lemma insert_by_perm cmp x l : insert_by cmp x l ≡ₚ x :: l.
Proof.
  induction l as [|y l IH]; [done|]. cbn [insert_by]. destruct (cmp x y); [done..|]. rewrite IH. apply Permutation_swap.
Qed.

Lemma sort_by_perm cmp l : sort_by cmp l ≡ₚ l.
Proof. induction l as [|x l IH]; [done|]. cbn. by rewrite insert_by_perm, IH. Qed.

Lemma insert_by_sorted cmp d x l : total_order_on cmp d → x ∈ d → (∀ y, y ∈ l → y ∈ d) →
  StronglySorted (λ a b, cmp a b ≠ Gt) l → StronglySorted (λ a b, cmp a b ≠ Gt) (insert_by cmp x l).
Proof.
  intros [Ha Ht] Hx Hl Hs. induction Hs as [|y l Hs IH Hy]; [by repeat constructor|]. cbn [insert_by].
  assert (Hyd : y ∈ d) by (apply Hl; left). assert (Hld : ∀ z, z ∈ l → z ∈ d) by (intros z Hz; apply Hl; by right).
  rewrite List.Forall_forall in Hy. destruct (cmp x y) eqn:E.
  1-2: constructor; [by constructor; [|apply List.Forall_forall]|]; constructor; [congruence|];
    apply List.Forall_forall; intros z Hz; apply (Ht x y z); [done|done|by apply Hld, list_elem_of_In|congruence|by apply Hy].
  constructor; [by apply IH|]. apply List.Forall_forall. intros z Hz%list_elem_of_In. rewrite insert_by_perm in Hz.
  apply elem_of_cons in Hz as [->|Hz]; [by rewrite (Ha x y Hx Hyd), E|by apply Hy, list_elem_of_In].
Qed.

Lemma sort_by_sorted cmp d l : total_order_on cmp d → (∀ y, y ∈ l → y ∈ d) → StronglySorted (λ a b, cmp a b ≠ Gt) (sort_by cmp l).
Proof.
  intros Ht Hl. induction l as [|x l IH]; [constructor|]. apply (insert_by_sorted cmp d x (sort_by cmp l)); [done|apply Hl; left| |].
  - intros y Hy. rewrite (sort_by_perm cmp l) in Hy. apply Hl. by right.
  - apply IH. intros y Hy. apply Hl. by right.
Qed.

Lemma sorted_split {A : Type} (R : A → A → Prop) l1 l2 a b : StronglySorted R (l1 ++ l2) → a ∈ l1 → b ∈ l2 → R a b.
Proof.
  induction l1 as [|x l1 IH]; intros Hs Ha Hb; [by apply elem_of_nil in Ha|]. inversion Hs as [|? ? Hs' Hx]; subst.
  apply elem_of_cons in Ha as [->|Ha]; [|by apply IH]. rewrite List.Forall_forall in Hx. apply Hx, list_elem_of_In, elem_of_app. by right.
Qed.

#[export] Instance insertion_sort_laws : UnstableSortLaws insertion_sort.
Proof.
  split; cbn.
  - apply sort_by_perm.
  - intros cmp l Ht. by apply (sort_by_sorted cmp l).
  - intros _. apply sort_by_perm.
  - intros i cmp l a b Ht _ Ha Hb. apply (sorted_split (λ a b, cmp a b ≠ Gt) (take (S i) (sort_by cmp l)) (drop (S i) (sort_by cmp l))); [|done|done].
    rewrite take_drop. by apply (sort_by_sorted cmp l).
Qed.

(** ** The two comments on NaN *)

(** The largest finite number. *)
Definition f32_max_finite : f32 := f32_of_bits 2139095039.

(** Finite features and finite weights can give a NaN logit: two products
    overflow with opposite signs. *)
Example finite_inputs_nan_logit :
  Forall (λ x, is_finite x = true) [f32_max_finite; f32_max_finite; SFopp f32_max_finite; f32_zero] ∧
  head_forward [f32_max_finite; f32_max_finite] [f32_max_finite; f32_zero; SFopp f32_max_finite; f32_zero] [f32_zero; f32_zero]
    [f32_zero; f32_zero] = Some [S754_nan; f32_zero].
Proof. split; [repeat constructor|vm_compute; reflexivity]. Qed.

(** A NaN logit does not give the uniform distribution: it makes every
    probability NaN. *)
Example nan_logit_not_uniform :
  let L := libm_step in softmax_into [S754_nan; f32_zero] [f32_zero; f32_zero] = Some [S754_nan; S754_nan].
Proof. vm_compute. reflexivity. Qed.

(** Three classes: the second has the largest logit. *)
Lemma kernels_answer_witness :
  let L := libm_step in let US := insertion_sort in
  let features := [f32_one; f32_of_int 2] in
  let weight := map f32_of_int [1; 2; 0; 1; 3; 0]%Z in
  let bias := map f32_of_int [0; 0; 1]%Z in
  head_forward features weight bias (replicate 3 f32_zero) = Some (map f32_of_int [3; 8; 1]%Z) ∧
  ∃ probs, softmax_into (map f32_of_int [3; 8; 1]%Z) (replicate 3 f32_zero) = Some probs ∧ Forall probability probs ∧
    top_k_of probs 2 (top_k_indices_into probs 2).
Proof.
  intros L US features weight bias.
  destruct (kernels_answer features weight bias 3 2) as [H (probs & H1 & _ & _ & H2 & H3)]; [done|done|done|by repeat constructor|].
  assert (E : map (λ c, logit features weight 3 (nth c bias S754_nan) c) (seq 0 3) = map f32_of_int [3; 8; 1]%Z) by (vm_compute; reflexivity).
  rewrite E in *. split; [exact H|]. exists probs. split_and!; [exact H1| |exact H3]. apply H2.
  intros Hin. apply list_elem_of_In in Hin. vm_compute in Hin. destruct Hin as [Hin|[Hin|[Hin|[]]]]; discriminate Hin.
Defined.
