(* ===== verification/Preproc.v ===== *)
(** * The spectrogram

    [preproc.rs]: 43 overlapping windows of a 44032-sample waveform, the log
    magnitude of the first 232 bins of their Fourier transform, and the
    normalisation of the plane.  The transform ([realfft]) is third-party
    ([RealFft]), [ln] is the platform's; the window's coefficients are a file the
    build includes, read by [load_bundled_window].  [None] is a panic. *)

From Stdlib Require Import SpecFloat.
From S2P Require Import Prelude F32.

Local Open Scope nat_scope.

(** ** Dimensions ([common/dims.rs]) *)

Definition NFrames : nat := 43.
Definition NBins : nat := 232.
Definition HopSamples : nat := 1024.
Definition WaveformLen : nat := Z.to_nat 44032.
Definition FRAME_LEN : nat := 2048.
Definition FRONT_PAD : nat := 1024.

(** The compile-time assertion. *)
Definition FRAME_BOUNDS_INVARIANT : bool := (((NFrames - 1) * HopSamples - FRONT_PAD + FRAME_LEN) <=? WaveformLen).

Example frame_bounds : FRAME_BOUNDS_INVARIANT = true.
Proof. vm_compute. reflexivity. Qed.

Class RealFft := { r2c : list f32 → list (f32 * f32) }.
Class RealFftLaws `(F : RealFft) := {
  r2c_length : ∀ l, List.length l = FRAME_LEN → List.length (r2c l) = FRAME_LEN / 2 + 1;
}.

(** ** The window *)

(** [f32::from_le_bytes] of each whole group of four bytes. *)
Fixpoint load_floats (bytes : list Z) : list f32 :=
  match bytes with
  | a :: b :: c :: d :: bytes => f32_of_bits (a + 256 * (b + 256 * (c + 256 * d)))%Z :: load_floats bytes
  | _ => []
  end.

(** [w[i] = ..] in an array of [FRAME_LEN] zeros. *)
Definition load_bundled_window (bytes : list Z) : list f32 :=
  let w := load_floats bytes in w ++ replicate (FRAME_LEN - List.length w) f32_zero.

(** ** The plane *)

(** [&l[a..b]]. *)
Definition slice {A : Type} (l : list A) (a b : nat) : option (list A) :=
  if (a <=? b) && (b <=? List.length l) then Some (take (b - a) (drop a l)) else None.

Section Preproc.
Context `{L : Libm} `{F : RealFft}.
Variable window : list f32.

(** Frame [t], windowed. *)
Definition frame_at (pcm : list f32) (t : nat) : option (list f32) :=
  let start := t * HopSamples in
  if start <? FRONT_PAD then
    let zeros := FRONT_PAD - start in
    let count := FRAME_LEN - zeros in
    pcm_head ← slice pcm 0 count;
    win_tail ← slice window zeros (List.length window);
    Some (replicate zeros f32_zero ++ zip_with f32_mul pcm_head win_tail)
  else
    let s := start - FRONT_PAD in
    pcm_slice ← slice pcm s (s + FRAME_LEN);
    Some (zip_with f32_mul pcm_slice window).

Definition half : f32 := f32_div f32_one (f32_of_int 2).

Definition norm_sqr (z : f32 * f32) : f32 := f32_add (f32_mul (fst z) (fst z)) (f32_mul (snd z) (snd z)).

Definition log_row (frame : list f32) : option (list f32) :=
  spectrum ← slice (r2c frame) 0 NBins;
  Some (map (λ s, f32_mul half (f32_ln (norm_sqr s))) spectrum).

Definition row_at (pcm : list f32) (t : nat) : option (list f32) :=
  frame ← frame_at pcm t;
  log_row frame.

(** The z-normalisation of the whole plane. *)
Definition mean_of (plane : list (list f32)) : f32 :=
  f32_div (foldl f32_add f32_zero (concat plane)) (f32_of_int (Z.of_nat (NFrames * NBins))).
Definition std_of (plane : list (list f32)) (mean : f32) : f32 :=
  let sq := foldl (λ sq v, let d := f32_sub v mean in f32_add sq (f32_mul d d)) f32_zero (concat plane) in
  f32_sqrt (f32_div sq (f32_of_int (Z.of_nat (NFrames * NBins)))).
Definition z_normalize (plane : list (list f32)) : list (list f32) :=
  let mean := mean_of plane in
  let std := std_of plane mean in
  map (map (λ v, f32_div (f32_sub v mean) std)) plane.

Definition spectrogram_into (pcm : list f32) : option (list (list f32)) :=
  plane ← mapM (row_at pcm) (seq 0 NFrames);
  Some (z_normalize plane).
End Preproc.

(** ** The frames are those of the padded signal *)

Definition nonneg_finite (x : f32) : Prop :=
  match x with S754_zero false | S754_finite false _ _ => True | _ => False end.

(** The reference: the signal behind [FRONT_PAD] zeros, cut at
    every hop and multiplied by the window. *)
Definition padded (pcm : list f32) : list f32 := replicate FRONT_PAD f32_zero ++ pcm.
Definition frame_ref (window pcm : list f32) (t : nat) : list f32 :=
  zip_with f32_mul (take FRAME_LEN (drop (t * HopSamples) (padded pcm))) window.

Lemma slice_ok {A : Type} (l : list A) a b : a ≤ b → b ≤ List.length l → slice l a b = Some (take (b - a) (drop a l)).
Proof.
  intros Ha Hb. unfold slice. destruct (Nat.leb_spec a b); [|lia]. destruct (Nat.leb_spec b (List.length l)); [done|lia].
Qed.

Lemma zero_windowed w n : List.length w = n → Forall nonneg_finite w → zip_with f32_mul (replicate n f32_zero) w = replicate n f32_zero.
Proof.
  intros <-. induction 1 as [|x w Hx Hw IH]; [done|]. cbn [List.length replicate zip_with]. f_equal; [|exact IH].
  by destruct x as [[]| | |[]].
Qed.

Lemma frame_at_ref window pcm t :
  List.length window = FRAME_LEN → Forall nonneg_finite window → List.length pcm = WaveformLen → t < NFrames →
  frame_at window pcm t = Some (frame_ref window pcm t) ∧ List.length (frame_ref window pcm t) = FRAME_LEN.
Proof.
  intros Hw Hnn Hp Ht. unfold frame_at, frame_ref, padded, FRAME_LEN, NFrames, HopSamples, FRONT_PAD, WaveformLen in *.
  assert (Hlr : List.length (replicate 1024 f32_zero ++ pcm) = 1024 + Z.to_nat 44032) by by rewrite length_app, length_replicate, Hp.
  split.
  2:{ rewrite length_zip_with, length_take, length_drop, Hlr, Hw. lia. }
  destruct (Nat.ltb_spec (t * 1024) 1024) as [H0|H1].
  - assert (t = 0) as -> by lia. rewrite Nat.mul_0_l, drop_0. replace (1024 - 0) with 1024 by lia. replace (2048 - 1024) with 1024 by lia.
    rewrite (slice_ok pcm 0 1024), drop_0, Nat.sub_0_r by lia. cbn [mbind option_bind]. rewrite slice_ok by lia. cbn [mbind option_bind]. f_equal.
    rewrite Hw, (take_ge (drop 1024 window)) by (rewrite length_drop; lia).
    rewrite take_app, length_replicate, (take_ge (replicate _ _)) by (rewrite length_replicate; lia).
    replace (2048 - 1024) with 1024 by lia. rewrite <-(take_drop 1024 window) at 2.
    assert (Hlw : List.length (take 1024 window) = 1024) by (rewrite length_take; lia).
    rewrite zip_with_app by (rewrite length_replicate; lia). f_equal. symmetry. apply zero_windowed; [done|by apply Forall_take].
  - rewrite slice_ok by lia. cbn [mbind option_bind]. f_equal. replace (t * 1024 - 1024 + 2048 - (t * 1024 - 1024)) with 2048 by lia.
    rewrite drop_app_ge by (rewrite length_replicate; lia). by rewrite length_replicate.
Qed.

Lemma mapM_some {A B : Type} (f : A → option B) (g : A → B) l : (∀ x, x ∈ l → f x = Some (g x)) → mapM f l = Some (map g l).
Proof.
  induction l as [|x l IH]; intros H; [done|]. cbn. rewrite (H x) by left. cbn. rewrite IH; [done|]. intros y Hy. apply H. by right.
Qed.

Section Reference.
Context `{L : Libm} `{F : RealFft} `{!RealFftLaws F}.
Variable window : list f32.
Hypothesis window_length : List.length window = FRAME_LEN.
Hypothesis window_nonneg : Forall nonneg_finite window.

Definition log_magnitudes (frame : list f32) : list f32 :=
  map (λ s, f32_mul half (f32_ln (norm_sqr s))) (take NBins (r2c frame)).
Definition plane_ref (pcm : list f32) : list (list f32) :=
  map (λ t, log_magnitudes (frame_ref window pcm t)) (seq 0 NFrames).

(** A waveform of the fixed length never makes it panic, and the plane is the
    normalised log magnitudes of the padded signal's frames. *)
Lemma spectrogram_reference pcm : List.length pcm = WaveformLen →
  spectrogram_into window pcm = Some (z_normalize (plane_ref pcm)).
Proof.
  intros Hp. unfold spectrogram_into. erewrite mapM_some; [done|]. intros t [_ Ht]%list_elem_of_In%in_seq. unfold row_at.
  destruct (frame_at_ref window pcm t) as [E Hl]; [done..|lia|]. rewrite E. cbn [mbind option_bind]. unfold log_row.
  rewrite slice_ok; [done|lia|]. rewrite r2c_length by done. unfold FRAME_LEN, NBins. cbn. lia.
Qed.

Lemma plane_dims pcm : List.length pcm = WaveformLen →
  List.length (z_normalize (plane_ref pcm)) = NFrames ∧ Forall (λ row, List.length row = NBins) (z_normalize (plane_ref pcm)).
Proof.
  intros Hp. unfold z_normalize, plane_ref. rewrite !length_map, length_seq. split; [done|].
  apply List.Forall_forall. intros row (r & <- & Hr)%in_map_iff. apply in_map_iff in Hr as (t & <- & [_ Ht]%in_seq).
  destruct (frame_at_ref window pcm t) as [_ Hl]; [done..|lia|]. unfold log_magnitudes.
  rewrite !length_map, length_take, r2c_length by done. unfold FRAME_LEN, NBins. cbn. lia.
Qed.
End Reference.

(** ** A silent bin *)

(** One zero magnitude makes the whole plane NaN. *)
Lemma sum_poisoned l a : a = S754_infinity true ∨ a = S754_nan ∨ S754_infinity true ∈ l →
  foldl f32_add a l = S754_infinity true ∨ foldl f32_add a l = S754_nan.
Proof.
  revert a. induction l as [|x l IH]; intros a H; cbn [foldl].
  { destruct H as [-> | [-> | H]]; [by left|by right|by apply elem_of_nil in H]. }
  apply IH. destruct H as [-> | [-> | [<-|H]%elem_of_cons]].
  - destruct x as [?|[]| |]; cbn; auto.
  - right; by left.
  - destruct a as [?|[]| |]; cbn; auto.
  - right; by right.
Qed.

Lemma square_sum_nan mean l a : a = S754_nan ∨ Exists (λ v, f32_sub v mean = S754_nan) l →
  foldl (λ sq v, let d := f32_sub v mean in f32_add sq (f32_mul d d)) a l = S754_nan.
Proof.
  revert a. induction l as [|x l IH]; intros a H; cbn [foldl].
  { destruct H as [-> | H]; [done|by inversion H]. }
  apply IH. destruct H as [-> | H]; [by left|]. inversion H as [? ? Hx|? ? Hx]; subst; [left|by right].
  rewrite Hx. by destruct a.
Qed.

Lemma silent_bin_poisons (plane : list (list f32)) :
  S754_infinity true ∈ concat plane → Forall (Forall (λ v, v = S754_nan)) (z_normalize plane).
Proof.
  intros Hin. unfold z_normalize. set (mean := mean_of plane).
  assert (Hm : mean = S754_infinity true ∨ mean = S754_nan).
  { unfold mean, mean_of. destruct (sum_poisoned (concat plane) f32_zero) as [-> | ->]; [by right; right|left|right]; by vm_compute. }
  assert (Hs : std_of plane mean = S754_nan).
  { unfold std_of. rewrite square_sum_nan; [done|]. right. apply List.Exists_exists. exists (S754_infinity true).
    split; [by apply list_elem_of_In|]. destruct Hm as [-> | ->]; done. }
  rewrite Hs. apply List.Forall_forall. intros row (r & <- & _)%in_map_iff.
  apply List.Forall_forall. intros v (x & <- & _)%in_map_iff. by destruct (f32_sub x mean).
Qed.


(** ** A transform to run examples on *)

(** The first two bins hold 1 and 2, the others nothing. *)
Definition pair_fft : RealFft := {|
  r2c := λ _, (f32_one, f32_zero) :: (f32_of_int 2, f32_zero) :: replicate (FRAME_LEN / 2 - 1) (f32_zero, f32_zero);
|}.
#[export] Instance pair_fft_laws : RealFftLaws pair_fft.
Proof. split. intros l _. cbn [r2c pair_fft List.length]. by rewrite length_replicate. Qed.

Section Silence.
#[local] Instance libm_silence : Libm :=
  {| f32_exp := λ x, x; f32_ln := λ x, match x with S754_zero _ => S754_infinity true | _ => f32_zero end;
     f32_powf := λ b _, b; f64_sin := λ x, x |}.
#[local] Existing Instance pair_fft.

End Silence.
