(* ===== verification/Resample.v ===== *)
(** * The streaming resampler ([src/modules/dsp/resample.rs])

    [Streaming] feeds a resampler that takes whole chunks with input that comes
    in any lengths.  The [rubato] crate is a parameter ([Rubato]) with what its
    documentation promises of a fixed-input resampler ([RubatoLaws]). *)

From S2P Require Import Prelude F32.

Open Scope Z_scope.

(** ** The [rubato] crate *)

Class Rubato := {
  SincResampler : Type;
  ResampleError : Type;
  (** [Async::new_sinc(ratio, 2.0, &params, 1024, 1, FixedAsync::Input)] *)
  new_sinc : f64 → option SincResampler;
  input_frames_next : SincResampler → nat;
  output_frames_max : SincResampler → nat;
  (** on an input and a room for the output: the state after and the output *)
  process_into_buffer : SincResampler → list f32 → nat → result ResampleError (SincResampler * list f32);
  sinc_reset : SincResampler → SincResampler;
}.

(** [sinc_resampler]'s ratio. *)
Definition sinc_ratio (from_sr to_sr : Z) : f64 := f64_div (f64_of_int to_sr) (f64_of_int from_sr).

Class RubatoLaws `(R : Rubato) := {
  sinc_ok : SincResampler → Prop;
  (** any ratio of two positive rates constructs, with the chunk it was given *)
  new_sinc_ok from_sr to_sr : 0 < from_sr ≤ u32_max → 0 < to_sr ≤ u32_max →
    ∃ r, new_sinc (sinc_ratio from_sr to_sr) = Some r ∧ sinc_ok r ∧ input_frames_next r = 1024%nat;
  (** a full chunk with room for the most it may answer is processed, and with
      no ratio changes both sizes are constant *)
  process_ok r input room : sinc_ok r → List.length input = input_frames_next r → (output_frames_max r ≤ room)%nat →
    ∃ r' out, process_into_buffer r input room = Ok (r', out) ∧ sinc_ok r' ∧ (List.length out ≤ room)%nat ∧
      input_frames_next r' = input_frames_next r ∧ output_frames_max r' = output_frames_max r;
  reset_ok r : sinc_ok r → sinc_ok (sinc_reset r) ∧
    input_frames_next (sinc_reset r) = input_frames_next r ∧ output_frames_max (sinc_reset r) = output_frames_max r;
}.

Section Streaming.
Context `{R : Rubato}.

(** The input adapter of a chunk-sized window and the output adapter of the
    whole scratch cannot fail: [InterleavedSlice] checks the lengths the source
    passes it. *)
Inductive StreamingResampleError : Type :=
  | ProcessInto (source : ResampleError).

(** [None] is the panic of the [expect]. *)
Definition sinc_resampler (from_sr to_sr : Z) : option SincResampler := new_sinc (sinc_ratio from_sr to_sr).

(** The scratch is written before it is read: only its length matters. *)
Record Streaming := mkStreaming {
  resampler : SincResampler;
  accum : list f32;
  out : list f32;
  chunk_size : nat;
  out_scratch_len : nat;
}.

Definition Streaming_new (from_sr to_sr : Z) : option Streaming :=
  r ← sinc_resampler from_sr to_sr;
  Some (mkStreaming r [] [] (input_frames_next r) (output_frames_max r)).

(** The [while] of [process]: the resampler, the output and how much input was
    consumed.  [None]: the fuel ran out. *)
Fixpoint process_chunks (fuel : nat) (acc : list f32) (chunk room : nat) (r : SincResampler) (out : list f32)
    (produced consumed : nat) : option (result StreamingResampleError (SincResampler * list f32 * nat * nat)) :=
  match fuel with
  | O => None
  | S fuel =>
      if (consumed + chunk <=? List.length acc)%nat then
        match process_into_buffer r (take chunk (drop consumed acc)) room with
        | Err e => Some (Err (ProcessInto e))
        | Ok (r, o) => process_chunks fuel acc chunk room r (out ++ o) (produced + List.length o) (consumed + chunk)
        end
      else Some (Ok (r, out, produced, consumed))
  end.

(** [process]: the stream after it and how many samples it appended.  After an
    error the callers drop the stream. *)
Definition Streaming_process (s : Streaming) (input : list f32)
    : option (result StreamingResampleError (Streaming * nat)) :=
  match input with
  | [] => Some (Ok (s, O))
  | _ =>
      let acc := accum s ++ input in
      match process_chunks (S (List.length acc)) acc (chunk_size s) (out_scratch_len s) (resampler s) (out s) 0 0 with
      | None => None
      | Some (Err e) => Some (Err e)
      | Some (Ok (r, o, produced, consumed)) =>
          Some (Ok (mkStreaming r (drop consumed acc) o (chunk_size s) (out_scratch_len s), produced))
      end
  end.

(** The sink grows by the pending output, which is left empty. *)
Definition drain_output_into (s : Streaming) (sink : list f32) : Streaming * list f32 :=
  (mkStreaming (resampler s) (accum s) [] (chunk_size s) (out_scratch_len s), sink ++ out s).

Definition drop_output (s : Streaming) : Streaming :=
  mkStreaming (resampler s) (accum s) [] (chunk_size s) (out_scratch_len s).

Definition take_output (s : Streaming) : Streaming * list f32 := (drop_output s, out s).

Definition pending (s : Streaming) : nat := List.length (out s).

Definition reset_after_discontinuity (s : Streaming) : Streaming :=
  mkStreaming (sinc_reset (resampler s)) [] [] (chunk_size s) (out_scratch_len s).

(** A caller that feeds piece after piece: the total appended. *)
Fixpoint feed (s : Streaming) (pieces : list (list f32)) : option (result StreamingResampleError (Streaming * nat)) :=
  match pieces with
  | [] => Some (Ok (s, O))
  | p :: pieces =>
      match Streaming_process s p with
      | Some (Ok (s, n)) =>
          match feed s pieces with Some (Ok (s', n')) => Some (Ok (s', n + n')%nat) | x => x end
      | x => x
      end
  end.

(** ** The stream's invariant *)

Context `{!RubatoLaws R}.

Record stream_ok (s : Streaming) : Prop := {
  so_sinc : sinc_ok (resampler s);
  so_chunk : chunk_size s = input_frames_next (resampler s);
  so_pos : (0 < chunk_size s)%nat;
  so_room : out_scratch_len s = output_frames_max (resampler s);
  so_residue : (List.length (accum s) < chunk_size s)%nat;
}.

Lemma Streaming_new_ok (from_sr to_sr : Z) :
  0 < from_sr ≤ u32_max → 0 < to_sr ≤ u32_max → ∃ s, Streaming_new from_sr to_sr = Some s ∧ stream_ok s.
Proof.
  intros Hf Ht. destruct (new_sinc_ok from_sr to_sr Hf Ht) as (r & Hr & Hok & Hin).
  unfold Streaming_new, sinc_resampler. rewrite Hr. cbn. eexists. split; [done|].
  split; cbn; try done; rewrite Hin; lia.
Qed.

Lemma reset_stream_ok (s : Streaming) : stream_ok s → stream_ok (reset_after_discontinuity s).
Proof.
  intros [H1 H2 H3 H4 H5]. destruct (reset_ok _ H1) as (Ha & Hb & Hc). split; cbn; first [done|congruence|lia].
Qed.

Lemma drop_stream_ok (s : Streaming) : stream_ok s → stream_ok (drop_output s).
Proof. by intros [H1 H2 H3 H4 H5]. Qed.

(** *** The loop, chunk by chunk *)

(** What the loop makes of a resampler, an output and the input that is left. *)
Inductive chunks (chunk room : nat) : SincResampler → list f32 → list f32 → SincResampler → list f32 → list f32 → Prop :=
  | chunks_done r o l : (List.length l < chunk)%nat → chunks chunk room r o l r o l
  | chunks_more r o l r1 o1 r' o' l' :
      (chunk ≤ List.length l)%nat → process_into_buffer r (take chunk l) room = Ok (r1, o1) →
      chunks chunk room r1 (o ++ o1) (drop chunk l) r' o' l' → chunks chunk room r o l r' o' l'.

Lemma chunks_app chunk room r o l r1 o1 l1 m r2 o2 l2 :
  chunks chunk room r o l r1 o1 l1 → chunks chunk room r1 o1 (l1 ++ m) r2 o2 l2 → chunks chunk room r o (l ++ m) r2 o2 l2.
Proof.
  intros H. revert m r2 o2 l2. induction H as [|r o l r1 o1 r' o' l' Hl Hp H IH]; intros m r2 o2 l2 H2; [done|].
  eapply chunks_more; [rewrite length_app; lia| |].
  - rewrite take_app_le by lia. exact Hp.
  - rewrite drop_app_le by lia. by apply IH.
Qed.

(** With a sound resampler the loop does what [chunks] says. *)
Lemma process_chunks_ok fuel (acc : list f32) (chunk room : nat) (r : SincResampler) (o : list f32) (produced consumed : nat) :
  (0 < chunk)%nat → sinc_ok r → input_frames_next r = chunk → output_frames_max r = room →
  (consumed ≤ List.length acc)%nat → (List.length acc - consumed < fuel)%nat →
  ∃ r' o' consumed', process_chunks fuel acc chunk room r o produced consumed
      = Some (Ok (r', o', (produced + (List.length o' - List.length o))%nat, consumed')) ∧
    chunks chunk room r o (drop consumed acc) r' o' (drop consumed' acc) ∧ (List.length o ≤ List.length o')%nat ∧
    (consumed' ≤ List.length acc)%nat ∧ (List.length acc - consumed' < chunk)%nat ∧
    sinc_ok r' ∧ input_frames_next r' = chunk ∧ output_frames_max r' = room.
Proof.
  intros Hc. revert r o produced consumed. induction fuel as [|fuel IH]; intros r o produced consumed Hok Hin Hmax Hcons Hfuel; [lia|].
  cbn [process_chunks]. destruct (Nat.leb_spec (consumed + chunk) (List.length acc)) as [Hle|Hgt].
  - destruct (process_ok r (take chunk (drop consumed acc)) room Hok) as (r1 & o1 & Hp & Hok1 & Ho1 & Hin1 & Hmax1);
      [rewrite length_take, length_drop; lia|lia|]. rewrite Hp.
    destruct (IH r1 (o ++ o1) (produced + List.length o1)%nat (consumed + chunk)%nat)
      as (r' & o' & c' & He & Hch & Hlen & Hrest); [done|congruence|congruence|lia|lia|].
    rewrite length_app in Hlen, He. exists r', o', c'. split; [rewrite He; do 4 f_equal; lia|].
    split; [|split; [lia|done]].
    eapply chunks_more; [rewrite length_drop; lia|exact Hp|]. rewrite drop_drop. done.
  - exists r, o, consumed. split; [do 4 f_equal; lia|].
    split; [apply chunks_done; rewrite length_drop; lia|]. repeat split; try done; lia.
Qed.

(** [process] always returns, keeps the invariant, and is the chunks of what was
    left over and what came in. *)
Lemma Streaming_process_ok (s : Streaming) (input : list f32) :
  stream_ok s →
  ∃ s', Streaming_process s input = Some (Ok (s', (List.length (out s') - List.length (out s))%nat)) ∧ stream_ok s' ∧
    chunk_size s' = chunk_size s ∧ out_scratch_len s' = out_scratch_len s ∧ (List.length (out s) ≤ List.length (out s'))%nat ∧
    chunks (chunk_size s) (out_scratch_len s) (resampler s) (out s) (accum s ++ input) (resampler s') (out s') (accum s').
Proof.
  intros [H1 H2 H3 H4 H5]. unfold Streaming_process. destruct input as [|x input].
  { exists s. split; [do 4 f_equal; lia|]. split_and!; try done. rewrite app_nil_r. by apply chunks_done. }
  set (acc := accum s ++ x :: input).
  destruct (process_chunks_ok (S (List.length acc)) acc (chunk_size s) (out_scratch_len s) (resampler s) (out s) 0 0)
    as (r' & o' & c' & He & Hch & Hlen & Hc1 & Hc2 & Ha & Hb & Hd); first [done|lia|congruence|idtac].
  rewrite He. exists (mkStreaming r' (drop c' acc) o' (chunk_size s) (out_scratch_len s)). split; [done|]. cbn. split; [|split_and!; try done].
  split; cbn; try done. rewrite length_drop. lia.
Qed.

(** The chunks are a function of where they start. *)
Lemma chunks_det chunk room r o l r1 o1 l1 r2 o2 l2 :
  chunks chunk room r o l r1 o1 l1 → chunks chunk room r o l r2 o2 l2 → r1 = r2 ∧ o1 = o2 ∧ l1 = l2.
Proof.
  intros H. revert r2 o2 l2. induction H as [r o l Hl|r o l ra oa r' o' l' Hl Hp H IH]; intros r2 o2 l2 H2; inversion H2; subst;
    [done|lia|lia|]. apply IH. congruence.
Qed.

Lemma process_pieces (s : Streaming) (p q : list f32) s1 n1 :
  stream_ok s → Streaming_process s p = Some (Ok (s1, n1)) →
  ∃ s2 n2, Streaming_process s1 q = Some (Ok (s2, n2)) ∧ Streaming_process s (p ++ q) = Some (Ok (s2, (n1 + n2)%nat)).
Proof.
  intros Hs H1. destruct (Streaming_process_ok s p Hs) as (s1' & E1 & Ho1 & C1 & R1 & L1 & K1).
  rewrite E1 in H1. injection H1 as -> <-.
  destruct (Streaming_process_ok s1 q Ho1) as (s2 & E2 & Ho2 & C2 & R2 & L2 & K2).
  destruct (Streaming_process_ok s (p ++ q) Hs) as (s3 & E3 & Ho3 & C3 & R3 & L3 & K3).
  exists s2. eexists. split; [exact E2|]. rewrite E3. rewrite C1, R1 in K2.
  rewrite app_assoc in K3. destruct (chunks_det _ _ _ _ _ _ _ _ _ _ _ (chunks_app _ _ _ _ _ _ _ _ _ _ _ _ K1 K2) K3) as (Hr & Ho & Ha).
  assert (s3 = s2) as ->.
  { destruct s2, s3; cbn in *; congruence. }
  do 4 f_equal. lia.
Qed.

(** C32: feeding the resampler in pieces is feeding it the whole: however the
    capture is cut into periods, [process] always returns, never fails, and
    leaves the same resampler state, the same residue and the same output as one
    call on the concatenation; the residue stays below a chunk. *)
Theorem streaming_any_pieces (s : Streaming) (pieces : list (list f32)) :
  stream_ok s →
  ∃ s' n, feed s pieces = Some (Ok (s', n)) ∧ Streaming_process s (List.concat pieces) = Some (Ok (s', n)) ∧ stream_ok s' ∧
    (List.length (accum s') < chunk_size s')%nat ∧ pending s' = (pending s + n)%nat.
Proof.
  revert s. induction pieces as [|p pieces IH]; intros s Hs.
  { exists s, 0%nat. split; [done|]. split; [done|]. split; [done|]. split; [by apply so_residue|unfold pending; lia]. }
  destruct (Streaming_process_ok s p Hs) as (s1 & E1 & Ho1 & _ & _ & L1 & _).
  destruct (IH s1 Ho1) as (s2 & n2 & F2 & P2 & Ho2 & Hres & Hpend).
  destruct (process_pieces s p (List.concat pieces) s1 _ Hs E1) as (s3 & n3 & P3 & P4).
  rewrite P2 in P3. injection P3 as <- <-.
  exists s2. eexists. cbn [feed List.concat]. rewrite E1, F2. split; [done|]. split; [exact P4|].
  split; [done|]. split; [done|]. rewrite Hpend. unfold pending. lia.
Qed.
End Streaming.

(** ** A resampler to run examples on: it halves the rate. *)

Fixpoint every_other (l : list f32) : list f32 :=
  match l with x :: _ :: l => x :: every_other l | _ => [] end.

Definition halving : Rubato := {|
  SincResampler := unit;
  ResampleError := unit;
  new_sinc := λ _, Some tt;
  input_frames_next := λ _, 1024%nat;
  output_frames_max := λ _, 1024%nat;
  process_into_buffer := λ _ l room, if (List.length l =? 1024)%nat && (1024 <=? room)%nat then Ok (tt, every_other l) else Err tt;
  sinc_reset := λ _, tt;
|}.

Lemma every_other_length (l : list f32) : (List.length (every_other l) ≤ List.length l)%nat.
Proof.
  assert (H : ∀ n (l : list f32), (List.length l ≤ n)%nat → (List.length (every_other l) ≤ List.length l)%nat).
  { induction n as [|n IH]; intros [|x [|y l']] Hl; cbn in *; try lia. specialize (IH l' ltac:(lia)). lia. }
  by apply (H (List.length l)).
Qed.

#[export] Instance halving_laws : RubatoLaws halving.
Proof.
  refine (Build_RubatoLaws halving (λ _, True) _ _ _).
  - intros. exists tt. done.
  - intros r input room _ Hl Hr. cbn [process_into_buffer input_frames_next output_frames_max halving] in *.
    exists tt, (every_other input). rewrite Hl, (proj2 (Nat.leb_le _ _) Hr). split_and!; try done.
    etransitivity; [apply every_other_length|]. by rewrite Hl.
  - done.
Defined.

Section ResampleWitness.
#[local] Existing Instance halving.

Lemma streaming_any_pieces_witness :
  ∃ s' n, feed (mkStreaming (R := halving) tt [] [] 1024 1024) [replicate 700 f32_one; replicate 700 f32_zero; []]
            = Some (Ok (s', n)) ∧ n = 512%nat.
Proof.
  destruct (streaming_any_pieces (R := halving) (mkStreaming (R := halving) tt [] [] 1024 1024)
              [replicate 700 f32_one; replicate 700 f32_zero; []]) as (s' & n & Hf & _).
  - by split; try apply Nat.ltb_lt.
  - exists s', n. split; [done|]. vm_compute in Hf. congruence.
Defined.
End ResampleWitness.
