(* ===== verification/MicTypes.v ===== *)
(** * Microphone catalogue and policy ([src/modules/audio_io/mic_arbitrator/types.rs])

    What the operator declares (candidates and the channels of each), what the
    user chooses (which microphone, which channel), and the checks made of
    both.  The synthetic waveforms are those of [audio_io/mock.rs].  A [usize]
    is 64 bits; [Arc]s are transparent. *)

From S2P Require Import Prelude Ids F32.
From stdpp Require Import sorting.

Open Scope Z_scope.

(** ** Candidates *)

Inductive Waveform : Type :=
  | Silence
  | Sine (freq_hz amplitude : f32)
  | WhiteNoise (amplitude : f32) (seed : Z)
  | Counter
  | PingPongSine (freq_hz high_amp low_amp : f32) (half_period_samples : Z) (inverted : bool).

Inductive CandidateSource : Type :=
  | SrcAlsa (hw_spec : string) (period_size buffer_size : Z)
  | SrcMock (waveforms : list Waveform) (period_size sample_rate : Z).

Record MicCandidate := mkMicCandidate {
  cand_id : MicId;
  cand_source : CandidateSource;
  cand_channels : list Z;
}.

Definition SampleRate_VALUE : Z := 44100.

Definition default_period_size : Z := 1024.
Definition default_buffer_size : Z := 1024 * 4.
Definition default_mock_period : Z := 512.
Definition default_mock_rate : Z := SampleRate_VALUE.

Record MicCatalogue := mkMicCatalogue { candidates : list MicCandidate }.

(** ** Policy *)

Inductive MicSelection : Type :=
  | FirstAvailable
  | FixedMic (id : MicId).

Inductive ChannelSelection : Type :=
  | Auto
  | FixedChannel (channel : Z).

Record MicPolicy := mkMicPolicy { policy_mic : MicSelection; policy_channel : ChannelSelection }.

Definition default_policy : MicPolicy := mkMicPolicy FirstAvailable Auto.

Record MicSettings := mkMicSettings { catalogue : MicCatalogue; policy : MicPolicy }.

Definition default_settings : MicSettings := mkMicSettings (mkMicCatalogue []) default_policy.

(** ** Validation *)

Definition MAX_CHANNEL_INDEX : Z := 1023.
Definition MAX_CHANNELS : Z := 8.
Definition MAX_PERIOD_FRAMES : Z := 8192.
Definition MAX_BUFFER_FRAMES : Z := MAX_PERIOD_FRAMES * 16.
Definition MIN_SAMPLE_RATE : Z := 8000.
Definition MAX_SAMPLE_RATE : Z := 192000.

Inductive CandidateError : Type :=
  | EmptyChannels
  | DuplicateChannel (c : Z)
  | DuplicateMicId (id : MicId)
  | ChannelIndexTooLarge (channel cap : Z)
  | EmptyHwSpec
  | InvalidPeriodSize (n : Z)
  | InvalidBufferSize (period buffer : Z)
  | EmptyMockWaveforms
  | MockWhitelistOutOfRange (whitelist_max waveform_count : Z)
  | InvalidMockSampleRate (r : Z)
  | PeriodSizeTooLarge (period cap : Z)
  | BufferSizeTooLarge (buffer period absolute_cap period_multiplier_cap : Z)
  | TooManyChannels (count cap : Z)
  | SampleRateOutOfRange (rate min max : Z)
  | ScratchSizeOverflow (period channels : Z).

Definition len {A} (l : list A) : Z := Z.of_nat (List.length l).

(** [channels.iter().max()] of a list of [u16]s; [0] stands for none. *)
Definition max_channel (l : list Z) : Z := fold_right Z.max 0 l.

(** [sort_unstable]; equal numbers cannot be told apart. *)
Definition sort_unstable (l : list Z) : list Z := merge_sort Z.le l.

(** The [windows(2)] loop. *)
Fixpoint first_repeat (l : list Z) : option Z :=
  match l with
  | x :: ((y :: _) as t) => if x =? y then Some x else first_repeat t
  | _ => None
  end.

(** [checked_mul]; [is_none] is the overflow. *)
Definition mul_overflows (a b : Z) : bool := u64_max <? a * b.
Definition saturating_mul (a b : Z) : Z := Z.min (a * b) u64_max.

Definition validate_source (channels : list Z) (src : CandidateSource) : result CandidateError unit :=
  match src with
  | SrcAlsa hw_spec period_size buffer_size =>
      let multiplier_cap := saturating_mul period_size 16 in
      let worst_case_channels := max_channel channels + 1 in
      if (String.length hw_spec =? 0)%nat then Err EmptyHwSpec
      else if period_size =? 0 then Err (InvalidPeriodSize period_size)
      else if MAX_PERIOD_FRAMES <? period_size then Err (PeriodSizeTooLarge period_size MAX_PERIOD_FRAMES)
      else if buffer_size <? period_size then Err (InvalidBufferSize period_size buffer_size)
      else if (MAX_BUFFER_FRAMES <? buffer_size) || (multiplier_cap <? buffer_size)
      then Err (BufferSizeTooLarge buffer_size period_size MAX_BUFFER_FRAMES 16)
      else if mul_overflows period_size worst_case_channels then Err (ScratchSizeOverflow period_size worst_case_channels)
      else Ok tt
  | SrcMock waveforms period_size sample_rate =>
      let max_ch := max_channel channels in
      if len waveforms =? 0 then Err EmptyMockWaveforms
      else if MAX_CHANNELS <? len waveforms then Err (TooManyChannels (len waveforms) MAX_CHANNELS)
      else if len waveforms <=? max_ch then Err (MockWhitelistOutOfRange max_ch (len waveforms mod 2 ^ 16))
      else if period_size =? 0 then Err (InvalidPeriodSize period_size)
      else if MAX_PERIOD_FRAMES <? period_size then Err (PeriodSizeTooLarge period_size MAX_PERIOD_FRAMES)
      else if sample_rate =? 0 then Err (InvalidMockSampleRate sample_rate)
      else if (sample_rate <? MIN_SAMPLE_RATE) || (MAX_SAMPLE_RATE <? sample_rate)
      then Err (SampleRateOutOfRange sample_rate MIN_SAMPLE_RATE MAX_SAMPLE_RATE)
      else if mul_overflows period_size (len waveforms) then Err (ScratchSizeOverflow period_size (len waveforms))
      else Ok tt
  end.

Definition MicCandidate_validate (c : MicCandidate) : result CandidateError unit :=
  let channels := cand_channels c in
  if len channels =? 0 then Err EmptyChannels
  else if MAX_CHANNELS <? len channels then Err (TooManyChannels (len channels) MAX_CHANNELS)
  else match List.find (λ ch, MAX_CHANNEL_INDEX <? ch) channels with
  | Some ch => Err (ChannelIndexTooLarge ch MAX_CHANNEL_INDEX)
  | None =>
      match first_repeat (sort_unstable channels) with
      | Some ch => Err (DuplicateChannel ch)
      | None => validate_source channels (cand_source c)
      end
  end.

(** The two loops of [MicCatalogue::validate]. *)
Fixpoint validate_each (cs : list MicCandidate) : result (MicId * CandidateError) unit :=
  match cs with
  | [] => Ok tt
  | c :: cs => match MicCandidate_validate c with Err e => Err (cand_id c, e) | Ok _ => validate_each cs end
  end.

Fixpoint validate_ids (seen : list MicId) (cs : list MicCandidate) : result (MicId * CandidateError) unit :=
  match cs with
  | [] => Ok tt
  | c :: cs =>
      if decide (cand_id c ∈ seen) then Err (cand_id c, DuplicateMicId (cand_id c))
      else validate_ids (cand_id c :: seen) cs
  end.

Definition MicCatalogue_validate (cat : MicCatalogue) : result (MicId * CandidateError) unit :=
  validate_each (candidates cat) ≫= λ _, validate_ids [] (candidates cat).

Definition MicCatalogue_find (cat : MicCatalogue) (id : MicId) : option MicCandidate :=
  List.find (λ c, bool_decide (cand_id c = id)) (candidates cat).

Inductive PolicyValidationError : Type :=
  | UnknownMicId (id : MicId)
  | ChannelNotAvailable (mic : MicId) (channel : Z) (available : list Z).

Definition MicPolicy_validate_against (p : MicPolicy) (cat : MicCatalogue) : result PolicyValidationError unit :=
  match policy_mic p with
  | FirstAvailable => Ok tt
  | FixedMic id =>
      match MicCatalogue_find cat id with
      | None => Err (UnknownMicId id)
      | Some cand =>
          match policy_channel p with
          | FixedChannel channel =>
              if bool_decide (channel ∈ cand_channels cand) then Ok tt
              else Err (ChannelNotAvailable id channel (cand_channels cand))
          | Auto => Ok tt
          end
      end
  end.

(** ** What the checks establish *)

Lemma max_channel_ge (l : list Z) c : c ∈ l → c ≤ max_channel l.
Proof.
  induction l as [|x l IH]; [by intros []%not_elem_of_nil|]. intros [->|H]%elem_of_cons; cbn; [lia|].
  specialize (IH H). unfold max_channel in IH. lia.
Qed.

(** Sorted with no neighbours equal is strictly increasing. *)
Lemma first_repeat_None (l : list Z) : Sorted Z.le l → first_repeat l = None → StronglySorted Z.lt l.
Proof.
  intros Hs Hr. apply Sorted_StronglySorted; [intros x y z; lia|].
  induction l as [|x l IH]; [constructor|]. inversion Hs as [|? ? Hs' Hx]; subst. destruct l as [|y l]; [repeat constructor|].
  cbn [first_repeat] in Hr. destruct (Z.eqb_spec x y) as [|Hne]; [done|].
  constructor; [by apply IH|]. inversion Hx; subst. constructor. lia.
Qed.

Lemma first_repeat_Some (l : list Z) c : first_repeat l = Some c → ¬ NoDup l.
Proof.
  induction l as [|x l IH]; [done|]. destruct l as [|y l]; [done|]. cbn [first_repeat].
  destruct (Z.eqb_spec x y) as [->|]; intros H [Hn Hd]%NoDup_cons.
  - apply Hn. set_solver.
  - by apply IH.
Qed.

Lemma StronglySorted_lt_NoDup (l : list Z) : StronglySorted Z.lt l → NoDup l.
Proof.
  induction 1 as [|x l Hs IH Hx]; constructor; [|done]. intros Hin.
  rewrite Forall_forall in Hx. specialize (Hx x Hin). lia.
Qed.

Lemma first_repeat_NoDup (l : list Z) : first_repeat (sort_unstable l) = None ↔ NoDup l.
Proof.
  unfold sort_unstable. split; intros H.
  - rewrite <- (merge_sort_Permutation Z.le l). apply StronglySorted_lt_NoDup, first_repeat_None; [|done].
    apply Sorted_merge_sort, _.
  - destruct (first_repeat _) as [c|] eqn:E; [|done]. exfalso. eapply first_repeat_Some; [exact E|].
    by rewrite merge_sort_Permutation.
Qed.

(** What a candidate must be. *)
Definition source_wf (channels : list Z) (src : CandidateSource) : Prop :=
  match src with
  | SrcAlsa hw p b => hw ≠ ""%string ∧ 0 < p ≤ MAX_PERIOD_FRAMES ∧ p ≤ b ≤ MAX_BUFFER_FRAMES ∧ b ≤ 16 * p
  | SrcMock ws p r => 0 < len ws ≤ MAX_CHANNELS ∧ Forall (λ c, c < len ws) channels ∧
      0 < p ≤ MAX_PERIOD_FRAMES ∧ MIN_SAMPLE_RATE ≤ r ≤ MAX_SAMPLE_RATE
  end.

Definition candidate_wf (c : MicCandidate) : Prop :=
  0 < len (cand_channels c) ≤ MAX_CHANNELS ∧ Forall (λ ch, ch ≤ MAX_CHANNEL_INDEX) (cand_channels c) ∧
  NoDup (cand_channels c) ∧ source_wf (cand_channels c) (cand_source c).

(** The ranges of the Rust types: a [u16] per channel, [usize] and [u32]. *)
Definition candidate_typed (c : MicCandidate) : Prop :=
  Forall (λ ch, 0 ≤ ch ≤ u16_max) (cand_channels c) ∧
  match cand_source c with
  | SrcAlsa _ p b => 0 ≤ p ≤ u64_max ∧ 0 ≤ b ≤ u64_max
  | SrcMock _ p r => 0 ≤ p ≤ u64_max ∧ 0 ≤ r ≤ u32_max
  end.

Lemma max_channel_lt (l : list Z) n : 0 < n → Forall (λ c, c < n) l ↔ max_channel l < n.
Proof.
  intros Hn. split; [unfold max_channel; induction 1; cbn; lia|]. intros H. apply Forall_forall. intros c Hc.
  pose proof (max_channel_ge l c Hc). lia.
Qed.

Lemma validate_source_exact (channels : list Z) (src : CandidateSource) :
  Forall (λ ch, ch ≤ MAX_CHANNEL_INDEX) channels →
  (match src with SrcAlsa _ p b => 0 ≤ p ∧ 0 ≤ b | SrcMock _ p r => 0 ≤ p ∧ 0 ≤ r end) →
  is_ok (validate_source channels src) = true ↔ source_wf channels src.
Proof.
  intros Hcap Hty.
  assert (Hmax : 0 ≤ max_channel channels ≤ MAX_CHANNEL_INDEX).
  { clear Hty. unfold max_channel, MAX_CHANNEL_INDEX in *. induction Hcap; cbn; lia. }
  unfold MAX_CHANNEL_INDEX in *.
  destruct src as [hw p b|ws p r]; cbn [validate_source source_wf]; unfold MAX_BUFFER_FRAMES, MAX_PERIOD_FRAMES,
    saturating_mul, mul_overflows, u64_max, MAX_CHANNELS, MIN_SAMPLE_RATE, MAX_SAMPLE_RATE in *.
  - assert (hw = ""%string ↔ (String.length hw =? 0)%nat = true) as Hhw.
    { rewrite Nat.eqb_eq. by destruct hw. }
    repeat case_match; rewrite ?orb_true_iff, ?orb_false_iff, ?Z.ltb_lt, ?Z.ltb_ge, ?Z.eqb_eq, ?Z.eqb_neq in *;
      cbn; split; intros; try done; try (destruct_and!; tauto || lia);
      try (split_and!; [intros Hx; apply Hhw in Hx; congruence|lia..]).
    destruct_and!. exfalso. nia.
  - assert (0 ≤ len ws) by (unfold len; lia).
    destruct (Z.eqb_spec (len ws) 0); [split; [done|lia]|].
    rewrite (max_channel_lt channels (len ws)) by lia.
    repeat case_match; rewrite ?orb_true_iff, ?orb_false_iff, ?Z.ltb_lt, ?Z.ltb_ge, ?Z.leb_le, ?Z.leb_gt, ?Z.eqb_eq, ?Z.eqb_neq in *;
      cbn; split; intros; try done; try lia; nia.
Qed.

Lemma MicCandidate_validate_exact (c : MicCandidate) :
  candidate_typed c → is_ok (MicCandidate_validate c) = true ↔ candidate_wf c.
Proof.
  intros [Hch Hty]. unfold MicCandidate_validate, candidate_wf.
  assert (0 ≤ len (cand_channels c)) by (unfold len; lia).
  destruct (Z.eqb_spec (len (cand_channels c)) 0); [split; [done|lia]|].
  destruct (Z.ltb_spec MAX_CHANNELS (len (cand_channels c))); [split; [done|lia]|].
  destruct (List.find _ _) as [ch|] eqn:Ef.
  { apply find_some in Ef as [Hin Hgt]. apply list_elem_of_In in Hin. apply Z.ltb_lt in Hgt. split; [done|].
    intros (_ & Hf & _). rewrite Forall_forall in Hf. specialize (Hf ch Hin). cbn in Hf. lia. }
  assert (Hcap : Forall (λ ch, ch ≤ MAX_CHANNEL_INDEX) (cand_channels c)).
  { apply Forall_forall. intros ch Hin. apply list_elem_of_In in Hin. pose proof (find_none _ _ Ef _ Hin) as Hn.
    cbn in Hn. by apply Z.ltb_ge in Hn. }
  destruct (first_repeat _) as [ch|] eqn:Er.
  { split; [done|]. intros (_ & _ & Hd & _). apply first_repeat_NoDup in Hd. congruence. }
  apply first_repeat_NoDup in Er. rewrite validate_source_exact; [|done|by destruct (cand_source c); lia].
  split; [intros Hs; split_and!; first [done|lia]|by intros (_ & _ & _ & ?)].
Qed.

Lemma validate_each_Ok (cs : list MicCandidate) :
  is_ok (validate_each cs) = true ↔ Forall (λ c, is_ok (MicCandidate_validate c) = true) cs.
Proof.
  induction cs as [|c cs IH]; cbn; [by split|]. rewrite Forall_cons.
  destruct (MicCandidate_validate c) as [[]|e]; cbn; [rewrite IH; tauto|]. split; [done|by intros []].
Qed.

Lemma validate_ids_Ok (cs : list MicCandidate) seen :
  is_ok (validate_ids seen cs) = true ↔ NoDup (map cand_id cs) ∧ Forall (λ c, cand_id c ∉ seen) cs.
Proof.
  revert seen. induction cs as [|c cs IH]; intros seen; cbn.
  { split; [by repeat constructor|done]. }
  rewrite NoDup_cons, Forall_cons. case_decide as Hd; cbn.
  { split; [done|]. tauto. }
  rewrite IH, !Forall_forall, list_elem_of_fmap. split.
  - intros (Hn & Hf). split_and!; [|done|done|].
    + intros (c' & He & Hin). apply (Hf c' Hin). rewrite He. set_solver.
    + intros c' Hin. specialize (Hf c' Hin). set_solver.
  - intros ((Hn & Hnd) & _ & Hf). split; [done|]. intros c' Hin [He|Hs]%elem_of_cons; [|by eapply Hf].
    apply Hn. by exists c'.
Qed.

(** A catalogue passes exactly when every candidate has one to eight
    distinct channels in range, a source within its limits (and, for a mock, a
    waveform for every channel), and no two candidates share an id; a policy
    passes against it exactly when a fixed microphone is in the catalogue and a
    channel fixed with it is one of its channels.  So a policy that passed
    resolves to that candidate. *)
Theorem catalogue_and_policy_exact (cat : MicCatalogue) (p : MicPolicy) :
  Forall candidate_typed (candidates cat) →
  (is_ok (MicCatalogue_validate cat) = true ↔ Forall candidate_wf (candidates cat) ∧ NoDup (map cand_id (candidates cat))) ∧
  (is_ok (MicPolicy_validate_against p cat) = true ↔
     ∀ id, policy_mic p = FixedMic id →
       ∃ c, MicCatalogue_find cat id = Some c ∧ c ∈ candidates cat ∧ cand_id c = id ∧
         ∀ ch, policy_channel p = FixedChannel ch → ch ∈ cand_channels c).
Proof.
  intros Hty. split.
  - unfold MicCatalogue_validate.
    assert (He : is_ok (validate_each (candidates cat)) = true ↔ Forall candidate_wf (candidates cat)).
    { rewrite validate_each_Ok, !Forall_forall. rewrite Forall_forall in Hty.
      split; intros H c Hc; apply (MicCandidate_validate_exact c (Hty c Hc)); by apply H. }
    rewrite <- He. destruct (validate_each _) as [[]|e]; cbn; [|split; [done|by intros []]].
    rewrite validate_ids_Ok. split; [tauto|]. intros [_ Hn]. split; [done|]. apply Forall_forall. set_solver.
  - unfold MicPolicy_validate_against. destruct (policy_mic p) as [|id]; [by split|].
    assert (Hfind : ∀ c, MicCatalogue_find cat id = Some c → c ∈ candidates cat ∧ cand_id c = id).
    { intros c (Hin & Hb)%find_some. apply bool_decide_eq_true in Hb. by apply list_elem_of_In in Hin. }
    destruct (MicCatalogue_find cat id) as [c|] eqn:Ef.
    + destruct (Hfind c eq_refl) as [Hin Hid]. split.
      * intros H id' [= <-]. exists c. split_and!; try done. intros ch Hch. rewrite Hch in H. by case_bool_decide.
      * intros H. destruct (H id eq_refl) as (c' & E & _ & _ & Hch). rewrite Ef in E. injection E as <-.
        destruct (policy_channel p) as [|ch]; [done|]. by rewrite bool_decide_eq_true_2 by by apply Hch.
    + split; [done|]. intros H. destruct (H id eq_refl) as (c' & E & _). congruence.
Qed.

Lemma catalogue_and_policy_exact_witness :
  let cat := mkMicCatalogue [mkMicCandidate (mkMicId "front") (SrcMock [Silence; Counter] 512 44100) [1; 0];
                             mkMicCandidate (mkMicId "usb") (SrcAlsa "hw:1,0" 1024 4096) [0; 3]] in
  is_ok (MicCatalogue_validate cat) = true ∧ NoDup (map cand_id (candidates cat)) ∧
  is_ok (MicPolicy_validate_against (mkMicPolicy (FixedMic (mkMicId "usb")) (FixedChannel 2)) cat) = false.
Proof.
  intros cat.
  assert (Hty : Forall candidate_typed (candidates cat)).
  { unfold candidate_typed; repeat (constructor || split); vm_compute; intros Hx; discriminate Hx. }
  destruct (catalogue_and_policy_exact cat (mkMicPolicy (FixedMic (mkMicId "usb")) (FixedChannel 2)) Hty) as [H1 _].
  assert (Hok : is_ok (MicCatalogue_validate cat) = true) by (vm_compute; reflexivity).
  split; [exact Hok|]. split; [apply H1; exact Hok|vm_compute; reflexivity].
Defined.
