(* ===== verification/WavIo.v ===== *)
(** * WAV files to waveforms

    [preproc/wav_io.rs]: a file's header checks, decoding and downmix to mono,
    and the resampling to one window with a resampler kept from file to file.
    The [hound] crate is a parameter ([Hound]), the resampler is [Resample]'s. *)

From Stdlib Require Import SpecFloat.
From S2P Require Import Prelude Common FileSystem F32 F32Facts Resample MicTypes Preproc.

Local Open Scope Z_scope.

Definition TARGET_SR : Z := 44100.
Definition MAX_INPUT_DURATION_SECS : Z := 60.

(** ** The [hound] crate *)

Inductive SampleFormat : Type := Float | Int.
Record WavSpec : Type := mkWavSpec { channels : Z; sample_rate : Z; bits_per_sample : Z; sample_format : SampleFormat }.

(** [duration] is per channel; the three readings are what [samples::<T>] yields
    to its end, a failed sample included. *)
Class Hound := {
  HoundError : Type;
  WavReader : Type;
  wav_open : path → result HoundError WavReader;
  spec : WavReader → WavSpec;
  duration : WavReader → Z;
  samples_i16 : WavReader → list (result HoundError Z);
  samples_i32 : WavReader → list (result HoundError Z);
  samples_f32 : WavReader → list (result HoundError f32);
}.

(** An opened file: fields of their widths, whole frames, and samples in the
    range of their width. *)
Definition in_bits (bits : Z) (v : Z) : Prop := - 2 ^ (bits - 1) ≤ v < 2 ^ (bits - 1).
Definition yields {E A : Type} (P : A → Prop) (l : list (result E A)) : Prop := ∀ a, Ok a ∈ l → P a.

Class HoundLaws `(H : Hound) := {
  spec_fields r : 0 ≤ channels (spec r) ≤ 65535 ∧ 0 ≤ sample_rate (spec r) ≤ u32_max ∧ 0 ≤ duration r ≤ u32_max;
  i16_count r : Z.of_nat (List.length (samples_i16 r)) = duration r * channels (spec r);
  i32_count r : Z.of_nat (List.length (samples_i32 r)) = duration r * channels (spec r);
  f32_count r : Z.of_nat (List.length (samples_f32 r)) = duration r * channels (spec r);
  i16_range r : yields (in_bits 16) (samples_i16 r);
  i32_range r : 0 < bits_per_sample (spec r) ≤ 32 → yields (in_bits (bits_per_sample (spec r))) (samples_i32 r);
}.

Section WavIo.
Context `{H : Hound} `{R : Rubato}.

Inductive PreprocError : Type :=
  | WavOpen (path : path) (source : HoundError)
  | WavDecode (path : path) (sample_idx : nat) (source : HoundError)
  | WavFormat (path : path) (format : SampleFormat) (bits : Z)
  | WavInvalidHeader (path : path) (field : string) (got : Z)
  | BadWavSample (path : path) (sample_idx : nat) (value : f32)
  | WavTooLong (path : path) (sample_rate frames : Z) (duration_secs : f32) (max_secs : Z)
  | ResampleInput
  | ResampleOutput
  | ResampleChunk (source : ResampleError).

(** ** [read_wav_mono] *)

(** [collect]: the index is that of the failed sample. *)
Fixpoint collect_from {A : Type} (p : path) (i : nat) (iter : list (result HoundError A)) (scale : A → f32)
    : result PreprocError (list f32) :=
  match iter with
  | [] => Ok []
  | Err e :: _ => Err (WavDecode p i e)
  | Ok s :: iter =>
      match collect_from p (S i) iter scale with
      | Ok out => Ok (scale s :: out)
      | Err e => Err e
      end
  end.
Definition collect {A : Type} (p : path) (iter : list (result HoundError A)) (scale : A → f32) : result PreprocError (list f32) :=
  collect_from p 0 iter scale.

Definition SCALE_I16 : f32 := f32_of_int (2 ^ 15).
Definition SCALE_I24 : f32 := f32_of_int (2 ^ 23).
Definition SCALE_I32 : f32 := f32_of_int (2 ^ 31).

(** [position]. *)
Fixpoint position {A : Type} (f : A → bool) (l : list A) : option nat :=
  match l with
  | [] => None
  | x :: l => if f x then Some O else S <$> position f l
  end.

Definition decode (p : path) (r : WavReader) : result PreprocError (list f32) :=
  let s := spec r in
  match sample_format s with
  | Int =>
      if bits_per_sample s =? 16 then collect p (samples_i16 r) (λ v, f32_div (f32_of_int v) SCALE_I16)
      else if bits_per_sample s =? 24 then collect p (samples_i32 r) (λ v, f32_div (f32_of_int v) SCALE_I24)
      else if bits_per_sample s =? 32 then collect p (samples_i32 r) (λ v, f32_div (f32_of_int v) SCALE_I32)
      else Err (WavFormat p Int (bits_per_sample s))
  | Float =>
      if bits_per_sample s =? 32 then
        match collect p (samples_f32 r) (λ v, v) with
        | Err e => Err e
        | Ok raw =>
            match position (λ s, negb (is_finite s)) raw with
            | Some idx => Err (BadWavSample p idx (nth idx raw S754_nan))
            | None => Ok raw
            end
        end
      else Err (WavFormat p Float (bits_per_sample s))
  end.

(** [c.iter().sum::<f32>() / n_chan as f32]; a sum of floats starts at [-0.0]. *)
Definition average (n_chan : nat) (c : list f32) : f32 :=
  f32_div (foldl f32_add (S754_zero true) c) (f32_of_int (Z.of_nat n_chan)).

(** [chunks(n)]: the last may be shorter. *)
Fixpoint frames_of (fuel n : nat) (l : list f32) : list (list f32) :=
  match fuel, l with
  | S fuel, _ :: _ => take n l :: frames_of fuel n (drop n l)
  | _, _ => []
  end.
Definition downmix (n_chan : nat) (samples : list f32) : list f32 :=
  if (n_chan =? 1)%nat then samples
  else map (average n_chan) (frames_of (List.length samples) n_chan samples).

Definition check_header (p : path) (s : WavSpec) : result PreprocError unit :=
  if sample_rate s =? 0 then Err (WavInvalidHeader p "sample_rate" 0)
  else if channels s =? 0 then Err (WavInvalidHeader p "channels" 0)
  else if sample_rate s <? MIN_SAMPLE_RATE then Err (WavInvalidHeader p "sample_rate" (sample_rate s))
  else if MAX_SAMPLE_RATE <? sample_rate s then Err (WavInvalidHeader p "sample_rate" (sample_rate s))
  else if MAX_CHANNELS <? channels s then Err (WavInvalidHeader p "channels" (channels s))
  else Ok tt.

Definition check_duration (p : path) (s : WavSpec) (frames : Z) : result PreprocError unit :=
  let max_frames := MAX_INPUT_DURATION_SECS * sample_rate s in
  if max_frames <? frames then
    Err (WavTooLong p (sample_rate s) frames (f32_div (f32_of_int frames) (f32_of_int (sample_rate s))) MAX_INPUT_DURATION_SECS)
  else Ok tt.

Definition read_wav_mono (p : path) : result PreprocError (Z * list f32) :=
  match wav_open p with
  | Err e => Err (WavOpen p e)
  | Ok r =>
      let s := spec r in
      match check_header p s with
      | Err e => Err e
      | Ok _ =>
          match check_duration p s (duration r) with
          | Err e => Err e
          | Ok _ =>
              match decode p r with
              | Err e => Err e
              | Ok samples => Ok (sample_rate s, downmix (Z.to_nat (channels s)) samples)
              end
          end
      end
  end.

(** ** [to_waveform] *)

(** [ResamplerCache]: the source rate and its resampler. *)
Definition ResamplerCache : Type := option (Z * SincResampler).
Definition ResamplerCache_empty : ResamplerCache := None.
Definition cached_rate (c : ResamplerCache) : option Z := fst <$> c.
Definition ResamplerCache_clear (c : ResamplerCache) : ResamplerCache := None.

(** The resampler it answers is the one in the slot; [None] is the panic of
    [sinc_resampler]. *)
Definition get_or_init (sr : Z) (c : ResamplerCache) : option SincResampler :=
  r ← match c with
      | Some (cached, r) => if cached =? sr then Some r else sinc_resampler sr TARGET_SR
      | None => sinc_resampler sr TARGET_SR
      end;
  Some (sinc_reset r).

(** The loop over the chunks: the resampler after it.  After a failed chunk it is
    the one before that chunk; the callers clear the slot. *)
Fixpoint resample_chunks (in_per max_out : nat) (chunks : list (list f32)) (r : SincResampler) (out : list f32)
    : SincResampler * result PreprocError (list f32) :=
  match chunks with
  | [] => (r, Ok out)
  | c :: chunks =>
      if (List.length c <? in_per)%nat then (r, Err ResampleInput)
      else
        match process_into_buffer r c max_out with
        | Err e => (r, Err (ResampleChunk e))
        | Ok (r, o) =>
            let out := out ++ o in
            if (WaveformLen <=? List.length out)%nat then (r, Ok out)
            else resample_chunks in_per max_out chunks r out
        end
  end.

(** [arr[..n].copy_from_slice(..)] over zeros. *)
Definition fit_window (resampled : list f32) : list f32 :=
  let n := (List.length resampled `min` WaveformLen)%nat in
  take n resampled ++ replicate (WaveformLen - n) f32_zero.

(** The slot after it, and the waveform; [None] is a panic. *)
Definition to_waveform (sr : Z) (mono : list f32) (cache : ResamplerCache)
    : option (ResamplerCache * result PreprocError (list f32)) :=
  if sr =? TARGET_SR then Some (cache, Ok (fit_window mono))
  else
    r ← get_or_init sr cache;
    let in_per := input_frames_next r in
    let max_out := output_frames_max r in
    if (in_per =? 0)%nat then None
    else
      let pad := ((in_per - List.length mono mod in_per) mod in_per)%nat in
      let padded := mono ++ replicate pad f32_zero in
      let '(r, out) := resample_chunks in_per max_out (frames_of (List.length padded) in_per padded) r [] in
      Some (Some (sr, r), match out with Ok out => Ok (fit_window out) | Err e => Err e end).
End WavIo.
