(* ===== verification/WavIoFacts.v ===== *)
(** * What training reads from a WAV file

    A read that succeeds is bounded by the header's checks; integer files stay
    between -1 and 1.  The resampler kept from file to file changes no
    waveform. *)

From Stdlib Require Import SpecFloat.
From S2P Require Import Prelude Common FileSystem F32 F32Facts Resample MicTypes Preproc WavIo.

Local Open Scope Z_scope.

(** ** Decoding *)

Section ReadFacts.
Context `{H : Hound} `{R : Rubato} `{!HoundLaws H}.

Lemma collect_ok {A : Type} (p : path) i (iter : list (result HoundError A)) (scale : A → f32) out :
  collect_from p i iter scale = Ok out → ∃ xs, iter = map Ok xs ∧ out = map scale xs.
Proof.
  revert i out. induction iter as [|[a|e] iter IH]; intros i out; cbn [collect_from]; [|destruct (collect_from p (S i) iter scale) as [o|] eqn:E|done].
  - injection 1 as <-. by exists [].
  - injection 1 as <-. destruct (IH _ _ E) as (xs & -> & ->). by exists (a :: xs).
  - done.
Qed.

(** The samples of a decoded integer file, scaled to the unit. *)
Lemma collect_unit (p : path) (iter : list (result HoundError Z)) k out :
  0 ≤ k ≤ 104 → f32_of_int (2 ^ k) = S754_finite false 8388608 (k - 23) → yields (in_bits (k + 1)) iter →
  collect p iter (λ v, f32_div (f32_of_int v) (f32_of_int (2 ^ k))) = Ok out →
  Forall (λ x, within x 1) out ∧ List.length out = List.length iter.
Proof.
  intros Hk Hs Hy Hc. destruct (collect_ok _ _ _ _ _ Hc) as (xs & -> & ->). split; [|by rewrite !length_map].
  apply List.Forall_forall. intros x (v & <- & Hv)%in_map_iff. apply unit_scaled; [done| |done].
  assert (Hin : in_bits (k + 1) v) by (apply Hy, list_elem_of_In, in_map_iff; by exists v). unfold in_bits in Hin.
  replace (k + 1 - 1) with k in Hin by lia. lia.
Qed.

Lemma position_none {A : Type} (f : A → bool) l : position f l = None → Forall (λ x, f x = false) l.
Proof.
  induction l as [|x l IH]; cbn [position]; [by constructor|]. destruct (f x) eqn:E; [done|].
  destruct (position f l); [done|]. intros _. constructor; [done|by apply IH].
Qed.

(** Decoded samples: in the unit for an integer file, finite for a float one. *)
Lemma decode_ok p r samples : decode p r = Ok samples →
  Z.of_nat (List.length samples) = duration r * channels (spec r) ∧
  match sample_format (spec r) with
  | Int => Forall (λ x, within x 1) samples
  | Float => Forall (λ x, is_finite x = true) samples
  end.
Proof.
  unfold decode. destruct (sample_format (spec r)).
  - destruct (Z.eqb_spec (bits_per_sample (spec r)) 32) as [Eb|]; [|done].
    destruct (collect p (samples_f32 r) (λ v, v)) as [raw|] eqn:E; [|done].
    destruct (position (λ s, negb (is_finite s)) raw) eqn:Ep; [done|]. injection 1 as <-. split.
    + destruct (collect_ok _ _ _ _ _ E) as (xs & Hx & ->). rewrite <-f32_count, Hx, !length_map. done.
    + eapply list.Forall_impl; [by apply position_none|]. intros x Hx. cbn in Hx |- *. by destruct (is_finite x).
  - destruct (Z.eqb_spec (bits_per_sample (spec r)) 16) as [Eb|].
    { intros Hc. destruct (collect_unit p _ 15 samples ltac:(lia) ltac:(by vm_compute) (i16_range r) Hc) as [Hu ->]. by rewrite i16_count. }
    destruct (Z.eqb_spec (bits_per_sample (spec r)) 24) as [Eb|].
    { pose proof (i32_range r ltac:(lia)) as Hr. rewrite Eb in Hr.
      intros Hc. destruct (collect_unit p _ 23 samples ltac:(lia) ltac:(by vm_compute) Hr Hc) as [Hu ->]. by rewrite i32_count. }
    destruct (Z.eqb_spec (bits_per_sample (spec r)) 32) as [Eb|]; [|done].
    pose proof (i32_range r ltac:(lia)) as Hr. rewrite Eb in Hr.
    intros Hc. destruct (collect_unit p _ 31 samples ltac:(lia) ltac:(by vm_compute) Hr Hc) as [Hu ->]. by rewrite i32_count.
Qed.

(** ** The downmix *)

Lemma frames_exact fuel n d (l : list f32) : (0 < n)%nat → List.length l = (d * n)%nat → (List.length l ≤ fuel)%nat →
  List.length (frames_of fuel n l) = d ∧ Forall (λ c, List.length c = n) (frames_of fuel n l) ∧ concat (frames_of fuel n l) = l.
Proof.
  intros Hn. revert d l. induction fuel as [|fuel IH]; intros d l Hl Hf.
  { assert (l = []) as -> by (destruct l; [done|cbn in Hf; lia]). cbn in *. split_and!; [|by constructor|done]. destruct d; [done|cbn in Hl; lia]. }
  destruct l as [|x l]; [cbn in *; split_and!; [destruct d; [done|cbn in Hl; lia]|by constructor|done]|].
  destruct d as [|d]; [cbn in Hl; lia|]. cbn [frames_of]. remember (x :: l) as l1. cbn [Nat.mul] in Hl.
  destruct (IH d (drop n l1)) as (H1 & H2 & H3); [rewrite length_drop; lia|rewrite length_drop; lia|].
  cbn [List.length List.concat]. rewrite H1, H3, take_drop. split_and!; [done| |done]. constructor; [rewrite length_take; lia|done].
Qed.

Lemma in_concat_frame {A : Type} (P : A → Prop) ls : Forall P (concat ls) → Forall (Forall P) ls.
Proof.
  induction ls as [|l ls IH]; cbn [List.concat]; [by constructor|]. intros [Hl Hls]%list.Forall_app. constructor; [done|by apply IH].
Qed.

Lemma downmix_ok n d samples : (0 < n)%nat → Z.of_nat n < 2 ^ 24 → List.length samples = (d * n)%nat →
  List.length (downmix n samples) = d ∧ (Forall (λ x, within x 1) samples → Forall (λ x, within x 1) (downmix n samples)).
Proof.
  intros Hn Hb Hl. unfold downmix. destruct (Nat.eqb_spec n 1) as [->|]; [split; [lia|done]|].
  destruct (frames_exact (List.length samples) n d samples Hn Hl (le_n _)) as (H1 & H2 & H3). rewrite length_map. split; [done|].
  intros Hs. rewrite <-H3 in Hs. apply in_concat_frame in Hs. apply List.Forall_forall. intros x (c & <- & Hc)%in_map_iff.
  rewrite List.Forall_forall in Hs, H2. apply mean_within; [by apply Hs|done|by rewrite (H2 c Hc)|done].
Qed.

(** C34: A WAV file that is read has a rate and a number of channels capture
    would accept too, at most a minute of frames, one mono sample per frame, and, when
    its samples are integers, every one between -1 and 1; a mono float file has
    only finite ones. *)
Theorem read_wav_mono_bounded p sr mono : read_wav_mono p = Ok (sr, mono) →
  ∃ r, wav_open p = Ok r ∧ sample_rate (spec r) = sr ∧
    MIN_SAMPLE_RATE ≤ sr ≤ MAX_SAMPLE_RATE ∧ 0 < channels (spec r) ≤ MAX_CHANNELS ∧
    Z.of_nat (List.length mono) = duration r ∧ duration r ≤ 60 * sr ∧
    (sample_format (spec r) = Int → Forall (λ x, within x 1) mono) ∧
    (channels (spec r) = 1 → Forall (λ x, is_finite x = true) mono).
Proof.
  unfold read_wav_mono. destruct (wav_open p) as [r|] eqn:Eo; [|done]. unfold check_header, check_duration.
  destruct (Z.eqb_spec (sample_rate (spec r)) 0), (Z.eqb_spec (channels (spec r)) 0), (Z.ltb_spec (sample_rate (spec r)) MIN_SAMPLE_RATE),
    (Z.ltb_spec MAX_SAMPLE_RATE (sample_rate (spec r))), (Z.ltb_spec MAX_CHANNELS (channels (spec r))); try done.
  destruct (Z.ltb_spec (MAX_INPUT_DURATION_SECS * sample_rate (spec r)) (duration r)) as [|Hd]; [done|].
  destruct (decode p r) as [samples|] eqn:Ed; [|done]. injection 1 as <- <-. destruct (decode_ok p r samples Ed) as [Hl Hf].
  destruct (spec_fields r) as (Hc & Hs & Hu). unfold MIN_SAMPLE_RATE, MAX_SAMPLE_RATE, MAX_CHANNELS, MAX_INPUT_DURATION_SECS in *.
  destruct (downmix_ok (Z.to_nat (channels (spec r))) (Z.to_nat (duration r)) samples) as [Hlen Hw]; [lia|lia|nia|].
  exists r. split_and!; try done; try lia.
  - intros Hi. rewrite Hi in Hf. by apply Hw.
  - intros E1. rewrite E1. unfold downmix. cbn. destruct (sample_format (spec r)); [done|].
    eapply list.Forall_impl; [exact Hf|]. intros x. apply within_finite.
Qed.
End ReadFacts.

(** ** The waveform *)

(** What the documentation of the crate's [reset] says: it brings back the state
    the resampler was constructed with. *)
Inductive reached `{R : Rubato} (r0 : SincResampler) : SincResampler → Prop :=
  | reached_new : reached r0 r0
  | reached_process r c room r' o : reached r0 r → process_into_buffer r c room = Ok (r', o) → reached r0 r'
  | reached_reset r : reached r0 r → reached r0 (sinc_reset r).

Class RubatoReset `(R : Rubato) := {
  reset_fresh ratio r0 r : new_sinc ratio = Some r0 → reached r0 r → sinc_reset r = sinc_reset r0;
}.

Section WaveformFacts.
Context `{H : Hound} `{R : Rubato} `{!RubatoLaws R} `{!RubatoReset R}.

(** The reference: every chunk is resampled. *)
Fixpoint resample_all (max_out : nat) (chunks : list (list f32)) (r : SincResampler) : list f32 :=
  match chunks with
  | [] => []
  | c :: chunks => match process_into_buffer r c max_out with Ok (r, o) => o ++ resample_all max_out chunks r | Err _ => [] end
  end.

Definition padded_to (in_per : nat) (mono : list f32) : list f32 :=
  mono ++ replicate ((in_per - List.length mono mod in_per) mod in_per) f32_zero.

(** The waveform of a file on its own: a new resampler over the whole of it. *)
Definition waveform_ref (sr : Z) (mono : list f32) : list f32 :=
  if sr =? TARGET_SR then fit_window mono
  else match sinc_resampler sr TARGET_SR with
       | None => []
       | Some r =>
           let r := sinc_reset r in
           let padded := padded_to (input_frames_next r) mono in
           fit_window (resample_all (output_frames_max r) (frames_of (List.length padded) (input_frames_next r) padded) r)
       end.

(** A slot holds a resampler that was constructed for its rate. *)
Definition cache_ok (c : ResamplerCache) : Prop :=
  match c with
  | None => True
  | Some (sr, r) => ∃ r0, sinc_resampler sr TARGET_SR = Some r0 ∧ sinc_ok r0 ∧ sinc_ok r ∧ reached r0 r
  end.

Lemma fit_window_app (l m : list f32) : (WaveformLen ≤ List.length l)%nat → fit_window (l ++ m) = fit_window l.
Proof.
  intros Hl. unfold fit_window. rewrite length_app, !Nat.min_r by lia. by rewrite take_app_le.
Qed.

Lemma fit_window_length l : List.length (fit_window l) = WaveformLen.
Proof. unfold fit_window. rewrite length_app, length_take, length_replicate. lia. Qed.

(** Stopping early loses nothing of the window. *)
Lemma resample_chunks_ok in_per max_out chunks r0 r out :
  sinc_ok r → input_frames_next r = in_per → output_frames_max r = max_out → reached r0 r →
  Forall (λ c, List.length c = in_per) chunks →
  ∃ r' out', resample_chunks in_per max_out chunks r out = (r', Ok out') ∧ sinc_ok r' ∧ reached r0 r' ∧
    fit_window out' = fit_window (out ++ resample_all max_out chunks r).
Proof.
  intros Hok Hin Hmax Hr Hc. revert r out Hok Hin Hmax Hr. induction Hc as [|c chunks Hc Hcs IH]; intros r out Hok Hin Hmax Hr; cbn [resample_chunks resample_all].
  { exists r, out. by rewrite app_nil_r. }
  destruct (Nat.ltb_spec (List.length c) in_per) as [|_]; [lia|].
  destruct (process_ok r c max_out Hok) as (r1 & o & Hp & Hok1 & _ & Hin1 & Hmax1); [congruence|lia|]. rewrite Hp.
  assert (Hr1 : reached r0 r1) by (by eapply reached_process).
  destruct (Nat.leb_spec WaveformLen (List.length (out ++ o))) as [Hfull|_].
  - exists r1, (out ++ o). split; [reflexivity|split; [exact Hok1|split; [exact Hr1|]]]. rewrite (app_assoc out o). symmetry. by apply fit_window_app.
  - destruct (IH r1 (out ++ o) Hok1) as (r' & out' & H1 & H2 & H3 & H4); [congruence..|done|].
    exists r', out'. by rewrite H4, <-app_assoc.
Qed.

Lemma padded_to_chunks in_per mono : (0 < in_per)%nat → ∃ d, List.length (padded_to in_per mono) = (d * in_per)%nat.
Proof.
  intros Hi. unfold padded_to. rewrite length_app, length_replicate.
  pose proof (Nat.div_mod (List.length mono) in_per ltac:(lia)). pose proof (Nat.mod_upper_bound (List.length mono) in_per ltac:(lia)).
  destruct (List.length mono mod in_per)%nat as [|k] eqn:E.
  - rewrite Nat.sub_0_r, Nat.Div0.mod_same. exists (List.length mono / in_per)%nat. lia.
  - rewrite Nat.mod_small by lia. exists (S (List.length mono / in_per)). lia.
Qed.

Lemma get_or_init_ok sr c : 0 < sr ≤ u32_max → cache_ok c →
  ∃ r0, sinc_resampler sr TARGET_SR = Some r0 ∧ get_or_init sr c = Some (sinc_reset r0) ∧ sinc_ok (sinc_reset r0) ∧ sinc_ok r0 ∧
    (0 < input_frames_next (sinc_reset r0))%nat.
Proof.
  intros Hsr Hc. destruct (new_sinc_ok sr TARGET_SR Hsr) as (r0 & Hn & Hok & Hin); [by compute|].
  fold (sinc_resampler sr TARGET_SR) in Hn. destruct (reset_ok _ Hok) as (Hok' & Hin' & _).
  exists r0. split_and!; try done; [|rewrite Hin', Hin; lia]. unfold get_or_init.
  destruct c as [[sr' r]|]; [|by rewrite Hn]. destruct (Z.eqb_spec sr' sr) as [->|]; [|by rewrite Hn].
  destruct Hc as (r0' & Hn' & _ & _ & Hr). rewrite Hn in Hn'. injection Hn' as <-. cbn. f_equal. by eapply reset_fresh.
Qed.

Lemma to_waveform_ok sr mono c : 0 < sr ≤ u32_max → cache_ok c →
  ∃ c', to_waveform sr mono c = Some (c', Ok (waveform_ref sr mono)) ∧ cache_ok c' ∧ List.length (waveform_ref sr mono) = WaveformLen.
Proof.
  intros Hsr Hc. unfold to_waveform, waveform_ref. destruct (Z.eqb_spec sr TARGET_SR).
  { exists c. split_and!; [done|done|apply fit_window_length]. }
  destruct (get_or_init_ok sr c Hsr Hc) as (r0 & Hn & -> & Hok & Hok0 & Hpos). rewrite Hn. cbn [mbind option_bind].
  destruct (Nat.eqb_spec (input_frames_next (sinc_reset r0)) 0) as [|_]; [lia|]. cbv zeta.
  fold (padded_to (input_frames_next (sinc_reset r0)) mono). destruct (padded_to_chunks (input_frames_next (sinc_reset r0)) mono Hpos) as [d Hd].
  set (padded := padded_to _ mono) in *. destruct (frames_exact (List.length padded) _ d padded Hpos Hd (le_n _)) as (_ & Hfr & _).
  destruct (resample_chunks_ok _ _ _ r0 (sinc_reset r0) [] Hok eq_refl eq_refl (reached_reset _ _ (reached_new _)) Hfr) as (r' & out' & -> & H2 & H3 & H4).
  eexists. split; [by rewrite H4|]. split; [by exists r0|apply fit_window_length].
Qed.

(** The files of a worker, one after the other with one slot. *)
Fixpoint to_waveforms (files : list (Z * list f32)) (c : ResamplerCache) : option (ResamplerCache * list (result PreprocError (list f32))) :=
  match files with
  | [] => Some (c, [])
  | (sr, mono) :: files =>
      '(c, w) ← to_waveform sr mono c;
      '(c, ws) ← to_waveforms files c;
      Some (c, w :: ws)
  end.

(** A worker's slot changes no waveform: whatever files of whatever rates go
    through it one after the other, no call panics or fails, and each file gets
    the waveform it has on its own, from a new resampler over the whole of it,
    cut or zero-filled to one window. *)
Theorem resampler_cache_transparent (files : list (Z * list f32)) (c : ResamplerCache) :
  cache_ok c → Forall (λ f, 0 < fst f ≤ u32_max) files →
  ∃ c', to_waveforms files c = Some (c', map (λ f, Ok (waveform_ref (fst f) (snd f))) files) ∧ cache_ok c' ∧
    Forall (λ f, List.length (waveform_ref (fst f) (snd f)) = WaveformLen) files.
Proof.
  intros Hc Hf. revert c Hc. induction Hf as [|[sr mono] files Hsr Hf IH]; intros c Hc; cbn [to_waveforms map]; [by exists c|].
  destruct (to_waveform_ok sr mono c Hsr Hc) as (c1 & -> & Hc1 & Hl). destruct (IH c1 Hc1) as (c2 & H1 & H2 & H3).
  cbn [mbind option_bind]. rewrite H1. exists c2. split_and!; [done|done|by constructor].
Qed.
End WaveformFacts.

(** ** Scenarios *)

Section WavScenario.
#[local] Existing Instance halving.

(** A library that opens every path as the same stereo file. *)
Definition stereo_file (fmt : SampleFormat) (bits : Z) (ints : list Z) (floats : list f32) : Hound := {|
  HoundError := unit;
  WavReader := unit;
  wav_open := λ _, Ok tt;
  spec := λ _, mkWavSpec 2 16000 bits fmt;
  duration := λ _, 2;
  samples_i16 := λ _, map Ok ints;
  samples_i32 := λ _, map Ok ints;
  samples_f32 := λ _, map Ok floats;
|}.

Definition pcm_file : Hound := stereo_file Int 16 [32767; 32767; -32768; 0] (replicate 4 f32_zero).

Lemma pcm_file_laws : HoundLaws pcm_file.
Proof.
  split; try (by intros []); try (intros []; cbn; unfold u32_max; lia).
  all: intros []; cbn [samples_i16 samples_i32 pcm_file stereo_file spec bits_per_sample]; intros; intros v Hv%list_elem_of_In;
    unfold in_bits; vm_compute in Hv; naive_solver lia.
Qed.

Lemma read_wav_mono_bounded_witness :
  let H := pcm_file in
  ∃ mono, read_wav_mono ["clip.wav"%string] = Ok (16000, mono) ∧ List.length mono = 2%nat ∧ Forall (λ x, within x 1) mono.
Proof.
  intros H. pose proof pcm_file_laws as HL. eexists. split; [reflexivity|].
  destruct (read_wav_mono_bounded (H := pcm_file) ["clip.wav"%string] 16000 _ eq_refl) as (r & Hr & _ & _ & _ & _ & _ & Hi & _).
  split; [reflexivity|]. apply Hi. reflexivity.
Defined.

(** A stereo float file of finite samples is read as infinite: the finiteness
    check is before the downmix, whose sum overflows. *)
Example stereo_float_overflow :
  let big := f32_of_bits 2139095039 in
  let H := stereo_file Float 32 [] [big; big; f32_zero; f32_zero] in
  is_finite big = true ∧ read_wav_mono ["clip.wav"%string] = Ok (16000, [S754_infinity false; f32_zero]).
Proof. split; vm_compute; reflexivity. Qed.

Instance halving_reset : RubatoReset halving.
Proof. split. intros ratio r0 r _ _. reflexivity. Qed.

(** Three files of two rates through one slot. *)
Lemma resampler_cache_transparent_witness :
  let H := pcm_file in
  let files := [(22050, [f32_one]); (44100, [f32_one; f32_one]); (16000, [])] in
  ∃ c, to_waveforms files None = Some (c, map (λ f, Ok (waveform_ref (fst f) (snd f))) files) ∧ cached_rate c = Some 16000.
Proof.
  intros H files. destruct (resampler_cache_transparent files None I) as (c & Hc & _).
  - repeat (apply list.Forall_cons_2; [cbn; unfold u32_max; lia|]). apply Forall_nil_2.
  - exists c. split; [exact Hc|]. unfold files, to_waveforms in Hc. revert Hc.
    cbn [mbind option_bind]. destruct (to_waveform 22050 [f32_one] None) as [[c1 w1]|]; [|done]. cbn [mbind option_bind].
    destruct (to_waveform 44100 [f32_one; f32_one] c1) as [[c2 w2]|]; [|done]. cbn [mbind option_bind].
    unfold to_waveform at 1. cbn [Z.eqb Pos.eqb]. change (16000 =? TARGET_SR) with false. cbv iota.
    destruct (get_or_init 16000 c2) as [r|]; [|done]. cbn [mbind option_bind]. destruct (input_frames_next r =? 0)%nat; [done|].
    destruct (resample_chunks _ _ _ _ _) as [r' o]. cbn [mbind option_bind]. by injection 1 as <-.
Defined.
End WavScenario.
