(* ===== verification/OpusStream.v ===== *)
(** * The Opus stream

    [opus_stream.rs]: the encoder pipeline from the sample ring to the broadcast
    of Opus packets, and the task that runs it while there are listeners.

    [libopus] is a parameter ([LibOpus]); the resampler is [Resample]'s, the ring's
    arithmetic [AudioBuffer]'s.  One step is one turn of the task's outer loop
    while it is paused, of its inner loop while it is active, on what the turn
    observes ([StreamInputs]). *)

From Stdlib Require Import SpecFloat.
From S2P Require Import Prelude Common Framing AudioBuffer F32 Resample WavIo.

Local Open Scope Z_scope.

(** ** Constants *)

Definition OUT_RATE_HZ : Z := 48000.
Definition IN_RATE_HZ : Z := 44100.
Definition FRAME_MS : Z := 20.
Definition FRAME_SAMPLES : nat := Z.to_nat (OUT_RATE_HZ * FRAME_MS / 1000).
Definition MAX_PACKET_BYTES : nat := 4000.
Definition BITRATE_BPS : Z := 32000.
Definition COMPLEXITY : Z := 5.
Definition PCM_PULL_CHUNK : nat := 1024.
Definition BACKLOG_SAMPLES : nat := 4096.

(** [libopus]: an encode answers the packet, of at most the room given. *)
Class LibOpus := {
  Encoder : Type;
  LibError : Type;
  encoder_new : Z → result LibError Encoder;
  set_bitrate : Z → Encoder → result LibError Encoder;
  set_complexity : Z → Encoder → result LibError Encoder;
  encode_float : Encoder → list f32 → nat → result LibError (Encoder * list Z);
  reset_state : Encoder → result LibError Encoder;
}.

Section OpusStream.
Context `{R : Rubato} `{LO : LibOpus} `{P : Prost}.

Inductive OpusError : Type :=
  | EncoderInternal (stage : string) (source : LibError)
  | EmptyEncode
  | BadPcm (index : nat)
  | ResamplerInternal (source : StreamingResampleError).

Definition OpusError_kind (e : OpusError) : ErrorKind := Internal.

(** The encode scratch is written before it is read. *)
Record OpusEngine : Type := mkOpusEngine { encoder : Encoder; stream : Streaming; out_pcm : list f32 }.

(** [None] is the panic of the resampler's construction. *)
Definition OpusEngine_new : option (result OpusError OpusEngine) :=
  match encoder_new OUT_RATE_HZ with
  | Err e => Some (Err (EncoderInternal "init" e))
  | Ok enc =>
      match set_bitrate BITRATE_BPS enc with
      | Err e => Some (Err (EncoderInternal "init" e))
      | Ok enc =>
          match set_complexity COMPLEXITY enc with
          | Err e => Some (Err (EncoderInternal "init" e))
          | Ok enc =>
              s ← Streaming_new IN_RATE_HZ OUT_RATE_HZ;
              Some (Ok (mkOpusEngine enc s []))
          end
      end
  end.

(** ** [process_pcm] *)

(** [while self.out_pcm.len() >= FRAME_SAMPLES]: the encoder, what is left of the
    samples, and the packets; [None]: the fuel ran out. *)
Fixpoint encode_frames (fuel : nat) (enc : Encoder) (pcm : list f32) (out : list (list Z)) (emitted : nat)
    : option (Encoder * list f32 * list (list Z) * result OpusError nat) :=
  match fuel with
  | O => None
  | S fuel =>
      if (FRAME_SAMPLES <=? List.length pcm)%nat then
        match encode_float enc (take FRAME_SAMPLES pcm) MAX_PACKET_BYTES with
        | Err e => Some (enc, pcm, out, Err (EncoderInternal "encode" e))
        | Ok (enc, []) => Some (enc, pcm, out, Err EmptyEncode)
        | Ok (enc, packet) => encode_frames fuel enc (drop FRAME_SAMPLES pcm) (out ++ [packet]) (S emitted)
        end
      else Some (enc, pcm, out, Ok emitted)
  end.

(** The engine, the packets appended to [out], and the answer; [None] is a loop
    that does not end.  After an error the task returns: the engine is dropped. *)
Definition process_pcm (e : OpusEngine) (pcm : list f32) (out : list (list Z))
    : option (OpusEngine * list (list Z) * result OpusError nat) :=
  match position (λ s, negb (is_finite s)) pcm with
  | Some index => Some (e, out, Err (BadPcm index))
  | None =>
      match Streaming_process (stream e) pcm with
      | None => None
      | Some (Err source) => Some (e, out, Err (ResamplerInternal source))
      | Some (Ok (s, _)) =>
          let '(s, pcm) := drain_output_into s (out_pcm e) in
          '(enc, pcm, out, r) ← encode_frames (S (List.length pcm)) (encoder e) pcm out 0;
          Some (mkOpusEngine enc s pcm, out, r)
      end
  end.

(** [reset_after_discontinuity]. *)
Definition OpusEngine_reset (e : OpusEngine) : result OpusError OpusEngine :=
  match reset_state (encoder e) with
  | Err err => Err (EncoderInternal "reset" err)
  | Ok enc => Ok (mkOpusEngine enc (reset_after_discontinuity (stream e)) [])
  end.

(** ** The task *)

(** What the [select] answers; a tick only while active. *)
Inductive Woke : Type := WokeShutdown | WokeChanged | WokeClosed | WokeTick.

(** One turn's observations: each packet reads the clocks anew. *)
Record StreamInputs : Type := mkStreamInputs {
  si_shutdown : bool;
  si_subscribers : Z;
  si_woke : Woke;
  si_h_seek : Z;
  si_h0 : Z;
  si_pcm : list Z;
  si_h1 : Z;
  si_h_advance : Z;
  si_anchor : option BufferTimingAnchor;
  si_now_us : nat → Z;
  si_unix_us : nat → option Z;
}.

Record Stream : Type := mkStream {
  s_engine : option OpusEngine;      (** [None] while paused *)
  s_tail : Z;
  s_last : ReadStatus;
  s_seq : Z;                         (** [audio_seq] *)
  s_encoded : Z;                     (** [packets_encoded] *)
  s_sent : list (list Z);            (** broadcast payloads, oldest first *)
}.

Inductive streamed : Type :=
  | SGo (s : Stream)
  | SReturn (s : Stream) (r : result OpusError unit)
  | SPanic.

Variable ring : Inner.

(** [peek_into] of a chunk; [None] is its panic. *)
Definition peek_chunk (i : StreamInputs) (tail : Z) : option ReadStatus :=
  if capacity_minus_margin ring <? Z.of_nat PCM_PULL_CHUNK then None
  else Some (match peek_begin ring tail (si_h0 i) PCM_PULL_CHUNK with
             | inl status => status
             | inr _ => peek_end ring tail (si_h1 i)
             end).

Definition audio_frame (i : StreamInputs) (pull_start_tail : Z) (k : nat) (seq : Z) (packet : list Z) : AudioFrame :=
  let stamp := match si_anchor i with
               | Some anchor => capture_us_for anchor pull_start_tail
               | None => si_now_us i k
               end in
  mkAudioFrame seq (Some stamp) (si_unix_us i k) (Some 48000) (Some 20) (Some (Framing.Opus packet)).

(** [for pkt in packet_scratch.drain(..)]: the [k]-th packet of this turn. *)
Fixpoint emit_packets (i : StreamInputs) (pull_start_tail : Z) (k : nat) (packets : list (list Z)) (s : Stream) : Stream :=
  match packets with
  | [] => s
  | packet :: packets =>
      let seq := wrap_add64 (s_seq s) 1 in
      let '(_, payload) := wrap_audio_into [] (audio_frame i pull_start_tail k seq packet) in
      emit_packets i pull_start_tail (S k) packets
        (mkStream (s_engine s) (s_tail s) (s_last s) seq (wrap_add64 (s_encoded s) 1) (s_sent s ++ [payload]))
  end.

Definition with_engine (e : option OpusEngine) (s : Stream) : Stream :=
  mkStream e (s_tail s) (s_last s) (s_seq s) (s_encoded s) (s_sent s).
Definition with_tail (t : Z) (s : Stream) : Stream :=
  mkStream (s_engine s) t (s_last s) (s_seq s) (s_encoded s) (s_sent s).
Definition with_last (l : ReadStatus) (s : Stream) : Stream :=
  mkStream (s_engine s) (s_tail s) l (s_seq s) (s_encoded s) (s_sent s).

(** The paused branch, and the build of a new engine. *)
Definition paused_turn (i : StreamInputs) (s : Stream) : streamed :=
  if si_subscribers i =? 0 then
    match si_woke i with
    | WokeShutdown | WokeClosed => SReturn s (Ok tt)
    | WokeChanged | WokeTick => SGo s
    end
  else
    match OpusEngine_new with
    | None => SPanic
    | Some (Err e) => SReturn s (Err e)
    | Some (Ok engine) => SGo (with_engine (Some engine) (with_tail (seek_tail (si_h_seek i) BACKLOG_SAMPLES) s))
    end.

(** From the peek to the end of the inner loop's body. *)
Definition pump (i : StreamInputs) (engine : OpusEngine) (s : Stream) : streamed :=
  match peek_chunk i (s_tail s) with
  | None => SPanic
  | Some Wait => SGo (with_last Wait s)
  | Some (Lagged by_) =>
      let s := with_last (Lagged by_) (with_tail (seek_tail (si_h_seek i) BACKLOG_SAMPLES) s) in
      match OpusEngine_reset engine with
      | Err e => SReturn s (Err e)
      | Ok engine => SGo (with_engine (Some engine) s)
      end
  | Some Ready =>
      let pull_start_tail := s_tail s in
      match advance_tail (s_tail s) (si_h_advance i) PCM_PULL_CHUNK with
      | None => SPanic
      | Some tail =>
          let s := with_tail tail (with_last Ready s) in
          match process_pcm engine (map f32_of_bits (si_pcm i)) [] with
          | None => SPanic
          | Some (engine, _, Err e) => SReturn (with_engine (Some engine) s) (Err e)
          | Some (engine, packets, Ok _) => SGo (emit_packets i pull_start_tail 0 packets (with_engine (Some engine) s))
          end
      end
  end.

Definition active_turn (i : StreamInputs) (engine : OpusEngine) (s : Stream) : streamed :=
  if si_subscribers i =? 0 then SGo (with_engine None s)
  else
    match s_last s with
    | Wait =>
        match si_woke i with
        | WokeShutdown | WokeClosed => SReturn s (Ok tt)
        | WokeChanged => SGo s
        | WokeTick => pump i engine s
        end
    | _ => pump i engine s
    end.

Definition stream_turn (i : StreamInputs) (s : Stream) : streamed :=
  if si_shutdown i then SReturn s (Ok tt)
  else match s_engine s with None => paused_turn i s | Some engine => active_turn i engine s end.

Fixpoint stream_loop (inputs : list StreamInputs) (s : Stream) : streamed :=
  match inputs with
  | [] => SGo s
  | i :: inputs => match stream_turn i s with SGo s => stream_loop inputs s | other => other end
  end.

(** [run]. *)
Definition stream_start (tail : Z) : Stream := mkStream None tail Wait 0 0 [].
End OpusStream.
