(* ===== verification/OpusFacts.v ===== *)
(** * What listeners of the Opus stream hear: one batch, then whole runs

    Between two discontinuities (a resume, a lag) the packets are the encoding of
    consecutive chunks of the ring, as if the whole stretch had been encoded in
    one call; the frames are numbered without a gap and stamped with the position
    of their chunk. *)

From Stdlib Require Import SpecFloat.
From S2P Require Import Prelude Common Framing AudioBuffer F32 Resample WavIo WavIoFacts OpusStream.

Local Open Scope Z_scope.

Section EngineFacts.
Context `{R : Rubato} `{!RubatoLaws R} `{LO : LibOpus}.

(** ** Frame by frame *)

Inductive encodes : Encoder → list f32 → Encoder → list f32 → list (list Z) → Prop :=
  | encodes_done enc pcm : (List.length pcm < FRAME_SAMPLES)%nat → encodes enc pcm enc pcm []
  | encodes_more enc pcm enc1 b packet enc' rest packets :
      (FRAME_SAMPLES ≤ List.length pcm)%nat →
      encode_float enc (take FRAME_SAMPLES pcm) MAX_PACKET_BYTES = Ok (enc1, b :: packet) →
      encodes enc1 (drop FRAME_SAMPLES pcm) enc' rest packets →
      encodes enc pcm enc' rest ((b :: packet) :: packets).

Lemma FRAME_SAMPLES_960 : FRAME_SAMPLES = 960%nat.
Proof. reflexivity. Qed.

Lemma encode_frames_total fuel enc pcm out n : (List.length pcm < fuel)%nat →
  ∃ enc' rest packets r, encode_frames fuel enc pcm out n = Some (enc', rest, out ++ packets, r) ∧
    ∀ k, r = Ok k → k = (n + List.length packets)%nat ∧ encodes enc pcm enc' rest packets.
Proof.
  revert enc pcm out n. induction fuel as [|fuel IH]; intros enc pcm out n Hf; [lia|]. cbn [encode_frames].
  destruct (Nat.leb_spec FRAME_SAMPLES (List.length pcm)) as [Hle|Hlt].
  2:{ exists enc, pcm, [], (Ok n). rewrite app_nil_r. split; [done|]. intros k [= <-]. cbn. split; [lia|by constructor]. }
  destruct (encode_float enc (take FRAME_SAMPLES pcm) MAX_PACKET_BYTES) as [[enc1 [|b packet]]|err] eqn:E.
  - exists enc1, pcm, [], (Err EmptyEncode). by rewrite app_nil_r.
  - destruct (IH enc1 (drop FRAME_SAMPLES pcm) (out ++ [b :: packet]) (S n)) as (enc' & rest & packets & r & He & Hr).
    { rewrite length_drop, FRAME_SAMPLES_960 in *. lia. }
    exists enc', rest, ((b :: packet) :: packets), r. split; [by rewrite He, <-app_assoc|].
    intros k Hk. destruct (Hr k Hk) as [-> Henc]. cbn [List.length]. split; [lia|by econstructor].
  - exists enc, pcm, [], (Err (EncoderInternal "encode" err)). by rewrite app_nil_r.
Qed.

Lemma encodes_frames fuel enc pcm out n enc' rest packets : (List.length pcm < fuel)%nat → encodes enc pcm enc' rest packets →
  encode_frames fuel enc pcm out n = Some (enc', rest, out ++ packets, Ok (n + List.length packets)%nat).
Proof.
  intros Hf He. revert fuel out n Hf. induction He as [enc pcm Hlt|enc pcm enc1 b packet enc' rest packets Hle E He IH]; intros [|fuel] out n Hf; try lia;
    cbn [encode_frames List.length].
  - destruct (Nat.leb_spec FRAME_SAMPLES (List.length pcm)); [lia|]. by rewrite app_nil_r, Nat.add_0_r.
  - destruct (Nat.leb_spec FRAME_SAMPLES (List.length pcm)); [|lia]. rewrite E, IH by (rewrite length_drop, FRAME_SAMPLES_960 in *; lia).
    by rewrite <-app_assoc, Nat.add_succ_r.
Qed.

Lemma encodes_app enc a enc1 rest1 packets1 b enc2 rest2 packets2 :
  encodes enc a enc1 rest1 packets1 → encodes enc1 (rest1 ++ b) enc2 rest2 packets2 →
  encodes enc (a ++ b) enc2 rest2 (packets1 ++ packets2).
Proof.
  intros H. revert b enc2 rest2 packets2. induction H as [enc a Hlt|enc a ea x p e' rest packets Hle E He IH]; intros b enc2 rest2 packets2 H2; [done|].
  cbn [app]. eapply encodes_more; [rewrite length_app; lia| |].
  - rewrite take_app_le by lia. exact E.
  - rewrite drop_app_le by lia. by apply IH.
Qed.

(** ** Any pieces *)

(** Between calls nothing pends in the resampler. *)
Definition engine_ok (e : OpusEngine) : Prop := stream_ok (stream e) ∧ out (stream e) = [].

(** [e] took the samples [p], became [e'] and made [packets]. *)
Record fed (e : OpusEngine) (p : list f32) (e' : OpusEngine) (packets : list (list Z)) : Prop := {
  fd_finite : Forall (λ x, is_finite x = true) p;
  fd_sizes : chunk_size (stream e') = chunk_size (stream e) ∧ out_scratch_len (stream e') = out_scratch_len (stream e);
  fd_made : ∃ made, chunks (chunk_size (stream e)) (out_scratch_len (stream e)) (resampler (stream e)) []
      (accum (stream e) ++ p) (resampler (stream e')) made (accum (stream e')) ∧
    encodes (encoder e) (out_pcm e ++ made) (encoder e') (out_pcm e') packets;
}.

(** The output only grows at its end. *)
Lemma chunks_prefix chunk room r o l r' o' l' : chunks chunk room r o l r' o' l' →
  ∃ made, o' = o ++ made ∧ ∀ o2, chunks chunk room r o2 l r' (o2 ++ made) l'.
Proof.
  induction 1 as [r o l Hl|r o l r1 o1 r' o' l' Hl Hp H IH].
  - exists []. rewrite app_nil_r. split; [done|]. intros o2. rewrite app_nil_r. by constructor.
  - destruct IH as (made & -> & IH). exists (o1 ++ made). split; [by rewrite app_assoc|]. intros o2.
    eapply chunks_more; [done|done|]. rewrite app_assoc. apply IH.
Qed.

Lemma position_finite (p : list f32) : position (λ s, negb (is_finite s)) p = None ↔ Forall (λ x, is_finite x = true) p.
Proof.
  split.
  - intros H%position_none. eapply list.Forall_impl; [exact H|]. intros x Hx. cbn in Hx. by destruct (is_finite x).
  - induction 1 as [|x p Hx Hp IH]; [done|]. cbn [position]. by rewrite Hx, IH.
Qed.

(** A call always returns, and an [Ok] is [fed]. *)
Lemma process_pcm_fed e p out : engine_ok e →
  ∃ e' out' r, process_pcm e p out = Some (e', out', r) ∧
    ∀ n, r = Ok n → ∃ packets, out' = out ++ packets ∧ n = List.length packets ∧ fed e p e' packets ∧ engine_ok e'.
Proof.
  intros [Hs Ho]. unfold process_pcm. destruct (position (λ s, negb (is_finite s)) p) eqn:Ep; [by do 3 eexists|].
  apply position_finite in Ep. destruct (Streaming_process_ok (stream e) p Hs) as (s' & -> & Hs' & Hc & Hr & _ & Hch).
  cbn [drain_output_into]. rewrite Ho in Hch.
  destruct (encode_frames_total (S (List.length (out_pcm e ++ Resample.out s'))) (encoder e) (out_pcm e ++ Resample.out s') out 0) as (enc' & rest & packets & r & -> & He); [lia|].
  cbn [mbind option_bind]. eexists _, _, r. split; [done|]. intros n Hn. destruct (He n Hn) as [-> Henc].
  exists packets. split_and!; [done|done| |by split; [apply drop_stream_ok in Hs'|]].
  split; cbn; [done|done|]. by exists (Resample.out s').
Qed.

Lemma streaming_det chunk room r o l r1 o1 l1 r2 o2 l2 :
  chunks chunk room r o l r1 o1 l1 → chunks chunk room r o l r2 o2 l2 → (r1, o1, l1) = (r2, o2, l2).
Proof. intros H1 H2. by destruct (chunks_det _ _ _ _ _ _ _ _ _ _ _ H1 H2) as (-> & -> & ->). Qed.

(** And conversely: [fed] is a function. *)
Lemma fed_process e p e' packets : engine_ok e → engine_ok e' → fed e p e' packets →
  process_pcm e p [] = Some (e', packets, Ok (List.length packets)).
Proof.
  intros [Hs Ho] [Hs' Ho'] [Hf [Hc Hr] (made & Hch & Henc)]. unfold process_pcm. rewrite (proj2 (position_finite p) Hf).
  destruct (Streaming_process_ok (stream e) p Hs) as (s1 & -> & Hs1 & Hc1 & Hr1 & _ & Hch1). rewrite Ho in Hch1.
  pose proof (streaming_det _ _ _ _ _ _ _ _ _ _ _ Hch1 Hch) as [= E1 E2 E3]. cbn [drain_output_into]. rewrite E2.
  rewrite (encodes_frames _ _ _ _ _ _ _ _ (Nat.lt_succ_diag_r _) Henc). cbn [mbind option_bind app]. do 3 f_equal.
  destruct e' as [enc' s' pcm'], s', s1; cbn in *; congruence.
Qed.

Lemma fed_app e p e1 packets1 q e2 packets2 : fed e p e1 packets1 → fed e1 q e2 packets2 → fed e (p ++ q) e2 (packets1 ++ packets2).
Proof.
  intros [Hf1 [Hc1 Hr1] (made1 & Hch1 & Henc1)] [Hf2 [Hc2 Hr2] (made2 & Hch2 & Henc2)]. split.
  - by apply list.Forall_app.
  - split; congruence.
  - exists (made1 ++ made2). rewrite Hc1, Hr1 in Hch2. destruct (chunks_prefix _ _ _ _ _ _ _ _ Hch2) as (made & E & Hch). cbn in E. subst made.
    split.
    + rewrite app_assoc. eapply chunks_app; [exact Hch1|apply Hch].
    + rewrite app_assoc. by eapply encodes_app.
Qed.

Lemma fed_nil e : engine_ok e → (List.length (out_pcm e) < FRAME_SAMPLES)%nat → fed e [] e [].
Proof.
  intros [Hs Ho] Hl. split; [by constructor|done|]. exists []. rewrite !app_nil_r. split; [|by constructor].
  constructor. apply (so_residue _ Hs).
Qed.
End EngineFacts.

(** * Runs of the Opus task

    Every sequence of turns: what has been broadcast is, segment by segment, the
    one-call encoding of consecutive chunks of the ring. *)

(** A pull of one chunk and the packets it completed. *)
Record Pull : Type := mkPull { pl_inputs : StreamInputs; pl_packets : list (list Z) }.

(** A broadcast packet: the inputs of its turn, where its chunk starts, and its
    place among the packets of the turn. *)
Record Emission : Type := mkEmission { em_inputs : StreamInputs; em_start : Z; em_index : nat; em_packet : list Z }.

Definition chunk_of (p : Pull) : list f32 := map f32_of_bits (si_pcm (pl_inputs p)).

Section OpusRuns.
Context `{R : Rubato} `{!RubatoLaws R} `{LO : LibOpus} `{P : Prost}.
Variable ring : Inner.
Hypothesis ring_holds_chunk : Z.of_nat PCM_PULL_CHUNK ≤ capacity_minus_margin ring.

(** A stretch without a discontinuity: the engine it starts with, the position
    of its first chunk, and its pulls. *)
Record Segment : Type := mkSegment { sg_engine : OpusEngine; sg_start : Z; sg_pulls : list Pull }.

Definition segment_packets (g : Segment) : list (list Z) := concat (map pl_packets (sg_pulls g)).
Definition segment_pcm (g : Segment) : list f32 := concat (map chunk_of (sg_pulls g)).

(** The packets of a pull at [start]; of pulls, each a chunk behind the one
    before. *)
Definition pull_emissions (start : Z) (p : Pull) : list Emission :=
  imap (λ k packet, mkEmission (pl_inputs p) start k packet) (pl_packets p).
Fixpoint emissions (start : Z) (pulls : list Pull) : list Emission :=
  match pulls with
  | [] => []
  | p :: pulls => pull_emissions start p ++ emissions (start + Z.of_nat PCM_PULL_CHUNK) pulls
  end.
Definition all_emissions (gs : list Segment) : list Emission := concat (map (λ g, emissions (sg_start g) (sg_pulls g)) gs).

(** The frames: numbered from one. *)
Definition seq_of (n : nat) : Z := Z.of_nat n mod (u64_max + 1).
Definition frames (es : list Emission) : list AudioFrame :=
  imap (λ n e, audio_frame (em_inputs e) (em_start e) (em_index e) (seq_of (S n)) (em_packet e)) es.

(** An engine at the start of a segment: nothing of an earlier one is left. *)
Definition fresh (e : OpusEngine) : Prop := engine_ok e ∧ out_pcm e = [] ∧ accum (stream e) = [].

(** The engine after a segment is the one that took it in one call. *)
Definition segment_ok (g : Segment) (e : OpusEngine) : Prop :=
  fresh (sg_engine g) ∧ 0 ≤ sg_start g ∧
  process_pcm (sg_engine g) (segment_pcm g) [] = Some (e, segment_packets g, Ok (List.length (segment_packets g))).

Record inputs_ok (i : StreamInputs) : Prop := {
  io_heads : si_h0 i ≤ si_h_advance i ∧ si_h_advance i ≤ u64_max;
}.

(** ** The invariant *)

(** What has been broadcast is that of the segments [gs]. *)
Definition sent_of (gs : list Segment) (s : Stream) : Prop :=
  s_sent s = map wrap_audio (frames (all_emissions gs)) ∧
  s_seq s = seq_of (List.length (all_emissions gs)) ∧ s_encoded s = seq_of (List.length (all_emissions gs)).

Definition segments_ok (gs : list Segment) : Prop := Forall (λ g, ∃ e, segment_ok g e) gs.

(** The segment under way. *)
Definition current (gs : list Segment) (s : Stream) : Prop :=
  match s_engine s with
  | None => True
  | Some e => ∃ gs0 g, gs = gs0 ++ [g] ∧ engine_ok e ∧ fresh (sg_engine g) ∧ (List.length (out_pcm e) < FRAME_SAMPLES)%nat ∧
      fed (sg_engine g) (segment_pcm g) e (segment_packets g) ∧
      s_tail s = sg_start g + Z.of_nat PCM_PULL_CHUNK * Z.of_nat (List.length (sg_pulls g))
  end.

Definition stream_inv (s : Stream) : Prop := 0 ≤ s_tail s ∧ ∃ gs, sent_of gs s ∧ segments_ok gs ∧ current gs s.

Lemma fresh_fed e : fresh e → fed e [] e [].
Proof. intros (He & Hp & _). apply fed_nil; [done|]. rewrite Hp. cbn. rewrite FRAME_SAMPLES_960. cbn. lia. Qed.

Lemma fresh_segment e start : fresh e → 0 ≤ start → segment_ok (mkSegment e start []) e.
Proof. intros He Hs. split; [done|]. split; [done|]. apply (fed_process e [] e []); [apply He..|by apply fresh_fed]. Qed.

(** A new segment begins. *)
Lemma inv_new_segment e start s gs : sent_of gs s → segments_ok gs → fresh e → 0 ≤ start →
  stream_inv (with_engine (Some e) (with_tail start s)).
Proof.
  intros (H1 & H2 & H3) Hgs He Hs. split; [done|]. exists (gs ++ [mkSegment e start []]).
  assert (E : all_emissions (gs ++ [mkSegment e start []]) = all_emissions gs).
  { unfold all_emissions. rewrite map_app, concat_app. cbn. by rewrite app_nil_r. }
  split; [unfold sent_of; by rewrite E|]. split.
  - apply list.Forall_app. split; [done|]. constructor; [|constructor]. exists e. by apply fresh_segment.
  - cbn. exists gs, (mkSegment e start []). split_and!; [done|apply He|done| | |cbn; lia].
    + destruct He as (_ & -> & _). cbn. rewrite FRAME_SAMPLES_960. cbn. lia.
    + by apply fresh_fed.
Qed.

Lemma OpusEngine_new_fresh : ∃ r, OpusEngine_new = Some r ∧ ∀ e, r = Ok e → fresh e.
Proof.
  unfold OpusEngine_new. destruct (encoder_new OUT_RATE_HZ) as [e1|]; [|by eexists]. destruct (set_bitrate BITRATE_BPS e1) as [e2|]; [|by eexists].
  destruct (set_complexity COMPLEXITY e2) as [e3|]; [|by eexists].
  destruct (Streaming_new_ok IN_RATE_HZ OUT_RATE_HZ) as (s & Hs & Hok); [by compute|by compute|]. rewrite Hs. cbn.
  eexists. split; [done|]. intros e [= <-]. unfold Streaming_new in Hs. destruct (sinc_resampler _ _); cbn in Hs; [|done]. injection Hs as <-.
  by split_and!.
Qed.

Lemma OpusEngine_reset_fresh e : engine_ok e → ∀ e', OpusEngine_reset e = Ok e' → fresh e'.
Proof.
  intros [Hs Ho] e'. unfold OpusEngine_reset. destruct (reset_state (encoder e)); [|done]. injection 1 as <-.
  split_and!; [|done|done]. split; [by apply reset_stream_ok|done].
Qed.

(** ** Emitting *)

Lemma seq_of_S n : wrap_add64 (seq_of n) 1 = seq_of (S n).
Proof.
  unfold wrap_add64, seq_of. rewrite Nat2Z.inj_succ, <-Z.add_1_r. rewrite Zplus_mod_idemp_l. done.
Qed.

Lemma emit_packets_spec i start k packets s es : s_sent s = map wrap_audio (frames es) →
  s_seq s = seq_of (List.length es) → s_encoded s = seq_of (List.length es) →
  let s' := emit_packets i start k packets s in
  let es' := es ++ imap (λ j packet, mkEmission i start (k + j) packet) packets in
  s_sent s' = map wrap_audio (frames es') ∧ s_seq s' = seq_of (List.length es') ∧ s_encoded s' = seq_of (List.length es') ∧
  s_engine s' = s_engine s ∧ s_tail s' = s_tail s ∧ s_last s' = s_last s.
Proof.
  cbv zeta. revert k s es. induction packets as [|packet packets IH]; intros k s es H1 H2 H3; cbn [emit_packets imap].
  { by rewrite app_nil_r. }
  destruct (IH (S k) (mkStream (s_engine s) (s_tail s) (s_last s) (wrap_add64 (s_seq s) 1) (wrap_add64 (s_encoded s) 1)
      (s_sent s ++ [wrap_audio (audio_frame i start k (wrap_add64 (s_seq s) 1) packet)])) (es ++ [mkEmission i start k packet]))
    as (E1 & E2 & E3 & E4 & E5 & E6).
  - cbn [s_sent]. unfold frames. rewrite imap_app, map_app, H1, H2, seq_of_S. cbn. by rewrite Nat.add_0_r.
  - cbn [s_seq]. rewrite H2, length_app, seq_of_S. cbn. by rewrite Nat.add_1_r.
  - cbn [s_encoded]. rewrite H3, length_app, seq_of_S. cbn. by rewrite Nat.add_1_r.
  - assert (Ee : es ++ mkEmission i start (k + 0) packet :: imap ((λ j packet0, mkEmission i start (k + j) packet0) ∘ S) packets =
      (es ++ [mkEmission i start k packet]) ++ imap (λ j packet0, mkEmission i start (S k + j) packet0) packets).
    { rewrite <-app_assoc. cbn. rewrite Nat.add_0_r. do 2 f_equal. apply imap_ext. intros j x _. cbn. f_equal. lia. }
    rewrite Ee. by split_and!.
Qed.

(** ** The turns *)

Lemma emissions_snoc start pulls p :
  emissions start (pulls ++ [p]) = emissions start pulls ++ pull_emissions (start + Z.of_nat PCM_PULL_CHUNK * Z.of_nat (List.length pulls)) p.
Proof.
  revert start. induction pulls as [|q pulls IH]; intros start; cbn [emissions app List.length].
  - rewrite app_nil_r. cbn. f_equal. lia.
  - rewrite IH, app_assoc. do 2 f_equal. lia.
Qed.

Lemma all_emissions_snoc gs g p :
  all_emissions (gs ++ [mkSegment (sg_engine g) (sg_start g) (sg_pulls g ++ [p])]) =
  all_emissions (gs ++ [g]) ++ pull_emissions (sg_start g + Z.of_nat PCM_PULL_CHUNK * Z.of_nat (List.length (sg_pulls g))) p.
Proof.
  unfold all_emissions. rewrite !map_app, !concat_app. cbn [map List.concat sg_start sg_pulls]. rewrite emissions_snoc, !app_nil_r. by rewrite app_assoc.
Qed.

(** What a returned task leaves. *)
Definition sent_ok (s : Stream) : Prop := ∃ gs, sent_of gs s ∧ segments_ok gs.

Definition turn_ok (t : streamed) : Prop :=
  match t with SGo s => stream_inv s | SReturn s _ => sent_ok s | SPanic => False end.

Lemma peek_chunk_ready i tail : peek_chunk ring i tail = Some Ready → 0 ≤ tail → tail + Z.of_nat PCM_PULL_CHUNK ≤ si_h0 i.
Proof.
  unfold peek_chunk, peek_begin, sat_sub. destruct (_ <? _); [done|]. destruct (Z.ltb_spec (Z.max (si_h0 i - tail) 0) (Z.of_nat PCM_PULL_CHUNK)); [done|].
  intros _ Ht. unfold PCM_PULL_CHUNK in *. lia.
Qed.

Lemma pump_ok i e s : inputs_ok i → stream_inv s → s_engine s = Some e → turn_ok (pump ring i e s).
Proof.
  intros [Hi] (Ht & gs & Hsent & Hgs & Hcur) He. unfold current in Hcur. rewrite He in Hcur.
  destruct Hcur as (gs0 & g & -> & Hok & Hfr & Hlen & Hfed & Htl). unfold pump.
  destruct (peek_chunk ring i (s_tail s)) as [[| |by_]|] eqn:Ep.
  - pose proof (peek_chunk_ready i _ Ep Ht) as Hr. unfold advance_tail. rewrite sat_add64_exact by lia.
    destruct (Z.leb_spec (s_tail s + Z.of_nat PCM_PULL_CHUNK) (si_h_advance i)) as [_|]; [|lia].
    destruct (process_pcm_fed e (map f32_of_bits (si_pcm i)) [] Hok) as (e' & out' & r & -> & Hres).
    destruct r as [n|err]; [|cbn; by exists (gs0 ++ [g])]. destruct (Hres n eq_refl) as (packets & -> & _ & Hf & Hok'). cbn [app].
    set (pl := mkPull i packets). set (g' := mkSegment (sg_engine g) (sg_start g) (sg_pulls g ++ [pl])).
    destruct Hsent as (S1 & S2 & S3). cbn [turn_ok].
    set (s1 := with_engine (Some e') (with_tail (s_tail s + Z.of_nat PCM_PULL_CHUNK) (with_last Ready s))).
    destruct (emit_packets_spec i (s_tail s) 0 packets s1 (all_emissions (gs0 ++ [g])) S1 S2 S3) as (E1 & E2 & E3 & E4 & E5 & _).
    assert (Hem : all_emissions (gs0 ++ [g']) = all_emissions (gs0 ++ [g]) ++ imap (λ j packet, mkEmission i (s_tail s) (0 + j) packet) packets).
    { unfold g'. rewrite all_emissions_snoc, Htl. done. }
    assert (Hfed' : fed (sg_engine g') (segment_pcm g') e' (segment_packets g')).
    { unfold segment_pcm, segment_packets, g'. cbn [sg_pulls sg_engine]. rewrite !map_app, !concat_app. cbn [map List.concat]. rewrite !app_nil_r.
      eapply fed_app; [exact Hfed|exact Hf]. }
    split; [rewrite E5; cbn; unfold PCM_PULL_CHUNK; lia|]. exists (gs0 ++ [g']). split; [unfold sent_of; by rewrite Hem|]. split.
    + apply list.Forall_app in Hgs as [Hg0 Hg1]. apply list.Forall_app. split; [done|]. constructor; [|constructor]. exists e'.
      apply list.Forall_cons_1 in Hg1 as [(e0 & _ & Hst & _) _]. split; [done|]. split; [done|]. by apply fed_process; [apply Hfr|..].
    + unfold current. rewrite E4. cbn [s1 s_engine with_engine]. exists gs0, g'. split_and!; try done.
      * destruct Hf as [_ _ (made & _ & Henc)]. clear -Henc. by induction Henc.
      * rewrite E5. cbn [s1 s_tail with_engine with_tail g' sg_start sg_pulls]. rewrite Htl, length_app. cbn [List.length]. lia.
  - cbn. split; [done|]. exists (gs0 ++ [g]). split; [done|]. split; [done|]. unfold current. cbn. rewrite He. by exists gs0, g.
  - destruct (OpusEngine_reset e) as [e'|err] eqn:Er; [|cbn; by exists (gs0 ++ [g])]. cbn [turn_ok].
    apply (inv_new_segment e' (seek_tail (si_h_seek i) BACKLOG_SAMPLES) (with_last (Lagged by_) s) (gs0 ++ [g])); [done|done| |].
    + by eapply OpusEngine_reset_fresh.
    + unfold seek_tail, sat_sub. lia.
  - unfold peek_chunk in Ep. destruct (Z.ltb_spec (capacity_minus_margin ring) (Z.of_nat PCM_PULL_CHUNK)); [lia|done].
Qed.

Lemma stream_turn_ok i s : inputs_ok i → stream_inv s → turn_ok (stream_turn ring i s).
Proof.
  intros Hi Hinv. pose proof Hinv as (Ht & gs & Hsent & Hgs & Hcur). unfold stream_turn. destruct (si_shutdown i); [by exists gs|].
  destruct (s_engine s) as [e|] eqn:He.
  - unfold active_turn. destruct (si_subscribers i =? 0).
    { cbn. split; [done|]. by exists gs. }
    destruct (s_last s); [by apply pump_ok| |by apply pump_ok]. destruct (si_woke i); [by exists gs|done|by exists gs|by apply pump_ok].
  - unfold paused_turn. destruct (si_subscribers i =? 0); [by destruct (si_woke i); [exists gs| |exists gs|]|].
    destruct OpusEngine_new_fresh as (r & -> & Hr). destruct r as [e|err]; [|by exists gs].
    cbn [turn_ok]. apply (inv_new_segment e _ s gs); [done|done|by apply Hr|unfold seek_tail, sat_sub; lia].
Qed.

Definition stream_final (t : streamed) : option Stream :=
  match t with SGo s | SReturn s _ => Some s | SPanic => None end.

End OpusRuns.

(** ** A scenario *)

Section OpusScenario.
#[local] Existing Instance halving.

(** An encoder that numbers its packets. *)
Definition counting_opus : LibOpus := {|
  Encoder := nat;
  LibError := unit;
  encoder_new := λ _, Ok 0%nat;
  set_bitrate := λ _ e, Ok e;
  set_complexity := λ _ e, Ok e;
  encode_float := λ e _ _, Ok (S e, [Z.of_nat e]);
  reset_state := λ _, Ok 0%nat;
|}.
#[local] Existing Instance counting_opus.

(** An encoder of envelopes to read by eye: number, stamp and packet. *)
Definition audio_prost : Prost := {|
  encode_to_vec := λ e, match env_payload e with
    | Some (Audio f) => [af_seq f; default (-1) (af_t_us_capture_monotonic f)] ++ match af_codec f with Some (Framing.Opus p) => p | _ => [] end
    | _ => [] end;
  prost_decode := λ _, None;
|}.
#[local] Existing Instance audio_prost.

Definition os_ring : Inner := mkInner [] 8192 true [].
Definition os_turn (h : Z) (subscribers : Z) : StreamInputs :=
  mkStreamInputs false subscribers WokeTick h h (replicate PCM_PULL_CHUNK 0) h h (Some (mkBufferTimingAnchor 0 0 1000000)) (λ _, 0) (λ _, None).

End OpusScenario.
