(* ===== verification/MicSource.v ===== *)
(** * Capture sources ([src/modules/audio_io/source.rs], [source/mock.rs],
    [source/alsa.rs])

    Opening a candidate and reading a period of interleaved frames from it.
    The device behind an ALSA source is a parameter: a record of what the calls
    of the [alsa] crate answer, for one open ([AlsaDevice]) and for one read
    ([AlsaAnswers]).  A mock source synthesises its frames.

    A function that can panic answers an [option]: [None] is the panic (and the
    run out of fuel of the pacing loop, which [pace_ends] excludes). *)

From Stdlib Require Import SpecFloat.
From S2P Require Import Prelude Ids F32 MicTypes.
From stdpp Require Import sorting.

Open Scope Z_scope.

(** [Vec::dedup]. *)
Fixpoint dedup (l : list Z) : list Z :=
  match l with
  | x :: ((y :: _) as t) => if x =? y then dedup t else x :: dedup t
  | _ => l
  end.

(** [l[i] = v] and [&l[from..to]]. *)
Definition set_at {A} (l : list A) (i : nat) (v : A) : option (list A) :=
  if (i <? List.length l)%nat then Some (<[i := v]> l) else None.

Definition slice {A} (l : list A) (from to : nat) : option (list A) :=
  if (from <=? to)%nat && (to <=? List.length l)%nat then Some (take (to - from) (drop from l)) else None.

(** ** Reads *)

Inductive ReadOutcome : Type :=
  | Frames (n : nat)
  | Timeout
  | StopRequested
  | EndOfStream.

(** The errno of an [alsa::Error]; the mock's error is uninhabited. *)
Inductive ReadError : Type := ReadAlsa (errno : Z).

(** What the messages of a failed open say. *)
Inductive OpenMessage : Type :=
  | FailedValidation (e : CandidateError)
  | WrongKind
  | AlsaCall (call err : string)
  | NoChannels
  | ImplausibleChannels (max : Z)
  | NonPositivePeriod (p : Z)
  | EmptyWhitelist
  | NoUsableChannel.

(** ** The mock source *)

Record MockSource := mkMockSource {
  ms_id : MicId;
  ms_waveforms : list Waveform;
  ms_whitelist : list Z;
  ms_period_size : nat;
  ms_sample_rate : Z;
  ms_rng_states : list Z;
  ms_next_block_at : Z;
  ms_absolute_idx : Z;
}.

Definition seed_of (w : Waveform) : Z := match w with WhiteNoise _ seed => Z.max seed 1 | _ => 1 end.

(** [now] is what [Instant::now] answers. *)
Definition MockSource_open (now : Z) (c : MicCandidate) : result OpenMessage MockSource :=
  match MicCandidate_validate c with
  | Err e => Err (FailedValidation e)
  | Ok _ =>
      match cand_source c with
      | SrcMock waveforms period_size sample_rate =>
          Ok (mkMockSource (cand_id c) waveforms (dedup (sort_unstable (cand_channels c)))
                (Z.to_nat period_size) sample_rate (map seed_of waveforms) now 0)
      | SrcAlsa _ _ _ => Err WrongKind
      end
  end.

Section Synthesis.
Context `{L : Libm}.

Definition f64_pi : f64 := S754_finite false 7074237752028440 (-51).

Definition wrap32 (z : Z) : Z := z mod 2 ^ 32.
(** [bits as i32] of a [u32]. *)
Definition as_i32 (z : Z) : Z := if z <? 2 ^ 31 then z else z - 2 ^ 32.

Definition omega (freq_hz : f32) (sample_rate : Z) : f64 :=
  f64_div (f64_mul (f64_mul (f64_of_int 2) f64_pi) (f32_as_f64 freq_hz)) (f64_of_int sample_rate).

Definition sine_sample (amp : f64) (freq_hz : f32) (sample_rate n : Z) : f32 :=
  f64_as_f32 (f64_mul amp (f64_sin (f64_mul (omega freq_hz sample_rate) (f64_of_int n)))).

(** Sample [n] of a waveform, and the generator after it; [None] for silence,
    which leaves the zeros. *)
Definition wave_sample (w : Waveform) (sample_rate n rng : Z) : option f32 * Z :=
  match w with
  | Silence => (None, rng)
  | Sine freq_hz amplitude => (Some (sine_sample (f32_as_f64 amplitude) freq_hz sample_rate n), rng)
  | WhiteNoise amplitude _ =>
      let rng := (rng * 6364136223846793005 + 1442695040888963407) mod 2 ^ 64 in
      let signed := as_i32 (wrap32 (Z.shiftr rng 32)) in
      (Some (f32_mul (f32_div (f32_of_int signed) (f32_of_int (2 ^ 31 - 1))) amplitude), rng)
  | Counter => (Some (f32_of_int (Z.land n 65535)), rng)
  | PingPongSine freq_hz high_amp low_amp half_period_samples inverted =>
      let half := Z.max half_period_samples 1 in
      let cycle := saturating_mul half 2 in
      let in_high_half := n mod cycle <? half in
      let amp := if xorb in_high_half inverted then f32_as_f64 high_amp else f32_as_f64 low_amp in
      (Some (sine_sample amp freq_hz sample_rate n), rng)
  end.

(** [generate_channel_into]: frame [f], with [count] frames to go. *)
Fixpoint generate_channel_into (interleaved : list f32) (channel n_channels count f : nat) (w : Waveform)
    (sample_rate start rng : Z) : option (list f32 * Z) :=
  match count with
  | O => Some (interleaved, rng)
  | S count =>
      let '(v, rng) := wave_sample w sample_rate (wrap_add64 start (Z.of_nat f)) rng in
      interleaved ← match v with
                    | None => Some interleaved
                    | Some v => set_at interleaved (f * n_channels + channel) v
                    end;
      generate_channel_into interleaved channel n_channels count (S f) w sample_rate start rng
  end.

(** The loop over the channels, from channel [ch]. *)
Fixpoint synthesize (target : list f32) (ch n_channels period : nat) (ws : list Waveform) (sample_rate start : Z)
    (rngs : list Z) : option (list f32 * list Z) :=
  match ws, rngs with
  | [], _ => Some (target, rngs)
  | _, [] => None
  | w :: ws, rng :: rngs =>
      '(target, rng) ← generate_channel_into target ch n_channels period 0 w sample_rate start rng;
      '(target, rngs) ← synthesize target (S ch) n_channels period ws sample_rate start rngs;
      Some (target, rng :: rngs)
  end.

Definition STOP_POLL_SLICE : Z := from_millis 2.

(** The pacing sleep: before each slice the stop flag is read, after it the
    clock ([polls]).  The answer is whether a stop was seen. *)
Fixpoint pace (fuel k : nat) (target remaining : Z) (polls : nat → bool * Z) : option bool :=
  match fuel with
  | O => None
  | S fuel =>
      if STOP_POLL_SLICE <? remaining then
        if (polls k).1 then Some true
        else pace fuel (S k) target (saturating_duration_since target (polls k).2) polls
      else Some false
  end.

Definition pace_fuel (remaining : Z) : nat := S (Z.to_nat (remaining / STOP_POLL_SLICE)).

Definition MockSource_read_interleaved (now : Z) (polls : nat → bool * Z) (s : MockSource) (out : list f32)
    : option (ReadOutcome * MockSource * list f32) :=
  let n_channels := List.length (ms_waveforms s) in
  let needed := (ms_period_size s * n_channels)%nat in
  block_dur ← from_secs_f64 (f64_div (f64_of_int (Z.of_nat (ms_period_size s))) (f64_of_int (ms_sample_rate s)));
  let next_block_at := if ms_next_block_at s + block_dur <? now then now else ms_next_block_at s in
  let with_time next abs rngs :=
    mkMockSource (ms_id s) (ms_waveforms s) (ms_whitelist s) (ms_period_size s) (ms_sample_rate s) rngs next abs in
  stopped ← (if now <? next_block_at
             then pace (pace_fuel (next_block_at - now)) 0 next_block_at (next_block_at - now) polls
             else Some false);
  if (stopped : bool) then Some (StopRequested, with_time next_block_at (ms_absolute_idx s) (ms_rng_states s), out)
  else
    target ← slice out 0 needed;
    '(target, rngs) ← synthesize (replicate (List.length target) f32_zero) 0 n_channels (ms_period_size s)
                        (ms_waveforms s) (ms_sample_rate s) (ms_absolute_idx s) (ms_rng_states s);
    (* [NonZeroUsize::new(...).expect(...)] *)
    if (ms_period_size s =? 0)%nat then None
    else Some (Frames (ms_period_size s),
               with_time (next_block_at + block_dur) (wrap_add64 (ms_absolute_idx s) (Z.of_nat (ms_period_size s))) rngs,
               target ++ drop needed out).
End Synthesis.

(** ** The ALSA source *)

(** What a device answers to the calls of an open.  Errors are their text. *)
Record AlsaDevice := mkAlsaDevice {
  pcm_new : result string unit;
  hwparams_any : result string unit;
  set_access : result string unit;
  set_format_float : result string unit;
  set_format_s16 : result string unit;
  set_channels : Z → result string unit;
  get_channels_max : result string Z;
  set_rate : result string unit;
  set_period_size_near : Z → result string unit;
  set_buffer_size_near : Z → result string unit;
  hw_params : result string unit;
  get_rate : result string Z;
  get_period_size : result string Z;
  pcm_prepare : result string unit;
  pcm_start : result string unit;
  pollfds_get : result string unit;
}.

Record AlsaSource := mkAlsaSource {
  as_id : MicId;
  as_whitelist : list Z;
  as_channels : Z;
  as_period_size : nat;
  as_is_float : bool;
  as_rate : Z;
}.

Definition intersect_whitelist (raw : list Z) (actual_channels : Z) : list Z :=
  dedup (sort_unstable (List.filter (λ ch, ch <? actual_channels) raw)).

Definition call {A} (name : string) (r : result string A) : result OpenMessage A := map_err (AlsaCall name) r.

(** The exact count if the device takes it, else its maximum. *)
Definition negotiate_channels (dev : AlsaDevice) (needed : Z) : result OpenMessage Z :=
  if is_ok (set_channels dev needed) then Ok (needed mod 2 ^ 16)
  else
    max ← call "get_channels_max" (get_channels_max dev);
    if max =? 0 then Err NoChannels
    else if u16_max <? max then Err (ImplausibleChannels max)
    else
      _ ← call "set_channels fallback" (set_channels dev max);
      Ok (max mod 2 ^ 16).

Definition AlsaSource_open (dev : AlsaDevice) (c : MicCandidate) : result OpenMessage AlsaSource :=
  match MicCandidate_validate c with
  | Err e => Err (FailedValidation e)
  | Ok _ =>
      match cand_source c with
      | SrcMock _ _ _ => Err WrongKind
      | SrcAlsa _ period_size buffer_size =>
          _ ← call "PCM::new" (pcm_new dev);
          if len (cand_channels c) =? 0 then Err EmptyWhitelist
          else
            let needed := max_channel (cand_channels c) + 1 in
            _ ← call "HwParams::any" (hwparams_any dev);
            _ ← call "set_access" (set_access dev);
            is_float ← (if is_ok (set_format_float dev) then Ok true
                        else _ ← call "set_format(s16)" (set_format_s16 dev); Ok false);
            actual_channels ← negotiate_channels dev needed;
            _ ← call "set_rate" (set_rate dev);
            _ ← call "set_period_size_near" (set_period_size_near dev period_size);
            _ ← call "set_buffer_size_near" (set_buffer_size_near dev buffer_size);
            _ ← call "hw_params" (hw_params dev);
            actual_rate ← call "get_rate" (get_rate dev);
            neg_period ← call "get_period_size" (get_period_size dev);
            if neg_period <=? 0 then Err (NonPositivePeriod neg_period)
            else
              let effective_whitelist := intersect_whitelist (cand_channels c) actual_channels in
              if len effective_whitelist =? 0 then Err NoUsableChannel
              else
                _ ← call "prepare" (pcm_prepare dev);
                _ ← call "start" (pcm_start dev);
                _ ← call "PollDescriptors::get" (pollfds_get dev);
                Ok (mkAlsaSource (cand_id c) effective_whitelist actual_channels (Z.to_nat neg_period) is_float actual_rate)
      end
  end.

(** What a device answers to the calls of a read: the poll on a timeout in
    milliseconds, the typed handle, and [readi], given the channels of the PCM
    and the room in samples, with the frames it wrote. *)
Record AlsaAnswers := mkAlsaAnswers {
  alsa_poll : Z → result Z nat;
  alsa_io : result Z unit;
  alsa_readi_f32 : nat → nat → result Z (nat * list f32);
  alsa_readi_i16 : nat → nat → result Z (nat * list Z);
}.

Inductive AlsaReadOutcome : Type := AlsaFrames (n : nat) | AlsaTimeout.

Definition EINTR : Z := 4.
Definition EAGAIN : Z := 11.
Definition is_eagain (errno : Z) : bool := errno =? EAGAIN.

Definition i32_max : Z := 2 ^ 31 - 1.

(** [s as f32 / 32_768.0] *)
Definition i16_as_sample (s : Z) : f32 := f32_div (f32_of_int s) (f32_of_int 32768).

Definition default_read_timeout (s : AlsaSource) : option Z :=
  d ← from_secs_f64 (f64_div (f64_of_int (Z.of_nat (as_period_size s))) (f64_of_int (as_rate s)));
  Some (Z.min (d * 2) ((u64_max + 1) * ns_per_sec - 1)).

(** Overwrite the front of a slice. *)
Definition overwrite (data out : list f32) : list f32 := data ++ drop (List.length data) out.

Definition read_with_timeout (ans : AlsaAnswers) (s : AlsaSource) (out : list f32) (timeout : Z)
    : option (result Z AlsaReadOutcome * list f32) :=
  let channels := Z.to_nat (as_channels s) in
  let needed := (as_period_size s * channels)%nat in
  match alsa_poll ans (Z.min (timeout / 1000000) i32_max) with
  | Err errno => Some (if errno =? EINTR then Ok AlsaTimeout else Err errno, out)
  | Ok 0%nat => Some (Ok AlsaTimeout, out)
  | Ok _ =>
      _ ← slice out 0 needed;
      match alsa_io ans with
      | Err errno => Some (Err errno, out)
      | Ok _ =>
          if as_is_float s then
            match alsa_readi_f32 ans channels needed with
            | Err errno => Some (if is_eagain errno then Ok AlsaTimeout else Err errno, out)
            | Ok (frames, data) => Some (Ok (AlsaFrames frames), overwrite data out)
            end
          else
            match alsa_readi_i16 ans channels needed with
            | Err errno => Some (if is_eagain errno then Ok AlsaTimeout else Err errno, out)
            | Ok (frames, data) =>
                (* [target[..n_samples]], of [needed] samples *)
                if (frames * channels <=? needed)%nat
                then Some (Ok (AlsaFrames frames), overwrite (map i16_as_sample data) out)
                else None
            end
      end
  end.

Definition AlsaSource_read_interleaved (ans : AlsaAnswers) (s : AlsaSource) (out : list f32)
    : option (result ReadError ReadOutcome * list f32) :=
  timeout ← default_read_timeout s;
  '(r, out) ← read_with_timeout ans s out timeout;
  Some (match r with
        | Ok AlsaTimeout => Ok Timeout
        | Ok (AlsaFrames 0) => Ok EndOfStream
        | Ok (AlsaFrames n) => Ok (Frames n)
        | Err e => Err (ReadAlsa e)
        end, out).

(** ** The active source *)

Inductive ActiveSource : Type :=
  | ActiveMock (s : MockSource)
  | ActiveAlsa (s : AlsaSource).

Definition src_id (a : ActiveSource) : MicId := match a with ActiveMock s => ms_id s | ActiveAlsa s => as_id s end.
(** [waveforms.len() as u16] for a mock. *)
Definition src_channels (a : ActiveSource) : Z :=
  match a with ActiveMock s => len (ms_waveforms s) mod 2 ^ 16 | ActiveAlsa s => as_channels s end.
Definition src_rate (a : ActiveSource) : Z := match a with ActiveMock s => ms_sample_rate s | ActiveAlsa s => as_rate s end.
Definition src_period_size (a : ActiveSource) : nat :=
  match a with ActiveMock s => ms_period_size s | ActiveAlsa s => as_period_size s end.
Definition src_whitelist (a : ActiveSource) : list Z :=
  match a with ActiveMock s => ms_whitelist s | ActiveAlsa s => as_whitelist s end.

Inductive OpenError : Type :=
  | InvalidCandidate (id : MicId) (e : CandidateError)
  | AlsaNotCompiledIn (id : MicId)
  | SourceUnavailable (id : MicId) (msg : OpenMessage).

Definition open_error_id (e : OpenError) : MicId :=
  match e with InvalidCandidate id _ => id | AlsaNotCompiledIn id => id | SourceUnavailable id _ => id end.

(** [alsa_real]: whether the crate was built for Linux with the feature. *)
Definition open_alsa (alsa_real : bool) (dev : AlsaDevice) (c : MicCandidate) : result OpenError ActiveSource :=
  if alsa_real
  then match AlsaSource_open dev c with Ok s => Ok (ActiveAlsa s) | Err m => Err (SourceUnavailable (cand_id c) m) end
  else Err (AlsaNotCompiledIn (cand_id c)).

Definition open_source (alsa_real : bool) (dev : AlsaDevice) (now : Z) (c : MicCandidate) : result OpenError ActiveSource :=
  match MicCandidate_validate c with
  | Err e => Err (InvalidCandidate (cand_id c) e)
  | Ok _ =>
      match cand_source c with
      | SrcMock _ _ _ =>
          match MockSource_open now c with Ok s => Ok (ActiveMock s) | Err m => Err (SourceUnavailable (cand_id c) m) end
      | SrcAlsa _ _ _ => open_alsa alsa_real dev c
      end
  end.

(** What the environment answers to a read: the clock and the pacing polls of a
    mock, the device of an ALSA source. *)
Record ReadInputs := mkReadInputs {
  ri_now : Z;
  ri_polls : nat → bool * Z;
  ri_alsa : AlsaAnswers;
}.

Definition read_interleaved `{L : Libm} (i : ReadInputs) (a : ActiveSource) (out : list f32)
    : option (result ReadError ReadOutcome * ActiveSource * list f32) :=
  match a with
  | ActiveMock s =>
      '(r, s, out) ← MockSource_read_interleaved (ri_now i) (ri_polls i) s out;
      Some (Ok r, ActiveMock s, out)
  | ActiveAlsa s =>
      '(r, out) ← AlsaSource_read_interleaved (ri_alsa i) s out;
      Some (r, ActiveAlsa s, out)
  end.
