(* ===== verification/MicArbitrator.v ===== *)
(** * The microphone arbitrator ([src/modules/audio_io/mic_arbitrator.rs])

    One thread owns at most one open source, reads it period by period, follows
    the loudness of each of its channels, and pushes the samples of one of them
    to the audio ring.  [iterate] is one turn of [run_loop]; what the turn asks
    of the world (the settings, the clock, the devices) is its input
    ([LoopInputs]).  [None] is a panic, which the thread turns into an abort of
    the process.  Log lines are left out, but the state of their rate limit is
    kept. *)

From S2P Require Import Prelude Ids Common F32 AudioBuffer Resample MicTypes MicSource.

Open Scope Z_scope.

(** ** Configuration *)

Record MicArbitratorConfig := mkMicArbitratorConfig {
  hysteresis_db : f32;
  dwell : Z;
  rms_window : Z;
  mic_failover_after : Z;
  failover_retry_interval : Z;
  (** whether a timing anchor is shared *)
  timing_anchor : bool;
}.

Definition default_config : MicArbitratorConfig :=
  mkMicArbitratorConfig (f32_of_int 3) (from_millis 250) (from_millis 100) (from_secs 2) (from_secs 1) false.

Inductive ConfigError : Type := BadHysteresis | ZeroRmsWindow | ZeroFailoverAfter | ZeroRetryInterval.

Definition MicArbitratorConfig_validate (c : MicArbitratorConfig) : result ConfigError unit :=
  if negb (is_finite (hysteresis_db c) && float_ge (hysteresis_db c) f32_zero) then Err BadHysteresis
  else if rms_window c =? 0 then Err ZeroRmsWindow
  else if mic_failover_after c =? 0 then Err ZeroFailoverAfter
  else if failover_retry_interval c =? 0 then Err ZeroRetryInterval
  else Ok tt.

(** ** Pure helpers *)

(** [block_rms], with its [f64] accumulator. *)
Definition block_rms (samples : list f32) : f32 :=
  match samples with
  | [] => f32_zero
  | _ =>
      let sum_sq := fold_left (λ acc v, f64_add acc (f64_mul (f32_as_f64 v) (f32_as_f64 v))) samples (f64_of_int 0) in
      f64_as_f32 (f64_sqrt (f64_div sum_sq (f64_of_int (len samples))))
  end.

Record SlotState := mkSlotState { rms : f32 }.
Definition SlotState_default : SlotState := mkSlotState f32_zero.

(** [if raw.is_finite() { raw } else { 0.0 }] *)
Definition clamp_finite (raw : f32) : f32 := if is_finite raw then raw else f32_zero.

(** The frames of one channel, from frame [f]. *)
Fixpoint demux_channel (interleaved : list f32) (n_channels ch count f : nat) : option (list f32) :=
  match count with
  | O => Some []
  | S count =>
      raw ← interleaved !! (f * n_channels + ch)%nat;
      rest ← demux_channel interleaved n_channels ch count (S f);
      Some (clamp_finite raw :: rest)
  end.

Definition sum_squares (samples : list f32) : f32 :=
  fold_left (λ acc s, f32_add acc (f32_mul s s)) samples f32_zero.

(** [l[offset..].copy_from(data)]; the slice is in range. *)
Definition write_at (l : list f32) (offset : nat) (data : list f32) : option (list f32) :=
  if (offset + List.length data <=? List.length l)%nat
  then Some (take offset l ++ data ++ drop (offset + List.length data) l)
  else None.

(** The loop over the slots of [single_pass_demux_and_rms], from slot
    [slot_idx]. *)
Fixpoint single_pass_demux_and_rms (interleaved : list f32) (n_channels : nat) (whitelist : list Z)
    (slot_scratch_flat sum_sq_scratch : list f32) (frames stride slot_idx : nat) : option (list f32 * list f32) :=
  match whitelist with
  | [] => Some (slot_scratch_flat, sum_sq_scratch)
  | ch :: whitelist =>
      samples ← demux_channel interleaved n_channels (Z.to_nat ch) frames 0;
      slot_scratch_flat ← write_at slot_scratch_flat (slot_idx * stride) samples;
      sum_sq_scratch ← set_at sum_sq_scratch slot_idx (sum_squares samples);
      single_pass_demux_and_rms interleaved n_channels whitelist slot_scratch_flat sum_sq_scratch frames stride (S slot_idx)
  end.

(** The [max_by] of [pick_slot]: the last of the loudest, where an
    incomparable pair counts as equal. *)
Fixpoint loudest (per_slot : list SlotState) (i : nat) (best : nat * f32) : nat * f32 :=
  match per_slot with
  | [] => best
  | s :: per_slot => loudest per_slot (S i) (if float_gt best.2 (rms s) then best else (i, rms s))
  end.

Definition position {A} (p : A → bool) (l : list A) : option nat :=
  (fix go (i : nat) (l : list A) : option nat :=
     match l with [] => None | x :: l => if p x then Some i else go (S i) l end) O l.

Definition in_whitelist (channel : Z) (whitelist : list Z) : bool := existsb (Z.eqb channel) whitelist.

(** The arm of [pick_slot] that compares loudness; [per_slot] is not empty. *)
Definition pick_loudest (s0 : SlotState) (rest : list SlotState) (current_slot : option nat) (last_switched_at : option Z)
    (now : Z) (hysteresis_linear : f32) (dwell : Z) : option nat :=
  let '(loudest_idx, loudest_rms) := loudest rest 1 (O, rms s0) in
  match current_slot with
  | None => Some loudest_idx
  | Some active_idx =>
      if (active_idx =? loudest_idx)%nat then Some active_idx
      else
        active ← (s0 :: rest) !! active_idx;
        let above_threshold := float_gt loudest_rms (f32_mul (rms active) hysteresis_linear) in
        let dwell_satisfied := match last_switched_at with
                               | None => true
                               | Some t => dwell <=? saturating_duration_since now t
                               end in
        if above_threshold && dwell_satisfied then Some loudest_idx else Some active_idx
  end.

(** [pick_slot]: [None] is the panic, [Some None] no slot. *)
Definition pick_slot (policy : ChannelSelection) (per_slot : list SlotState) (whitelist : list Z) (current_slot : option nat)
    (last_switched_at : option Z) (now : Z) (hysteresis_linear : f32) (dwell : Z) : option (option nat) :=
  match per_slot with
  | [] => Some None
  | s0 :: rest =>
      match (match policy with FixedChannel channel => position (Z.eqb channel) whitelist | Auto => None end) with
      | Some idx => Some (Some idx)
      | None => idx ← pick_loudest s0 rest current_slot last_switched_at now hysteresis_linear dwell; Some (Some idx)
      end
  end.

(** [FirstAvailable] stays on the active source while it is a candidate. *)
Definition resolve_desired_idx (sel : MicSelection) (cs : list MicCandidate) (current_active : option MicId) : option nat :=
  let position_of id := position (λ c, bool_decide (cand_id c = id)) cs in
  match sel with
  | FixedMic id => position_of id
  | FirstAvailable =>
      match (match current_active with Some active => position_of active | None => None end) with
      | Some idx => Some idx
      | None => match cs with [] => None | _ => Some O end
      end
  end.

Definition WARN_INTERVAL : Z := from_secs 30.

(** [rate_limited_warn]: when the last line was logged. *)
Definition rate_limited_warn (last : option Z) (now : Z) : option Z :=
  match last with
  | Some t => if WARN_INTERVAL <? saturating_duration_since now t then Some now else last
  | None => Some now
  end.

(** ** The ring, one push at a time *)

(** [Writer::push] from its first store to its last, by the one writer. *)
Definition Writer_push (b : Inner) (samples : list Z) : option Inner :=
  match push_begin b samples with
  | None => None
  | Some WIdle => Some b
  | Some (WStoring todo next_head) => Some (store_head next_head (fold_left (λ b '(c, x), store_cell c x b) todo b))
  end.

(** [v.chunks(n)] of a list at most [fuel] long; [None] is the panic of a zero
    [n]. *)
Fixpoint chunks_of (fuel : nat) (n : nat) (l : list f32) : list (list f32) :=
  match fuel, l with
  | S fuel, _ :: _ => take n l :: chunks_of fuel n (drop n l)
  | _, _ => []
  end.

Definition chunks_checked (n : nat) (l : list f32) : option (list (list f32)) :=
  if (n =? 0)%nat then None else Some (chunks_of (List.length l) n l).

Section Arbitrator.
Context `{L : Libm} `{R : Rubato}.

(** [10^(db / 20)] *)
Definition hysteresis_linear (c : MicArbitratorConfig) : f32 :=
  f32_powf (f32_of_int 10) (f32_div (hysteresis_db c) (f32_of_int 20)).

Definition ema_alpha (block_dur window : Z) : f32 :=
  if window =? 0 then f32_one
  else
    let ratio := f32_div (as_secs_f32 block_dur) (as_secs_f32 window) in
    f32_sub f32_one (f32_exp (SpecFloat.SFopp ratio)).

Definition block_duration (frames : nat) (rate : Z) : option Z :=
  from_secs_f64 (f64_div (f64_of_int (Z.of_nat frames)) (f64_of_int rate)).

Definition alpha_for_frames (frames nominal_period_frames : nat) (rate : Z) (cached_nominal_alpha : f32) (window : Z) : option f32 :=
  if (frames =? nominal_period_frames)%nat then Some cached_nominal_alpha
  else d ← block_duration frames rate; Some (ema_alpha d window).

(** ** The state *)

Record ArbitratorState := mkArbitratorState {
  active : option ActiveSource;
  cached_whitelist : list Z;
  cached_n_channels : nat;
  cached_rate : Z;
  cached_period_frames : nat;
  cached_alpha : f32;
  per_slot : list SlotState;
  resamplers : list (option Streaming);
  active_slot : option nat;
  last_switch_at : option Z;
  last_data_at : Z;
  interleaved_scratch : list f32;
  slot_scratch_flat : list f32;
  sum_sq_scratch : list f32;
  out_scratch : list f32;
}.

Definition ArbitratorState_new (now : Z) : ArbitratorState :=
  mkArbitratorState None [] O 0 O f32_one [] [] None None now [] [] [] [].

Definition active_id (st : ArbitratorState) : option MicId := option_map src_id (active st).

(** [boot]; [None]: a duration or a resampler that cannot be built. *)
Definition boot (st : ArbitratorState) (src : ActiveSource) (cfg : MicArbitratorConfig) (now : Z) : option ArbitratorState :=
  let n_channels := Z.to_nat (src_channels src) in
  let period := src_period_size src in
  let rate := src_rate src in
  let whitelist := src_whitelist src in
  let n_slots := List.length whitelist in
  nominal_block ← block_duration period rate;
  new_resamplers ← (if rate =? SampleRate_VALUE then Some (replicate n_slots None)
                    else mapM (λ _, s ← Streaming_new rate SampleRate_VALUE; Some (Some s)) whitelist);
  Some (mkArbitratorState (Some src) whitelist n_channels rate period (ema_alpha nominal_block (rms_window cfg))
          (replicate n_slots SlotState_default) new_resamplers None None now
          (replicate (period * n_channels) f32_zero) (replicate (n_slots * period) f32_zero) (replicate n_slots f32_zero) []).

Definition tear_down (st : ArbitratorState) : ArbitratorState :=
  mkArbitratorState None [] O 0 O f32_one [] [] None None (last_data_at st)
    (interleaved_scratch st) (slot_scratch_flat st) (sum_sq_scratch st) (out_scratch st).

(** After a recovered ALSA error: every history restarts, the loudness and the
    choice stay. *)
Definition reset_per_channel_fir (rs : list (option Streaming)) : list (option Streaming) :=
  map (option_map reset_after_discontinuity) rs.

(** ** One period *)

(** What a turn changes: the arbitrator, the ring, when it last warned, and the
    shared timing anchor. *)
Record LoopState := mkLoopState {
  arb : ArbitratorState;
  out_ring : Inner;
  last_warn_at : option Z;
  anchor_cell : option BufferTimingAnchor;
}.

(** [writer.push] then [publish_timing_anchor]. *)
Definition push_and_publish (cfg : MicArbitratorConfig) (capture_now : Z) (samples : list f32)
    (w : Inner * option BufferTimingAnchor) : option (Inner * option BufferTimingAnchor) :=
  b ← Writer_push w.1 (map f32_to_bits samples);
  Some (b, if timing_anchor cfg then Some (mkBufferTimingAnchor (newest_head b) capture_now SampleRate_VALUE) else w.2).

(** The pushes of the drained output, chunk [k] first. *)
Fixpoint push_chunks (cfg : MicArbitratorConfig) (capture_now : nat → Z) (k : nat) (chunks : list (list f32))
    (w : Inner * option BufferTimingAnchor) : option (Inner * option BufferTimingAnchor) :=
  match chunks with
  | [] => Some w
  | c :: chunks => w ← push_and_publish cfg (capture_now k) c w; push_chunks cfg capture_now (S k) chunks w
  end.

(** [r.process(...).expect(...)] *)
Definition process_expect (s : Streaming) (input : list f32) : option Streaming :=
  match Streaming_process s input with Some (Ok (s, _)) => Some s | _ => None end.

(** The loop over the resamplers, from slot [slot]; also the drain buffer. *)
Fixpoint resample_slots (cfg : MicArbitratorConfig) (capture_now : nat → Z) (truly_fixed : bool) (active_idx : nat)
    (flat : list f32) (frames stride slot : nat) (rs : list (option Streaming)) (scratch : list f32)
    (w : Inner * option BufferTimingAnchor)
    : option (list (option Streaming) * list f32 * (Inner * option BufferTimingAnchor)) :=
  match rs with
  | [] => Some ([], scratch, w)
  | None :: _ => None
  | Some r :: rs =>
      '(r, scratch, w) ←
        (if truly_fixed && negb (slot =? active_idx)%nat then Some (reset_after_discontinuity r, scratch, w)
         else
           input ← slice flat (slot * stride) (slot * stride + frames);
           r ← process_expect r input;
           if (slot =? active_idx)%nat then
             let '(r, scratch) := drain_output_into r [] in
             match scratch with
             | [] => Some (r, scratch, w)
             | _ =>
                 chunks ← chunks_checked (Z.to_nat (max_push_len w.1)) scratch;
                 w ← push_chunks cfg capture_now 0 chunks w;
                 Some (r, scratch, w)
             end
           else Some (drop_output r, scratch, w));
      '(rs, scratch, w) ← resample_slots cfg capture_now truly_fixed active_idx flat frames stride (S slot) rs scratch w;
      Some (Some r :: rs, scratch, w)
  end.

(** The loudness of one slot. *)
Definition ema_update (alpha : f32) (frames : nat) (sum_sq : f32) (s : SlotState) : SlotState :=
  let block := f32_sqrt (f32_div sum_sq (f32_of_int (Z.of_nat frames))) in
  mkSlotState (f32_add (f32_mul alpha block) (f32_mul (f32_sub f32_one alpha) (rms s))).

(** The loop over [0..n_slots]. *)
Definition ema_update_all (alpha : f32) (frames n_slots : nat) (sums : list f32) (slots : list SlotState) : option (list SlotState) :=
  if (n_slots <=? List.length sums)%nat && (n_slots <=? List.length slots)%nat
  then Some (zip_with (ema_update alpha frames) (take n_slots sums) (take n_slots slots) ++ drop n_slots slots)
  else None.

(** The period up to the choice of the slot. *)
Definition measure_and_pick (st : ArbitratorState) (frames : nat) (channel_policy : ChannelSelection) (cfg : MicArbitratorConfig)
    (pick_now : Z) : option ArbitratorState :=
  let n_channels := cached_n_channels st in
  let stride := cached_period_frames st in
  interleaved ← slice (interleaved_scratch st) 0 (frames * n_channels);
  '(flat, sums) ← single_pass_demux_and_rms interleaved n_channels (cached_whitelist st) (slot_scratch_flat st)
                    (sum_sq_scratch st) frames stride 0;
  alpha ← alpha_for_frames frames (cached_period_frames st) (cached_rate st) (cached_alpha st) (rms_window cfg);
  slots ← ema_update_all alpha frames (List.length (cached_whitelist st)) sums (per_slot st);
  new_slot ← pick_slot channel_policy slots (cached_whitelist st) (active_slot st) (last_switch_at st) pick_now
               (hysteresis_linear cfg) (dwell cfg);
  let switched := negb (bool_decide (new_slot = active_slot st)) in
  (* the log line of a switch reads the channels of its slots *)
  _ ← (if switched then
         match active_slot st, new_slot with
         | Some p, Some n => _ ← cached_whitelist st !! p; _ ← cached_whitelist st !! n; Some tt
         | None, Some n => _ ← cached_whitelist st !! n; Some tt
         | _, None => Some tt
         end
       else Some tt);
  Some (mkArbitratorState (active st) (cached_whitelist st) (cached_n_channels st) (cached_rate st) (cached_period_frames st)
          (cached_alpha st) slots (resamplers st) new_slot (if switched then Some pick_now else last_switch_at st)
          (last_data_at st) (interleaved_scratch st) flat sums (out_scratch st)).

(** The choice is fixed for as long as the source is open. *)
Definition truly_fixed (channel_policy : ChannelSelection) (whitelist : list Z) : bool :=
  match channel_policy with FixedChannel channel => in_whitelist channel whitelist | Auto => false end.

(** The rest of the period: the samples of the active slot go to the ring. *)
Definition emit (st : ArbitratorState) (frames : nat) (channel_policy : ChannelSelection) (cfg : MicArbitratorConfig)
    (capture_now : nat → Z) (w : Inner * option BufferTimingAnchor)
    : option (ArbitratorState * (Inner * option BufferTimingAnchor)) :=
  let stride := cached_period_frames st in
  match active_slot st with
  | None => Some (st, w)
  | Some active_idx =>
      resampler ← resamplers st !! active_idx;
      match resampler with
      | None =>
          samples ← slice (slot_scratch_flat st) (active_idx * stride) (active_idx * stride + frames);
          w ← push_and_publish cfg (capture_now O) samples w;
          Some (st, w)
      | Some _ =>
          '(rs, scratch, w) ← resample_slots cfg capture_now (truly_fixed channel_policy (cached_whitelist st)) active_idx
                                (slot_scratch_flat st) frames stride 0 (resamplers st) (out_scratch st) w;
          Some (mkArbitratorState (active st) (cached_whitelist st) (cached_n_channels st) (cached_rate st)
                  (cached_period_frames st) (cached_alpha st) (per_slot st) rs (active_slot st) (last_switch_at st)
                  (last_data_at st) (interleaved_scratch st) (slot_scratch_flat st) (sum_sq_scratch st) scratch, w)
      end
  end.

Definition process_period (st : ArbitratorState) (w : Inner * option BufferTimingAnchor) (frames : nat)
    (channel_policy : ChannelSelection) (cfg : MicArbitratorConfig) (pick_now : Z) (capture_now : nat → Z)
    : option (ArbitratorState * (Inner * option BufferTimingAnchor)) :=
  st ← measure_and_pick st frames channel_policy cfg pick_now;
  emit st frames channel_policy cfg capture_now w.

(** ** One turn of the loop *)

(** What a turn asks of the world.  A candidate is opened at most once in a
    turn: what depends on the candidate is a function of its index. *)
Record LoopInputs := mkLoopInputs {
  li_settings : MicSettings;
  li_open_now : nat → Z;
  li_device : nat → AlsaDevice;
  li_warn_now : nat → Z;
  li_boot_now : Z;
  li_check_now : Z;
  li_park_now : Z;
  li_read : ReadInputs;
  li_recovers : bool;
  li_data_now : Z;
  li_pick_now : Z;
  li_capture_now : nat → Z;
}.

Context (alsa_real : bool) (cfg : MicArbitratorConfig).

Definition open_candidate (i : LoopInputs) (idx : nat) (c : MicCandidate) : result OpenError ActiveSource :=
  open_source alsa_real (li_device i idx) (li_open_now i idx) c.

(** From candidate [idx] on, whose list is [cs]: the first that opens. *)
Fixpoint open_starting_from (i : LoopInputs) (idx : nat) (cs : list MicCandidate) (last : option Z)
    : option (nat * ActiveSource) * option Z :=
  match cs with
  | [] => (None, last)
  | c :: cs =>
      match open_candidate i idx c with
      | Ok src => (Some (idx, src), last)
      | Err _ => open_starting_from i (S idx) cs (rate_limited_warn last (li_warn_now i idx))
      end
  end.

Definition need_switch (st : ArbitratorState) (cs : list MicCandidate) (desired_idx : option nat) : bool :=
  match active_id st, desired_idx with
  | None, None => false
  | None, Some _ => true
  | Some _, None => true
  | Some id, Some d => match cs !! d with Some c => negb (bool_decide (id = cand_id c)) | None => false end
  end.

(** The switch: the old source is torn down and the desired candidate opened;
    when that fails, [FirstAvailable] walks on from it. *)
Definition switch_source (i : LoopInputs) (desired_idx : option nat) (st : ArbitratorState) (last : option Z)
    : option (ArbitratorState * option Z) :=
  let cs := candidates (catalogue (li_settings i)) in
  let st := tear_down st in
  match desired_idx with
  | None => Some (st, last)
  | Some idx =>
      cand ← cs !! idx;
      match open_candidate i idx cand with
      | Ok src => st ← boot st src cfg (li_boot_now i); Some (st, last)
      | Err _ =>
          let last := rate_limited_warn last (li_warn_now i idx) in
          match policy_mic (policy (li_settings i)) with
          | FixedMic _ => Some (st, last)
          | FirstAvailable =>
              match open_starting_from i (S idx) (drop (S idx) cs) last with
              | (Some (_, src), last) => st ← boot st src cfg (li_boot_now i); Some (st, last)
              | (None, last) => Some (st, last)
              end
          end
      end
  end.

Definition desired (i : LoopInputs) (st : ArbitratorState) : option nat :=
  resolve_desired_idx (policy_mic (policy (li_settings i))) (candidates (catalogue (li_settings i))) (active_id st).

Definition select_source (i : LoopInputs) (st : ArbitratorState) (last : option Z) : option (ArbitratorState * option Z) :=
  if need_switch st (candidates (catalogue (li_settings i))) (desired i st)
  then switch_source i (desired i st) st last
  else Some (st, last).

(** The source has been silent too long for [FirstAvailable]. *)
Definition failover_due (i : LoopInputs) (st : ArbitratorState) : bool :=
  match active st, policy_mic (policy (li_settings i)) with
  | Some _, FirstAvailable => mic_failover_after cfg <? saturating_duration_since (li_check_now i) (last_data_at st)
  | _, _ => false
  end.

Definition with_source (src : ActiveSource) (scratch : list f32) (st : ArbitratorState) : ArbitratorState :=
  mkArbitratorState (Some src) (cached_whitelist st) (cached_n_channels st) (cached_rate st) (cached_period_frames st)
    (cached_alpha st) (per_slot st) (resamplers st) (active_slot st) (last_switch_at st) (last_data_at st) scratch
    (slot_scratch_flat st) (sum_sq_scratch st) (out_scratch st).

Definition with_resamplers (rs : list (option Streaming)) (st : ArbitratorState) : ArbitratorState :=
  mkArbitratorState (active st) (cached_whitelist st) (cached_n_channels st) (cached_rate st) (cached_period_frames st)
    (cached_alpha st) (per_slot st) rs (active_slot st) (last_switch_at st) (last_data_at st) (interleaved_scratch st)
    (slot_scratch_flat st) (sum_sq_scratch st) (out_scratch st).

Definition with_last_data_at (t : Z) (st : ArbitratorState) : ArbitratorState :=
  mkArbitratorState (active st) (cached_whitelist st) (cached_n_channels st) (cached_rate st) (cached_period_frames st)
    (cached_alpha st) (per_slot st) (resamplers st) (active_slot st) (last_switch_at st) t (interleaved_scratch st)
    (slot_scratch_flat st) (sum_sq_scratch st) (out_scratch st).

(** The read and what follows it, with an open source. *)
Definition read_and_process (i : LoopInputs) (src : ActiveSource) (s : LoopState) : option LoopState :=
  let st := arb s in
  let keep st := Some (mkLoopState st (out_ring s) (last_warn_at s) (anchor_cell s)) in
  '(outcome, src, scratch) ← read_interleaved (li_read i) src (interleaved_scratch st);
  let st := with_source src scratch st in
  match outcome with
  | Ok (Frames n) =>
      '(st, w) ← process_period (with_last_data_at (li_data_now i) st) (out_ring s, anchor_cell s) n
                   (policy_channel (policy (li_settings i))) cfg (li_pick_now i) (li_capture_now i);
      Some (mkLoopState st w.1 (last_warn_at s) w.2)
  | Ok Timeout | Ok StopRequested => keep st
  | Ok EndOfStream => keep (tear_down st)
  | Err (ReadAlsa _) =>
      match src with
      | ActiveAlsa _ => keep (if li_recovers i then with_resamplers (reset_per_channel_fir (resamplers st)) st else tear_down st)
      | ActiveMock _ => keep st
      end
  end.

(** The park of a turn with no source; a fixed microphone that is not in the
    catalogue is warned of. *)
Definition park (i : LoopInputs) (desired_idx : option nat) (s : LoopState) : LoopState :=
  match desired_idx, policy_mic (policy (li_settings i)) with
  | None, FixedMic _ => mkLoopState (arb s) (out_ring s) (rate_limited_warn (last_warn_at s) (li_park_now i)) (anchor_cell s)
  | _, _ => s
  end.

Definition iterate (i : LoopInputs) (s : LoopState) : option LoopState :=
  let desired_idx := desired i (arb s) in
  '(st, last) ← select_source i (arb s) (last_warn_at s);
  let s := mkLoopState st (out_ring s) last (anchor_cell s) in
  if failover_due i st then Some (mkLoopState (tear_down st) (out_ring s) last (anchor_cell s))
  else
    match active st with
    | None => Some (park i desired_idx s)
    | Some src => read_and_process i src s
    end.

(** The turns until the stop flag is seen. *)
Fixpoint turns (inputs : list LoopInputs) (s : LoopState) : option LoopState :=
  match inputs with
  | [] => Some s
  | i :: inputs => s ← iterate i s; turns inputs s
  end.

(** [MicArbitrator::start] and [run_loop]; [None] is also the panic on a bad
    configuration. *)
Definition run_loop (ring : Inner) (start_now : Z) (inputs : list LoopInputs) : option LoopState :=
  match MicArbitratorConfig_validate cfg with
  | Err _ => None
  | Ok _ =>
      s ← turns inputs (mkLoopState (ArbitratorState_new start_now) ring None None);
      Some (mkLoopState (tear_down (arb s)) (out_ring s) (last_warn_at s) (anchor_cell s))
  end.
End Arbitrator.
