(* ===== verification/MicFacts.v ===== *)
(** * Facts about the sources and the periods of the arbitrator

    What an open source is ([source_ok]), that every open that succeeds gives
    one, that a read answers and keeps it, and that a period of a booted state
    ([booted]) is processed without a panic. *)

From S2P Require Import Prelude Ids Common F32 AudioBuffer Resample MicTypes MicSource MicArbitrator.
From stdpp Require Import sorting.

Open Scope Z_scope.

(** ** Slices and indices *)

Lemma slice_Some {A} (l : list A) (a b : nat) :
  (a ≤ b)%nat → (b ≤ List.length l)%nat → slice l a b = Some (take (b - a) (drop a l)).
Proof. intros Ha Hb. unfold slice. by rewrite (proj2 (Nat.leb_le _ _) Ha), (proj2 (Nat.leb_le _ _) Hb). Qed.

Lemma slice_inv {A} (l : list A) (a b : nat) x :
  slice l a b = Some x → (a ≤ b ≤ List.length l)%nat ∧ x = take (b - a) (drop a l) ∧ List.length x = (b - a)%nat.
Proof.
  unfold slice. destruct (Nat.leb_spec a b); [|done]. destruct (Nat.leb_spec b (List.length l)); [|done].
  intros [= <-]. split; [done|]. split; [done|]. rewrite length_take, length_drop. lia.
Qed.

Lemma write_at_spec (l : list f32) (offset : nat) (data : list f32) :
  (offset + List.length data ≤ List.length l)%nat →
  ∃ l', write_at l offset data = Some l' ∧ List.length l' = List.length l ∧
    slice l' offset (offset + List.length data) = Some data ∧
    ∀ a b, (b ≤ offset)%nat → slice l' a b = slice l a b.
Proof.
  intros H. unfold write_at. rewrite (proj2 (Nat.leb_le _ _) H). eexists. split; [done|].
  assert (Hlen : List.length (take offset l ++ data ++ drop (offset + List.length data) l) = List.length l).
  { rewrite !length_app, length_take, length_drop. lia. }
  split; [done|]. split.
  - rewrite slice_Some by lia. f_equal. rewrite drop_app_length' by (rewrite length_take; lia).
    rewrite take_app_length' by lia. done.
  - intros a b Hb. unfold slice. rewrite Hlen. destruct (Nat.leb_spec a b); [|done].
    destruct (Nat.leb_spec b (List.length l)); [|done]. cbn. f_equal.
    rewrite (drop_app_le (take offset l)) by (rewrite length_take; lia).
    rewrite take_app_le by (rewrite length_drop, length_take; lia).
    rewrite skipn_firstn_comm, take_take. f_equal. lia.
Qed.

Lemma set_at_spec {A} (l : list A) (i : nat) (v : A) :
  (i < List.length l)%nat → set_at l i v = Some (<[i := v]> l).
Proof. intros H. unfold set_at. by rewrite (proj2 (Nat.ltb_lt _ _) H). Qed.

(** ** The whitelist of a source *)

Lemma elem_of_dedup (l : list Z) c : c ∈ dedup l ↔ c ∈ l.
Proof.
  induction l as [|x l IH]; [done|]. destruct l as [|y l]; [done|]. cbn [dedup].
  destruct (Z.eqb_spec x y) as [->|]; [|rewrite !elem_of_cons in *; tauto].
  rewrite IH, !elem_of_cons. tauto.
Qed.

Lemma elem_of_effective (l : list Z) c : c ∈ dedup (sort_unstable l) ↔ c ∈ l.
Proof. rewrite elem_of_dedup. unfold sort_unstable. by rewrite merge_sort_Permutation. Qed.

(** What an open source promises, with periods of at most [P] frames. *)
Record source_ok (P : nat) (a : ActiveSource) : Prop := {
  src_period_ok : (0 < src_period_size a ≤ P)%nat;
  src_rate_ok : 0 < src_rate a ≤ u32_max;
  src_channels_ok : 0 ≤ src_channels a ≤ u16_max;
  src_whitelist_ok : Forall (λ ch, 0 ≤ ch < src_channels a) (src_whitelist a);
  src_nonempty : src_whitelist a ≠ [];
  src_mock_ok : match a with
                | ActiveMock s => src_channels a = len (ms_waveforms s) ∧ List.length (ms_rng_states s) = List.length (ms_waveforms s)
                | ActiveAlsa _ => True
                end;
}.

(** What the driver answers: rates and counts in their types, and a period no
    longer than asked for or than [P]. *)
Record device_ok (P : nat) (dev : AlsaDevice) : Prop := {
  dev_rate_ok r : get_rate dev = Ok r → 0 < r ≤ u32_max;
  dev_max_ok m : get_channels_max dev = Ok m → 0 ≤ m;
  dev_period_ok p : get_period_size dev = Ok p → p ≤ Z.of_nat P;
}.

Lemma nonempty_elem {A} (l : list A) x : x ∈ l → l ≠ [].
Proof. by intros H ->; apply not_elem_of_nil in H. Qed.

Lemma effective_nonempty (l : list Z) : 0 < len l → dedup (sort_unstable l) ≠ [].
Proof.
  intros H. destruct l as [|x l]; [done|]. apply (nonempty_elem _ x), elem_of_effective. set_solver.
Qed.

Lemma MockSource_open_ok (P : nat) (now : Z) (c : MicCandidate) (s : MockSource) :
  candidate_typed c → MAX_PERIOD_FRAMES ≤ Z.of_nat P → MockSource_open now c = Ok s →
  source_ok P (ActiveMock s) ∧ ms_id s = cand_id c.
Proof.
  intros Hty HP. unfold MockSource_open. destruct (MicCandidate_validate c) as [[]|] eqn:Ev; [|done].
  assert (Hwf : candidate_wf c) by (apply MicCandidate_validate_exact; [done|by rewrite Ev]).
  destruct Hwf as (Hlen & _ & _ & Hsrc). destruct Hty as [Hch Hty].
  destruct (cand_source c) as [|ws p r]; [done|]. intros [= <-]. cbn in Hsrc.
  unfold MAX_PERIOD_FRAMES, MAX_CHANNELS, MIN_SAMPLE_RATE, MAX_SAMPLE_RATE, u32_max in *.
  destruct Hsrc as (Hws & Hin & Hp & Hr).
  assert (Hmod : len ws mod 2 ^ 16 = len ws) by (apply Z.mod_small; lia).
  split; [|done]. split; cbn; rewrite ?Hmod; try (unfold u16_max, u32_max; lia).
  - apply Forall_forall. intros ch Hx. apply (proj1 (elem_of_effective _ _)) in Hx.
    rewrite Forall_forall in Hin, Hch. specialize (Hin ch Hx). specialize (Hch ch Hx). cbn in *. lia.
  - apply effective_nonempty. lia.
  - split; [done|]. by rewrite length_map.
Qed.

Lemma negotiate_channels_ok (P : nat) (dev : AlsaDevice) needed n :
  device_ok P dev → 0 ≤ needed ≤ u16_max → negotiate_channels dev needed = Ok n → 0 ≤ n ≤ u16_max.
Proof.
  intros Hd Hn. unfold negotiate_channels, u16_max in *. destruct (is_ok (set_channels dev needed)).
  { intros [= <-]. rewrite Z.mod_small; lia. }
  unfold call. destruct (get_channels_max dev) as [m|] eqn:Em; [|done]. cbn.
  destruct (m =? 0); [done|]. destruct (Z.ltb_spec 65535 m); [done|].
  destruct (set_channels dev m); [|done]. cbn. intros [= <-]. pose proof (dev_max_ok _ _ Hd m Em).
  rewrite Z.mod_small; lia.
Qed.

Lemma AlsaSource_open_ok (P : nat) (dev : AlsaDevice) (c : MicCandidate) (s : AlsaSource) :
  candidate_typed c → device_ok P dev → AlsaSource_open dev c = Ok s →
  source_ok P (ActiveAlsa s) ∧ as_id s = cand_id c.
Proof.
  intros Hty Hd. unfold AlsaSource_open. destruct (MicCandidate_validate c) as [[]|] eqn:Ev; [|done].
  assert (Hwf : candidate_wf c) by (apply MicCandidate_validate_exact; [done|by rewrite Ev]).
  destruct Hwf as (Hlen & Hcap & _ & _). destruct Hty as [Hch _].
  destruct (cand_source c) as [hw p b|]; [|done]. unfold call.
  assert (Hmax : 0 ≤ max_channel (cand_channels c) + 1 ≤ u16_max).
  { pose proof (proj1 (max_channel_lt (cand_channels c) 1024 ltac:(lia))) as Hm.
    assert (0 ≤ max_channel (cand_channels c)).
    { unfold max_channel. clear. induction (cand_channels c); cbn; lia. }
    unfold u16_max, MAX_CHANNEL_INDEX in *. enough (max_channel (cand_channels c) < 1024) by lia.
    apply Hm. eapply Forall_impl; [exact Hcap|]. cbn. lia. }
  intros H. apply bind_Ok in H as (? & _ & H). destruct (Z.eqb_spec (len (cand_channels c)) 0) as [|_]; [done|].
  apply bind_Ok in H as (? & _ & H). apply bind_Ok in H as (? & _ & H). apply bind_Ok in H as (is_float & _ & H).
  apply bind_Ok in H as (n & Hneg & H). do 4 apply bind_Ok in H as (? & _ & H).
  apply bind_Ok in H as (rate & Hrate & H). apply bind_Ok in H as (period & Hper & H).
  apply map_err_Ok in Hrate, Hper. destruct (Z.leb_spec period 0); [done|].
  destruct (Z.eqb_spec (len (intersect_whitelist (cand_channels c) n)) 0) as [|Hne]; [done|].
  do 3 apply bind_Ok in H as (? & _ & H). injection H as <-.
  pose proof (negotiate_channels_ok P dev _ n Hd Hmax Hneg) as Hn.
  pose proof (dev_rate_ok _ _ Hd _ Hrate). pose proof (dev_period_ok _ _ Hd _ Hper).
  split; [|done]. split; cbn; try done; [lia| |].
  - apply Forall_forall. intros ch Hx. apply (proj1 (elem_of_effective _ _)) in Hx.
    rewrite list_elem_of_In, filter_In in Hx. destruct Hx as [Hin Hlt]. apply Z.ltb_lt in Hlt.
    rewrite Forall_forall in Hch. rewrite <- list_elem_of_In in Hin. specialize (Hch ch Hin). cbn in *. lia.
  - intros Hx. apply Hne. unfold len. by rewrite Hx.
Qed.

Lemma open_source_ok (P : nat) (alsa_real : bool) (dev : AlsaDevice) (now : Z) (c : MicCandidate) (a : ActiveSource) :
  candidate_typed c → device_ok P dev → MAX_PERIOD_FRAMES ≤ Z.of_nat P → open_source alsa_real dev now c = Ok a →
  source_ok P a ∧ src_id a = cand_id c.
Proof.
  intros Hty Hd HP. unfold open_source, open_alsa. destruct (MicCandidate_validate c); [|done].
  destruct (cand_source c).
  - destruct alsa_real; [|done]. destruct (AlsaSource_open dev c) as [s|] eqn:E; [|done]. intros [= <-].
    by apply (AlsaSource_open_ok P dev).
  - destruct (MockSource_open now c) as [s|] eqn:E; [|done]. intros [= <-]. by apply (MockSource_open_ok P now).
Qed.

(** ** Reads *)

Section Reads.
Context `{L : Libm}.

Lemma generate_channel_ok (buf : list f32) (ch n count f : nat) w rate start rng :
  (ch < n)%nat → (List.length buf = (f + count) * n)%nat →
  ∃ buf' rng', generate_channel_into buf ch n count f w rate start rng = Some (buf', rng') ∧ List.length buf' = List.length buf.
Proof.
  revert buf f rng. induction count as [|count IH]; intros buf f rng Hch Hlen; [by exists buf, rng|].
  cbn [generate_channel_into]. destruct (wave_sample w rate (wrap_add64 start (Z.of_nat f)) rng) as [[v|] rng'].
  - rewrite set_at_spec by nia. cbn.
    destruct (IH (<[(f * n + ch)%nat := v]> buf) (S f) rng') as (b & r & E & Hb); [done|rewrite length_insert; lia|].
    exists b, r. by rewrite length_insert in Hb.
  - cbn. apply IH; [done|lia].
Qed.

Lemma synthesize_ok (buf : list f32) (ch n period : nat) ws rate start rngs :
  List.length rngs = List.length ws → (ch + List.length ws ≤ n)%nat → (List.length buf = period * n)%nat →
  ∃ buf' rngs', synthesize buf ch n period ws rate start rngs = Some (buf', rngs') ∧ List.length buf' = List.length buf ∧
    List.length rngs' = List.length rngs.
Proof.
  revert buf ch rngs. induction ws as [|w ws IH]; intros buf ch [|rng rngs] Hr Hn Hlen; try done; [by exists buf, []|].
  cbn in Hr, Hn |- *. destruct (generate_channel_ok buf ch n period 0 w rate start rng) as (b & r & -> & Hb); [lia|lia|].
  cbn. destruct (IH b (S ch) rngs) as (b' & rs & -> & Hb' & Hrs); [lia|lia|lia|]. cbn.
  exists b', (r :: rs). split_and!; cbn; congruence.
Qed.

(** When the clock was read before poll [j]. *)
Definition clock_before (now : Z) (polls : nat → bool * Z) (j : nat) : Z :=
  match j with O => now | S j => (polls j).2 end.

(** Each slice of the sleep takes at least its length: the loop ends. *)
Lemma pace_ends fuel k (target : Z) (polls : nat → bool * Z) (now : Z) :
  (∀ j, clock_before now polls j + STOP_POLL_SLICE ≤ (polls j).2) →
  (Z.to_nat (Z.max 0 (target - clock_before now polls k) / STOP_POLL_SLICE) < fuel)%nat →
  ∃ b, pace fuel k target (Z.max 0 (target - clock_before now polls k)) polls = Some b.
Proof.
  intros Hp. revert k. induction fuel as [|fuel IH]; intros k Hf; [lia|].
  set (remaining := Z.max 0 (target - clock_before now polls k)) in *.
  cbn [pace]. destruct (Z.ltb_spec STOP_POLL_SLICE remaining) as [Hlt|]; [|by exists false].
  destruct (polls k).1; [by exists true|]. specialize (Hp k).
  unfold saturating_duration_since. change ((polls k).2) with (clock_before now polls (S k)) in *. apply IH.
  assert (Hs : 0 < STOP_POLL_SLICE) by (unfold STOP_POLL_SLICE, from_millis; lia).
  set (next := Z.max 0 (target - clock_before now polls (S k))) in *.
  assert (Hle : next / STOP_POLL_SLICE ≤ (remaining + (-1) * STOP_POLL_SLICE) / STOP_POLL_SLICE) by (apply Z.div_le_mono; lia).
  rewrite Z.div_add in Hle by lia. pose proof (Z.div_pos next STOP_POLL_SLICE ltac:(lia) Hs). lia.
Qed.

(** What the world may answer to a read: a sleep lasts, and [readi] writes the
    frames it returns, in the room it was given. *)
Record read_inputs_ok (i : ReadInputs) : Prop := {
  polls_ok j : clock_before (ri_now i) (ri_polls i) j + STOP_POLL_SLICE ≤ (ri_polls i j).2;
  readi_f32_ok ch room n data : alsa_readi_f32 (ri_alsa i) ch room = Ok (n, data) →
    (n * ch ≤ room)%nat ∧ List.length data = (n * ch)%nat;
  readi_i16_ok ch room n data : alsa_readi_i16 (ri_alsa i) ch room = Ok (n, data) →
    (n * ch ≤ room)%nat ∧ List.length data = (n * ch)%nat;
}.

(** Two states of one open source. *)
Definition same_source (a b : ActiveSource) : Prop :=
  src_id a = src_id b ∧ src_period_size a = src_period_size b ∧ src_rate a = src_rate b ∧
  src_channels a = src_channels b ∧ src_whitelist a = src_whitelist b.

Definition small (P : nat) : Prop := Z.of_nat P < 2 ^ 53.

Lemma block_duration_ok (P frames : nat) (rate : Z) :
  small P → (frames ≤ P)%nat → 0 < rate ≤ u32_max → ∃ d, from_secs_f64 (f64_div (f64_of_int (Z.of_nat frames)) (f64_of_int rate)) = Some d.
Proof. unfold small, u32_max. intros HP Hf Hr. apply block_duration_some; lia. Qed.

Lemma source_channels_pos (P : nat) (a : ActiveSource) : source_ok P a → 0 < src_channels a.
Proof.
  intros Ha. pose proof (src_whitelist_ok _ _ Ha) as Hw. pose proof (src_nonempty _ _ Ha) as Hne.
  destruct (src_whitelist a); [done|]. inversion Hw; subst. lia.
Qed.

(** A read answers, with the frames it wrote at the front of the buffer. *)
Lemma read_interleaved_ok (P : nat) (i : ReadInputs) (a : ActiveSource) (out : list f32) :
  small P → source_ok P a → read_inputs_ok i → List.length out = (src_period_size a * Z.to_nat (src_channels a))%nat →
  ∃ r a' out', read_interleaved i a out = Some (r, a', out') ∧ source_ok P a' ∧ same_source a a' ∧
    List.length out' = List.length out ∧ ∀ n, r = Ok (Frames n) → (0 < n ≤ src_period_size a)%nat.
Proof.
  intros HP Ha Hi Hlen. pose proof (source_channels_pos _ _ Ha) as Hpos.
  destruct Ha as [Hp Hr Hc Hw Hne Hm]. destruct a as [s|s]; cbn in *.
  - destruct Hm as [Hcs Hrng]. unfold MockSource_read_interleaved.
    destruct (block_duration_ok P (ms_period_size s) (ms_sample_rate s)) as (d & ->); [done|lia|done|]. cbn [mbind option_bind].
    set (nb := if ms_next_block_at s + d <? ri_now i then ri_now i else ms_next_block_at s).
    assert (Hpace : ∃ b, (if ri_now i <? nb then pace (pace_fuel (nb - ri_now i)) 0 nb (nb - ri_now i) (ri_polls i) else Some false) = Some b).
    { destruct (Z.ltb_spec (ri_now i) nb); [|by exists false].
      replace (nb - ri_now i) with (Z.max 0 (nb - clock_before (ri_now i) (ri_polls i) 0)) by (cbn; lia).
      apply pace_ends; [by apply polls_ok|unfold pace_fuel; lia]. }
    destruct Hpace as (b & ->). cbn [mbind option_bind]. destruct b.
    { eexists _, _, _. split; [done|]. split; [by split|]. split; [done|]. done. }
    rewrite Hcs in Hlen. unfold len in Hlen. rewrite Nat2Z.id in Hlen. unfold f32 in *.
    rewrite slice_Some by lia. cbn [mbind option_bind].
    destruct (synthesize_ok (replicate (List.length (take (ms_period_size s * List.length (ms_waveforms s) - 0) (drop 0 out))) f32_zero)
                0 (List.length (ms_waveforms s)) (ms_period_size s) (ms_waveforms s) (ms_sample_rate s) (ms_absolute_idx s) (ms_rng_states s))
      as (buf & rngs & Hsy & Hbuf & Hrngs); [done|done|rewrite length_replicate, length_take, drop_0; lia|].
    unfold f32 in *. rewrite Hsy. cbn [mbind option_bind]. destruct (Nat.eqb_spec (ms_period_size s) 0); [lia|].
    eexists _, _, _. split; [done|]. split; [split; cbn; try done; by rewrite Hrngs|]. split; [done|].
    rewrite length_app, Hbuf, length_replicate, length_take, drop_0, length_drop. split; [lia|]. intros k [= <-]. lia.
  - assert (Hgo : ∀ (r : result ReadError ReadOutcome) (out' : list f32), List.length out' = List.length out → (∀ n, r = Ok (Frames n) → (0 < n ≤ as_period_size s)%nat) →
        ∃ r0 a' out0, Some (r, ActiveAlsa s, out') = Some (r0, a', out0) ∧ source_ok P a' ∧ same_source (ActiveAlsa s) a' ∧
          List.length out0 = List.length out ∧ ∀ n : nat, r0 = Ok (Frames n) → (0 < n ≤ as_period_size s)%nat).
    { intros r out' Ho Hf. exists r, (ActiveAlsa s), out'. split; [done|]. split; [by split|]. done. }
    unfold AlsaSource_read_interleaved, default_read_timeout.
    destruct (block_duration_ok P (as_period_size s) (as_rate s)) as (d & ->); [done|lia|done|]. cbn.
    unfold read_with_timeout.
    destruct (alsa_poll (ri_alsa i) _) as [[|k]|e]; [by apply Hgo| |by cbn; destruct (e =? EINTR); apply Hgo].
    rewrite slice_Some by (unfold f32 in *; lia). cbn.
    destruct (alsa_io (ri_alsa i)) as [|e]; [|by apply Hgo].
    set (chn := Z.to_nat (as_channels s)) in *. assert (0 < chn)%nat by lia.
    assert (Hok : ∀ n data, (n * chn ≤ as_period_size s * chn)%nat → List.length data = (n * chn)%nat →
        ∀ out', out' = overwrite data out → List.length out' = List.length out ∧ ((0 < n)%nat → (0 < n ≤ as_period_size s)%nat)).
    { intros n data Hn Hd out' ->. unfold overwrite. rewrite length_app, length_drop. unfold f32 in *. split; [lia|nia]. }
    destruct (as_is_float s).
    + destruct (alsa_readi_f32 _ _ _) as [[n data]|e] eqn:Er; [|by cbn; destruct (is_eagain e); apply Hgo].
      apply (readi_f32_ok _ Hi) in Er as [Hn Hd]. destruct (Hok n data Hn Hd _ eq_refl) as [Ho Hfr]. cbn.
      destruct n; apply Hgo; try done. intros m [= <-]. apply Hfr. lia.
    + destruct (alsa_readi_i16 _ _ _) as [[n data]|e] eqn:Er; [|by cbn; destruct (is_eagain e); apply Hgo].
      apply (readi_i16_ok _ Hi) in Er as [Hn Hd]. rewrite (proj2 (Nat.leb_le _ _) Hn).
      destruct (Hok n (map i16_as_sample data) Hn ltac:(by rewrite length_map) _ eq_refl) as [Ho Hfr]. cbn.
      destruct n; apply Hgo; try done. intros m [= <-]. apply Hfr. lia.
Qed.
End Reads.
