(* ===== verification/MicPeriod.v ===== *)
(** * One period of the arbitrator

    The invariant of a state with an open source ([booted]), and that a period
    read from it is demultiplexed, measured, decided and pushed without a
    panic, to the effect the code is written for. *)

From S2P Require Import Prelude Ids Common F32 AudioBuffer Resample MicTypes MicSource MicArbitrator MicFacts.
From stdpp Require Import list.

Open Scope Z_scope.

(** ** Demultiplexing *)

(** What one channel of an interleaved buffer says, non-finite samples
    silenced. *)
Definition channel_samples (interleaved : list f32) (n_channels ch frames : nat) : list f32 :=
  map (λ f, clamp_finite (nth (f * n_channels + ch) interleaved f32_zero)) (seq 0 frames).

Lemma demux_channel_from (interleaved : list f32) (n ch count f : nat) :
  (ch < n)%nat → ((f + count) * n ≤ List.length interleaved)%nat →
  demux_channel interleaved n ch count f = Some (map (λ f, clamp_finite (nth (f * n + ch) interleaved f32_zero)) (seq f count)).
Proof.
  revert f. induction count as [|count IH]; intros f Hch Hlen; [done|]. cbn [demux_channel].
  destruct (interleaved !! (f * n + ch)%nat) as [raw|] eqn:E.
  2:{ apply lookup_ge_None in E. nia. }
  cbn [mbind option_bind]. rewrite IH by (done || nia). cbn [mbind option_bind seq map].
  by rewrite (nth_lookup_Some _ _ _ _ E).
Qed.

Lemma demux_channel_ok (interleaved : list f32) (n ch frames : nat) :
  (ch < n)%nat → (frames * n ≤ List.length interleaved)%nat →
  demux_channel interleaved n ch frames 0 = Some (channel_samples interleaved n ch frames).
Proof. intros Hch Hlen. apply demux_channel_from; [done|lia]. Qed.

Lemma length_channel_samples (interleaved : list f32) (n ch frames : nat) :
  List.length (channel_samples interleaved n ch frames) = frames.
Proof. unfold channel_samples. by rewrite length_map, length_seq. Qed.

(** Every slot's window holds its channel, and its sum the squares. *)
Lemma demux_ok (interleaved : list f32) (n : nat) (wl : list Z) (flat sums : list f32) (frames stride slot : nat) :
  Forall (λ ch, 0 ≤ ch < Z.of_nat n) wl → (frames * n ≤ List.length interleaved)%nat → (frames ≤ stride)%nat →
  ((slot + List.length wl) * stride ≤ List.length flat)%nat → (slot + List.length wl ≤ List.length sums)%nat →
  ∃ flat' sums', single_pass_demux_and_rms interleaved n wl flat sums frames stride slot = Some (flat', sums') ∧
    List.length flat' = List.length flat ∧ List.length sums' = List.length sums ∧
    (∀ a b, (b ≤ slot * stride)%nat → slice flat' a b = slice flat a b) ∧
    (∀ j, (j < slot)%nat → sums' !! j = sums !! j) ∧
    ∀ k ch, wl !! k = Some ch →
      slice flat' ((slot + k) * stride) ((slot + k) * stride + frames) = Some (channel_samples interleaved n (Z.to_nat ch) frames) ∧
      sums' !! (slot + k)%nat = Some (sum_squares (channel_samples interleaved n (Z.to_nat ch) frames)).
Proof.
  intros Hwl Hlen Hfs. revert flat sums slot. induction Hwl as [|ch wl Hch Hwl IH]; intros flat sums slot Hflat Hsums.
  { exists flat, sums. split_and!; done. }
  cbn [single_pass_demux_and_rms List.length] in *.
  rewrite demux_channel_ok; [|lia|done]. cbn [mbind option_bind].
  set (cs := channel_samples interleaved n (Z.to_nat ch) frames).
  assert (Hcs : List.length cs = frames) by apply length_channel_samples.
  destruct (write_at_spec flat (slot * stride) cs) as (flat1 & -> & Hl1 & Hs1 & Hold1); [nia|]. cbn [mbind option_bind].
  rewrite set_at_spec by lia. cbn [mbind option_bind].
  destruct (IH flat1 (<[slot := sum_squares cs]> sums) (S slot)) as (flat' & sums' & E & Hl & Hls & Hold & Holds & Hnew);
    [lia|rewrite length_insert; lia|].
  exists flat', sums'. split; [exact E|]. split; [lia|]. split; [by rewrite length_insert in Hls|].
  split; [intros a b Hb; rewrite Hold by lia; by apply Hold1|].
  split; [intros j Hj; rewrite Holds by lia; apply list_lookup_insert_ne; lia|].
  intros [|k] c Hk; cbn in Hk.
  - injection Hk as <-. rewrite Nat.add_0_r. split.
    + rewrite Hold by lia. rewrite Hcs in Hs1. exact Hs1.
    + rewrite Holds by lia. apply list_lookup_insert_eq. lia.
  - specialize (Hnew k c Hk). replace (slot + S k)%nat with (S slot + k)%nat by lia. exact Hnew.
Qed.

(** ** The choice of the slot *)

Lemma loudest_range (rest : list SlotState) (i : nat) (best : nat * f32) :
  (best.1 < i)%nat → ((loudest rest i best).1 < i + List.length rest)%nat.
Proof.
  revert i best. induction rest as [|s rest IH]; intros i best Hb; cbn; [lia|].
  eapply Nat.lt_le_trans; [apply IH|lia]. destruct (float_gt _ _); cbn; lia.
Qed.

Lemma position_Some {A} (p : A → bool) (l : list A) i :
  position p l = Some i → ∃ x, l !! i = Some x ∧ p x = true ∧ ∀ j y, (j < i)%nat → l !! j = Some y → p y = false.
Proof.
  unfold position. assert (H : ∀ k, (fix go (i : nat) (l : list A) : option nat :=
     match l with [] => None | x :: l => if p x then Some i else go (S i) l end) k l = Some i →
     (k ≤ i)%nat ∧ ∃ x, l !! (i - k)%nat = Some x ∧ p x = true ∧ ∀ j y, (j < i - k)%nat → l !! j = Some y → p y = false).
  { induction l as [|x l IH]; intros k Hk; [done|]. destruct (p x) eqn:Ep.
    - injection Hk as <-. split; [done|]. rewrite Nat.sub_diag. exists x. split_and!; [done..|lia].
    - apply IH in Hk as (Hle & y & Hl & Hy & Hmin). split; [lia|]. exists y.
      replace (i - k)%nat with (S (i - S k)) by lia. split_and!; [done..|].
      intros [|j] z Hj Hz; [cbn in Hz; congruence|]. by apply (Hmin j); [lia|]. }
  intros Hk. apply H in Hk as (_ & Hx). by rewrite Nat.sub_0_r in Hx.
Qed.

Lemma position_None {A} (p : A → bool) (l : list A) : position p l = None → ∀ x, x ∈ l → p x = false.
Proof.
  unfold position. generalize 0%nat. induction l as [|x l IH]; intros k Hk y Hy; [by apply not_elem_of_nil in Hy|].
  destruct (p x) eqn:Ep; [done|]. apply elem_of_cons in Hy as [->|Hy]; [done|]. by eapply IH.
Qed.

(** A slot in range is chosen; nothing in the arithmetic can panic. *)
Lemma pick_slot_ok (policy : ChannelSelection) (slots : list SlotState) (wl : list Z) (cur : option nat) (last : option Z)
    (now : Z) (h : f32) (dw : Z) :
  slots ≠ [] → List.length wl = List.length slots → (∀ k, cur = Some k → (k < List.length slots)%nat) →
  ∃ k, pick_slot policy slots wl cur last now h dw = Some (Some k) ∧ (k < List.length slots)%nat.
Proof.
  intros Hne Hlen Hcur. destruct slots as [|s0 rest]; [done|]. unfold pick_slot.
  assert (Hloud : ∃ k, pick_loudest s0 rest cur last now h dw = Some k ∧ (k < List.length (s0 :: rest))%nat).
  { unfold pick_loudest. pose proof (loudest_range rest 1 (0%nat, rms s0) ltac:(cbn; lia)) as Hr.
    destruct (loudest rest 1 (0%nat, rms s0)) as [li lr]. cbn in Hr.
    destruct cur as [k|]; [|exists li; cbn; split; [done|lia]]. specialize (Hcur k eq_refl).
    destruct (Nat.eqb_spec k li); [by exists k|].
    destruct ((s0 :: rest) !! k) as [a|] eqn:Ea; [|apply lookup_ge_None in Ea; lia]. cbn [mbind option_bind].
    case_match; [exists li; cbn; split; [done|lia]|by exists k]. }
  destruct Hloud as (k & E & Hk).
  destruct policy as [|channel]; [exists k; by rewrite E|].
  destruct (position (Z.eqb channel) wl) as [idx|] eqn:Ep; [|exists k; by rewrite E].
  exists idx. split; [done|]. apply position_Some in Ep as (x & Hx & _). apply lookup_lt_Some in Hx. lia.
Qed.

(** A fixed channel of the whitelist is the one chosen. *)
Lemma pick_slot_fixed (channel : Z) (slots : list SlotState) (wl : list Z) cur last now h dw k :
  channel ∈ wl → pick_slot (FixedChannel channel) slots wl cur last now h dw = Some (Some k) → wl !! k = Some channel.
Proof.
  intros Hin. unfold pick_slot. destruct slots; [done|].
  destruct (position (Z.eqb channel) wl) as [idx|] eqn:Ep.
  - intros [= <-]. apply position_Some in Ep as (x & Hx & He & _). apply Z.eqb_eq in He. by subst.
  - pose proof (position_None _ _ Ep _ Hin) as Hf. by rewrite Z.eqb_refl in Hf.
Qed.

(** When no fixed channel decides, leaving a slot takes a louder one by the
    hysteresis, and the dwell since the last switch. *)
Lemma pick_slot_leaves (policy : ChannelSelection) (slots : list SlotState) (wl : list Z) (p : nat) (last : option Z) now h dw (q : nat) :
  truly_fixed policy wl = false → pick_slot policy slots wl (Some p) last now h dw = Some (Some q) → q ≠ p →
  (∀ t, last = Some t → dw ≤ saturating_duration_since now t) ∧
  ∃ sp sq, slots !! p = Some sp ∧ slots !! q = Some sq ∧ float_gt (rms sq) (f32_mul (rms sp) h) = true.
Proof.
  intros Hf Hpick Hne. unfold pick_slot in Hpick. destruct slots as [|s0 rest]; [done|].
  assert (Hd : match policy with FixedChannel channel => position (Z.eqb channel) wl | Auto => None end = None).
  { destruct policy as [|channel]; [done|]. cbn in Hf.
    destruct (position (Z.eqb channel) wl) as [i|] eqn:Ep; [|done].
    apply position_Some in Ep as (x & Hx & He & _). exfalso. apply list_elem_of_lookup_2, list_elem_of_In in Hx.
    assert (existsb (Z.eqb channel) wl = true) by (apply existsb_exists; by exists x). unfold in_whitelist in Hf. congruence. }
  rewrite Hd in Hpick. unfold pick_loudest in Hpick.
  assert (Hl : ∀ rest (i : nat) best all, (best.1 < i)%nat → drop i all = rest →
            (∃ s, all !! best.1 = Some s ∧ rms s = best.2) →
            ∃ s, all !! (loudest rest i best).1 = Some s ∧ rms s = (loudest rest i best).2).
  { clear. induction rest as [|s rest IH]; intros i best all Hb Hdrop Hbest; [done|]. cbn. apply (IH _ _ all).
    - destruct (float_gt _ _); cbn; lia.
    - replace (S i) with (i + 1)%nat by lia. rewrite <- drop_drop, Hdrop. done.
    - destruct (float_gt _ _); [done|]. cbn. exists s. split; [|done].
      replace i with (i + 0)%nat by lia. rewrite <- lookup_drop, Hdrop. done. }
  specialize (Hl rest 1%nat (0%nat, rms s0) (s0 :: rest) ltac:(cbn; lia) eq_refl ltac:(by exists s0)).
  destruct (loudest rest 1 (0%nat, rms s0)) as [li lr]. cbn in Hl.
  destruct (Nat.eqb_spec p li) as [->|Hpl]; [cbn in Hpick; congruence|].
  destruct ((s0 :: rest) !! p) as [sp|] eqn:Esp; [|done]. cbn [mbind option_bind] in Hpick.
  destruct (float_gt lr (f32_mul (rms sp) h)) eqn:Eg; cbn [andb] in Hpick; [|cbn in Hpick; congruence].
  destruct (match last with None => true | Some t => dw <=? saturating_duration_since now t end) eqn:Ed;
    cbn in Hpick; [|congruence]. injection Hpick as <-. split.
  - intros t ->. by apply Z.leb_le in Ed.
  - destruct Hl as (s & Hs & Hr). exists sp, s. split_and!; try done. by rewrite Hr.
Qed.

(** ** Pushing to the ring *)

Lemma fold_store_capacity (todo : list (nat * Z)) (b : Inner) :
  capacity (fold_left (λ b '(c, x), store_cell c x b) todo b) = capacity b.
Proof. revert b. induction todo as [|[c x] todo IH]; intros b; [done|]. cbn. by rewrite IH. Qed.

Lemma Writer_push_ok (b : Inner) (samples : list Z) :
  Z.of_nat (List.length samples) ≤ max_push_len b → ∃ b', Writer_push b samples = Some b' ∧ capacity b' = capacity b.
Proof.
  intros H. unfold Writer_push, push_begin, max_push_len in *.
  destruct (Z.eqb_spec (Z.of_nat (List.length samples)) 0); [by exists b|].
  destruct (Z.leb_spec (Z.of_nat (List.length samples)) (safety_margin b)); [|lia].
  eexists. split; [done|]. cbn. apply fold_store_capacity.
Qed.

(** [Writer_push] is the writer's own steps, one store at a time, seen by any
    readers. *)
Lemma Writer_push_run (stale : bool) (b b' : Inner) (rs : gmap nat Reader) (samples : list Z) :
  writer_taken b = true → Writer_push b samples = Some b' →
  run stale (mkSystem b WIdle rs) [Pushed samples] (mkSystem b' WIdle rs).
Proof.
  intros Ht. unfold Writer_push. destruct (push_begin b samples) as [w|] eqn:Eb; [|done].
  assert (Hb : run stale (mkSystem b WIdle rs) [Pushed samples] (mkSystem b w rs)).
  { apply (RunStep stale _ [] (mkSystem b WIdle rs) [Pushed samples]); [constructor|]. by apply (PushBegin stale (mkSystem b WIdle rs)). }
  destruct w as [|todo nh]; intros [= <-]; [done|].
  assert (Hst : ∀ todo b0, run stale (mkSystem b WIdle rs) [Pushed samples] (mkSystem b0 (WStoring todo nh) rs) →
     run stale (mkSystem b WIdle rs) [Pushed samples]
       (mkSystem (fold_left (λ b '(c, x), store_cell c x b) todo b0) (WStoring [] nh) rs)).
  { clear. induction todo as [|[c x] todo IH]; intros b0 Hr; [done|]. cbn. apply IH.
    rewrite <- (app_nil_r [Pushed samples]). eapply RunStep; [exact Hr|]. by apply (StoreCell stale (mkSystem b0 _ rs)). }
  specialize (Hst todo b Hb). rewrite <- (app_nil_r [Pushed samples]). eapply RunStep; [exact Hst|].
  by apply (StoreHead stale (mkSystem _ _ rs)).
Qed.

Lemma push_and_publish_ok (cfg : MicArbitratorConfig) (t : Z) (samples : list f32) w :
  Z.of_nat (List.length samples) ≤ max_push_len w.1 →
  ∃ w', push_and_publish cfg t samples w = Some w' ∧ capacity w'.1 = capacity w.1 ∧
    Writer_push w.1 (map f32_to_bits samples) = Some w'.1.
Proof.
  intros H. unfold push_and_publish. destruct (Writer_push_ok w.1 (map f32_to_bits samples)) as (b & E & Hc); [by rewrite length_map|].
  rewrite E. cbn [mbind option_bind]. eexists. split; [done|]. done.
Qed.

Lemma Writer_push_capacity (b b' : Inner) (samples : list Z) : Writer_push b samples = Some b' → capacity b' = capacity b.
Proof.
  unfold Writer_push. destruct (push_begin b samples) as [[|todo nh]|]; [by intros [= <-]| |done].
  intros [= <-]. cbn. apply fold_store_capacity.
Qed.

Lemma push_and_publish_capacity (cfg : MicArbitratorConfig) t (samples : list f32) w w' :
  push_and_publish cfg t samples w = Some w' → capacity w'.1 = capacity w.1.
Proof.
  unfold push_and_publish. destruct (Writer_push w.1 (map f32_to_bits samples)) as [b|] eqn:E; [|done].
  intros [= <-]. cbn. by eapply Writer_push_capacity.
Qed.

Lemma push_chunks_capacity (cfg : MicArbitratorConfig) t k (cs : list (list f32)) w w' :
  push_chunks cfg t k cs w = Some w' → capacity w'.1 = capacity w.1.
Proof.
  revert k w. induction cs as [|c cs IH]; intros k w; cbn [push_chunks]; [by intros [= <-]|].
  destruct (push_and_publish cfg (t k) c w) as [w1|] eqn:E; [|done]. cbn [mbind option_bind]. intros H.
  rewrite (IH _ _ H). by eapply push_and_publish_capacity.
Qed.

Lemma max_push_capacity (a b : Inner) : capacity a = capacity b → max_push_len a = max_push_len b.
Proof. unfold max_push_len, safety_margin. by intros ->. Qed.

Lemma chunks_of_spec (fuel n : nat) (l : list f32) :
  (0 < n)%nat → (List.length l ≤ fuel)%nat →
  List.concat (chunks_of fuel n l) = l ∧ Forall (λ c, (List.length c ≤ n)%nat) (chunks_of fuel n l).
Proof.
  intros Hn. revert l. induction fuel as [|fuel IH]; intros [|x l] Hl; try done; [cbn in Hl; lia|].
  cbn [chunks_of]. destruct (IH (drop n (x :: l))) as [Hc Hf]; [rewrite length_drop; cbn in *; lia|]. split.
  - cbn [List.concat]. rewrite Hc. apply take_drop.
  - constructor; [|done]. rewrite length_take. lia.
Qed.

Lemma push_chunks_ok (cfg : MicArbitratorConfig) (t : nat → Z) k (cs : list (list f32)) w :
  Forall (λ c, Z.of_nat (List.length c) ≤ max_push_len w.1) cs →
  ∃ w', push_chunks cfg t k cs w = Some w' ∧ capacity w'.1 = capacity w.1.
Proof.
  revert k w. induction cs as [|c cs IH]; intros k w Hc; [by exists w|]. inversion Hc as [|? ? Hc1 Hc2]; subst.
  cbn [push_chunks]. destruct (push_and_publish_ok cfg (t k) c w Hc1) as (w1 & -> & Hcap & _). cbn [mbind option_bind].
  destruct (IH (S k) w1) as (w2 & E & Hcap2).
  { by rewrite (max_push_capacity w1.1 w.1). }
  exists w2. split; [done|]. congruence.
Qed.

Section Periods.
Context `{L : Libm} `{R : Rubato} `{!RubatoLaws R}.

(** ** The invariant of an open source *)

Definition resampler_ok (rate : Z) (r : option Streaming) : Prop :=
  if rate =? SampleRate_VALUE then r = None else ∃ s, r = Some s ∧ stream_ok s.

Record booted (P : nat) (st : ArbitratorState) (src : ActiveSource) : Prop := {
  bt_active : active st = Some src;
  bt_src : source_ok P src;
  bt_whitelist : cached_whitelist st = src_whitelist src;
  bt_channels : cached_n_channels st = Z.to_nat (src_channels src);
  bt_rate : cached_rate st = src_rate src;
  bt_period : cached_period_frames st = src_period_size src;
  bt_slots : List.length (per_slot st) = List.length (src_whitelist src);
  bt_sums : List.length (sum_sq_scratch st) = List.length (src_whitelist src);
  bt_flat : List.length (slot_scratch_flat st) = (List.length (src_whitelist src) * src_period_size src)%nat;
  bt_inter : List.length (interleaved_scratch st) = (src_period_size src * Z.to_nat (src_channels src))%nat;
  bt_rs_len : List.length (resamplers st) = List.length (src_whitelist src);
  bt_rs : Forall (resampler_ok (src_rate src)) (resamplers st);
  bt_slot k : active_slot st = Some k → (k < List.length (src_whitelist src))%nat;
}.

Lemma mapM_const {A B} (f : A → option B) (l : list A) (b : B) :
  (∀ x, f x = Some b) → mapM f l = Some (replicate (List.length l) b).
Proof. intros H. induction l as [|x l IH]; [done|]. cbn. rewrite H. cbn. by rewrite IH. Qed.

Lemma mapM_new_ok (rate : Z) (wl : list Z) :
  0 < rate ≤ u32_max →
  ∃ rs, mapM (λ _ : Z, s ← Streaming_new rate SampleRate_VALUE; Some (Some s)) wl = Some rs ∧
    List.length rs = List.length wl ∧ Forall (λ r, ∃ s, r = Some s ∧ stream_ok s) rs.
Proof.
  intros Hr. destruct (Streaming_new_ok rate SampleRate_VALUE Hr ltac:(unfold SampleRate_VALUE, u32_max; lia)) as (s & Hs & Hok).
  exists (replicate (List.length wl) (Some s)). split; [apply mapM_const; intros _; by rewrite Hs|].
  split; [apply length_replicate|]. apply Forall_replicate. by exists s.
Qed.

Lemma boot_ok (P : nat) (st : ArbitratorState) (src : ActiveSource) (cfg : MicArbitratorConfig) (now : Z) :
  small P → source_ok P src →
  ∃ st', boot st src cfg now = Some st' ∧ booted P st' src ∧ last_data_at st' = now ∧ active_slot st' = None ∧ last_switch_at st' = None.
Proof.
  intros HP Hs. pose proof (src_rate_ok _ _ Hs) as Hr. unfold boot, block_duration.
  destruct (block_duration_ok P (src_period_size src) (src_rate src)) as (d & ->);
    [done|by apply (src_period_ok _ _ Hs)|done|]. cbn [mbind option_bind].
  assert (Hrs : ∃ rs, (if src_rate src =? SampleRate_VALUE then Some (replicate (List.length (src_whitelist src)) None)
                    else mapM (λ _ : Z, s ← Streaming_new (src_rate src) SampleRate_VALUE; Some (Some s)) (src_whitelist src)) = Some rs ∧
              List.length rs = List.length (src_whitelist src) ∧ Forall (resampler_ok (src_rate src)) rs).
  { unfold resampler_ok. destruct (src_rate src =? SampleRate_VALUE).
    - eexists. split; [done|]. split; [apply length_replicate|]. by apply Forall_replicate.
    - by apply mapM_new_ok. }
  destruct Hrs as (rs & -> & Hl & Hf). cbn [mbind option_bind]. eexists. split; [done|].
  split; [|done]. split; cbn; rewrite ?length_replicate; done.
Qed.

(** What a period leaves as it was. *)
Record same_boot (a b : ArbitratorState) : Prop := {
  sb_active : active b = active a;
  sb_whitelist : cached_whitelist b = cached_whitelist a;
  sb_channels : cached_n_channels b = cached_n_channels a;
  sb_rate : cached_rate b = cached_rate a;
  sb_period : cached_period_frames b = cached_period_frames a;
}.

Lemma ema_update_all_ok (alpha : f32) (frames n : nat) (sums : list f32) (slots : list SlotState) :
  List.length sums = n → List.length slots = n →
  ema_update_all alpha frames n sums slots = Some (zip_with (ema_update alpha frames) sums slots).
Proof.
  intros Hs Hl. unfold ema_update_all. unfold f32 in *. rewrite Hs, Hl, Nat.leb_refl. cbn.
  rewrite !take_ge, drop_ge by lia. by rewrite app_nil_r.
Qed.

(** The period up to the choice: every window holds its channel, every loudness
    is updated from it, and the slot is the one [pick_slot] answers. *)
Lemma measure_and_pick_ok (P : nat) (st : ArbitratorState) (src : ActiveSource) (frames : nat) (policy : ChannelSelection)
    (cfg : MicArbitratorConfig) (now : Z) :
  small P → booted P st src → (0 < frames ≤ src_period_size src)%nat →
  ∃ st' k, measure_and_pick st frames policy cfg now = Some st' ∧ booted P st' src ∧
    active_slot st' = Some k ∧ resamplers st' = resamplers st ∧ last_data_at st' = last_data_at st ∧
    (∀ j ch, src_whitelist src !! j = Some ch →
       slice (slot_scratch_flat st') (j * src_period_size src) (j * src_period_size src + frames) =
         Some (channel_samples (interleaved_scratch st) (Z.to_nat (src_channels src)) (Z.to_nat ch) frames)) ∧
    pick_slot policy (per_slot st') (src_whitelist src) (active_slot st) (last_switch_at st) now (hysteresis_linear cfg) (dwell cfg)
      = Some (Some k) ∧
    last_switch_at st' = (if bool_decide (Some k = active_slot st) then last_switch_at st else Some now).
Proof.
  intros HP Hb Hfr. pose proof (bt_src _ _ _ Hb) as Hs. pose proof (src_rate_ok _ _ Hs) as Hr.
  pose proof (src_channels_ok _ _ Hs) as Hc. pose proof (src_period_ok _ _ Hs) as Hper.
  unfold measure_and_pick, alpha_for_frames, block_duration.
  rewrite (bt_channels _ _ _ Hb), (bt_whitelist _ _ _ Hb), (bt_period _ _ _ Hb), (bt_rate _ _ _ Hb).
  set (n := Z.to_nat (src_channels src)). pose proof (bt_inter _ _ _ Hb) as Hi.
  rewrite slice_Some by (rewrite ?Hi; fold n; nia). cbn [mbind option_bind]. rewrite drop_0, Nat.sub_0_r.
  destruct (demux_ok (take (frames * n) (interleaved_scratch st)) n (src_whitelist src) (slot_scratch_flat st) (sum_sq_scratch st)
              frames (src_period_size src) 0) as (flat & sums & -> & Hfl & Hsl & _ & _ & Hnew).
  { eapply list.Forall_impl; [apply (src_whitelist_ok _ _ Hs)|]. cbn. lia. }
  { rewrite length_take, Hi. fold n. nia. }
  { lia. }
  { rewrite (bt_flat _ _ _ Hb). lia. }
  { rewrite (bt_sums _ _ _ Hb). lia. }
  cbn [mbind option_bind].
  assert (Halpha : ∃ a, (if (frames =? src_period_size src)%nat then Some (cached_alpha st)
            else d ← from_secs_f64 (f64_div (f64_of_int (Z.of_nat frames)) (f64_of_int (src_rate src))); Some (ema_alpha d (rms_window cfg)))
            = Some a).
  { destruct (Nat.eqb_spec frames (src_period_size src)); [by eexists|].
    destruct (block_duration_ok P frames (src_rate src)) as (d & ->); [done|lia|done|]. by eexists. }
  destruct Halpha as (alpha & ->). cbn [mbind option_bind].
  rewrite ema_update_all_ok by (by rewrite ?Hsl, ?(bt_sums _ _ _ Hb), ?(bt_slots _ _ _ Hb)). cbn [mbind option_bind].
  set (slots := zip_with (ema_update alpha frames) sums (per_slot st)).
  assert (Hslots : List.length slots = List.length (src_whitelist src)).
  { unfold slots. rewrite length_zip_with, Hsl, (bt_sums _ _ _ Hb), (bt_slots _ _ _ Hb). lia. }
  destruct (pick_slot_ok policy slots (src_whitelist src) (active_slot st) (last_switch_at st) now (hysteresis_linear cfg) (dwell cfg))
    as (k & Hpick & Hk).
  { intros Hx. apply (src_nonempty _ _ Hs). rewrite Hx in Hslots. by destruct (src_whitelist src). }
  { done. }
  { intros j Hj. rewrite Hslots. by apply (bt_slot _ _ _ Hb). }
  rewrite Hpick. cbn [mbind option_bind]. rewrite Hslots in Hk.
  assert (Hlog : (if negb (bool_decide (Some k = active_slot st)) then
       match active_slot st, Some k with
       | Some p, Some n => _ ← src_whitelist src !! p; _ ← src_whitelist src !! n; Some tt
       | None, Some n => _ ← src_whitelist src !! n; Some tt
       | _, None => Some tt
       end else Some tt) = Some tt).
  { assert (Hin : ∀ j, (j < List.length (src_whitelist src))%nat → ∃ c, src_whitelist src !! j = Some c).
    { intros j Hj. apply lookup_lt_is_Some_2 in Hj as [c Hc']. by exists c. }
    destruct (negb _); [|done]. destruct (Hin k Hk) as (ck & Hck). destruct (active_slot st) as [p|] eqn:Ep; cbn [mbind option_bind].
    - destruct (Hin p (bt_slot _ _ _ Hb p Ep)) as (cp & Hcp). by rewrite Hcp, Hck.
    - by rewrite Hck. }
  cbn [mbind option_bind] in Hlog. rewrite Hlog. cbn [mbind option_bind].
  eexists _, k. split; [done|]. cbn [active_slot resamplers last_data_at slot_scratch_flat per_slot last_switch_at].
  split; [|split; [done|]; split; [done|]; split; [done|]; split; [|split; [done|]]].
  - destruct Hb as [B1 B2 B3 B4 B5 B6 B7 B8 B9 B10 B11 B12 B13]. split; cbn; try done; try congruence.
  - intros j ch Hj. destruct (Hnew j ch Hj) as [Hsl1 _]. cbn [Nat.add] in Hsl1. rewrite Hsl1. f_equal.
    unfold channel_samples. apply map_ext_in. intros f [_ Hf]%in_seq. f_equal.
    pose proof (src_whitelist_ok _ _ Hs) as Hw. rewrite Forall_forall in Hw. specialize (Hw ch (list_elem_of_lookup_2 _ _ _ Hj)). cbn in Hw.
    assert (Hlt : (f * n + Z.to_nat ch < frames * n)%nat).
    { assert (Z.to_nat ch < n)%nat by (unfold n; lia). cbn in Hf. nia. }
    rewrite <- (take_drop (frames * n) (interleaved_scratch st)) at 2.
    rewrite app_nth1; [done|]. rewrite length_take, Hi. fold n. nia.
  - by destruct (bool_decide (Some k = active_slot st)).
Qed.

(** ** The samples on their way to the ring *)

Lemma process_expect_ok (s : Streaming) (input : list f32) :
  stream_ok s → ∃ s', process_expect s input = Some s' ∧ stream_ok s'.
Proof.
  intros Hs. unfold process_expect. destruct (Streaming_process_ok s input Hs) as (s' & -> & Hok & _). by exists s'.
Qed.

(** What a slot's stream becomes: restarted when the choice is fixed on another
    slot, else fed its channel and emptied. *)
Definition slot_stream_after (fixed : bool) (active_idx j : nat) (input : list f32) (s s' : Streaming) : Prop :=
  if fixed && negb (j =? active_idx)%nat then s' = reset_after_discontinuity s
  else ∃ s1, process_expect s input = Some s1 ∧ s' = drop_output s1.

Lemma resample_slots_ok (cfg : MicArbitratorConfig) (t : nat → Z) (fixed : bool) (k : nat) (flat : list f32) (frames stride slot : nat)
    (rs : list (option Streaming)) (scratch : list f32) w :
  Forall (λ r, ∃ s, r = Some s ∧ stream_ok s) rs → (frames ≤ stride)%nat → ((slot + List.length rs) * stride ≤ List.length flat)%nat →
  0 < max_push_len w.1 →
  ∃ rs' scratch' w', resample_slots cfg t fixed k flat frames stride slot rs scratch w = Some (rs', scratch', w') ∧
    Forall (λ r, ∃ s, r = Some s ∧ stream_ok s) rs' ∧ List.length rs' = List.length rs ∧ capacity w'.1 = capacity w.1 ∧
    (∀ j s, rs !! j = Some (Some s) → ∃ input s', slice flat ((slot + j) * stride) ((slot + j) * stride + frames) = Some input ∧
       rs' !! j = Some (Some s') ∧ slot_stream_after fixed k (slot + j) input s s' ∧
       ((slot + j)%nat = k → ∃ s1, process_expect s input = Some s1 ∧
          push_chunks cfg t 0 (chunks_of (List.length (out s1)) (Z.to_nat (max_push_len w.1)) (out s1)) w = Some w')) ∧
    ((k < slot)%nat → w' = w).
Proof.
  intros Hrs Hfs. revert slot scratch w. induction Hrs as [|r rs (s & -> & Hs) Hrs IH]; intros slot scratch w Hflat Hmax.
  { exists [], scratch, w. by split_and!. }
  cbn [resample_slots List.length] in *.
  set (input := take frames (drop (slot * stride) flat)).
  assert (Hslice : slice flat (slot * stride) (slot * stride + frames) = Some input).
  { rewrite slice_Some by nia. unfold input. do 2 f_equal. lia. }
  destruct (process_expect_ok s input Hs) as (s1 & Hs1 & Hok1).
  assert (Hhead : ∃ s' scratch1 w1,
    (if fixed && negb (slot =? k)%nat then Some (reset_after_discontinuity s, scratch, w)
     else input ← slice flat (slot * stride) (slot * stride + frames);
          r ← process_expect s input;
          if (slot =? k)%nat then
            let '(r, scratch) := drain_output_into r [] in
            match scratch with
            | [] => Some (r, scratch, w)
            | _ => chunks ← chunks_checked (Z.to_nat (max_push_len w.1)) scratch;
                   w ← push_chunks cfg t 0 chunks w; Some (r, scratch, w)
            end
          else Some (drop_output r, scratch, w)) = Some (s', scratch1, w1) ∧
    stream_ok s' ∧ capacity w1.1 = capacity w.1 ∧ slot_stream_after fixed k slot input s s' ∧
    (slot = k → push_chunks cfg t 0 (chunks_of (List.length (out s1)) (Z.to_nat (max_push_len w.1)) (out s1)) w = Some w1) ∧
    (slot ≠ k → w1 = w)).
  { unfold slot_stream_after. destruct (Nat.eqb_spec slot k) as [->|Hne]; cbn [negb andb].
    - rewrite andb_false_r, Hslice. cbn [mbind option_bind]. rewrite Hs1. cbn [mbind option_bind drain_output_into app].
      change (mkStreaming (resampler s1) (accum s1) [] (chunk_size s1) (out_scratch_len s1)) with (drop_output s1).
      destruct (out s1) as [|x o] eqn:Eo.
      + exists (drop_output s1), [], w. split_and!; try done; [by apply drop_stream_ok|by exists s1].
      + unfold chunks_checked. destruct (Nat.eqb_spec (Z.to_nat (max_push_len w.1)) 0); [lia|]. cbn [mbind option_bind].
        destruct (chunks_of_spec (List.length (x :: o)) (Z.to_nat (max_push_len w.1)) (x :: o)) as [_ Hf]; [lia|done|].
        destruct (push_chunks_ok cfg t 0 (chunks_of (List.length (x :: o)) (Z.to_nat (max_push_len w.1)) (x :: o)) w) as (w1 & Ew & Hcap).
        { eapply list.Forall_impl; [exact Hf|]. cbn. lia. }
        unfold f32 in *. rewrite Ew. cbn [mbind option_bind]. exists (drop_output s1), (x :: o), w1.
        split_and!; try done; [by apply drop_stream_ok|by exists s1].
    - rewrite andb_true_r. destruct fixed.
      + exists (reset_after_discontinuity s), scratch, w. split_and!; try done. by apply reset_stream_ok.
      + rewrite Hslice. cbn [mbind option_bind]. rewrite Hs1. cbn [mbind option_bind].
        exists (drop_output s1), scratch, w. split_and!; try done; [by apply drop_stream_ok|by exists s1]. }
  destruct Hhead as (s' & scratch1 & w1 & -> & Hok' & Hcap1 & Hafter & Hact & Hother). cbn [mbind option_bind].
  destruct (IH (S slot) scratch1 w1) as (rs' & scratch' & w' & -> & Hf' & Hl' & Hcap' & Hnew & Hdone);
    [lia|by rewrite (max_push_capacity w1.1 w.1)|]. cbn [mbind option_bind].
  exists (Some s' :: rs'), scratch', w'. split; [done|]. split; [constructor; [by exists s'|done]|].
  split; [cbn; congruence|]. split; [congruence|]. split.
  - intros [|j] sj Hj; cbn in Hj.
    + injection Hj as <-. rewrite Nat.add_0_r. exists input, s'. split; [done|]. split; [done|]. split; [done|].
      intros He. exists s1. split; [done|]. rewrite Hdone by lia. by apply Hact.
    + destruct (Hnew j sj Hj) as (inp & sj' & H1 & H2 & H3 & H4). replace (slot + S j)%nat with (S slot + j)%nat by lia.
      exists inp, sj'. split; [done|]. split; [done|]. split; [done|]. intros He. rewrite Hother in H4 by lia. by apply H4.
  - intros Hk. rewrite Hdone by lia. apply Hother. lia.
Qed.

(** The ring has room for any period, and one push fits it. *)
Definition ring_fits (P : nat) (b : Inner) : Prop := Z.of_nat P ≤ max_push_len b ∧ 0 < max_push_len b.

Lemma ring_fits_capacity P (a b : Inner) : capacity a = capacity b → ring_fits P a → ring_fits P b.
Proof. intros H. unfold ring_fits. by rewrite (max_push_capacity a b H). Qed.

(** What the period of the active slot [k] pushes: at the ring's own rate, the
    channel's samples in one push; otherwise what its resampler has made of
    them, in pushes the ring takes.  The other resamplers follow their own
    channels, or restart when the choice is fixed. *)
Definition pushed_period (st st' : ArbitratorState) (src : ActiveSource) (frames : nat) (policy : ChannelSelection)
    (cfg : MicArbitratorConfig) (t : nat → Z) (w w' : Inner * option BufferTimingAnchor) : Prop :=
  let samples ch := channel_samples (interleaved_scratch st) (Z.to_nat (src_channels src)) (Z.to_nat ch) frames in
  ∃ k ch, active_slot st' = Some k ∧ src_whitelist src !! k = Some ch ∧
    if src_rate src =? SampleRate_VALUE
    then push_and_publish cfg (t O) (samples ch) w = Some w'
    else (∀ j c s, src_whitelist src !! j = Some c → resamplers st !! j = Some (Some s) →
            ∃ s', resamplers st' !! j = Some (Some s') ∧
              slot_stream_after (truly_fixed policy (src_whitelist src)) k j (samples c) s s') ∧
         ∃ s s1, resamplers st !! k = Some (Some s) ∧ process_expect s (samples ch) = Some s1 ∧
           push_chunks cfg t 0 (chunks_of (List.length (out s1)) (Z.to_nat (max_push_len w.1)) (out s1)) w = Some w'.

Lemma pushed_period_capacity st st' src frames policy cfg t w w' :
  pushed_period st st' src frames policy cfg t w w' → capacity w'.1 = capacity w.1.
Proof.
  intros (k & ch & _ & _ & H). destruct (src_rate src =? SampleRate_VALUE); [by eapply push_and_publish_capacity|].
  destruct H as (_ & s & s1 & _ & _ & H). by eapply push_chunks_capacity.
Qed.

Lemma process_period_ok (P : nat) (st : ArbitratorState) (src : ActiveSource) (frames : nat) (policy : ChannelSelection)
    (cfg : MicArbitratorConfig) (now : Z) (t : nat → Z) w :
  small P → booted P st src → (0 < frames ≤ src_period_size src)%nat → ring_fits P w.1 →
  ∃ st' w', process_period st w frames policy cfg now t = Some (st', w') ∧ booted P st' src ∧
    capacity w'.1 = capacity w.1 ∧ last_data_at st' = last_data_at st ∧
    pushed_period st st' src frames policy cfg t w w' ∧
    (∃ k, active_slot st' = Some k ∧
       pick_slot policy (per_slot st') (src_whitelist src) (active_slot st) (last_switch_at st) now (hysteresis_linear cfg) (dwell cfg)
         = Some (Some k) ∧
       last_switch_at st' = (if bool_decide (Some k = active_slot st) then last_switch_at st else Some now)).
Proof.
  intros HP Hb Hfr [Hring Hpos]. unfold process_period.
  destruct (measure_and_pick_ok P st src frames policy cfg now HP Hb Hfr) as (st1 & k & -> & Hb1 & Hk & Hrs1 & Hd1 & Hwin & Hpick & Hsw).
  cbn [mbind option_bind]. unfold emit. rewrite Hk, Hrs1, (bt_period _ _ _ Hb1), (bt_whitelist _ _ _ Hb1).
  pose proof (src_period_ok _ _ (bt_src _ _ _ Hb)) as Hper. pose proof (bt_slot _ _ _ Hb1 k Hk) as Hlt.
  destruct (lookup_lt_is_Some_2 _ _ Hlt) as [ch Hch]. specialize (Hwin k ch Hch) as Hwk.
  destruct (lookup_lt_is_Some_2 (resamplers st) k ltac:(rewrite (bt_rs_len _ _ _ Hb); done)) as [r Hr]. rewrite Hr. cbn [mbind option_bind].
  pose proof (bt_rs _ _ _ Hb) as Hall. unfold resampler_ok in Hall. unfold pushed_period.
  destruct (src_rate src =? SampleRate_VALUE) eqn:Erate.
  - rewrite Forall_forall in Hall. rewrite (Hall r (list_elem_of_lookup_2 _ _ _ Hr)). rewrite Hwk. cbn [mbind option_bind].
    destruct (push_and_publish_ok cfg (t O) (channel_samples (interleaved_scratch st) (Z.to_nat (src_channels src)) (Z.to_nat ch) frames) w)
      as (w' & Ew & Hcap & _); [rewrite length_channel_samples; lia|]. rewrite Ew. cbn [mbind option_bind].
    exists st1, w'. split_and!; try done; [by exists k, ch|by exists k].
  - assert (Hsome : ∃ s, r = Some s ∧ stream_ok s).
    { rewrite Forall_forall in Hall. apply (Hall r (list_elem_of_lookup_2 _ _ _ Hr)). }
    destruct Hsome as (s & -> & Hs).
    destruct (resample_slots_ok cfg t (truly_fixed policy (src_whitelist src)) k (slot_scratch_flat st1) frames (src_period_size src) 0
                (resamplers st) (out_scratch st1) w) as (rs' & scratch' & w' & -> & Hf' & Hl' & Hcap & Hnew & _).
    { done. } { lia. } { rewrite (bt_flat _ _ _ Hb1), (bt_rs_len _ _ _ Hb). lia. } { done. }
    cbn [mbind option_bind]. eexists _, w'. split; [done|].
    cbn [active_slot last_data_at resamplers per_slot last_switch_at].
    split; [|split; [done|]; split; [done|]; split; [|by exists k]].
    + destruct Hb1 as [B1 B2 B3 B4 B5 B6 B7 B8 B9 B10 B11 B12 B13]. split; cbn; try done.
      * rewrite Hl'. by apply (bt_rs_len _ _ _ Hb).
      * unfold resampler_ok. by rewrite Erate.
      * by intros j [= <-].
    + exists k, ch. split; [done|]. split; [done|]. split.
      * intros j c sj Hc Hj. destruct (Hnew j sj Hj) as (inp & sj' & Hin & Hj' & Haft & _).
        rewrite Nat.add_0_l, (Hwin j c Hc) in Hin. injection Hin as <-. by exists sj'.
      * destruct (Hnew k s Hr) as (inp & sk' & Hin & _ & _ & Hact). rewrite Nat.add_0_l, Hwk in Hin. injection Hin as <-.
        destruct (Hact eq_refl) as (s1 & H1 & H2). by exists s, s1.
Qed.
End Periods.
