(* ===== verification/MicRuns.v ===== *)
(** * Runs of the arbitrator

    What holds of [run_loop] for any settings, clock and devices within what
    their documentation promises: it never panics; which microphone it listens
    to; which channel, and how often that changes; what it pushes. *)

From S2P Require Import Prelude Ids Common F32 AudioBuffer Resample MicTypes MicSource MicArbitrator MicFacts MicPeriod.
From stdpp Require Import list.

Open Scope Z_scope.

Section Runs.
Context `{L : Libm} `{R : Rubato} `{!RubatoLaws R}.
Context (alsa_real : bool) (cfg : MicArbitratorConfig).

(** What a turn may be answered: a catalogue of the source's types and devices
    with periods of at most [P] frames. *)
Record inputs_ok (P : nat) (i : LoopInputs) : Prop := {
  in_typed : Forall candidate_typed (candidates (catalogue (li_settings i)));
  in_device k : device_ok P (li_device i k);
  in_read : read_inputs_ok (li_read i);
}.

(** No source: nothing of an old one is left. *)
Record idle (st : ArbitratorState) : Prop := {
  id_active : active st = None;
  id_slot : active_slot st = None;
  id_switch : last_switch_at st = None;
}.

Definition arb_ok (P : nat) (st : ArbitratorState) : Prop := idle st ∨ ∃ src, booted P st src.

Definition loop_ok (P : nat) (s : LoopState) : Prop := arb_ok P (arb s) ∧ ring_fits P (out_ring s).

Definition room (P : nat) : Prop := small P ∧ MAX_PERIOD_FRAMES ≤ Z.of_nat P.

Lemma tear_down_idle (st : ArbitratorState) : idle (tear_down st).
Proof. done. Qed.

Lemma booted_active (P : nat) (st : ArbitratorState) (a b : ActiveSource) : booted P st a → active st = Some b → a = b.
Proof. intros Hb Ha. rewrite (bt_active _ _ _ Hb) in Ha. congruence. Qed.

Lemma arb_ok_booted (P : nat) (st : ArbitratorState) (src : ActiveSource) : arb_ok P st → active st = Some src → booted P st src.
Proof.
  intros [Hi|[a Hb]] Ha; [by rewrite (id_active _ Hi) in Ha|]. by rewrite <- (booted_active _ _ _ _ Hb Ha).
Qed.

Lemma arb_ok_idle (P : nat) (st : ArbitratorState) : arb_ok P st → active st = None → idle st.
Proof. intros [Hi|[a Hb]] Ha; [done|]. by rewrite (bt_active _ _ _ Hb) in Ha. Qed.

(** ** Opening *)

Lemma open_candidate_ok (P : nat) (i : LoopInputs) idx c a :
  room P → inputs_ok P i → candidate_typed c → open_candidate alsa_real i idx c = Ok a → source_ok P a ∧ src_id a = cand_id c.
Proof. intros [_ HP] Hi Hc. apply open_source_ok; [done| |done]. apply (in_device _ _ Hi). Qed.

(** The walk opens the first that opens. *)
Lemma open_starting_from_spec (i : LoopInputs) (idx : nat) (cs : list MicCandidate) last res last' :
  open_starting_from alsa_real i idx cs last = (res, last') →
  match res with
  | Some (k, a) => ∃ j c, k = (idx + j)%nat ∧ cs !! j = Some c ∧ open_candidate alsa_real i k c = Ok a ∧
      ∀ j' c', (j' < j)%nat → cs !! j' = Some c' → ∃ e, open_candidate alsa_real i (idx + j') c' = Err e
  | None => ∀ j c, cs !! j = Some c → ∃ e, open_candidate alsa_real i (idx + j) c = Err e
  end.
Proof.
  revert idx last. induction cs as [|c cs IH]; intros idx last H; cbn in H.
  { injection H as <- <-. intros j c Hj. by rewrite lookup_nil in Hj. }
  destruct (open_candidate alsa_real i idx c) as [a|e] eqn:E.
  { injection H as <- <-. exists 0%nat, c. rewrite Nat.add_0_r. split_and!; try done. lia. }
  specialize (IH (S idx) _ H). destruct res as [[k a]|].
  - destruct IH as (j & c1 & -> & Hj & Ha & Hmin). exists (S j), c1. replace (idx + S j)%nat with (S idx + j)%nat by lia.
    split_and!; try done. intros [|j'] c' Hlt Hj'; cbn in Hj'.
    + injection Hj' as <-. rewrite Nat.add_0_r. by exists e.
    + replace (idx + S j')%nat with (S idx + j')%nat by lia. apply (Hmin j' c'); [lia|done].
  - intros [|j] c' Hj; cbn in Hj.
    + injection Hj as <-. rewrite Nat.add_0_r. by exists e.
    + replace (idx + S j)%nat with (S idx + j)%nat by lia. by apply IH.
Qed.

Lemma desired_lookup (i : LoopInputs) (st : ArbitratorState) idx :
  desired i st = Some idx → ∃ c, candidates (catalogue (li_settings i)) !! idx = Some c ∧
    ∀ id, policy_mic (policy (li_settings i)) = FixedMic id → cand_id c = id.
Proof.
  unfold desired, resolve_desired_idx. set (cs := candidates (catalogue (li_settings i))).
  assert (Hpos : ∀ id k, position (λ c, bool_decide (cand_id c = id)) cs = Some k → ∃ c, cs !! k = Some c ∧ cand_id c = id).
  { intros id k Hk. apply position_Some in Hk as (c & Hc & Hb & _). apply bool_decide_eq_true in Hb. by exists c. }
  destruct (policy_mic (policy (li_settings i))) as [|id].
  - destruct (active_id st) as [id|]; [destruct (position _ cs) as [k|] eqn:Ep|].
    + intros [= <-]. destruct (Hpos _ _ Ep) as (c & Hc & _). by exists c.
    + destruct cs as [|c cs']; [done|]. intros [= <-]. by exists c.
    + destruct cs as [|c cs']; [done|]. intros [= <-]. by exists c.
  - intros H. destruct (Hpos id idx H) as (c & Hc & Hid). exists c. split; [done|]. by intros ? [= <-].
Qed.

(** How a turn leaves the choice of the source: as it was, or idle, or freshly
    booted at the source of a candidate that opened. *)
Inductive selected (P : nat) (i : LoopInputs) (st : ArbitratorState) : ArbitratorState → Prop :=
  | SelKept : need_switch st (candidates (catalogue (li_settings i))) (desired i st) = false → selected P i st st
  | SelIdle st' :
      need_switch st (candidates (catalogue (li_settings i))) (desired i st) = true → idle st' → selected P i st st'
  | SelBooted st' src k c :
      need_switch st (candidates (catalogue (li_settings i))) (desired i st) = true →
      candidates (catalogue (li_settings i)) !! k = Some c → open_candidate alsa_real i k c = Ok src → src_id src = cand_id c →
      (∃ d, desired i st = Some d ∧ (d ≤ k)%nat ∧
         (∀ j c', (d ≤ j < k)%nat → candidates (catalogue (li_settings i)) !! j = Some c' → ∃ e, open_candidate alsa_real i j c' = Err e) ∧
         (∀ id, policy_mic (policy (li_settings i)) = FixedMic id → k = d ∧ cand_id c = id)) →
      booted P st' src → active_slot st' = None → last_switch_at st' = None → selected P i st st'.

Lemma select_source_ok (P : nat) (i : LoopInputs) (st : ArbitratorState) (last : option Z) :
  room P → inputs_ok P i →
  ∃ st' last', select_source alsa_real cfg i st last = Some (st', last') ∧ selected P i st st'.
Proof.
  intros HP Hi. unfold select_source. destruct (need_switch _ _ _) eqn:En.
  2:{ exists st, last. split; [done|]. by apply SelKept. }
  unfold switch_source. set (cs := candidates (catalogue (li_settings i))) in *.
  destruct (desired i st) as [d|] eqn:Ed.
  2:{ exists (tear_down st), last. split; [done|]. apply SelIdle; [by rewrite Ed|done]. }
  destruct (desired_lookup i st d Ed) as (c & Hc & Hfix). fold cs in Hc. rewrite Hc. cbn [mbind option_bind].
  pose proof (in_typed _ _ Hi) as Hty. fold cs in Hty. rewrite Forall_forall in Hty.
  assert (Hboot : ∀ (k : nat) (c' : MicCandidate) (a : ActiveSource) (l : option Z), cs !! k = Some c' → open_candidate alsa_real i k c' = Ok a → (d ≤ k)%nat →
      (∀ j c0, (d ≤ j < k)%nat → cs !! j = Some c0 → ∃ e, open_candidate alsa_real i j c0 = Err e) →
      (∀ id, policy_mic (policy (li_settings i)) = FixedMic id → k = d ∧ cand_id c' = id) →
      ∃ st' last', (st0 ← boot (tear_down st) a cfg (li_boot_now i); Some (st0, l)) = Some (st', last') ∧ selected P i st st').
  { intros k c' a l Hk Ha Hdk Hmin Hf.
    destruct (open_candidate_ok P i k c' a HP Hi (Hty c' (list_elem_of_lookup_2 _ _ _ Hk)) Ha) as [Hok Hid].
    destruct (boot_ok P (tear_down st) a cfg (li_boot_now i) (proj1 HP) Hok) as (st' & -> & Hb & _ & Hsl & Hsw).
    exists st', l. split; [done|]. eapply (SelBooted _ _ _ _ a k c'); try done; [by rewrite Ed|]. by exists d. }
  destruct (open_candidate alsa_real i d c) as [a|e] eqn:Eo.
  { apply (Hboot d c); try done; [lia|]. intros id Hid. split; [done|]. by apply Hfix. }
  destruct (policy_mic (policy (li_settings i))) as [|id] eqn:Epol.
  2:{ eexists (tear_down st), _. split; [done|]. apply SelIdle; [by rewrite Ed|done]. }
  destruct (open_starting_from _ _ _ _ _) as [[[k a]|] l'] eqn:Ew.
  - apply open_starting_from_spec in Ew. destruct Ew as (j & c' & -> & Hj & Ha & Hmin). rewrite lookup_drop in Hj.
    apply (Hboot (S d + j)%nat c'); try done; [lia|]. intros j' c0 Hj' Hc0.
    destruct (decide (j' = d)) as [->|Hne]; [exists e; congruence|].
    replace j' with (S d + (j' - S d))%nat by lia. apply (Hmin (j' - S d)%nat c0); [lia|].
    rewrite lookup_drop. by replace (S d + (j' - S d))%nat with j' by lia.
  - eexists (tear_down st), _. split; [done|]. apply SelIdle; [by rewrite Ed|done].
Qed.

(** ** One turn *)

Lemma same_source_ok (P : nat) (st : ArbitratorState) (a b : ActiveSource) (buf : list f32) :
  booted P st a → same_source a b → source_ok P b → List.length buf = List.length (interleaved_scratch st) →
  booted P (with_source b buf st) b.
Proof.
  intros [B1 B2 B3 B4 B5 B6 B7 B8 B9 B10 B11 B12 B13] (E1 & E2 & E3 & E4 & E5) Hb Hl.
  split; cbn; rewrite <- ?E2, <- ?E3, <- ?E4, <- ?E5; done || congruence.
Qed.

(** How a turn with an open source ends: without a period, or with one. *)
Inductive period_result (P : nat) (i : LoopInputs) (src : ActiveSource) (s : LoopState) : LoopState → Prop :=
  | PeriodNone s' : out_ring s' = out_ring s → anchor_cell s' = anchor_cell s → arb_ok P (arb s') →
      (active (arb s') = None ∨ ∃ src', active (arb s') = Some src' ∧ same_source src src') →
      (active (arb s') ≠ None → active_slot (arb s') = active_slot (arb s) ∧ last_switch_at (arb s') = last_switch_at (arb s)) →
      period_result P i src s s'
  | PeriodRead s' src' buf frames :
      read_interleaved (li_read i) src (interleaved_scratch (arb s)) = Some (Ok (Frames frames), src', buf) →
      same_source src src' → booted P (arb s') src' → (0 < frames ≤ src_period_size src)%nat →
      ring_fits P (out_ring s') → last_data_at (arb s') = li_data_now i →
      pushed_period (with_source src' buf (arb s)) (arb s') src' frames (policy_channel (policy (li_settings i))) cfg (li_capture_now i)
        (out_ring s, anchor_cell s) (out_ring s', anchor_cell s') →
      (∃ k, active_slot (arb s') = Some k ∧
         pick_slot (policy_channel (policy (li_settings i))) (per_slot (arb s')) (src_whitelist src) (active_slot (arb s))
           (last_switch_at (arb s)) (li_pick_now i) (hysteresis_linear cfg) (dwell cfg) = Some (Some k) ∧
         last_switch_at (arb s') = (if bool_decide (Some k = active_slot (arb s)) then last_switch_at (arb s) else Some (li_pick_now i))) →
      period_result P i src s s'.

Lemma reset_fir_ok (rate : Z) (rs : list (option Streaming)) :
  Forall (resampler_ok rate) rs → Forall (resampler_ok rate) (reset_per_channel_fir rs).
Proof.
  unfold resampler_ok, reset_per_channel_fir. intros H. apply Forall_fmap. eapply list.Forall_impl; [exact H|]. cbn.
  intros r. destruct (rate =? SampleRate_VALUE); [by intros ->|]. intros (s & -> & Hs).
  exists (reset_after_discontinuity s). split; [done|]. by apply reset_stream_ok.
Qed.

Lemma read_and_process_ok (P : nat) (i : LoopInputs) (src : ActiveSource) (s : LoopState) :
  room P → inputs_ok P i → booted P (arb s) src → ring_fits P (out_ring s) →
  ∃ s', read_and_process cfg i src s = Some s' ∧ ring_fits P (out_ring s') ∧ period_result P i src s s'.
Proof.
  intros [HP _] Hi Hb Hring. unfold read_and_process.
  destruct (read_interleaved_ok P (li_read i) src (interleaved_scratch (arb s)) HP (bt_src _ _ _ Hb) (in_read _ _ Hi) (bt_inter _ _ _ Hb))
    as (r & src' & buf & Er & Hok & Hsame & Hlen & Hfr). rewrite Er. cbn [mbind option_bind].
  pose proof (same_source_ok P (arb s) src src' buf Hb Hsame Hok Hlen) as Hb'.
  assert (Hkeep : ∀ st, (idle st ∨ (booted P st src' ∧ active_slot st = active_slot (arb s) ∧ last_switch_at st = last_switch_at (arb s))) →
     ∃ s', Some (mkLoopState st (out_ring s) (last_warn_at s) (anchor_cell s)) = Some s' ∧ ring_fits P (out_ring s') ∧ period_result P i src s s').
  { intros st Hst. eexists. split; [done|]. split; [done|]. apply PeriodNone; cbn; try done.
    - destruct Hst as [Hst|[Hst _]]; [by left|right; by exists src'].
    - destruct Hst as [Hst|[Hst _]]; [left; by apply id_active|right; exists src'; split; [apply (bt_active _ _ _ Hst)|done]].
    - destruct Hst as [Hst|[_ Hst]]; [by rewrite (id_active _ Hst)|done]. }
  destruct r as [[n| | |]|[errno]]; [|by apply Hkeep; right|by apply Hkeep; right|by apply Hkeep; left; apply tear_down_idle|].
  - specialize (Hfr n eq_refl). pose proof Hsame as (E1 & E2 & E3 & E4 & E5).
    set (st1 := with_last_data_at (li_data_now i) (with_source src' buf (arb s))).
    assert (Hb1 : booted P st1 src') by (destruct Hb'; by split).
    destruct (process_period_ok P st1 src' n (policy_channel (policy (li_settings i))) cfg (li_pick_now i) (li_capture_now i) (out_ring s, anchor_cell s))
      as (st' & w' & -> & Hb2 & Hcap & Hdata & Hpush & Hpick); [done|done|by rewrite <- E2|done|]. cbn [mbind option_bind].
    assert (Hfits : ring_fits P w'.1) by (eapply ring_fits_capacity; [symmetry; exact Hcap|done]).
    eexists. split; [done|]. split; [done|].
    rewrite <- E5 in Hpick. eapply (PeriodRead _ _ _ _ _ src' buf n); try done. by destruct w'.
  - destruct src'; [by apply Hkeep; right|]. destruct (li_recovers i); [|by apply Hkeep; left; apply tear_down_idle].
    apply Hkeep. right. split; [|done]. destruct Hb' as [B1 B2 B3 B4 B5 B6 B7 B8 B9 B10 B11 B12 B13].
    split; cbn in *; try done; [unfold reset_per_channel_fir; by rewrite length_map|by apply reset_fir_ok].
Qed.

(** The turns of the loop. *)
Inductive turn (P : nat) (i : LoopInputs) (s s' : LoopState) : Prop :=
  | TurnNoSource st :
      selected P i (arb s) st → active st = None → arb s' = st → out_ring s' = out_ring s → anchor_cell s' = anchor_cell s → turn P i s s'
  | TurnFailover st :
      selected P i (arb s) st → failover_due cfg i st = true → arb s' = tear_down st → out_ring s' = out_ring s →
      anchor_cell s' = anchor_cell s → turn P i s s'
  | TurnSource st src s1 :
      selected P i (arb s) st → active st = Some src → booted P st src → failover_due cfg i st = false →
      arb s1 = st → out_ring s1 = out_ring s → anchor_cell s1 = anchor_cell s →
      period_result P i src s1 s' → turn P i s s'.

Lemma selected_ok (P : nat) (i : LoopInputs) (st st' : ArbitratorState) : arb_ok P st → selected P i st st' → arb_ok P st'.
Proof. intros Hst [|st'' ? Hi|st'' src ? ? ? ? ? ? ? Hb]; [done|by left|right; by exists src]. Qed.

(** A turn always ends, in a sound state. *)
Lemma iterate_ok (P : nat) (i : LoopInputs) (s : LoopState) :
  room P → inputs_ok P i → loop_ok P s →
  ∃ s', iterate alsa_real cfg i s = Some s' ∧ loop_ok P s' ∧ turn P i s s'.
Proof.
  intros HP Hi [Harb Hring]. unfold iterate.
  destruct (select_source_ok P i (arb s) (last_warn_at s) HP Hi) as (st & last & -> & Hsel). cbn [mbind option_bind].
  pose proof (selected_ok P i _ _ Harb Hsel) as Hst.
  destruct (failover_due cfg i st) eqn:Ef.
  { eexists. split; [done|]. split; [split; [by left|done]|]. by apply (TurnFailover _ _ _ _ st). }
  destruct (active st) as [src|] eqn:Ea.
  - pose proof (arb_ok_booted _ _ _ Hst Ea) as Hb.
    destruct (read_and_process_ok P i src (mkLoopState st (out_ring s) last (anchor_cell s)) HP Hi Hb Hring) as (s' & E & Hr & Hper).
    exists s'. split; [done|]. split; [|by apply (TurnSource _ _ _ _ st src (mkLoopState st (out_ring s) last (anchor_cell s)))]. split; [|done].
    destruct Hper as [s' ? ? Ha ? ?|s' src' ? ? ? ? Hb' ? ? ? ? ?]; [done|right; by exists src'].
  - eexists. split; [done|].
    assert (Hpark : ∀ s0 : LoopState, arb (park i (desired i (arb s)) s0) = arb s0 ∧ out_ring (park i (desired i (arb s)) s0) = out_ring s0 ∧
              anchor_cell (park i (desired i (arb s)) s0) = anchor_cell s0).
    { intros s0. unfold park. by destruct (desired i (arb s)), (policy_mic (policy (li_settings i))). }
    destruct (Hpark (mkLoopState st (out_ring s) last (anchor_cell s))) as (E1 & E2 & E3). cbn in E1, E2, E3.
    split; [split; [by rewrite E1|by rewrite E2]|]. by apply (TurnNoSource _ _ _ _ st).
Qed.

Lemma turns_ok (P : nat) (inputs : list LoopInputs) (s : LoopState) :
  room P → Forall (inputs_ok P) inputs → loop_ok P s → ∃ s', turns alsa_real cfg inputs s = Some s' ∧ loop_ok P s'.
Proof.
  intros HP Hi. revert s. induction Hi as [|i inputs Hi1 Hi IH]; intros s Hs; [by exists s|]. cbn [turns].
  destruct (iterate_ok P i s HP Hi1 Hs) as (s1 & -> & Hs1 & _). cbn [mbind option_bind]. by apply IH.
Qed.

Lemma turn_capacity (P : nat) (i : LoopInputs) (s s' : LoopState) : turn P i s s' → capacity (out_ring s') = capacity (out_ring s).
Proof.
  intros [st ? ? ? E ?|st ? ? ? E ?|st src s1 ? ? ? ? ? E ? Hper]; [by rewrite E|by rewrite E|]. rewrite <- E.
  destruct Hper as [s' E' _ _ _ _|s' src' buf frames _ _ _ _ _ _ Hp _]; [by rewrite E'|].
  by apply pushed_period_capacity in Hp.
Qed.

(** ** Which microphone *)

Lemma need_switch_kept (i : LoopInputs) (st : ArbitratorState) :
  need_switch st (candidates (catalogue (li_settings i))) (desired i st) = false →
  match active_id st with
  | None => desired i st = None
  | Some m => ∃ d c, desired i st = Some d ∧ candidates (catalogue (li_settings i)) !! d = Some c ∧ cand_id c = m
  end.
Proof.
  unfold need_switch. destruct (active_id st) as [m|]; destruct (desired i st) as [d|] eqn:Ed; try done.
  destruct (desired_lookup i st d Ed) as (c & Hc & _). rewrite Hc. intros H. exists d, c. split_and!; try done.
  by case_bool_decide.
Qed.

(** A switch never opens the microphone that is already open. *)
Lemma booted_elsewhere (P : nat) (i : LoopInputs) (st : ArbitratorState) (m : MicId) k c d :
  active_id st = Some m → need_switch st (candidates (catalogue (li_settings i))) (desired i st) = true →
  candidates (catalogue (li_settings i)) !! k = Some c → desired i st = Some d →
  (∀ id, policy_mic (policy (li_settings i)) = FixedMic id → k = d ∧ cand_id c = id) → cand_id c ≠ m.
Proof.
  intros Hm Hn Hk Hd Hf Heq. unfold need_switch in Hn. rewrite Hm, Hd in Hn.
  destruct (desired_lookup i st d Hd) as (cd & Hcd & _). rewrite Hcd in Hn. case_bool_decide as Hne; [done|].
  destruct (policy_mic (policy (li_settings i))) as [|id] eqn:Ep.
  - unfold desired, resolve_desired_idx in Hd. rewrite Ep, Hm in Hd.
    set (cs := candidates (catalogue (li_settings i))) in *.
    destruct (position (λ c, bool_decide (cand_id c = m)) cs) as [j|] eqn:Epos.
    + injection Hd as ->. apply position_Some in Epos as (x & Hx & Hb & _). apply bool_decide_eq_true in Hb. congruence.
    + pose proof (position_None _ _ Epos c (list_elem_of_lookup_2 _ _ _ Hk)) as Hb. cbn in Hb. by apply bool_decide_eq_false in Hb.
  - destruct (Hf id eq_refl) as [-> _]. congruence.
Qed.

(** What a turn's period does to the microphone. *)
Lemma period_mic (P : nat) (i : LoopInputs) (src : ActiveSource) (s s' : LoopState) :
  period_result P i src s s' → active_id (arb s') = None ∨ active_id (arb s') = Some (src_id src).
Proof.
  unfold active_id. intros [s1 _ _ _ [Ha|(a & Ha & (E & _))] _|s1 a buf frames _ (E & _) Hb _ _ _ _ _].
  - left. by rewrite Ha.
  - right. by rewrite Ha, E.
  - right. by rewrite (bt_active _ _ _ Hb), E.
Qed.

(** ** Which channel *)

(** The choice made by a turn: the slot and the time of the last switch are as
    before, or as [pick_slot] answers. *)
Lemma turn_slot (P : nat) (i : LoopInputs) (s s' : LoopState) :
  loop_ok P s → turn P i s s' → active_slot (arb s') ≠ None →
  (∃ st src, selected P i (arb s) st ∧ active st = Some src ∧ active_slot (arb s') = active_slot st ∧ last_switch_at (arb s') = last_switch_at st) ∨
  (∃ st src k, selected P i (arb s) st ∧ active st = Some src ∧ cached_whitelist st = src_whitelist src ∧
     active_slot (arb s') = Some k ∧
     pick_slot (policy_channel (policy (li_settings i))) (per_slot (arb s')) (src_whitelist src) (active_slot st) (last_switch_at st)
       (li_pick_now i) (hysteresis_linear cfg) (dwell cfg) = Some (Some k) ∧
     last_switch_at (arb s') = (if bool_decide (Some k = active_slot st) then last_switch_at st else Some (li_pick_now i))).
Proof.
  intros [Hs _] [st Hsel Ha E _ _|st Hsel _ E _ _|st src s1 Hsel Ha Hb _ E _ _ Hper] Hslot.
  - exfalso. apply Hslot. rewrite E. apply id_slot. apply (arb_ok_idle P); [by eapply selected_ok|done].
  - exfalso. apply Hslot. by rewrite E.
  - destruct Hper as [s' _ _ Hok Hact Hk|s' a buf frames _ _ _ _ _ _ _ (k & Hk & Hpick & Hsw)]; rewrite <- E in *.
    + left. exists (arb s1), src. destruct Hact as [Hn|(a & Hact & _)].
      { exfalso. apply Hslot. apply id_slot. by apply (arb_ok_idle P). }
      destruct Hk as [H1 H2]; [by rewrite Hact|]. done.
    + right. exists (arb s1), src, k. split_and!; try done. apply (bt_whitelist _ _ _ Hb).
Qed.
End Runs.
