(* ===== verification/MicProperties.v ===== *)
(** * Properties of the arbitrator, and concrete runs that meet their hypotheses *)

From Stdlib Require Import SpecFloat.
From S2P Require Import Prelude Ids Common F32 AudioBuffer Resample MicTypes MicSource MicArbitrator MicFacts MicPeriod MicRuns.
From stdpp Require Import list.

Open Scope Z_scope.

Section Properties.
Context `{L : Libm} `{R : Rubato} `{!RubatoLaws R}.
Context (alsa_real : bool) (cfg : MicArbitratorConfig).

Definition initial (ring : Inner) (now : Z) : LoopState := mkLoopState (ArbitratorState_new now) ring None None.

(** The states of a running loop. *)
Definition reached (P : nat) (ring : Inner) (now : Z) (s : LoopState) : Prop :=
  ∃ inputs, Forall (inputs_ok P) inputs ∧ turns alsa_real cfg inputs (initial ring now) = Some s.

Lemma initial_ok (P : nat) (ring : Inner) (now : Z) : ring_fits P ring → loop_ok P (initial ring now).
Proof. intros H. split; [by left|done]. Qed.

Lemma reached_ok (P : nat) (ring : Inner) (now : Z) (s : LoopState) :
  room P → ring_fits P ring → reached P ring now s → loop_ok P s.
Proof.
  intros HP Hr (inputs & Hi & E). destruct (turns_ok alsa_real cfg P inputs (initial ring now) HP Hi (initial_ok P ring now Hr)) as (s' & E' & Hok).
  congruence.
Qed.

(** A turn of a reached state, taken apart. *)
Lemma reached_turn (P : nat) (ring : Inner) (now : Z) (s s' : LoopState) (i : LoopInputs) :
  room P → ring_fits P ring → reached P ring now s → inputs_ok P i → iterate alsa_real cfg i s = Some s' →
  loop_ok P s ∧ turn alsa_real cfg P i s s'.
Proof.
  intros HP Hr Hs Hi E. pose proof (reached_ok P ring now s HP Hr Hs) as Hok. split; [done|].
  destruct (iterate_ok alsa_real cfg P i s HP Hi Hok) as (s1 & E1 & _ & Ht). congruence.
Qed.

(** C11: for any settings, catalogue, clock, devices and microphone data within
    what their types and documentation promise, with a valid configuration and a
    ring whose largest push takes a period, no turn of the loop ever panics (so
    the process is never aborted): no index, slice, division, duration,
    resampler or push of it fails, whatever is opened, unplugged, short-read,
    non-finite or reconfigured; a stop ends with every source torn down. *)
Theorem arbitrator_never_panics (P : nat) (ring : Inner) (now : Z) (inputs : list LoopInputs) :
  room P → ring_fits P ring → is_ok (MicArbitratorConfig_validate cfg) = true → Forall (inputs_ok P) inputs →
  ∃ s, run_loop alsa_real cfg ring now inputs = Some s ∧ active (arb s) = None ∧ capacity (out_ring s) = capacity ring.
Proof.
  intros HP Hr Hc Hi. unfold run_loop. destruct (MicArbitratorConfig_validate cfg); [|done].
  assert (Hcap : ∀ inputs s, Forall (inputs_ok P) inputs → loop_ok P s → ∃ s', turns alsa_real cfg inputs s = Some s' ∧ capacity (out_ring s') = capacity (out_ring s)).
  { clear -HP. induction inputs as [|i inputs IH]; intros s Hi Hs; [by exists s|]. inversion Hi as [|? ? Hi1 Hi2]; subst. cbn [turns].
    destruct (iterate_ok alsa_real cfg P i s HP Hi1 Hs) as (s1 & -> & Hs1 & Ht). cbn [mbind option_bind].
    destruct (IH s1 Hi2 Hs1) as (s2 & E2 & Hc2). exists s2. split; [done|]. rewrite Hc2. by apply (turn_capacity alsa_real cfg P i). }
  destruct (Hcap inputs (initial ring now) Hi (initial_ok P ring now Hr)) as (s & E & Hcs).
  unfold initial in E. rewrite E. cbn [mbind option_bind]. eexists. split; [done|]. done.
Qed.

(** ** The microphone *)

Lemma selected_fixed (P : nat) (i : LoopInputs) (st st' : ArbitratorState) (src : ActiveSource) (id : MicId) :
  selected alsa_real P i st st' → policy_mic (policy (li_settings i)) = FixedMic id → active st' = Some src → src_id src = id.
Proof.
  intros [Hn|st1 _ Hi|st1 a k c _ _ _ Hid (d & _ & _ & _ & Hf) Hb _ _] Hpol Ha.
  - pose proof (need_switch_kept i st Hn) as H. unfold active_id in H. rewrite Ha in H. cbn in H.
    destruct H as (d & c & Hd & Hc & <-). destruct (desired_lookup i st d Hd) as (c' & Hc' & Hfix). rewrite Hc in Hc'.
    injection Hc' as <-. by apply Hfix.
  - by rewrite (id_active _ Hi) in Ha.
  - destruct (Hf id Hpol) as [_ <-]. by rewrite <- (booted_active _ _ _ _ Hb Ha).
Qed.

Lemma first_available_from_top (i : LoopInputs) (st : ArbitratorState) d :
  policy_mic (policy (li_settings i)) = FirstAvailable →
  need_switch st (candidates (catalogue (li_settings i))) (desired i st) = true → desired i st = Some d → d = 0%nat.
Proof.
  intros Hp Hn Hd. pose proof Hd as Hd'. unfold desired, resolve_desired_idx in Hd'. rewrite Hp in Hd'.
  destruct (active_id st) as [m|] eqn:Em.
  2:{ destruct (candidates _); congruence. }
  destruct (position _ _) as [j|] eqn:Epos; [|destruct (candidates _); congruence].
  exfalso. injection Hd' as ->. apply position_Some in Epos as (c & Hc & Hb & _). apply bool_decide_eq_true in Hb.
  unfold need_switch in Hn. rewrite Em, Hd, Hc, bool_decide_eq_true_2 in Hn by done. done.
Qed.

(** The first available stays on an open candidate. *)
Lemma first_available_sticky (i : LoopInputs) (st : ArbitratorState) (m : MicId) (c : MicCandidate) :
  policy_mic (policy (li_settings i)) = FirstAvailable → active_id st = Some m → c ∈ candidates (catalogue (li_settings i)) → cand_id c = m →
  need_switch st (candidates (catalogue (li_settings i))) (desired i st) = false.
Proof.
  intros Hp Hm Hc Hid. unfold need_switch, desired, resolve_desired_idx. rewrite Hp, Hm.
  destruct (position _ _) as [j|] eqn:Epos.
  - apply position_Some in Epos as (x & Hx & Hb & _). apply bool_decide_eq_true in Hb. rewrite Hx.
    by rewrite bool_decide_eq_true_2 by done.
  - pose proof (position_None _ _ Epos c Hc) as Hb. cbn in Hb. by apply bool_decide_eq_false in Hb.
Qed.

(** A turn listens to the microphone the policy names.  With a fixed
    microphone, the turn ends on that one or on none, and pushes only what that
    one said.  With the first available, an open candidate of the catalogue is
    kept or dropped, never exchanged within the turn.  A microphone newly opened
    is the first one, in catalogue order from the desired one (from the top, for
    the first available), that opens in this turn. *)
Theorem mic_selection_followed (P : nat) (ring : Inner) (now : Z) (s s' : LoopState) (i : LoopInputs) :
  room P → ring_fits P ring → reached P ring now s → inputs_ok P i → iterate alsa_real cfg i s = Some s' →
  let cs := candidates (catalogue (li_settings i)) in
  let mic := policy_mic (policy (li_settings i)) in
  (∀ id, mic = FixedMic id →
     (active_id (arb s') = None ∨ active_id (arb s') = Some id) ∧ (out_ring s' ≠ out_ring s → active_id (arb s') = Some id)) ∧
  (∀ m c, mic = FirstAvailable → active_id (arb s) = Some m → c ∈ cs → cand_id c = m →
     active_id (arb s') = None ∨ active_id (arb s') = Some m) ∧
  (∀ m, active_id (arb s') = Some m → active_id (arb s) ≠ Some m →
     ∃ d k c, desired i (arb s) = Some d ∧ (mic = FirstAvailable → d = 0%nat) ∧ (d ≤ k)%nat ∧ cs !! k = Some c ∧ cand_id c = m ∧
       is_ok (open_candidate alsa_real i k c) = true ∧
       ∀ j c', (d ≤ j < k)%nat → cs !! j = Some c' → is_ok (open_candidate alsa_real i j c') = false).
Proof.
  intros HP Hr Hs Hi E cs mic.
  destruct (reached_turn P ring now s s' i HP Hr Hs Hi E) as [[Hok _] Ht].
  assert (Hends : ∃ st, selected alsa_real P i (arb s) st ∧
            (active_id (arb s') = None ∨ active_id (arb s') = active_id st) ∧
            (out_ring s' ≠ out_ring s → ∃ src, active st = Some src ∧ active_id (arb s') = Some (src_id src))).
  { destruct Ht as [st Hsel Ha E1 E2 _|st Hsel _ E1 E2 _|st src s1 Hsel Ha _ _ E1 E2 _ Hper].
    - exists st. split; [done|]. split; [right; by rewrite E1|]. by intros H.
    - exists st. split; [done|]. split; [left; by rewrite E1|]. by intros H.
    - exists st. pose proof (period_mic _ P i src s1 s' Hper) as Hm. split; [done|].
      split; [unfold active_id at 3; by rewrite Ha|]. intros Hne. exists src. split; [done|].
      destruct Hper as [s' Eo _ _ _ _|s' a buf fr _ (Eid & _) Hb _ _ _ _ _]; [congruence|].
      unfold active_id. by rewrite (bt_active _ _ _ Hb), Eid. }
  destruct Hends as (st & Hsel & Hend & Hpush). split; [|split].
  - intros id Hmic. assert (Hst : ∀ src, active st = Some src → src_id src = id) by (intros src; by apply (selected_fixed P i (arb s))).
    assert (Hid : active_id st = None ∨ active_id st = Some id).
    { unfold active_id. destruct (active st) as [src|]; [right; by rewrite <- (Hst src)|by left]. }
    split; [destruct Hend as [->| ->]; [by left|done]|].
    intros Hne. destruct (Hpush Hne) as (src & Ha & ->). by rewrite (Hst src Ha).
  - intros m c Hmic Hm Hc Hcid. destruct Hend as [->| ->]; [by left|].
    pose proof (first_available_sticky i (arb s) m c Hmic Hm Hc Hcid) as Hkeep.
    destruct Hsel as [_|st1 Hn _|st1 a k c1 Hn _ _ _ _ _ _ _]; [by right|congruence|congruence].
  - intros m Hm Hnm. destruct Hend as [Hend|Hend]; [congruence|]. rewrite Hm in Hend.
    destruct Hsel as [_|st1 _ Hidle|st1 a k c Hn Hk Ho Hid (d & Hd & Hdk & Hmin & _) Hb _ _].
    + congruence.
    + unfold active_id in Hend. by rewrite (id_active _ Hidle) in Hend.
    + exists d, k, c. split; [done|]. split; [intros Hmic; by eapply first_available_from_top|]. split; [done|]. split; [done|].
      split; [unfold active_id in Hend; rewrite (bt_active _ _ _ Hb) in Hend; cbn in Hend; congruence|].
      split; [by rewrite Ho|]. intros j c' Hj Hc'. destruct (Hmin j c' Hj Hc') as (e & ->). done.
Qed.

(** ** The channel *)

(** Turns of one microphone with one channel. *)
Fixpoint quiet (m : MicId) (b : nat) (mid : list LoopInputs) (s s' : LoopState) : Prop :=
  match mid with
  | [] => s' = s
  | i :: mid => ∃ s1, iterate alsa_real cfg i s = Some s1 ∧ active_id (arb s1) = Some m ∧ active_slot (arb s1) = Some b ∧ quiet m b mid s1 s'
  end.

Lemma selected_same (P : nat) (i : LoopInputs) (st st' : ArbitratorState) (m : MicId) (src : ActiveSource) :
  selected alsa_real P i st st' → active_id st = Some m → active st' = Some src → src_id src = m → st' = st.
Proof.
  intros [Hn|st1 _ Hidle|st1 a k c Hn Hk _ Hid (d & Hd & _ & _ & Hf) Hb _ _] Hm Ha Hsm; [done|by rewrite (id_active _ Hidle) in Ha|].
  exfalso. apply (booted_elsewhere P i st m k c d Hm Hn Hk Hd Hf). rewrite <- Hid, <- Hsm. by rewrite (booted_active _ _ _ _ Hb Ha).
Qed.

(** While the microphone stays, a turn keeps the slot and the time of the last
    switch, or chooses from them. *)
Lemma turn_same_mic (P : nat) (i : LoopInputs) (s s' : LoopState) (m : MicId) :
  loop_ok P s → turn alsa_real cfg P i s s' → active_id (arb s) = Some m → active_id (arb s') = Some m → active_slot (arb s') ≠ None →
  (active_slot (arb s') = active_slot (arb s) ∧ last_switch_at (arb s') = last_switch_at (arb s)) ∨
  (∃ k, active_slot (arb s') = Some k ∧
     pick_slot (policy_channel (policy (li_settings i))) (per_slot (arb s')) (cached_whitelist (arb s)) (active_slot (arb s))
       (last_switch_at (arb s)) (li_pick_now i) (hysteresis_linear cfg) (dwell cfg) = Some (Some k) ∧
     last_switch_at (arb s') = (if bool_decide (Some k = active_slot (arb s)) then last_switch_at (arb s) else Some (li_pick_now i))).
Proof.
  intros Hs Ht Hm Hm' Hslot.
  assert (Hsrc : ∀ st src, selected alsa_real P i (arb s) st → active st = Some src → st = arb s ∨ src_id src ≠ m).
  { intros st src Hsel Ha. destruct (decide (src_id src = m)) as [He|]; [left; by eapply selected_same|by right]. }
  destruct Ht as [st Hsel Ha E1 _ _|st Hsel _ E1 _ _|st src s1 Hsel Ha Hb _ E1 E2 E3 Hper].
  - exfalso. unfold active_id in Hm'. by rewrite E1, Ha in Hm'.
  - exfalso. unfold active_id in Hm'. by rewrite E1 in Hm'.
  - destruct (Hsrc st src Hsel Ha) as [->|Hne].
    + destruct Hper as [s' _ _ _ _ Hk|s' a buf fr _ _ _ _ _ _ _ (k & Hk & Hpick & Hsw)]; rewrite E1 in *.
      * left. apply Hk. unfold active_id in Hm'. by destruct (active (arb s')).
      * right. exists k. rewrite (bt_whitelist _ _ _ Hb). done.
    + exfalso. destruct (period_mic cfg P i src s1 s' Hper) as [H|H]; congruence.
Qed.

(** A turn that leaves another slot than it found notes when. *)
Lemma turn_notes_switch (P : nat) (i : LoopInputs) (s s' : LoopState) (b : nat) :
  loop_ok P s → turn alsa_real cfg P i s s' → active_slot (arb s') = Some b → active_slot (arb s) ≠ Some b →
  last_switch_at (arb s') = Some (li_pick_now i).
Proof.
  intros Hs Ht Hb Hne.
  assert (Hst : ∀ st, selected alsa_real P i (arb s) st → active_slot st ≠ Some b).
  { intros st [|st1 _ Hidle|st1 a k c _ _ _ _ _ _ Hsl _]; [done|by rewrite (id_slot _ Hidle)|by rewrite Hsl]. }
  destruct (turn_slot alsa_real cfg P i s s' Hs Ht) as [(st & src & Hsel & _ & Hk & _)|(st & src & k & Hsel & _ & _ & Hk & _ & Hsw)];
    [by rewrite Hb|exfalso; apply (Hst st Hsel); congruence|].
  rewrite Hk in Hb. injection Hb as ->. rewrite Hsw, bool_decide_eq_false_2; [done|]. intros Hx. by apply (Hst st Hsel).
Qed.

Lemma quiet_keeps (P : nat) (m : MicId) (b : nat) (mid : list LoopInputs) (s s' : LoopState) :
  room P → Forall (inputs_ok P) mid → loop_ok P s → active_id (arb s) = Some m → active_slot (arb s) = Some b → quiet m b mid s s' →
  loop_ok P s' ∧ active_id (arb s') = Some m ∧ active_slot (arb s') = Some b ∧ last_switch_at (arb s') = last_switch_at (arb s).
Proof.
  intros HP Hi. revert s. induction Hi as [|i mid Hi1 Hi IH]; intros s Hs Hm Hb Hq; cbn in Hq; [by subst|].
  destruct Hq as (s1 & E & Hm1 & Hb1 & Hq). destruct (iterate_ok alsa_real cfg P i s HP Hi1 Hs) as (s1' & E' & Hs1 & Ht).
  rewrite E in E'. injection E' as <-. destruct (IH s1 Hs1 Hm1 Hb1 Hq) as (H1 & H2 & H3 & H4). split_and!; try done. rewrite H4.
  destruct (turn_same_mic P i s s1 m Hs Ht Hm Hm1) as [[_ H]|(k & Hk & _ & Hsw)]; [by rewrite Hb1|done|].
  rewrite Hsw, bool_decide_eq_true_2; [done|congruence].
Qed.

(** While one microphone stays open and no fixed channel decides, two
    consecutive channel switches are at least the dwell apart, however many
    periods, timeouts, recoveries and policy changes lie between them, and the
    channel switched to beats the one left by the hysteresis ratio in the
    loudness of that very period. *)
Theorem channel_switches_spaced (P : nat) (ring : Inner) (now : Z) (s0 s1 s2 s3 : LoopState) (i1 i2 : LoopInputs)
    (mid : list LoopInputs) (m : MicId) (b c : nat) :
  room P → ring_fits P ring → reached P ring now s0 → inputs_ok P i1 → Forall (inputs_ok P) mid → inputs_ok P i2 →
  iterate alsa_real cfg i1 s0 = Some s1 → active_slot (arb s0) ≠ Some b → active_slot (arb s1) = Some b → active_id (arb s1) = Some m →
  quiet m b mid s1 s2 →
  iterate alsa_real cfg i2 s2 = Some s3 → active_id (arb s3) = Some m → active_slot (arb s3) = Some c → c ≠ b →
  truly_fixed (policy_channel (policy (li_settings i2))) (cached_whitelist (arb s2)) = false →
  dwell cfg ≤ saturating_duration_since (li_pick_now i2) (li_pick_now i1) ∧
  ∃ sb sc, per_slot (arb s3) !! b = Some sb ∧ per_slot (arb s3) !! c = Some sc ∧
    float_gt (rms sc) (f32_mul (rms sb) (hysteresis_linear cfg)) = true.
Proof.
  intros HP Hr Hs0 Hi1 Hmid Hi2 E1 Hne Hb1 Hm1 Hq E2 Hm3 Hc3 Hcb Hfree.
  destruct (reached_turn P ring now s0 s1 i1 HP Hr Hs0 Hi1 E1) as [Hok0 Ht1].
  destruct (iterate_ok alsa_real cfg P i1 s0 HP Hi1 Hok0) as (s1' & E1' & Hok1 & _). rewrite E1 in E1'. injection E1' as <-.
  pose proof (turn_notes_switch P i1 s0 s1 b Hok0 Ht1 Hb1 Hne) as Hl1.
  destruct (quiet_keeps P m b mid s1 s2 HP Hmid Hok1 Hm1 Hb1 Hq) as (Hok2 & Hm2 & Hb2 & Hl2). rewrite Hl1 in Hl2.
  destruct (iterate_ok alsa_real cfg P i2 s2 HP Hi2 Hok2) as (s3' & E2' & _ & Ht2). rewrite E2 in E2'. injection E2' as <-.
  destruct (turn_same_mic P i2 s2 s3 m Hok2 Ht2 Hm2 Hm3) as [[Hsame _]|(k & Hk & Hpick & _)]; [by rewrite Hc3|congruence|].
  rewrite Hk in Hc3. injection Hc3 as ->. rewrite Hb2, Hl2 in Hpick.
  destruct (pick_slot_leaves _ _ _ _ _ _ _ _ _ Hfree Hpick Hcb) as [Hdw Hloud]. split; [by apply Hdw|done].
Qed.

(** ** The samples *)

Lemma channel_samples_finite (interleaved : list f32) (n ch frames : nat) :
  Forall (λ x, is_finite x = true) (channel_samples interleaved n ch frames).
Proof.
  apply Forall_forall. intros x Hx. unfold channel_samples in Hx. apply list_elem_of_fmap in Hx as (f & -> & _).
  generalize (nth (f * n + ch) interleaved f32_zero). intros y. unfold clamp_finite. destruct (is_finite y) eqn:E; [exact E|done].
Qed.

(** A turn pushes one channel of one period of the open microphone, or
    nothing.  What it pushes comes from the frames of a read of this turn: the
    samples of the active slot's channel (of the fixed channel, when the
    microphone has it), with every non-finite sample silenced.  At the ring's
    rate they go out unchanged, in one push, which any reader of the ring sees as
    the writer's atomic steps; at another rate what goes out is what the slot's
    own resampler makes of them, cut into pushes the ring takes. *)
Theorem turn_pushes_active_channel (P : nat) (ring : Inner) (now : Z) (s s' : LoopState) (i : LoopInputs) :
  room P → ring_fits P ring → reached P ring now s → inputs_ok P i → iterate alsa_real cfg i s = Some s' →
  out_ring s' = out_ring s ∨
  ∃ src0 buf0 src buf frames k ch,
    read_interleaved (li_read i) src0 buf0 = Some (Ok (Frames frames), src, buf) ∧ active (arb s') = Some src ∧
    (0 < frames ≤ src_period_size src)%nat ∧ active_slot (arb s') = Some k ∧ src_whitelist src !! k = Some ch ∧
    (∀ c, policy_channel (policy (li_settings i)) = FixedChannel c → c ∈ src_whitelist src → ch = c) ∧
    let samples := channel_samples buf (Z.to_nat (src_channels src)) (Z.to_nat ch) frames in
    Forall (λ x, is_finite x = true) samples ∧ List.length samples = frames ∧
    if src_rate src =? SampleRate_VALUE then
      Writer_push (out_ring s) (map f32_to_bits samples) = Some (out_ring s') ∧
      (writer_taken (out_ring s) = true → ∀ stale readers,
         run stale (mkSystem (out_ring s) WIdle readers) [Pushed (map f32_to_bits samples)] (mkSystem (out_ring s') WIdle readers)) ∧
      (timing_anchor cfg = true →
         anchor_cell s' = Some (mkBufferTimingAnchor (newest_head (out_ring s')) (li_capture_now i O) SampleRate_VALUE))
    else
      ∃ r r1 pieces, process_expect r samples = Some r1 ∧ List.concat pieces = out r1 ∧
        Forall (λ c, Z.of_nat (List.length c) ≤ max_push_len (out_ring s)) pieces ∧
        push_chunks cfg (li_capture_now i) 0 pieces (out_ring s, anchor_cell s) = Some (out_ring s', anchor_cell s').
Proof.
  intros HP Hr Hs Hi E. destruct (reached_turn P ring now s s' i HP Hr Hs Hi E) as [[_ Hfits] Ht].
  destruct Ht as [st _ _ _ E2 _|st _ _ _ E2 _|st src0 s1 _ _ _ _ _ E2 E3 Hper]; [by left|by left|].
  destruct Hper as [s' Eo _ _ _ _|s' src buf frames Hread Hsame Hb Hfr _ _ Hpush (k & Hk & Hpick & _)]; [left; congruence|right].
  destruct Hsame as (_ & Eper & _ & _ & Ewl).
  destruct Hpush as (k' & ch & Hk' & Hch & Hpush). rewrite Hk in Hk'. injection Hk' as <-.
  exists src0, (interleaved_scratch (arb s1)), src, buf, frames, k, ch. rewrite <- Eper.
  split; [done|]. split; [apply (bt_active _ _ _ Hb)|]. split; [done|]. split; [done|]. split; [done|].
  split.
  { intros c Hpol Hc. rewrite Hpol in Hpick. rewrite <- Ewl in Hc. pose proof (pick_slot_fixed _ _ _ _ _ _ _ _ _ Hc Hpick). congruence. }
  cbn [interleaved_scratch with_source] in Hpush.
  set (samples := channel_samples buf (Z.to_nat (src_channels src)) (Z.to_nat ch) frames) in *. cbv zeta.
  split; [apply channel_samples_finite|]. split; [apply length_channel_samples|]. rewrite E2, E3 in Hpush.
  destruct (src_rate src =? SampleRate_VALUE).
  - unfold push_and_publish in Hpush. cbn [fst snd] in Hpush.
    destruct (Writer_push (out_ring s) (map f32_to_bits samples)) as [b|] eqn:Ew; [|done]. cbn [mbind option_bind] in Hpush.
    injection Hpush as <- <-. split; [done|]. split; [intros Htk stale rs; by apply Writer_push_run|]. by intros ->.
  - destruct Hpush as (_ & r & r1 & _ & Hpr & Hpush). cbn [fst] in Hpush.
    exists r, r1, (chunks_of (List.length (out r1)) (Z.to_nat (max_push_len (out_ring s))) (out r1)).
    destruct Hfits as [_ Hpos].
    destruct (chunks_of_spec (List.length (out r1)) (Z.to_nat (max_push_len (out_ring s))) (out r1)) as [Hc Hf]; [lia|done|].
    split; [done|]. split; [done|]. split; [|done]. eapply list.Forall_impl; [exact Hf|]. cbn. lia.
Qed.
End Properties.

(** * The arbitrator on concrete inputs

    A two-channel ALSA microphone that reads one frame per period, on the ring
    of 32768 samples and on a platform and resampler to run examples on: the
    witnesses of the properties, and three runs that show what the comments of
    the source do not say. *)

Open Scope Z_scope.

Section Examples.
#[local] Existing Instance halving.

Definition stereo_device (period : Z) : AlsaDevice := {|
  pcm_new := Ok tt; hwparams_any := Ok tt; set_access := Ok tt; set_format_float := Ok tt; set_format_s16 := Ok tt;
  set_channels := λ _, Ok tt; get_channels_max := Ok 2; set_rate := Ok tt; set_period_size_near := λ _, Ok tt;
  set_buffer_size_near := λ _, Ok tt; hw_params := Ok tt; get_rate := Ok 44100; get_period_size := Ok period;
  pcm_prepare := Ok tt; pcm_start := Ok tt; pollfds_get := Ok tt |}.

Definition alsa_candidate (name : string) : MicCandidate := mkMicCandidate (mkMicId name) (SrcAlsa "hw:1,0" 1024 4096) [0; 1].

Definition polls_from (now : Z) (j : nat) : bool * Z := (false, now + (Z.of_nat j + 1) * STOP_POLL_SLICE).

(** A read that waits in vain, and a read of one frame. *)
Definition silent : AlsaAnswers := mkAlsaAnswers (λ _, Ok O) (Ok tt) (λ _ _, Err 32) (λ _ _, Err 32).
Definition one_frame (left right : f32) : AlsaAnswers :=
  mkAlsaAnswers (λ _, Ok 1%nat) (Ok tt)
    (λ ch room, if (ch =? 2)%nat && (2 <=? room)%nat then Ok (1%nat, [left; right]) else Err 32) (λ _ _, Err 32).

Definition settings (names : list string) (mic : MicSelection) : MicSettings :=
  mkMicSettings (mkMicCatalogue (map alsa_candidate names)) (mkMicPolicy mic Auto).

(** A turn at a time of the clock. *)
Definition turn_at (st : MicSettings) (period : Z) (now : Z) (ans : AlsaAnswers) : LoopInputs :=
  mkLoopInputs st (λ _, now) (λ _, stereo_device period) (λ _, now) now now now
    (mkReadInputs now (polls_from now) ans) true now now (λ _, now).

Definition P0 : nat := Z.to_nat 8192.
Definition ring_of (cap : Z) : Inner :=
  mkInner (replicate (Z.to_nat cap) [0]) cap true [(0, replicate (Z.to_nat cap) O)].
Definition ring32k : Inner := ring_of 32768.

Lemma ring32k_fits : ring_fits P0 ring32k.
Proof. split; vm_compute; congruence. Qed.

Lemma room_P0 : room P0.
Proof. split; vm_compute; congruence. Qed.

Lemma one_frame_reads (l r : f32) (ch rm n : nat) (data : list f32) :
  alsa_readi_f32 (one_frame l r) ch rm = Ok (n, data) → (n * ch ≤ rm)%nat ∧ List.length data = (n * ch)%nat.
Proof.
  unfold one_frame, alsa_readi_f32. destruct (Nat.eqb_spec ch 2) as [->|]; [|done].
  destruct (Nat.leb_spec 2 rm); [|done]. intros [= <- <-]. split; [lia|done].
Qed.

Lemma turn_at_ok (names : list string) (mic : MicSelection) (now : Z) (ans : AlsaAnswers) :
  ans = silent ∨ (∃ l r, ans = one_frame l r) → inputs_ok P0 (turn_at (settings names mic) 1 now ans).
Proof.
  intros Hans. split; cbn.
  - apply Forall_fmap, Forall_forall. intros n _. unfold candidate_typed, alsa_candidate. cbn. split; [|vm_compute; split; split; congruence].
    repeat constructor; vm_compute; congruence.
  - intros _. split; cbn; [intros r [= <-]; vm_compute; split; congruence|intros m [= <-]; vm_compute; congruence|].
    intros p [= <-]. vm_compute. congruence.
  - split; cbn.
    + intros [|j]; cbn; unfold STOP_POLL_SLICE, from_millis; lia.
    + intros ch rm n data. destruct Hans as [->|(l & r & ->)]; [done|]. apply one_frame_reads.
    + intros ch rm n data. by destruct Hans as [->|(l & r & ->)].
Qed.

Definition half : f32 := f32_div f32_one (f32_of_int 2).

(** The dwell of the default configuration, and an anchor. *)
Definition cfg0 : MicArbitratorConfig := mkMicArbitratorConfig (f32_of_int 3) (from_millis 250) (from_millis 100) (from_secs 2) (from_secs 1) true.

Definition two_mics : MicSettings := settings ["front"; "usb"]%string FirstAvailable.
Definition e0 : LoopState := initial ring32k 0.
Definition step_to (i : LoopInputs) (s : LoopState) : LoopState := default e0 (iterate true cfg0 i s).

(** Left is heard, then right a second later, then left again two seconds
    after that. *)
Definition t1 : LoopInputs := turn_at two_mics 1 (from_secs 1) (one_frame half f32_zero).
Definition t2 : LoopInputs := turn_at two_mics 1 (from_secs 2) (one_frame f32_zero f32_one).
Definition t3 : LoopInputs := turn_at two_mics 1 (from_secs 3) silent.
Definition t4 : LoopInputs := turn_at two_mics 1 (from_secs 4) (one_frame f32_one f32_zero).
Definition e1 : LoopState := step_to t1 e0.
Definition e2 : LoopState := step_to t2 e1.
Definition e3 : LoopState := step_to t3 e2.
Definition e4 : LoopState := step_to t4 e3.

Example heard_slots : map (λ s, active_slot (arb s)) [e0; e1; e2; e3; e4] = [None; Some 0%nat; Some 1%nat; Some 1%nat; Some 0%nat].
Proof. vm_compute. reflexivity. Qed.

Lemma ts_in (k : nat) (t : LoopInputs) : [t1; t2; t3; t4] !! k = Some t → t ∈ [t1; t2; t3; t4].
Proof. apply list_elem_of_lookup_2. Qed.

Lemma t_ok (t : LoopInputs) : t ∈ [t1; t2; t3; t4] → inputs_ok P0 t.
Proof.
  rewrite !elem_of_cons, elem_of_nil. intros [->|[->|[->|[->|[]]]]]; apply turn_at_ok; [right|right|by left|right]; by eexists _, _.
Qed.

Lemma arbitrator_never_panics_witness :
  ∃ s, run_loop true cfg0 ring32k 0 [t1; t2; t3; t4] = Some s ∧ active (arb s) = None.
Proof.
  destruct (arbitrator_never_panics true cfg0 P0 ring32k 0 [t1; t2; t3; t4] room_P0 ring32k_fits eq_refl) as (s & E & Ha & _).
  - apply Forall_forall. exact t_ok.
  - exists s. split; [exact E|exact Ha].
Defined.

Lemma step_to_ok (i : LoopInputs) (s : LoopState) :
  i ∈ [t1; t2; t3; t4] → loop_ok P0 s → iterate true cfg0 i s = Some (step_to i s) ∧ loop_ok P0 (step_to i s).
Proof.
  intros Hi Hs. destruct (iterate_ok true cfg0 P0 i s room_P0 (t_ok i Hi) Hs) as (s' & E & Hs' & _).
  unfold step_to. by rewrite E.
Qed.

Lemma e_steps : iterate true cfg0 t1 e0 = Some e1 ∧ iterate true cfg0 t2 e1 = Some e2 ∧ iterate true cfg0 t3 e2 = Some e3 ∧
  iterate true cfg0 t4 e3 = Some e4.
Proof.
  destruct (step_to_ok t1 e0 (ts_in 0 t1 eq_refl) (initial_ok P0 ring32k 0 ring32k_fits)) as [H1 O1].
  destruct (step_to_ok t2 e1 (ts_in 1 t2 eq_refl) O1) as [H2 O2]. destruct (step_to_ok t3 e2 (ts_in 2 t3 eq_refl) O2) as [H3 O3].
  destruct (step_to_ok t4 e3 (ts_in 3 t4 eq_refl) O3) as [H4 _].
  exact (conj H1 (conj H2 (conj H3 H4))).
Qed.

Lemma e1_reached : reached true cfg0 P0 ring32k 0 e1.
Proof.
  exists [t1]. split; [constructor; [exact (t_ok t1 (ts_in 0 t1 eq_refl))|constructor]|]. cbn [turns]. fold e0.
  rewrite (proj1 e_steps). reflexivity.
Qed.

Lemma e0_reached : reached true cfg0 P0 ring32k 0 e0.
Proof. exists []. split; [constructor|done]. Qed.

Lemma mic_selection_followed_witness :
  ∃ k c, candidates (catalogue two_mics) !! k = Some c ∧ cand_id c = mkMicId "front" ∧ is_ok (open_candidate true t1 k c) = true.
Proof.
  destruct (mic_selection_followed true cfg0 P0 ring32k 0 e0 e1 t1 room_P0 ring32k_fits e0_reached) as (_ & _ & H).
  - exact (t_ok t1 (ts_in 0 t1 eq_refl)).
  - apply e_steps.
  - destruct (H (mkMicId "front")) as (d & k & c & _ & _ & _ & Hk & Hc & Ho & _); [vm_compute; reflexivity|vm_compute; congruence|].
    exists k, c. split; [exact Hk|]. split; [exact Hc|exact Ho].
Defined.

Lemma channel_switches_spaced_witness :
  dwell cfg0 ≤ saturating_duration_since (from_secs 4) (from_secs 2) ∧ active_slot (arb e2) = Some 1%nat ∧ active_slot (arb e4) = Some 0%nat.
Proof.
  split; [|split; vm_compute; reflexivity].
  destruct (channel_switches_spaced true cfg0 P0 ring32k 0 e1 e2 e3 e4 t2 t4 [t3] (mkMicId "front") 1 0) as [H _].
  - exact room_P0.
  - exact ring32k_fits.
  - exact e1_reached.
  - exact (t_ok t2 (ts_in 1 t2 eq_refl)).
  - constructor; [exact (t_ok t3 (ts_in 2 t3 eq_refl))|constructor].
  - exact (t_ok t4 (ts_in 3 t4 eq_refl)).
  - apply e_steps.
  - vm_compute. congruence.
  - vm_compute. reflexivity.
  - vm_compute. reflexivity.
  - exists e3. split; [apply e_steps|]. split; [vm_compute; reflexivity|]. split; [vm_compute; reflexivity|reflexivity].
  - apply e_steps.
  - vm_compute. reflexivity.
  - vm_compute. reflexivity.
  - congruence.
  - vm_compute. reflexivity.
  - exact H.
Defined.

Lemma turn_pushes_active_channel_witness :
  ∃ samples, Writer_push (out_ring e1) samples = Some (out_ring e2) ∧ List.length samples = 1%nat.
Proof.
  destruct (turn_pushes_active_channel true cfg0 P0 ring32k 0 e1 e2 t2 room_P0 ring32k_fits e1_reached) as [H|H].
  - exact (t_ok t2 (ts_in 1 t2 eq_refl)).
  - apply e_steps.
  - assert (newest_head (out_ring e2) = newest_head (out_ring e1)) as Hh by (rewrite H; reflexivity). vm_compute in Hh. discriminate Hh.
  - destruct H as (a & b & src & buf & frames & k & ch & _ & Ha & Hf & _ & _ & _ & _ & Hl & Hp).
    assert (Hs : option_map src_rate (active (arb e2)) = Some SampleRate_VALUE ∧ option_map src_period_size (active (arb e2)) = Some 1%nat)
      by (split; vm_compute; reflexivity).
    rewrite Ha in Hs. cbn in Hs. destruct Hs as [[= Hr] [= Hper]]. rewrite Hr, Z.eqb_refl in Hp.
    eexists. split; [exact (proj1 Hp)|]. rewrite length_map, Hl. lia.
Defined.

(** ** What the runs show *)

(** The first microphone opens but says nothing: every failover opens it again,
    and the second is never tried, although the comment on the timer has the
    next turn "open another candidate". *)
Definition quiet_turn (secs : Z) : LoopInputs := turn_at two_mics 1 (from_secs secs) silent.

Fixpoint mics_of (inputs : list LoopInputs) (s : LoopState) : list (option MicId) :=
  match inputs with
  | [] => []
  | i :: inputs => let s := step_to i s in active_id (arb s) :: mics_of inputs s
  end.

Example silent_first_mic_never_left :
  mics_of (map quiet_turn [1; 4; 5; 8; 9; 12; 13]) e0 =
  [Some (mkMicId "front"); None; Some (mkMicId "front"); None; Some (mkMicId "front"); None; Some (mkMicId "front")].
Proof. vm_compute. reflexivity. Qed.

(** One finite sample whose square overflows makes a slot infinitely loud, and
    no silence brings it back: every later update of the EMA is infinite, and no
    finite channel is ever chosen over it. *)
Definition loud : f32 := f32_of_int (2 ^ 70).
Definition poisoned : SlotState := ema_update half 1 (sum_squares [clamp_finite loud]) SlotState_default.

Example loud_sample_poisons_slot :
  is_finite loud = true ∧ rms poisoned = S754_infinity false ∧ ema_update half 1 (sum_squares [f32_zero]) poisoned = poisoned ∧
  pick_slot Auto [poisoned; mkSlotState f32_one] [0; 1] (Some O) (Some 0) (from_secs 60) (f32_of_int 10) (from_millis 250) = Some (Some O).
Proof. vm_compute. done. Qed.

(** The cap on a period bounds what is asked of the device, not what it answers:
    a candidate that validates opens with a longer period, and at the ring's own
    rate a period longer than the largest push panics. *)
Example negotiated_period_unchecked :
  is_ok (MicCandidate_validate (alsa_candidate "usb")) = true ∧
  match AlsaSource_open (stereo_device 100000) (alsa_candidate "usb") with
  | Ok s => MAX_PERIOD_FRAMES <? Z.of_nat (as_period_size s)
  | Err _ => false
  end = true.
Proof. vm_compute. done. Qed.

Definition five_frames : AlsaAnswers :=
  mkAlsaAnswers (λ _, Ok 1%nat) (Ok tt) (λ _ _, Ok (5%nat, replicate 10 f32_one)) (λ _ _, Err 32).

Example long_period_panics :
  max_push_len (ring_of 16) = 4 ∧
  iterate true cfg0 (turn_at two_mics 5 (from_secs 1) five_frames) (initial (ring_of 16) 0) = None.
Proof. split; [reflexivity|]. vm_compute. reflexivity. Qed.
End Examples.
