(* ===== verification/Config.v ===== *)
(** * The user-preference configuration ([src/modules/config.rs], [config/error.rs])

    The hot-reloadable, API-mutable [Config] with its validator (the inference
    cadence is that of [inference/engine.rs]), and its TOML text.  The [toml]
    crate is a parameter. *)

From stdpp Require Import pretty.
From S2P Require Import Prelude Ids Common F32 MicTypes FileSystem ApiErrors.
From Stdlib Require Import SpecFloat.

Open Scope Z_scope.

(** ** Inference cadence *)

Record InferenceCfg := mkInferenceCfg { hop_samples : Z; top_k : Z }.

#[export] Instance InferenceCfg_eq_dec : EqDecision InferenceCfg.
Proof. solve_decision. Defined.

Definition SAMPLE_RATE_HZ : Z := 44100.

(** [0.75]. *)
Definition MAX_OVERLAP_RATIO : f32 := S754_finite false 12582912 (-24).

(** [x as usize]: truncation towards zero, saturating. *)
Definition as_usize (x : f32) : Z :=
  match x with
  | S754_finite false m e => Z.min (if 0 <=? e then Z.pos m * 2 ^ e else Z.pos m / 2 ^ (- e)) u64_max
  | S754_infinity false => u64_max
  | _ => 0
  end.

Definition MIN_HOP_SAMPLES : Z := as_usize (f32_mul (f32_of_int SAMPLE_RATE_HZ) (f32_sub f32_one MAX_OVERLAP_RATIO)).
Definition MAX_HOP_SAMPLES : Z := SAMPLE_RATE_HZ.
Definition MAX_TOP_K : Z := 64.

Example min_hop_is : MIN_HOP_SAMPLES = 11025.
Proof. vm_compute. reflexivity. Qed.

Definition default_inference : InferenceCfg := mkInferenceCfg MIN_HOP_SAMPLES 3.

Definition InferenceCfg_validate (c : InferenceCfg) : result string unit :=
  if (hop_samples c <? MIN_HOP_SAMPLES) || (MAX_HOP_SAMPLES <? hop_samples c)
  then Err ("hop_samples must be " ++ pretty MIN_HOP_SAMPLES ++ "..=" ++ pretty MAX_HOP_SAMPLES ++
            "; got " ++ pretty (hop_samples c))%string
  else if (top_k c =? 0) || (MAX_TOP_K <? top_k c)
  then Err ("top_k must be 1..=" ++ pretty MAX_TOP_K ++ "; got " ++ pretty (top_k c))%string
  else Ok tt.

(** ** The configuration *)

#[export] Instance MicSelection_eq_dec : EqDecision MicSelection.
Proof. solve_decision. Defined.
#[export] Instance ChannelSelection_eq_dec : EqDecision ChannelSelection.
Proof. solve_decision. Defined.
#[export] Instance MicPolicy_eq_dec : EqDecision MicPolicy.
Proof. solve_decision. Defined.

Record Config := mkConfig { cfg_mic : MicPolicy; cfg_inference : InferenceCfg }.

#[export] Instance Config_eq_dec : EqDecision Config.
Proof. solve_decision. Defined.

(** [c.mic = policy], [c.inference = next]. *)
Definition set_mic (policy : MicPolicy) (c : Config) : Config := mkConfig policy (cfg_inference c).
Definition set_inference (next : InferenceCfg) (c : Config) : Config := mkConfig (cfg_mic c) next.

Inductive ConfigValidationError : Type :=
  | Inference (msg : string)
  | Callback (msg : string).

(** The [Display] of the derive. *)
Definition ConfigValidationError_display (e : ConfigValidationError) : string :=
  match e with
  | Inference msg => ("inference: " ++ msg)%string
  | Callback msg => ("rejected by reload callback: " ++ msg)%string
  end.

Definition Config_validate (c : Config) : result ConfigValidationError unit :=
  map_err Inference (InferenceCfg_validate (cfg_inference c)).

Definition Config_default_for : Config := mkConfig default_policy default_inference.

(** ** Policy against the catalogue ([config/launch.rs]) *)

(** [{available:?}] of a [Vec<u16>]. *)
Definition debug_list (l : list Z) : string := ("[" ++ String.concat ", " (map pretty l) ++ "]")%string.

Definition PolicyValidationError_display (e : PolicyValidationError) : string :=
  match e with
  | UnknownMicId id => ("policy.mic.id = '" ++ mic_id_str id ++ "' does not match any catalogue candidate")%string
  | ChannelNotAvailable mic channel available =>
      ("policy.channel = " ++ pretty channel ++ " is not in catalogue candidate '" ++ mic_id_str mic ++
       "'s available channels " ++ debug_list available)%string
  end.

Definition validate_policy_against_catalogue (p : MicPolicy) (cat : MicCatalogue) (path_for_diag : string)
    : result ConfigError unit :=
  map_err (λ e, CFG_Invalid path_for_diag ("mic policy: " ++ PolicyValidationError_display e)%string)
    (MicPolicy_validate_against p cat).

(** ** TOML *)

(** [toml::to_string_pretty] and [toml::from_str] at one type; the errors are
    rendered only into logs. *)
Class Toml (A : Type) := {
  to_string_pretty : A → option (list ascii);
  from_str : list ascii → option A;
}.

(** What is written is text, and parses back to the value. *)
Class TomlLaws (A : Type) `{!Toml A} := {
  toml_text : ∀ (a : A) t, to_string_pretty a = Some t → utf8_valid t;
  toml_back : ∀ (a : A) t, to_string_pretty a = Some t → from_str t = Some a;
}.

(** ** Facts *)

Lemma InferenceCfg_validate_exact (c : InferenceCfg) :
  InferenceCfg_validate c = Ok tt ↔
  MIN_HOP_SAMPLES ≤ hop_samples c ≤ MAX_HOP_SAMPLES ∧ top_k c ≠ 0 ∧ top_k c ≤ MAX_TOP_K.
Proof.
  unfold InferenceCfg_validate.
  destruct (Z.ltb_spec (hop_samples c) MIN_HOP_SAMPLES), (Z.ltb_spec MAX_HOP_SAMPLES (hop_samples c)),
    (Z.eqb_spec (top_k c) 0), (Z.ltb_spec MAX_TOP_K (top_k c)); cbn [orb]; split;
    intros; try done; try lia.
Qed.

Lemma Config_validate_Ok (c : Config) : Config_validate c = Ok tt ↔ InferenceCfg_validate (cfg_inference c) = Ok tt.
Proof. unfold Config_validate, map_err. by destruct (InferenceCfg_validate _) as [[]|]. Qed.

Lemma Config_default_valid : Config_validate Config_default_for = Ok tt.
Proof. vm_compute. reflexivity. Qed.

(** The policy is the only part the microphone side looks at. *)
Lemma Config_validate_mic (p : MicPolicy) (c : Config) : Config_validate (set_mic p c) = Config_validate c.
Proof. done. Qed.

Lemma validate_policy_Ok (p : MicPolicy) (cat : MicCatalogue) d :
  validate_policy_against_catalogue p cat d = Ok tt ↔ MicPolicy_validate_against p cat = Ok tt.
Proof. unfold validate_policy_against_catalogue, map_err. by destruct (MicPolicy_validate_against p cat) as [[]|]. Qed.

Lemma default_policy_Ok (cat : MicCatalogue) : MicPolicy_validate_against default_policy cat = Ok tt.
Proof. done. Qed.

#[export] Hint Resolve Config_default_valid default_policy_Ok : acoustics.
