(* ===== verification/InferenceEngine.v ===== *)
(** * The inference engine

    [inference/engine.rs]: the loop that reads the sample ring, computes the
    spectrogram, runs the backbone and the served head, and publishes frames.

    One turn of the loop is a function of the engine's state and of what its
    calls observed ([TurnInputs]): the heads of the ring at each load, the cells
    read, the configuration and head snapshots, the clocks, and the backbone's
    answer.  The ring's own arithmetic is that of the audio buffer's file; the
    backbone is third-party behind a trait and answers what it likes. *)

From Stdlib Require Import SpecFloat.
From S2P Require Import Prelude Ids Common Workspace VersionedSwap HotHead Framing AudioBuffer F32 InferenceKernel Preproc Config.

Local Open Scope Z_scope.

(** ** Constants *)

Definition WAVEFORM_DURATION_NS : Z := Z.of_nat WaveformLen * 1000000000 / SAMPLE_RATE_HZ.
Definition BACKBONE_FAILURE_BUDGET_SECS : Z := 5.
Definition BACKBONE_FAILURE_BACKOFF_MS : Z := 100.
Definition BACKBONE_FAILURE_BACKOFF : Z := from_millis BACKBONE_FAILURE_BACKOFF_MS.
Definition MAX_CONSECUTIVE_BACKBONE_FAILURES : Z := BACKBONE_FAILURE_BUDGET_SECS * 1000 / BACKBONE_FAILURE_BACKOFF_MS.

Inductive EngineError : Type :=
  | EngineBackbone (e : string)
  | EngineEncode.

Record EngineCounters : Type := mkEngineCounters {
  last_seq : Z;
  frames_emitted : Z;
  frames_dropped_nan : Z;
  frames_dropped_lag : Z;
}.
Definition default_counters : EngineCounters := mkEngineCounters 0 0 0 0.

Inductive EngineState : Type := Starting | Running | Waiting | EngineLagged | Stopped | Failed.

(** A heartbeat without its instant. *)
Record Heartbeat : Type := mkHeartbeat { hb_state : EngineState; hb_counters : EngineCounters }.

(** [u32::saturating_add]. *)
Definition sat_add_u32 (a b : Z) : Z := Z.min (a + b) u32_max.

(** Where one turn's calls panic. *)
Inductive panic : Type :=
  | PeekAssert
  | AdvanceAssert
  | SpectrogramPanic
  | HeadShape
  | SoftmaxShape
  | LabelIndex.

(** ** The state and the inputs of a turn *)

Record Engine : Type := mkEngine {
  e_tail : Z;                      (** the reader's position *)
  e_counters : EngineCounters;
  e_failures : Z;                  (** [consecutive_failures] *)
  e_features : list f32;           (** the scratch the backbone fills *)
  e_out : list (list Z);           (** payloads sent, oldest first *)
  e_hbs : list Heartbeat;          (** heartbeats sent, oldest first *)
}.

Section Engine.
Context `{U : UuidLib} `{L : Libm} `{F : RealFft} `{US : UnstableSort} `{P : Prost}.
Variable ring : Inner.
Variable window : list f32.

Record TurnInputs : Type := mkTurnInputs {
  ti_shutdown : bool;                        (** the check at the top *)
  ti_cfg : InferenceCfg;
  ti_h0 : Z;                                 (** the head at [peek_into]'s loads *)
  ti_pcm : list Z;
  ti_h1 : Z;
  ti_h_seek : Z;                             (** the head [seek_latest] loads *)
  ti_available : list (Z * bool);            (** each poll: the head, and the check after it *)
  ti_h_advance : Z;
  ti_anchor : option BufferTimingAnchor;
  ti_now_us : Z;                             (** [CaptureTime::now] *)
  ti_unix_us : option Z;                     (** [WallTime::now] *)
  ti_infer : result string (list f32);       (** the backbone's answer *)
  ti_head : HotHead;
}.

(** [send_heartbeat_state]. *)
Definition send_heartbeat_state (s : EngineState) (e : Engine) : Engine :=
  mkEngine (e_tail e) (e_counters e) (e_failures e) (e_features e) (e_out e) (e_hbs e ++ [mkHeartbeat s (e_counters e)]).

Definition set_tail (t : Z) (e : Engine) : Engine :=
  mkEngine t (e_counters e) (e_failures e) (e_features e) (e_out e) (e_hbs e).
Definition set_counters (c : EngineCounters) (e : Engine) : Engine :=
  mkEngine (e_tail e) c (e_failures e) (e_features e) (e_out e) (e_hbs e).
Definition set_failures (n : Z) (e : Engine) : Engine :=
  mkEngine (e_tail e) (e_counters e) n (e_features e) (e_out e) (e_hbs e).
Definition set_features (f : list f32) (e : Engine) : Engine :=
  mkEngine (e_tail e) (e_counters e) (e_failures e) f (e_out e) (e_hbs e).

Definition drop_lag (e : Engine) : Engine :=
  let c := e_counters e in
  set_counters (mkEngineCounters (last_seq c) (frames_emitted c) (frames_dropped_nan c) (sat_add64 (frames_dropped_lag c) 1)) e.
Definition drop_nan (e : Engine) : Engine :=
  let c := e_counters e in
  set_counters (mkEngineCounters (last_seq c) (frames_emitted c) (sat_add64 (frames_dropped_nan c) 1) (frames_dropped_lag c)) e.

Inductive turn : Type :=
  | Continue (e : Engine)
  | Return (e : Engine) (r : result EngineError unit)
  | Panic (p : panic)
  | Starved (e : Engine).          (** still waiting for samples when the inputs end *)

(** [Reader::peek_into] of one waveform: [None] is its panic. *)
Definition peek_into (i : TurnInputs) (tail : Z) : option ReadStatus :=
  if capacity_minus_margin ring <? Z.of_nat WaveformLen then None
  else Some (match peek_begin ring tail (ti_h0 i) WaveformLen with
             | inl status => status
             | inr _ => peek_end ring tail (ti_h1 i)
             end).

(** [while (reader.available() as usize) < hop_samples]. *)
Inductive waited : Type := Caught | ShutDown | NeverCaught.

Fixpoint wait_available (hop : Z) (polls : list (Z * bool)) (e : Engine) : Engine * waited :=
  match polls with
  | [] => (e, NeverCaught)
  | (h, cancelled) :: polls =>
      if available_at (e_tail e) h <? hop then
        if cancelled then (e, ShutDown) else wait_available hop polls (send_heartbeat_state Waiting e)
      else (e, Caught)
  end.

(** [labels[i]] and [probs[i]] of the chosen classes; [None] past the labels. *)
Definition top_k_entries (labels : list string) (probs : list f32) (idx : list nat) : option (list TopK) :=
  mapM (λ i, label ← labels !! i; prob ← probs !! i; Some (mkTopK (Z.of_nat i mod 2 ^ 32) label (f32_to_bits prob))) idx.

(** The head, from the features to the published frame. *)
Definition classify (i : TurnInputs) (stamp : Z) (e : Engine) : turn :=
  let '(snap, head_version) := snapshot_with_version (ti_head i) in
  let n := hi_n_classes snap in
  match head_forward (e_features e) (map f32_of_bits (hi_weight snap)) (map f32_of_bits (hi_bias snap)) (replicate n f32_zero) with
  | None => Panic HeadShape
  | Some logits =>
      match softmax_into logits (replicate n f32_zero) with
      | None => Panic SoftmaxShape
      | Some probs =>
          let top_idx := top_k_indices_into probs (Z.to_nat (top_k (ti_cfg i))) in
          match top_k_entries (hi_labels snap) probs top_idx with
          | None => Panic LabelIndex
          | Some entries =>
              let c := e_counters e in
              let next_seq := wrap_add64 (last_seq c) 1 in
              let frame := mkInferenceFrame next_seq (Some stamp) (ti_unix_us i) entries
                             (Some (HeadId_display (hi_head_id snap))) (Some head_version) in
              let '(_, payload) := wrap_inference_into [] frame in
              let c := mkEngineCounters next_seq (sat_add64 (frames_emitted c) 1) (frames_dropped_nan c) (frames_dropped_lag c) in
              let e := mkEngine (e_tail e) c (e_failures e) (e_features e) (e_out e ++ [payload]) (e_hbs e) in
              Continue (send_heartbeat_state Running e)
          end
      end
  end.

(** The backbone and the check of its features. *)
Definition run_backbone (i : TurnInputs) (stamp : Z) (e : Engine) : turn :=
  match ti_infer i with
  | Err msg =>
      let failures := sat_add_u32 (e_failures e) 1 in
      let e := set_failures failures e in
      if MAX_CONSECUTIVE_BACKBONE_FAILURES <=? failures then Return e (Err (EngineBackbone msg)) else Continue e
  | Ok features =>
      let e := set_features features (set_failures 0 e) in
      if existsb (λ v, negb (is_finite v)) features then Continue (send_heartbeat_state Running (drop_nan e))
      else classify i stamp e
  end.

(** After the window was taken. *)
Definition process_window (i : TurnInputs) (stamp : Z) (e : Engine) : turn :=
  match spectrogram_into window (map f32_of_bits (ti_pcm i)) with
  | None => Panic SpectrogramPanic
  | Some spec =>
      if existsb (λ v, negb (is_finite v)) (concat spec) then Continue (send_heartbeat_state Running (drop_nan e))
      else run_backbone i stamp e
  end.

Definition engine_turn (i : TurnInputs) (e : Engine) : turn :=
  if ti_shutdown i then Return e (Ok tt)
  else
    let hop := Z.max (hop_samples (ti_cfg i)) 1 in
    match peek_into i (e_tail e) with
    | None => Panic PeekAssert
    | Some Wait => Continue (send_heartbeat_state Waiting e)
    | Some (Lagged _) =>
        Continue (send_heartbeat_state EngineLagged (drop_lag (set_tail (seek_tail (ti_h_seek i) WaveformLen) e)))
    | Some Ready =>
        let window_start_tail := e_tail e in
        match wait_available hop (ti_available i) e with
        | (e, NeverCaught) => Starved e
        | (e, ShutDown) => Return e (Ok tt)
        | (e, Caught) =>
            match advance_tail (e_tail e) (ti_h_advance i) (Z.to_nat hop) with
            | None => Panic AdvanceAssert
            | Some tail =>
                let stamp := match ti_anchor i with
                             | Some anchor => capture_us_for anchor window_start_tail
                             | None => ti_now_us i
                             end in
                process_window i stamp (set_tail tail e)
            end
        end
    end.

(** The whole run over the inputs of its turns; the first heartbeat, and
    [run_blocking]'s last. *)
Fixpoint engine_loop (inputs : list TurnInputs) (e : Engine) : turn :=
  match inputs with
  | [] => Continue e
  | i :: inputs =>
      match engine_turn i e with
      | Continue e => engine_loop inputs e
      | other => other
      end
  end.

Definition engine_start (tail : Z) : Engine :=
  send_heartbeat_state Running (mkEngine tail default_counters 0 (replicate BACKBONE_FEATURE_DIM f32_zero) [] []).

Definition run_blocking (inputs : list TurnInputs) (tail : Z) : turn :=
  match engine_loop inputs (engine_start tail) with
  | Return e (Ok tt) => Return (send_heartbeat_state Stopped e) (Ok tt)
  | Return e (Err err) => Return (send_heartbeat_state Failed e) (Err err)
  | other => other
  end.
End Engine.
