(* ===== verification/InferenceRuns.v ===== *)
(** * What one turn of the inference loop does, and whole runs

    On inputs the neighbours promise (validated settings, a head that passed the
    validator, heads of the ring that do not go back), no turn panics, and each
    outcome of a turn is described by what it publishes, counts and moves
    ([turn_sound]); the second half draws the conclusions for whole runs. *)

From Stdlib Require Import SpecFloat Sorted.
From S2P Require Import Prelude Ids Common Workspace VersionedSwap HotHead Framing AudioBuffer F32 F32Facts InferenceKernel Preproc Config InferenceEngine.

Local Open Scope Z_scope.

Lemma probability_not_nan p : probability p → not_nan p = true.
Proof. intros [H _]. by destruct p. Qed.

Section EngineFacts.
Context `{U : UuidLib} `{B : BurnLib} `{L : Libm} `{!ExpLaws L} `{F : RealFft} `{!RealFftLaws F} `{US : UnstableSort} `{!UnstableSortLaws US} `{P : Prost}.
Variable ring : Inner.
Variable window : list f32.
Hypothesis ring_holds_window : Z.of_nat WaveformLen ≤ capacity_minus_margin ring.
Hypothesis window_length : List.length window = FRAME_LEN.
Hypothesis window_nonneg : Forall nonneg_finite window.

(** What a turn's calls may be relied on for. *)
Record inputs_ok (i : TurnInputs) : Prop := {
  io_cfg : InferenceCfg_validate (ti_cfg i) = Ok tt;
  io_pcm : List.length (ti_pcm i) = WaveformLen;
  io_seek : ti_h0 i ≤ ti_h_seek i ∧ ti_h1 i ≤ ti_h_seek i;
  io_heads : Forall (λ x, fst x ≤ ti_h_advance i) (ti_available i);
  io_u64 : ti_h_advance i ≤ u64_max;
  io_features : ∀ features, ti_infer i = Ok features →
    List.length features = BACKBONE_FEATURE_DIM ∧ Forall (λ x, canonical x = true) features;
  io_head : well_shaped (snapshot (ti_head i));
}.

(** A published frame: window start [tail], one snapshot of the head for the
    labels, the identity and the version, and the largest probabilities first. *)
Record frame_of (i : TurnInputs) (tail : Z) (f : InferenceFrame) : Prop := {
  fo_stamp : if_t_us_capture_monotonic f =
    Some (match ti_anchor i with Some anchor => capture_us_for anchor tail | None => ti_now_us i end);
  fo_head : if_head_id f = Some (HeadId_display (hi_head_id (snapshot (ti_head i))));
  fo_version : if_head_version f = Some (version (ti_head i));
  fo_top : ∃ probs idx,
    List.length probs = hi_n_classes (snapshot (ti_head i)) ∧
    (probs = replicate (hi_n_classes (snapshot (ti_head i))) S754_nan ∨ Forall probability probs) ∧
    top_k_of probs (Z.to_nat (top_k (ti_cfg i))) idx ∧
    top_k_entries (hi_labels (snapshot (ti_head i))) probs idx = Some (if_top_k f);
}.

Lemma entries_ok (labels : list string) (probs : list f32) (idx : list nat) :
  List.length labels = List.length probs → (∀ j, j ∈ idx → j < List.length probs)%nat →
  ∃ es, top_k_entries labels probs idx = Some es.
Proof.
  intros Hl. unfold top_k_entries. induction idx as [|j idx IH]; intros Hi; [by eexists|]. cbn.
  destruct (lookup_lt_is_Some_2 labels j) as [l ->]; [rewrite Hl; apply Hi; left|]. cbn.
  destruct (lookup_lt_is_Some_2 probs j) as [p ->]; [apply Hi; left|]. cbn.
  destruct IH as [es Hes]; [intros k Hk; apply Hi; by right|]. rewrite Hes. by eexists.
Qed.

Lemma classify_ok i stamp e : inputs_ok i →
  List.length (e_features e) = BACKBONE_FEATURE_DIM → Forall (λ x, canonical x = true) (e_features e) →
  ∃ f, classify i stamp e = Continue (send_heartbeat_state Running
      (mkEngine (e_tail e) (mkEngineCounters (wrap_add64 (last_seq (e_counters e)) 1) (sat_add64 (frames_emitted (e_counters e)) 1)
          (frames_dropped_nan (e_counters e)) (frames_dropped_lag (e_counters e)))
        (e_failures e) (e_features e) (e_out e ++ [wrap_inference f]) (e_hbs e))) ∧
    if_seq f = wrap_add64 (last_seq (e_counters e)) 1 ∧ if_t_us_capture_monotonic f = Some stamp ∧
    if_head_id f = Some (HeadId_display (hi_head_id (snapshot (ti_head i)))) ∧ if_head_version f = Some (version (ti_head i)) ∧
    ∃ probs idx, List.length probs = hi_n_classes (snapshot (ti_head i)) ∧
      (probs = replicate (hi_n_classes (snapshot (ti_head i))) S754_nan ∨ Forall probability probs) ∧
      top_k_of probs (Z.to_nat (top_k (ti_cfg i))) idx ∧
      top_k_entries (hi_labels (snapshot (ti_head i))) probs idx = Some (if_top_k f).
Proof.
  intros Hi Hlen Hcan. pose proof (io_head i Hi) as [Hn Hw Hb Hl _ _]. unfold classify, snapshot_with_version.
  fold (snapshot (ti_head i)) (version (ti_head i)). set (snap := snapshot (ti_head i)) in *.
  rewrite head_forward_exact. cbv zeta. rewrite length_replicate, !length_map, Hb, Nat.eqb_refl, Hw, Hlen, Nat.mul_comm, Nat.eqb_refl.
  destruct (Nat.eqb_spec (hi_n_classes snap) 0) as [|_]; [lia|]. cbn [andb negb].
  set (logits := map _ (seq 0 (hi_n_classes snap))).
  assert (Hll : List.length logits = hi_n_classes snap) by (unfold logits; by rewrite length_map, length_seq).
  assert (Hcl : Forall (λ x, canonical x = true) logits).
  { apply List.Forall_forall. intros x (c & <- & _)%in_map_iff. apply logit_canonical; [|done|].
    - destruct (nth_in_or_default c (map f32_of_bits (hi_bias snap)) S754_nan) as [(v & <- & _)%in_map_iff| ->]; [apply f32_of_bits_canonical|done].
    - apply List.Forall_forall. intros y (v & <- & _)%in_map_iff. apply f32_of_bits_canonical. }
  destruct (softmax_outcome logits (replicate (hi_n_classes snap) f32_zero)) as (probs & Hs & Hlp & Hp & _).
  { destruct logits; [cbn in Hll; lia|done]. } { by rewrite length_replicate, Hll. }
  { rewrite Hll. unfold MAX_N_CLASSES in Hn. lia. } { done. }
  rewrite Hs. rewrite Hll in Hlp, Hp.
  assert (Hu : uniform_nan probs).
  { destruct Hp as [-> | Hp]; [right; by apply Forall_replicate|left]. eapply list.Forall_impl; [exact Hp|]. apply probability_not_nan. }
  pose proof (top_k_indices_spec probs (Z.to_nat (top_k (ti_cfg i))) Hu) as Htk.
  destruct (entries_ok (hi_labels snap) probs (top_k_indices_into probs (Z.to_nat (top_k (ti_cfg i))))) as [es Hes].
  { by rewrite Hl, Hlp. } { apply (tk_range _ _ _ Htk). }
  rewrite Hes. eexists. split; [reflexivity|]. cbn. split_and!; try done. exists probs, (top_k_indices_into probs (Z.to_nat (top_k (ti_cfg i)))).
  by split_and!.
Qed.

(** ** One turn *)

Definition features_ok (e : Engine) : Prop :=
  List.length (e_features e) = BACKBONE_FEATURE_DIM ∧ Forall (λ x, canonical x = true) (e_features e).

Record good (e : Engine) : Prop := {
  g_tail : 0 ≤ e_tail e;
  g_failures : 0 ≤ e_failures e < MAX_CONSECUTIVE_BACKBONE_FAILURES;
  g_features : features_ok e;
}.

(** Nothing was published. *)
Definition quiet (e e' : Engine) : Prop :=
  e_out e' = e_out e ∧ last_seq (e_counters e') = last_seq (e_counters e) ∧
  frames_emitted (e_counters e') = frames_emitted (e_counters e).

Record published (i : TurnInputs) (e : Engine) (f : InferenceFrame) (e' : Engine) : Prop := {
  pb_frame : frame_of i (e_tail e) f;
  pb_seq : if_seq f = wrap_add64 (last_seq (e_counters e)) 1;
  pb_last : last_seq (e_counters e') = if_seq f;
  pb_emitted : frames_emitted (e_counters e') = sat_add64 (frames_emitted (e_counters e)) 1;
  pb_out : e_out e' = e_out e ++ [wrap_inference f];
  pb_tail : e_tail e' = e_tail e + hop_samples (ti_cfg i);
  pb_failures : e_failures e' = 0;
}.

(** A turn without a frame: a backbone failure lengthens the streak, an answer
    ends it, any other turn keeps it. *)
Record silent (i : TurnInputs) (e e' : Engine) : Prop := {
  sl_quiet : quiet e e';
  sl_tail : e_tail e ≤ e_tail e';
  sl_failures : e_failures e' = e_failures e ∨ e_failures e' = 0 ∨
    (∃ m, ti_infer i = Err m) ∧ e_failures e' = e_failures e + 1;
}.

Definition turn_sound (i : TurnInputs) (e : Engine) (t : turn) : Prop :=
  match t with
  | Continue e' => good e' ∧ ((∃ f, published i e f e') ∨ silent i e e')
  | Return e' (Ok _) => quiet e e'
  | Return e' (Err err) => quiet e e' ∧ e_failures e' = MAX_CONSECUTIVE_BACKBONE_FAILURES ∧
      e_failures e + 1 = MAX_CONSECUTIVE_BACKBONE_FAILURES ∧ ∃ m, ti_infer i = Err m ∧ err = EngineBackbone m
  | Panic _ => False
  | Starved e' => quiet e e'
  end.

Lemma hop_range (i : TurnInputs) : inputs_ok i → 11025 ≤ hop_samples (ti_cfg i) ≤ 44100 ∧ Z.max (hop_samples (ti_cfg i)) 1 = hop_samples (ti_cfg i).
Proof.
  clear ring_holds_window window_length window_nonneg.
  intros [Hc _ _ _ _ _ _]. apply InferenceCfg_validate_exact in Hc as (Hh & _). assert (MIN_HOP_SAMPLES = 11025) as E1 by done.
  assert (MAX_HOP_SAMPLES = 44100) as E2 by done. lia.
Qed.

Lemma WaveformLen_Z : Z.of_nat WaveformLen = 44032.
Proof. clear. unfold WaveformLen. lia. Qed.

(** From the features on: [e0] is the engine at the top of the turn, [e] the one
    that took the window. *)
Lemma run_backbone_ok i e0 e stamp : inputs_ok i → good e0 →
  stamp = match ti_anchor i with Some anchor => capture_us_for anchor (e_tail e0) | None => ti_now_us i end →
  e_tail e = e_tail e0 + hop_samples (ti_cfg i) → e_counters e = e_counters e0 → e_failures e = e_failures e0 →
  e_features e = e_features e0 → e_out e = e_out e0 →
  turn_sound i e0 (run_backbone i stamp e).
Proof.
  intros Hi [Ht Hf Hft] Hst Htl Hc Hfl Hfe Ho. destruct (hop_range i Hi) as [Hh _]. unfold run_backbone.
  destruct (ti_infer i) as [features|msg] eqn:E.
  - destruct (io_features i Hi features E) as [Hlen Hcan].
    destruct (existsb (λ v, negb (is_finite v)) features).
    { cbn. split; [split; cbn; [lia|by compute|by split]|right]. split; cbn; [by unfold quiet; cbn; rewrite Ho, Hc|lia|by right; left]. }
    destruct (classify_ok i stamp (set_features features (set_failures 0 e)) Hi Hlen Hcan) as (f & -> & Hs & H2 & H3 & H4 & Htop).
    cbn in Hs, Hst |- *. rewrite Hc in Hs |- *. split; [split; cbn; [lia|by compute|by split]|left]. exists f. split; cbn; try done.
    + split; [by rewrite H2, Hst|done..].
    + by rewrite Ho.
  - assert (HM : MAX_CONSECUTIVE_BACKBONE_FAILURES = 50) by done.
    assert (Hsat : sat_add_u32 (e_failures e) 1 = e_failures e0 + 1) by (unfold sat_add_u32, u32_max; lia).
    rewrite Hsat. destruct (Z.leb_spec MAX_CONSECUTIVE_BACKBONE_FAILURES (e_failures e0 + 1)) as [Hge|Hlt]; cbn.
    + split_and!; [by unfold quiet; cbn; rewrite Ho, Hc|lia|lia|by exists msg].
    + split; [split; cbn; [lia|lia|by unfold features_ok; cbn; rewrite Hfe]|right].
      split; cbn; [by unfold quiet; cbn; rewrite Ho, Hc|lia|right; right; split; [by exists msg|done]].
Qed.

Lemma wait_available_ok hop polls e e' w : wait_available hop polls e = (e', w) →
  e_tail e' = e_tail e ∧ e_counters e' = e_counters e ∧ e_failures e' = e_failures e ∧
  e_features e' = e_features e ∧ e_out e' = e_out e ∧
  (w = Caught → ∃ h b, (h, b) ∈ polls ∧ hop ≤ available_at (e_tail e) h).
Proof.
  revert e. induction polls as [|[h b] polls IH]; intros e; cbn [wait_available]; [by injection 1 as <- <-|].
  destruct (Z.ltb_spec (available_at (e_tail e) h) hop) as [Hlt|Hge].
  - destruct b; [by injection 1 as <- <-|]. intros (H1 & H2 & H3 & H4 & H5 & H6)%IH. split_and!; try done.
    intros (h' & b' & Hin & Hle)%H6. exists h', b'. split; [by right|done].
  - injection 1 as <- <-. split_and!; try done. intros _. exists h, b. split; [left|done].
Qed.

Lemma peek_lagged i e by_ : inputs_ok i → peek_into ring i (e_tail e) = Some (Lagged by_) →
  e_tail e ≤ seek_tail (ti_h_seek i) WaveformLen.
Proof.
  intros Hi. destruct (io_seek i Hi) as [H0 H1]. unfold peek_into, seek_tail, sat_sub. rewrite WaveformLen_Z in *.
  destruct (Z.ltb_spec (capacity_minus_margin ring) 44032) as [|_]; [lia|]. unfold peek_begin, peek_end, sat_sub. rewrite WaveformLen_Z.
  destruct (Z.ltb_spec (Z.max (ti_h0 i - e_tail e) 0) 44032) as [|Hge]; [done|].
  destruct (Z.ltb_spec (capacity_minus_margin ring) (Z.max (ti_h0 i - e_tail e) 0)) as [Hl|_]; [lia|].
  destruct (Z.leb_spec (Z.max (ti_h1 i - e_tail e) 0) (capacity_minus_margin ring)) as [|Hl]; [done|lia].
Qed.

Lemma process_window_ok i e0 e stamp : inputs_ok i → good e0 →
  stamp = match ti_anchor i with Some anchor => capture_us_for anchor (e_tail e0) | None => ti_now_us i end →
  e_tail e = e_tail e0 + hop_samples (ti_cfg i) → e_counters e = e_counters e0 → e_failures e = e_failures e0 →
  e_features e = e_features e0 → e_out e = e_out e0 →
  turn_sound i e0 (process_window window i stamp e).
Proof.
  intros Hi Hg Hst Htl Hc Hfl Hfe Ho. unfold process_window. rewrite spectrogram_reference; [|done..|by rewrite length_map; apply io_pcm].
  destruct (existsb (λ v, negb (is_finite v)) _); [|by apply run_backbone_ok]. destruct Hg as [Ht Hf Hft]. destruct (hop_range i Hi) as [Hh _].
  cbn. split; [split; cbn; [lia|lia|by unfold features_ok; cbn; rewrite Hfe]|right]. split; cbn; [by unfold quiet; cbn; rewrite Ho, Hc|lia|by left].
Qed.

Lemma engine_turn_sound i e : inputs_ok i → good e → turn_sound i e (engine_turn ring window i e).
Proof.
  intros Hi Hg. unfold engine_turn. destruct (ti_shutdown i); [by cbn|]. destruct (hop_range i Hi) as [Hh ->].
  destruct (peek_into ring i (e_tail e)) as [[| |by_]|] eqn:Hp.
  - destruct (wait_available (hop_samples (ti_cfg i)) (ti_available i) e) as [e1 w] eqn:Hw.
    destruct (wait_available_ok _ _ _ _ _ Hw) as (H1 & H2 & H3 & H4 & H5 & H6).
    destruct w; [|by cbn; unfold quiet; rewrite H5, H2..]. destruct H6 as (h & b & Hin & Hav); [done|].
    pose proof (io_heads i Hi) as Hhs. rewrite list.Forall_forall in Hhs. specialize (Hhs _ Hin). cbn in Hhs. pose proof (io_u64 i Hi) as Hu.
    unfold available_at, sat_sub in Hav. destruct Hg as [Hgt Hgf Hgx].
    assert (Hadv : advance_tail (e_tail e1) (ti_h_advance i) (Z.to_nat (hop_samples (ti_cfg i))) = Some (e_tail e + hop_samples (ti_cfg i))).
    { unfold advance_tail. rewrite H1, Z2Nat.id, sat_add64_exact by lia. destruct (Z.leb_spec (e_tail e + hop_samples (ti_cfg i)) (ti_h_advance i)); [done|lia]. }
    rewrite Hadv. apply process_window_ok; try done.
  - cbn. destruct Hg as [Hgt Hgf Hgx]. split; [by split|right]. split; [done|cbn; lia|by left].
  - pose proof (peek_lagged i e by_ Hi Hp). cbn. destruct Hg as [Hgt Hgf Hgx]. split; [split; cbn; [lia|lia|done]|right].
    split; [done|done|by left].
  - unfold peek_into in Hp. destruct (Z.ltb_spec (capacity_minus_margin ring) (Z.of_nat WaveformLen)); [lia|done].
Qed.
End EngineFacts.

(** * Runs of the inference loop

    Over any number of turns: what was published, in which order and from which
    windows, and when the loop gives up. *)

(** The engine a run ends with; none after a panic. *)
Definition final (t : turn) : option Engine :=
  match t with Continue e | Return e _ | Starved e => Some e | Panic _ => None end.

Section Runs.
Context `{U : UuidLib} `{B : BurnLib} `{L : Libm} `{!ExpLaws L} `{F : RealFft} `{!RealFftLaws F} `{US : UnstableSort} `{!UnstableSortLaws US} `{P : Prost}.
Variable ring : Inner.
Variable window : list f32.
Hypothesis ring_holds_window : Z.of_nat WaveformLen ≤ capacity_minus_margin ring.
Hypothesis window_length : List.length window = FRAME_LEN.
Hypothesis window_nonneg : Forall nonneg_finite window.

(** A published frame, the inputs of its turn and the start of its window. *)
Record Publication : Type := mkPublication { pub_inputs : TurnInputs; pub_start : Z; pub_frame : InferenceFrame }.

(** The window of [b] starts at least one hop of [a] behind that of [a]. *)
Definition spaced (a b : Publication) : Prop := pub_start a + hop_samples (ti_cfg (pub_inputs a)) ≤ pub_start b.

(** The frames of [inputs] for a reader at [tail], the [k] first ones published
    before. *)
Record publications (inputs : list TurnInputs) (tail : Z) (k : nat) (ps : list Publication) : Prop := {
  pu_frames : Forall (λ p, frame_of (pub_inputs p) (pub_start p) (pub_frame p)) ps;
  pu_from : map pub_inputs ps `sublist_of` inputs;
  pu_starts : Forall (λ p, tail ≤ pub_start p) ps;
  pu_spaced : StronglySorted spaced ps;
  pu_seq : map (λ p, if_seq (pub_frame p)) ps = map Z.of_nat (seq (S k) (List.length ps));
}.

Lemma publications_nil inputs tail k : publications inputs tail k [].
Proof. split; try done; [apply sublist_nil_l|constructor]. Qed.

Lemma publications_skip i inputs tail tail' k ps :
  publications inputs tail' k ps → tail ≤ tail' → publications (i :: inputs) tail k ps.
Proof.
  intros [H1 H2 H3 H4 H5] Hle. split; try done; [by apply sublist_cons|]. eapply list.Forall_impl; [exact H3|]. cbn. lia.
Qed.

Lemma publications_cons i inputs tail f k ps :
  frame_of i tail f → if_seq f = Z.of_nat (S k) → 0 ≤ hop_samples (ti_cfg i) →
  publications inputs (tail + hop_samples (ti_cfg i)) (S k) ps →
  publications (i :: inputs) tail k (mkPublication i tail f :: ps).
Proof.
  intros Hf Hs Hh [H1 H2 H3 H4 H5]. split; cbn.
  - by constructor.
  - by apply sublist_skip.
  - constructor; [cbn; lia|]. eapply list.Forall_impl; [exact H3|]. cbn. lia.
  - by constructor.
  - by rewrite Hs, H5.
Qed.

(** The engine after [k] published frames. *)
Definition counted (k : nat) (e : Engine) : Prop :=
  last_seq (e_counters e) = Z.of_nat k ∧ frames_emitted (e_counters e) = Z.of_nat k.

Lemma quiet_counted e e' k : quiet e e' → counted k e → counted k e'.
Proof. intros (_ & H1 & H2) [H3 H4]. split; congruence. Qed.

Lemma engine_loop_publishes inputs e k : Forall inputs_ok inputs → good e → counted k e →
  Z.of_nat (k + List.length inputs) ≤ u64_max →
  ∃ e' ps, final (engine_loop ring window inputs e) = Some e' ∧
    e_out e' = e_out e ++ map (λ p, wrap_inference (pub_frame p)) ps ∧
    publications inputs (e_tail e) k ps ∧ counted (k + List.length ps) e'.
Proof.
  intros Hin. revert e k. induction Hin as [|i inputs Hi Hin IH]; intros e k Hg Hc Hk.
  { exists e, []. cbn. rewrite app_nil_r, Nat.add_0_r. split_and!; [done|done|apply publications_nil|done]. }
  cbn [engine_loop List.length] in Hk |- *. pose proof (engine_turn_sound ring window ltac:(done) ltac:(done) ltac:(done) i e Hi Hg) as Ht.
  assert (Hend : ∀ e', quiet e e' → ∃ e'' ps, Some e' = Some e'' ∧
    e_out e'' = e_out e ++ map (λ p, wrap_inference (pub_frame p)) ps ∧
    publications (i :: inputs) (e_tail e) k ps ∧ counted (k + List.length ps) e'').
  { intros e' Hq. exists e', []. cbn. rewrite app_nil_r, Nat.add_0_r. split_and!; [done|by destruct Hq|apply publications_nil|by eapply quiet_counted]. }
  destruct (engine_turn ring window i e) as [e'|e' [[]|err]| |e']; cbn [turn_sound final] in Ht |- *; [|by apply Hend|by apply Hend; destruct Ht|done|by apply Hend].
  destruct Ht as [Hg' [[f Hp]|Hs]].
  - destruct Hc as [Hc1 Hc2], (hop_range i Hi) as [Hh _]. destruct Hp as [Hf Hsq Hl He Ho Htl _].
    assert (Hsk : if_seq f = Z.of_nat (S k)).
    { rewrite Hsq, Hc1. unfold wrap_add64. rewrite Z.mod_small; unfold u64_max in *; lia. }
    destruct (IH e' (S k) Hg') as (e'' & ps & H1 & H2 & H3 & H4); [|lia|].
    { split; [congruence|]. rewrite He, Hc2, sat_add64_exact by lia. lia. }
    exists e'', (mkPublication i (e_tail e) f :: ps). rewrite H2, Ho, <-app_assoc. split_and!; [done|done| |].
    + apply publications_cons; [done|done|lia|]. by rewrite <-Htl.
    + cbn [List.length]. by rewrite Nat.add_succ_r.
  - destruct Hs as [Hq Htl _]. destruct (IH e' k Hg') as (e'' & ps & H1 & H2 & H3 & H4); [by eapply quiet_counted|lia|].
    exists e'', ps. split_and!; [done| |by eapply publications_skip|done]. rewrite H2. by destruct Hq as [-> _].
Qed.


(** ** The streak *)

Definition backbone_failed (i : TurnInputs) : Prop := ∃ m, ti_infer i = Err m.

(** The failing calls at the end of [inputs], none of which published. *)
Record streak_of (inputs : list TurnInputs) (e e' : Engine) (before rest : list TurnInputs) (e1 : Engine) (m : string) : Prop := {
  st_before : engine_loop ring window before e = Continue e1;
  st_good : good e1;
  st_turns : ∃ during i fails, inputs = before ++ during ++ i :: rest ∧ fails `sublist_of` during ∧
    Forall backbone_failed fails ∧ ti_infer i = Err m ∧
    Z.of_nat (List.length fails) + e_failures e1 + 1 = MAX_CONSECUTIVE_BACKBONE_FAILURES;
  st_quiet : quiet e1 e';
}.

Lemma engine_loop_streak inputs e e' err : Forall inputs_ok inputs → good e →
  engine_loop ring window inputs e = Return e' (Err err) →
  ∃ before rest e1 m, err = EngineBackbone m ∧ (before = [] ∧ e1 = e ∨ e_failures e1 = 0) ∧
    streak_of inputs e e' before rest e1 m.
Proof.
  intros Hin. revert e. induction Hin as [|i inputs Hi Hin IH]; intros e Hg; [done|]. cbn [engine_loop].
  pose proof (engine_turn_sound ring window ltac:(done) ltac:(done) ltac:(done) i e Hi Hg) as Ht.
  destruct (engine_turn ring window i e) as [e2|e2 [[]|err2]| |e2] eqn:E; cbn [turn_sound] in Ht; try done.
  2:{ injection 1 as -> ->. destruct Ht as (Hq & Hf & Hf' & m & Hm & ->).
      exists [], inputs, e, m. split_and!; [done|by left|]. split; [done|done| |done].
      exists [], i, []. split_and!; [done|done|done|done|]. cbn [List.length]. lia. }
  intros Hrun. destruct Ht as [Hg' Ht]. destruct (IH e2 Hg' Hrun) as (before & rest & e1 & m & -> & Hor & [H1 H2 H3 H4]).
  assert (Hlate : e_failures e1 = 0 →
    ∃ before rest e1 m0, EngineBackbone m = EngineBackbone m0 ∧ (before = [] ∧ e1 = e ∨ e_failures e1 = 0) ∧ streak_of (i :: inputs) e e' before rest e1 m0).
  { intros H0. exists (i :: before), rest, e1, m. split_and!; [done|by right|]. split; [by cbn; rewrite E|done| |done].
    destruct H3 as (during & j & fails & -> & H). by exists during, j, fails. }
  destruct Hor as [[-> ->]|H0]; [|by apply Hlate]. destruct H3 as (during & j & fails & -> & Hsub & Hfs & Hj & Hlen).
  destruct Ht as [[f Hp]|Hs]; [apply Hlate; by destruct Hp|]. destruct Hs as [Hq _ [Hf|[Hf|[Hm Hf]]]]; [| by apply Hlate|].
  all: exists [], rest, e, m; split_and!; [done|by left|]; split; [done|done| |by destruct Hq as (?&?&?), H4 as (?&?&?); split_and!; congruence].
  - exists (i :: during), j, fails. split_and!; [done|by apply sublist_cons|done|done|lia].
  - exists (i :: during), j, (i :: fails). split_and!; [done|by apply sublist_skip|by constructor|done|cbn [List.length]; lia].
Qed.

(** The loop gives up only on the backbone: a run that returns an error has
    behind it fifty failing calls, the last with the error it returns, no call
    that answered and no frame between the first and the last of them. *)
Theorem engine_gives_up inputs tail e' err : Forall inputs_ok inputs → 0 ≤ tail →
  run_blocking ring window inputs tail = Return e' (Err err) →
  ∃ before during i rest fails e1 m, inputs = before ++ during ++ i :: rest ∧
    engine_loop ring window before (engine_start tail) = Continue e1 ∧ e_failures e1 = 0 ∧
    fails `sublist_of` during ∧ Forall backbone_failed fails ∧ List.length fails = 49%nat ∧
    ti_infer i = Err m ∧ err = EngineBackbone m ∧ quiet e1 e' ∧
    ∃ hbs, e_hbs e' = hbs ++ [mkHeartbeat Failed (e_counters e')].
Proof.
  intros Hi Ht. unfold run_blocking. destruct (engine_loop ring window inputs (engine_start tail)) as [e2|e2 [[]|err2]| |e2] eqn:E; try done.
  injection 1 as <- ->. destruct (engine_loop_streak inputs (engine_start tail) e2 err Hi) as (before & rest & e1 & m & -> & Hor & [H1 H2 H3 H4]); [|done|].
  { split; [done|by compute|]. split; cbn [e_features engine_start send_heartbeat_state]; [apply length_replicate|by apply Forall_replicate]. }
  destruct H3 as (during & i & fails & Hin & Hsub & Hfs & Hm & Hlen).
  assert (H0 : e_failures e1 = 0) by (destruct Hor as [[_ ->]|]; [reflexivity|done]).
  assert (HM : MAX_CONSECUTIVE_BACKBONE_FAILURES = 50) by reflexivity.
  exists before, during, i, rest, fails, e1, m. split_and!; try done; [lia|]. by exists (e_hbs e2).
Qed.
End Runs.

(** ** What a failing call reports *)

(** Below the threshold it sends no heartbeat and moves no counter, although the
    comment on it says the counters keep ticking. *)
Lemma failed_call_reports_nothing `{U : UuidLib} `{L : Libm} `{US : UnstableSort} `{P : Prost} (i : TurnInputs) stamp m e e' :
  ti_infer i = Err m → run_backbone i stamp e = Continue e' → e_hbs e' = e_hbs e ∧ e_counters e' = e_counters e.
Proof.
  intros Hm. unfold run_backbone. rewrite Hm. destruct (MAX_CONSECUTIVE_BACKBONE_FAILURES <=? _); [done|]. by injection 1 as <-.
Qed.

(** ** Scenarios *)

Section EngineScenario.
#[local] Existing Instance text_uuid_lib.
#[local] Existing Instance insertion_sort.

(** An encoder to read by eye: the number, then each class with its bits. *)
Definition plain_prost : Prost := {|
  encode_to_vec := λ e, match env_payload e with
    | Some (Framing.Inference f) => if_seq f :: concat (map (λ t, [tk_class_idx t; tk_prob t]) (if_top_k f))
    | _ => [] end;
  prost_decode := λ _, None;
|}.
#[local] Existing Instance plain_prost.

(** [libm_step] with a logarithm that takes 1 to 2 and 4 to -2: the plane of
    [pair_fft] has a mean of zero. *)
Definition libm_pair : Libm := {|
  f32_exp := step_exp;
  f32_ln := λ x, if SFeqb x f32_one then f32_of_int 2 else if SFeqb x (f32_of_int 4) then f32_of_int (-2) else f32_zero;
  f32_powf := λ b _, b;
  f64_sin := λ x, x;
|}.
#[local] Existing Instance libm_pair.
Instance libm_pair_laws : ExpLaws libm_pair.
Proof. destruct libm_step_laws as [H1 H2 H3]. by split. Qed.

#[local] Existing Instance pair_fft.

Definition er_ring : Inner := mkInner [] 65536 true [(90000, [])].
Definition er_window : list f32 := replicate FRAME_LEN f32_zero.
Definition er_head : HotHead :=
  VersionedSwap_new (mkHeadInner (replicate (2 * BACKBONE_FEATURE_DIM) 0x3F800000) [0; 0x3F800000] ["dog"; "cat"]%string (mkHeadId ("h" : Uuid)) 2).

(** A turn at whose loads the head is [h], with this answer of the backbone. *)
Definition er_turn (h : Z) (answer : result string (list f32)) : TurnInputs :=
  mkTurnInputs false default_inference h (replicate WaveformLen 0) h h [(h, false)] h None 5 None answer er_head.
Definition er_features : list f32 := replicate BACKBONE_FEATURE_DIM f32_zero.

Lemma er_turn_ok h answer : h ≤ u64_max → answer = Ok er_features ∨ (∃ m, answer = Err m) → inputs_ok (er_turn h answer).
Proof.
  intros Hh Ha. split; unfold er_turn; cbn [ti_cfg ti_pcm ti_h0 ti_h1 ti_h_seek ti_available ti_h_advance ti_infer ti_head].
  - by vm_compute.
  - apply length_replicate.
  - lia.
  - constructor; [cbn; lia|constructor].
  - done.
  - intros features E. destruct Ha as [-> |[m ->]]; [|done]. injection E as <-. unfold er_features. split; [apply length_replicate|by apply Forall_replicate].
  - split; cbn [er_head VersionedSwap_new snapshot vs_inner v_value hi_n_classes hi_weight hi_bias hi_labels].
    + by vm_compute.
    + apply length_replicate.
    + done.
    + done.
    + by apply Forall_replicate.
    + by repeat constructor.
Qed.

Lemma er_ring_holds : Z.of_nat WaveformLen ≤ capacity_minus_margin er_ring.
Proof. rewrite WaveformLen_Z. by vm_compute. Qed.

(** Two windows with a failing call between them, then not yet enough samples. *)
Definition er_inputs : list TurnInputs :=
  [er_turn 45000 (Ok er_features); er_turn 57000 (Err "busy"%string); er_turn 70000 (Ok er_features); er_turn 70000 (Ok er_features)].

Lemma er_inputs_ok : Forall inputs_ok er_inputs.
Proof.
  repeat (apply list.Forall_cons_2; [apply er_turn_ok; [by vm_compute|first [by left|right; by eexists]]|]). apply Forall_nil_2.
Qed.


(** Fifty windows and fifty refusals. *)
Fixpoint er_refusals (n : nat) (h : Z) : list TurnInputs :=
  match n with O => [] | S n => er_turn h (Err "gone"%string) :: er_refusals n (h + 11025) end.

Definition er_plane : list (list f32) := default [] (spectrogram_into er_window (map f32_of_bits (replicate WaveformLen 0))).

Lemma er_plane_finite : existsb (λ v, negb (is_finite v)) (concat er_plane) = false.
Proof. vm_compute. reflexivity. Qed.

Lemma er_spectrogram : spectrogram_into er_window (map f32_of_bits (replicate WaveformLen 0)) = Some er_plane.
Proof.
  unfold er_plane. rewrite spectrogram_reference; [done|apply length_replicate|by apply Forall_replicate|by rewrite length_map, length_replicate].
Qed.

Lemma er_refused e : 0 ≤ e_tail e → e_tail e + 45000 ≤ u64_max → 0 ≤ e_failures e < 50 →
  engine_turn er_ring er_window (er_turn (e_tail e + 45000) (Err "gone"%string)) e =
    let e := set_failures (e_failures e + 1) (set_tail (e_tail e + 11025) e) in
    if 50 <=? e_failures e then Return e (Err (EngineBackbone "gone")) else Continue e.
Proof.
  intros Ht Hu Hf. unfold engine_turn, peek_into, er_turn. cbn [ti_shutdown ti_cfg ti_h0 ti_h1 ti_available ti_h_advance ti_anchor ti_now_us hop_samples default_inference].
  change (Z.max MIN_HOP_SAMPLES 1) with 11025. change (capacity_minus_margin er_ring) with 49152.
  unfold peek_begin, peek_end, sat_sub. change (capacity_minus_margin er_ring) with 49152. rewrite WaveformLen_Z.
  replace (e_tail e + 45000 - e_tail e) with 45000 by lia. change (45000 `max` 0) with 45000.
  change (45000 <? 44032) with false. change (49152 <? 45000) with false. change (45000 <=? 49152) with true. cbv iota.
  cbn [wait_available]. unfold available_at, sat_sub. replace (e_tail e + 45000 - e_tail e) with 45000 by lia.
  change (45000 `max` 0 <? 11025) with false. cbv iota. unfold advance_tail. change (49152 <? 45000) with false. cbv iota.
  rewrite Z2Nat.id, sat_add64_exact by lia. destruct (Z.leb_spec (e_tail e + 11025) (e_tail e + 45000)) as [_|]; [|lia].
  unfold process_window. cbn [ti_pcm]. rewrite er_spectrogram, er_plane_finite. unfold run_backbone. cbn [ti_infer set_tail e_failures].
  unfold sat_add_u32, u32_max. rewrite Z.min_l by lia. done.
Qed.

Lemma er_gives_up n e : 0 ≤ e_tail e → e_tail e + Z.of_nat n * 11025 + 45000 ≤ u64_max → (0 < n)%nat →
  0 ≤ e_failures e → e_failures e + Z.of_nat n = 50 →
  ∃ e', engine_loop er_ring er_window (er_refusals n (e_tail e + 45000)) e = Return e' (Err (EngineBackbone "gone")).
Proof.
  revert e. induction n as [|n IH]; intros e Ht Hu Hn Hf H50; [lia|]. cbn [er_refusals engine_loop]. rewrite er_refused by lia.
  cbv zeta. cbn [e_failures set_failures]. destruct (Z.leb_spec 50 (e_failures e + 1)); [by eexists|].
  replace (e_tail e + 45000 + 11025) with (e_tail (set_failures (e_failures e + 1) (set_tail (e_tail e + 11025) e)) + 45000) by (cbn; lia).
  apply IH; cbn [e_tail e_failures set_failures set_tail]; lia.
Qed.

Lemma er_refusals_ok n h : h + Z.of_nat n * 11025 ≤ u64_max → Forall inputs_ok (er_refusals n h).
Proof.
  revert h. induction n as [|n IH]; intros h Hh; [apply Forall_nil_2|]. apply list.Forall_cons_2.
  - apply er_turn_ok; [lia|right; by eexists].
  - apply IH. lia.
Qed.

Lemma engine_gives_up_witness :
  ∃ e' before during i rest fails e1 m, er_refusals 50 45000 = before ++ during ++ i :: rest ∧
    run_blocking er_ring er_window (er_refusals 50 45000) 0 = Return e' (Err (EngineBackbone m)) ∧
    engine_loop er_ring er_window before (engine_start 0) = Continue e1 ∧ e_out e' = e_out e1 ∧
    fails `sublist_of` during ∧ Forall backbone_failed fails ∧ List.length fails = 49%nat.
Proof.
  assert (Hu : 45000 + Z.of_nat 50 * 11025 ≤ u64_max) by by vm_compute.
  destruct (er_gives_up 50 (engine_start 0)) as [e' He]; [done|exact Hu|lia|done|done|].
  assert (Hr : run_blocking er_ring er_window (er_refusals 50 45000) 0 = Return (send_heartbeat_state Failed e') (Err (EngineBackbone "gone"))).
  { unfold run_blocking. change (er_refusals 50 45000) with (er_refusals 50 (e_tail (engine_start 0) + 45000)). rewrite He. reflexivity. }
  destruct (engine_gives_up er_ring er_window er_ring_holds (length_replicate _ _) ltac:(by apply Forall_replicate) _ 0 _ _
    (er_refusals_ok 50 45000 Hu) (Z.le_refl 0) Hr) as (before & during & i & rest & fails & e1 & m & H1 & H2 & _ & H3 & H4 & H5 & _ & H6 & [H7 _] & _).
  injection H6 as <-. exists (send_heartbeat_state Failed e'), before, during, i, rest, fails, e1, "gone"%string.
  exact (conj H1 (conj Hr (conj H2 (conj H7 (conj H3 (conj H4 H5)))))).
Defined.
End EngineScenario.
