(* ===== verification/ConfigCell.v ===== *)
(** * The configuration cell ([src/modules/config.rs], [config/watcher.rs], [config/mic_settings.rs])

    The TOML file and the three live cells it feeds: the [Config] snapshot, the
    [MicSettings] the arbitrator polls and the [InferenceCfg] the engine polls.
    Every writer (the two API routes and the reload of an operator's edit) runs
    under [mutate_lock].  An [Arc] or an [ArcSwap] is the value it holds; the
    call of one thread is a function of the process it sees: it returns, fails,
    panics, blocks for ever on a lock, or is cut by a power loss. *)

From S2P Require Import Prelude Ids Common Text FileSystem FsAtomic VersionedSwap MicTypes ApiErrors Config.

(** ** The process *)

Record Proc := mkProc {
  p_world : World;
  p_inner : Config;                        (** [ConfigCell::inner] *)
  p_reloads : Z;                           (** [reload_count] *)
  p_mic : VersionedSwap MicSettings;       (** [MicSettingsCell::inner] *)
  p_inference : InferenceCfg;              (** the engine's [ArcSwap<InferenceCfg>] *)
  p_locked : bool;                         (** [mutate_lock] *)
  p_in_mutate : bool;                      (** this thread's [IN_MUTATE] *)
}.

Definition with_world (w : World) (s : Proc) : Proc :=
  mkProc w (p_inner s) (p_reloads s) (p_mic s) (p_inference s) (p_locked s) (p_in_mutate s).
Definition with_inner (c : Config) (s : Proc) : Proc :=
  mkProc (p_world s) c (p_reloads s) (p_mic s) (p_inference s) (p_locked s) (p_in_mutate s).
Definition with_reloads (n : Z) (s : Proc) : Proc :=
  mkProc (p_world s) (p_inner s) n (p_mic s) (p_inference s) (p_locked s) (p_in_mutate s).
Definition with_mic (m : VersionedSwap MicSettings) (s : Proc) : Proc :=
  mkProc (p_world s) (p_inner s) (p_reloads s) m (p_inference s) (p_locked s) (p_in_mutate s).
Definition with_inference (i : InferenceCfg) (s : Proc) : Proc :=
  mkProc (p_world s) (p_inner s) (p_reloads s) (p_mic s) i (p_locked s) (p_in_mutate s).
Definition with_flags (locked in_mutate : bool) (s : Proc) : Proc :=
  mkProc (p_world s) (p_inner s) (p_reloads s) (p_mic s) (p_inference s) locked in_mutate.

Inductive exit (E A : Type) : Type :=
  | Done (a : A)
  | Fails (e : E)
  | Panics
  | Blocks      (** waits for a lock its own thread holds *)
  | PowerLoss.
Arguments Done {E A} a.
Arguments Fails {E A} e.
Arguments Panics {E A}.
Arguments Blocks {E A}.
Arguments PowerLoss {E A}.

Definition C (E A : Type) : Type := Proc → Proc * exit E A.

#[export] Instance C_ret E : MRet (C E) := λ A a s, (s, Done a).
#[export] Instance C_bind E : MBind (C E) := λ A B f m s,
  match m s with
  | (s, Done a) => f a s
  | (s, Fails e) => (s, Fails e)
  | (s, Panics) => (s, Panics)
  | (s, Blocks) => (s, Blocks)
  | (s, PowerLoss) => (s, PowerLoss)
  end.

Definition fails {E A} (e : E) : C E A := λ s, (s, Fails e).
Definition panics {E A} : C E A := λ s, (s, Panics).
Definition gets {E A} (f : Proc → A) : C E A := λ s, (s, Done (f s)).
Definition sets {E} (f : Proc → Proc) : C E unit := λ s, (f s, Done tt).
Definition lift_result {E A} (r : result E A) : C E A :=
  match r with Ok a => mret a | Err e => fails e end.

(** A file operation. *)
Definition io {E A} (m : M E A) : C E A := λ s,
  match m (p_world s) with
  | (w, Ret a) => (with_world w s, Done a)
  | (w, Throw e) => (with_world w s, Fails e)
  | (w, Crash) => (with_world w s, PowerLoss)
  end.

(** [m.map_err(f)]. *)
Definition map_fails {E F A} (f : E → F) (m : C E A) : C F A := λ s,
  match m s with
  | (s, Done a) => (s, Done a)
  | (s, Fails e) => (s, Fails (f e))
  | (s, Panics) => (s, Panics)
  | (s, Blocks) => (s, Blocks)
  | (s, PowerLoss) => (s, PowerLoss)
  end.

(** [match m { Ok(a) => .., Err(e) => .. }]. *)
Definition tries {E F A} (m : C E A) : C F (result E A) := λ s,
  match m s with
  | (s, Done a) => (s, Done (Ok a))
  | (s, Fails e) => (s, Done (Err e))
  | (s, Panics) => (s, Panics)
  | (s, Blocks) => (s, Blocks)
  | (s, PowerLoss) => (s, PowerLoss)
  end.

(** [catch_unwind]: [None] is a caught panic. *)
Definition catch_unwind {E F A} (m : C E A) : C F (option (result E A)) := λ s,
  match m s with
  | (s, Done a) => (s, Done (Some (Ok a)))
  | (s, Fails e) => (s, Done (Some (Err e)))
  | (s, Panics) => (s, Done None)
  | (s, Blocks) => (s, Blocks)
  | (s, PowerLoss) => (s, PowerLoss)
  end.

(** A hook has no error to return. *)
Definition hook (A : Type) : Type := C Empty_set A.
Definition run_hook {E A} (h : hook A) : C E A := map_fails (λ e, match (e : Empty_set) with end) h.

(** *** Guards: what their [Drop] undoes on a return, an error or a panic *)

Definition dropping {E A} (undo : Proc → Proc) (m : C E A) : C E A := λ s,
  match m s with
  | (s, Blocks) => (s, Blocks)
  | (s, PowerLoss) => (s, PowerLoss)
  | (s, r) => (undo s, r)
  end.

Definition unlock (s : Proc) : Proc := with_flags false (p_in_mutate s) s.
(** [ResetOnDrop]. *)
Definition reset_on_drop (s : Proc) : Proc := with_flags (p_locked s) false s.

(** [let _guard = mutate_lock.lock();] and the rest of the scope. *)
Definition with_lock {E A} (m : C E A) : C E A := λ s,
  if p_locked s then (s, Blocks) else dropping unlock m (with_flags true (p_in_mutate s) s).

(** ** Files *)

Section Cell.
Context `{T : TempLib} `{Toml_c : Toml Config}.

(** The other variants [put_atomic] does not build. *)
Definition file_to_config_err (err : FileError) : ConfigError :=
  match err with
  | FE_Io path _ => CFG_Write path
  | FE_Persist => CFG_Persist
  | _ => CFG_Write ""
  end.

(** [fs::read_to_string]. *)
Definition fs_read_to_string (p : path) : M IoKind (list ascii) :=
  text ← fs_read p; if utf8_ok text then mret text else throw IoOther.

Definition write_toml_atomically {A} `{!Toml A} (p : path) (cfg : A) : M ConfigError unit :=
  match to_string_pretty cfg with
  | None => throw CFG_Serialize
  | Some text =>
      let dir := parent p in
      there ← path_exists dir;
      _ ← (if there : bool then mret tt
           else map_throw (λ _ : IoKind, CFG_Write (display dir)) (create_dir_all dir));
      map_throw file_to_config_err (put_atomic p text)
  end.

(** The file at [p], read, parsed and validated. *)
Definition ConfigCell_load (p : path) : M ConfigError Config :=
  text ← map_throw (λ _ : IoKind, CFG_Read (display p)) (fs_read_to_string p);
  match from_str text with
  | None => throw (CFG_Parse (display p))
  | Some cfg =>
      lift (map_err (λ e, CFG_Invalid (display p) (ConfigValidationError_display e)) (Config_validate cfg) ≫= λ _, Ok cfg)
  end.

Definition ConfigCell_from_value (cfg : Config) (p : path) : result ConfigError Config :=
  map_err (λ e, CFG_Invalid (display p) (ConfigValidationError_display e)) (Config_validate cfg) ≫= λ _, Ok cfg.

(** ** The cell at one path *)

Variable p : path.

Definition ConfigCell_persist {E} (f : ConfigError → E) : C E unit :=
  snap ← gets p_inner; map_fails f (io (write_toml_atomically p snap)).

(** Validate, write, publish; then the hook, still under the lock. *)
Definition persist_then_store {B} (cfg : Config) (after : Config → hook B) : C ConfigError B :=
  _ ← lift_result (map_err (λ e, CFG_Invalid (display p) (ConfigValidationError_display e)) (Config_validate cfg));
  _ ← io (write_toml_atomically p cfg);
  _ ← sets (with_inner cfg);
  run_hook (after cfg).

(** [mutator] edits the clone of the snapshot; what a hook leaves in a captured
    slot is its value. *)
Definition mutate_then {R B} (mutator : Config → Config * R) (after : Config → hook B) : C ConfigError (R * B) := λ s,
  if p_in_mutate s then (s, Fails CFG_ReentrantMutate)
  else
    dropping reset_on_drop
      (with_lock
         (snap ← gets p_inner;
          let '(cfg, result) := mutator snap in
          slot ← persist_then_store cfg after;
          mret (result, slot)))
      (with_flags (p_locked s) true s).

Definition mutate (f : Config → Config) : C ConfigError unit :=
  _ ← mutate_then (λ c, (f c, tt)) (λ _, mret tt); mret tt.

(** *** The guard of [open_mutation]: the lock and the flag, and a clone *)

Definition open_mutation : C ConfigError Config := λ s,
  if p_in_mutate s then (s, Fails CFG_ReentrantMutate)
  else if p_locked s then (with_flags true true s, Blocks)
  else (with_flags true true s, Done (p_inner s)).

Definition drop_guard (s : Proc) : Proc := reset_on_drop (unlock s).

Definition commit {B} (cfg : Config) (after : Config → hook B) : C ConfigError B :=
  dropping drop_guard (persist_then_store cfg after).

Definition rollback {E} : C E unit := sets drop_guard.

(** ** Microphone settings *)

Variable cat : MicCatalogue.

(** [e.to_string()] of the one variant the validation builds. *)
Definition rejected (e : ConfigError) : MicError :=
  match e with
  | CFG_Invalid path msg => MIC_Rejected ("invalid config " ++ path ++ ": " ++ msg)
  | _ => MIC_Rejected ""
  end.

Definition check_policy (policy : MicPolicy) : result MicError unit :=
  map_err rejected (validate_policy_against_catalogue policy cat (display p)).

(** [self.inner.try_mutate(..).expect("infallible mutator")]. *)
Definition publish_policy (policy : MicPolicy) : hook SwapReceipt :=
  r ← (λ s, let '(m, r) := try_mutate (E := MicError) (λ _, Ok (mkMicSettings cat policy, tt)) (p_mic s) in
            (with_mic m s, Done r));
  match r with Ok (receipt, _) => mret receipt | Err _ => panics end.

Definition try_set_policy (policy : MicPolicy) : C MicError SwapReceipt :=
  _ ← lift_result (check_policy policy);
  r ← map_fails MIC_Persist (mutate_then (λ c, (set_mic policy c, tt)) (λ _committed, publish_policy policy));
  mret (snd r).

Definition try_set_policy_no_persist (policy : MicPolicy) : C MicError SwapReceipt :=
  _ ← lift_result (check_policy policy);
  run_hook (publish_policy policy).

Definition MicSettingsCell_new (initial_policy : MicPolicy) : VersionedSwap MicSettings :=
  VersionedSwap_new (mkMicSettings cat initial_policy).

(** ** Hot reload *)

(** What the reload logs. *)
Inductive reload_log : Type :=
  | ReadFailed | ParseFailed | ValidationFailed | Unchanged | Reloaded | RejectedByCallback | CallbackPanicked.

Definition try_reload (on_reload : Config → C ConfigValidationError unit) : hook reload_log :=
  with_lock
    (text ← tries (io (fs_read_to_string p));
     match text with
     | Err _ => mret ReadFailed
     | Ok text =>
         match from_str text with
         | None => mret ParseFailed
         | Some cfg =>
             match Config_validate cfg with
             | Err _ => mret ValidationFailed
             | Ok _ =>
                 prev ← gets p_inner;
                 if bool_decide (prev = cfg) then mret Unchanged
                 else
                   cb_result ← catch_unwind (on_reload cfg);
                   match cb_result with
                   | Some (Ok _) =>
                       _ ← sets (with_inner cfg);
                       _ ← sets (λ s, with_reloads (wrap_add64 (p_reloads s) 1) s);
                       mret Reloaded
                   | Some (Err _) => mret RejectedByCallback
                   | None => mret CallbackPanicked
                   end
             end
         end
     end).

(** The persistence error's own text is left out: the reload persists nothing. *)
Definition MicError_display (e : MicError) : string :=
  match e with
  | MIC_Rejected msg => "mic policy rejected: " ++ msg
  | MIC_Persist _ => "persist mic policy: "
  end.

(** The daemon's callback ([daemon/main_body.rs]); [launch] is the path of the
    launch TOML. *)
Definition reload_callback (mock_audio : bool) (launch : path) (cfg : Config) : C ConfigValidationError unit :=
  _ ← (if mock_audio then mret tt
       else r ← tries (try_set_policy_no_persist (cfg_mic cfg));
            match r with
            | Ok _ => mret tt
            | Err e =>
                fails (Callback (MicError_display e ++ "; edit the policy in " ++ display p ++
                  " to match the catalogue, OR add the missing candidate to " ++ display launch ++
                  " and restart the daemon"))
            end);
  sets (with_inference (cfg_inference cfg)).

(** ** The routes ([api/routes/mic.rs], [api/routes/inference.rs]) *)

Context `{U : UuidLib}.

(** [spawn_blocking(..).await??]: a panic is a failed join. *)
Definition spawn_blocking {A} (m : C ApiError A) : C ApiError A :=
  r ← catch_unwind m;
  match r with Some (Ok a) => mret a | Some (Err e) => fails e | None => fails API_Join end.

(** [check_min_version] ([api.rs]). *)
Definition check_min_version (current : ResourceVersion) (requested : option Z) : result ApiError unit :=
  match requested with
  | Some n => if (current <? n)%Z then Err (API_TooEarly n current) else Ok tt
  | None => Ok tt
  end.

Record MicResp := mkMicResp { resp_catalogue : MicCatalogue; resp_policy : MicPolicy; resp_version : Z }.

Definition get_mic (min_version : option Z) : C ApiError MicResp :=
  live ← gets (λ s, snapshot_with_version (p_mic s));
  _ ← lift_result (check_min_version (snd live) min_version);
  mret (mkMicResp (catalogue (fst live)) (policy (fst live)) (snd live)).

Definition post_mic_policy (new_policy : MicPolicy) : C ApiError MicResp :=
  receipt ← spawn_blocking (map_fails API_Mic (try_set_policy new_policy));
  cat ← gets (λ s, catalogue (snapshot (p_mic s)));
  mret (mkMicResp cat new_policy (receipt_version receipt)).

(** [req.hop_samples.unwrap_or(..)], [req.top_k.unwrap_or(..)]. *)
Record SetInferenceReq := mkSetInferenceReq { req_hop : option Z; req_top_k : option Z }.

Definition merge (req : SetInferenceReq) (current : InferenceCfg) : InferenceCfg :=
  mkInferenceCfg (default (hop_samples current) (req_hop req)) (default (top_k current) (req_top_k req)).

Definition get_inference : C ApiError InferenceCfg := gets p_inference.

Definition post_inference (req : SetInferenceReq) : C ApiError InferenceCfg :=
  current ← gets p_inference;
  _ ← lift_result (map_err API_Bad (InferenceCfg_validate (merge req current)));
  c ← map_fails API_Config open_mutation;
  let next := merge req (cfg_inference c) in
  _ ← map_fails API_Config (commit (set_inference next c) (λ c, sets (with_inference (cfg_inference c))));
  mret next.
End Cell.
