(* ===== verification/ConfigFacts.v ===== *)
(** * What a configuration change leaves behind

    The crash contract of the TOML writer, the outcomes of the handlers one by
    one, and the boot that follows a power loss. *)

From S2P Require Import Prelude Ids Common Text FileSystem FsLogic FsAtomic FsRun VersionedSwap MicTypes ApiErrors Config ConfigCell.

(** ** The writer *)

Section Writer.
Context `{TL : TempLaws} {A : Type} `{!Toml A}.

Definition new_file (cfg : A) : list (option node) :=
  match to_string_pretty cfg with Some text => [Some (File text true)] | None => [] end.

(** The file holds one of [old], or also the new text. *)
Definition toml_held (p : path) (old : list (option node)) (new : list (option node)) (d : Disk) : Prop :=
  no_moves d ∧ facts (held (Some old) new p) d.

Lemma toml_held_weaken p old new d : toml_held p old [] d → toml_held p old new d.
Proof. intros [H1 H2]. split; [done|]. eapply held_weaken; [|exact H2]. set_solver. Qed.

Lemma create_parent_triple (p : path) old :
  p ≠ [] →
  triple (toml_held p old []) (create_dir_all (parent p)) (λ _, toml_held p old []) (toml_held p old []) (toml_held p old []).
Proof.
  intros Hp. unfold create_dir_all. apply mkdir_triple with (S := λ q, q ≠ p).
  - apply stable_and; [apply no_moves_stable|]. apply held_stable. by intros Hne.
  - intros d q _ Hq Hpre. left. intros ->. destruct (path_snoc p Hp) as [name Hn]. cbn in Hpre.
    apply prefix_length in Hpre. rewrite Hn, parent_app, length_app in Hpre. cbn in Hpre. lia.
Qed.

Lemma write_toml_triple (p : path) (cfg : A) old :
  p ≠ [] → not_temp p →
  triple (toml_held p old []) (write_toml_atomically p cfg)
    (λ _ d, no_moves d ∧ ∃ text, to_string_pretty cfg = Some text ∧ definite d p (Some (File text true)))
    (toml_held p old (new_file cfg)) (toml_held p old (new_file cfg)).
Proof.
  intros Hp Hnt. unfold write_toml_atomically, new_file.
  destruct (to_string_pretty cfg) as [text|] eqn:Et; [|by apply triple_throw].
  eapply triple_bind with (R := λ _, toml_held p old []).
  { intros w Hw. unfold path_exists. exact Hw. }
  intros there. eapply triple_bind with (R := λ _, toml_held p old []).
  - destruct there; [by apply triple_ret|]. apply triple_map_throw.
    eapply triple_conseq; [by apply create_parent_triple|..]; eauto using toml_held_weaken.
  - intros _. apply triple_map_throw.
    eapply triple_conseq; [apply (put_atomic_triple (λ _, True) (Some old) p text Hp Hnt)|..].
    + split; auto.
    + intros d [H1 H2]. done.
    + intros ? d (_ & H1 & H2). eauto.
    + intros d (_ & H1 & H2). done.
    + intros d (_ & H1 & H2). done.
Qed.
End Writer.

(** ** The handlers, unfolded *)

Section Handlers.
Context `{T : TempLib} `{Toml_c : Toml Config} `{U : UuidLib}.
Variable p : path.
Variable cat : MicCatalogue.

(** What the API can change. *)
Inductive Call : Type :=
  | SetPolicy (policy : MicPolicy)
  | SetInference (req : SetInferenceReq).

Definition api (call : Call) : C ApiError unit :=
  match call with
  | SetPolicy policy => _ ← post_mic_policy p cat policy; mret tt
  | SetInference req => _ ← post_inference p req; mret tt
  end.

Definition applied (call : Call) (c : Config) : Config :=
  match call with
  | SetPolicy policy => set_mic policy c
  | SetInference req => set_inference (merge req (cfg_inference c)) c
  end.

(** The three cells hold one valid configuration. *)
Record in_sync (s : Proc) (c : Config) : Prop := {
  sync_inner : p_inner s = c;
  sync_mic : snapshot (p_mic s) = mkMicSettings cat (cfg_mic c);
  sync_inference : p_inference s = cfg_inference c;
  sync_valid : Config_validate c = Ok tt;
  sync_policy : MicPolicy_validate_against (cfg_mic c) cat = Ok tt;
}.

Definition idle (s : Proc) : Prop := p_locked s = false ∧ p_in_mutate s = false.

(** The mic cell after one more store. *)
Definition restocked (policy : MicPolicy) (m : VersionedSwap MicSettings) : VersionedSwap MicSettings :=
  mkVersionedSwap (mkVersioned (next_stamp (vs_counter m)) (mkMicSettings cat policy)) (next_stamp (vs_counter m)).

(** The live cells after a committed call. *)
Definition committed (call : Call) (w : World) (s : Proc) : Proc :=
  let c := applied call (p_inner s) in
  match call with
  | SetPolicy policy => with_mic (restocked policy (p_mic s)) (with_inner c (with_world w s))
  | SetInference _ => with_inference (cfg_inference c) (with_inner c (with_world w s))
  end.

(** What is refused before the file is touched. *)
Definition refused (call : Call) (s : Proc) : option ApiError :=
  match call with
  | SetPolicy policy =>
      match check_policy p cat policy with
      | Err e => Some (API_Mic e)
      | Ok _ =>
          match Config_validate (applied call (p_inner s)) with
          | Err e => Some (API_Mic (MIC_Persist (CFG_Invalid (display p) (ConfigValidationError_display e))))
          | Ok _ => None
          end
      end
  | SetInference req =>
      match InferenceCfg_validate (merge req (p_inference s)) with
      | Err e => Some (API_Bad e)
      | Ok _ =>
          match Config_validate (applied call (p_inner s)) with
          | Err e => Some (API_Config (CFG_Invalid (display p) (ConfigValidationError_display e)))
          | Ok _ => None
          end
      end
  end.

Definition api_failure (call : Call) (e : ConfigError) : ApiError :=
  match call with SetPolicy _ => API_Mic (MIC_Persist e) | SetInference _ => API_Config e end.

Lemma persist_then_store_unfold {B} (cfg : Config) (after : Config → hook B) (s : Proc) :
  persist_then_store p cfg after s =
  match Config_validate cfg with
  | Err e => (s, Fails (CFG_Invalid (display p) (ConfigValidationError_display e)))
  | Ok _ =>
      match write_toml_atomically p cfg (p_world s) with
      | (w, Ret _) => run_hook (after cfg) (with_inner cfg (with_world w s))
      | (w, Throw e) => (with_world w s, Fails e)
      | (w, Crash) => (with_world w s, PowerLoss)
      end
  end.
Proof.
  unfold persist_then_store, mbind, C_bind. destruct (Config_validate cfg) as [[]|e]; [|done].
  cbn [map_err lift_result]. unfold mret, C_ret, io. by destruct (write_toml_atomically p cfg (p_world s)) as [w [[]|e|]].
Qed.

Lemma api_unfold (call : Call) (s : Proc) : idle s →
  api call s =
  match refused call s with
  | Some e => (s, Fails e)
  | None =>
      match write_toml_atomically p (applied call (p_inner s)) (p_world s) with
      | (w, Ret _) => (committed call w s, Done tt)
      | (w, Throw e) => (with_world w s, Fails (api_failure call e))
      | (w, Crash) => (with_flags true true (with_world w s), PowerLoss)
      end
  end.
Proof.
  destruct s as [w inner n mic inf lk im]. intros [Hl Hm]. cbn in Hl, Hm. subst lk im. destruct call as [policy|req].
  - unfold api, post_mic_policy, spawn_blocking, catch_unwind, try_set_policy, map_fails, mbind, C_bind, refused.
    cbn [p_world p_inner]. destruct (check_policy p cat policy) as [[]|e]; [|done].
    cbn [lift_result mret C_ret]. unfold mutate_then. cbn [p_in_mutate]. unfold with_lock, dropping, gets, mbind, C_bind.
    cbn [p_locked with_flags p_inner p_world p_reloads p_mic p_inference p_in_mutate applied]. rewrite !persist_then_store_unfold.
    destruct (Config_validate (set_mic policy inner)) as [[]|e]; [|done]. cbn [p_world with_flags].
    by destruct (write_toml_atomically p (set_mic policy inner) w) as [w' [[]|e|]].
  - unfold api, post_inference, gets, refused, mbind, C_bind. cbn [p_inference p_inner p_world applied].
    destruct (InferenceCfg_validate (merge req inf)) as [[]|e]; [|done].
    cbn [map_err lift_result mret C_ret]. unfold map_fails, open_mutation, commit, dropping.
    cbn [p_locked with_flags p_inner p_world p_reloads p_mic p_inference p_in_mutate]. rewrite !persist_then_store_unfold.
    destruct (Config_validate (set_inference (merge req (cfg_inference inner)) inner)) as [[]|e]; [|done]. cbn [p_world with_flags].
    by destruct (write_toml_atomically p _ w) as [w' [[]|e|]].
Qed.
End Handlers.

(** ** The boot after a crash *)

Section Boot.
Context `{TL : TempLaws} `{Toml_c : Toml Config} `{TC : !TomlLaws Config} `{U : UuidLib}.
Variable p : path.
Variable cat : MicCatalogue.

(** The next start reads [img] and gets [c]. *)
Definition boots (img : fs) (c : Config) : Prop := snd (ConfigCell_load p (calm (mkDisk img []))) = Ret c.

(** A file whose text is [c]. *)
Definition holds_config (n : option node) (c : Config) : Prop :=
  ∃ text, n = Some (File text true) ∧ utf8_ok text = true ∧ from_str text = Some c.

Lemma fs_read_calm (d : Disk) :
  fs_read p (calm d) =
  (calm d, match visible d !! p with Some (File c _) => Ret c | None => Throw IoNotFound | _ => Throw IoOther end).
Proof. unfold fs_read, syscall, stat. cbn -[lookup]. by destruct (visible d !! p) as [[| |]|]. Qed.

Lemma boots_file (img : fs) (n : option node) (c : Config) :
  img !! p = n → holds_config n c → Config_validate c = Ok tt → boots img c.
Proof.
  intros Hp (text & -> & Hu & Hf) Hv. unfold boots, ConfigCell_load, fs_read_to_string, map_throw, mbind, M_bind.
  rewrite fs_read_calm. change (visible (mkDisk img [])) with img. rewrite Hp, Hu. cbn [mret M_ret]. rewrite Hf, Hv. done.
Qed.

Lemma holds_written (c : Config) text :
  to_string_pretty c = Some text → holds_config (Some (File text true)) c.
Proof.
  intros H. exists text. split; [done|]. split; [by eapply utf8_valid_ok, toml_text|by apply toml_back].
Qed.

(** [config.toml] durably holds [c]. *)
Definition on_disk (c : Config) (d : Disk) : Prop :=
  no_moves d ∧ ∃ n, holds_config n c ∧ definite d p n.

Lemma on_disk_boots (c : Config) (d : Disk) (img : fs) :
  on_disk c d → Config_validate c = Ok tt → crash_image d img → boots img c.
Proof.
  intros (_ & n & Hn & Hd) Hv Hi. apply (boots_file img n); [|done|done].
  eapply definite_crash; [exact Hd|by destruct Hn as (? & -> & _)|done].
Qed.

Lemma toml_held_boots (old c : Config) (n : option node) (d : Disk) (img : fs) :
  holds_config n old → toml_held p [n] (new_file c) d → crash_image d img →
  Config_validate old = Ok tt → Config_validate c = Ok tt → boots img old ∨ boots img c.
Proof.
  intros Hn [_ Hd] Hi Hvo Hvc. cbn [held] in Hd. apply facts_one in Hd. unfold new_file in Hd.
  destruct (to_string_pretty c) as [text|] eqn:E.
  - apply (among_crash _ _ _ img) in Hd; [|by destruct Hn as (? & -> & _)|done].
    apply elem_of_cons in Hd as [Hd|Hd%list_elem_of_singleton].
    + right. eapply boots_file; [exact Hd|by apply holds_written|done].
    + left. by eapply boots_file.
  - apply (among_crash _ _ _ img) in Hd; [|by destruct Hn as (? & -> & _)|done].
    apply list_elem_of_singleton in Hd. left. by eapply boots_file.
Qed.

Lemma refused_valid (call : Call) (s : Proc) (c : Config) :
  in_sync cat s c → refused p cat call s = None →
  Config_validate (applied call c) = Ok tt ∧ MicPolicy_validate_against (cfg_mic (applied call c)) cat = Ok tt.
Proof.
  intros [Hi Hm Hinf Hv Hpol]. subst c. destruct call as [policy|req]; cbn [refused applied].
  - unfold check_policy. destruct (validate_policy_against_catalogue policy cat (display p)) as [[]|e] eqn:E; [|done].
    cbn [map_err]. destruct (Config_validate (set_mic policy (p_inner s))) as [[]|e]; [|done]. intros _.
    split; [done|]. by apply validate_policy_Ok in E.
  - destruct (InferenceCfg_validate _) as [[]|e]; [|done].
    destruct (Config_validate (set_inference _ _)) as [[]|e] eqn:E; [|done]. intros _. by split.
Qed.

(** C26: A change made through the API is durable before it is live, and a power
    cut never costs more than that change.  Whatever the call (a microphone
    policy or a partial inference cadence), the I/O errors and the system call
    the power loss cuts, starting from a daemon whose three live cells hold the
    configuration of [config.toml]: an answered call has put the changed, valid
    configuration in all three cells and on disk, so that every later crash boots
    it; a failed one leaves the three cells as they were; every crash on the way
    boots the old or the changed configuration, never a torn or unreadable file;
    and no call panics or blocks. *)
Theorem api_change_durable (c : Config) (call : Call) (s : Proc) :
  p ≠ [] → not_temp p → on_disk c (disk (p_world s)) → in_sync cat s c → idle s →
  let '(s', r) := api p cat call s in
  (∀ img, crash_image (disk (p_world s')) img → boots img c ∨ boots img (applied call c)) ∧
  match r with
  | Done _ => in_sync cat s' (applied call c) ∧ idle s' ∧ on_disk (applied call c) (disk (p_world s')) ∧
      ∀ img, crash_image (disk (p_world s')) img → boots img (applied call c)
  | Fails _ => in_sync cat s' c ∧ idle s' ∧ p_mic s' = p_mic s
  | PowerLoss => True
  | Panics | Blocks => False
  end.
Proof.
  intros Hp Hnt Hd Hs Hidle. rewrite api_unfold by done.
  destruct (refused p cat call s) as [e|] eqn:Er.
  { split; [|done]. intros img Hi. left. eapply on_disk_boots; [done|apply Hs|done]. }
  destruct (refused_valid call s c Hs Er) as [Hv Hpol]. pose proof Hs as [Hin Hm Hinf Hvc _]. rewrite Hin.
  destruct Hd as (Hnm & n & Hn & Hdef).
  pose proof (write_toml_triple p (applied call c) [n] Hp Hnt (p_world s)) as Hw.
  specialize (Hw ltac:(split; [done|]; cbn [held]; by apply facts_one)).
  destruct (write_toml_atomically p (applied call c) (p_world s)) as [w [[]|e|]].
  - destruct Hw as (Hnm' & text & Ht & Hdef').
    assert (Hboth : p_world (committed cat call w s) = w) by (by destruct call). rewrite Hboth.
    assert (Hod : on_disk (applied call c) (disk w)) by (split; [done|]; eexists; split; [by apply holds_written|done]).
    split; [intros img Hi; right; by eapply on_disk_boots|]. split_and!; [|by destruct call|done|].
    + destruct call; cbn [committed]; split; cbn; rewrite ?Hin; done.
    + intros img Hi. by eapply on_disk_boots.
  - split; [intros img Hi; exact (toml_held_boots c _ n _ img Hn Hw Hi Hvc Hv)|]. split_and!; [|done|done]. by destruct Hs.
  - split; [|done]. intros img Hi. exact (toml_held_boots c _ n _ img Hn Hw Hi Hvc Hv).
Qed.
End Boot.

(** ** Reload *)

Section Reload.
Context `{T : TempLib} `{Toml_c : Toml Config}.
Variable p : path.
Variable cat : MicCatalogue.

(** The configuration in the file, if the daemon can take it. *)
Definition acceptable (d : Disk) : option Config :=
  match visible d !! p with
  | Some (File text _) =>
      if utf8_ok text then
        c ← from_str text;
        if is_ok (Config_validate c) && is_ok (MicPolicy_validate_against (cfg_mic c) cat) then Some c else None
      else None
  | _ => None
  end.

Lemma reload_callback_unfold (launch : path) (c : Config) (s : Proc) :
  reload_callback p cat false launch c s =
  match check_policy p cat (cfg_mic c) with
  | Ok _ => (with_inference (cfg_inference c) (with_mic (restocked cat (cfg_mic c) (p_mic s)) s), Done tt)
  | Err e =>
      (s, Fails (Callback (MicError_display e ++ "; edit the policy in " ++ display p ++
                  " to match the catalogue, OR add the missing candidate to " ++ display launch ++
                  " and restart the daemon")))
  end.
Proof.
  unfold reload_callback, try_set_policy_no_persist, tries, mbind, C_bind.
  by destruct (check_policy p cat (cfg_mic c)) as [[]|e].
Qed.

Lemma check_policy_ok (q : MicPolicy) : is_ok (check_policy p cat q) = is_ok (MicPolicy_validate_against q cat).
Proof.
  unfold check_policy, validate_policy_against_catalogue. by destruct (MicPolicy_validate_against q cat) as [[]|e].
Qed.

(** A reload is all or nothing.  After an operator's edit, whatever the file
    now holds, one undisturbed reload returns with the lock released, and the
    [Config] snapshot, the microphone settings and the inference cadence hold
    together the file's configuration if it is a readable, parsing, valid one
    whose policy the launch catalogue can satisfy, and otherwise all three still
    hold the previous one; the file is not touched, and [reload_count] counts
    exactly the reloads that changed something. *)
Theorem reload_all_or_nothing (launch : path) (c : Config) (d : Disk) (s : Proc) :
  p_world s = calm d → idle s → in_sync cat s c →
  let '(s', r) := try_reload p (reload_callback p cat false launch) s in
  let c' := default c (acceptable d) in
  (∃ log, r = Done log ∧ (log = Reloaded ↔ c' ≠ c)) ∧ in_sync cat s' c' ∧ idle s' ∧ p_world s' = calm d ∧
  p_reloads s' = if bool_decide (c' = c) then p_reloads s else wrap_add64 (p_reloads s) 1.
Proof.
  destruct s as [w inner n mic inf lk im]. intros Hw [Hl Hi] Hs. cbn in Hw, Hl, Hi. subst w lk im.
  pose proof Hs as [Hin Hm Hinf Hv Hpol]. cbn in Hin, Hm, Hinf. subst inner inf.
  unfold try_reload, with_lock. cbn [p_locked with_flags]. unfold dropping, tries, io, fs_read_to_string, mbind, C_bind, M_bind.
  cbn [p_world with_flags]. rewrite fs_read_calm.
  assert (Hkeep : ∀ acc log, acc = None ∨ acc = Some c → log ≠ Reloaded →
    let c' := default c acc in
    (∃ log', Done (E := Empty_set) log = Done log' ∧ (log' = Reloaded ↔ c' ≠ c)) ∧
    in_sync cat (mkProc (calm d) c n mic (cfg_inference c) false false) c' ∧
    idle (mkProc (calm d) c n mic (cfg_inference c) false false) ∧ calm d = calm d ∧
    n = if bool_decide (c' = c) then n else wrap_add64 n 1).
  { intros acc log Ha Hlog. assert (Hd : default c acc = c) by (by destruct Ha as [-> | ->]).
    cbn zeta. rewrite Hd, bool_decide_eq_true_2 by done. split_and!; try done. by exists log. }
  unfold acceptable. destruct (visible d !! p) as [[text b| |]|]; try (apply Hkeep; [by left|done]).
  destruct (utf8_ok text); [|apply Hkeep; [by left|done]]. cbn [mret M_ret option_bind mbind].
  destruct (from_str text) as [c1|]; [|apply Hkeep; [by left|done]]. cbn [option_bind mbind].
  destruct (Config_validate c1) as [[]|e] eqn:Hv1; [|apply Hkeep; [by left|done]]. cbn [is_ok andb].
  unfold gets. cbn [p_inner with_world with_flags].
  case_bool_decide as Hc.
  { subst c1. apply Hkeep; [|done]. rewrite Hpol. by right. }
  unfold catch_unwind. rewrite reload_callback_unfold. pose proof (check_policy_ok (cfg_mic c1)) as Hck.
  destruct (check_policy p cat (cfg_mic c1)) as [[]|e]; cbn [is_ok] in Hck; rewrite <-Hck;
    [|apply Hkeep; [by left|done]].
  cbn. rewrite bool_decide_eq_false_2 by done. split_and!; try done.
  - exists Reloaded. naive_solver.
  - destruct (MicPolicy_validate_against (cfg_mic c1) cat) as [[]|e] eqn:Hp1; [|done]. by split.
Qed.
End Reload.

(** ** A concrete TOML: the bits of a value's code *)

#[export] Instance MicId_countable : Countable MicId.
Proof. apply (inj_countable' mic_id_str mkMicId). by intros []. Defined.
#[export] Instance MicSelection_countable : Countable MicSelection.
Proof.
  apply (inj_countable' (λ s, match s with FirstAvailable => None | FixedMic id => Some id end)
    (λ o, match o with None => FirstAvailable | Some id => FixedMic id end)). by intros [].
Defined.
#[export] Instance ChannelSelection_countable : Countable ChannelSelection.
Proof.
  apply (inj_countable' (λ s, match s with Auto => None | FixedChannel c => Some c end)
    (λ o, match o with None => Auto | Some c => FixedChannel c end)). by intros [].
Defined.
#[export] Instance MicPolicy_countable : Countable MicPolicy.
Proof. apply (inj_countable' (λ q, (policy_mic q, policy_channel q)) (λ x, mkMicPolicy x.1 x.2)). by intros []. Defined.
#[export] Instance InferenceCfg_countable : Countable InferenceCfg.
Proof. apply (inj_countable' (λ i, (hop_samples i, top_k i)) (λ x, mkInferenceCfg x.1 x.2)). by intros []. Defined.
#[export] Instance Config_countable : Countable Config.
Proof. apply (inj_countable' (λ c, (cfg_mic c, cfg_inference c)) (λ x, mkConfig x.1 x.2)). by intros []. Defined.

Definition bits_toml (A : Type) `{Countable A} : Toml A := {|
  to_string_pretty a := Some (bits (encode a));
  from_str b := x ← unbits b; decode x;
|}.

Lemma bits_ascii (x : positive) : forallb (λ b, byte_val b <? 128)%Z (bits x) = true.
Proof. induction x as [x IH|x IH|]; cbn; by rewrite ?IH. Qed.

Lemma bits_toml_laws (A : Type) `{Countable A} : @TomlLaws A (bits_toml A).
Proof.
  split; intros a t [= <-]; [apply utf8_valid_ascii, bits_ascii|].
  cbn. rewrite unbits_bits. cbn. apply decode_encode.
Qed.

(** ** Scenarios *)

Section Scenarios.
Local Existing Instance text_uuid_lib.
Let toml : Toml Config := bits_toml Config.
Let lib : TempLib := long_temp_lib.
Local Existing Instance toml.
Local Existing Instance lib.

Definition cf_path : path := ["config.toml"%string].
Definition cf_text (c : Config) : list ascii := bits (encode c).
Definition cf_disk (c : Config) : Disk := mkDisk {[ [] := Dir; cf_path := File (cf_text c) true ]} [].
Definition cf_proc (c : Config) (budget : option nat) (faults : list bool) : Proc :=
  mkProc (mkWorld (cf_disk c) budget faults) c 0%Z
    (VersionedSwap_new (mkMicSettings (mkMicCatalogue []) (cfg_mic c))) (cfg_inference c) false false.

Definition cf_call : Call := SetInference (mkSetInferenceReq None (Some 5%Z)).
Definition cf_new : Config := applied cf_call Config_default_for.

Lemma cf_not_temp : not_temp cf_path.
Proof. by apply (not_temp_snoc []). Qed.

Lemma cf_on_disk (c : Config) : on_disk cf_path c (cf_disk c).
Proof.
  split; [by constructor|]. exists (Some (File (cf_text c) true)). split.
  - exists (cf_text c). split_and!; [done| |].
    + apply utf8_valid_ok, utf8_valid_ascii, bits_ascii.
    + by apply (@toml_back Config toml (bits_toml_laws Config)).
  - split; [|constructor]. cbn [durable cf_disk]. by apply list_elem_of_singleton.
Qed.

(** The cadence of a fresh install is changed; the parent directory's sync is the
    last of the five calls. *)
Lemma api_change_durable_witness :
  let '(s', r) := api cf_path (mkMicCatalogue []) cf_call (cf_proc Config_default_for None []) in
  r = Done tt ∧ p_inner s' = cf_new ∧
  ∀ img, crash_image (disk (p_world s')) img → boots cf_path img cf_new.
Proof.
  pose proof (api_change_durable (TL := long_temp_laws) (TC := bits_toml_laws Config) cf_path (mkMicCatalogue [])
    Config_default_for cf_call (cf_proc Config_default_for None [])) as H.
  assert (Hr : snd (api cf_path (mkMicCatalogue []) cf_call (cf_proc Config_default_for None [])) = Done tt)
    by (vm_compute; reflexivity).
  destruct (api cf_path _ _ _) as [s' r]. cbn in Hr. subst r. split; [done|].
  destruct H as [_ (Hs & _ & _ & Hb)].
  - done.
  - apply cf_not_temp.
  - apply cf_on_disk.
  - by split.
  - by split.
  - split; [apply (sync_inner _ _ _ Hs)|exact Hb].
Defined.

(** The operator has edited the cadence in the file. *)
Lemma reload_all_or_nothing_witness :
  let s := mkProc (calm (cf_disk cf_new)) Config_default_for 0%Z
             (VersionedSwap_new (mkMicSettings (mkMicCatalogue []) default_policy)) default_inference false false in
  acceptable cf_path (mkMicCatalogue []) (cf_disk cf_new) = Some cf_new ∧
  in_sync (mkMicCatalogue [])
    (fst (try_reload cf_path (reload_callback cf_path (mkMicCatalogue []) false ["launch.toml"%string]) s)) cf_new.
Proof.
  cbv zeta. set (s := mkProc _ _ _ _ _ _ _). split; [vm_compute; reflexivity|].
  pose proof (reload_all_or_nothing cf_path (mkMicCatalogue []) ["launch.toml"%string] Config_default_for (cf_disk cf_new) s) as H.
  assert (Ha : acceptable cf_path (mkMicCatalogue []) (cf_disk cf_new) = Some cf_new) by (vm_compute; reflexivity).
  rewrite Ha in H. destruct (try_reload _ _ s) as [s' r]. apply H.
  - reflexivity.
  - by split.
  - by split.
Defined.

(** A change that failed may still be the one that survives: when only the sync
    of the directory fails, the caller gets an error and the live cells keep the
    old configuration, while [config.toml] already is the new one (so the next
    reload or boot takes it). *)
Lemma failed_change_survives :
  let '(s', r) := api cf_path (mkMicCatalogue []) cf_call
                    (cf_proc Config_default_for None [false; false; false; false; true]) in
  r = Fails (API_Config (CFG_Write "")) ∧ p_inner s' = Config_default_for ∧
  visible (disk (p_world s')) !! cf_path = Some (File (cf_text cf_new) true).
Proof. vm_compute. split_and!; reflexivity. Qed.

(** A hook that mutates again is refused, and the outer call is not disturbed; the
    same mutation made by a reload callback waits for ever, because the reload
    holds the lock without setting the flag. *)
Lemma reentry_refused :
  let again : hook (result ConfigError unit) := tries (mutate cf_path (set_mic (mkMicPolicy FirstAvailable (FixedChannel 1)))) in
  let '(s', r) := mutate_then cf_path (λ c, (set_inference (mkInferenceCfg 22050 5) c, tt)) (λ _, again)
                    (cf_proc Config_default_for None []) in
  r = Done (tt, Err CFG_ReentrantMutate) ∧ p_inner s' = set_inference (mkInferenceCfg 22050 5) Config_default_for ∧
  idle s'.
Proof. vm_compute. split_and!; reflexivity. Qed.

Lemma reload_callback_blocks :
  let cb := λ c : Config, map_fails (λ _ : ConfigError, Callback "") (mutate cf_path (λ _, c)) in
  snd (try_reload cf_path cb (with_inner cf_new (cf_proc Config_default_for None []))) = Blocks.
Proof. vm_compute. reflexivity. Qed.
End Scenarios.
