(* ===== verification/ConfigRuns.v ===== *)
(** * Concurrent changes of the configuration

    API calls, reloads, operators editing the file and readers, line by line in
    any order.  A thread runs one call at a time, so [IN_MUTATE] never refuses it
    here ([ConfigFacts.reentry_refused] is the other case).  Each step is one
    access to a shared object; [try_mutate] of the microphone cell is one store
    by [VersionedSwap.versioned_swap_linearizable].  An edit may happen between
    any two steps and leave any disk; the write of a file is one step because
    an editor's change that falls inside it acts as one before or after its
    rename. *)

From stdpp Require Import functions.
From S2P Require Import Prelude Ids Common Text FileSystem FsAtomic VersionedSwap MicTypes ApiErrors Config ConfigCell ConfigFacts.

Section Runs.
Context `{T : TempLib} `{Toml_c : Toml Config} `{U : UuidLib}.
Variable p : path.
Variable cat : MicCatalogue.
Variable launch : path.

(** ** Threads *)

Inductive Job : Type := JApi (call : Call) | JReload.

Inductive pc : Type :=
  | Outside
  | AtLock (job : Job)                       (** checked, waiting for [mutate_lock] *)
  | AtSnapshot (call : Call)                 (** lock taken *)
  | AtWrite (call : Call) (cfg : Config)     (** edited and validated *)
  | AtStore (call : Call) (cfg : Config)     (** persisted *)
  | AtHook (call : Call) (cfg : Config)      (** [inner] stored *)
  | AtRead                                   (** the reload has the lock *)
  | AtCompare (cfg : Config)                 (** read, parsed, validated *)
  | AtPolicy (cfg : Config)                  (** differs from [inner] *)
  | AtInference (cfg : Config)               (** microphone settings stored *)
  | AtInner (cfg : Config)                   (** inference cadence stored *)
  | AtUnlock (ok : bool).

Record Shared := mkShared { proc : Proc; holder : option nat; pcs : nat → pc }.

Inductive Event : Type :=
  | SeenConfig (t : nat) (c : Config)
  | SeenMic (t : nat) (m : MicSettings)
  | SeenInference (t : nat) (i : InferenceCfg)
  | Refused (t : nat)                        (** before the lock *)
  | Commit (t : nat) (job : Job) (c : Config)
  | Return (t : nat) (ok : bool).

Definition goto (t : nat) (q : pc) (s : Shared) : Shared := mkShared (proc s) (holder s) (<[t := q]> (pcs s)).
Definition upd (t : nat) (x : Proc) (q : pc) (s : Shared) : Shared := mkShared x (holder s) (<[t := q]> (pcs s)).

(** What an API call checks before it takes the lock. *)
Definition precheck (call : Call) (s : Proc) : bool :=
  match call with
  | SetPolicy policy => is_ok (check_policy p cat policy)
  | SetInference req => is_ok (InferenceCfg_validate (merge req (p_inference s)))
  end.

(** The hook of a call. *)
Definition hook_store (call : Call) (cfg : Config) (s : Proc) : Proc :=
  match call with
  | SetPolicy policy => with_mic (restocked cat policy (p_mic s)) s
  | SetInference _ => with_inference (cfg_inference cfg) s
  end.

(** Read, parse, validate. *)
Definition reload_read (w : World) : option Config :=
  match fs_read_to_string p w with
  | (_, Ret text) => c ← from_str text; if is_ok (Config_validate c) then Some c else None
  | _ => None
  end.

Inductive step : Shared → list Event → Shared → Prop :=
  | StepCall s t call :
      pcs s t = Outside → precheck call (proc s) = true → step s [] (goto t (AtLock (JApi call)) s)
  | StepRefuse s t call :
      pcs s t = Outside → precheck call (proc s) = false → step s [Refused t] s
  | StepKick s t : pcs s t = Outside → step s [] (goto t (AtLock JReload) s)
  | StepLock s t job :
      pcs s t = AtLock job → holder s = None →
      step s [] (mkShared (proc s) (Some t)
        (<[t := match job with JApi call => AtSnapshot call | JReload => AtRead end]> (pcs s)))
  | StepSnapshot s t call :
      pcs s t = AtSnapshot call →
      let cfg := applied call (p_inner (proc s)) in
      step s [] (goto t (if is_ok (Config_validate cfg) then AtWrite call cfg else AtUnlock false) s)
  | StepWriteOk s t call cfg w :
      pcs s t = AtWrite call cfg → write_toml_atomically p cfg (p_world (proc s)) = (w, Ret tt) →
      step s [] (upd t (with_world w (proc s)) (AtStore call cfg) s)
  | StepWriteErr s t call cfg w e :
      pcs s t = AtWrite call cfg → write_toml_atomically p cfg (p_world (proc s)) = (w, Throw e) →
      step s [] (upd t (with_world w (proc s)) (AtUnlock false) s)
  | StepStore s t call cfg :
      pcs s t = AtStore call cfg →
      step s [Commit t (JApi call) cfg] (upd t (with_inner cfg (proc s)) (AtHook call cfg) s)
  | StepHook s t call cfg :
      pcs s t = AtHook call cfg → step s [] (upd t (hook_store call cfg (proc s)) (AtUnlock true) s)
  | StepRead s t w r :
      pcs s t = AtRead → fs_read_to_string p (p_world (proc s)) = (w, r) → r ≠ Crash →
      step s [] (upd t (with_world w (proc s))
        (match reload_read (p_world (proc s)) with Some c => AtCompare c | None => AtUnlock false end) s)
  | StepCompare s t cfg :
      pcs s t = AtCompare cfg →
      step s [] (goto t (if bool_decide (p_inner (proc s) = cfg) then AtUnlock false else AtPolicy cfg) s)
  | StepPolicyOk s t cfg :
      pcs s t = AtPolicy cfg → is_ok (check_policy p cat (cfg_mic cfg)) = true →
      step s [Commit t JReload cfg]
        (upd t (with_mic (restocked cat (cfg_mic cfg) (p_mic (proc s))) (proc s)) (AtInference cfg) s)
  | StepPolicyErr s t cfg :
      pcs s t = AtPolicy cfg → is_ok (check_policy p cat (cfg_mic cfg)) = false →
      step s [] (goto t (AtUnlock false) s)
  | StepInference s t cfg :
      pcs s t = AtInference cfg →
      step s [] (upd t (with_inference (cfg_inference cfg) (proc s)) (AtInner cfg) s)
  | StepInner s t cfg :
      pcs s t = AtInner cfg →
      step s [] (upd t (with_reloads (wrap_add64 (p_reloads (proc s)) 1) (with_inner cfg (proc s))) (AtUnlock true) s)
  | StepUnlock s t ok :
      pcs s t = AtUnlock ok → step s [Return t ok] (mkShared (proc s) None (<[t := Outside]> (pcs s)))
  | StepEdit s w : step s [] (mkShared (with_world w (proc s)) (holder s) (pcs s))
  | StepSeeConfig s t : step s [SeenConfig t (p_inner (proc s))] s
  | StepSeeMic s t : step s [SeenMic t (snapshot (p_mic (proc s)))] s
  | StepSeeInference s t : step s [SeenInference t (p_inference (proc s))] s.

Inductive run : Shared → list Event → Shared → Prop :=
  | RunNil s : run s [] s
  | RunCons s tr s' tr' s'' : step s tr s' → run s' tr' s'' → run s (tr ++ tr') s''.

Definition start (x : Proc) : Shared := mkShared x None (λ _, Outside).

(** ** The serial account *)

(** What a commit may turn [cur] into. *)
Definition legal (job : Job) (cur next : Config) : Prop :=
  Config_validate next = Ok tt ∧ MicPolicy_validate_against (cfg_mic next) cat = Ok tt ∧
  match job with JApi call => next = applied call cur | JReload => next ≠ cur end.

(** [cur] is the last committed configuration; until the committing call
    returns, [prev] is the one before, and else [cur]; [op] are the calls that
    have committed and not returned. *)
Fixpoint serial (cur prev : Config) (op : nat → bool) (tr : list Event) : Prop :=
  match tr with
  | [] => True
  | SeenConfig _ c :: tr => (c = cur ∨ c = prev) ∧ serial cur prev op tr
  | SeenMic _ m :: tr =>
      (m = mkMicSettings cat (cfg_mic cur) ∨ m = mkMicSettings cat (cfg_mic prev)) ∧ serial cur prev op tr
  | SeenInference _ i :: tr => (i = cfg_inference cur ∨ i = cfg_inference prev) ∧ serial cur prev op tr
  | Refused _ :: tr => serial cur prev op tr
  | Commit t job c :: tr => prev = cur ∧ (∀ t', op t' = false) ∧ legal job cur c ∧ serial c cur (<[t := true]> op) tr
  | Return t ok :: tr => op t = ok ∧ serial cur cur (<[t := false]> op) tr
  end.

(** The configuration after a trace. *)
Fixpoint latest (cur : Config) (tr : list Event) : Config :=
  match tr with
  | [] => cur
  | Commit _ _ c :: tr => latest c tr
  | _ :: tr => latest cur tr
  end.

(** ** The invariant *)

(** What the thread that holds the lock knows. *)
Definition knows (s : Proc) (cur prev : Config) (o : bool) (q : pc) : Prop :=
  match q with
  | Outside | AtLock _ => False
  | AtSnapshot (SetPolicy policy) =>
      in_sync cat s cur ∧ prev = cur ∧ o = false ∧ MicPolicy_validate_against policy cat = Ok tt
  | AtSnapshot (SetInference _) | AtRead => in_sync cat s cur ∧ prev = cur ∧ o = false
  | AtWrite call cfg | AtStore call cfg => in_sync cat s cur ∧ prev = cur ∧ o = false ∧ legal (JApi call) cur cfg
  | AtHook call cfg =>
      cur = cfg ∧ legal (JApi call) prev cur ∧ o = true ∧ in_sync cat (with_inner prev s) prev ∧ p_inner s = cur
  | AtCompare cfg => in_sync cat s cur ∧ prev = cur ∧ o = false ∧ Config_validate cfg = Ok tt
  | AtPolicy cfg => in_sync cat s cur ∧ prev = cur ∧ o = false ∧ Config_validate cfg = Ok tt ∧ cfg ≠ cur
  | AtInference cfg =>
      cur = cfg ∧ o = true ∧ in_sync cat (with_inference (cfg_inference cur) (with_inner cur s)) cur ∧
      p_inner s = prev ∧ p_inference s = cfg_inference prev
  | AtInner cfg => cur = cfg ∧ o = true ∧ in_sync cat (with_inner cur s) cur ∧ p_inner s = prev
  | AtUnlock ok => in_sync cat s cur ∧ o = ok ∧ (ok = false → prev = cur)
  end.

Definition waits (q : pc) : Prop :=
  match q with
  | Outside | AtLock JReload | AtLock (JApi (SetInference _)) => True
  | AtLock (JApi (SetPolicy policy)) => MicPolicy_validate_against policy cat = Ok tt
  | _ => False
  end.

Definition inv (s : Shared) (cur prev : Config) (op : nat → bool) : Prop :=
  match holder s with
  | None => in_sync cat (proc s) cur ∧ prev = cur ∧ (∀ t, op t = false) ∧ ∀ t, waits (pcs s t)
  | Some t => knows (proc s) cur prev (op t) (pcs s t) ∧ ∀ t', t' ≠ t → op t' = false ∧ waits (pcs s t')
  end.

(** ** Every step keeps it *)

(** The account is advanced by the events of a step. *)
Definition advances (tr : list Event) (cur prev : Config) (op : nat → bool) (cur' prev' : Config) (op' : nat → bool) : Prop :=
  (∀ rest, serial cur' prev' op' rest → serial cur prev op (tr ++ rest)) ∧
  (∀ rest, latest cur (tr ++ rest) = latest cur' rest).

Lemma inv_holder s t cur prev op : inv s cur prev op → ¬ waits (pcs s t) → holder s = Some t ∧ knows (proc s) cur prev (op t) (pcs s t) ∧
  ∀ t', t' ≠ t → op t' = false ∧ waits (pcs s t').
Proof.
  unfold inv. destruct (holder s) as [t0|]; [|naive_solver]. intros [Hk Ho] Hn.
  destruct (decide (t0 = t)) as [->|Hne]; [done|]. destruct Hn. by apply Ho.
Qed.

(** The holder moves on, silently. *)
Lemma inv_move s t x q cur prev op :
  holder s = Some t → knows x cur prev (op t) q → (∀ t', t' ≠ t → op t' = false ∧ waits (pcs s t')) →
  inv (upd t x q s) cur prev op.
Proof.
  intros Hh Hk Ho. unfold inv, upd. cbn. rewrite Hh, fn_lookup_insert. split; [done|].
  intros t' Hne. rewrite fn_lookup_insert_ne by done. by apply Ho.
Qed.

(** A thread outside the lock moves on. *)
Lemma inv_wait s t q cur prev op : inv s cur prev op → waits (pcs s t) → waits q → inv (goto t q s) cur prev op.
Proof.
  unfold inv, goto. cbn. destruct (holder s) as [t0|].
  - intros [Hk Ho] Hw Hq. destruct (decide (t0 = t)) as [->|Hne].
    { exfalso. destruct (pcs s t) as [|[[]|]|[]| | | | | | | | |]; done. }
    rewrite fn_lookup_insert_ne by done. split; [done|]. intros t' Hne'. split; [by apply Ho|].
    destruct (decide (t' = t)) as [->|]; [by rewrite fn_lookup_insert|]. rewrite fn_lookup_insert_ne by done. by apply Ho.
  - intros (H1 & H2 & H3 & H4) Hw Hq. split_and!; try done. intros t'.
    destruct (decide (t' = t)) as [->|]; [by rewrite fn_lookup_insert|]. by rewrite fn_lookup_insert_ne.
Qed.

Lemma advances_silent cur prev op : advances [] cur prev op cur prev op.
Proof. by split. Qed.

(** What a reader may see. *)
Lemma inv_seen s cur prev op : inv s cur prev op →
  (p_inner (proc s) = cur ∨ p_inner (proc s) = prev) ∧
  (snapshot (p_mic (proc s)) = mkMicSettings cat (cfg_mic cur) ∨ snapshot (p_mic (proc s)) = mkMicSettings cat (cfg_mic prev)) ∧
  (p_inference (proc s) = cfg_inference cur ∨ p_inference (proc s) = cfg_inference prev).
Proof.
  unfold inv. destruct (holder s) as [t|].
  - intros [Hk _]. destruct (pcs s t) as [|[]|[]| | |c cfg| | | | | |]; cbn [knows] in Hk; try done;
      first [by destruct Hk as [[H1 H2 H3] _]; auto|idtac].
    + destruct Hk as (_ & _ & _ & [H1 H2 H3] & H4). cbn in *. auto.
    + destruct Hk as (_ & _ & [H1 H2 H3] & H4 & H5). cbn in *. auto.
    + destruct Hk as (_ & _ & [H1 H2 H3] & H4). cbn in *. auto.
  - intros [[H1 H2 H3] _]. auto.
Qed.

Lemma in_sync_world s c w : in_sync cat s c → in_sync cat (with_world w s) c.
Proof. by intros []. Qed.

Lemma knows_world s cur prev o q w : knows s cur prev o q → knows (with_world w s) cur prev o q.
Proof.
  destruct q as [|[]|[]| | |c cfg| | | | | |]; cbn [knows]; try done; try (intros [? ?]; split; [by apply in_sync_world|done]).
  - intros (? & ? & ? & Hs & ?). split_and!; try done. by destruct Hs.
  - intros (? & ? & Hs & ? & ?). split_and!; try done. by destruct Hs.
  - intros (? & ? & Hs & ?). split_and!; try done. by destruct Hs.
Qed.

(** A commit by the holder. *)
Lemma advances_commit t job c cur op :
  op t = false → (∀ t', t' ≠ t → op t' = false) → legal job cur c →
  advances [Commit t job c] cur cur op c cur (<[t := true]> op).
Proof.
  intros Ht Ho Hl. split; [|done]. intros rest H. cbn [app serial]. split_and!; try done.
  intros t'. destruct (decide (t' = t)) as [->|]; auto.
Qed.

Lemma inv_commit s t x q cur prev op :
  holder s = Some t → knows x cur prev true q → (∀ t', t' ≠ t → op t' = false ∧ waits (pcs s t')) →
  inv (upd t x q s) cur prev (<[t := true]> op).
Proof.
  intros Hh Hk Ho. apply inv_move; [done|by rewrite fn_lookup_insert|].
  intros t' Hne. rewrite fn_lookup_insert_ne by done. by apply Ho.
Qed.

Lemma precheck_waits call s : precheck call s = true → waits (AtLock (JApi call)).
Proof.
  destruct call as [policy|req]; [|done]. cbn. rewrite check_policy_ok. by destruct (MicPolicy_validate_against policy cat) as [[]|].
Qed.

Lemma reload_read_valid w c : reload_read w = Some c → Config_validate c = Ok tt.
Proof.
  unfold reload_read. destruct (fs_read_to_string p w) as [w' [text|e|]]; try done. cbn.
  destruct (from_str text) as [c'|]; [|done]. cbn. destruct (Config_validate c') as [[]|] eqn:E; [|done]. by intros [= ->].
Qed.

Local Ltac as_holder :=
  match goal with
  | Hinv : inv ?s _ _ _, Hp : pcs ?s ?t = _ |- _ =>
      destruct (inv_holder s t _ _ _ Hinv) as (Hh & Hk & Ho); [by intros W; rewrite Hp in W|]; rewrite Hp in Hk
  end.

Lemma inv_step s tr s' cur prev op : step s tr s' → inv s cur prev op →
  ∃ cur' prev' op', advances tr cur prev op cur' prev' op' ∧ inv s' cur' prev' op'.
Proof.
  intros Hs Hinv.
  assert (Hsame : ∀ s1, inv s1 cur prev op → ∃ cur' prev' op', advances [] cur prev op cur' prev' op' ∧ inv s1 cur' prev' op')
    by (intros s1 H1; exists cur, prev, op; split; [apply advances_silent|done]).
  destruct Hs as [s t call Hp Hc|s t call Hp Hc|s t Hp|s t job Hp Hf|s t call Hp cfg|s t call cfg w Hp Hw|s t call cfg w e Hp Hw
    |s t call cfg Hp|s t call cfg Hp|s t w r Hp Hr Hnc|s t cfg Hp|s t cfg Hp Hc|s t cfg Hp Hc|s t cfg Hp|s t cfg Hp|s t ok Hp|s w|s t|s t|s t].
  - apply Hsame, inv_wait; [done|by rewrite Hp|by eapply precheck_waits].
  - exists cur, prev, op. split; [by split|done].
  - apply Hsame, inv_wait; [done|by rewrite Hp|done].
  - apply Hsame. unfold inv in Hinv. rewrite Hf in Hinv. destruct Hinv as (H1 & H2 & H3 & H4). unfold inv. cbn [holder pcs proc].
    rewrite fn_lookup_insert. specialize (H4 t) as Hj. rewrite Hp in Hj. split.
    + rewrite H3. destruct job as [[policy|req]|]; cbn in *; done.
    + intros t' Hne. rewrite fn_lookup_insert_ne by done. done.
  - as_holder.
    apply Hsame, inv_move; [done| |done].
    assert (Hk' : in_sync cat (proc s) cur ∧ prev = cur ∧ op t = false) by (destruct call; naive_solver).
    destruct Hk' as (Hsy & -> & Ht). destruct (Config_validate cfg) as [[]|] eqn:Hv; cbn [is_ok knows]; [|by rewrite Ht].
    pose proof Hsy as [Hi Hm Hinf Hvc Hpol]. unfold cfg in *. rewrite Hi in *. split_and!; try done. split_and!; [done| |done].
    destruct call as [policy|req]; [by destruct Hk as (_ & _ & _ & ?)|done].
  - as_holder.
    apply Hsame, inv_move; [done| |done]. by apply (knows_world _ _ _ _ (AtStore call cfg)).
  - as_holder.
    apply Hsame, inv_move; [done| |done]. destruct Hk as (Hsy & -> & Ht & _). rewrite Ht. split_and!; [by apply in_sync_world|done..].
  - as_holder.
    destruct Hk as (Hsy & -> & Ht & Hl). exists cfg, cur, (<[t := true]> op). split; [by apply advances_commit; [|intros; apply Ho|]|].
    apply inv_commit; [done| |done]. cbn [knows]. split_and!; try done. destruct Hsy as [Hi Hm Hinf Hvc Hpol]. by split.
  - as_holder.
    destruct Hk as (-> & (Hv & Hpol & Happ) & Ht & [Hi Hm Hinf _ _] & Hin). cbn in Hi, Hm, Hinf. apply Hsame, inv_move; [done| |done].
    cbn [knows]. split_and!; [|done|done].
    destruct call as [policy|req]; cbn [hook_store applied] in *; split; cbn; try done; by rewrite Happ.
  - as_holder.
    destruct Hk as (Hsy & -> & Ht). apply Hsame, inv_move; [done| |done].
    destruct (reload_read _) as [c|] eqn:Hc; cbn [knows]; split_and!; try done; try (by apply in_sync_world). by eapply reload_read_valid.
  - as_holder.
    destruct Hk as (Hsy & -> & Ht & Hv). apply Hsame, inv_move; [done| |done].
    pose proof Hsy as [Hi _ _ _ _]. case_bool_decide as He; cbn [knows]; split_and!; try done. congruence.
  - as_holder.
    destruct Hk as (Hsy & -> & Ht & Hv & Hne). exists cfg, cur, (<[t := true]> op).
    assert (Hl : legal JReload cur cfg).
    { split_and!; [done| |done]. rewrite check_policy_ok in Hc. by destruct (MicPolicy_validate_against (cfg_mic cfg) cat) as [[]|]. }
    split; [by apply advances_commit; [|intros; apply Ho|]|].
    apply inv_commit; [done| |done]. destruct Hsy as [Hi Hm Hinf Hvc Hpol], Hl as (Hv1 & Hp1 & _). cbn [knows].
    split_and!; by try split.
  - as_holder.
    destruct Hk as (Hsy & -> & Ht & _). apply Hsame, inv_move; [done| |done]. cbn [knows]. by rewrite Ht.
  - as_holder.
    destruct Hk as (-> & Ht & [Hi Hm Hinf Hv Hpol] & Hin & Hinf'). apply Hsame, inv_move; [done| |done]. cbn [knows].
    split_and!; by try split.
  - as_holder.
    destruct Hk as (-> & Ht & [Hi Hm Hinf Hv Hpol] & Hin). apply Hsame, inv_move; [done| |done]. cbn [knows].
    split_and!; [|done|done]. by split.
  - as_holder.
    destruct Hk as (Hsy & Ht & Hprev). exists cur, cur, (<[t := false]> op). split; [by split|].
    unfold inv. cbn [holder pcs proc]. split_and!; [done|done| |]; intros t';
      (destruct (decide (t' = t)) as [->|Hne]; [by rewrite fn_lookup_insert|]; rewrite fn_lookup_insert_ne by done; by apply Ho).
  - apply Hsame. unfold inv in *. cbn [holder pcs proc]. destruct (holder s).
    + destruct Hinv as [Hk Ho]. split; [by apply knows_world|done].
    + destruct Hinv as (Hsy & ?). split; [by apply in_sync_world|done].
  - destruct (inv_seen _ _ _ _ Hinv) as (H1 & _). exists cur, prev, op. by split.
  - destruct (inv_seen _ _ _ _ Hinv) as (_ & H2 & _). exists cur, prev, op. by split.
  - destruct (inv_seen _ _ _ _ Hinv) as (_ & _ & H3). exists cur, prev, op. by split.
Qed.

Lemma inv_run s tr s' cur prev op : run s tr s' → inv s cur prev op →
  serial cur prev op tr ∧ ∃ prev' op', inv s' (latest cur tr) prev' op'.
Proof.
  intros Hr. revert cur prev op. induction Hr as [s|s tr s' tr' s'' Hs _ IH]; intros cur prev op Hinv; [split; [done|]; by exists prev, op|].
  destruct (inv_step _ _ _ _ _ _ Hs Hinv) as (cur' & prev' & op' & [Hser Hlat] & Hinv').
  destruct (IH _ _ _ Hinv') as [H1 H2]. split; [by apply Hser|]. by rewrite Hlat.
Qed.

Lemma inv_start x c : in_sync cat x c → inv (start x) c c (λ _, false).
Proof. done. Qed.

(** ** One call alone is the handler *)

(** What a run without company reaches. *)
Definition reaches (s : Shared) (x : Proc) : Prop := ∃ tr s', run s tr s' ∧ proc s' = x ∧ holder s' = None.

Lemma reaches_step s tr s1 x : step s tr s1 → reaches s1 x → reaches s x.
Proof. intros Hs (tr' & s' & Hr & H). exists (tr ++ tr'), s'. split; [by eapply RunCons|done]. Qed.

(** The holder at [q], and [x] once it has unlocked. *)
Definition solo (t : nat) (q : pc) (x y : Proc) : Prop :=
  ∀ s, pcs s t = q → holder s = Some t → proc s = x → reaches s y.

Lemma solo_step t q x q' x' y :
  (∀ s, pcs s t = q → proc s = x → ∃ tr, step s tr (upd t x' q' s)) → solo t q' x' y → solo t q x y.
Proof.
  intros Hs Hy s Hp Hh Hx. destruct (Hs s Hp Hx) as [tr Htr]. eapply reaches_step; [exact Htr|].
  apply Hy; [cbn; by rewrite fn_lookup_insert|done..].
Qed.

Lemma solo_unlock t ok x : solo t (AtUnlock ok) x x.
Proof.
  intros s Hp _ <-. eapply reaches_step; [by eapply StepUnlock|]. eexists _, _. split; [apply RunNil|done].
Qed.

Lemma goto_upd t q s x : proc s = x → goto t q s = upd t x q s.
Proof. by intros <-. Qed.

Lemma solo_lock t job s y : holder s = None → pcs s t = AtLock job →
  solo t (match job with JApi call => AtSnapshot call | JReload => AtRead end) (proc s) y → reaches s y.
Proof.
  intros Hh Hp H. eapply reaches_step; [by eapply StepLock|]. apply H; [cbn; by rewrite fn_lookup_insert|done..].
Qed.

(** Alone, a call goes through the states of [post_mic_policy] and
    [post_inference] and leaves what they leave. *)
Lemma solo_api t call s : holder s = None → pcs s t = Outside → idle (proc s) →
  let '(x, r) := api p cat call (proc s) in r ≠ PowerLoss → reaches s x.
Proof.
  intros Hh Hp Hi. rewrite api_unfold by done. remember (proc s) as x0 eqn:Hx0.
  destruct (precheck call x0) eqn:Hpre.
  2:{ assert (∃ e, refused p cat call x0 = Some e) as [e ->].
      { destruct call as [policy|req]; cbn in Hpre |- *;
          [destruct (check_policy p cat policy)|destruct (InferenceCfg_validate _)]; by eauto. }
      subst x0. intros _. eapply reaches_step; [by eapply (StepRefuse _ t call)|]. exists [], s. split; [apply RunNil|done]. }
  assert (Hlock : ∀ y, solo t (AtSnapshot call) x0 y → reaches s y).
  { subst x0. intros y H. eapply reaches_step; [by eapply (StepCall _ t call)|].
    eapply (solo_lock t (JApi call)); [done|cbn; by rewrite fn_lookup_insert|done]. }
  assert (Href : refused p cat call x0 = None ↔ is_ok (Config_validate (applied call (p_inner x0))) = true).
  { destruct call as [policy|req]; cbn in Hpre |- *;
      [destruct (check_policy p cat policy)|destruct (InferenceCfg_validate (merge req (p_inference x0)))]; try done;
      by destruct (Config_validate _). }
  assert (Hsnap : ∀ y, solo t (if is_ok (Config_validate (applied call (p_inner x0)))
      then AtWrite call (applied call (p_inner x0)) else AtUnlock false) x0 y → reaches s y).
  { intros y H. apply Hlock. eapply solo_step; [|exact H]. intros s1 Hp1 Hx1. eexists. rewrite <-(goto_upd _ _ _ _ Hx1), <-Hx1.
    by apply StepSnapshot. }
  destruct (refused p cat call x0) as [e|]; [intros _; apply Hsnap|].
  { destruct (is_ok (Config_validate _)); [|apply solo_unlock]. destruct Href as [_ Href]. by specialize (Href eq_refl). }
  rewrite (proj1 Href eq_refl) in Hsnap.
  destruct (write_toml_atomically p (applied call (p_inner x0)) (p_world x0)) as [w [[]|e|]] eqn:Hw; intros Hr; [| |done];
    apply Hsnap.
  - set (cfg := applied call (p_inner x0)) in *.
    apply (solo_step _ _ _ (AtStore call cfg) (with_world w x0)); [intros s1 Hp1 Hx; rewrite <-Hx in Hw |- *; eexists; by eapply StepWriteOk|].
    apply (solo_step _ _ _ (AtHook call cfg) (with_inner cfg (with_world w x0))); [intros s1 Hp1 <-; eexists; by eapply StepStore|].
    apply (solo_step _ _ _ (AtUnlock true) (hook_store call cfg (with_inner cfg (with_world w x0)))); [intros s1 Hp1 <-; eexists; by eapply StepHook|].
    replace (hook_store _ _ _) with (committed cat call w x0); [apply solo_unlock|by destruct call].
  - set (cfg := applied call (p_inner x0)) in *.
    apply (solo_step _ _ _ (AtUnlock false) (with_world w x0)); [|apply solo_unlock].
    intros s1 Hp1 Hx; rewrite <-Hx in Hw |- *; eexists; by eapply StepWriteErr.
Qed.

(** The reload by the value it read. *)
Lemma try_reload_unfold (x : Proc) : idle x →
  ∃ log, try_reload p (reload_callback p cat false launch) x =
  let '(w, r) := fs_read_to_string p (p_world x) in
  let x1 := with_world w x in
  match r with
  | Crash => (with_flags true false x1, PowerLoss)
  | _ =>
      (match reload_read (p_world x) with
       | Some c =>
           if bool_decide (p_inner x = c) then x1
           else if is_ok (check_policy p cat (cfg_mic c)) then
             with_reloads (wrap_add64 (p_reloads x) 1) (with_inner c (with_inference (cfg_inference c)
               (with_mic (restocked cat (cfg_mic c) (p_mic x)) x1)))
           else x1
       | None => x1
       end, Done log)
  end.
Proof.
  destruct x as [w inner n mic inf lk im]. intros [Hl Hi]. cbn in Hl, Hi. subst lk im.
  unfold try_reload, with_lock. cbn [p_locked with_flags]. unfold dropping, tries, io, mbind, C_bind, reload_read.
  cbn [p_world with_flags p_inner p_mic p_reloads].
  destruct (fs_read_to_string p w) as [w' [text|e|]]; [|by exists ReadFailed|by exists ReadFailed].
  cbn [option_bind]. destruct (from_str text) as [c|]; [|by exists ParseFailed]. cbn [option_bind mbind].
  destruct (Config_validate c) as [[]|e]; [|by exists ValidationFailed]. cbn [is_ok]. unfold gets.
  cbn [p_inner with_world with_flags]. case_bool_decide as Hc; [by exists Unchanged|].
  unfold catch_unwind. rewrite reload_callback_unfold.
  destruct (check_policy p cat (cfg_mic c)) as [[]|e]; [by exists Reloaded|by exists RejectedByCallback].
Qed.

(** Alone, a reload goes through the states of [try_reload]. *)
Lemma solo_reload t s : holder s = None → pcs s t = Outside → idle (proc s) →
  let '(x, r) := try_reload p (reload_callback p cat false launch) (proc s) in r ≠ PowerLoss → reaches s x.
Proof.
  intros Hh Hp Hi. destruct (try_reload_unfold _ Hi) as [log Hlog]. rewrite Hlog. clear Hlog.
  remember (proc s) as x0 eqn:Hx0.
  assert (Hlock : ∀ y, solo t AtRead x0 y → reaches s y).
  { subst x0. intros y H. eapply reaches_step; [by eapply (StepKick _ t)|].
    eapply (solo_lock t JReload); [done|cbn; by rewrite fn_lookup_insert|done]. }
  destruct (fs_read_to_string p (p_world x0)) as [w r] eqn:Hr. set (x1 := with_world w x0) in *.
  assert (Hread : r ≠ Crash → ∀ y,
    solo t (match reload_read (p_world x0) with Some c => AtCompare c | None => AtUnlock false end) x1 y → reaches s y).
  { intros Hc y H. apply Hlock. eapply solo_step; [|exact H]. intros s1 Hp1 Hx. unfold x1. rewrite <-Hx in Hr |- *. eexists. by eapply StepRead. }
  assert (Hdone : r ≠ Crash → reaches s (match reload_read (p_world x0) with
       | Some c =>
           if bool_decide (p_inner x0 = c) then x1
           else if is_ok (check_policy p cat (cfg_mic c)) then
             with_reloads (wrap_add64 (p_reloads x0) 1) (with_inner c (with_inference (cfg_inference c)
               (with_mic (restocked cat (cfg_mic c) (p_mic x0)) x1)))
           else x1
       | None => x1
       end)); [|destruct r; intros Hne; [by apply Hdone|by apply Hdone|done]].
  intros Hc. apply Hread; [done|]. destruct (reload_read (p_world x0)) as [c|]; [|apply solo_unlock].
  eapply (solo_step _ _ _ (if bool_decide (p_inner x0 = c) then AtUnlock false else AtPolicy c) x1).
  { intros s1 Hp1 Hx. eexists. rewrite <-(goto_upd _ _ _ _ Hx). change (p_inner x0) with (p_inner x1). rewrite <-Hx. by apply StepCompare. }
  case_bool_decide; [apply solo_unlock|]. destruct (is_ok (check_policy p cat (cfg_mic c))) eqn:Hpol.
  - apply (solo_step _ _ _ (AtInference c) (with_mic (restocked cat (cfg_mic c) (p_mic x0)) x1)).
    { intros s1 Hp1 Hx. change (p_mic x0) with (p_mic x1). rewrite <-Hx. eexists. by eapply StepPolicyOk. }
    set (x2 := with_mic _ _). apply (solo_step _ _ _ (AtInner c) (with_inference (cfg_inference c) x2));
      [intros s1 Hp1 <-; eexists; by eapply StepInference|].
    set (x3 := with_inference _ x2). apply (solo_step _ _ _ (AtUnlock true) (with_reloads (wrap_add64 (p_reloads x3) 1) (with_inner c x3)));
      [intros s1 Hp1 <-; eexists; by eapply StepInner|]. apply solo_unlock.
  - eapply (solo_step _ _ _ (AtUnlock false) x1); [|apply solo_unlock].
    intros s1 Hp1 Hx. eexists. rewrite <-(goto_upd _ _ _ _ Hx). by eapply StepPolicyErr.
Qed.
End Runs.

(** ** The property *)

(** C25: Concurrent changes of the configuration are serial and the live cells
    never drift apart.  Whatever the interleaving of API calls, reloads, readers,
    I/O errors and edits of the file, the commits form one history, each made from
    the one before it: a call's commit is exactly its change of the last committed
    configuration (so two partial updates never lose one another), a reload's is a
    valid configuration its catalogue can satisfy; a call that returns success has
    committed exactly once and one that fails never; a reader of any of the three
    cells sees the last committed configuration, or the one before while the
    committing call has not returned; and whenever no call holds the lock the
    three cells all hold the last committed configuration, which is valid. *)
Theorem config_cells_agree `{T : TempLib} `{Toml_c : Toml Config} `{U : UuidLib} (p : path) (cat : MicCatalogue)
    (x : Proc) (c : Config) (tr : list Event) (s : Shared) :
  in_sync cat x c → run p cat (start x) tr s →
  serial cat c c (λ _, false) tr ∧ (holder s = None → in_sync cat (proc s) (latest c tr)).
Proof.
  intros Hx Hr. destruct (inv_run p cat _ _ _ _ _ _ Hr (inv_start cat x c Hx)) as (Hser & prev & op & Hinv).
  split; [done|]. intros Hh. unfold inv in Hinv. rewrite Hh in Hinv. apply Hinv.
Qed.

(** Two partial updates of the inference cadence, one waiting while the other
    writes; a reader looks in the middle. *)
Section RunScenario.
Local Existing Instance text_uuid_lib.
Let toml : Toml Config := bits_toml Config.
Let lib : TempLib := long_temp_lib.
Local Existing Instance toml.
Local Existing Instance lib.

Definition cr_call0 : Call := SetInference (mkSetInferenceReq None (Some 5%Z)).
Definition cr_call1 : Call := SetInference (mkSetInferenceReq (Some 22050%Z) None).
Definition cr_proc : Proc := cf_proc Config_default_for None [].
Definition cr_after0 : Config := applied cr_call0 Config_default_for.
Definition cr_after1 : Config := applied cr_call1 cr_after0.
Definition cr_world0 : World := fst (write_toml_atomically cf_path cr_after0 (p_world cr_proc)).
Definition cr_world1 : World := fst (write_toml_atomically cf_path cr_after1 cr_world0).

Lemma cr_write0 : write_toml_atomically cf_path cr_after0 (p_world cr_proc) = (cr_world0, Ret tt).
Proof. vm_compute. reflexivity. Qed.
Lemma cr_write1 : write_toml_atomically cf_path cr_after1 cr_world0 = (cr_world1, Ret tt).
Proof. vm_compute. reflexivity. Qed.

Lemma cr_run :
  ∃ tr s, run cf_path (mkMicCatalogue []) (start cr_proc) tr s ∧ holder s = None ∧ latest Config_default_for tr = cr_after1.
Proof.
  eexists _, _. split.
  - eapply RunCons; [apply (StepCall _ _ _ 0 cr_call0); reflexivity|].
    eapply RunCons; [apply (StepCall _ _ _ 1 cr_call1); reflexivity|].
    eapply RunCons; [eapply (StepLock _ _ _ 0); reflexivity|].
    eapply RunCons; [eapply (StepSnapshot _ _ _ 0); reflexivity|].
    eapply RunCons; [eapply (StepWriteOk _ _ _ 0 cr_call0 cr_after0); [reflexivity|exact cr_write0]|].
    eapply RunCons; [eapply (StepStore _ _ _ 0); reflexivity|].
    eapply RunCons; [apply (StepSeeConfig _ _ _ 2)|].
    eapply RunCons; [apply (StepSeeInference _ _ _ 2)|].
    eapply RunCons; [eapply (StepHook _ _ _ 0); reflexivity|].
    eapply RunCons; [eapply (StepUnlock _ _ _ 0); reflexivity|].
    eapply RunCons; [eapply (StepLock _ _ _ 1); reflexivity|].
    eapply RunCons; [eapply (StepSnapshot _ _ _ 1); reflexivity|].
    eapply RunCons; [eapply (StepWriteOk _ _ _ 1 cr_call1 cr_after1); [reflexivity|exact cr_write1]|].
    eapply RunCons; [eapply (StepStore _ _ _ 1); reflexivity|].
    eapply RunCons; [eapply (StepHook _ _ _ 1); reflexivity|].
    eapply RunCons; [eapply (StepUnlock _ _ _ 1); reflexivity|].
    apply RunNil.
  - split; reflexivity.
Qed.

Lemma config_cells_agree_witness :
  ∃ tr s, serial (mkMicCatalogue []) Config_default_for Config_default_for (λ _, false) tr ∧
    in_sync (mkMicCatalogue []) (proc s) (mkConfig default_policy (mkInferenceCfg 22050 5)).
Proof.
  destruct cr_run as (tr & s & Hr & Hh & Hl). exists tr, s.
  destruct (config_cells_agree cf_path (mkMicCatalogue []) cr_proc Config_default_for tr s) as [H1 H2].
  - by split.
  - exact Hr.
  - split; [exact H1|]. specialize (H2 Hh). rewrite Hl in H2. exact H2.
Defined.
End RunScenario.
