(* ===== verification/ConfigWatch.v ===== *)
(** * The reload worker ([src/modules/config/watcher.rs], [ConfigCell::watch_with])

    The filter on filesystem events and the debounce loop, in milliseconds: when
    the kicks arrive on the channel, when its senders are dropped, and how long
    each reload takes are given; the loop answers when its reloads start. *)

From S2P Require Import Prelude.
From stdpp Require Import sorting.

Open Scope Z_scope.

(** ** The filter *)

(** A path as the notify callback looks at it: its [file_name()]. *)
Definition touches_target (target_name : option string) (event_paths : list (option string)) : bool :=
  match target_name with
  | Some name =>
      match event_paths with
      | [] => true
      | _ => existsb (λ p, bool_decide (p = Some name)) event_paths
      end
  | None => true
  end.

(** ** The channel *)

Definition WATCHER_DEBOUNCE : Z := 100.

Inductive Recv : Type :=
  | Kick (at_ : Z) (rest : list Z)
  | Disconnected
  | Pending.                              (** no kick will come *)

(** [rx.recv()] called at [now]. *)
Definition recv (closed : option Z) (now : Z) (kicks : list Z) : Recv :=
  match kicks with
  | k :: rest => Kick (Z.max now k) rest
  | [] => match closed with Some _ => Disconnected | None => Pending end
  end.

Inductive RecvTimeout : Type :=
  | Got (at_ : Z) (rest : list Z)
  | Timeout (at_ : Z)
  | Closed.

(** [rx.recv_timeout(WATCHER_DEBOUNCE)] called at [now]. *)
Definition recv_timeout (closed : option Z) (now : Z) (kicks : list Z) : RecvTimeout :=
  let deadline := now + WATCHER_DEBOUNCE in
  match kicks with
  | k :: rest => if k <=? deadline then Got (Z.max now k) rest else Timeout deadline
  | [] =>
      match closed with
      | Some c => if c <=? deadline then Closed else Timeout deadline
      | None => Timeout deadline
      end
  end.

(** ** The loop *)

(** The inner loop: [None] is the return on a closed channel. *)
Fixpoint coalesce (closed : option Z) (now : Z) (kicks : list Z) : option (Z * list Z) :=
  match recv_timeout closed now kicks with
  | Got t _ => match kicks with _ :: rest => coalesce closed t rest | [] => None end
  | Timeout t => Some (t, kicks)
  | Closed => None
  end.

Inductive Ending : Type := Exited | Waiting | OutOfFuel.

(** The times at which [try_reload] is called; the [i]-th takes [dur i]. *)
Fixpoint worker_loop (fuel : nat) (closed : option Z) (dur : nat → Z) (i : nat) (now : Z) (kicks : list Z)
    : list Z * Ending :=
  match fuel with
  | O => ([], OutOfFuel)
  | S fuel =>
      match recv closed now kicks with
      | Disconnected => ([], Exited)
      | Pending => ([], Waiting)
      | Kick t rest =>
          match coalesce closed t rest with
          | None => ([], Exited)
          | Some (r, rest) =>
              let '(rs, e) := worker_loop fuel closed dur (S i) (r + dur i) rest in (r :: rs, e)
          end
      end
  end.

(** Every turn takes a kick off the channel, so this fuel is enough
    ([worker_ends]). *)
Definition debounce_reload_worker (closed : option Z) (dur : nat → Z) (now : Z) (kicks : list Z) : list Z * Ending :=
  worker_loop (S (List.length kicks)) closed dur 0 now kicks.

(** ** Facts *)

Lemma coalesce_suffix closed now kicks r rest : coalesce closed now kicks = Some (r, rest) → ∃ taken, kicks = taken ++ rest.
Proof.
  revert now. induction kicks as [|k kicks IH]; intros now; cbn.
  - destruct closed as [c|]; [destruct (c <=? _)|]; intros H; inversion H; by exists [].
  - destruct (k <=? _); [|intros H; inversion H; by exists []].
    intros H. destruct (IH _ H) as [taken ->]. by exists (k :: taken).
Qed.

(** What a quiet window is: it ends [r], everything taken came before it began,
    and nothing came while it lasted. *)
Lemma coalesce_quiet closed now kicks r rest taken :
  coalesce closed now kicks = Some (r, rest) → kicks = taken ++ rest → StronglySorted Z.le kicks →
  now + WATCHER_DEBOUNCE ≤ r ∧ Forall (λ k, k + WATCHER_DEBOUNCE ≤ r) taken ∧ Forall (λ k, r < k) rest.
Proof.
  revert now taken. induction kicks as [|k kicks IH]; intros now taken H Hk Hs.
  - symmetry in Hk. apply app_eq_nil in Hk as [-> ->]. cbn in H.
    destruct closed as [c|]; [destruct (c <=? _)|]; inversion H; subst; split_and!; try done; lia.
  - cbn in H. apply StronglySorted_inv in Hs as [Hs Hall]. destruct (Z.leb_spec k (now + WATCHER_DEBOUNCE)) as [Hle|Hgt].
    + destruct (coalesce_suffix _ _ _ _ _ H) as [taken' Ht]. destruct taken as [|k' taken].
      { exfalso. apply (f_equal List.length) in Hk, Ht. rewrite length_app in Ht. cbn in Hk, Ht. subst. lia. }
      injection Hk as <- Hk. destruct (IH _ _ H Hk Hs) as (H1 & H2 & H3). split_and!; [lia| |done].
      constructor; [lia|done].
    + inversion H; subst. assert (taken = []) as ->.
      { apply (f_equal List.length) in Hk. rewrite length_app in Hk. by destruct taken; [|cbn in Hk; lia]. }
      split_and!; [lia|constructor|]. constructor; [done|]. eapply list.Forall_impl; [exact Hall|]. cbn. lia.
Qed.

(** While kicks keep coming within the window of the last, nothing is left out. *)
Fixpoint close_together (now : Z) (kicks : list Z) : Prop :=
  match kicks with
  | [] => True
  | k :: kicks => k ≤ now + WATCHER_DEBOUNCE ∧ close_together (Z.max now k) kicks
  end.

Lemma coalesce_burst now kicks : close_together now kicks → ∃ r, coalesce None now kicks = Some (r, []).
Proof.
  revert now. induction kicks as [|k kicks IH]; intros now; cbn; [by eexists|].
  intros [Hk Hr]. rewrite (proj2 (Z.leb_le _ _)) by lia. by apply IH.
Qed.

Definition ending (closed : option Z) : Ending := match closed with Some _ => Exited | None => Waiting end.

Lemma coalesce_none closed now kicks : coalesce closed now kicks = None → closed ≠ None.
Proof.
  revert now. induction kicks as [|k kicks IH]; intros now; cbn; [by destruct closed|].
  destruct (k <=? _); [apply IH|done].
Qed.

(** What the loop answers, by the kicks left. *)
Record loop_ok (closed : option Z) (now : Z) (kicks : list Z) (rs : list Z) (e : Ending) : Prop := {
  lo_ending : e = ending closed;
  lo_late : Forall (λ r, now + WATCHER_DEBOUNCE ≤ r) rs;
  lo_apart : Sorted (λ r r', r + WATCHER_DEBOUNCE ≤ r') rs;
  lo_follows : closed = None → Forall (λ k, Exists (λ r, k + WATCHER_DEBOUNCE ≤ r) rs) kicks;
  lo_quiet : Forall (λ r, Forall (λ k, k + WATCHER_DEBOUNCE ≤ r ∨ r < k) kicks) rs;
  lo_few : (List.length rs ≤ List.length kicks)%nat;
}.

Lemma worker_loop_ok closed dur fuel i now kicks :
  (List.length kicks < fuel)%nat → StronglySorted Z.le kicks → (∀ i, 0 ≤ dur i) →
  let '(rs, e) := worker_loop fuel closed dur i now kicks in loop_ok closed now kicks rs e.
Proof.
  intros Hf Hs Hd. revert i now kicks Hf Hs. induction fuel as [|fuel IH]; intros i now kicks Hf Hs; [lia|]. cbn [worker_loop].
  destruct kicks as [|k kicks]; cbn [recv].
  { destruct closed; split; by constructor. }
  cbn in Hf. apply StronglySorted_inv in Hs as [Hs Hall].
  destruct (coalesce closed (Z.max now k) kicks) as [[r rest]|] eqn:Hc.
  2:{ apply coalesce_none in Hc. destruct closed; [|done]. split; [done|constructor|constructor|done|constructor|cbn; lia]. }
  destruct (coalesce_suffix _ _ _ _ _ Hc) as [taken Ht].
  destruct (coalesce_quiet _ _ _ _ _ taken Hc Ht Hs) as (Hnow & Htaken & Hrest). subst kicks. rewrite length_app in Hf.
  apply StronglySorted_app_1_r in Hs as Hs'. specialize (IH (S i) (r + dur i) rest ltac:(lia) Hs').
  destruct (worker_loop fuel closed dur (S i) (r + dur i) rest) as [rs e]. destruct IH as [He Hl Ha Hfo Hq Hn]. specialize (Hd i).
  split; unfold WATCHER_DEBOUNCE in *.
  - done.
  - constructor; [lia|]. eapply list.Forall_impl; [exact Hl|]. cbn. lia.
  - constructor; [done|]. destruct rs as [|r' rs]; constructor. apply list.Forall_cons in Hl as [Hl _]. lia.
  - intros Hcl. apply list.Forall_cons. split; [apply Exists_cons; left; lia|]. apply Forall_app. split.
    + eapply list.Forall_impl; [exact Htaken|]. intros k' Hk'. apply Exists_cons. by left.
    + eapply list.Forall_impl; [by apply Hfo|]. intros k' Hk'. apply Exists_cons. by right.
  - apply list.Forall_cons. split.
    + constructor; [left; lia|]. apply Forall_app. split.
      * eapply list.Forall_impl; [exact Htaken|]. cbn. lia.
      * eapply list.Forall_impl; [exact Hrest|]. cbn. lia.
    + apply list.Forall_forall. intros r' Hr'. pose proof (proj1 (list.Forall_forall _ _) Hl r' Hr') as Hr1.
      pose proof (proj1 (list.Forall_forall _ _) Hq r' Hr') as Hq1. cbn in Hr1. constructor; [left; lia|]. apply Forall_app. split; [|done].
      eapply list.Forall_impl; [exact Htaken|]. cbn. lia.
  - cbn. rewrite length_app. lia.
Qed.

(** C33: Every filesystem event is followed by a reload, and a burst costs one.
    Whatever the arrival times and the durations of the reloads, while the
    channel is open each kick is followed by a reload that starts at least the
    quiet window after it (so the reload reads what the event announced); no
    reload starts while a kick of the last 100 ms may announce more; reloads are
    at least the window apart and never more than the kicks; a burst whose kicks
    come within the window of one another is reloaded exactly once; and when the
    senders are dropped the worker exits. *)
Theorem debounce_follows_every_event (closed : option Z) (dur : nat → Z) (now : Z) (kicks : list Z) :
  StronglySorted Z.le kicks → (∀ i, 0 ≤ dur i) →
  let '(rs, e) := debounce_reload_worker closed dur now kicks in
  e = ending closed ∧
  (closed = None → Forall (λ k, Exists (λ r, k + WATCHER_DEBOUNCE ≤ r) rs) kicks) ∧
  Forall (λ r, Forall (λ k, k + WATCHER_DEBOUNCE ≤ r ∨ r < k) kicks) rs ∧
  Sorted (λ r r', r + WATCHER_DEBOUNCE ≤ r') rs ∧ (List.length rs ≤ List.length kicks)%nat ∧
  (closed = None → ∀ k rest, kicks = k :: rest → close_together (Z.max now k) rest → List.length rs = 1%nat).
Proof.
  intros Hs Hd. unfold debounce_reload_worker.
  pose proof (worker_loop_ok closed dur (S (List.length kicks)) 0 now kicks ltac:(lia) Hs Hd) as H.
  destruct (worker_loop _ closed dur 0 now kicks) as [rs e] eqn:E. destruct H as [He _ Ha Hfo Hq Hn]. split_and!; try done.
  intros -> k rest -> Hc. destruct (coalesce_burst _ _ Hc) as [r Hr]. cbn in E. rewrite Hr in E. cbn in E.
  destruct rest; cbn in E; by injection E as <- <-.
Qed.

(** An editor's save of four events, and a second save. *)
Lemma debounce_follows_every_event_witness :
  debounce_reload_worker None (λ _, 3) 0 [10; 15; 80; 120; 500] = ([220; 600], Waiting) ∧
  Forall (λ k, Exists (λ r, k + WATCHER_DEBOUNCE ≤ r) [220; 600]) [10; 15; 80; 120; 500].
Proof.
  split; [reflexivity|].
  pose proof (debounce_follows_every_event None (λ _, 3) 0 [10; 15; 80; 120; 500]) as H.
  destruct H as (_ & H & _); [repeat constructor; lia|intros _; lia|]. by apply H.
Defined.
