(* ===== verification/LaunchConfig.v ===== *)
(** * The launch configuration and the boot of both files
    ([src/modules/config/launch.rs], [config/domain.rs], [daemon/main_body.rs])

    The deployment manifest, read once and never changed: its sections and their
    validators, its loader, and what the daemon does with the two TOML files
    before anything runs.  The text of a rejected section is a constructor naming
    the failed check.  A path of the deployment is the string of the TOML; its
    [Path::parent] and the answers of [stat] are given. *)

From S2P Require Import Prelude Ids Common Text AssetPath F32 FileSystem FsLogic FsAtomic FsRun MicTypes ApiErrors StreamIo Config ConfigCell ConfigFacts.

Open Scope Z_scope.

(** ** Training defaults and file caps *)

Record TrainingDefaults := mkTrainingDefaults { td_epochs : Z; td_batch_size : Z; td_learning_rate_e6 : Z }.

Definition default_training : TrainingDefaults := mkTrainingDefaults 32 16 100.

Inductive TrainingDefaultsError : Type :=
  | EpochsZero | EpochsTooMany (n : Z) | BatchZero | BatchTooBig (n : Z) | LrZero | LrTooBig (n : Z).

Definition MAX_EPOCHS : Z := 10000.
Definition MAX_BATCH : Z := 4096.
Definition MAX_LR_E6 : Z := 1000000.

Definition TrainingDefaults_validate (t : TrainingDefaults) : result TrainingDefaultsError unit :=
  if td_epochs t =? 0 then Err EpochsZero
  else if MAX_EPOCHS <? td_epochs t then Err (EpochsTooMany (td_epochs t))
  else if td_batch_size t =? 0 then Err BatchZero
  else if MAX_BATCH <? td_batch_size t then Err (BatchTooBig (td_batch_size t))
  else if td_learning_rate_e6 t =? 0 then Err LrZero
  else if MAX_LR_E6 <? td_learning_rate_e6 t then Err (LrTooBig (td_learning_rate_e6 t))
  else Ok tt.

Record FileCfg := mkFileCfg { max_upload_bytes : Z; max_concurrent_uploads : Z }.

Definition default_file : FileCfg := mkFileCfg (256 * 1024 * 1024) 4.

Inductive FileCfgError : Type := UploadBytesZero | UploadsZero.

Definition FileCfg_validate (f : FileCfg) : result FileCfgError unit :=
  if max_upload_bytes f =? 0 then Err UploadBytesZero
  else if max_concurrent_uploads f =? 0 then Err UploadsZero
  else Ok tt.

(** ** Listeners *)

Record StreamCfg := mkStreamCfg {
  uds_path : string;
  uds_mode : Z;
  tcp_bind : string;
  broadcast_capacity : Z;
  tcp_policy : TransportPolicy;
  uds_policy : TransportPolicy;
}.

Definition default_tcp_policy : TransportPolicy := TransportPolicy_capped.
Definition default_uds_policy : TransportPolicy :=
  mkTransportPolicy (max_connections_per_stream TransportPolicy_capped) false (allowed_origins TransportPolicy_capped).

(** [0o666]. *)
Definition default_stream : StreamCfg :=
  mkStreamCfg "var/run/acoustics_lab.sock" 438 "127.0.0.1:8787" 64 default_tcp_policy default_uds_policy.

Inductive StreamCfgError : Type :=
  | TcpEmpty | TcpNoColon | TcpPort (port : string) | TcpEmptyHost
  | UdsEmpty | UdsNoParent | UdsParentSymlink | UdsParentNotDir | UdsParentMissing | UdsParentStat (e : IoKind)
  | UdsIsSymlink | UdsIsFile | UdsIsDir | UdsNotSocket (kind : string) | UdsStatFailed (e : IoKind)
  | UdsParentWorldWritable (mode : Z)
  | BroadcastZero | UdsModeTooBig (mode : Z).

(** [s.rsplit_once(':')]. *)
Definition rsplit_colon (s : list ascii) : option (list ascii * list ascii) :=
  match rev (split_on ":" s) with
  | port :: ((_ :: _) as before) => Some (join_with ":" (rev before), port)
  | _ => None
  end.

(** [str::parse::<u16>()]: an optional [+] and decimal digits, at most 65535. *)
Fixpoint parse_digits (acc : Z) (s : list ascii) : option Z :=
  match s with
  | [] => Some acc
  | b :: s =>
      let d := byte_val b - 48 in
      if (0 <=? d) && (d <=? 9) then
        let acc := acc * 10 + d in if 65535 <? acc then None else parse_digits acc s
      else None
  end.

Definition parse_u16 (s : list ascii) : option Z :=
  match s with
  | [] => None
  | b :: t =>
      if Ascii.eqb b "+" then match t with [] => None | _ => parse_digits 0 t end
      else parse_digits 0 s
  end.

(** [host.strip_prefix('[').and_then(|s| s.strip_suffix(']')).unwrap_or(host)]. *)
Definition strip_brackets (host : list ascii) : list ascii :=
  match host with
  | b :: t =>
      if Ascii.eqb b "[" then
        match rev t with e :: r => if Ascii.eqb e "]" then rev r else host | [] => host end
      else host
  | [] => host
  end.

Definition validate_tcp_bind (tcp_bind : string) : result StreamCfgError unit :=
  if (String.length tcp_bind =? 0)%nat then Err TcpEmpty
  else
  match rsplit_colon (bytes_of tcp_bind) with
  | None => Err TcpNoColon
  | Some (host_raw, port) =>
      match parse_u16 port with
      | None => Err (TcpPort (string_of_list_ascii port))
      | Some _ => match strip_brackets host_raw with [] => Err TcpEmptyHost | _ => Ok tt end
      end
  end.

(** The answers of [symlink_metadata] at the parent and at the path, and of
    [metadata] at the parent (its mode). *)
Record UdsStats := mkUdsStats {
  us_parent : result IoKind FileType;
  us_entry : result IoKind FileType;
  us_parent_mode : result IoKind Z;
}.

Definition describe_unix_file_type (ft : FileType) : string :=
  match ft with
  | FtFifo => "fifo"
  | FtBlock => "block device"
  | FtChar => "char device"
  | _ => "non-socket file"
  end.

(** [0o002], [0o1000]. *)
Definition world_writable (mode : Z) : bool := negb (Z.land mode 2 =? 0).
Definition sticky (mode : Z) : bool := negb (Z.land mode 512 =? 0).

(** [parent] is [uds_path.parent()]; the Linux build. *)
Definition validate_uds_path (st : UdsStats) (path : string) (parent : option string) : result StreamCfgError unit :=
  if (String.length path =? 0)%nat then Err UdsEmpty
  else
  match parent with
  | None => Err UdsNoParent
  | Some parent =>
  if (String.length parent =? 0)%nat then Err UdsNoParent
  else
  match us_parent st with
  | Err IoNotFound => Err UdsParentMissing
  | Err e => Err (UdsParentStat e)
  | Ok FtSymlink => Err UdsParentSymlink
  | Ok FtDirectory =>
      let check_mode :=
        match us_parent_mode st with
        | Ok mode => if world_writable mode && negb (sticky mode) then Err (UdsParentWorldWritable mode) else Ok tt
        | Err _ => Ok tt
        end in
      match us_entry st with
      | Err IoNotFound => check_mode
      | Err e => Err (UdsStatFailed e)
      | Ok FtSymlink => Err UdsIsSymlink
      | Ok FtRegular => Err UdsIsFile
      | Ok FtDirectory => Err UdsIsDir
      | Ok FtSocket => check_mode
      | Ok ft => Err (UdsNotSocket (describe_unix_file_type ft))
      end
  | Ok _ => Err UdsParentNotDir
  end
  end.

(** [0o7777]. *)
Definition StreamCfg_validate (st : UdsStats) (parent : option string) (s : StreamCfg) : result StreamCfgError unit :=
  validate_tcp_bind (tcp_bind s) ≫= λ _,
  validate_uds_path st (uds_path s) parent ≫= λ _,
  if broadcast_capacity s =? 0 then Err BroadcastZero
  else if 4095 <? uds_mode s then Err (UdsModeTooBig (uds_mode s))
  else Ok tt.

(** ** Backbones ([inference/backbone.rs]) and the bundled head *)

Inductive BackboneKind : Type := Rknn | Burn.

(** [rknpu]: a Linux build with the feature. *)
Definition is_supported (rknpu : bool) (k : BackboneKind) : bool :=
  match k with Burn => true | Rknn => rknpu end.

Record BackboneRef := mkBackboneRef { bb_kind : BackboneKind; bb_path : string; bb_hash : option string }.

Inductive BackboneRefError : Type := BackbonePathEmpty | BackboneHash (len : nat).

Definition is_ascii_hexdigit (b : ascii) : bool :=
  let v := byte_val b in
  ((48 <=? v) && (v <=? 57)) || ((65 <=? v) && (v <=? 70)) || ((97 <=? v) && (v <=? 102)).

Definition BackboneRef_validate (r : BackboneRef) : result BackboneRefError unit :=
  if (String.length (bb_path r) =? 0)%nat then Err BackbonePathEmpty
  else
  match bb_hash r with
  | None => Ok tt
  | Some h =>
      let h := str_trim (bytes_of h) in
      if negb (List.length h =? 64)%nat || negb (forallb is_ascii_hexdigit h) then Err (BackboneHash (List.length h))
      else Ok tt
  end.

Definition BackboneCatalogue : Type := list BackboneRef.
Definition BackboneCatalogue_is_empty (c : BackboneCatalogue) : bool := match c with [] => true | _ => false end.

Fixpoint BackboneCatalogue_validate (i : nat) (c : BackboneCatalogue) : result (nat * BackboneRefError) unit :=
  match c with
  | [] => Ok tt
  | r :: c => match BackboneRef_validate r with Err e => Err (i, e) | Ok _ => BackboneCatalogue_validate (S i) c end
  end.

Record DefaultHeadRef := mkDefaultHeadRef { dh_path : string; dh_labels_path : string }.

Inductive HeadLaunchError : Type := HeadPathEmpty | HeadLabelsEmpty.

Definition DefaultHeadRef_validate (d : DefaultHeadRef) : result HeadLaunchError unit :=
  if (String.length (dh_path d) =? 0)%nat then Err HeadPathEmpty
  else if (String.length (dh_labels_path d) =? 0)%nat then Err HeadLabelsEmpty
  else Ok tt.

Definition HeadLaunchConfig : Type := option DefaultHeadRef.
Definition HeadLaunchConfig_validate (h : HeadLaunchConfig) : result HeadLaunchError unit :=
  match h with Some d => DefaultHeadRef_validate d | None => Ok tt end.

(** ** The manifest *)

Record LaunchConfig := mkLaunchConfig {
  l_mic : MicCatalogue;
  l_backbone : BackboneCatalogue;
  l_stream : StreamCfg;
  l_head : HeadLaunchConfig;
  l_training : TrainingDefaults;
  l_file : FileCfg;
}.

(** [freq_hz: 1_000.0, amplitude: 0.25]. *)
Definition default_mock_source : CandidateSource :=
  SrcMock [Sine (f32_of_int 1000) (f32_div f32_one (f32_of_int 4))] 512 SampleRate_VALUE.

Definition LaunchConfig_default_for : LaunchConfig :=
  mkLaunchConfig (mkMicCatalogue [mkMicCandidate (mkMicId "default-mock") default_mock_source [0]])
    [] default_stream None default_training default_file.

(** The section [load] rejects; the source wraps each in [ConfigError::Invalid]. *)
Inductive LaunchError : Type :=
  | L_Read | L_Parse
  | L_Mic (id : MicId) (e : CandidateError)
  | L_Backbone (idx : nat) (e : BackboneRefError)
  | L_Stream (e : StreamCfgError)
  | L_Head (e : HeadLaunchError)
  | L_Training (e : TrainingDefaultsError)
  | L_File (e : FileCfgError).

Definition LaunchConfig_validate (st : UdsStats) (uds_parent : option string) (cfg : LaunchConfig) : result LaunchError unit :=
  map_err (λ x, L_Mic (fst x) (snd x)) (MicCatalogue_validate (l_mic cfg)) ≫= λ _,
  map_err (λ x, L_Backbone (fst x) (snd x)) (BackboneCatalogue_validate 0 (l_backbone cfg)) ≫= λ _,
  map_err L_Stream (StreamCfg_validate st uds_parent (l_stream cfg)) ≫= λ _,
  map_err L_Head (HeadLaunchConfig_validate (l_head cfg)) ≫= λ _,
  map_err L_Training (TrainingDefaults_validate (l_training cfg)) ≫= λ _,
  map_err L_File (FileCfg_validate (l_file cfg)).

Section Launch.
Context `{T : TempLib} `{TomlL : !Toml LaunchConfig} `{TomlC : !Toml Config}.

(** [stats] and [parent_of] answer for the socket path of the parsed manifest. *)
Variable stats : string → UdsStats.
Variable parent_of : string → option string.

Definition LaunchConfig_load (p : path) : M LaunchError LaunchConfig :=
  text ← map_throw (λ _ : IoKind, L_Read) (fs_read_to_string p);
  match from_str text with
  | None => throw L_Parse
  | Some cfg =>
      let uds := uds_path (l_stream cfg) in
      lift (LaunchConfig_validate (stats uds) (parent_of uds) cfg ≫= λ _, Ok cfg)
  end.

Definition LaunchConfig_persist (p : path) (cfg : LaunchConfig) : M ConfigError unit := write_toml_atomically p cfg.

(** ** Boot ([daemon/main_body.rs]) *)

Inductive BootError : Type :=
  | BootConfig (e : ConfigError)
  | BootMkdir (e : IoKind)
  | BootPolicy (e : ConfigError).

(** [load_or_init_config]: load, or write the defaults on first boot. *)
Definition load_or_init_config (p : path) : M BootError Config :=
  there ← path_exists p;
  if there : bool then map_throw BootConfig (ConfigCell_load p)
  else
    let dir := parent p in
    parent_there ← path_exists dir;
    _ ← (if (match dir with [] => true | _ => false end) || parent_there then mret tt
         else map_throw BootMkdir (create_dir_all dir));
    cfg ← lift (map_err BootConfig (ConfigCell_from_value Config_default_for p));
    _ ← map_throw BootConfig (write_toml_atomically p cfg);
    mret cfg.

(** The user configuration of a boot, checked against the launch catalogue
    unless the catalogue is the synthetic one. *)
Definition boot_config (mock_audio : bool) (launch : MicCatalogue) (p : path) : M BootError Config :=
  snap ← load_or_init_config p;
  if mock_audio then mret snap
  else lift (map_err BootPolicy (validate_policy_against_catalogue (cfg_mic snap) launch (display p)) ≫= λ _, Ok snap).

(** The catalogue and the policy the microphone cell starts with. *)
Definition mock_catalogue : MicCatalogue := mkMicCatalogue [mkMicCandidate (mkMicId "mock:0") default_mock_source [0]].
Definition boot_settings (mock_audio : bool) (launch : MicCatalogue) (snap : Config)
    : result (MicId * CandidateError) MicSettings :=
  if mock_audio then
    MicCatalogue_validate mock_catalogue ≫= λ _,
    Ok (mkMicSettings mock_catalogue (mkMicPolicy (FixedMic (mkMicId "mock:0")) Auto))
  else Ok (mkMicSettings launch (cfg_mic snap)).
End Launch.

(** ** Facts *)

(** A manifest whose listener section was accepted binds: with the same answers of
    [stat] at bind time (a directory is what [metadata] says of it), an unlink
    that works and a bind that works, [bind_uds] neither refuses the parent nor
    the entry. *)
Lemma validated_stream_binds (st : UdsStats) (parent : option string) (s : StreamCfg) (c : UdsCalls) :
  StreamCfg_validate st parent s = Ok tt →
  (∃ mode, us_parent_mode st = Ok mode ∧ uc_parent c = Ok (true, mode)) → uc_entry c = us_entry st →
  uc_remove c = Ok tt → uc_bind c = Ok tt →
  ∃ done, bind_uds c (uds_path s) parent = (done, Ok tt) ∧ List.last done Unlinked = Bound.
Proof.
  unfold StreamCfg_validate. intros H (mode & Hmode & Hp) He Hr Hb.
  destruct (validate_tcp_bind (tcp_bind s)) as [[]|]; [|done]. cbn in H.
  destruct (validate_uds_path st (uds_path s) parent) as [[]|] eqn:Hu; [|done]. clear H.
  unfold validate_uds_path in Hu. destruct (String.length (uds_path s) =? 0)%nat; [done|].
  destruct parent as [parent|]; [|done]. unfold bind_uds.
  destruct (String.length parent =? 0)%nat; [done|]. unfold validate_parent_dir_confinement. rewrite Hp. cbn [negb].
  fold (world_writable mode) (sticky mode). rewrite Hmode in Hu.
  assert (Hw : world_writable mode && negb (sticky mode) = false).
  { destruct (us_parent st) as [[]|[]]; try done. destruct (us_entry st) as [[]|[]]; try done;
      by destruct (world_writable mode && negb (sticky mode)). }
  rewrite Hw, He. destruct (us_parent st) as [[]|[]]; try done.
  destruct (us_entry st) as [[]|[]]; try done; cbn [not_socket_label]; rewrite ?Hr, Hb; by eexists.
Qed.

Section FirstBoot.
Context `{TL : TempLaws} `{Toml_c : !Toml Config} `{TC : !TomlLaws Config}.

(** A first boot cut anywhere leaves no [config.toml] or a whole default one; one
    that returns leaves the default one. *)
Lemma first_boot_durable (p : path) (w : World) :
  p ≠ [] → not_temp p → no_moves (disk w) → definite (disk w) p None →
  let '(w', r) := load_or_init_config p w in
  (∀ img, crash_image (disk w') img → img !! p = None ∨ boots p img Config_default_for) ∧
  (∀ c, r = Ret c → c = Config_default_for ∧ ∀ img, crash_image (disk w') img → boots p img Config_default_for).
Proof.
  intros Hp Hnt Hnm Hdef.
  assert (Ht : triple (toml_held p [None] []) (load_or_init_config p)
    (λ c d, c = Config_default_for ∧ on_disk p Config_default_for d)
    (toml_held p [None] (new_file Config_default_for)) (toml_held p [None] (new_file Config_default_for))).
  { unfold load_or_init_config. eapply triple_bind with (R := λ b d, b = false ∧ toml_held p [None] [] d).
    { intros w1 Hw1. unfold path_exists. split; [|exact Hw1]. destruct Hw1 as [_ Hw1]. cbn [held] in Hw1. apply facts_one in Hw1.
      apply definite_visible in Hw1. unfold stat. rewrite Hw1. by apply bool_decide_eq_false_2; intros []. }
    intros b. apply triple_pure. intros ->.
    eapply triple_bind with (R := λ _, toml_held p [None] []).
    { intros w1 Hw1. unfold path_exists. exact Hw1. }
    intros there. eapply triple_bind with (R := λ _, toml_held p [None] []).
    { destruct (_ || there); [by apply triple_ret|]. apply triple_map_throw.
      eapply triple_conseq; [by apply (create_parent_triple p [None])|..]; eauto using toml_held_weaken. }
    intros _. unfold ConfigCell_from_value. rewrite Config_default_valid.
    eapply triple_bind with (R := λ c d, c = Config_default_for ∧ toml_held p [None] [] d); [by apply triple_ret|].
    intros c. apply triple_pure. intros ->.
    eapply triple_bind; [apply triple_map_throw, (write_toml_triple p Config_default_for [None] Hp Hnt)|].
    intros ?. apply triple_ret. intros d (H1 & text & H2 & H3). split; [done|]. split; [done|]. eexists. split; [by apply holds_written|done]. }
  specialize (Ht w ltac:(split; [done|]; cbn [held]; by apply facts_one)).
  destruct (load_or_init_config p w) as [w' r].
  assert (Hcut : toml_held p [None] (new_file Config_default_for) (disk w') → ∀ img, crash_image (disk w') img →
    img !! p = None ∨ boots p img Config_default_for).
  { intros [_ Hd] img Hi. cbn [held] in Hd. apply facts_one in Hd. unfold new_file in Hd.
    destruct (to_string_pretty Config_default_for) as [text|] eqn:E; apply (among_crash _ _ _ img) in Hd; try done.
    - apply elem_of_cons in Hd as [Hd|Hd%list_elem_of_singleton]; [|by left]. right.
      eapply boots_file; [exact Hd|by apply holds_written|apply Config_default_valid].
    - apply list_elem_of_singleton in Hd. by left. }
  destruct r as [c|e|]; [|split; [by apply Hcut|done]..].
  destruct Ht as [-> Hod].
  assert (Hb : ∀ img, crash_image (disk w') img → boots p img Config_default_for).
  { intros img Hi. eapply on_disk_boots; [exact Hod|apply Config_default_valid|done]. }
  split; [intros img Hi; right; by apply Hb|]. intros c [= <-]. done.
Qed.
End FirstBoot.

(** ** Examples *)

Example tcp_binds :
  map validate_tcp_bind ["127.0.0.1:8787"; "[::1]:80"; "0.0.0.0:+0"; "localhost"; ":80"; "[]:80"; "h:65536"; "h:"]%string =
  [Ok tt; Ok tt; Ok tt; Err TcpNoColon; Err TcpEmptyHost; Err TcpEmptyHost; Err (TcpPort "65536"); Err (TcpPort "")].
Proof. vm_compute. reflexivity. Qed.

Example default_launch_validates :
  LaunchConfig_validate (mkUdsStats (Ok FtDirectory) (Err IoNotFound) (Ok 448)) (Some "var/run"%string) LaunchConfig_default_for = Ok tt.
Proof. vm_compute. reflexivity. Qed.

(** A policy chosen while the daemon runs its synthetic catalogue is written to
    [config.toml], and the next boot without the flag refuses to start: the
    manifest has no such microphone. *)
Lemma mock_policy_refuses_next_boot `{U : UuidLib} :
  let _ := bits_toml Config in let _ := long_temp_lib in
  let policy := mkMicPolicy (FixedMic (mkMicId "mock:0")) Auto in
  let '(s', r) := api cf_path mock_catalogue (SetPolicy policy) (cf_proc Config_default_for None []) in
  r = Done tt ∧
  ∃ e, snd (boot_config false (l_mic LaunchConfig_default_for) cf_path (calm (disk (p_world s')))) = Throw (BootPolicy e).
Proof. vm_compute. split; [reflexivity|]. eexists. reflexivity. Qed.
