(* ===== verification/DrainRegistry.v ===== *)
(** * The drain registry

    [daemon/drain_registry.rs]: the tasks the daemon spawned, their cancellation
    tokens and hooks, and the bounded shutdown that cancels, runs the hooks and
    joins every task under a budget of its own and an outer one.

    The runtime's part is written out: a task runs until it ends; [abort] makes an
    async task end as cancelled at some later point and does nothing to a running
    blocking closure; [timeout] polls its future before its timer; [join_all]
    polls all its futures at each wake.  Times are nanoseconds. *)

From S2P Require Import Prelude.

(** ** Tasks *)

(** What awaiting a [JoinHandle] yields. *)
Inductive Joined : Type :=
  | JoinedOk
  | JoinedErr (e : string)      (** the task's own [Err] *)
  | JoinCancelled
  | JoinPanicked (e : string).

Record Task : Type := mkTask {
  t_blocking : bool;             (** a running [spawn_blocking] closure *)
  t_aborted : bool;              (** [abort] was called *)
  t_end : option Joined;         (** [None] while it runs *)
}.

Definition abort (t : Task) : Task := mkTask (t_blocking t) true (t_end t).
Definition ends (j : Joined) (t : Task) : Task := mkTask (t_blocking t) (t_aborted t) (Some j).

(** How a running task may end: as cancelled only after an abort, and never a
    blocking one. *)
Definition may_end (t : Task) (j : Joined) : bool :=
  match t_end t, j with
  | Some _, _ => false
  | None, JoinCancelled => t_aborted t && negb (t_blocking t)
  | None, _ => true
  end.

(** ** The registry *)

Inductive Tier : Type := Major | Background.

Inductive TaskOutcome : Type :=
  | Clean
  | OutcomeError (e : string)
  | Cancelled
  | Panicked (e : string).

(** The two [DrainableHandle]s; a handle names its task. *)
Inductive DrainableHandle : Type :=
  | ResultHandle (task : nat)
  | UnitHandle (task : nat).

Definition task_of (h : DrainableHandle) : nat := match h with ResultHandle i | UnitHandle i => i end.

(** [drain], once the handle resolves; a [JoinHandle<()>] has no [Err] of its own. *)
Definition drain (h : DrainableHandle) (j : Joined) : TaskOutcome :=
  match h, j with
  | _, JoinedOk => Clean
  | ResultHandle _, JoinedErr e => OutcomeError e
  | UnitHandle _, JoinedErr _ => Clean
  | _, JoinCancelled => Cancelled
  | _, JoinPanicked e => Panicked e
  end.

Record Slot : Type := mkSlot { slot_name : string; slot_tier : Tier; slot_inner : DrainableHandle }.

(** What runs beside the registry: the tasks, the tokens cancelled so far, and
    whatever state the hooks act on. *)
Record Runtime (W : Type) : Type := mkRuntime {
  tasks : list Task;
  cancelled_tokens : list nat;
  outside : W;
}.
Arguments mkRuntime {W}.
Arguments tasks {W}.
Arguments cancelled_tokens {W}.
Arguments outside {W}.

Record DrainRegistry (W : Type) : Type := mkDrainRegistry {
  slots : list Slot;
  cancel_tokens : list nat;
  pre_drain_hooks : list (W → W * Z);
}.
Arguments mkDrainRegistry {W}.
Arguments slots {W}.
Arguments cancel_tokens {W}.
Arguments pre_drain_hooks {W}.

Section Registry.
Context {W : Type}.

Definition DrainRegistry_new : DrainRegistry W := mkDrainRegistry [] [] [].

Definition register_major (name : string) (handle : nat) (r : DrainRegistry W) : DrainRegistry W :=
  mkDrainRegistry (slots r ++ [mkSlot name Major (ResultHandle handle)]) (cancel_tokens r) (pre_drain_hooks r).
Definition register_major_with_token (name : string) (handle token : nat) (r : DrainRegistry W) : DrainRegistry W :=
  register_major name handle (mkDrainRegistry (slots r) (cancel_tokens r ++ [token]) (pre_drain_hooks r)).
Definition register_bg (name : string) (handle : nat) (r : DrainRegistry W) : DrainRegistry W :=
  mkDrainRegistry (slots r ++ [mkSlot name Background (UnitHandle handle)]) (cancel_tokens r) (pre_drain_hooks r).
Definition register_pre_drain_hook (hook : W → W * Z) (r : DrainRegistry W) : DrainRegistry W :=
  mkDrainRegistry (slots r) (cancel_tokens r) (pre_drain_hooks r ++ [hook]).

(** Cancelling twice is cancelling once. *)
Definition cancel (token : nat) (rt : Runtime W) : Runtime W :=
  mkRuntime (tasks rt) (if decide (token ∈ cancelled_tokens rt) then cancelled_tokens rt else token :: cancelled_tokens rt)
    (outside rt).

Definition cancel_all (r : DrainRegistry W) (rt : Runtime W) : Runtime W * nat :=
  (foldl (λ rt token, cancel token rt) rt (cancel_tokens r), List.length (cancel_tokens r)).

(** [usize::saturating_add]. *)
Definition saturating_add (a b : Z) : Z := (a + b) `min` (2 ^ 64 - 1).

Fixpoint run_hooks (hooks : list (W → W * Z)) (rt : Runtime W) (hook_total : Z) : Runtime W * Z :=
  match hooks with
  | [] => (rt, hook_total)
  | hook :: hooks =>
      let '(w, n) := hook (outside rt) in
      run_hooks hooks (mkRuntime (tasks rt) (cancelled_tokens rt) w) (saturating_add hook_total n)
  end.

(** ** The drain *)

Definition MAJOR_BUDGET : Z := from_secs 5.
Definition BG_BUDGET : Z := from_secs 1.

Definition budget_of (t : Tier) : Z := match t with Major => MAJOR_BUDGET | Background => BG_BUDGET end.

(** Where [drain_one] of a slot is. *)
Inductive Progress : Type :=
  | Waiting
  | Logged (outcome : TaskOutcome)
  | Overran.                      (** warned about and aborted *)

Definition abort_task (i : nat) (ts : list Task) : list Task := alter abort i ts.

(** One poll of [timeout(budget, inner.drain())]: the task first, then the timer. *)
Definition poll_one (start now : Z) (s : Slot) (p : Progress) (ts : list Task) : Progress * list Task :=
  match p with
  | Waiting =>
      match ts !! task_of (slot_inner s) ≫= t_end with
      | Some j => (Logged (drain (slot_inner s) j), ts)
      | None =>
          if (start + budget_of (slot_tier s) <=? now)%Z
          then (Overran, abort_task (task_of (slot_inner s)) ts)
          else (Waiting, ts)
      end
  | _ => (p, ts)
  end.

Fixpoint poll_all (start now : Z) (l : list (Slot * Progress)) (ts : list Task) : list (Slot * Progress) * list Task :=
  match l with
  | [] => ([], ts)
  | (s, p) :: l =>
      let '(p, ts) := poll_one start now s p ts in
      let '(l, ts) := poll_all start now l ts in
      ((s, p) :: l, ts)
  end.

Definition finished (x : Slot * Progress) : bool := match snd x with Waiting => false | _ => true end.

(** A running [shutdown_and_drain]. *)
Record Draining : Type := mkDraining {
  dr_now : Z;
  dr_start : Z;
  dr_outer : Z;
  dr_slots : list (Slot * Progress);
  dr_runtime : Runtime W;
  dr_answer : option bool;
}.

(** The synchronous part: tokens, then hooks, then the futures are made. *)
Definition shutdown_begin (r : DrainRegistry W) (outer now : Z) (rt : Runtime W) : Draining :=
  let '(rt, _) := cancel_all r rt in
  let '(rt, _) := run_hooks (pre_drain_hooks r) rt 0 in
  mkDraining now now outer (map (λ s, (s, Waiting)) (slots r)) rt None.

(** One poll of [timeout(outer_budget, join_all(..))] and what follows it. *)
Definition poll_drain (d : Draining) : Draining :=
  let '(l, ts) := poll_all (dr_start d) (dr_now d) (dr_slots d) (tasks (dr_runtime d)) in
  let with_tasks ts := mkRuntime ts (cancelled_tokens (dr_runtime d)) (outside (dr_runtime d)) in
  if forallb finished l then mkDraining (dr_now d) (dr_start d) (dr_outer d) l (with_tasks ts) (Some true)
  else if (dr_start d + dr_outer d <=? dr_now d)%Z
  then mkDraining (dr_now d) (dr_start d) (dr_outer d) l
         (with_tasks (foldl (λ ts x, abort_task (task_of (slot_inner (fst x))) ts) ts l)) (Some false)
  else mkDraining (dr_now d) (dr_start d) (dr_outer d) l (with_tasks ts) None.

(** The rest of the process: time passes, tasks end, the drain is polled. *)
Inductive drain_step : Draining → Draining → Prop :=
  | step_time d dt : (0 <= dt)%Z →
      drain_step d (mkDraining (dr_now d + dt) (dr_start d) (dr_outer d) (dr_slots d) (dr_runtime d) (dr_answer d))
  | step_end d i t j : tasks (dr_runtime d) !! i = Some t → may_end t j = true →
      drain_step d (mkDraining (dr_now d) (dr_start d) (dr_outer d) (dr_slots d)
        (mkRuntime (<[i := ends j t]> (tasks (dr_runtime d))) (cancelled_tokens (dr_runtime d)) (outside (dr_runtime d)))
        (dr_answer d))
  | step_outside d w :
      drain_step d (mkDraining (dr_now d) (dr_start d) (dr_outer d) (dr_slots d)
        (mkRuntime (tasks (dr_runtime d)) (cancelled_tokens (dr_runtime d)) w) (dr_answer d))
  | step_poll d : dr_answer d = None → drain_step d (poll_drain d).

(** [async_main] after the drain: the exit code when the process is ended, [None]
    when it returns and the runtime is dropped. *)
Definition exit_of (drained_clean : bool) (exit_code : Z) : option Z :=
  if negb drained_clean then Some 1%Z else if (exit_code =? 0)%Z then None else Some exit_code.
End Registry.

(** Dropping the runtime waits for every running blocking closure. *)
Definition drop_returns {W : Type} (rt : Runtime W) : bool :=
  forallb (λ t, negb (t_blocking t) || bool_decide (is_Some (t_end t))) (tasks rt).

Definition OUTER_BUDGET : Z := from_secs 10.

(** ** The shutdown *)

Section Shutdown.
Context {W : Type}.
Implicit Types (r : DrainRegistry W) (rt : Runtime W).

Lemma cancel_tokens_in token rt : token ∈ cancelled_tokens (cancel token rt) ∧
  ∀ t, t ∈ cancelled_tokens rt → t ∈ cancelled_tokens (cancel token rt).
Proof. unfold cancel. case_decide; cbn; set_solver. Qed.

Lemma cancel_all_in r rt token : token ∈ cancel_tokens r → token ∈ cancelled_tokens (fst (cancel_all r rt)).
Proof.
  unfold cancel_all. cbn. assert (H : ∀ l rt, (∀ t, t ∈ cancelled_tokens rt → t ∈ cancelled_tokens (foldl (λ rt k, cancel k rt) rt l)) ∧
    ∀ t, t ∈ l → t ∈ cancelled_tokens (foldl (λ rt k, cancel k rt) rt l)).
  { induction l as [|k l IH]; intros rt0; cbn; [split; [done|by intros t ?%elem_of_nil]|].
    destruct (cancel_tokens_in k rt0) as [Hk Hkeep], (IH (cancel k rt0)) as [H1 H2]. split; [by auto|].
    intros t [->|Ht]%elem_of_cons; auto. }
  apply H.
Qed.

Lemma run_hooks_keeps hooks rt n :
  tasks (fst (run_hooks hooks rt n)) = tasks rt ∧ cancelled_tokens (fst (run_hooks hooks rt n)) = cancelled_tokens rt ∧
  outside (fst (run_hooks hooks rt n)) = foldl (λ w hook, fst (hook w)) (outside rt) hooks.
Proof.
  revert rt n. induction hooks as [|hook hooks IH]; intros rt n; cbn; [done|].
  destruct (hook (outside rt)) as [w k] eqn:E. cbn. specialize (IH (mkRuntime (tasks rt) (cancelled_tokens rt) w) (saturating_add n k)).
  cbn in IH. exact IH.
Qed.

(** Where a slot stands at time [now] of a drain begun at [start]. *)
Definition progress_ok (start now : Z) (ts : list Task) (x : Slot * Progress) : Prop :=
  match snd x with
  | Waiting => True
  | Logged o => ∃ t j, ts !! task_of (slot_inner (fst x)) = Some t ∧ t_end t = Some j ∧ o = drain (slot_inner (fst x)) j
  | Overran => (start + budget_of (slot_tier (fst x)) <= now)%Z ∧
      ∀ t, ts !! task_of (slot_inner (fst x)) = Some t → t_aborted t = true
  end.

(** What later steps keep of a task. *)
Definition task_le (ts ts' : list Task) : Prop :=
  ∀ i, match ts !! i, ts' !! i with
       | Some t, Some t' => (t_aborted t = true → t_aborted t' = true) ∧ (∀ j, t_end t = Some j → t_end t' = Some j) ∧
                            t_blocking t' = t_blocking t
       | None, None => True
       | _, _ => False
       end.

#[local] Instance task_le_pre : PreOrder task_le.
Proof.
  split.
  - intros ts i. by destruct (ts !! i).
  - intros a b c H1 H2 i. specialize (H1 i). specialize (H2 i).
    destruct (a !! i), (b !! i), (c !! i); naive_solver congruence.
Qed.

Lemma task_le_abort i ts : task_le ts (abort_task i ts).
Proof.
  intros k. unfold abort_task. destruct (decide (i = k)) as [->|Hne].
  - rewrite list_lookup_alter_eq. by destruct (ts !! k).
  - rewrite list_lookup_alter_ne by done. by destruct (ts !! k).
Qed.

Lemma task_le_end i t j ts : ts !! i = Some t → may_end t j = true → task_le ts (<[i := ends j t]> ts).
Proof.
  intros Hi Hj k. destruct (decide (i = k)) as [->|Hne].
  - rewrite list_lookup_insert_eq by by eapply lookup_lt_Some. rewrite Hi. unfold may_end in Hj.
    by destruct t as [bl ab [e|]].
  - rewrite list_lookup_insert_ne by done. by destruct (ts !! k).
Qed.

Lemma progress_ok_mono start now now' ts ts' x : (now <= now')%Z → task_le ts ts' →
  progress_ok start now ts x → progress_ok start now' ts' x.
Proof.
  intros Hn Ht. unfold progress_ok. destruct (snd x) as [|o|]; [done|..]; specialize (Ht (task_of (slot_inner (fst x)))).
  - intros (t & j & E & Hj & Ho). rewrite E in Ht. destruct (ts' !! _) as [t'|]; [|done].
    exists t', j. naive_solver.
  - intros [Hb Ha]. split; [lia|]. intros t' E. rewrite E in Ht. destruct (ts !! _) as [t|]; [|done]. naive_solver.
Qed.

Lemma abort_task_aborted i ts t : abort_task i ts !! i = Some t → t_aborted t = true.
Proof. unfold abort_task. rewrite list_lookup_alter_eq. destruct (ts !! i); [|done]. by intros [= <-]. Qed.

Lemma poll_one_ok start now s p ts :
  let '(p', ts') := poll_one start now s p ts in
  task_le ts ts' ∧ (progress_ok start now ts (s, p) → progress_ok start now ts' (s, p')) ∧
  (p' = Waiting → (now < start + budget_of (slot_tier s))%Z).
Proof.
  unfold poll_one. destruct p as [|o|]; [|split_and!; [done|done|congruence]..].
  destruct (ts !! task_of (slot_inner s) ≫= t_end) as [j|] eqn:E.
  - split_and!; [done| |congruence]. intros _. apply bind_Some in E as (t & E & Hj). by exists t, j.
  - destruct (Z.leb_spec (start + budget_of (slot_tier s)) now) as [Hb|Hb]; [|done].
    split_and!; [apply task_le_abort| |congruence]. intros _. split; [done|]. cbn [fst]. intros t. apply abort_task_aborted.
Qed.

Lemma poll_all_ok start now l ts :
  let '(l', ts') := poll_all start now l ts in
  task_le ts ts' ∧ map fst l' = map fst l ∧
  (Forall (progress_ok start now ts) l → Forall (progress_ok start now ts') l') ∧
  Forall (λ x, snd x = Waiting → (now < start + budget_of (slot_tier (fst x)))%Z) l'.
Proof.
  revert ts. induction l as [|[s p] l IH]; intros ts; cbn [poll_all]; [done|].
  pose proof (poll_one_ok start now s p ts) as H1. destruct (poll_one start now s p ts) as [p' ts1].
  destruct H1 as (Hle1 & Hp & Hw). specialize (IH ts1). destruct (poll_all start now l ts1) as [l' ts2].
  destruct IH as (Hle2 & Hm & Hl & Hw2). cbn [map]. rewrite Hm. split_and!; [by etrans|done| |by constructor].
  intros HF. inversion HF as [|x0 l0 H1 H2]; subst. constructor.
  - apply (progress_ok_mono start now now ts1); [lia|done|by apply Hp].
  - apply Hl. eapply list.Forall_impl; [exact H2|]. intros x. by apply progress_ok_mono.
Qed.

Lemma abort_all_ok (l : list (Slot * Progress)) ts :
  let ts' := foldl (λ ts x, abort_task (task_of (slot_inner (fst x))) ts) ts l in
  task_le ts ts' ∧ ∀ x t, x ∈ l → ts' !! task_of (slot_inner (fst x)) = Some t → t_aborted t = true.
Proof.
  cbv zeta. revert ts. induction l as [|y l IH]; intros ts; cbn [foldl]; [split; [done|by intros x t ?%elem_of_nil]|].
  destruct (IH (abort_task (task_of (slot_inner (fst y))) ts)) as [Hle Ha].
  split; [etrans; [apply task_le_abort|exact Hle]|]. intros x t [->|Hx]%elem_of_cons Ht; [|by eapply Ha].
  specialize (Hle (task_of (slot_inner (fst y)))). rewrite Ht in Hle.
  destruct (abort_task (task_of (slot_inner (fst y))) ts !! task_of (slot_inner (fst y))) as [t0|] eqn:E; [|done].
  apply Hle. by eapply abort_task_aborted.
Qed.

Variables (r : DrainRegistry W) (start outer : Z) (rt0 : Runtime W).

(** Aborted, or ended by itself or before. *)
Definition stopped_at (ts : list Task) (s : Slot) : Prop :=
  ∀ t, ts !! task_of (slot_inner s) = Some t → t_aborted t = true.

Record drain_inv (d : @Draining W) : Prop := {
  di_start : dr_start d = start;
  di_outer : dr_outer d = outer;
  di_now : (start <= dr_now d)%Z;
  di_slots : map fst (dr_slots d) = slots r;
  di_tokens : ∀ token, token ∈ cancel_tokens r → token ∈ cancelled_tokens (dr_runtime d);
  di_progress : Forall (progress_ok start (dr_now d) (tasks (dr_runtime d))) (dr_slots d);
  di_true : dr_answer d = Some true → forallb finished (dr_slots d) = true;
  di_false : dr_answer d = Some false →
    (start + outer <= dr_now d)%Z ∧ (outer < MAJOR_BUDGET)%Z ∧
    ∀ s, s ∈ slots r → stopped_at (tasks (dr_runtime d)) s;
}.

Lemma drain_inv_begin : drain_inv (shutdown_begin r outer start rt0).
Proof.
  unfold shutdown_begin. pose proof (cancel_all_in r rt0) as Hc. destruct (cancel_all r rt0) as [rt1 n].
  pose proof (run_hooks_keeps (pre_drain_hooks r) rt1 0) as Hh. destruct (run_hooks _ rt1 0) as [rt2 k]. cbn in *.
  destruct Hh as (_ & Ht & _). split; cbn; try done.
  - rewrite map_map. cbn. apply map_id.
  - intros token Hk. rewrite Ht. by apply Hc.
  - apply List.Forall_forall. by intros x (s & <- & _)%in_map_iff.
Qed.

Lemma stopped_mono ts ts' s : task_le ts ts' → stopped_at ts s → stopped_at ts' s.
Proof.
  intros Hle H t Ht. specialize (Hle (task_of (slot_inner s))). rewrite Ht in Hle.
  destruct (ts !! task_of (slot_inner s)) as [t0|] eqn:E; [|done]. by apply Hle, H.
Qed.

(** Time and the tasks' own steps. *)
Lemma drain_inv_run d now rt :
  (dr_now d <= now)%Z → task_le (tasks (dr_runtime d)) (tasks rt) → cancelled_tokens rt = cancelled_tokens (dr_runtime d) →
  drain_inv d → drain_inv (mkDraining now (dr_start d) (dr_outer d) (dr_slots d) rt (dr_answer d)).
Proof.
  intros Hn Hle Hc []. split; cbn; try done; [lia|by rewrite Hc|..].
  - eapply list.Forall_impl; [exact di_progress0|]. intros x. by apply progress_ok_mono.
  - intros Ha. destruct (di_false0 Ha) as (H1 & H2 & H3). split_and!; [lia|done|].
    intros s Hs. eapply stopped_mono; [exact Hle|by apply H3].
Qed.

Lemma budget_major t : (budget_of t <= MAJOR_BUDGET)%Z.
Proof. destruct t; vm_compute; congruence. Qed.

Lemma drain_inv_poll d : drain_inv d → drain_inv (poll_drain d).
Proof.
  intros []. unfold poll_drain. pose proof (poll_all_ok (dr_start d) (dr_now d) (dr_slots d) (tasks (dr_runtime d))) as Hp.
  destruct (poll_all _ _ _ _) as [l ts]. destruct Hp as (Hle & Hm & Hpr & Hw). rewrite di_start0 in *. rewrite di_slots0 in Hm.
  specialize (Hpr di_progress0). destruct (forallb finished l) eqn:Hf; [by split|].
  rewrite di_outer0. destruct (Z.leb_spec (start + outer) (dr_now d)) as [Ho|Ho]; [|by split].
  destruct (abort_all_ok l ts) as [Hle2 Ha]. split; try done; cbn [dr_runtime tasks dr_slots dr_now dr_answer].
  - eapply list.Forall_impl; [exact Hpr|]. intros x. by apply progress_ok_mono.
  - intros _. split_and!; [done| |].
    + apply not_true_iff_false in Hf. destruct (decide (MAJOR_BUDGET ≤ outer)%Z) as [Hge|]; [exfalso|lia]. apply Hf, forallb_forall.
      intros [s p] Hx. pose proof (proj1 (List.Forall_forall _ _) Hw _ Hx) as H. cbn [snd fst] in H.
      unfold finished. cbn [snd]. destruct p; try done. specialize (H eq_refl). pose proof (budget_major (slot_tier s)). lia.
    + intros s Hs. rewrite <-Hm in Hs. apply list_elem_of_fmap in Hs as (x & -> & Hx). intros t. by apply Ha.
Qed.

Lemma drain_inv_step d d' : drain_step d d' → drain_inv d → drain_inv d'.
Proof.
  intros [d0 dt Hdt|d0 i t j Hi Hj|d0 w|d0 Hn] Hd; [..|by apply drain_inv_poll];
    apply drain_inv_run; cbn; try done; try lia. by apply task_le_end.
Qed.

Lemma drain_reach d : rtc drain_step (shutdown_begin r outer start rt0) d → drain_inv d.
Proof.
  intros H. assert (Hinv := drain_inv_begin). revert Hinv. induction H as [|x y z Hs _ IH]; [done|]. intros Hx.
  by apply IH, (drain_inv_step x y).
Qed.

(** A poll past a deadline answers. *)
Lemma poll_answers d : drain_inv d →
  (start + outer <= dr_now d ∨ start + MAJOR_BUDGET <= dr_now d)%Z → is_Some (dr_answer (poll_drain d)).
Proof.
  intros [] Hn. unfold poll_drain. pose proof (poll_all_ok (dr_start d) (dr_now d) (dr_slots d) (tasks (dr_runtime d))) as Hp.
  destruct (poll_all _ _ _ _) as [l ts]. destruct Hp as (_ & _ & _ & Hw).
  destruct (forallb finished l) eqn:Hf; [by eexists|]. rewrite di_start0, di_outer0 in *.
  destruct (Z.leb_spec (start + outer) (dr_now d)) as [Ho|Ho]; [by eexists|]. exfalso.
  apply not_true_iff_false in Hf. apply Hf, forallb_forall. intros [s p] Hx.
  pose proof (proj1 (List.Forall_forall _ _) Hw _ Hx) as H. unfold finished. cbn [snd fst] in *. destruct p; try done.
  specialize (H eq_refl). pose proof (budget_major (slot_tier s)). lia.
Qed.
End Shutdown.

(** ** Properties *)

(** C29: The shutdown is bounded and leaves no task unattended.  Whatever the
    tasks do and whenever the drain is polled: every registered token is
    cancelled from the start; the first poll past the outer budget, or past the
    longest task budget, answers; on [true] every task has ended, and its
    outcome was logged, or has overrun its tier's budget and was aborted; on
    [false] the outer budget is spent and every task was aborted.  With an outer
    budget of at least five seconds the answer is never [false]. *)
Theorem drain_bounded {W : Type} (r : DrainRegistry W) (outer start : Z) (rt : Runtime W) (d : Draining)
    (Hreach : rtc drain_step (shutdown_begin r outer start rt) d) :
  let ts := tasks (dr_runtime d) in
  (∀ token, token ∈ cancel_tokens r → token ∈ cancelled_tokens (dr_runtime d)) ∧
  ((start + outer <= dr_now d ∨ start + MAJOR_BUDGET <= dr_now d)%Z → is_Some (dr_answer (poll_drain d))) ∧
  (dr_answer d = Some true → ∀ s, s ∈ slots r →
    (∃ t j, ts !! task_of (slot_inner s) = Some t ∧ t_end t = Some j ∧
            (s, Logged (drain (slot_inner s) j)) ∈ dr_slots d) ∨
    ((start + budget_of (slot_tier s) <= dr_now d)%Z ∧ stopped_at ts s)) ∧
  (dr_answer d = Some false → (start + outer <= dr_now d)%Z ∧ ∀ s, s ∈ slots r → stopped_at ts s) ∧
  ((MAJOR_BUDGET <= outer)%Z → dr_answer d ≠ Some false).
Proof.
  intros ts. pose proof (drain_reach r start outer rt d Hreach) as Hd.
  split_and!; [apply Hd|by eapply poll_answers| |intros Ha; pose proof (di_false _ _ _ _ Hd Ha); tauto|].
  - intros Ha s Hs. pose proof (di_true _ _ _ _ Hd Ha) as Hf. rewrite <-(di_slots _ _ _ _ Hd) in Hs.
    apply list_elem_of_fmap in Hs as ([s' p] & -> & Hx). cbn [fst].
    pose proof (proj1 (List.Forall_forall _ _) (di_progress _ _ _ _ Hd) _ (proj1 (list_elem_of_In _ _) Hx)) as Hp.
    pose proof (proj1 (forallb_forall _ _) Hf _ (proj1 (list_elem_of_In _ _) Hx)) as Hfin.
    unfold progress_ok in Hp. cbn [fst snd] in Hp. destruct p as [|o|]; [done| |by right].
    left. destruct Hp as (t & j & Ht & Hj & ->). by exists t, j.
  - intros Hge Ha. pose proof (di_false _ _ _ _ Hd Ha) as (_ & Hlt & _). lia.
Qed.

(** ** A stuck worker *)

(** An inference engine that does not observe its token. *)
Definition stuck_registry : DrainRegistry unit := register_major_with_token "inference" 0 7 DrainRegistry_new.
Definition stuck_runtime : Runtime unit := mkRuntime [mkTask true false None] [] tt.
Definition stuck_drain : Draining :=
  poll_drain (let d := shutdown_begin stuck_registry OUTER_BUDGET 0 stuck_runtime in
    mkDraining (dr_now d + MAJOR_BUDGET) (dr_start d) (dr_outer d) (dr_slots d) (dr_runtime d) (dr_answer d)).

Lemma stuck_reach : rtc drain_step (shutdown_begin stuck_registry OUTER_BUDGET 0 stuck_runtime) stuck_drain.
Proof.
  eapply rtc_l; [apply (step_time _ MAJOR_BUDGET); vm_compute; congruence|]. eapply rtc_l; [by apply step_poll|].
  apply rtc_refl.
Qed.

Lemma drain_bounded_witness :
  dr_answer stuck_drain = Some true ∧ (MAJOR_BUDGET <= dr_now stuck_drain)%Z ∧
  7 ∈ cancelled_tokens (dr_runtime stuck_drain).
Proof.
  destruct (drain_bounded stuck_registry OUTER_BUDGET 0 stuck_runtime stuck_drain stuck_reach) as (Ht & _).
  split_and!; [vm_compute; reflexivity|vm_compute; congruence|]. apply Ht. apply list_elem_of_In. by left.
Defined.

(** With the daemon's ten seconds the drain never reports an overrun: a worker
    that never stops is reported as drained, the process does not exit and the
    runtime's drop waits for the worker. *)
Theorem stuck_worker_drained :
  (∀ (W : Type) (r : DrainRegistry W) (start : Z) (rt : Runtime W) (d : Draining),
    rtc drain_step (shutdown_begin r OUTER_BUDGET start rt) d → dr_answer d ≠ Some false) ∧
  dr_answer stuck_drain = Some true ∧ exit_of true 0 = None ∧
  drop_returns (dr_runtime stuck_drain) = false.
Proof.
  split_and!; [|vm_compute; reflexivity..]. intros W r start rt d H Ha.
  pose proof (di_false _ _ _ _ (drain_reach r start OUTER_BUDGET rt d H) Ha) as (_ & Hlt & _).
  vm_compute in Hlt. congruence.
Qed.
