(* ===== verification/Finetune.v ===== *)
(** * Fine-tuning: configuration, quality gates and the stratified split

    The parts of [training/finetune.rs] that compute on indices and counts: the
    validation of a run's configuration, the per-class accounting, the gates on
    what feature extraction dropped, the deterministic shuffle and the split into
    training and validation sets.  A panic (an index out of range, [clamp] with
    its bounds crossed) is an outcome of its own; [catch_unwind] turns it into
    [FinetuneError::Panic] at the end.  Numbers inside messages that are floats
    are not rendered. *)

From Stdlib Require Import SpecFloat.
From stdpp Require Import pretty.
From S2P Require Import Prelude Common FileSystem F32 F32Facts Config ApiErrors.

Local Open Scope nat_scope.

(** ** Outcomes *)

Inductive Stop : Type := Panicked (message : string) | Fails (e : FinetuneError).

Abbreviation T := (result Stop).

Definition fails {A : Type} (e : FinetuneError) : T A := Err (Fails e).

(** [l[i]]. *)
Definition index {A : Type} (l : list A) (i : nat) : T A :=
  match l !! i with Some x => Ok x | None => Err (Panicked "index out of bounds") end.

(** [l.iter().enumerate()]. *)
Definition enumerate {A : Type} (l : list A) : list (nat * A) := imap pair l.

(** ** [FinetuneConfig] *)

Record FinetuneConfig := mkFinetuneConfig {
  ft_data : path;
  ft_backbone : path;
  ft_init_head : option path;
  ft_out : path;
  ft_epochs : Z;
  ft_batch : Z;
  ft_lr : f32;
  ft_val_split : f32;
  ft_seed : Z;
}.

Definition FinetuneConfig_validate (c : FinetuneConfig) : result FinetuneError unit :=
  if (ft_epochs c =? 0)%Z then Err (FT_InvalidConfig "epochs must be >= 1")
  else if (ft_batch c =? 0)%Z then Err (FT_InvalidConfig "batch must be >= 1")
  else if negb (is_finite (ft_lr c) && float_gt (ft_lr c) f32_zero)
  then Err (FT_InvalidConfig "lr must be finite and > 0")
  else if negb (is_finite (ft_val_split c) && float_ge (ft_val_split c) f32_zero && float_gt f32_one (ft_val_split c))
  then Err (FT_InvalidConfig "val_split must be finite and in [0, 1)")
  else Ok tt.

(** ** Per-class accounting *)

(** One example of class [label] more, if there is such a class. *)
Definition count_one (counts : list nat) (label : nat) : list nat :=
  if label <? List.length counts then alter S label counts else counts.

Definition per_class_counts_from_examples (classes : list string) (examples : list (path * nat)) : list nat :=
  foldl (λ counts '(_, label), count_one counts label) (replicate (List.length classes) 0) examples.

Definition per_class_counts_from_labels (n_classes : nat) (labels : list nat) : list nat :=
  foldl count_one (replicate n_classes 0) labels.

(** [counts.iter().enumerate().find(|(_, n)| **n == 0)]. *)
Definition first_empty (counts : list nat) : option nat :=
  fst <$> List.find (λ x, snd x =? 0) (enumerate counts).

(** ** The gates after extraction *)

(** [0.10_f32]. *)
Definition MAX_DROP_RATIO : f32 := S754_finite false 13421773 (-27).

(** [x as f32]. *)
Definition nat_as_f32 (n : nat) : f32 := f32_of_int (Z.of_nat n).

Definition dropped_per_class (classes : list string) (pre_scan_counts post : list nat) : T (list (string * nat)) :=
  mapM (λ '(i, c), kept ← index post i; Ok (c, default 0 (pre_scan_counts !! i) - kept)) (enumerate classes).

Definition validate_post_extract_quality (classes : list string) (pre_scan_counts : list nat) (n_classes : nat)
    (labels : list nat) (total_in : nat) : T unit :=
  let post_extract_counts := per_class_counts_from_labels n_classes labels in
  let per_class_kept := zip classes post_extract_counts in
  per_class_dropped ← dropped_per_class classes pre_scan_counts post_extract_counts;
  match first_empty post_extract_counts with
  | Some idx =>
      class ← index classes idx;
      fails (FT_EmptyClassAfterExtract class per_class_kept per_class_dropped)
  | None =>
      let total_dropped := total_in - List.length labels in
      if 0 <? total_in then
        let ratio := f32_div (nat_as_f32 total_dropped) (nat_as_f32 total_in) in
        if float_gt ratio MAX_DROP_RATIO
        then fails (FT_DropRatioExceeded total_dropped total_in ratio per_class_kept per_class_dropped)
        else Ok tt
      else Ok tt
  end.

(** ** The shuffle *)

Definition wrap_mul64 (a b : Z) : Z := ((a * b) mod (u64_max + 1))%Z.

(** [slice.swap(i, j)]. *)
Definition swap {A : Type} (i j : nat) (slice : list A) : T (list A) :=
  x ← index slice i; y ← index slice j; Ok (<[j := x]> (<[i := y]> slice)).

Definition lcg (state : Z) : Z := wrap_add64 (wrap_mul64 state 6364136223846793005) 1442695040888963407.

Fixpoint shuffle_loop {A : Type} (ixs : list nat) (state : Z) (slice : list A) : T (list A) :=
  match ixs with
  | [] => Ok slice
  | i :: ixs =>
      let state := lcg state in
      let j := Z.to_nat (Z.shiftr state 33 mod (Z.of_nat i + 1)) in
      slice ← swap i j slice;
      shuffle_loop ixs state slice
  end.

Definition shuffle_in_place {A : Type} (slice : list A) (seed : Z) : T (list A) :=
  let n := List.length slice in
  let state := wrap_add64 (wrap_mul64 seed 11400714819323198485) 1 in
  shuffle_loop (rev (seq 1 (n - 1))) state slice.

(** ** The stratified split *)

(** [f32::round]: to the nearest integer, a half away from zero. *)
Definition f32_round (x : f32) : f32 :=
  match x with
  | S754_finite s m e =>
      if (0 <=? e)%Z then x
      else
        let q := ((2 * Z.pos m + 2 ^ (- e)) / 2 ^ (1 - e))%Z in
        binary_normalize 24 128 (if s then - q else q)%Z 0 s
  | _ => x
  end.

(** [Ord::clamp], which asserts that its bounds are in order. *)
Definition clamp (x lo hi : Z) : T Z :=
  if (hi <? lo)%Z then Err (Panicked "assertion failed: min <= max") else Ok (Z.max lo (Z.min x hi)).

(** [slice.split_at(mid)]. *)
Definition split_at {A : Type} (mid : nat) (slice : list A) : T (list A * list A) :=
  if List.length slice <? mid then Err (Panicked "mid > len") else Ok (take mid slice, drop mid slice).

Record SplitIndices := mkSplitIndices { sp_train : list nat; sp_val : list nat }.

(** The indices of each class. *)
Definition push_index (by_class : list (list nat)) '((i, label) : nat * nat) : list (list nat) :=
  if label <? List.length by_class then alter (λ b, b ++ [i]) label by_class else by_class.
Definition by_class_of (labels : list nat) (n_classes : nat) : list (list nat) :=
  foldl push_index (replicate n_classes []) (enumerate labels).

Definition label_for (classes : option (list string)) (i : nat) : string :=
  default ("class#" ++ pretty i)%string (cs ← classes; cs !! i).

Section Split.
Variables (val_split : f32) (seed : Z) (classes : option (list string)) (per_class_kept_pairs : list (string * nat)).

Definition val_enabled : bool := float_gt val_split f32_zero.

Definition n_val_of (class_n : nat) : T nat :=
  let raw_val := as_usize (f32_round (f32_mul (nat_as_f32 class_n) val_split)) in
  let v_min := if val_enabled && (2 <=? class_n) then 1 else 0 in
  let v_max := class_n - 1 in
  n_val ← clamp raw_val (Z.of_nat v_min) (Z.of_nat (v_max `max` v_min));
  Ok (Z.to_nat n_val).

Fixpoint split_classes (class_idx : nat) (by_class : list (list nat)) (train val : list nat) : T (list nat * list nat) :=
  match by_class with
  | [] => Ok (train, val)
  | bucket :: by_class =>
      let class_n := List.length bucket in
      let class_seed := Z.lxor seed (wrap_mul64 (Z.of_nat class_idx) 11936128517019425370) in
      bucket ← shuffle_in_place bucket class_seed;
      n_val ← n_val_of class_n;
      if val_enabled && (class_n =? 1)
      then fails (FT_StratifiedSplitImpossible (label_for classes class_idx) per_class_kept_pairs val_split)
      else
      '(val_part, train_part) ← split_at n_val bucket;
      split_classes (S class_idx) by_class (train ++ train_part) (val ++ val_part)
  end.
End Split.

Definition stratified_split_indices (labels : list nat) (n_classes : nat) (val_split : f32) (seed : Z)
    (classes : option (list string)) : T SplitIndices :=
  let by_class := by_class_of labels n_classes in
  let per_class_kept_pairs := map (λ '(i, v), (label_for classes i, List.length v)) (enumerate by_class) in
  '(train, val) ← split_classes val_split seed classes per_class_kept_pairs 0 by_class [] [];
  train ← shuffle_in_place train (wrap_add64 seed 12648430);
  val ← shuffle_in_place val (wrap_add64 seed 195948557);
  Ok (mkSplitIndices train val).

(** * What the split and the gates promise

    The shuffle permutes; the split covers every kept example of every class
    once, leaves each class something to train on and, when validation is on,
    something to validate on, and fails exactly on a class of one; the gate lets
    a data set through exactly when every class kept an example and the share of
    dropped examples is at most the limit. *)

(** ** The shuffle *)

Lemma index_some {A : Type} (l : list A) i x : l !! i = Some x → index l i = Ok x.
Proof. intros H. unfold index. by rewrite H. Qed.

Lemma swap_perm {A : Type} (l : list A) i j : i < List.length l → j < List.length l →
  ∃ l', swap i j l = Ok l' ∧ l' ≡ₚ l.
Proof.
  intros [x Hx]%lookup_lt_is_Some [y Hy]%lookup_lt_is_Some. exists (<[j := x]> (<[i := y]> l)).
  unfold swap. rewrite (index_some _ _ _ Hx), (index_some _ _ _ Hy). split; [done|].
  pose proof (lookup_lt_Some _ _ _ Hx) as Hi. pose proof (lookup_lt_Some _ _ _ Hy) as Hj.
  symmetry. apply Permutation_inj. split; [by rewrite !length_insert|].
  exists (λ k, if decide (k = i) then j else if decide (k = j) then i else k). split.
  - intros a b. repeat case_decide; congruence.
  - intros k. rewrite list_lookup_insert. rewrite list_lookup_insert. rewrite length_insert. repeat case_decide; naive_solver.
Qed.

Lemma shuffle_loop_perm {A : Type} (ixs : list nat) : ∀ state (l : list A), Forall (λ i, i < List.length l) ixs →
  ∃ l', shuffle_loop ixs state l = Ok l' ∧ l' ≡ₚ l.
Proof.
  induction ixs as [|i ixs IH]; intros state l His; cbn [shuffle_loop]; [by exists l|].
  apply list.Forall_cons_1 in His as [Hi His].
  destruct (swap_perm l i (Z.to_nat (Z.shiftr (lcg state) 33 mod (Z.of_nat i + 1))) Hi) as (l1 & -> & H1).
  { pose proof (Z.mod_pos_bound (Z.shiftr (lcg state) 33) (Z.of_nat i + 1) ltac:(lia)). lia. }
  cbn [mbind result_bind]. destruct (IH (lcg state) l1) as (l2 & -> & H2); [by rewrite (Permutation_length H1)|].
  exists l2. split; [done|]. by rewrite H2.
Qed.

Lemma shuffle_perm {A : Type} (l : list A) seed : ∃ l', shuffle_in_place l seed = Ok l' ∧ l' ≡ₚ l.
Proof.
  apply shuffle_loop_perm. apply list.Forall_forall. intros i Hi.
  apply list_elem_of_In, in_rev, in_seq in Hi. lia.
Qed.

(** ** The indices of a class *)

Definition members (labels : list nat) (c : nat) : list nat :=
  List.filter (λ i, bool_decide (labels !! i = Some c)) (seq 0 (List.length labels)).

Lemma elem_of_members labels c i : i ∈ members labels c ↔ labels !! i = Some c.
Proof.
  unfold members. rewrite list_elem_of_In, filter_In, bool_decide_eq_true, in_seq. split; [by intros [_ ?]|].
  intros H. split; [|done]. apply lookup_lt_Some in H. lia.
Qed.

Lemma members_NoDup labels c : NoDup (members labels c).
Proof. apply NoDup_ListNoDup, List.NoDup_filter, NoDup_ListNoDup, NoDup_seq. Qed.

Lemma members_snoc labels x c :
  members (labels ++ [x]) c = members labels c ++ (if decide (x = c) then [List.length labels] else []).
Proof.
  unfold members. rewrite length_app. cbn [List.length]. rewrite seq_app, List.filter_app. f_equal.
  - apply List.filter_ext_in. intros i [_ Hi]%in_seq. rewrite lookup_app_l by lia. done.
  - cbn. rewrite lookup_app_r, Nat.sub_diag by done. cbn. case_decide as E; case_bool_decide as E2; naive_solver.
Qed.

Lemma by_class_spec labels n : List.length (by_class_of labels n) = n ∧
  ∀ c, c < n → by_class_of labels n !! c = Some (members labels c).
Proof.
  induction labels as [|x labels [Hl Hm]] using rev_ind.
  - unfold by_class_of, enumerate. cbn [imap foldl]. rewrite length_replicate. split; [done|].
    intros c Hc. by rewrite lookup_replicate_2.
  - unfold by_class_of, enumerate in *. rewrite imap_app, foldl_app. cbn [imap foldl push_index].
    set (by_class := foldl push_index _ _) in *. rewrite Nat.add_0_r.
    split; [by destruct (_ <? _); rewrite ?length_alter|].
    intros c Hc. rewrite members_snoc. specialize (Hm c Hc). rewrite Hl. destruct (Nat.ltb_spec x n) as [Hx|Hx].
    + rewrite list_lookup_alter. destruct (decide (x = c)) as [-> | _]; rewrite Hm; [done|]. by rewrite app_nil_r.
    + destruct (decide (x = c)); [lia|]. by rewrite app_nil_r.
Qed.

Lemma by_class_members labels n : by_class_of labels n = map (members labels) (seq 0 n).
Proof.
  destruct (by_class_spec labels n) as [Hl Hm]. apply list_eq. intros c. destruct (decide (c < n)) as [Hc|Hc].
  - rewrite Hm by done. rewrite list_lookup_fmap, lookup_seq_lt by done. done.
  - rewrite !lookup_ge_None_2; [done| |lia]. rewrite length_map, length_seq. lia.
Qed.

(** ** How many go to validation *)

(** Not above zero. *)
Definition not_above_zero (x : f32) : Prop :=
  match x with S754_finite false _ _ | S754_infinity false => False | _ => True end.

Lemma float_gt_zero x : float_gt x f32_zero = false → not_above_zero x.
Proof. by destruct x as [| [] | | []]. Qed.

Lemma as_usize_not_above x : not_above_zero x → as_usize x = 0%Z.
Proof. by destruct x as [| [] | | []]. Qed.

Lemma normalize_above z : (0 ≤ z)%Z → ∀ s : bool, match (binary_normalize 24 128 (if s then - z else z) 0 s)%Z with
  | S754_finite s' _ _ | S754_infinity s' => s' = s | S754_zero _ => True | S754_nan => False end.
Proof.
  assert (Hr : ∀ (p : positive) (s : bool), match (binary_round 24 128 s p 0)%Z with
    | S754_finite s' _ _ | S754_infinity s' => s' = s | S754_zero _ => True | S754_nan => False end).
  { intros p s. unfold binary_round. destruct (shl_align p 0 _) as [mz ez].
    pose proof (round_aux_sign s (Z.pos mz) ez loc_Exact ltac:(lia)). by destruct (binary_round_aux _ _ _ _ _ _). }
  intros Hz s. destruct z as [|p|p]; [by destruct s|destruct s; apply (Hr p)|lia].
Qed.

Lemma round_not_above x : not_above_zero x → not_above_zero (f32_round x).
Proof.
  destruct x as [| [] | | [] m e]; try done. intros _. cbn [f32_round]. destruct (0 <=? e)%Z eqn:He; [done|].
  apply Z.leb_gt in He. pose proof (normalize_above ((2 * Z.pos m + 2 ^ (- e)) / 2 ^ (1 - e))
    ltac:(apply Z.div_pos; [|apply Z.pow_pos_nonneg]; lia) true) as H.
  cbv beta iota in H. by destruct (binary_normalize _ _ _ _ _) as [| [] | | []].
Qed.

Lemma mul_not_above n x : not_above_zero x → not_above_zero (f32_mul (nat_as_f32 n) x).
Proof.
  pose proof (normalize_above (Z.of_nat n) ltac:(lia) false) as Hn. cbv beta iota in Hn.
  unfold nat_as_f32, f32_of_int, f32_mul, SFmul.
  destruct (binary_normalize 24 128 (Z.of_nat n) 0 false) as [s | [] | | [] mn en]; try done;
    destruct x as [s' | [] | | [] m e]; try done.
  intros _. cbn [xorb]. pose proof (round_aux_sign true (Z.pos (mn * m)) (en + e) loc_Exact ltac:(lia)).
  by destruct (binary_round_aux _ _ _ _ _ _) as [| [] | | []].
Qed.

Lemma n_val_spec v n : ∃ k, n_val_of v n = Ok k ∧ k ≤ n ∧ (0 < n → k < n) ∧
  (val_enabled v = true → 2 ≤ n → 0 < k) ∧ (val_enabled v = false → k = 0).
Proof.
  unfold n_val_of. set (raw := as_usize _).
  assert (Hraw : (0 ≤ raw)%Z).
  { unfold raw, as_usize. destruct (f32_round _) as [|[]| |[] m e]; try done.
    apply Z.min_glb; [|done]. destruct (0 <=? e)%Z; [apply Z.mul_nonneg_nonneg; [done|apply Z.pow_nonneg; lia]|].
    destruct (Z.le_gt_cases 0 (- e)); [apply Z.div_pos; [done|by apply Z.pow_pos_nonneg]|by rewrite Z.pow_neg_r, Z.div_0_r by done]. }
  assert (Hoff : val_enabled v = false → raw = 0%Z).
  { intros H%float_gt_zero. unfold raw. by apply as_usize_not_above, round_not_above, mul_not_above. }
  set (v_min := if val_enabled v && (2 <=? n) then 1 else 0).
  assert (Hmin : v_min ≤ 1 ∧ (val_enabled v = true → 2 ≤ n → v_min = 1) ∧ (0 < v_min → val_enabled v = true ∧ 2 ≤ n)).
  { unfold v_min. destruct (val_enabled v); cbn [andb]; [destruct (Nat.leb_spec 2 n)|]; repeat split; try lia; done. }
  unfold clamp. rewrite (proj2 (Z.ltb_ge _ _)) by lia. cbn [mbind result_bind]. eexists. split; [done|].
  destruct Hmin as (H1 & H2 & H3). split_and!.
  - lia.
  - destruct (decide (2 ≤ n)); lia.
  - intros He Hn. specialize (H2 He Hn). lia.
  - intros He. rewrite (Hoff He). assert (v_min = 0); [|lia]. destruct v_min; [done|]. destruct H3 as [H3 _]; [lia|congruence].
Qed.

(** ** The split *)

(** How a class is divided: nothing lost, something to train on, and something
    to validate on when validation is on. *)
Definition divided (enabled : bool) (bucket : list nat) (p : list nat * list nat) : Prop :=
  fst p ++ snd p ≡ₚ bucket ∧ (bucket ≠ [] → fst p ≠ []) ∧
  (if enabled then List.length bucket ≠ 1 ∧ (bucket ≠ [] → snd p ≠ []) else snd p = []).

Lemma split_bucket v seed bucket : (val_enabled v = true → List.length bucket ≠ 1) →
  ∃ b n va tr, shuffle_in_place bucket seed = Ok b ∧ n_val_of v (List.length bucket) = Ok n ∧
    split_at n b = Ok (va, tr) ∧ divided (val_enabled v) bucket (tr, va).
Proof.
  intros Hone. destruct (shuffle_perm bucket seed) as (b & Hb & Hp). destruct (n_val_spec v (List.length bucket)) as (n & Hn & H1 & H2 & H3 & H4).
  exists b, n, (take n b), (drop n b). pose proof (Permutation_length Hp) as Hl. split_and!; [done|done| |].
  { unfold split_at. by rewrite (proj2 (Nat.ltb_ge _ _)) by lia. }
  assert (Hne : bucket ≠ [] → 0 < List.length bucket) by (destruct bucket; cbn; [done|lia]).
  split; [|split]; cbn [fst snd].
  - rewrite <-Hp. rewrite (Permutation_app_comm (drop n b)). by rewrite take_drop.
  - intros Hb0 E. apply (f_equal List.length) in E. rewrite length_drop in E. cbn in E. specialize (H2 (Hne Hb0)). lia.
  - destruct (val_enabled v) eqn:He; [|by rewrite H4]. split; [by apply Hone|].
    intros Hb0 E. apply (f_equal List.length) in E. rewrite length_take in E. cbn in E.
    specialize (Hone eq_refl). specialize (Hne Hb0). specialize (H3 eq_refl ltac:(lia)). lia.
Qed.

Lemma split_classes_spec v seed classes pairs buckets : ∀ idx train val,
  match split_classes v seed classes pairs idx buckets train val with
  | Ok (train', val') => ∃ parts, Forall2 (divided (val_enabled v)) buckets parts ∧
      train' = train ++ concat (map fst parts) ∧ val' = val ++ concat (map snd parts)
  | Err (Panicked _) => False
  | Err (Fails e) => val_enabled v = true ∧ ∃ i b, buckets !! i = Some b ∧ List.length b = 1 ∧
      (∀ j b', j < i → buckets !! j = Some b' → List.length b' ≠ 1) ∧
      e = FT_StratifiedSplitImpossible (label_for classes (idx + i)) pairs v
  end.
Proof.
  induction buckets as [|bucket buckets IH]; intros idx train val; cbn [split_classes].
  { exists []. cbn. rewrite !app_nil_r. split_and!; [constructor|done..]. }
  destruct (val_enabled v && (List.length bucket =? 1)) eqn:E.
  - apply andb_true_iff in E as [He E%Nat.eqb_eq].
    destruct (shuffle_perm bucket (Z.lxor seed (wrap_mul64 (Z.of_nat idx) 11936128517019425370))) as (b & -> & _).
    destruct (n_val_spec v (List.length bucket)) as (n & Hn & _). cbn [mbind result_bind]. rewrite Hn. cbn [mbind result_bind].
    cbn. split; [done|]. exists 0, bucket. rewrite Nat.add_0_r. split_and!; [done|done|lia|done].
  - destruct (split_bucket v (Z.lxor seed (wrap_mul64 (Z.of_nat idx) 11936128517019425370)) bucket) as (b & n & va & tr & -> & Hn & Hs & Hd).
    { intros He. rewrite He in E. by apply Nat.eqb_neq in E. }
    cbn [mbind result_bind]. rewrite Hn. cbn [mbind result_bind]. rewrite Hs. cbn [mbind result_bind].
    specialize (IH (S idx) (train ++ tr) (val ++ va)). destruct (split_classes _ _ _ _ _ _ _ _) as [[train' val']|[|e]]; [|done|].
    + destruct IH as (parts & Hp & -> & ->). exists ((tr, va) :: parts). cbn [map concat fst snd]. rewrite <-!app_assoc.
      split_and!; [by constructor|done..].
    + destruct IH as (He & i & b' & Hi & Hb' & Hj & ->). split; [done|]. exists (S i), b'. rewrite <-plus_n_Sm. split_and!; [done|done| |done].
      intros [|j] b2 Hlt Hj2; [|by apply (Hj j); [lia|]]. injection Hj2 as <-. rewrite He in E. by apply Nat.eqb_neq in E.
Qed.

Lemma divided_cover enabled buckets parts : Forall2 (divided enabled) buckets parts →
  concat (map fst parts) ++ concat (map snd parts) ≡ₚ concat buckets.
Proof.
  induction 1 as [|b [t v] buckets parts (Hp & _) _ IH]; [done|]. cbn [map concat fst snd] in *. rewrite <-IH, <-Hp. solve_Permutation.
Qed.

Lemma elem_of_concat_map (labels : list nat) n i :
  i ∈ concat (map (members labels) (seq 0 n)) ↔ ∃ c, c < n ∧ labels !! i = Some c.
Proof.
  rewrite list_elem_of_In, List.in_concat. split.
  - intros (l & (c & <- & Hc%in_seq)%in_map_iff & Hi%list_elem_of_In%elem_of_members). exists c. split; [lia|done].
  - intros (c & Hc & Hi). exists (members labels c). split; [apply in_map_iff; exists c; split; [done|apply in_seq; lia]|].
    by apply list_elem_of_In, elem_of_members.
Qed.

Lemma concat_members_NoDup labels cs : NoDup cs → NoDup (concat (map (members labels) cs)).
Proof.
  induction 1 as [|c cs Hc _ IH]; [constructor|]. cbn [map concat]. apply list.NoDup_app. split_and!; [apply members_NoDup| |done].
  intros i Hi%elem_of_members Hin%list_elem_of_In. apply List.in_concat in Hin as (l & (c' & <- & Hc')%in_map_iff & Hi').
  apply list_elem_of_In, elem_of_members in Hi'. apply Hc. apply list_elem_of_In. by replace c with c' by congruence.
Qed.

Lemma in_part {A : Type} (f : A → list nat) (parts : list A) k p i : parts !! k = Some p → i ∈ f p → i ∈ concat (map f parts).
Proof.
  intros Hp Hi. apply list_elem_of_In, List.in_concat. exists (f p). split; [|by apply list_elem_of_In].
  apply in_map, list_elem_of_In. by eapply list_elem_of_lookup_2.
Qed.

Lemma split_outcome (labels : list nat) (n_classes : nat) (val_split : f32) (seed : Z) (classes : option (list string)) :
  match stratified_split_indices labels n_classes val_split seed classes with
  | Err (Panicked _) => False
  | Err (Fails e) => val_enabled val_split = true ∧ ∃ c pairs, c < n_classes ∧ List.length (members labels c) = 1 ∧
      (∀ c', c' < c → List.length (members labels c') ≠ 1) ∧ e = FT_StratifiedSplitImpossible (label_for classes c) pairs val_split
  | Ok s =>
      NoDup (sp_train s ++ sp_val s) ∧
      (∀ i, i ∈ sp_train s ++ sp_val s ↔ ∃ c, c < n_classes ∧ labels !! i = Some c) ∧
      (∀ c, c < n_classes → members labels c ≠ [] → ∃ i, i ∈ sp_train s ∧ labels !! i = Some c) ∧
      (if val_enabled val_split
       then ∀ c, c < n_classes → List.length (members labels c) ≠ 1 ∧
            (members labels c ≠ [] → ∃ i, i ∈ sp_val s ∧ labels !! i = Some c)
       else sp_val s = [])
  end.
Proof.
  unfold stratified_split_indices. set (pairs := map _ (enumerate _)). rewrite by_class_members. set (buckets := map (members labels) (seq 0 n_classes)).
  assert (Hbk : ∀ c b, buckets !! c = Some b → c < n_classes ∧ b = members labels c).
  { intros c b Hc. unfold buckets in Hc. rewrite list_lookup_fmap in Hc. pose proof (lookup_lt_is_Some_1 (seq 0 n_classes) c) as Hlt.
    destruct (seq 0 n_classes !! c) as [k|] eqn:E; [|done]. injection Hc as <-. apply lookup_seq in E as [-> Hk]. done. }
  pose proof (split_classes_spec val_split seed classes pairs buckets 0 [] []) as Hs.
  destruct (split_classes _ _ _ _ _ _ _ _) as [[train val]|[|e]]; cbn [mbind result_bind]; [|done|].
  2:{ destruct Hs as (He & i & b & [Hi ->]%Hbk & Hb & Hj & ->). split; [done|]. exists i, pairs. split_and!; [done|done| |done].
      intros c' Hc'. apply (Hj c'); [done|]. unfold buckets. rewrite list_lookup_fmap, lookup_seq_lt by lia. done. }
  destruct Hs as (parts & Hp & -> & ->). cbn [app].
  destruct (shuffle_perm (concat (map fst parts)) (wrap_add64 seed 12648430)) as (tr & -> & Htr). cbn [mbind result_bind].
  destruct (shuffle_perm (concat (map snd parts)) (wrap_add64 seed 195948557)) as (va & -> & Hva). cbn [mbind result_bind sp_train sp_val].
  assert (Hall : tr ++ va ≡ₚ concat buckets) by (rewrite Htr, Hva; by eapply divided_cover).
  assert (Hpart : ∀ c, c < n_classes → ∃ p, parts !! c = Some p ∧ divided (val_enabled val_split) (members labels c) p).
  { intros c Hc. assert (Hb : buckets !! c = Some (members labels c)) by (unfold buckets; rewrite list_lookup_fmap, lookup_seq_lt by lia; reflexivity).
    destruct (Forall2_lookup_l _ _ _ _ _ Hp Hb) as (p & ? & ?). by exists p. }
  assert (Hof : ∀ c (p : list nat * list nat) i, divided (val_enabled val_split) (members labels c) p → i ∈ fst p ∨ i ∈ snd p → labels !! i = Some c).
  { intros c p i (Hperm & _) Hi. apply elem_of_members. rewrite <-Hperm. by apply elem_of_app. }
  split_and!.
  - rewrite Hall. apply concat_members_NoDup, NoDup_seq.
  - intros i. rewrite Hall. apply elem_of_concat_map.
  - intros c Hc Hne. destruct (Hpart c Hc) as ([t v] & Hk & Hd). pose proof (proj1 (proj2 Hd) Hne) as Ht. cbn [fst] in Ht.
    destruct t as [|i t]; [done|]. exists i. split; [|apply (Hof c _ _ Hd); left; left].
    rewrite Htr. eapply (in_part fst); [exact Hk|left].
  - destruct (val_enabled val_split) eqn:He.
    + intros c Hc. destruct (Hpart c Hc) as ([t v] & Hk & Hd). destruct (proj2 (proj2 Hd)) as [H1 H2]. split; [done|]. intros Hne.
      specialize (H2 Hne). cbn [snd] in H2. destruct v as [|i v]; [done|]. exists i. split; [|apply (Hof c _ _ Hd); right; left].
      rewrite Hva. eapply (in_part snd); [exact Hk|left].
    + apply Permutation_nil. rewrite Hva. clear -Hp. induction Hp as [|b p ? ? (_ & _ & H) _ IH]; [done|]. cbn [map concat]. by rewrite H.
Qed.

(** C20: The split never panics.  It fails exactly when validation is on and some
    class has a single example, and names the first such class.  Otherwise every
    example of a known class is in exactly one of the two sets, every class that
    has an example has one to train on, and one to validate on when validation
    is on; when it is off the validation set is empty.  This holds whatever the
    floating-point product and its rounding give. *)
Theorem stratified_split_sound (labels : list nat) (n_classes : nat) (val_split : f32) (seed : Z) (classes : option (list string)) :
  match stratified_split_indices labels n_classes val_split seed classes with
  | Err (Panicked _) => False
  | Err (Fails e) => val_enabled val_split = true ∧ ∃ c pairs, c < n_classes ∧ List.length (members labels c) = 1 ∧
      (∀ c', c' < c → List.length (members labels c') ≠ 1) ∧ e = FT_StratifiedSplitImpossible (label_for classes c) pairs val_split
  | Ok s =>
      NoDup (sp_train s ++ sp_val s) ∧
      (∀ i, i ∈ sp_train s ++ sp_val s ↔ ∃ c, c < n_classes ∧ labels !! i = Some c) ∧
      (∀ c, c < n_classes → members labels c ≠ [] → ∃ i, i ∈ sp_train s ∧ labels !! i = Some c) ∧
      (if val_enabled val_split
       then ∀ c, c < n_classes → List.length (members labels c) ≠ 1 ∧
            (members labels c ≠ [] → ∃ i, i ∈ sp_val s ∧ labels !! i = Some c)
       else sp_val s = [])
  end.
Proof. apply split_outcome. Qed.

(** ** The gates *)

(** The drop ratio in binary32 against the constant that stands for one tenth is
    the comparison of the integers. *)
Lemma ratio_gate (d t : nat) : d ≤ t → 0 < t → (Z.of_nat t < 2 ^ 23)%Z →
  float_gt (f32_div (nat_as_f32 d) (nat_as_f32 t)) MAX_DROP_RATIO = bool_decide (t < 10 * d).
Proof.
  intros Hdt Ht H23. unfold float_gt, nat_as_f32, MAX_DROP_RATIO. pose proof (of_int_exact (Z.of_nat t) ltac:(lia)) as Hy.
  destruct d as [|d0]; [|set (d := S d0) in *; assert (Hd : 0 < d) by lia; clearbody d].
  { rewrite bool_decide_eq_false_2 by lia. destruct (f32_of_int (Z.of_nat t)) as [?| | |[] m e]; try done. }
  set (x := Z.of_nat d) in *. set (y := Z.of_nat t) in *.
  assert (Hdig : (8 * x < y → Zdigits2 x + 3 ≤ Zdigits2 y)%Z).
  { intros H8. rewrite <-(digits_shift x 3) by lia. destruct (Zdigits2_bounds y ltac:(lia)) as (H0 & H1 & _).
    destruct (Zdigits2_bounds (x * 2 ^ 3) ltac:(lia)) as (_ & _ & H2). apply H2; lia. }
  assert (Hdig2 : (Zdigits2 x ≤ Zdigits2 y)%Z).
  { destruct (Zdigits2_bounds y ltac:(lia)) as (H0 & H1 & _). destruct (Zdigits2_bounds x ltac:(lia)) as (_ & _ & H2). apply H2; lia. }
  destruct (decide (t < 10 * d)) as [Hgt|Hle]; [rewrite bool_decide_eq_true_2 by done|rewrite bool_decide_eq_false_2 by done].
  - destruct (Z.le_gt_cases y (8 * x)) as [H8|H8].
    + destruct (div_scaled x y (-3) 1 8) as [Hs Hc]; [lia|lia|unfold div_exp; lia|lia|lia|lia|cbn; lia|].
      eapply above; [exact Hc|exact Hs|lia|lia|lia|]. cbn. lia.
    + destruct (div_scaled x y (-27) 13421774 16777215) as [Hs Hc]; [lia|lia|unfold div_exp; lia|lia|lia|lia|cbn; lia|].
      eapply above; [exact Hc|exact Hs|lia|lia|lia|]. cbn. lia.
  - destruct (div_scaled x y (-27) 0 13421773) as [Hs _]; [lia|lia|unfold div_exp; lia|lia|lia|lia|cbn; lia|].
    by eapply not_above.
Qed.

Lemma count_one_length counts label : List.length (count_one counts label) = List.length counts.
Proof. unfold count_one. destruct (_ <? _); by rewrite ?length_alter. Qed.

Lemma counts_spec labels n : per_class_counts_from_labels n labels = map (λ c, List.length (members labels c)) (seq 0 n).
Proof.
  induction labels as [|x labels IH] using rev_ind.
  - unfold per_class_counts_from_labels. cbn. apply list_eq. intros c. rewrite list_lookup_fmap.
    destruct (decide (c < n)); [by rewrite lookup_replicate_2, lookup_seq_lt by done|].
    rewrite !lookup_ge_None_2; [done|rewrite length_seq; lia|rewrite length_replicate; lia].
  - unfold per_class_counts_from_labels in *. rewrite foldl_app. cbn [foldl]. rewrite IH. apply list_eq. intros c.
    unfold count_one. rewrite length_map, length_seq. rewrite (list_lookup_fmap _ (seq 0 n) c).
    destruct (decide (c < n)) as [Hc|Hc].
    2:{ rewrite (lookup_ge_None_2 (seq 0 n)) by (rewrite length_seq; lia). apply lookup_ge_None_2.
        destruct (_ <? _); rewrite ?length_alter, length_map, length_seq; lia. }
    rewrite lookup_seq_lt by done. cbn [fmap option_fmap option_map]. rewrite Nat.add_0_l, members_snoc, length_app.
    destruct (Nat.ltb_spec x n) as [Hx|Hx].
    + rewrite list_lookup_alter, !list_lookup_fmap, !lookup_seq_lt by done. destruct (decide (x = c)) as [-> | _]; cbn; f_equal; lia.
    + rewrite list_lookup_fmap, lookup_seq_lt by done. destruct (decide (x = c)); [lia|]. cbn. f_equal. lia.
Qed.

Lemma find_enumerate {A : Type} (f : nat * A → bool) (l : list A) : ∀ k,
  match List.find f (imap (λ i, pair (k + i)) l) with
  | Some (i, x) => ∃ j, i = k + j ∧ l !! j = Some x ∧ f (i, x) = true ∧ ∀ j' y, j' < j → l !! j' = Some y → f (k + j', y) = false
  | None => ∀ j y, l !! j = Some y → f (k + j, y) = false
  end.
Proof.
  induction l as [|x l IH]; intros k; cbn [imap List.find]; [by intros j y|]. rewrite Nat.add_0_r.
  destruct (f (k, x)) eqn:E.
  { exists 0. rewrite Nat.add_0_r. split_and!; [done|done|done|lia]. }
  specialize (IH (S k)). erewrite imap_ext; [|intros i y _; cbn; by rewrite <-plus_n_Sm, <-plus_Sn_m].
  destruct (List.find f _) as [[i y]|].
  - destruct IH as (j & -> & Hj & Hf & Hb). exists (S j). rewrite <-plus_n_Sm. split_and!; [done|done|done|].
    intros [|j'] z Hlt Hz; [rewrite Nat.add_0_r; by injection Hz as <-|]. rewrite <-plus_n_Sm. apply (Hb j'); [lia|done].
  - intros [|j] y Hy; [rewrite Nat.add_0_r; by injection Hy as <-|]. rewrite <-plus_n_Sm. by apply IH.
Qed.

Lemma first_empty_spec counts :
  match first_empty counts with
  | Some c => counts !! c = Some 0 ∧ ∀ c' n, c' < c → counts !! c' = Some n → n ≠ 0
  | None => ∀ c n, counts !! c = Some n → n ≠ 0
  end.
Proof.
  unfold first_empty, enumerate. pose proof (find_enumerate (λ x : nat * nat, snd x =? 0) counts 0) as H.
  erewrite (imap_ext _ pair) in H by done. destruct (List.find _ _) as [[c n]|]; cbn [fmap option_fmap option_map fst].
  - destruct H as (j & -> & Hj & Hn%Nat.eqb_eq & Hb). cbn [snd] in Hn. subst n. split; [done|].
    intros c' n Hc' Hn. by apply Nat.eqb_neq, (Hb c').
  - intros c n Hn. by apply Nat.eqb_neq, (H c).
Qed.

Lemma mapM_total {A B : Type} (f : A → T B) (g : A → B) l : (∀ x, x ∈ l → f x = Ok (g x)) → mapM f l = Ok (map g l).
Proof.
  induction l as [|x l IH]; intros H; cbn [mapM map]; [done|]. rewrite (H x) by left. cbn [mbind result_bind].
  rewrite IH; [done|]. intros y Hy. apply H. by right.
Qed.

Lemma dropped_ok classes pre post : List.length post = List.length classes → ∃ l, dropped_per_class classes pre post = Ok l.
Proof.
  intros Hl. exists (map (λ x, (snd x, default 0 (pre !! fst x) - default 0 (post !! fst x))) (enumerate classes)).
  apply mapM_total. intros [i c] (j & y & [= -> ->] & Hj)%elem_of_lookup_imap_1. cbn [fst snd].
  apply lookup_lt_Some in Hj. rewrite <-Hl in Hj. apply lookup_lt_is_Some in Hj as [n Hn]. by rewrite (index_some _ _ _ Hn), Hn.
Qed.

Lemma gate_outcome (classes : list string) (pre labels : list nat) (total : nat) :
  List.length labels ≤ total → (Z.of_nat total < 2 ^ 23)%Z →
  let n := List.length classes in
  let empty c := members labels c = [] in
  match validate_post_extract_quality classes pre n labels total with
  | Ok _ => (∀ c, c < n → ¬ empty c) ∧ 10 * (total - List.length labels) ≤ total
  | Err (Fails (FT_EmptyClassAfterExtract class _ _)) =>
      ∃ c, classes !! c = Some class ∧ empty c ∧ ∀ c', c' < c → ¬ empty c'
  | Err (Fails (FT_DropRatioExceeded dropped submitted _ _ _)) =>
      (∀ c, c < n → ¬ empty c) ∧ dropped = total - List.length labels ∧ submitted = total ∧ total < 10 * dropped
  | Err _ => False
  end.
Proof.
  intros Hl H23 n empty. unfold validate_post_extract_quality. rewrite counts_spec. set (post := map _ (seq 0 n)).
  assert (Hpost : List.length post = n) by (unfold post; by rewrite length_map, length_seq).
  assert (Hat : ∀ c, c < n → post !! c = Some (List.length (members labels c))).
  { intros c Hc. unfold post. by rewrite list_lookup_fmap, lookup_seq_lt. }
  destruct (dropped_ok classes pre post Hpost) as (dl & ->). cbn [mbind result_bind].
  pose proof (first_empty_spec post) as Hf. destruct (first_empty post) as [c|].
  - destruct Hf as [H0 Hb]. pose proof (lookup_lt_Some _ _ _ H0) as Hc. rewrite Hpost in Hc.
    destruct (lookup_lt_is_Some_2 classes c Hc) as [name Hname]. rewrite (index_some _ _ _ Hname). cbn [mbind result_bind fails].
    exists c. rewrite Hat in H0 by done. injection H0 as H0. split_and!; [done|by apply nil_length_inv|].
    intros c' Hc' E. apply (Hb c' (List.length (members labels c'))); [done|apply Hat; lia|by rewrite E].
  - assert (Hne : ∀ c, c < n → ¬ empty c).
    { intros c Hc E. apply (Hf c (List.length (members labels c))); [by apply Hat|by rewrite E]. }
    destruct (Nat.ltb_spec 0 total) as [Ht|Ht]; [|split; [done|lia]].
    rewrite ratio_gate by lia. case_bool_decide; cbn; [split_and!; [done|done|done|lia]|split; [done|lia]].
Qed.

(** C23: The gate after feature extraction never panics, and decides in exact
    arithmetic: a data set passes iff every class kept an example and ten times
    the dropped examples is at most the number submitted; otherwise the error
    names the first class that lost everything, or the dropped and submitted
    counts.  The comparison in binary32 against [0.10] makes no difference. *)
Theorem quality_gate_exact (classes : list string) (pre labels : list nat) (total : nat) :
  List.length labels ≤ total → (Z.of_nat total < 2 ^ 23)%Z →
  let n := List.length classes in
  let empty c := members labels c = [] in
  match validate_post_extract_quality classes pre n labels total with
  | Ok _ => (∀ c, c < n → ¬ empty c) ∧ 10 * (total - List.length labels) ≤ total
  | Err (Fails (FT_EmptyClassAfterExtract class _ _)) =>
      ∃ c, classes !! c = Some class ∧ empty c ∧ ∀ c', c' < c → ¬ empty c'
  | Err (Fails (FT_DropRatioExceeded dropped submitted _ _ _)) =>
      (∀ c, c < n → ¬ empty c) ∧ dropped = total - List.length labels ∧ submitted = total ∧ total < 10 * dropped
  | Err _ => False
  end.
Proof. apply gate_outcome. Qed.
