(* ===== verification/FinetuneScan.v ===== *)
(** * Fine-tuning: the dataset scan, and that it reads exactly the documented layout

    [scan_dataset] and [collect_wavs_recursive] of [training/finetune.rs] on the
    modelled file system.  [read_dir] is a snapshot of the names, in any order a
    directory lists them; the name-ordered map of the classes is a finite map
    that is iterated in byte order. *)

From stdpp Require Import sorting.
From S2P Require Import Prelude Ids Common Workspace FileSystem FsLogic FsAtomic StagingFacts AssetTree Dataset ApiErrors Finetune.

Local Open Scope nat_scope.

(** ** Orders *)

(** [str: Ord]: lexicographic on the bytes. *)
Fixpoint str_leb (s t : string) : bool :=
  match s, t with
  | EmptyString, _ => true
  | _, EmptyString => false
  | String a s, String b t =>
      match (N_of_ascii a ?= N_of_ascii b)%N with Lt => true | Eq => str_leb s t | Gt => false end
  end.

(** [Path: Ord]: lexicographic on the components. *)
Fixpoint path_leb (p q : path) : bool :=
  match p, q with
  | [], _ => true
  | _, [] => false
  | a :: p, b :: q => if String.eqb a b then path_leb p q else str_leb a b
  end.

Definition str_le (s t : string) : Prop := str_leb s t = true.
Definition path_le (p q : path) : Prop := path_leb p q = true.

#[export] Instance str_le_dec : RelDecision str_le := λ s t, decide (str_leb s t = true).
#[export] Instance path_le_dec : RelDecision path_le := λ p q, decide (path_leb p q = true).

(** On the name a pair starts with. *)
Definition key_le {A : Type} (x y : string * A) : Prop := str_le (fst x) (fst y).
#[export] Instance key_le_dec {A : Type} : RelDecision (key_le (A := A)) := λ x y, decide (str_leb (fst x) (fst y) = true).

(** ** Names *)

(** [name.starts_with('.')]. *)
Definition hidden (name : string) : bool := String.prefix "." name.

(** [path.extension() == "wav"], for a name that is not hidden. *)
Definition wav_extension (name : string) : bool := ends_with (bytes_of name) (bytes_of ".wav").

Definition to_ascii_lowercase (s : string) : string := string_of_list_ascii (map ascii_lower (bytes_of s)).

Definition bad_dataset (p : path) (reason : string) : Stop := Fails (FT_BadDataset (display p) reason).

(** ** The files of a class *)

Section Entries.
Variable recurse : path → M Stop (list path).

(** The loop over the entries of [dir]; [out] is what has been pushed. *)
Fixpoint collect_entries (dir : path) (entries : list string) (out : list path) : M Stop (list path) :=
  match entries with
  | [] => mret out
  | name :: entries =>
      if hidden name then collect_entries dir entries out
      else
      let p := dir ++ [name] in
      md ← map_throw (λ _, bad_dataset p "stat") (symlink_metadata p);
      match md with
      | Dir => found ← recurse p; collect_entries dir entries (out ++ found)
      | File _ _ => collect_entries dir entries (if wav_extension name then out ++ [p] else out)
      | Symlink _ => throw (bad_dataset p "unsupported file type (only regular .wav files are accepted)")
      end
  end.
End Entries.

(** [fuel] bounds the recursion; without any left the stack overflows. *)
Fixpoint collect_wavs_recursive (fuel : nat) (dir : path) : M Stop (list path) :=
  match fuel with
  | 0 => throw (Panicked "stack overflow")
  | S fuel =>
      entries ← map_throw (λ _, bad_dataset dir "unreadable") (fs_read_dir dir);
      collect_entries (collect_wavs_recursive fuel) dir entries []
  end.

(** ** The classes *)

(** Each class under its lowercase form: the name as it is and its directory. *)
Abbreviation ClassMap := (gmap string (string * path)).

Fixpoint discover_classes (data_dir : path) (entries : list string) (classes_by_lower : ClassMap) : M Stop ClassMap :=
  match entries with
  | [] => mret classes_by_lower
  | name :: entries =>
      if hidden name then discover_classes data_dir entries classes_by_lower
      else
      let p := data_dir ++ [name] in
      md ← map_throw (λ _, bad_dataset p "stat") (symlink_metadata p);
      match md with
      | Dir =>
          let lower := to_ascii_lowercase name in
          match classes_by_lower !! lower with
          | Some (existing_name, existing_path) =>
              throw (bad_dataset data_dir
                ("duplicate class label under ASCII case-insensitive comparison: " ++ quoted name ++ " (at " ++ display p ++
                 ") and " ++ quoted existing_name ++ " (at " ++ display existing_path ++ ")")%string)
          | None => discover_classes data_dir entries (<[lower := (name, p)]> classes_by_lower)
          end
      | _ => throw (bad_dataset p "non-hidden root entry is not a directory (only class folders may live under datasets/)")
      end
  end.

(** [classes_by_lower.values()]. *)
Definition class_values (m : ClassMap) : list (string * path) := map snd (merge_sort key_le (map_to_list m)).

Fixpoint collect_classes (fuel : nat) (values : list (string * path)) (zipped : list (string * list path))
    : M Stop (list (string * list path)) :=
  match values with
  | [] => mret zipped
  | (original, class_dir) :: values =>
      wavs ← collect_wavs_recursive fuel class_dir;
      match wavs with
      | [] => throw (bad_dataset class_dir ("class folder " ++ quoted original ++ " has no non-hidden .wav sample files")%string)
      | _ => collect_classes fuel values (zipped ++ [(original, merge_sort path_le wavs)])
      end
  end.

(** Every file with the position of its class. *)
Definition examples_of (zipped : list (string * list path)) : list (path * nat) :=
  concat (imap (λ i x, map (λ p, (p, i)) (snd x)) zipped).

Definition scan_dataset (data_dir : path) : M Stop (list string * list (path * nat)) := λ w,
  (entries ← map_throw (λ _, bad_dataset data_dir "read datasets root") (fs_read_dir data_dir);
   classes_by_lower ← discover_classes data_dir entries ∅;
   if decide (classes_by_lower = ∅)
   then throw (bad_dataset data_dir "no class folders under datasets/ (each non-hidden direct subdirectory is a class)")
   else
   zipped ← collect_classes (height (visible (disk w))) (class_values classes_by_lower) [];
   let zipped := merge_sort key_le zipped in
   mret (map fst zipped, examples_of zipped)) w.

(** * What a dataset scan accepts and returns

    A scan changes nothing on disk.  When it returns, the dataset is laid out as
    documented and the result is exactly its classes, in byte order, and their
    files; when it fails without an I/O error, the layout is at fault. *)

(** ** Programs that only read *)

Definition calm_world (w : World) : Prop := budget w = None ∧ faults w = [].

(** On a disk that shows [m], [c] changes nothing; it returns a [Q], throws an
    [X], and when nothing disturbs it throws only if [Y]. *)
Definition reads {E A : Type} (m : fs) (c : M E A) (Q : A → Prop) (X : E → Prop) (Y : Prop) : Prop :=
  ∀ w, visible (disk w) = m →
    match c w with
    | (w', Ret a) => disk w' = disk w ∧ (calm_world w → calm_world w') ∧ Q a
    | (w', Throw e) => disk w' = disk w ∧ X e ∧ (calm_world w → Y)
    | (w', Crash) => disk w' = disk w ∧ ¬ calm_world w
    end.

Lemma reads_ret {E A : Type} m (a : A) (Q : A → Prop) (X : E → Prop) Y : Q a → reads m (mret a : M E A) Q X Y.
Proof. intros H w _. by split_and!. Qed.

Lemma reads_throw {E A : Type} m (e : E) (Q : A → Prop) (X : E → Prop) (Y : Prop) : X e → Y → reads m (throw e : M E A) Q X Y.
Proof. intros HX HY w _. by split_and!. Qed.

Lemma reads_bind {E A B : Type} m (c : M E A) (f : A → M E B) (R : A → Prop) (Q : B → Prop) (X : E → Prop) (Y : Prop) :
  reads m c R X Y → (∀ a, R a → reads m (f a) Q X Y) → reads m (c ≫= f) Q X Y.
Proof.
  intros Hc Hf w Hw. specialize (Hc w Hw). unfold mbind, M_bind. destruct (c w) as [w1 [a|e|]]; [|done..].
  destruct Hc as (Hd & Hcalm & Ha). rewrite <-Hd in Hw. specialize (Hf a Ha w1 Hw). rewrite <-Hd.
  destruct (f a w1) as [w2 [b|e|]]; naive_solver.
Qed.

Lemma reads_conseq {E A : Type} m (c : M E A) (Q Q' : A → Prop) (X : E → Prop) (Y Y' : Prop) :
  reads m c Q' X Y' → (∀ a, Q' a → Q a) → (Y' → Y) → reads m c Q X Y.
Proof. intros Hc HQ HY w Hw. specialize (Hc w Hw). destruct (c w) as [w1 [a|e|]]; naive_solver. Qed.

Lemma reads_map_throw {E F A : Type} m (g : E → F) (c : M E A) (Q : A → Prop) (X : F → Prop) (Y : Prop) :
  reads m c Q (λ _, True) Y → (∀ e, X (g e)) → reads m (map_throw g c) Q X Y.
Proof. intros Hc HX w Hw. specialize (Hc w Hw). unfold map_throw. destruct (c w) as [w1 [a|e|]]; naive_solver. Qed.

Lemma reads_syscall {A : Type} m (f : Disk → result IoKind A) (Q : A → Prop) (Y : Prop) :
  (∀ d, visible d = m → match f d with Ok a => Q a | Err _ => Y end) →
  reads m (syscall (λ d, (d, f d))) Q (λ _, True) Y.
Proof.
  intros Hf w Hw. specialize (Hf _ Hw). unfold syscall, calm_world.
  destruct (budget w) as [[|n]|], (faults w) as [|[] fl], (f (disk w)) as [a|e]; cbn; naive_solver.
Qed.

Lemma reads_read_dir m p : reads m (fs_read_dir p) (λ l, m !! p = Some Dir ∧ l = children p m) (λ _, True) (m !! p ≠ Some Dir).
Proof. apply reads_syscall. intros d <-. unfold stat. destruct (visible d !! p) as [[]|]; naive_solver. Qed.

Lemma reads_metadata m p : reads m (symlink_metadata p) (λ n, m !! p = Some n) (λ _, True) (m !! p = None).
Proof. apply reads_syscall. intros d <-. unfold stat. by destruct (visible d !! p). Qed.

Lemma height_bound m p n : m !! p = Some n → List.length p < height m.
Proof.
  intros Hp%elem_of_map_to_list. unfold height. induction (map_to_list m) as [|[q k] l IH]; [by apply elem_of_nil in Hp|].
  cbn [foldr fst]. apply elem_of_cons in Hp as [[= <- <-]|Hp]; [lia|]. specialize (IH Hp). lia.
Qed.

(** ** The layout *)

(** A [.wav] file below [dir] with no hidden name on the way. *)
Inductive wav_under (m : fs) (dir : path) : path → Prop :=
  | wav_here name data synced : hidden name = false → m !! (dir ++ [name]) = Some (File data synced) →
      wav_extension name = true → wav_under m dir (dir ++ [name])
  | wav_deeper name p : hidden name = false → m !! (dir ++ [name]) = Some Dir → wav_under m (dir ++ [name]) p → wav_under m dir p.

(** Something below [dir] that is neither a file nor a directory. *)
Inductive irregular (m : fs) (dir : path) : Prop :=
  | irregular_here name target : hidden name = false → m !! (dir ++ [name]) = Some (Symlink target) → irregular m dir
  | irregular_deeper name : hidden name = false → m !! (dir ++ [name]) = Some Dir → irregular m (dir ++ [name]) → irregular m dir.

(** The same through one entry. *)
Definition wav_via (m : fs) (dir : path) (name : string) (p : path) : Prop :=
  hidden name = false ∧
  ((∃ data synced, m !! (dir ++ [name]) = Some (File data synced) ∧ wav_extension name = true ∧ p = dir ++ [name]) ∨
   (m !! (dir ++ [name]) = Some Dir ∧ wav_under m (dir ++ [name]) p)).
Definition irregular_via (m : fs) (dir : path) (name : string) : Prop :=
  hidden name = false ∧
  ((∃ target, m !! (dir ++ [name]) = Some (Symlink target)) ∨ (m !! (dir ++ [name]) = Some Dir ∧ irregular m (dir ++ [name]))).

Lemma wav_under_via m dir p : wav_under m dir p ↔ ∃ name, name ∈ children dir m ∧ wav_via m dir name p.
Proof.
  split.
  - intros [name data synced H1 H2 H3|name q H1 H2 H3]; exists name; rewrite children_spec, H2; (split; [done|]); split; naive_solver.
  - intros (name & _ & Hh & [(data & synced & H1 & H2 & ->)|[H1 H2]]); [by eapply wav_here|by eapply wav_deeper].
Qed.

Lemma irregular_via_iff m dir : irregular m dir ↔ ∃ name, name ∈ children dir m ∧ irregular_via m dir name.
Proof.
  split.
  - intros [name t H1 H2|name H1 H2 H3]; exists name; rewrite children_spec, H2; (split; [done|]); split; naive_solver.
  - intros (name & _ & Hh & [[t H1]|[H1 H2]]); [by eapply irregular_here|by eapply irregular_deeper].
Qed.

Lemma wav_under_prefix m dir p : wav_under m dir p → ∃ k, p = dir ++ k.
Proof. induction 1 as [dir name data synced|dir name p _ _ _ [k ->]]; [by eexists|]. exists (name :: k). by rewrite <-app_assoc. Qed.

Lemma wav_via_prefix m dir name p : wav_via m dir name p → ∃ k, p = dir ++ name :: k.
Proof.
  intros [_ [(data & synced & _ & _ & ->)|[_ [k ->]%wav_under_prefix]]]; [by exists []|exists k; by rewrite <-app_assoc].
Qed.

Lemma wav_via_name m dir n1 n2 p : wav_via m dir n1 p → wav_via m dir n2 p → n1 = n2.
Proof. intros [k1 ->]%wav_via_prefix [k2 H]%wav_via_prefix. apply app_inv_head in H. congruence. Qed.

(** ** The files of a class *)

(** What the scan throws: never a panic, always [BadDataset]. *)
Definition rejection (e : Stop) : Prop := ∃ p reason, e = Fails (FT_BadDataset p reason).

Lemma bad_dataset_rejects p reason : rejection (bad_dataset p reason).
Proof. by do 2 eexists. Qed.
#[local] Hint Resolve bad_dataset_rejects : core.

(** The files found, each once, and nothing irregular on the way. *)
Definition collected (m : fs) (dir : path) (l : list path) : Prop :=
  NoDup l ∧ (∀ p, p ∈ l ↔ wav_under m dir p) ∧ ¬ irregular m dir.

Definition collected_entries (m : fs) (dir : path) (entries : list string) (out l : list path) : Prop :=
  ∃ found, l = out ++ found ∧ NoDup found ∧ (∀ p, p ∈ found ↔ ∃ name, name ∈ entries ∧ wav_via m dir name p) ∧
    ∀ name, name ∈ entries → ¬ irregular_via m dir name.

(** One entry in front: its files [fs], then those of the rest. *)
Lemma collected_cons m dir name entries out (files l : list path) :
  name ∉ entries → NoDup files → (∀ p, p ∈ files ↔ wav_via m dir name p) → ¬ irregular_via m dir name →
  collected_entries m dir entries (out ++ files) l → collected_entries m dir (name :: entries) out l.
Proof.
  intros Hni Hnd Hf Hirr (found & -> & Hnd2 & Hf2 & Hi2). exists (files ++ found). split_and!.
  - by rewrite app_assoc.
  - apply list.NoDup_app. split_and!; [done| |done]. intros p Hp%Hf (n2 & Hn2 & Hp2)%Hf2.
    by rewrite (wav_via_name _ _ _ _ _ Hp Hp2) in Hni.
  - intros p. rewrite elem_of_app, Hf, Hf2. setoid_rewrite elem_of_cons. naive_solver.
  - intros n2 [-> |Hn2]%elem_of_cons; [done|by apply Hi2].
Qed.

Lemma reads_collect_entries m dir rec entries : ∀ out,
  NoDup entries → (∀ name, name ∈ entries → is_Some (m !! (dir ++ [name]))) →
  (∀ name, m !! (dir ++ [name]) = Some Dir → reads m (rec (dir ++ [name])) (collected m (dir ++ [name])) rejection (irregular m (dir ++ [name]))) →
  reads m (collect_entries rec dir entries out) (collected_entries m dir entries out) rejection (∃ name, name ∈ entries ∧ irregular_via m dir name).
Proof.
  induction entries as [|name entries IH]; intros out Hnd Hin Hrec; cbn [collect_entries].
  { apply reads_ret. exists []. rewrite app_nil_r. split_and!; [done|constructor| |].
    - intros p. setoid_rewrite elem_of_nil. naive_solver.
    - intros n Hn. by apply elem_of_nil in Hn. }
  apply list.NoDup_cons in Hnd as [Hni Hnd].
  assert (Hin' : ∀ n, n ∈ entries → is_Some (m !! (dir ++ [n]))) by (intros n Hn; apply Hin; by right).
  assert (Hnext : ∀ files out', out' = out ++ files → NoDup files → (∀ p, p ∈ files ↔ wav_via m dir name p) → ¬ irregular_via m dir name →
    reads m (collect_entries rec dir entries out') (collected_entries m dir (name :: entries) out) rejection
      (∃ n, n ∈ name :: entries ∧ irregular_via m dir n)).
  { intros files out' -> Hf1 Hf2 Hf3. eapply reads_conseq; [by apply IH| |].
    - intros l. by apply collected_cons.
    - intros (n & Hn & Hi). exists n. split; [by right|done]. }
  destruct (hidden name) eqn:Hh.
  { apply (Hnext []); [by rewrite app_nil_r|constructor| |].
    - intros p. rewrite elem_of_nil. unfold wav_via. naive_solver congruence.
    - unfold irregular_via. naive_solver congruence. }
  cbv zeta. eapply reads_bind.
  { eapply reads_map_throw; [|done]. eapply reads_conseq; [apply reads_metadata|intros n Hn; exact Hn|].
    intros Hn. destruct (Hin name) as [x Hx]; [by left|congruence]. }
  intros md Hmd. destruct md as [data synced| |target].
  - destruct (wav_extension name) eqn:Hw.
    + apply (Hnext [dir ++ [name]]); [done|by apply NoDup_singleton| |].
      * intros p. rewrite list_elem_of_singleton. unfold wav_via. rewrite Hmd. naive_solver.
      * unfold irregular_via. rewrite Hmd. naive_solver.
    + apply (Hnext []); [by rewrite app_nil_r|constructor| |].
      * intros p. rewrite elem_of_nil. unfold wav_via. rewrite Hmd. naive_solver congruence.
      * unfold irregular_via. rewrite Hmd. naive_solver.
  - eapply reads_bind.
    { eapply reads_conseq; [by apply Hrec|intros l Hl; exact Hl|]. intros Hi. exists name. split; [by left|]. by split; [|right]. }
    intros files (Hf1 & Hf2 & Hf3). apply (Hnext files); [done|done| |].
    + intros p. rewrite Hf2. unfold wav_via. rewrite Hmd. naive_solver.
    + unfold irregular_via. rewrite Hmd. naive_solver.
  - apply reads_throw; [done|]. exists name. split; [by left|]. split; [done|]. left. by exists target.
Qed.

Lemma reads_collect m fuel : ∀ dir, m !! dir = Some Dir → height m ≤ fuel + List.length dir →
  reads m (collect_wavs_recursive fuel dir) (collected m dir) rejection (irregular m dir).
Proof.
  induction fuel as [|fuel IH]; intros dir Hdir Hh; cbn [collect_wavs_recursive].
  { pose proof (height_bound _ _ _ Hdir). lia. }
  eapply reads_bind.
  { eapply reads_map_throw; [|done]. eapply reads_conseq; [apply reads_read_dir|intros l Hl; exact Hl|done]. }
  intros entries [_ ->]. eapply reads_conseq; [apply reads_collect_entries|..].
  - apply children_nodup.
  - intros name. by rewrite children_spec.
  - intros name Hn. apply IH; [done|]. rewrite length_app. cbn. lia.
  - intros l (found & -> & H1 & H2 & H3). split_and!; [done| |].
    + intros p. cbn [app]. by rewrite H2, wav_under_via.
    + intros (name & Hn & Hi)%irregular_via_iff. by eapply H3.
  - intros H. by apply irregular_via_iff.
Qed.

(** ** The classes *)

Section Classes.
Variables (m : fs) (data : path).

(** A name the scan looks at. *)
Definition class_name (c : string) : Prop := hidden c = false ∧ is_Some (m !! (data ++ [c])).

(** The classes among [names] added to [cm]: directories, no two the same but
    for case. *)
Definition discovered (names : list string) (cm cm' : ClassMap) : Prop :=
  (∀ k v, cm' !! k = Some v ↔ cm !! k = Some v ∨
     ∃ c, c ∈ names ∧ hidden c = false ∧ k = to_ascii_lowercase c ∧ v = (c, data ++ [c])) ∧
  (∀ c, c ∈ names → hidden c = false → m !! (data ++ [c]) = Some Dir ∧ cm !! to_ascii_lowercase c = None) ∧
  (∀ c c', c ∈ names → c' ∈ names → hidden c = false → hidden c' = false → to_ascii_lowercase c = to_ascii_lowercase c' → c = c').

(** What stops it. *)
Definition undiscoverable (names : list string) (cm : ClassMap) : Prop :=
  ∃ c, c ∈ names ∧ hidden c = false ∧
    (m !! (data ++ [c]) ≠ Some Dir ∨ is_Some (cm !! to_ascii_lowercase c) ∨
     ∃ c', c' ∈ names ∧ hidden c' = false ∧ c ≠ c' ∧ to_ascii_lowercase c = to_ascii_lowercase c').

Lemma discovered_skip name names cm cm' : hidden name = true → discovered names cm cm' → discovered (name :: names) cm cm'.
Proof.
  intros Hh (H1 & H2 & H3). split_and!.
  - intros k v. rewrite H1. setoid_rewrite elem_of_cons. naive_solver congruence.
  - intros c [-> |Hc]%elem_of_cons Hn; [congruence|by apply H2].
  - intros c c' [-> |Hc]%elem_of_cons [-> |Hc']%elem_of_cons Hn Hn'; [congruence..|by apply H3].
Qed.

Lemma discovered_cons name names cm cm' : hidden name = false → m !! (data ++ [name]) = Some Dir → cm !! to_ascii_lowercase name = None →
  discovered names (<[to_ascii_lowercase name := (name, data ++ [name])]> cm) cm' → discovered (name :: names) cm cm'.
Proof.
  intros Hh Hd Hnone (H1 & H2 & H3).
  assert (Hne : ∀ c, c ∈ names → hidden c = false → to_ascii_lowercase name ≠ to_ascii_lowercase c).
  { intros c Hc Hn E. destruct (H2 c Hc Hn) as [_ H]. rewrite <-E, lookup_insert_eq in H. done. }
  split_and!.
  - intros k v. rewrite H1. setoid_rewrite elem_of_cons. rewrite lookup_insert_Some. naive_solver congruence.
  - intros c [-> |Hc]%elem_of_cons Hn; [done|]. destruct (H2 c Hc Hn) as [Hc1 Hc2]. split; [done|].
    by rewrite lookup_insert_ne in Hc2 by (by apply Hne).
  - intros c c' [-> |Hc]%elem_of_cons [-> |Hc']%elem_of_cons Hn Hn' E; [done| | |by apply H3].
    + by destruct (Hne c').
    + by destruct (Hne c).
Qed.

Lemma reads_discover names : ∀ cm, NoDup names → (∀ c, c ∈ names → is_Some (m !! (data ++ [c]))) →
  reads m (discover_classes data names cm) (discovered names cm) rejection (undiscoverable names cm).
Proof.
  induction names as [|name names IH]; intros cm Hnd Hin; cbn [discover_classes].
  { apply reads_ret. split_and!; intros *; setoid_rewrite elem_of_nil; naive_solver. }
  apply list.NoDup_cons in Hnd as [Hni Hnd].
  assert (Hin' : ∀ c, c ∈ names → is_Some (m !! (data ++ [c]))) by (intros c Hc; apply Hin; by right).
  destruct (hidden name) eqn:Hh.
  { eapply reads_conseq; [by apply IH|intros cm'; by apply discovered_skip|].
    intros (c & Hc & Hn & Hy). exists c. split; [by right|]. split; [done|]. setoid_rewrite elem_of_cons. naive_solver. }
  cbv zeta. eapply reads_bind.
  { eapply reads_map_throw; [|done]. eapply reads_conseq; [apply reads_metadata|intros n Hn; exact Hn|].
    intros Hn. destruct (Hin name) as [x Hx]; [by left|congruence]. }
  intros md Hmd.
  assert (Hother : md ≠ Dir → undiscoverable (name :: names) cm).
  { intros Hne. exists name. split; [by left|]. split; [done|]. left. congruence. }
  destruct md as [d s| |t]; [by apply reads_throw; [|apply Hother]| |by apply reads_throw; [|apply Hother]].
  destruct (cm !! to_ascii_lowercase name) as [[en ep]|] eqn:Hcm.
  { apply reads_throw; [done|]. exists name. split; [by left|]. split; [done|]. right. left. by rewrite Hcm. }
  eapply reads_conseq; [by apply IH|intros cm'; by apply discovered_cons|].
  intros (c & Hc & Hn & Hy). exists c. split; [by right|]. split; [done|]. setoid_rewrite elem_of_cons.
  destruct Hy as [Hy|[[v Hv]|Hy]]; [by left| |naive_solver].
  apply lookup_insert_Some in Hv as [[E _]|[_ Hv]]; [|by right; left].
  right. right. exists name. split; [by left|]. split; [done|]. split; [by intros ->|done].
Qed.

(** The files of each class, sorted. *)
Definition gathered (v : string * path) (x : string * list path) : Prop :=
  fst x = fst v ∧ snd x ≠ [] ∧ collected m (snd v) (snd x).

Lemma reads_collect_classes values : ∀ zipped, (∀ v, v ∈ values → m !! snd v = Some Dir) →
  reads m (collect_classes (height m) values zipped)
    (λ z, ∃ xs, z = zipped ++ xs ∧ Forall2 gathered values xs) rejection
    (∃ v, v ∈ values ∧ (irregular m (snd v) ∨ ∀ p, ¬ wav_under m (snd v) p)).
Proof.
  induction values as [|[original dir] values IH]; intros zipped Hdirs; cbn [collect_classes].
  { apply reads_ret. exists []. rewrite app_nil_r. split; [done|constructor]. }
  eapply reads_bind.
  { eapply reads_conseq; [apply reads_collect|intros l Hl; exact Hl|].
    - apply (Hdirs (original, dir)). by left.
    - lia.
    - intros Hi. exists (original, dir). split; [by left|by left]. }
  intros wavs (H1 & H2 & H3). destruct wavs as [|p wavs].
  { apply reads_throw; [done|]. exists (original, dir). split; [by left|]. right. intros p Hp%H2. by apply elem_of_nil in Hp. }
  eapply reads_conseq; [apply IH; intros v Hv; apply Hdirs; by right|..].
  - intros z (xs & -> & Hxs). exists ((original, merge_sort path_le (p :: wavs)) :: xs). rewrite <-app_assoc. split; [done|].
    pose proof (merge_sort_Permutation path_le (p :: wavs)) as Hperm. constructor; [|done]. split; [done|]. cbn [fst snd]. split.
    + intros E. rewrite E in Hperm. by apply Permutation_nil in Hperm.
    + split; [by rewrite Hperm|]. split; [|done]. intros q. by rewrite Hperm, H2.
  - intros (v & Hv & Hy). exists v. split; [by right|done].
Qed.
End Classes.

(** ** Byte order *)

#[export] Instance str_le_total : Total str_le.
Proof.
  intros s. unfold str_le. induction s as [|a s IH]; intros [|b t]; cbn; auto.
  rewrite (N.compare_antisym (N_of_ascii a)). destruct (N_of_ascii a ?= N_of_ascii b)%N; cbn; auto.
Qed.

#[export] Instance str_le_trans : Transitive str_le.
Proof.
  intros s t u. unfold str_le. revert s u. induction t as [|b t IH]; intros [|a s] [|c u]; cbn; try done.
  destruct (N.compare_spec (N_of_ascii a) (N_of_ascii b)) as [-> |H1|H1]; try done.
  - destruct (N_of_ascii b ?= N_of_ascii c)%N; [apply IH|done|done].
  - intros _. destruct (N.compare_spec (N_of_ascii b) (N_of_ascii c)) as [<- |H2|H2]; [|intros _|done].
    + by rewrite (proj2 (N.compare_lt_iff _ _) H1).
    + by rewrite (proj2 (N.compare_lt_iff _ _) (N.lt_trans _ _ _ H1 H2)).
Qed.

#[export] Instance key_le_total {A : Type} : Total (key_le (A := A)).
Proof. intros x y. apply str_le_total. Qed.
#[export] Instance key_le_trans {A : Type} : Transitive (key_le (A := A)).
Proof. intros x y z. apply str_le_trans. Qed.

Lemma keys_sorted {A : Type} (l : list (string * A)) : StronglySorted key_le l → StronglySorted str_le (map fst l).
Proof.
  induction 1 as [|x l Hl IH Hx]; cbn [map]; constructor; [done|]. apply List.Forall_map. exact Hx.
Qed.

(** ** The scan *)

Lemma elem_of_examples z p i : (p, i) ∈ examples_of z ↔ ∃ x, z !! i = Some x ∧ p ∈ snd x.
Proof.
  unfold examples_of. rewrite list_elem_of_In, List.in_concat. split.
  - intros (l & Hl%list_elem_of_In & Hp). apply elem_of_lookup_imap_1 in Hl as (j & x & -> & Hx).
    apply in_map_iff in Hp as (q & [= -> ->] & Hq). exists x. split; [done|by apply list_elem_of_In].
  - intros (x & Hx & Hp). exists (map (λ p, (p, i)) (snd x)). split.
    + apply list_elem_of_In. by apply (elem_of_lookup_imap_2 (λ i x, map (λ p, (p, i)) (snd x))).
    + apply in_map_iff. exists p. split; [done|by apply list_elem_of_In].
Qed.

Lemma examples_NoDup z : Forall (λ x : string * list path, NoDup (snd x)) z → NoDup (examples_of z).
Proof.
  unfold examples_of. assert (Hgen : ∀ k, Forall (λ x : string * list path, NoDup (snd x)) z →
    NoDup (concat (imap (λ i x, map (λ p, (p, k + i)) (snd x)) z)) ∧
    ∀ p j, (p, j) ∈ concat (imap (λ i x, map (λ p, (p, k + i)) (snd x)) z) → k ≤ j).
  2:{ intros H. by apply (Hgen 0). }
  induction z as [|x z IH]; intros k Hz; cbn [imap concat]; [split; [constructor|by intros p j ?%elem_of_nil]|].
  apply list.Forall_cons_1 in Hz as [Hx Hz]. destruct (IH (S k) Hz) as [H1 H2].
  erewrite imap_ext; [|intros i y _; cbn; rewrite <-plus_n_Sm, <-plus_Sn_m; reflexivity].
  rewrite Nat.add_0_r. split.
  - apply list.NoDup_app. split_and!; [|intros [p j] Hin Hin2|done].
    + apply (NoDup_fmap_2_strong (λ p, (p, k))); [by intros ? ? _ _ [= ->]|done].
    + apply list_elem_of_In, in_map_iff in Hin as (q & [= -> <-] & _). apply H2 in Hin2. lia.
  - intros p j [Hin|Hin]%elem_of_app; [|apply H2 in Hin; lia].
    apply list_elem_of_In, in_map_iff in Hin as (q & [= -> <-] & _). lia.
Qed.

(** The documented layout: class directories, distinct but for case, each with a
    [.wav] file and nothing but files and directories. *)
Record layout (m : fs) (data : path) : Prop := {
  layout_root : m !! data = Some Dir;
  layout_some : ∃ c, class_name m data c;
  layout_dirs c : class_name m data c → m !! (data ++ [c]) = Some Dir;
  layout_case c c' : class_name m data c → class_name m data c' → to_ascii_lowercase c = to_ascii_lowercase c' → c = c';
  layout_regular c : class_name m data c → ¬ irregular m (data ++ [c]);
  layout_files c : class_name m data c → ∃ p, wav_under m (data ++ [c]) p;
}.

(** What a scan of a laid out dataset returns. *)
Record scanned (m : fs) (data : path) (classes : list string) (examples : list (path * nat)) : Prop := {
  scanned_sorted : StronglySorted str_le classes;
  scanned_distinct : NoDup classes;
  scanned_classes c : c ∈ classes ↔ class_name m data c;
  scanned_once : NoDup examples;
  scanned_examples p i : (p, i) ∈ examples ↔ ∃ c, classes !! i = Some c ∧ wav_under m (data ++ [c]) p;
}.

Lemma class_values_elem (cm : ClassMap) v : v ∈ class_values cm ↔ ∃ k, cm !! k = Some v.
Proof.
  unfold class_values. rewrite list_elem_of_fmap. setoid_rewrite (merge_sort_Permutation key_le (map_to_list cm)). split.
  - intros ([k v'] & -> & H%elem_of_map_to_list). by exists k.
  - intros [k H]. exists (k, v). split; [done|by apply elem_of_map_to_list].
Qed.

Lemma discovered_values m data cm : discovered m data (children data m) ∅ cm →
  NoDup (map fst (class_values cm)) ∧
  (∀ v, v ∈ class_values cm ↔ snd v = data ++ [fst v] ∧ class_name m data (fst v)).
Proof.
  intros (H1 & H2 & H3).
  assert (Hv : ∀ v, v ∈ class_values cm ↔ snd v = data ++ [fst v] ∧ class_name m data (fst v)).
  { intros v. rewrite class_values_elem. setoid_rewrite H1. setoid_rewrite children_spec. unfold class_name. split.
    - intros (k & [?|(c & Hc & Hh & _ & ->)]); [done|]. done.
    - intros [E [Hh Hc]]. exists (to_ascii_lowercase (fst v)). right. exists (fst v). destruct v; cbn in *. by subst. }
  split; [|done].
  assert (Hkey : ∀ k v, cm !! k = Some v → k = to_ascii_lowercase (fst v)) by (intros k v [?|(c & _ & _ & -> & ->)]%H1; done).
  unfold class_values. rewrite (merge_sort_Permutation key_le (map_to_list cm)).
  change (map fst (map snd (map_to_list cm))) with (fst <$> (snd <$> map_to_list cm)). rewrite <-list_fmap_compose.
  apply NoDup_fmap_2_strong; [|apply NoDup_map_to_list].
  intros [k v] [k' v'] Hk%elem_of_map_to_list Hk'%elem_of_map_to_list E. cbn in E.
  assert (k = k') as -> by (rewrite (Hkey _ _ Hk), (Hkey _ _ Hk'); by rewrite E). congruence.
Qed.

(** The classes found, with what was gathered for each, are a laid out dataset
    and its scan. *)
Lemma gathered_scanned m data cm xs : m !! data = Some Dir → cm ≠ ∅ →
  discovered m data (children data m) ∅ cm → Forall2 (gathered m) (class_values cm) xs →
  layout m data ∧ scanned m data (map fst (merge_sort key_le xs)) (examples_of (merge_sort key_le xs)).
Proof.
  intros Hroot Hne Hdisc Hxs. destruct (discovered_values _ _ _ Hdisc) as [Hnd Hv]. destruct Hdisc as (H1 & H2 & H3).
  assert (Hnames : map fst xs = map fst (class_values cm)).
  { clear -Hxs. induction Hxs as [|v x vs xs (H & _) _ IH]; [done|]. cbn. by rewrite H, IH. }
  pose proof (merge_sort_Permutation key_le xs) as Hperm. set (z := merge_sort key_le xs) in *.
  assert (Hz : ∀ x, x ∈ z → class_name m data (fst x) ∧ snd x ≠ [] ∧ collected m (data ++ [fst x]) (snd x)).
  { intros x Hx. rewrite Hperm in Hx. apply list_elem_of_lookup_1 in Hx as [j Hx].
    destruct (Forall2_lookup_r _ _ _ _ _ Hxs Hx) as (v & Hvj & Hf & Hn & Hc).
    apply list_elem_of_lookup_2, Hv in Hvj as [E Hcn]. rewrite Hf. by rewrite <-E. }
  assert (Hcl : ∀ c, class_name m data c → ∃ x, x ∈ z ∧ fst x = c).
  { intros c Hc. assert (Hvc : (c, data ++ [c]) ∈ class_values cm) by (by apply Hv).
    apply list_elem_of_lookup_1 in Hvc as [j Hvc]. destruct (Forall2_lookup_l _ _ _ _ _ Hxs Hvc) as (x & Hx & Hf & _).
    exists x. split; [rewrite Hperm; by eapply list_elem_of_lookup_2|done]. }
  split; split.
  - done.
  - destruct (map_choose _ Hne) as (k & v & Hk). exists (fst v). apply Hv, class_values_elem. by exists k.
  - intros c [Hh Hc]. apply H2; [by apply children_spec|done].
  - intros c c' [Hh Hc] [Hh' Hc']. apply H3; [by apply children_spec..|done|done].
  - intros c Hc. destruct (Hcl c Hc) as (x & Hx & <-). by destruct (Hz x Hx) as (_ & _ & _ & _ & ?).
  - intros c Hc. destruct (Hcl c Hc) as (x & Hx & <-). destruct (Hz x Hx) as (_ & Hn & _ & Hw & _).
    destruct (snd x) as [|p l]; [done|]. exists p. apply Hw. left.
  - apply keys_sorted, StronglySorted_merge_sort; apply _.
  - rewrite Hperm, Hnames. done.
  - intros c. split.
    + intros (x & -> & Hx)%list_elem_of_fmap. by apply Hz.
    + intros (x & Hx & <-)%Hcl. apply list_elem_of_fmap. by exists x.
  - apply examples_NoDup. apply list.Forall_forall. intros x Hx. by destruct (Hz x Hx) as (_ & _ & ? & _).
  - intros p i. rewrite elem_of_examples. split.
    + intros (x & Hx & Hp). exists (fst x). split; [change (map fst z) with (fst <$> z); by rewrite list_lookup_fmap, Hx|].
      apply list_elem_of_lookup_2 in Hx. by apply (Hz x Hx).
    + intros (c & Hc & Hp). change (map fst z) with (fst <$> z) in Hc. rewrite list_lookup_fmap in Hc.
      destruct (z !! i) as [x|] eqn:Hx; [|done]. injection Hc as <-. exists x. split; [done|].
      apply list_elem_of_lookup_2 in Hx. by apply (Hz x Hx).
Qed.

Lemma reads_scan_tail m data cm (entries := children data m) :
  m !! data = Some Dir → discovered m data entries ∅ cm → cm ≠ ∅ →
  reads m (zipped ← collect_classes (height m) (class_values cm) [];
           let zipped := merge_sort key_le zipped in mret (map fst zipped, examples_of zipped))
    (λ r, layout m data ∧ scanned m data (fst r) (snd r)) rejection (¬ layout m data).
Proof.
  intros Hroot Hdisc Hne. destruct (discovered_values _ _ _ Hdisc) as [_ Hv]. eapply reads_bind.
  { eapply reads_conseq; [apply reads_collect_classes|intros z Hz; exact Hz|].
    - intros v [-> [Hh Hc]]%Hv. apply (proj1 (proj2 Hdisc)); [by apply children_spec|done].
    - intros (v & [E Hc]%Hv & Hy) Hl. rewrite E in Hy. destruct Hy as [Hi|Hw].
      + by apply (layout_regular _ _ Hl) in Hi.
      + destruct (layout_files _ _ Hl _ Hc) as [p Hp]. by apply (Hw p). }
  intros z (xs & -> & Hxs). apply reads_ret. cbn [app fst snd]. by eapply gathered_scanned.
Qed.

Lemma scan_outcome (data : path) (w : World) :
  let m := visible (disk w) in
  match scan_dataset data w with
  | (w', Ret (classes, examples)) => disk w' = disk w ∧ layout m data ∧ scanned m data classes examples
  | (w', Throw e) => disk w' = disk w ∧ rejection e ∧ (calm_world w → ¬ layout m data)
  | (w', Crash) => disk w' = disk w ∧ ¬ calm_world w
  end.
Proof.
  intros m. unfold scan_dataset. fold m.
  match goal with |- match ?c w with _ => _ end => assert (H : reads m c
    (λ r, layout m data ∧ scanned m data (fst r) (snd r)) rejection (¬ layout m data)) end.
  2:{ specialize (H w eq_refl). match type of H with match ?t with _ => _ end => destruct t as [w' [[classes examples]|e|]] end; naive_solver. }
  eapply reads_bind.
  { eapply reads_map_throw; [|intros e; apply bad_dataset_rejects].
    eapply reads_conseq; [apply reads_read_dir|intros l Hl; exact Hl|]. intros Hn Hl. apply Hn, (layout_root _ _ Hl). }
  intros entries [Hroot ->]. eapply reads_bind.
  { eapply reads_conseq; [apply reads_discover|intros cm Hcm; exact Hcm|].
    - apply children_nodup.
    - intros c. by rewrite children_spec.
    - intros (c & Hc%children_spec & Hh & Hy) Hl. assert (Hcn : class_name m data c) by done.
      destruct Hy as [Hy|[[v Hv]|(c' & Hc'%children_spec & Hh' & Hne & E)]]; [by apply Hy, (layout_dirs _ _ Hl)|done|].
      apply Hne. by apply (layout_case _ _ Hl). }
  intros cm Hdisc. destruct (decide (cm = ∅)) as [-> |Hne]; [|by apply reads_scan_tail].
  apply reads_throw; [apply bad_dataset_rejects|]. intros Hl. destruct (layout_some _ _ Hl) as (c & Hh & Hc).
  destruct Hdisc as (H1 & _). assert (Hk : (∅ : ClassMap) !! to_ascii_lowercase c = Some (c, data ++ [c])); [|done].
  apply H1. right. exists c. by rewrite children_spec.
Qed.

(** C21: A scan never panics or runs out of stack, and leaves the disk as it was.
    When it returns, the dataset has the documented layout and the result is
    exact: the class directories in byte order, each once and no two the same
    but for case, and as examples exactly the visible [.wav] files at any depth,
    each once, under the index of its class; so no class is empty.  A failure is
    always [BadDataset], and without an I/O error or a power loss it happens only
    when the layout is wrong. *)
Theorem scan_exact (data : path) (w : World) :
  let m := visible (disk w) in
  match scan_dataset data w with
  | (w', Ret (classes, examples)) => disk w' = disk w ∧ layout m data ∧ scanned m data classes examples
  | (w', Throw e) => disk w' = disk w ∧ rejection e ∧ (calm_world w → ¬ layout m data)
  | (w', Crash) => disk w' = disk w ∧ ¬ calm_world w
  end.
Proof. apply scan_outcome. Qed.
