(* ===== verification/FinetuneTrain.v ===== *)
(** * Fine-tuning: extraction, training and the whole run

    The rest of [training/finetune.rs]: features in chunks under cancellation,
    evaluation, the epochs with their best snapshot, and [run].

    The neural network is Burn's ([TrainLib]): what a forward pass, a loss and an
    optimiser step answer, and the recorder that turns a head into bytes.  Wall
    times and messages of progress events are not kept. *)

From Stdlib Require Import SpecFloat.
From S2P Require Import Prelude Ids HeadHeader Common FileSystem FsAtomic Workspace HotHead F32 F32Facts Resample Preproc WavIo Config ApiErrors Finetune FinetuneScan.

Local Open Scope nat_scope.

(** ** Burn *)

Class TrainLib := {
  TBackbone : Type;
  THead : Type;
  backbone_load_mpk : path → result string TBackbone;
  backbone_forward : TBackbone → list (list (list f32)) → list f32;
  head_load_mpk : path → result string THead;
  (** [Head::new] after the backends have been seeded. *)
  head_new : Z → nat → THead;
  (** [linear.weight.val().dims()[1]]. *)
  head_classes : THead → nat;
  head_forward : THead → list (list f32) → list f32;
  (** The mean cross entropy of a batch, and plain gradient descent on it. *)
  cross_entropy : THead → list (list f32) → list nat → f32;
  sgd_step : f32 → THead → list (list f32) → list nat → THead;
  (** The recorder. *)
  record_head : THead → result string (list ascii);
  load_head : list ascii → result string THead;
}.

(** One logit per class and row; a step keeps the shape; the bytes of a head load
    to that head. *)
Class TrainLaws `(N : TrainLib) := {
  forward_length h xs : List.length (head_forward h xs) = List.length xs * head_classes h;
  step_classes lr h xs ys : head_classes (sgd_step lr h xs ys) = head_classes h;
  new_classes seed n : head_classes (head_new seed n) = n;
  record_load h b : record_head h = Ok b → load_head b = Ok h;
}.

(** ** A job's run *)

Inductive Phase : Type := Loading | FeatureExtract | Train | Saving | Done.

Record EpochMetrics := mkEpochMetrics {
  em_epoch : nat;
  em_epochs : nat;
  em_train_loss : f64;
  em_train_acc : f32;
  em_val_acc : f32;
  em_best_val_acc : f32;
}.

Record Progress := mkProgress { pr_phase : Phase; pr_current : nat; pr_total : nat; pr_metrics : option EpochMetrics }.

(** [Progress::new] and [Progress::with_metrics]. *)
Definition Progress_new (phase : Phase) (current total : nat) : Progress := mkProgress phase current total None.
Definition Progress_with_metrics (m : EpochMetrics) : Progress := mkProgress Train (em_epoch m) (em_epochs m) (Some m).

(** The disk, what the next polls of the cancel flag answer ([false] from then
    on), and the events reported. *)
Record Job := mkJob { job_world : World; job_polls : list bool; job_events : list Progress }.

Definition F (A : Type) : Type := Job → Job * outcome Stop A.

#[export] Instance F_ret : MRet F := λ A a j, (j, Ret a).
#[export] Instance F_bind : MBind F := λ A B f m j,
  match m j with
  | (j, Ret a) => f a j
  | (j, Throw e) => (j, Throw e)
  | (j, Crash) => (j, Crash)
  end.

Definition on_disk {A : Type} (m : M Stop A) : F A := λ j,
  let '(w, r) := m (job_world j) in (mkJob w (job_polls j) (job_events j), r).
Definition of_result {A : Type} (r : T A) : F A := λ j, (j, match r with Ok a => Ret a | Err e => Throw e end).
Definition report (p : Progress) : F unit := λ j, (mkJob (job_world j) (job_polls j) (job_events j ++ [p]), Ret tt).

Definition check_cancel : F unit := λ j,
  let j' := mkJob (job_world j) (tail (job_polls j)) (job_events j) in
  if default false (head (job_polls j)) then (j', Throw (Fails FT_Cancelled)) else (j', Ret tt).

(** What the next check will answer: the flag is never lowered, so a worker that
    sees it raised is followed by a check that does. *)
Definition cancel_ahead : F bool := λ j, (j, Ret (default false (head (job_polls j)))).

(** A call on the run's private temporary directory, which is not part of the
    tree: it may fail, or be the last. *)
Definition outside : M IoKind unit := syscall (λ d, (d, Ok tt)).

(** [l.chunks(n)], which asserts that [n] is not zero. *)
Fixpoint pieces {A : Type} (fuel n : nat) (l : list A) : list (list A) :=
  match fuel, l with
  | S fuel, _ :: _ => take n l :: pieces fuel n (drop n l)
  | _, _ => []
  end.
Definition chunks {A : Type} (n : nat) (l : list A) : T (list (list A)) :=
  if n =? 0 then Err (Panicked "chunk size must be non-zero") else Ok (pieces (List.length l) n l).

(** ** Features *)

Definition BACKBONE_BATCH : nat := 512.
Definition DEFAULT_PROGRESS_EVERY : nat := 500.
Definition MAX_FEATURE_BYTES : Z := 256 * 1024 * 1024.
Definition MAX_EXAMPLES_FEATURE_BUFFER : Z := MAX_FEATURE_BYTES / (Z.of_nat BACKBONE_FEATURE_DIM * 4).

Definition check_feature_buffer_cap (total : nat) : T unit :=
  if (MAX_EXAMPLES_FEATURE_BUFFER <? Z.of_nat total)%Z
  then fails (FT_InvalidConfig "dataset has more examples than the on-device cap")
  else Ok tt.

Section Finetune.
Context `{H : Hound} `{R : Rubato} `{L : Libm} `{FFT : RealFft} `{N : TrainLib} `{TMP : TempLib} `{UU : UuidLib}.
Variable window : list f32.

(** How rayon cuts a chunk into runs of files, each with a fresh worker state,
    and which files are reached after the flag has been raised. *)
Variable splits : list (path * nat) → list (list (path * nat)).
Variable late : path → bool.

Inductive FileOutcome : Type :=
  | Kept (spec : list (list f32)) (label : nat)
  | SeenCancelled
  | DroppedIo
  | DroppedNan.

(** One file through a worker's resampler slot. *)
Definition process_file (cancelled : bool) (resampler : ResamplerCache) '((p, label) : path * nat) : T (ResamplerCache * FileOutcome) :=
  if cancelled && late p then Ok (resampler, SeenCancelled)
  else
  match read_wav_mono p with
  | Err _ => Ok (resampler, DroppedIo)
  | Ok (sr, mono) =>
      match to_waveform sr mono resampler with
      | None => Err (Panicked "resampler")
      | Some (resampler, Err e) =>
          Ok (match e with ResampleInput | ResampleOutput | ResampleChunk _ => ResamplerCache_clear resampler | _ => resampler end, DroppedIo)
      | Some (resampler, Ok pcm) =>
          match spectrogram_into window pcm with
          | None => Err (Panicked "spectrogram")
          | Some spec =>
              if existsb (λ v, negb (is_finite v)) (concat spec) then Ok (resampler, DroppedNan)
              else Ok (resampler, Kept spec label)
          end
      end
  end.

Fixpoint process_files (cancelled : bool) (resampler : ResamplerCache) (files : list (path * nat)) : T (list FileOutcome) :=
  match files with
  | [] => Ok []
  | f :: files =>
      '(resampler, o) ← process_file cancelled resampler f;
      os ← process_files cancelled resampler files;
      Ok (o :: os)
  end.

(** [chunk.par_iter().map_init(..).collect()]. *)
Definition process_chunk (cancelled : bool) (chunk : list (path * nat)) : T (list FileOutcome) :=
  oss ← mapM (process_files cancelled ResamplerCache_empty) (splits chunk);
  Ok (concat oss).

Definition kept_of (os : list FileOutcome) : list (list (list f32) * nat) :=
  omap (λ o, match o with Kept spec label => Some (spec, label) | _ => None end) os.

(** The batched forward pass of the kept examples of a chunk. *)
Definition forward_kept (backbone : TBackbone) (kept : list (list (list f32) * nat)) : T (list (list f32)) :=
  match kept with
  | [] => Ok []
  | _ =>
      let out_data := backbone_forward backbone (map fst kept) in
      if negb (List.length out_data =? List.length kept * BACKBONE_FEATURE_DIM)
      then Err (Panicked "backbone returned the wrong number of floats")
      else Ok (pieces (List.length out_data) BACKBONE_FEATURE_DIM out_data)
  end.

Fixpoint extract_loop (backbone : TBackbone) (total : nat) (cs : list (list (path * nat))) (processed : nat)
    (feats : list (list f32)) (labels : list nat) : F (list (list f32) * list nat) :=
  match cs with
  | [] => mret (feats, labels)
  | chunk :: cs =>
      _ ← check_cancel;
      cancelled ← cancel_ahead;
      specs ← of_result (process_chunk cancelled chunk);
      _ ← check_cancel;
      let kept := kept_of specs in
      rows ← of_result (forward_kept backbone kept);
      let feats := feats ++ rows in
      let labels := labels ++ map snd kept in
      let prev_processed := processed in
      let processed := processed + List.length chunk in
      _ ← (if (prev_processed / DEFAULT_PROGRESS_EVERY <? processed / DEFAULT_PROGRESS_EVERY) && negb (processed =? total)
           then report (Progress_new FeatureExtract processed total) else mret tt);
      extract_loop backbone total cs processed feats labels
  end.

Definition extract_features (backbone : TBackbone) (examples : list (path * nat)) : F (list (list f32) * list nat) :=
  let total := List.length examples in
  _ ← of_result (check_feature_buffer_cap total);
  cs ← of_result (chunks BACKBONE_BATCH examples);
  '(feats, labels) ← extract_loop backbone total cs 0 [] [];
  _ ← report (Progress_new FeatureExtract (List.length feats) total);
  mret (feats, labels).

(** ** Evaluation *)

Definition argmax (xs : list f32) : nat :=
  fst (foldl (λ '(best_i, best_v) '(i, v), if float_gt v best_v then (i, v) else (best_i, best_v))
         (0, S754_infinity true) (enumerate xs)).

(** [pred[start..end]]. *)
Definition slice_at (l : list f32) (a b : nat) : T (list f32) :=
  if (b <? a) || (List.length l <? b) then Err (Panicked "range end index out of range") else Ok (take (b - a) (drop a l)).

(** How many rows of [pred] have their maximum at the label of their example. *)
Fixpoint count_correct (n_classes : nat) (labels : list nat) (pred : list f32) (row : nat) (chunk : list nat) : T nat :=
  match chunk with
  | [] => Ok 0
  | i :: chunk =>
      let start := row * n_classes in
      xs ← slice_at pred start (start + n_classes);
      label ← index labels i;
      rest ← count_correct n_classes labels pred (S row) chunk;
      Ok ((if argmax xs =? label then 1 else 0) + rest)
  end.

Definition EVAL_BATCH : nat := 256.

Definition evaluate_chunk (head : THead) (n_classes : nat) (feats : list (list f32)) (labels : list nat) (chunk : list nat) : T nat :=
  xs ← mapM (index feats) chunk;
  count_correct n_classes labels (head_forward head xs) 0 chunk.

Definition evaluate (head : THead) (n_classes : nat) (feats : list (list f32)) (labels : list nat) (indices : list nat) : T f32 :=
  match indices with
  | [] => Ok S754_nan
  | _ =>
      cs ← chunks EVAL_BATCH indices;
      counts ← mapM (evaluate_chunk head n_classes feats labels) cs;
      Ok (f32_div (nat_as_f32 (list_sum counts)) (nat_as_f32 (List.length indices)))
  end.

(** ** Training *)

Record TrainData := mkTrainData { td_n_classes : nat; td_feats : list (list f32); td_labels : list nat; td_train_idx : list nat; td_val_idx : list nat }.
Record TrainSettings := mkTrainSettings { ts_epochs : nat; ts_batch : nat; ts_lr : f32; ts_seed : Z }.

(** The running sums of an epoch and the head. *)
Record Epoch := mkEpoch { ep_head : THead; ep_loss : f64; ep_correct : nat; ep_count : nat }.

Definition train_chunk (data : TrainData) (lr : f32) (e : Epoch) (chunk : list nat) : T Epoch :=
  xs ← mapM (index (td_feats data)) chunk;
  ys ← mapM (index (td_labels data)) chunk;
  let loss := cross_entropy (ep_head e) xs ys in
  correct ← count_correct (td_n_classes data) (td_labels data) (head_forward (ep_head e) xs) 0 chunk;
  Ok (mkEpoch (sgd_step lr (ep_head e) xs ys)
        (f64_add (ep_loss e) (f64_mul (f32_as_f64 loss) (f64_of_int (Z.of_nat (List.length chunk)))))
        (ep_correct e + correct) (ep_count e + List.length chunk)).

Fixpoint train_chunks (data : TrainData) (lr : f32) (cs : list (list nat)) (e : Epoch) : F Epoch :=
  match cs with
  | [] => mret e
  | chunk :: cs => _ ← check_cancel; e ← of_result (train_chunk data lr e chunk); train_chunks data lr cs e
  end.

(** The loop over the epochs: the best accuracy so far and the bytes of its
    snapshot. *)
Fixpoint train_epochs (data : TrainData) (s : TrainSettings) (epochs : list nat) (head : THead) (best_val : f32) (best : option (list ascii))
    : F (THead * option (list ascii)) :=
  match epochs with
  | [] => mret (head, best)
  | epoch :: epochs =>
      _ ← check_cancel;
      order ← of_result (shuffle_in_place (td_train_idx data) (wrap_add64 (ts_seed s) (Z.of_nat epoch)));
      cs ← of_result (chunks (ts_batch s) order);
      e ← train_chunks data (ts_lr s) cs (mkEpoch head (S754_zero false) 0 0);
      let head := ep_head e in
      let train_acc := f32_div (nat_as_f32 (ep_correct e)) (nat_as_f32 (ep_count e)) in
      let avg_loss := if 0 <? ep_count e then f64_div (ep_loss e) (f64_of_int (Z.of_nat (ep_count e))) else S754_zero false in
      val_acc ← of_result (evaluate head (td_n_classes data) (td_feats data) (td_labels data) (td_val_idx data));
      '(best_val, best) ←
        (if is_finite val_acc && (negb (not_nan best_val) || float_gt val_acc best_val)
         then
           _ ← on_disk (map_throw (λ _, Fails (FT_Model "save")) outside);
           bytes ← of_result (map_err (λ m, Fails (FT_Model m)) (record_head head));
           mret (val_acc, Some bytes)
         else mret (best_val, best));
      _ ← report (Progress_with_metrics (mkEpochMetrics (S epoch) (ts_epochs s) avg_loss train_acc val_acc best_val));
      train_epochs data s epochs head best_val best
  end.

Definition train_head (head : THead) (data : TrainData) (s : TrainSettings) : F THead :=
  _ ← on_disk (map_throw (λ _, Fails (FT_Io "<finetune snapshot tempdir>")) outside);
  '(head, best) ← train_epochs data s (seq 0 (ts_epochs s)) head S754_nan None;
  match best with
  | Some bytes =>
      _ ← on_disk (map_throw (λ _, Fails (FT_Model "load")) outside);
      of_result (map_err (λ m, Fails (FT_Model m)) (load_head bytes))
  | None => mret head
  end.

(** ** The run *)

(** [Path::file_stem]: the name up to its last dot, unless that is its first byte. *)
Definition file_stem (name : string) : string :=
  match List.find (λ k, bool_decide (bytes_of name !! k = Some "."%char)) (rev (seq 1 (String.length name - 1))) with
  | Some k => string_of_list_ascii (take k (bytes_of name))
  | None => name
  end.

Definition labels_path_of (out : path) : path :=
  let stem := match List.rev out with name :: _ => file_stem name | [] => "head"%string end in
  parent out ++ [(stem ++ ".labels.txt")%string].

Definition newline : string := String "010" EmptyString.
Definition labels_blob_of (classes : list string) : list ascii := bytes_of (String.concat newline classes ++ newline).

(** [u8]s of a [Vec] as characters. *)
Definition chars_of (bytes : list Z) : list ascii := map (λ z, ascii_of_N (Z.to_N z)) bytes.

(** The 32-byte header and the recorded bytes. *)
Definition head_blob (head : THead) : T (list ascii) :=
  let n_classes := (Z.of_nat (head_classes head) mod (u32_max + 1))%Z in
  payload ← map_err (λ m, Fails (FT_Model m)) (record_head head);
  match write_with_payload (λ w bs, (w ++ bs, @Ok unit unit tt)) [] (Z.of_nat BACKBONE_FEATURE_DIM) n_classes (map byte_val payload) with
  | (blob, Ok _) => Ok (chars_of blob)
  | (_, Err _) => fails (FT_Model "compose ACSTHEAD")
  end.

(** [Head::save_mpk_atomic]: its temporary file, sync, rename and directory sync
    are, call for call, those of [put_atomic]. *)
Definition save_mpk_atomic (head : THead) (final_path : path) : M Stop unit :=
  blob ← lift (head_blob head);
  map_throw (λ _, Fails (FT_Model "save")) (put_atomic final_path blob).

Record FinetuneOutput := mkFinetuneOutput {
  fo_head_mpk : path;
  fo_labels_txt : path;
  fo_final_train_acc : f32;
  fo_final_val_acc : f32;
  fo_classes : list string;
  fo_head_id : HeadId;
}.

(** What is published under the configured name: the labels, then the head. *)
Definition publish_files (out : path) (classes : list string) (head : THead) : M Stop unit :=
  _ ← (if decide (out = []) then mret tt
       else map_throw (λ _, Fails (FT_Io (display (parent out)))) (create_dir_all (parent out)));
  let labels_path := labels_path_of out in
  _ ← map_throw (λ _, Fails (FT_Io (display labels_path))) (put_atomic labels_path (labels_blob_of classes));
  save_mpk_atomic head out.

Definition initial_head (cfg : FinetuneConfig) (n_classes : nat) : T THead :=
  match ft_init_head cfg with
  | Some p =>
      loaded ← map_err (λ m, Fails (FT_Model m)) (head_load_mpk p);
      if negb (head_classes loaded =? n_classes)
      then fails (FT_InvalidConfig "init_head has another number of classes")
      else Ok loaded
  | None => Ok (head_new (ft_seed cfg) n_classes)
  end.

(** From the scan to the split. *)
Definition prepare (cfg : FinetuneConfig) : F (list string * TrainData) :=
  _ ← report (Progress_new Loading 0 0);
  '(classes, examples) ← on_disk (scan_dataset (ft_data cfg));
  let n_classes := List.length classes in
  let total := List.length examples in
  _ ← of_result (if n_classes <? 2 then fails (FT_InvalidConfig "need at least 2 classes") else Ok tt);
  _ ← of_result (if total =? 0 then fails (FT_InvalidConfig "dataset contains no .wav examples") else Ok tt);
  let pre_scan_counts := per_class_counts_from_examples classes examples in
  _ ← of_result (match first_empty pre_scan_counts with
                 | Some idx => class ← index classes idx; fails (FT_EmptyClassAfterScan class (zip classes pre_scan_counts))
                 | None => Ok tt
                 end);
  _ ← report (Progress_new Loading total total);
  _ ← check_cancel;
  _ ← report (Progress_new Loading 0 1);
  backbone ← of_result (map_err (λ m, Fails (FT_Model m)) (backbone_load_mpk (ft_backbone cfg)));
  _ ← check_cancel;
  _ ← report (Progress_new FeatureExtract 0 total);
  '(feats, labels) ← extract_features backbone examples;
  _ ← of_result (match feats with [] => fails (FT_InvalidConfig "all examples were dropped during feature extraction") | _ => Ok tt end);
  _ ← of_result (if List.length feats =? List.length labels then Ok tt else Err (Panicked "assertion failed"));
  _ ← check_cancel;
  _ ← of_result (validate_post_extract_quality classes pre_scan_counts n_classes labels total);
  split ← of_result (stratified_split_indices labels n_classes (ft_val_split cfg) (ft_seed cfg) (Some classes));
  _ ← of_result (match sp_train split with [] => fails (FT_InvalidConfig "empty training split") | _ => Ok tt end);
  mret (classes, mkTrainData n_classes feats labels (sp_train split) (sp_val split)).

(** [head_id] is the fresh identifier the run mints. *)
Definition run_inner (cfg : FinetuneConfig) (head_id : HeadId) : F FinetuneOutput :=
  _ ← of_result (map_err Fails (FinetuneConfig_validate cfg));
  _ ← check_cancel;
  '(classes, data) ← prepare cfg;
  let epochs := Z.to_nat (ft_epochs cfg) in
  _ ← report (Progress_new Train 0 epochs);
  head ← of_result (initial_head cfg (td_n_classes data));
  head ← train_head head data (mkTrainSettings epochs (Z.to_nat (ft_batch cfg)) (ft_lr cfg) (ft_seed cfg));
  _ ← report (Progress_new Train epochs epochs);
  _ ← check_cancel;
  _ ← report (Progress_new Saving 0 2);
  final_train ← of_result (evaluate head (td_n_classes data) (td_feats data) (td_labels data) (td_train_idx data));
  final_val ← of_result (evaluate head (td_n_classes data) (td_feats data) (td_labels data) (td_val_idx data));
  _ ← on_disk (publish_files (ft_out cfg) classes head);
  _ ← report (Progress_new Done epochs epochs);
  mret (mkFinetuneOutput (ft_out cfg) (labels_path_of (ft_out cfg)) final_train final_val classes head_id).

(** [run]: a panic becomes an error. *)
Definition run (cfg : FinetuneConfig) (head_id : HeadId) (j : Job) : Job * outcome FinetuneError FinetuneOutput :=
  match run_inner cfg head_id j with
  | (j, Ret out) => (j, Ret out)
  | (j, Throw (Fails e)) => (j, Throw e)
  | (j, Throw (Panicked message)) => (j, Throw (FT_Panic message))
  | (j, Crash) => (j, Crash)
  end.
End Finetune.
