(* ===== verification/FinetuneRuns.v ===== *)
(** * What feature extraction keeps and what training returns

    However rayon cuts the chunks and whenever the flag is raised, an extraction
    that returns has processed every example: what it keeps is decided file by
    file, as if each had a resampler of its own. *)

From Stdlib Require Import SpecFloat.
From S2P Require Import Prelude Ids HeadHeader Common FileSystem FsLogic FsAtomic Workspace HotHead F32 F32Facts Resample MicTypes Preproc WavIo WavIoFacts Config ApiErrors Finetune FinetuneScan FinetuneTrain.

Local Open Scope nat_scope.

(** ** Partial correctness without panics *)

(** A panic, or an error that reports one. *)
Definition panics (e : Stop) : bool := match e with Panicked _ | Fails (FT_Panic _) => true | _ => false end.

(** [c] leaves the disk as it was, returns only what satisfies [Q], and does not
    panic. *)
Definition gives {A : Type} (c : F A) (Q : A → Prop) : Prop :=
  ∀ j, let '(j', r) := c j in
    disk (job_world j') = disk (job_world j) ∧
    match r with
    | Ret a => Q a
    | Throw e => panics e = false
    | Crash => True
    end.

Definition settles {A : Type} (r : T A) (Q : A → Prop) : Prop :=
  match r with Ok a => Q a | Err e => panics e = false end.

Lemma gives_ret {A : Type} (a : A) (Q : A → Prop) : Q a → gives (mret a) Q.
Proof. by intros H j. Qed.

Lemma gives_bind {A B : Type} (c : F A) (f : A → F B) (P : A → Prop) (Q : B → Prop) :
  gives c P → (∀ a, P a → gives (f a) Q) → gives (c ≫= f) Q.
Proof.
  intros Hc Hf j. specialize (Hc j). unfold mbind, F_bind. destruct (c j) as [j1 [a|e|]]; destruct Hc as [Hd Hc]; [|done..].
  specialize (Hf a Hc j1). destruct (f a j1) as [j2 r]. by rewrite <-Hd.
Qed.

Lemma gives_weaken {A : Type} (c : F A) (P Q : A → Prop) : gives c P → (∀ a, P a → Q a) → gives c Q.
Proof. intros Hc HPQ j. specialize (Hc j). destruct (c j) as [j1 [a|e|]]; naive_solver. Qed.

Lemma gives_of_result {A : Type} (r : T A) (Q : A → Prop) : settles r Q → gives (of_result r) Q.
Proof. intros H j. unfold of_result. by destruct r as [a|e]. Qed.

Lemma gives_report p : gives (report p) (λ _, True).
Proof. by intros j. Qed.

Lemma gives_check : gives check_cancel (λ _, True).
Proof. intros j. unfold check_cancel. by destruct (default false _). Qed.

Lemma gives_outside e : panics (Fails e) = false → gives (on_disk (map_throw (λ _, Fails e) outside)) (λ _, True).
Proof.
  intros He j. unfold on_disk, map_throw, outside, syscall. destruct (budget (job_world j)) as [[|n]|], (faults (job_world j)) as [|[] fl]; by cbn.
Qed.

Lemma settles_bind {A B : Type} (r : T A) (f : A → T B) (P : A → Prop) (Q : B → Prop) :
  settles r P → (∀ a, P a → settles (f a) Q) → settles (r ≫= f) Q.
Proof. destruct r as [a|e]; cbn; auto. Qed.

(** ** Chunks *)

Lemma pieces_concat {A : Type} fuel n (l : list A) : 0 < n → List.length l ≤ fuel → concat (pieces fuel n l) = l.
Proof.
  intros Hn. revert l. induction fuel as [|fuel IH]; intros [|x l] Hl; cbn [pieces concat List.length] in *; [done|lia|done|].
  rewrite IH; [apply take_drop|]. rewrite length_drop. cbn. lia.
Qed.

Lemma pieces_bounds {A : Type} fuel n (l : list A) : 0 < n → Forall (λ c, c ≠ [] ∧ List.length c ≤ n) (pieces fuel n l).
Proof.
  intros Hn. revert l. induction fuel as [|fuel IH]; intros [|x l]; cbn [pieces]; try constructor; [|apply IH].
  split; [destruct n; [lia|done]|]. rewrite length_take. lia.
Qed.

Lemma chunks_ok {A : Type} n (l : list A) : 0 < n → ∃ cs, chunks n l = Ok cs ∧ concat cs = l ∧ Forall (λ c, c ≠ [] ∧ List.length c ≤ n) cs.
Proof.
  intros Hn. unfold chunks. destruct (Nat.eqb_spec n 0); [lia|]. eexists. split_and!; [done|by apply pieces_concat|by apply pieces_bounds].
Qed.

(** Cutting [k * n] elements into pieces of [n] gives [k] of them. *)
Lemma pieces_exact {A : Type} n k : ∀ fuel (l : list A), 0 < n → List.length l = k * n → List.length l ≤ fuel →
  List.length (pieces fuel n l) = k ∧ Forall (λ c, List.length c = n) (pieces fuel n l).
Proof.
  induction k as [|k IH]; intros fuel l Hn Hl Hf.
  - assert (l = []) as -> by (by apply nil_length_inv). by destruct fuel.
  - destruct l as [|x l]; [cbn in Hl; lia|]. destruct fuel as [|fuel]; [cbn in Hf; lia|]. cbn [pieces List.length] in *.
    destruct (IH fuel (drop n (x :: l)) Hn) as [H1 H2]; [rewrite length_drop; cbn; lia|rewrite length_drop; cbn; lia|].
    split; [by rewrite H1|]. constructor; [|done]. rewrite length_take. cbn. lia.
Qed.

(** ** One file *)

Lemma read_rate `{H : Hound} `{R : Rubato} p sr mono : read_wav_mono p = Ok (sr, mono) → (0 < sr ≤ u32_max)%Z.
Proof.
  unfold read_wav_mono. destruct (wav_open p) as [r|]; [|done]. unfold check_header, check_duration.
  destruct (Z.eqb_spec (sample_rate (spec r)) 0), (Z.eqb_spec (channels (spec r)) 0), (Z.ltb_spec (sample_rate (spec r)) MIN_SAMPLE_RATE),
    (Z.ltb_spec MAX_SAMPLE_RATE (sample_rate (spec r))), (Z.ltb_spec MAX_CHANNELS (channels (spec r))); try done.
  destruct (_ <? _)%Z; [done|]. destruct (decode p r); [|done]. injection 1 as <- _. unfold MIN_SAMPLE_RATE, MAX_SAMPLE_RATE, u32_max in *. lia.
Qed.

Section Extract.
Context `{H : Hound} `{R : Rubato} `{L : Libm} `{FFT : RealFft} `{N : TrainLib}.
Context `{!RubatoLaws R} `{!RubatoReset R} `{!RealFftLaws FFT}.
Variable window : list f32.
Variable splits : list (path * nat) → list (list (path * nat)).
Variable late : path → bool.
Hypothesis window_length : List.length window = FRAME_LEN.
Hypothesis window_nonneg : Forall nonneg_finite window.
Hypothesis splits_cover : ∀ chunk, concat (splits chunk) = chunk.

(** A file on its own: its spectrogram, if it can be read and is finite. *)
Definition spectrum_ref (p : path) : option (list (list f32)) :=
  match read_wav_mono p with
  | Err _ => None
  | Ok (sr, mono) =>
      let spec := z_normalize (plane_ref window (waveform_ref sr mono)) in
      if existsb (λ v, negb (is_finite v)) (concat spec) then None else Some spec
  end.

Definition keep_ref '((p, label) : path * nat) : option (list (list f32) * nat) := spec ← spectrum_ref p; Some (spec, label).

(** What a file's outcome comes to. *)
Definition outcome_of (f : path * nat) (o : FileOutcome) : Prop :=
  match o with Kept spec label => keep_ref f = Some (spec, label) | SeenCancelled => False | _ => keep_ref f = None end.

Lemma process_file_ok c f : cache_ok c →
  ∃ c' o, process_file window late false c f = Ok (c', o) ∧ cache_ok c' ∧ outcome_of f o.
Proof.
  intros Hc. destruct f as [p label]. unfold process_file. cbn [andb]. unfold outcome_of, keep_ref, spectrum_ref.
  destruct (read_wav_mono p) as [[sr mono]|e] eqn:Er; [|by exists c, DroppedIo].
  destruct (to_waveform_ok sr mono c (read_rate _ _ _ Er) Hc) as (c' & -> & Hc' & Hl).
  rewrite (spectrogram_reference window window_length window_nonneg _ Hl).
  destruct (existsb _ _) eqn:Ex; [by exists c', DroppedNan|]. by exists c', (Kept (z_normalize (plane_ref window (waveform_ref sr mono))) label).
Qed.

Lemma process_files_ok fs : ∀ c, cache_ok c → ∃ os, process_files window late false c fs = Ok os ∧ Forall2 outcome_of fs os.
Proof.
  induction fs as [|f fs IH]; intros c Hc; cbn [process_files]; [exists []; by split|].
  destruct (process_file_ok c f Hc) as (c' & o & -> & Hc' & Ho). cbn [mbind result_bind].
  destruct (IH c' Hc') as (os & -> & Hos). exists (o :: os). split; [done|by constructor].
Qed.

Lemma kept_of_ok fs os : Forall2 outcome_of fs os → kept_of os = omap keep_ref fs.
Proof.
  unfold kept_of. induction 1 as [|f o fs os Ho _ IH]; [done|]. cbn [omap list_omap]. rewrite IH.
  destruct o; cbn [outcome_of] in Ho; try rewrite Ho; done.
Qed.

(** Any cut of the chunk gives the same. *)
Lemma process_chunk_ok chunk : ∃ os, process_chunk window splits late false chunk = Ok os ∧ kept_of os = omap keep_ref chunk.
Proof.
  assert (Hss : ∀ ss, ∃ oss, mapM (process_files window late false ResamplerCache_empty) ss = Ok oss ∧ Forall2 outcome_of (concat ss) (concat oss)).
  { induction ss as [|s ss (oss & IH1 & IH2)]; cbn [mapM]; [exists []; by split|].
    destruct (process_files_ok s None I) as (os & E & Hos). unfold ResamplerCache_empty. rewrite E. cbn [mbind result_bind].
    fold (ResamplerCache_empty). rewrite IH1. exists (os :: oss). split; [done|]. cbn [concat]. by apply Forall2_app. }
  destruct (Hss (splits chunk)) as (oss & H1 & H2). unfold process_chunk. rewrite H1. exists (concat oss). split; [done|].
  rewrite splits_cover in H2. by apply kept_of_ok.
Qed.

(** ** The extraction *)

(** The backbone answers one feature vector per spectrogram. *)
Variable backbone : TBackbone.
Hypothesis backbone_length : ∀ specs, List.length (backbone_forward backbone specs) = List.length specs * BACKBONE_FEATURE_DIM.

Definition forward_ref (chunk : list (path * nat)) : list (list f32) :=
  match omap keep_ref chunk with
  | [] => []
  | kept => let out := backbone_forward backbone (map fst kept) in pieces (List.length out) BACKBONE_FEATURE_DIM out
  end.

Lemma forward_kept_ok chunk : forward_kept backbone (omap keep_ref chunk) = Ok (forward_ref chunk) ∧
  List.length (forward_ref chunk) = List.length (omap keep_ref chunk) ∧ Forall (λ row, List.length row = BACKBONE_FEATURE_DIM) (forward_ref chunk).
Proof.
  unfold forward_kept, forward_ref. destruct (omap keep_ref chunk) as [|k kept]; [split_and!; [done|done|constructor]|].
  pose proof (backbone_length (map fst (k :: kept))) as Hl. rewrite length_map in Hl. set (out := backbone_forward _ _) in *. cbv zeta.
  rewrite (proj2 (Nat.eqb_eq _ _) Hl). cbn [negb]. split; [done|].
  apply pieces_exact; [unfold BACKBONE_FEATURE_DIM; lia|done|done].
Qed.

(** A chunk between its two checks: when the second passes, no worker saw the
    flag. *)
Lemma gives_chunk {A : Type} chunk (k : list FileOutcome → F A) (Q : A → Prop) :
  (∀ os, kept_of os = omap keep_ref chunk → gives (k os) Q) →
  gives (cancelled ← cancel_ahead; specs ← of_result (process_chunk window splits late cancelled chunk); _ ← check_cancel; k specs) Q.
Proof.
  intros Hk j. unfold mbind, F_bind. cbn [cancel_ahead]. destruct (default false (head (job_polls j))) eqn:Ec.
  - unfold of_result. destruct (process_chunk window splits late true chunk) as [os|s] eqn:Ep.
    + unfold check_cancel. by rewrite Ec.
    + exfalso. unfold process_chunk in Ep. destruct (mapM _ _) as [oss|e] eqn:Em; [done|]. injection Ep as ->.
      revert Em. generalize (splits chunk) as ss. intros ss.
      assert (Hfile : ∀ fs c, cache_ok c → ∃ os, process_files window late true c fs = Ok os).
      { induction fs as [|f fs IH]; intros c Hc; cbn [process_files]; [by eexists|].
        assert (Hf : ∃ c' o, process_file window late true c f = Ok (c', o) ∧ cache_ok c').
        { destruct (late (fst f)) eqn:El; [exists c, SeenCancelled; destruct f as [p label]; unfold process_file; cbn [fst] in El; by rewrite El|].
          destruct (process_file_ok c f Hc) as (c' & o & E & Hc' & _). exists c', o. split; [|done]. rewrite <-E. destruct f as [p label]. unfold process_file. cbn [fst] in El. by rewrite El. }
        destruct Hf as (c' & o & -> & Hc'). cbn [mbind result_bind]. destruct (IH c' Hc') as (os & ->). by eexists. }
      induction ss as [|fs ss IH]; cbn [mapM]; [done|]. destruct (Hfile fs None I) as (os & E). unfold ResamplerCache_empty. rewrite E.
      cbn [mbind result_bind]. fold ResamplerCache_empty. destruct (mapM _ ss) as [oss|e]; [done|]. intros [= ->]. by apply IH.
  - destruct (process_chunk_ok chunk) as (os & -> & Hos). unfold of_result. unfold check_cancel. rewrite Ec. apply (Hk os Hos (mkJob (job_world j) (tail (job_polls j)) (job_events j))).
Qed.

Lemma gives_extract_loop total cs : ∀ processed feats labels,
  gives (extract_loop window splits late backbone total cs processed feats labels)
    (λ r, fst r = feats ++ concat (map forward_ref cs) ∧ snd r = labels ++ map snd (omap keep_ref (concat cs))).
Proof.
  induction cs as [|chunk cs IH]; intros processed feats labels; cbn [extract_loop].
  { apply gives_ret. cbn. by rewrite !app_nil_r. }
  eapply gives_bind; [apply gives_check|]. intros _ _. apply gives_chunk. intros os Hos. rewrite Hos.
  destruct (forward_kept_ok chunk) as (-> & _). eapply gives_bind; [by apply (gives_of_result _ (λ r, r = forward_ref chunk))|].
  intros rows ->. eapply (gives_bind _ _ (λ _, True)); [destruct (_ && _); [apply gives_report|by apply gives_ret]|].
  intros _ _. eapply gives_weaken; [apply IH|]. intros r [-> ->]. cbn [map concat]. rewrite omap_app, map_app. by rewrite !app_assoc.
Qed.

Lemma forward_ref_length cs : List.length (concat (map forward_ref cs)) = List.length (omap keep_ref (concat cs)).
Proof.
  induction cs as [|c cs IH]; [done|]. cbn [map concat]. rewrite length_app, omap_app, length_app, IH.
  by destruct (forward_kept_ok c) as (_ & -> & _).
Qed.

(** What an extraction that returns has done. *)
Definition extracted (examples : list (path * nat)) (r : list (list f32) * list nat) : Prop :=
  snd r = map snd (omap keep_ref examples) ∧ List.length (fst r) = List.length (snd r) ∧
  (∃ cs, concat cs = examples ∧ Forall (λ c, c ≠ [] ∧ List.length c ≤ BACKBONE_BATCH) cs ∧ fst r = concat (map forward_ref cs)) ∧
  (Z.of_nat (List.length examples) ≤ 33554)%Z.

Lemma gives_extract_features examples : gives (extract_features window splits late backbone examples) (extracted examples).
Proof.
  unfold extract_features. destruct (chunks_ok BACKBONE_BATCH examples) as (cs & -> & Hcs & Hb); [unfold BACKBONE_BATCH; lia|].
  eapply (gives_bind _ _ (λ _, (Z.of_nat (List.length examples) ≤ 33554)%Z)).
  { apply gives_of_result. unfold check_feature_buffer_cap. change MAX_EXAMPLES_FEATURE_BUFFER with 33554%Z.
    destruct (Z.ltb_spec 33554 (Z.of_nat (List.length examples))); cbn; [done|lia]. }
  intros _ Hcap. eapply gives_bind; [by apply (gives_of_result _ (λ r, r = cs))|]. intros ? ->.
  eapply gives_bind; [apply gives_extract_loop|]. intros [feats labels] [Hf Hl]. cbn [fst snd app] in *. subst.
  eapply gives_bind; [apply gives_report|]. intros _ _. apply gives_ret. split_and!; [done| |by exists cs|done].
  cbn [fst snd]. by rewrite length_map, forward_ref_length.
Qed.

(** C22: Extraction neither panics nor drops an example silently.  If it returns,
    the labels are those of exactly the examples whose file reads and has a
    finite spectrogram, in the scanned order, and there is one feature vector for
    each: the chunk's batch through the backbone.  How rayon divides a chunk, the
    resamplers workers carry from file to file and the moment the flag is raised
    make no difference: a file skipped for a raised flag makes the run end as
    cancelled.  At most 33 554 examples are accepted. *)
Theorem extract_features_exact (examples : list (path * nat)) (j : Job) :
  match extract_features window splits late backbone examples j with
  | (_, Ret r) => extracted examples r
  | (_, Throw (Panicked _)) => False
  | _ => True
  end.
Proof.
  pose proof (gives_extract_features examples j) as H1. by destruct (extract_features _ _ _ _ _ j) as [j' [r|[m|e]|]]; destruct H1.
Qed.
End Extract.

(** * What a training run returns

    An epoch is a function of the head it starts from; the loop returns the head
    of the first epoch with the best validation accuracy, or the last one when
    there is nothing to validate on. *)

(** ** Shares *)

Lemma share_finite (d t : nat) : d ≤ t → 0 < t → (Z.of_nat t < 2 ^ 24)%Z → is_finite (f32_div (nat_as_f32 d) (nat_as_f32 t)) = true.
Proof.
  intros Hd Ht Hb. unfold nat_as_f32. destruct d as [|d0].
  { pose proof (of_int_exact (Z.of_nat t) ltac:(lia)) as Hy. by destruct (f32_of_int (Z.of_nat t)) as [?| | |[] m e]. }
  set (d := S d0) in *. destruct (div_scaled (Z.of_nat d) (Z.of_nat t) 0 0 1) as [Hs _]; [lia|lia| |lia|lia|lia|lia|].
  - unfold div_exp. assert (Zdigits2 (Z.of_nat d) ≤ Zdigits2 (Z.of_nat t))%Z; [|lia].
    destruct (Zdigits2_bounds (Z.of_nat t) ltac:(lia)) as (H0 & H1 & _).
    destruct (Zdigits2_bounds (Z.of_nat d) ltac:(lia)) as (_ & _ & H2). apply H2; lia.
  - by destruct (f32_div _ _) as [?| | |[] m e].
Qed.

(** ** Rows and batches *)

Lemma mapM_index {A : Type} (l : list A) ixs : Forall (λ i, i < List.length l) ixs →
  ∃ xs, mapM (index l) ixs = Ok xs ∧ List.length xs = List.length ixs.
Proof.
  induction 1 as [|i ixs Hi _ (xs & IH & Hl)]; cbn [mapM]; [by exists []|]. apply lookup_lt_is_Some in Hi as [x Hx].
  rewrite (index_some _ _ _ Hx). cbn [mbind result_bind]. rewrite IH. exists (x :: xs). cbn. by rewrite Hl.
Qed.

Lemma count_correct_ok n labels pred chunk : ∀ row, Forall (λ i, i < List.length labels) chunk →
  (row + List.length chunk) * n ≤ List.length pred → ∃ k, count_correct n labels pred row chunk = Ok k ∧ k ≤ List.length chunk.
Proof.
  induction chunk as [|i chunk IH]; intros row Hc Hl; cbn [count_correct]; [exists 0; by split|].
  apply list.Forall_cons_1 in Hc as [Hi Hc]. apply lookup_lt_is_Some in Hi as [x Hx]. unfold slice_at. cbn [List.length] in Hl.
  rewrite (proj2 (Nat.ltb_ge (row * n + n) (row * n))) by lia. rewrite (proj2 (Nat.ltb_ge (List.length pred) _)) by nia. cbn [orb mbind result_bind].
  rewrite (index_some _ _ _ Hx). cbn [mbind result_bind]. destruct (IH (S row) Hc) as (k & -> & Hk); [nia|].
  eexists. split; [done|]. cbn [List.length]. destruct (_ =? x); lia.
Qed.

Lemma list_sum_le l ls : Forall2 (λ k (c : list nat), k ≤ List.length c) l ls → list_sum l ≤ List.length (concat ls).
Proof. induction 1 as [|k c l ls Hk _ IH]; [done|]. cbn [list_sum foldr concat] in *. rewrite length_app. unfold list_sum in IH. lia. Qed.

(** Indices in range, and fewer than binary32 counts exactly. *)
Record data_ok (d : TrainData) : Prop := {
  ok_lengths : List.length (td_feats d) = List.length (td_labels d);
  ok_train : Forall (λ i, i < List.length (td_labels d)) (td_train_idx d);
  ok_val : Forall (λ i, i < List.length (td_labels d)) (td_val_idx d);
  ok_val_count : (Z.of_nat (List.length (td_val_idx d)) < 2 ^ 24)%Z;
}.

Section Runs.
Context `{N : TrainLib} `{!TrainLaws N}.

Lemma evaluate_chunk_ok h feats labels chunk : List.length feats = List.length labels → Forall (λ i, i < List.length labels) chunk →
  ∃ k, evaluate_chunk h (head_classes h) feats labels chunk = Ok k ∧ k ≤ List.length chunk.
Proof.
  intros Hl Hc. unfold evaluate_chunk. destruct (mapM_index feats chunk) as (xs & -> & Hx); [by rewrite Hl|]. cbn [mbind result_bind].
  apply count_correct_ok; [done|]. rewrite forward_length, Hx. lia.
Qed.

Lemma evaluate_ok h n feats labels idx : head_classes h = n → List.length feats = List.length labels →
  Forall (λ i, i < List.length labels) idx → (Z.of_nat (List.length idx) < 2 ^ 24)%Z →
  ∃ v, evaluate h n feats labels idx = Ok v ∧ (idx = [] → v = S754_nan) ∧ (idx ≠ [] → is_finite v = true).
Proof.
  intros <- Hl Hi Hb. unfold evaluate. destruct idx as [|i idx]; [by eexists|]. set (ids := i :: idx) in *.
  destruct (chunks_ok EVAL_BATCH ids) as (cs & -> & Hcs & _); [unfold EVAL_BATCH; lia|]. cbn [mbind result_bind].
  assert (Hm : ∃ ks, mapM (evaluate_chunk h (head_classes h) feats labels) cs = Ok ks ∧ Forall2 (λ k (c : list nat), k ≤ List.length c) ks cs).
  { rewrite <-Hcs in Hi. clear -Hi Hl TrainLaws0. induction cs as [|c cs IH]; cbn [mapM]; [exists []; by split|]. cbn [concat] in Hi.
    apply Forall_app in Hi as [Hc Hi]. destruct (evaluate_chunk_ok h feats labels c Hl Hc) as (k & -> & Hk). cbn [mbind result_bind].
    destruct (IH Hi) as (ks & -> & Hks). exists (k :: ks). split; [done|by constructor]. }
  destruct Hm as (ks & -> & Hks). cbn [mbind result_bind]. eexists. split; [done|]. split; [done|]. intros _.
  apply share_finite; [|unfold ids; cbn; lia|done]. rewrite <-Hcs. by apply list_sum_le.
Qed.

(** ** An epoch as a function *)

Section Data.
Variables (data : TrainData) (s : TrainSettings).
Hypothesis Hdata : data_ok data.
Hypothesis Hbatch : 0 < ts_batch s.

Fixpoint epoch_batches (cs : list (list nat)) (e : Epoch) : T Epoch :=
  match cs with
  | [] => Ok e
  | c :: cs => e ← train_chunk data (ts_lr s) e c; epoch_batches cs e
  end.

(** The epoch numbered [epoch] from the head [h]: its head and accuracy. *)
Definition epoch_ref (epoch : nat) (h : THead) : T (THead * f32) :=
  order ← shuffle_in_place (td_train_idx data) (wrap_add64 (ts_seed s) (Z.of_nat epoch));
  cs ← chunks (ts_batch s) order;
  e ← epoch_batches cs (mkEpoch h (S754_zero false) 0 0);
  v ← evaluate (ep_head e) (td_n_classes data) (td_feats data) (td_labels data) (td_val_idx data);
  Ok (ep_head e, v).

(** The heads after each of [epochs], with their accuracies. *)
Fixpoint trajectory (epochs : list nat) (h : THead) : T (list (THead * f32)) :=
  match epochs with
  | [] => Ok []
  | e :: epochs => '(h, v) ← epoch_ref e h; rest ← trajectory epochs h; Ok ((h, v) :: rest)
  end.

Definition shaped (h : THead) : Prop := head_classes h = td_n_classes data.

Lemma train_chunk_ok e c : shaped (ep_head e) → Forall (λ i, i < List.length (td_labels data)) c →
  ∃ e', train_chunk data (ts_lr s) e c = Ok e' ∧ shaped (ep_head e').
Proof.
  intros Hs Hc. unfold train_chunk. destruct (mapM_index (td_feats data) c) as (xs & -> & Hx); [by rewrite (ok_lengths _ Hdata)|].
  cbn [mbind result_bind]. destruct (mapM_index (td_labels data) c Hc) as (ys & -> & _). cbn [mbind result_bind].
  destruct (count_correct_ok (td_n_classes data) (td_labels data) (head_forward (ep_head e) xs) c 0 Hc) as (k & -> & _).
  { rewrite forward_length, Hx, Hs. lia. }
  eexists. split; [done|]. cbn [ep_head]. unfold shaped. by rewrite step_classes.
Qed.

Lemma epoch_batches_ok cs : ∀ e, shaped (ep_head e) → Forall (λ i, i < List.length (td_labels data)) (concat cs) →
  ∃ e', epoch_batches cs e = Ok e' ∧ shaped (ep_head e') ∧ gives (train_chunks data (ts_lr s) cs e) (λ r, r = e').
Proof.
  induction cs as [|c cs IH]; intros e Hs Hc; cbn [epoch_batches train_chunks]; [exists e; split_and!; [done|done|by apply gives_ret]|].
  cbn [concat] in Hc. apply Forall_app in Hc as [Hc Hcs]. destruct (train_chunk_ok e c Hs Hc) as (e1 & -> & Hs1). cbn [mbind result_bind].
  destruct (IH e1 Hs1 Hcs) as (e2 & H1 & H2 & H3). exists e2. split_and!; [done|done|].
  eapply gives_bind; [apply gives_check|]. intros _ _. eapply gives_bind; [by apply (gives_of_result _ (λ r, r = e1))|]. by intros ? ->.
Qed.

(** Every epoch runs over all the training examples, once each, in batches of
    at most the configured size. *)
Lemma epoch_order epoch : ∃ order cs,
  shuffle_in_place (td_train_idx data) (wrap_add64 (ts_seed s) (Z.of_nat epoch)) = Ok order ∧ chunks (ts_batch s) order = Ok cs ∧
  concat cs ≡ₚ td_train_idx data ∧ Forall (λ c, c ≠ [] ∧ List.length c ≤ ts_batch s) cs ∧
  Forall (λ i, i < List.length (td_labels data)) (concat cs).
Proof.
  destruct (shuffle_perm (td_train_idx data) (wrap_add64 (ts_seed s) (Z.of_nat epoch))) as (order & H1 & Hp).
  destruct (chunks_ok (ts_batch s) order Hbatch) as (cs & H2 & H3 & H4). exists order, cs. rewrite H3.
  split_and!; [done|done|done|done|]. rewrite Hp. apply (ok_train _ Hdata).
Qed.

(** ** The best head *)

(** The first of the best: every accuracy is at most that one, the earlier ones
    less. *)
Definition first_best (tr : list (THead * f32)) (k : nat) (h : THead) (best : f32) : Prop :=
  tr !! k = Some (h, best) ∧
  ∀ i h' v, tr !! i = Some (h', v) → SFleb v best = true ∧ (i < k → SFltb v best = true).

Definition best_so_far (tr : list (THead * f32)) (best_val : f32) (best : option (list ascii)) : Prop :=
  match best with
  | None => best_val = S754_nan ∧ (tr = [] ∨ td_val_idx data = [])
  | Some bytes => is_finite best_val = true ∧ td_val_idx data ≠ [] ∧ ∃ k h, first_best tr k h best_val ∧ record_head h = Ok bytes
  end.

Lemma finite_not_nan x : is_finite x = true → not_nan x = true.
Proof. by destruct x. Qed.

Lemma first_best_keep tr k h best h' v : first_best tr k h best → SFleb v best = true → first_best (tr ++ [(h', v)]) k h best.
Proof.
  intros [Hk Hb] Hv. pose proof (lookup_lt_Some _ _ _ Hk) as Hlt. split; [by rewrite lookup_app_l|].
  intros i h2 v2 [[_ Hi]|[-> [= -> ->]]]%lookup_snoc_Some; [by apply (Hb i h2)|]. split; [done|]. intros Hlt2. exfalso. by apply (Nat.lt_asymm _ _ Hlt).
Qed.

Lemma first_best_take tr k h best h' v : first_best tr k h best → is_finite best = true → is_finite v = true → float_gt v best = true →
  first_best (tr ++ [(h', v)]) (List.length tr) h' v.
Proof.
  intros [Hk Hb] Hf Hv Hgt. split; [by rewrite lookup_app_r, Nat.sub_diag|].
  intros i h2 v2 [[_ Hi]|[-> [= -> ->]]]%lookup_snoc_Some.
  - destruct (Hb i h2 v2 Hi) as [Hle _]. unfold float_gt in Hgt.
    assert (Hn2 : not_nan v2 = true) by (destruct v2; [done..| |done]; by destruct best).
    assert (Hlt : SFltb v2 v = true).
    { rewrite SFltb_leb in * by (done || by apply finite_not_nan). apply negb_true_iff in Hgt. apply negb_true_iff.
      destruct (SFleb v v2) eqn:E; [|done]. rewrite <-Hgt. symmetry. by apply (SFleb_trans v v2 best). }
    split; [|done]. destruct (SFleb_total v2 v) as [|E]; [done|by apply finite_not_nan|done|].
    rewrite SFltb_leb in Hlt by (done || by apply finite_not_nan). by rewrite E in Hlt.
  - split; [by apply SFleb_refl, finite_not_nan|]. intros Hlt2. by apply Nat.lt_irrefl in Hlt2.
Qed.

(** What the loop does with an epoch's accuracy keeps the invariant. *)
Lemma gives_snapshot tr best_val best h v : best_so_far tr best_val best →
  (td_val_idx data = [] → v = S754_nan) → (td_val_idx data ≠ [] → is_finite v = true) →
  gives (if is_finite v && (negb (not_nan best_val) || float_gt v best_val)
         then _ ← on_disk (map_throw (λ _, Fails (FT_Model "save")) outside);
              bytes ← of_result (map_err (λ m, Fails (FT_Model m)) (record_head h)); mret (v, Some bytes)
         else mret (best_val, best)) (λ r, best_so_far (tr ++ [(h, v)]) (fst r) (snd r)).
Proof.
  intros Hb Hnone Hsome. destruct (decide (td_val_idx data = [])) as [E|E].
  { rewrite (Hnone E). apply gives_ret. destruct best as [bytes|]; cbn in *; [by destruct Hb as (_ & ? & _)|]. by destruct Hb as [-> _]; auto. }
  specialize (Hsome E). rewrite Hsome. cbn [andb]. destruct (negb (not_nan best_val) || float_gt v best_val) eqn:Ht.
  - eapply (gives_bind _ _ (λ _, True)).
    { by apply gives_outside. }
    intros _ _. eapply (gives_bind _ _ (λ b, record_head h = Ok b)).
    { apply gives_of_result. by destruct (record_head h) as [b|m]. }
    intros b Hr. apply gives_ret. cbn [fst snd best_so_far]. split; [done|]. split; [done|].
    exists (List.length tr), h. split; [|done]. destruct best as [bytes|]; cbn [best_so_far] in Hb.
    + destruct Hb as (Hf & _ & k & h0 & Hfb & _). rewrite (finite_not_nan _ Hf) in Ht. by eapply first_best_take.
    + destruct Hb as [_ [-> | ?]]; [|done]. split; [done|]. intros [|i] h2 v2 Hi; [|done]. injection Hi as <- <-.
      split; [by apply SFleb_refl, finite_not_nan|]. cbn. intros; lia.
  - apply gives_ret. cbn [fst snd]. apply orb_false_iff in Ht as [Hn Hgt]. destruct best as [bytes|]; cbn [best_so_far] in *.
    + destruct Hb as (Hf & _ & k & h0 & Hfb & Hr). split; [done|]. split; [done|]. exists k, h0. split; [|done].
      apply first_best_keep; [done|]. unfold float_gt in Hgt. rewrite SFltb_leb in Hgt by (by apply finite_not_nan). by apply negb_false_iff in Hgt.
    + destruct Hb as [-> _]. done.
Qed.

Lemma gives_train_epochs epochs : ∀ h best_val best tr, shaped h → best_so_far tr best_val best →
  gives (train_epochs data s epochs h best_val best) (λ r, ∃ tr' best_val', trajectory epochs h = Ok tr' ∧
    List.length tr' = List.length epochs ∧ best_so_far (tr ++ tr') best_val' (snd r) ∧
    fst r = default h (fst <$> list.last tr') ∧ shaped (fst r) ∧ Forall (λ x, shaped (fst x)) tr').
Proof.
  induction epochs as [|epoch epochs IH]; intros h best_val best tr Hs Hb; cbn [train_epochs].
  { apply gives_ret. exists [], best_val. cbn. rewrite app_nil_r. by split_and!. }
  eapply gives_bind; [apply gives_check|]. intros _ _.
  destruct (epoch_order epoch) as (order & cs & Ho & Hcs & _ & _ & Hin). rewrite Ho.
  eapply gives_bind; [by apply (gives_of_result _ (λ r, r = order))|]. intros ? ->. rewrite Hcs.
  eapply gives_bind; [by apply (gives_of_result _ (λ r, r = cs))|]. intros ? ->.
  destruct (epoch_batches_ok cs (mkEpoch h (S754_zero false) 0 0) Hs Hin) as (e & He & Hse & Hge).
  eapply gives_bind; [exact Hge|]. intros ? ->. cbv zeta.
  destruct (evaluate_ok (ep_head e) (td_n_classes data) (td_feats data) (td_labels data) (td_val_idx data)) as (v & Hv & Hnone & Hsome);
    [done|apply (ok_lengths _ Hdata)|apply (ok_val _ Hdata)|apply (ok_val_count _ Hdata)|]. rewrite Hv.
  eapply gives_bind; [by apply (gives_of_result _ (λ r, r = v))|]. intros ? ->.
  eapply gives_bind; [by apply (gives_snapshot tr best_val best (ep_head e) v)|]. intros [bv b] Hb'. cbn [fst snd] in Hb'.
  eapply gives_bind; [apply gives_report|]. intros _ _.
  eapply gives_weaken; [by apply (IH (ep_head e) bv b (tr ++ [(ep_head e, v)]))|].
  intros r (tr' & bv' & Ht & Hl & Hb2 & Hr & Hsr & Hsh). exists ((ep_head e, v) :: tr'), bv'.
  rewrite <-app_assoc in Hb2. split_and!; [|cbn; by rewrite Hl|done| |done|by constructor].
  - cbn [trajectory]. unfold epoch_ref. rewrite Ho. cbn [mbind result_bind]. rewrite Hcs. cbn [mbind result_bind].
    rewrite He. cbn [mbind result_bind]. rewrite Hv. cbn [mbind result_bind]. by rewrite Ht.
  - rewrite Hr, list.last_cons. by destruct (list.last tr').
Qed.

(** The result of training: of the heads after each epoch, the first of the best,
    or without a validation set the last (the initial one when there is no
    epoch). *)
Definition trained (h0 h : THead) : Prop :=
  ∃ tr, trajectory (seq 0 (ts_epochs s)) h0 = Ok tr ∧ List.length tr = ts_epochs s ∧
    (if decide (td_val_idx data = []) then h = default h0 (fst <$> list.last tr)
     else match ts_epochs s with 0 => h = h0 | _ => ∃ k best, first_best tr k h best end).

Lemma gives_train_head h0 : shaped h0 → gives (train_head h0 data s) (λ h, trained h0 h ∧ shaped h).
Proof.
  intros Hs. unfold train_head. eapply (gives_bind _ _ (λ _, True)).
  { by apply gives_outside. }
  intros _ _. eapply gives_bind; [apply (gives_train_epochs _ h0 S754_nan None []); [done|by split; [|left]]|].
  intros [h best] (tr & bv & Ht & Hl & Hb & Hh & Hsh & Hall). cbn [fst snd app] in *. rewrite length_seq in Hl.
  destruct best as [bytes|]; cbn [best_so_far] in Hb.
  - destruct Hb as (_ & Hne & k & hk & Hfb & Hr). eapply (gives_bind _ _ (λ _, True)).
    { by apply gives_outside. }
    intros _ _. apply gives_of_result. rewrite (record_load _ _ Hr). cbn. split.
    + exists tr. split_and!; [done|done|]. rewrite decide_False by done. destruct (ts_epochs s) as [|e]; [|by exists k, bv].
      apply nil_length_inv in Hl as ->. by destruct Hfb as [? _].
    + destruct Hfb as [Hk _]. rewrite list.Forall_forall in Hall. apply (Hall (hk, bv)). by eapply list_elem_of_lookup_2.
  - apply gives_ret. split; [|done]. exists tr. split_and!; [done|done|]. destruct Hb as [_ [-> | E]].
    + cbn in Hl. rewrite <-Hl, Hh. by case_decide.
    + by rewrite decide_True.
Qed.
End Data.

End Runs.
