(* ===== verification/FinetunePublish.v ===== *)
(** * What a fine-tune leaves on disk

    Up to the publication a run only reads; the labels are durable before the
    head can appear under its name.  The whole run never panics. *)

From Stdlib Require Import SpecFloat.
From S2P Require Import Prelude Ids HeadHeader Common FileSystem FsLogic FsAtomic Workspace HotHead F32 F32Facts Resample Preproc WavIo WavIoFacts Config ApiErrors Finetune FinetuneScan FinetuneTrain FinetuneRuns.

Local Open Scope nat_scope.

(** ** The sibling of the head *)

Lemma find_last (f : nat → bool) n k : List.find f (rev (seq 1 n)) = Some k →
  1 ≤ k ≤ n ∧ f k = true ∧ ∀ k', k < k' ≤ n → f k' = false.
Proof.
  induction n as [|n IH]; [done|]. rewrite seq_S, rev_app_distr. cbn [rev app List.find Nat.add].
  destruct (f (S n)) eqn:E; [injection 1 as <-; split_and!; [lia|lia|done|intros; lia]|].
  intros H. destruct (IH H) as (H1 & H2 & H3). split_and!; [lia|lia|done|].
  intros k' Hk. destruct (decide (k' = S n)) as [->|]; [done|]. apply H3. lia.
Qed.

(** It is never the head's own name. *)
Lemma labels_name_ne (name : string) : (file_stem name ++ ".labels.txt")%string ≠ name.
Proof.
  intros E. apply (f_equal bytes_of) in E. rewrite bytes_of_app in E. unfold file_stem in E.
  destruct (List.find _ _) as [k|] eqn:Ef.
  - apply find_last in Ef as (Hk & _ & Hlast). rewrite bytes_of_string_of in E.
    assert (Hl : String.length name = k + 11).
    { rewrite <-length_bytes_of, <-E, length_app, length_take, length_bytes_of. cbn [bytes_of list_ascii_of_string List.length]. lia. }
    specialize (Hlast (k + 7) ltac:(lia)). apply bool_decide_eq_false in Hlast. apply Hlast. rewrite <-E.
    rewrite lookup_app_r by (rewrite length_take, length_bytes_of; lia).
    rewrite length_take, length_bytes_of. by replace (k + 7 - k `min` String.length name) with 7 by lia.
  - apply (f_equal List.length) in E. rewrite length_app in E. cbn in E. lia.
Qed.

Lemma labels_path_snoc dir name : labels_path_of (dir ++ [name]) = dir ++ [(file_stem name ++ ".labels.txt")%string].
Proof. unfold labels_path_of. rewrite rev_app_distr. cbn [rev app]. by rewrite parent_app. Qed.

Section Publish.
Context `{N : TrainLib} `{TL : TempLaws}.

(** Nothing published yet, or the labels durable and the head old or new. *)
Definition before_publish (out : path) (old : option node) (d : Disk) : Prop := no_moves d ∧ among d out [old].
Definition publishing (out : path) (old : option node) (labels : list ascii) (new : list (option node)) (d : Disk) : Prop :=
  before_publish out old d ∨ definite d (labels_path_of out) (Some (File labels true)) ∧ among d out (new ++ [old]).

Lemma save_triple dir name old labels head (out := dir ++ [name]) :
  not_temp out → not_temp (labels_path_of out) →
  let news := match head_blob head with Ok blob => [Some (File blob true)] | Err _ => [] end in
  triple (λ d, no_moves d ∧ among d out [old] ∧ definite d (labels_path_of out) (Some (File labels true)))
    (save_mpk_atomic head out)
    (λ _ d, definite d (labels_path_of out) (Some (File labels true)) ∧ ∃ blob, head_blob head = Ok blob ∧ definite d out (Some (File blob true)))
    (publishing out old labels news) (publishing out old labels news).
Proof.
  intros Ht Htl news. unfold save_mpk_atomic. eapply triple_bind with (R := λ blob d, head_blob head = Ok blob ∧
    no_moves d ∧ among d out [old] ∧ definite d (labels_path_of out) (Some (File labels true))).
  { unfold lift. unfold news. destruct (head_blob head) as [blob|e]; [by apply triple_ret|]. apply triple_throw. intros d (H1 & H2 & H3). by left. }
  intros blob. apply triple_pure. intros Hb. apply triple_map_throw.
  assert (Hne : out ≠ []) by (by destruct dir). pose proof (labels_path_snoc dir name) as Hlp.
  assert (Hdiff : ¬ put_scope out (labels_path_of out)).
  { intros [E|(n2 & E & Hn2)].
    - unfold out in E. rewrite Hlp in E. apply app_inj_tail in E as [_ E]. by apply labels_name_ne in E.
    - rewrite (Htl (parent out) n2 E) in Hn2. done. }
  eapply triple_conseq; [apply (put_atomic_triple (facts [(labels_path_of out, [Some (File labels true)])]) (Some [old]) out blob Hne Ht)|..].
  - apply facts_stable. by constructor.
  - intros d (H1 & H2 & H3). cbn. by rewrite !facts_one.
  - intros _ d (H1 & H2 & H3). apply facts_one in H1. split; [done|by exists blob].
  - intros d (H1 & H2 & H3). cbn in H3. apply facts_one in H1, H3. right. unfold news. by rewrite Hb.
  - intros d (H1 & H2 & H3). cbn in H3. apply facts_one in H1, H3. right. unfold news. by rewrite Hb.
Qed.

Lemma publish_pair_triple dir name old classes head (out := dir ++ [name]) :
  not_temp out → not_temp (labels_path_of out) →
  let labels := labels_blob_of classes in
  let news := match head_blob head with Ok blob => [Some (File blob true)] | Err _ => [] end in
  triple (before_publish out old) (publish_files out classes head)
    (λ _ d, definite d (labels_path_of out) (Some (File labels true)) ∧ ∃ blob, head_blob head = Ok blob ∧ definite d out (Some (File blob true)))
    (publishing out old labels news) (publishing out old labels news).
Proof.
  intros Ht Htl labels news. assert (Hne : out ≠ []) by (by destruct dir). pose proof (labels_path_snoc dir name) as Hlp.
  unfold publish_files. rewrite decide_False by done. eapply triple_bind with (R := λ _, before_publish out old).
  { apply triple_map_throw. unfold create_dir_all. eapply triple_conseq with (P' := before_publish out old);
      [apply (mkdir_triple (before_publish out old) (λ q, q ≠ out))|done|intros ? d Hd; exact Hd|intros d Hd; by left|intros d Hd; by left].
    - apply stable_and; [apply no_moves_stable|].
      split; [intros d o Hd Hm Ho|intros d q Hd; by apply among_fsync|intros d q c Hd Hq; by apply among_sync].
      apply among_add_other; [done|]. apply not_true_iff_false. intros Hto. by apply (Ho out).
    - intros d q _ _ Hq. left. intros ->. cbn [app] in Hq. unfold out in Hq. rewrite parent_app in Hq.
      apply prefix_length in Hq. rewrite length_app in Hq. cbn in Hq. lia. }
  intros _. cbv zeta.
  apply triple_bind with (R := λ _ d, no_moves d ∧ among d out [old] ∧ definite d (labels_path_of out) (Some (File labels true)));
    [|intros []; by apply save_triple]. apply triple_map_throw.
  assert (Hnel : labels_path_of out ≠ []) by (unfold out; rewrite Hlp; by destruct dir).
  eapply triple_conseq; [apply (put_atomic_triple (facts [(out, [old])]) None (labels_path_of out) labels Hnel Htl)|..].
  - apply facts_stable. constructor; [|done]. cbn [fst]. intros [E|(n2 & E & Hn2)].
    + unfold out in E. rewrite Hlp in E. apply app_inj_tail in E as [_ E]. symmetry in E. by apply labels_name_ne in E.
    + rewrite (Ht _ n2 E) in Hn2. done.
  - intros d [H1 H2]. split_and!; [by apply facts_one|done|constructor].
  - intros _ d (H1 & H2 & H3). split_and!; [done|by apply facts_one in H1|done].
  - intros d (H1 & H2 & H3). apply facts_one in H1. by left.
  - intros d (H1 & H2 & H3). apply facts_one in H1. by left.
Qed.
End Publish.

(** ** The bytes of a head *)

Lemma byte_char z : is_byte z → byte_val (ascii_of_N (Z.to_N z)) = z.
Proof. intros Hz. unfold is_byte, byte_val in *. rewrite N_ascii_embedding by lia. lia. Qed.

Lemma map_byte_chars l : Forall is_byte l → map byte_val (chars_of l) = l.
Proof. induction 1 as [|z l Hz _ IH]; [done|]. cbn [chars_of map]. unfold chars_of in IH. by rewrite byte_char, IH. Qed.

(** A payload behind a header with its length and some class count passes the
    loader's checks, which read that count. *)
Lemma framed_payload_passes (p : path) (n : Z) (payload : list ascii) :
  is_u32 n → is_u32 (Z.of_nat (List.length payload)) →
  ∃ h, check_head_bytes p (chars_of (serialize_header (Z.of_nat BACKBONE_FEATURE_DIM) n (Z.of_nat (List.length payload))) ++ payload) = Ok h ∧
    num_classes h = n.
Proof.
  intros Hn Hl. set (plen := Z.of_nat (List.length payload)) in *. set (header := serialize_header (Z.of_nat BACKBONE_FEATURE_DIM) n plen).
  assert (Hf : is_u32 (Z.of_nat BACKBONE_FEATURE_DIM)) by (unfold is_u32, u32_max; split; [lia|]; by vm_compute).
  assert (Hh : Forall is_byte header).
  { unfold header. rewrite serialize_header_layout. cbv zeta. rewrite Forall_app. split; [apply serialize_body_bytes|apply u32_to_le_bytes_bytes]. }
  assert (Hlen : List.length (chars_of header) = HEAD_HEADER_SIZE) by (unfold chars_of; rewrite length_map; apply serialize_header_length).
  assert (Hparse : parse_header header = Ok (mkHeadHeader HEAD_HEADER_VERSION (Z.of_nat BACKBONE_FEATURE_DIM) n plen)) by by apply parse_serialize_header.
  clearbody header. unfold check_head_bytes.
  rewrite (proj2 (Nat.ltb_ge _ _)) by (rewrite length_app, Hlen; lia). rewrite take_app_le, take_ge by lia. rewrite map_byte_chars by done.
  rewrite Hparse. cbn [feature_dim payload_len]. rewrite Z.eqb_refl. cbn [negb]. rewrite length_app, Hlen.
  replace (Z.of_nat (HEAD_HEADER_SIZE + List.length payload - HEAD_HEADER_SIZE)) with plen by (unfold plen; lia).
  rewrite Z.eqb_refl. eexists. split; [reflexivity|done].
Qed.

(** The blob of a head passes the loader's checks, which read its class count. *)
Lemma head_blob_header `{N : TrainLib} (head : THead) (blob : list ascii) (p : path) :
  (Z.of_nat (head_classes head) ≤ u32_max)%Z → head_blob head = Ok blob →
  ∃ h, check_head_bytes p blob = Ok h ∧ num_classes h = Z.of_nat (head_classes head).
Proof.
  intros Hn. unfold head_blob. destruct (record_head head) as [payload|m]; [|done]. cbn [map_err mbind result_bind].
  unfold write_with_payload, payload_len_or_err. destruct (Z.leb_spec (Z.of_nat (List.length (map byte_val payload))) u32_max) as [Hl|]; [|done].
  rewrite Z.mod_small by (unfold u32_max in *; lia). cbn [map_err app].
  pose proof (framed_payload_passes p (Z.of_nat (head_classes head)) (chars_of (map byte_val payload))) as H. unfold chars_of in H.
  rewrite <-map_app, !length_map in H. rewrite length_map in *. set (header := serialize_header _ _ _) in *. clearbody header. intros E.
  apply (f_equal (λ r, match r with Ok b => b | Err _ => [] end)) in E. cbv beta iota in E. rewrite <-E. unfold chars_of. apply H; unfold is_u32; lia.
Qed.

(** ** The run up to the publication *)

(** From the disk [d], which [c] leaves alone. *)
Definition gives_on {A : Type} (d : Disk) (c : F A) (Q : A → Prop) : Prop :=
  ∀ j, disk (job_world j) = d → let '(j', r) := c j in
    disk (job_world j') = d ∧ match r with Ret a => Q a | Throw e => panics e = false | Crash => True end.

Lemma gives_gives_on {A : Type} d (c : F A) Q : gives c Q → gives_on d c Q.
Proof. intros H j Hd. specialize (H j). destruct (c j) as [j' r]. by rewrite Hd in H. Qed.

Lemma gives_on_bind {A B : Type} d (c : F A) (f : A → F B) (P : A → Prop) (Q : B → Prop) :
  gives_on d c P → (∀ a, P a → gives_on d (f a) Q) → gives_on d (c ≫= f) Q.
Proof.
  intros Hc Hf j Hj. specialize (Hc j Hj). unfold mbind, F_bind. destruct (c j) as [j1 [a|e|]]; destruct Hc as [Hd Hc]; [|done..].
  by apply (Hf a Hc j1).
Qed.

Lemma gives_on_result {A B : Type} d (r : T A) (f : A → F B) (P : A → Prop) (Q : B → Prop) :
  settles r P → (∀ a, P a → gives_on d (f a) Q) → gives_on d (of_result r ≫= f) Q.
Proof. intros Hr. apply gives_on_bind, gives_gives_on, gives_of_result, Hr. Qed.

Lemma gives_on_report {B : Type} d p (f : unit → F B) (Q : B → Prop) : gives_on d (f tt) Q → gives_on d (report p ≫= f) Q.
Proof. intros H. eapply gives_on_bind; [apply gives_gives_on, gives_report|by intros []]. Qed.

Lemma gives_on_check {B : Type} d (f : unit → F B) (Q : B → Prop) : gives_on d (f tt) Q → gives_on d (check_cancel ≫= f) Q.
Proof. intros H. eapply gives_on_bind; [apply gives_gives_on, gives_check|by intros []]. Qed.

Lemma gives_on_scan data d :
  gives_on d (on_disk (scan_dataset data)) (λ r, layout (visible d) data ∧ scanned (visible d) data (fst r) (snd r)).
Proof.
  intros j Hj. pose proof (scan_outcome data (job_world j)) as H. unfold on_disk. rewrite Hj in H.
  destruct (scan_dataset data (job_world j)) as [w [[classes examples]|e|]]; cbn; [naive_solver| |naive_solver].
  destruct H as (-> & (p & reason & ->) & _). done.
Qed.

(** ** Counting the scanned examples *)

Lemma counts_from_examples classes examples :
  per_class_counts_from_examples classes examples = per_class_counts_from_labels (List.length classes) (map snd examples).
Proof.
  unfold per_class_counts_from_examples, per_class_counts_from_labels. generalize (replicate (List.length classes) 0).
  induction examples as [|[p l] examples IH]; intros counts; [done|]. cbn [foldl map snd]. apply IH.
Qed.

(** Every class of a scan has an example, so the check after it never fires. *)
Lemma scanned_counts m data classes examples : layout m data → scanned m data classes examples →
  first_empty (per_class_counts_from_examples classes examples) = None.
Proof.
  intros Hl Hs. rewrite counts_from_examples, counts_spec. pose proof (first_empty_spec (map (λ c, List.length (members (map snd examples) c)) (seq 0 (List.length classes)))) as Hf.
  destruct (first_empty _) as [c|]; [|done]. destruct Hf as [H0 _]. exfalso.
  pose proof (lookup_lt_Some _ _ _ H0) as Hc. rewrite length_map, length_seq in Hc.
  rewrite list_lookup_fmap, lookup_seq_lt in H0 by done. injection H0 as H0. apply nil_length_inv in H0.
  apply lookup_lt_is_Some in Hc as [name Hname].
  destruct (layout_files _ _ Hl name) as [p Hp]; [by apply (scanned_classes _ _ _ _ Hs); eapply list_elem_of_lookup_2|].
  assert (Hex : (p, c) ∈ examples) by (apply (scanned_examples _ _ _ _ Hs); by exists name).
  apply list_elem_of_lookup_1 in Hex as [i Hi]. assert (Hm : i ∈ members (map snd examples) c).
  { apply elem_of_members. change (map snd examples) with (snd <$> examples). by rewrite list_lookup_fmap, Hi. }
  rewrite H0 in Hm. by apply elem_of_nil in Hm.
Qed.

Lemma below_length (l : list nat) n : NoDup l → (∀ i, i ∈ l → i < n) → List.length l ≤ n.
Proof.
  intros Hnd Hb. rewrite <-(length_seq n 0). apply List.NoDup_incl_length; [by apply NoDup_ListNoDup|].
  intros i Hi. apply in_seq. split; [lia|]. by apply Hb, list_elem_of_In.
Qed.

(** ** Preparing *)

Section Whole.
Context `{H : Hound} `{R : Rubato} `{L : Libm} `{FFT : RealFft} `{N : TrainLib} `{TL : TempLaws} `{UU : UuidLib}.
Context `{!RubatoLaws R} `{!RubatoReset R} `{!RealFftLaws FFT} `{!TrainLaws N}.
Variable window : list f32.
Variable splits : list (path * nat) → list (list (path * nat)).
Variable late : path → bool.
Hypothesis window_length : List.length window = FRAME_LEN.
Hypothesis window_nonneg : Forall nonneg_finite window.
Hypothesis splits_cover : ∀ chunk, concat (splits chunk) = chunk.
Hypothesis backbone_length : ∀ b specs, List.length (backbone_forward b specs) = List.length specs * BACKBONE_FEATURE_DIM.

(** What the split hands to training is in order. *)
Lemma split_data_ok classes feats labels n v seed names s :
  List.length feats = List.length labels → (Z.of_nat (List.length labels) ≤ 33554)%Z →
  stratified_split_indices labels n v seed names = Ok s →
  data_ok (mkTrainData classes feats labels (sp_train s) (sp_val s)) ∧ (Z.of_nat (List.length (sp_train s)) < 2 ^ 24)%Z.
Proof.
  intros Hl Hcap Hs. pose proof (split_outcome labels n v seed names) as Ho. rewrite Hs in Ho. destruct Ho as (Hnd & Hin & _).
  assert (Hb : ∀ i, i ∈ sp_train s ++ sp_val s → i < List.length labels) by (intros i (c & _ & Hi)%Hin; by eapply lookup_lt_Some).
  pose proof (below_length _ _ Hnd Hb) as Hc. rewrite length_app in Hc.
  split; [split; cbn [td_feats td_labels td_train_idx td_val_idx]|lia].
  - done.
  - apply list.Forall_forall. intros i Hi. apply Hb, elem_of_app. by left.
  - apply list.Forall_forall. intros i Hi. apply Hb, elem_of_app. by right.
  - lia.
Qed.

(** What preparation hands over. *)
Definition prepared (d : Disk) (cfg : FinetuneConfig) (r : list string * TrainData) : Prop :=
  (∃ examples, scanned (visible d) (ft_data cfg) (fst r) examples) ∧ 2 ≤ List.length (fst r) ∧
  td_n_classes (snd r) = List.length (fst r) ∧ data_ok (snd r) ∧ (Z.of_nat (List.length (td_train_idx (snd r))) < 2 ^ 24)%Z.

Lemma gives_prepare d cfg : gives_on d (prepare window splits late cfg) (prepared d cfg).
Proof.
  unfold prepare. apply gives_on_report. eapply gives_on_bind; [apply gives_on_scan|]. intros [classes examples] [Hlay Hscan]. cbn [fst snd] in *. cbv zeta.
  eapply (gives_on_result _ _ _ (λ _, 2 ≤ List.length classes)); [destruct (Nat.ltb_spec (List.length classes) 2); cbn; [done|lia]|]. intros _ Hn.
  eapply (gives_on_result _ _ _ (λ _, True)); [by destruct (_ =? 0)|]. intros _ _.
  rewrite (scanned_counts _ _ _ _ Hlay Hscan). eapply (gives_on_result _ _ _ (λ _, True)); [done|]. intros _ _.
  apply gives_on_report, gives_on_check, gives_on_report.
  eapply (gives_on_result _ _ _ (λ _, True)); [by destruct (backbone_load_mpk _)|]. intros backbone _.
  apply gives_on_check, gives_on_report.
  eapply gives_on_bind.
  { apply gives_gives_on, (gives_extract_features window splits late window_length window_nonneg splits_cover backbone (backbone_length backbone)). }
  intros [feats labels] (Hlab & Hlen & _ & Hcap). cbn [fst snd] in *.
  assert (Hle : List.length labels ≤ List.length examples).
  { rewrite Hlab, length_map. clear. induction examples as [|x l IH]; [done|]. cbn [omap list_omap]. destruct (keep_ref window x); cbn [List.length]; lia. }
  eapply (gives_on_result _ _ _ (λ _, True)); [by destruct feats|]. intros _ _.
  eapply (gives_on_result _ _ _ (λ _, True)); [by rewrite (proj2 (Nat.eqb_eq _ _) Hlen)|]. intros _ _. apply gives_on_check.
  pose proof (gate_outcome classes (per_class_counts_from_examples classes examples) labels (List.length examples) Hle ltac:(lia)) as Hgate.
  eapply (gives_on_result _ _ _ (λ _, True)); [cbv zeta in Hgate; destruct (validate_post_extract_quality _ _ _ _ _) as [|[m|[]]]; cbn; done|]. intros _ _.
  eapply (gives_on_result _ _ _ (λ s, stratified_split_indices labels (List.length classes) (ft_val_split cfg) (ft_seed cfg) (Some classes) = Ok s)).
  { pose proof (split_outcome labels (List.length classes) (ft_val_split cfg) (ft_seed cfg) (Some classes)) as Ho.
    destruct (stratified_split_indices _ _ _ _ _) as [s|[m|e]]; [done|done|]. by destruct Ho as (_ & c & pairs & _ & _ & _ & ->). }
  intros s Hs. destruct (split_data_ok (List.length classes) feats labels _ _ _ _ s Hlen ltac:(lia) Hs) as [Hok Htr].
  eapply (gives_on_result _ _ _ (λ _, True)); [by destruct (sp_train s)|]. intros _ _.
  apply gives_gives_on, gives_ret. split_and!; [by exists examples|done|done|done|done].
Qed.

(** ** The whole run *)

(** From the disk [d], a program that may change it: how it may end. *)
Definition ends {A : Type} (d : Disk) (c : F A) (Q : A → Disk → Prop) (X : Disk → Prop) : Prop :=
  ∀ j, disk (job_world j) = d → let '(j', r) := c j in
    match r with Ret a => Q a (disk (job_world j')) | Throw e => panics e = false ∧ X (disk (job_world j')) | Crash => X (disk (job_world j')) end.

Lemma ends_after {A B : Type} d (c : F A) (f : A → F B) (P : A → Prop) (Q : B → Disk → Prop) (X : Disk → Prop) :
  gives_on d c P → X d → (∀ a, P a → ends d (f a) Q X) → ends d (c ≫= f) Q X.
Proof.
  intros Hc HX Hf j Hj. specialize (Hc j Hj). unfold mbind, F_bind. destruct (c j) as [j1 [a|e|]]; destruct Hc as [Hd Hc]; [by apply (Hf a Hc j1)|by rewrite Hd..].
Qed.

Lemma ends_conseq {A : Type} d (c : F A) (Q Q' : A → Disk → Prop) (X : Disk → Prop) :
  ends d c Q X → (∀ a d', Q a d' → Q' a d') → ends d c Q' X.
Proof. intros Hc HQ j Hj. specialize (Hc j Hj). destruct (c j) as [j1 [a|e|]]; [by apply HQ|done..]. Qed.

Lemma publish_no_panic out classes head w e : snd (publish_files out classes head w) = Throw e → panics e = false.
Proof.
  unfold publish_files, save_mpk_atomic, lift, mbind, M_bind, map_throw.
  assert (Hh : ∀ x, head_blob head = Err x → panics x = false).
  { intros x. unfold head_blob. destruct (record_head head) as [b|m]; cbn; [|by intros [= <-]]. destruct (write_with_payload _ _ _ _ _) as [? []]; [done|by intros [= <-]]. }
  case_decide; [cbn|destruct (create_dir_all _ w) as [w0 [[]|e0|]]; [|by intros [= <-]|done]; cbn].
  all: destruct (put_atomic (labels_path_of out) _ _) as [w1 [[]|e1|]]; [|by intros [= <-]|done]; cbn.
  all: destruct (head_blob head) as [blob|x] eqn:Eb; [|intros [= <-]; by apply Hh]; cbn.
  all: destruct (put_atomic out blob w1) as [w2 [[]|e2|]]; [done|by intros [= <-]|done].
Qed.

Lemma ends_publish {B : Type} d out classes head (f : unit → F B) (b : B) (Q : Disk → Prop) (X : Disk → Prop) :
  triple (λ d', d' = d) (publish_files out classes head) (λ _, Q) X X →
  (∀ j, ∃ j', f tt j = (j', Ret b) ∧ job_world j' = job_world j) →
  ends d (on_disk (publish_files out classes head) ≫= f) (λ b' d', b' = b ∧ Q d') X.
Proof.
  intros Htr Hf j Hj. specialize (Htr (job_world j) Hj). pose proof (publish_no_panic out classes head (job_world j)) as Hnp.
  unfold mbind, F_bind, on_disk. destruct (publish_files out classes head (job_world j)) as [w [[]|e|]]; cbn [snd] in Hnp.
  - destruct (Hf (mkJob w (job_polls j) (job_events j))) as (j' & -> & ->). done.
  - cbn [job_world]. split; [by apply Hnp|done].
  - done.
Qed.

(** What a run has written when it succeeds: the labels of the scan and a head
    with one output for each. *)
Definition published (d0 : Disk) (cfg : FinetuneConfig) (o : FinetuneOutput) (d : Disk) : Prop :=
  (∃ examples, scanned (visible d0) (ft_data cfg) (fo_classes o) examples) ∧ 2 ≤ List.length (fo_classes o) ∧
  fo_head_mpk o = ft_out cfg ∧ fo_labels_txt o = labels_path_of (ft_out cfg) ∧
  definite d (fo_labels_txt o) (Some (File (labels_blob_of (fo_classes o)) true)) ∧
  ∃ head blob, head_classes head = List.length (fo_classes o) ∧ head_blob head = Ok blob ∧ definite d (fo_head_mpk o) (Some (File blob true)).

(** What is on disk whatever ended it. *)
Definition unfinished (d0 : Disk) (cfg : FinetuneConfig) (old : option node) (d : Disk) : Prop :=
  before_publish (ft_out cfg) old d ∨
  ∃ classes examples news, scanned (visible d0) (ft_data cfg) classes examples ∧
    definite d (labels_path_of (ft_out cfg)) (Some (File (labels_blob_of classes) true)) ∧ among d (ft_out cfg) (news ++ [old]) ∧
    (news = [] ∨ ∃ head blob, head_classes head = List.length classes ∧ head_blob head = Ok blob ∧ news = [Some (File blob true)]).

(** What the output of a run says of the scan, and [Q] of the classes and the
    head it published. *)
Definition run_output (d : Disk) (cfg : FinetuneConfig) (head_id : HeadId) (Q : list string → THead → Disk → Prop) (o : FinetuneOutput) (d' : Disk) : Prop :=
  (∃ examples, scanned (visible d) (ft_data cfg) (fo_classes o) examples) ∧ 2 ≤ List.length (fo_classes o) ∧
  fo_head_mpk o = ft_out cfg ∧ fo_labels_txt o = labels_path_of (ft_out cfg) ∧ fo_head_id o = head_id ∧
  ∃ head, head_classes head = List.length (fo_classes o) ∧ Q (fo_classes o) head d'.

(** A run only reads until it publishes; how it ends follows from how the
    publication ends. *)
Lemma run_inner_ends_with d cfg head_id (Q : list string → THead → Disk → Prop) (X : Disk → Prop) :
  (0 ≤ ft_batch cfg)%Z → X d →
  (∀ classes examples head, scanned (visible d) (ft_data cfg) classes examples → head_classes head = List.length classes →
     triple (λ d', d' = d) (publish_files (ft_out cfg) classes head) (λ _, Q classes head) X X) →
  ends d (run_inner window splits late cfg head_id) (run_output d cfg head_id Q) X.
Proof.
  intros Hbatch HX Hpub.
  unfold run_inner. eapply (ends_after _ _ _ (λ _, (0 < Z.to_nat (ft_batch cfg)))); [|done|].
  { apply gives_gives_on, gives_of_result. unfold FinetuneConfig_validate. destruct (ft_epochs cfg =? 0)%Z; [done|].
    destruct (Z.eqb_spec (ft_batch cfg) 0); [done|]. repeat (destruct (negb _); [done|]). cbn. lia. }
  intros _ Hb. eapply ends_after; [apply gives_gives_on, gives_check|done|]. intros _ _.
  eapply ends_after; [apply gives_prepare|done|]. intros [classes data] ((examples & Hscan) & Hn & Hcls & Hok & Htr). cbn [fst snd] in *. cbv zeta.
  eapply ends_after; [apply gives_gives_on, gives_report|done|]. intros _ _.
  eapply (ends_after _ _ _ (shaped data)); [|done|].
  { apply gives_gives_on, gives_of_result. unfold initial_head, shaped. destruct (ft_init_head cfg) as [p|]; [|cbn; apply new_classes].
    destruct (head_load_mpk p) as [h|m]; cbn; [|done]. destruct (Nat.eqb_spec (head_classes h) (td_n_classes data)); done. }
  intros h0 Hh0. set (s := mkTrainSettings _ _ _ _).
  eapply ends_after; [by apply gives_gives_on, (gives_train_head data s Hok Hb h0)|done|]. intros h [_ Hh].
  eapply ends_after; [apply gives_gives_on, gives_report|done|]. intros _ _.
  eapply ends_after; [apply gives_gives_on, gives_check|done|]. intros _ _.
  eapply ends_after; [apply gives_gives_on, gives_report|done|]. intros _ _.
  destruct (evaluate_ok h (td_n_classes data) (td_feats data) (td_labels data) (td_train_idx data)) as (ta & -> & _);
    [done|apply (ok_lengths _ Hok)|apply (ok_train _ Hok)|done|].
  destruct (evaluate_ok h (td_n_classes data) (td_feats data) (td_labels data) (td_val_idx data)) as (va & -> & _);
    [done|apply (ok_lengths _ Hok)|apply (ok_val _ Hok)|apply (ok_val_count _ Hok)|].
  eapply (ends_after _ _ _ (λ x, x = ta)); [by apply gives_gives_on, gives_of_result|done|]. intros ? ->.
  eapply (ends_after _ _ _ (λ x, x = va)); [by apply gives_gives_on, gives_of_result|done|]. intros ? ->.
  unfold shaped in Hh. rewrite Hcls in Hh.
  eapply ends_conseq; [apply (ends_publish d (ft_out cfg) classes h _
    (mkFinetuneOutput (ft_out cfg) (labels_path_of (ft_out cfg)) ta va classes head_id) (Q classes h) X); [by apply (Hpub classes examples)|]|].
  - intros j. eexists. split; [reflexivity|done].
  - intros o d' [-> HQ]. unfold run_output. cbn. split_and!; [by exists examples|done|done|done|done|]. by exists h.
Qed.

Lemma run_inner_ends d cfg head_id dir name old : ft_out cfg = dir ++ [name] → (0 ≤ ft_batch cfg)%Z →
  not_temp (ft_out cfg) → not_temp (labels_path_of (ft_out cfg)) → before_publish (ft_out cfg) old d →
  ends d (run_inner window splits late cfg head_id) (published d cfg) (unfinished d cfg old).
Proof.
  intros Hout Hbatch Ht Htl Hbefore j Hj.
  set (Q := λ classes head d', definite d' (labels_path_of (ft_out cfg)) (Some (File (labels_blob_of classes) true)) ∧
    ∃ blob, head_blob head = Ok blob ∧ definite d' (ft_out cfg) (Some (File blob true))).
  assert (HX : ∀ classes examples head d', scanned (visible d) (ft_data cfg) classes examples → head_classes head = List.length classes →
    publishing (ft_out cfg) old (labels_blob_of classes) (match head_blob head with Ok blob => [Some (File blob true)] | Err _ => [] end) d' →
    unfinished d cfg old d').
  { intros classes examples head d' Hscan Hcls [Hp|[Hp1 Hp2]]; [by left|right].
    exists classes, examples, (match head_blob head with Ok blob => [Some (File blob true)] | Err _ => [] end).
    split_and!; [done|done|done|]. destruct (head_blob head) as [blob|e] eqn:Eb; [right|by left]. by exists head, blob. }
  assert (Hpub : ∀ classes examples head, scanned (visible d) (ft_data cfg) classes examples → head_classes head = List.length classes →
    triple (λ d', d' = d) (publish_files (ft_out cfg) classes head) (λ _, Q classes head) (unfinished d cfg old) (unfinished d cfg old)).
  { intros classes examples head Hscan Hcls. pose proof (HX classes examples head) as HX'. unfold Q. rewrite Hout in *.
    eapply triple_conseq; [apply (publish_pair_triple dir name old classes head Ht Htl)|by intros ? ->|done|..]; intros d' Hd'; by apply HX'. }
  pose proof (run_inner_ends_with d cfg head_id Q (unfinished d cfg old) Hbatch ltac:(by left) Hpub j Hj) as He.
  destruct (run_inner window splits late cfg head_id j) as [j' [o|e|]]; [|exact He..].
  destruct He as (Hs & Hn & Ho & Hl & _ & head & Hc & Hd & blob & Hb & Hdo). unfold published. rewrite Ho, Hl.
  split_and!; [done|done|done|done|done|]. by exists head, blob.
Qed.

(** C14: A fine-tune never panics, so its caller never sees the [Panic] error, and
    it is safe to cut anywhere.  In every crash image of any run the head's name
    holds what it held before, or a complete head next to the complete labels of
    the scanned classes, one per output of that head; after a run that returned
    it holds that head, and the run's answer names those classes.  The head's
    bytes pass the checks of the loader, which reads that number of classes. *)
Theorem finetune_run_safe (cfg : FinetuneConfig) (head_id : HeadId) (j : Job) (dir : path) (name : string) (old : option node) :
  ft_out cfg = dir ++ [name] → (0 ≤ ft_batch cfg)%Z → not_temp (ft_out cfg) → not_temp (labels_path_of (ft_out cfg)) →
  no_moves (disk (job_world j)) → definite (disk (job_world j)) (ft_out cfg) old → settled old = true →
  let out := ft_out cfg in
  let '(j', r) := run window splits late cfg head_id j in
  (∀ msg, r ≠ Throw (FT_Panic msg)) ∧
  ∀ img, crash_image (disk (job_world j')) img →
    let complete classes := ∃ head blob, head_classes head = List.length classes ∧ head_blob head = Ok blob ∧
      img !! out = Some (File blob true) ∧ img !! labels_path_of out = Some (File (labels_blob_of classes) true) ∧
      ((Z.of_nat (List.length classes) ≤ u32_max)%Z → ∃ h, check_head_bytes out blob = Ok h ∧ num_classes h = Z.of_nat (List.length classes)) in
    (img !! out = old ∨ ∃ classes examples, scanned (visible (disk (job_world j))) (ft_data cfg) classes examples ∧ complete classes) ∧
    (∀ o, r = Ret o → fo_head_mpk o = out ∧ 2 ≤ List.length (fo_classes o) ∧ complete (fo_classes o)).
Proof.
  intros Hout Hbatch Ht Htl Hnm Hold Hset out.
  pose proof (run_inner_ends (disk (job_world j)) cfg head_id dir name old Hout Hbatch Ht Htl (conj Hnm Hold) j eq_refl) as He.
  set (d0 := disk (job_world j)) in *. unfold run.
  set (loads := λ (classes : list string) blob, (Z.of_nat (List.length classes) ≤ u32_max)%Z →
    ∃ h, check_head_bytes out blob = Ok h ∧ num_classes h = Z.of_nat (List.length classes)).
  assert (Hload : ∀ classes head blob, head_classes head = List.length classes → head_blob head = Ok blob → loads classes blob).
  { intros classes head blob Hc Hb Hu. rewrite <-Hc in *. by apply head_blob_header. }
  assert (Hu : ∀ d', unfinished d0 cfg old d' → ∀ img, crash_image d' img →
    img !! out = old ∨ ∃ classes examples, scanned (visible d0) (ft_data cfg) classes examples ∧
      ∃ head blob, head_classes head = List.length classes ∧ head_blob head = Ok blob ∧
      img !! out = Some (File blob true) ∧ img !! labels_path_of out = Some (File (labels_blob_of classes) true) ∧ loads classes blob).
  { intros d' Hu img Hi. destruct Hu as [[_ Hu]|(classes & examples & news & Hs & Hl & Ha & Hn)].
    - left. by eapply (definite_crash d' (ft_out cfg) old img).
    - apply (among_crash _ _ _ img) in Ha; [| |done].
      + destruct Hn as [-> |(head & blob & H1 & H2 & ->)]; [left; by apply list_elem_of_singleton|].
        apply elem_of_cons in Ha as [Ha|Ha%list_elem_of_singleton]; [right|by left]. exists classes, examples. split; [done|].
        exists head, blob. split_and!; [done|done|done|by eapply definite_crash|by eapply Hload].
      + destruct Hn as [-> |(head & blob & _ & _ & ->)]; cbn; by rewrite Hset. }
  destruct (run_inner window splits late cfg head_id j) as [j' [o|e|]]; cbv beta iota.
  - split; [done|]. intros img Hi. set (complete := λ classes : list string, ∃ head blob, head_classes head = List.length classes ∧ head_blob head = Ok blob ∧
      img !! out = Some (File blob true) ∧ img !! labels_path_of out = Some (File (labels_blob_of classes) true) ∧ loads classes blob).
    destruct He as ((examples & Hs) & Hn & Ho & Hlp & Hl & head & blob & H1 & H2 & H3). rewrite Hlp in Hl. rewrite Ho in H3.
    assert (Hc : complete (fo_classes o)).
    { exists head, blob. split_and!; [done|done|by eapply definite_crash|by eapply definite_crash|by eapply Hload]. }
    split; [right; by exists (fo_classes o), examples|]. by intros o' [= <-].
  - destruct He as [Hp He]. destruct e as [m|e]; [done|]. cbv beta iota. split; [by intros m [= ->]|]. intros img Hi. split; [by apply (Hu _ He)|done].
  - split; [done|]. intros img Hi. split; [by apply (Hu _ He)|done].
Qed.
End Whole.
