(* ===== verification/FinetuneExamples.v ===== *)
(** * Fine-tuning on concrete data

    A network of counters to run the theorems on: a head is how many steps it has
    taken and its number of classes, and it is right about class 1 only after
    exactly two steps. *)

From Stdlib Require Import SpecFloat.
From S2P Require Import Prelude Ids HeadHeader Common FileSystem FsLogic FsAtomic Workspace HotHead F32 F32Facts Resample MicTypes Preproc WavIo WavIoFacts Config ApiErrors Finetune FinetuneScan FinetuneTrain FinetuneRuns FinetunePublish.

Local Open Scope nat_scope.

(** ** The network *)

(** One logit of 1 at the class it believes in. *)
Definition counter_row (h : nat * nat) : list f32 :=
  map (λ c, if c =? (if fst h =? 2 then 1 else 0) then f32_one else f32_zero) (seq 0 (snd h)).

(** [a] times 'x', a comma, [b] times 'x'. *)
Definition counter_bytes (h : nat * nat) : list ascii := replicate (fst h) "x"%char ++ ","%char :: replicate (snd h) "x"%char.
Fixpoint counter_load (steps : nat) (l : list ascii) : result string (nat * nat) :=
  match l with
  | "x"%char :: l => counter_load (S steps) l
  | ","%char :: l => Ok (steps, List.length l)
  | _ => Err "bad record"%string
  end.

Definition counter_lib : TrainLib := {|
  TBackbone := unit;
  THead := nat * nat;
  backbone_load_mpk := λ _, Ok tt;
  backbone_forward := λ _ specs, replicate (List.length specs * BACKBONE_FEATURE_DIM) f32_zero;
  head_load_mpk := λ _, Err "none"%string;
  head_new := λ _ n, (0, n);
  head_classes := snd;
  head_forward := λ h xs, concat (map (λ _, counter_row h) xs);
  cross_entropy := λ _ _ _, f32_one;
  sgd_step := λ _ h _ _, (S (fst h), snd h);
  record_head := λ h, Ok (counter_bytes h);
  load_head := counter_load 0;
|}.

Lemma counter_load_bytes k a b : counter_load k (counter_bytes (a, b)) = Ok (k + a, b).
Proof.
  revert k. induction a as [|a IH]; intros k; unfold counter_bytes in *; cbn [fst snd replicate app counter_load] in *.
  - by rewrite length_replicate, Nat.add_0_r.
  - rewrite IH. by rewrite <-plus_n_Sm.
Qed.

Lemma counter_laws : TrainLaws counter_lib.
Proof.
  split.
  - intros h xs. cbn. induction xs as [|x xs IH]; [done|]. cbn. rewrite length_app, IH. unfold counter_row. by rewrite length_map, length_seq.
  - done.
  - done.
  - intros [a b] bytes [= <-]. exact (counter_load_bytes 0 a b).
Qed.

(** ** Training *)

(** Two examples, one to train on and one of class 1 to validate on. *)
Definition pair_data : TrainData := mkTrainData 2 [[f32_one]; [f32_one]] [1; 1] [0] [1].
Definition three_epochs : TrainSettings := mkTrainSettings 3 8 f32_one 42.
Definition quiet : Job := mkJob (mkWorld (mkDisk ∅ []) None []) [] [].

Lemma pair_data_ok : data_ok pair_data.
Proof. split; cbn; [done|by constructor; [lia|]|by constructor; [lia|]|lia]. Qed.


(** ** The gate *)

(** Ten examples, one dropped: exactly at the limit. *)
Definition nine_labels : list nat := [0; 0; 0; 0; 1; 1; 1; 1; 1].

Lemma quality_gate_exact_witness :
  validate_post_extract_quality ["a"; "b"]%string [5; 5] 2 nine_labels 10 = Ok tt ∧ 10 * (10 - 9) ≤ 10.
Proof.
  pose proof (quality_gate_exact ["a"; "b"]%string [5; 5] nine_labels 10) as H. cbv zeta in H.
  specialize (H ltac:(cbn; lia) ltac:(cbn; lia)).
  assert (E : validate_post_extract_quality ["a"; "b"]%string [5; 5] 2 nine_labels 10 = Ok tt) by (vm_compute; reflexivity).
  change (List.length ["a"; "b"]%string) with 2 in H. rewrite E in H. split; [exact E|]. exact (proj2 H).
Defined.

(** ** A run *)

Section Run.
#[local] Existing Instances pcm_file halving halving_reset pair_fft long_temp_lib text_uuid_lib counter_lib long_temp_laws counter_laws.
#[local] Instance id_libm : Libm := {| f32_exp := λ x, x; f32_ln := λ x, x; f32_powf := λ b _, b; f64_sin := λ x, x |}.

Definition flat_window : list f32 := replicate FRAME_LEN f32_one.
Definition one_split (chunk : list (path * nat)) : list (list (path * nat)) := [chunk].
Definition never_late (p : path) : bool := false.

Lemma flat_window_ok : List.length flat_window = FRAME_LEN ∧ Forall nonneg_finite flat_window.
Proof. split; [apply length_replicate|by apply Forall_replicate]. Qed.

Lemma one_split_ok chunk : concat (one_split chunk) = chunk.
Proof. apply app_nil_r. Qed.

Lemma zero_backbone_length (b : TBackbone) specs : List.length (backbone_forward b specs) = List.length specs * BACKBONE_FEATURE_DIM.
Proof. apply length_replicate. Qed.

Lemma extract_features_exact_witness :
  let examples := [(["d"; "a"; "1.wav"]%string, 0); (["d"; "b"; "2.wav"]%string, 1)] in
  match extract_features flat_window one_split never_late tt examples quiet with
  | (_, Ret r) => extracted flat_window tt examples r
  | (_, Throw (Panicked _)) => False
  | _ => True
  end.
Proof.
  intros examples.
  pose proof (extract_features_exact (R := halving) (FFT := pair_fft) (N := counter_lib) (RubatoReset0 := halving_reset)
    flat_window one_split never_late (proj1 flat_window_ok) (proj2 flat_window_ok) one_split_ok tt (zero_backbone_length tt) examples quiet) as H.
  exact H.
Defined.

(** Two classes of two files each, and an empty place for the head. *)
Definition two_classes : fs :=
  {[ [] := Dir; ["d"]%string := Dir; ["d"; "a"]%string := Dir; ["d"; "b"]%string := Dir; ["o"]%string := Dir;
     ["d"; "a"; "1.wav"]%string := File [] true; ["d"; "a"; "2.wav"]%string := File [] true;
     ["d"; "b"; "1.wav"]%string := File [] true; ["d"; "b"; "2.wav"]%string := File [] true ]}.
Definition two_classes_job : Job := mkJob (mkWorld (mkDisk two_classes []) None []) [] [].
Definition two_classes_cfg : FinetuneConfig :=
  mkFinetuneConfig ["d"]%string ["backbone.mpk"]%string None ["o"; "h.mpk"]%string 3 8 f32_one (S754_finite false 8388608 (-24)) 42.

Definition nil_head_id : HeadId := mkHeadId ("h"%string : Uuid).

Lemma finetune_run_safe_witness :
  let '(j', r) := run flat_window one_split never_late two_classes_cfg nil_head_id two_classes_job in
  (∀ msg, r ≠ Throw (FT_Panic msg)) ∧
  ∀ img, crash_image (disk (job_world j')) img → img !! ["o"; "h.mpk"]%string = None ∨
    ∃ classes examples, scanned two_classes ["d"]%string classes examples ∧
      img !! ["o"; "h.labels.txt"]%string = Some (File (labels_blob_of classes) true).
Proof.
  pose proof (finetune_run_safe flat_window one_split never_late (proj1 flat_window_ok) (proj2 flat_window_ok) one_split_ok zero_backbone_length
    two_classes_cfg nil_head_id two_classes_job ["o"]%string "h.mpk"%string None) as H.
  specialize (H eq_refl).
  specialize (H ltac:(done)).
  assert (Ht : not_temp (ft_out two_classes_cfg)) by (by apply (not_temp_snoc ["o"]%string)).
  assert (Htl : not_temp (labels_path_of (ft_out two_classes_cfg))) by (by apply (not_temp_snoc ["o"]%string)).
  specialize (H Ht Htl). specialize (H ltac:(constructor)).
  assert (Hd : definite (disk (job_world two_classes_job)) (ft_out two_classes_cfg) None) by (split; [by left|constructor]).
  specialize (H Hd eq_refl). cbv zeta in H.
  destruct (run _ _ _ _ _ _) as [j' r]. destruct H as [Hp H]. split; [exact Hp|]. intros img Hi.
  destruct (H img Hi) as [[H0|(classes & examples & Hs & head & blob & _ & _ & _ & Hl & _)] _]; [by left|right].
  exists classes, examples. split; [exact Hs|exact Hl].
Defined.
End Run.
