(* ===== verification/TrainJobs.v ===== *)
(** * Training jobs: the in-process table ([src/modules/training.rs])

    One permit for the whole daemon, a table of entries that views, cancels and
    the reaper read, and one task per job.  Each access to a lock or an atomic is
    one step; the fresh job identifier, the wall clock's text and the monotonic
    clock (in nanoseconds) are arguments.  [DashMap]'s iteration order is left
    open where it shows.

    Errors are kept where the source keeps their rendered text. *)

From Stdlib Require Import SpecFloat.
From S2P Require Import Prelude Ids Common Workspace FileSystem F32 RequestPayload ApiErrors Finetune FinetuneScan FinetuneTrain.
From stdpp Require Import list sorting.

Local Open Scope nat_scope.

(** ** Data *)

Inductive JobState : Type := Running | Completed | Failed | Cancelled.

#[export] Instance JobState_eq_dec : EqDecision JobState.
Proof. solve_decision. Defined.

Section TrainJobs.
Context `{U : UuidLib}.

Record TrainingJob := mkTrainingJob {
  tj_workspace_id : WorkspaceId;
  tj_head_id : HeadId;
  tj_workspace_revision : WorkspaceRevision;
  tj_training_cfg : TrainingCfg;
  tj_backbone_path : path;
}.

Record TrainingResult := mkTrainingResult {
  tr_head_id : HeadId;
  tr_head_sha256 : string;
  tr_n_classes : Z;
  tr_classes : list string;
  tr_final_train_acc : f32;
  tr_final_val_acc : f32;
}.

Record JobCore := mkJobCore {
  jc_state : JobState;
  jc_result : option TrainingResult;
  jc_error : option TrainingError;
  jc_finished_at : option string;
  jc_finished_at_instant : option Z;
}.

Record JobEntry := mkJobEntry {
  je_workspace_id : WorkspaceId;
  je_started_at : string;
  je_progress : Progress;
  je_cancel : bool;
  je_core : JobCore;
}.

Record JobView := mkJobView {
  jv_job_id : string;
  jv_workspace_id : string;
  jv_state : JobState;
  jv_progress : Progress;
  jv_result : option TrainingResult;
  jv_error : option TrainingError;
  jv_started_at : string;
  jv_finished_at : option string;
}.

(** Where a job's holder of the permit is: between acquiring it and inserting
    the entry, in [run_job], or past the entry's last update. *)
Inductive Phase : Type := Permitted (job : TrainingJob) | Working | Recorded.

(** [permits] is the semaphore; [tasks] the spawning calls and the jobs' tasks
    that hold a permit. *)
Record JobRegistry := mkJobRegistry {
  jobs : gmap JobId JobEntry;
  permits : nat;
  tasks : gmap JobId Phase;
}.

Definition JobRegistry_new : JobRegistry := mkJobRegistry ∅ 1 ∅.

Definition with_entry (f : JobEntry → JobEntry) (id : JobId) (r : JobRegistry) : JobRegistry :=
  mkJobRegistry (alter f id (jobs r)) (permits r) (tasks r).
Definition set_progress (p : Progress) (e : JobEntry) : JobEntry :=
  mkJobEntry (je_workspace_id e) (je_started_at e) p (je_cancel e) (je_core e).
Definition set_cancel (e : JobEntry) : JobEntry :=
  mkJobEntry (je_workspace_id e) (je_started_at e) (je_progress e) true (je_core e).
Definition set_core (c : JobCore) (e : JobEntry) : JobEntry :=
  mkJobEntry (je_workspace_id e) (je_started_at e) (je_progress e) (je_cancel e) c.

(** ** Spawning *)

(** The text a [ValidationError] is rendered to. *)
Variable validation_text : ValidationError → string.

Definition initial_progress : Progress := Progress_new Loading 0 0.
Definition initial_core : JobCore := mkJobCore Running None None None None.

(** [self.running.clone().try_acquire_owned()]. *)
Definition try_acquire (id : JobId) (job : TrainingJob) (r : JobRegistry) : option JobRegistry :=
  match permits r with
  | 0 => None
  | S n => Some (mkJobRegistry (jobs r) n (<[id := Permitted job]> (tasks r)))
  end.

(** The entry goes into the table and its task starts. *)
Definition insert_entry (now_str : string) (id : JobId) (job : TrainingJob) (r : JobRegistry) : JobRegistry :=
  mkJobRegistry
    (<[id := mkJobEntry (tj_workspace_id job) now_str initial_progress false initial_core]> (jobs r))
    (permits r) (<[id := Working]> (tasks r)).

Definition spawn (now_str : string) (id : JobId) (job : TrainingJob) (r : JobRegistry) : JobRegistry * result TrainingError JobId :=
  match validate_training_cfg (tj_training_cfg job) with
  | Err e => (r, Err (TR_File (FE_InvalidName (validation_text e))))
  | Ok _ =>
      match try_acquire id job r with
      | None => (r, Err (TR_File FE_AnotherTrainRunning))
      | Some r => (insert_entry now_str id job r, Ok id)
      end
  end.

(** ** A job's task *)

(** [progress_tx.send(..)]. *)
Definition send_progress (id : JobId) (p : Progress) (r : JobRegistry) : JobRegistry := with_entry (set_progress p) id r.

(** The entry's last update, from what [run_job] returned. *)
Definition finished_core (now_str : string) (instant : Z) (outcome : result TrainingError TrainingResult) (c : JobCore) : JobCore :=
  match outcome with
  | Ok result => mkJobCore Completed (Some result) (jc_error c) (Some now_str) (Some instant)
  | Err TR_Cancelled | Err (TR_Finetune FT_Cancelled) =>
      mkJobCore Cancelled (jc_result c) (Some TR_Cancelled) (Some now_str) (Some instant)
  | Err e => mkJobCore Failed (jc_result c) (Some e) (Some now_str) (Some instant)
  end.

Definition record_outcome (now_str : string) (instant : Z) (id : JobId) (outcome : result TrainingError TrainingResult)
    (r : JobRegistry) : JobRegistry :=
  mkJobRegistry (alter (λ e, set_core (finished_core now_str instant outcome (je_core e)) e) id (jobs r))
    (permits r) (<[id := Recorded]> (tasks r)).

(** [drop(permit)]. *)
Definition drop_permit (id : JobId) (r : JobRegistry) : JobRegistry :=
  mkJobRegistry (jobs r) (S (permits r)) (delete id (tasks r)).

(** ** Requests *)

Definition lookup_for_workspace (workspace_id : WorkspaceId) (job_id : JobId) (r : JobRegistry) : result TrainingError JobEntry :=
  match jobs r !! job_id with
  | None => Err (TR_JobNotFound (JobId_display job_id))
  | Some entry =>
      if decide (je_workspace_id entry = workspace_id) then Ok entry
      else Err (TR_WrongWorkspace (JobId_display job_id) (WorkspaceId_display workspace_id))
  end.

Definition cancel (workspace_id : WorkspaceId) (job_id : JobId) (r : JobRegistry) : JobRegistry * result TrainingError unit :=
  match lookup_for_workspace workspace_id job_id r with
  | Err e => (r, Err e)
  | Ok _ => (with_entry set_cancel job_id r, Ok tt)
  end.

Definition view (job_id : JobId) (e : JobEntry) : JobView :=
  let core := je_core e in
  mkJobView (JobId_display job_id) (WorkspaceId_display (je_workspace_id e)) (jc_state core) (je_progress e)
    (jc_result core) (jc_error core) (je_started_at e) (jc_finished_at core).

Definition status (workspace_id : WorkspaceId) (job_id : JobId) (r : JobRegistry) : result TrainingError JobView :=
  entry ← lookup_for_workspace workspace_id job_id r; Ok (view job_id entry).

(** [a.started_at.cmp(&b.started_at)]. *)
Definition started_le (x y : JobView) : Prop := str_le (jv_started_at x) (jv_started_at y).
#[export] Instance started_le_dec : RelDecision started_le := λ x y, decide (str_leb (jv_started_at x) (jv_started_at y) = true).

(** [entries] is the table in the order it is iterated. *)
Definition list_for_workspace (workspace_id : WorkspaceId) (entries : list (JobId * JobEntry)) : list JobView :=
  merge_sort started_le
    (map (λ '(id, e), view id e) (List.filter (λ '(_, e), bool_decide (je_workspace_id e = workspace_id)) entries)).

Definition running (e : JobEntry) : bool := bool_decide (jc_state (je_core e) = Running).

(** One entry of [cancel_all_for_shutdown]'s loop: whether its flag was newly
    set. *)
Definition shut_down_one (id : JobId) (r : JobRegistry) : JobRegistry * bool :=
  match jobs r !! id with
  | Some e => if running e then (with_entry set_cancel id r, negb (je_cancel e)) else (r, false)
  | None => (r, false)
  end.

Fixpoint shut_down_each (ids : list JobId) (r : JobRegistry) (n : nat) : JobRegistry * nat :=
  match ids with
  | [] => (r, n)
  | id :: ids => let '(r, newly) := shut_down_one id r in shut_down_each ids r (if newly then S n else n)
  end.

Definition cancel_all_for_shutdown (ids : list JobId) (r : JobRegistry) : JobRegistry * nat := shut_down_each ids r 0.

Definition active_count (r : JobRegistry) : nat :=
  List.length (List.filter (λ x, running (snd x)) (map_to_list (jobs r))).

(** Finished at least [max_age] ago. *)
Definition reapable (now max_age : Z) (e : JobEntry) : bool :=
  match jc_finished_at_instant (je_core e) with
  | Some finished_at => (max_age <=? Z.max 0 (now - finished_at))%Z
  | None => false
  end.

Definition reap_finished (now max_age : Z) (r : JobRegistry) : JobRegistry * nat :=
  let to_remove := map fst (List.filter (λ x, reapable now max_age (snd x)) (map_to_list (jobs r))) in
  (mkJobRegistry (foldr delete (jobs r) to_remove) (permits r) (tasks r), List.length to_remove).

(** ** The steps of the daemon's threads *)

Inductive step (r : JobRegistry) : JobRegistry → Prop :=
  | step_acquire id job r' :
      jobs r !! id = None → tasks r !! id = None → validate_training_cfg (tj_training_cfg job) = Ok tt →
      try_acquire id job r = Some r' → step r r'
  | step_insert id job now_str : tasks r !! id = Some (Permitted job) → step r (insert_entry now_str id job r)
  | step_progress id p : tasks r !! id = Some Working → step r (send_progress id p r)
  | step_record id now_str instant outcome :
      tasks r !! id = Some Working → step r (record_outcome now_str instant id outcome r)
  | step_drop id : tasks r !! id = Some Recorded → step r (drop_permit id r)
  | step_cancel ws id : step r (fst (cancel ws id r))
  | step_shut_down id : step r (fst (shut_down_one id r))
  | step_reap now max_age : step r (fst (reap_finished now max_age r)).

Definition reachable : JobRegistry → Prop := rtc step JobRegistry_new.

(** ** The invariant *)

(** What an entry's core holds in each state. *)
Definition core_ok (c : JobCore) : Prop :=
  match jc_state c with
  | Running => jc_result c = None ∧ jc_error c = None ∧ jc_finished_at c = None ∧ jc_finished_at_instant c = None
  | Completed => is_Some (jc_result c) ∧ jc_error c = None ∧ is_Some (jc_finished_at c) ∧ is_Some (jc_finished_at_instant c)
  | Failed | Cancelled => jc_result c = None ∧ is_Some (jc_error c) ∧ is_Some (jc_finished_at c) ∧ is_Some (jc_finished_at_instant c)
  end.

Record table_ok (r : JobRegistry) : Prop := {
  tb_permits : permits r = 1 ∧ tasks r = ∅ ∨ permits r = 0 ∧ ∃ id ph, tasks r = {[id := ph]};
  tb_core : ∀ id e, jobs r !! id = Some e → core_ok (je_core e);
  tb_running : ∀ id e, jobs r !! id = Some e → jc_state (je_core e) = Running → tasks r !! id = Some Working;
  tb_working : ∀ id, tasks r !! id = Some Working → ∃ e, jobs r !! id = Some e ∧ jc_state (je_core e) = Running;
  tb_admitted : ∀ id job, tasks r !! id = Some (Permitted job) → jobs r !! id = None;
}.

Lemma finished_core_ok now_str instant outcome c :
  jc_state c = Running → core_ok c →
  core_ok (finished_core now_str instant outcome c) ∧ jc_state (finished_core now_str instant outcome c) ≠ Running.
Proof.
  unfold core_ok. intros ->. intros (H1 & H2 & _). destruct outcome as [res|[]]; cbn; try by rewrite ?H1, ?H2.
  destruct e; cbn; by rewrite ?H1, ?H2.
Qed.

(** Steps that only touch fields of one entry outside its core. *)
Lemma with_entry_ok f id r :
  (∀ e, je_core (f e) = je_core e) → table_ok r → table_ok (with_entry f id r).
Proof.
  intros Hf [H1 H2 H3 H4 H5].
  assert (Hl : ∀ id' e, alter f id (jobs r) !! id' = Some e → ∃ e0, jobs r !! id' = Some e0 ∧ je_core e = je_core e0).
  { intros id' e H. destruct (decide (id = id')) as [->|Hne].
    - rewrite lookup_alter_eq in H. apply fmap_Some in H as (e0 & H & ->). by exists e0.
    - rewrite lookup_alter_ne in H by done. by exists e. }
  split; cbn; [done|..].
  - intros id' e (e0 & He & ->)%Hl. by eapply H2.
  - intros id' e (e0 & He & ->)%Hl. by eapply H3.
  - intros id' Hid. destruct (H4 id' Hid) as (e & He & Hr). destruct (decide (id = id')) as [->|Hne].
    + exists (f e). rewrite lookup_alter_eq, He, Hf. done.
    + exists e. by rewrite lookup_alter_ne.
  - intros id' job Hid. specialize (H5 id' job Hid). destruct (decide (id = id')) as [->|Hne]; [by rewrite lookup_alter_eq, H5|by rewrite lookup_alter_ne].
Qed.

Lemma foldr_delete {A : Type} (l : list JobId) (m : gmap JobId A) k :
  foldr delete m l !! k = if decide (k ∈ l) then None else m !! k.
Proof.
  induction l as [|x l IH]; cbn [foldr]; [by rewrite decide_False by apply not_elem_of_nil|].
  destruct (decide (x = k)) as [->|Hne].
  - rewrite lookup_delete_eq, decide_True; [done|by left].
  - rewrite lookup_delete_ne, IH by done. apply decide_ext. set_solver.
Qed.

Lemma reap_lookup now max_age r id :
  jobs (fst (reap_finished now max_age r)) !! id =
    match jobs r !! id with Some e => if reapable now max_age e then None else Some e | None => None end.
Proof.
  unfold reap_finished. cbn [fst jobs]. rewrite foldr_delete.
  assert (Hin : id ∈ map fst (List.filter (λ x, reapable now max_age (snd x)) (map_to_list (jobs r))) ↔
    ∃ e, jobs r !! id = Some e ∧ reapable now max_age e = true).
  { rewrite list_elem_of_In, in_map_iff. split.
    - intros ([id' e] & <- & [Hx Hr]%filter_In). exists e. split; [|done]. by apply elem_of_map_to_list, list_elem_of_In.
    - intros (e & He & Hr). exists (id, e). split; [done|]. apply filter_In. split; [|done]. by apply list_elem_of_In, elem_of_map_to_list. }
  case_decide as Hd; rewrite Hin in Hd.
  - destruct Hd as (e & -> & ->). done.
  - destruct (jobs r !! id) as [e|] eqn:He; [|done]. destruct (reapable now max_age e) eqn:Hr; [|done]. destruct Hd. by exists e.
Qed.

Lemma reapable_terminal now max_age e : core_ok (je_core e) → reapable now max_age e = true → jc_state (je_core e) ≠ Running.
Proof. unfold core_ok, reapable. intros H Hr Hs. rewrite Hs in H. destruct H as (_ & _ & _ & H). by rewrite H in Hr. Qed.

Lemma singleton_only {A : Type} (id k : JobId) (ph v : A) : ({[id := ph]} : gmap JobId A) !! k = Some v → k = id ∧ v = ph.
Proof. intros [-> ->]%lookup_singleton_Some. done. Qed.

Lemma table_ok_step r r' : table_ok r → step r r' → table_ok r'.
Proof.
  intros Hok Hs. pose proof Hok as [H1 H2 H3 H4 H5]. destruct Hs as
    [id job r' Hj Ht Hv Ha|id job now_str Ht|id p Ht|id now_str instant outcome Ht|id Ht|ws id|id|now max_age].
  - unfold try_acquire in Ha. destruct (permits r) as [|n] eqn:Hp; [done|]. injection Ha as <-.
    destruct H1 as [[Hp1 He]|[Hp1 _]]; [|congruence]. injection Hp1 as ->. rewrite He in *. split; cbn.
    + right. split; [done|]. by exists id, (Permitted job).
    + done.
    + intros id' e He' Hr. by specialize (H3 id' e He' Hr).
    + intros id' Hx. apply singleton_only in Hx as [_ ?]. done.
    + intros id' job' Hx. by apply singleton_only in Hx as [-> _].
  - destruct H1 as [[_ He]|[Hp (id0 & ph & He)]]; [by rewrite He in Ht|]. rewrite He in *.
    apply singleton_only in Ht as [-> <-]. unfold insert_entry. rewrite He, insert_singleton_eq. split; cbn.
    + right. split; [done|]. by exists id0, Working.
    + intros id' e Hx. destruct (decide (id0 = id')) as [->|Hne]; [rewrite lookup_insert_eq in Hx; by injection Hx as <-|rewrite lookup_insert_ne in Hx by done; by eapply H2].
    + intros id' e Hx Hr. destruct (decide (id0 = id')) as [->|Hne]; [by rewrite lookup_singleton_eq|].
      rewrite lookup_insert_ne in Hx by done. specialize (H3 id' e Hx Hr). by apply singleton_only in H3 as [-> _].
    + intros id' [-> _]%singleton_only. eexists. by rewrite lookup_insert_eq.
    + intros id' job' [_ H]%singleton_only. done.
  - by apply with_entry_ok.
  - destruct (H4 id Ht) as (e & He & Hr). destruct H1 as [[_ Hx]|[Hp (id0 & ph & Hx)]]; [by rewrite Hx in Ht|]. rewrite Hx in *.
    apply singleton_only in Ht as [-> <-]. unfold record_outcome. rewrite Hx, insert_singleton_eq. split; cbn.
    + right. split; [done|]. by exists id0, Recorded.
    + intros id' e' Hl. destruct (decide (id0 = id')) as [->|Hne].
      * rewrite lookup_alter_eq, He in Hl. injection Hl as <-. cbn. apply finished_core_ok; [done|by eapply H2].
      * rewrite lookup_alter_ne in Hl by done. by eapply H2.
    + intros id' e' Hl Hr'. destruct (decide (id0 = id')) as [->|Hne].
      * rewrite lookup_alter_eq, He in Hl. injection Hl as <-. cbn in Hr'. exfalso. revert Hr'. apply finished_core_ok; [done|by eapply H2].
      * rewrite lookup_alter_ne in Hl by done. specialize (H3 id' e' Hl Hr'). by apply singleton_only in H3 as [-> _].
    + intros id' [_ H]%singleton_only. done.
    + intros id' job' [_ H]%singleton_only. done.
  - destruct H1 as [[_ Hx]|[Hp (id0 & ph & Hx)]]; [by rewrite Hx in Ht|]. rewrite Hx in *.
    apply singleton_only in Ht as [-> <-]. unfold drop_permit. rewrite Hx, Hp, delete_singleton_eq. split; cbn.
    + by left.
    + done.
    + intros id' e He Hr. specialize (H3 id' e He Hr). by apply singleton_only in H3 as [_ ?].
    + done.
    + done.
  - unfold cancel. destruct (lookup_for_workspace ws id r); [by apply with_entry_ok|done].
  - unfold shut_down_one. destruct (jobs r !! id) as [e|]; [|done]. destruct (running e); [by apply with_entry_ok|done].
  - split.
    + done.
    + intros id e He. rewrite reap_lookup in He. destruct (jobs r !! id) as [e0|] eqn:E; [|done]. destruct (reapable _ _ e0); [done|]. injection He as <-. by eapply H2.
    + intros id e He. rewrite reap_lookup in He. destruct (jobs r !! id) as [e0|] eqn:E; [|done]. destruct (reapable _ _ e0); [done|]. injection He as <-. by eapply H3.
    + intros id Hid. destruct (H4 id Hid) as (e & He & Hr). exists e. rewrite reap_lookup, He. destruct (reapable now max_age e) eqn:Hre; [|done].
      exfalso. by eapply reapable_terminal; [eapply H2| |].
    + intros id job Hid. by rewrite reap_lookup, (H5 id job Hid).
Qed.

Lemma table_ok_reachable r : reachable r → table_ok r.
Proof.
  intros Hr. cut (∀ a, rtc step a r → table_ok a → table_ok r).
  { intros H. apply (H JobRegistry_new); [exact Hr|]. split; cbn; [by left|intros ? ?; by rewrite lookup_empty..|intros ?; by rewrite lookup_empty|intros ? ?; by rewrite lookup_empty]. }
  clear Hr. intros a Ha. induction Ha as [|a b c Hab _ IH]; [done|]. intros H. by apply IH, (table_ok_step a).
Qed.

Lemma one_running r id id' e e' : table_ok r → jobs r !! id = Some e → jobs r !! id' = Some e' →
  running e = true → running e' = true → id = id'.
Proof.
  intros [H1 _ H3 _ _] He He' Hr%bool_decide_eq_true Hr'%bool_decide_eq_true.
  pose proof (H3 _ _ He Hr) as Ht. pose proof (H3 _ _ He' Hr') as Ht'.
  destruct H1 as [[_ Hx]|(_ & id0 & ph & Hx)]; rewrite Hx in Ht, Ht'; [done|].
  apply singleton_only in Ht as [-> _]. by apply singleton_only in Ht' as [-> _].
Qed.

Lemma at_most_one {A : Type} (l : list A) : NoDup l → (∀ x y, x ∈ l → y ∈ l → x = y) → List.length l ≤ 1.
Proof.
  intros Hnd H. destruct l as [|x [|y l]]; cbn; [lia..|]. exfalso.
  apply NoDup_cons in Hnd as [Hx _]. apply Hx. rewrite (H x y); [by left|by left|by right; left].
Qed.

Lemma active_count_le r : table_ok r → active_count r ≤ 1 ∧ (active_count r = 1 → permits r = 0).
Proof.
  intros Hok. unfold active_count. set (l := List.filter _ _).
  assert (Hin : ∀ x, x ∈ l → jobs r !! fst x = Some (snd x) ∧ running (snd x) = true).
  { intros [id e] [Hx Hr]%list_elem_of_In%filter_In. split; [by apply elem_of_map_to_list, list_elem_of_In|done]. }
  split.
  - apply at_most_one.
    + unfold l. apply NoDup_ListNoDup, List.NoDup_filter, NoDup_ListNoDup, NoDup_map_to_list.
    + intros [id e] [id' e'] [He Hr]%Hin [He' Hr']%Hin. cbn in *.
      pose proof (one_running r id id' e e' Hok He He' Hr Hr') as ->. congruence.
  - intros Hone. destruct l as [|[id e] l']; [done|]. destruct (Hin (id, e)) as [He Hr]; [by left|]. cbn in *.
    apply bool_decide_eq_true in Hr. pose proof (tb_running _ Hok _ _ He Hr) as Ht.
    destruct (tb_permits _ Hok) as [[_ Hx]|[Hp _]]; [by rewrite Hx in Ht|done].
Qed.

(** What a step may do to an entry that is not being removed. *)
Definition evolves (e e' : JobEntry) : Prop :=
  je_workspace_id e' = je_workspace_id e ∧ je_started_at e' = je_started_at e ∧
  (je_cancel e = true → je_cancel e' = true) ∧
  (jc_state (je_core e) ≠ Running → je_core e' = je_core e).

Lemma evolves_refl e : evolves e e.
Proof. done. Qed.

Lemma with_entry_evolves f id r k e : (∀ e, evolves e (f e)) → jobs r !! k = Some e →
  ∃ e', jobs (with_entry f id r) !! k = Some e' ∧ evolves e e'.
Proof.
  intros Hf He. cbn. destruct (decide (id = k)) as [->|Hne].
  - exists (f e). by rewrite lookup_alter_eq, He.
  - exists e. by rewrite lookup_alter_ne.
Qed.

Lemma step_evolves r r' id e : table_ok r → step r r' → jobs r !! id = Some e →
  (∃ e', jobs r' !! id = Some e' ∧ evolves e e') ∨ jobs r' !! id = None ∧ jc_state (je_core e) ≠ Running.
Proof.
  intros Hok Hs He. destruct Hs as
    [k job r' Hj Ht Hv Ha|k job now_str Ht|k p Ht|k now_str instant outcome Ht|k Ht|ws k|k|now max_age].
  - left. unfold try_acquire in Ha. destruct (permits r); [done|]. injection Ha as <-. by exists e.
  - left. exists e. split; [|done]. cbn. rewrite lookup_insert_ne; [done|]. intros ->. by rewrite (tb_admitted _ Hok _ _ Ht) in He.
  - left. by apply with_entry_evolves.
  - left. destruct (tb_working _ Hok _ Ht) as (e0 & He0 & Hr). cbn. destruct (decide (k = id)) as [->|Hne].
    + eexists. rewrite lookup_alter_eq, He. split; [reflexivity|]. split_and!; cbn; try done. intros Hn. congruence.
    + exists e. by rewrite lookup_alter_ne.
  - left. by exists e.
  - left. unfold cancel. destruct (lookup_for_workspace _ _ _); [by apply with_entry_evolves|by exists e].
  - left. unfold shut_down_one. destruct (jobs r !! k) as [e0|]; [|by exists e]. destruct (running e0); [by apply with_entry_evolves|by exists e].
  - rewrite reap_lookup, He. destruct (reapable now max_age e) eqn:Hr; [right|left; by exists e].
    split; [done|]. eapply reapable_terminal; [by eapply tb_core|done].
Qed.

Lemma spawn_admitted now_str id job r : permits r = 1 → validate_training_cfg (tj_training_cfg job) = Ok tt →
  jobs r !! id = None → tasks r !! id = None →
  snd (spawn now_str id job r) = Ok id ∧ rtc step r (fst (spawn now_str id job r)).
Proof.
  intros Hp Hv Hj Ht. unfold spawn. rewrite Hv. destruct (try_acquire id job r) as [r1|] eqn:Ha.
  - split; [done|]. cbn. eapply rtc_l; [by eapply step_acquire|]. eapply rtc_l; [|apply rtc_refl].
    apply step_insert. unfold try_acquire in Ha. rewrite Hp in Ha. injection Ha as <-. cbn. by rewrite lookup_insert_eq.
  - unfold try_acquire in Ha. by rewrite Hp in Ha.
Qed.

Lemma shut_down_each_flag ids r n id e :
  (id ∈ ids ∨ ∀ e0, jobs r !! id = Some e0 → running e0 = true → je_cancel e0 = true) →
  jobs (fst (shut_down_each ids r n)) !! id = Some e → running e = true → je_cancel e = true.
Proof.
  revert r n. induction ids as [|k ids IH]; intros r n Hin; cbn [shut_down_each].
  { destruct Hin as [[]%elem_of_nil|Hin]; cbn. intros He. by apply Hin. }
  destruct (shut_down_one k r) as [r1 newly] eqn:E. apply IH.
  assert (Hflag : ∀ e0, jobs r1 !! id = Some e0 → running e0 = true →
    (k = id ∨ ∀ e1, jobs r !! id = Some e1 → running e1 = true → je_cancel e1 = true) → je_cancel e0 = true).
  { intros e0 He0 Hr0 Hk. unfold shut_down_one in E. destruct (jobs r !! k) as [ek|] eqn:Ek.
    - destruct (running ek) eqn:Hrk; injection E as <- <-.
      + cbn in He0. destruct (decide (k = id)) as [->|Hne]; [rewrite lookup_alter_eq, Ek in He0; by injection He0 as <-|].
        rewrite lookup_alter_ne in He0 by done. destruct Hk as [?|Hk]; [done|by apply Hk].
      + destruct Hk as [->|Hk]; [congruence|by apply Hk].
    - injection E as <- <-. destruct Hk as [->|Hk]; [congruence|by apply Hk]. }
  destruct Hin as [[->|Hin]%elem_of_cons|Hin]; [right|by left|right]; intros e0 He0 Hr0; apply Hflag; auto.
Qed.

(** ** Properties *)


(** The list of a workspace's jobs: its entries, ordered by the text of their
    start times. *)
Lemma list_for_workspace_spec ws entries :
  Sorted started_le (list_for_workspace ws entries) ∧
  list_for_workspace ws entries ≡ₚ map (λ '(id, e), view id e) (List.filter (λ '(_, e), bool_decide (je_workspace_id e = ws)) entries).
Proof.
  split; [|apply merge_sort_Permutation]. apply Sorted_merge_sort. intros x y. apply str_le_total.
Qed.

(** A request names its own workspace's jobs only. *)
Lemma cancel_outcome ws id r :
  match cancel ws id r with
  | (r', Ok _) => (∃ e, jobs r !! id = Some e ∧ je_workspace_id e = ws) ∧ r' = with_entry set_cancel id r
  | (r', Err e) => r' = r ∧
      match jobs r !! id with None => e = TR_JobNotFound (JobId_display id) | Some en => je_workspace_id en ≠ ws ∧ e = TR_WrongWorkspace (JobId_display id) (WorkspaceId_display ws) end
  end.
Proof.
  unfold cancel, lookup_for_workspace. destruct (jobs r !! id) as [e|]; [|done]. case_decide; [|done]. split; [by exists e|done].
Qed.
End TrainJobs.

(** RFC 3339 texts drop trailing zeros of the fraction, so their order is not the
    order of the times: half a second past comes after 51 hundredths. *)
Example start_times_out_of_order :
  str_leb "2026-01-01T00:00:00.51Z" "2026-01-01T00:00:00.5Z" = true ∧
  str_leb "2026-01-01T00:00:00.5Z" "2026-01-01T00:00:00.51Z" = false.
Proof. split; reflexivity. Qed.

(** One job runs; a second one is refused. *)
Section TrainJobsWitness.
#[local] Existing Instance text_uuid_lib.

Definition four_epochs : TrainingCfg := mkTrainingCfg 4 16 (f32_div f32_one (f32_of_int 1000)) (Some 42%Z) f32_zero.
Definition first_id : JobId := mkJobId ("j1"%string : Uuid).
Definition second_id : JobId := mkJobId ("j2"%string : Uuid).
Definition some_job : TrainingJob :=
  mkTrainingJob (mkWorkspaceId ("w"%string : Uuid)) (mkHeadId ("h"%string : Uuid)) (mkWorkspaceRevision 0 "t") four_epochs ["backbone.mpk"]%string.
Definition one_job : JobRegistry := fst (spawn (λ _, ""%string) "t" first_id some_job JobRegistry_new).

Lemma one_job_reachable : reachable one_job.
Proof. apply (spawn_admitted (λ _, ""%string) "t" first_id some_job JobRegistry_new); reflexivity. Qed.

End TrainJobsWitness.
