(* ===== verification/TrainRun.v ===== *)
(** * Training jobs: one run ([src/modules/training.rs])

    [run_job] and its log, from the dataset's root through the fine-tune to the
    publication of the head in the workspace's rotation, and the route that starts
    a job.  The first section is shared with [ConvertRun]: programs over a state
    that contains the disk and the workspace manager; the rules for them and for a
    job that publishes one head come before the facts of a training run.  A run
    threads the job's environment ([FinetuneTrain.Job]) and the
    workspace manager; its temporary directory is removed when it ends, however it
    ends. *)

From Stdlib Require Import SpecFloat.
From S2P Require Import Prelude Ids HeadHeader AssetPath Common Text Workspace Broadcast JobRegistry FileSystem FsLogic FsAtomic Schema Mgr HeadRotation ActiveHead Staging StagingFacts FsRun AssetTree Recovery ActiveRecovery RecoveryFacts RecoverySafety ActiveFacts ActiveBoot WorkspaceRegistry HotHead F32 F32Facts Resample MicTypes Preproc WavIo WavIoFacts Config RequestPayload ApiErrors Finetune FinetuneScan FinetuneTrain FinetuneRuns FinetunePublish FinetuneExamples TrainJobs.

Local Open Scope nat_scope.

(** ** Jobs over a state with a disk *)

(** A state that contains the world. *)
Class WorldOf (St : Type) := { get_world : St → World; put_world : World → St → St }.

Definition StateM (St E A : Type) : Type := St → St * outcome E A.

#[export] Typeclasses Opaque StateM.
#[export] Instance StateM_ret St E : MRet (StateM St E) := λ A a s, (s, Ret a).
#[export] Instance StateM_bind St E : MBind (StateM St E) := λ A B f m s,
  match m s with
  | (s, Ret a) => f a s
  | (s, Throw e) => (s, Throw e)
  | (s, Crash) => (s, Crash)
  end.

Definition fails_with {St E A : Type} (e : E) : StateM St E A := λ s, (s, Throw e).

(** I/O. *)
Definition io `{WorldOf St} {E A : Type} (m : M E A) : StateM St E A := λ s,
  let '(w, r) := m (get_world s) in (put_world w s, r).

(** [m], then [last] on its state and how it ended, whose own failure changes
    nothing. *)
Definition finally `{WorldOf St} {E A : Type} (last : St → result E A → M E unit) (m : StateM St E A) : StateM St E A := λ s,
  let close s r o := match last s r (get_world s) with (w, Crash) => (put_world w s, Crash) | (w, _) => (put_world w s, o) end in
  match m s with
  | (s, Ret a) => close s (Ok a) (Ret a)
  | (s, Throw e) => close s (Err e) (Throw e)
  | (s, Crash) => (s, Crash)
  end.

(** A state that contains the workspace manager too, and a call of it. *)
Section Manager.
Context `{U : UuidLib} `{JC : !Json WorkspaceCore} `{JH : !Json HeadIndex} `{B : !Broadcast RegistryEvent}.

Class MgrOf (St : Type) := { get_mgr : St → WorkspaceMgr; put_mgr : WorkspaceMgr → St → St }.

Definition manager `{W : WorldOf St} `{MO : MgrOf St} {E A : Type} (wrap : FileError → E)
    (call : WorkspaceMgr → M FileError (WorkspaceMgr * result FileError A)) : StateM St E A := λ s,
  match call (get_mgr s) (get_world s) with
  | (w, Ret (mgr, Ok a)) => (put_mgr mgr (put_world w s), Ret a)
  | (w, Ret (mgr, Err e)) => (put_mgr mgr (put_world w s), Throw (wrap e))
  | (w, Throw e) => (put_world w s, Throw (wrap e))
  | (w, Crash) => (put_world w s, Crash)
  end.

Class MgrLaws `(W : WorldOf St) `(MO : !MgrOf St) := {
  get_put_mgr m s : get_mgr (put_mgr m s) = m;
  get_mgr_put w s : get_mgr (put_world w s) = get_mgr s;
  get_world_put m s : get_world (put_mgr m s) = get_world s;
}.
End Manager.

(** ** The log *)

Record LogLine := mkLogLine {
  ll_seq : Z;
  ll_at : string;
  ll_state : string;
  ll_progress : option Z;
  ll_message : option (list ascii);
}.

(** [OpenOptions::new().create(true).append(true).open(p)]. *)
Definition open_append (p : path) : M IoKind unit :=
  syscall (λ d, match stat p d with
                | Some (File _ _) => (d, Ok tt)
                | Some _ => (d, Err IoOther)
                | None => if parent_ok p d then (add_op (OpSet p (File [] false)) d, Ok tt)
                          else (d, Err IoNotFound)
                end).

(** [tempfile::tempdir_in(dir)]. *)
Definition new_tempdir_in `{T : TempLib} (dir : path) : M IoKind path := λ w,
  let tmp := dir ++ [temp_name (visible (disk w)) dir] in
  (_ ← mkdir_one tmp; mret tmp) w.

Record TrainJobLog := mkTrainJobLog { tl_file : path; tl_seq : Z }.

Section TrainRun.
Context `{H : Hound} `{R : Rubato} `{L : Libm} `{FFT : RealFft} `{N : TrainLib} `{T : TempLib} `{U : UuidLib} `{SH : Sha256Lib}.
Context `{JC : !Json WorkspaceCore} `{JH : !Json HeadIndex} `{JM : !Json HeadManifest} `{JL : !Json LogLine}.
Context `{B : !Broadcast RegistryEvent}.
Variable window : list f32.
Variable splits : list (path * nat) → list (list (path * nat)).
Variable late : path → bool.
Variable root : path.
(** The wall clock's texts, and the text an error is rendered to. *)
Variables (started_at terminal_at created_at : string) (to_string : TrainingError → list ascii).

(** [TrainJobLog::open]. *)
Definition TrainJobLog_open (workspace_dir : path) (job_id : JobId) : M TrainingError TrainJobLog :=
  let dir := workspace_dir ++ [TRAINING_LOGS_DIR_NAME] in
  _ ← map_throw (λ _, TR_Io (display dir)) (create_dir_all dir);
  let p := dir ++ [(JobId_display job_id ++ ".jsonl")%string] in
  _ ← map_throw (λ _, TR_Io (display p)) (open_append p);
  mret (mkTrainJobLog p 0).

(** [TrainJobLog::event]; the log with the next number, and the write. *)
Definition next_seq (log : TrainJobLog) : TrainJobLog := mkTrainJobLog (tl_file log) (sat_add64 (tl_seq log) 1).
Definition TrainJobLog_event (log : TrainJobLog) (now : string) (state : string) (progress : option Z) (message : option (list ascii))
    : M TrainingError unit :=
  let line := mkLogLine (tl_seq (next_seq log)) now state progress (truncate_log_message <$> message) in
  match to_vec line with
  | None => throw (TR_Io "<training_logs>")
  | Some bytes => map_throw (λ _, TR_Io "<training_logs>") (write_file (tl_file log) (bytes ++ [lf]))
  end.

(** ** The run's state *)

Record RunState := mkRunState { rs_job : Job; rs_mgr : WorkspaceMgr }.

Definition rs_world (s : RunState) : World := job_world (rs_job s).
Definition set_world (w : World) (s : RunState) : RunState :=
  mkRunState (mkJob w (job_polls (rs_job s)) (job_events (rs_job s))) (rs_mgr s).

#[export] Instance RunState_world : WorldOf RunState := {| get_world := rs_world; put_world := set_world |}.
Abbreviation RunM := (StateM RunState TrainingError).

#[export] Instance RunState_mgr : MgrOf RunState := {| get_mgr := rs_mgr; put_mgr := λ mgr s, mkRunState (rs_job s) mgr |}.

(** A failed call of the manager, and a fine-tune. *)

Definition from_file (e : FileError) : TrainingError := TR_Fs (FsError_from_file e).

Definition finetune (cfg : FinetuneConfig) (head_id : HeadId) : RunM FinetuneOutput := λ s,
  let '(j, r) := run window splits late cfg head_id (rs_job s) in
  (mkRunState j (rs_mgr s), match r with Ret o => Ret o | Throw e => Throw (TrainingError_from_finetune e) | Crash => Crash end).

(** [if cancel.load(..) { return Err(Cancelled) }]. *)
Definition check_cancelled : RunM unit := λ s,
  let j := rs_job s in
  let s' := mkRunState (mkJob (job_world j) (tail (job_polls j)) (job_events j)) (rs_mgr s) in
  if default false (head (job_polls j)) then (s', Throw TR_Cancelled) else (s', Ret tt).

(** The temporary directory is removed when its guard is dropped. *)
Definition with_tempdir {A : Type} (tmp : path) : RunM A → RunM A := finally (λ _ _, best_effort (fs_remove_dir_all tmp)).

(** ** [run_job] *)

Definition finetune_config (job : TrainingJob) (dataset_root out : path) : FinetuneConfig :=
  let cfg := tj_training_cfg job in
  mkFinetuneConfig dataset_root (tj_backbone_path job) None out (tc_epochs cfg) (tc_batch_size cfg) (tc_learning_rate cfg)
    (tc_validation_split cfg) (default 42%Z (tc_seed cfg)).

(** From the fine-tune's output to the published head. *)
Definition publish_output (job : TrainingJob) (output : FinetuneOutput) : RunM TrainingResult :=
  let mpk := fo_head_mpk output in
  head_sha256 ← io (map_throw TR_File (sha256_file_streaming mpk));
  md ← io (map_throw (λ _, TR_Io (display mpk)) (symlink_metadata mpk));
  let size_bytes := match md with File c _ => Z.of_nat (List.length c) | _ => 0%Z end in
  let n := Z.of_nat (List.length (fo_classes output)) in
  if (u32_max <? n)%Z then fails_with (TR_InvalidConfig "trained head exceeds the u32 cap")
  else
  let manifest := mkHeadManifest (tj_head_id job) (tj_workspace_id job) (tj_workspace_revision job) head_sha256 n size_bytes
    created_at (fo_classes output) in
  _ ← manager from_file (publish_trained_head_for_workspace root (tj_workspace_id job) (mkPendingHead (tj_head_id job) mpk manifest));
  mret (mkTrainingResult (tj_head_id job) head_sha256 n (fo_classes output) (fo_final_train_acc output) (fo_final_val_acc output)).

Definition summary_call (ws : WorkspaceId) (mgr : WorkspaceMgr) : M FileError (WorkspaceMgr * result FileError WorkspaceSummary) :=
  x ← summary root ws (mgr_caches mgr);
  mret (mkWorkspaceMgr (mgr_jobs mgr) (fst x), snd x).

(** [fresh] is the identifier the fine-tune mints for its own output, which a job
    does not use. *)
Definition run_job_inner (job : TrainingJob) (fresh : HeadId) : RunM TrainingResult :=
  let workspace := tj_workspace_id job in
  let ws_dir := workspace_dir_for root workspace in
  _ ← manager from_file (summary_call workspace);
  let dataset_root := ws_dir ++ [DATASETS_DIR_NAME] in
  md ← io (map_throw (λ _, TR_Io (display dataset_root)) (symlink_metadata dataset_root));
  match md with
  | Dir =>
      let tmpdir := ws_dir ++ [ROOT_TMP_DIR_NAME] in
      _ ← io (map_throw (λ _, TR_Io (display tmpdir)) (create_dir_all tmpdir));
      output_temp ← io (map_throw (λ _, TR_Io (display tmpdir)) (new_tempdir_in tmpdir));
      with_tempdir output_temp (
        _ ← check_cancelled;
        output ← finetune (finetune_config job dataset_root (output_temp ++ [(HeadId_display (tj_head_id job) ++ ".mpk")%string])) fresh;
        _ ← check_cancelled;
        publish_output job output)
  | _ => fails_with (TR_InvalidConfig "dataset root is not a directory")
  end.

(** The terminal line of a result. *)
Definition terminal_state {A : Type} (r : result TrainingError A) : string * option (list ascii) :=
  match r with
  | Ok _ => ("completed"%string, None)
  | Err TR_Cancelled => ("cancelled"%string, None)
  | Err e => ("failed"%string, Some (to_string e))
  end.

(** [m], then the terminal line; a failed write is only traced. *)
Definition with_terminal_line {A : Type} (log : TrainJobLog) : RunM A → RunM A := finally (λ _ r,
  let '(state, message) := terminal_state r in
  best_effort (TrainJobLog_event (next_seq log) terminal_at state None message)).

Definition run_job (job : TrainingJob) (job_id : JobId) (fresh : HeadId) : RunM TrainingResult :=
  log ← io (TrainJobLog_open (workspace_dir_for root (tj_workspace_id job)) job_id);
  _ ← io (TrainJobLog_event log started_at "started" None None);
  with_terminal_line log (run_job_inner job fresh).

(** ** [start_training] ([api/routes/training.rs]) *)

(** The text a [ValidationError] is rendered to. *)
Variable validation_text : ValidationError → string.

Definition start_training (ws : WorkspaceId) (cfg : TrainingCfg) (training_backbone_path : option path) (head_id : HeadId) (job_id : JobId)
    (now_str : string) (table : TrainJobs.JobRegistry) (mgr : WorkspaceMgr)
    : M FileError (TrainJobs.JobRegistry * WorkspaceMgr * result ApiError (HeadId * JobId)) :=
  match validate_training_cfg cfg with
  | Err e => mret (table, mgr, Err (API_Bad (validation_text e)))
  | Ok _ =>
      match training_backbone_path with
      | None => mret (table, mgr, Err (API_File (FE_Io "<launch.backbone.candidates[kind=burn]>" IoNotFound)))
      | Some backbone =>
          is_file ← path_is_file backbone;
          if negb is_file then mret (table, mgr, Err (API_File (io_err backbone IoNotFound)))
          else
          x ← summary_call ws mgr;
          match x with
          | (mgr, Err e) => mret (table, mgr, Err (API_Fs (FsError_from_file e)))
          | (mgr, Ok s) =>
              let job := mkTrainingJob ws head_id (core_revision (ws_core s)) cfg backbone in
              match spawn validation_text now_str job_id job table with
              | (table, Err e) => mret (table, mgr, Err (API_Training e))
              | (table, Ok id) => mret (table, mgr, Ok (head_id, id))
              end
          end
      end
  end.

(** The list and one job of it, and its cancellation. *)
Definition list_training (ws : WorkspaceId) (entries : list (JobId * TrainJobs.JobEntry)) (mgr : WorkspaceMgr)
    : M FileError (WorkspaceMgr * result ApiError (list JobView)) :=
  x ← summary_call ws mgr;
  mret (match x with
        | (mgr, Err e) => (mgr, Err (classify_workspace_existence_error ws (FsError_from_file e)))
        | (mgr, Ok _) => (mgr, Ok (list_for_workspace ws entries))
        end).

Definition get_training (ws : WorkspaceId) (job_id : JobId) (table : TrainJobs.JobRegistry) : result ApiError JobView :=
  map_err API_Training (status ws job_id table).

Definition cancel_training (ws : WorkspaceId) (job_id : JobId) (table : TrainJobs.JobRegistry) : TrainJobs.JobRegistry * result ApiError unit :=
  let '(table, r) := TrainJobs.cancel ws job_id table in (table, map_err API_Training r).
End TrainRun.

(** ** Beside the heads *)

(** The paths of a workspace other than its heads and its two metadata files. *)
Definition side (ws p : path) : Prop :=
  ∃ name q, p = ws ++ name :: q ∧ name ≠ HEADS_DIR_NAME ∧ name ≠ HEAD_INDEX_FILENAME ∧ name ≠ WORKSPACE_CORE_FILENAME.

Lemma side_below ws name q : name ≠ HEADS_DIR_NAME → name ≠ HEAD_INDEX_FILENAME → name ≠ WORKSPACE_CORE_FILENAME →
  side ws (ws ++ name :: q).
Proof. intros. by exists name, q. Qed.

Lemma side_app ws p q : side ws p → side ws (p ++ q).
Proof. intros (name & k & -> & Hn). exists name, (k ++ q). split; [by rewrite <-app_assoc|done]. Qed.

Lemma side_tmp ws q : side ws (ws ++ ROOT_TMP_DIR_NAME :: q).
Proof. by apply side_below. Qed.

(** A prefix of a path below the workspace is one of the workspace's or below
    the same name. *)
Lemma prefix_side ws name k (q : path) : q `prefix_of` ws ++ name :: k →
  q `prefix_of` ws ∨ ∃ j, q = ws ++ name :: j.
Proof.
  intros [r Hr]. destruct (decide (List.length q ≤ List.length ws)) as [Hl|Hl].
  - left. exists (drop (List.length q) ws). rewrite <-(take_drop (List.length q) ws) at 1. f_equal.
    apply (f_equal (take (List.length q))) in Hr. rewrite take_app_le, take_app_length in Hr by done. done.
  - right. assert (Hws : take (List.length ws) q = ws).
    { apply (f_equal (take (List.length ws))) in Hr. rewrite take_app_length, take_app_le in Hr by lia. done. }
    rewrite <-(take_drop (List.length ws) q) in Hr |- *. rewrite Hws in *. rewrite <-app_assoc in Hr. apply app_inv_head in Hr.
    destruct (drop (List.length ws) q) as [|x j] eqn:Ed; [apply (f_equal (@List.length _)) in Ed; rewrite length_drop in Ed; cbn in Ed; lia|].
    injection Hr as <- _. by exists j.
Qed.

Section Side.
Context `{UL : UuidLaws} `{JC : !Json WorkspaceCore} `{JH : !Json HeadIndex} `{JM : !Json HeadManifest}.

Lemma side_apart ws es x : (∀ e, e ∈ es → entry_ok e) → x ∈ dir_facts ws ++ file_facts ws es → ¬ side ws (fst x).
Proof.
  intros Hes Hx (name & q & Hp & Hn & _). apply elem_of_app in Hx as [Hx|Hx].
  - apply dir_facts_paths in Hx as [Hx|Hx].
    + rewrite Hx in Hp. apply app_inv_head in Hp. congruence.
    + apply (f_equal (@List.length _)) in Hp. rewrite length_app in Hp. cbn in Hp. lia.
  - apply file_facts_paths in Hx as (e & nm & _ & Hx & _); [|done]. rewrite Hx in Hp.
    unfold heads_dir in Hp. rewrite <-app_assoc in Hp. apply app_inv_head in Hp. cbn in Hp. congruence.
Qed.

Lemma side_not_index ws : ¬ side ws (head_index_path ws).
Proof. intros (name & q & Hp & _ & Hn & _). apply app_inv_head in Hp. congruence. Qed.
Lemma side_not_core ws : ¬ side ws (workspace_core_path ws).
Proof. intros (name & q & Hp & _ & _ & Hn). apply app_inv_head in Hp. congruence. Qed.
Lemma side_not_heads ws q : ¬ side ws (heads_dir ws ++ q).
Proof. intros (name & k & Hp & Hn & _). unfold heads_dir in Hp. rewrite <-app_assoc in Hp. apply app_inv_head in Hp. cbn in Hp. congruence. Qed.

(** What happens there leaves the heads as they are. *)
Lemma backed_side ws cell es : (∀ e, e ∈ es → entry_ok e) → stable (side ws) (backed ws cell es).
Proof.
  intros Hes.
  pose proof (no_moves_stable (side ws)) as S1.
  assert (S2 : stable (side ws) (facts (dir_facts ws ++ file_facts ws es))).
  { apply facts_stable, List.Forall_forall. intros x Hx%list_elem_of_In. by eapply side_apart. }
  pose proof (stable_exists_definite _ _ (λ b, from_slice b = Some (cell_heads cell)) (side_not_index ws)) as S3.
  pose proof (stable_exists_definite _ _ (λ b, from_slice b = Some (cell_core cell)) (side_not_core ws)) as S4.
  destruct S1, S2, S3, S4. split; intros; destruct H; split; eauto.
Qed.

Lemma consistent_outside (ws : path) (idx : HeadIndex) (m m' : fs) : (∀ p, ¬ side ws p → m !! p = m' !! p) → heads_consistent ws idx m → heads_consistent ws idx m'.
Proof.
  intros Hm ((b & Hb & Hb') & Hl & Hd & Hr & (c & core & Hc & Hc')).
  assert (Hh : ∀ name, m !! (heads_dir ws ++ [name]) = m' !! (heads_dir ws ++ [name])) by (intros name; apply Hm, side_not_heads).
  split_and!.
  - exists b. by rewrite <-(Hm _ (side_not_index ws)).
  - done.
  - rewrite <-Hm; [done|]. rewrite <-(app_nil_r (heads_dir ws)). apply side_not_heads.
  - intros r Hin. destruct (Hr r Hin) as [(mb & man & H1 & H2) (wb & H3)]. unfold head_manifest_path, head_artifact_path in *.
    rewrite Hh in H1, H3. split; eauto.
  - exists c, core. by rewrite <-(Hm _ (side_not_core ws)).
Qed.

Lemma old_or_new_side (ws : path) (a b : HeadIndex) : stable (side ws) (old_or_new ws a b).
Proof.
  apply (crash_stable (side ws) (λ img, heads_consistent ws a img ∨ heads_consistent ws b img)).
  intros m m' Hm [Hc|Hc]; [left|right]; by eapply consistent_outside.
Qed.

(** Making directories below the workspace, beside the heads. *)
Lemma mkdir_side ws cell es name q : name ≠ HEADS_DIR_NAME → name ≠ HEAD_INDEX_FILENAME → name ≠ WORKSPACE_CORE_FILENAME →
  (∀ e, e ∈ es → entry_ok e) →
  triple (backed ws cell es) (create_dir_all (ws ++ name :: q)) (λ _, backed ws cell es) (backed ws cell es) (backed ws cell es).
Proof.
  intros H1 H2 H3 Hes. apply (mkdir_triple _ (side ws)); [by apply backed_side|]. intros d p Hd Hp Hpre. cbn [app] in Hpre.
  apply prefix_side in Hpre as [Hpre|[j ->]]; [right|left; by apply side_below].
  apply (dirs_visible ws cell es d p Hd Hp). etransitivity; [exact Hpre|]. by exists [HEADS_DIR_NAME].
Qed.

(** Everything else that stays beside the heads. *)
Lemma confined_backed {E A : Type} ws cell es (c : M E A) : (∀ e, e ∈ es → entry_ok e) → confined (side ws) c →
  triple (backed ws cell es) c (λ _, backed ws cell es) (backed ws cell es) (backed ws cell es).
Proof.
  intros Hes Hc. eapply triple_conseq; [apply (Hc (backed ws cell es)), backed_side, Hes|..]; [|by intros ? ? []|by intros ? []..].
  intros d Hd. split; [by eapply ba_moves|done].
Qed.
End Side.

(** ** Reasoning about jobs *)

(** The errors that are not panics. *)
Class Sound (E : Type) := sound_error : E → Prop.

Class WorldLaws `(W : WorldOf St) := { get_put : ∀ w s, get_world (put_world w s) = w }.

Section Machine.
Context `{WL : WorldLaws St} `{SE : Sound E}.

Definition rt {A : Type} (P : St → Prop) (c : StateM St E A) (Q : A → St → Prop) (X C : St → Prop) : Prop :=
  ∀ s, P s → let '(s', r) := c s in
    match r with Ret a => Q a s' | Throw e => sound_error e ∧ X s' | Crash => C s' end.

Lemma rt_bind {A A' : Type} P (c : StateM St E A) (f : A → StateM St E A') Q Q' X C :
  rt P c Q X C → (∀ a, rt (Q a) (f a) Q' X C) → rt P (c ≫= f) Q' X C.
Proof.
  intros Hc Hf s Hs. specialize (Hc s Hs). unfold mbind, StateM_bind. destruct (c s) as [s1 [a|e|]]; [|done..]. by apply Hf.
Qed.

Lemma rt_then {A A' : Type} P (c : StateM St E A) (f : A → StateM St E A') (P1 : St → Prop) Q' X C :
  rt P c (λ _, P1) X C → (∀ a, rt P1 (f a) Q' X C) → rt P (c ≫= f) Q' X C.
Proof. apply rt_bind. Qed.

Lemma rt_ret {A : Type} (a : A) (P : St → Prop) Q X C : (∀ s, P s → Q a s) → rt P (mret a) Q X C.
Proof. intros HQ s Hs. by apply HQ. Qed.

Lemma rt_conseq {A : Type} (P P' : St → Prop) (c : StateM St E A) (Q Q' : A → St → Prop) (X X' C C' : St → Prop) :
  rt P' c Q' X' C' → (∀ s, P s → P' s) → (∀ a s, Q' a s → Q a s) → (∀ s, X' s → X s) → (∀ s, C' s → C s) → rt P c Q X C.
Proof.
  intros Hc HP HQ HX HC s Hs. specialize (Hc s (HP s Hs)). destruct (c s) as [s1 [a|e|]]; [by apply HQ|split; [apply Hc|apply HX, Hc]|by apply HC].
Qed.

Lemma rt_pure {A : Type} (φ : Prop) P (c : StateM St E A) Q X C : (φ → rt P c Q X C) → rt (λ s, φ ∧ P s) c Q X C.
Proof. intros Hc s [Hφ Hs]. by apply Hc. Qed.

Lemma rt_ex {A I : Type} (P : I → St → Prop) (c : StateM St E A) Q X C : (∀ i, rt (P i) c Q X C) → rt (λ s, ∃ i, P i s) c Q X C.
Proof. intros Hc s [i Hs]. by apply (Hc i). Qed.

Lemma rt_fails {A : Type} (e : E) (P : St → Prop) (Q : A → St → Prop) (X C : St → Prop) :
  sound_error e → (∀ s, P s → X s) → rt P (fails_with e) Q X C.
Proof. intros He HX s Hs. by split; [|apply HX]. Qed.

(** What the disk cannot change, and what the disk is. *)
Definition framed (F : St → Prop) (D : Disk → Prop) (s : St) : Prop := F s ∧ D (disk (get_world s)).
Definition apart (F : St → Prop) : Prop := ∀ w s, F s → F (put_world w s).

Definition throws_sound {A : Type} (m : M E A) : Prop := ∀ w e, snd (m w) = Throw e → sound_error e.

Lemma sound_map {E' A : Type} (f : E' → E) (m : M E' A) : (∀ k, sound_error (f k)) → throws_sound (map_throw f m).
Proof. intros Hf w e. unfold map_throw. destruct (m w) as [w' [a|k|]]; cbn; [done| |done]. by intros [= <-]. Qed.
Lemma sound_bind {A A' : Type} (m : M E A) (f : A → M E A') :
  throws_sound m → (∀ a, throws_sound (f a)) → throws_sound (m ≫= f).
Proof.
  intros Hm Hf w e. unfold mbind, M_bind. specialize (Hm w). destruct (m w) as [w' [a|k|]]; cbn in *; [apply Hf| |done].
  intros [= <-]. by apply Hm.
Qed.
Lemma sound_ret {A : Type} (a : A) : throws_sound (mret a).
Proof. done. Qed.

Lemma rt_framed {A : Type} F (m : M E A) D Q X C : apart F → triple D m Q X C → throws_sound m →
  rt (framed F D) (io m) (λ a, framed F (Q a)) (framed F X) (framed F C).
Proof.
  intros HF Hm Hs s [Hg Hd]. unfold io. specialize (Hm (get_world s) Hd). specialize (Hs (get_world s)). unfold framed.
  destruct (m (get_world s)) as [w' [a|e|]]; cbn [snd] in *; rewrite get_put; [split; [by apply HF|done]| |split; [by apply HF|done]].
  split; [by apply Hs|]. split; [by apply HF|done].
Qed.

(** A state that a program confined to [S] cannot leave. *)
Definition steady (S : path → Prop) (P : St → Prop) : Prop :=
  ∀ (E' : Type) (m : M E' unit) s, confined S m → P s → P (put_world (fst (m (get_world s))) s).

Lemma steady_framed S F (D : Disk → Prop) : apart F → stable S D → (∀ d, D d → no_moves d) → steady S (framed F D).
Proof.
  intros HF HD Hm E' m s Hc [Hg Hd]. split; [by apply HF|]. specialize (Hc D HD (get_world s) (conj (Hm _ Hd) Hd)). rewrite get_put.
  destruct (m (get_world s)) as [w' [a|e|]]; cbn [fst]; by destruct Hc.
Qed.

Lemma steady_ex {A : Type} S (P : A → St → Prop) : (∀ a, steady S (P a)) → steady S (λ s, ∃ a, P a s).
Proof. intros HP E' m s Hc [a Ha]. exists a. by apply HP. Qed.

Lemma steady_and S (φ : Prop) (P : St → Prop) : steady S P → steady S (λ s, φ ∧ P s).
Proof. intros HP E' m s Hc [Hφ Ha]. split; [done|]. by apply HP. Qed.

Lemma rt_finally {A : Type} S (last : St → result E A → M E unit) (m : StateM St E A) P Q (X C : St → Prop) :
  (∀ s r, confined S (last s r)) → (∀ a, steady S (Q a)) → steady S X → (∀ a s, Q a s → C s) → (∀ s, X s → C s) →
  rt P m Q X C → rt P (finally last m) Q X C.
Proof.
  intros Hl HQ HX HQC HXC Hm s Hs. specialize (Hm s Hs). unfold finally. destruct (m s) as [s1 [a|e|]]; [| |done].
  - pose proof (HQ a E (last s1 (Ok a)) s1 (Hl s1 (Ok a)) Hm) as H1. pose proof (HQC a _ H1) as H2.
    destruct (last s1 (Ok a) (get_world s1)) as [w' [u|e|]]; done.
  - destruct Hm as [He Hm]. pose proof (HX E (last s1 (Err e)) s1 (Hl s1 (Err e)) Hm) as H1. pose proof (HXC _ H1) as H2.
    destruct (last s1 (Err e) (get_world s1)) as [w' [u|e'|]]; done.
Qed.
End Machine.

#[export] Instance TrainingError_sound : Sound TrainingError :=
  λ e, match e with TR_Finetune (FT_Panic _) => False | _ => True end.

(** *** A publication from a job *)

Section Publication.
Context `{UL : UuidLaws} `{TL : TempLaws} `{JC : !Json WorkspaceCore} `{JCL : !JsonLaws WorkspaceCore}.
Context `{JH : !Json HeadIndex} `{JHL : !JsonLaws HeadIndex} `{JM : !Json HeadManifest} `{JML : !JsonLaws HeadManifest}.
Context `{B : !Broadcast RegistryEvent}.

(** A manifest that does not serialize is refused before anything changes. *)
Lemma publish_unserializable ws cell es pending : to_vec (ph_manifest pending) = None →
  triple (backed ws cell es) (publish_trained_head ws cell pending) (λ _ _, False) (backed ws cell es) (backed ws cell es).
Proof.
  intros Hn. unfold publish_trained_head. destruct (negb _); [by apply triple_throw|].
  eapply triple_bind with (R := λ _, backed ws cell es); [intros w Hw; exact Hw|]. intros []; cbn [negb]; [|by apply triple_throw].
  eapply triple_bind with (R := λ _, backed ws cell es).
  { apply triple_map_throw. eapply triple_conseq; [apply (mkdir_prefixes_noop (backed ws cell es) [] (heads_dir ws))|done|done|done|done].
    intros d q Hd. cbn [app]. by eapply dirs_visible. }
  intros _. eapply triple_bind with (R := λ _ _, False); [unfold serialize; rewrite Hn; by apply triple_throw|]. by intros ? ? [].
Qed.

Lemma backed_old_or_new ws cell es idx d : entries_ok cell es → backed ws cell es d → old_or_new ws (cell_heads cell) idx d.
Proof. intros Hok Hd. split; [by eapply ba_moves|]. intros img Hi. left. by eapply (backed_old ws cell es d img). Qed.

(** Over a cached and durable workspace: the new head in disk and cache, or the
    manager as it was and the old index or the new one on disk. *)
Lemma publish_for_workspace root wid mg cell es pending blob w (ws := workspace_dir_for root wid) :
  mgr_caches mg !! wid = Some cell → entries_ok cell es → canonical_id (ph_head_id pending) →
  hm_head_id (ph_manifest pending) = ph_head_id pending → ph_head_id pending ∉ map entry_id es → HeadRotation.staged ws (ph_mpk_tempfile pending) →
  backed ws cell es (disk w) → visible (disk w) !! ph_mpk_tempfile pending = Some (File blob true) →
  let '(w', r) := (publish_trained_head_for_workspace root wid pending mg : M FileError _) w in
  match r with
  | Ret (mgr', Ok _) =>
      ∃ mb, to_vec (ph_manifest pending) = Some mb ∧ mgr' = mkWorkspaceMgr (mgr_jobs mg) (<[wid := published_cell cell pending]> (mgr_caches mg)) ∧
      workspace_ok ws (published_cell cell pending) (take MAX_HEADS_PER_WORKSPACE ((new_record (ph_manifest pending), (mb, blob)) :: es)) (disk w')
  | Ret (mgr', Err _) => mgr' = mg ∧ old_or_new ws (cell_heads cell) (published_index cell pending) (disk w')
  | _ => old_or_new ws (cell_heads cell) (published_index cell pending) (disk w')
  end.
Proof.
  intros Hcell Hok Hid Hman Hfresh Hst Hb Hv. unfold publish_trained_head_for_workspace, path_exists.
  unfold mbind at 1, M_bind at 1. cbv beta iota. change (workspace_dir root wid) with ws.
  assert (Hthere : bool_decide (is_Some (stat (workspace_core_path ws) (disk w))) = true).
  { apply bool_decide_eq_true. destruct (ba_core _ _ _ _ Hb) as (b & _ & Hd). unfold stat. rewrite (definite_visible _ _ _ Hd). eauto. }
  rewrite Hthere. cbn [negb]. unfold mbind, M_bind. rewrite (with_cell_cached _ _ _ _ _ _ Hcell). change (workspace_dir root wid) with ws.
  assert (Hsame : <[wid := cell]> (mgr_caches mg) = mgr_caches mg) by by apply insert_id.
  destruct (to_vec (ph_manifest pending)) as [mb|] eqn:Hmb.
  - pose proof (publish_triple ws cell es pending mb blob Hok Hid Hman Hfresh Hst w (conj Hb (conj Hv Hmb))) as Hp. cbv zeta in Hp.
    destruct (publish_trained_head ws cell pending w) as [w' [[res cell']|e|]]; cbn.
    + destruct Hp as [[= -> ->] Hk]. by exists mb.
    + split; [by rewrite Hsame; destruct mg|done].
    + done.
  - pose proof (publish_unserializable ws cell es pending Hmb w Hb) as Hp.
    destruct (publish_trained_head ws cell pending w) as [w' [[res cell']|e|]]; cbn; [done| |by eapply backed_old_or_new].
    split; [by rewrite Hsame; destruct mg|by eapply backed_old_or_new].
Qed.
End Publication.

(** *** A job that publishes one head *)

Section Job.
Context `{UL : UuidLaws} `{TL : TempLaws} `{JC : !Json WorkspaceCore} `{JCL : !JsonLaws WorkspaceCore}.
Context `{JH : !Json HeadIndex} `{JHL : !JsonLaws HeadIndex} `{JM : !Json HeadManifest} `{JML : !JsonLaws HeadManifest}.
Context `{B : !Broadcast RegistryEvent}.
Context `{WL : WorldLaws St} `{MO : !MgrOf St} `{ML : !MgrLaws W MO} `{SE : Sound E}.

(** The manager is not touched; the disk is as [D] says. *)
Definition frame (mg : WorkspaceMgr) (D : Disk → Prop) : St → Prop := framed (λ s, get_mgr s = mg) D.

Lemma rt_io {A : Type} mg (m : M E A) D Q X C : triple D m Q X C → throws_sound m →
  rt (frame mg D) (io m) (λ a, frame mg (Q a)) (frame mg X) (frame mg C).
Proof. intros Hm Hs. apply rt_framed; [|done..]. intros w s <-. apply get_mgr_put. Qed.

Lemma steady_frame S mg (D : Disk → Prop) : stable S D → (∀ d, D d → no_moves d) → steady S (frame mg D).
Proof. intros HD Hm. apply steady_framed; [|done..]. intros w s <-. apply get_mgr_put. Qed.

Variables (root : path) (wid : WorkspaceId) (head_id : HeadId) (manifest : list ascii → list string → HeadManifest).
Variables (mg : WorkspaceMgr) (cell : WorkspaceCacheCell) (es : list entry).
Let ws := workspace_dir_for root wid.
Hypothesis Hman : ∀ blob classes, hm_head_id (manifest blob classes) = head_id.
Hypothesis Hcell : mgr_caches mg !! wid = Some cell.
Hypothesis Hok : entries_ok cell es.
Hypothesis Hid : canonical_id head_id.
Hypothesis Hfresh : head_id ∉ map entry_id es.

Definition pending_of (out : path) (blob : list ascii) (classes : list string) : PendingHead := mkPendingHead head_id out (manifest blob classes).

(** The workspace after the publication: disk and cache hold the new head, then
    the previous ones cut to two. *)
Definition published_to (out : path) (blob mb : list ascii) (classes : list string) : St → Prop :=
  let pending := pending_of out blob classes in
  frame (mkWorkspaceMgr (mgr_jobs mg) (<[wid := published_cell cell pending]> (mgr_caches mg)))
    (workspace_ok ws (published_cell cell pending) (take MAX_HEADS_PER_WORKSPACE ((new_record (ph_manifest pending), (mb, blob)) :: es))).

(** Interrupted: the old index or the job's, each with its heads. *)
Definition cut_off (s : St) : Prop :=
  ∃ out blob classes, old_or_new ws (cell_heads cell) (published_index cell (pending_of out blob classes)) (disk (get_world s)).
Definition failed (s : St) : Prop := get_mgr s = mg ∧ cut_off s.

Lemma frame_failed s : frame mg (backed ws cell es) s → failed s.
Proof. intros [Hg Hd]. split; [done|]. exists [], [], []. by eapply backed_old_or_new. Qed.

Lemma workspace_ok_steady c l mg' : steady (side ws) (frame mg' (workspace_ok ws c l)).
Proof.
  intros E' m s Hc [Hg [He Hb]]. destruct (steady_frame (side ws) mg' (backed ws c l) (backed_side ws c l (eo_entries _ _ He)) (ba_moves ws c l) E' m s Hc (conj Hg Hb)) as [H1 H2].
  by split; [|split].
Qed.

Lemma failed_steady : steady (side ws) failed.
Proof.
  intros E' m s Hc [Hg (out & blob & classes & Hd)].
  destruct (steady_frame (side ws) mg _ (old_or_new_side ws _ _) (λ d H, proj1 H) E' m s Hc (conj Hg Hd)) as [H1 H2]. split; [done|]. by exists out, blob, classes.
Qed.

Lemma published_cut_off out blob mb classes s : published_to out blob mb classes s → cut_off s.
Proof.
  intros [_ [Hk Hb]]. exists out, blob, classes. split; [by eapply ba_moves|].
  intros img Hi. right. apply (backed_old ws (published_cell cell (pending_of out blob classes)) _ _ _ Hk Hb Hi).
Qed.

Lemma rt_publish out blob classes (wrap : FileError → E) :
  HeadRotation.staged ws out → (∀ e, sound_error (wrap e)) →
  rt (frame mg (λ d, backed ws cell es d ∧ visible d !! out = Some (File blob true)))
    (manager wrap (publish_trained_head_for_workspace root wid (pending_of out blob classes)))
    (λ _ s, ∃ mb, to_vec (manifest blob classes) = Some mb ∧ published_to out blob mb classes s) failed cut_off.
Proof.
  intros Hst Hw s [Hg [Hb Hv]]. unfold manager. rewrite Hg.
  pose proof (publish_for_workspace root wid mg cell es (pending_of out blob classes) blob (get_world s) Hcell Hok Hid (Hman _ _) Hfresh Hst Hb Hv) as Hp.
  cbv zeta in Hp. destruct (publish_trained_head_for_workspace root wid _ mg (get_world s)) as [w' [[mgr' [res|e]]|e|]].
  - destruct Hp as (mb & Hmb & -> & Hk). exists mb. split; [done|]. split; [apply get_put_mgr|]. by rewrite get_world_put, get_put.
  - destruct Hp as [-> Ho]. split; [done|]. split; [apply get_put_mgr|]. exists out, blob, classes. by rewrite get_world_put, get_put.
  - split; [done|]. split; [by rewrite get_mgr_put|]. exists out, blob, classes. by rewrite get_put.
  - exists out, blob, classes. by rewrite get_put.
Qed.

(** The head of a publication, in every tree a crash can leave. *)
Lemma published_in_place out blob mb classes s : published_to out blob mb classes s →
  mgr_caches (get_mgr s) = <[wid := published_cell cell (pending_of out blob classes)]> (mgr_caches mg) ∧
  ∀ img, crash_image (disk (get_world s)) img →
    heads_consistent ws (published_index cell (pending_of out blob classes)) img ∧ img !! head_artifact_path ws head_id = Some (File blob true).
Proof.
  intros [Hg [Hk Hb]]. split; [by rewrite Hg|]. intros img Hi.
  split; [apply (backed_old ws (published_cell cell (pending_of out blob classes)) _ _ _ Hk Hb Hi)|].
  pose proof (ba_facts _ _ _ _ Hb) as HF. apply facts_app in HF as [_ HF].
  eapply facts_crash; [exact HF| |done|exact Hi]. apply file_facts_elem. eexists. split; [by left|]. right. cbn. rewrite Hman. by left.
Qed.
End Job.

(** ** Reasoning about runs *)

Section Facts.
Context `{H : Hound} `{R : Rubato} `{L : Libm} `{FFT : RealFft} `{N : TrainLib} `{TL : TempLaws} `{UL : UuidLaws} `{SL : Sha256Laws}.
Context `{!RubatoLaws R} `{!RubatoReset R} `{!RealFftLaws FFT} `{!TrainLaws N}.
Context `{JC : !Json WorkspaceCore} `{JCL : !JsonLaws WorkspaceCore}.
Context `{JH : !Json HeadIndex} `{JHL : !JsonLaws HeadIndex}.
Context `{JM : !Json HeadManifest} `{JML : !JsonLaws HeadManifest} `{JL : !Json LogLine}.
Context `{B : !Broadcast RegistryEvent}.

#[local] Instance RunState_laws : WorldLaws RunState_world.
Proof. by split. Qed.

#[local] Instance RunState_mgr_laws : MgrLaws RunState_world RunState_mgr.
Proof. by split. Qed.

Lemma rt_check mg D : rt (frame mg D) check_cancelled (λ _, frame mg D) (frame mg D) (frame mg D).
Proof. intros s [Hg Hd]. unfold check_cancelled. by destruct (default false _). Qed.

(** *** The fine-tune in its temporary directory *)

Lemma put_scope_side ws dir name p : side ws (dir ++ [name]) → (∀ n, side ws (dir ++ [n])) → put_scope (dir ++ [name]) p → side ws p.
Proof. intros Hn Hd [->|(n & -> & _)]; [done|]. rewrite parent_app. apply Hd. Qed.

Lemma publish_files_side ws cell es k name classes head (out := (ws ++ ROOT_TMP_DIR_NAME :: k) ++ [name]) :
  (∀ e, e ∈ es → entry_ok e) → not_temp out → not_temp (labels_path_of out) →
  triple (backed ws cell es) (publish_files out classes head)
    (λ _ d, backed ws cell es d ∧ ∃ blob, head_blob head = Ok blob ∧ definite d out (Some (File blob true)))
    (backed ws cell es) (backed ws cell es).
Proof.
  intros Hes Ht Htl. assert (Hne : out ≠ []) by (unfold out; by destruct ws).
  assert (Hside : ∀ n, side ws ((ws ++ ROOT_TMP_DIR_NAME :: k) ++ [n])) by (intros n; apply side_app, side_tmp).
  assert (Hlp : labels_path_of out = (ws ++ ROOT_TMP_DIR_NAME :: k) ++ [(file_stem name ++ ".labels.txt")%string]) by apply labels_path_snoc.
  unfold publish_files. rewrite decide_False by done. eapply triple_bind with (R := λ _, backed ws cell es).
  { apply triple_map_throw. unfold out. rewrite parent_app. by apply mkdir_side. }
  intros _. cbv zeta. eapply triple_bind with (R := λ _, backed ws cell es).
  { apply triple_map_throw, confined_backed; [done|]. apply confined_put_atomic; [rewrite Hlp; by destruct ws|done|].
    intros q. rewrite Hlp. by apply put_scope_side. }
  intros _. unfold save_mpk_atomic. eapply triple_bind with (R := λ blob d, head_blob head = Ok blob ∧ backed ws cell es d).
  { unfold lift. destruct (head_blob head) as [blob|e]; [by apply triple_ret|by apply triple_throw]. }
  intros blob. apply triple_pure. intros Hb. apply triple_map_throw.
  assert (HF : stable (put_scope out) (backed ws cell es)).
  { eapply stable_weaken; [by apply backed_side|]. intros q. by apply put_scope_side. }
  eapply triple_conseq; [apply (put_atomic_triple (backed ws cell es) None out blob Hne Ht HF)|..]; cbn [held].
  - intros d Hd. split_and!; [done|by eapply ba_moves|constructor].
  - intros _ d (H1 & _ & H3). split; [done|]. by exists blob.
  - by intros d (H1 & _ & _).
  - by intros d (H1 & _ & _).
Qed.

Variable window : list f32.
Variable splits : list (path * nat) → list (list (path * nat)).
Variable late : path → bool.
Hypothesis window_length : List.length window = FRAME_LEN.
Hypothesis window_nonneg : Forall nonneg_finite window.
Hypothesis splits_cover : ∀ chunk, concat (splits chunk) = chunk.
Hypothesis backbone_length : ∀ b specs, List.length (backbone_forward b specs) = List.length specs * BACKBONE_FEATURE_DIM.

(** What a fine-tune that returned has left at [out]. *)
Definition trained_at (out : path) (o : FinetuneOutput) (head : THead) (blob : list ascii) (d : Disk) : Prop :=
  fo_head_mpk o = out ∧ 2 ≤ List.length (fo_classes o) ∧ head_classes head = List.length (fo_classes o) ∧
  head_blob head = Ok blob ∧ visible d !! out = Some (File blob true).

Lemma rt_finetune mg ws cell es k name cfg fresh (out := (ws ++ ROOT_TMP_DIR_NAME :: k) ++ [name]) :
  (∀ e, e ∈ es → entry_ok e) → not_temp out → not_temp (labels_path_of out) → ft_out cfg = out → (0 ≤ ft_batch cfg)%Z →
  rt (frame mg (backed ws cell es)) (finetune window splits late cfg fresh)
    (λ o, frame mg (λ d, backed ws cell es d ∧ ∃ head blob, trained_at out o head blob d))
    (frame mg (backed ws cell es)) (frame mg (backed ws cell es)).
Proof.
  intros Hes Ht Htl Hout Hb s [Hg Hd]. unfold finetune, run.
  pose proof (run_inner_ends_with window splits late window_length window_nonneg splits_cover backbone_length
    (disk (job_world (rs_job s))) cfg fresh
    (λ classes head d', backed ws cell es d' ∧ ∃ blob, head_blob head = Ok blob ∧ definite d' out (Some (File blob true)))
    (backed ws cell es) Hb Hd) as He.
  specialize (He ltac:(intros classes examples head _ _; rewrite Hout;
    eapply triple_conseq; [by apply publish_files_side|by intros ? ->|done|done|done]) (rs_job s) eq_refl).
  destruct (run_inner window splits late cfg fresh (rs_job s)) as [j [o|[m|e]|]]; cbn.
  - destruct He as (_ & Hn & Ho & _ & _ & head & Hc & Hbk & blob & Hbl & Hdef). split; [done|]. split; [done|].
    exists head, blob. split_and!; [by rewrite Ho|done|done|done|by apply definite_visible].
  - by destruct He.
  - destruct He as [He Hbk]. split; [|by split]. by destruct e.
  - by split.
Qed.

(** *** The publication *)

Variable root : path.
Variable created_at : string.

(** The manifest and the publish request of a job whose head has bytes [blob]. *)
Definition job_manifest (job : TrainingJob) (blob : list ascii) (classes : list string) : HeadManifest :=
  mkHeadManifest (tj_head_id job) (tj_workspace_id job) (tj_workspace_revision job) (sha256_hex_of blob) (Z.of_nat (List.length classes))
    (Z.of_nat (List.length blob)) created_at classes.
Definition job_pending (job : TrainingJob) (out : path) (blob : list ascii) (classes : list string) : PendingHead :=
  mkPendingHead (tj_head_id job) out (job_manifest job blob classes).

Variables (job : TrainingJob) (mg : WorkspaceMgr) (cell : WorkspaceCacheCell) (es : list entry).
Let wid := tj_workspace_id job.
Let ws := workspace_dir_for root wid.
Hypothesis Hcell : mgr_caches mg !! wid = Some cell.
Hypothesis Hok : entries_ok cell es.
Hypothesis Hid : canonical_id (tj_head_id job).
Hypothesis Hfresh : tj_head_id job ∉ map entry_id es.

(** What a result says of the head that was published. *)
Definition job_result (res : TrainingResult) (head : THead) (blob mb : list ascii) : Prop :=
  tr_head_id res = tj_head_id job ∧ tr_head_sha256 res = sha256_hex_of blob ∧ tr_n_classes res = Z.of_nat (List.length (tr_classes res)) ∧
  (tr_n_classes res ≤ u32_max)%Z ∧ 2 ≤ List.length (tr_classes res) ∧ head_classes head = List.length (tr_classes res) ∧
  head_blob head = Ok blob ∧ to_vec (job_manifest job blob (tr_classes res)) = Some mb.

Let published out blob mb classes : RunState → Prop := published_to root wid (tj_head_id job) (job_manifest job) mg cell es out blob mb classes.
Let cut_off : RunState → Prop := cut_off root wid (tj_head_id job) (job_manifest job) cell.
Let failed : RunState → Prop := failed root wid (tj_head_id job) (job_manifest job) mg cell.

Definition landed (res : TrainingResult) (s : RunState) : Prop :=
  ∃ head blob mb out, job_result res head blob mb ∧ published out blob mb (tr_classes res) s.

Lemma landed_steady res : steady (side ws) (landed res).
Proof. do 4 (apply steady_ex; intros ?). apply steady_and, workspace_ok_steady. Qed.

Lemma landed_cut_off res s : landed res s → cut_off s.
Proof. intros (head & blob & mb & out & _ & Hp). by eapply published_cut_off. Qed.

Lemma rt_publish_output out o : HeadRotation.staged ws out →
  rt (frame mg (λ d, backed ws cell es d ∧ ∃ head blob, trained_at out o head blob d)) (publish_output root created_at job o) landed failed cut_off.
Proof.
  intros Hst s (Hg & Hb & head & blob & Ho & Hn & Hcls & Hbl & Hv).
  set (D := λ d, backed ws cell es d ∧ visible d !! out = Some (File blob true)).
  assert (HDX : ∀ s, frame mg D s → failed s) by (intros s' [Hg' [Hd' _]]; by eapply frame_failed).
  assert (HDC : ∀ s, frame mg D s → cut_off s) by (intros s' Hs'; by apply HDX in Hs' as [_ ?]).
  enough (Hall : rt (frame mg D) (publish_output root created_at job o) landed failed cut_off) by (apply (Hall s); by split).
  clear s Hg Hb Hv. unfold publish_output. rewrite Ho.
  apply rt_bind with (Q := λ sha s, sha = sha256_hex_of blob ∧ frame mg D s).
  { eapply rt_conseq; [apply (rt_io mg _ D); [apply triple_map_throw, (sha256_reading_triple D (64 * 1024) out ltac:(lia))|by apply sound_map]|done| |exact HDX|exact HDC].
    intros sha s [Hg [Hd (c & b & Hc & ->)]]. destruct Hd as [Hd Hv]. rewrite Hv in Hc. injection Hc as <- <-. split; [done|]. by split. }
  intros sha. apply rt_pure. intros ->.
  apply rt_bind with (Q := λ md s, md = File blob true ∧ frame mg D s).
  { eapply rt_conseq; [apply (rt_io mg _ D (λ md d, md = File blob true ∧ D d) D D); [|by apply sound_map]|done| |exact HDX|exact HDC].
    - apply triple_map_throw. eapply triple_conseq; [apply (triple_read D (λ d, match stat out d with Some n => Ok n | None => Err IoNotFound end) D D); done|done| |done|done].
      intros md d [[Hd Hv] Hr]. unfold stat in Hr. rewrite Hv in Hr. injection Hr as <-. done.
    - intros md s [Hg [-> Hd]]. done. }
  intros md. apply rt_pure. intros ->. cbv zeta.
  destruct (Z.ltb_spec u32_max (Z.of_nat (List.length (fo_classes o)))) as [|Hu]; [by apply rt_fails|].
  eapply rt_bind; [by apply (rt_publish root wid (tj_head_id job) (job_manifest job) mg cell es (λ _ _, eq_refl))|]. intros u. apply rt_ret. intros s (mb & Hmb & Hp).
  exists head, blob, mb, out. split; [|exact Hp]. by split_and!.
Qed.

(** *** The whole job *)

Lemma canonical_first (h : HeadId) : canonical_id h → ∃ c s, HeadId_display h = String c s ∧ c ≠ "."%char.
Proof.
  intros Hc. destruct (HeadId_display h) as [|c s] eqn:E.
  - destruct Hc as [Hl _]. by rewrite E in Hl.
  - exists c, s. split; [done|]. intros ->. apply (canonical_uuid_no_sep _ "."%char Hc); [|done]. rewrite E. left.
Qed.

Lemma file_stem_first c s : ∃ s', file_stem (String c s) = String c s'.
Proof.
  unfold file_stem. destruct (List.find _ _) as [k|] eqn:Ef; [|by exists s].
  apply find_last in Ef as (Hk & _ & _). destruct k as [|k]; [lia|]. by exists (string_of_list_ascii (take k (bytes_of s))).
Qed.

Lemma job_out_not_temp dir h : canonical_id h → let out := dir ++ [(HeadId_display h ++ ".mpk")%string] in
  not_temp out ∧ not_temp (labels_path_of out).
Proof.
  intros Hc out. split; [by apply not_temp_snoc, canonical_head_name|]. unfold out. rewrite labels_path_snoc. apply not_temp_snoc.
  destruct (canonical_first h Hc) as (c & s & -> & Hdot). rewrite string_app_cons. destruct (file_stem_first c (s ++ ".mpk")) as [s' ->].
  rewrite string_app_cons. by apply prefix_dot.
Qed.

Lemma new_tempdir_side k :
  triple (backed ws cell es) (new_tempdir_in (ws ++ ROOT_TMP_DIR_NAME :: k))
    (λ tmp d, (∃ name, tmp = ws ++ ROOT_TMP_DIR_NAME :: k ++ [name]) ∧ backed ws cell es d) (backed ws cell es) (backed ws cell es).
Proof.
  intros w Hw. unfold new_tempdir_in. set (name := temp_name _ _).
  assert (Hm : triple (backed ws cell es) (mkdir_one ((ws ++ ROOT_TMP_DIR_NAME :: k) ++ [name])) (λ _, backed ws cell es) (backed ws cell es) (backed ws cell es)).
  { apply triple_syscall; [done|done|]. intros d Hd. destruct (stat _ d) as [[]|]; [done..|]. destruct (parent_ok _ d); [|done].
    apply (st_add _ _ (backed_side ws cell es (eo_entries _ _ Hok))); [done|done|]. intros q ->%touches_set. apply side_app, side_tmp. }
  specialize (Hm w Hw). unfold mbind, M_bind. destruct (mkdir_one _ w) as [w' [[]|e|]]; [|done..]. split; [|done].
  exists name. by rewrite <-app_assoc.
Qed.

Lemma rt_summary (D : Disk → Prop) : rt (frame mg D) (manager from_file (summary_call root wid)) (λ _, frame mg D) (frame mg D) (frame mg D).
Proof.
  intros s [Hg Hd]. unfold manager, summary_call, summary. unfold mbind, M_bind. rewrite Hg, (with_cell_cached _ _ _ _ _ _ Hcell). cbn.
  rewrite insert_id by done. by destruct mg.
Qed.

Hypothesis Hcfg : validate_training_cfg (tj_training_cfg job) = Ok tt.

Lemma rt_inner fresh :
  rt (frame mg (backed ws cell es)) (run_job_inner window splits late root created_at job fresh) landed failed cut_off.
Proof.
  assert (HX : ∀ s, frame mg (backed ws cell es) s → failed s) by (intros s; by apply frame_failed).
  assert (HC : ∀ s, frame mg (backed ws cell es) s → cut_off s) by (intros s Hs; by apply HX in Hs as [_ ?]).
  assert (Hstep : ∀ A (c : StateM RunState TrainingError A) (Q : A → RunState → Prop), rt (frame mg (backed ws cell es)) c Q (frame mg (backed ws cell es)) (frame mg (backed ws cell es)) →
    rt (frame mg (backed ws cell es)) c Q failed cut_off) by (intros A c Q Hc; by eapply rt_conseq).
  unfold run_job_inner. fold wid. fold ws. cbv zeta.
  eapply rt_then; [apply Hstep, rt_summary|]. intros _.
  eapply rt_then; [apply Hstep, (rt_io mg _ _ (λ _, backed ws cell es)); [apply triple_map_throw, visible_read|by apply sound_map]|]. intros md.
  destruct md as [c b| |t]; [by apply rt_fails| |by apply rt_fails].
  eapply rt_then; [apply Hstep, (rt_io mg _ _ (λ _, backed ws cell es)); [apply triple_map_throw, mkdir_side; [done..|apply Hok]|by apply sound_map]|]. intros _.
  eapply rt_bind; [apply Hstep, (rt_io mg); [apply triple_map_throw, (new_tempdir_side [])|by apply sound_map]|]. intros tmp.
  eapply rt_conseq with (P' := λ s, ∃ name, tmp = ws ++ ROOT_TMP_DIR_NAME :: [name] ∧ frame mg (backed ws cell es) s) (Q' := landed) (X' := failed) (C' := cut_off); [|by intros s (Hg & (name & ->) & Hb); exists name|done..].
  apply rt_ex. intros name. apply rt_pure. intros ->.
  apply (rt_finally (side ws)).
  - intros s r. apply confined_best_effort, confined_remove_dir_all. intros q [k ->]%below_true. apply side_app, side_tmp.
  - apply landed_steady.
  - apply failed_steady.
  - intros res s. apply landed_cut_off.
  - by intros s [_ ?].
  - eapply rt_then; [apply Hstep, rt_check|]. intros _.
    destruct (job_out_not_temp (ws ++ ROOT_TMP_DIR_NAME :: [name]) (tj_head_id job) Hid) as [Ht Htl].
    eapply rt_bind.
    { eapply rt_conseq; [apply (rt_finetune mg ws cell es [name] (HeadId_display (tj_head_id job) ++ ".mpk")%string); [apply Hok|done|done|reflexivity|]|done|intros o s Hs; exact Hs|done|done].
      destruct (validate_training_cfg_Ok _ Hcfg) as (_ & Hbs & _). cbn. lia. }
    intros o. eapply rt_then; [eapply rt_conseq; [apply rt_check|done|intros u s Hs; exact Hs| |]|].
    + intros s [Hg [Hb _]]. by apply HX.
    + intros s [Hg [Hb _]]. by apply HC.
    + intros _. apply rt_publish_output. exists name, [(HeadId_display (tj_head_id job) ++ ".mpk")%string]. by rewrite <-app_assoc.
Qed.
(** *** The log, and the job as a whole *)

Lemma confined_append (S : path → Prop) p : S p → confined S (open_append p).
Proof.
  intros Hp F HF. apply triple_syscall; [done|done|]. intros d [Hm Hd]. destruct (stat p d) as [[]|]; [done..|].
  destruct (parent_ok p d); [|done]. split; [by apply no_moves_add|]. apply (st_add _ _ HF); [done|done|]. by intros q ->%touches_set.
Qed.

Lemma confined_write (S : path → Prop) p c : S p → confined S (write_file p c).
Proof.
  intros Hp F HF. apply triple_syscall; [done|done|]. intros d [Hm Hd]. destruct (stat p d) as [[]|]; [|done..].
  split; [by apply no_moves_add|]. apply (st_add _ _ HF); [done|done|]. by intros q ->%touches_set.
Qed.

Lemma confined_event (S : path → Prop) log now state progress message :
  S (tl_file log) → confined S (TrainJobLog_event log now state progress message).
Proof.
  intros Hp. unfold TrainJobLog_event. destruct (to_vec _) as [bytes|]; [|apply confined_throw]. by apply confined_map_throw, confined_write.
Qed.

Lemma event_sound log now state progress message : throws_sound (TrainJobLog_event log now state progress message).
Proof. unfold TrainJobLog_event. destruct (to_vec _) as [bytes|]; [by apply sound_map|by intros w e [= <-]]. Qed.

(** The log file opened for a job. *)
Definition log_path (job_id : JobId) : path := ws ++ TRAINING_LOGS_DIR_NAME :: [(JobId_display job_id ++ ".jsonl")%string].

Lemma log_path_side job_id : side ws (log_path job_id).
Proof. by apply side_below. Qed.

Lemma rt_log_open job_id :
  rt (frame mg (backed ws cell es)) (io (TrainJobLog_open ws job_id))
    (λ log s, log = mkTrainJobLog (log_path job_id) 0 ∧ frame mg (backed ws cell es) s) (frame mg (backed ws cell es)) (frame mg (backed ws cell es)).
Proof.
  eapply rt_conseq; [apply (rt_io mg _ (backed ws cell es) (λ log d, log = mkTrainJobLog (log_path job_id) 0 ∧ backed ws cell es d) (backed ws cell es) (backed ws cell es))|done| |done..].
  - unfold TrainJobLog_open. cbv zeta. eapply triple_bind with (R := λ _, backed ws cell es).
    { apply triple_map_throw, mkdir_side; [done..|apply Hok]. }
    intros u. replace ((ws ++ [TRAINING_LOGS_DIR_NAME]) ++ [_]) with (log_path job_id) by (unfold log_path; by rewrite <-app_assoc).
    eapply triple_bind with (R := λ _, backed ws cell es); [|intros u'; by apply triple_ret].
    apply triple_map_throw, confined_backed; [apply Hok|]. apply confined_append, log_path_side.
  - apply sound_bind; [by apply sound_map|]. intros u. apply sound_bind; [by apply sound_map|]. intros u'. apply sound_ret.
  - intros log s [Hg [-> Hd]]. done.
Qed.

Variables (started_at terminal_at : string) (to_string : TrainingError → list ascii).

Lemma rt_run_job job_id fresh :
  rt (frame mg (backed ws cell es)) (run_job window splits late root started_at terminal_at created_at to_string job job_id fresh) landed failed cut_off.
Proof.
  assert (HX : ∀ s, frame mg (backed ws cell es) s → failed s) by (intros s; by apply frame_failed).
  assert (HC : ∀ s, frame mg (backed ws cell es) s → cut_off s) by (intros s Hs; by apply HX in Hs as [_ ?]).
  unfold run_job. fold wid. fold ws. eapply rt_bind; [eapply rt_conseq; [apply rt_log_open|done|intros log s Hs; exact Hs|exact HX|exact HC]|].
  intros log. apply rt_pure. intros ->.
  apply rt_then with (P1 := frame mg (backed ws cell es)).
  { eapply rt_conseq; [apply (rt_io mg _ (backed ws cell es) (λ _, backed ws cell es) (backed ws cell es) (backed ws cell es)); [apply confined_backed; [apply Hok|apply confined_event, log_path_side]|apply event_sound]|done|by intros u s|exact HX|exact HC]. }
  intros u. apply (rt_finally (side ws)); [|apply landed_steady|apply failed_steady|intros res s; apply landed_cut_off|by intros s [_ ?]|apply rt_inner].
  intros s r. destruct (terminal_state to_string r) as [state message]. apply confined_best_effort, confined_event, log_path_side.
Qed.

(** The head of a result, in every tree a crash can leave. *)
Definition head_in_place (res : TrainingResult) (blob : list ascii) (img : fs) : Prop :=
  img !! head_artifact_path ws (tr_head_id res) = Some (File blob true) ∧ tr_head_sha256 res = sha256_hex_of blob ∧
  ∃ h, check_head_bytes (head_artifact_path ws (tr_head_id res)) blob = Ok h ∧ num_classes h = tr_n_classes res.

Lemma landed_in_place res s : landed res s → ∃ out blob,
  let pending := job_pending job out blob (tr_classes res) in
  mgr_caches (rs_mgr s) = <[wid := published_cell cell pending]> (mgr_caches mg) ∧
  ∀ img, crash_image (disk (rs_world s)) img → heads_consistent ws (published_index cell pending) img ∧ head_in_place res blob img.
Proof.
  intros (head & blob & mb & out & (Hid' & Hsha & Hnc & Hu & _ & Hcls & Hbl & _) & Hp). exists out, blob. cbv zeta.
  apply (published_in_place root wid (tj_head_id job) (job_manifest job) mg cell es (λ _ _, eq_refl)) in Hp as [Hc Hi]. split; [exact Hc|]. intros img Him.
  destruct (Hi img Him) as [H1 H2]. split; [exact H1|]. unfold head_in_place. rewrite Hid'. split_and!; [done|done|].
  destruct (head_blob_header head blob (head_artifact_path ws (tj_head_id job)) ltac:(lia) Hbl) as (h & H3 & H4). exists h. split; [done|]. by rewrite H4, Hcls, Hnc.
Qed.

End Facts.

(** Starting a job takes no lease and registers nothing in the jobs the deletions
    of a workspace consult. *)
Lemma start_training_takes_no_lease `{U : UuidLib} `{JC : !Json WorkspaceCore} `{JH : !Json HeadIndex} `{B : !Broadcast RegistryEvent} root text ws cfg backbone head_id job_id now table mgr w w' table' mgr' r :
  start_training root text ws cfg backbone head_id job_id now table mgr w = (w', Ret (table', mgr', r)) → mgr_jobs mgr' = mgr_jobs mgr.
Proof.
  unfold start_training. destruct (validate_training_cfg cfg); [|by intros [= _ _ <- _]].
  destruct backbone as [p|]; [|by intros [= _ _ <- _]]. unfold mbind, M_bind.
  destruct (path_is_file p w) as [w0 [[]|e|]]; cbn [negb]; [|by intros [= _ _ <- _]|done|done].
  unfold summary_call, mbind, M_bind. destruct (summary root ws (mgr_caches mgr) w0) as [w1 [[caches [sm|e]]|e|]]; cbn; [|by intros [= _ _ <- _]|done|done].
  destruct (spawn _ _ _ _ _) as [t [id|e]]; by intros [= _ _ <- _].
Qed.

(** ** A job over the workspace of two heads *)

#[export] Instance LogLine_eq_dec : EqDecision LogLine.
Proof. solve_decision. Defined.
#[export] Instance LogLine_countable : Countable LogLine.
Proof.
  apply (inj_countable' (λ l, (ll_seq l, (ll_at l, (ll_state l, (ll_progress l, ll_message l)))))
    (λ '(a, (b, (c, (d, e)))), mkLogLine a b c d e)).
  by intros [].
Defined.

Section Scenario.
#[local] Existing Instances pcm_file halving halving_reset pair_fft long_temp_lib text_uuid_lib counter_lib long_temp_laws counter_laws
  text_uuid_laws identity_sha identity_sha_laws.
#[local] Instance tr_libm : Libm := {| f32_exp := λ x, x; f32_ln := λ x, x; f32_powf := λ b _, b; f64_sin := λ x, x |}.
#[local] Instance tr_bus : Broadcast RegistryEvent := ring_broadcast RegistryEvent.
#[local] Instance tr_core_json : Json WorkspaceCore := bits_json WorkspaceCore.
#[local] Instance tr_index_json : Json HeadIndex := bits_json HeadIndex.
#[local] Instance tr_manifest_json : Json HeadManifest := bits_json HeadManifest.
#[local] Instance tr_line_json : Json LogLine := bits_json LogLine.

Definition tr_data : path := sc_ws ++ [DATASETS_DIR_NAME].
Definition tr_tree : fs :=
  list_to_map ((tr_data, Dir) :: (tr_data ++ ["a"%string], Dir) :: (tr_data ++ ["b"%string], Dir) ::
    map (λ p, (tr_data ++ p, File [] true)) [["a"; "1.wav"]; ["a"; "2.wav"]; ["b"; "1.wav"]; ["b"; "2.wav"]]%string) ∪ sc_tree.
Definition tr_world : World := mkWorld (mkDisk tr_tree []) None [].
Definition tr_cfg : TrainingCfg := mkTrainingCfg 1 8 f32_one None (S754_finite false 8388608 (-24)).
Definition tr_job : TrainingJob := mkTrainingJob hr_ws (sc_id "c") sc_rev tr_cfg ["backbone.mpk"%string].
Definition tr_state : RunState := mkRunState (mkJob tr_world [] []) hr_mgr.
Definition tr_job_id : JobId := mkJobId ("j"%string : Uuid).

Lemma tr_ok : backed sc_ws sc_cell sc_entries (disk tr_world).
Proof.
  split.
  - constructor.
  - apply facts_quiet. vm_compute. reflexivity.
  - exists (sc_bytes sc_index). split; [by apply (@from_to _ _ (bits_json_laws HeadIndex))|]. apply definite_quiet. vm_compute. reflexivity.
  - exists (sc_bytes sc_core). split; [by apply (@from_to _ _ (bits_json_laws WorkspaceCore))|]. apply definite_quiet. vm_compute. reflexivity.
Qed.

Lemma tr_cfg_ok : validate_training_cfg tr_cfg = Ok tt.
Proof. vm_compute. reflexivity. Qed.

End Scenario.
