(* ===== verification/Converter.v ===== *)
(** * Converting TFJS bundles: the head's weights ([src/modules/converter.rs])

    From the bytes of a [model.json] to its manifest, from the manifest to the
    head's two tensors, read shard by shard ([converter/source.rs]) or out of one
    buffer, and from the tensors to the [.mpk] blob; the labels; the writer of the
    three artifacts.

    [serde_json]'s parsed values and Burn's tensors are parameters.  [usize] is 64
    bits wide.  Texts of messages are shortened. *)

From Stdlib Require Import SpecFloat.
From S2P Require Import Prelude Ids AssetPath HeadHeader Common Text Workspace FileSystem FsLogic FsAtomic FsRun Schema ActiveHead ActiveBoot AssetTree HotHead F32 F32Facts RequestPayload ApiErrors FinetuneTrain FinetunePublish FinetuneExamples TrainRun.
From stdpp Require Import list.

Local Open Scope Z_scope.

(** ** Third-party parts *)

(** [serde_json::Value], read through the accessors the source calls. *)
Class SerdeValue := {
  Value : Type;
  value_from_slice : list ascii → option Value;
  get : string → Value → option Value;
  as_array : Value → option (list Value);
  as_str : Value → option string;
  as_u64 : Value → option Z;
}.

Class SerdeLaws `(S : SerdeValue) := {
  as_u64_range v n : as_u64 v = Some n → 0 ≤ n ≤ u64_max;
}.

(** [Tensor::from_data] on the kernel and the bias, in a head of so many
    classes. *)
Class HeadParams `(N : TrainLib) := { head_from_data : list f32 → list f32 → nat → THead }.
Class HeadParamsLaws `(HP : HeadParams) := {
  from_data_classes k b n : head_classes (head_from_data k b n) = n;
}.

(** ** Outcomes *)

(** A panic, or the error of a [Result]. *)
Inductive Fault : Type := Panics | Errs (e : ConvertError).
Abbreviation C := (result Fault).
Definition errs {A : Type} (e : ConvertError) : C A := Err (Errs e).

(** [checked_mul] and [checked_add] of [usize]. *)
Definition checked (x : Z) : option Z := if x <=? u64_max then Some x else None.
Definition checked_mul (a b : Z) : option Z := checked (a * b).
Definition checked_add (a b : Z) : option Z := checked (a + b).
(** [.ok_or(e)?]. *)
Definition ok_or {E A : Type} (e : E) (o : option A) : result E A := match o with Some a => Ok a | None => Err e end.

(** ** Limits and records *)

Record ConvertLimits := mkConvertLimits {
  max_n_classes : Z;
  max_kernel_bytes : Z;
  max_bias_bytes : Z;
  max_manifest_bytes : Z;
  max_shards : Z;
}.

Definition default_limits : ConvertLimits :=
  mkConvertLimits 10000 (80 * 1024 * 1024) (1024 * 1024) (1024 * 1024) 64.

Record HeadWeights := mkHeadWeights {
  hw_kernel : list f32;
  hw_bias : list f32;
  hw_n_classes : Z;
  hw_in_dim : Z;
}.

Record TfjsManifestEntry := mkTfjsManifestEntry {
  te_name : string;
  te_shape : list Z;
  te_offset_bytes : Z;
  te_len_bytes : Z;
}.

Record TfjsManifest := mkTfjsManifest { tm_entries : list TfjsManifestEntry; tm_shards : list string }.

(** ** Shard paths *)

(** [std::path::Component]; there are no prefixes on Unix. *)
Inductive Component : Type := RootDir | CurDir | ParentDir | Normal (name : string).

(** The component of the [i]-th slot between separators: a dot shows only at the
    front of a relative path. *)
Definition component_at (absolute : bool) (i : nat) (slot : list ascii) : option Component :=
  let name := string_of_list_ascii slot in
  if bool_decide (name = ""%string) then None
  else if bool_decide (name = "."%string) then (if negb absolute && (i =? 0)%nat then Some CurDir else None)
  else if bool_decide (name = ".."%string) then Some ParentDir
  else Some (Normal name).

(** [Path::is_absolute] and [Path::components]. *)
Definition is_absolute (s : list ascii) : bool := match s with a :: _ => Ascii.eqb a "/" | [] => false end.
Definition components (s : list ascii) : list Component :=
  (if is_absolute s then [RootDir] else []) ++
  omap id (imap (component_at (is_absolute s)) (split_on "/" s)).

Definition is_normal (c : Component) : bool := match c with Normal _ => true | _ => false end.

Definition validate_shard_path (s : string) : result ConvertError unit :=
  let bs := bytes_of s in
  if (String.length s =? 0)%nat || bool_decide ("\"%char ∈ bs) || bool_decide ("000"%char ∈ bs) then Err (CV_TfjsUnsafePath s)
  else if is_absolute bs then Err (CV_TfjsUnsafePath s)
  else if forallb is_normal (components bs) then Ok tt
  else Err (CV_TfjsUnsafePath s).

(** [dir.join(s)] for an accepted path. *)
Definition normal_name (c : Component) : option string := match c with Normal n => Some n | _ => None end.
Definition join_shard (dir : path) (s : string) : path := dir ++ omap normal_name (components (bytes_of s)).
(** A path that ends in a separator names no file: no call reads or links it. *)
Definition trailing_separator (s : string) : bool := ends_with (bytes_of s) ["/"%char].

(** ** The manifest *)

Section Parse.
Context `{S : SerdeValue}.
Variable limits : ConvertLimits.

Definition parse_error {A : Type} (what : string) : result ConvertError A := Err (CV_TfjsParse what "").
Definition array_field (what key : string) (v : Value) : result ConvertError (list Value) :=
  ok_or (CV_TfjsParse what "missing or not an array") (get key v ≫= as_array).

Fixpoint parse_paths (paths : list Value) (shards : list string) : result ConvertError (list string) :=
  match paths with
  | [] => Ok shards
  | p :: paths =>
      s ← ok_or (CV_TfjsParse "weightsManifest[i].paths[j]" "path is not a string") (as_str p);
      _ ← validate_shard_path s;
      let n := Z.of_nat (List.length shards) in
      if max_shards limits <=? n then Err (CV_LimitExceeded "shards" (sat_add64 n 1) (max_shards limits))
      else parse_paths paths (shards ++ [s])
  end.

Fixpoint parse_shape (name : string) (dims : list Value) (shape : list Z) : result ConvertError (list Z) :=
  match dims with
  | [] => Ok shape
  | d :: dims =>
      n ← ok_or (CV_TfjsParse "weight.shape[]" "dim is not a non-negative integer") (as_u64 d);
      n_us ← ok_or (CV_TfjsShapeOverflow name shape) (checked n);
      parse_shape name dims (shape ++ [n_us])
  end.

Fixpoint shape_count (count : Z) (shape : list Z) : option Z :=
  match shape with
  | [] => Some count
  | d :: shape => count ← checked_mul count d; shape_count count shape
  end.

(** A class count above the limit, of a 2-D kernel or of a 1-D bias. *)
Definition too_many_classes (shape : list Z) : option Z :=
  match shape with
  | [d; n] => if (d =? Z.of_nat BACKBONE_FEATURE_DIM) && (max_n_classes limits <? n) then Some n else None
  | [n] => if max_n_classes limits <? n then Some n else None
  | _ => None
  end.

(** One weight, at [offset]. *)
Definition parse_weight (offset : Z) (w : Value) : result ConvertError TfjsManifestEntry :=
  name ← ok_or (CV_TfjsParse "weight.name" "missing or non-string") (get "name" w ≫= as_str);
  let dtype := default "float32"%string (get "dtype" w ≫= as_str) in
  if negb (bool_decide (dtype = "float32"%string)) then Err (CV_TfjsDtype name dtype)
  else
  dims ← array_field "weight.shape" "shape" w;
  shape ← parse_shape name dims [];
  if bool_decide (0 ∈ shape) then Err (CV_TfjsZeroDimension name shape)
  else
  count ← ok_or (CV_TfjsShapeOverflow name shape) (shape_count 1 shape);
  len_bytes ← ok_or (CV_TfjsShapeOverflow name shape) (checked_mul count 4);
  match too_many_classes shape with
  | Some n => Err (CV_LimitExceeded "n_classes" n (max_n_classes limits))
  | None =>
      if max_kernel_bytes limits <? len_bytes then Err (CV_LimitExceeded "tensor_bytes" len_bytes (max_kernel_bytes limits))
      else Ok (mkTfjsManifestEntry name shape offset len_bytes)
  end.

Fixpoint parse_weights (ws : list Value) (entries : list TfjsManifestEntry) (offset : Z)
    : result ConvertError (list TfjsManifestEntry * Z) :=
  match ws with
  | [] => Ok (entries, offset)
  | w :: ws =>
      e ← parse_weight offset w;
      offset ← ok_or (CV_TfjsShapeOverflow "<cumulative offset>" []) (checked_add offset (te_len_bytes e));
      parse_weights ws (entries ++ [e]) offset
  end.

Fixpoint parse_groups (groups : list Value) (entries : list TfjsManifestEntry) (shards : list string) (offset : Z)
    : result ConvertError TfjsManifest :=
  match groups with
  | [] => Ok (mkTfjsManifest entries shards)
  | group :: groups =>
      paths ← array_field "weightsManifest[i].paths" "paths" group;
      shards ← parse_paths paths shards;
      weights ← array_field "weightsManifest[i].weights" "weights" group;
      x ← parse_weights weights entries offset;
      parse_groups groups (fst x) shards (snd x)
  end.

Definition parse_tfjs_manifest_with_limits (model_json_bytes : list ascii) : result ConvertError TfjsManifest :=
  let n := Z.of_nat (List.length model_json_bytes) in
  if max_manifest_bytes limits <? n then Err (CV_LimitExceeded "manifest_bytes" n (max_manifest_bytes limits))
  else
  v ← ok_or (CV_TfjsParse "model.json" "invalid JSON") (value_from_slice model_json_bytes);
  groups ← array_field "weightsManifest" "weightsManifest" v;
  match groups with
  | [] => parse_error "weightsManifest"
  | _ =>
      manifest ← parse_groups groups [] [] 0;
      match tm_entries manifest, tm_shards manifest with
      | [], _ | _, [] => parse_error "weightsManifest"
      | _, _ => Ok manifest
      end
  end.
End Parse.

Definition parse_tfjs_manifest `{S : SerdeValue} : list ascii → result ConvertError TfjsManifest :=
  parse_tfjs_manifest_with_limits default_limits.

Definition list_tfjs_shard_paths `{S : SerdeValue} (model_json_bytes : list ascii) : result ConvertError (list string) :=
  manifest ← parse_tfjs_manifest_with_limits default_limits model_json_bytes; Ok (tm_shards manifest).

(** ** The head's entries *)

Definition name_ends (suffix : string) (e : TfjsManifestEntry) : bool := ends_with (bytes_of (te_name e)) (bytes_of suffix).

Definition is_kernel_shape (shape : list Z) : bool :=
  match shape with [d; _] => d =? Z.of_nat BACKBONE_FEATURE_DIM | _ => false end.

Definition pick_tfjs_head_entries (manifest : TfjsManifest) : result ConvertError (TfjsManifestEntry * TfjsManifestEntry) :=
  match List.find (name_ends "NewHeadDense/kernel") (tm_entries manifest),
        List.find (name_ends "NewHeadDense/bias") (tm_entries manifest) with
  | Some k, Some b => Ok (k, b)
  | _, _ =>
      match List.filter (λ e, is_kernel_shape (te_shape e)) (tm_entries manifest) with
      | [k] =>
          match List.filter (λ e, bool_decide (te_shape e = drop 1 (te_shape k))) (tm_entries manifest) with
          | [b] => Ok (k, b)
          | _ => Err (CV_TfjsLocator "expected exactly one 1-D weight")
          end
      | _ => Err (CV_TfjsLocator "expected exactly one 2-D weight")
      end
  end.

(** ** The two tensors *)

(** [f32::from_le_bytes] of the four bytes. *)
Definition le_bits (chunk : list ascii) : Z := u32_from_le_bytes (map byte_val chunk).

(** The loop over [slice.chunks_exact(4)]: the values from index [i]. *)
Fixpoint decode_chunks (tensor : string) (i : nat) (bytes : list ascii) : C (list f32) :=
  match bytes with
  | b0 :: b1 :: b2 :: b3 :: rest =>
      let bits := le_bits [b0; b1; b2; b3] in
      let v := f32_of_bits bits in
      if negb (is_finite v) then errs (CV_NonFiniteWeight tensor i bits)
      else vs ← decode_chunks tensor (S i) rest; Ok (v :: vs)
  | _ => Ok []
  end.

(** [&bytes[offset..end]] panics when out of range. *)
Definition read_f32_at_checked (bytes : list ascii) (offset count : Z) (tensor : string) : C (list f32) :=
  let end_ := offset + count * 4 in
  if (offset <=? end_) && (end_ <=? Z.of_nat (List.length bytes))
  then decode_chunks tensor 0 (slice (Z.to_nat offset) (Z.to_nat end_) bytes)
  else Err Panics.

Definition validate_head_class_count (n_classes : Z) (limits : ConvertLimits) : result ConvertError unit :=
  if (n_classes =? 0) || (max_n_classes limits <? n_classes) then Err (CV_BadClassCount n_classes (max_n_classes limits))
  else Ok tt.

(** The shape checks the two readers share: the class count. *)
Definition head_shape (k b : TfjsManifestEntry) : result ConvertError Z :=
  match te_shape k with
  | [d; n_classes] =>
      if negb (d =? Z.of_nat BACKBONE_FEATURE_DIM) then Err (CV_TfjsLocator "head kernel shape")
      else if negb (bool_decide (te_shape b = [n_classes])) then Err (CV_TfjsLocator "head bias shape")
      else
      _ ← validate_head_class_count n_classes default_limits;
      Ok n_classes
  | _ => Err (CV_TfjsLocator "head kernel shape")
  end.

Definition declared_end (manifest : TfjsManifest) : Z :=
  match last (tm_entries manifest) with Some e => te_offset_bytes e + te_len_bytes e | None => 0 end.

Definition extract_head_from_tfjs_buffers (manifest : TfjsManifest) (weights_blob : list ascii) : C HeadWeights :=
  let have := Z.of_nat (List.length weights_blob) in
  if negb (have =? declared_end manifest) then errs (CV_TfjsBlobLength have (declared_end manifest))
  else
  x ← map_err Errs (pick_tfjs_head_entries manifest);
  let '(k, b) := x in
  n_classes ← map_err Errs (head_shape k b);
  let need := Z.max (sat_add64 (te_offset_bytes k) (te_len_bytes k)) (sat_add64 (te_offset_bytes b) (te_len_bytes b)) in
  if have <? need then errs (CV_TfjsShortRead have need)
  else
  kernel_count ← ok_or (Errs (CV_TfjsShapeOverflow (te_name k) (te_shape k))) (checked_mul (Z.of_nat BACKBONE_FEATURE_DIM) n_classes);
  kernel ← read_f32_at_checked weights_blob (te_offset_bytes k) kernel_count (te_name k);
  bias ← read_f32_at_checked weights_blob (te_offset_bytes b) n_classes (te_name b);
  Ok (mkHeadWeights kernel bias n_classes (Z.of_nat BACKBONE_FEATURE_DIM)).

Definition head_weights_from_head_byte_ranges (k b : TfjsManifestEntry) (kernel_bytes bias_bytes : list ascii) : C HeadWeights :=
  n_classes ← map_err Errs (head_shape k b);
  let limits := default_limits in
  let k_overflow := Errs (CV_TfjsShapeOverflow (te_name k) (te_shape k)) in
  kernel_count ← ok_or k_overflow (checked_mul (Z.of_nat BACKBONE_FEATURE_DIM) n_classes);
  kernel_need ← ok_or k_overflow (checked_mul kernel_count 4);
  let kernel_have := Z.of_nat (List.length kernel_bytes) in
  if max_kernel_bytes limits <? kernel_need then errs (CV_LimitExceeded "kernel_bytes" kernel_need (max_kernel_bytes limits))
  else if negb (kernel_have =? kernel_need) then errs (CV_TfjsShortRead kernel_have kernel_need)
  else
  bias_need ← ok_or (Errs (CV_TfjsShapeOverflow (te_name b) (te_shape b))) (checked_mul n_classes 4);
  let bias_have := Z.of_nat (List.length bias_bytes) in
  if max_bias_bytes limits <? bias_need then errs (CV_LimitExceeded "bias_bytes" bias_need (max_bias_bytes limits))
  else if negb (bias_have =? bias_need) then errs (CV_TfjsShortRead bias_have bias_need)
  else
  kernel ← read_f32_at_checked kernel_bytes 0 kernel_count (te_name k);
  bias ← read_f32_at_checked bias_bytes 0 n_classes (te_name b);
  Ok (mkHeadWeights kernel bias n_classes (Z.of_nat BACKBONE_FEATURE_DIM)).

(** ** Reading shard by shard *)

(** What of an entry lies in a shard's bytes is copied to its buffer; a range out
    of bounds panics. *)
Definition copy_overlap (entry : TfjsManifestEntry) (shard_start : Z) (bytes out : list ascii) : C (list ascii) :=
  let shard_end := shard_start + Z.of_nat (List.length bytes) in
  let entry_end := sat_add64 (te_offset_bytes entry) (te_len_bytes entry) in
  let overlap_start := Z.max (te_offset_bytes entry) shard_start in
  let overlap_end := Z.min entry_end shard_end in
  if overlap_end <=? overlap_start then Ok out
  else
  let in_shard := Z.to_nat (overlap_start - shard_start) in
  let in_buffer := Z.to_nat (overlap_start - te_offset_bytes entry) in
  let copy_len := Z.to_nat (overlap_end - overlap_start) in
  if (in_buffer + copy_len <=? List.length out)%nat && (in_shard + copy_len <=? List.length bytes)%nat
  then Ok (copy_at in_buffer (slice in_shard (in_shard + copy_len) bytes) out)
  else Err Panics.

Record HeadBuffers := mkHeadBuffers { st_kernel : list ascii; st_bias : list ascii; st_cumulative : Z }.

Definition stream_shard (k b : TfjsManifestEntry) (bytes : list ascii) (s : HeadBuffers) : C HeadBuffers :=
  shard_end ← ok_or (Errs (CV_TfjsShapeOverflow "<cumulative shard offset>" []))
    (checked_add (st_cumulative s) (Z.of_nat (List.length bytes)));
  kernel ← copy_overlap k (st_cumulative s) bytes (st_kernel s);
  bias ← copy_overlap b (st_cumulative s) bytes (st_bias s);
  Ok (mkHeadBuffers kernel bias shard_end).

(** [entries.iter().map(|e| e.len_bytes).sum()], which wraps. *)
Definition declared_total (manifest : TfjsManifest) : Z :=
  foldl (λ acc e, (acc + te_len_bytes e) mod (u64_max + 1)) 0 (tm_entries manifest).

Definition streaming_start (k b : TfjsManifestEntry) : HeadBuffers :=
  mkHeadBuffers (replicate (Z.to_nat (te_len_bytes k)) "000"%char) (replicate (Z.to_nat (te_len_bytes b)) "000"%char) 0.

Definition streaming_end (manifest : TfjsManifest) (s : HeadBuffers) : C (list ascii * list ascii) :=
  if negb (st_cumulative s =? declared_total manifest)
  then errs (CV_TfjsBlobLength (st_cumulative s) (declared_total manifest))
  else Ok (st_kernel s, st_bias s).

Definition read_error {A : Type} (p : path) (m : M IoKind A) : M Fault A := map_throw (λ _, Errs (CV_Read (display p))) m.
(** [std::fs::read(dir.join(shard))]. *)
Definition read_shard (dir : path) (shard : string) : M Fault (list ascii) :=
  let p := join_shard dir shard in
  if trailing_separator shard then throw (Errs (CV_Read (display p))) else read_error p (fs_read p).
Definition write_error {A : Type} (p : path) (m : M IoKind A) : M Fault A := map_throw (λ _, Errs (CV_Write (display p))) m.

Section Io.
Context `{S : SerdeValue} `{SH : Sha256Lib}.

(** [hasher] is the digest of what came before, when one is kept. *)
Fixpoint stream_shards (dir : path) (k b : TfjsManifestEntry) (shards : list string) (hasher : option sha_state) (s : HeadBuffers)
    : M Fault (option sha_state * HeadBuffers) :=
  match shards with
  | [] => mret (hasher, s)
  | shard :: shards =>
      bytes ← read_shard dir shard;
      let hasher := (λ h, sha_update h bytes) <$> hasher in
      s ← lift (stream_shard k b bytes s);
      stream_shards dir k b shards hasher s
  end.

Definition read_head_bytes_streaming (dir : path) (manifest : TfjsManifest) (k b : TfjsManifestEntry) (hasher : option sha_state)
    : M Fault (option sha_state * (list ascii * list ascii)) :=
  x ← stream_shards dir k b (tm_shards manifest) hasher (streaming_start k b);
  r ← lift (streaming_end manifest (snd x));
  mret (fst x, r).

(** The two calls every reader of a bundle makes: the head's bytes, then the
    weights in them. *)
Definition read_head (dir : path) (manifest : TfjsManifest) (k b : TfjsManifestEntry) (hasher : option sha_state)
    : M Fault (option sha_state * HeadWeights) :=
  y ← read_head_bytes_streaming dir manifest k b hasher;
  weights ← lift (head_weights_from_head_byte_ranges k b (fst (snd y)) (snd (snd y)));
  mret (fst y, weights).

(** ** The entry points *)

(** The body [extract_head_from_tfjs_dir], [TfjsSourceLimited::load] and
    [convert_tfjs] share: the weights, and the digest when one is asked for. *)
Definition load_dir (limits : ConvertLimits) (hashed : bool) (dir : path) : M Fault (HeadWeights * option string) :=
  let model_json := dir ++ ["model.json"%string] in
  json_bytes ← read_error model_json (fs_read model_json);
  manifest ← lift (map_err Errs (parse_tfjs_manifest_with_limits limits json_bytes));
  x ← lift (map_err Errs (pick_tfjs_head_entries manifest));
  y ← read_head dir manifest (fst x) (snd x) (if hashed then Some (sha_update sha_new json_bytes) else None);
  mret (snd y, (λ h, string_of_list_ascii (hex_lowercase (sha_finalize h))) <$> fst y).

Definition extract_head_from_tfjs_dir (dir : path) : M Fault HeadWeights :=
  x ← load_dir default_limits false dir; mret (fst x).

Definition extract_head_from_tfjs (model_json weights_bin : path) : M Fault HeadWeights :=
  json_bytes ← read_error model_json (fs_read model_json);
  manifest ← lift (map_err Errs (parse_tfjs_manifest_with_limits default_limits json_bytes));
  if negb (List.length (tm_shards manifest) =? 1)%nat then throw (Errs (CV_TfjsParse "weightsManifest" "expected exactly 1 shard path"))
  else
  weights_blob ← read_error weights_bin (fs_read weights_bin);
  lift (extract_head_from_tfjs_buffers manifest weights_blob).

(** ** Labels *)

Fixpoint string_elements (es : list Value) : option (list string) :=
  match es with
  | [] => Some []
  | e :: es => s ← as_str e; ss ← string_elements es; Some (s :: ss)
  end.

Definition labels_of_metadata (bytes : list ascii) : result ConvertError (list string) :=
  v ← ok_or (CV_Labels "invalid JSON") (value_from_slice bytes);
  let array_at key := get key v ≫= as_array in
  match (match array_at "wordLabels"%string with Some arr => Some arr | None => array_at "words"%string end) with
  | None => Err (CV_Labels "missing `wordLabels` or `words` array")
  | Some arr =>
      out ← ok_or (CV_Labels "not a string") (string_elements arr);
      match out with [] => Err (CV_Labels "is empty") | _ => Ok out end
  end.

Definition read_tfjs_labels (metadata_json : path) : M Fault (list string) :=
  bytes ← read_error metadata_json (fs_read metadata_json);
  lift (map_err Errs (labels_of_metadata bytes)).

(** [text.lines().map(trim).filter(non-empty)]. *)
Definition labels_of_lines (text : list ascii) : list string :=
  map string_of_list_ascii (List.filter (λ l, negb (List.length l =? 0)%nat) (map str_trim (str_lines text))).

Definition read_labels_from_path (labels_path : path) (format : LabelsFormat) (expected_n_classes : Z) : M Fault (list string) :=
  labels ← match format with
    | Lines =>
        text ← read_error labels_path (fs_read labels_path);
        if utf8_ok text then mret (labels_of_lines text) else throw (Errs (CV_Read (display labels_path)))
    | TfjsMetadata => read_tfjs_labels labels_path
    end;
  if negb (Z.of_nat (List.length labels) =? expected_n_classes) then throw (Errs (CV_Labels "labels source"))
  else mret labels.
End Io.

(** ** The blob and the artifacts *)

Record HeadArtifacts `{U : UuidLib} := mkHeadArtifacts {
  ha_head_mpk : path;
  ha_labels_txt : path;
  ha_metadata_json : path;
  ha_head_id : HeadId;
  ha_n_classes : Z;
  ha_source_sha256 : string;
}.

Arguments mkHeadArtifacts {U}.

Record ConversionMetadata `{U : UuidLib} := mkConversionMetadata {
  cm_schema_version : Z;
  cm_source_sha256 : string;
  cm_n_classes : Z;
  cm_labels : list string;
  cm_created_at : string;
  cm_head_id : HeadId;
}.

Arguments mkConversionMetadata {U}.

Section Blob.
Context `{N : TrainLib} `{HP : !HeadParams N}.

(** [Head::try_new]'s count and [TensorData::new]'s lengths, which panics when
    they do not match. *)
Definition build_head_mpk_blob (weights : HeadWeights) : C (list ascii) :=
  _ ← map_err Errs (validate_head_class_count (hw_n_classes weights) default_limits);
  if negb (hw_in_dim weights =? Z.of_nat BACKBONE_FEATURE_DIM) then errs (CV_Tensor "kernel in_dim")
  else if (hw_n_classes weights =? 0) || (MAX_N_CLASSES <? hw_n_classes weights)
  then errs (CV_BadClassCount (hw_n_classes weights) MAX_N_CLASSES)
  else if negb (Z.of_nat (List.length (hw_kernel weights)) =? hw_in_dim weights * hw_n_classes weights) then Err Panics
  else if negb (Z.of_nat (List.length (hw_bias weights)) =? hw_n_classes weights) then Err Panics
  else
  payload ← map_err (λ m, Errs (CV_Record m)) (record_head (head_from_data (hw_kernel weights) (hw_bias weights) (Z.to_nat (hw_n_classes weights))));
  let as_u32 x := x mod (u32_max + 1) in
  let header := serialize_header (as_u32 (hw_in_dim weights)) (as_u32 (hw_n_classes weights)) (as_u32 (Z.of_nat (List.length payload))) in
  Ok (chars_of header ++ payload).

Context `{U : UuidLib} `{T : TempLib} `{JCM : !Json ConversionMetadata} `{S : SerdeValue} `{SH : Sha256Lib}.

(** [head_id] is freshly minted and [created_at] the wall clock's text. *)
Definition write_head_artifacts (weights : HeadWeights) (labels : list string) (dst_dir : path) (source_sha256 : string)
    (head_id : HeadId) (created_at : string) : M Fault HeadArtifacts :=
  _ ← lift (map_err Errs (validate_head_class_count (hw_n_classes weights) default_limits));
  if negb (Z.of_nat (List.length labels) =? hw_n_classes weights) then throw (Errs (CV_Labels "labels.len()"))
  else if negb (hw_in_dim weights =? Z.of_nat BACKBONE_FEATURE_DIM) then throw (Errs (CV_Tensor "kernel in_dim"))
  else
  _ ← write_error dst_dir (create_dir_all dst_dir);
  let put p bytes := map_throw (λ _, Errs (CV_Write (display p))) (put_atomic p bytes) in
  let head_mpk := dst_dir ++ ["head.mpk"%string] in
  let labels_txt := dst_dir ++ ["labels.txt"%string] in
  let metadata_json := dst_dir ++ ["metadata.json"%string] in
  head_blob ← lift (build_head_mpk_blob weights);
  _ ← put head_mpk head_blob;
  _ ← put labels_txt (labels_blob_of labels);
  match to_vec (mkConversionMetadata 1 source_sha256 (hw_n_classes weights) labels created_at head_id) with
  | None => throw (Errs CV_MetadataSerialize)
  | Some bytes =>
      _ ← put metadata_json bytes;
      mret (mkHeadArtifacts head_mpk labels_txt metadata_json head_id (hw_n_classes weights) source_sha256)
  end.

(** [Pipeline::run] of [TfjsSourceLimited] and [MpkSink]; [convert_tfjs] is the
    same with the default limits. *)
Definition pipeline_run (limits : ConvertLimits) (src : path) (labels : list string) (dst_dir : path) (head_id : HeadId) (created_at : string)
    : M Fault HeadArtifacts :=
  x ← load_dir limits true src;
  write_head_artifacts (fst x) labels dst_dir (default ""%string (snd x)) head_id created_at.

Definition convert_tfjs : path → list string → path → HeadId → string → M Fault HeadArtifacts := pipeline_run default_limits.
End Blob.

(** ** Theory: machine arithmetic and slices *)

Lemma checked_Some x y : checked x = Some y ↔ y = x ∧ x ≤ u64_max.
Proof. unfold checked. destruct (Z.leb_spec x u64_max); naive_solver lia. Qed.

Lemma checked_le x : x ≤ u64_max → checked x = Some x.
Proof. intros H. by apply checked_Some. Qed.

Lemma ok_or_Ok {E A : Type} (e : E) (o : option A) a : ok_or e o = Ok a ↔ o = Some a.
Proof. destruct o; cbn; naive_solver. Qed.

Local Open Scope nat_scope.

Lemma lookup_slice {A : Type} (a b i : nat) (l : list A) : i < b - a → slice a b l !! i = l !! (a + i).
Proof. intros Hi. unfold slice. rewrite lookup_take_lt by done. apply lookup_drop. Qed.

Lemma length_slice {A : Type} (a b : nat) (l : list A) : b ≤ List.length l → List.length (slice a b l) = b - a.
Proof. intros Hb. unfold slice. rewrite length_take, length_drop. lia. Qed.

Lemma slice_slice {A : Type} (a n : nat) (l : list A) : slice 0 n (slice a (a + n) l) = slice a (a + n) l.
Proof. unfold slice. rewrite drop_0, take_take. f_equal. lia. Qed.

Lemma lookup_copy_at {A : Type} (a i : nat) (src buf : list A) : a + List.length src ≤ List.length buf →
  copy_at a src buf !! i = if decide (a ≤ i < a + List.length src) then src !! (i - a) else buf !! i.
Proof.
  intros Hl. unfold copy_at. assert (Ha : List.length (take a buf) = a) by (rewrite length_take; lia). case_decide as Hi.
  - rewrite lookup_app_r, Ha by lia. apply lookup_app_l. lia.
  - destruct (decide (i < a)).
    + rewrite lookup_app_l by lia. by apply lookup_take_lt.
    + rewrite lookup_app_r, Ha, lookup_app_r, lookup_drop by lia. f_equal. lia.
Qed.

Lemma length_copy_at {A : Type} (a : nat) (src buf : list A) : a + List.length src ≤ List.length buf →
  List.length (copy_at a src buf) = List.length buf.
Proof. intros Hl. unfold copy_at. rewrite !length_app, length_take, length_drop. lia. Qed.

(** ** Theory: reading shard by shard *)

(** What is known of [len] bytes from [off] once [seen] has been read. *)
Definition window (off len : nat) (seen : list ascii) : list ascii := resize len "000"%char (drop off seen).

Lemma window_lookup off len seen i : i < len →
  window off len seen !! i = if decide (off + i < List.length seen) then seen !! (off + i) else Some "000"%char.
Proof.
  intros Hi. unfold window. case_decide.
  - rewrite lookup_resize, lookup_drop; [done|done|rewrite length_drop; lia].
  - apply lookup_resize_new; [rewrite length_drop; lia|done].
Qed.

Lemma window_nil off len : window off len [] = replicate len "000"%char.
Proof. unfold window. by rewrite drop_nil, resize_nil. Qed.

(** Everything that is known of an entry within the bytes read. *)
Lemma window_full off len seen : off + len ≤ List.length seen → window off len seen = slice off (off + len) seen.
Proof.
  intros Hl. unfold window, slice. rewrite resize_le by (rewrite length_drop; lia). f_equal. lia.
Qed.

(** An entry whose end is a [usize]. *)
Definition placed (e : TfjsManifestEntry) : Prop :=
  (0 ≤ te_offset_bytes e ∧ 0 ≤ te_len_bytes e ∧ te_offset_bytes e + te_len_bytes e ≤ u64_max)%Z.
Definition entry_window (e : TfjsManifestEntry) (seen : list ascii) : list ascii :=
  window (Z.to_nat (te_offset_bytes e)) (Z.to_nat (te_len_bytes e)) seen.

Lemma window_same off len seen bytes :
  (∀ i, i < len → off + i < List.length (seen ++ bytes) → off + i < List.length seen) →
  window off len seen = window off len (seen ++ bytes).
Proof.
  intros H. apply list_eq_same_length with len; [by unfold window; rewrite length_resize..|].
  intros i x y Hi. rewrite !window_lookup by done. specialize (H i Hi). rewrite length_app in *.
  repeat case_decide; try lia; [rewrite lookup_app_l by done; congruence|congruence].
Qed.

Lemma copy_overlap_window e seen bytes : placed e →
  copy_overlap e (Z.of_nat (List.length seen)) bytes (entry_window e seen) = Ok (entry_window e (seen ++ bytes)).
Proof.
  intros (Ho & Hl & Hu). unfold copy_overlap, entry_window. set (off := Z.to_nat (te_offset_bytes e)). set (len := Z.to_nat (te_len_bytes e)).
  assert (Eo : te_offset_bytes e = Z.of_nat off) by lia. assert (El : te_len_bytes e = Z.of_nat len) by lia.
  unfold sat_add64. rewrite (Z.min_l (te_offset_bytes e + te_len_bytes e) u64_max) by lia. rewrite Eo, El. clearbody off len. clear Eo El.
  destruct (Z.leb_spec (Z.min (Z.of_nat off + Z.of_nat len) (Z.of_nat (List.length seen) + Z.of_nat (List.length bytes))) (Z.max (Z.of_nat off) (Z.of_nat (List.length seen)))) as [He|He].
  { f_equal. apply window_same. rewrite length_app. lia. }
  set (a := Z.to_nat (Z.max (Z.of_nat off) (Z.of_nat (List.length seen)) - Z.of_nat (List.length seen))).
  set (i0 := Z.to_nat (Z.max (Z.of_nat off) (Z.of_nat (List.length seen)) - Z.of_nat off)).
  set (n := Z.to_nat (Z.min (Z.of_nat off + Z.of_nat len) (Z.of_nat (List.length seen) + Z.of_nat (List.length bytes)) - Z.max (Z.of_nat off) (Z.of_nat (List.length seen)))).
  assert (Hwl : List.length (window off len seen) = len) by apply length_resize.
  rewrite Hwl, (proj2 (Nat.leb_le (i0 + n) len)), (proj2 (Nat.leb_le (a + n) (List.length bytes))) by lia. cbn [andb]. f_equal.
  assert (Hs : List.length (slice a (a + n) bytes) = n) by (rewrite length_slice; lia).
  apply list_eq_same_length with len.
  - apply length_resize.
  - by rewrite length_copy_at by lia.
  - intros i x y Hi. rewrite lookup_copy_at by lia. rewrite Hs, !window_lookup by done. rewrite length_app. case_decide as Hin.
    + rewrite lookup_slice by lia. rewrite decide_True, lookup_app_r by lia. replace (a + (i - i0)) with (off + i - List.length seen) by lia. congruence.
    + repeat case_decide; try lia; [rewrite lookup_app_l by done; congruence|congruence].
Qed.

(** The buffers and the count, once [seen] has been read. *)
Definition buffered (k b : TfjsManifestEntry) (seen : list ascii) : HeadBuffers :=
  mkHeadBuffers (entry_window k seen) (entry_window b seen) (Z.of_nat (List.length seen)).

Lemma streaming_start_seen k b : streaming_start k b = buffered k b [].
Proof. unfold streaming_start, buffered, entry_window. by rewrite !window_nil. Qed.

Lemma stream_shard_seen k b seen bytes : placed k → placed b →
  stream_shard k b bytes (buffered k b seen) =
  if (Z.of_nat (List.length (seen ++ bytes)) <=? u64_max)%Z then Ok (buffered k b (seen ++ bytes))
  else errs (CV_TfjsShapeOverflow "<cumulative shard offset>" []).
Proof.
  intros Hk Hb. unfold stream_shard, checked_add, checked. cbn [st_kernel st_bias st_cumulative buffered].
  rewrite length_app, Nat2Z.inj_add. destruct (Z.leb_spec (Z.of_nat (List.length seen) + Z.of_nat (List.length bytes)) u64_max); [|done].
  cbn [ok_or mbind result_bind]. rewrite !copy_overlap_window by done. cbn [mbind result_bind]. unfold buffered. by rewrite length_app, Nat2Z.inj_add.
Qed.

(** ** Theory: the manifest *)

Local Open Scope Z_scope.

(** An entry of nonzero dimensions within the limits. *)
Definition entry_fits (limits : ConvertLimits) (e : TfjsManifestEntry) : Prop :=
  Forall (λ d, 1 ≤ d) (te_shape e) ∧ te_len_bytes e = 4 * foldr Z.mul 1 (te_shape e) ∧
  te_len_bytes e ≤ max_kernel_bytes limits ∧ te_len_bytes e ≤ u64_max ∧ too_many_classes limits (te_shape e) = None.

(** The entries follow each other from [off] to [end_]. *)
Fixpoint laid_out (off : Z) (es : list TfjsManifestEntry) (end_ : Z) : Prop :=
  match es with
  | [] => end_ = off
  | e :: es => te_offset_bytes e = off ∧ laid_out (off + te_len_bytes e) es end_
  end.

(** A shard path is a nonempty list of ordinary names. *)
Definition ordinary (name : string) : Prop :=
  name ≠ ""%string ∧ name ≠ "."%string ∧ name ≠ ".."%string ∧ ¬ ("/"%char ∈ bytes_of name) ∧ ¬ ("000"%char ∈ bytes_of name).
Definition shard_inside (s : string) : Prop :=
  ∃ names, names ≠ [] ∧ Forall ordinary names ∧ (∀ dir, join_shard dir s = dir ++ names).

Record manifest_fits (limits : ConvertLimits) (m : TfjsManifest) : Prop := {
  mf_entries : Forall (entry_fits limits) (tm_entries m);
  mf_layout : ∃ total, laid_out 0 (tm_entries m) total ∧ total ≤ u64_max;
  mf_shards : Forall shard_inside (tm_shards m);
  mf_some : tm_entries m ≠ [] ∧ tm_shards m ≠ [];
  mf_count : Z.of_nat (List.length (tm_shards m)) ≤ max_shards limits;
}.

Lemma product_pos l : Forall (λ d, 1 ≤ d) l → 1 ≤ foldr Z.mul 1 l.
Proof. induction 1; cbn; nia. Qed.

Lemma entry_len_pos limits e : entry_fits limits e → 4 ≤ te_len_bytes e.
Proof. intros (Hs & -> & _). pose proof (product_pos _ Hs). lia. Qed.

Lemma laid_out_le limits es off end_ : Forall (entry_fits limits) es → laid_out off es end_ → off ≤ end_.
Proof.
  intros Hf. revert off. induction Hf as [|e es He _ IH]; intros off; cbn; [lia|]. intros [_ H%IH]. pose proof (entry_len_pos _ _ He). lia.
Qed.

Lemma laid_out_app es es' off mid end_ : laid_out off es mid → laid_out mid es' end_ → laid_out off (es ++ es') end_.
Proof. revert off. induction es as [|e es IH]; intros off; cbn; [by intros ->|]. intros [H1 H2] H. split; [done|]. by apply IH. Qed.

(** Every entry ends where the layout does or before. *)
Lemma laid_out_elem limits es off end_ e : Forall (entry_fits limits) es → laid_out off es end_ → 0 ≤ off → e ∈ es →
  off ≤ te_offset_bytes e ∧ te_offset_bytes e + te_len_bytes e ≤ end_.
Proof.
  intros Hf. revert off. induction Hf as [|e' es He Hes IH]; intros off; cbn; [by intros _ _ ?%elem_of_nil|].
  intros [<- H] H0 Hin. pose proof (entry_len_pos _ _ He). apply elem_of_cons in Hin as [->|Hin].
  - split; [lia|]. by apply (laid_out_le limits) in H.
  - apply (IH _ H) in Hin; lia.
Qed.

(** The components of an accepted path are all ordinary. *)
Lemma normal_slot abs i slot name : "/"%char ∉ slot → "000"%char ∉ slot → component_at abs i slot = Some (Normal name) → ordinary name.
Proof.
  intros Hs Hz. unfold component_at. rewrite <-(bytes_of_string_of slot) in Hs, Hz. set (s := string_of_list_ascii slot) in *.
  repeat (case_bool_decide; [by destruct (negb abs && (i =? 0)%nat)|]). intros [= <-]. by split_and!.
Qed.

Lemma validate_shard_inside s : validate_shard_path s = Ok tt → shard_inside s.
Proof.
  unfold validate_shard_path. destruct (Nat.eqb_spec (String.length s) 0) as [|Hlen]; [done|]. cbn [orb].
  case_bool_decide as Hb; [done|]. case_bool_decide as Hz; [done|]. cbn [orb].
  destruct (is_absolute (bytes_of s)) eqn:Ha; [done|]. destruct (forallb is_normal (components (bytes_of s))) eqn:Hn; [|done]. intros _.
  exists (omap normal_name (components (bytes_of s))). unfold join_shard. split_and!; [| |done].
  - unfold components in *. rewrite Ha in *. cbn [app] in *. pose proof (split_on_ne "/" (bytes_of s)) as Hne.
    destruct (split_on "/" (bytes_of s)) as [|slot slots] eqn:Es; [done|]. rewrite imap_cons in *. cbn [omap list_omap id] in *.
    assert (Hslot : slot ≠ []).
    { intros ->. destruct (bytes_of s) as [|a bs] eqn:Eb; [rewrite <-length_bytes_of, Eb in Hlen; done|]. cbn in Ha, Es.
      destruct (Ascii.eqb_spec a "/"); [congruence|]. by destruct (split_on "/" bs). }
    assert (Hc : ∃ c, component_at false 0 slot = Some c).
    { unfold component_at. cbn [negb andb Nat.eqb]. rewrite bool_decide_eq_false_2 by (by destruct slot).
      repeat case_bool_decide; eauto. }
    destruct Hc as [c Hc]. rewrite Hc in *. cbn [forallb] in Hn. apply andb_true_iff in Hn as [Hn _]. destruct c; try done.
  - apply Forall_forall. intros name Hin. apply list_elem_of_omap in Hin as (c & Hc & Hcn). destruct c as [| | |n]; try done. injection Hcn as ->.
    unfold components in Hc. rewrite Ha in Hc. cbn [app] in Hc. apply list_elem_of_omap in Hc as (o & Ho & Hoc). cbn in Hoc. subst o.
    apply list_elem_of_lookup in Ho as [i Hi]. rewrite list_lookup_imap in Hi. destruct (split_on "/" (bytes_of s) !! i) as [slot|] eqn:Es; [|done].
    injection Hi as Hi. pose proof (list_elem_of_lookup_2 _ _ _ Es) as Hin. eapply normal_slot; [| |exact Hi].
    + intros Hs. by apply (split_on_no_sep "/" _ _ _ Hin Hs).
    + intros Hs. apply Hz. clear -Hin Hs. revert slot Hin Hs. induction (bytes_of s) as [|a bs IH]; intros slot; cbn [split_on].
      * intros ->%list_elem_of_singleton. by intros ?%elem_of_nil.
      * destruct (Ascii.eqb a "/").
        -- intros [->|Hin]%elem_of_cons Hs; [by apply elem_of_nil in Hs|]. right. by eapply IH.
        -- pose proof (split_on_ne "/" bs). destruct (split_on "/" bs) as [|s1 ss]; [done|]. intros [->|Hin]%elem_of_cons Hs.
           ++ apply elem_of_cons in Hs as [->|Hs]; [by left|]. right. eapply IH; [by left|done].
           ++ right. eapply IH; [by right|done].
Qed.

Section ParseFacts.
Context `{SL : SerdeLaws}.
Variable limits : ConvertLimits.

Lemma parse_shape_Ok name dims shape shape' : parse_shape name dims shape = Ok shape' → Forall (λ d, 0 ≤ d) shape → Forall (λ d, 0 ≤ d) shape'.
Proof.
  revert shape. induction dims as [|d dims IH]; intros shape; cbn [parse_shape]; [by intros [= <-]|].
  intros H Hs. apply bind_Ok in H as (n & Hn & H). apply ok_or_Ok in Hn. apply bind_Ok in H as (m & Hm & H). apply ok_or_Ok, checked_Some in Hm as [-> _].
  apply IH in H; [done|]. apply Forall_app. split; [done|]. constructor; [|done]. apply as_u64_range in Hn. lia.
Qed.

Lemma shape_count_Some count shape n : shape_count count shape = Some n → n = count * foldr Z.mul 1 shape.
Proof.
  revert count. induction shape as [|d shape IH]; intros count; cbn [shape_count foldr]; [intros [= <-]; lia|].
  intros H. destruct (checked_mul count d) as [m|] eqn:Em; [|done]. apply checked_Some in Em as [-> _]. apply IH in H. lia.
Qed.

Lemma parse_weight_Ok offset w e : parse_weight limits offset w = Ok e → te_offset_bytes e = offset ∧ entry_fits limits e.
Proof.
  unfold parse_weight. intros H. apply bind_Ok in H as (name & _ & H). cbv zeta in H. destruct (negb _); [done|].
  apply bind_Ok in H as (dims & _ & H). apply bind_Ok in H as (shape & Hshape & H). case_bool_decide as H0; [done|].
  apply bind_Ok in H as (count & Hcount & H). apply ok_or_Ok, shape_count_Some in Hcount.
  apply bind_Ok in H as (len & Hlen & H). apply ok_or_Ok, checked_Some in Hlen as [-> Hlen].
  destruct (too_many_classes limits shape) eqn:Ht; [done|]. destruct (Z.ltb_spec (max_kernel_bytes limits) (count * 4)); [done|].
  injection H as <-. split; [done|]. unfold entry_fits. cbn [te_shape te_len_bytes]. split_and!; [|lia|lia|lia|done].
  apply parse_shape_Ok in Hshape; [|done]. apply Forall_forall. intros d Hd. rewrite Forall_forall in Hshape. specialize (Hshape d Hd).
  destruct (decide (d = 0)) as [->|]; [done|lia].
Qed.

Lemma parse_weights_Ok ws entries offset x : parse_weights limits ws entries offset = Ok x → offset ≤ u64_max →
  ∃ new, fst x = entries ++ new ∧ Forall (entry_fits limits) new ∧ laid_out offset new (snd x) ∧ snd x ≤ u64_max.
Proof.
  revert entries offset. induction ws as [|w ws IH]; intros entries offset; cbn [parse_weights].
  { intros [= <-] Ho. exists []. by rewrite app_nil_r. }
  intros H Ho. apply bind_Ok in H as (e & He & H). apply parse_weight_Ok in He as [<- He].
  apply bind_Ok in H as (offset' & Ho' & H). apply ok_or_Ok, checked_Some in Ho' as [-> Ho'].
  apply IH in H as (new & -> & Hf & Hl & Hu); [|done]. exists (e :: new). rewrite <-app_assoc. split_and!; [done|by constructor|done|done].
Qed.

Lemma parse_paths_Ok paths shards shards' : parse_paths limits paths shards = Ok shards' → Z.of_nat (List.length shards) ≤ max_shards limits →
  Forall shard_inside shards → Forall shard_inside shards' ∧ Z.of_nat (List.length shards') ≤ max_shards limits.
Proof.
  revert shards. induction paths as [|p paths IH]; intros shards; cbn [parse_paths]; [by intros [= <-]|].
  intros H Hn Hf. apply bind_Ok in H as (s & _ & H). apply bind_Ok in H as ([] & Hs & H). cbv zeta in H.
  destruct (Z.leb_spec (max_shards limits) (Z.of_nat (List.length shards))); [done|]. apply IH in H; [done|rewrite length_app; cbn; lia|].
  apply Forall_app. split; [done|]. constructor; [by apply validate_shard_inside|done].
Qed.

Lemma parse_groups_Ok groups entries shards offset m : parse_groups limits groups entries shards offset = Ok m →
  Forall (entry_fits limits) entries → laid_out 0 entries offset → offset ≤ u64_max → Forall shard_inside shards →
  Z.of_nat (List.length shards) ≤ max_shards limits →
  Forall (entry_fits limits) (tm_entries m) ∧ (∃ total, laid_out 0 (tm_entries m) total ∧ total ≤ u64_max) ∧
  Forall shard_inside (tm_shards m) ∧ Z.of_nat (List.length (tm_shards m)) ≤ max_shards limits.
Proof.
  revert entries shards offset. induction groups as [|g groups IH]; intros entries shards offset; cbn [parse_groups].
  { intros [= <-] He Hl Ho Hs Hn. cbn. split_and!; [done|by exists offset|done|done]. }
  intros H He Hl Ho Hs Hn. apply bind_Ok in H as (paths & _ & H). apply bind_Ok in H as (shards' & Hp & H).
  apply bind_Ok in H as (weights & _ & H). apply bind_Ok in H as (x & Hw & H).
  apply parse_paths_Ok in Hp as [Hs' Hn']; [|done|done]. apply parse_weights_Ok in Hw as (new & E & Hf & Hl' & Hu); [|done].
  rewrite E in H. apply IH in H; [done| |by eapply laid_out_app|done|done|done]. by apply Forall_app.
Qed.

(** A manifest that parses. *)
Lemma parse_fits bytes m : 0 ≤ max_shards limits → parse_tfjs_manifest_with_limits limits bytes = Ok m → manifest_fits limits m.
Proof.
  intros Hmax. unfold parse_tfjs_manifest_with_limits. cbv zeta. destruct (_ <? _); [done|]. intros H.
  apply bind_Ok in H as (v & _ & H). apply bind_Ok in H as (groups & _ & H). destruct groups as [|g groups]; [done|].
  apply bind_Ok in H as (m' & Hm & H). apply parse_groups_Ok in Hm as (H1 & H2 & H3 & H4); [|done|done|by unfold u64_max|done|done].
  destruct (tm_entries m') eqn:E1; [done|]. destruct (tm_shards m') eqn:E2; [done|]. injection H as <-.
  split; rewrite ?E1, ?E2; done.
Qed.
End ParseFacts.

(** The two totals of the source agree, and no sum wraps. *)
Lemma totals limits m : manifest_fits limits m → ∃ total,
  laid_out 0 (tm_entries m) total ∧ declared_total m = total ∧ declared_end m = total ∧ total ≤ u64_max ∧
  ∀ e, e ∈ tm_entries m → placed e ∧ te_offset_bytes e + te_len_bytes e ≤ total.
Proof.
  intros [Hf (total & Hl & Hu) _ [Hne _] _]. exists total. split_and!; [done| | |done|].
  - unfold declared_total. assert (Hgen : ∀ off, 0 ≤ off → laid_out off (tm_entries m) total →
      foldl (λ acc e, (acc + te_len_bytes e) mod (u64_max + 1)) off (tm_entries m) = total); [|by apply Hgen].
    clear Hl Hne. induction Hf as [|e es He Hes IH]; intros off Ho; cbn [foldl laid_out]; [by intros ->|]. intros [_ Hl].
    pose proof (entry_len_pos _ _ He). pose proof (laid_out_le _ _ _ _ Hes Hl). rewrite Z.mod_small by lia. apply IH; [lia|done].
  - unfold declared_end. destruct (tm_entries m) as [|e es]; [done|]. clear Hne Hf Hu. revert Hl.
    assert (Hgen : ∀ es off e, laid_out off (e :: es) total →
      match last (e :: es) with Some e => te_offset_bytes e + te_len_bytes e | None => 0 end = total); [|apply Hgen].
    clear. induction es as [|e' es IH]; intros off e.
    + cbn. by intros [<- ->].
    + intros [_ Hl]. by apply (IH (off + te_len_bytes e)).
  - intros e He. destruct (laid_out_elem _ _ _ _ _ Hf Hl ltac:(lia) He) as [H1 H2]. rewrite Forall_forall in Hf.
    pose proof (entry_len_pos _ _ (Hf e He)). unfold placed. split_and!; lia.
Qed.

(** ** Theory: the two readers agree *)

Lemma decode_outcome tensor i bytes :
  match decode_chunks tensor i bytes with
  | Ok vs => List.length vs = (List.length bytes / 4)%nat ∧ Forall (λ v, is_finite v = true) vs
  | Err e => ∃ j bits, e = Errs (CV_NonFiniteWeight tensor j bits)
  end.
Proof.
  revert i. assert (Hgen : ∀ n bytes i, (List.length bytes ≤ n)%nat → match decode_chunks tensor i bytes with
    | Ok vs => List.length vs = (List.length bytes / 4)%nat ∧ Forall (λ v, is_finite v = true) vs
    | Err e => ∃ j bits, e = Errs (CV_NonFiniteWeight tensor j bits) end); [|intros i; by apply (Hgen (List.length bytes))].
  clear bytes. induction n as [|n IH]; intros bytes i Hn.
  { destruct bytes as [|b0 bytes]; [by split|cbn in Hn; lia]. }
  destruct bytes as [|b0 [|b1 [|b2 [|b3 rest]]]]; [by split|by split|by split|by split|]. cbn [List.length] in Hn.
  cbn [decode_chunks]. cbv zeta. set (v := f32_of_bits (le_bits [b0; b1; b2; b3])). destruct (is_finite v) eqn:Ef; cbn [negb]; [|eexists i, _; reflexivity].
  clearbody v.
  specialize (IH rest (S i) ltac:(lia)). destruct (decode_chunks tensor (S i) rest) as [vs|e]; cbn [mbind result_bind]; [|exact IH].
  destruct IH as [IH1 IH2]. split; [|by constructor]. cbn [List.length]. rewrite IH1.
  replace (S (S (S (S (List.length rest))))) with (List.length rest + 1 * 4)%nat by lia. rewrite Nat.div_add by lia. lia.
Qed.

Definition entry_bytes (e : TfjsManifestEntry) (blob : list ascii) : list ascii :=
  slice (Z.to_nat (te_offset_bytes e)) (Z.to_nat (te_offset_bytes e) + Z.to_nat (te_len_bytes e)) blob.

Lemma length_entry_bytes e blob : placed e → te_offset_bytes e + te_len_bytes e ≤ Z.of_nat (List.length blob) →
  Z.of_nat (List.length (entry_bytes e blob)) = te_len_bytes e.
Proof. intros (H1 & H2 & _) Hl. unfold entry_bytes. rewrite length_slice by lia. lia. Qed.

Lemma read_out_of_entry e blob count : placed e → te_offset_bytes e + te_len_bytes e ≤ Z.of_nat (List.length blob) → te_len_bytes e = count * 4 →
  read_f32_at_checked blob (te_offset_bytes e) count (te_name e) = decode_chunks (te_name e) 0 (entry_bytes e blob) ∧
  read_f32_at_checked (entry_bytes e blob) 0 count (te_name e) = decode_chunks (te_name e) 0 (entry_bytes e blob).
Proof.
  intros Hp Hl Hc. pose proof (length_entry_bytes e blob Hp Hl) as Hlen. destruct Hp as (H1 & H2 & H3). unfold read_f32_at_checked. rewrite <-Hc.
  rewrite !(proj2 (Z.leb_le _ _)) by lia. cbn [andb]. split; f_equal.
  - unfold entry_bytes. f_equal. lia.
  - unfold entry_bytes. change (Z.to_nat 0) with 0%nat. rewrite Z.add_0_l. apply slice_slice.
Qed.

Lemma pick_elem m k b : pick_tfjs_head_entries m = Ok (k, b) → k ∈ tm_entries m ∧ b ∈ tm_entries m.
Proof.
  unfold pick_tfjs_head_entries. assert (Hfind : ∀ f x, List.find f (tm_entries m) = Some x → x ∈ tm_entries m).
  { intros f x Hx. apply list_elem_of_In. by apply find_some in Hx as [? _]. }
  assert (Hfilter : ∀ f x l, List.filter f (tm_entries m) = x :: l → x ∈ tm_entries m).
  { intros f x l Hx. apply list_elem_of_In. eapply proj1, filter_In. rewrite Hx. by left. }
  destruct (List.find (name_ends "NewHeadDense/kernel") (tm_entries m)) as [k'|] eqn:Ek;
    [destruct (List.find (name_ends "NewHeadDense/bias") (tm_entries m)) as [b'|] eqn:Eb; [intros [= <- <-]; split; by eapply Hfind|]|].
  all: destruct (List.filter (λ e, is_kernel_shape (te_shape e)) (tm_entries m)) as [|k1 l1] eqn:E1; [done|]; destruct l1; [|done];
    destruct (List.filter (λ e, bool_decide (te_shape e = drop 1 (te_shape k1))) (tm_entries m)) as [|b1 l2] eqn:E2; [done|]; destruct l2; [|done];
    intros [= <- <-]; split; [eapply (Hfilter (λ e, is_kernel_shape (te_shape e)))|eapply (Hfilter (λ e, bool_decide (te_shape e = drop 1 (te_shape k1))))]; eassumption.
Qed.

Lemma head_shape_Ok limits k b n : entry_fits limits k → entry_fits limits b → head_shape k b = Ok n →
  1 ≤ n ≤ 10000 ∧ te_len_bytes k = Z.of_nat BACKBONE_FEATURE_DIM * n * 4 ∧ te_len_bytes b = n * 4.
Proof.
  intros (Hk1 & Hk2 & _) (_ & Hb2 & _). unfold head_shape. destruct (te_shape k) as [|d [|n' [|]]] eqn:Ek; try done.
  destruct (Z.eqb_spec d (Z.of_nat BACKBONE_FEATURE_DIM)) as [->|]; [|done]. cbn [negb]. case_bool_decide as Eb; [|done]. cbn [negb].
  unfold validate_head_class_count. destruct (Z.eqb_spec n' 0); [done|]. cbn [orb]. destruct (Z.ltb_spec (max_n_classes default_limits) n') as [|Hn]; [done|].
  cbn [mbind result_bind]. intros [= <-]. rewrite Eb in Hb2. cbn [foldr] in Hk2, Hb2. inversion Hk1 as [|x l _ Hk3]; subst. inversion Hk3; subst.
  change (max_n_classes default_limits) with 10000 in Hn. lia.
Qed.

(** Reading the whole buffer is reading the entries' bytes. *)
Lemma buffers_split limits m k b blob : manifest_fits limits m → pick_tfjs_head_entries m = Ok (k, b) → Z.of_nat (List.length blob) = declared_total m →
  extract_head_from_tfjs_buffers m blob = head_weights_from_head_byte_ranges k b (entry_bytes k blob) (entry_bytes b blob).
Proof.
  intros Hm Hp Hl. destruct (totals limits m Hm) as (total & _ & Ht & He & Hu & Hin). pose proof (mf_entries _ _ Hm) as Hf. rewrite Forall_forall in Hf.
  destruct (pick_elem m k b Hp) as [Hk Hb]. destruct (Hin k Hk) as [Pk Lk], (Hin b Hb) as [Pb Lb].
  unfold extract_head_from_tfjs_buffers, head_weights_from_head_byte_ranges. rewrite Hl, Ht, He, Z.eqb_refl, Hp. cbn [negb map_err mbind result_bind].
  destruct (head_shape k b) as [n|e] eqn:Eh; [|done]. cbn [map_err mbind result_bind].
  destruct (head_shape_Ok limits k b n (Hf k Hk) (Hf b Hb) Eh) as (Hn & HLk & HLb).
  assert (Hdim : Z.of_nat BACKBONE_FEATURE_DIM = 2000) by reflexivity. rewrite Hdim in *.
  pose proof (length_entry_bytes k blob Pk ltac:(lia)) as Ek. pose proof (length_entry_bytes b blob Pb ltac:(lia)) as Eb. rewrite Ek, Eb.
  destruct (read_out_of_entry k blob (2000 * n) Pk ltac:(lia) ltac:(lia)) as [Rk1 Rk2].
  destruct (read_out_of_entry b blob n Pb ltac:(lia) ltac:(lia)) as [Rb1 Rb2].
  unfold sat_add64, checked_mul. rewrite !Z.min_l by (unfold placed in *; lia). rewrite (proj2 (Z.ltb_ge total _)) by lia.
  assert (Hbig : u64_max = 18446744073709551615) by reflexivity.
  rewrite (checked_le (2000 * n)), (checked_le (n * 4)) by lia. cbn [ok_or mbind result_bind]. rewrite (checked_le (2000 * n * 4)) by lia.
  cbn [ok_or mbind result_bind]. rewrite Rk1, Rk2, Rb1, Rb2.
  change (max_kernel_bytes default_limits) with 83886080. change (max_bias_bytes default_limits) with 1048576.
  rewrite !(proj2 (Z.ltb_ge _ _)) by lia. rewrite HLk, HLb, !Z.eqb_refl. reflexivity.
Qed.

(** Weights of a head: finite, of the declared shape. *)
Definition weights_ok (hw : HeadWeights) : Prop :=
  1 ≤ hw_n_classes hw ≤ 10000 ∧ hw_in_dim hw = Z.of_nat BACKBONE_FEATURE_DIM ∧
  Z.of_nat (List.length (hw_kernel hw)) = hw_in_dim hw * hw_n_classes hw ∧ Z.of_nat (List.length (hw_bias hw)) = hw_n_classes hw ∧
  Forall (λ v, is_finite v = true) (hw_kernel hw ++ hw_bias hw).

Lemma ranges_outcome limits m k b blob : manifest_fits limits m → pick_tfjs_head_entries m = Ok (k, b) → Z.of_nat (List.length blob) = declared_total m →
  match head_weights_from_head_byte_ranges k b (entry_bytes k blob) (entry_bytes b blob) with
  | Ok hw => weights_ok hw
  | Err e => e ≠ Panics
  end.
Proof.
  intros Hm Hp Hl. destruct (totals limits m Hm) as (total & _ & Ht & _ & Hu & Hin). pose proof (mf_entries _ _ Hm) as Hf. rewrite Forall_forall in Hf.
  destruct (pick_elem m k b Hp) as [Hk Hb]. destruct (Hin k Hk) as [Pk Lk], (Hin b Hb) as [Pb Lb].
  unfold head_weights_from_head_byte_ranges. destruct (head_shape k b) as [n|e] eqn:Eh; [|done]. cbn [map_err mbind result_bind].
  destruct (head_shape_Ok limits k b n (Hf k Hk) (Hf b Hb) Eh) as (Hn & HLk & HLb).
  assert (Hdim : Z.of_nat BACKBONE_FEATURE_DIM = 2000) by reflexivity.
  pose proof (length_entry_bytes k blob Pk ltac:(lia)) as Ek. pose proof (length_entry_bytes b blob Pb ltac:(lia)) as Eb. rewrite Ek, Eb.
  destruct (checked_mul (Z.of_nat BACKBONE_FEATURE_DIM) n) as [c|] eqn:Ec; [|done]. apply checked_Some in Ec as [-> _]. cbn [ok_or mbind result_bind].
  destruct (checked_mul (Z.of_nat BACKBONE_FEATURE_DIM * n) 4) as [c|] eqn:Ec; [|done]. apply checked_Some in Ec as [-> _]. cbn [ok_or mbind result_bind].
  destruct (_ <? _); [done|]. destruct (negb _); [done|].
  destruct (checked_mul n 4) as [c|] eqn:Ec; [|done]. apply checked_Some in Ec as [-> _]. cbn [ok_or mbind result_bind].
  destruct (_ <? _); [done|]. destruct (negb _); [done|].
  destruct (read_out_of_entry k blob (Z.of_nat BACKBONE_FEATURE_DIM * n) Pk ltac:(lia) ltac:(lia)) as [_ Rk].
  destruct (read_out_of_entry b blob n Pb ltac:(lia) ltac:(lia)) as [_ Rb]. rewrite Rk, Rb.
  pose proof (decode_outcome (te_name k) 0 (entry_bytes k blob)) as Dk. destruct (decode_chunks (te_name k) 0 _) as [kernel|e]; cbn [mbind result_bind]; [|by destruct Dk as (j & bits & ->)].
  pose proof (decode_outcome (te_name b) 0 (entry_bytes b blob)) as Db. destruct (decode_chunks (te_name b) 0 _) as [bias|e]; cbn [mbind result_bind]; [|by destruct Db as (j & bits & ->)].
  destruct Dk as [Dk1 Dk2], Db as [Db1 Db2]. unfold weights_ok. cbn [hw_kernel hw_bias hw_n_classes hw_in_dim].
  rewrite Dk1, Db1, !Nat2Z.inj_div, Ek, Eb, HLk, HLb. split_and!; [lia|lia|done|by rewrite Z.div_mul|by rewrite Z.div_mul|by apply Forall_app].
Qed.

(** ** Theory: programs that only read *)

Definition undisturbed (w : World) : Prop := budget w = None ∧ faults w = [].

(** Over the tree [m], [c] changes nothing and answers [v], unless the power or a
    read fails; undisturbed, it answers [v]. *)
Definition reads {A : Type} (m : fs) (c : M Fault A) (v : C A) : Prop :=
  ∀ w, visible (disk w) = m →
    disk (fst (c w)) = disk w ∧
    (snd (c w) = to_outcome v ∨ snd (c w) = Crash ∨ ∃ p, snd (c w) = Throw (Errs (CV_Read p))) ∧
    (undisturbed w → snd (c w) = to_outcome v ∧ undisturbed (fst (c w))).

Lemma reads_lift {A : Type} m (v : C A) : reads m (lift v) v.
Proof. intros w Hw. unfold lift. destruct v; cbn; split_and!; auto. Qed.

Lemma reads_mret {A : Type} m (a : A) : reads m (mret a) (Ok a).
Proof. intros w Hw. cbn. split_and!; auto. Qed.

Lemma to_outcome_Throw {E A : Type} (v : result E A) e : Throw e = to_outcome v → v = Err e.
Proof. by destruct v; intros [= ->]. Qed.
Lemma to_outcome_Ret {E A : Type} (v : result E A) a : Ret a = to_outcome v → v = Ok a.
Proof. by destruct v; intros [= ->]. Qed.
Lemma to_outcome_Crash {E A : Type} (v : result E A) : Crash = to_outcome v → False.
Proof. intros H. by destruct v. Qed.

Lemma reads_seq {A B : Type} m (c : M Fault A) (f : A → M Fault B) v (g : A → C B) :
  reads m c v → (∀ a, v = Ok a → reads m (f a) (g a)) → reads m (c ≫= f) (v ≫= g).
Proof.
  intros Hc Hf w Hw. specialize (Hc w Hw).
  assert (E : (c ≫= f) w = match c w with (w, Ret a) => f a w | (w, Throw e) => (w, Throw e) | (w, Crash) => (w, Crash) end) by reflexivity.
  rewrite !E. clear E. destruct (c w) as [w1 r]. cbn [fst snd] in *.
  destruct Hc as (Hd & Hr & Hu). assert (Hw1 : visible (disk w1) = m) by (by rewrite Hd).
  destruct r as [a|e|]; cbn [fst snd].
  - assert (Ev : v = Ok a) by (destruct Hr as [Hr|[Hr|[p Hr]]]; [by apply to_outcome_Ret|done..]). subst v.
    destruct (Hf a eq_refl w1 Hw1) as (Hd' & Hr' & Hu'). rewrite Hd', Hd. cbn [mbind result_bind]. split_and!; [done|done|intros Hq; by apply Hu', Hu].
  - split; [done|]. split.
    + destruct Hr as [->%to_outcome_Throw|[Hr|[p Hr]]]; [by left|done|injection Hr as ->; right; right; by exists p].
    + intros [->%to_outcome_Throw Hu']%Hu. done.
  - split; [done|]. split; [by right; left|]. by intros [[]%to_outcome_Crash _]%Hu.
Qed.

Lemma reads_step {A B : Type} m (c : M Fault A) (f : A → M Fault B) a v : reads m c (Ok a) → reads m (f a) v → reads m (c ≫= f) v.
Proof. intros Hc Hf. apply (reads_seq m c f (Ok a) (λ _, v)); [done|]. by intros a' [= <-]. Qed.

Lemma reads_stop {A B : Type} m (c : M Fault A) (f : A → M Fault B) e : reads m c (Err e) → reads m (c ≫= f) (Err e).
Proof. intros Hc. by apply (reads_seq m c f (Err e) (λ _, Err e)). Qed.

Lemma reads_lift_eq {A : Type} m (r v : C A) : r = v → reads m (lift r) v.
Proof. intros <-. apply reads_lift. Qed.

(** The contents of a file. *)
Definition content (m : fs) (p : path) : C (list ascii) :=
  match m !! p with Some (File c _) => Ok c | _ => errs (CV_Read (display p)) end.

Lemma reads_file m p : reads m (read_error p (fs_read p)) (content m p).
Proof.
  intros w Hw. unfold read_error, map_throw, fs_read, syscall, content, stat. rewrite Hw. unfold undisturbed.
  destruct (budget w) as [[|n]|] eqn:Eb; cbn; [split_and!; [done|by right; left|naive_solver]|..];
    (destruct (faults w) as [|[] fl]; cbn; [| |];
     try (split_and!; [done|right; right; by eexists|naive_solver]); destruct (m !! p) as [[c b| |t]|]; cbn; split_and!; auto; naive_solver).
Qed.

Definition shard_content (m : fs) (dir : path) (s : string) : C (list ascii) :=
  if trailing_separator s then Err (Errs (CV_Read (display (join_shard dir s)))) else content m (join_shard dir s).

Lemma reads_shard m dir s v : shard_content m dir s = v → reads m (read_shard dir s) v.
Proof.
  intros <-. unfold read_shard, shard_content. cbv zeta. destruct (trailing_separator s); [|apply reads_file].
  intros w Hw. cbn. split_and!; auto.
Qed.

Lemma reads_file_eq m p v : content m p = v → reads m (read_error p (fs_read p)) v.
Proof. intros <-. apply reads_file. Qed.

Section ReadFacts.
Context `{SL : SerdeLaws} `{SH : Sha256Laws}.

(** The contents of the shards in order; a shard of a content. *)
Fixpoint shard_contents (m : fs) (dir : path) (shards : list string) : C (list (list ascii)) :=
  match shards with
  | [] => Ok []
  | s :: shards => c ← shard_content m dir s; cs ← shard_contents m dir shards; Ok (c :: cs)
  end.

Definition shard_file (m : fs) (dir : path) (s : string) (c : list ascii) : Prop :=
  trailing_separator s = false ∧ ∃ b, m !! join_shard dir s = Some (File c b).

Lemma shard_contents_Ok m dir shards cs : shard_contents m dir shards = Ok cs →
  Forall2 (shard_file m dir) shards cs.
Proof.
  revert cs. induction shards as [|s shards IH]; intros cs; cbn; [by intros [= <-]|].
  intros Hb. apply bind_Ok in Hb as (c & Hc & Hb). apply bind_Ok in Hb as (cs' & Hcs & Hb). injection Hb as <-. constructor; [|by apply IH].
  unfold shard_content, content in Hc. unfold shard_file. destruct (trailing_separator s); [done|]. destruct (m !! _) as [[c' b| |t]|]; try done. injection Hc as ->. split; [done|by exists b].
Qed.

Lemma shard_contents_of m dir shards cs : Forall2 (shard_file m dir) shards cs → shard_contents m dir shards = Ok cs.
Proof. induction 1 as [|s c shards cs [Ht [b Hb]] _ IH]; [done|]. cbn. unfold shard_content, content. by rewrite Ht, Hb, IH. Qed.

Lemma content_sound m p : content m p ≠ Err Panics.
Proof. unfold content. by destruct (m !! p) as [[]|]. Qed.

Lemma shard_content_sound m dir s : shard_content m dir s ≠ Err Panics.
Proof. unfold shard_content. destruct (trailing_separator s); [done|]. apply content_sound. Qed.

Lemma reads_shards m dir k b shards hasher seen : placed k → placed b → Z.of_nat (List.length seen) ≤ u64_max → ∃ v,
  reads m (stream_shards dir k b shards hasher (buffered k b seen)) v ∧ v ≠ Err Panics ∧
  match shard_contents m dir shards with
  | Ok cs => if Z.of_nat (List.length (seen ++ concat cs)) <=? u64_max
             then v = Ok ((λ h, sha_update h (concat cs)) <$> hasher, buffered k b (seen ++ concat cs))
             else ∃ e, v = Err e
  | Err _ => ∃ e, v = Err e
  end.
Proof.
  intros Hk Hb. revert hasher seen. induction shards as [|s shards IH]; intros hasher seen Hseen; cbn [stream_shards shard_contents].
  { eexists. split; [apply reads_mret|]. cbn [concat]. rewrite app_nil_r, (proj2 (Z.leb_le _ _)) by done. split; [done|].
    destruct hasher as [h|]; cbn; [by rewrite sha_update_nil|done]. }
  destruct (shard_content m dir s) as [c|e] eqn:Ec.
  - pose proof (stream_shard_seen k b seen c Hk Hb) as Hs. cbn [mbind result_bind].
    destruct (Z.leb_spec (Z.of_nat (List.length (seen ++ c))) u64_max) as [Hle|Hgt].
    + destruct (IH ((λ h, sha_update h c) <$> hasher) (seen ++ c) Hle) as (v & Hv & Hnp & Hval). exists v. split; [|split; [done|]].
      * eapply reads_step; [by apply reads_shard|]. cbv zeta. eapply reads_step; [|exact Hv]. by apply reads_lift_eq.
      * destruct (shard_contents m dir shards) as [cs|e]; [|exact Hval]. cbn [mbind result_bind concat]. rewrite <-app_assoc in Hval.
        destruct (Z.leb_spec (Z.of_nat (List.length (seen ++ c ++ concat cs))) u64_max); [|exact Hval]. rewrite Hval. f_equal. f_equal.
        destruct hasher as [h|]; cbn; [by rewrite sha_update_app|done].
    + eexists. split; [|split].
      * eapply reads_step; [by apply reads_shard|]. cbv zeta. apply reads_stop. by apply reads_lift_eq.
      * done.
      * destruct (shard_contents m dir shards) as [cs|e]; cbn [mbind result_bind]; [|by eexists]. cbn [concat].
        destruct (Z.leb_spec (Z.of_nat (List.length (seen ++ c ++ concat cs))) u64_max) as [Hle|]; [|by eexists].
        rewrite app_assoc, length_app in Hle. lia.
  - exists (Err e). split; [|split; [|by eexists]].
    + apply reads_stop. by apply reads_shard.
    + intros [= ->]. by apply (shard_content_sound m dir s).
Qed.
End ReadFacts.

(** ** The bundle on disk *)

Section Load.
Context `{SL : SerdeLaws} `{SH : Sha256Laws}.

(** A directory with a [model.json] that parses and its shards. *)
Definition bundle (m : fs) (limits : ConvertLimits) (dir : path) (json : list ascii) (manifest : TfjsManifest) (shards : list (list ascii)) : Prop :=
  (∃ b, m !! (dir ++ ["model.json"%string]) = Some (File json b)) ∧ parse_tfjs_manifest_with_limits limits json = Ok manifest ∧
  Forall2 (shard_file m dir) (tm_shards manifest) shards.

Lemma entry_window_full e blob : placed e → te_offset_bytes e + te_len_bytes e ≤ Z.of_nat (List.length blob) → entry_window e blob = entry_bytes e blob.
Proof. intros (H1 & H2 & _) Hl. unfold entry_window, entry_bytes. apply window_full. lia. Qed.

Lemma reads_streaming m limits dir manifest k b hasher : manifest_fits limits manifest → pick_tfjs_head_entries manifest = Ok (k, b) → ∃ v,
  reads m (read_head_bytes_streaming dir manifest k b hasher) v ∧ v ≠ Err Panics ∧
  (∀ cs, shard_contents m dir (tm_shards manifest) = Ok cs → Z.of_nat (List.length (concat cs)) = declared_total manifest →
     v = Ok ((λ h, sha_update h (concat cs)) <$> hasher, (entry_bytes k (concat cs), entry_bytes b (concat cs)))) ∧
  (∀ x, v = Ok x → ∃ cs, shard_contents m dir (tm_shards manifest) = Ok cs ∧ Z.of_nat (List.length (concat cs)) = declared_total manifest).
Proof.
  intros Hm Hp. destruct (totals limits manifest Hm) as (total & _ & Ht & _ & Hu & Hin). destruct (pick_elem manifest k b Hp) as [Hk Hb].
  destruct (Hin k Hk) as [Pk Lk], (Hin b Hb) as [Pb Lb].
  destruct (reads_shards m dir k b (tm_shards manifest) hasher [] Pk Pb ltac:(by vm_compute)) as (v & Hv & Hnp & Hval).
  exists (x ← v; r ← streaming_end manifest (snd x); Ok (fst x, r)). split; [|split; [|split]].
  - unfold read_head_bytes_streaming. rewrite streaming_start_seen. apply reads_seq; [done|]. intros x _. apply reads_seq; [apply reads_lift|]. intros r _. apply reads_mret.
  - destruct v as [[h s]|[|e]]; [|done|done]. cbn [mbind result_bind fst snd]. unfold streaming_end. by destruct (negb _).
  - intros cs Hcs Hl. rewrite Hcs in Hval. cbn [app] in Hval. rewrite (proj2 (Z.leb_le _ u64_max)) in Hval by lia. rewrite Hval.
    cbn [mbind result_bind fst snd]. unfold streaming_end. cbn [st_cumulative st_kernel st_bias buffered]. rewrite Hl, Z.eqb_refl. cbn [negb mbind result_bind].
    by rewrite !entry_window_full by (done || lia).
  - intros x Hx. destruct (shard_contents m dir (tm_shards manifest)) as [cs|e]; [|destruct Hval as [e' ->]; done]. cbn [app] in Hval.
    destruct (_ <=? _); [|destruct Hval as [e' ->]; done]. rewrite Hval in Hx. cbn [mbind result_bind fst snd] in Hx. unfold streaming_end in Hx.
    cbn [st_cumulative buffered] in Hx. exists cs. split; [done|]. by destruct (Z.eqb_spec (Z.of_nat (List.length (concat cs))) (declared_total manifest)).
Qed.

(** A manifest whose blob is read in one buffer declares its length. *)
Lemma buffers_length limits manifest blob weights : manifest_fits limits manifest →
  extract_head_from_tfjs_buffers manifest blob = Ok weights → Z.of_nat (List.length blob) = declared_total manifest.
Proof.
  intros Hm Hx. destruct (totals limits manifest Hm) as (total & _ & -> & He & _). unfold extract_head_from_tfjs_buffers in Hx. rewrite He in Hx.
  by destruct (Z.eqb_spec (Z.of_nat (List.length blob)) total).
Qed.

Lemma buffers_ok limits manifest k b blob weights : manifest_fits limits manifest → pick_tfjs_head_entries manifest = Ok (k, b) →
  extract_head_from_tfjs_buffers manifest blob = Ok weights → weights_ok weights.
Proof.
  intros Hm Hp Hx. pose proof (buffers_length limits manifest blob weights Hm Hx) as Hl.
  pose proof (ranges_outcome limits manifest k b blob Hm Hp Hl) as Ho. by rewrite <-(buffers_split limits manifest k b _ Hm Hp Hl), Hx in Ho.
Qed.

Lemma reads_head m limits dir manifest k b hasher : manifest_fits limits manifest → pick_tfjs_head_entries manifest = Ok (k, b) → ∃ v,
  reads m (read_head dir manifest k b hasher) v ∧ v ≠ Err Panics ∧
  ∀ h weights, v = Ok (h, weights) ↔ ∃ cs, shard_contents m dir (tm_shards manifest) = Ok cs ∧
    extract_head_from_tfjs_buffers manifest (concat cs) = Ok weights ∧ h = (λ h, sha_update h (concat cs)) <$> hasher.
Proof.
  intros Hm Hp. destruct (reads_streaming m limits dir manifest k b hasher Hm Hp) as (v & Hv & Hnp & Hval & Hinv).
  exists (y ← v; weights ← head_weights_from_head_byte_ranges k b (fst (snd y)) (snd (snd y)); Ok (fst y, weights)). split; [|split].
  - apply reads_seq; [exact Hv|]. intros y _. apply reads_seq; [apply reads_lift|]. intros hw _. apply reads_mret.
  - destruct v as [y|[|e]]; [|done|done]. destruct (Hinv y eq_refl) as (cs & Hcs & Hl). rewrite (Hval cs Hcs Hl).
    cbn [mbind result_bind fst snd]. pose proof (ranges_outcome limits manifest k b (concat cs) Hm Hp Hl) as Ho.
    destruct (head_weights_from_head_byte_ranges _ _ _ _) as [hw|e]; [done|]. intros [= ->]. done.
  - intros h weights. split.
    + intros Hx. apply bind_Ok in Hx as (y & Hy & Hx). destruct (Hinv y Hy) as (cs & Hcs & Hl). rewrite (Hval cs Hcs Hl) in Hy. injection Hy as <-. cbn [fst snd] in Hx.
      apply bind_Ok in Hx as (hw & Hhw & Hx). injection Hx as <- <-. exists cs. by rewrite (buffers_split limits manifest k b (concat cs) Hm Hp Hl).
    + intros (cs & Hcs & Hx & ->). pose proof (buffers_length limits manifest _ _ Hm Hx) as Hl. rewrite (Hval cs Hcs Hl).
      rewrite (buffers_split limits manifest k b (concat cs) Hm Hp Hl) in Hx. cbn [mbind result_bind fst snd]. by rewrite Hx.
Qed.

Lemma reads_load m limits hashed dir : 0 ≤ max_shards limits → ∃ v,
  reads m (load_dir limits hashed dir) v ∧ v ≠ Err Panics ∧
  ∀ weights sha, v = Ok (weights, sha) ↔ ∃ json manifest shards, bundle m limits dir json manifest shards ∧
    extract_head_from_tfjs_buffers manifest (concat shards) = Ok weights ∧
    sha = (if hashed then Some (sha256_hex_of (json ++ concat shards)) else None).
Proof.
  intros Hmax. set (model_json := dir ++ ["model.json"%string]). unfold load_dir. fold model_json. cbv zeta.
  destruct (content m model_json) as [json|e] eqn:Ej.
  2:{ exists (Err e). split; [by apply reads_stop, reads_file_eq|split].
      - intros [= ->]. by apply (content_sound m model_json).
      - intros weights sha. split; [done|]. intros (json & manifest & shards & ((b & Hb) & _) & _). unfold content in Ej. fold model_json in Hb. by rewrite Hb in Ej. }
  assert (Hj : ∀ json', (∃ b, m !! model_json = Some (File json' b)) ↔ json' = json).
  { intros json'. unfold content in Ej. destruct (m !! model_json) as [[c b| |t]|]; try done. injection Ej as ->. naive_solver. }
  destruct (parse_tfjs_manifest_with_limits limits json) as [manifest|e] eqn:Ep.
  2:{ exists (Err (Errs e)). split; [|split; [done|]].
      - eapply reads_step; [by apply reads_file_eq|]. apply reads_stop, reads_lift_eq. by rewrite Ep.
      - intros weights sha. split; [done|]. intros (json' & manifest & shards & (->%Hj & Hp & _) & _). by rewrite Ep in Hp. }
  pose proof (parse_fits limits json manifest Hmax Ep) as Hm.
  destruct (pick_tfjs_head_entries manifest) as [[k b]|e] eqn:Epick.
  2:{ exists (Err (Errs e)). split; [|split; [done|]].
      - eapply reads_step; [by apply reads_file_eq|]. eapply reads_step; [apply reads_lift_eq; by rewrite Ep|]. apply reads_stop, reads_lift_eq. by rewrite Epick.
      - intros weights sha. split; [done|].
        intros (json' & manifest' & shards & (->%Hj & Hp & _) & Hx & _). rewrite Ep in Hp. injection Hp as <-.
        unfold extract_head_from_tfjs_buffers in Hx. rewrite Epick in Hx. by destruct (negb _). }
  destruct (reads_head m limits dir manifest k b (if hashed then Some (sha_update sha_new json) else None) Hm Epick) as (v & Hv & Hnp & Hval).
  exists (y ← v; Ok (snd y, (λ h, string_of_list_ascii (hex_lowercase (sha_finalize h))) <$> (fst y : option sha_state))). split; [|split].
  - eapply reads_step; [by apply reads_file_eq|]. eapply reads_step; [apply reads_lift_eq; by rewrite Ep|].
    eapply reads_step; [apply reads_lift_eq; by rewrite Epick|]. apply reads_seq; [exact Hv|]. intros y _. apply reads_mret.
  - by destruct v as [y|[|e]].
  - assert (Hdig : ∀ cs : list (list ascii), (λ h, string_of_list_ascii (hex_lowercase (sha_finalize h))) <$> ((λ h, sha_update h (concat cs)) <$> (if hashed then Some (sha_update sha_new json) else None)) =
      (if hashed then Some (sha256_hex_of (json ++ concat cs)) else None)).
    { intros cs. destruct hashed; [|done]. cbn [fmap option_fmap option_map]. unfold sha256_hex_of. by rewrite sha_update_app. }
    intros weights sha. split.
    + intros Hx. apply bind_Ok in Hx as ([h hw] & (cs & Hcs & Hx & ->)%Hval & [= <- <-]). exists json, manifest, cs. split_and!; [|done|apply Hdig].
      split_and!; [by apply Hj|done|by apply shard_contents_Ok].
    + intros (json' & manifest' & shards & (->%Hj & Hp & Hs) & Hx & ->). rewrite Ep in Hp. injection Hp as <-.
      apply shard_contents_of in Hs. rewrite (proj2 (Hval _ weights) (ex_intro _ shards (conj Hs (conj Hx eq_refl)))). cbn [mbind result_bind fst snd]. by rewrite Hdig.
Qed.

(** C18: Reading a bundle shard by shard, keeping only the bytes of the head, is
    reading its concatenation: over any disk, whatever fails, the loader changes
    nothing and never panics (no range out of bounds, no overflow); when it
    returns, its weights are those the one-buffer extractor reads from the
    concatenated shards of that bundle, all finite and of the declared shape, and
    its digest is that of [model.json] followed by the shards.  Undisturbed, it
    returns on every bundle on which the one-buffer extractor succeeds. *)
Theorem streaming_is_concatenation (limits : ConvertLimits) (hashed : bool) (dir : path) (w : World) :
  0 ≤ max_shards limits →
  let '(w', r) := load_dir limits hashed dir w in
  let digest json shards := if hashed then Some (sha256_hex_of (json ++ concat shards)) else None in
  disk w' = disk w ∧ r ≠ Throw Panics ∧
  (∀ weights sha, r = Ret (weights, sha) → weights_ok weights ∧ ∃ json manifest shards,
     bundle (visible (disk w)) limits dir json manifest shards ∧
     extract_head_from_tfjs_buffers manifest (concat shards) = Ok weights ∧ sha = digest json shards) ∧
  (undisturbed w → ∀ json manifest shards weights, bundle (visible (disk w)) limits dir json manifest shards →
     extract_head_from_tfjs_buffers manifest (concat shards) = Ok weights → r = Ret (weights, digest json shards)).
Proof.
  intros Hmax. destruct (reads_load (visible (disk w)) limits hashed dir Hmax) as (v & Hv & Hnp & Hval).
  specialize (Hv w eq_refl). destruct (load_dir limits hashed dir w) as [w' r]. cbn [fst snd] in Hv. cbv zeta. destruct Hv as (Hd & Hr & Hu).
  split_and!; [done| | |].
  - destruct Hr as [->|[->|[p ->]]]; [|done|done]. destruct v as [x|e]; [done|]. intros [= ->]. done.
  - intros weights sha ->. destruct Hr as [Hr|[Hr|[p Hr]]]; [|done|done]. apply to_outcome_Ret, Hval in Hr as (json & manifest & shards & Hb & Hx & ->).
    split; [|by exists json, manifest, shards]. destruct Hb as (_ & Hp & _). pose proof (parse_fits limits json manifest Hmax Hp) as Hm.
    destruct (pick_tfjs_head_entries manifest) as [[k b]|e] eqn:Epick; [by eapply buffers_ok|].
    unfold extract_head_from_tfjs_buffers in Hx. rewrite Epick in Hx. by destruct (negb _).
  - intros [-> _]%Hu json manifest shards weights Hb Hx.
    by rewrite (proj2 (Hval weights _) (ex_intro _ json (ex_intro _ manifest (ex_intro _ shards (conj Hb (conj Hx eq_refl)))))).
Qed.
End Load.

(** The blob of weights that passed passes the loader's checks, which read their
    class count. *)
Lemma converted_blob_header `{N : TrainLib} `{HP : !HeadParams N} (weights : HeadWeights) (blob : list ascii) (p : path) :
  weights_ok weights → build_head_mpk_blob weights = Ok blob → Z.of_nat (List.length blob) ≤ u32_max →
  ∃ h, check_head_bytes p blob = Ok h ∧ num_classes h = hw_n_classes weights.
Proof.
  intros (Hn & Hd & Hk & Hbias & _). unfold build_head_mpk_blob, validate_head_class_count. change (max_n_classes default_limits) with 10000.
  destruct (Z.eqb_spec (hw_n_classes weights) 0) as [|_]; [lia|]. cbn [orb]. rewrite (proj2 (Z.ltb_ge 10000 _)) by lia. cbn [map_err mbind result_bind].
  rewrite Hd, Z.eqb_refl. cbn [negb]. change MAX_N_CLASSES with 100000. rewrite (proj2 (Z.ltb_ge 100000 _)) by lia. cbn [orb].
  rewrite <-Hd, Hk, Hbias, !Z.eqb_refl. cbn [negb]. destruct (record_head _) as [payload|m]; [|done]. cbn [map_err mbind result_bind].
  rewrite Hd. set (n := hw_n_classes weights) in *. set (plen := Z.of_nat (List.length payload)).
  set (header := serialize_header _ _ _). pose proof (eq_refl header) as Eh. unfold header at 2 in Eh. clearbody header. intros [= <-].
  rewrite length_app. intros Hl. assert (Hu : 0 ≤ plen ≤ u32_max) by (unfold plen; lia).
  assert (Hf : 0 ≤ Z.of_nat BACKBONE_FEATURE_DIM < u32_max + 1) by (split; [lia|by vm_compute]).
  unfold u32_max in *. rewrite Eh, (Z.mod_small _ _ Hf), (Z.mod_small n), (Z.mod_small plen) by lia. apply framed_payload_passes; unfold is_u32, u32_max in *; lia.
Qed.

Lemma build_blob_sound `{N : TrainLib} `{HP : !HeadParams N} weights : weights_ok weights → build_head_mpk_blob weights ≠ Err Panics.
Proof.
  intros (Hn & Hd & Hk & Hbias & _). unfold build_head_mpk_blob, validate_head_class_count. rewrite Hk, Hbias, !Z.eqb_refl. cbn [negb].
  generalize serialize_header. intros header. generalize (max_n_classes default_limits). intros cap.
  destruct (_ || (cap <? _)); cbn [map_err mbind result_bind]; [congruence|]. destruct (negb _); [unfold errs; congruence|].
  destruct (_ || _); [unfold errs; congruence|]. destruct (record_head _); cbn [map_err mbind result_bind]; congruence.
Qed.

(** ** A bundle of two shards *)

(** JSON values as a tree; the parser answers one of them. *)
Inductive toy_json : Type := JNumber (n : Z) | JString (s : string) | JArray (l : list toy_json) | JObject (fields : list (string * toy_json)).

Definition toy_get (key : string) (v : toy_json) : option toy_json :=
  match v with JObject fields => snd <$> List.find (λ x, String.eqb (fst x) key) fields | _ => None end.

Definition toy_value (parsed : toy_json) : SerdeValue := {|
  Value := toy_json;
  value_from_slice := λ _, Some parsed;
  get := toy_get;
  as_array := λ v, match v with JArray l => Some l | _ => None end;
  as_str := λ v, match v with JString s => Some s | _ => None end;
  as_u64 := λ v, match v with JNumber n => if (0 <=? n) && (n <=? u64_max) then Some n else None | _ => None end;
|}.

Lemma toy_value_laws parsed : SerdeLaws (toy_value parsed).
Proof.
  split. intros [n| | |] m; cbn; try done. destruct (Z.leb_spec 0 n); [|done]. destruct (Z.leb_spec n u64_max); [|done]. intros [= <-]. lia.
Qed.

Definition toy_weight (name : string) (shape : list Z) : toy_json :=
  JObject [("name", JString name); ("shape", JArray (map JNumber shape))]%string.
(** A layer of one weight, then the head of two classes. *)
Definition two_class_json : toy_json :=
  JObject [("weightsManifest"%string, JArray [JObject [
    ("paths"%string, JArray [JString "a.bin"%string; JString "b/c.bin"%string]);
    ("weights"%string, JArray [toy_weight "conv" [1]; toy_weight "head/kernel" [2000; 2]; toy_weight "head/bias" [2]])]])].

Definition zero_bytes (n : nat) : list ascii := replicate n "000"%char.
(** The cut between the shards is inside the kernel. *)
Definition two_shards : fs :=
  {[ [] := Dir; ["m"]%string := Dir; ["m"; "b"]%string := Dir; ["m"; "model.json"]%string := File (bytes_of "{}") true;
     ["m"; "a.bin"]%string := File (zero_bytes 9) true; ["m"; "b"; "c.bin"]%string := File (zero_bytes 16003) true ]}.

Section Bundle.
#[local] Instance bundle_value : SerdeValue := toy_value two_class_json.
#[local] Existing Instances toy_value_laws identity_sha identity_sha_laws.

Lemma streaming_is_concatenation_witness :
  let w := mkWorld (mkDisk two_shards []) None [] in
  match snd (load_dir default_limits true ["m"%string] w) with
  | Ret (weights, Some digest) =>
      hw_n_classes weights = 2 ∧ weights_ok weights ∧ digest = sha256_hex_of (bytes_of "{}" ++ concat [zero_bytes 9; zero_bytes 16003])
  | _ => False
  end.
Proof.
  intros w. pose proof (streaming_is_concatenation (SL := toy_value_laws two_class_json) (SH := identity_sha_laws) default_limits true ["m"%string] w) as H.
  specialize (H ltac:(vm_compute; discriminate)).
  assert (E : match snd (load_dir default_limits true ["m"%string] w) with
              | Ret (weights, Some digest) => (hw_n_classes weights =? 2) && String.eqb digest (sha256_hex_of (bytes_of "{}" ++ concat [zero_bytes 9; zero_bytes 16003]))
              | _ => false end = true) by (vm_compute; reflexivity).
  destruct (load_dir default_limits true ["m"%string] w) as [w' [[weights [digest|]]|e|]]; try discriminate E. cbn [snd] in *.
  apply andb_true_iff in E as [E1 E2]. destruct H as (_ & _ & H & _). destruct (H weights (Some digest) eq_refl) as [Hok _].
  split; [by apply Z.eqb_eq|]. split; [exact Hok|by apply String.eqb_eq].
Defined.
End Bundle.

(** ** The three artifacts *)

#[export] Instance Fault_sound : Sound Fault := λ e, e ≠ Panics.

Section Artifacts.
Context `{N : TrainLib} `{HP : !HeadParams N} `{U : UuidLib} `{TL : TempLaws} `{JCM : !Json ConversionMetadata}.

Lemma put_scope_sibling (dst : path) (n m : string) : put_scope (dst ++ [n]) (dst ++ [m]) → m = n ∨ String.prefix temp_prefix m = true.
Proof.
  intros [E|(k & E & Hk)]; [apply app_inj_tail in E as [_ ->]; by left|].
  rewrite parent_app in E. apply app_inj_tail in E as [_ ->]. by right.
Qed.


(** A file put beside files of which something is known. *)
Lemma put_beside (dst : path) (n : string) bytes (known : list (string * list (option node))) :
  String.prefix temp_prefix n = false → Forall (λ x, fst x ≠ n ∧ String.prefix temp_prefix (fst x) = false) known →
  let at_dst := map (λ x, (dst ++ [fst x], snd x)) in
  triple (λ d, no_moves d ∧ facts (at_dst known) d) (put_atomic (dst ++ [n]) bytes)
    (λ _ d, no_moves d ∧ facts (at_dst ((n, [Some (File bytes true)]) :: known)) d)
    (λ d, no_moves d ∧ facts (at_dst known) d) (λ d, no_moves d ∧ facts (at_dst known) d).
Proof.
  intros Hn Hk at_dst. eapply triple_conseq; [apply (put_atomic_triple (facts (at_dst known)) None (dst ++ [n]) bytes)|..].
  - by destruct dst.
  - by apply not_temp_snoc.
  - apply facts_stable, List.Forall_map. eapply list.Forall_impl; [exact Hk|]. intros x [H1 H2] [|]%put_scope_sibling; [done|congruence].
  - intros d [H1 H2]. split_and!; [done|done|constructor].
  - intros _ d (H1 & H2 & H3). split; [done|]. by constructor.
  - by intros d (H1 & H2 & _).
  - by intros d (H1 & H2 & _).
Qed.

Variables (weights : HeadWeights) (labels : list string) (dst : path) (sha : string) (head_id : HeadId) (created_at : string).

Definition conversion_metadata : ConversionMetadata := mkConversionMetadata 1 sha (hw_n_classes weights) labels created_at head_id.

(** A whole conversion: the head of the weights, which the loader accepts, its
    labels, and the metadata. *)
Definition complete (img : fs) : Prop :=
  ∃ blob mb, build_head_mpk_blob weights = Ok blob ∧ to_vec conversion_metadata = Some mb ∧
    img !! (dst ++ ["head.mpk"%string]) = Some (File blob true) ∧
    img !! (dst ++ ["labels.txt"%string]) = Some (File (labels_blob_of labels) true) ∧
    img !! (dst ++ ["metadata.json"%string]) = Some (File mb true) ∧
    (Z.of_nat (List.length blob) ≤ u32_max →
     ∃ h, check_head_bytes (dst ++ ["head.mpk"%string]) blob = Ok h ∧ num_classes h = Z.of_nat (List.length labels)).

(** Without the marker, or whole. *)
Definition marked (d : Disk) : Prop := ∀ img, crash_image d img → img !! (dst ++ ["metadata.json"%string]) = None ∨ complete img.

Definition finished (ha : HeadArtifacts) (d : Disk) : Prop :=
  ha = mkHeadArtifacts (dst ++ ["head.mpk"%string]) (dst ++ ["labels.txt"%string]) (dst ++ ["metadata.json"%string]) head_id (hw_n_classes weights) sha ∧
  ∀ img, crash_image d img → complete img.

Definition known_at (known : list (string * list (option node))) (d : Disk) : Prop :=
  no_moves d ∧ facts (map (λ x, (dst ++ [fst x], snd x)) known) d.

Lemma unmarked known d : known_at (known ++ [("metadata.json"%string, [None])]) d → marked d.
Proof.
  intros [_ H] img Hi. left. apply (facts_crash _ _ _ _ _ H); [|done|done]. rewrite map_app. apply elem_of_app. right. by left.
Qed.

Hypothesis Hw : weights_ok weights.
Hypothesis Hl : Z.of_nat (List.length labels) = hw_n_classes weights.

Lemma whole blob mb (d : Disk) img :
  build_head_mpk_blob weights = Ok blob → to_vec conversion_metadata = Some mb →
  facts [(dst ++ ["labels.txt"%string], [Some (File (labels_blob_of labels) true)]); (dst ++ ["head.mpk"%string], [Some (File blob true)])] d →
  crash_image d img → img !! (dst ++ ["metadata.json"%string]) = Some (File mb true) → complete img.
Proof.
  intros Hb Hmb HF Hi Hm. exists blob, mb. split_and!; [done|done| | |done|].
  - eapply facts_crash; [exact HF|by right; left|done|done].
  - eapply facts_crash; [exact HF|by left|done|done].
  - intros Hu. destruct (converted_blob_header weights blob (dst ++ ["head.mpk"%string]) Hw Hb Hu) as (h & H1 & H2). exists h. by rewrite H2, Hl.
Qed.

Lemma marker_triple blob mb : build_head_mpk_blob weights = Ok blob → to_vec conversion_metadata = Some mb →
  triple (known_at [("labels.txt"%string, [Some (File (labels_blob_of labels) true)]); ("head.mpk"%string, [Some (File blob true)]); ("metadata.json"%string, [None])])
    (put_atomic (dst ++ ["metadata.json"%string]) mb) (λ _ d, ∀ img, crash_image d img → complete img) marked marked.
Proof.
  intros Hb Hmb. set (both := facts [(dst ++ ["labels.txt"%string], [Some (File (labels_blob_of labels) true)]); (dst ++ ["head.mpk"%string], [Some (File blob true)])]).
  assert (Hboth : stable (put_scope (dst ++ ["metadata.json"%string])) both).
  { apply facts_stable. repeat constructor; by intros [|]%put_scope_sibling. }
  assert (Hmark : ∀ d, both d ∧ no_moves d ∧ among d (dst ++ ["metadata.json"%string]) [Some (File mb true); None] → marked d).
  { intros d (H1 & _ & H2) img Hi. pose proof (among_crash _ _ _ _ H2 eq_refl Hi) as H3.
    apply elem_of_cons in H3 as [H3| ->%list_elem_of_singleton]; [right; by eapply whole|by left]. }
  eapply triple_conseq; [apply (put_atomic_triple both (Some [None]) (dst ++ ["metadata.json"%string]) mb); [by destruct dst|by apply not_temp_snoc|exact Hboth]|..].
  - intros d [H1 H2]. split_and!; [|done|]; apply facts_spec; intros x Hx; eapply facts_spec; [exact H2| |exact H2|]; cbn in *; naive_solver.
  - intros _ d (H1 & _ & H3) img Hi. eapply whole; [done|done|exact H1|exact Hi|by eapply definite_crash].
  - intros d (H1 & H2 & H3). cbn [held app] in H3. apply facts_one in H3. by apply Hmark.
  - intros d (H1 & H2 & H3). cbn [held app] in H3. apply facts_one in H3. by apply Hmark.
Qed.

Lemma artifacts_sound w e : snd (write_head_artifacts weights labels dst sha head_id created_at w) = Throw e → sound_error e.
Proof.
  revert w e. change (throws_sound (write_head_artifacts weights labels dst sha head_id created_at)). unfold write_head_artifacts.
  apply sound_bind; [unfold lift, validate_head_class_count; destruct (_ || _); by intros w e [= <-]|]. intros _.
  destruct (negb _); [by intros w e [= <-]|]. destruct (negb _); [by intros w e [= <-]|].
  apply sound_bind; [by apply sound_map|]. intros _. apply sound_bind.
  { intros w e. unfold lift. pose proof (build_blob_sound weights Hw) as Hb. destruct (build_head_mpk_blob weights) as [blob|e']; [done|]. intros [= <-]. by intros ->. }
  intros blob. apply sound_bind; [by apply sound_map|]. intros _. apply sound_bind; [by apply sound_map|]. intros _.
  destruct (to_vec _) as [mb|]; [|by intros w e [= <-]]. apply sound_bind; [by apply sound_map|]. intros _. apply sound_ret.
Qed.

Lemma artifacts_outcome :
  triple (known_at [("metadata.json"%string, [None])]) (write_head_artifacts weights labels dst sha head_id created_at) finished marked marked.
Proof.
  pose proof Hw as (Hn & Hd & _). unfold write_head_artifacts, validate_head_class_count. change (max_n_classes default_limits) with 10000.
  destruct (Z.eqb_spec (hw_n_classes weights) 0) as [|_]; [lia|]. cbn [orb]. rewrite (proj2 (Z.ltb_ge 10000 _)) by lia.
  eapply triple_bind with (R := λ _, known_at [("metadata.json"%string, [None])]); [by apply triple_ret|]. intros _.
  rewrite Hl, Hd, !Z.eqb_refl. cbn [negb]. rewrite <-Hl. cbv zeta.
  assert (H0 : ∀ d, known_at [("metadata.json"%string, [None])] d → marked d) by (intros d; apply (unmarked [])).
  eapply triple_bind with (R := λ _, known_at [("metadata.json"%string, [None])]).
  { apply triple_map_throw. eapply triple_conseq; [apply (mkdir_triple (known_at [("metadata.json"%string, [None])]) (λ q, q ≠ dst ++ ["metadata.json"%string]))|done|intros ? d Hk; exact Hk|done..].
    - apply stable_and; [apply no_moves_stable|]. apply facts_stable. by repeat constructor; intros [].
    - intros d q _ _ Hq. left. intros ->. cbn [app] in Hq. apply prefix_length in Hq. rewrite length_app in Hq. cbn in Hq. lia. }
  intros _. eapply triple_bind with (R := λ blob d, build_head_mpk_blob weights = Ok blob ∧ known_at [("metadata.json"%string, [None])] d).
  { unfold lift. destruct (build_head_mpk_blob weights) as [blob|e]; [by apply triple_ret|by apply triple_throw]. }
  intros blob. apply triple_pure. intros Hb.
  eapply triple_bind with (R := λ _, known_at (("head.mpk"%string, [Some (File blob true)]) :: [("metadata.json"%string, [None])])).
  { apply triple_map_throw. eapply triple_conseq; [apply (put_beside dst "head.mpk" blob [("metadata.json"%string, [None])])|..]; [done|by repeat constructor|done..]. }
  intros _. eapply triple_bind with (R := λ _, known_at (("labels.txt"%string, [Some (File (labels_blob_of labels) true)]) :: ("head.mpk"%string, [Some (File blob true)]) :: [("metadata.json"%string, [None])])).
  { apply triple_map_throw. eapply triple_conseq; [apply (put_beside dst "labels.txt" (labels_blob_of labels) [("head.mpk"%string, [Some (File blob true)]); ("metadata.json"%string, [None])])|..];
      [done|by repeat constructor|done|done| |]; intros d; apply (unmarked [_]). }
  intros _. rewrite Hl. fold conversion_metadata. destruct (to_vec conversion_metadata) as [mb|] eqn:Hmb; [|apply triple_throw; intros d; apply (unmarked [_; _])].
  eapply triple_bind with (R := λ _ d, ∀ img, crash_image d img → complete img); [|intros u; apply triple_ret; by intros d].
  by apply triple_map_throw, marker_triple.
Qed.

End Artifacts.

(** ** A conversion of one class *)

Section OneClass.
#[local] Existing Instances text_uuid_lib counter_lib long_temp_lib long_temp_laws.
#[local] Instance sized_params : HeadParams counter_lib := {| head_from_data := λ _ _ n, (0%nat, n) |}.

#[local] Instance metadata_eq_dec : EqDecision ConversionMetadata.
Proof. solve_decision. Defined.
#[local] Instance metadata_countable : Countable ConversionMetadata.
Proof.
  apply (inj_countable' (λ m, (cm_schema_version m, (cm_source_sha256 m, (cm_n_classes m, (cm_labels m, (cm_created_at m, cm_head_id m))))))
    (λ '(a, (b, (c, (d, (e, f))))), mkConversionMetadata a b c d e f)).
  by intros [].
Defined.
#[local] Instance metadata_bits : Json ConversionMetadata := bits_json ConversionMetadata.

Definition one_class : HeadWeights := mkHeadWeights (replicate BACKBONE_FEATURE_DIM f32_zero) [f32_one] 1 (Z.of_nat BACKBONE_FEATURE_DIM).
Definition empty_dir : World := mkWorld (mkDisk {[ [] := Dir; ["o"]%string := Dir ]} []) None [].

Lemma one_class_ok : weights_ok one_class.
Proof.
  split_and!; [done|done|reflexivity|by vm_compute|reflexivity|]. unfold one_class. cbn [hw_kernel hw_bias]. apply Forall_app. split; [by apply Forall_replicate|by repeat constructor].
Qed.

End OneClass.
