(* ===== verification/ConvertRun.v ===== *)
(** * Converting TFJS bundles: the jobs ([src/modules/converter.rs], [src/modules/api/routes/converter.rs])

    [run_convert_job]: the bundle staged by hard links below the workspace's
    [.tmp/], its head read, labelled, packed and published in the workspace's
    rotation, every phase logged; and the route that starts a job. *)

From Stdlib Require Import SpecFloat.
From S2P Require Import Prelude Ids AssetPath HeadHeader Common Text Workspace Broadcast JobRegistry FileSystem FsLogic FsAtomic Schema Mgr HeadRotation Staging StagingFacts FsRun ActiveHead AssetTree Dataset Recovery ActiveRecovery RecoveryFacts RecoverySafety ActiveFacts ActiveBoot WorkspaceRegistry HotHead F32 F32Facts RequestPayload ApiErrors FinetuneTrain FinetunePublish FinetuneExamples TrainRun Converter.
From stdpp Require Import list.

Local Open Scope Z_scope.

(** ** Staging *)

(** [std::fs::hard_link]; a symbolic link is linked itself. *)
Definition hard_link (src dst : path) : M IoKind unit :=
  syscall (λ d, match stat src d, stat dst d with
                | None, _ => (d, Err IoNotFound)
                | Some Dir, _ => (d, Err IoOther)
                | Some _, Some _ => (d, Err IoAlreadyExists)
                | Some n, None => if parent_ok dst d then (add_op (OpSet dst n) d, Ok tt) else (d, Err IoNotFound)
                end).

(** The other names of the file at [dst], when a link put it there: a link is a
    destination and its source. *)
Definition other_names (links : list (path * path)) (dst : path) : list path :=
  match List.find (λ l, bool_decide (fst l = dst)) links with
  | Some (_, src) => src :: map fst (List.filter (λ l, bool_decide (snd l = src) && negb (bool_decide (fst l = dst))) links)
  | None => []
  end.

(** The bytes of a file under every name it has. *)
Definition set_names (names : list path) (bytes : list ascii) (d : Disk) : Disk :=
  foldl (λ d p, add_op (OpSet p (File bytes false)) d) d names.

(** [File::create(dst)] and a write to it, where [others] name the same file. *)
Definition truncate_shared (others : list path) (dst : path) : M IoKind unit :=
  syscall (λ d, match stat dst d with
                | Some (File _ _) => (set_names (others ++ [dst]) [] d, Ok tt)
                | Some _ => (d, Err IoOther)
                | None => if parent_ok dst d then (add_op (OpSet dst (File [] false)) d, Ok tt) else (d, Err IoNotFound)
                end).
Definition write_shared (others : list path) (dst : path) (bytes : list ascii) : M IoKind unit :=
  syscall (λ d, match stat dst d with
                | Some (File c _) => (set_names (others ++ [dst]) (c ++ bytes) d, Ok tt)
                | _ => (d, Err IoNotFound)
                end).

(** [std::fs::copy]: the source is opened, the destination truncated, the bytes
    are copied. *)
Definition fs_copy (others : list path) (src dst : path) : M IoKind unit :=
  _ ← fs_read src;
  _ ← truncate_shared others dst;
  bytes ← fs_read src;
  write_shared others dst bytes.

(** The loop over the declared names and the request's paths; neither a link nor
    a copy can be made at a name that ends in a separator. *)
Fixpoint stage_shards (staging_dir : path) (shards : list (string * path)) (links : list (path * path)) : M Fault unit :=
  match shards with
  | [] => mret tt
  | (declared, src) :: shards =>
      let dst := join_shard staging_dir declared in
      _ ← write_error (parent dst) (create_dir_all (parent dst));
      if trailing_separator declared then throw (Errs (CV_Read (display src)))
      else
      r ← attempt (hard_link src dst);
      match r with
      | Ok _ => stage_shards staging_dir shards ((dst, src) :: links)
      | Err IoNotFound => throw (Errs (CV_Read (display src)))
      | Err _ => _ ← read_error src (fs_copy (other_names links dst) src dst); stage_shards staging_dir shards links
      end
  end.

(** ** Jobs *)

Section ConvertRun.
Context `{U : UuidLib} `{T : TempLib} `{N : TrainLib} `{HP : !HeadParams N} `{S : SerdeValue} `{SH : Sha256Lib}.
Context `{JC : !Json WorkspaceCore} `{JH : !Json HeadIndex} `{JM : !Json HeadManifest} `{JL : !Json LogLine}.
Context `{B : !Broadcast RegistryEvent}.

Record ConvertJob := mkConvertJob {
  cj_job_id : JobId;
  cj_workspace_id : WorkspaceId;
  cj_head_id : HeadId;
  cj_workspace_revision : WorkspaceRevision;
  cj_model_json_path : path;
  cj_shard_paths : list path;
  cj_labels_path : path;
  cj_labels_format : LabelsFormat;
}.

Record ConvertOutcome := mkConvertOutcome { co_head_id : HeadId; co_sha256 : string; co_n_classes : Z }.

(** The disk, the workspace manager and the number of the log's last line. *)
Record ConvertState := mkConvertState { cs_world : World; cs_mgr : WorkspaceMgr; cs_seq : Z }.

#[export] Instance ConvertState_world : WorldOf ConvertState :=
  {| get_world := cs_world; put_world := λ w s, mkConvertState w (cs_mgr s) (cs_seq s) |}.
#[export] Instance ConvertState_mgr : MgrOf ConvertState :=
  {| get_mgr := cs_mgr; put_mgr := λ mgr s, mkConvertState (cs_world s) mgr (cs_seq s) |}.
Abbreviation ConvertM := (StateM ConvertState Fault).

Variable root : path.
(** The wall clock's text at an event of the log and at the manifest's creation,
    and the text an error is rendered to. *)
Variables (at_event : string → string) (created_at : string) (to_string : Fault → list ascii).

Definition convert_staging_dir (workspace_dir : path) (job_id : JobId) : path :=
  workspace_dir ++ [ROOT_TMP_DIR_NAME; ("convert-" ++ JobId_display job_id)%string].
Definition convert_mpk_tempfile (workspace_dir : path) (job_id : JobId) (head_id : HeadId) : path :=
  workspace_dir ++ [ROOT_TMP_DIR_NAME; ("convert-" ++ JobId_display job_id ++ "-" ++ HeadId_display head_id ++ ".mpk")%string].

(** [ConvertJobLog::open]: the log's file. *)
Definition ConvertJobLog_open (workspace_dir : path) (job_id : JobId) : M Fault path :=
  let dir := workspace_dir ++ [CONVERTER_LOGS_DIR_NAME] in
  _ ← write_error dir (create_dir_all dir);
  let p := dir ++ [(JobId_display job_id ++ ".jsonl")%string] in
  _ ← write_error p (open_append p);
  mret p.

(** [ConvertJobLog::event]: the line numbered [seq] is appended. *)
Definition ConvertJobLog_line (log : path) (seq : Z) (state : string) (message : option (list ascii)) : M Fault unit :=
  match to_vec (mkLogLine seq (at_event state) state None (truncate_log_message <$> message)) with
  | None => throw (Errs CV_MetadataSerialize)
  | Some bytes => write_error ["<converter_logs>"%string] (write_file log (bytes ++ [lf]))
  end.
Definition next_line (s : ConvertState) : Z := sat_add64 (cs_seq s) 1.
Definition ConvertJobLog_event (log : path) (state : string) : ConvertM unit := λ s,
  io (ConvertJobLog_line log (next_line s) state None) (mkConvertState (cs_world s) (cs_mgr s) (next_line s)).

(** [files.publish_trained_head(..)], its error rendered. *)
Definition publish_error (workspace_dir : path) (e : FileError) : Fault := Errs (CV_Write (display workspace_dir)).

Definition put_error (p : path) (bytes : list ascii) : M Fault unit := map_throw (λ _, Errs (CV_Write (display p))) (put_atomic p bytes).

(** The bundle in the staging directory, and its manifest. *)
Definition stage_bundle (job : ConvertJob) (workspace_dir : path) (log : path) : ConvertM TfjsManifest :=
  _ ← ConvertJobLog_event log "read_model_json";
  json_bytes ← io (read_error (cj_model_json_path job) (fs_read (cj_model_json_path job)));
  manifest ← io (lift (map_err Errs (parse_tfjs_manifest_with_limits default_limits json_bytes)));
  if negb (List.length (tm_shards manifest) =? List.length (cj_shard_paths job))%nat
  then fails_with (Errs (CV_TfjsParse "shards" "request and manifest declare different numbers of shards"))
  else
  let tmp_root := workspace_dir ++ [ROOT_TMP_DIR_NAME] in
  _ ← io (write_error tmp_root (create_dir_all tmp_root));
  let staging_dir := convert_staging_dir workspace_dir (cj_job_id job) in
  _ ← io (write_error staging_dir (create_dir_all staging_dir));
  _ ← io (put_error (staging_dir ++ ["model.json"%string]) json_bytes);
  _ ← io (stage_shards staging_dir (zip (tm_shards manifest) (cj_shard_paths job)) []);
  mret manifest.

(** The blob of the staged bundle's head, and its labels. *)
Definition staged_head (job : ConvertJob) (workspace_dir : path) (log : path) (manifest : TfjsManifest) : ConvertM (HeadWeights * list string) :=
  _ ← ConvertJobLog_event log "extract_weights";
  x ← io (lift (map_err Errs (pick_tfjs_head_entries manifest)));
  y ← io (read_head (convert_staging_dir workspace_dir (cj_job_id job)) manifest (fst x) (snd x) None);
  _ ← ConvertJobLog_event log "read_labels";
  labels ← io (read_labels_from_path (cj_labels_path job) (cj_labels_format job) (hw_n_classes (snd y)));
  mret (snd y, labels).

Definition convert_manifest (job : ConvertJob) (blob : list ascii) (labels : list string) : HeadManifest :=
  mkHeadManifest (cj_head_id job) (cj_workspace_id job) (cj_workspace_revision job) (sha256_hex_of blob) (Z.of_nat (List.length labels))
    (Z.of_nat (List.length blob)) created_at labels.

Definition run_convert_job_inner (job : ConvertJob) (workspace_dir : path) (log : path) : ConvertM ConvertOutcome :=
  manifest ← stage_bundle job workspace_dir log;
  x ← staged_head job workspace_dir log manifest;
  let '(weights, labels) := x in
  _ ← ConvertJobLog_event log "stage_head_mpk";
  head_blob ← io (lift (build_head_mpk_blob weights));
  let mpk_tempfile := convert_mpk_tempfile workspace_dir (cj_job_id job) (cj_head_id job) in
  _ ← io (put_error mpk_tempfile head_blob);
  if u32_max <? hw_n_classes weights then fails_with (Errs (CV_BadClassCount (hw_n_classes weights) (max_n_classes default_limits)))
  else
  let manifest_struct := mkHeadManifest (cj_head_id job) (cj_workspace_id job) (cj_workspace_revision job) (sha256_hex_of head_blob)
    (hw_n_classes weights) (Z.of_nat (List.length head_blob)) created_at labels in
  _ ← ConvertJobLog_event log "publish_head";
  _ ← manager (publish_error workspace_dir) (publish_trained_head_for_workspace root (cj_workspace_id job) (mkPendingHead (cj_head_id job) mpk_tempfile manifest_struct));
  mret (mkConvertOutcome (cj_head_id job) (sha256_hex_of head_blob) (hw_n_classes weights)).

(** The sweep of the job's temporaries and the terminal line; failures are only
    traced. *)
Definition close_job (job : ConvertJob) (workspace_dir : path) (log : path) (s : ConvertState) (r : result Fault ConvertOutcome) : M Fault unit :=
  _ ← best_effort (fs_remove_dir_all (convert_staging_dir workspace_dir (cj_job_id job)));
  _ ← best_effort (fs_remove_file (convert_mpk_tempfile workspace_dir (cj_job_id job) (cj_head_id job)));
  best_effort (match r with
               | Ok _ => ConvertJobLog_line log (next_line s) "completed" None
               | Err e => ConvertJobLog_line log (next_line s) "failed" (Some (to_string e))
               end).

Definition run_convert_job (job : ConvertJob) : ConvertM ConvertOutcome :=
  let workspace_dir := workspace_dir_for root (cj_workspace_id job) in
  log ← io (ConvertJobLog_open workspace_dir (cj_job_id job));
  _ ← (λ s, (mkConvertState (cs_world s) (cs_mgr s) 0, Ret tt)) : ConvertM unit;
  _ ← ConvertJobLog_event log "started";
  finally (close_job job workspace_dir log) (run_convert_job_inner job workspace_dir log).
End ConvertRun.

(** ** The route ([api/routes/converter.rs]) *)

Section Route.
Context `{U : UuidLib} `{B : !Broadcast RegistryEvent} `{HJ : !HashIter JobId JobEntry} `{HL : !HashIter Z (list JobReference)}.
Context `{T : TempLib} `{JC : !Json WorkspaceCore} `{JH : !Json HeadIndex}.
Variables (cfg : JobRegistryCfg) (root : path).
(** The text a [ValidationError] is rendered to. *)
Variable validation_text : ValidationError → string.

(** The path of a converter input; the panic of a path outside [converters/]
    fails the blocking task. *)
Definition resolve_converter_input (ws : WorkspaceId) (p : ConverterPath) : M ApiError path := λ w,
  match open_workspace_file root ws (workspace_relative p) w with
  | (w, Ret (resolved, File _ _)) => (w, Ret resolved)
  | (w, Ret (_, _)) => (w, Throw (match wire_form p with
                                  | Some sub => API_Bad ("convert input /" ++ sub ++ " is not a regular file")
                                  | None => API_Join end))
  | (w, Throw (FE_Io _ IoNotFound)) => (w, Throw (match wire_form p with
                                                   | Some sub => API_NotFound ("convert input not found: /" ++ sub)
                                                   | None => API_Join end))
  | (w, Throw e) => (w, Throw (API_Fs (FsError_from_file e)))
  | (w, Crash) => (w, Crash)
  end.

Fixpoint resolve_shards (ws : WorkspaceId) (ps : list ConverterPath) : M ApiError (list path) :=
  match ps with
  | [] => mret []
  | p :: ps => q ← resolve_converter_input ws p; qs ← resolve_shards ws ps; mret (q :: qs)
  end.

Definition resolve_inputs (ws : WorkspaceId) (params : TfjsConvertParams) : M ApiError (path * list path * path) :=
  model_json ← resolve_converter_input ws (tp_model_json_path params);
  shards ← resolve_shards ws (tp_shards params);
  labels ← resolve_converter_input ws (tp_labels_path params);
  mret (model_json, shards, labels).

(** [acquire_convert_permit] of the semaphore's one permit. *)
Definition acquire_convert_permit (free : bool) : result ConvertError bool := if free then Ok false else Err CV_Busy.

(** The job handed to the worker, with the permit, the manager and the answer. *)
Definition start_convert (ws : WorkspaceId) (req : ConvertRequest) (head_id : HeadId) (fresh : JobId) (now_str : string)
    (free : bool) (mgr : WorkspaceMgr) : M FileError (bool * WorkspaceMgr * result ApiError ConvertJob) :=
  match validate_convert_request req with
  | Err e => mret (free, mgr, Err (API_Bad (validation_text e)))
  | Ok _ =>
      x ← summary_call root ws mgr;
      match x with
      | (mgr, Err e) => mret (free, mgr, Err (API_Fs (FsError_from_file e)))
      | (mgr, Ok s) =>
          let 'Tfjs params := req in
          r ← attempt (resolve_inputs ws params);
          match r with
          | Err e => mret (free, mgr, Err e)
          | Ok (model_json, shards, labels) =>
              match acquire_convert_permit free with
              | Err e => mret (free, mgr, Err (API_Convert e))
              | Ok taken =>
                  match try_acquire cfg fresh now_str Convert [RefWorkspace ws] None (mgr_jobs mgr) with
                  | (reg, Err c) => mret (free, with_mgr_jobs reg mgr, Err (API_File (conflict_to_file_error c)))
                  | (reg, Ok job_id) =>
                      mret (taken, with_mgr_jobs reg mgr,
                        Ok (mkConvertJob job_id ws head_id (core_revision (ws_core s)) model_json shards labels (tp_labels_format params)))
                  end
              end
          end
      end
  end.

(** The worker's end: the job's terminal state, and the permit back. *)
Definition finish_convert (now_str : string) (to_string : Fault → list ascii) (job_id : JobId) (r : result Fault ConvertOutcome) (mgr : WorkspaceMgr)
    : bool * WorkspaceMgr :=
  (true, with_mgr_jobs match r with
    | Ok out => JobHandle_succeed cfg now_str (mkJobHandle job_id false) (Some (ResConvert (co_head_id out) (co_sha256 out) (co_n_classes out))) (mgr_jobs mgr)
    | Err e => JobHandle_fail cfg now_str (mkJobHandle job_id false) (to_string e) (mgr_jobs mgr)
    end mgr).
End Route.

(** ** Staging stays beside the heads *)

Lemma confined_hard_link (P : path → Prop) src dst : P dst → confined P (hard_link src dst).
Proof.
  intros Hp F HF. apply triple_syscall; [done|done|]. intros d [Hm Hd]. destruct (stat src d) as [n|]; [|done].
  assert (Hadd : no_moves (add_op (OpSet dst n) d) ∧ F (add_op (OpSet dst n) d)).
  { split; [by apply no_moves_add|]. apply (st_add _ _ HF); [done|done|]. by intros q ->%touches_set. }
  destruct n; (destruct (stat dst d); [done|]); by destruct (parent_ok dst d).
Qed.

Lemma set_names_stable (P : path → Prop) F names bytes d : stable P F → Forall P names → no_moves d → F d →
  no_moves (set_names names bytes d) ∧ F (set_names names bytes d).
Proof.
  intros HF Hn. unfold set_names. revert d. induction Hn as [|p names Hp _ IH]; intros d Hm Hd; [done|]. cbn [foldl]. apply IH; [by apply no_moves_add|].
  apply (st_add _ _ HF); [done|done|]. by intros q ->%touches_set.
Qed.

Lemma confined_truncate (P : path → Prop) others dst : Forall P others → P dst → confined P (truncate_shared others dst).
Proof.
  intros Ho Hp F HF. apply triple_syscall; [done|done|]. intros d [Hm Hd]. destruct (stat dst d) as [[c b| |t]|]; [|done..|].
  - apply (set_names_stable P); [done| |done|done]. apply Forall_app. split; [done|by constructor].
  - destruct (parent_ok dst d); [|done]. apply (set_names_stable P F [dst]); [done|by constructor|done|done].
Qed.

Lemma confined_write_shared (P : path → Prop) others dst bytes : Forall P others → P dst → confined P (write_shared others dst bytes).
Proof.
  intros Ho Hp F HF. apply triple_syscall; [done|done|]. intros d [Hm Hd]. destruct (stat dst d) as [[c b| |t]|]; [|done..].
  apply (set_names_stable P); [done| |done|done]. apply Forall_app. split; [done|by constructor].
Qed.

Lemma confined_copy (P : path → Prop) others src dst : Forall P others → P dst → confined P (fs_copy others src dst).
Proof.
  intros Ho Hp. unfold fs_copy. apply confined_bind; [apply confined_read|]. intros _. apply confined_bind; [by apply confined_truncate|].
  intros _. apply confined_bind; [apply confined_read|]. intros bytes. by apply confined_write_shared.
Qed.

Lemma other_names_in (P : path → Prop) links dst : Forall (λ l, P (fst l) ∧ P (snd l)) links → Forall P (other_names links dst).
Proof.
  intros Hl. unfold other_names. destruct (List.find _ _) as [[d src]|] eqn:Ef; [|constructor].
  apply List.find_some in Ef as [Hin%list_elem_of_In _]. rewrite list.Forall_forall in Hl. constructor; [by apply Hl in Hin as [_ ?]|].
  apply List.Forall_map, List.Forall_forall. intros l [Hlin _]%List.filter_In. by apply Hl, list_elem_of_In.
Qed.

Section Staging.
Context `{UL : UuidLaws} `{TL : TempLaws} `{JC : !Json WorkspaceCore} `{JH : !Json HeadIndex} `{JM : !Json HeadManifest}.
Variables (ws : path) (cell : WorkspaceCacheCell) (es : list entry).
Hypothesis Hes : ∀ e, e ∈ es → entry_ok e.

Lemma stage_shards_triple name shards links :
  Forall (λ x, side ws (snd x)) shards → Forall (λ l, side ws (fst l) ∧ side ws (snd l)) links →
  triple (backed ws cell es) (stage_shards (ws ++ [ROOT_TMP_DIR_NAME; name]) shards links) (λ _, backed ws cell es) (backed ws cell es) (backed ws cell es).
Proof.
  intros Hs. revert links. induction Hs as [|[declared src] shards Hsrc _ IH]; intros links Hl; cbn [stage_shards]; [by apply triple_ret|].
  cbv zeta. set (dst := join_shard _ declared). assert (Hdst : side ws dst) by (unfold dst, join_shard; apply side_app, side_tmp).
  eapply triple_bind with (R := λ _, backed ws cell es).
  { apply triple_map_throw. unfold dst, join_shard. set (l := omap _ _). destruct l as [|x l' _] using rev_ind.
    - rewrite app_nil_r. change [ROOT_TMP_DIR_NAME; name] with ([ROOT_TMP_DIR_NAME] ++ [name]). rewrite app_assoc, parent_app. by apply (mkdir_side ws cell es ROOT_TMP_DIR_NAME []).
    - rewrite app_assoc, parent_app, <-app_assoc. by apply mkdir_side. }
  intros _. destruct (trailing_separator declared); [by apply triple_throw|]. eapply triple_bind with (R := λ _, backed ws cell es).
  { apply confined_backed; [done|]. by apply confined_attempt, confined_hard_link. }
  assert (Hcopy : triple (backed ws cell es) (_ ← read_error src (fs_copy (other_names links dst) src dst); stage_shards (ws ++ [ROOT_TMP_DIR_NAME; name]) shards links)
    (λ _, backed ws cell es) (backed ws cell es) (backed ws cell es)).
  { eapply triple_bind with (R := λ _, backed ws cell es); [|intros _; by apply IH].
    apply triple_map_throw, confined_backed; [done|]. apply confined_copy; [by apply other_names_in|done]. }
  intros [u|[]]; [|by apply triple_throw|exact Hcopy|exact Hcopy]. apply IH. by constructor.
Qed.

Lemma stage_shards_sound staging shards links : throws_sound (stage_shards staging shards links).
Proof.
  revert links. induction shards as [|[declared src] shards IH]; intros links; cbn [stage_shards]; [apply sound_ret|]. cbv zeta.
  apply sound_bind; [by apply sound_map|]. intros _. destruct (trailing_separator declared); [by intros w e [= <-]|]. apply sound_bind.
  { intros w e. unfold attempt. by destruct (hard_link src _ w) as [w' [a|k|]]. }
  intros [u|[]]; [apply IH|by intros w e [= <-]|..]; (apply sound_bind; [by apply sound_map|intros _; apply IH]).
Qed.
End Staging.

(** ** The steps of a job *)

Section Steps.
Context `{UL : UuidLaws} `{TL : TempLaws} `{N : TrainLib} `{HP : !HeadParams N} `{SL : SerdeLaws} `{SHL : Sha256Laws}.
Context `{JC : !Json WorkspaceCore} `{JCL : !JsonLaws WorkspaceCore} `{JH : !Json HeadIndex} `{JHL : !JsonLaws HeadIndex}.
Context `{JM : !Json HeadManifest} `{JML : !JsonLaws HeadManifest} `{JL : !Json LogLine} `{B : !Broadcast RegistryEvent}.

#[export] Instance ConvertState_laws : WorldLaws ConvertState_world.
Proof. by split. Qed.
#[export] Instance ConvertState_mgr_laws : MgrLaws ConvertState_world ConvertState_mgr.
Proof. by split. Qed.

Variable at_event : string → string.

Lemma line_sound log seq state message : throws_sound (ConvertJobLog_line at_event log seq state message).
Proof. unfold ConvertJobLog_line. destruct (to_vec _) as [bytes|]; [by apply sound_map|by intros w e [= <-]]. Qed.

Lemma confined_line (P : path → Prop) log seq state message : P log → confined P (ConvertJobLog_line at_event log seq state message).
Proof.
  intros Hp. unfold ConvertJobLog_line. destruct (to_vec _) as [bytes|]; [|apply confined_throw]. by apply confined_map_throw, confined_write.
Qed.

(** An event keeps what the log's file has no part in. *)
Lemma rt_event (P : path → Prop) mg D log state : stable P D → (∀ d, D d → no_moves d) → P log →
  rt (frame mg D) (ConvertJobLog_event at_event log state) (λ _, frame mg D) (frame mg D) (frame mg D).
Proof.
  intros HD Hm Hp s [Hg Hd]. unfold ConvertJobLog_event.
  apply (rt_io mg _ D (λ _, D) D D); [|apply line_sound|by split].
  eapply triple_conseq; [apply (confined_line P log _ _ _ Hp D HD)|intros d' Hd'; split; [by apply Hm|done]|by intros ? d' []|by intros d' []..].
Qed.

(** *** Reading the staged head *)

(** A program that changes nothing. *)
Lemma reads_triple {A : Type} (D : Disk → Prop) (c : M Fault A) (Q : A → Prop) :
  (∀ m, ∃ v, reads m c v ∧ v ≠ Err Panics ∧ ∀ a, v = Ok a → Q a) → triple D c (λ a d, Q a ∧ D d) D D ∧ throws_sound c.
Proof.
  intros Hc. split.
  - intros w Hw. destruct (Hc (visible (disk w))) as (v & Hv & _ & HQ). destruct (Hv w eq_refl) as (Hd & Hr & _).
    destruct (c w) as [w' [a|e|]]; cbn [fst snd] in *; rewrite Hd; [|done..]. split; [|done]. apply HQ.
    destruct Hr as [Hr|[Hr|[p Hr]]]; [|done|done]. by apply to_outcome_Ret.
  - intros w e He. destruct (Hc (visible (disk w))) as (v & Hv & Hnp & _). destruct (Hv w eq_refl) as (_ & Hr & _). rewrite He in Hr.
    destruct Hr as [Hr|[Hr|[p [= ->]]]]; [|done|done]. apply to_outcome_Throw in Hr. intros ->. done.
Qed.

Lemma read_head_ok D dir manifest k b hasher : manifest_fits default_limits manifest → pick_tfjs_head_entries manifest = Ok (k, b) →
  triple D (read_head dir manifest k b hasher) (λ y d, weights_ok (snd y) ∧ D d) D D ∧ throws_sound (read_head dir manifest k b hasher).
Proof.
  intros Hm Hp. apply (reads_triple D _ (λ y, weights_ok (snd y))). intros m. destruct (reads_head m default_limits dir manifest k b hasher Hm Hp) as (v & Hv & Hnp & Hval).
  exists v. split_and!; [done|done|]. intros [h hw] ->. destruct (proj1 (Hval h hw) eq_refl) as (cs & _ & Hx & _). by eapply buffers_ok.
Qed.

Lemma labels_metadata_ok D p : triple D (read_tfjs_labels p) (λ _, D) D D ∧ throws_sound (read_tfjs_labels p).
Proof.
  unfold read_tfjs_labels. split.
  - eapply triple_bind with (R := λ _, D); [apply triple_map_throw, visible_read|]. intros bytes. unfold lift. destruct (map_err _ _); [by apply triple_ret|by apply triple_throw].
  - apply sound_bind; [by apply sound_map|]. intros bytes w e. unfold lift. destruct (labels_of_metadata bytes); cbn; by intros [= <-].
Qed.

Lemma read_labels_ok D p format n :
  triple D (read_labels_from_path p format n) (λ labels d, Z.of_nat (List.length labels) = n ∧ D d) D D ∧ throws_sound (read_labels_from_path p format n).
Proof.
  unfold read_labels_from_path. split.
  - eapply triple_bind with (R := λ _, D).
    + destruct format; [|apply labels_metadata_ok]. eapply triple_bind with (R := λ _, D); [apply triple_map_throw, visible_read|].
      intros text. destruct (utf8_ok text); [by apply triple_ret|by apply triple_throw].
    + intros labels. destruct (Z.eqb_spec (Z.of_nat (List.length labels)) n); [by apply triple_ret|by apply triple_throw].
  - apply sound_bind.
    + destruct format; [|apply (labels_metadata_ok (λ _, True))]. apply sound_bind; [by apply sound_map|]. intros text. destruct (utf8_ok text); [apply sound_ret|by intros w e [= <-]].
    + intros labels. destruct (negb _); [by intros w e [= <-]|apply sound_ret].
Qed.
End Steps.

(** ** The job *)

Section Job.
Context `{UL : UuidLaws} `{TL : TempLaws} `{N : TrainLib} `{HP : !HeadParams N} `{SL : SerdeLaws} `{SHL : Sha256Laws}.
Context `{JC : !Json WorkspaceCore} `{JCL : !JsonLaws WorkspaceCore} `{JH : !Json HeadIndex} `{JHL : !JsonLaws HeadIndex}.
Context `{JM : !Json HeadManifest} `{JML : !JsonLaws HeadManifest} `{JL : !Json LogLine} `{B : !Broadcast RegistryEvent}.
Variables (root : path) (at_event : string → string) (created_at : string) (to_string : Fault → list ascii).
Variables (job : ConvertJob) (mg : WorkspaceMgr) (cell : WorkspaceCacheCell) (es : list entry).
Let wid := cj_workspace_id job.
Let ws := workspace_dir_for root wid.
Hypothesis Hcell : mgr_caches mg !! wid = Some cell.
Hypothesis Hok : entries_ok cell es.
Hypothesis Hid : canonical_id (cj_head_id job).
Hypothesis Hfresh : cj_head_id job ∉ map entry_id es.
(** The bundle lies in the workspace, beside the heads. *)
Hypothesis Hshards : Forall (side ws) (cj_shard_paths job).

#[local] Abbreviation ConvertM := (StateM ConvertState Fault).
Let D : Disk → Prop := backed ws cell es.
Let cut_off : ConvertState → Prop := cut_off root wid (cj_head_id job) (convert_manifest created_at job) cell.
Let failed : ConvertState → Prop := failed root wid (cj_head_id job) (convert_manifest created_at job) mg cell.

Definition convert_log : path := (ws ++ [CONVERTER_LOGS_DIR_NAME]) ++ [(JobId_display (cj_job_id job) ++ ".jsonl")%string].
Definition staged_mpk : path := convert_mpk_tempfile ws (cj_job_id job) (cj_head_id job).

Lemma convert_log_side : side ws convert_log.
Proof. unfold convert_log. rewrite <-app_assoc. by apply side_below. Qed.

Lemma staged_mpk_side : side ws staged_mpk.
Proof. apply side_tmp. Qed.

Lemma staged_mpk_not_log : convert_log ≠ staged_mpk.
Proof. unfold convert_log, staged_mpk, convert_mpk_tempfile. rewrite <-app_assoc. by intros [= E]%app_inv_head. Qed.

Lemma staged_mpk_put : staged_mpk ≠ [] ∧ not_temp staged_mpk ∧ (∀ q, put_scope staged_mpk q → side ws q).
Proof.
  unfold staged_mpk, convert_mpk_tempfile. set (name := ("convert-" ++ _)%string).
  change [ROOT_TMP_DIR_NAME; name] with ([ROOT_TMP_DIR_NAME] ++ [name]). rewrite app_assoc. split_and!.
  - by destruct (ws ++ [ROOT_TMP_DIR_NAME]).
  - by apply not_temp_snoc.
  - intros q. apply put_scope_side; [rewrite <-app_assoc; apply side_tmp|]. intros n. rewrite <-app_assoc. apply side_tmp.
Qed.

Lemma to_failed {A : Type} (c : ConvertM A) (Q : A → ConvertState → Prop) :
  rt (frame mg D) c Q (frame mg D) (frame mg D) → rt (frame mg D) c Q failed cut_off.
Proof.
  intros Hc. eapply rt_conseq; [exact Hc|done|done| |].
  - intros s Hs. by eapply frame_failed.
  - intros s Hs. by eapply frame_failed.
Qed.

Lemma step_io {A : Type} (c : M Fault A) : triple D c (λ _, D) D D → throws_sound c → rt (frame mg D) (io c : ConvertM A) (λ _, frame mg D) (frame mg D) (frame mg D).
Proof. intros H1 H2. apply (rt_io mg c D (λ _, D) D D H1 H2). Qed.

(** A step that answers something of which [φ] holds. *)
Lemma step_pure {A : Type} (c : M Fault A) (φ : A → Prop) : triple D c (λ a d, φ a ∧ D d) D D → throws_sound c →
  rt (frame mg D) (io c : ConvertM A) (λ a s, φ a ∧ frame mg D s) (frame mg D) (frame mg D).
Proof.
  intros H1 H2. eapply rt_conseq; [apply (rt_io mg c D (λ a d, φ a ∧ D d) D D H1 H2)|done| |done|done]. by intros a s [Hg [Hφ Hd]].
Qed.

Lemma step_lift {A : Type} (r : result ConvertError A) : rt (frame mg D) (io (lift (map_err Errs r)) : ConvertM A) (λ a s, r = Ok a ∧ frame mg D s) (frame mg D) (frame mg D).
Proof.
  apply (step_pure _ (λ a, r = Ok a)).
  - destruct r; [by apply triple_ret|by apply triple_throw].
  - intros w e. destruct r; [done|]. by intros [= <-].
Qed.

Lemma step_event state : rt (frame mg D) (ConvertJobLog_event at_event convert_log state) (λ _, frame mg D) (frame mg D) (frame mg D).
Proof. apply (rt_event at_event (side ws)); [apply backed_side, Hok|apply ba_moves|apply convert_log_side]. Qed.

Lemma put_side p bytes : p ≠ [] → not_temp p → (∀ q, put_scope p q → side ws q) → triple D (put_error p bytes) (λ _, D) D D.
Proof. intros H1 H2 H3. apply triple_map_throw, confined_backed; [apply Hok|]. by apply confined_put_atomic. Qed.

Lemma rt_stage : rt (frame mg D) (stage_bundle at_event job ws convert_log)
  (λ manifest s, manifest_fits default_limits manifest ∧ frame mg D s) (frame mg D) (frame mg D).
Proof.
  unfold stage_bundle. eapply rt_then; [apply step_event|]. intros _.
  eapply rt_then; [apply step_io; [apply triple_map_throw, visible_read|by apply sound_map]|]. intros json.
  eapply rt_bind; [apply step_lift|]. intros manifest. apply rt_pure. intros Hp.
  pose proof (parse_fits default_limits json manifest ltac:(done) Hp) as Hm.
  destruct (negb _); [by apply rt_fails|]. cbv zeta.
  eapply rt_then; [apply step_io; [apply triple_map_throw, (mkdir_side ws cell es ROOT_TMP_DIR_NAME []); [done..|apply Hok]|by apply sound_map]|]. intros _.
  eapply rt_then; [apply step_io; [apply triple_map_throw, mkdir_side; [done..|apply Hok]|by apply sound_map]|]. intros _.
  eapply rt_then.
  { apply step_io; [|by apply sound_map]. unfold convert_staging_dir. apply put_side; [by destruct ws|by apply not_temp_snoc|].
    intros q. apply put_scope_side; [apply side_app, side_tmp|]. intros n. apply side_app, side_tmp. }
  intros _. eapply rt_then; [apply step_io; [apply stage_shards_triple; [apply Hok| |constructor]|apply stage_shards_sound]|intros _; by apply rt_ret].
  apply list.Forall_forall. intros [declared src] Hin%elem_of_zip_r. cbn. by eapply list.Forall_forall in Hshards.
Qed.

Lemma rt_staged_head manifest : manifest_fits default_limits manifest →
  rt (frame mg D) (staged_head at_event job ws convert_log manifest)
    (λ x s, (weights_ok (fst x) ∧ Z.of_nat (List.length (snd x)) = hw_n_classes (fst x)) ∧ frame mg D s) (frame mg D) (frame mg D).
Proof.
  intros Hm. unfold staged_head. eapply rt_then; [apply step_event|]. intros _.
  eapply rt_bind; [apply step_lift|]. intros [k b]. apply rt_pure. intros Hp. cbn [fst snd].
  destruct (read_head_ok D (convert_staging_dir ws (cj_job_id job)) manifest k b None Hm Hp) as [H1 H2].
  eapply rt_bind; [by apply (step_pure _ (λ y, weights_ok (snd y)))|]. intros y. apply rt_pure. intros Hw.
  eapply rt_then; [apply step_event|]. intros _.
  destruct (read_labels_ok D (cj_labels_path job) (cj_labels_format job) (hw_n_classes (snd y))) as [H3 H4].
  eapply rt_bind; [by apply (step_pure _ (λ labels, Z.of_nat (List.length labels) = hw_n_classes (snd y)))|]. intros labels. apply rt_pure. intros Hl.
  by apply rt_ret.
Qed.

(** What an outcome says of the head that was published: the head of some weights
    of the declared shape, labelled. *)
Definition converted (out : ConvertOutcome) (weights : HeadWeights) (labels : list string) (blob : list ascii) : Prop :=
  weights_ok weights ∧ build_head_mpk_blob weights = Ok blob ∧ Z.of_nat (List.length labels) = hw_n_classes weights ∧
  out = mkConvertOutcome (cj_head_id job) (sha256_hex_of blob) (hw_n_classes weights).

Definition landed (out : ConvertOutcome) (s : ConvertState) : Prop :=
  ∃ weights labels blob mb, converted out weights labels blob ∧
    published_to root wid (cj_head_id job) (convert_manifest created_at job) mg cell es staged_mpk blob mb labels s.

(** The weights are staged. *)
Definition mpk_staged (blob : list ascii) (d : Disk) : Prop := D d ∧ definite d staged_mpk (Some (File blob true)).

Lemma rt_put_mpk blob : rt (frame mg D) (io (put_error staged_mpk blob) : ConvertM unit) (λ _, frame mg (mpk_staged blob)) (frame mg D) (frame mg D).
Proof.
  destruct staged_mpk_put as (Hne & Ht & Hs). apply (rt_io mg _ D (λ _, mpk_staged blob) D D); [|by apply sound_map]. apply triple_map_throw.
  assert (HF : stable (put_scope staged_mpk) D) by (eapply stable_weaken; [apply backed_side, Hok|exact Hs]).
  eapply triple_conseq; [apply (put_atomic_triple D None staged_mpk blob Hne Ht HF)|..]; cbn [held].
  - intros d Hd. split_and!; [done|by eapply ba_moves|constructor].
  - by intros _ d (H1 & _ & H3).
  - by intros d (H1 & _ & _).
  - by intros d (H1 & _ & _).
Qed.

Lemma rt_event_staged blob state :
  rt (frame mg (mpk_staged blob)) (ConvertJobLog_event at_event convert_log state) (λ _, frame mg (mpk_staged blob)) (frame mg (mpk_staged blob)) (frame mg (mpk_staged blob)).
Proof.
  apply (rt_event at_event (λ q, q = convert_log)); [|by intros d [Hd _]; eapply ba_moves|done]. apply stable_and.
  - eapply stable_weaken; [apply backed_side, Hok|]. intros q ->. apply convert_log_side.
  - apply definite_stable. intros E. by apply staged_mpk_not_log.
Qed.

Lemma rt_convert_inner : rt (frame mg D) (run_convert_job_inner root at_event created_at job ws convert_log) landed failed cut_off.
Proof.
  unfold run_convert_job_inner. eapply rt_bind; [apply to_failed, rt_stage|]. intros manifest. apply rt_pure. intros Hm.
  eapply rt_bind; [by apply to_failed, rt_staged_head|]. intros [weights labels]. cbn [fst snd]. apply rt_pure. intros [Hw Hl].
  eapply rt_then; [apply to_failed, step_event|]. intros _.
  eapply rt_bind.
  { apply to_failed, (step_pure _ (λ blob, build_head_mpk_blob weights = Ok blob)); pose proof (build_blob_sound weights Hw); unfold lift; destruct (build_head_mpk_blob weights).
    - by apply triple_ret.
    - by apply triple_throw.
    - done.
    - intros w e' [= <-]. by intros ->. }
  intros blob. apply rt_pure. intros Hb. cbv zeta. fold staged_mpk.
  eapply rt_then; [apply to_failed, rt_put_mpk|]. intros _.
  assert (HX : ∀ s, frame mg (mpk_staged blob) s → failed s) by (intros s [Hg [Hd _]]; by eapply frame_failed).
  destruct Hw as (Hn & Hw'). destruct (Z.ltb_spec u32_max (hw_n_classes weights)) as [Hu|_]; [unfold u32_max in Hu; lia|].
  eapply rt_then; [eapply rt_conseq; [apply rt_event_staged|done|done|exact HX|by intros s Hs; apply HX in Hs as [_ ?]]|]. intros _.
  rewrite <-Hl. eapply rt_bind.
  { eapply rt_conseq; [apply (rt_publish root wid (cj_head_id job) (convert_manifest created_at job) mg cell es (λ _ _, eq_refl) Hcell Hok Hid Hfresh staged_mpk blob labels (publish_error ws))|..];
      [by eexists _, []|done| |intros u s Hs; exact Hs|done|done].
    intros s [Hg [Hd Hdef]]. split; [done|]. split; [done|]. by apply definite_visible. }
  intros u. apply rt_ret. intros s (mb & Hmb & Hp). exists weights, labels, blob, mb. split; [|done]. split_and!; [done|done|done|by rewrite Hl].
Qed.

Lemma converted_steady out : steady (side ws) (landed out).
Proof. do 4 (apply steady_ex; intros ?). apply steady_and, workspace_ok_steady. Qed.

Lemma converted_cut_off out s : landed out s → cut_off s.
Proof. intros (weights & labels & blob & mb & _ & Hp). by eapply published_cut_off. Qed.

Lemma confined_close s r : confined (side ws) (close_job at_event to_string job ws convert_log s r).
Proof.
  unfold close_job. apply confined_bind; [apply confined_best_effort, confined_remove_dir_all; intros q [k ->]%below_true; apply side_app, side_tmp|].
  intros _. apply confined_bind; [apply confined_best_effort, confined_remove_file, staged_mpk_side|]. intros _.
  apply confined_best_effort. destruct r; apply confined_line, convert_log_side.
Qed.

Lemma rt_convert_log_open : rt (frame mg D) (io (ConvertJobLog_open ws (cj_job_id job)) : ConvertM path)
  (λ log s, log = convert_log ∧ frame mg D s) (frame mg D) (frame mg D).
Proof.
  apply (step_pure _ (λ log, log = convert_log)); unfold ConvertJobLog_open.
  - eapply triple_bind with (R := λ _, D); [apply triple_map_throw, (mkdir_side ws cell es CONVERTER_LOGS_DIR_NAME []); [done..|apply Hok]|].
    intros _. eapply triple_bind with (R := λ _, D); [|intros _; by apply triple_ret].
    apply triple_map_throw, confined_backed; [apply Hok|]. apply confined_append, convert_log_side.
  - apply sound_bind; [by apply sound_map|]. intros _. apply sound_bind; [by apply sound_map|]. intros _. apply sound_ret.
Qed.

Lemma rt_convert_job : rt (frame mg D) (run_convert_job root at_event created_at to_string job) landed failed cut_off.
Proof.
  unfold run_convert_job. fold wid. fold ws. cbv zeta. eapply rt_bind; [apply to_failed, rt_convert_log_open|]. intros log. apply rt_pure. intros ->.
  eapply rt_then with (P1 := frame mg D); [by intros s [Hg Hd]|]. intros _.
  eapply rt_then; [apply to_failed, step_event|]. intros _. apply (rt_finally (side ws)).
  - apply confined_close.
  - apply converted_steady.
  - apply failed_steady.
  - intros out s. apply converted_cut_off.
  - by intros s [_ ?].
  - apply rt_convert_inner.
Qed.

End Job.

(** ** The route's job *)

Section RouteFacts.
Context `{UL : UuidLaws} `{B : !Broadcast RegistryEvent} `{HJ : !HashIter JobId JobEntry} `{HL : !HashIter Z (list JobReference)}.
Context `{T : TempLib} `{JC : !Json WorkspaceCore} `{JH : !Json HeadIndex}.
Variables (cfg : JobRegistryCfg) (root : path) (validation_text : ValidationError → string).

Lemma converter_input_side ws p s q w w' : ConverterPath_parse s = Ok p →
  resolve_converter_input root ws p w = (w', Ret q) → side (workspace_dir_for root ws) q.
Proof.
  intros Hp. unfold resolve_converter_input, open_workspace_file, workspace_asset_path, mbind, M_bind, path_exists. cbn.
  destruct (negb _); cbn; [done|]. case_bool_decide; cbn; [done|]. unfold map_throw.
  destruct (symlink_metadata _ w) as [w1 [n|k|]]; cbn; [|by destruct k|done].
  destruct n as [c b| |t]; cbn; [|done..]. intros [= _ <-]. unfold workspace_asset_path_join, components_path.
  destruct (converter_path_roundtrip s p Hp) as (sub & _ & _ & _ & _ & cs & Ec & _). apply (f_equal (map string_of_list_ascii)) in Ec.
  rewrite Ec. cbn [map]. apply side_below; by vm_compute.
Qed.

Lemma resolve_shards_side ws ps qs w w' : Forall (λ p, ∃ s, ConverterPath_parse s = Ok p) ps →
  resolve_shards root ws ps w = (w', Ret qs) → Forall (side (workspace_dir_for root ws)) qs.
Proof.
  intros Hps. revert qs w w'. induction Hps as [|p ps [s Hs] _ IH]; intros qs w w'; cbn; [by intros [= _ <-]|].
  unfold mbind, M_bind. destruct (resolve_converter_input root ws p w) as [w1 [q|e|]] eqn:E1; [|done..].
  destruct (resolve_shards root ws ps w1) as [w2 [rest|e|]] eqn:E2; [|done..]. intros [= _ <-]. constructor; [by eapply converter_input_side|by eapply IH].
Qed.

(** A job the route hands on holds the permit, and its shards lie beside the
    heads of its workspace. *)
Lemma start_convert_job ws params head_id fresh now_str free mgr w w' free' mgr' job :
  Forall (λ p, ∃ s, ConverterPath_parse s = Ok p) (tp_shards params) →
  start_convert cfg root validation_text ws (Tfjs params) head_id fresh now_str free mgr w = (w', Ret (free', mgr', Ok job)) →
  free = true ∧ free' = false ∧ cj_workspace_id job = ws ∧ cj_head_id job = head_id ∧
  Forall (side (workspace_dir_for root ws)) (cj_shard_paths job).
Proof.
  intros Hps. unfold start_convert. destruct (validate_convert_request _); [|done]. unfold mbind, M_bind.
  destruct (summary_call root ws mgr w) as [w1 [[mgr1 [sm|e]]|e|]]; [|done..].
  generalize (try_acquire cfg fresh now_str Convert [RefWorkspace ws] None (mgr_jobs mgr1)). intros acquired. unfold attempt, resolve_inputs, mbind, M_bind.
  destruct (resolve_converter_input root ws (tp_model_json_path params) w1) as [w2 [model_json|e|]]; cbn; [|done..].
  destruct (resolve_shards root ws (tp_shards params) w2) as [w3 [shards|e|]] eqn:Es; cbn; [|done..].
  destruct (resolve_converter_input root ws (tp_labels_path params) w3) as [w4 [labels|e|]]; cbn; [|done..].
  unfold acquire_convert_permit. destruct free; [|done].
  destruct acquired as [reg [id|c]]; [|done]. intros [= _ <- _ <-].
  split_and!; [done..|]. by eapply resolve_shards_side.
Qed.
End RouteFacts.

(** ** Examples *)

(** A bundle whose manifest names one file twice, with the same upload for both:
    the second link finds the first, and the copy it falls back to truncates the
    upload through it. *)
Definition uploads : fs :=
  {[ [] := Dir; ["c"]%string := Dir; ["c"; "a.bin"]%string := File (bytes_of "weights") true; ["t"]%string := Dir ]}.

Lemma duplicate_shard_empties_upload :
  let src := ["c"; "a.bin"]%string in
  let '(w, r) := stage_shards ["t"%string] [("a.bin"%string, src); ("a.bin"%string, src)] [] (mkWorld (mkDisk uploads []) None []) in
  r = Ret tt ∧ visible (disk w) !! src = Some (File [] false).
Proof. vm_compute. done. Qed.

Section Scenario.
#[local] Existing Instances long_temp_lib text_uuid_lib counter_lib long_temp_laws text_uuid_laws identity_sha identity_sha_laws
  sized_params bundle_value toy_value_laws tr_bus tr_core_json tr_index_json tr_manifest_json tr_line_json.

(** The workspace of two heads, with the bundle of two shards uploaded. *)
Definition cv_dir : path := sc_ws ++ ["converters"%string].
Definition cv_tree : fs :=
  list_to_map ((cv_dir, Dir) :: map (λ x, (cv_dir ++ [fst x], File (snd x) true))
    [("model.json", bytes_of "{}"); ("a.bin", zero_bytes 9); ("c.bin", zero_bytes 16003); ("labels.txt", (bytes_of "yes" ++ lf :: bytes_of "no")%list)]%string) ∪ sc_tree.
Definition cv_job : ConvertJob :=
  mkConvertJob tr_job_id hr_ws (sc_id "c") sc_rev (cv_dir ++ ["model.json"%string]) [cv_dir ++ ["a.bin"%string]; cv_dir ++ ["c.bin"%string]]
    (cv_dir ++ ["labels.txt"%string]) Lines.
Definition cv_state : ConvertState := mkConvertState (mkWorld (mkDisk cv_tree []) None []) hr_mgr 0.

Lemma cv_ok : backed sc_ws sc_cell sc_entries (disk (cs_world cv_state)).
Proof.
  split.
  - constructor.
  - apply facts_quiet. vm_compute. reflexivity.
  - exists (sc_bytes sc_index). split; [by apply (@from_to _ _ (bits_json_laws HeadIndex))|]. apply definite_quiet. vm_compute. reflexivity.
  - exists (sc_bytes sc_core). split; [by apply (@from_to _ _ (bits_json_laws WorkspaceCore))|]. apply definite_quiet. vm_compute. reflexivity.
Qed.

Lemma cv_shards : Forall (side sc_ws) (cj_shard_paths cv_job).
Proof.
  assert (Hs : ∀ name, side sc_ws (cv_dir ++ [name])) by (intros name; unfold cv_dir; rewrite <-app_assoc; by apply side_below).
  repeat apply List.Forall_cons; [apply Hs..|apply List.Forall_nil].
Qed.

End Scenario.
